(* ===== verification/_CoqProject ===== *)
-Q . S2P
Prelude.v
OrderedMap.v
Utf.v
Strings.v
StringSearch.v
Float64.v
Numbers.v
Arith.v
Values.v
ArrayIndex.v
Property.v
Objects.v
Prototypes.v
Arrays.v
Base64.v
Vm.v
Compiler.v
Semantics.v
ExprCorrect.v
Jumps.v
StmtCorrect.v
CompilerCorrect.v
ScriptCorrect.v
SwitchCorrect.v
Scripts.v
Promises.v
PromiseInv.v
PromiseJobs.v
PromiseSamples.v
FloatBits.v
TypedArrays.v
TypedArrayOps.v
TypedArrayMem.v
TypedArrayProps.v
TypedArraySet.v
TypedArraySearch.v
TypedArraySafe.v
TypedArraySafeOps.v
TypedArraySafety.v
TypedArraySamples.v
Globals.v
ArrayProto.v
ArrayProtoHeap.v
ArrayProtoSpec.v
ArrayProtoGeneric.v
ArrayProtoFast.v
ArrayProtoMutators.v
ArrayProtoSplice.v
ArrayProtoAccessors.v
ArrayProtoMethods.v
ArrayProtoCallbacks.v
ArrayProtoSamples.v
Parser.v
ParserGrammar.v
ParserCorrect.v
ParserExpressions.v
ParserStatements.v
ParserTermination.v
ParserSamples.v
Frontend.v
Lexer.v
LexerStrings.v
LexerWords.v
LexerBlanks.v
LexerScan.v
LexerSource.v
LexerGrammar.v
LexerSamples.v
LexerNumbers.v
RunString.v
