(* ===== verification/Prelude.v ===== *)
(** * Verification of the Sobek ECMAScript engine

    Sobek (package sobek, a fork of goja) runs ECMAScript in Go: a parser and a
    compiler produce instructions for a stack machine (vm.go), which works on
    values (value.go, string*.go), objects (object.go, array*.go, ...) and the
    builtins (builtin_*.go).  This library models the layer all of these rest on,
    the representation of data: strings, numbers and their arithmetic, value
    identity, the ordered hash map of Map and Set, property descriptors, ordinary
    objects, prototype chains, arrays and the methods of Array.prototype, array
    buffers with their typed views, and the base64 decoder.  It proves that these representations, whose variants are
    chosen for speed, implement what ECMAScript prescribes.  On top of that it
    models the lexer, the parser of expressions and statements, the compiler and the
    instruction loop for scripts without functions and declarations, and proves that
    scripts are lexed, parsed, compiled and run as the language prescribes, and promises
    with the job queue, through which scripts, the builtins and the embedding
    program call each other.

    ** The files and the code they model

    - [Prelude]: machine integers with their wrap-around ([uwrap], [swrap]), the
      error monad of computations that throw ([result], [exn]), shared lemmas,
      the tactic [zcmp] and the hint database [sobek].
    - [OrderedMap]: orderedMap and orderedMapIter of map.go.  The entries live in
      a heap of records, since removal leaves entries that live iterators still
      point to.  [MapKey] is the interface to the key type: a hash and an
      equality; [MapKeyLaws] says what the map needs of them.
    - [Utf]: runes, UTF-8 and UTF-16 coding of string_unicode.go and
      unistring/string.go.
    - [Strings]: asciiString, unicodeString, importedString and concatString
      (string*.go) as the constructors of [Str], the StringBuilder, property keys.
      The abstract value of a string is its list of code units, [units].
    - [StringSearch]: index and lastIndex, with the search of UTF-16 strings
      through their bytes.
    - [Float64]: IEEE 754 binary64 with exact integer arithmetic, the model of
      Go's float64.
    - [Numbers]: valueInt and valueFloat, their normal form, the conversions of
      runtime.go and ipow.go.
    - [Arith]: the numeric instructions of vm.go, on ints, floats and BigInts.
    - [Values]: SameAs, StrictEquals and hash of value.go, and the instance of
      [MapKey] that discharges the laws [OrderedMap] asks for.
    - [ArrayIndex]: which property keys are array indices (strToArrayIdx).
    - [Property]: valueProperty, PropertyDescriptor and _defineOwnProperty.
    - [Objects]: baseObject: the property table and the lazily sorted names.
    - [Prototypes]: setProto, lookups and assignment along the chain, on a heap of
      objects.
    - [Arrays]: arrayObject and sparseArrayObject with the switches between them.
    - [Base64]: the decoder of base64.go behind Uint8Array.fromBase64.
    - [Vm]: the instruction loop of vm.go with the operand and reference stacks,
      jumps, the result register and the try frames.  The operators and the global
      bindings are the interface [Runtime], which the theorems leave open.
    - [Compiler]: compiler_expr.go and compiler_stmt.go for expressions on global
      variables and all statements that need no scope: constant folding by the
      compiler's own machine, the chain of blocks in which breaks and continues
      are recorded, the patching of jumps, dead code in dummy mode.
    - [Semantics]: the reference: evaluation with completion records.
    - [ExprCorrect], [Jumps], [StmtCorrect], [CompilerCorrect], [ScriptCorrect],
      [SwitchCorrect]: the proof, from expressions over the jumps of a block to
      loops, try and switch; [RuntimeLaws] is what folding asks of a runtime.
    - [Scripts]: the theorems about whole scripts, and a small runtime that
      satisfies [RuntimeLaws].
    - [Promises]: builtin_promise.go with the job queue, the entry points and the
      iteration protocol of runtime.go and the async functions of func.go.  What
      runs on top (scripts, handlers, getters, the embedder) is any program of
      [code], a tree of calls into the runtime with the class [Host] for the
      bodies of its functions; the state counts every settling and reaction.
    - [PromiseInv], [PromiseJobs], [PromiseSamples]: the invariant of the promise
      heap, the theorems, and concrete hosts.
    - [FloatBits]: the encodings of floats in 16, 32 and 64 bits, and float16.go.
    - [TypedArrays]: typedarrays.go.  Memory is a list of blocks of bytes that
      slices of several buffers may share; an access outside a slice, through a
      nil slice or past its end, is the outcome [Crash].  The twelve element types
      are instances of the record [typedArray]; [Machine] is the byte order, the
      addresses and the conversion of floats out of range.
    - [TypedArrayOps]: builtin_typedarrays.go: buffers, data views, constructors
      and methods.  A value may run code when it is converted, and callbacks and
      species constructors are any functions on the heap.
    - [TypedArrayMem], [TypedArrayProps], [TypedArraySet], [TypedArraySearch]: the
      laws of memory and of the element types ([ElementLaws]), and the theorems on
      single accesses, on set and on the searches.
    - [TypedArraySafe], [TypedArraySafeOps], [TypedArraySafety]: memory safety, by
      a predicate on computations ([safeAt]) that composes along the monad.
    - [TypedArraySamples]: a concrete heap.
    - [Globals]: URI coding, escape, unescape and parseInt of builtin_global.go.

    - [ArrayProto]: builtin_array.go and the array iterator.  Objects live in a heap
      in which a dense array is a pointer to its struct and the struct has a slice,
      the address of a backing array and a length, so that sharing of backing
      arrays and stores through a slice can be seen; other exotic objects,
      conversions, callbacks and species constructors are the class [Env] of
      functions on that heap; an index outside of a slice is the outcome [Crash].
    - [ArrayProtoHeap]: the programming logic of the proofs ([does], total
      correctness of a computation of the monad) and what the methods of an object
      do to the list of elements of an array ([ArrayAt]).  In a well-formed heap
      ([WfHeap]) no two arrays share a struct or a backing array; a slice under
      construction is of no object ([Loose]).
    - [ArrayProtoSpec]: what each method means on a list of elements and holes
      ([specMethod]).
    - [ArrayProtoGeneric], [ArrayProtoFast], [ArrayProtoMutators],
      [ArrayProtoSplice], [ArrayProtoAccessors]: the generic paths, the operations
      on slices, and the methods that combine them.
    - [ArrayProtoMethods], [ArrayProtoCallbacks], [ArrayProtoSamples]: the theorems
      about all methods and about programs, the methods with a callback, and a
      concrete environment.

    - [Parser]: parser/expression.go and parser/statement.go on tokens.  The
      functions are mutually recursive; [call] names their calls with the local
      variables of the loops, each body takes the calls as a parameter, and [parse]
      ties the knot.
    - [ParserGrammar]: the productions of ECMAScript with the tree of each, and the
      rules for the insertion of semicolons.
    - [ParserCorrect], [ParserExpressions], [ParserStatements]: a left-recursive
      category corresponds to a loop of the parser, so that the statement proved
      along a derivation is about the loop that goes on with the tree so far.
    - [ParserTermination]: termination, and the theorems about scripts;
      [ParserSamples]: concrete scripts.
    - [Frontend]: RunScript, from tokens to the outcome of the machine.
    - [Lexer]: parser/lexer.go and the keywords of token/token_const.go on the text
      as a list of code points: scan and all it calls, template parts included.
      The tables of package unicode are the class [UnicodeTables], and what the
      lexer relies on is [UnicodeLaws].
    - [LexerStrings], [LexerWords]: the grammars of string literals and of names with
      their values, and that the scanner and parseStringLiteral agree on them;
      [LexerBlanks]: white space and comments as a relation; [LexerNumbers]:
      parseNumber.
    - [LexerScan]: what scan does on every text, and the tokens of a text ([lex]);
      [LexerSource]: texts as sequences of lexemes, by the tables of the lexer;
      [LexerGrammar]: the lexical grammar by the definitions of ECMAScript, with its
      own reserved words and character sets; [LexerSamples]: concrete texts.
    - [RunString]: RunString, from the text to the outcome of the machine.

    A function of the code is a Rocq function with its name where Rocq allows it;
    methods of several types are told apart by a prefix.  A panic with a
    JavaScript error is [Throw] (or [Raise] where the state changes before it),
    the call of a getter or setter is a result, since it runs arbitrary code.
    [int] has 64 bits.  Functions and services the sources only call are
    parameters: maphash, math.Pow, the result of converting an out-of-range float
    to an integer (which Go leaves open), the byte order, the addresses of
    objects, the equality of wrapped Go values.

    ** What the theorems show

    - Refinement.  The hash map is an association list in insertion order, also
      for iterators that run while it changes, and iterating over it yields that
      list; defining a property is ValidateAndApplyPropertyDescriptor, up to fields
      that an earlier redefinition has left over, which are characterised exactly;
      the names of an object are in the order
      of OrdinaryOwnPropertyKeys; an array in either representation, across all
      switches, is the array exotic object.
    - Strings: every operation depends on the code units only, in all
      combinations of representations; lazily flattened ropes cannot be observed;
      the search through bytes is the naive search.
    - Numbers: the integer fast paths agree with IEEE 754 and with the
      conversions of ECMAScript; powers are exact or reported as overflow;
      comparison of ints, floats and BigInts is exact.
    - Identity: on values in normal form SameAs is equality and agrees with the
      hash; an array index is recognised exactly in its canonical form.
    - Prototype chains stay acyclic, so that lookups terminate; a prototype is
      refused exactly when ECMAScript refuses it, and assignment follows a
      relational statement of OrdinarySet ([OrdinarySet]).
    - The base64 decoder, with its loops over eight and four characters, is the
      decoder of the specification that reads one character at a time.

    - Compiled scripts: the machine runs the code of a script to the state and
      completion of the reference semantics ([compile_correct]), with the finally
      blocks run on every way out.  The scripts covered are decided by [okS]: in
      dead code a branch leaves for the innermost block only, and inside of a
      finally block that branches away every branch has the same target.  The
      completion value of the script is not part of the statement.

    - Promises: a promise settles at most once ([promise_settles_once]); if no job
      was dropped by an interrupt or reordered by a call from Go before, when a
      program returns, each reaction of a settled promise has run once, in order
      and with its result ([reactions_run]); jobs run in the order they were
      queued ([jobs_fifo]).
    - Typed arrays: no operation leaves the memory of a buffer, whatever the code
      it calls does ([typedarray_memory_safe]); this leaves out map, from and of
      and the constructor from an iterable or array-like, of which the first three
      do leave it (see below).  An element or a data view reads back what
      ECMAScript prescribes and nothing else changes; set between overlapping
      arrays is as if the source were read first; the searches by raw elements are
      the element-wise ones; float16.go rounds correctly.
    - Global functions: URI coding and escape are undone by their inverses, and
      parseInt is exact below 2^63.

    - Array.prototype: a program of calls on arrays without holes behaves as on
      immutable lists ([array_programs_refine]); with holes each call does
      ([array_method_refines]); the methods with a callback are the functions on
      lists ([array_callbacks_refine]).  No array is changed through the backing
      array of another.  The arrays are plain and extensible with a writable length,
      their prototypes have no elements and argument conversions no effect.

    - The parser returns the tree of every script of the grammar of [ParserGrammar]
      ([parseProgram_complete]), which is therefore unambiguous
      ([grammar_unambiguous]), and ends on every input, in the model at the first error
      ([parseProgram_terminates]);
      with the lexer before it and the compiler and the machine behind it a script
      runs as prescribed ([RunString_correct]).  What the parser accepts beyond the
      grammar is not characterised.
    - The lexer: string literals are accepted exactly if they are in the grammar
      ([scanString_correct]), and nothing panics on any text ([lexer_total]); the
      texts of the lexical grammar have the tokens of their lexemes ([lex_complete]);
      the flags with which the parser inserts semicolons are those that scan
      computes ([next_refines_scan]); literals in bases 2, 8 and 16 are rounded once
      ([parseNumber_radix]).

    Further theorems exhibit where the code departs from these
    statements: [not_normalised], [unnormalised_key_lost], [stale_getter],
    [stale_writable], [stale_attribute], [builder_not_canonical], [toInt16_out_of_range],
    [strToInt64_rejects], [switch_loses_count], [dead_branch_corrupts],
    [finally_branch_redirected], [finally_continue_crashes], [do_result_stale],
    [callable_reorders_jobs], [job_exception_escapes], [await_throws_synchronously],
    [copyWithin_leaves_view], [typedArray_of_ignores_offset], [map_writes_detached],
    [set_writes_transferred], [mixed_content_empty], [sort_negative_zero_less],
    [decode_replaces_surrogate], [parseInt_rounds_twice], [stale_length_panics],
    [pop_miscounts], [map_miscounts], [direct_paths_ignore_attributes],
    [coalesce_mixed], [new_optional_chain], [static_no_semicolon],
    [throw_semicolon], [switch_unclosed], [regexp_unclosed_class], [private_digit],
    [nel_is_space], [template_zero_eight].  The
    corresponding theorems name these cases in their hypotheses.

    ** Bounds and fuel

    Loops that are not structural run on fuel that is proved to be enough: the
    chains of the map and of prototypes are bounded by the number of entries and
    objects, binary search by the length, the byte search and the base64 loops by the length of the input,
    the growth of a capacity by four rounds (which more than double it), decimal
    formatting by twenty digits.  Theorems state that a result is returned.  The
    fuel of [Semantics.exec] bounds the iterations of loops; the machine is shown
    to end whenever some fuel is enough for the semantics.  The fuel of [Promises]
    bounds the depth of calls, the iterations of a loop over an iterator and the
    rounds of leave, all of which a script can make infinite; [None] means that it
    did not suffice and nothing else.  Typed arrays need none: their loops count
    elements, and sort.Stable is any finite tree of Less and Swap calls.  The chains
    of [ArrayProto] are bounded by the number of objects; the fuel of
    [flattenIntoArray] is the depth of the Go stack.  The parser needs 64 units
    of fuel per token ([fuelFor]): a call that reads no token goes to one of a lower
    rank.  The loops of the lexer read a character in each round, and run on the
    length of the text.

    ** What is not modelled

    Of the lexer invalid UTF-8, positions and BigInt literals; of the parser the
    recovery after an error (the model ends with the first one), functions, classes, templates, regular
    expressions, destructuring and modules; of the compiler and the machine functions, calls, classes, scopes,
    member access, destructuring, iteration statements and generators; regular
    expressions, dates, JSON and number formatting (thin layers over Go packages);
    views of Go data by reflection; proxies, modules and the argument handling of
    the other builtins; conversions of objects to primitives, which run user code
    (where a component calls them, they are arbitrary code); symbol keys; of typed
    arrays property access by string keys, join, the iterators and the payload of
    NaNs; of Array.prototype sort, join, toString and Array.from.

    ** Plan

    Next: template objects, the source position tables, functions in the parser,
    then scopes, calls and the completion value of compiled scripts. *)

From Stdlib Require Export ZArith Lia.
From stdpp Require Export base gmap list strings sorting.

(** ** Machine integers

    Go's fixed-width integers are integers [Z] with the wrap-around written
    out: [uwrap w] is the conversion to an unsigned, [swrap w] to a signed
    [w]-bit integer. *)

Definition uwrap (w z : Z) : Z := (z mod 2 ^ w)%Z.
Definition swrap (w z : Z) : Z := ((z + 2 ^ (w - 1)) mod 2 ^ w - 2 ^ (w - 1))%Z.

Definition MaxUint32 : Z := 4294967295.
Definition MaxInt64 : Z := 9223372036854775807.
Definition MinInt64 : Z := (-9223372036854775808).

Lemma uwrap_range w z : (0 ≤ w)%Z → (0 ≤ uwrap w z < 2 ^ w)%Z.
Proof. intros Hw. apply Z.mod_pos_bound. lia. Qed.

Lemma uwrap_id w z : (0 ≤ z < 2 ^ w)%Z → uwrap w z = z.
Proof. intros Hz. by apply Z.mod_small. Qed.

Lemma swrap_range w z :
  (0 < w)%Z → (- 2 ^ (w - 1) ≤ swrap w z < 2 ^ (w - 1))%Z.
Proof.
  intros Hw. unfold swrap.
  assert (2 ^ w = 2 * 2 ^ (w - 1))%Z as ->.
  { rewrite <- Z.pow_succ_r by lia. f_equal. lia. }
  pose proof (Z.mod_pos_bound (z + 2 ^ (w - 1)) (2 * 2 ^ (w - 1))). lia.
Qed.

Lemma swrap_id w z :
  (0 < w)%Z → (- 2 ^ (w - 1) ≤ z < 2 ^ (w - 1))%Z → swrap w z = z.
Proof.
  intros Hw Hz. unfold swrap.
  rewrite Z.mod_small; [lia|].
  replace (2 ^ w)%Z with (2 * 2 ^ (w - 1))%Z; [lia|].
  rewrite <- Z.pow_succ_r by lia. f_equal. lia.
Qed.

(** Go's conversions. *)
Declare Scope go_scope.
Delimit Scope go_scope with go.
Notation "'uint8' z" := (uwrap 8 z) (at level 10, z at level 9) : go_scope.
Notation "'uint32' z" := (uwrap 32 z) (at level 10, z at level 9) : go_scope.
Notation "'uint64' z" := (uwrap 64 z) (at level 10, z at level 9) : go_scope.
Notation "'int64' z" := (swrap 64 z) (at level 10, z at level 9) : go_scope.

(** Decides the integer comparisons of the goal that linear arithmetic decides. *)
Ltac zcmp :=
  repeat match goal with
  | |- context [Z.leb ?a ?b] => first [rewrite (proj2 (Z.leb_le a b)) by lia | rewrite (proj2 (Z.leb_gt a b)) by lia]
  | |- context [Z.ltb ?a ?b] => first [rewrite (proj2 (Z.ltb_lt a b)) by lia | rewrite (proj2 (Z.ltb_ge a b)) by lia]
  | |- context [Z.eqb ?a ?b] => first [rewrite (proj2 (Z.eqb_eq a b)) by lia | rewrite (proj2 (Z.eqb_neq a b)) by lia]
  end.

(** Lemmas that close the common side conditions. *)
Create HintDb sobek.
#[export] Hint Resolve uwrap_range swrap_range uwrap_id swrap_id : sobek.

(** ** Errors

    A JavaScript exception unwinds the Go stack as a panic that carries the
    error object; a computation that can throw is a [result]. *)

Inductive exn :=
  | TypeError (msg : string)
  | RangeError (msg : string)
  | SyntaxError (msg : string)
  | URIError (msg : string).

#[global] Instance exn_eq_dec : EqDecision exn.
Proof. solve_decision. Defined.

Inductive result (A : Type) := Ok (a : A) | Throw (e : exn).
Arguments Ok {A} _.
Arguments Throw {A} _.

#[global] Instance result_ret : MRet result := λ A a, Ok a.
#[global] Instance result_bind : MBind result := λ A B k m, match m with Ok a => k a | Throw e => Throw e end.
#[global] Instance result_fmap : FMap result := λ A B f m, match m with Ok a => Ok (f a) | Throw e => Throw e end.
#[global] Instance result_eq_dec {A} `{EqDecision A} : EqDecision (result A).
Proof. solve_decision. Defined.

Lemma result_bind_Ok {A B} (m : result A) (k : A → result B) b :
  (m ≫= k) = Ok b ↔ ∃ a, m = Ok a ∧ k a = Ok b.
Proof. destruct m; cbn; naive_solver. Qed.

(** ** Lists *)

(** Where an element of a concatenation comes from. *)
Lemma app_cons_split {A} (l1 l2 a b : list A) x :
  l1 ++ x :: l2 = a ++ b →
  (∃ a', a = l1 ++ x :: a' ∧ l2 = a' ++ b) ∨ (∃ b', b = b' ++ x :: l2 ∧ l1 = a ++ b').
Proof.
  intros [(k & -> & ->)|(k & -> & Hk)]%app_eq_inv; [right; eauto|].
  destruct k as [|y k]; cbn in Hk.
  - right. exists []. subst b. by rewrite !app_nil_r.
  - left. injection Hk as -> ->. eauto.
Qed.

Lemma app_cons_snoc {A} (l1 l2 l : list A) x y :
  l1 ++ x :: l2 = l ++ [y] →
  (l2 = [] ∧ x = y ∧ l1 = l) ∨ (∃ l2', l2 = l2' ++ [y] ∧ l = l1 ++ x :: l2').
Proof.
  intros [(a' & -> & ->)|(b' & Hb & ->)]%app_cons_split; [eauto|left].
  destruct b' as [|z b']; cbn in Hb; injection Hb as -> Hb; subst; [by rewrite app_nil_r|].
  by destruct b'.
Qed.

Lemma head_fmap_app {A B} (f : A → B) l1 l2 :
  head (f <$> (l1 ++ l2)) = match head (f <$> l1) with Some y => Some y | None => head (f <$> l2) end.
Proof. by rewrite fmap_app, head_app. Qed.

Lemma StronglySorted_lookup_lt {A} (R : A → A → Prop) (l : list A) i j x y :
  StronglySorted R l → l !! i = Some x → l !! j = Some y → (i < j)%nat → R x y.
Proof.
  intros Hs Hi Hj Hij. rewrite <- (take_drop j l) in Hs. eapply (StronglySorted_app_1_elem_of _ _ _ _ _ Hs).
  - apply list_elem_of_lookup_2 with i. by rewrite lookup_take_lt.
  - apply list_elem_of_lookup_2 with 0%nat. by rewrite lookup_drop, Nat.add_0_r.
Qed.
