(* ===== verification/OrderedMap.v ===== *)
(** * The insertion-ordered hash map behind [Map], [Set] and symbol properties

    Model of map.go.  The linked structure of the source is kept: entries live
    at locations of a heap, are chained per hash bucket through [hNext] and
    threaded in insertion order through [iterPrev]/[iterNext]; removed entries
    stay in the heap (an iterator may still point at them) with a nil key.
    Locations are handed out in increasing order, as a bump allocator does.

    A Go panic (nil or dangling dereference) and fuel exhaustion are both
    [None]; the theorems show that neither happens on a well-formed map. *)

From S2P Require Import Prelude.
Open Scope Z_scope.

(** What the map needs from a [Value] used as a key. *)
Class MapKey (V : Type) := {
  sameAs : V → V → bool;     (* Value.SameAs *)
  hash : V → Z;              (* Value.hash *)
  isNegZero : V → bool;      (* key == _negativeZero *)
  zeroKey : V;               (* intToValue(0) *)
}.

(** What a key type promises: on the values that reach the map ([wfKey]),
    [SameAs] is an equivalence and [hash] respects it. *)
Class MapKeyLaws (V : Type) `{MapKey V} (wfKey : V → Prop) : Prop := {
  sameAs_refl k : wfKey k → sameAs k k = true;
  sameAs_sym k1 k2 : wfKey k1 → wfKey k2 → sameAs k1 k2 = sameAs k2 k1;
  sameAs_trans k1 k2 k3 : wfKey k1 → wfKey k2 → wfKey k3 →
    sameAs k1 k2 = true → sameAs k2 k3 = true → sameAs k1 k3 = true;
  sameAs_hash k1 k2 : wfKey k1 → wfKey k2 → sameAs k1 k2 = true → hash k1 = hash k2;
  zeroKey_wf : wfKey zeroKey;
  zeroKey_norm : isNegZero zeroKey = false;
}.

Module OrderedMap.

Abbreviation loc := positive.

Section model.
Context {V : Type} `{MapKey V}.

Record mapEntry := MkEntry {
  key : option V;
  value : option V;
  iterPrev : option loc;
  iterNext : option loc;
  hNext : option loc;
}.

Record orderedMap := MkMap {
  entries : gmap loc mapEntry;   (* the heap cells of this map's entries *)
  nextLoc : loc;                 (* the next location to allocate *)
  hashTable : gmap Z loc;
  iterFirst : option loc;
  iterLast : option loc;
  msize : Z;
}.

Record orderedMapIter := MkIter { isOpen : bool; cur : option loc }.

(** Field assignments through a pointer; [None] is a nil dereference. *)
Definition upd (p : loc) (f : mapEntry → mapEntry) (es : gmap loc mapEntry)
    : option (gmap loc mapEntry) :=
  e ← es !! p; Some (<[p := f e]> es).

(** [if q != nil { q.field = ... }] *)
Definition updOpt (o : option loc) (f : mapEntry → mapEntry) (es : gmap loc mapEntry)
    : option (gmap loc mapEntry) :=
  match o with Some q => upd q f es | None => Some es end.

Definition setIterNext n e := MkEntry (key e) (value e) (iterPrev e) n (hNext e).
Definition setIterPrev n e := MkEntry (key e) (value e) n (iterNext e) (hNext e).
Definition setHNext n e := MkEntry (key e) (value e) (iterPrev e) (iterNext e) n.
Definition setValue v e := MkEntry (key e) v (iterPrev e) (iterNext e) (hNext e).
Definition clearKV e := MkEntry None None (iterPrev e) (iterNext e) (hNext e).

Definition normKey (k : V) : V := if isNegZero k then zeroKey else k.

Definition newOrderedMap : orderedMap := MkMap ∅ 1%positive ∅ None None 0.

(** The entry is allocated, appended to its hash chain and to the list. *)
Definition insert (m : orderedMap) (k v : V) (h : Z) (hPrev : option loc)
    : option orderedMap :=
  let p := nextLoc m in
  let entry := MkEntry (Some (normKey k)) (Some v) (iterLast m) None None in
  let es := <[p := entry]> (entries m) in
  es ← updOpt hPrev (setHNext (Some p)) es;
  let ht := match hPrev with
            | None => <[h := p]> (hashTable m)
            | Some _ => hashTable m
            end in
  es ← updOpt (iterLast m) (setIterNext (Some p)) es;
  let first := match iterLast m with
               | None => Some p
               | Some _ => iterFirst m
               end in
  Some (MkMap es (Pos.succ p) ht first (Some p) (msize m + 1)).

Fixpoint lookupChain (fuel : nat) (es : gmap loc mapEntry)
    (entry hPrev : option loc) (k : V) : option (option loc * option loc) :=
  match entry with
  | None => Some (None, hPrev)
  | Some p =>
      match fuel with
      | O => None
      | S fuel =>
          e ← es !! p;
          ek ← key e;
          if sameAs ek k then Some (Some p, hPrev)
          else lookupChain fuel es (hNext e) (Some p) k
      end
  end.

Definition lookup (m : orderedMap) (k : V) : option (Z * option loc * option loc) :=
  let k := normKey k in
  let h := hash k in
  '(entry, hPrev) ← lookupChain (S (size (entries m))) (entries m) (hashTable m !! h) None k;
  Some (h, entry, hPrev).

Definition withEntries (m : orderedMap) es : orderedMap :=
  MkMap es (nextLoc m) (hashTable m) (iterFirst m) (iterLast m) (msize m).

Definition set (m : orderedMap) (k v : V) : option orderedMap :=
  '(h, entry, hPrev) ← lookup m k;
  match entry with
  | Some p => es ← upd p (setValue (Some v)) (entries m); Some (withEntries m es)
  | None => insert m k v h hPrev
  end.

(** The outer option is the Go panic, the inner one the nil [Value]. *)
Definition get (m : orderedMap) (k : V) : option (option V) :=
  '(_, entry, _) ← lookup m k;
  match entry with
  | Some p => e ← entries m !! p; Some (value e)
  | None => Some None
  end.

Definition getOrInsert (m : orderedMap) (k v : V) : option (orderedMap * option V) :=
  '(h, entry, hPrev) ← lookup m k;
  match entry with
  | Some p => e ← entries m !! p; Some (m, value e)
  | None => m' ← insert m k v h hPrev; Some (m', Some v)
  end.

Definition has (m : orderedMap) (k : V) : option bool :=
  '(_, entry, _) ← lookup m k;
  Some (match entry with Some _ => true | None => false end).

Definition remove (m : orderedMap) (k : V) : option (orderedMap * bool) :=
  '(h, entry, hPrev) ← lookup m k;
  match entry with
  | None => Some (m, false)
  | Some p =>
      es ← upd p clearKV (entries m);
      e ← es !! p;
      (* remove from the doubly-linked list *)
      es ← updOpt (iterPrev e) (setIterNext (iterNext e)) es;
      let first := match iterPrev e with
                   | Some _ => iterFirst m
                   | None => iterNext e
                   end in
      es ← updOpt (iterNext e) (setIterPrev (iterPrev e)) es;
      let last := match iterNext e with
                  | Some _ => iterLast m
                  | None => iterPrev e
                  end in
      (* remove from the hashTable *)
      es ← updOpt (hPrev) (setHNext (hNext e)) es;
      let ht := match hPrev with
                | Some _ => hashTable m
                | None => match hNext e with
                          | None => delete h (hashTable m)
                          | Some n => <[h := n]> (hashTable m)
                          end
                end in
      Some (MkMap es (nextLoc m) ht first last (msize m - 1), true)
  end.

Fixpoint clearLoop (fuel : nat) (item : option loc) (es : gmap loc mapEntry)
    : option (gmap loc mapEntry) :=
  match item with
  | None => Some es
  | Some p =>
      match fuel with
      | O => None
      | S fuel =>
          es ← upd p clearKV es;
          e ← es !! p;
          es ← updOpt (iterPrev e) (setIterNext None) es;
          e ← es !! p;
          clearLoop fuel (iterNext e) es
      end
  end.

Definition clear (m : orderedMap) : option orderedMap :=
  es ← clearLoop (S (size (entries m))) (iterFirst m) (entries m);
  Some (MkMap es (nextLoc m) ∅ None None 0).

(** [copyTo] reads the entries of [m] and sets them in [dest]. *)
Fixpoint copyLoop (fuel : nat) (es : gmap loc mapEntry) (entry : option loc)
    (dest : orderedMap) : option orderedMap :=
  match entry with
  | None => Some dest
  | Some p =>
      match fuel with
      | O => None
      | S fuel =>
          e ← es !! p;
          k ← key e;
          v ← value e;
          dest ← set dest k v;
          copyLoop fuel es (iterNext e) dest
      end
  end.

Definition copyTo (m dest : orderedMap) : option orderedMap :=
  copyLoop (S (size (entries m))) (entries m) (iterFirst m) dest.

Definition newIter : orderedMapIter := MkIter true None.
Definition close (it : orderedMapIter) : orderedMapIter := MkIter false None.

(** Back to the latest entry that was not deleted. *)
Fixpoint trackBack (fuel : nat) (es : gmap loc mapEntry) (c : option loc)
    : option (option loc) :=
  match c with
  | None => Some None
  | Some p =>
      e ← es !! p;
      match key e with
      | Some _ => Some (Some p)
      | None => match fuel with
                | O => None
                | S fuel => trackBack fuel es (iterPrev e)
                end
      end
  end.

(** The result is the new iterator state and the entry found. *)
Definition next (m : orderedMap) (it : orderedMapIter)
    : option (orderedMapIter * option loc) :=
  if isOpen it then
    c ← trackBack (S (size (entries m))) (entries m) (cur it);
    c ← match c with
        | Some p => e ← entries m !! p; Some (iterNext e)
        | None => Some (iterFirst m)
        end;
    Some (match c with
          | None => (close it, None)
          | Some p => (MkIter true (Some p), Some p)
          end)
  else Some (it, None).

(** The loop of mapProto_forEach on a map that its callback does not change: the
    keys and values the callback is called with, in order.  (A callback that
    changes the map is a sequence of the steps of [iterStep] below.) *)
Fixpoint forEachLoop (fuel : nat) (m : orderedMap) (iter : orderedMapIter) : option (list (V * V)) :=
  '(iter, entry) ← next m iter;
  match entry with
  | None => Some []
  | Some p =>
      match fuel with
      | O => None
      | S fuel =>
          e ← entries m !! p;
          k ← key e;
          v ← value e;
          rest ← forEachLoop fuel m iter;
          Some ((k, v) :: rest)
      end
  end.

Definition forEach (m : orderedMap) : option (list (V * V)) := forEachLoop (size (entries m)) m newIter.
End model.

Arguments mapEntry : clear implicits.
Arguments orderedMap : clear implicits.

(** ** The abstract map: an association list in insertion order *)

Section spec.
Context {V : Type} `{MapKey V}.

Fixpoint assocGet (al : list (V * V)) (k : V) : option V :=
  match al with
  | [] => None
  | (k', v) :: al => if sameAs k' k then Some v else assocGet al k
  end.

Fixpoint assocSet (al : list (V * V)) (k v : V) : list (V * V) :=
  match al with
  | [] => [(k, v)]
  | (k', v') :: al => if sameAs k' k then (k', v) :: al else (k', v') :: assocSet al k v
  end.

Fixpoint assocDel (al : list (V * V)) (k : V) : list (V * V) :=
  match al with
  | [] => []
  | (k', v') :: al => if sameAs k' k then al else (k', v') :: assocDel al k
  end.

Definition assocHas (al : list (V * V)) (k : V) : bool := bool_decide (is_Some (assocGet al k)).

Definition nosame (k : V) (x : loc * (V * V)) : Prop := sameAs x.2.1 k = false.

Lemma assocGet_none l k : Forall (nosame k) l → assocGet l.*2 k = None.
Proof. induction 1 as [|[p [k' v]] l Hx _ IH]; [done|]. cbn in *. by rewrite Hx. Qed.

Lemma assocGet_split l1 p k' v l2 k :
  Forall (nosame k) l1 → sameAs k' k = true →
  assocGet (l1 ++ (p, (k', v)) :: l2).*2 k = Some v.
Proof.
  intros Hl1 Hk. induction Hl1 as [|[q [k1 v1]] l1 Hx _ IH]; cbn in *; [by rewrite Hk|].
  by rewrite Hx.
Qed.

Lemma assocSet_none l k v : Forall (nosame k) l → assocSet l.*2 k v = l.*2 ++ [(k, v)].
Proof. induction 1 as [|[p [k' v']] l Hx _ IH]; [done|]. cbn in *. by rewrite Hx, IH. Qed.

Lemma assocSet_split l1 p k' v' l2 k v :
  Forall (nosame k) l1 → sameAs k' k = true →
  assocSet (l1 ++ (p, (k', v')) :: l2).*2 k v = (l1 ++ (p, (k', v)) :: l2).*2.
Proof.
  intros Hl1 Hk. induction Hl1 as [|[q [k1 v1]] l1 Hx _ IH]; cbn in *; [by rewrite Hk|].
  by rewrite Hx, IH.
Qed.

Lemma assocDel_none l k : Forall (nosame k) l → assocDel l.*2 k = l.*2.
Proof. induction 1 as [|[p [k' v']] l Hx _ IH]; [done|]. cbn in *. by rewrite Hx, IH. Qed.

Lemma assocDel_split l1 p k' v' l2 k :
  Forall (nosame k) l1 → sameAs k' k = true →
  assocDel (l1 ++ (p, (k', v')) :: l2).*2 k = (l1 ++ l2).*2.
Proof.
  intros Hl1 Hk. induction Hl1 as [|[q [k1 v1]] l1 Hx _ IH]; cbn in *; [by rewrite Hk|].
  by rewrite Hx, IH.
Qed.
End spec.

(** ** The representation invariant *)

Section proofs.
Context {V : Type} `{MapKey V} (wfKey : V → Prop) `{!MapKeyLaws V wfKey}.

Local Abbreviation cell := (loc * (V * V))%type.

(** The part of the list whose keys have hash [h], in order. *)
Definition bucket (h : Z) (l : list cell) : list cell := filter (λ x, hash x.2.1 = h) l.

(** [l] lists the live entries in insertion order: the heap cell of each one
    is determined by its place in [l], and so are the roots of the map. *)
Record Rep (m : orderedMap V) (l : list cell) : Prop := {
  rep_sorted : StronglySorted Pos.lt l.*1;
  rep_node l1 p k v l2 : l = l1 ++ (p, (k, v)) :: l2 →
    entries m !! p = Some (MkEntry (Some k) (Some v) (last l1.*1) (head l2.*1)
                                   (head (bucket (hash k) l2).*1));
  rep_first : iterFirst m = head l.*1;
  rep_last : iterLast m = last l.*1;
  rep_hash h : hashTable m !! h = head (bucket h l).*1;
  rep_size : msize m = Z.of_nat (length l);
  rep_keys l1 p k v l2 : l = l1 ++ (p, (k, v)) :: l2 →
    wfKey k ∧ isNegZero k = false ∧ Forall (nosame k) l1;
  rep_fresh p e : entries m !! p = Some e → (p < nextLoc m)%positive;
  rep_live p e : entries m !! p = Some e → key e ≠ None → p ∈ l.*1;
  rep_dead p e : entries m !! p = Some e → key e = None →
    match iterPrev e with
    | Some q => (q < p)%positive ∧ is_Some (entries m !! q) ∧
                ∀ x, x ∈ l.*1 → (x < p)%positive → (x ≤ q)%positive
    | None => ∀ x, x ∈ l.*1 → ¬ (x < p)%positive
    end;
}.

Lemma updOpt_lookup o f es es' x :
  updOpt (V := V) o f es = Some es' →
  es' !! x = if decide (o = Some x) then f <$> es !! x else es !! x.
Proof.
  destruct o as [q|]; cbn; [|intros [= <-]; by rewrite decide_False].
  unfold upd. destruct (es !! q) as [e|] eqn:E; [|done]. intros [= <-].
  destruct (decide (Some q = Some x)) as [[= ->]|Hne].
  - by rewrite lookup_insert_eq, E.
  - rewrite lookup_insert_ne; [done|congruence].
Qed.

Lemma updOpt_ok o f es :
  (∀ q, o = Some q → is_Some (es !! q)) → ∃ es', updOpt (V := V) o f es = Some es'.
Proof.
  intros Ho. destruct o as [q|]; cbn; [|eauto].
  destruct (Ho q eq_refl) as [e He]. unfold upd. rewrite He. cbn. eauto.
Qed.

Lemma rep_nodup m l : Rep m l → NoDup l.*1.
Proof.
  intros HR. induction (rep_sorted _ _ HR) as [|p ps _ IH Hp]; [constructor|].
  constructor; [|done]. intros Hin. rewrite Forall_forall in Hp.
  specialize (Hp p Hin). lia.
Qed.

Lemma rep_elem m l p : Rep m l → p ∈ l.*1 →
  ∃ l1 k v l2, l = l1 ++ (p, (k, v)) :: l2.
Proof.
  intros _ ([q [k v]] & -> & Hin)%list_elem_of_fmap.
  apply list_elem_of_split in Hin as (l1 & l2 & ->). by exists l1, k, v, l2.
Qed.

Lemma rep_in_heap m l p : Rep m l → p ∈ l.*1 → is_Some (entries m !! p).
Proof.
  intros HR Hp. destruct (rep_elem m l p HR Hp) as (l1 & k & v & l2 & Hl).
  rewrite (rep_node _ _ HR _ _ _ _ _ Hl). eauto.
Qed.

Lemma rep_length m l : Rep m l → (length l ≤ size (entries m))%nat.
Proof.
  intros HR. rewrite <- (length_fmap fst l).
  rewrite <- size_dom.
  rewrite <- (size_list_to_set (C := gset loc) (l.*1)) by (by apply (rep_nodup m)).
  apply subseteq_size. intros p Hp%elem_of_list_to_set.
  apply elem_of_dom. by apply (rep_in_heap m l).
Qed.

Lemma bucket_app h l1 l2 : bucket h (l1 ++ l2) = bucket h l1 ++ bucket h l2.
Proof. apply filter_app. Qed.

Lemma bucket_cons h p k v l :
  bucket h ((p, (k, v)) :: l)
  = if decide (hash k = h) then (p, (k, v)) :: bucket h l else bucket h l.
Proof. unfold bucket. rewrite filter_cons. done. Qed.

Lemma bucket_sub h l x : x ∈ (bucket h l).*1 → x ∈ l.*1.
Proof.
  intros (c & -> & Hc)%list_elem_of_fmap. apply list_elem_of_filter in Hc as [_ Hc].
  by apply list_elem_of_fmap_2.
Qed.

(** Walking the hash chain of [h] from the entries [l2] on. *)
Lemma lookupChain_spec m l (HR : Rep m l) h k l1 l2 fuel hp :
  l = l1 ++ l2 → (length l2 ≤ fuel)%nat →
  (Forall (λ x, hash x.2.1 = h → sameAs x.2.1 k = false) l2 ∧
   lookupChain fuel (entries m) (head (bucket h l2).*1) hp k
     = Some (None, match last (bucket h l2).*1 with Some q => Some q | None => hp end))
  ∨ (∃ a p k' v b, l2 = a ++ (p, (k', v)) :: b ∧ hash k' = h ∧ sameAs k' k = true ∧
       Forall (λ x, hash x.2.1 = h → sameAs x.2.1 k = false) a ∧
       lookupChain fuel (entries m) (head (bucket h l2).*1) hp k
       = Some (Some p, match last (bucket h a).*1 with Some q => Some q | None => hp end)).
Proof.
  revert l1 fuel hp. induction l2 as [|[p [k' v]] l2 IH]; intros l1 fuel hp Hl Hf.
  { left. split; [constructor|]. by destruct fuel. }
  rewrite bucket_cons. destruct (decide (hash k' = h)) as [Hh|Hh].
  - destruct fuel as [|fuel]; [cbn in Hf; lia|]. cbn [fmap list_fmap head fst].
    cbn [lookupChain]. rewrite (rep_node _ _ HR _ _ _ _ _ Hl). cbn.
    destruct (sameAs k' k) eqn:Es.
    { right. exists [], p, k', v, l2. by repeat split. }
    destruct (IH (l1 ++ [(p, (k', v))]) fuel (Some p)) as [[Hall Hlk]|Hfound];
      [by rewrite <- app_assoc | cbn in Hf; lia | left | right].
    + split; [by constructor|]. rewrite Hh, Hlk. repeat f_equal.
      rewrite ?fmap_cons, last_cons. by destruct (last _).
    + destruct Hfound as (a & q & k2 & v2 & b & -> & Hk2 & Hs & Ha & Hlk).
      exists ((p, (k', v)) :: a), q, k2, v2, b. do 3 (split; [done|]).
      split; [by constructor|]. rewrite Hh, Hlk. repeat f_equal.
      rewrite bucket_cons, decide_True by done.
      rewrite ?fmap_cons, last_cons. by destruct (last (bucket h a).*1).
  - destruct (IH (l1 ++ [(p, (k', v))]) fuel hp) as [[Hall Hlk]|Hfound];
      [by rewrite <- app_assoc | cbn in Hf; lia | left | right].
    + split; [|done]. constructor; [cbn; done|done].
    + destruct Hfound as (a & q & k2 & v2 & b & -> & Hk2 & Hs & Ha & Hlk).
      exists ((p, (k', v)) :: a), q, k2, v2, b. do 3 (split; [done|]).
      split; [constructor; [cbn; done|done]|].
      by rewrite bucket_cons, decide_False.
Qed.

Lemma normKey_wf k : wfKey k → wfKey (normKey k).
Proof. unfold normKey. destruct (isNegZero k); [intros _; apply zeroKey_wf|done]. Qed.

Lemma normKey_norm k : isNegZero (normKey k) = false.
Proof. unfold normKey. destruct (isNegZero k) eqn:E; [apply zeroKey_norm|done]. Qed.

Lemma rep_elem_wf m l c : Rep m l → c ∈ l → wfKey c.2.1.
Proof.
  intros HR Hc. apply list_elem_of_split in Hc as (l1 & l2 & Hl).
  destruct c as [p [k v]]. by destruct (rep_keys _ _ HR _ _ _ _ _ Hl).
Qed.

(** The two outcomes of [lookup] on a well-formed map. *)
Inductive lookup_cases (m : orderedMap V) (l : list cell) (k : V) : Prop :=
  | lookup_absent :
      Forall (nosame (normKey k)) l →
      lookup m k = Some (hash (normKey k), None, last (bucket (hash (normKey k)) l).*1) →
      lookup_cases m l k
  | lookup_present l1 p k' v l2 :
      l = l1 ++ (p, (k', v)) :: l2 → sameAs k' (normKey k) = true →
      hash k' = hash (normKey k) → Forall (nosame (normKey k)) l1 →
      lookup m k = Some (hash (normKey k), Some p, last (bucket (hash (normKey k)) l1).*1) →
      lookup_cases m l k.

Lemma nosame_of_hash m l a b k : Rep m l → l = a ++ b → wfKey k →
  Forall (λ x, hash x.2.1 = hash k → sameAs x.2.1 k = false) a → Forall (nosame k) a.
Proof.
  intros HR Hl Hk. rewrite !Forall_forall. intros Ha c Hc. unfold nosame.
  destruct (sameAs c.2.1 k) eqn:E; [|done].
  assert (wfKey c.2.1) by (eapply rep_elem_wf; [done|subst l; set_solver]).
  rewrite <- E. apply Ha; [done|]. by apply sameAs_hash.
Qed.

Lemma lookup_spec m l k : Rep m l → wfKey k → lookup_cases m l k.
Proof.
  intros HR Hk%normKey_wf. pose proof (rep_length _ _ HR) as Hlen.
  assert (hashTable m !! hash (normKey k) = head (bucket (hash (normKey k)) l).*1) as Hh
    by apply (rep_hash _ _ HR).
  destruct (lookupChain_spec m l HR (hash (normKey k)) (normKey k) [] l
              (S (size (entries m))) None eq_refl ltac:(lia))
    as [[Hall Hlk]|(a & p & k' & v & b & Hl & Hk' & Hs & Ha & Hlk)].
  - apply lookup_absent.
    + eapply (nosame_of_hash m l l []); rewrite ?app_nil_r; done.
    + unfold lookup. rewrite Hh, Hlk. cbn. by destruct (last _).
  - eapply lookup_present; [exact Hl|done|done| |].
    + by eapply (nosame_of_hash m l a).
    + unfold lookup. rewrite Hh, Hlk. cbn. by destruct (last _).
Qed.

Ltac lookup_case HR Hk :=
  destruct (lookup_spec _ _ _ HR Hk) as [Habs Hlk|l1 p k' v' l2 Hl Hsame Hhash Hl1 Hlk].

Lemma get_rep m l k : Rep m l → wfKey k → get m k = Some (assocGet l.*2 (normKey k)).
Proof.
  intros HR Hk. unfold get. lookup_case HR Hk; rewrite Hlk; cbn.
  - by rewrite assocGet_none.
  - rewrite (rep_node _ _ HR _ _ _ _ _ Hl). subst l. by rewrite assocGet_split.
Qed.

Lemma has_rep m l k : Rep m l → wfKey k → has m k = Some (assocHas l.*2 (normKey k)).
Proof.
  intros HR Hk. unfold has, assocHas. lookup_case HR Hk; rewrite Hlk; cbn.
  - by rewrite assocGet_none.
  - subst l. by rewrite assocGet_split.
Qed.

(** In a list of distinct locations, the last element is the one with nothing after it. *)
Lemma last_split (l1 l2 : list cell) c :
  NoDup (l1 ++ c :: l2).*1 → last (l1 ++ c :: l2).*1 = Some c.1 ↔ l2 = [].
Proof.
  intros Hnd. rewrite fmap_app, fmap_cons, last_app_cons, last_cons.
  split; [|intros ->; done].
  destruct (last l2.*1) as [q|] eqn:E; [|by apply last_None, fmap_nil_inv in E].
  intros [= ->]. exfalso. rewrite fmap_app, fmap_cons in Hnd.
  apply NoDup_app in Hnd as (_ & _ & Hnd). apply NoDup_cons in Hnd as [Hnd _].
  apply Hnd. apply last_Some_elem_of in E. done.
Qed.

Lemma head_split (l1 l2 : list cell) c :
  NoDup (l1 ++ c :: l2).*1 → head (l1 ++ c :: l2).*1 = Some c.1 ↔ l1 = [].
Proof.
  intros Hnd. split; [|intros ->; done]. destruct l1 as [|d l1]; [done|].
  cbn in *. intros [= Hd]. apply NoDup_cons in Hnd as [Hnd _]. exfalso. apply Hnd.
  rewrite Hd, fmap_app. set_solver.
Qed.

Lemma bucket_last_split h (l1 l2 : list cell) p k v :
  NoDup (l1 ++ (p, (k, v)) :: l2).*1 →
  last (bucket h (l1 ++ (p, (k, v)) :: l2)).*1 = Some p ↔ hash k = h ∧ bucket h l2 = [].
Proof.
  intros Hnd. rewrite bucket_app, bucket_cons. destruct (decide (hash k = h)) as [Hh|Hh].
  - rewrite (last_split _ _ (p, (k, v))); [tauto|].
    assert (sublist (bucket h l1 ++ (p, (k, v)) :: bucket h l2) (l1 ++ (p, (k, v)) :: l2))
      as Hsub by (apply sublist_app; [|apply sublist_skip]; apply sublist_filter).
    eapply sublist_NoDup; [exact Hnd|by apply (fmap_sublist fst)].
  - split; [|tauto]. intros Hlast%last_Some_elem_of. exfalso.
    rewrite <- bucket_app in Hlast. apply bucket_sub in Hlast.
    rewrite fmap_app, fmap_cons in Hnd. rewrite fmap_app in Hlast.
    apply NoDup_app in Hnd as (_ & Hd & [Hn _]%NoDup_cons).
    apply elem_of_app in Hlast as [Hin|Hin]; [|done]. by apply (Hd _ Hin), elem_of_cons; left.
Qed.

Lemma rep_lt_fresh m l x : Rep m l → x ∈ l.*1 → (x < nextLoc m)%positive.
Proof. intros HR [e He]%(rep_in_heap m l); [by apply (rep_fresh _ _ HR x e)|done]. Qed.

Lemma rep_fresh_none m l : Rep m l → entries m !! nextLoc m = None.
Proof.
  intros HR. apply eq_None_not_Some. intros [e He].
  pose proof (rep_fresh _ _ HR _ _ He). lia.
Qed.

(** The heap that [insert] leaves, cell by cell. *)
Lemma insert_heap m l k v :
  Rep m l →
  let p := nextLoc m in
  let hp := last (bucket (hash (normKey k)) l).*1 in
  ∃ es, insert m k v (hash (normKey k)) hp
        = Some (MkMap es (Pos.succ p)
                  (match hp with None => <[hash (normKey k) := p]> (hashTable m)
                               | Some _ => hashTable m end)
                  (match iterLast m with None => Some p | Some _ => iterFirst m end)
                  (Some p) (msize m + 1)) ∧
    es !! p = Some (MkEntry (Some (normKey k)) (Some v) (iterLast m) None None) ∧
    ∀ x, x ≠ p →
      es !! x = (λ e, (if decide (iterLast m = Some x) then setIterNext (Some p) else id)
                        ((if decide (hp = Some x) then setHNext (Some p) else id) e))
                <$> entries m !! x.
Proof.
  intros HR p hp. pose proof (rep_fresh_none _ _ HR) as Hnone.
  assert (∀ q, hp = Some q → q ∈ l.*1) as Hhp
    by (intros q Hq%last_Some_elem_of; by eapply bucket_sub).
  assert (∀ q, iterLast m = Some q → q ∈ l.*1) as Hil
    by (intros q; rewrite (rep_last _ _ HR); apply last_Some_elem_of).
  assert (∀ q, q ∈ l.*1 → q ≠ p) as Hne
    by (intros q Hq ->; apply (rep_lt_fresh m l p) in Hq; [subst p; lia|done]).
  set (entry := MkEntry (Some (normKey k)) (Some v) (iterLast m) None None).
  destruct (updOpt_ok hp (setHNext (Some p)) (<[p := entry]> (entries m))) as [es1 H1].
  { intros q Hq. rewrite lookup_insert_ne by (apply not_eq_sym; auto).
    apply (rep_in_heap m l); auto. }
  pose proof (λ x, updOpt_lookup _ _ _ _ x H1) as L1.
  destruct (updOpt_ok (iterLast m) (setIterNext (Some p)) es1) as [es2 H2].
  { intros q Hq. rewrite L1, lookup_insert_ne by (apply not_eq_sym; auto).
    destruct (rep_in_heap m l q HR (Hil q Hq)) as [e ->]. case_decide; cbn; eauto. }
  pose proof (λ x, updOpt_lookup _ _ _ _ x H2) as L2.
  exists es2. unfold insert. fold p. fold entry. rewrite H1. cbn. rewrite H2. cbn.
  split; [done|]. split.
  - rewrite L2, decide_False by (intros Hp%Hil%Hne; done).
    rewrite L1, decide_False by (intros Hp%Hhp%Hne; done). apply lookup_insert_eq.
  - intros x Hx. rewrite L2, L1, lookup_insert_ne by done.
    destruct (entries m !! x) as [e|]; repeat case_decide; done.
Qed.

(** What the links of an entry become when a new one is appended. *)
Lemma head_snoc_next (l1 l2 : list cell) x k v c :
  NoDup (l1 ++ (x, (k, v)) :: l2).*1 →
  head (l2 ++ [c]).*1
  = if decide (last (l1 ++ (x, (k, v)) :: l2).*1 = Some x) then Some c.1 else head l2.*1.
Proof.
  intros Hnd. pose proof (last_split _ _ _ Hnd) as Hl. cbn in Hl.
  rewrite head_fmap_app. case_decide as E; rewrite Hl in E.
  - by subst l2.
  - by destruct l2.
Qed.

Lemma head_snoc_bucket (l1 l2 : list cell) x k v p k' v' :
  NoDup (l1 ++ (x, (k, v)) :: l2).*1 →
  head (bucket (hash k) (l2 ++ [(p, (k', v'))])).*1
  = if decide (last (bucket (hash k') (l1 ++ (x, (k, v)) :: l2)).*1 = Some x)
    then Some p else head (bucket (hash k) l2).*1.
Proof.
  intros Hnd. pose proof (bucket_last_split (hash k') _ _ _ _ _ Hnd) as Hl.
  rewrite bucket_app, head_fmap_app, bucket_cons.
  destruct (decide (last _ = Some x)) as [E|E]; rewrite Hl in E.
  - destruct E as [-> ->]. cbn. by rewrite decide_True.
  - destruct (bucket (hash k) l2) as [|c t] eqn:Eb; cbn; [|done].
    case_decide as Hh; [|done]. exfalso. apply E. by rewrite Hh.
Qed.

Lemma insert_dead m l p v k (es : gmap loc (mapEntry V)) :
  Rep m l → p = nextLoc m →
  es !! p = Some (MkEntry (Some k) (Some v) (iterLast m) None None) →
  (∀ x, x ≠ p → ∃ f, (∀ e, key (f e) = key e ∧ iterPrev (f e) = iterPrev e) ∧
                     es !! x = f <$> entries m !! x) →
  ∀ x e, es !! x = Some e → key e = None →
    match iterPrev e with
    | Some q => (q < x)%positive ∧ is_Some (es !! q) ∧
                ∀ y, y ∈ (l ++ [(p, (k, v))]).*1 → (y < x)%positive → (y ≤ q)%positive
    | None => ∀ y, y ∈ (l ++ [(p, (k, v))]).*1 → ¬ (y < x)%positive
    end.
Proof.
  intros HR Hpf Hp Hx x e He Hke. destruct (decide (x = p)) as [->|Hne].
  { rewrite Hp in He. by injection He as <-. }
  destruct (Hx x Hne) as (f & Hf & Hfx). rewrite Hfx in He.
  apply fmap_Some in He as (e' & He' & ->). destruct (Hf e') as [Hk' ->].
  rewrite Hk' in Hke. pose proof (rep_dead _ _ HR x e' He' Hke) as Hd.
  assert (x < p)%positive as Hxp by (subst p; by eapply rep_fresh).
  destruct (iterPrev e') as [q|].
  - destruct Hd as (Hqx & Hq & Hd). split; [done|]. split.
    + destruct (Hx q ltac:(lia)) as (g & _ & ->). destruct Hq as [? ->]. cbn. eauto.
    + intros y. rewrite fmap_app, elem_of_app. intros [Hy|Hy] Hyx; [by apply Hd|].
      apply list_elem_of_singleton in Hy as ->. cbn in Hyx. lia.
  - intros y. rewrite fmap_app, elem_of_app. intros [Hy|Hy] Hyx; [by eapply Hd|].
    apply list_elem_of_singleton in Hy as ->. cbn in Hyx. lia.
Qed.

Lemma insert_rep m l k v :
  Rep m l → wfKey k → Forall (nosame (normKey k)) l →
  ∃ m', insert m k v (hash (normKey k)) (last (bucket (hash (normKey k)) l).*1) = Some m' ∧
        Rep m' (l ++ [(nextLoc m, (normKey k, v))]).
Proof.
  intros HR Hk Hno. destruct (insert_heap m l k v HR) as (es & -> & Hp & Hx).
  eexists; split; [done|]. pose proof (rep_nodup _ _ HR) as Hnd.
  assert (∀ x, x ∈ l.*1 → (x < nextLoc m)%positive) as Hlt by (intros x; by apply rep_lt_fresh).
  split; cbn [entries nextLoc iterFirst iterLast hashTable msize].
  - rewrite fmap_app. apply StronglySorted_app_2; [|apply HR|repeat constructor].
    intros x y Hxin Hy. apply list_elem_of_singleton in Hy as ->. by apply Hlt.
  - intros l1 x k1 v1 l2 [(-> & Hc & ->)|(l2' & -> & ->)]%symmetry%app_cons_snoc.
    { injection Hc as -> -> ->. rewrite Hp, (rep_last _ _ HR). done. }
    assert (x < nextLoc m)%positive by (apply Hlt; set_solver).
    rewrite (Hx x) by lia. rewrite (rep_node _ _ HR _ _ _ _ _ eq_refl), (rep_last _ _ HR).
    rewrite (head_snoc_bucket _ _ _ _ _ _ _ _ Hnd), (head_snoc_next _ _ _ _ _ _ Hnd).
    by repeat case_decide.
  - rewrite (rep_last _ _ HR), (rep_first _ _ HR), head_fmap_app.
    destruct l as [|c l]; [done|]. rewrite fmap_cons, last_cons. by destruct (last l.*1).
  - symmetry. rewrite fmap_app. apply last_snoc.
  - intros h'. rewrite bucket_app, head_fmap_app, bucket_cons.
    destruct (last (bucket (hash (normKey k)) l).*1) as [q|] eqn:E.
    + rewrite (rep_hash _ _ HR). destruct (head (bucket h' l).*1) eqn:E'; [done|].
      rewrite decide_False; [done|]. intros <-.
      apply last_Some_elem_of in E.
      destruct (bucket (hash (normKey k)) l); [by apply not_elem_of_nil in E|done].
    + apply last_None in E. destruct (decide (hash (normKey k) = h')) as [<-|Hne].
      * by rewrite lookup_insert_eq, E.
      * rewrite lookup_insert_ne, (rep_hash _ _ HR) by done. by destruct (head _).
  - rewrite (rep_size _ _ HR), length_app. cbn. lia.
  - intros l1 x k1 v1 l2 [(-> & Hc & ->)|(l2' & -> & ->)]%symmetry%app_cons_snoc.
    + injection Hc as -> -> ->. auto using normKey_wf, normKey_norm.
    + by eapply (rep_keys _ _ HR).
  - intros x e He. destruct (decide (x = nextLoc m)) as [->|Hne]; [lia|].
    rewrite (Hx x Hne) in He. apply fmap_Some in He as (e' & He' & _).
    pose proof (rep_fresh _ _ HR _ _ He'). lia.
  - intros x e He Hke. rewrite fmap_app, elem_of_app.
    destruct (decide (x = nextLoc m)) as [->|Hne]; [right; set_solver|left].
    rewrite (Hx x Hne) in He. apply fmap_Some in He as (e' & He' & ->).
    apply (rep_live _ _ HR x e' He'). by repeat case_decide.
  - apply (insert_dead m l (nextLoc m) v (normKey k) es HR eq_refl Hp).
    intros x Hne. eexists. split; [|by apply Hx]. intros e. by repeat case_decide.
Qed.

(** Overwriting the value at [p]. *)
Definition revalue (p : loc) (v : V) (c : cell) : cell :=
  if decide (c.1 = p) then (c.1, (c.2.1, v)) else c.

Lemma revalue_locs p v l : (revalue p v <$> l).*1 = l.*1.
Proof.
  rewrite <- list_fmap_compose. apply list_fmap_ext. intros i c _.
  cbn. unfold revalue. by case_decide.
Qed.

Lemma revalue_bucket p v h l : (bucket h (revalue p v <$> l)).*1 = (bucket h l).*1.
Proof.
  induction l as [|[q [k w]] l IH]; [done|].
  assert (revalue p v (q, (k, w)) = (q, (k, (revalue p v (q, (k, w))).2.2))) as Hq
    by (unfold revalue; by case_decide).
  rewrite fmap_cons, Hq, !bucket_cons. case_decide; [|done].
  rewrite !fmap_cons. by f_equal.
Qed.

Lemma revalue_split l1 p k' v' l2 v :
  NoDup (l1 ++ (p, (k', v')) :: l2).*1 →
  revalue p v <$> (l1 ++ (p, (k', v')) :: l2) = l1 ++ (p, (k', v)) :: l2.
Proof.
  rewrite fmap_app, fmap_cons. intros (_ & Hd & [Hn _]%NoDup_cons)%NoDup_app.
  assert (∀ l, p ∉ l.*1 → revalue p v <$> l = l) as Hid.
  { intros l Hl. transitivity (id <$> l); [|apply list_fmap_id].
    apply list_fmap_ext. intros i c Hc. unfold revalue. rewrite decide_False; [done|].
    intros <-. apply Hl. apply list_elem_of_fmap_2. by apply list_elem_of_lookup_2 in Hc. }
  rewrite fmap_app, fmap_cons, !Hid; [|done|intros Hin; by apply (Hd _ Hin), elem_of_cons; left].
  f_equal. f_equal. unfold revalue. cbn. by rewrite decide_True.
Qed.

Lemma revalue_rep m l p v e :
  Rep m l → entries m !! p = Some e → key e ≠ None →
  Rep (withEntries m (<[p := setValue (Some v) e]> (entries m))) (revalue p v <$> l).
Proof.
  intros HR Hp Hlive.
  assert (∀ x e', <[p:=setValue (Some v) e]> (entries m) !! x = Some e' →
           ∃ e0, entries m !! x = Some e0 ∧ key e0 = key e' ∧ iterPrev e0 = iterPrev e') as Hold.
  { intros x e'. destruct (decide (p = x)) as [<-|Hne];
      [rewrite lookup_insert_eq|rewrite lookup_insert_ne by done]; [|eauto].
    intros [= <-]. eauto. }
  split; cbn [entries withEntries nextLoc iterFirst iterLast hashTable msize];
    rewrite ?revalue_locs, ?length_fmap; try apply HR.
  - intros l1 x k1 v1 l2 Hl. apply fmap_app_inv in Hl as (a & b & -> & Hb & ->).
    symmetry in Hb. apply fmap_cons_inv in Hb as ([q [kq vq]] & b' & Hq & -> & ->).
    pose proof (rep_node _ _ HR _ _ _ _ _ eq_refl) as Hnode.
    rewrite revalue_locs, revalue_locs, revalue_bucket. unfold revalue in Hq. cbn in Hq.
    case_decide as Hqp; injection Hq as -> -> ->.
    + subst q. rewrite lookup_insert_eq. rewrite Hp in Hnode. by injection Hnode as ->.
    + rewrite lookup_insert_ne by done. done.
  - intros h. rewrite revalue_bucket. apply (rep_hash _ _ HR).
  - intros l1 x k1 v1 l2 Hl. apply fmap_app_inv in Hl as (a & b & -> & Hb & ->).
    symmetry in Hb. apply fmap_cons_inv in Hb as ([q [kq vq]] & b' & Hq & -> & ->).
    destruct (rep_keys _ _ HR _ _ _ _ _ eq_refl) as (Hw & Hn & Hf).
    unfold revalue in Hq. cbn in Hq.
    assert (k1 = kq) as -> by (case_decide; congruence).
    do 2 (split; [done|]). apply Forall_fmap. eapply Forall_impl; [exact Hf|].
    intros c Hc. unfold compose, nosame, revalue in *. by destruct (decide (c.1 = p)).
  - intros x e' He'. destruct (Hold _ _ He') as (e0 & He0 & _). by eapply rep_fresh.
  - intros x e' He' Hk. destruct (Hold _ _ He') as (e0 & He0 & Hk0 & _).
    eapply (rep_live _ _ HR); [done|by rewrite Hk0].
  - intros x e' He' Hk. destruct (Hold _ _ He') as (e0 & He0 & Hk0 & Hi0).
    rewrite <- Hi0. rewrite Hk in Hk0. pose proof (rep_dead _ _ HR _ _ He0 Hk0) as Hd.
    destruct (iterPrev e0) as [q|]; [|done]. destruct Hd as (? & [eq Hq] & ?).
    split; [done|]. split; [|done].
    destruct (decide (p = q)) as [<-|]; [rewrite lookup_insert_eq|rewrite lookup_insert_ne]; eauto.
Qed.

(** How a mutation may change a map as seen by an iterator: entries that are
    live afterwards were live before or are newer than everything before. *)
Record Evolves (m : orderedMap V) (l : list cell) (m' : orderedMap V) (l' : list cell) : Prop := {
  ev_rep : Rep m' l';
  ev_old x : x ∈ l'.*1 → x ∈ l.*1 ∨ (nextLoc m ≤ x)%positive;
  ev_next : (nextLoc m ≤ nextLoc m')%positive;
  ev_dom x : is_Some (entries m !! x) → is_Some (entries m' !! x);
}.

Lemma insert_evolves m l k v :
  Rep m l → wfKey k → Forall (nosame (normKey k)) l →
  ∃ m', insert m k v (hash (normKey k)) (last (bucket (hash (normKey k)) l).*1) = Some m' ∧
        Evolves m l m' (l ++ [(nextLoc m, (normKey k, v))]).
Proof.
  intros HR Hk Hno. destruct (insert_rep m l k v HR Hk Hno) as (m' & Hm' & HR').
  exists m'. split; [done|].
  destruct (insert_heap m l k v HR) as (es & Hm & _ & Hx). rewrite Hm in Hm'.
  injection Hm' as <-. split; cbn [nextLoc entries]; [done| |lia|].
  - intros x. rewrite fmap_app, elem_of_app. intros [?|Hx1]; [by left|right].
    apply list_elem_of_singleton in Hx1 as ->. cbn. lia.
  - intros x [e He]. rewrite (Hx x), He; [cbn; eauto|].
    pose proof (rep_fresh _ _ HR _ _ He). lia.
Qed.

Lemma revalue_evolves m l p v e :
  Rep m l → entries m !! p = Some e → key e ≠ None →
  Evolves m l (withEntries m (<[p := setValue (Some v) e]> (entries m))) (revalue p v <$> l).
Proof.
  intros HR Hp Hk. split; [by apply revalue_rep| | |]; cbn [nextLoc entries withEntries].
  - intros x. rewrite revalue_locs. auto.
  - lia.
  - intros x Hx. destruct (decide (p = x)) as [<-|];
      [rewrite lookup_insert_eq|rewrite lookup_insert_ne]; eauto.
Qed.

(** [set] on the list of cells: overwrite in place or append. *)
Lemma set_rep m l k v :
  Rep m l → wfKey k →
  ∃ m' l', set m k v = Some m' ∧ Evolves m l m' l' ∧ l'.*2 = assocSet l.*2 (normKey k) v.
Proof.
  intros HR Hk. unfold set. destruct (lookup_spec _ _ _ HR Hk)
    as [Habs Hlk|l1 p k' v' l2 Hl Hsame Hhash Hl1 Hlk]; rewrite Hlk; cbn.
  - destruct (insert_evolves m l k v HR Hk Habs) as (m' & Hm' & HR'). rewrite Hm'.
    eexists m', _. split; [done|]. split; [done|]. by rewrite assocSet_none, fmap_app.
  - pose proof (rep_node _ _ HR _ _ _ _ _ Hl) as Hnode. unfold upd. rewrite Hnode. cbn.
    eexists _, (revalue p v <$> l). split; [done|].
    pose proof (rep_nodup _ _ HR) as Hnd.
    split; [by apply revalue_evolves|]. subst l.
    by rewrite revalue_split, assocSet_split by done.
Qed.

(** [getOrInsert] leaves a present key alone and appends an absent one. *)
Lemma getOrInsert_rep m l k v :
  Rep m l → wfKey k →
  ∃ m' l', getOrInsert m k v
           = Some (m', Some (default v (assocGet l.*2 (normKey k)))) ∧ Evolves m l m' l' ∧
           l'.*2 = (if assocHas l.*2 (normKey k) then l.*2 else assocSet l.*2 (normKey k) v).
Proof.
  intros HR Hk. unfold getOrInsert, assocHas. destruct (lookup_spec _ _ _ HR Hk)
    as [Habs Hlk|l1 p k' v' l2 Hl Hsame Hhash Hl1 Hlk]; rewrite Hlk; cbn.
  - destruct (insert_evolves m l k v HR Hk Habs) as (m' & Hm' & HR'). rewrite Hm'. cbn.
    rewrite assocGet_none by done. eexists m', _. split; [done|]. split; [done|]. cbn.
    by rewrite assocSet_none, fmap_app.
  - rewrite (rep_node _ _ HR _ _ _ _ _ Hl). cbn. exists m, l. subst l.
    rewrite assocGet_split by done. split; [done|]. split; [|done]. split; eauto. lia.
Qed.

(** The fields of a live entry that [remove] of its neighbour rewrites. *)
Definition unlink (ip inx hp hn : option loc) (x : loc) (e : mapEntry V) : mapEntry V :=
  (if decide (hp = Some x) then setHNext hn else id)
    ((if decide (inx = Some x) then setIterPrev ip else id)
       ((if decide (ip = Some x) then setIterNext inx else id) e)).

Lemma remove_heap m l1 p k' v' l2 h k :
  Rep m (l1 ++ (p, (k', v')) :: l2) →
  let ip := last l1.*1 in let inx := head l2.*1 in
  let hp := last (bucket h l1).*1 in let hn := head (bucket (hash k') l2).*1 in
  let e := MkEntry (Some k') (Some v') ip inx hn in
  lookup m k = Some (h, Some p, hp) →
  ∃ es,
    remove m k = Some (MkMap es (nextLoc m)
      (match hp with
       | Some _ => hashTable m
       | None => match hn with None => delete h (hashTable m)
                             | Some n => <[h := n]> (hashTable m) end
       end)
      (match ip with Some _ => iterFirst m | None => inx end)
      (match inx with Some _ => iterLast m | None => ip end) (msize m - 1), true) ∧
    es !! p = Some (clearKV e) ∧
    ∀ x, x ≠ p → es !! x = unlink ip inx hp hn x <$> entries m !! x.
Proof.
  intros HR ip inx hp hn e Hlk. pose proof (rep_node _ _ HR _ _ _ _ _ eq_refl) as Hp. fold ip inx hn e in Hp.
  pose proof (rep_nodup _ _ HR) as Hnd. rewrite fmap_app, fmap_cons in Hnd.
  apply NoDup_app in Hnd as (_ & Hd & [Hn _]%NoDup_cons). cbn in Hd, Hn.
  assert (∀ q, ip = Some q → q ≠ p ∧ is_Some (entries m !! q)) as Hip.
  { intros q Hq%last_Some_elem_of. split; [intros ->; apply (Hd p Hq); set_solver|].
    eapply (rep_in_heap m _ q HR). rewrite fmap_app. set_solver. }
  assert (∀ q, inx = Some q → q ≠ p ∧ is_Some (entries m !! q)) as Hin.
  { intros q Hq%head_Some_elem_of. split; [intros ->; done|].
    eapply (rep_in_heap m _ q HR). rewrite fmap_app, fmap_cons. set_solver. }
  assert (∀ q, hp = Some q → q ≠ p ∧ is_Some (entries m !! q)) as Hhp.
  { intros q Hq%last_Some_elem_of%bucket_sub. split; [intros ->; apply (Hd p Hq); set_solver|].
    eapply (rep_in_heap m _ q HR). rewrite fmap_app. set_solver. }
  unfold remove. rewrite Hlk. cbn. unfold upd at 1. rewrite Hp. cbn. rewrite lookup_insert_eq. cbn.
  fold (clearKV e). set (es0 := <[p := clearKV e]> (entries m)).
  assert (∀ x, x ≠ p → es0 !! x = entries m !! x) as L0
    by (intros x Hx; by apply lookup_insert_ne).
  destruct (updOpt_ok ip (setIterNext inx) es0) as [es1 H1].
  { intros q [Hq ?]%Hip. by rewrite L0. }
  pose proof (λ x, updOpt_lookup _ _ _ _ x H1) as L1.
  destruct (updOpt_ok inx (setIterPrev ip) es1) as [es2 H2].
  { intros q [Hq [? Hs]]%Hin. rewrite L1, L0, Hs by done. case_decide; cbn; eauto. }
  pose proof (λ x, updOpt_lookup _ _ _ _ x H2) as L2.
  destruct (updOpt_ok hp (setHNext hn) es2) as [es3 H3].
  { intros q [Hq [? Hs]]%Hhp. rewrite L2, L1, L0, Hs by done. repeat case_decide; cbn; eauto. }
  pose proof (λ x, updOpt_lookup _ _ _ _ x H3) as L3.
  rewrite H1. cbn. rewrite H2. cbn. rewrite H3. cbn. exists es3. split; [done|]. split.
  - rewrite L3, decide_False, L2, decide_False, L1, decide_False;
      [apply lookup_insert_eq| | |]; naive_solver.
  - intros x Hx. rewrite L3, L2, L1, L0 by done. unfold unlink.
    destruct (entries m !! x); repeat case_decide; done.
Qed.

(** The links around a removed cell [c]. *)
Lemma unlink_left a x k v a' c (l2 : list cell) :
  let l1 := a ++ (x, (k, v)) :: a' in
  NoDup (l1 ++ c :: l2).*1 →
  unlink (last l1.*1) (head l2.*1) (last (bucket (hash c.2.1) l1).*1)
         (head (bucket (hash c.2.1) l2).*1) x
    (MkEntry (Some k) (Some v) (last a.*1) (head (a' ++ c :: l2).*1)
             (head (bucket (hash k) (a' ++ c :: l2)).*1))
  = MkEntry (Some k) (Some v) (last a.*1) (head (a' ++ l2).*1)
            (head (bucket (hash k) (a' ++ l2)).*1).
Proof.
  intros l1 Hnd. rewrite fmap_app in Hnd. pose proof Hnd as (Hnd1 & Hd & _)%NoDup_app.
  pose proof (last_split _ _ _ Hnd1) as Hl. cbn in Hl.
  pose proof (bucket_last_split (hash c.2.1) _ _ _ _ _ Hnd1) as Hb. fold l1 in Hl, Hb.
  destruct c as [p [k' v']]. cbn [fst snd] in *.
  assert (x ∈ l1.*1) as Hxl1 by (subst l1; rewrite fmap_app; set_solver).
  unfold unlink. rewrite (decide_False (P := head l2.*1 = Some x)).
  2:{ intros Hx%head_Some_elem_of. apply (Hd x Hxl1). rewrite fmap_cons. set_solver. }
  assert (head (a' ++ l2).*1 = if decide (last l1.*1 = Some x) then head l2.*1
                               else head (a' ++ (p, (k', v')) :: l2).*1) as ->.
  { case_decide as E; rewrite Hl in E; [by subst a'|]. by destruct a'. }
  assert (head (bucket (hash k) (a' ++ l2)).*1
          = if decide (last (bucket (hash k') l1).*1 = Some x) then head (bucket (hash k') l2).*1
            else head (bucket (hash k) (a' ++ (p, (k', v')) :: l2)).*1) as ->.
  { rewrite !bucket_app, bucket_cons.
    destruct (decide (last _ = Some x)) as [E|E]; rewrite Hb in E.
    - destruct E as [-> ->]. done.
    - case_decide as Hk; [|done]. destruct (bucket (hash k) a') eqn:Ea; [|done].
      exfalso. apply E. by rewrite Hk. }
  by repeat case_decide.
Qed.

Lemma unlink_right (l1 : list cell) c b' x k v b hp hn :
  let l2 := b' ++ (x, (k, v)) :: b in
  NoDup (l1 ++ c :: l2).*1 → (∀ q, hp = Some q → q ∈ l1.*1) →
  unlink (last l1.*1) (head l2.*1) hp hn x
    (MkEntry (Some k) (Some v) (last (l1 ++ c :: b').*1) (head b.*1) (head (bucket (hash k) b).*1))
  = MkEntry (Some k) (Some v) (last (l1 ++ b').*1) (head b.*1) (head (bucket (hash k) b).*1).
Proof.
  intros l2 Hnd Hhp. rewrite fmap_app, fmap_cons in Hnd.
  apply NoDup_app in Hnd as (_ & Hd & [_ Hnd2]%NoDup_cons).
  pose proof (head_split _ _ _ Hnd2) as Hh. cbn in Hh. fold l2 in Hh.
  assert (x ∉ l1.*1) as Hx
    by (intros Hx; apply (Hd x Hx); subst l2; rewrite fmap_app; set_solver).
  unfold unlink. rewrite (decide_False (P := hp = Some x)) by (intros ?%Hhp; done).
  rewrite (decide_False (P := last l1.*1 = Some x)) by (intros ?%last_Some_elem_of; done).
  case_decide as E; rewrite Hh in E.
  - subst b'. by rewrite app_nil_r.
  - destruct b' as [|d b']; [done|]. rewrite !fmap_app, !fmap_cons, !last_app_cons. done.
Qed.

Lemma unlink_key ip inx hp hn x e : key (unlink ip inx hp hn x e) = key e.
Proof. unfold unlink. by repeat case_decide. Qed.

Lemma remove_dead m l1 p k' v' l2 (es : gmap loc (mapEntry V)) hp hn :
  Rep m (l1 ++ (p, (k', v')) :: l2) →
  es !! p = Some (MkEntry None None (last l1.*1) (head l2.*1) hn) →
  (∀ x, x ≠ p → es !! x = unlink (last l1.*1) (head l2.*1) hp hn x <$> entries m !! x) →
  ∀ x e, es !! x = Some e → key e = None →
    match iterPrev e with
    | Some q => (q < x)%positive ∧ is_Some (es !! q) ∧
                ∀ y, y ∈ (l1 ++ l2).*1 → (y < x)%positive → (y ≤ q)%positive
    | None => ∀ y, y ∈ (l1 ++ l2).*1 → ¬ (y < x)%positive
    end.
Proof.
  intros HR Hp Hx x e He Hke. pose proof (rep_sorted _ _ HR) as Hs.
  rewrite fmap_app, fmap_cons in Hs. apply StronglySorted_app in Hs as (Hlt & Hs1 & Hs2).
  assert (∀ y, y ∈ l2.*1 → (p < y)%positive) as Hgt.
  { apply StronglySorted_inv in Hs2 as [_ Hf]. by rewrite Forall_forall in Hf. }
  assert (∀ q, is_Some (entries m !! q) → is_Some (es !! q)) as Hdom.
  { intros q [? Hq]. destruct (decide (q = p)) as [->|]; [eauto|].
    rewrite Hx, Hq by done. cbn. eauto. }
  destruct (decide (x = p)) as [->|Hne].
  - rewrite Hp in He. injection He as <-. cbn. destruct (last l1.*1) as [q|] eqn:El.
    + pose proof (last_Some_elem_of _ _ El) as Hq. split; [apply Hlt; set_solver|].
      split; [apply Hdom; eapply (rep_in_heap _ _ q HR); rewrite fmap_app; set_solver|].
      intros y. rewrite fmap_app, elem_of_app. intros [Hy|Hy%Hgt] Hyp; [|lia].
      apply last_Some in El as (l' & El). rewrite El in Hs1, Hy.
      apply elem_of_app in Hy as [Hy|Hy]; [|apply list_elem_of_singleton in Hy; lia].
      apply StronglySorted_app in Hs1 as (Hs1 & _). apply Pos.lt_le_incl, Hs1; set_solver.
    + apply last_None, fmap_nil_inv in El as ->. intros y Hy%Hgt. lia.
  - rewrite (Hx x Hne) in He. apply fmap_Some in He as (e' & He' & ->).
    rewrite unlink_key in Hke. pose proof (rep_dead _ _ HR x e' He' Hke) as Hd.
    assert ((x ∉ l1.*1) ∧ (x ∉ l2.*1)) as [Hx1 Hx2].
    { split; intros Hin; (assert (x ∈ (l1 ++ (p, (k', v')) :: l2).*1) as Hin'
        by (rewrite fmap_app, fmap_cons; set_solver));
      destruct (rep_elem _ _ _ HR Hin') as (? & ? & ? & ? & Hl);
      rewrite (rep_node _ _ HR _ _ _ _ _ Hl) in He'; by injection He' as <-. }
    assert (iterPrev (unlink (last l1.*1) (head l2.*1) hp hn x e') = iterPrev e') as ->.
    { unfold unlink. rewrite (decide_False (P := head l2.*1 = Some x))
        by (intros ?%head_Some_elem_of; done). by repeat case_decide. }
    assert (∀ y, y ∈ (l1 ++ l2).*1 → y ∈ (l1 ++ (p, (k', v')) :: l2).*1) as Hsub
      by (intros y; rewrite !fmap_app, fmap_cons; set_solver).
    destruct (iterPrev e') as [q|]; [destruct Hd as (? & ? & Hd)|]; auto.
Qed.

Lemma remove_nodes m l1 p k' v' l2 (es : gmap loc (mapEntry V)) :
  Rep m (l1 ++ (p, (k', v')) :: l2) →
  (∀ x, x ≠ p → es !! x = unlink (last l1.*1) (head l2.*1) (last (bucket (hash k') l1).*1)
                            (head (bucket (hash k') l2).*1) x <$> entries m !! x) →
  ∀ a x k v b, x ≠ p → l1 ++ l2 = a ++ (x, (k, v)) :: b →
    es !! x = Some (MkEntry (Some k) (Some v) (last a.*1) (head b.*1)
                            (head (bucket (hash k) b).*1)).
Proof.
  intros HR Hx a x k1 v1 b Hne Hsplit. pose proof (rep_nodup _ _ HR) as Hnd.
  rewrite (Hx x Hne). symmetry in Hsplit.
  apply app_cons_split in Hsplit as [(a' & -> & ->)|(b' & -> & ->)].
  - rewrite (rep_node _ _ HR a x k1 v1 (a' ++ (p, (k', v')) :: l2))
      by (by rewrite <- app_assoc).
    cbn [fmap option_fmap option_map]. f_equal.
    by apply (unlink_left a x k1 v1 a' (p, (k', v')) l2).
  - rewrite (rep_node _ _ HR (l1 ++ (p, (k', v')) :: b') x k1 v1 b)
      by (by rewrite <- app_assoc).
    cbn [fmap option_fmap option_map]. f_equal. apply unlink_right; [done|].
    intros q Hq%last_Some_elem_of. by eapply bucket_sub.
Qed.

Lemma remove_hash m l1 p k' v' l2 h :
  Rep m (l1 ++ (p, (k', v')) :: l2) →
  (match last (bucket (hash k') l1).*1 with
   | Some _ => hashTable m
   | None => match head (bucket (hash k') l2).*1 with
             | None => delete (hash k') (hashTable m)
             | Some n => <[hash k' := n]> (hashTable m)
             end
   end) !! h = head (bucket h (l1 ++ l2)).*1.
Proof.
  intros HR. pose proof (rep_hash _ _ HR h) as Hht.
  rewrite bucket_app, bucket_cons, head_fmap_app in Hht. rewrite bucket_app, head_fmap_app.
  destruct (decide (hash k' = h)) as [<-|Hne].
  - destruct (last (bucket (hash k') l1).*1) eqn:El.
    + rewrite Hht. by destruct (bucket (hash k') l1).
    + apply last_None, fmap_nil_inv in El as ->. cbn.
      destruct (head (bucket (hash k') l2).*1); [apply lookup_insert_eq|apply lookup_delete_eq].
  - destruct (last (bucket (hash k') l1).*1); [done|].
    destruct (head (bucket (hash k') l2).*1);
      [rewrite lookup_insert_ne by done|rewrite lookup_delete_ne by done]; done.
Qed.

Lemma remove_sub (l1 : list cell) p k' v' l2 :
  NoDup (l1 ++ (p, (k', v')) :: l2).*1 →
  ∀ y, y ∈ (l1 ++ l2).*1 ↔ y ∈ (l1 ++ (p, (k', v')) :: l2).*1 ∧ y ≠ p.
Proof.
  rewrite fmap_app, fmap_cons. intros (_ & Hd & [Hn _]%NoDup_cons)%NoDup_app y.
  rewrite fmap_app, !elem_of_app, elem_of_cons. cbn in *.
  assert (p ∉ l1.*1) by (intros Hin; apply (Hd _ Hin); set_solver).
  split; [|tauto]. intros [Hy|Hy]; (split; [auto|intros ->; done]).
Qed.

Lemma remove_rep m l1 p k' v' l2 k :
  Rep m (l1 ++ (p, (k', v')) :: l2) → hash k' = hash (normKey k) →
  lookup m k = Some (hash (normKey k), Some p, last (bucket (hash (normKey k)) l1).*1) →
  ∃ m', remove m k = Some (m', true) ∧ Evolves m (l1 ++ (p, (k', v')) :: l2) m' (l1 ++ l2).
Proof.
  intros HR Hh Hlk. rewrite <- Hh in Hlk.
  destruct (remove_heap m l1 p k' v' l2 (hash k') k HR Hlk) as (es & -> & Hp & Hx).
  pose proof (rep_nodup _ _ HR) as Hnd. pose proof (rep_sorted _ _ HR) as Hs.
  pose proof (remove_sub _ _ _ _ _ Hnd) as Hsub.
  eexists; split; [done|].
  split; cbn [nextLoc entries]; [|intros x Hin%Hsub; tauto|lia|].
  2:{ intros q [? Hq]. destruct (decide (q = p)) as [->|]; [eauto|].
      rewrite Hx, Hq by done. cbn. eauto. }
  split; cbn [entries nextLoc iterFirst iterLast hashTable msize].
  - rewrite fmap_app, ?fmap_cons in *. apply StronglySorted_app in Hs as (Hlt & Hs1 & Hs2).
    apply StronglySorted_inv in Hs2 as [Hs2 _].
    apply StronglySorted_app_2; [|done|done]. intros; apply Hlt; set_solver.
  - intros a x k1 v1 b Hsplit. eapply (remove_nodes m l1 p k' v' l2); [done|done| |done].
    apply Hsub. rewrite Hsplit, fmap_app. set_solver.
  - rewrite (rep_first _ _ HR), fmap_app, fmap_cons, head_app, fmap_app, head_app.
    destruct l1; [done|]. rewrite fmap_cons, last_cons. by destruct (last l1.*1).
  - rewrite (rep_last _ _ HR), !fmap_app, fmap_cons, last_app_cons, last_app, last_cons.
    destruct l2 as [|c l2]; [done|]. cbn [fmap list_fmap head]. rewrite !last_cons.
    by destruct (last (fst <$> l2)).
  - intros h. by apply (remove_hash _ _ p _ v').
  - rewrite (rep_size _ _ HR), !length_app. cbn. lia.
  - intros a x k1 v1 b Hsplit. symmetry in Hsplit.
    apply app_cons_split in Hsplit as [(a' & -> & ->)|(b' & -> & ->)].
    + rewrite <- app_assoc in HR. by eapply (rep_keys _ _ HR).
    + destruct (rep_keys _ _ HR (l1 ++ (p, (k', v')) :: b') x k1 v1 b) as (? & ? & Hf);
        [by rewrite <- app_assoc|]. do 2 (split; [done|]).
      apply Forall_app in Hf as [? Hf]. apply Forall_app. split; [done|]. by inversion Hf.
  - intros x e He. destruct (decide (x = p)) as [->|Hne].
    { eapply (rep_fresh _ _ HR p). by eapply rep_node. }
    rewrite (Hx x Hne) in He. apply fmap_Some in He as (e' & He' & ->). by eapply rep_fresh.
  - intros x e He Hke. apply Hsub. destruct (decide (x = p)) as [->|Hne].
    { rewrite Hp in He. by injection He as <-. }
    rewrite (Hx x Hne) in He. apply fmap_Some in He as (e' & He' & ->).
    rewrite unlink_key in Hke. split; [by eapply (rep_live _ _ HR)|done].
  - by eapply (remove_dead m l1 p k' v' l2 es).
Qed.

(** One pass of the loop of [clear] over the entries [l2] still to do. *)
Lemma clearLoop_spec m l (HR : Rep m l) l1 l2 fuel (es : gmap loc (mapEntry V)) :
  l = l1 ++ l2 → (length l2 ≤ fuel)%nat →
  (∀ x, x ∈ l2.*1 → es !! x = entries m !! x) →
  (∀ x, x ∈ l.*1 → is_Some (es !! x)) →
  ∃ es', clearLoop fuel (head l2.*1) es = Some es' ∧
    (∀ x, is_Some (es !! x) ↔ is_Some (es' !! x)) ∧
    (∀ x e', es' !! x = Some e' → ∃ e, es !! x = Some e ∧ iterPrev e' = iterPrev e ∧
                                       (key e = None ∨ x ∈ l2.*1 → key e' = None) ∧
                                       (x ∉ l2.*1 → key e' = key e)).
Proof.
  revert l1 fuel es. induction l2 as [|[p [k v]] l2 IH]; intros l1 fuel es Hl Hf Hsame Hdom.
  { exists es. destruct fuel; (split; [done|]; split; [done|]; intros x e He;
      exists e; repeat split; auto; intros [?|?%not_elem_of_nil]; done). }
  destruct fuel as [|fuel]; [cbn in Hf; lia|].
  pose proof (rep_node _ _ HR _ _ _ _ _ Hl) as Hp.
  assert (es !! p = entries m !! p) as Hesp by (apply Hsame; set_solver).
  pose proof (rep_nodup _ _ HR) as Hnd. rewrite Hl, fmap_app, fmap_cons in Hnd.
  apply NoDup_app in Hnd as (_ & Hd & [Hn _]%NoDup_cons). cbn [fst] in Hd, Hn.
  cbn [fmap list_fmap head fst clearLoop]. unfold upd at 1. rewrite Hesp, Hp.
  cbn [mbind option_bind]. rewrite lookup_insert_eq.
  cbn [mbind option_bind iterPrev iterNext clearKV key value hNext].
  set (e1 := clearKV _). set (es1 := <[p := e1]> es).
  assert (∀ q, last l1.*1 = Some q → q ≠ p ∧ (q ∉ l2.*1) ∧ is_Some (es1 !! q)) as Hlast.
  { intros q Hq%last_Some_elem_of. assert (q ≠ p) by (intros ->; apply (Hd p Hq); set_solver).
    split; [done|]. split; [intros ?; apply (Hd q Hq); set_solver|].
    unfold es1. rewrite lookup_insert_ne by done. apply Hdom.
    rewrite Hl, fmap_app. set_solver. }
  destruct (updOpt_ok (last l1.*1) (setIterNext None) es1) as [es2 H2];
    [intros q Hq; by apply Hlast|].
  pose proof (λ x, updOpt_lookup _ _ _ _ x H2) as L2. rewrite H2. cbn [mbind option_bind].
  rewrite L2, decide_False by (intros Hq; by destruct (Hlast p Hq)).
  unfold es1 at 1. rewrite lookup_insert_eq. cbn [mbind option_bind iterNext e1].
  assert (∀ x, is_Some (es !! x) ↔ is_Some (es2 !! x)) as Hdom2.
  { intros x. rewrite L2. unfold es1. destruct (decide (x = p)) as [->|];
      [rewrite lookup_insert_eq, Hesp, Hp|rewrite lookup_insert_ne by done];
      case_decide; rewrite ?fmap_is_Some; naive_solver. }
  destruct (IH (l1 ++ [(p, (k, v))]) fuel es2) as (es' & Hes' & Hdom' & Hcell).
  { by rewrite <- app_assoc. }
  { cbn in Hf. lia. }
  { intros x Hx. rewrite L2, decide_False by (intros Hq; by apply Hlast in Hq as (_ & ? & _)).
    unfold es1. rewrite lookup_insert_ne by (intros ->; done). apply Hsame. set_solver. }
  { intros x Hx. apply Hdom2. by apply Hdom. }
  exists es'. split; [done|]. split; [intros x; by rewrite Hdom2|].
  intros x e' He'. destruct (Hcell x e' He') as (e2 & He2 & Hip & Hk & Hk').
  rewrite L2 in He2. unfold es1 in He2. destruct (decide (x = p)) as [->|Hxp].
  - rewrite decide_False, lookup_insert_eq in He2 by (intros Hq; by destruct (Hlast p Hq)).
    injection He2 as <-. rewrite Hesp. eexists; split; [exact Hp|].
    cbn. split; [done|]. split; [auto|set_solver].
  - rewrite lookup_insert_ne in He2 by done. destruct (decide (last l1.*1 = Some x)).
    + apply fmap_Some in He2 as (e3 & He3 & ->). cbn in *.
      exists e3. split; [done|]. split; [done|]. rewrite elem_of_cons. split; naive_solver.
    + exists e2. split; [done|]. split; [done|]. rewrite elem_of_cons. split; naive_solver.
Qed.

Lemma clear_rep m l : Rep m l → ∃ m', clear m = Some m' ∧ Evolves m l m' [].
Proof.
  intros HR. unfold clear. rewrite (rep_first _ _ HR). pose proof (rep_length _ _ HR).
  destruct (clearLoop_spec m l HR [] l (S (size (entries m))) (entries m))
    as (es & -> & Hdom & Hcell); [done|lia|done|intros; by apply (rep_in_heap m l)|].
  eexists; split; [done|].
  split; cbn [entries nextLoc iterFirst iterLast hashTable msize];
    [|by intros x ?%not_elem_of_nil|lia|by intros x ?%Hdom].
  split; cbn [entries nextLoc iterFirst iterLast hashTable msize]; try done.
  - constructor.
  - intros l1 ?????. by destruct l1.
  - intros l1 ?????. by destruct l1.
  - intros x e (e0 & He0 & _)%Hcell. by eapply (rep_fresh _ _ HR).
  - intros x e He Hk. exfalso. apply Hk. destruct (Hcell x e He) as (e0 & He0 & _ & Hd & _).
    apply Hd. destruct (key e0) eqn:E; [right|by left].
    eapply (rep_live _ _ HR); [done|by rewrite E].
  - intros x e He Hk. destruct (Hcell x e He) as (e0 & He0 & -> & _).
    destruct (iterPrev e0) as [q|] eqn:Eq; [|by intros y ?%not_elem_of_nil].
    rewrite <- Hdom. destruct (key e0) eqn:Ek.
    + assert (x ∈ l.*1) as Hx by (eapply (rep_live _ _ HR); [done|by rewrite Ek]).
      destruct (rep_elem _ _ _ HR Hx) as (l1 & k & v' & l2 & Hl).
      rewrite (rep_node _ _ HR _ _ _ _ _ Hl) in He0. injection He0 as <-. cbn in Eq.
      apply last_Some_elem_of in Eq. pose proof (rep_sorted _ _ HR) as Hs.
      rewrite Hl, fmap_app, fmap_cons in Hs. apply StronglySorted_app in Hs as (Hs & _).
      split; [apply Hs; set_solver|]. split; [|by intros y ?%not_elem_of_nil].
      apply (rep_in_heap m l); [done|]. rewrite Hl, fmap_app. set_solver.
    + pose proof (rep_dead _ _ HR _ _ He0 Ek) as Hd. rewrite Eq in Hd.
      destruct Hd as (? & ? & _). split; [done|]. split; [done|by intros y ?%not_elem_of_nil].
Qed.

(** *** Iteration *)

(** Number of heap cells below [c]: what the backward walk consumes. *)
Definition below (m : orderedMap V) (c : loc) : nat :=
  size (filter (λ x, (x < c)%positive) (dom (entries m))).

Lemma below_lt m q c :
  (q < c)%positive → is_Some (entries m !! q) → (below m q < below m c)%nat.
Proof.
  intros Hlt Hq%elem_of_dom. apply subset_size. split.
  - intros x. rewrite !elem_of_filter. intros [? ?]. split; [lia|done].
  - intros Hsub. assert (q ∈ filter (λ x, (x < q)%positive) (dom (entries m))) as Hin
      by (apply Hsub; by apply elem_of_filter).
    apply elem_of_filter in Hin as [? _]. lia.
Qed.

Lemma below_le m c : (below m c ≤ size (entries m))%nat.
Proof.
  rewrite <- size_dom. apply subseteq_size. intros x. rewrite elem_of_filter. tauto.
Qed.

Lemma trackBack_spec m l fuel c :
  Rep m l → is_Some (entries m !! c) → (below m c < fuel)%nat →
  ∃ r, trackBack fuel (entries m) (Some c) = Some r ∧
    match r with
    | Some q => q ∈ l.*1 ∧ (q ≤ c)%positive ∧
                ∀ x, x ∈ l.*1 → (x ≤ c)%positive → (x ≤ q)%positive
    | None => ∀ x, x ∈ l.*1 → ¬ (x ≤ c)%positive
    end.
Proof.
  intros HR. revert c. induction fuel as [|fuel IH]; intros c [e He] Hf;
    cbn [trackBack]; rewrite He; cbn [mbind option_bind]; destruct (key e) as [k|] eqn:Ek.
  1, 3: exists (Some c); split; [done|]; split;
    [eapply (rep_live _ _ HR); [done|by rewrite Ek]|split; [lia|auto]].
  all: pose proof (rep_dead _ _ HR _ _ He Ek) as Hd;
    assert (c ∉ l.*1) as Hc by (intros Hc; destruct (rep_elem _ _ _ HR Hc) as (?&?&?&?&Hl);
      rewrite (rep_node _ _ HR _ _ _ _ _ Hl) in He; by injection He as <-).
  - lia.
  - destruct (iterPrev e) as [q|].
    + destruct Hd as (Hqc & Hq & Hd). pose proof (below_lt m q c Hqc Hq).
      destruct (IH q Hq ltac:(lia)) as (r & Hr & Hspec). exists r. split; [done|].
      destruct r as [q'|].
      * destruct Hspec as (? & ? & Hmax). split; [done|]. split; [lia|].
        intros x Hx Hxc. apply Hmax; [done|]. apply Hd; [done|].
        assert (x ≠ c) by (intros ->; done). lia.
      * intros x Hx Hxc. apply (Hspec x Hx). apply Hd; [done|].
        assert (x ≠ c) by (intros ->; done). lia.
    + exists None. destruct fuel; (split; [done|]); intros x Hx Hxc;
        assert (x ≠ c) by (intros ->; done); apply (Hd x Hx); lia.
Qed.

(** [x] comes after the iterator position [c]. *)
Definition after (c : option loc) (x : loc) : Prop :=
  match c with Some c => (c < x)%positive | None => True end.

Lemma succ_split (l1 l2 : list cell) c x :
  StronglySorted Pos.lt (l1 ++ c :: l2).*1 → x ∈ (l1 ++ c :: l2).*1 → (c.1 < x)%positive →
  x ∈ l2.*1.
Proof.
  rewrite fmap_app, fmap_cons. intros (Hlt & _ & _)%StronglySorted_app.
  rewrite elem_of_app, elem_of_cons. intros [Hx|[->|Hx]] Hcx; [|lia|done].
  specialize (Hlt x c.1 Hx ltac:(set_solver)). lia.
Qed.

Lemma head_least (l : list cell) q x :
  StronglySorted Pos.lt l.*1 → head l.*1 = Some q → x ∈ l.*1 → (q ≤ x)%positive.
Proof.
  destruct l as [|c l]; [done|]. rewrite fmap_cons. cbn [head].
  intros [_ Hf]%StronglySorted_inv [= <-]. rewrite elem_of_cons.
  rewrite Forall_forall in Hf. intros [->|Hx]; [lia|]. specialize (Hf x Hx). lia.
Qed.

(** Where the backward walk of [next] ends. *)
Lemma trackBack_pos m l c :
  Rep m l → (∀ p, c = Some p → is_Some (entries m !! p)) →
  ∃ r, trackBack (S (size (entries m))) (entries m) c = Some r ∧
    match r with
    | Some q => q ∈ l.*1 ∧ (∀ x, x ∈ l.*1 → after c x ↔ (q < x)%positive)
    | None => ∀ x, x ∈ l.*1 → after c x
    end.
Proof.
  intros HR Hc. destruct c as [c|]; [|by exists None].
  destruct (trackBack_spec m l (S (size (entries m))) c HR (Hc c eq_refl)) as (r & -> & Hr).
  { pose proof (below_le m c). lia. }
  exists r. split; [done|]. destruct r as [q|]; cbn.
  - destruct Hr as (Hq & Hqc & Hr). split; [done|]. intros x Hx. split; [lia|].
    intros Hqx. destruct (decide (x ≤ c)%positive) as [Hxc|]; [|lia].
    specialize (Hr x Hx Hxc). lia.
  - intros x Hx. specialize (Hr x Hx). lia.
Qed.

(** [next] moves to the oldest live entry after the position, or closes the
    iterator when there is none. *)
Lemma next_spec m l c :
  Rep m l → (∀ p, c = Some p → is_Some (entries m !! p)) →
  ∃ it r, next m (MkIter true c) = Some (it, r) ∧
    match r with
    | Some q => it = MkIter true (Some q) ∧ q ∈ l.*1 ∧ after c q ∧
                ∀ x, x ∈ l.*1 → after c x → (q ≤ x)%positive
    | None => it = MkIter false None ∧ ∀ x, x ∈ l.*1 → ¬ after c x
    end.
Proof.
  intros HR Hc. pose proof (rep_sorted _ _ HR) as Hs. unfold next. cbn [isOpen cur].
  destruct (trackBack_pos m l c HR Hc) as (r & -> & Hr).
  cbn [mbind option_bind]. destruct r as [q|].
  - destruct Hr as [Hq Hr]. destruct (rep_elem _ _ _ HR Hq) as (l1 & k & v & l2 & Hl).
    rewrite (rep_node _ _ HR _ _ _ _ _ Hl). cbn [mbind option_bind iterNext].
    pose proof (λ x, succ_split l1 l2 (q, (k, v)) x) as Hsucc. rewrite <- Hl in Hsucc.
    rewrite Hl, fmap_app, fmap_cons in Hs.
    apply StronglySorted_app in Hs as (_ & _ & [Hs2 Hf]%StronglySorted_inv).
    rewrite Forall_forall in Hf. cbn [fst] in *.
    destruct (head l2.*1) as [n|] eqn:En; do 2 eexists; (split; [done|]); cbn.
    + pose proof (head_Some_elem_of _ _ En) as Hn.
      assert (n ∈ l.*1) as Hnl by (rewrite Hl, fmap_app, fmap_cons; set_solver).
      split; [done|]. split; [done|]. split; [by apply Hr, Hf|].
      intros x Hx Hax. eapply head_least; [exact Hs2|done|].
      apply Hsucc; [apply HR|done|by apply Hr].
    + split; [done|]. intros x Hx Hax. apply head_None, fmap_nil_inv in En as ->.
      eapply not_elem_of_nil, Hsucc; [apply HR|done|by apply Hr].
  - rewrite (rep_first _ _ HR). destruct (head l.*1) as [q|] eqn:Eh; do 2 eexists; (split; [done|]).
    + pose proof (head_Some_elem_of _ _ Eh) as Hq. split; [done|]. split; [done|].
      split; [by apply Hr|]. intros x Hx _. by eapply head_least.
    + split; [done|]. apply head_None, fmap_nil_inv in Eh as ->. by intros x ?%not_elem_of_nil.
Qed.

(** ** Operation sequences *)

Lemma new_rep : Rep newOrderedMap [].
Proof.
  split; cbn; try done; try (by intros []); try (by intros ? []); try constructor;
    intros *; by rewrite lookup_empty.
Qed.

Inductive mapOp := OpSet (k v : V) | OpGetOrInsert (k v : V) | OpRemove (k : V) | OpClear.

Definition wfOp (o : mapOp) : Prop :=
  match o with OpSet k _ | OpGetOrInsert k _ | OpRemove k => wfKey k | OpClear => True end.

Definition applyOp (m : orderedMap V) (o : mapOp) : option (orderedMap V) :=
  match o with
  | OpSet k v => set m k v
  | OpGetOrInsert k v => fst <$> getOrInsert m k v
  | OpRemove k => fst <$> remove m k
  | OpClear => clear m
  end.

Definition specOp (al : list (V * V)) (o : mapOp) : list (V * V) :=
  match o with
  | OpSet k v => assocSet al (normKey k) v
  | OpGetOrInsert k v => if assocHas al (normKey k) then al else assocSet al (normKey k) v
  | OpRemove k => assocDel al (normKey k)
  | OpClear => []
  end.

Fixpoint runOps (m : orderedMap V) (os : list mapOp) : option (orderedMap V) :=
  match os with
  | [] => Some m
  | o :: os => m' ← applyOp m o; runOps m' os
  end.

Lemma evolves_refl m l : Rep m l → Evolves m l m l.
Proof. intros HR. split; eauto. lia. Qed.

(** [remove] in full: its result says whether the key was there. *)
Lemma remove_full m l k :
  Rep m l → wfKey k →
  ∃ m' l', remove m k = Some (m', assocHas l.*2 (normKey k)) ∧ Evolves m l m' l' ∧
           l'.*2 = assocDel l.*2 (normKey k).
Proof.
  intros HR Hk. destruct (lookup_spec _ _ _ HR Hk)
    as [Habs Hlk|l1 p k' v' l2 Hl Hsame Hhash Hl1 Hlk]; unfold assocHas.
  - rewrite assocGet_none, assocDel_none by done. exists m, l.
    split; [|by auto using evolves_refl]. unfold remove. by rewrite Hlk.
  - subst l. rewrite assocGet_split, assocDel_split by done.
    destruct (remove_rep m l1 p k' v' l2 k HR Hhash Hlk) as (m' & Hm' & Hev).
    exists m', (l1 ++ l2). rewrite Hm'. by rewrite bool_decide_eq_true_2 by eauto.
Qed.

Lemma applyOp_evolves m l o :
  Rep m l → wfOp o →
  ∃ m' l', applyOp m o = Some m' ∧ Evolves m l m' l' ∧ l'.*2 = specOp l.*2 o.
Proof.
  intros HR Hw. destruct o as [k v|k v|k|]; cbn [applyOp specOp wfOp] in *.
  - by apply set_rep.
  - destruct (getOrInsert_rep m l k v HR Hw) as (m' & l' & -> & ? & ?). cbn. eauto.
  - destruct (remove_full m l k HR Hw) as (m' & l' & -> & ? & ?). cbn. eauto.
  - destruct (clear_rep m l HR) as (m' & -> & ?). eauto.
Qed.

Lemma runOps_rep m l os :
  Rep m l → Forall wfOp os →
  ∃ m' l', runOps m os = Some m' ∧ Rep m' l' ∧ l'.*2 = foldl specOp l.*2 os.
Proof.
  intros HR Hos. revert m l HR. induction Hos as [|o os Ho _ IH]; intros m l HR.
  { exists m, l. done. }
  destruct (applyOp_evolves m l o HR Ho) as (m1 & l1 & Hm1 & Hev & Hl1). cbn.
  rewrite Hm1, <- Hl1. apply IH, (ev_rep _ _ _ _ Hev).
Qed.

(** [copyTo] into any destination is a sequence of [set]s. *)
Lemma copyLoop_rep m l (HR : Rep m l) l1 l2 fuel dest ld :
  l = l1 ++ l2 → (length l2 ≤ fuel)%nat → Rep dest ld →
  ∃ dest' ld', copyLoop fuel (entries m) (head l2.*1) dest = Some dest' ∧ Rep dest' ld' ∧
    ld'.*2 = foldl (λ al kv, assocSet al kv.1 kv.2) ld.*2 l2.*2.
Proof.
  revert l1 fuel dest ld. induction l2 as [|[p [k v]] l2 IH]; intros l1 fuel dest ld Hl Hf HD.
  { exists dest, ld. by destruct fuel. }
  destruct fuel as [|fuel]; [cbn in Hf; lia|].
  cbn [fmap list_fmap head fst copyLoop]. rewrite (rep_node _ _ HR _ _ _ _ _ Hl).
  cbn [mbind option_bind key value iterNext].
  destruct (rep_keys _ _ HR _ _ _ _ _ Hl) as (Hw & Hn & _).
  destruct (set_rep dest ld k v HD Hw) as (d1 & ld1 & -> & Hev & Hld1).
  unfold normKey in Hld1. rewrite Hn in Hld1. cbn [mbind option_bind].
  cbn [foldl snd fst]. rewrite <- Hld1.
  apply (IH (l1 ++ [(p, (k, v))])); [by rewrite <- app_assoc|cbn in Hf; lia|apply Hev].
Qed.

Lemma assocSet_fold_app (l1 l2 : list cell) :
  (∀ a p k v b, l1 ++ l2 = a ++ (p, (k, v)) :: b → Forall (nosame k) a) →
  foldl (λ al kv, assocSet al kv.1 kv.2) l1.*2 l2.*2 = (l1 ++ l2).*2.
Proof.
  revert l1. induction l2 as [|[p [k v]] l2 IH]; intros l1 Hd; [by rewrite app_nil_r|].
  cbn [fmap list_fmap foldl snd fst].
  rewrite assocSet_none by (by apply (Hd l1 p k v l2)).
  replace (l1.*2 ++ [(k, v)]) with ((l1 ++ [(p, (k, v))]).*2) by (by rewrite fmap_app).
  rewrite IH; [by rewrite <- app_assoc|]. intros a q k' v' b Hab.
  apply (Hd a q k' v' b). by rewrite <- Hab, <- app_assoc.
Qed.

(** ** Iteration interleaved with mutation *)

(** A run of one iterator over a map that is being changed: the state is the
    map, the iterator and the entries [next] has returned, oldest first. *)
Inductive iterStep : orderedMap V * orderedMapIter * list loc →
                     orderedMap V * orderedMapIter * list loc → Prop :=
  | StepMutate m it vis o m' :
      wfOp o → applyOp m o = Some m' → iterStep (m, it, vis) (m', it, vis)
  | StepNext m it vis it' p :
      next m it = Some (it', Some p) → iterStep (m, it, vis) (m, it', vis ++ [p]).

Record IterInv (s : orderedMap V * orderedMapIter * list loc) : Prop := {
  ii_open : isOpen s.1.2 = true;
  ii_cur : cur s.1.2 = last s.2;
  ii_sorted : StronglySorted Pos.lt s.2;
  ii_live : ∃ l, Rep s.1.1 l ∧ (∀ p, p ∈ s.2 → is_Some (entries s.1.1 !! p)) ∧
                 ∀ x, x ∈ l.*1 → ¬ after (last s.2) x → x ∈ s.2;
}.

Lemma sorted_last_max (ps : list loc) c x :
  StronglySorted Pos.lt ps → last ps = Some c → x ∈ ps → (x ≤ c)%positive.
Proof.
  intros Hs (ps' & ->)%last_Some. apply StronglySorted_app in Hs as (Hs & _).
  rewrite elem_of_app, list_elem_of_singleton. intros [Hx| ->]; [|lia].
  specialize (Hs x c Hx ltac:(set_solver)). lia.
Qed.

Lemma iterStep_inv s s' : IterInv s → iterStep s s' → IterInv s'.
Proof.
  intros [Hop Hcur Hsort (l & HR & Hdom & Hvis)] Hstep.
  destruct Hstep as [m it vis o m' Hw Ho|m it vis it' p Hn]; cbn in *.
  - destruct (applyOp_evolves m l o HR Hw) as (m1 & l' & Hm1 & Hev & _).
    rewrite Ho in Hm1. injection Hm1 as <-. split; cbn; [done..|].
    exists l'. split; [apply Hev|]. split; [intros p Hp; by apply (ev_dom _ _ _ _ Hev), Hdom|].
    intros x Hx Haf. destruct (ev_old _ _ _ _ Hev x Hx) as [?|Hnew]; [by apply Hvis|].
    exfalso. apply Haf. destruct (last vis) as [c|] eqn:El; [|done]. cbn.
    destruct (Hdom c) as [e He]; [by apply last_Some_elem_of|].
    pose proof (rep_fresh _ _ HR _ _ He). lia.
  - destruct it as [op c]. cbn in *. subst op c.
    destruct (next_spec m l (last vis) HR) as (it1 & r & Hn1 & Hspec).
    { intros c Hc%last_Some_elem_of. by apply Hdom. }
    rewrite Hn in Hn1. injection Hn1 as <- <-. destruct Hspec as (-> & Hp & Haf & Hleast).
    split; cbn; [done|by rewrite last_snoc| |].
    + apply StronglySorted_app_2; [|done|repeat constructor].
      intros x y Hx Hy. apply list_elem_of_singleton in Hy as ->.
      destruct (last vis) as [c|] eqn:El; cbn in Haf.
      * pose proof (sorted_last_max _ _ _ Hsort El Hx). lia.
      * apply last_None in El as ->. by apply not_elem_of_nil in Hx.
    + exists l. split; [done|]. rewrite last_snoc. cbn. split.
      * intros q. rewrite elem_of_app, list_elem_of_singleton.
        intros [?| ->]; [by apply Hdom|by eapply rep_in_heap].
      * intros x Hx Hxp. rewrite elem_of_app, list_elem_of_singleton.
        destruct (decide (x = p)) as [->|Hne]; [by right|left]. apply Hvis; [done|].
        intros Hax. specialize (Hleast x Hx Hax). lia.
Qed.

(** An iterator past the entries [l1] yields the others, in their order. *)
Lemma forEachLoop_rep m l (HR : Rep m l) l1 l2 fuel :
  l = l1 ++ l2 → (length l2 ≤ fuel)%nat → forEachLoop fuel m (MkIter true (last l1.*1)) = Some l2.*2.
Proof.
  intros Hl Hf. revert l1 fuel Hl Hf. induction l2 as [|[p [k v]] l2 IH]; intros l1 fuel Hl Hf;
    (destruct (next_spec m l (last l1.*1) HR) as (it & r & Hn & Hspec);
     [intros c Hc%last_Some_elem_of; apply (rep_in_heap _ _ _ HR); rewrite Hl, fmap_app; set_solver|]);
    pose proof (rep_sorted _ _ HR) as Hs; rewrite Hl, fmap_app in Hs;
    apply StronglySorted_app in Hs as (Hle & Hs1 & Hs2).
  - assert (r = None) as ->; [|destruct fuel; cbn [forEachLoop]; by rewrite Hn].
    destruct r as [q|]; [|done]. destruct Hspec as (_ & Hq & Haf & _). rewrite Hl, app_nil_r in Hq.
    destruct (last l1.*1) as [c|] eqn:El; cbn in Haf.
    + pose proof (sorted_last_max _ _ _ Hs1 El Hq). lia.
    + apply last_None in El. rewrite El in Hq. by apply not_elem_of_nil in Hq.
  - destruct fuel as [|fuel]; [cbn in Hf; lia|]. cbn [forEachLoop]. rewrite Hn. cbn [mbind option_bind].
    assert (p ∈ l.*1) as Hp by (rewrite Hl, fmap_app, fmap_cons; set_solver).
    assert (after (last l1.*1) p) as Hap.
    { destruct (last l1.*1) as [c|] eqn:El; [|done]. apply last_Some_elem_of in El. apply Hle; set_solver. }
    destruct r as [q|]; [|by destruct Hspec as [_ []%(λ H, H p Hp Hap)]].
    destruct Hspec as (-> & Hq & Haf & Hleast). assert (q = p) as ->.
    { specialize (Hleast p Hp Hap). apply StronglySorted_inv in Hs2 as [_ Hs2]. rewrite Forall_forall in Hs2.
      rewrite Hl, fmap_app, fmap_cons, elem_of_app, elem_of_cons in Hq. destruct Hq as [Hq|[->|Hq]]; [|done|].
      - destruct (last l1.*1) as [c|] eqn:El; cbn in Haf.
        + pose proof (sorted_last_max _ _ _ Hs1 El Hq). lia.
        + apply last_None in El. rewrite El in Hq. by apply not_elem_of_nil in Hq.
      - specialize (Hs2 q Hq). cbn in Hs2. lia. }
    rewrite (rep_node _ _ HR _ _ _ _ _ Hl). cbn [mbind option_bind key value].
    specialize (IH (l1 ++ [(p, (k, v))]) fuel). rewrite fmap_app, last_app in IH. cbn in IH.
    rewrite IH; [done|by rewrite <- app_assoc|cbn in Hf; lia].
Qed.

Lemma forEach_rep m l : Rep m l → forEach m = Some l.*2.
Proof. intros HR. apply (forEachLoop_rep m l HR []); [done|by apply rep_length]. Qed.

(** ** Main theorems *)


(** C15: an iterator created on a map and used while the map is being changed
    returns entries in insertion order and none twice; it never returns a
    removed entry, and when it ends every entry then in the map has been
    returned. *)
Theorem iteration_under_mutation (os : list mapOp) m0 m it vis :
  Forall wfOp os → runOps newOrderedMap os = Some m0 →
  rtc iterStep (m0, newIter, []) (m, it, vis) →
  NoDup vis ∧ StronglySorted Pos.lt vis ∧
  ∃ l it' r, Rep m l ∧ next m it = Some (it', r) ∧
    match r with
    | Some p => p ∈ l.*1 ∧ p ∉ vis
    | None => isOpen it' = false ∧ ∀ p, p ∈ l.*1 → p ∈ vis
    end.
Proof.
  intros Hos Hm0 Hrun. destruct (runOps_rep _ _ os new_rep Hos) as (m1 & l0 & Hm1 & HR0 & _).
  rewrite Hm0 in Hm1. injection Hm1 as <-.
  assert (IterInv (m, it, vis)) as [Hop Hcur Hs (l & HR & Hdom & Hvis)].
  { eapply (rtc_ind_r (λ s, IterInv s)); [|by intros; eapply iterStep_inv|exact Hrun].
    split; cbn; [done|done|constructor|]. exists l0. split; [done|].
    split; [by intros p ?%not_elem_of_nil|]. intros x _ Hn. by destruct Hn. }
  cbn in *. destruct it as [op c]. cbn in Hop, Hcur. subst op c.
  assert (∀ x, x ∈ vis → ¬ after (last vis) x) as Hmax.
  { intros x Hx. destruct (last vis) as [c|] eqn:El; cbn.
    - pose proof (sorted_last_max _ _ _ Hs El Hx). lia.
    - apply last_None in El as ->. by apply not_elem_of_nil in Hx. }
  split; [|split; [done|]].
  { clear -Hs. induction Hs as [|p ps _ IH Hp]; constructor; [|done].
    intros Hin. rewrite Forall_forall in Hp. specialize (Hp p Hin). lia. }
  destruct (next_spec m l (last vis) HR) as (it' & r & Hn & Hspec).
  { intros c Hc%last_Some_elem_of. by apply Hdom. }
  exists l, it', r. split; [done|]. split; [done|]. destruct r as [p|].
  - destruct Hspec as (-> & Hp & Haf & _). split; [done|]. intros Hin. by apply (Hmax p).
  - destruct Hspec as (-> & Hno). split; [done|]. intros p Hp. apply Hvis; [done|by apply Hno].
Qed.

(** [copyTo] into a new map reproduces the entries, in the same order. *)
Theorem copyTo_new (os : list mapOp) m :
  Forall wfOp os → runOps newOrderedMap os = Some m →
  ∃ d l, copyTo m newOrderedMap = Some d ∧ Rep d l ∧ l.*2 = foldl specOp [] os.
Proof.
  intros Hos Hm. destruct (runOps_rep _ _ os new_rep Hos) as (m1 & l & Hm1 & HR & Hl).
  rewrite Hm in Hm1. injection Hm1 as <-. unfold copyTo. rewrite (rep_first _ _ HR).
  pose proof (rep_length _ _ HR).
  destruct (copyLoop_rep m l HR [] l (S (size (entries m))) newOrderedMap [])
    as (d & ld & -> & HD & Hld); [done|lia|apply new_rep|].
  exists d, ld. split; [done|]. split; [done|]. rewrite Hld.
  rewrite (assocSet_fold_app [] l); [done|].
  intros a p k v b Hab. by destruct (rep_keys _ _ HR a p k v b Hab) as (_ & _ & ?).
Qed.
End proofs.
End OrderedMap.
