(* ===== verification/Utf.v ===== *)
(** * UTF-8 and UTF-16

    What the engine uses of Go's [unicode/utf8] and [unicode/utf16] (bytes,
    code units and runes are integers [Z]), the surrogate tests of string.go,
    and the scanner of unistring/string.go that turns a UTF-8 Go string into
    UTF-16 code units. *)

From S2P Require Import Prelude.
Open Scope Z_scope.

Module Utf.

Definition RuneSelf : Z := 0x80.
Definition RuneError : Z := 0xFFFD.
Definition MaxRune : Z := 0x10FFFF.
Definition BOM : Z := 0xFEFF.

Definition isByte (b : Z) : Prop := 0 ≤ b < 256.
Definition isUnit (c : Z) : Prop := 0 ≤ c < 65536.
Definition isAsciiByte (b : Z) : Prop := 0 ≤ b < 128.

(** ** Surrogates (string.go) *)

Definition isUTF16FirstSurrogate (c : Z) : bool := (0xD800 <=? c) && (c <=? 0xDBFF).
Definition isUTF16SecondSurrogate (c : Z) : bool := (0xDC00 <=? c) && (c <=? 0xDFFF).

Definition isSurrogate (c : Z) : bool := (0xD800 <=? c) && (c <=? 0xDFFF).

(** A Unicode scalar value: what valid UTF-8 encodes. *)
Definition isScalar (r : Z) : Prop := 0 ≤ r ≤ MaxRune ∧ isSurrogate r = false.

#[global] Instance isScalar_dec r : Decision (isScalar r).
Proof. unfold isScalar. apply _. Defined.
#[global] Instance isUnit_dec c : Decision (isUnit c).
Proof. unfold isUnit. apply _. Defined.
#[global] Instance isAsciiByte_dec c : Decision (isAsciiByte c).
Proof. unfold isAsciiByte. apply _. Defined.

(** ** unicode/utf16 *)

Definition utf16EncodeRune (r : Z) : Z * Z :=
  if (0x10000 <=? r) && (r <=? MaxRune)
  then (0xD800 + (r - 0x10000) / 1024, 0xDC00 + (r - 0x10000) mod 1024)
  else (RuneError, RuneError).

Definition utf16DecodeRune (r1 r2 : Z) : Z :=
  if isUTF16FirstSurrogate r1 && isUTF16SecondSurrogate r2
  then (r1 - 0xD800) * 1024 + (r2 - 0xDC00) + 0x10000
  else RuneError.

(** The code units of one rune, as the engine appends them. *)
Definition runeUnits (r : Z) : list Z :=
  if r <=? 0xFFFF then [r] else let '(a, b) := utf16EncodeRune r in [a; b].

Definition runesUnits (rs : list Z) : list Z := mbind runeUnits rs.

(** ** unicode/utf8 *)

Definition utf8EncodeScalar (r : Z) : list Z :=
  if r <? 0x80 then [r]
  else if r <? 0x800 then [0xC0 + r / 64; 0x80 + r mod 64]
  else if r <? 0x10000 then [0xE0 + r / 4096; 0x80 + r / 64 mod 64; 0x80 + r mod 64]
  else [0xF0 + r / 262144; 0x80 + r / 4096 mod 64; 0x80 + r / 64 mod 64; 0x80 + r mod 64].

Definition utf8Encode (rs : list Z) : list Z := mbind utf8EncodeScalar rs.

Definition inRange (lo hi b : Z) : bool := (lo <=? b) && (b <=? hi).

(** utf8.DecodeRune: the rune and the number of bytes it takes; an invalid
    sequence is [RuneError] of width 1 (the argument is not empty). *)
Definition utf8DecodeRune (s : list Z) : Z * nat :=
  match s with
  | [] => (RuneError, 0%nat)
  | b0 :: t =>
      if b0 <? 0x80 then (b0, 1%nat)
      else if inRange 0xC2 0xDF b0 then
        match t with
        | b1 :: _ => if inRange 0x80 0xBF b1
                     then ((b0 - 0xC0) * 64 + (b1 - 0x80), 2%nat) else (RuneError, 1%nat)
        | _ => (RuneError, 1%nat)
        end
      else if inRange 0xE0 0xEF b0 then
        let lo := if b0 =? 0xE0 then 0xA0 else 0x80 in
        let hi := if b0 =? 0xED then 0x9F else 0xBF in
        match t with
        | b1 :: b2 :: _ =>
            if inRange lo hi b1 && inRange 0x80 0xBF b2
            then ((b0 - 0xE0) * 4096 + (b1 - 0x80) * 64 + (b2 - 0x80), 3%nat)
            else (RuneError, 1%nat)
        | _ => (RuneError, 1%nat)
        end
      else if inRange 0xF0 0xF4 b0 then
        let lo := if b0 =? 0xF0 then 0x90 else 0x80 in
        let hi := if b0 =? 0xF4 then 0x8F else 0xBF in
        match t with
        | b1 :: b2 :: b3 :: _ =>
            if inRange lo hi b1 && inRange 0x80 0xBF b2 && inRange 0x80 0xBF b3
            then ((b0 - 0xF0) * 262144 + (b1 - 0x80) * 4096 + (b2 - 0x80) * 64 + (b3 - 0x80), 4%nat)
            else (RuneError, 1%nat)
        | _ => (RuneError, 1%nat)
        end
      else (RuneError, 1%nat)
  end.

(** The runes of [for _, r := range s]; the bytes left bound the iterations. *)
Fixpoint rangeRunesFuel (fuel : nat) (s : list Z) : list Z :=
  match fuel, s with
  | O, _ | _, [] => []
  | S fuel, _ => let '(r, n) := utf8DecodeRune s in r :: rangeRunesFuel fuel (drop n s)
  end.

Definition rangeRunes (s : list Z) : list Z := rangeRunesFuel (length s) s.

(** ** unistring.Scan and unistring.NewFromRunes

    Both compute the number of code units in a first pass, allocate an array and
    fill it in a second one. *)

Definition allAscii (s : list Z) : bool := forallb (λ b, b <? RuneSelf) s.

(** The first loop of Scan: the number of ASCII bytes before the first other. *)
Fixpoint asciiPrefix (s : list Z) : nat :=
  match s with [] => 0 | b :: s => if RuneSelf <=? b then 0 else S (asciiPrefix s) end.

(** The size after counting the units of the runes. *)
Definition countUnits (size : nat) (rs : list Z) : nat :=
  foldl (λ size chr, let size := S size in if 0xFFFF <? chr then S size else size) size rs.

(** [buf[c] = ...; c++] for the units of a rune.  A store past the end, a panic in
    the source, has no effect here; [fillUnits_bounds] shows there is none. *)
Definition storeRune (st : list Z * nat) (chr : Z) : list Z * nat :=
  let '(buf, c) := st in
  if chr <=? 0xFFFF then (<[c := chr]> buf, S c)
  else let '(first, second) := utf16EncodeRune chr in (<[S c := second]> (<[c := first]> buf), S (S c)).

Definition fillUnits (size : nat) (rs : list Z) : list Z * nat :=
  foldl storeRune (<[0%nat := BOM]> (replicate (S size) 0), 1%nat) rs.

(** [None] for an ASCII string (nil in the source), otherwise a [BOM] and the
    code units. *)
Definition Scan (s : list Z) : option (list Z) :=
  let utf16Size := asciiPrefix s in
  if Nat.eqb utf16Size (length s) then None
  else Some (fillUnits (countUnits utf16Size (rangeRunes (drop utf16Size s))) (rangeRunes s)).1.

(** unistring.NewFromRunes: [inl] the bytes of an ASCII string, [inr] the array. *)
Definition NewFromRunes (rs : list Z) : list Z + list Z :=
  if forallb (λ c, c <? RuneSelf) rs then inl rs
  else inr (fillUnits (foldl (λ size c, S (if (RuneSelf <=? c) && (0xFFFF <? c) then S size else size)) 0%nat rs) rs).1.

(** ** The lenient UTF-16 decoder

    [lenientUtf16Decoder] of string_unicode.go over a reader of code units
    ([reader] holds what is left to read); [ReadRune] returns the rune, its
    size in code units and the new decoder state, or [None] at the end. *)

Record lenientUtf16Decoder := MkDecoder { reader : list Z; prev : option Z }.

Definition ReadRune (rr : lenientUtf16Decoder) : option (Z * nat * lenientUtf16Decoder) :=
  '(c, rest) ← match prev rr with
               | Some c => Some (c, reader rr)
               | None => match reader rr with
                         | [] => None
                         | c :: rest => Some (c, rest)
                         end
               end;
  Some (if isUTF16FirstSurrogate c then
          match rest with
          | [] => (c, 1%nat, MkDecoder [] None)
          | second :: rest' =>
              if isUTF16SecondSurrogate second
              then (utf16DecodeRune c second, 2%nat, MkDecoder rest' None)
              else (c, 1%nat, MkDecoder rest' (Some second))
          end
        else (c, 1%nat, MkDecoder rest None)).

(** Reading to the end. *)
Fixpoint readAll (fuel : nat) (rr : lenientUtf16Decoder) : list Z :=
  match fuel with
  | O => []
  | S fuel => match ReadRune rr with
              | None => []
              | Some (r, _, rr') => r :: readAll fuel rr'
              end
  end.

Definition decodeUnits (u : list Z) : list Z := readAll (length u) (MkDecoder u None).

(** [loneSurrogateIndex] of string_unicode.go, on the units after the BOM. *)
Fixpoint loneSurrogateIndexFrom (i : Z) (u : list Z) : Z :=
  match u with
  | [] => -1
  | c :: t =>
      if isUTF16FirstSurrogate c then
        match t with
        | d :: t' => if isUTF16SecondSurrogate d then loneSurrogateIndexFrom (i + 2) t' else i
        | [] => i
        end
      else if isUTF16SecondSurrogate c then i
      else loneSurrogateIndexFrom (i + 1) t
  end.

Definition loneSurrogateIndex (u : list Z) : Z := loneSurrogateIndexFrom 0 u.

(** ** Lemmas *)

Ltac zbool :=
  repeat match goal with
    | H : context [inRange] |- _ => unfold inRange in H
    | |- context [inRange] => unfold inRange
    | H : _ && _ = true |- _ => apply andb_prop in H as [? ?]
    | |- _ && _ = true => apply andb_true_intro; split
    | H : (_ <=? _) = true |- _ => apply Z.leb_le in H
    | H : (_ <=? _) = false |- _ => apply Z.leb_gt in H
    | H : (_ <? _) = true |- _ => apply Z.ltb_lt in H
    | H : (_ <? _) = false |- _ => apply Z.ltb_ge in H
    | |- (_ <=? _) = true => apply Z.leb_le
    | |- (_ <=? _) = false => apply Z.leb_gt
    | |- (_ <? _) = true => apply Z.ltb_lt
    | |- (_ <? _) = false => apply Z.ltb_ge
    end.

Lemma isSurrogate_false r : isSurrogate r = false ↔ r < 0xD800 ∨ 0xDFFF < r.
Proof. unfold isSurrogate. rewrite andb_false_iff, !Z.leb_gt. lia. Qed.

Lemma inRange_true lo hi b : lo ≤ b ≤ hi → inRange lo hi b = true.
Proof. intros. zbool; lia. Qed.

Lemma inRange_false lo hi b : b < lo ∨ hi < b → inRange lo hi b = false.
Proof. unfold inRange. rewrite andb_false_iff, !Z.leb_gt. lia. Qed.

Ltac divlia := Z.div_mod_to_equations; lia.

Lemma utf8_decode_encode r s :
  isScalar r → utf8DecodeRune (utf8EncodeScalar r ++ s) = (r, length (utf8EncodeScalar r)).
Proof.
  intros [Hr Hs]. rewrite isSurrogate_false in Hs. unfold MaxRune in Hr.
  unfold utf8EncodeScalar.
  destruct (r <? 0x80) eqn:E1; [cbn; by rewrite E1|].
  destruct (r <? 0x800) eqn:E2; [|destruct (r <? 0x10000) eqn:E3]; zbool;
    cbn [app utf8DecodeRune length];
    rewrite (proj2 (Z.ltb_ge _ 0x80)) by divlia.
  - rewrite !inRange_true by divlia. f_equal. divlia.
  - rewrite (inRange_false 0xC2) by divlia. rewrite (inRange_true 0xE0) by divlia.
    rewrite (inRange_true 0x80) by divlia.
    rewrite inRange_true by (do 2 case_match; zbool; divlia).
    cbn. f_equal. divlia.
  - rewrite (inRange_false 0xC2), (inRange_false 0xE0), (inRange_true 0xF0) by divlia.
    rewrite !(inRange_true 0x80 0xBF) by divlia.
    rewrite inRange_true by (do 2 case_match; zbool; divlia).
    cbn. f_equal. divlia.
Qed.

Lemma utf8EncodeScalar_pos r : (0 < length (utf8EncodeScalar r))%nat.
Proof. unfold utf8EncodeScalar. repeat case_match; cbn; lia. Qed.

Lemma rangeRunesFuel_encode rs fuel :
  Forall isScalar rs → (length (utf8Encode rs) ≤ fuel)%nat →
  rangeRunesFuel fuel (utf8Encode rs) = rs.
Proof.
  intros Hrs. revert fuel. induction Hrs as [|r rs Hr _ IH]; intros fuel Hf; [by destruct fuel|].
  cbn [utf8Encode mbind list_bind] in *. fold (utf8Encode rs) in *. rewrite length_app in Hf.
  pose proof (utf8EncodeScalar_pos r) as Hpos. destruct fuel as [|fuel]; [lia|].
  pose proof (utf8_decode_encode r (utf8Encode rs) Hr) as Hd.
  destruct (utf8EncodeScalar r ++ utf8Encode rs) as [|b t] eqn:E.
  { apply (f_equal length) in E. rewrite length_app in E. cbn in E. lia. }
  cbn [rangeRunesFuel]. rewrite Hd, <- E, drop_app_length, IH by lia. done.
Qed.

Lemma rangeRunes_encode rs : Forall isScalar rs → rangeRunes (utf8Encode rs) = rs.
Proof. intros. by apply rangeRunesFuel_encode. Qed.

(** *** UTF-16 *)

Lemma utf16_encode_surrogates r a b :
  0x10000 ≤ r ≤ MaxRune → utf16EncodeRune r = (a, b) →
  isUTF16FirstSurrogate a = true ∧ isUTF16SecondSurrogate b = true ∧ utf16DecodeRune a b = r.
Proof.
  unfold utf16EncodeRune, MaxRune. intros Hr. rewrite !(proj2 (Z.leb_le _ _)) by lia.
  intros [= <- <-]. unfold utf16DecodeRune, isUTF16FirstSurrogate, isUTF16SecondSurrogate.
  rewrite !(proj2 (Z.leb_le _ _)) by divlia. cbn. split; [done|]. split; [done|]. divlia.
Qed.

Lemma utf16_decode_encode a b :
  isUTF16FirstSurrogate a = true → isUTF16SecondSurrogate b = true →
  runeUnits (utf16DecodeRune a b) = [a; b].
Proof.
  intros Ha Hb. unfold utf16DecodeRune. rewrite Ha, Hb. cbn.
  unfold isUTF16FirstSurrogate, isUTF16SecondSurrogate in *. zbool.
  unfold runeUnits, utf16EncodeRune, MaxRune.
  zcmp. cbn. f_equal; [|f_equal]; divlia.
Qed.

Lemma runeUnits_bmp c : c ≤ 0xFFFF → runeUnits c = [c].
Proof. intros Hc. unfold runeUnits. by rewrite (proj2 (Z.leb_le _ _)). Qed.

(** What one [ReadRune] consumes: its rune spells the units taken. *)
Lemma ReadRune_units rr r n rr' :
  Forall isUnit (option_list (prev rr) ++ reader rr) → ReadRune rr = Some (r, n, rr') →
  option_list (prev rr) ++ reader rr = runeUnits r ++ option_list (prev rr') ++ reader rr' ∧
  Forall isUnit (option_list (prev rr') ++ reader rr').
Proof.
  destruct rr as [u p]. unfold ReadRune. cbn [prev reader]. intros Hu.
  assert (∀ c rest, Forall isUnit (c :: rest) →
    ∀ q, (if isUTF16FirstSurrogate c then
          match rest with
          | [] => (c, 1%nat, MkDecoder [] None)
          | second :: rest' =>
              if isUTF16SecondSurrogate second
              then (utf16DecodeRune c second, 2%nat, MkDecoder rest' None)
              else (c, 1%nat, MkDecoder rest' (Some second))
          end
        else (c, 1%nat, MkDecoder rest None)) = q →
    c :: rest = runeUnits q.1.1 ++ option_list (prev q.2) ++ reader q.2 ∧
    Forall isUnit (option_list (prev q.2) ++ reader q.2)) as Hstep.
  { intros c rest Hc q <-. inversion Hc as [|? ? Hc1 Hrest]; subst.
    assert (runeUnits c = [c]) as Hbmp by (apply runeUnits_bmp; unfold isUnit in Hc1; lia).
    destruct (isUTF16FirstSurrogate c) eqn:E1; [|cbn; by rewrite Hbmp].
    destruct rest as [|d rest]; [cbn; by rewrite Hbmp|].
    destruct (isUTF16SecondSurrogate d) eqn:E2; cbn; [|by rewrite Hbmp].
    rewrite utf16_decode_encode by done. inversion Hrest. done. }
  destruct p as [c|]; cbn in Hu |- *.
  - intros [= Heq]. by destruct (Hstep c u Hu _ Heq).
  - destruct u as [|c rest]; [done|]. cbn. intros [= Heq]. by destruct (Hstep c rest Hu _ Heq).
Qed.

Lemma runeUnits_pos r : (0 < length (runeUnits r))%nat.
Proof. unfold runeUnits. destruct (r <=? _); [cbn; lia|]. by destruct (utf16EncodeRune r); cbn; lia. Qed.

Lemma readAll_units fuel rr :
  Forall isUnit (option_list (prev rr) ++ reader rr) →
  (length (option_list (prev rr) ++ reader rr) ≤ fuel)%nat →
  runesUnits (readAll fuel rr) = option_list (prev rr) ++ reader rr.
Proof.
  revert rr. induction fuel as [|fuel IH]; intros rr Hu Hf.
  { by destruct (option_list (prev rr) ++ reader rr); cbn in Hf; [|lia]. }
  cbn [readAll]. destruct (ReadRune rr) as [[[r n] rr']|] eqn:E.
  - destruct (ReadRune_units rr r n rr' Hu E) as [Heq Hu'].
    cbn [runesUnits mbind list_bind]. fold (runesUnits (readAll fuel rr')).
    pose proof (runeUnits_pos r). rewrite Heq, length_app in Hf.
    rewrite IH; [done|done|lia].
  - unfold ReadRune in E. destruct (prev rr) as [c|]; [done|]. by destruct (reader rr).
Qed.

(** Decoding any sequence of UTF-16 code units leniently (as the string
    iterator does) and re-encoding the runes gives the sequence back, lone
    surrogates included. *)
Lemma decodeUnits_lossless (u : list Z) :
  Forall isUnit u → runesUnits (decodeUnits u) = u.
Proof. intros Hu. by apply (readAll_units _ (MkDecoder u None)). Qed.

(** Scalars survive the trip through UTF-16. *)
Lemma readAll_runesUnits rs fuel :
  Forall isScalar rs → (length (runesUnits rs) ≤ fuel)%nat →
  readAll fuel (MkDecoder (runesUnits rs) None) = rs.
Proof.
  intros Hrs. revert fuel. induction Hrs as [|r rs [Hr Hs] _ IH]; intros fuel Hf; [by destruct fuel|].
  cbn [runesUnits mbind list_bind] in *. fold (runesUnits rs) in *. rewrite length_app in Hf.
  pose proof (runeUnits_pos r). destruct fuel as [|fuel]; [lia|]. cbn [readAll].
  rewrite isSurrogate_false in Hs. unfold runeUnits in *.
  destruct (r <=? 0xFFFF) eqn:E; zbool.
  - assert (isUTF16FirstSurrogate r = false) as Hf1
      by (unfold isUTF16FirstSurrogate; rewrite andb_false_iff, !Z.leb_gt; lia).
    unfold ReadRune. cbn. rewrite Hf1. f_equal. apply IH. cbn in Hf. lia.
  - destruct (utf16EncodeRune r) as [a b] eqn:Er.
    destruct (utf16_encode_surrogates r a b) as (Ha & Hb & Hab); [lia|done|].
    unfold ReadRune. cbn. rewrite Ha, Hb, Hab. f_equal. apply IH. cbn in Hf. lia.
Qed.

Lemma decodeUnits_runesUnits rs : Forall isScalar rs → decodeUnits (runesUnits rs) = rs.
Proof. intros. by apply readAll_runesUnits. Qed.

Lemma runeUnits_unit r : 0 ≤ r ≤ MaxRune → Forall isUnit (runeUnits r).
Proof.
  unfold runeUnits, MaxRune, isUnit. intros Hr. destruct (r <=? 0xFFFF) eqn:E; zbool.
  - repeat constructor; lia.
  - unfold utf16EncodeRune, MaxRune. rewrite !(proj2 (Z.leb_le _ _)) by lia. cbn.
    repeat constructor; divlia.
Qed.

Lemma runesUnits_unit rs : Forall isScalar rs → Forall isUnit (runesUnits rs).
Proof.
  induction 1 as [|r rs [Hr _] _ IH]; [constructor|].
  cbn. apply Forall_app. split; [by apply runeUnits_unit|done].
Qed.

(** ASCII text is its own encoding, in UTF-8 and in UTF-16. *)
Lemma ascii_encode rs : Forall isAsciiByte rs → utf8Encode rs = rs ∧ runesUnits rs = rs.
Proof.
  unfold isAsciiByte. induction 1 as [|r rs Hr _ [IH1 IH2]]; [done|].
  unfold utf8Encode, runesUnits in *. cbn. rewrite IH1, IH2.
  unfold utf8EncodeScalar, runeUnits.
  by rewrite (proj2 (Z.ltb_lt _ _)), (proj2 (Z.leb_le _ _)) by lia.
Qed.

Lemma ascii_scalar r : isAsciiByte r → isScalar r.
Proof.
  unfold isAsciiByte, isScalar, MaxRune. intros. split; [lia|]. apply isSurrogate_false. lia.
Qed.

Lemma encodeScalar_ascii r : isScalar r →
  Forall (λ b, b < RuneSelf) (utf8EncodeScalar r) ↔ r < RuneSelf.
Proof.
  intros [Hr _]. unfold utf8EncodeScalar, RuneSelf, MaxRune in *.
  destruct (r <? 0x80) eqn:E1; zbool; [rewrite Forall_singleton; lia|].
  split; [|lia]. destruct (r <? 0x800); [|destruct (r <? 0x10000)];
    intros Hf; inversion Hf; divlia.
Qed.

Lemma allAscii_encode rs : Forall isScalar rs →
  allAscii (utf8Encode rs) = true ↔ Forall isAsciiByte rs.
Proof.
  intros Hrs. unfold allAscii. rewrite forallb_forall. setoid_rewrite Z.ltb_lt.
  rewrite <- List.Forall_forall.
  induction Hrs as [|r rs Hr _ IH]; [by split; constructor|].
  unfold utf8Encode in *. cbn. rewrite Forall_app, IH, encodeScalar_ascii, Forall_cons by done.
  unfold isAsciiByte, RuneSelf. destruct Hr as [Hr _]. split; intros []; (split; [lia|done]).
Qed.

Lemma runeUnits_ascii r : 0 ≤ r ≤ MaxRune →
  Forall isAsciiByte (runeUnits r) ↔ isAsciiByte r.
Proof.
  intros Hr. unfold runeUnits, isAsciiByte, MaxRune in *.
  destruct (r <=? 0xFFFF) eqn:E; zbool; [by rewrite Forall_singleton|].
  unfold utf16EncodeRune, MaxRune. rewrite !(proj2 (Z.leb_le _ _)) by lia. cbn.
  rewrite Forall_cons. split; [intros [? _]|intros ?]; divlia.
Qed.

Lemma runesUnits_ascii rs : Forall isScalar rs →
  Forall isAsciiByte (runesUnits rs) ↔ Forall isAsciiByte rs.
Proof.
  induction 1 as [|r rs Hr _ IH]; [by split; constructor|].
  unfold runesUnits in *. cbn. destruct Hr. by rewrite Forall_app, IH, runeUnits_ascii, Forall_cons.
Qed.

(** *** Decoding arbitrary bytes *)

Lemma inRange_bounds lo hi b : inRange lo hi b = true → lo ≤ b ≤ hi.
Proof. unfold inRange. intros [H1 H2]%andb_prop. by zbool. Qed.

Lemma utf8DecodeRune_range s : Forall isByte s → 0 ≤ (utf8DecodeRune s).1 ≤ MaxRune.
Proof.
  unfold MaxRune. intros Hs. destruct s as [|b0 t]; [cbn; unfold RuneError; lia|].
  inversion Hs as [|? ? H0 Ht]; subst. unfold isByte in H0. cbn [utf8DecodeRune]. unfold RuneError.
  destruct (b0 <? 0x80) eqn:E0; [apply Z.ltb_lt in E0; cbn [fst]; lia|apply Z.ltb_ge in E0].
  destruct (inRange 0xC2 0xDF b0) eqn:E1; [apply inRange_bounds in E1|].
  { destruct t as [|b1 t]; [cbn [fst]; lia|].
    destruct (inRange 0x80 0xBF b1) eqn:E2; [apply inRange_bounds in E2|]; cbn [fst]; lia. }
  destruct (inRange 0xE0 0xEF b0) eqn:E2; [apply inRange_bounds in E2|].
  { destruct t as [|b1 [|b2 t]]; [cbn [fst]; lia..|].
    destruct (inRange _ _ b1 && inRange _ _ b2) eqn:E3; [|cbn [fst]; lia].
    apply andb_prop in E3 as [E3%inRange_bounds E4%inRange_bounds]. cbn [fst].
    destruct (b0 =? 0xE0) eqn:Ea, (b0 =? 0xED); zbool; lia. }
  destruct (inRange 0xF0 0xF4 b0) eqn:E3; [apply inRange_bounds in E3|cbn [fst]; lia].
  destruct t as [|b1 [|b2 [|b3 t]]]; [cbn [fst]; lia..|].
  destruct (inRange _ _ b1 && inRange _ _ b2 && inRange _ _ b3) eqn:E4; [|cbn [fst]; lia].
  apply andb_prop in E4 as [[E4%inRange_bounds E5%inRange_bounds]%andb_prop E6%inRange_bounds]. cbn [fst].
  destruct (b0 =? 0xF0) eqn:Ea, (b0 =? 0xF4) eqn:Eb; zbool; lia.
Qed.

(** A byte that is not ASCII does not start an ASCII rune. *)
Lemma utf8DecodeRune_nonascii b0 t : Forall isByte (b0 :: t) → RuneSelf ≤ b0 → RuneSelf ≤ (utf8DecodeRune (b0 :: t)).1.
Proof.
  intros Hs Hb. unfold RuneSelf in *. inversion Hs as [|? ? H0 Ht]; subst. unfold isByte in H0.
  cbn [utf8DecodeRune]. unfold RuneError. zcmp.
  destruct (inRange 0xC2 0xDF b0) eqn:E1; [apply inRange_bounds in E1|].
  { destruct t as [|b1 t]; [cbn [fst]; lia|].
    destruct (inRange 0x80 0xBF b1) eqn:E2; [apply inRange_bounds in E2|]; cbn [fst]; lia. }
  destruct (inRange 0xE0 0xEF b0) eqn:E2; [apply inRange_bounds in E2|].
  { destruct t as [|b1 [|b2 t]]; [cbn [fst]; lia..|].
    destruct (inRange _ _ b1 && inRange _ _ b2) eqn:E3; [|cbn [fst]; lia].
    apply andb_prop in E3 as [E3%inRange_bounds E4%inRange_bounds]. cbn [fst].
    destruct (b0 =? 0xE0) eqn:Ea, (b0 =? 0xED); zbool; lia. }
  destruct (inRange 0xF0 0xF4 b0) eqn:E3; [apply inRange_bounds in E3|cbn [fst]; lia].
  destruct t as [|b1 [|b2 [|b3 t]]]; [cbn [fst]; lia..|].
  destruct (inRange _ _ b1 && inRange _ _ b2 && inRange _ _ b3) eqn:E4; [|cbn [fst]; lia].
  apply andb_prop in E4 as [[E4%inRange_bounds E5%inRange_bounds]%andb_prop E6%inRange_bounds]. cbn [fst].
  destruct (b0 =? 0xF0) eqn:Ea, (b0 =? 0xF4) eqn:Eb; zbool; lia.
Qed.

Lemma rangeRunesFuel_range fuel s :
  Forall isByte s → Forall (λ r, 0 ≤ r ≤ MaxRune) (rangeRunesFuel fuel s).
Proof.
  revert s. induction fuel as [|fuel IH]; intros s Hs; [constructor|].
  destruct s as [|b t]; [constructor|]. cbn [rangeRunesFuel].
  pose proof (utf8DecodeRune_range (b :: t) Hs) as Hr.
  destruct (utf8DecodeRune (b :: t)) as [r n]. constructor; [done|]. apply IH. by apply Forall_drop.
Qed.

Lemma rangeRunesFuel_mono s fuel1 fuel2 :
  (length s ≤ fuel1)%nat → (length s ≤ fuel2)%nat → rangeRunesFuel fuel1 s = rangeRunesFuel fuel2 s.
Proof.
  revert fuel2 s. induction fuel1 as [|f1 IH]; intros [|f2] s H1 H2;
    [done|destruct s; cbn in *; [done|lia]..|].
  destruct s as [|b t]; [done|]. cbn [rangeRunesFuel].
  destruct (utf8DecodeRune (b :: t)) as [r n] eqn:E.
  assert (0 < n)%nat.
  { revert E. cbn [utf8DecodeRune]. repeat case_match; intros [= _ <-]; lia. }
  f_equal. apply IH; rewrite length_drop; cbn in *; lia.
Qed.

Lemma rangeRunes_ascii_app a t : Forall isAsciiByte a → rangeRunes (a ++ t) = a ++ rangeRunes t.
Proof.
  induction 1 as [|b a Hb _ IH]; [done|]. unfold rangeRunes in *. cbn [app length rangeRunesFuel utf8DecodeRune].
  unfold isAsciiByte in Hb. zcmp. cbn [drop]. rewrite skipn_O. by rewrite IH.
Qed.
(** ** The two passes of Scan *)

Lemma countUnits_length size rs : countUnits size rs = (size + length (runesUnits rs))%nat.
Proof.
  revert size. unfold countUnits, runesUnits. induction rs as [|r rs IH]; intros size; cbn; [lia|].
  rewrite IH, length_app. unfold runeUnits, utf16EncodeRune. destruct (Z.leb_spec r 0xFFFF), (Z.ltb_spec 0xFFFF r); try lia.
  - cbn. lia.
  - destruct (_ && _); cbn; lia.
Qed.

(** Filling from position [c] on an array with the space for the units. *)
Lemma fill_from rs pre (n : nat) :
  length (runesUnits rs) = n →
  foldl storeRune (pre ++ replicate n 0, length pre) rs = (pre ++ runesUnits rs, (length pre + n)%nat).
Proof.
  revert pre n. unfold runesUnits. induction rs as [|r rs IH]; intros pre n Hn; cbn in *.
  - subst n. by rewrite Nat.add_0_r.
  - rewrite length_app in Hn. revert Hn. unfold runeUnits at 1 3. destruct (r <=? 0xFFFF).
    + cbn. intros <-. cbn. rewrite insert_app_r_alt, Nat.sub_diag by lia. cbn.
      specialize (IH (pre ++ [r]) _ eq_refl). rewrite length_app, <- !app_assoc in IH. cbn in IH.
      rewrite Nat.add_1_r in IH. rewrite IH. f_equal. lia.
    + destruct (utf16EncodeRune r) as [x y]. cbn. intros <-. cbn. rewrite insert_app_r_alt, Nat.sub_diag by lia. cbn.
      rewrite insert_app_r_alt by lia. replace (S (length pre) - length pre)%nat with 1%nat by lia. cbn.
      specialize (IH (pre ++ [x; y]) _ eq_refl). rewrite length_app, <- !app_assoc in IH. cbn in IH.
      rewrite Nat.add_comm in IH. cbn in IH. rewrite IH. f_equal. lia.
Qed.

(** An array of the counted size is filled to its end, so that every store is in
    bounds. *)
Lemma fillUnits_bounds rs :
  fillUnits (length (runesUnits rs)) rs = (BOM :: runesUnits rs, S (length (runesUnits rs))).
Proof. apply (fill_from rs [BOM]). done. Qed.

Lemma rangeRunes_cons b s : (b <? RuneSelf) = true → rangeRunes (b :: s) = b :: rangeRunes s.
Proof. intros Hb. unfold rangeRunes. cbn [length rangeRunesFuel utf8DecodeRune]. unfold RuneSelf in Hb. by rewrite Hb. Qed.

Lemma asciiPrefix_runes s : rangeRunes s = take (asciiPrefix s) s ++ rangeRunes (drop (asciiPrefix s) s).
Proof.
  induction s as [|b s IH]; [done|]. cbn [asciiPrefix]. destruct (Z.leb_spec RuneSelf b); [done|].
  rewrite rangeRunes_cons by (by apply Z.ltb_lt). cbn [take drop app]. by rewrite IH at 1.
Qed.

Lemma asciiPrefix_units s : length (runesUnits (take (asciiPrefix s) s)) = asciiPrefix s.
Proof.
  induction s as [|b s IH]; [done|]. cbn [asciiPrefix]. destruct (Z.leb_spec RuneSelf b); [done|].
  cbn [take]. unfold runesUnits in *. cbn. rewrite length_app, IH. unfold runeUnits, RuneSelf in *.
  by rewrite (proj2 (Z.leb_le b 0xFFFF)) by lia.
Qed.

Lemma asciiPrefix_all s : Nat.eqb (asciiPrefix s) (length s) = allAscii s.
Proof.
  induction s as [|b s IH]; [done|]. unfold allAscii in *. cbn.
  destruct (Z.leb_spec RuneSelf b), (Z.ltb_spec b RuneSelf); try lia; done.
Qed.

(** Scan is the conversion to code units: the size of the first pass is right. *)
Lemma Scan_eq s : Scan s = if allAscii s then None else Some (BOM :: runesUnits (rangeRunes s)).
Proof.
  unfold Scan. rewrite asciiPrefix_all, countUnits_length. destruct (allAscii s); [done|].
  pose proof (fillUnits_bounds (rangeRunes s)) as Hf. rewrite (asciiPrefix_runes s) in Hf at 1. unfold runesUnits in Hf at 1.
  rewrite bind_app, length_app in Hf. fold (runesUnits (take (asciiPrefix s) s)) in Hf. rewrite asciiPrefix_units in Hf.
  unfold runesUnits at 1. by rewrite Hf.
Qed.

Lemma NewFromRunes_eq rs :
  NewFromRunes rs = if forallb (λ c, c <? RuneSelf) rs then inl rs else inr (BOM :: runesUnits rs).
Proof.
  unfold NewFromRunes. destruct (forallb _ rs); [done|].
  replace (foldl _ 0%nat rs) with (countUnits 0 rs); [rewrite countUnits_length; cbn [Nat.add]; by rewrite fillUnits_bounds|].
  unfold countUnits. generalize 0%nat. induction rs as [|r rs IH]; intros n; [done|]. cbn. rewrite IH. f_equal.
  unfold RuneSelf. destruct (Z.leb_spec 0x80 r), (Z.ltb_spec 0xFFFF r); cbn; try lia; done.
Qed.
End Utf.
