(* ===== verification/Strings.v ===== *)
(** * ECMAScript strings and their four representations

    Model of string.go, string_ascii.go, string_unicode.go, string_imported.go
    and string_concat.go.  A string is stored as ASCII bytes, as UTF-16 code
    units behind a BOM, as a Go string not scanned yet, or as a rope of
    concatenations.  [units] is what a string denotes: its code units.  The
    theorems show that the operations depend on the units only, whatever the
    representations of the operands.

    Capacities of Go slices and builders do not change contents and are not
    modelled; lengths are assumed to fit an [int]. *)

From S2P Require Import Prelude Utf.
Import Utf.
Open Scope Z_scope.

Module Strings.

(** [SImported s u scanned] is [importedString{s, u, scanned}];
    [SConcat l r n] is [concatString{left, right, length}] and
    [SFlattened l n] the same once flattened, when [right] is nil. *)
Inductive Str :=
  | SAscii (s : list Z)
  | SUnicode (u : list Z)
  | SImported (s : list Z) (u : option (list Z)) (scanned : bool)
  | SConcat (l r : Str) (n : Z)
  | SFlattened (l : Str) (n : Z).

Definition concatThreshold : Z := 32.

Definition len {A} (l : list A) : Z := Z.of_nat (length l).

(** ** StringBuilder *)

Record StringBuilder := MkBuilder {
  asciiBuf : list Z;        (* asciiBuilder *)
  ubuf : list Z;            (* unicodeBuilder.buf *)
  uflag : bool;             (* unicodeBuilder.unicode *)
}.

Definition emptyBuilder : StringBuilder := MkBuilder [] [] false.

Definition ascii (b : StringBuilder) : bool := match ubuf b with [] => true | _ => false end.

(** unicodeStringBuilder.Grow starts the buffer with the BOM. *)
Definition growUnicode (buf : list Z) : list Z := match buf with [] => [BOM] | _ => buf end.

Definition writeRuneFast (buf : list Z) (flag : bool) (r : Z) : list Z * bool :=
  if r <=? 0xFFFF then (buf ++ [r], flag || (RuneSelf <=? r))
  else let '(first, second) := utf16EncodeRune r in (buf ++ [first; second], true).

Definition switchToUnicode (b : StringBuilder) : StringBuilder :=
  if ascii b then MkBuilder [] (growUnicode (ubuf b) ++ asciiBuf b) (uflag b) else b.

Definition LikelyUnicode (b : StringBuilder) : StringBuilder := switchToUnicode b.

Definition Grow (b : StringBuilder) : StringBuilder :=
  if ascii b then b else MkBuilder (asciiBuf b) (growUnicode (ubuf b)) (uflag b).

(** The devirtualized argument of WriteString: ASCII bytes or a BOM-prefixed
    array. *)
Definition writeFlat (b : StringBuilder) (f : list Z + list Z) : StringBuilder :=
  match f with
  | inr u =>
      let b := switchToUnicode b in
      MkBuilder (asciiBuf b) (ubuf b ++ tail u) true
  | inl a =>
      if ascii b then MkBuilder (asciiBuf b ++ a) (ubuf b) (uflag b)
      else MkBuilder (asciiBuf b) (ubuf b ++ a) (uflag b)
  end.

Definition writeRune (b : StringBuilder) (r : Z) : StringBuilder :=
  if r <? RuneSelf then
    if ascii b then MkBuilder (asciiBuf b ++ [r]) (ubuf b) (uflag b)
    else let '(buf, fl) := writeRuneFast (ubuf b) (uflag b) r in MkBuilder (asciiBuf b) buf fl
  else
    let b := switchToUnicode b in
    let '(buf, fl) := writeRuneFast (ubuf b) (uflag b) r in MkBuilder (asciiBuf b) buf fl.

(** The loop [for _, r := range s { writeRuneFast(r) }]. *)
Definition writeRunesFast (b : StringBuilder) (rs : list Z) : StringBuilder :=
  foldl (λ b r, let '(buf, fl) := writeRuneFast (ubuf b) (uflag b) r in
                MkBuilder (asciiBuf b) buf fl) b rs.

(** Index of the first byte that is not ASCII. *)
Fixpoint firstUnicode (s : list Z) : option nat :=
  match s with
  | [] => None
  | b :: t => if RuneSelf <=? b then Some 0%nat else S <$> firstUnicode t
  end.

Definition WriteUTF8String (b : StringBuilder) (s : list Z) : StringBuilder :=
  if ascii b then
    match firstUnicode s with
    | None => MkBuilder (asciiBuf b ++ s) (ubuf b) (uflag b)
    | Some i =>
        let b := switchToUnicode b in
        let b := MkBuilder (asciiBuf b) (ubuf b ++ take i s) (uflag b) in
        writeRunesFast b (rangeRunes (drop i s))
    end
  else writeRunesFast b (rangeRunes s).

Definition slice (l : list Z) (start stop : Z) : list Z :=
  take (Z.to_nat (stop - start)) (drop (Z.to_nat start) l).

(** WriteSubstring of a devirtualized source, for 0 <= start <= stop <= length. *)
Definition writeSubFlat (b : StringBuilder) (f : list Z + list Z) (start stop : Z) : StringBuilder :=
  match f with
  | inl a =>
      if ascii b then MkBuilder (asciiBuf b ++ slice a start stop) (ubuf b) (uflag b)
      else MkBuilder (asciiBuf b) (ubuf b ++ slice a start stop) (uflag b)
  | inr us =>
      let ss := slice (tail us) start stop in
      if ascii b && allAscii ss
      then MkBuilder (asciiBuf b ++ ss) (ubuf b) (uflag b)
      else let b := switchToUnicode b in MkBuilder (asciiBuf b) (ubuf b ++ ss) true
  end.

Definition builderString (b : StringBuilder) : Str :=
  if ascii b then SAscii (asciiBuf b)
  else if uflag b then SUnicode (ubuf b)
  else if len (ubuf b) <? 2 then SAscii []
  else SAscii (tail (ubuf b)).

(** ** Ropes *)

Definition ensureScanned (s : list Z) (u : option (list Z)) (scanned : bool) : option (list Z) :=
  if scanned then u else Scan s.

(** devirtualizeString on everything but a rope. *)
Definition devirtLeaf (s : Str) : option (list Z + list Z) :=
  match s with
  | SAscii a => Some (inl a)
  | SUnicode u => Some (inr u)
  | SImported s u sc =>
      Some (match ensureScanned s u sc with Some u => inr u | None => inl s end)
  | SConcat _ _ _ | SFlattened _ _ => None
  end.

Definition isUnicodeString (s : Str) : bool := match s with SUnicode _ => true | _ => false end.

(** concatString.writeTo: the explicit stack (its top is the head of the
    list), the flags [grew] and [unicodeDetected]. *)
Fixpoint writeToLoop (fuel : nat) (stack : list Str) (grew uni : bool) (sb : StringBuilder)
    : option StringBuilder :=
  match fuel with
  | O => None
  | S fuel =>
      match stack with
      | [] => Some sb
      | SConcat l r _ :: stack =>
          writeToLoop fuel (l :: r :: stack) grew
            (uni || (negb grew && isUnicodeString r)) sb
      | str :: stack =>
          let str := match str with SFlattened l _ => l | _ => str end in
          let uni := if grew then uni else uni || isUnicodeString str in
          let sb := if grew then sb else if uni then LikelyUnicode sb else Grow sb in
          f ← devirtLeaf str;
          writeToLoop fuel stack true uni (writeFlat sb f)
      end
  end.

Fixpoint nodes (s : Str) : nat :=
  match s with
  | SConcat l r _ => S (nodes l + nodes r)
  | SFlattened l _ => S (nodes l)
  | _ => 1
  end.

(** The loop runs once per node; [None] (a rope inside a flattened node) is
    ruled out by [wfStr]. *)
Definition writeTo (l r : Str) (sb : StringBuilder) : option StringBuilder :=
  writeToLoop (S (nodes l + nodes r)) [l; r] false (isUnicodeString r) sb.

Definition flatten (s : Str) : Str :=
  match s with
  | SConcat l r _ =>
      match writeTo l r emptyBuilder with
      | Some sb => builderString sb
      | None => SAscii []
      end
  | SFlattened l _ => l
  | _ => s
  end.

(** The rope after [flatten] has cached its result. *)
Definition flattened (s : Str) : Str :=
  match s with SConcat _ _ n => SFlattened (flatten s) n | _ => s end.

Definition devirtualizeString (s : Str) : list Z + list Z :=
  default (inl []) (devirtLeaf (flatten s)).

(** ** Construction *)

Definition newStringValue (s : list Z) : Str :=
  match Scan s with Some u => SUnicode u | None => SAscii s end.

Definition StringFromUTF16 (chars : list Z) : Str :=
  if allAscii chars then SAscii chars else SUnicode (BOM :: chars).

Definition stringFromRune (r : Z) : Str :=
  if r <? RuneSelf then SAscii [r]
  else let '(buf, fl) := writeRuneFast (growUnicode []) false r in
       builderString (MkBuilder [] buf fl).

(** ToValue of a Go string (runtime.go): a short one is scanned at once. *)
Definition importString (i : list Z) : Str :=
  if len i <=? 16 then match Scan i with Some u => SImported i (Some u) true | None => SAscii i end
  else SImported i None false.

(** ** Operations of the String interface *)

Definition Length (s : Str) : Z :=
  match s with
  | SAscii a => len a
  | SUnicode u => len u - 1
  | SImported i u sc => match ensureScanned i u sc with Some u => len u - 1 | None => len i end
  | SConcat _ _ n | SFlattened _ n => n
  end.

(** s[i] of a Go string or slice, [i] an int; [None] is the panic out of range. *)
Definition goIndex (l : list Z) (i : Z) : option Z := if 0 <=? i then l !! Z.to_nat i else None.

(** s[low:high]; [None] is the panic out of range.  (A slice with spare capacity
    may also be extended past its length; that is [None] too.) *)
Definition goSlice (l : list Z) (low high : Z) : option (list Z) :=
  if (0 <=? low) && (low <=? high) && (high <=? len l) then Some (slice l low high) else None.

Definition charAtFlat (f : list Z + list Z) (idx : Z) : option Z :=
  match f with inl a => goIndex a idx | inr u => goIndex u (idx + 1) end.

Definition CharAt (s : Str) (idx : Z) : option Z := charAtFlat (devirtualizeString s) idx.

(** The substring of a unicodeString is copied behind a new BOM, or to a byte
    string when it holds ASCII units only. *)
Definition substringFlat (f : list Z + list Z) (start stop : Z) : option Str :=
  match f with
  | inl a => SAscii <$> goSlice a start stop
  | inr u =>
      ss ← goSlice u (start + 1) (stop + 1);
      Some (if existsb (λ c, RuneSelf <=? c) ss then SUnicode (BOM :: ss) else SAscii ss)
  end.

Definition Substring (s : Str) (start stop : Z) : option Str :=
  substringFlat (devirtualizeString s) start stop.

(** Concatenation with a flat left operand. *)
Definition asciiConcat (s : list Z) (other : Str) : Str :=
  match other with
  | SAscii o =>
      let total := len s + len o in
      if concatThreshold <? total then SConcat (SAscii s) (SAscii o) total
      else SAscii (s ++ o)
  | SUnicode o =>
      let total := len s + (len o - 1) in
      if concatThreshold <? total then SConcat (SAscii s) (SUnicode o) total
      else SUnicode (BOM :: s ++ tail o)
  | SImported o u sc =>
      match ensureScanned o u sc with
      | Some u =>
          let total := len s + (len u - 1) in
          if concatThreshold <? total then SConcat (SAscii s) (SUnicode u) total
          else SUnicode (BOM :: s ++ tail u)
      | None =>
          let total := len s + len o in
          if concatThreshold <? total then SConcat (SAscii s) (SAscii o) total
          else SAscii (s ++ o)
      end
  | SConcat _ _ n | SFlattened _ n => SConcat (SAscii s) other (len s + n)
  end.

Definition unicodeConcat (s : list Z) (other : Str) : Str :=
  match other with
  | SAscii o =>
      let total := (len s - 1) + len o in
      if concatThreshold <? total then SConcat (SUnicode s) (SAscii o) total
      else SUnicode (s ++ o)
  | SUnicode o =>
      let total := (len s - 1) + (len o - 1) in
      if concatThreshold <? total then SConcat (SUnicode s) (SUnicode o) total
      else SUnicode (s ++ tail o)
  | SImported o u sc =>
      match ensureScanned o u sc with
      | Some u =>
          let total := (len s - 1) + (len u - 1) in
          if concatThreshold <? total then SConcat (SUnicode s) (SUnicode u) total
          else SUnicode (s ++ tail u)
      | None =>
          let total := (len s - 1) + len o in
          if concatThreshold <? total then SConcat (SUnicode s) (SAscii o) total
          else SUnicode (s ++ o)
      end
  | SConcat _ _ n | SFlattened _ n => SConcat (SUnicode s) other ((len s - 1) + n)
  end.

Definition leafConcat (s other : Str) : Str :=
  match s with
  | SAscii a => asciiConcat a other
  | SUnicode u => unicodeConcat u other
  | SImported i u sc =>
      match sc, other with
      | false, SImported j _ false => SImported (i ++ j) None false
      | _, _ => match ensureScanned i u sc with
                | Some u => unicodeConcat u other
                | None => asciiConcat i other
                end
      end
  | SConcat _ _ _ | SFlattened _ _ => s
  end.

Definition Concat (s other : Str) : Str :=
  match s with
  | SConcat _ _ n | SFlattened _ n =>
      let total := n + Length other in
      if total <=? concatThreshold then leafConcat (flatten s) other
      else SConcat s other total
  | _ => leafConcat s other
  end.

(** ** Equality and order *)

Definition unitsEqb (s other : list Z) : bool := bool_decide (s = other).

(** Each StrictEquals flattens an operand that is a rope. *)
Definition asciiStrictEquals (s : list Z) (other : Str) : bool :=
  match flatten other with
  | SAscii o => unitsEqb s o
  | SImported o None _ => unitsEqb s o
  | _ => false
  end.

Definition unicodeStrictEquals (s : list Z) (other : Str) : bool :=
  match flatten other with
  | SUnicode o => unitsEqb s o
  | SImported o v sc =>
      match ensureScanned o v sc with Some v => unitsEqb s v | None => false end
  | _ => false
  end.

Definition importedStrictEquals (i : list Z) (u : option (list Z)) (sc : bool) (other : Str) : bool :=
  match flatten other with
  | SAscii o => match u with Some _ => false | None => unitsEqb i o end
  | SUnicode o => match ensureScanned i u sc with Some u => unitsEqb u o | None => false end
  | SImported o _ _ => unitsEqb i o
  | _ => false
  end.

(** A rope is flattened first; the pointer comparison of concatString.StrictEquals
    is a shortcut for the same object. *)
Definition StrictEquals (s other : Str) : bool :=
  match flatten s with
  | SAscii a => asciiStrictEquals a other
  | SUnicode u => unicodeStrictEquals u other
  | SImported i u sc => importedStrictEquals i u sc other
  | _ => false
  end.

(** strings.Compare and slices.Compare. *)
Fixpoint goCompare (a b : list Z) : Z :=
  match a, b with
  | [], [] => 0
  | [], _ => -1
  | _, [] => 1
  | x :: a, y :: b => if x <? y then -1 else if y <? x then 1 else goCompare a b
  end.

(** compareToAscii, on the units after the BOM. *)
Fixpoint compareToAscii (s1 s2 : list Z) : Z :=
  match s1, s2 with
  | [], [] => 0
  | [], _ :: _ => -1
  | _ :: _, [] => 1
  | c1 :: s1, c2 :: s2 => if c1 <? c2 then -1 else if c2 <? c1 then 1 else compareToAscii s1 s2
  end.

Definition asciiCompareTo (s : list Z) (other : Str) : Z :=
  match devirtualizeString other with
  | inr u => - compareToAscii (tail u) s
  | inl o => goCompare s o
  end.

Definition unicodeCompareTo (s : list Z) (other : Str) : Z :=
  match devirtualizeString other with
  | inr o => goCompare (tail s) (tail o)
  | inl o => compareToAscii (tail s) o
  end.

(** Imported strings and ropes compare as their flat form. *)
Definition CompareTo (s other : Str) : Z :=
  match devirtualizeString s with
  | inl a => asciiCompareTo a other
  | inr u => unicodeCompareTo u other
  end.

(** ToBoolean *)
Definition strToBoolean (s : Str) : bool :=
  match s with
  | SAscii a => negb (unitsEqb a [])
  | SUnicode u => 0 <? len u
  | SImported i _ _ => negb (len i =? 0)
  | SConcat _ _ n | SFlattened _ n => 0 <? n
  end.

(** ** Property keys and hashes (unistring/string.go)

    A unistring.String is a Go string: the bytes of an ASCII string, or the
    bytes of the UTF-16 array in memory order, told apart by the BOM. *)

Section memory_order.
Context (littleEndian : bool).

Definition unitBytes (c : Z) : list Z :=
  if littleEndian then [c mod 256; c / 256] else [c / 256; c mod 256].

Definition FromUtf16 (b : list Z) : list Z := b ≫= unitBytes.

Fixpoint bytesUnits (s : list Z) : list Z :=
  match s with
  | x :: y :: s => (if littleEndian then x + 256 * y else 256 * x + y) :: bytesUnits s
  | _ => []
  end.

Definition AsUtf16 (s : list Z) : option (list Z) :=
  if (len s <? 4) || negb (Z.even (len s)) then None
  else match bytesUnits s with
       | c :: t => if c =? BOM then Some (c :: t) else None
       | [] => None
       end.

Definition NewFromString (s : list Z) : list Z :=
  match Scan s with Some buf => FromUtf16 buf | None => s end.

(** The [string()] method of the four representations. *)
Definition strKey (s : Str) : list Z :=
  match devirtualizeString s with inl a => a | inr u => FromUtf16 u end.

Definition stringValueFromRaw (raw : list Z) : Str :=
  match AsUtf16 raw with Some b => SUnicode b | None => SAscii raw end.

(** [hash]: maphash over the bytes. *)
Definition strHash (maphash : list Z → Z) (s : Str) : Z := maphash (strKey s).
End memory_order.

(** The string iterator: [nextResult] of stringIterObject, until the end. *)
Definition iterString (s : Str) : list Str :=
  stringFromRune <$> decodeUnits (match devirtualizeString s with inl a => a | inr u => tail u end).

(** ** What a string denotes, and which values of [Str] are strings *)

Fixpoint units (s : Str) : list Z :=
  match s with
  | SAscii a => a
  | SUnicode u => tail u
  | SImported i _ _ => runesUnits (rangeRunes i)
  | SConcat l r _ => units l ++ units r
  | SFlattened l _ => units l
  end.

Definition canonUnicode (u : list Z) : Prop :=
  ∃ t, u = BOM :: t ∧ Forall isUnit t ∧ ¬ Forall isAsciiByte t.

Definition validUtf8 (s : list Z) : Prop := ∃ rs, Forall isScalar rs ∧ s = utf8Encode rs.

Definition isFlat (s : Str) : Prop :=
  match s with SAscii _ | SUnicode _ => True | _ => False end.

Definition isRope (s : Str) : Prop :=
  match s with SConcat _ _ _ | SFlattened _ _ => True | _ => False end.

Fixpoint wfStr (s : Str) : Prop :=
  match s with
  | SAscii a => Forall isAsciiByte a
  | SUnicode u => canonUnicode u
  | SImported i u sc => validUtf8 i ∧ u = if sc then Scan i else None
  | SConcat l r n => wfStr l ∧ wfStr r ∧ n = len (units l) + len (units r)
  | SFlattened l n => wfStr l ∧ isFlat l ∧ n = len (units l)
  end.

Definition flatUnits (f : list Z + list Z) : list Z := match f with inl a => a | inr u => tail u end.

Definition wfFlat (f : list Z + list Z) : Prop :=
  match f with inl a => Forall isAsciiByte a | inr u => canonUnicode u end.

(** Code units determine the flat representation. *)
Lemma flatUnits_inj f g : wfFlat f → wfFlat g → flatUnits f = flatUnits g ↔ f = g.
Proof.
  intros Hf Hg. split; [|by intros ->]. destruct f as [a|u], g as [b|v]; cbn in *.
  - by intros ->.
  - destruct Hg as (t & -> & _ & Hn). cbn. by intros ->.
  - destruct Hf as (t & -> & _ & Hn). cbn. by intros ->.
  - destruct Hf as (t & -> & _), Hg as (t' & -> & _). cbn. by intros ->.
Qed.

Lemma Scan_spec rs :
  Forall isScalar rs →
  match Scan (utf8Encode rs) with
  | None => wfFlat (inl (utf8Encode rs)) ∧ utf8Encode rs = runesUnits rs
  | Some u => wfFlat (inr u) ∧ tail u = runesUnits rs
  end.
Proof.
  intros Hrs. rewrite Scan_eq. pose proof (allAscii_encode rs Hrs) as Ha.
  destruct (allAscii (utf8Encode rs)).
  - destruct (ascii_encode rs) as [-> ->]; [by apply Ha|]. cbn. split; [by apply Ha|done].
  - rewrite rangeRunes_encode by done. split; [|done]. exists (runesUnits rs).
    split; [done|]. split; [by apply runesUnits_unit|]. rewrite runesUnits_ascii by done.
    rewrite <- Ha. done.
Qed.

Lemma devirtLeaf_spec s :
  wfStr s → ¬ isRope s →
  ∃ f, devirtLeaf s = Some f ∧ wfFlat f ∧ flatUnits f = units s.
Proof.
  destruct s as [a|u|i u sc|l r n|l n]; cbn; intros Hw Hr; try done; eauto.
  destruct Hw as [(rs & Hrs & ->) ->]. eexists. split; [done|].
  assert (ensureScanned (utf8Encode rs) (if sc then Scan (utf8Encode rs) else None) sc
          = Scan (utf8Encode rs)) as -> by (by destruct sc).
  rewrite rangeRunes_encode by done. pose proof (Scan_spec rs Hrs) as Hs.
  by destruct (Scan (utf8Encode rs)).
Qed.

(** *** The builder *)

(** [b] holds the code units [c], with no more than the needed mode. *)
Record BInv (b : StringBuilder) (c : list Z) : Prop := {
  binv_units : Forall isUnit c;
  binv_flag : uflag b = false ↔ Forall isAsciiByte c;
  binv_mode : if ascii b then asciiBuf b = c ∧ ubuf b = [] ∧ uflag b = false
              else asciiBuf b = [] ∧ ubuf b = BOM :: c;
}.

Lemma ascii_isUnit a : Forall isAsciiByte a → Forall isUnit a.
Proof. intros Ha. eapply Forall_impl; [exact Ha|]. unfold isAsciiByte, isUnit. lia. Qed.

Lemma binv_empty : BInv emptyBuilder [].
Proof. split; cbn; [constructor|split; [constructor|done]|done]. Qed.

Lemma binv_switch b c : BInv b c → BInv (switchToUnicode b) c ∧ ascii (switchToUnicode b) = false.
Proof.
  intros [Hu Hf Hm]. unfold switchToUnicode. destruct (ascii b) eqn:E; [|split; [split; [done|done|by rewrite E]|done]].
  destruct Hm as (Ha & Hub & Hfl). split; [|cbn; by rewrite Hub]. split; cbn; [done|done|].
  unfold ascii. cbn. rewrite Hub. cbn. by rewrite Ha.
Qed.

Lemma binv_append_unicode b c t fl :
  BInv b c → ascii b = false → Forall isUnit t →
  (fl = false ↔ Forall isAsciiByte (c ++ t)) →
  BInv (MkBuilder (asciiBuf b) (ubuf b ++ t) fl) (c ++ t).
Proof.
  intros [Hu Hf Hm] E Ht Hfl. rewrite E in Hm. destruct Hm as [Ha Hub].
  split; cbn; [by apply Forall_app|done|]. unfold ascii. cbn. rewrite Hub. done.
Qed.

Lemma binv_append_ascii b c t :
  BInv b c → ascii b = true → Forall isAsciiByte t →
  BInv (MkBuilder (asciiBuf b ++ t) (ubuf b) (uflag b)) (c ++ t).
Proof.
  intros [Hu Hf Hm] E Ht. rewrite E in Hm. destruct Hm as (Ha & Hub & Hfl).
  split; cbn; [apply Forall_app; split; [done|by apply ascii_isUnit]| |].
  - rewrite Forall_app, <- Hf. tauto.
  - unfold ascii. cbn. rewrite Hub, Ha. done.
Qed.

Lemma binv_writeFlat b c f : BInv b c → wfFlat f → BInv (writeFlat b f) (c ++ flatUnits f).
Proof.
  intros Hb Hf. destruct f as [a|u]; cbn in *.
  - destruct (ascii b) eqn:E; [by apply binv_append_ascii|].
    apply binv_append_unicode; [done|done|by apply ascii_isUnit|].
    rewrite Forall_app, <- (binv_flag _ _ Hb). tauto.
  - destruct Hf as (t & -> & Ht & Hn). destruct (binv_switch b c Hb) as [Hb' E].
    apply binv_append_unicode; [done..|]. rewrite Forall_app. cbn. naive_solver.
Qed.

Lemma binv_mode_change b c : BInv b c → BInv (LikelyUnicode b) c ∧ BInv (Grow b) c.
Proof.
  intros Hb. split; [by apply binv_switch|]. unfold Grow. destruct (ascii b) eqn:E; [done|].
  pose proof Hb as [Hu Hf Hm]. rewrite E in Hm. destruct Hm as [Ha Hub].
  split; cbn; [done|done|]. unfold ascii. cbn. rewrite Hub. cbn. by rewrite Ha.
Qed.

(** A rune written is its code units. *)
Lemma writeRuneFast_spec buf fl r :
  0 ≤ r ≤ MaxRune →
  writeRuneFast buf fl r
  = (buf ++ runeUnits r, fl || negb (bool_decide (Forall isAsciiByte (runeUnits r)))).
Proof.
  intros Hr. unfold writeRuneFast, runeUnits, RuneSelf.
  destruct (r <=? 0xFFFF) eqn:E; zbool.
  - repeat f_equal. destruct (0x80 <=? r) eqn:E2; zbool.
    + rewrite bool_decide_eq_false_2; [done|]. rewrite Forall_singleton. unfold isAsciiByte. lia.
    + rewrite bool_decide_eq_true_2; [done|]. rewrite Forall_singleton. unfold isAsciiByte. lia.
  - destruct (utf16EncodeRune r) as [a b] eqn:Er.
    destruct (utf16_encode_surrogates r a b) as (Ha & _ & _); [lia|done|].
    rewrite bool_decide_eq_false_2, orb_true_r; [done|]. rewrite Forall_cons.
    intros [Hc _]. unfold isUTF16FirstSurrogate, isAsciiByte in *. zbool. lia.
Qed.

Lemma flag_append b c t :
  BInv b c →
  uflag b || negb (bool_decide (Forall isAsciiByte t)) = false ↔ Forall isAsciiByte (c ++ t).
Proof.
  intros Hb. rewrite Forall_app, <- (binv_flag _ _ Hb), orb_false_iff, negb_false_iff.
  by rewrite bool_decide_eq_true.
Qed.

Lemma binv_writeRune b c r : BInv b c → 0 ≤ r ≤ MaxRune → BInv (writeRune b r) (c ++ runeUnits r).
Proof.
  intros Hb Hr. unfold writeRune. pose proof (runeUnits_unit r Hr).
  destruct (r <? RuneSelf) eqn:E; zbool.
  - unfold RuneSelf in E. destruct (ascii b) eqn:Ea.
    + rewrite runeUnits_bmp by lia. apply binv_append_ascii; [done|done|].
      repeat constructor; unfold isAsciiByte; lia.
    + rewrite writeRuneFast_spec by done. apply binv_append_unicode; [done..|].
      by apply flag_append.
  - destruct (binv_switch b c Hb) as [Hb' Ea]. rewrite writeRuneFast_spec by done.
    apply binv_append_unicode; [done..|]. by apply flag_append.
Qed.

Lemma builderString_spec b c :
  BInv b c → units (builderString b) = c ∧ wfStr (builderString b) ∧ isFlat (builderString b).
Proof.
  intros [Hu Hf Hm]. unfold builderString. destruct (ascii b).
  - destruct Hm as (-> & _ & Hfl). split; [done|]. cbn. split; [by apply Hf|done].
  - destruct Hm as [_ Hub]. rewrite Hub. destruct (uflag b) eqn:E.
    + cbn. split; [done|]. split; [|done]. exists c. split; [done|]. split; [done|].
      intros Ha%Hf. done.
    + assert (Forall isAsciiByte c) by (by apply Hf).
      destruct c as [|x c]; [done|]. unfold len. cbn [length].
      rewrite (proj2 (Z.ltb_ge _ 2)) by lia. done.
Qed.

(** *** Ropes *)

Definition stackUnits (st : list Str) : list Z := mbind units st.
Definition stackNodes (st : list Str) : nat := sum_list_with nodes st.

Lemma leafStep_spec str sb c (grew uni : bool) :
  wfStr str → BInv sb c → (∀ l r n, str ≠ SConcat l r n) →
  let str' := match str with SFlattened l _ => l | _ => str end in
  let sb' := if grew then sb else if (if grew then uni else uni || isUnicodeString str')
                                  then LikelyUnicode sb else Grow sb in
  ∃ f, devirtLeaf str' = Some f ∧ BInv (writeFlat sb' f) (c ++ units str).
Proof.
  intros Hw Hb Hn str' sb'.
  assert (BInv sb' c) as Hb' by (unfold sb'; repeat case_match; try done; by apply binv_mode_change).
  assert (wfStr str' ∧ ¬ isRope str' ∧ units str' = units str) as (Hw' & Hr' & <-).
  { destruct str as [a|u|i u sc|l r n|l n]; cbn in *; [by auto|by auto|by auto|by edestruct Hn|].
    destruct Hw as (Hl & Hfl & _). split; [done|]. destruct l; cbn in *; by auto. }
  destruct (devirtLeaf_spec str' Hw' Hr') as (f & Hf & Hwf & <-).
  exists f. split; [done|]. by apply binv_writeFlat.
Qed.

Lemma writeToLoop_spec fuel st grew uni sb c :
  Forall wfStr st → (stackNodes st < fuel)%nat → BInv sb c →
  ∃ sb', writeToLoop fuel st grew uni sb = Some sb' ∧ BInv sb' (c ++ stackUnits st).
Proof.
  revert st grew uni sb c. induction fuel as [|fuel IH]; intros st grew uni sb c Hst Hf Hb; [lia|].
  destruct st as [|str st]; [exists sb; cbn; by rewrite app_nil_r|].
  inversion Hst as [|? ? Hw Hst']; subst. unfold stackNodes in Hf. cbn [sum_list_with] in Hf.
  assert ((∃ l r n, str = SConcat l r n) ∨ (∀ l r n, str ≠ SConcat l r n))
    as [(l & r & n & ->)|Hnc] by (destruct str; naive_solver).
  - cbn in Hw. destruct Hw as (Hl & Hr & _). cbn [writeToLoop].
    destruct (IH (l :: r :: st) grew (uni || (negb grew && isUnicodeString r)) sb c)
      as (sb' & -> & Hb'); [by repeat constructor|cbn in *; lia|done|].
    exists sb'. split; [done|]. unfold stackUnits in *. cbn in *. by rewrite <- app_assoc.
  - destruct (leafStep_spec str sb c grew uni Hw Hb Hnc) as (f & Hd & Hb').
    assert (0 < nodes str)%nat by (destruct str; cbn; lia).
    destruct (IH st true (if grew then uni else uni || isUnicodeString
                (match str with SFlattened l _ => l | _ => str end)) _ _ Hst' ltac:(unfold stackNodes; lia) Hb')
      as (sb' & Hsb' & Hb'').
    exists sb'. split; [|unfold stackUnits in *; cbn; by rewrite app_assoc].
    destruct str as [a|u|i u sc|l r n|l n]; try (by edestruct Hnc);
      cbn [writeToLoop]; rewrite Hd; cbn [mbind option_bind]; exact Hsb'.
Qed.

Lemma flatten_spec s :
  wfStr s → units (flatten s) = units s ∧ wfStr (flatten s) ∧ ¬ isRope (flatten s).
Proof.
  intros Hw. destruct s as [a|u|i u sc|l r n|l n]; cbn [flatten]; [by auto|by auto|by auto| |].
  - cbn in Hw. destruct Hw as (Hl & Hr & _). unfold writeTo.
    destruct (writeToLoop_spec (S (nodes l + nodes r)) [l; r] false (isUnicodeString r)
                emptyBuilder []) as (sb & -> & Hsb);
      [by repeat constructor|unfold stackNodes; cbn; lia|apply binv_empty|].
    destruct (builderString_spec _ _ Hsb) as (Hu & Hwf & Hfl). unfold stackUnits in Hu. cbn in Hu.
    rewrite app_nil_r in Hu. split; [done|]. split; [done|].
    destruct (builderString sb); cbn in *; by auto.
  - destruct Hw as (Hl & Hfl & _). split; [done|]. split; [done|].
    destruct l; cbn in *; by auto.
Qed.

Lemma devirtualize_spec s :
  wfStr s → wfFlat (devirtualizeString s) ∧ flatUnits (devirtualizeString s) = units s.
Proof.
  intros Hw. destruct (flatten_spec s Hw) as (Hu & Hwf & Hr). unfold devirtualizeString.
  destruct (devirtLeaf_spec _ Hwf Hr) as (f & -> & Hf & Hfu). cbn. by rewrite Hfu, Hu.
Qed.

Lemma len_app {A} (a b : list A) : len (a ++ b) = len a + len b.
Proof. unfold len. rewrite length_app. lia. Qed.

Lemma len_tail u : canonUnicode u → len u - 1 = len (tail u).
Proof. intros (t & -> & _). unfold len. cbn. lia. Qed.

Lemma Length_spec s : wfStr s → Length s = len (units s).
Proof.
  intros Hw. destruct s as [a|u|i u sc|l r n|l n]; cbn in *; [done|by apply len_tail| | |tauto].
  - pose proof (devirtLeaf_spec (SImported i u sc)) as Hd. cbn in Hd.
    destruct Hd as (f & [= <-] & Hf & Hu); [done|tauto|]. rewrite <- Hu.
    destruct (ensureScanned i u sc); [by apply len_tail|done].
  - rewrite len_app. tauto.
Qed.

(** *** Concatenation *)

Lemma wf_unicode_app_l a u : Forall isAsciiByte a → canonUnicode u → canonUnicode (BOM :: a ++ tail u).
Proof.
  intros Ha (t & -> & Ht & Hn). exists (a ++ t). split; [done|].
  split; [apply Forall_app; split; [by apply ascii_isUnit|done]|]. rewrite Forall_app. tauto.
Qed.

Lemma wf_unicode_app_r u t : canonUnicode u → Forall isUnit t → canonUnicode (u ++ t) ∧ tail (u ++ t) = tail u ++ t.
Proof.
  intros (t' & -> & Ht & Hn) Hu. split; [|done]. exists (t' ++ t). split; [done|].
  split; [by apply Forall_app|]. rewrite Forall_app. tauto.
Qed.

Lemma wf_units_tail u : canonUnicode u → Forall isUnit (tail u).
Proof. by intros (t & -> & Ht & _). Qed.

Lemma asciiConcat_spec a o :
  Forall isAsciiByte a → wfStr o →
  wfStr (asciiConcat a o) ∧ units (asciiConcat a o) = a ++ units o.
Proof.
  intros Ha Ho.
  destruct o as [b|v|i u sc|l r n|l n]; cbn in Ho |- *.
  - destruct (concatThreshold <? _); cbn; [done|]. split; [by apply Forall_app|done].
  - pose proof (len_tail v Ho). destruct (concatThreshold <? _); cbn.
    + split; [|done]. split; [done|]. split; [done|lia].
    + split; [by apply wf_unicode_app_l|done].
  - destruct (devirtLeaf_spec (SImported i u sc) Ho) as (f & Hf & Hwf & Hu); [tauto|].
    cbn in Hf, Hu. injection Hf as <-. rewrite <- Hu.
    destruct (ensureScanned i u sc) as [v|]; cbn in Hwf |- *.
    + pose proof (len_tail v Hwf). destruct (concatThreshold <? _); cbn.
      * split; [|done]. split; [done|]. split; [done|lia].
      * split; [by apply wf_unicode_app_l|done].
    + destruct (concatThreshold <? _); cbn; [done|]. split; [by apply Forall_app|done].
  - rewrite len_app. split; [|done]. split; [done|]. split; [done|]. destruct Ho as (_ & _ & ->). lia.
  - split; [|done]. split; [done|]. split; [done|]. destruct Ho as (_ & _ & ->). lia.
Qed.

Lemma unicodeConcat_spec w o :
  canonUnicode w → wfStr o →
  wfStr (unicodeConcat w o) ∧ units (unicodeConcat w o) = tail w ++ units o.
Proof.
  intros Hw Ho. pose proof (len_tail w Hw) as Hlw.
  assert (∀ a, Forall isAsciiByte a → canonUnicode (w ++ a) ∧ tail (w ++ a) = tail w ++ a) as HA
    by (intros a Ha; by apply wf_unicode_app_r, ascii_isUnit).
  assert (∀ v, canonUnicode v → canonUnicode (w ++ tail v) ∧ tail (w ++ tail v) = tail w ++ tail v) as HU
    by (intros v Hv; by apply wf_unicode_app_r, wf_units_tail).
  destruct o as [b|v|i u sc|l r n|l n]; cbn in Ho |- *.
  - destruct (concatThreshold <? _); cbn; [|by apply HA]. split; [|done]. split; [done|]. split; [done|lia].
  - pose proof (len_tail v Ho). destruct (concatThreshold <? _); cbn; [|by apply HU].
    split; [|done]. split; [done|]. split; [done|lia].
  - destruct (devirtLeaf_spec (SImported i u sc) Ho) as (f & Hf & Hwf & Hu); [tauto|].
    cbn in Hf, Hu. injection Hf as <-. rewrite <- Hu.
    destruct (ensureScanned i u sc) as [v|]; cbn in Hwf |- *.
    + pose proof (len_tail v Hwf). destruct (concatThreshold <? _); cbn; [|by apply HU].
      split; [|done]. split; [done|]. split; [done|lia].
    + destruct (concatThreshold <? _); cbn; [|by apply HA]. split; [|done]. split; [done|]. split; [done|lia].
  - rewrite len_app. split; [|done]. split; [done|]. split; [done|]. destruct Ho as (_ & _ & ->). lia.
  - split; [|done]. split; [done|]. split; [done|]. destruct Ho as (_ & _ & ->). lia.
Qed.

Lemma utf8Encode_app a b : utf8Encode (a ++ b) = utf8Encode a ++ utf8Encode b.
Proof. apply bind_app. Qed.

Lemma leafConcat_spec s o :
  wfStr s → ¬ isRope s → wfStr o →
  wfStr (leafConcat s o) ∧ units (leafConcat s o) = units s ++ units o.
Proof.
  intros Hs Hr Ho. destruct s as [a|u|i u sc|l r n|l n]; cbn in Hr; try done.
  - by apply asciiConcat_spec.
  - by apply unicodeConcat_spec.
  - assert ((sc = false ∧ ∃ j v, o = SImported j v false) ∨
            leafConcat (SImported i u sc) o = match ensureScanned i u sc with
              Some u => unicodeConcat u o | None => asciiConcat i o end)
      as [(-> & j & v & ->)| ->].
    { destruct sc; [by right|]. destruct o as [| |? ? []| |]; cbn; eauto. }
    + cbn in *. destruct Hs as [(rs & Hrs & ->) ->], Ho as [(rs' & Hrs' & ->) ->].
      assert (Forall isScalar (rs ++ rs')) by (by apply Forall_app).
      rewrite <- utf8Encode_app, !rangeRunes_encode by done.
      split; [|apply bind_app]. split; [|done]. by exists (rs ++ rs').
    + destruct (devirtLeaf_spec (SImported i u sc) Hs) as (f & Hf & Hwf & Hu); [tauto|].
      cbn in Hf. injection Hf as <-. rewrite <- Hu.
      destruct (ensureScanned i u sc); [by apply unicodeConcat_spec|by apply asciiConcat_spec].
Qed.

(** C30: concatenation, in all combinations of the representations, yields a
    well-formed string whose code units are those of the operands in order. *)
Theorem Concat_units (s other : Str) :
  wfStr s → wfStr other →
  wfStr (Concat s other) ∧ units (Concat s other) = units s ++ units other.
Proof.
  intros Hs Ho. pose proof (flatten_spec s Hs) as (Hu & Hwf & Hr).
  pose proof (Length_spec s Hs) as Hls. pose proof (Length_spec other Ho) as Hlo.
  destruct s as [a|u|i u sc|l r n|l n]; cbn [Concat]; try (apply leafConcat_spec; [done|by auto|done]).
  all: cbn [Length] in Hls; case_match; [rewrite <- Hu; by apply leafConcat_spec|].
  all: split; [|done]; split; [done|]; split; [done|]; lia.
Qed.

(** *** Equality and order *)

(** Valid UTF-8 is determined by the code units it decodes to. *)
Lemma validUtf8_inj s t :
  validUtf8 s → validUtf8 t → runesUnits (rangeRunes s) = runesUnits (rangeRunes t) → s = t.
Proof.
  intros (rs & Hrs & ->) (rs' & Hrs' & ->). rewrite !rangeRunes_encode by done.
  intros Heq%(f_equal decodeUnits). rewrite !decodeUnits_runesUnits in Heq by done. by subst.
Qed.

Lemma Scan_ascii s : Forall isAsciiByte s → Scan s = None.
Proof.
  intros Hs. rewrite Scan_eq. unfold allAscii. rewrite (proj2 (forallb_forall _ s)); [done|].
  rewrite <- List.Forall_forall. eapply Forall_impl; [exact Hs|].
  intros b Hb. apply Z.ltb_lt. unfold isAsciiByte, RuneSelf in *. lia.
Qed.

(** An ASCII string against an imported one that may not be scanned yet. *)
Lemma ascii_imported_eq a i u (sc : bool) :
  Forall isAsciiByte a → u = (if sc then Scan i else None) →
  match u with None => unitsEqb a i | Some _ => false end
  = bool_decide (inl a = (match ensureScanned i u sc with Some u => inr u | None => inl i end : list Z + list Z)).
Proof.
  intros Ha Hu. unfold unitsEqb.
  assert (ensureScanned i u sc = Scan i) as -> by (subst u; by destruct sc).
  destruct (decide (a = i)) as [<-|Hne].
  - assert (u = None) as -> by (subst u; destruct sc; [by apply Scan_ascii|done]).
    rewrite Scan_ascii by done. by rewrite !bool_decide_eq_true_2.
  - rewrite (bool_decide_eq_false_2 (a = i)) by done.
    rewrite bool_decide_eq_false_2; [by destruct u|]. destruct (Scan i); congruence.
Qed.

Lemma StrictEquals_flatten s o :
  wfStr s → wfStr o → StrictEquals s o = StrictEquals (flatten s) (flatten o).
Proof.
  intros Hs Ho. destruct (flatten_spec s Hs) as (_ & _ & Hr), (flatten_spec o Ho) as (_ & _ & Hr').
  assert (∀ x, ¬ isRope x → flatten x = x) as Hid by (intros []; cbn; tauto).
  unfold StrictEquals, asciiStrictEquals, unicodeStrictEquals, importedStrictEquals.
  by rewrite (Hid (flatten s)), (Hid (flatten o)).
Qed.

Lemma leafStrictEquals_spec s o :
  wfStr s → ¬ isRope s → wfStr o → ¬ isRope o →
  StrictEquals s o = bool_decide (units s = units o).
Proof.
  intros Hs Hrs Ho Hro. unfold StrictEquals.
  destruct (devirtLeaf_spec s Hs Hrs) as (f & Hf & Hwf & Hfu).
  destruct (devirtLeaf_spec o Ho Hro) as (g & Hg & Hwg & Hgu).
  assert (bool_decide (units s = units o) = bool_decide (f = g)) as Hdec.
  { apply bool_decide_ext. rewrite <- Hfu, <- Hgu. by apply flatUnits_inj. }
  destruct s as [a|w|i u sc|l r n|l n]; cbn in Hrs; [| | |tauto|tauto];
    destruct o as [a'|w'|j v sc'|l' r' n'|l' n']; cbn in Hro; try tauto;
    cbn [devirtLeaf] in Hf, Hg; injection Hf as <-; injection Hg as <-;
    cbn [flatten]; unfold asciiStrictEquals, unicodeStrictEquals, importedStrictEquals; cbn [flatten]; unfold unitsEqb.
  - rewrite Hdec. symmetry. apply bool_decide_eq_false_2. done.
  - rewrite Hdec. apply ascii_imported_eq; [done|apply Ho].
  - rewrite Hdec. symmetry. apply bool_decide_eq_false_2. done.
  - rewrite Hdec. apply bool_decide_ext. split; congruence.
  - rewrite Hdec. destruct (ensureScanned j v sc') as [v'|]; cbn.
    + apply bool_decide_ext. split; congruence.
    + symmetry. apply bool_decide_eq_false_2. done.
  - rewrite Hdec. transitivity (match u with None => unitsEqb a' i | Some _ => false end).
    { destruct u; [done|]. apply bool_decide_ext. split; congruence. }
    rewrite (ascii_imported_eq a' i u sc); [|done|apply Hs].
    apply bool_decide_ext. split; intros; symmetry; done.
  - rewrite Hdec. destruct (ensureScanned i u sc) as [v'|]; cbn.
    + apply bool_decide_ext. split; congruence.
    + symmetry. apply bool_decide_eq_false_2. done.
  - apply bool_decide_ext. cbn. split; [by intros ->|]. destruct Hs, Ho. by apply validUtf8_inj.
Qed.

Lemma StrictEquals_spec s other :
  wfStr s → wfStr other → StrictEquals s other = bool_decide (units s = units other).
Proof.
  intros Hs Ho. destruct (flatten_spec s Hs) as (Hu & Hw & Hr).
  destruct (flatten_spec other Ho) as (Hu' & Hw' & Hr').
  by rewrite StrictEquals_flatten, leafStrictEquals_spec, Hu, Hu'.
Qed.

Lemma compareToAscii_go a b : compareToAscii a b = goCompare a b.
Proof. revert b. induction a as [|x a IH]; intros [|y b]; done. Qed.

Lemma goCompare_opp a b : - goCompare a b = goCompare b a.
Proof.
  revert b. induction a as [|x a IH]; intros [|y b]; cbn; try done.
  destruct (x <? y) eqn:E1, (y <? x) eqn:E2; zbool; try done; lia.
Qed.

Lemma CompareTo_spec s other :
  wfStr s → wfStr other → CompareTo s other = goCompare (units s) (units other).
Proof.
  intros Hs Ho. destruct (devirtualize_spec s Hs) as [_ <-].
  destruct (devirtualize_spec other Ho) as [_ <-]. unfold CompareTo, asciiCompareTo, unicodeCompareTo.
  destruct (devirtualizeString s), (devirtualizeString other); cbn; [done| | |done];
    rewrite compareToAscii_go; [apply goCompare_opp|done].
Qed.

Lemma goCompare_eq a b : goCompare a b = 0 ↔ a = b.
Proof.
  revert b. induction a as [|x a IH]; intros [|y b]; cbn; try done.
  destruct (x <? y) eqn:E1; zbool; [split; [done|intros [= ? ?]; lia]|].
  destruct (y <? x) eqn:E2; zbool; [split; [done|intros [= ? ?]; lia]|].
  rewrite IH. split; [intros ->; f_equal; lia|congruence].
Qed.

(** C24: two strings are equal ([StrictEquals], [SameAs]) exactly when their code
    units are, and [CompareTo] is the lexicographic order on code units, 0
    exactly on equal strings: equality and the relational operators do not
    depend on the representations. *)
Theorem equality_order_units (s other : Str) :
  wfStr s → wfStr other →
  StrictEquals s other = bool_decide (units s = units other) ∧
  CompareTo s other = goCompare (units s) (units other) ∧
  (CompareTo s other = 0 ↔ StrictEquals s other = true).
Proof.
  intros Hs Ho. rewrite StrictEquals_spec, CompareTo_spec by done. split; [done|]. split; [done|].
  by rewrite bool_decide_eq_true, goCompare_eq.
Qed.

(** *** Substrings *)

Lemma slice_Forall (P : Z → Prop) l i j : Forall P l → Forall P (slice l i j).
Proof. intros. unfold slice. by apply Forall_take, Forall_drop. Qed.

Lemma existsb_unicode l :
  Forall isUnit l → existsb (λ c, RuneSelf <=? c) l = negb (bool_decide (Forall isAsciiByte l)).
Proof.
  induction 1 as [|c l Hc _ IH]; [done|]. cbn. rewrite IH.
  unfold isUnit, RuneSelf in *. destruct (0x80 <=? c) eqn:E; zbool; cbn.
  - rewrite bool_decide_eq_false_2; [done|]. rewrite Forall_cons. unfold isAsciiByte. lia.
  - f_equal. apply bool_decide_ext. rewrite Forall_cons. unfold isAsciiByte. split; [|tauto].
    split; [lia|done].
Qed.

Lemma flat_units_unit f : wfFlat f → Forall isUnit (flatUnits f).
Proof. destruct f as [a|u]; cbn; [apply ascii_isUnit|apply wf_units_tail]. Qed.

Lemma slice_tail u start stop : 0 ≤ start → slice u (start + 1) (stop + 1) = slice (tail u) start stop.
Proof.
  intros Hs. unfold slice. replace (Z.to_nat (start + 1)) with (S (Z.to_nat start)) by lia.
  replace (stop + 1 - (start + 1)) with (stop - start) by lia. destruct u; [cbn [tail]; by rewrite !drop_nil, take_nil|done].
Qed.

Lemma goSlice_in l low high : 0 ≤ low ≤ high → high ≤ len l → goSlice l low high = Some (slice l low high).
Proof. intros H1 H2. unfold goSlice. by rewrite !(proj2 (Z.leb_le _ _)) by lia. Qed.

Lemma goSlice_out l low high : ¬ (0 ≤ low ≤ high ∧ high ≤ len l) → goSlice l low high = None.
Proof.
  intros H. unfold goSlice. destruct (Z.leb_spec 0 low), (Z.leb_spec low high), (Z.leb_spec high (len l)); cbn; try done; lia.
Qed.

Lemma substring_unicode ss :
  Forall isUnit ss →
  wfStr (if existsb (λ c, RuneSelf <=? c) ss then SUnicode (BOM :: ss) else SAscii ss) ∧
  units (if existsb (λ c, RuneSelf <=? c) ss then SUnicode (BOM :: ss) else SAscii ss) = ss.
Proof.
  intros Hss. rewrite existsb_unicode by done. destruct (bool_decide (Forall isAsciiByte ss)) eqn:E; cbn.
  - by apply bool_decide_eq_true in E.
  - apply bool_decide_eq_false in E. split; [|done]. by exists ss.
Qed.

Lemma Substring_spec s start stop :
  wfStr s → 0 ≤ start ≤ stop → stop ≤ len (units s) →
  ∃ t, Substring s start stop = Some t ∧ wfStr t ∧ units t = slice (units s) start stop.
Proof.
  intros Hs H1 H2. destruct (devirtualize_spec s Hs) as [Hf Hu]. unfold Substring. rewrite <- Hu in H2 |- *.
  pose proof (flat_units_unit _ Hf) as Hunit.
  destruct (devirtualizeString s) as [a|u]; cbn [flatUnits substringFlat wfFlat] in *.
  - rewrite goSlice_in by done. eexists. split; [done|]. split; [by apply slice_Forall|done].
  - destruct Hf as (t & -> & _). cbn [tail] in *. rewrite goSlice_in by (unfold len in *; cbn [length]; lia).
    cbn [mbind option_bind]. rewrite slice_tail by lia. eexists. split; [done|]. by apply substring_unicode, slice_Forall.
Qed.

Lemma Substring_out s start stop :
  wfStr s → 0 ≤ start → ¬ (start ≤ stop ∧ stop ≤ len (units s)) → Substring s start stop = None.
Proof.
  intros Hs H1 H2. destruct (devirtualize_spec s Hs) as [Hf Hu]. unfold Substring. rewrite <- Hu in H2.
  destruct (devirtualizeString s) as [a|u]; cbn [flatUnits substringFlat wfFlat] in *.
  - by rewrite goSlice_out by lia.
  - destruct Hf as (t & -> & _). cbn [tail] in *. rewrite goSlice_out; [done|]. unfold len in *. cbn [length]. lia.
Qed.

(** The strings whose flat form is UTF-16 behind a BOM: those with a unit that is
    not ASCII. *)
Definition hasUnicode (s : Str) : bool := negb (bool_decide (Forall isAsciiByte (units s))).

Lemma CharAt_int s idx :
  wfStr s → CharAt s idx = if 0 <=? idx then units s !! Z.to_nat idx else if (idx =? -1) && hasUnicode s then Some BOM else None.
Proof.
  intros Hs. destruct (devirtualize_spec s Hs) as [Hf Hu]. unfold CharAt, hasUnicode. rewrite <- Hu.
  destruct (devirtualizeString s) as [a|u]; cbn [charAtFlat flatUnits wfFlat] in *; unfold goIndex.
  - rewrite bool_decide_eq_true_2 by done. by rewrite andb_false_r.
  - destruct Hf as (t & -> & _ & Hn). cbn [tail]. rewrite bool_decide_eq_false_2, andb_true_r by done.
    destruct (Z.leb_spec 0 idx), (Z.leb_spec 0 (idx + 1)), (Z.eqb_spec idx (-1)); try lia; try done; [|by subst].
    by replace (Z.to_nat (idx + 1)) with (S (Z.to_nat idx)) by lia.
Qed.

Lemma CharAt_spec s (idx : nat) : wfStr s → CharAt s (Z.of_nat idx) = units s !! idx.
Proof. intros Hs. rewrite CharAt_int by done. rewrite (proj2 (Z.leb_le _ _)) by lia. by rewrite Nat2Z.id. Qed.


(** *** Sequences of builder operations *)

(** The exported methods of StringBuilder. *)
Inductive builderOp :=
  | BWriteString (s : Str)
  | BWriteRune (r : Z)
  | BWriteUTF8String (s : list Z)
  | BWriteSubstring (s : Str) (start stop : Z)
  | BGrow
  | BLikelyUnicode.

Definition builderStep (b : StringBuilder) (o : builderOp) : StringBuilder :=
  match o with
  | BWriteString s => writeFlat b (devirtualizeString s)
  | BWriteRune r => writeRune b r
  | BWriteUTF8String s => WriteUTF8String b s
  | BWriteSubstring s i j => writeSubFlat b (devirtualizeString s) i j
  | BGrow => Grow b
  | BLikelyUnicode => LikelyUnicode b
  end.

Definition runBuilder (ops : list builderOp) : Str := builderString (foldl builderStep emptyBuilder ops).

(** What an operation appends. *)
Definition opUnits (o : builderOp) : list Z :=
  match o with
  | BWriteString s => units s
  | BWriteRune r => runeUnits r
  | BWriteUTF8String s => runesUnits (rangeRunes s)
  | BWriteSubstring s i j => slice (units s) i j
  | BGrow | BLikelyUnicode => []
  end.

Definition wfOp (o : builderOp) : Prop :=
  match o with
  | BWriteString s | BWriteSubstring s _ _ => wfStr s
  | BWriteRune r => 0 ≤ r ≤ MaxRune
  | BWriteUTF8String s => Forall isByte s
  | BGrow | BLikelyUnicode => True
  end.

Lemma runes_unit rs : Forall (λ r, 0 ≤ r ≤ MaxRune) rs → Forall isUnit (runesUnits rs).
Proof.
  induction 1 as [|r rs Hr _ IH]; [constructor|]. unfold runesUnits in *. cbn.
  apply Forall_app. split; [by apply runeUnits_unit|done].
Qed.

Lemma binv_writeRunesFast b c rs :
  BInv b c → ascii b = false → Forall (λ r, 0 ≤ r ≤ MaxRune) rs →
  BInv (writeRunesFast b rs) (c ++ runesUnits rs).
Proof.
  intros Hb Ha Hrs. revert b c Hb Ha. induction Hrs as [|r rs Hr Hrs IH]; intros b c Hb Ha.
  - unfold runesUnits. cbn. by rewrite app_nil_r.
  - unfold writeRunesFast, runesUnits. cbn. rewrite writeRuneFast_spec, app_assoc by done. apply IH.
    + apply binv_append_unicode; [done|done|by apply runeUnits_unit|by apply flag_append].
    + destruct Hb as [_ _ Hm]. rewrite Ha in Hm. destruct Hm as [_ Hub]. unfold ascii. cbn. by rewrite Hub.
Qed.

(** The prefix found by the scan for the first byte that is not ASCII. *)
Lemma firstUnicode_spec s : Forall isByte s →
  match firstUnicode s with
  | None => Forall isAsciiByte s
  | Some i => Forall isAsciiByte (take i s)
  end.
Proof.
  induction 1 as [|b s Hb _ IH]; cbn; [constructor|]. unfold isByte, isAsciiByte, RuneSelf in *.
  destruct (0x80 <=? b) eqn:E; zbool; [constructor|].
  destruct (firstUnicode s); cbn; (constructor; [lia|done]).
Qed.

Lemma rangeRunes_range s : Forall isByte s → Forall (λ r, 0 ≤ r ≤ MaxRune) (rangeRunes s).
Proof. apply rangeRunesFuel_range. Qed.

Lemma runesUnits_ascii_id a : Forall isAsciiByte a → runesUnits a = a.
Proof.
  induction 1 as [|x a Hx _ IH]; [done|]. unfold runesUnits in *. cbn. rewrite IH.
  unfold isAsciiByte in Hx. by rewrite runeUnits_bmp by lia.
Qed.

Lemma ascii_prefix_runes a t :
  Forall isAsciiByte a → runesUnits (rangeRunes (a ++ t)) = a ++ runesUnits (rangeRunes t).
Proof.
  intros Ha. rewrite rangeRunes_ascii_app by done. unfold runesUnits. rewrite bind_app.
  f_equal. by apply runesUnits_ascii_id.
Qed.

Lemma binv_WriteUTF8String b c s :
  BInv b c → Forall isByte s → BInv (WriteUTF8String b s) (c ++ runesUnits (rangeRunes s)).
Proof.
  intros Hb Hs. unfold WriteUTF8String. destruct (ascii b) eqn:Ea;
    [|apply binv_writeRunesFast; [done|done|by apply rangeRunes_range]].
  pose proof (firstUnicode_spec s Hs) as Hf. destruct (firstUnicode s) as [i|].
  - destruct (binv_switch b c Hb) as [Hb' Ea']. 
    replace (runesUnits (rangeRunes s)) with (take i s ++ runesUnits (rangeRunes (drop i s)))
      by (rewrite <- ascii_prefix_runes, take_drop by done; done).
    rewrite app_assoc. apply binv_writeRunesFast.
    + apply binv_append_unicode; [done|done|by apply ascii_isUnit|].
      rewrite Forall_app, <- (binv_flag _ _ Hb'). tauto.
    + destruct Hb' as [_ _ Hm]. rewrite Ea' in Hm. destruct Hm as [_ Hub]. unfold ascii. cbn. by rewrite Hub.
    + by apply rangeRunes_range, Forall_drop.
  - replace (runesUnits (rangeRunes s)) with s; [by apply binv_append_ascii|].
    pose proof (ascii_prefix_runes s [] Hf) as Hr. by rewrite !app_nil_r in Hr.
Qed.

(** Without LikelyUnicode the builder is in unicode mode only when it has to be. *)
Definition lean (b : StringBuilder) : Prop := ascii b = true ∨ uflag b = true.

Lemma allAscii_spec l : Forall isUnit l → allAscii l = bool_decide (Forall isAsciiByte l).
Proof.
  intros Hl. rewrite <- (negb_involutive (bool_decide _)), <- existsb_unicode by done.
  clear Hl. unfold allAscii. induction l as [|c l IH]; [done|]. cbn. rewrite IH, negb_orb. f_equal.
  unfold RuneSelf. destruct (c <? 0x80) eqn:E, (0x80 <=? c) eqn:E'; zbool; try done; lia.
Qed.

Lemma binv_writeSubFlat b c f i j :
  BInv b c → lean b → wfFlat f → BInv (writeSubFlat b f i j) (c ++ slice (flatUnits f) i j).
Proof.
  intros Hb Hl Hf. destruct f as [a|u]; cbn in *.
  - apply (slice_Forall _ _ i j) in Hf. destruct (ascii b) eqn:Ea; [by apply binv_append_ascii|].
    apply binv_append_unicode; [done|done|by apply ascii_isUnit|].
    rewrite Forall_app, <- (binv_flag _ _ Hb). tauto.
  - pose proof (slice_Forall isUnit _ i j (wf_units_tail _ Hf)) as Hu. rewrite allAscii_spec by done.
    destruct (binv_switch b c Hb) as [Hb' Ea']. destruct (ascii b && bool_decide _) eqn:E.
    + apply andb_prop in E as [Ea E%bool_decide_eq_true]. by apply binv_append_ascii.
    + apply binv_append_unicode; [done..|]. split; [done|]. rewrite Forall_app. intros [Hc Hs].
      rewrite (bool_decide_eq_true_2 _ Hs), andb_true_r in E. destruct Hl as [Hl|Hl]; [congruence|].
      apply (binv_flag _ _ Hb) in Hc. congruence.
Qed.

Definition isLikely (o : builderOp) : bool := match o with BLikelyUnicode => true | _ => false end.
Definition isSub (o : builderOp) : bool := match o with BWriteSubstring _ _ _ => true | _ => false end.

Lemma binv_step b c o :
  BInv b c → (isSub o = true → lean b) → wfOp o → BInv (builderStep b o) (c ++ opUnits o).
Proof.
  intros Hb Hl Ho. destruct o as [s|r|s|s i j| |]; cbn in *.
  - destruct (devirtualize_spec s Ho) as [Hf <-]. by apply binv_writeFlat.
  - by apply binv_writeRune.
  - by apply binv_WriteUTF8String.
  - destruct (devirtualize_spec s Ho) as [Hf <-]. apply binv_writeSubFlat; [done|by apply Hl|done].
  - rewrite app_nil_r. by apply binv_mode_change.
  - rewrite app_nil_r. by apply binv_mode_change.
Qed.

Lemma writeRunesFast_flag b rs : uflag b = true → uflag (writeRunesFast b rs) = true.
Proof.
  revert b. induction rs as [|r rs IH]; intros b Hb; [done|]. unfold writeRunesFast. cbn. apply IH.
  unfold writeRuneFast. rewrite Hb. by destruct (r <=? 0xFFFF); [|destruct (utf16EncodeRune r)].
Qed.

Lemma writeRuneFast_flag buf fl r : RuneSelf ≤ r ∨ fl = true → (writeRuneFast buf fl r).2 = true.
Proof.
  intros Hr. unfold writeRuneFast. destruct (r <=? 0xFFFF); [|by destruct (utf16EncodeRune r)]. cbn.
  destruct Hr as [Hr| ->]; [|done]. rewrite (proj2 (Z.leb_le _ _)) by done. apply orb_true_r.
Qed.

Lemma firstUnicode_drop s i :
  firstUnicode s = Some i → ∃ b t, drop i s = b :: t ∧ RuneSelf ≤ b.
Proof.
  revert i. induction s as [|b s IH]; intros i; cbn; [done|].
  destruct (RuneSelf <=? b) eqn:E; [intros [= <-]; apply Z.leb_le in E; eauto|].
  destruct (firstUnicode s) as [k|]; cbn; intros [= <-]. by apply IH.
Qed.

Lemma lean_WriteUTF8String b s : lean b → Forall isByte s → lean (WriteUTF8String b s).
Proof.
  intros Hl Hs. unfold WriteUTF8String. destruct (ascii b) eqn:Ea.
  - destruct (firstUnicode s) as [i|] eqn:E; [right|left; unfold ascii in *; done].
    destruct (firstUnicode_drop s i E) as (x & t & Hd & Hx). pose proof (Forall_drop _ i _ Hs) as Hb.
    rewrite Hd in *. unfold rangeRunes. cbn [length rangeRunesFuel].
    pose proof (utf8DecodeRune_nonascii x t Hb Hx) as Hr. destruct (utf8DecodeRune (x :: t)) as [r n].
    unfold writeRunesFast. cbn [foldl]. apply writeRunesFast_flag. cbn in Hr.
    match goal with |- context [writeRuneFast ?a ?b r] => pose proof (writeRuneFast_flag a b r (or_introl Hr)) as Hw;
      destruct (writeRuneFast a b r) end. done.
  - destruct Hl as [Hl|Hl]; [congruence|]. right. by apply writeRunesFast_flag.
Qed.

Lemma lean_writeRune b r : lean b → lean (writeRune b r).
Proof.
  intros Hl. unfold writeRune. destruct (r <? RuneSelf) eqn:E.
  - destruct (ascii b) eqn:Ea; [left; unfold ascii in *; done|]. destruct Hl as [Hl|Hl]; [congruence|].
    pose proof (writeRuneFast_flag (ubuf b) (uflag b) r (or_intror Hl)) as Hw. right.
    by destruct (writeRuneFast (ubuf b) (uflag b) r).
  - apply Z.ltb_ge in E. right. set (b' := switchToUnicode b).
    pose proof (writeRuneFast_flag (ubuf b') (uflag b') r (or_introl E)) as Hw.
    by destruct (writeRuneFast (ubuf b') (uflag b') r).
Qed.

Lemma lean_step b o : lean b → isLikely o = false → wfOp o → lean (builderStep b o).
Proof.
  intros Hl Ho Hw. destruct o as [s|r|s|s i j| |]; cbn in *.
  - unfold writeFlat. destruct (devirtualizeString s); [|by right].
    destruct (ascii b) eqn:Ea; [left; unfold ascii in *; done|destruct Hl; [congruence|by right]].
  - by apply lean_writeRune.
  - by apply lean_WriteUTF8String.
  - unfold writeSubFlat. destruct (devirtualizeString s).
    + destruct (ascii b) eqn:Ea; [left; unfold ascii in *; done|destruct Hl; [congruence|by right]].
    + destruct (ascii b && _) eqn:Ea; [|by right]. apply andb_prop in Ea as [Ea _].
      left. unfold ascii in *. done.
  - unfold Grow. destruct (ascii b) eqn:Ea; [by left|]. destruct Hl as [Hl|Hl]; [congruence|by right].
  - done.
Qed.

Lemma runBuilder_inv ops b c :
  BInv b c → Forall wfOp ops →
  (lean b ∧ forallb (λ o, negb (isLikely o)) ops = true) ∨ forallb (λ o, negb (isSub o)) ops = true →
  BInv (foldl builderStep b ops) (c ++ mbind opUnits ops).
Proof.
  intros Hb Hops. revert b c Hb. induction Hops as [|o ops Ho _ IH]; intros b c Hb Hd; cbn.
  - by rewrite app_nil_r.
  - rewrite app_assoc. apply IH.
    + apply binv_step; [done| |done]. intros Hs. destruct Hd as [[? _]|Hd]; [done|].
      cbn in Hd. by rewrite Hs in Hd.
    + destruct Hd as [[Hl Hd]|Hd]; cbn in Hd; apply andb_prop in Hd as [Hd1 Hd2]; [left|by right].
      split; [|done]. apply lean_step; [done| |done]. by apply negb_true_iff.
Qed.

(** Any sequence of StringBuilder calls that does not combine LikelyUnicode
    with WriteSubstring builds a well-formed (canonical) string holding exactly
    the code units written, in order; invalid UTF-8 given to WriteUTF8String
    becomes U+FFFD. *)
Theorem builder_spec (ops : list builderOp) :
  Forall wfOp ops →
  forallb (λ o, negb (isLikely o)) ops = true ∨ forallb (λ o, negb (isSub o)) ops = true →
  wfStr (runBuilder ops) ∧ units (runBuilder ops) = mbind opUnits ops.
Proof.
  intros Hops Hd. destruct (builderString_spec (foldl builderStep emptyBuilder ops) (mbind opUnits ops))
    as (Hu & Hw & _); [|done].
  apply (runBuilder_inv ops emptyBuilder [] binv_empty Hops).
  destruct Hd as [Hd|Hd]; [left; split; [by left|done]|by right].
Qed.

Lemma builder_spec_witness :
  units (runBuilder [BWriteRune 65; BWriteUTF8String [0xD0; 0x96; 0xFF]; BWriteSubstring (SUnicode [BOM; 66; 1046]) 0 1])
  = [65; 1046; RuneError; 66].
Proof.
  apply (builder_spec [BWriteRune 65; BWriteUTF8String [0xD0; 0x96; 0xFF]; BWriteSubstring (SUnicode [BOM; 66; 1046]) 0 1]).
  - repeat constructor; unfold MaxRune, isByte; try lia. exists [66; 1046]. split; [done|].
    split; [by repeat constructor|]. intros [_ H]%Forall_cons. apply Forall_cons in H as [[_ H] _]. done.
  - by left.
Defined.

(** Combined, LikelyUnicode and WriteSubstring build a string that is not
    canonical: an ASCII slice of a unicode string comes out as a unicodeString,
    which [StrictEquals] tells apart from the equal ASCII string. *)
Theorem builder_not_canonical :
  let s := runBuilder [BLikelyUnicode; BWriteSubstring (SUnicode [BOM; 66; 1046]) 0 1] in
  units s = units (SAscii [66]) ∧ StrictEquals s (SAscii [66]) = false.
Proof. by vm_compute. Qed.

(** *** Constructors *)

Lemma wf_ascii s : forallb (λ b, (0 <=? b) && (b <? 128)) s = true → wfStr (SAscii s).
Proof.
  intros H. cbn. rewrite forallb_forall in H. apply List.Forall_forall. intros b Hb%H.
  unfold isAsciiByte. zbool. lia.
Qed.

Lemma wf_unicode t :
  forallb (λ b, (0 <=? b) && (b <? 65536)) t && existsb (λ c, RuneSelf <=? c) t = true →
  wfStr (SUnicode (BOM :: t)).
Proof.
  intros [H1 H2]%andb_prop. assert (Forall isUnit t) as Hu.
  { rewrite forallb_forall in H1. apply List.Forall_forall. intros b Hb%H1. unfold isUnit. zbool. lia. }
  exists t. split; [done|]. split; [done|]. rewrite existsb_unicode in H2 by done.
  by apply negb_true_iff, bool_decide_eq_false in H2.
Qed.

Lemma wf_imported i u (sc : bool) rs :
  i = utf8Encode rs → u = (if sc then Scan i else None) → forallb (λ r, bool_decide (isScalar r)) rs = true →
  wfStr (SImported i u sc).
Proof.
  intros -> -> H. split; [|done]. exists rs. split; [|done]. rewrite forallb_forall in H.
  apply List.Forall_forall. intros r Hr%H. by apply bool_decide_eq_true in Hr.
Qed.

Lemma wf_canon t : Forall isUnit t → allAscii t = false → wfStr (SUnicode (BOM :: t)).
Proof.
  intros Hu Ha. rewrite allAscii_spec in Ha by done. apply bool_decide_eq_false in Ha. by exists t.
Qed.

Lemma StringFromUTF16_spec u :
  Forall isUnit u → wfStr (StringFromUTF16 u) ∧ units (StringFromUTF16 u) = u.
Proof.
  intros Hu. unfold StringFromUTF16. destruct (allAscii u) eqn:E; [|split; [by apply wf_canon|done]].
  rewrite allAscii_spec in E by done. apply bool_decide_eq_true in E. done.
Qed.

Lemma allAscii_bytes s : Forall isByte s → allAscii s = true ↔ Forall isAsciiByte s.
Proof.
  intros Hs. unfold allAscii. rewrite forallb_forall, List.Forall_forall in *. unfold isByte, isAsciiByte, RuneSelf in *.
  split; intros H x Hx; specialize (H x Hx); specialize (Hs x Hx); zbool; lia.
Qed.

Lemma nonascii_runesUnits s :
  Forall isByte s → allAscii s = false → ¬ Forall isAsciiByte (runesUnits (rangeRunes s)).
Proof.
  intros Hs E Ha. pose proof (firstUnicode_spec s Hs) as Hf. destruct (firstUnicode s) as [i|] eqn:Ei.
  - destruct (firstUnicode_drop s i Ei) as (b & t & Hd & Hb).
    rewrite <- (take_drop i s), ascii_prefix_runes, Hd in Ha by done. apply Forall_app in Ha as [_ Ha].
    pose proof (Forall_drop _ i _ Hs) as Hs'. rewrite Hd in Hs'. unfold rangeRunes in Ha.
    cbn [length rangeRunesFuel] in Ha. pose proof (utf8DecodeRune_nonascii b t Hs' Hb) as Hn.
    pose proof (utf8DecodeRune_range _ Hs') as Hr. destruct (utf8DecodeRune (b :: t)) as [r n].
    unfold runesUnits in Ha. cbn in *. apply Forall_app in Ha as [Ha _].
    apply runeUnits_ascii in Ha; [|done]. unfold isAsciiByte, RuneSelf in *. lia.
  - apply allAscii_bytes in Hf; [congruence|done].
Qed.

Lemma newStringValue_spec s :
  Forall isByte s → wfStr (newStringValue s) ∧ units (newStringValue s) = runesUnits (rangeRunes s).
Proof.
  intros Hs. unfold newStringValue. rewrite Scan_eq. destruct (allAscii s) eqn:E.
  - apply allAscii_bytes in E; [|done]. split; [done|]. cbn.
    pose proof (ascii_prefix_runes s [] E) as Hr. by rewrite !app_nil_r in Hr.
  - split; [|done]. exists (runesUnits (rangeRunes s)). split; [done|].
    split; [by apply runes_unit, rangeRunes_range|by apply nonascii_runesUnits].
Qed.

Lemma stringFromRune_spec r :
  0 ≤ r ≤ MaxRune → wfStr (stringFromRune r) ∧ units (stringFromRune r) = runeUnits r.
Proof.
  intros Hr. unfold stringFromRune. destruct (r <? RuneSelf) eqn:E; zbool; unfold RuneSelf in E.
  - rewrite runeUnits_bmp by lia. split; [|done]. repeat constructor; lia.
  - pose proof (binv_append_unicode (MkBuilder [] [BOM] false) [] (runeUnits r)
      (false || negb (bool_decide (Forall isAsciiByte (runeUnits r))))) as Hb. cbn in Hb.
    unfold growUnicode. rewrite writeRuneFast_spec by done. cbn [app orb].
    edestruct builderString_spec as (Hu & Hw & _); [apply Hb|by rewrite Hu].
    + split; cbn; [constructor|split; [constructor|done]|done].
    + done.
    + by apply runeUnits_unit.
    + by rewrite negb_false_iff, bool_decide_eq_true.
Qed.

(** *** The iterator *)

Lemma readAll_range fuel rr :
  Forall isUnit (reader rr) → match prev rr with Some c => isUnit c | None => True end →
  Forall (λ r, 0 ≤ r ≤ MaxRune) (readAll fuel rr).
Proof.
  revert rr. induction fuel as [|fuel IH]; intros [l p] Hl Hp; [constructor|]. cbn [readAll].
  destruct (ReadRune (MkDecoder l p)) as [[[r n] rr']|] eqn:E; [|constructor].
  unfold ReadRune in E. cbn [prev reader] in *.
  destruct (match p with Some c => Some (c, l) | None => match l with [] => None | c :: rest => Some (c, rest) end end)
    as [[c rest]|] eqn:Ec; [|done].
  assert (isUnit c ∧ Forall isUnit rest) as [Hc Hr].
  { destruct p; [by simplify_eq|]. destruct l; [done|]. simplify_eq. by apply Forall_cons in Hl. }
  cbn in E. unfold isUnit, MaxRune in *. destruct (isUTF16FirstSurrogate c) eqn:E1.
  - destruct rest as [|d rest]; [injection E as <- <- <-; constructor; [lia|by apply IH]|].
    apply Forall_cons in Hr as [Hd Hr]. destruct (isUTF16SecondSurrogate d) eqn:E2; injection E as <- <- <-.
    + constructor; [|by apply IH]. unfold utf16DecodeRune. rewrite E1, E2. cbn.
      unfold isUTF16FirstSurrogate, isUTF16SecondSurrogate in *. zbool. lia.
    + constructor; [lia|by apply IH].
  - injection E as <- <- <-. constructor; [lia|by apply IH].
Qed.

Lemma devirt_units s : (match devirtualizeString s with inl a => a | inr u => tail u end) = flatUnits (devirtualizeString s).
Proof. by destruct (devirtualizeString s). Qed.

Lemma stringFromRune_all rs :
  Forall (λ r, 0 ≤ r ≤ MaxRune) rs →
  Forall (λ c, wfStr c ∧ (1 ≤ length (units c) ≤ 2)%nat) (stringFromRune <$> rs) ∧
  mbind units (stringFromRune <$> rs) = runesUnits rs.
Proof.
  induction 1 as [|r rs Hr _ [IH1 IH2]]; [by split|].
  destruct (stringFromRune_spec r Hr) as [Hw He]. unfold runesUnits in *. cbn. rewrite He. split; [|by rewrite IH2].
  constructor; [|done]. split; [done|]. rewrite He. unfold runeUnits. destruct (r <=? 0xFFFF); cbn; [lia|].
  destruct (utf16EncodeRune r). cbn. lia.
Qed.

(** Iterating a string yields well-formed strings of one or two code units
    that concatenate to the string, lone surrogates included. *)
Theorem iterString_units (s : Str) :
  wfStr s →
  Forall (λ c, wfStr c ∧ (1 ≤ length (units c) ≤ 2)%nat) (iterString s) ∧
  mbind units (iterString s) = units s.
Proof.
  intros Hs. destruct (devirtualize_spec s Hs) as [Hf Hu]. unfold iterString. rewrite devirt_units, Hu.
  pose proof (flat_units_unit _ Hf) as Hun. rewrite Hu in Hun.
  destruct (stringFromRune_all (decodeUnits (units s))) as [H1 H2]; [by apply readAll_range|].
  split; [done|]. rewrite H2. by apply decodeUnits_lossless.
Qed.

(** *** Property keys *)

Lemma bytesUnits_FromUtf16 le b : bytesUnits le (FromUtf16 le b) = b.
Proof.
  induction b as [|c b IH]; [done|]. unfold FromUtf16 in *. cbn. unfold unitBytes at 1.
  destruct le; cbn; rewrite IH; f_equal; rewrite (Z.div_mod c 256) at 3 by lia; lia.
Qed.

Lemma FromUtf16_length le b : length (FromUtf16 le b) = (2 * length b)%nat.
Proof.
  induction b as [|c b IH]; [done|]. unfold FromUtf16 in *. cbn [mbind list_bind].
  rewrite length_app, IH. unfold unitBytes. destruct le; cbn; lia.
Qed.

Lemma AsUtf16_unicode le u : canonUnicode u → AsUtf16 le (FromUtf16 le u) = Some u.
Proof.
  intros (t & -> & _ & Hn). unfold AsUtf16, len. rewrite FromUtf16_length, bytesUnits_FromUtf16.
  destruct t as [|x t]; [by destruct Hn|]. cbn [length].
  replace (Z.of_nat (2 * S (S (length t)))) with (2 * Z.of_nat (S (S (length t)))) by lia.
  rewrite Z.even_mul, (proj2 (Z.ltb_ge _ _)) by lia. done.
Qed.

Lemma AsUtf16_ascii le a : Forall isAsciiByte a → AsUtf16 le a = None.
Proof.
  intros Ha. unfold AsUtf16. destruct (_ || _); [done|].
  destruct a as [|x [|y a]]; [done|done|]. cbn [bytesUnits].
  apply Forall_cons in Ha as [Hx [Hy _]%Forall_cons]. unfold isAsciiByte, BOM in *.
  destruct le; (rewrite (proj2 (Z.eqb_neq _ _)); [done|lia]).
Qed.

Lemma strKey_decode le s :
  wfStr s → stringValueFromRaw le (strKey le s) =
    match devirtualizeString s with inl a => SAscii a | inr u => SUnicode u end.
Proof.
  intros Hs. destruct (devirtualize_spec s Hs) as [Hf _]. unfold stringValueFromRaw, strKey.
  destruct (devirtualizeString s) as [a|u]; [by rewrite AsUtf16_ascii|by rewrite AsUtf16_unicode].
Qed.

Lemma strKey_units le s t : wfStr s → wfStr t → strKey le s = strKey le t ↔ units s = units t.
Proof.
  intros Hs Ht. destruct (devirtualize_spec s Hs) as [Hf Hu], (devirtualize_spec t Ht) as [Hg Hv].
  rewrite <- Hu, <- Hv, flatUnits_inj by done. split; [|unfold strKey; by intros ->].
  intros Hk%(f_equal (stringValueFromRaw le)). rewrite !strKey_decode in Hk by done.
  destruct (devirtualizeString s), (devirtualizeString t); congruence.
Qed.

(** The property key of a string (its unistring.String) converts back to the
    string, and two strings have the same key, hence the same hash, exactly when
    their code units agree: the BOM keeps UTF-16 keys apart from ASCII keys on
    machines of either byte order. *)
Theorem strKey_faithful (le : bool) (s t : Str) :
  wfStr s → wfStr t →
  units (stringValueFromRaw le (strKey le s)) = units s ∧
  (strKey le s = strKey le t ↔ units s = units t) ∧
  (∀ maphash, units s = units t → strHash le maphash s = strHash le maphash t).
Proof.
  intros Hs Ht. split; [|split; [by apply strKey_units|]].
  - rewrite strKey_decode by done. destruct (devirtualize_spec s Hs) as [_ <-].
    by destruct (devirtualizeString s).
  - intros maphash He. unfold strHash. f_equal. by apply strKey_units.
Qed.

(** Flattening a rope, which the engine does lazily and caches in place, is
    not observable: the cached form has the same code units, length, key and
    equality. *)
Theorem flatten_transparent (le : bool) (s other : Str) :
  wfStr s → wfStr other →
  wfStr (flattened s) ∧ units (flattened s) = units s ∧ Length (flattened s) = Length s ∧
  strKey le (flattened s) = strKey le s ∧
  StrictEquals (flattened s) other = StrictEquals s other ∧
  CompareTo (flattened s) other = CompareTo s other.
Proof.
  intros Hs Ho. assert (wfStr (flattened s) ∧ units (flattened s) = units s) as [Hw Hu].
  { destruct s as [a|u|i u sc|l r n|l n]; try done.
    pose proof (flatten_spec _ Hs) as (Hu & Hw & Hr). unfold flattened.
    split; [|exact Hu]. cbn [wfStr]. split; [done|]. split.
    - cbn [flatten]. destruct (writeTo l r emptyBuilder) as [sb|]; [|exact I].
      unfold builderString. by destruct (ascii sb), (uflag sb), (len (ubuf sb) <? 2).
    - pose proof (Length_spec _ Hs) as Hl. cbn [Length] in Hl. by rewrite Hu. }
  split; [done|]. split; [done|]. rewrite !Length_spec, Hu by done. split; [done|].
  split; [by apply strKey_units|].
  split.
  - by rewrite !StrictEquals_spec, Hu by done.
  - destruct (devirtualize_spec _ Hw) as [Hf1 Hd1], (devirtualize_spec _ Hs) as [Hf2 Hd2].
    unfold CompareTo. assert (devirtualizeString (flattened s) = devirtualizeString s) as ->; [|done].
    apply flatUnits_inj; [done..|]. by rewrite Hd1, Hd2.
Qed.

Lemma importString_spec i :
  validUtf8 i → wfStr (importString i) ∧ units (importString i) = runesUnits (rangeRunes i).
Proof.
  intros Hi. unfold importString. destruct (len i <=? 16); [|done]. pose proof Hi as (rs & Hrs & ->).
  destruct (Scan (utf8Encode rs)) as [u|] eqn:E; [done|]. pose proof (Scan_spec rs Hrs) as Hs. rewrite E in Hs.
  cbn. by rewrite rangeRunes_encode.
Qed.

Lemma stringValueFromRaw_spec le s :
  wfStr s → wfStr (stringValueFromRaw le (strKey le s)) ∧ units (stringValueFromRaw le (strKey le s)) = units s.
Proof.
  intros Hs. rewrite strKey_decode by done. destruct (devirtualize_spec s Hs) as [Hf <-].
  by destruct (devirtualizeString s).
Qed.

(** C39: newStringValue decodes a Go string, invalid UTF-8 included, with the size
    of the array computed in a first pass (Scan); StringFromUTF16 keeps the code
    units, lone surrogates included; stringFromRune encodes one rune; ToValue keeps
    a valid Go string, to be decoded when needed; stringValueFromRaw takes a
    property key back to its string, on machines of both byte orders.  Each makes
    a well-formed string with exactly these code units. *)
Theorem constructors_wf (s u i : list Z) (r : Z) (le : bool) (t : Str) :
  Forall isByte s → Forall isUnit u → 0 ≤ r ≤ MaxRune → validUtf8 i → wfStr t →
  (wfStr (newStringValue s) ∧ units (newStringValue s) = runesUnits (rangeRunes s)) ∧
  (wfStr (StringFromUTF16 u) ∧ units (StringFromUTF16 u) = u) ∧
  (wfStr (stringFromRune r) ∧ units (stringFromRune r) = runeUnits r) ∧
  (wfStr (importString i) ∧ units (importString i) = runesUnits (rangeRunes i)) ∧
  (wfStr (stringValueFromRaw le (strKey le t)) ∧ units (stringValueFromRaw le (strKey le t)) = units t).
Proof.
  intros Hs Hu Hr Hi Ht. split; [by apply newStringValue_spec|].
  split; [by apply StringFromUTF16_spec|]. split; [by apply stringFromRune_spec|].
  split; [by apply importString_spec|by apply stringValueFromRaw_spec].
Qed.

(** ** Witnesses *)

(** A rope of an ASCII and a unicode string. *)
Definition exRope : Str := SConcat (SAscii [97; 98]) (SUnicode [BOM; 1046; 0xD800]) 4.
Definition exImported : Str := SImported [0xD0; 0x96] None false.

Lemma exRope_wf : wfStr exRope.
Proof. split; [by apply wf_ascii|]. split; [by apply wf_unicode|done]. Qed.

Lemma exImported_wf : wfStr exImported.
Proof. by apply (wf_imported _ _ _ [1046]). Qed.

Lemma Concat_units_witness : units (Concat exRope exImported) = [97; 98; 1046; 0xD800; 1046].
Proof. apply (Concat_units exRope exImported exRope_wf exImported_wf). Defined.

Lemma equality_order_units_witness :
  StrictEquals exImported (SUnicode [BOM; 1046]) = true ∧ CompareTo exRope exImported = -1.
Proof.
  split.
  - destruct (equality_order_units exImported (SUnicode [BOM; 1046]) exImported_wf) as [-> _]; [by apply wf_unicode|done].
  - by destruct (equality_order_units exRope exImported exRope_wf exImported_wf) as (_ & -> & _).
Defined.


Lemma constructors_wf_witness :
  units (newStringValue [0xD0; 0x96]) = [1046] ∧ units (stringFromRune 0x1F600) = [0xD83D; 0xDE00] ∧
  units (stringValueFromRaw true (strKey true exRope)) = [97; 98; 1046; 0xD800].
Proof.
  assert (Forall isByte [0xD0; 0x96]) as Hs by (by repeat constructor).
  assert (Forall isUnit [0xD800]) as Hu by (by repeat constructor).
  assert (validUtf8 [0xD0; 0x96]) as Hv by (by exists [1046]; repeat constructor).
  assert (0 ≤ 0x1F600 ≤ MaxRune) as Hr by done.
  split; [|split]; apply (constructors_wf [0xD0; 0x96] [0xD800] [0xD0; 0x96] 0x1F600 true exRope Hs Hu Hr Hv exRope_wf).
Defined.

Lemma iterString_units_witness : mbind units (iterString exRope) = [97; 98; 1046; 0xD800].
Proof. apply (iterString_units exRope exRope_wf). Defined.

Lemma strKey_faithful_witness : strKey true exImported = strKey true (SUnicode [BOM; 1046]).
Proof.
  apply (strKey_faithful true exImported (SUnicode [BOM; 1046]) exImported_wf); [by apply wf_unicode|done].
Defined.

Lemma flatten_transparent_witness :
  flattened exRope = SFlattened (SUnicode [BOM; 97; 98; 1046; 0xD800]) 4 ∧
  CompareTo (flattened exRope) exImported = CompareTo exRope exImported.
Proof. split; [done|]. apply (flatten_transparent true exRope exImported exRope_wf exImported_wf). Defined.
End Strings.
