(* ===== verification/StringSearch.v ===== *)
(** * Substring search

    Model of [index] and [lastIndex] of string_ascii.go and string_unicode.go:
    the naive search on code units, the search on the bytes of the UTF-16
    array with its realignment loop, and the choice between them.  The theorems
    show that every routine finds the first (last) occurrence of the code
    units, whatever the representation of the operands and the byte order of
    the machine. *)

From S2P Require Import Prelude Utf Strings.
Import Utf Strings.
Open Scope Z_scope.

Module StringSearch.

Definition utf16IndexNaiveCrossover : Z := 32.

(** ** Occurrences *)

(** [sep] occurs in [s] at [i]. *)
Definition occ (s sep : list Z) (i : nat) : Prop :=
  (i + length sep ≤ length s)%nat ∧ ∀ j, (j < length sep)%nat → s !! (i + j)%nat = sep !! j.

(** A result is the first (last) position of [P], or -1. *)
Definition isFirst (P : nat → Prop) (r : Z) : Prop :=
  (r = -1 ∧ ∀ k, ¬ P k) ∨ (∃ k, r = Z.of_nat k ∧ P k ∧ ∀ k', (k' < k)%nat → ¬ P k').

Definition isLast (P : nat → Prop) (r : Z) : Prop :=
  (r = -1 ∧ ∀ k, ¬ P k) ∨ (∃ k, r = Z.of_nat k ∧ P k ∧ ∀ k', (k < k')%nat → ¬ P k').

(** ** Loops that look for an index *)

(** [for i := i0; i < i0+n; i++ { if p(i) { return i } }; return -1] *)
Fixpoint findFirst (p : nat → bool) (i n : nat) : Z :=
  match n with
  | O => -1
  | S n => if p i then Z.of_nat i else findFirst p (S i) n
  end.

(** [for i := n-1; i >= 0; i-- { if p(i) { return i } }; return -1] *)
Fixpoint findLast (p : nat → bool) (n : nat) : Z :=
  match n with
  | O => -1
  | S n => if p n then Z.of_nat n else findLast p n
  end.

(** The inner loop from [j = lo]: all [s[i+j] == sep[j]]. *)
Definition matchFrom (s sep : list Z) (lo i : nat) : bool :=
  forallb (λ j, bool_decide (s !! (i + j)%nat = sep !! j)) (seq lo (length sep - lo)).

(** The first unit is compared before the inner loop starts. *)
Definition matchAt (s sep : list Z) (i : nat) : bool :=
  bool_decide (s !! i = sep !! 0%nat) && matchFrom s sep 1 i.

(** strings.Index, bytes.Index: the first instance of [sep] in [s], or -1;
    strings.LastIndex, bytes.LastIndex: the last one. *)
Definition goIndex (s sep : list Z) : Z :=
  findFirst (matchFrom s sep 0) 0 (S (length s) - length sep).
Definition goLastIndex (s sep : list Z) : Z :=
  findLast (matchFrom s sep 0) (S (length s) - length sep).

(** ** string_unicode.go *)

Definition utf16IndexNaive (s sep : list Z) : Z :=
  let n := length sep in
  if Nat.eqb n 0 then 0
  else if Nat.ltb (length s) n then -1
  else findFirst (matchAt s sep) 0 (S (length s - n)).

Definition utf16LastIndexNaive (s sep : list Z) : Z :=
  let n := length sep in
  if Nat.eqb n 0 then len s
  else if Nat.ltb (length s) n then -1
  else findLast (matchAt s sep) (S (length s - n)).

Section endianness.
Context (littleEndian : bool).

Definition uint16AsBytes (s : list Z) : list Z :=
  s ≫= λ c, if littleEndian then [c mod 256; c / 256] else [c / 256; c mod 256].

(** The search from [offset]; each misaligned match moves [offset] past it, so
    there are at most [length sb] of them. *)
Fixpoint indexBytesLoop (fuel : nat) (sb sepb : list Z) (offset : nat) : option Z :=
  match fuel with
  | O => None
  | S fuel =>
      let i := goIndex (drop offset sb) sepb in
      if i <? 0 then Some (-1)
      else let pos := (offset + Z.to_nat i)%nat in
           if Nat.even pos then Some (Z.of_nat pos / 2)
           else indexBytesLoop fuel sb sepb (S pos)
  end.

Definition utf16IndexBytes (s sep : list Z) : option Z :=
  if Nat.eqb (length sep) 0 then Some 0
  else if Nat.ltb (length s) (length sep) then Some (-1)
  else let sb := uint16AsBytes s in
       indexBytesLoop (S (length sb)) sb (uint16AsBytes sep) 0.

Fixpoint lastIndexBytesLoop (fuel : nat) (sb sepb : list Z) (stop : nat) : option Z :=
  match fuel with
  | O => None
  | S fuel =>
      if Nat.ltb stop (length sepb) then Some (-1)
      else let i := goLastIndex (take stop sb) sepb in
           if i <? 0 then Some (-1)
           else if Z.even i then Some (i / 2)
           else lastIndexBytesLoop fuel sb sepb (Z.to_nat i + length sepb - 1)
  end.

Definition utf16LastIndexBytes (s sep : list Z) : option Z :=
  if Nat.eqb (length sep) 0 then Some (len s)
  else if Nat.ltb (length s) (length sep) then Some (-1)
  else let sb := uint16AsBytes s in
       lastIndexBytesLoop (S (length sb)) sb (uint16AsBytes sep) (length sb).

Definition utf16Index (s sep : list Z) : option Z :=
  if len s <? utf16IndexNaiveCrossover then Some (utf16IndexNaive s sep) else utf16IndexBytes s sep.

Definition utf16LastIndex (s sep : list Z) : option Z :=
  if len s <? utf16IndexNaiveCrossover then Some (utf16LastIndexNaive s sep) else utf16LastIndexBytes s sep.

(** The methods, on the devirtualized receiver and argument, [start >= 0]. *)
Definition unicodeIndex (u : list Z) (substr : Str) (start : nat) : option Z :=
  if len u - 1 <? Z.of_nat start then Some (-1)
  else let ss := flatUnits (devirtualizeString substr) in
       idx ← utf16Index (drop (1 + start) u) ss;
       Some (if idx =? -1 then -1 else idx + Z.of_nat start).

Definition unicodeLastIndex (u : list Z) (substr : Str) (start : nat) : option Z :=
  let ss := flatUnits (devirtualizeString substr) in
  utf16LastIndex (tail (take (Nat.min (start + 1 + length ss) (length u)) u)) ss.
End endianness.

(** ** string_ascii.go *)

Definition asciiIndex (s : list Z) (substr : Str) (start : nat) : Z :=
  match devirtualizeString substr with
  | inl a =>
      if len s <? Z.of_nat start then -1
      else let p := goIndex (drop start s) a in
           if 0 <=? p then p + Z.of_nat start else -1
  | inr _ => -1
  end.

Definition asciiLastIndex (s : list Z) (substr : Str) (pos : nat) : Z :=
  match devirtualizeString substr with
  | inl a =>
      let stop := (pos + length a)%nat in
      goLastIndex (if Nat.ltb (length s) stop then s else take stop s) a
  | inr _ => -1
  end.

(** The dispatch of importedString and concatString to the flat form. *)
Definition index (le : bool) (s substr : Str) (start : nat) : option Z :=
  match devirtualizeString s with
  | inl a => Some (asciiIndex a substr start)
  | inr u => unicodeIndex le u substr start
  end.

Definition lastIndex (le : bool) (s substr : Str) (pos : nat) : option Z :=
  match devirtualizeString s with
  | inl a => Some (asciiLastIndex a substr pos)
  | inr u => unicodeLastIndex le u substr pos
  end.

(** ** Lemmas *)

Lemma isFirst_ext (P Q : nat → Prop) r : (∀ k, P k ↔ Q k) → isFirst P r → isFirst Q r.
Proof.
  intros He [[-> Hn]|(k & -> & Hk & Hn)].
  - left. split; [done|]. intros k. by rewrite <- He.
  - right. exists k. split; [done|]. split; [by apply He|]. intros k' Hk'. rewrite <- He. by apply Hn.
Qed.

Lemma isLast_ext (P Q : nat → Prop) r : (∀ k, P k ↔ Q k) → isLast P r → isLast Q r.
Proof.
  intros He [[-> Hn]|(k & -> & Hk & Hn)].
  - left. split; [done|]. intros k. by rewrite <- He.
  - right. exists k. split; [done|]. split; [by apply He|]. intros k' Hk'. rewrite <- He. by apply Hn.
Qed.

Lemma isFirst_unique P r r' : isFirst P r → isFirst P r' → r = r'.
Proof.
  intros [[-> H1]|(k & -> & H1 & H2)] [[-> H3]|(k' & -> & H3 & H4)]; try done; [naive_solver..|].
  destruct (Nat.lt_trichotomy k k') as [H|[->|H]]; [by destruct (H4 k)|done|by destruct (H2 k')].
Qed.

Lemma isLast_unique P r r' : isLast P r → isLast P r' → r = r'.
Proof.
  intros [[-> H1]|(k & -> & H1 & H2)] [[-> H3]|(k' & -> & H3 & H4)]; try done; [naive_solver..|].
  destruct (Nat.lt_trichotomy k k') as [H|[->|H]]; [by destruct (H2 k')|done|by destruct (H4 k)].
Qed.

Lemma findFirst_spec p i n : isFirst (λ k, (i ≤ k < i + n)%nat ∧ p k = true) (findFirst p i n).
Proof.
  revert i. induction n as [|n IH]; intros i; cbn; [left; split; [done|]; lia|].
  destruct (p i) eqn:E.
  - right. exists i. split; [done|]. split; [split; [lia|done]|]. lia.
  - eapply isFirst_ext; [|apply IH]. intros k. cbn. split; intros [Hk Hp]; (split; [|done]); [lia|].
    assert (k ≠ i) by congruence. lia.
Qed.

Lemma findLast_spec p n : isLast (λ k, (k < n)%nat ∧ p k = true) (findLast p n).
Proof.
  induction n as [|n IH]; cbn; [left; split; [done|]; lia|].
  destruct (p n) eqn:E.
  - right. exists n. split; [done|]. split; [split; [lia|done]|]. lia.
  - eapply isLast_ext; [|apply IH]. intros k. cbn. split; intros [Hk Hp]; (split; [|done]); [lia|].
    assert (k ≠ n) by congruence. lia.
Qed.

Lemma matchFrom_spec s sep lo i :
  matchFrom s sep lo i = true ↔ ∀ j, (lo ≤ j < length sep)%nat → s !! (i + j)%nat = sep !! j.
Proof.
  unfold matchFrom. rewrite forallb_forall. split.
  - intros H j Hj. specialize (H j). rewrite bool_decide_eq_true in H. apply H, in_seq. lia.
  - intros H j Hj%in_seq. apply bool_decide_eq_true, H. lia.
Qed.

Lemma matchAt_spec s sep i : sep ≠ [] → matchAt s sep i = matchFrom s sep 0 i.
Proof.
  intros Hs. destruct sep as [|x sep]; [done|]. unfold matchAt, matchFrom. cbn.
  by rewrite Nat.add_0_r, Nat.sub_0_r.
Qed.

Lemma occ_match s sep i :
  occ s sep i ↔ (i < S (length s) - length sep)%nat ∧ matchFrom s sep 0 i = true.
Proof.
  unfold occ. rewrite matchFrom_spec. split; intros [H1 H2]; (split; [lia|]); intros; apply H2; lia.
Qed.

Lemma goIndex_spec s sep : isFirst (occ s sep) (goIndex s sep).
Proof.
  eapply isFirst_ext; [|apply findFirst_spec]. intros k. cbn. rewrite occ_match. intuition lia.
Qed.

Lemma goLastIndex_spec s sep : isLast (occ s sep) (goLastIndex s sep).
Proof. eapply isLast_ext; [|apply findLast_spec]. intros k. cbn. by rewrite occ_match. Qed.

Lemma occ_nil s i : occ s [] i ↔ (i ≤ length s)%nat.
Proof. unfold occ. cbn. split; [lia|]. intros. split; lia. Qed.

Lemma isFirst_nil s : isFirst (occ s []) 0.
Proof. right. exists 0%nat. split; [done|]. rewrite occ_nil. split; lia. Qed.

Lemma isLast_nil s : isLast (occ s []) (len s).
Proof.
  right. exists (length s). split; [done|]. rewrite occ_nil. split; [lia|].
  intros k' Hk'. rewrite occ_nil. lia.
Qed.

Lemma occ_short s sep : (length s < length sep)%nat → ∀ k, ¬ occ s sep k.
Proof. intros H k [Hk _]. lia. Qed.

Lemma utf16IndexNaive_spec s sep : isFirst (occ s sep) (utf16IndexNaive s sep).
Proof.
  unfold utf16IndexNaive. destruct (Nat.eqb_spec (length sep) 0) as [E|E].
  { apply nil_length_inv in E as ->. apply isFirst_nil. }
  destruct (Nat.ltb_spec (length s) (length sep)) as [E2|E2]; [left; split; [done|by apply occ_short]|].
  eapply isFirst_ext; [|apply findFirst_spec]. intros k. cbn beta.
  rewrite occ_match, matchAt_spec by (by intros ->). intuition lia.
Qed.

Lemma utf16LastIndexNaive_spec s sep : isLast (occ s sep) (utf16LastIndexNaive s sep).
Proof.
  unfold utf16LastIndexNaive. destruct (Nat.eqb_spec (length sep) 0) as [E|E].
  { apply nil_length_inv in E as ->. apply isLast_nil. }
  destruct (Nat.ltb_spec (length s) (length sep)) as [E2|E2]; [left; split; [done|by apply occ_short]|].
  eapply isLast_ext; [|apply findLast_spec]. intros k. cbn beta.
  rewrite occ_match, matchAt_spec by (by intros ->). intuition lia.
Qed.

(** *** Bytes and code units *)

Lemma uint16AsBytes_length le s : length (uint16AsBytes le s) = (2 * length s)%nat.
Proof. unfold uint16AsBytes. induction s as [|c s IH]; [done|]. cbn in *. destruct le; cbn in *; lia. Qed.

Lemma uint16AsBytes_lookup le s i :
  uint16AsBytes le s !! (2 * i)%nat = (λ c, if le then c mod 256 else c / 256) <$> s !! i ∧
  uint16AsBytes le s !! (2 * i + 1)%nat = (λ c, if le then c / 256 else c mod 256) <$> s !! i.
Proof.
  revert i. induction s as [|c s IH]; intros i; [done|].
  destruct i as [|i]; [by destruct le|]. destruct (IH i) as [H1 H2].
  unfold uint16AsBytes in *. cbn [mbind list_bind]. rewrite lookup_cons_ne_0 by done. cbn [pred].
  rewrite <- H1, <- H2.
  replace (2 * S i)%nat with (S (S (2 * i))) by lia.
  replace (S (S (2 * i)) + 1)%nat with (S (S (2 * i + 1))) by lia. by destruct le.
Qed.

Lemma occ_bytes le s sep i :
  occ (uint16AsBytes le s) (uint16AsBytes le sep) (2 * i) ↔ occ s sep i.
Proof.
  unfold occ. rewrite !uint16AsBytes_length. split; intros [H1 H2]; (split; [lia|]).
  - intros j Hj. pose proof (H2 (2 * j)%nat ltac:(lia)) as Ha. pose proof (H2 (2 * j + 1)%nat ltac:(lia)) as Hb.
    rewrite Nat.add_assoc in Hb. rewrite <- Nat.mul_add_distr_l in Ha, Hb.
    rewrite !(proj1 (uint16AsBytes_lookup _ _ _)) in Ha. rewrite !(proj2 (uint16AsBytes_lookup _ _ _)) in Hb.
    destruct (lookup_lt_is_Some_2 s (i + j)) as [x Hx]; [lia|].
    destruct (lookup_lt_is_Some_2 sep j) as [y Hy]; [lia|].
    rewrite Hx, Hy in *. cbn in Ha, Hb. f_equal.
    rewrite (Z.div_mod x 256), (Z.div_mod y 256) by lia. destruct le; congruence.
  - intros j Hj. destruct (Nat.Even_or_Odd j) as [[m ->]|[m ->]].
    + rewrite <- Nat.mul_add_distr_l, !(proj1 (uint16AsBytes_lookup _ _ _)). rewrite H2 by lia. done.
    + rewrite Nat.add_assoc, <- Nat.mul_add_distr_l, !(proj2 (uint16AsBytes_lookup _ _ _)).
      rewrite H2 by lia. done.
Qed.

Lemma occ_drop s sep o k : sep ≠ [] → occ (drop o s) sep k ↔ occ s sep (o + k).
Proof.
  intros Hs. assert (0 < length sep)%nat by (destruct sep; cbn; [done|lia]).
  unfold occ. rewrite length_drop. setoid_rewrite lookup_drop. setoid_rewrite Nat.add_assoc.
  split; intros [H1 H2]; (split; [lia|done]).
Qed.

Lemma occ_take s sep n k : occ (take n s) sep k ↔ (k + length sep ≤ n)%nat ∧ occ s sep k.
Proof.
  unfold occ. rewrite length_take. split.
  - intros [H1 H2]. split; [lia|]. split; [lia|]. intros j Hj. rewrite <- H2 by done.
    by rewrite lookup_take_lt by lia.
  - intros (H0 & H1 & H2). split; [lia|]. intros j Hj. rewrite <- H2 by done.
    by rewrite lookup_take_lt by lia.
Qed.

(** *** The byte searches *)

Lemma indexBytesLoop_spec fuel sb sepb offset :
  sepb ≠ [] → (length sb - offset < fuel)%nat →
  (∀ i, occ sb sepb (2 * i) → (offset ≤ 2 * i)%nat) →
  ∃ r, indexBytesLoop fuel sb sepb offset = Some r ∧ isFirst (λ i, occ sb sepb (2 * i)) r.
Proof.
  intros Hs. revert offset. induction fuel as [|fuel IH]; intros offset Hf Hinv; [lia|]. cbn [indexBytesLoop].
  assert (0 < length sepb)%nat as Hlen by (destruct sepb; cbn; [done|lia]).
  destruct (goIndex_spec (drop offset sb) sepb) as [[-> Hn]|(k & -> & Hk & Hn)].
  - eexists. split; [done|]. left. split; [done|]. intros i Hi. specialize (Hinv i Hi).
    apply (Hn (2 * i - offset)%nat). rewrite occ_drop by done. by replace (offset + _)%nat with (2 * i)%nat by lia.
  - rewrite (proj2 (Z.ltb_ge _ _)), Nat2Z.id by lia. rewrite occ_drop in Hk by done.
    set (pos := (offset + k)%nat) in *.
    assert (∀ i, occ sb sepb (2 * i) → (pos ≤ 2 * i)%nat) as Hpos.
    { intros i Hi. specialize (Hinv i Hi). destruct (le_lt_dec pos (2 * i)) as [|Hlt]; [done|exfalso].
      apply (Hn (2 * i - offset)%nat); [lia|]. rewrite occ_drop by done.
      by replace (offset + _)%nat with (2 * i)%nat by lia. }
    destruct (Nat.even pos) eqn:Ee.
    + apply Nat.even_spec in Ee as [m Hm]. eexists. split; [done|]. right. exists m. rewrite Hm in *.
      split; [rewrite Nat2Z.inj_mul, Z.mul_comm, Z.div_mul; lia|]. split; [done|].
      intros k' Hk' Ho. specialize (Hpos k' Ho). lia.
    + assert (Nat.Odd pos) as [m Hm] by (apply Nat.odd_spec; unfold Nat.odd; by rewrite Ee).
      apply IH; [destruct Hk; lia|]. intros i Hi. specialize (Hpos i Hi). lia.
Qed.

Lemma lastIndexBytesLoop_spec fuel sb sepb stop :
  sepb ≠ [] → (stop < fuel)%nat →
  (∀ i, occ sb sepb (2 * i) → (2 * i + length sepb ≤ stop)%nat) →
  ∃ r, lastIndexBytesLoop fuel sb sepb stop = Some r ∧ isLast (λ i, occ sb sepb (2 * i)) r.
Proof.
  intros Hs. revert stop. induction fuel as [|fuel IH]; intros stop Hf Hinv; [lia|]. cbn [lastIndexBytesLoop].
  assert (0 < length sepb)%nat as Hlen by (destruct sepb; cbn; [done|lia]).
  destruct (Nat.ltb_spec stop (length sepb)) as [E|E].
  { eexists. split; [done|]. left. split; [done|]. intros i Hi. specialize (Hinv i Hi). lia. }
  destruct (goLastIndex_spec (take stop sb) sepb) as [[-> Hn]|(k & -> & Hk & Hn)].
  - eexists. split; [done|]. left. split; [done|]. intros i Hi. specialize (Hinv i Hi).
    apply (Hn (2 * i)%nat). by rewrite occ_take.
  - rewrite (proj2 (Z.ltb_ge _ _)), Nat2Z.id by lia. rewrite occ_take in Hk. destruct Hk as [Hks Hk].
    assert (∀ i, occ sb sepb (2 * i) → (2 * i ≤ k)%nat) as Hpos.
    { intros i Hi. specialize (Hinv i Hi). destruct (le_lt_dec (2 * i) k) as [|Hlt]; [done|exfalso].
      apply (Hn (2 * i)%nat); [lia|]. by rewrite occ_take. }
    destruct (Z.even (Z.of_nat k)) eqn:Ee.
    + apply Z.even_spec in Ee as [m Hm]. eexists. split; [done|]. right. exists (Z.to_nat m).
      assert (k = 2 * Z.to_nat m)%nat as Hkm by lia. rewrite Hm, Z.mul_comm, Z.div_mul by lia.
      split; [lia|]. rewrite <- Hkm. split; [done|]. intros k' Hk' Ho. specialize (Hpos k' Ho). lia.
    + assert (Z.Odd (Z.of_nat k)) as [m Hm] by (apply Z.odd_spec; by rewrite <- Z.negb_even, Ee).
      apply IH; [lia|]. intros i Hi. specialize (Hpos i Hi). lia.
Qed.

Lemma uint16AsBytes_nonnil le s : s ≠ [] → uint16AsBytes le s ≠ [].
Proof. intros Hs H%(f_equal length). rewrite uint16AsBytes_length in H. destruct s; cbn in *; [done|lia]. Qed.

Lemma utf16IndexBytes_spec le s sep :
  ∃ r, utf16IndexBytes le s sep = Some r ∧ isFirst (occ s sep) r.
Proof.
  unfold utf16IndexBytes. destruct (Nat.eqb_spec (length sep) 0) as [E|E].
  { apply nil_length_inv in E as ->. eexists. split; [done|]. apply isFirst_nil. }
  destruct (Nat.ltb_spec (length s) (length sep)) as [E2|E2].
  { eexists. split; [done|]. left. split; [done|by apply occ_short]. }
  edestruct indexBytesLoop_spec as (r & -> & Hr);
    [apply (uint16AsBytes_nonnil le sep); by intros ->|apply Nat.lt_succ_r, Nat.le_sub_l|lia|].
  exists r. split; [done|]. eapply isFirst_ext; [|done]. intros k. apply occ_bytes.
Qed.

Lemma utf16LastIndexBytes_spec le s sep :
  ∃ r, utf16LastIndexBytes le s sep = Some r ∧ isLast (occ s sep) r.
Proof.
  unfold utf16LastIndexBytes. destruct (Nat.eqb_spec (length sep) 0) as [E|E].
  { apply nil_length_inv in E as ->. eexists. split; [done|]. apply isLast_nil. }
  destruct (Nat.ltb_spec (length s) (length sep)) as [E2|E2].
  { eexists. split; [done|]. left. split; [done|by apply occ_short]. }
  edestruct (lastIndexBytesLoop_spec (S (length (uint16AsBytes le s)))) as (r & -> & Hr);
    [apply (uint16AsBytes_nonnil le sep); by intros ->|apply Nat.lt_succ_diag_r|by intros i [Hi _]|].
  exists r. split; [done|]. eapply isLast_ext; [|done]. intros k. apply occ_bytes.
Qed.

(** C32: searching for code units in the bytes of a UTF-16 array terminates and
    finds the same position as the naive search, for both byte orders and in
    both directions: the realignment after a match at an odd byte offset loses
    no aligned match. *)
Theorem utf16_byte_search_naive (le : bool) (s sep : list Z) :
  utf16IndexBytes le s sep = Some (utf16IndexNaive s sep) ∧
  utf16LastIndexBytes le s sep = Some (utf16LastIndexNaive s sep).
Proof.
  destruct (utf16IndexBytes_spec le s sep) as (r & -> & Hr), (utf16LastIndexBytes_spec le s sep) as (q & -> & Hq).
  split; f_equal; [eapply isFirst_unique|eapply isLast_unique]; [done|apply utf16IndexNaive_spec|done|].
  apply utf16LastIndexNaive_spec.
Qed.

(** *** index and lastIndex *)

Lemma utf16Index_spec le s sep : ∃ r, utf16Index le s sep = Some r ∧ isFirst (occ s sep) r.
Proof.
  unfold utf16Index. case_match; [|apply utf16IndexBytes_spec]. eexists. split; [done|].
  apply utf16IndexNaive_spec.
Qed.

Lemma utf16LastIndex_spec le s sep : ∃ r, utf16LastIndex le s sep = Some r ∧ isLast (occ s sep) r.
Proof.
  unfold utf16LastIndex. case_match; [|apply utf16LastIndexBytes_spec]. eexists. split; [done|].
  apply utf16LastIndexNaive_spec.
Qed.

(** A search in the rest of a string. *)
Lemma isFirst_drop s sep (start : nat) r :
  (start ≤ length s)%nat → isFirst (occ (drop start s) sep) r →
  isFirst (λ k, (start ≤ k)%nat ∧ occ s sep k) (if r =? -1 then -1 else r + Z.of_nat start).
Proof.
  intros Hst Hr.
  assert (∀ k, occ (drop start s) sep k ↔ occ s sep (start + k)) as Ho.
  { intros k. destruct sep as [|x sep]; [rewrite !occ_nil, length_drop; lia|by apply occ_drop]. }
  destruct Hr as [[-> Hn]|(k & -> & Hk & Hn)].
  - left. split; [done|]. intros k [H1 H2]. apply (Hn (k - start)%nat), Ho.
    by replace (start + _)%nat with k by lia.
  - zcmp. right. exists (start + k)%nat. split; [lia|].
    split; [split; [lia|by apply Ho]|]. intros k' Hk' [H1 H2]. apply (Hn (k' - start)%nat); [lia|].
    apply Ho. by replace (start + _)%nat with k' by lia.
Qed.

(** A search in a prefix of a string. *)
Lemma isLast_take s sep (pos n : nat) r :
  (n = Nat.min (pos + length sep) (length s))%nat → isLast (occ (take n s) sep) r →
  isLast (λ k, (k ≤ pos)%nat ∧ occ s sep k) r.
Proof.
  intros -> Hr. eapply isLast_ext; [|done]. intros k. rewrite occ_take.
  split; intros [H1 H2]; (split; [|done]); destruct H2; lia.
Qed.

(** Non-ASCII code units do not occur in an ASCII string. *)
Lemma occ_ascii_unicode a t k : Forall isAsciiByte a → ¬ Forall isAsciiByte t → ¬ occ a t k.
Proof.
  intros Ha Ht [_ Ho]. apply Ht. rewrite Forall_lookup in Ha |- *. intros i x Hx.
  apply (Ha (k + i)%nat). rewrite Ho; [done|]. by eapply lookup_lt_Some.
Qed.

Lemma take_cons_tail x (t : list Z) n : tail (take (S n) (x :: t)) = take n t.
Proof. done. Qed.

(** [index] always returns, and its result is the first position from
    [start] on at which the code units of the argument occur, or -1, for all
    representations of the receiver and the argument. *)
Theorem index_first (le : bool) (s substr : Str) (start : nat) :
  wfStr s → wfStr substr →
  ∃ r, index le s substr start = Some r ∧
       isFirst (λ k, (start ≤ k)%nat ∧ occ (units s) (units substr) k) r.
Proof.
  intros Hs Hsub. destruct (devirtualize_spec s Hs) as [Hf <-].
  destruct (devirtualize_spec substr Hsub) as [Hg <-]. unfold index, asciiIndex, unicodeIndex.
  destruct (devirtualizeString s) as [a|u]; cbn [flatUnits wfFlat] in *.
  - destruct (devirtualizeString substr) as [b|v]; cbn [flatUnits wfFlat] in *.
    + destruct (len a <? Z.of_nat start) eqn:E; unfold len in E; zbool; (eexists; split; [done|]).
      * left. split; [done|]. intros k [H1 [H2 _]]. lia.
      * pose proof (isFirst_drop a b start _ ltac:(lia) (goIndex_spec (drop start a) b)) as Hr.
        pose proof (goIndex_spec (drop start a) b) as [[Hm _]|(k & Hm & _)]; rewrite Hm in *; [done|].
        zcmp. by rewrite (proj2 (Z.eqb_neq _ _)) in Hr by lia.
    + destruct Hg as (t & -> & _ & Hn). cbn. eexists. split; [done|]. left. split; [done|].
      intros k [_ Ho]. by eapply occ_ascii_unicode.
  - destruct Hf as (t & -> & _ & _). cbn [tail]. unfold len. cbn [length].
    destruct (_ <? Z.of_nat start) eqn:E; zbool.
    + eexists. split; [done|]. left. split; [done|]. intros k [H1 [H2 _]]. lia.
    + change (drop (1 + start) (BOM :: t)) with (drop start t).
      destruct (utf16Index_spec le (drop start t) (flatUnits (devirtualizeString substr))) as (r & -> & Hr).
      cbn. eexists. split; [done|]. apply isFirst_drop; [lia|done].
Qed.

(** [lastIndex] always returns, and its result is the last position up to
    [pos] at which the code units of the argument occur, or -1. *)
Theorem lastIndex_last (le : bool) (s substr : Str) (pos : nat) :
  wfStr s → wfStr substr →
  ∃ r, lastIndex le s substr pos = Some r ∧
       isLast (λ k, (k ≤ pos)%nat ∧ occ (units s) (units substr) k) r.
Proof.
  intros Hs Hsub. destruct (devirtualize_spec s Hs) as [Hf <-].
  destruct (devirtualize_spec substr Hsub) as [Hg <-]. unfold lastIndex, asciiLastIndex, unicodeLastIndex.
  destruct (devirtualizeString s) as [a|u]; cbn [flatUnits wfFlat] in *.
  - destruct (devirtualizeString substr) as [b|v]; cbn [flatUnits wfFlat] in *.
    + eexists. split; [done|]. eapply (isLast_take a b pos _ _ eq_refl).
      destruct (Nat.ltb_spec (length a) (pos + length b)).
      * rewrite take_ge by lia. apply goLastIndex_spec.
      * rewrite Nat.min_l by lia. apply goLastIndex_spec.
    + destruct Hg as (t & -> & _ & Hn). cbn. eexists. split; [done|]. left. split; [done|].
      intros k [_ Ho]. by eapply occ_ascii_unicode.
  - destruct Hf as (t & -> & _ & _). set (ss := flatUnits (devirtualizeString substr)).
    assert (Nat.min (pos + 1 + length ss) (length (BOM :: t)) = S (Nat.min (pos + length ss) (length t)))
      as -> by (cbn [length]; lia).
    rewrite take_cons_tail. destruct (utf16LastIndex_spec le (take (Nat.min (pos + length ss) (length t)) t) ss)
      as (r & -> & Hr). eexists. split; [done|]. by eapply isLast_take.
Qed.

Lemma index_first_witness :
  ∃ r, index true exRope exImported 1 = Some r ∧
       isFirst (λ k, (1 ≤ k)%nat ∧ occ (units exRope) (units exImported) k) r.
Proof. apply (index_first true exRope exImported 1 exRope_wf exImported_wf). Defined.

Lemma lastIndex_last_witness :
  ∃ r, lastIndex false exRope exImported 9 = Some r ∧
       isLast (λ k, (k ≤ 9)%nat ∧ occ (units exRope) (units exImported) k) r.
Proof. apply (lastIndex_last false exRope exImported 9 exRope_wf exImported_wf). Defined.
End StringSearch.
