(* ===== verification/Float64.v ===== *)
(** * IEEE 754 binary64

    Go's [float64] and what the engine uses of package math: every operation is
    the exact result rounded to nearest, ties to even.  A finite float is
    [± m * 2^e]; in units of 2^-1074, the least positive float, every finite
    float is an integer ([fval]), which makes comparison, truncation and
    remainder integer arithmetic. *)

From S2P Require Import Prelude.
Open Scope Z_scope.

Module Float64.

(** [Fin s m e] is [m * 2^e], negative if [s]; all NaNs are one value. *)
Inductive float64 := NaN | Inf (s : bool) | Fin (s : bool) (m e : Z).

#[global] Instance float64_eq_dec : EqDecision float64.
Proof. solve_decision. Defined.

Definition minExp : Z := -1074.
Definition maxExp : Z := 971.

(** The representable values: 53 bits, normalised unless subnormal. *)
Definition validF (f : float64) : Prop :=
  match f with
  | NaN | Inf _ => True
  | Fin _ m e => 0 ≤ m < 2 ^ 53 ∧ minExp ≤ e ≤ maxExp ∧ (2 ^ 52 ≤ m ∨ e = minExp)
  end.

#[global] Instance validF_dec f : Decision (validF f).
Proof. destruct f; cbn; apply _. Defined.

Definition zeroF (s : bool) : float64 := Fin s 0 minExp.

(** [m / d] to the nearest integer, ties to even. *)
Definition rne (m d : Z) : Z :=
  let q := m / d in
  match 2 * (m mod d) ?= d with
  | Lt => q
  | Gt => q + 1
  | Eq => if Z.even q then q else q + 1
  end.

(** [m * 2^e] rounded, [0 <= m]. *)
Definition roundF (s : bool) (m e : Z) : float64 :=
  if m =? 0 then zeroF s
  else
    let e' := Z.max (e + Z.log2 m - 52) minExp in
    let q := if e' <=? e then m * 2 ^ (e - e') else rne m (2 ^ (e' - e)) in
    let '(q, e') := if q =? 2 ^ 53 then (2 ^ 52, e' + 1) else (q, e') in
    if maxExp <? e' then Inf s else Fin s q e'.

(** float64(i) *)
Definition ofZ (i : Z) : float64 := roundF (i <? 0) (Z.abs i) 0.

(** A finite float in units of 2^-1074. *)
Definition magnitude (m e : Z) : Z := m * 2 ^ (e - minExp).
Definition fval (s : bool) (m e : Z) : Z := if s then - magnitude m e else magnitude m e.

Definition one : Z := 2 ^ 1074.

Definition isNaN (f : float64) : bool := match f with NaN => true | _ => false end.
Definition isInf (f : float64) : bool := match f with Inf _ => true | _ => false end.
Definition Signbit (f : float64) : bool := match f with NaN => false | Inf s | Fin s _ _ => s end.

(** The operators ==, < and <=. *)
Definition feq (f g : float64) : bool :=
  match f, g with
  | Inf s, Inf s' => eqb s s'
  | Fin s m e, Fin s' m' e' => fval s m e =? fval s' m' e'
  | _, _ => false
  end.

Definition flt (f g : float64) : bool :=
  match f, g with
  | NaN, _ | _, NaN => false
  | Inf s, Inf s' => s && negb s'
  | Inf s, Fin _ _ _ => s
  | Fin _ _ _, Inf s' => negb s'
  | Fin s m e, Fin s' m' e' => fval s m e <? fval s' m' e'
  end.

Definition fle (f g : float64) : bool := flt f g || feq f g.

Definition fneg (f : float64) : float64 :=
  match f with NaN => NaN | Inf s => Inf (negb s) | Fin s m e => Fin (negb s) m e end.

Definition fabs (f : float64) : float64 :=
  match f with NaN => NaN | Inf _ => Inf false | Fin _ m e => Fin false m e end.

(** A value in units of 2^-1074 as a float; an exact zero has the sign [s0]. *)
Definition ofVal (s0 : bool) (v : Z) : float64 :=
  if v =? 0 then zeroF s0 else roundF (v <? 0) (Z.abs v) minExp.

Definition fadd (f g : float64) : float64 :=
  match f, g with
  | NaN, _ | _, NaN => NaN
  | Inf s, Inf s' => if eqb s s' then Inf s else NaN
  | Inf s, _ | _, Inf s => Inf s
  | Fin s m e, Fin s' m' e' => ofVal (s && s') (fval s m e + fval s' m' e')
  end.

Definition fsub (f g : float64) : float64 := fadd f (fneg g).

Definition fmul (f g : float64) : float64 :=
  match f, g with
  | NaN, _ | _, NaN => NaN
  | Inf s, Inf s' => Inf (xorb s s')
  | Inf s, Fin s' m _ | Fin s' m _, Inf s => if m =? 0 then NaN else Inf (xorb s s')
  | Fin s m e, Fin s' m' e' => roundF (xorb s s') (m * m') (e + e')
  end.

(** The quotient to 67 bits or more and a sticky bit determine the rounding. *)
Definition fdiv (f g : float64) : float64 :=
  match f, g with
  | NaN, _ | _, NaN => NaN
  | Inf _, Inf _ => NaN
  | Inf s, Fin s' _ _ => Inf (xorb s s')
  | Fin s _ _, Inf s' => zeroF (xorb s s')
  | Fin s m e, Fin s' m' e' =>
      if m' =? 0 then if m =? 0 then NaN else Inf (xorb s s')
      else let n := m * 2 ^ 120 in
           roundF (xorb s s') (2 * (n / m') + (if n mod m' =? 0 then 0 else 1)) (e - e' - 121)
  end.

(** math.Mod: the exact remainder, with the sign of the dividend. *)
Definition fmod (f g : float64) : float64 :=
  match f, g with
  | NaN, _ | _, NaN | Inf _, _ => NaN
  | Fin _ _ _, Inf _ => f
  | Fin s m e, Fin s' m' e' =>
      if m' =? 0 then NaN else ofVal s (Z.rem (fval s m e) (fval s' m' e'))
  end.

(** The integer part of a finite float; whether it is an integer. *)
Definition truncZ (s : bool) (m e : Z) : Z := Z.quot (fval s m e) one.
Definition isIntegral (m e : Z) : bool := magnitude m e mod one =? 0.

(** math.Trunc and math.Floor *)
Definition Trunc (f : float64) : float64 :=
  match f with Fin s m e => roundF s (Z.abs (truncZ s m e)) 0 | _ => f end.

Definition Floor (f : float64) : float64 :=
  match f with
  | Fin s m e => let z := fval s m e / one in
                 if z =? 0 then zeroF s else ofZ z
  | _ => f
  end.

(** math.Float64bits *)
Definition Float64bits (f : float64) : Z :=
  match f with
  | NaN => 0x7FF8000000000001
  | Inf s => (if s then 2 ^ 63 else 0) + 0x7FF * 2 ^ 52
  | Fin s m e =>
      (if s then 2 ^ 63 else 0) +
      (if m <? 2 ^ 52 then m else (e + 1075) * 2 ^ 52 + (m - 2 ^ 52))
  end.

(** ** Rounding *)

Lemma rne_cases m d : 0 < d → rne m d = m / d ∨ rne m d = m / d + 1.
Proof. intros _. unfold rne. destruct (_ ?= _); [destruct (Z.even _)| |]; auto. Qed.

(** [rne] is nearest: the error is at most half of [d]. *)
Lemma rne_nearest m d : 0 < d → 2 * Z.abs (rne m d * d - m) ≤ d.
Proof.
  intros Hd. unfold rne. pose proof (Z.div_mod m d ltac:(lia)) as Hm.
  pose proof (Z.mod_pos_bound m d Hd).
  destruct (Z.compare_spec (2 * (m mod d)) d) as [E|E|E]; [destruct (Z.even (m / d))| |]; lia.
Qed.

Lemma rne_mult q d : 0 < d → rne (q * d) d = q.
Proof.
  intros Hd. unfold rne. rewrite Z.div_mul, Z.mod_mul by lia.
  destruct (Z.compare_spec (2 * 0) d); lia.
Qed.

Lemma rne_scale m d k : 0 < d → 0 < k → rne (m * k) (d * k) = rne m d.
Proof.
  intros Hd Hk. unfold rne. rewrite Z.div_mul_cancel_r, Z.mul_mod_distr_r by lia.
  replace (2 * (m mod d * k)) with ((2 * (m mod d)) * k) by lia.
  by rewrite <- Zmult_compare_compat_r by lia.
Qed.

Lemma log2_bounds m : 0 < m → 2 ^ Z.log2 m ≤ m < 2 * 2 ^ Z.log2 m.
Proof.
  intros Hm. pose proof (Z.log2_spec m Hm) as H. rewrite Z.pow_succ_r in H by apply Z.log2_nonneg. done.
Qed.

Lemma pow2_split a b : 0 ≤ a → 0 ≤ b → 2 ^ (a + b) = 2 ^ a * 2 ^ b.
Proof. intros. by apply Z.pow_add_r. Qed.

(** The mantissa before a carry is at most 53 bits and normalised or subnormal. *)
Lemma round_mantissa m e e' :
  0 < m → e' = Z.max (e + Z.log2 m - 52) minExp →
  let q := if e' <=? e then m * 2 ^ (e - e') else rne m (2 ^ (e' - e)) in
  0 ≤ q ≤ 2 ^ 53 ∧ (2 ^ 52 ≤ q ∨ e' = minExp).
Proof.
  intros Hm He'. cbn zeta. pose proof (log2_bounds m Hm) as [Hlo Hhi]. pose proof (Z.log2_nonneg m) as Hl.
  set (l := Z.log2 m) in *. change (2 ^ 53) with (2 * 2 ^ 52). destruct (Z.leb_spec e' e) as [E|E].
  - assert (2 ^ l * 2 ^ (e - e') ≤ 2 ^ 52) as Hu.
    { rewrite <- pow2_split by lia. apply Z.pow_le_mono_r; lia. }
    assert (0 < 2 ^ (e - e')) by (apply Z.pow_pos_nonneg; lia).
    split; [nia|]. destruct (Z.eq_dec e' minExp) as [|Hne]; [by right|left].
    assert (2 ^ 52 = 2 ^ l * 2 ^ (e - e')) as Heq by (rewrite <- pow2_split by lia; f_equal; lia).
    rewrite Heq at 1. nia.
  - set (d := 2 ^ (e' - e)). assert (0 < d) as Hd by (apply Z.pow_pos_nonneg; lia).
    assert (2 ^ l ≤ 2 ^ 52 * d) as Hu.
    { unfold d. rewrite <- pow2_split by lia. apply Z.pow_le_mono_r; lia. }
    pose proof (rne_cases m d Hd) as Hr. pose proof (Z.div_pos m d ltac:(lia) Hd).
    assert (m / d < 2 * 2 ^ 52) by (apply Z.div_lt_upper_bound; nia).
    split; [lia|]. destruct (Z.eq_dec e' minExp) as [|Hne]; [by right|left].
    assert (2 ^ l = 2 ^ 52 * d) as Heq by (unfold d; rewrite <- pow2_split by lia; f_equal; lia).
    assert (2 ^ 52 ≤ m / d) by (apply Z.div_le_lower_bound; nia). lia.
Qed.

Lemma roundF_valid s m e : 0 ≤ m → validF (roundF s m e).
Proof.
  intros Hm. unfold roundF. destruct (Z.eqb_spec m 0) as [->|Hnz].
  { cbn. unfold minExp, maxExp. lia. }
  set (e' := Z.max (e + Z.log2 m - 52) minExp).
  pose proof (round_mantissa m e e' ltac:(lia) eq_refl) as [Hq Hn]. cbn zeta in *.
  set (q := if e' <=? e then m * 2 ^ (e - e') else rne m (2 ^ (e' - e))) in *.
  destruct (Z.eqb_spec q (2 ^ 53)) as [Eq|Eq].
  - destruct (Z.ltb_spec maxExp (e' + 1)); [done|]. cbn. unfold minExp, maxExp in *. lia.
  - destruct (Z.ltb_spec maxExp e'); [done|]. cbn. unfold minExp, maxExp in *. lia.
Qed.

(** Only the value of [m * 2^e] matters. *)
Lemma roundF_shift s m e k : 0 < m → 0 ≤ k → roundF s (m * 2 ^ k) e = roundF s m (e + k).
Proof.
  intros Hm Hk. assert (0 < 2 ^ k) as Hp by (apply Z.pow_pos_nonneg; lia). unfold roundF.
  rewrite (proj2 (Z.eqb_neq (m * 2 ^ k) 0)), (proj2 (Z.eqb_neq m 0)) by nia.
  rewrite Z.log2_mul_pow2 by lia. replace (e + (Z.log2 m + k) - 52) with (e + k + Z.log2 m - 52) by lia.
  rewrite (Z.add_comm k (Z.log2 m)). replace (e + (Z.log2 m + k) - 52) with (e + k + Z.log2 m - 52) by lia.
  set (e' := Z.max (e + k + Z.log2 m - 52) minExp).
  assert ((if e' <=? e then m * 2 ^ k * 2 ^ (e - e') else rne (m * 2 ^ k) (2 ^ (e' - e)))
        = (if e' <=? e + k then m * 2 ^ (e + k - e') else rne m (2 ^ (e' - (e + k))))) as ->; [|done].
  destruct (Z.leb_spec e' e) as [E|E].
  - zcmp. rewrite <- Z.mul_assoc, <- pow2_split by lia. do 2 f_equal. lia.
  - destruct (Z.leb_spec e' (e + k)) as [E2|E2].
    + replace k with ((e + k - e') + (e' - e)) at 1 by lia. rewrite pow2_split, Z.mul_assoc by lia.
      apply rne_mult. apply Z.pow_pos_nonneg; lia.
    + replace (e' - e) with ((e' - (e + k)) + k) by lia. rewrite pow2_split by lia.
      apply rne_scale; [apply Z.pow_pos_nonneg; lia|done].
Qed.

Lemma roundF_value s m1 e1 m2 e2 E :
  0 < m1 → 0 < m2 → E ≤ e1 → E ≤ e2 → m1 * 2 ^ (e1 - E) = m2 * 2 ^ (e2 - E) →
  roundF s m1 e1 = roundF s m2 e2.
Proof.
  intros Hm1 Hm2 H1 H2 Heq. replace e1 with (E + (e1 - E)) by lia. replace e2 with (E + (e2 - E)) by lia.
  rewrite <- !roundF_shift by lia. by rewrite Heq.
Qed.

(** Representable values are not changed. *)
Lemma roundF_exact s m e : validF (Fin s m e) → roundF s m e = Fin s m e.
Proof.
  cbn. unfold minExp, maxExp. intros (Hm & He & Hn). unfold roundF, zeroF, minExp, maxExp.
  destruct (Z.eqb_spec m 0) as [->|Hnz]; [f_equal; lia|].
  assert (Z.log2 m ≤ 52) as Hl by (apply (Z.log2_le_mono m (2 ^ 53 - 1)); lia).
  assert (Z.max (e + Z.log2 m - 52) (-1074) = e) as ->.
  { destruct Hn as [Hn|Hn]; [|lia]. apply Z.log2_le_mono in Hn. change (Z.log2 (2 ^ 52)) with 52 in Hn. lia. }
  rewrite Z.leb_refl, Z.sub_diag, Z.mul_1_r. zcmp.
  by zcmp.
Qed.

Lemma magnitude_pos m e : minExp ≤ e → 0 < m → 0 < magnitude m e.
Proof. intros He Hm. unfold magnitude. assert (0 < 2 ^ (e - minExp)) by (apply Z.pow_pos_nonneg; lia). nia. Qed.

Lemma magnitude_zero m e : minExp ≤ e → 0 ≤ m → magnitude m e = 0 ↔ m = 0.
Proof. intros He Hm. unfold magnitude. assert (0 < 2 ^ (e - minExp)) by (apply Z.pow_pos_nonneg; lia). nia. Qed.

Lemma fval_abs s m e : 0 ≤ m → Z.abs (fval s m e) = magnitude m e.
Proof.
  intros Hm. unfold fval. assert (0 ≤ magnitude m e) by (unfold magnitude; apply Z.mul_nonneg_nonneg; [lia|apply Z.pow_nonneg; lia]).
  destruct s; lia.
Qed.

(** A float is determined by its sign and value. *)
Lemma roundF_fval s m e : validF (Fin s m e) → m ≠ 0 → roundF s (magnitude m e) minExp = Fin s m e.
Proof.
  intros Hv Hnz. pose proof Hv as (Hm & He & _). unfold magnitude.
  rewrite roundF_shift by lia. replace (minExp + (e - minExp)) with e by lia. by apply roundF_exact.
Qed.

Lemma ofVal_fval s0 s m e : validF (Fin s m e) → m ≠ 0 → ofVal s0 (fval s m e) = Fin s m e.
Proof.
  intros Hv Hnz. pose proof Hv as (Hm & He & _). unfold ofVal.
  pose proof (magnitude_pos m e ltac:(lia) ltac:(lia)) as Hp.
  rewrite fval_abs by lia. rewrite (proj2 (Z.eqb_neq _ 0)) by (unfold fval; destruct s; lia).
  replace (fval s m e <? 0) with s; [by apply roundF_fval|]. symmetry. unfold fval.
  destruct s; [apply Z.ltb_lt|apply Z.ltb_ge]; lia.
Qed.

Lemma fval_inj s m e s' m' e' :
  validF (Fin s m e) → validF (Fin s' m' e') → m ≠ 0 → fval s m e = fval s' m' e' → Fin s m e = Fin s' m' e'.
Proof.
  intros Hv Hv' Hnz Heq. assert (m' ≠ 0) as Hnz'.
  { intros ->. destruct Hv as (? & ? & _), Hv' as (? & ? & _).
    pose proof (magnitude_pos m e ltac:(lia) ltac:(lia)). unfold fval in Heq.
    assert (magnitude 0 e' = 0) by done. destruct s, s'; lia. }
  rewrite <- (ofVal_fval false s m e), <- (ofVal_fval false s' m' e') by done. by rewrite Heq.
Qed.

(** ** Integers as floats *)

Lemma one_pos : 0 < one.
Proof. done. Qed.

Lemma ofZ_valid i : validF (ofZ i).
Proof. apply roundF_valid. lia. Qed.

(** Conversion from an integer rounds once; up to 2^53 it is exact. *)
Lemma ofZ_small i :
  Z.abs i ≤ 2 ^ 53 →
  ∃ m e, ofZ i = Fin (i <? 0) m e ∧ validF (Fin (i <? 0) m e) ∧ fval (i <? 0) m e = i * one ∧ 0 ≤ m ∧ minExp ≤ e ≤ 1.
Proof.
  intros Hi. unfold ofZ. destruct (Z.eq_dec i 0) as [->|Hnz].
  { exists 0, minExp. split; [done|]. split; [cbn; unfold minExp, maxExp; lia|]. split; [done|unfold minExp; lia]. }
  destruct (Z.eq_dec (Z.abs i) (2 ^ 53)) as [E|E].
  { exists (2 ^ 52), 1. rewrite E. split; [reflexivity|]. split; [cbn; unfold minExp, maxExp; lia|].
    split; [|unfold minExp; lia]. unfold fval, magnitude, minExp, one.
    assert (i = 2 ^ 53 ∨ i = - 2 ^ 53) as [-> | ->] by lia; by vm_compute. }
  set (s := i <? 0). set (a := Z.abs i) in *. set (l := Z.log2 a).
  assert (0 < a) as Ha by lia. pose proof (log2_bounds a Ha) as [Hlo Hhi]. fold l in Hlo, Hhi.
  assert (0 ≤ l ≤ 52) as Hl.
  { split; [apply Z.log2_nonneg|]. apply (Z.log2_le_mono a (2 ^ 53 - 1)). lia. }
  assert (validF (Fin s (a * 2 ^ (52 - l)) (l - 52))) as Hv.
  { assert (2 ^ 52 = 2 ^ l * 2 ^ (52 - l)) by (rewrite <- pow2_split by lia; f_equal; lia).
    cbn. unfold minExp, maxExp. change (2 ^ 53) with (2 * 2 ^ 52).
    assert (0 < 2 ^ (52 - l)) by (apply Z.pow_pos_nonneg; lia). split; [nia|]. split; [lia|]. left. nia. }
  exists (a * 2 ^ (52 - l)), (l - 52). split; [|split; [done|]].
  - rewrite <- (roundF_exact _ _ _ Hv). rewrite roundF_shift by lia. f_equal. lia.
  - split; [|destruct Hv as (? & ? & _); unfold minExp in *; lia].
    unfold fval, magnitude. rewrite <- Z.mul_assoc, <- pow2_split by (unfold minExp; lia).
    replace (52 - l + (l - 52 - minExp)) with 1074 by (unfold minExp; lia). fold one. unfold s, a.
    destruct (Z.ltb_spec i 0); lia.
Qed.

Lemma ofZ_ofVal i s0 : i ≠ 0 → ofZ i = ofVal s0 (i * one).
Proof.
  intros Hi. unfold ofZ, ofVal. pose proof one_pos. rewrite (proj2 (Z.eqb_neq _ 0)) by nia.
  rewrite Z.abs_mul. change (Z.abs one) with (2 ^ 1074). rewrite roundF_shift by lia. change (minExp + 1074) with 0.
  f_equal. destruct (Z.ltb_spec i 0), (Z.ltb_spec (i * one) 0); try done; nia.
Qed.

Lemma ofZ_zero : ofZ 0 = zeroF false.
Proof. done. Qed.

(** Arithmetic on integers that are exact floats rounds the exact result. *)
Lemma fadd_ofZ a b : Z.abs a ≤ 2 ^ 53 → Z.abs b ≤ 2 ^ 53 → fadd (ofZ a) (ofZ b) = ofZ (a + b).
Proof.
  intros Ha Hb. destruct (ofZ_small a Ha) as (ma & ea & -> & _ & Hva & _).
  destruct (ofZ_small b Hb) as (mb & eb & -> & _ & Hvb & _). cbn [fadd]. rewrite Hva, Hvb.
  rewrite <- Z.mul_add_distr_r. destruct (Z.eq_dec (a + b) 0) as [E|E]; [|by rewrite (ofZ_ofVal _ ((a <? 0) && (b <? 0)))].
  rewrite E, ofZ_zero. unfold ofVal. cbn. f_equal. destruct (Z.ltb_spec a 0), (Z.ltb_spec b 0); try done; lia.
Qed.

Lemma fneg_val s m e : fval (negb s) m e = - fval s m e.
Proof. unfold fval. destruct s; cbn; lia. Qed.

Lemma fsub_ofZ a b : Z.abs a ≤ 2 ^ 53 → Z.abs b ≤ 2 ^ 53 → fsub (ofZ a) (ofZ b) = ofZ (a - b).
Proof.
  intros Ha Hb. destruct (ofZ_small a Ha) as (ma & ea & -> & _ & Hva & _).
  destruct (ofZ_small b Hb) as (mb & eb & -> & _ & Hvb & _). unfold fsub. cbn [fneg fadd].
  rewrite fneg_val, Hva, Hvb. replace (a * one + - (b * one)) with ((a - b) * one) by lia.
  destruct (Z.eq_dec (a - b) 0) as [E|E]; [|by rewrite (ofZ_ofVal _ ((a <? 0) && negb (b <? 0)))].
  rewrite E, ofZ_zero. unfold ofVal. cbn. f_equal. destruct (Z.ltb_spec a 0), (Z.ltb_spec b 0); try done; lia.
Qed.

(** The sign of a product of zeros and nonzeros as the hardware has it. *)
Lemma fmul_ofZ a b :
  Z.abs a ≤ 2 ^ 53 → Z.abs b ≤ 2 ^ 53 →
  fmul (ofZ a) (ofZ b) = if a * b =? 0 then zeroF (xorb (a <? 0) (b <? 0)) else ofZ (a * b).
Proof.
  intros Ha Hb. destruct (ofZ_small a Ha) as (ma & ea & -> & _ & Hva & Hma & Hea).
  destruct (ofZ_small b Hb) as (mb & eb & -> & _ & Hvb & Hmb & Heb). cbn [fmul].
  pose proof one_pos as Hone.
  assert (magnitude ma ea = Z.abs a * one) as Hav by (rewrite <- (fval_abs (a <? 0)), Hva by done; lia).
  assert (magnitude mb eb = Z.abs b * one) as Hbv by (rewrite <- (fval_abs (b <? 0)), Hvb by done; lia).
  pose proof (magnitude_zero ma ea ltac:(lia) Hma) as Hza. pose proof (magnitude_zero mb eb ltac:(lia) Hmb) as Hzb.
  destruct (Z.eqb_spec (a * b) 0) as [E|E].
  - assert (ma * mb = 0) as -> by (apply Z.mul_eq_0 in E; nia). done.
  - assert (0 < ma ∧ 0 < mb) as [Hma' Hmb'] by nia.
    assert (xorb (a <? 0) (b <? 0) = (a * b <? 0)) as ->.
    { destruct (Z.ltb_spec a 0), (Z.ltb_spec b 0), (Z.ltb_spec (a * b) 0); try done; nia. }
    unfold ofZ. apply (roundF_value _ _ _ _ _ (2 * minExp)); [nia|lia|lia|unfold minExp; lia|].
    replace (ea + eb - 2 * minExp) with ((ea - minExp) + (eb - minExp)) by lia.
    rewrite pow2_split by lia. unfold magnitude in *. fold one in *.
    replace (0 - 2 * minExp) with (1074 + 1074) by done. rewrite pow2_split by lia. fold one.
    rewrite Z.abs_mul. nia.
Qed.

Lemma fmod_ofZ a b :
  Z.abs a ≤ 2 ^ 53 → Z.abs b ≤ 2 ^ 53 → b ≠ 0 →
  fmod (ofZ a) (ofZ b) = if Z.rem a b =? 0 then zeroF (a <? 0) else ofZ (Z.rem a b).
Proof.
  intros Ha Hb Hnz. destruct (ofZ_small a Ha) as (ma & ea & -> & _ & Hva & Hma & Hea).
  destruct (ofZ_small b Hb) as (mb & eb & -> & _ & Hvb & Hmb & Heb). cbn [fmod]. pose proof one_pos.
  assert (magnitude mb eb = Z.abs b * one) as Hbv by (rewrite <- (fval_abs (b <? 0)), Hvb by done; lia).
  rewrite (proj2 (Z.eqb_neq mb 0)).
  2: { intros ->. assert (magnitude 0 eb = 0) by done. nia. }
  rewrite Hva, Hvb, Z.mul_rem_distr_r by lia.
  destruct (Z.eqb_spec (Z.rem a b) 0) as [E|E]; [by rewrite E|by rewrite (ofZ_ofVal _ (a <? 0))].
Qed.

(** ** Truncation *)

Lemma fval_truncZ s m e : 0 ≤ m → minExp ≤ e →
  truncZ s m e = if s then - (magnitude m e / one) else magnitude m e / one.
Proof.
  intros Hm He. pose proof one_pos. unfold truncZ, fval.
  assert (0 ≤ magnitude m e) by (unfold magnitude; apply Z.mul_nonneg_nonneg; [lia|apply Z.pow_nonneg; lia]).
  destruct s; [rewrite Z.quot_opp_l by lia|]; by rewrite Z.quot_div_nonneg by lia.
Qed.

(** math.Trunc is exact. *)
Lemma Trunc_spec s m e :
  validF (Fin s m e) →
  ∃ m' e', Trunc (Fin s m e) = Fin s m' e' ∧ validF (Fin s m' e') ∧ magnitude m' e' = magnitude m e / one * one.
Proof.
  intros Hv. pose proof Hv as (Hm & He & _). cbn [Trunc]. pose proof one_pos.
  assert (Z.abs (truncZ s m e) = magnitude m e / one) as ->.
  { rewrite fval_truncZ by lia. assert (0 ≤ magnitude m e / one); [|destruct s; lia].
    apply Z.div_pos; [|done]. unfold magnitude. apply Z.mul_nonneg_nonneg; [lia|apply Z.pow_nonneg; lia]. }
  destruct (Z.le_gt_cases 0 e) as [Hpos|Hneg].
  - exists m, e. assert (magnitude m e = m * 2 ^ e * one) as Hmag.
    { unfold magnitude, one. rewrite <- Z.mul_assoc, <- pow2_split by lia. do 2 f_equal. }
    rewrite Hmag, Z.div_mul by lia. split; [|done].
    destruct (Z.eq_dec m 0) as [->|Hnz]; [destruct Hv as (_ & _ & [?|?]); unfold minExp in *; lia|].
    rewrite roundF_shift by lia. rewrite Z.add_0_l. by apply roundF_exact.
  - assert (magnitude m e / one = m / 2 ^ (- e)) as Hdiv.
    { unfold magnitude, one. replace 1074 with ((e - minExp) + (- e)) by (unfold minExp; lia).
      rewrite pow2_split, (Z.mul_comm (2 ^ (e - minExp))) by lia.
      rewrite Z.div_mul_cancel_r; [done|apply Z.pow_nonzero; lia..]. }
    assert (0 < 2 ^ (- e)) by (apply Z.pow_pos_nonneg; lia).
    assert (0 ≤ m / 2 ^ (- e) ≤ m) as Hb by (split; [apply Z.div_pos; lia|apply Z.div_le_upper_bound; nia]).
    rewrite Hdiv. set (t := m / 2 ^ (- e)) in *.
    destruct (ofZ_small t ltac:(lia)) as (m' & e' & Heq & Hv' & Hval & _).
    unfold ofZ in Heq. rewrite Z.abs_eq in Heq by lia. rewrite (proj2 (Z.ltb_ge t 0)) in * by lia.
    exists m', e'. split; [|split; [done|exact Hval]].
    revert Heq. unfold roundF. repeat case_match; intros [= <- <-]; done.
Qed.

Lemma isIntegral_iff m e : isIntegral m e = true ↔ magnitude m e / one * one = magnitude m e.
Proof.
  unfold isIntegral. rewrite Z.eqb_eq. pose proof one_pos. pose proof (Z.div_mod (magnitude m e) one). lia.
Qed.
End Float64.
