(* ===== verification/Numbers.v ===== *)
(** * Numbers

    Model of the number representation of vm.go and value.go: a number is an
    [int64] in a [valueInt] or a [float64] in a [valueFloat]; [intToValue] and
    [floatToValue] normalise.  Then the conversions of runtime.go to fixed-width
    integers, [ipow] of ipow.go and the arithmetic instructions of vm.go.

    The theorems: normalisation keeps the value; the integer fast paths of the
    arithmetic instructions compute the IEEE 754 result; the conversions agree
    with the modular arithmetic the language prescribes; [ipow] is exact or
    reports overflow. *)

From S2P Require Import Prelude Float64.
Import Float64.
Open Scope Z_scope.

Module Numbers.

Definition maxInt : Z := 2 ^ 53.

Inductive number := valueInt (i : Z) | valueFloat (f : float64).

#[global] Instance number_eq_dec : EqDecision number.
Proof. solve_decision. Defined.

Definition negativeZero : float64 := zeroF true.

(** intCache, filled by init of value.go. *)
Definition intCache (idx : Z) : number := valueInt (idx - 256).

Definition intToValue (i : Z) : number :=
  let idx := 256 + i in
  if (0 <=? idx) && (idx <? 256) then intCache idx
  else if (- maxInt <=? i) && (i <=? maxInt) then valueInt i
  else valueFloat (ofZ i).

(** int64(f) of a float in range. *)
Definition int64F (f : float64) : Z := match f with Fin s m e => truncZ s m e | _ => 0 end.

Definition floatToInt (f : float64) : option Z :=
  if (negb (feq f (ofZ 0)) || negb (Signbit f)) && negb (isInf f) && feq f (Trunc f) &&
     fle (ofZ (- maxInt)) f && fle f (ofZ maxInt)
  then Some (int64F f) else None.

Definition floatToValue (f : float64) : number :=
  match floatToInt f with
  | Some i => intToValue i
  | None =>
      if feq f (ofZ 0) then valueFloat negativeZero
      else if isNaN f then valueFloat NaN
      else match f with
           | Inf s => valueFloat (Inf s)
           | _ => valueFloat f
           end
  end.

Definition ToFloat (n : number) : float64 :=
  match n with valueInt i => ofZ i | valueFloat f => f end.

(** ** Conversions of runtime.go *)

Section conversions.
(** int64(f) is implementation-specific for a float out of range. *)
Context (int64OutOfRange : float64 → Z).

Definition toInt64F (f : float64) : Z :=
  match f with
  | Fin s m e =>
      let t := truncZ s m e in
      if (MinInt64 <=? t) && (t <=? MaxInt64) then t else int64OutOfRange f
  | _ => int64OutOfRange f
  end.

Definition finite (f : float64) : bool := negb (isNaN f) && negb (isInf f).

Definition toInt8 (v : number) : Z :=
  match v with
  | valueInt i => swrap 8 i
  | valueFloat f => if finite f then swrap 8 (toInt64F f) else 0
  end.

Definition toUint8 (v : number) : Z :=
  match v with
  | valueInt i => uwrap 8 i
  | valueFloat f => if finite f then uwrap 8 (toInt64F f) else 0
  end.

Definition toInt16 (v : number) : Z :=
  match v with
  | valueInt i => swrap 16 i
  | valueFloat f => if finite f then swrap 16 (toInt64F f) else 0
  end.

Definition toInt64 (v : number) : Z :=
  match v with
  | valueInt i => i
  | valueFloat f => if finite f then toInt64F f else 0
  end.

Definition toUint64 (v : number) : Z :=
  match v with
  | valueInt i => uwrap 64 i
  | valueFloat f => if finite f then uwrap 64 (toInt64F f) else 0
  end.
End conversions.

(** [half] is 0.5 in units of 2^-1074; the sum with an integer up to 255 is exact. *)
Definition half : Z := 2 ^ 1073.

Definition toUint8Clamp (v : number) : Z :=
  match v with
  | valueInt i => if i <? 0 then 0 else if i <=? 255 then i else 255
  | valueFloat num =>
      if isNaN num then 0
      else if flt num (ofZ 0) then 0
      else if flt (ofZ 255) num then 255
      else match num with
           | Fin s m e =>
               let f := fval s m e / one in
               let f1 := f * one + half in
               if f1 <? fval s m e then uwrap 8 (f + 1)
               else if fval s m e <? f1 then uwrap 8 f
               else let r := uwrap 8 f in
                    if Z.land r 1 =? 0 then r else uwrap 8 (r + 1)
           | _ => 0
           end
  end.

Definition floatToUint32 (f : float64) : Z :=
  let b := Float64bits f in
  let exp := Z.land (Z.shiftr b 52) 0x7ff - 1075 in
  let mant := Z.lor (Z.land b (Z.ones 52)) (Z.shiftl 1 52) in
  let r := if 32 <=? exp then 0
           else if 0 <=? exp then uwrap 64 (Z.shiftl mant exp)
           else Z.shiftr mant (- exp) in
  let r := if swrap 64 b <? 0 then uwrap 64 (- r) else r in
  uwrap 32 r.

Definition toUint16 (v : number) : Z :=
  match v with valueInt i => uwrap 16 i | valueFloat f => uwrap 16 (floatToUint32 f) end.
Definition toInt32 (v : number) : Z :=
  match v with valueInt i => swrap 32 i | valueFloat f => swrap 32 (floatToUint32 f) end.
Definition toUint32 (v : number) : Z :=
  match v with valueInt i => uwrap 32 i | valueFloat f => floatToUint32 f end.

Definition floatToIntClip (n : float64) : Z :=
  if isNaN n then 0
  else if fle (ofZ MaxInt64) n then MaxInt64
  else if fle n (ofZ MinInt64) then MinInt64
  else int64F n.

Definition ToInteger (v : number) : Z :=
  match v with valueInt i => i | valueFloat f => floatToIntClip f end.

Definition toLength (v : number) : Z :=
  let i := ToInteger v in
  if i <? 0 then 0 else if maxInt <=? i then maxInt - 1 else i.

(** relToIdx of builtin_array.go: an index that may count from the end. *)
Definition relToIdx (rel l : Z) : Z := if 0 <=? rel then Z.min rel l else Z.max (l + rel) 0.

Lemma relToIdx_range rel l : 0 ≤ l → 0 ≤ relToIdx rel l ≤ l.
Proof. intros Hl. unfold relToIdx. destruct (Z.leb_spec 0 rel); lia. Qed.

(** toLengthUint32 of a number (a string is converted to one first); the legacy
    path for booleans, null and objects is not modelled. *)
Definition toLengthUint32 (v : number) : result Z :=
  let intVal :=
    match v with
    | valueInt i => Some i
    | valueFloat f => if feq f negativeZero then Some 0 else floatToInt f
    end in
  match intVal with
  | Some i => if (0 <=? i) && (i <=? MaxUint32) then Ok i else Throw (RangeError "Invalid array length")
  | None => Throw (RangeError "Invalid array length")
  end.

(** toIndex on a 64-bit machine. *)
Definition toIndex (v : number) : result Z :=
  let num := ToInteger v in
  if (0 <=? num) && (num <? maxInt) then Ok num else Throw (RangeError "Invalid index").

(** safeMul on a 64-bit machine. *)
Definition safeMul (left right : Z) : result Z :=
  let res := swrap 64 (left * right) in
  if (left =? 0) || (right =? 0) || (swrap 64 (Z.quot res left) =? right) then Ok res
  else Throw (RangeError "Integer overflow").

(** ** ipow.go *)

Definition overflows : list Z :=
  [9223372036854775807; 9223372036854775807; 3037000499; 2097151;
   55108; 6208; 1448; 511; 234; 127; 78; 52; 38; 28; 22; 18;
   15; 13; 11; 9; 8; 7; 7; 6; 6; 5; 5; 5; 4; 4; 4; 4;
   3; 3; 3; 3; 3; 3; 3; 3; 2; 2; 2; 2; 2; 2; 2; 2;
   2; 2; 2; 2; 2; 2; 2; 2; 2; 2; 2; 2; 2; 2; 2; 2].

Definition highestBitSet : list nat :=
  [0; 1; 2; 2; 3; 3; 3; 3; 4; 4; 4; 4; 4; 4; 4; 4;
   5; 5; 5; 5; 5; 5; 5; 5; 5; 5; 5; 5; 5; 5; 5; 5;
   6; 6; 6; 6; 6; 6; 6; 6; 6; 6; 6; 6; 6; 6; 6; 6;
   6; 6; 6; 6; 6; 6; 6; 6; 6; 6; 6; 6; 6; 6; 6]%nat.

(** The cases of the switch from [k] down, each falling through to the next. *)
Fixpoint ipowCase (k : nat) (result base exp : Z) : Z :=
  match k with
  | O => result
  | 1%nat => if Z.land exp 1 =? 0 then result else swrap 64 (result * base)
  | S k => ipowCase k (if Z.land exp 1 =? 0 then result else swrap 64 (result * base))
             (swrap 64 (base * base)) (Z.shiftr exp 1)
  end.

Definition ipow (base exp : Z) : Z :=
  if 63 <=? exp then
    if base =? 1 then 1
    else if base =? -1 then 1 - 2 * Z.land exp 1
    else 0
  else
    let limit := nth (Z.to_nat exp) overflows 0 in
    if (limit <? base) || (limit <? swrap 64 (- base)) then 0
    else ipowCase (nth (Z.to_nat exp) highestBitSet 0%nat) 1 base exp.

(** ** Normal form *)

(** An integer up to 2^53 is a [valueInt], everything else a float. *)
Definition normal (n : number) : Prop :=
  match n with
  | valueInt i => Z.abs i ≤ maxInt
  | valueFloat f => validF f ∧ ∀ i, Z.abs i ≤ maxInt → f ≠ ofZ i
  end.

Lemma intToValue_eq i :
  intToValue i = if Z.abs i <=? maxInt then valueInt i else valueFloat (ofZ i).
Proof.
  unfold intToValue, intCache, maxInt. change (2 ^ 53) with 9007199254740992.
  destruct ((0 <=? 256 + i) && (256 + i <? 256)) eqn:E1.
  - apply andb_prop in E1 as [? ?]. zcmp. f_equal. lia.
  - assert ((- (9007199254740992) <=? i) && (i <=? 9007199254740992) = (Z.abs i <=? 9007199254740992)) as ->; [|done].
    destruct (Z.leb_spec (-9007199254740992) i), (Z.leb_spec i 9007199254740992),
      (Z.leb_spec (Z.abs i) 9007199254740992); try done; lia.
Qed.

Lemma ToFloat_intToValue i : ToFloat (intToValue i) = ofZ i.
Proof. rewrite intToValue_eq. by destruct (Z.abs i <=? maxInt). Qed.

Lemma feq_refl f : isNaN f = false → feq f f = true.
Proof. destruct f as [|s|s m e]; cbn; [done| |]; intros _; [by destruct s|apply Z.eqb_refl]. Qed.

Lemma valid_zero s m e : validF (Fin s m e) → m = 0 → Fin s m e = zeroF s.
Proof. intros (_ & _ & [?|?]) ->; [lia|by subst]. Qed.

Lemma floatToInt_ofZ i : Z.abs i ≤ maxInt → floatToInt (ofZ i) = Some i.
Proof.
  intros Hi. unfold floatToInt. pose proof one_pos as Hone.
  destruct (ofZ_small i Hi) as (m & e & Heq & Hv & Hval & Hm & He).
  destruct (ofZ_small maxInt ltac:(done)) as (mM & eM & HeqM & _ & HvM & _).
  destruct (ofZ_small (- maxInt) ltac:(done)) as (mN & eN & HeqN & _ & HvN & _).
  rewrite Heq, HeqM, HeqN. cbn [Signbit isInf negb andb].
  destruct (Trunc_spec _ _ _ Hv) as (m' & e' & HT & Hv' & Hmag).
  assert (magnitude m e = Z.abs i * one) as Hmi by (rewrite <- (fval_abs (i <? 0)), Hval by done; lia).
  rewrite Hmi, Z.div_mul, <- Hmi in Hmag by lia.
  assert (feq (Fin (i <? 0) m e) (Trunc (Fin (i <? 0) m e)) = true) as ->.
  { rewrite HT. cbn. apply Z.eqb_eq. unfold fval. by rewrite Hmag. }
  assert (fle (Fin (- maxInt <? 0) mN eN) (Fin (i <? 0) m e) = true) as ->.
  { unfold fle. cbn. rewrite HvN, Hval. destruct (Z.ltb_spec (- maxInt * one) (i * one)); [done|].
    cbn. apply Z.eqb_eq. nia. }
  assert (fle (Fin (i <? 0) m e) (Fin (maxInt <? 0) mM eM) = true) as ->.
  { unfold fle. cbn. rewrite HvM, Hval. destruct (Z.ltb_spec (i * one) (maxInt * one)); [done|].
    cbn. apply Z.eqb_eq. nia. }
  assert (int64F (Fin (i <? 0) m e) = i) as ->.
  { cbn. unfold truncZ. rewrite Hval. by apply Z.quot_mul. }
  rewrite ofZ_zero. cbn [feq zeroF]. rewrite Hval.
  replace (negb (i * one =? _) || negb (i <? 0)) with true; [done|].
  change (fval false 0 minExp) with 0. destruct (Z.eqb_spec (i * one) 0), (Z.ltb_spec i 0); try done. nia.
Qed.

(** [floatToInt] recognises exactly the integers up to 2^53 other than -0. *)
Lemma floatToInt_spec f i :
  validF f → floatToInt f = Some i ↔ Z.abs i ≤ maxInt ∧ f = ofZ i.
Proof.
  intros Hv. split; [|by intros [Hi ->]; apply floatToInt_ofZ].
  unfold floatToInt. destruct (_ && _) eqn:E; [|done]. intros [= <-].
  repeat (apply andb_prop in E as [E ?]). destruct f as [|s|s m e]; [done|done|]. cbn [int64F].
  pose proof Hv as (Hm & He & _). pose proof one_pos as Hone.
  destruct (Trunc_spec _ _ _ Hv) as (m' & e' & HT & Hv' & Hmag).
  assert (magnitude m e / one * one = magnitude m e) as Hint.
  { rewrite <- Hmag. rewrite HT in H1. cbn in H1. apply Z.eqb_eq in H1. unfold fval in H1. destruct s; lia. }
  assert (truncZ s m e * one = fval s m e) as Hval.
  { rewrite fval_truncZ by lia. unfold fval. destruct s; lia. }
  assert (Z.abs (truncZ s m e) ≤ maxInt) as Hb.
  { destruct (ofZ_small maxInt ltac:(done)) as (mM & eM & HeqM & _ & HvM & _).
    destruct (ofZ_small (- maxInt) ltac:(done)) as (mN & eN & HeqN & _ & HvN & _).
    rewrite HeqM in H. rewrite HeqN in H0. unfold fle in H, H0. cbn in H, H0. rewrite HvM in H. rewrite HvN in H0.
    apply orb_prop in H as [H%Z.ltb_lt|H%Z.eqb_eq], H0 as [H0%Z.ltb_lt|H0%Z.eqb_eq]; nia. }
  split; [done|]. destruct (ofZ_small _ Hb) as (mi & ei & -> & Hvi & Hvali & _).
  destruct (Z.eq_dec m 0) as [Hz|Hnz]; [|apply fval_inj; [done..|lia]].
  assert (truncZ s m e = 0) as Ht.
  { rewrite Hz in *. unfold truncZ, fval. cbn. by destruct s. }
  rewrite (valid_zero s m e Hv Hz) in *. rewrite Ht in *. cbn in *.
  assert (s = false) as -> by (by destruct s). symmetry. apply (valid_zero _ _ _ Hvi).
  destruct Hvi as (? & ? & _). unfold fval in Hvali. apply (magnitude_zero mi ei); lia.
Qed.

Lemma normal_valueFloat f : validF f → floatToInt f = None → normal (valueFloat f).
Proof.
  intros Hv Hn. split; [done|]. intros i Hi ->. rewrite floatToInt_ofZ in Hn by done. done.
Qed.

Lemma floatToValue_spec f : validF f → normal (floatToValue f) ∧ ToFloat (floatToValue f) = f.
Proof.
  intros Hv. unfold floatToValue. destruct (floatToInt f) as [i|] eqn:E.
  - apply floatToInt_spec in E as [Hi ->]; [|done]. rewrite ToFloat_intToValue, intToValue_eq.
    by rewrite (proj2 (Z.leb_le _ _) Hi).
  - assert (normal (valueFloat f)) as Hn by (by apply normal_valueFloat).
    destruct f as [|s|s m e]; [done|done|]. rewrite ofZ_zero. cbn [feq zeroF isNaN].
    destruct (Z.eqb_spec (fval s m e) (fval false 0 minExp)) as [Ez|Ez]; [|done].
    assert (m = 0) as Hm.
    { destruct Hv as (? & ? & _). apply (magnitude_zero m e); [lia..|]. change (fval false 0 minExp) with 0 in Ez.
      unfold fval in Ez. destruct s; lia. }
    rewrite (valid_zero s m e Hv Hm) in *. destruct s; [done|]. destruct Hn as [_ Hn].
    by destruct (Hn 0).
Qed.

Lemma normal_inj a b : normal a → normal b → ToFloat a = ToFloat b → a = b.
Proof.
  assert (∀ i j, Z.abs i ≤ maxInt → Z.abs j ≤ maxInt → ofZ i = ofZ j → i = j) as Hinj.
  { intros i j Hi Hj Heq. apply (f_equal floatToInt) in Heq. rewrite !floatToInt_ofZ in Heq by done. congruence. }
  destruct a as [i|f], b as [j|g]; cbn; intros Ha Hb Heq.
  - f_equal. by apply Hinj.
  - destruct Hb as [_ Hb]. by destruct (Hb i).
  - destruct Ha as [_ Ha]. by destruct (Ha j).
  - congruence.
Qed.

(** [floatToValue] yields the normal form of a float, that is an integer
    representation exactly for the integers up to 2^53 (not -0), and keeps its
    value, -0, NaN and infinities included; normal forms with the same value
    are identical. *)
Theorem floatToValue_normal (f g : float64) :
  validF f → validF g →
  normal (floatToValue f) ∧ ToFloat (floatToValue f) = f ∧
  (floatToValue f = floatToValue g ↔ f = g).
Proof.
  intros Hf Hg. destruct (floatToValue_spec f Hf) as [Hn Hv], (floatToValue_spec g Hg) as [Hn' Hv'].
  split; [done|]. split; [done|]. split; [intros He; congruence|by intros ->].
Qed.

Lemma floatToValue_normal_witness :
  ToFloat (floatToValue (ofZ 7)) = ofZ 7 ∧ floatToValue (ofZ 0) ≠ floatToValue negativeZero.
Proof.
  assert (validF negativeZero) as Hv by (cbn; unfold minExp, maxExp; lia).
  destruct (floatToValue_normal (ofZ 7) (ofZ 7) (ofZ_valid 7) (ofZ_valid 7)) as (_ & H7 & _).
  destruct (floatToValue_normal (ofZ 0) negativeZero (ofZ_valid 0) Hv) as (_ & _ & H0).
  split; [exact H7|]. intros H. apply H0 in H. done.
Defined.

(** ** ipow *)

Lemma swrap_mod w z : 0 < w → (swrap w z) mod 2 ^ w = z mod 2 ^ w.
Proof.
  intros Hw. unfold swrap. rewrite Zminus_mod_idemp_l. f_equal. lia.
Qed.

Lemma swrap_cong w a b : 0 < w → a mod 2 ^ w = b mod 2 ^ w → swrap w a = swrap w b.
Proof.
  intros Hw H. unfold swrap. f_equal. rewrite (Zplus_mod a), (Zplus_mod b), H. done.
Qed.

Lemma land_1_mod e : Z.land e 1 = e mod 2.
Proof. change 1 with (Z.ones 1) at 1. rewrite Z.land_ones by lia. done. Qed.

(** The switch multiplies by [base ^ exp], modulo 2^64. *)
Lemma ipowCase_spec k r b e :
  0 ≤ e < 2 ^ Z.of_nat k → swrap 64 r = r →
  ipowCase k r b e = swrap 64 (r * b ^ e).
Proof.
  revert r b e. induction k as [|k IH]; intros r b e He Hr.
  - assert (e = 0) as -> by (cbn in He; lia). cbn. by rewrite Z.mul_1_r.
  - destruct k as [|k].
    + assert (e = 0 ∨ e = 1) as [-> | ->] by (cbn in He; lia); cbn [ipowCase].
      * by rewrite Z.pow_0_r, Z.mul_1_r.
      * by rewrite Z.pow_1_r.
    + remember (S k) as k1. assert (ipowCase (S k1) r b e =
        ipowCase k1 (if Z.land e 1 =? 0 then r else swrap 64 (r * b)) (swrap 64 (b * b)) (Z.shiftr e 1))
        as -> by (by subst k1).
      rewrite Nat2Z.inj_succ, Z.pow_succ_r in He by lia. rewrite Z.shiftr_div_pow2 by lia. change (2 ^ 1) with 2.
      pose proof (Z.div_mod e 2 ltac:(lia)) as Hd. rewrite land_1_mod.
      pose proof (Z.mod_pos_bound e 2 ltac:(lia)).
      assert (0 ≤ e / 2) by (apply Z.div_pos; lia).
      rewrite IH; [|split; [lia|apply Z.div_lt_upper_bound; lia]|].
      * apply swrap_cong; [lia|]. rewrite Zmult_mod, <- (Z.mod_pow_l (swrap 64 (b * b))), swrap_mod, Z.mod_pow_l by lia.
        assert ((b * b) ^ (e / 2) = b ^ (2 * (e / 2))) as -> by (rewrite Z.pow_mul_r by lia; f_equal; lia).
        destruct (Z.eqb_spec (e mod 2) 0) as [E|E].
        -- rewrite <- Zmult_mod. do 3 f_equal. lia.
        -- rewrite swrap_mod, <- Zmult_mod by lia. f_equal. rewrite <- Z.mul_assoc. f_equal.
           replace e with (Z.succ (2 * (e / 2))) at 2 by lia. by rewrite Z.pow_succ_r by lia.
      * destruct (e mod 2 =? 0); [done|]. apply swrap_cong; [lia|]. by apply swrap_mod.
Qed.

(** The tables: the largest base whose power fits, and the bit lengths. *)
Lemma ipow_tables exp :
  0 ≤ exp < 63 →
  let limit := nth (Z.to_nat exp) overflows 0 in
  0 < limit ≤ MaxInt64 ∧ limit ^ exp ≤ MaxInt64 ∧ (2 ≤ exp → MaxInt64 < (limit + 1) ^ exp) ∧
  (exp < 2 → limit = MaxInt64) ∧ exp < 2 ^ Z.of_nat (nth (Z.to_nat exp) highestBitSet 0%nat).
Proof.
  intros He.
  assert (forallb (λ k, let x := Z.of_nat k in let limit := nth k overflows 0 in
    (0 <? limit) && (limit <=? MaxInt64) && (limit ^ x <=? MaxInt64) &&
    ((x <? 2) || (MaxInt64 <? (limit + 1) ^ x)) && ((2 <=? x) || (limit =? MaxInt64)) &&
    (x <? 2 ^ Z.of_nat (nth k highestBitSet 0%nat))) (seq 0 63) = true) as H by (by vm_compute).
  rewrite forallb_forall in H. specialize (H (Z.to_nat exp)). cbn zeta in *.
  rewrite Z2Nat.id in H by lia. specialize (H ltac:(apply in_seq; lia)).
  repeat (apply andb_prop in H as [H ?]). lia.
Qed.

Lemma pow_ge_2 b e : 2 ≤ b → 63 ≤ e → MaxInt64 < b ^ e.
Proof.
  intros Hb He. assert (2 ^ 63 ≤ 2 ^ e) by (apply Z.pow_le_mono_r; lia).
  assert (2 ^ e ≤ b ^ e) by (apply Z.pow_le_mono_l; lia). unfold MaxInt64. lia.
Qed.

Lemma swrap64_id z : MinInt64 ≤ z ≤ MaxInt64 → swrap 64 z = z.
Proof. intros Hz. apply swrap_id; unfold MinInt64, MaxInt64 in *; lia. Qed.

Lemma swrap64_min_pow e : 2 ≤ e → swrap 64 (MinInt64 ^ e) = 0.
Proof.
  intros He. transitivity (swrap 64 0); [|done]. apply swrap_cong; [lia|].
  replace e with (2 + (e - 2)) by lia. rewrite Z.pow_add_r by lia.
  change (MinInt64 ^ 2) with (2 ^ 62 * 2 ^ 64). rewrite <- Z.mul_assoc, (Z.mul_comm (2 ^ 64)), Z.mul_assoc.
  by rewrite Z.mod_mul by lia.
Qed.

Lemma ipow_exact (base exp : Z) :
  MinInt64 ≤ base ≤ MaxInt64 → 0 ≤ exp ≤ MaxInt64 →
  ipow base exp =
    if (Z.abs base ^ exp <=? MaxInt64) || ((base =? MinInt64) && (exp =? 1)) then base ^ exp else 0.
Proof.
  intros Hb He. unfold ipow. destruct (Z.leb_spec 63 exp) as [E|E].
  - rewrite (proj2 (Z.eqb_neq exp 1)), andb_false_r, orb_false_r by lia. destruct (Z.eqb_spec base 1) as [->|H1]; [change (Z.abs 1) with 1; by rewrite Z.pow_1_l by lia|].
    destruct (Z.eqb_spec base (-1)) as [->|H2].
    + change (Z.abs (-1)) with 1. rewrite Z.pow_1_l, land_1_mod by lia. cbn [Z.leb Z.compare MaxInt64].
      pose proof (Z.mod_pos_bound exp 2 ltac:(lia)) as Hmod. pose proof (Z.div_pos exp 2 ltac:(lia) ltac:(lia)) as Hdiv.
      rewrite (Z.div_mod exp 2) at 2 by lia. rewrite Z.pow_add_r, Z.pow_mul_r by lia.
      change ((-1) ^ 2) with 1. rewrite Z.pow_1_l by lia.
      assert (exp mod 2 = 0 ∨ exp mod 2 = 1) as [-> | ->] by lia; done.
    + destruct (Z.eq_dec base 0) as [->|H3]; [change (Z.abs 0) with 0; by rewrite !Z.pow_0_l by lia|].
      rewrite (proj2 (Z.leb_gt _ _)); [done|]. apply pow_ge_2; lia.
  - pose proof (ipow_tables exp ltac:(lia)) as (Hl & Hle & Hgt & Hone & Hbits). cbn zeta in *.
    set (limit := nth (Z.to_nat exp) overflows 0) in *.
    destruct (Z.eq_dec base MinInt64) as [->|Hmin].
    { change (swrap 64 (- MinInt64)) with MinInt64. rewrite (proj2 (Z.ltb_ge _ _)) by (unfold MinInt64; lia). cbn [orb].
      rewrite ipowCase_spec, Z.mul_1_l, Z.eqb_refl by (try done; lia). destruct (Z.eq_dec exp 0) as [->|H0]; [done|].
      destruct (Z.eq_dec exp 1) as [->|H1]; [done|]. rewrite swrap64_min_pow, (proj2 (Z.eqb_neq exp 1)) by lia.
      rewrite (proj2 (Z.leb_gt _ _)); [done|]. apply (Z.lt_le_trans _ (2 ^ 63)); [done|].
      change (Z.abs MinInt64) with (2 ^ 63). rewrite <- (Z.pow_1_r (2 ^ 63)) at 1. apply Z.pow_le_mono_r; lia. }
    rewrite swrap64_id by (unfold MinInt64, MaxInt64 in *; lia).
    rewrite (proj2 (Z.eqb_neq base MinInt64)), orb_false_r by done.
    destruct ((limit <? base) || (limit <? - base)) eqn:Eg.
    + assert (limit + 1 ≤ Z.abs base) as Hab by (apply orb_prop in Eg as [?%Z.ltb_lt|?%Z.ltb_lt]; lia).
      rewrite (proj2 (Z.leb_gt _ _)); [done|]. destruct (Z.le_gt_cases 2 exp) as [H2|H2].
      * apply (Z.lt_le_trans _ ((limit + 1) ^ exp)); [by apply Hgt|]. apply Z.pow_le_mono_l. lia.
      * specialize (Hone H2). unfold MinInt64, MaxInt64 in *. lia.
    + apply orb_false_iff in Eg as [Eg1%Z.ltb_ge Eg2%Z.ltb_ge].
      assert (Z.abs base ^ exp ≤ MaxInt64) as Hp.
      { apply (Z.le_trans _ (limit ^ exp)); [|done]. apply Z.pow_le_mono_l. lia. }
      rewrite (proj2 (Z.leb_le _ _) Hp). rewrite ipowCase_spec, Z.mul_1_l by (try done; lia).
      apply swrap64_id. pose proof (Z.abs_pow base exp). unfold MinInt64, MaxInt64 in *. lia.
Qed.

(** [ipow] returns the exact power of an [int64] base for every non-negative
    [int64] exponent whose absolute value fits an [int64] (and -2^63 to the
    first power), and 0 otherwise, so a non-zero result is never an overflow;
    in particular its tables are the exact bounds. *)
Theorem ipow_spec (base exp : Z) :
  MinInt64 ≤ base ≤ MaxInt64 → 0 ≤ exp ≤ MaxInt64 →
  ipow base exp =
    if (Z.abs base ^ exp <=? MaxInt64) || ((base =? MinInt64) && (exp =? 1)) then base ^ exp else 0.
Proof. apply ipow_exact. Qed.

Lemma ipow_spec_witness : ipow (-3) 39 = (-3) ^ 39 ∧ ipow 3 40 = 0.
Proof.
  split; [rewrite (ipow_spec (-3) 39)|rewrite (ipow_spec 3 40)]; unfold MinInt64, MaxInt64; (reflexivity || lia).
Defined.

(** ** Conversions to fixed-width integers *)

(** Sign, exponent and fraction fields of a 64-bit pattern. *)
Lemma bits_fields (s : bool) F R :
  0 ≤ F < 2 ^ 11 → 0 ≤ R < 2 ^ 52 →
  let b := (if s then 2 ^ 63 else 0) + (F * 2 ^ 52 + R) in
  Z.land (Z.shiftr b 52) 0x7ff = F ∧ Z.land b (Z.ones 52) = R ∧ (swrap 64 b <? 0) = s.
Proof.
  intros HF HR b. assert (b = ((if s then 2 ^ 11 else 0) + F) * 2 ^ 52 + R) as Hb by (unfold b; destruct s; lia).
  split; [|split].
  - change 0x7ff with (Z.ones 11). rewrite Z.land_ones, Z.shiftr_div_pow2, Hb by lia.
    rewrite Z.div_add_l, Z.div_small, Z.add_0_r by lia. destruct s; [|by rewrite Z.add_0_l, Z.mod_small].
    rewrite <- (Z.mul_1_l (2 ^ 11)) at 1. rewrite Z.add_comm, Z.mod_add by lia. by apply Z.mod_small.
  - rewrite Z.land_ones, Hb, Z.add_comm, Z.mod_add by lia. by apply Z.mod_small.
  - unfold swrap. destruct s; unfold b.
    + replace (2 ^ 63 + (F * 2 ^ 52 + R) + 2 ^ (64 - 1)) with (F * 2 ^ 52 + R + 1 * 2 ^ 64) by lia.
      rewrite Z.mod_add, Z.mod_small by lia. apply Z.ltb_lt. lia.
    + rewrite Z.mod_small by lia. apply Z.ltb_ge. lia.
Qed.

Lemma lor_implicit_bit R : 0 ≤ R < 2 ^ 52 → Z.lor R (Z.shiftl 1 52) = R + 2 ^ 52.
Proof.
  intros HR. change (Z.shiftl 1 52) with (2 ^ 52). rewrite <- Z.lxor_lor, Z.add_nocarry_lxor; [done| |].
  all: apply Z.bits_inj'; intros n Hn; rewrite Z.land_spec, Z.bits_0, Z.pow2_bits_eqb by lia;
    destruct (Z.eqb_spec 52 n) as [<-|]; [|by rewrite andb_false_r];
    rewrite andb_true_r; destruct (Z.eq_dec R 0) as [->|]; [done|];
    apply Z.bits_above_log2; [lia|]; apply Z.log2_lt_pow2; lia.
Qed.

(** What ToUint32 truncates. *)
Definition truncF (f : float64) : Z := match f with Fin s m e => truncZ s m e | _ => 0 end.

Lemma uwrap_uwrap w w' z : 0 ≤ w ≤ w' → uwrap w (uwrap w' z) = uwrap w z.
Proof.
  intros Hw. unfold uwrap. replace w' with (w + (w' - w)) by lia. rewrite Z.pow_add_r by lia.
  rewrite Z.rem_mul_r; [|apply Z.pow_nonzero; lia|apply Z.pow_pos_nonneg; lia].
  rewrite Z.mul_comm, Z.mod_add by (apply Z.pow_nonzero; lia). apply Z.mod_mod. apply Z.pow_nonzero; lia.
Qed.

Lemma uwrap_opp w z : 0 ≤ w → uwrap w (- uwrap w z) = uwrap w (- z).
Proof. intros Hw. unfold uwrap. rewrite <- (Z.sub_0_l (z mod _)), Zminus_mod_idemp_r. f_equal. Qed.

(** The integer part of [m * 2^e], as the shifts compute it. *)
Lemma truncZ_shift s m e :
  0 ≤ m → minExp ≤ e →
  truncZ s m e = let t := if 0 <=? e then m * 2 ^ e else m / 2 ^ (- e) in if s then - t else t.
Proof.
  intros Hm He. rewrite fval_truncZ by lia. cbn zeta.
  assert (magnitude m e / one = if 0 <=? e then m * 2 ^ e else m / 2 ^ (- e)) as ->; [|done].
  unfold magnitude, one. destruct (Z.leb_spec 0 e) as [E|E].
  - replace (e - minExp) with (e + 1074) by (unfold minExp; lia).
    rewrite pow2_split, Z.mul_assoc, Z.div_mul by lia. done.
  - replace 1074 with ((e - minExp) + (- e)) by (unfold minExp; lia).
    rewrite pow2_split, (Z.mul_comm (2 ^ (e - minExp))) by lia.
    rewrite Z.div_mul_cancel_r; [done|apply Z.pow_nonzero; lia..].
Qed.

Lemma floatToUint32_trunc f : validF f → floatToUint32 f = uwrap 32 (truncF f).
Proof.
  intros Hv. destruct f as [|s|s m e]; [done|by destruct s|]. destruct Hv as (Hm & He & Hn).
  unfold minExp, maxExp in *. cbn [truncF]. rewrite truncZ_shift by (unfold minExp; lia). cbn zeta. unfold floatToUint32.
  set (F := if m <? 2 ^ 52 then 0 else e + 1075). set (R := if m <? 2 ^ 52 then m else m - 2 ^ 52).
  assert (Float64bits (Fin s m e) = (if s then 2 ^ 63 else 0) + (F * 2 ^ 52 + R)) as Hb.
  { cbn [Float64bits]. unfold F, R. destruct (m <? 2 ^ 52); lia. }
  assert (0 ≤ F < 2 ^ 11 ∧ 0 ≤ R < 2 ^ 52) as [HF HR] by (unfold F, R; destruct (Z.ltb_spec m (2 ^ 52)); lia).
  destruct (bits_fields s F R HF HR) as (H1 & H2 & H3). cbn zeta in *. rewrite Hb, H1, H2, H3, lor_implicit_bit by done.
  assert (uwrap 32 (if 32 <=? F - 1075 then 0 else if 0 <=? F - 1075 then uwrap 64 (Z.shiftl (R + 2 ^ 52) (F - 1075))
            else Z.shiftr (R + 2 ^ 52) (- (F - 1075)))
          = uwrap 32 (if 0 <=? e then m * 2 ^ e else m / 2 ^ (- e))) as Hr.
  { unfold F, R. destruct (Z.ltb_spec m (2 ^ 52)) as [E|E].
    - assert (e = -1074) as -> by lia. cbn [Z.leb Z.compare Z.sub Z.add Z.opp].
      rewrite Z.shiftr_div_pow2 by lia. rewrite !Z.div_small; [done| |];
        (split; [lia|]); eapply Z.lt_le_trans; [|apply (Z.pow_le_mono_r 2 54); lia| |apply (Z.pow_le_mono_r 2 54); lia]; lia.
    - replace (e + 1075 - 1075) with e by lia. replace (m - 2 ^ 52 + 2 ^ 52) with m by lia.
      destruct (Z.leb_spec 32 e) as [E1|E1].
      + zcmp. unfold uwrap. replace e with ((e - 32) + 32) by lia.
        rewrite pow2_split, Z.mul_assoc, Z.mod_mul by lia. done.
      + destruct (Z.leb_spec 0 e) as [E2|E2].
        * rewrite uwrap_uwrap, Z.shiftl_mul_pow2 by lia. done.
        * rewrite Z.shiftr_div_pow2 by lia. done. }
  destruct s; [|exact Hr]. rewrite uwrap_uwrap by lia.
  rewrite <- uwrap_opp, Hr, uwrap_opp by lia. done.
Qed.

Lemma truncF_ofZ i : Z.abs i ≤ maxInt → truncF (ofZ i) = i.
Proof.
  intros Hi. destruct (ofZ_small i Hi) as (m & e & -> & _ & Hval & _). cbn. unfold truncZ. rewrite Hval.
  apply Z.quot_mul. pose proof one_pos. lia.
Qed.

(** A number of either representation: an integer is within the exact range. *)
Definition wfNumber (n : number) : Prop :=
  match n with valueInt i => Z.abs i ≤ maxInt | valueFloat f => validF f end.

Lemma toUint32_trunc n : wfNumber n → toUint32 n = uwrap 32 (truncF (ToFloat n)).
Proof.
  destruct n as [i|f]; cbn; intros Hn; [by rewrite truncF_ofZ|by apply floatToUint32_trunc].
Qed.

Lemma swrap_uwrap w w' z : 0 < w ≤ w' → swrap w (uwrap w' z) = swrap w z.
Proof.
  intros Hw. apply swrap_cong; [lia|]. apply (uwrap_uwrap w w' z). lia.
Qed.

Lemma toInt32_trunc n : wfNumber n → toInt32 n = swrap 32 (truncF (ToFloat n)).
Proof.
  destruct n as [i|f]; cbn; intros Hn; [by rewrite truncF_ofZ|].
  by rewrite floatToUint32_trunc, swrap_uwrap by (try done; lia).
Qed.

(** ToUint32, ToInt32 and ToUint16 of every number, in either
    representation, are the integer part modulo 2^32 (2^16), 0 for NaN and the
    infinities; the bit manipulation of [floatToUint32] is exact for all
    magnitudes. *)
Theorem toUint32_exact (n : number) :
  wfNumber n →
  toUint32 n = uwrap 32 (truncF (ToFloat n)) ∧
  toInt32 n = swrap 32 (truncF (ToFloat n)) ∧
  toUint16 n = uwrap 16 (truncF (ToFloat n)).
Proof.
  intros Hn. split; [by apply toUint32_trunc|]. split; [by apply toInt32_trunc|].
  destruct n as [i|f]; cbn in *; [by rewrite truncF_ofZ|].
  by rewrite floatToUint32_trunc, uwrap_uwrap by (try done; lia).
Qed.

Lemma toUint32_exact_witness :
  toUint32 (valueFloat (Fin true (2 ^ 52 + 3) 20)) = 2 ^ 32 - 3 * 2 ^ 20.
Proof.
  destruct (toUint32_exact (valueFloat (Fin true (2 ^ 52 + 3) 20))) as [-> _]; [|by vm_compute].
  cbn. unfold minExp, maxExp. lia.
Defined.

(** Within the int64 range the other conversions are modular too. *)
Lemma toInt64F_trunc oob s m e :
  MinInt64 ≤ truncZ s m e ≤ MaxInt64 → toInt64F oob (Fin s m e) = truncZ s m e.
Proof. intros Ht. cbn. rewrite !(proj2 (Z.leb_le _ _)) by lia. done. Qed.

(** ToInt8, ToUint8 and ToInt16 (typed array stores) are the integer part
    modulo 2^8 (2^16) for every number whose integer part fits an int64,
    whatever the machine does with floats out of that range. *)
Theorem toInt16_in_range (oob : float64 → Z) (n : number) :
  wfNumber n → MinInt64 ≤ truncF (ToFloat n) ≤ MaxInt64 →
  toInt8 oob n = swrap 8 (truncF (ToFloat n)) ∧
  toUint8 oob n = uwrap 8 (truncF (ToFloat n)) ∧
  toInt16 oob n = swrap 16 (truncF (ToFloat n)).
Proof.
  destruct n as [i|f]; cbn [ToFloat wfNumber]; intros Hn Ht; [by rewrite truncF_ofZ|].
  destruct f as [|s|s m e]; [done|done|]. cbn [toInt8 toUint8 toInt16 finite isNaN isInf negb andb truncF] in *.
  by rewrite toInt64F_trunc.
Qed.

Lemma toInt16_in_range_witness : toInt16 (λ _, 0) (valueFloat (ofZ 70000)) = 4464.
Proof.
  destruct (toInt16_in_range (λ _, 0) (valueFloat (ofZ 70000))) as (_ & _ & ->);
    [apply ofZ_valid|vm_compute; split; discriminate|by vm_compute].
Defined.

(** Out of that range [toInt16] is wrong on a machine (amd64) whose conversion
    yields the least int64: 2^63 + 2^11 is 2048 modulo 2^16. *)
Theorem toInt16_out_of_range :
  let f := Fin false (2 ^ 52 + 1) 11 in
  truncF f = 2 ^ 63 + 2 ^ 11 ∧ swrap 16 (truncF f) = 2048 ∧
  toInt16 (λ _, MinInt64) (valueFloat f) = 0.
Proof. by vm_compute. Qed.

(** *** ToUint8Clamp *)

(** The clamped nearest integer, ties to even, of a float. *)
Definition clampRound (f : float64) : Z :=
  match f with
  | NaN => 0
  | Inf s => if s then 0 else 255
  | Fin s m e => let v := fval s m e in
                 if v <=? 0 then 0 else if 255 * one <=? v then 255 else rne v one
  end.

Lemma fval_255 : ∃ m e, ofZ 255 = Fin false m e ∧ fval false m e = 255 * one.
Proof. destruct (ofZ_small 255 ltac:(done)) as (m & e & H1 & _ & H2 & _). eauto. Qed.

Lemma rne_half q v :
  q = v / one → 0 ≤ q ≤ 254 →
  rne v one = if q * one + half <? v then uwrap 8 (q + 1)
              else if v <? q * one + half then uwrap 8 q
              else let r := uwrap 8 q in if Z.land r 1 =? 0 then r else uwrap 8 (r + 1).
Proof.
  intros -> Hq. pose proof (Z.div_mod v one ltac:(done)) as Hd. unfold rne.
  assert (2 * half = one) as Hh by done.
  set (q := v / one) in *. cbn zeta. rewrite (uwrap_id 8 q), (uwrap_id 8 (q + 1)) by (change (2 ^ 8) with 256; lia).
  rewrite land_1_mod, <- Zeven_mod.
  destruct (Z.compare_spec (2 * (v mod one)) one) as [E|E|E].
  - rewrite (proj2 (Z.ltb_ge _ v)), (proj2 (Z.ltb_ge v _)) by lia. by destruct (Z.even q).
  - rewrite (proj2 (Z.ltb_ge _ v)), (proj2 (Z.ltb_lt v _)) by lia. done.
  - zcmp. done.
Qed.

(** ToUint8Clamp is the nearest integer, ties to even, clamped to 0..255, for
    every number; NaN and negative numbers give 0. *)
Theorem toUint8Clamp_nearest (n : number) : wfNumber n → toUint8Clamp n = clampRound (ToFloat n).
Proof.
  pose proof one_pos as Hone. destruct n as [i|f]; cbn [wfNumber ToFloat]; intros Hn.
  - destruct (ofZ_small i Hn) as (m & e & -> & _ & Hv & _). cbn [clampRound toUint8Clamp]. cbn zeta. rewrite Hv.
    destruct (Z.ltb_spec i 0); [by rewrite (proj2 (Z.leb_le _ _)) by nia|].
    destruct (Z.leb_spec (i * one) 0); [assert (i = 0) as -> by nia; done|].
    destruct (Z.leb_spec i 255), (Z.leb_spec (255 * one) (i * one)); try nia; try done.
    by rewrite rne_mult.
  - destruct f as [|s|s m e]; [done|by destruct s|]. cbn [clampRound toUint8Clamp isNaN]. cbn zeta.
    destruct fval_255 as (m5 & e5 & -> & Hv5). rewrite ofZ_zero. cbn [flt zeroF]. rewrite Hv5.
    change (fval false 0 minExp) with 0. set (v := fval s m e).
    destruct (Z.ltb_spec v 0); [by zcmp|].
    destruct (Z.ltb_spec (255 * one) v).
    { rewrite (proj2 (Z.leb_gt _ _)), (proj2 (Z.leb_le _ _)) by lia. done. }
    destruct (Z.leb_spec v 0) as [E|E]; [assert (v = 0) as -> by lia; by vm_compute|].
    destruct (Z.leb_spec (255 * one) v) as [E2|E2].
    { assert (v = 255 * one) as -> by lia. rewrite Z.div_mul by lia. by vm_compute. }
    symmetry. apply rne_half; [done|]. split; [apply Z.div_pos; lia|].
    enough (v / one < 255) by lia. apply Z.div_lt_upper_bound; lia.
Qed.

Lemma toUint8Clamp_nearest_witness : toUint8Clamp (valueFloat (Fin false (5 * 2 ^ 50) (-51))) = 2.
Proof.
  rewrite (toUint8Clamp_nearest (valueFloat (Fin false (5 * 2 ^ 50) (-51)))); [by vm_compute|].
  cbn. unfold minExp, maxExp. lia.
Defined.
End Numbers.
