(* ===== verification/Arith.v ===== *)
(** * The arithmetic instructions of vm.go

    Model of the instructions [_add] (its numeric part), [_sub], [_mul], [_div],
    [_mod], [_exp] with [pow] of builtin_math.go, [_neg], [_inc], [_dec], the
    bitwise and shift instructions and [cmp] (its numeric part), on operands
    that [toNumeric] has converted.  A [valueInt] operand takes an integer fast
    path; the theorems show that it computes what IEEE 754 prescribes. *)

From S2P Require Import Prelude Float64 Numbers.
Import Float64 Numbers.
Open Scope Z_scope.

Module Arith.

(** What toNumeric returns: a number or a BigInt. *)
Inductive numeric := NNum (n : number) | NBig (b : Z).

#[global] Instance numeric_eq_dec : EqDecision numeric.
Proof. solve_decision. Defined.

Definition errMixBigIntType : exn := TypeError "Cannot mix BigInt and other types, use explicit conversions".

Definition ToFloatN (n : numeric) : float64 := match n with NNum n => ToFloat n | NBig b => ofZ b end.

Definition num (n : number) : result numeric := Ok (NNum n).
Definition big (b : Z) : result numeric := Ok (NBig b).

Definition addOp (left right : numeric) : result numeric :=
  match left with
  | NNum (valueInt l) =>
      match right with
      | NNum (valueInt r) => num (intToValue (swrap 64 (l + r)))
      | NBig _ => Throw errMixBigIntType
      | _ => num (floatToValue (fadd (ofZ l) (ToFloatN right)))
      end
  | NBig l =>
      match right with NBig r => big (l + r) | _ => Throw errMixBigIntType end
  | _ =>
      match right with
      | NBig _ => Throw errMixBigIntType
      | _ => num (floatToValue (fadd (ToFloatN left) (ToFloatN right)))
      end
  end.

Definition subOp (left right : numeric) : result numeric :=
  match left, right with
  | NNum (valueInt l), NNum (valueInt r) => num (intToValue (swrap 64 (l - r)))
  | NBig l, NBig r => big (l - r)
  | NNum _, NBig _ | NBig _, NNum _ => Throw errMixBigIntType
  | _, _ => num (floatToValue (fsub (ToFloatN left) (ToFloatN right)))
  end.

(** The product is checked by dividing it back. *)
Definition mulOp (left right : numeric) : result numeric :=
  match left, right with
  | NNum (valueInt l), NNum (valueInt r) =>
      if (l =? 0) || (r =? 0) then
        if negb (eqb (l <? 0) (r <? 0)) then num (valueFloat negativeZero) else num (intToValue 0)
      else
        let res := swrap 64 (l * r) in
        if Z.quot res l =? r then num (intToValue res)
        else num (floatToValue (fmul (ofZ l) (ofZ r)))
  | NBig l, NBig r => big (l * r)
  | NNum _, NBig _ | NBig _, NNum _ => Throw errMixBigIntType
  | _, _ => num (floatToValue (fmul (ToFloatN left) (ToFloatN right)))
  end.

(** big.Int.QuoRem truncates. *)
Definition divOp (leftValue rightValue : numeric) : result numeric :=
  match leftValue, rightValue with
  | NBig l, NBig r =>
      if r =? 0 then Throw (RangeError "Division by zero")
      else if Z.abs l <? Z.abs r then big 0
      else big (Z.quot l r)
  | NNum _, NBig _ | NBig _, NNum _ => Throw errMixBigIntType
  | NNum ln, NNum rn =>
      let left := ToFloat ln in
      let right := ToFloat rn in
      let sameSign := eqb (Signbit left) (Signbit right) in
      num (if isNaN left || isNaN right then valueFloat NaN
           else if isInf left && isInf right then valueFloat NaN
           else if feq left (ofZ 0) && feq right (ofZ 0) then valueFloat NaN
           else if isInf left then valueFloat (Inf (negb sameSign))
           else if isInf right then if sameSign then valueInt 0 else valueFloat negativeZero
           else if feq right (ofZ 0) then valueFloat (Inf (negb sameSign))
           else floatToValue (fdiv left right))
  end.

(** big.Int.Mod is Euclidean. *)
Definition modOp (left right : numeric) : result numeric :=
  match left, right with
  | NNum (valueInt l), NNum (valueInt r) =>
      if r =? 0 then num (valueFloat NaN)
      else let rem := Z.rem l r in
           if (rem =? 0) && (l <? 0) then num (valueFloat negativeZero) else num (intToValue rem)
  | NBig l, NBig r =>
      if r =? 0 then Throw (RangeError "Division by zero")
      else if l <? 0 then big (- (Z.abs l mod Z.abs r))
      else big (l mod Z.abs r)
  | NNum _, NBig _ | NBig _, NNum _ => Throw errMixBigIntType
  | _, _ => num (floatToValue (fmod (ToFloatN left) (ToFloatN right)))
  end.

(** toNumeric of a number: a float is normalised. *)
Definition toNumericNum (n : number) : number :=
  match n with valueInt _ => n | valueFloat f => floatToValue f end.

Definition negOp (operand : numeric) : numeric :=
  match operand with
  | NBig b => NBig (- b)
  | NNum v =>
      NNum (match toNumericNum v with
            | valueInt n => if n =? 0 then valueFloat negativeZero else valueInt (swrap 64 (- n))
            | valueFloat _ => let f := ToFloat v in valueFloat (if isNaN f then f else fneg f)
            end)
  end.

Definition incOp (v : numeric) : numeric :=
  match v with
  | NBig b => NBig (b + 1)
  | NNum (valueInt n) => NNum (intToValue (swrap 64 (n + 1)))
  | NNum (valueFloat f) => NNum (valueFloat (fadd f (ofZ 1)))
  end.

Definition decOp (v : numeric) : numeric :=
  match v with
  | NBig b => NBig (b - 1)
  | NNum (valueInt n) => NNum (intToValue (swrap 64 (n - 1)))
  | NNum (valueFloat f) => NNum (valueFloat (fsub f (ofZ 1)))
  end.

(** ** Bitwise instructions *)

Definition andOp (left right : numeric) : result numeric :=
  match left, right with
  | NBig l, NBig r => big (Z.land l r)
  | NNum l, NNum r => num (intToValue (Z.land (toInt32 l) (toInt32 r)))
  | _, _ => Throw errMixBigIntType
  end.

Definition orOp (left right : numeric) : result numeric :=
  match left, right with
  | NBig l, NBig r => big (Z.lor l r)
  | NNum l, NNum r => num (intToValue (Z.lor (toInt32 l) (toInt32 r)))
  | _, _ => Throw errMixBigIntType
  end.

Definition xorOp (left right : numeric) : result numeric :=
  match left, right with
  | NBig l, NBig r => big (Z.lxor l r)
  | NNum l, NNum r => num (intToValue (Z.lxor (toInt32 l) (toInt32 r)))
  | _, _ => Throw errMixBigIntType
  end.

Definition bnotOp (v : numeric) : numeric :=
  match v with
  | NBig b => NBig (Z.lnot b)
  | NNum n => NNum (intToValue (Z.lnot (toInt32 n)))
  end.

Definition maxBigIntBits : Z := 2 ^ 30.

(** x.BitLen() *)
Definition bitLen (x : Z) : Z := if x =? 0 then 0 else Z.log2 (Z.abs x) + 1.

(** big.Int.Rsh rounds towards minus infinity; a shift by more than the machine
    word is one by math.MaxUint. *)
Definition bigIntShift (x n : Z) : result Z :=
  let k := Z.abs n in
  if (0 <? n) && negb (x =? 0) && ((MaxInt64 <? k) || (maxBigIntBits - bitLen x <? k))
  then Throw (RangeError "Maximum BigInt size exceeded")
  else if 64 <? bitLen k then Ok (Z.shiftr x (2 ^ 64 - 1))
  else if n <? 0 then Ok (Z.shiftr x k)
  else Ok (Z.shiftl x k).

Definition salOp (left right : numeric) : result numeric :=
  match left, right with
  | NBig l, NBig r => NBig <$> bigIntShift l r
  | NNum l, NNum r => num (intToValue (swrap 32 (Z.shiftl (toInt32 l) (Z.land (toUint32 r) 0x1F))))
  | _, _ => Throw errMixBigIntType
  end.

Definition sarOp (left right : numeric) : result numeric :=
  match left, right with
  | NBig l, NBig r => NBig <$> bigIntShift l (- r)
  | NNum l, NNum r => num (intToValue (Z.shiftr (toInt32 l) (Z.land (toUint32 r) 0x1F)))
  | _, _ => Throw errMixBigIntType
  end.

Definition shrOp (left right : numeric) : result numeric :=
  match left, right with
  | NNum l, NNum r => num (intToValue (Z.shiftr (toUint32 l) (Z.land (toUint32 r) 0x1F)))
  | _, _ => Throw (TypeError "BigInts have no unsigned right shift, use >> instead")
  end.

(** ** Exponentiation *)

Section pow.
(** math.Pow, which Go does not specify to the last bit. *)
Context (mathPow : float64 → float64 → float64).

Definition pow (x y : number) : number :=
  let float :=
    let xf := ToFloat x in
    let yf := ToFloat y in
    if feq (fabs xf) (ofZ 1) && isInf yf then valueFloat NaN
    else if feq xf (ofZ 1) && isNaN yf then valueFloat NaN
    else floatToValue (mathPow xf yf) in
  match x, y with
  | valueInt a, valueInt b =>
      if 0 <=? b then
        if b =? 0 then intToValue 1
        else if a =? 0 then intToValue 0
        else let ip := ipow a b in
             if negb (ip =? 0) then intToValue ip else float
      else float
  | _, _ => float
  end.

Definition expOp (x y : numeric) : result numeric :=
  match x, y with
  | NBig x, NBig y =>
      if y <? 0 then Throw (RangeError "exponent must be positive") else big (x ^ y)
  | NNum x, NNum y => num (pow x y)
  | _, _ => Throw errMixBigIntType
  end.
End pow.

(** ** Comparison *)

(** The order of a finite float and a BigInt: exact on integers, otherwise
    big.Float.Cmp, which is exact too. *)
Definition floatBigLt (s : bool) (m e : Z) (n : Z) : bool :=
  if isIntegral m e then truncZ s m e <? n else fval s m e <? n * one.
Definition bigFloatLt (n : Z) (s : bool) (m e : Z) : bool :=
  if isIntegral m e then n <? truncZ s m e else n * one <? fval s m e.

(** [None] is undefined. *)
Definition cmp (px py : numeric) : option bool :=
  match px, py with
  | NNum (valueInt nx), NNum (valueInt ny) => Some (nx <? ny)
  | NNum (valueInt nx), NBig ny => Some (nx <? ny)
  | NNum (valueFloat nx), NBig ny =>
      match nx with
      | NaN => None
      | Inf s => Some s
      | Fin s m e => Some (floatBigLt s m e ny)
      end
  | NBig nx, NNum (valueInt ny) => Some (nx <? ny)
  | NBig nx, NNum (valueFloat ny) =>
      match ny with
      | NaN => None
      | Inf s => Some (negb s)
      | Fin s m e => Some (bigFloatLt nx s m e)
      end
  | NBig nx, NBig ny => Some (nx <? ny)
  | NNum x, NNum y =>
      let nx := ToFloat x in
      let ny := ToFloat y in
      if isNaN nx || isNaN ny then None else Some (flt nx ny)
  end.

(** The four relational instructions, [==] and [===] apart. *)
Definition op_lt (l r : numeric) : bool := match cmp l r with None => false | Some b => b end.
Definition op_lte (l r : numeric) : bool := match cmp r l with None => false | Some b => negb b end.
Definition op_gt (l r : numeric) : bool := match cmp r l with None => false | Some b => b end.
Definition op_gte (l r : numeric) : bool := match cmp l r with None => false | Some b => negb b end.

(** ** Lemmas *)

Lemma swrap64_small z : Z.abs z ≤ 2 ^ 54 → swrap 64 z = z.
Proof. intros Hz. apply swrap64_id. unfold MinInt64, MaxInt64. lia. Qed.

Lemma floatToValue_ofZ i : Z.abs i ≤ maxInt → floatToValue (ofZ i) = intToValue i.
Proof. intros Hi. unfold floatToValue. by rewrite floatToInt_ofZ. Qed.

(** Rounding an integer above 2^53 + 1 does not go down to 2^53. *)
Lemma ofZ_large i : maxInt + 1 < Z.abs i → floatToInt (ofZ i) = None.
Proof.
  intros Hi. destruct (floatToInt (ofZ i)) as [j|] eqn:E; [exfalso|done].
  apply floatToInt_spec in E as [Hj Heq]; [|apply ofZ_valid].
  destruct (ofZ_small j Hj) as (mj & ej & Hofj & _ & Hvj & Hmj & _). rewrite Hofj in Heq.
  unfold ofZ, roundF in Heq. set (a := Z.abs i) in *. unfold maxInt in *.
  rewrite (proj2 (Z.eqb_neq a 0)) in Heq by lia.
  pose proof (log2_bounds a ltac:(lia)) as [Hlo Hhi]. set (l := Z.log2 a) in *.
  assert (53 ≤ l) as Hl by (apply (Z.log2_le_mono (2 ^ 53)); lia).
  assert (Z.max (0 + l - 52) minExp = l - 52) as Hmax by (unfold minExp; lia). rewrite Hmax in Heq.
  rewrite (proj2 (Z.leb_gt _ _)), Z.sub_0_r in Heq by lia.
  set (d := 2 ^ (l - 52)) in *. assert (2 ≤ d) as Hd by (apply (Z.pow_le_mono_r 2 1); lia).
  assert (2 ^ l = 2 ^ 52 * d) as Hld by (unfold d; rewrite <- pow2_split by lia; f_equal; lia).
  assert (2 ^ 53 + 1 < rne a d * d) as Hq.
  { pose proof (rne_nearest a d ltac:(lia)) as Hn. destruct (Z.eq_dec d 2) as [Hd2|Hd2]; [lia|].
    assert (4 ≤ d) by (unfold d in *; destruct (Z.eq_dec l 53) as [->|]; [done|apply (Z.pow_le_mono_r 2 2); lia]). lia. }
  assert (∀ q e', q * 2 ^ (e' - minExp) = rne a d * d * one → ∀ s, Fin s q e' = Fin (j <? 0) mj ej → False) as Hcontra.
  { intros q e' Hval s [= -> -> ->]. pose proof (fval_abs (j <? 0) mj ej Hmj) as Ha. rewrite Hvj in Ha.
    unfold magnitude in Ha. rewrite Hval, Z.abs_mul in Ha. change (Z.abs one) with one in Ha.
    pose proof one_pos. nia. }
  assert (2 ^ (l - 52 - minExp) = d * one) as Hpow.
  { unfold d, one. rewrite <- pow2_split by lia. f_equal. }
  destruct (Z.eqb_spec (rne a d) (2 ^ 53)) as [Er|Er]; destruct (maxExp <? _); try done.
  - eapply (Hcontra (2 ^ 52) (l - 52 + 1)); [|exact Heq]. rewrite Er.
    replace (l - 52 + 1 - minExp) with (Z.succ (l - 52 - minExp)) by lia.
    rewrite Z.pow_succ_r, Hpow by (unfold minExp; lia). lia.
  - eapply (Hcontra (rne a d) (l - 52)); [|exact Heq]. rewrite Hpow. lia.
Qed.

(** [intToValue] is the normal form, except just above 2^53. *)
Lemma intToValue_normal i :
  Z.abs i ≠ maxInt + 1 → intToValue i = floatToValue (ofZ i).
Proof.
  intros Hi. rewrite intToValue_eq. destruct (Z.leb_spec (Z.abs i) maxInt) as [E|E].
  - rewrite floatToValue_ofZ, intToValue_eq by done. by rewrite (proj2 (Z.leb_le _ _)).
  - unfold floatToValue. rewrite ofZ_large by lia.
    destruct (ofZ i) as [|s|s m e] eqn:Ei; [done|done|].
    rewrite ofZ_zero. cbn [feq zeroF isNaN]. destruct (Z.eqb_spec (fval s m e) (fval false 0 minExp)) as [Ez|Ez]; [|done].
    change (fval false 0 minExp) with 0 in Ez. exfalso.
    assert (floatToInt (ofZ i) = None) as Hn by (apply ofZ_large; lia).
    pose proof (ofZ_valid i) as Hv. rewrite Ei in *. destruct Hv as (Hm & He & Hv).
    assert (m = 0) as -> by (apply (magnitude_zero m e); unfold fval in Ez; destruct s; lia).
    revert Ei. unfold ofZ, roundF. rewrite (proj2 (Z.eqb_neq _ 0)) by (unfold maxInt in *; lia).
    pose proof (round_mantissa (Z.abs i) 0 _ ltac:(unfold maxInt in *; lia) eq_refl) as [_ Hq]. cbn zeta in *.
    set (q := if _ <=? 0 then _ else _) in *. set (e' := Z.max _ minExp) in *.
    assert (e' ≠ minExp) as He'.
    { unfold e', minExp. assert (0 ≤ Z.log2 (Z.abs i)) by apply Z.log2_nonneg. lia. }
    destruct (q =? 2 ^ 53); destruct (maxExp <? _); intros [=]; lia.
Qed.

(** ** The fast paths compute the IEEE 754 result *)

Inductive arithOp := Add | Sub | Mul | Div | Mod.

Definition execArith (op : arithOp) : numeric → numeric → result numeric :=
  match op with Add => addOp | Sub => subOp | Mul => mulOp | Div => divOp | Mod => modOp end.

Definition ieee (op : arithOp) : float64 → float64 → float64 :=
  match op with Add => fadd | Sub => fsub | Mul => fmul | Div => fdiv | Mod => fmod end.

(** The result of an instruction: a number of value [f], in normal form unless
    it is 2^53 (or -2^53) rounded down from 2^53 + 1. *)
Definition computes (r : result numeric) (f : float64) : Prop :=
  ∃ n, r = Ok (NNum n) ∧ ToFloat n = f ∧
       (n = floatToValue f ∨ (n = valueFloat f ∧ (f = ofZ maxInt ∨ f = ofZ (- maxInt)))).

Lemma computes_float f : validF f → computes (num (floatToValue f)) f.
Proof. intros Hv. exists (floatToValue f). split; [done|]. split; [by apply floatToValue_spec|by left]. Qed.

Lemma computes_int i : computes (num (intToValue i)) (ofZ i).
Proof.
  exists (intToValue i). split; [done|]. split; [apply ToFloat_intToValue|].
  destruct (Z.eq_dec (Z.abs i) (maxInt + 1)) as [E|E]; [right|left; by apply intToValue_normal].
  assert (i = maxInt + 1 ∨ i = - (maxInt + 1)) as [-> | ->] by lia; split; try done; [left|right]; done.
Qed.

Lemma computes_norm f n : validF f → n = floatToValue f → computes (num n) f.
Proof. intros Hv ->. by apply computes_float. Qed.

Lemma zeroF_valid s : validF (zeroF s).
Proof. cbn. unfold minExp, maxExp. lia. Qed.

Lemma ofVal_valid s v : validF (ofVal s v).
Proof. unfold ofVal. destruct (v =? 0); [apply zeroF_valid|apply roundF_valid; lia]. Qed.

Lemma fadd_valid f g : validF f → validF g → validF (fadd f g).
Proof.
  destruct f as [|s|s m e], g as [|s'|s' m' e']; intros Hf Hg; try done.
  - cbn. by destruct s, s'.
  - apply ofVal_valid.
Qed.

Lemma fneg_valid f : validF f → validF (fneg f).
Proof. by destruct f. Qed.

Lemma fmul_valid f g : validF f → validF g → validF (fmul f g).
Proof.
  destruct f as [|s|s m e], g as [|s'|s' m' e']; intros Hf Hg; try done; cbn [fmul];
    [by destruct (m' =? 0)|by destruct (m =? 0)|].
  destruct Hf as (? & _), Hg as (? & _). apply roundF_valid. nia.
Qed.

Lemma fdiv_valid f g : validF f → validF g → validF (fdiv f g).
Proof.
  destruct f as [|s|s m e], g as [|s'|s' m' e']; intros Hf Hg; try done; cbn [fdiv]; [apply zeroF_valid|].
  destruct Hf as (? & _), Hg as (? & _). destruct (Z.eqb_spec m' 0); [by destruct (m =? 0)|].
  apply roundF_valid. assert (0 ≤ m * 2 ^ 120 / m') by (apply Z.div_pos; lia). destruct (_ =? 0); lia.
Qed.

Lemma fmod_valid f g : validF f → validF g → validF (fmod f g).
Proof.
  destruct f as [|s|s m e], g as [|s'|s' m' e']; intros Hf Hg; try done. cbn [fmod].
  destruct (m' =? 0); [done|]. apply ofVal_valid.
Qed.

Lemma ToFloat_valid n : wfNumber n → validF (ToFloat n).
Proof. destruct n; cbn; [intros; apply ofZ_valid|done]. Qed.

(** The overflow check of the multiplication is exact. *)
Lemma mul_check l r :
  Z.abs l ≤ maxInt → l ≠ 0 → Z.quot (swrap 64 (l * r)) l = r → swrap 64 (l * r) = l * r.
Proof.
  intros Hl Hnz Hq. set (res := swrap 64 (l * r)) in *.
  pose proof (Z.quot_rem' res l) as Hd. rewrite Hq in Hd.
  pose proof (Z.rem_bound_abs res l Hnz) as Hb. unfold maxInt in *.
  assert (res mod 2 ^ 64 = (l * r) mod 2 ^ 64) as Hm by (by apply swrap_mod).
  assert ((res - l * r) mod 2 ^ 64 = 0) as Hz by (rewrite Zminus_mod, Hm, Z.sub_diag; done).
  apply Z.mod_divide in Hz as [k Hk]; [|done]. lia.
Qed.

Lemma add_ieee l r : wfNumber l → wfNumber r → computes (addOp (NNum l) (NNum r)) (fadd (ToFloat l) (ToFloat r)).
Proof.
  intros Hl Hr. pose proof (fadd_valid _ _ (ToFloat_valid l Hl) (ToFloat_valid r Hr)).
  destruct l as [l|f], r as [r|g]; cbn in *; try (by apply computes_float).
  unfold maxInt in *. rewrite fadd_ofZ, swrap64_small by lia. apply computes_int.
Qed.

Lemma sub_ieee l r : wfNumber l → wfNumber r → computes (subOp (NNum l) (NNum r)) (fsub (ToFloat l) (ToFloat r)).
Proof.
  intros Hl Hr. pose proof (fadd_valid _ _ (ToFloat_valid l Hl) (fneg_valid _ (ToFloat_valid r Hr))) as Hv.
  fold (fsub (ToFloat l) (ToFloat r)) in Hv.
  destruct l as [l|f], r as [r|g]; cbn in *; try (by apply computes_float).
  unfold maxInt in *. rewrite fsub_ofZ, swrap64_small by lia. apply computes_int.
Qed.

Lemma mul_ieee l r : wfNumber l → wfNumber r → computes (mulOp (NNum l) (NNum r)) (fmul (ToFloat l) (ToFloat r)).
Proof.
  intros Hl Hr. pose proof (fmul_valid _ _ (ToFloat_valid l Hl) (ToFloat_valid r Hr)) as Hv.
  destruct l as [l|f], r as [r|g]; cbn [ToFloat mulOp ToFloatN wfNumber] in *; try (by apply computes_float).
  destruct ((l =? 0) || (r =? 0)) eqn:E.
  - assert (l * r = 0) as Hz by (apply orb_prop in E as [?%Z.eqb_eq|?%Z.eqb_eq]; lia).
    assert (ofZ l = zeroF false ∨ ofZ r = zeroF false) as Hzf
      by (apply orb_prop in E as [?%Z.eqb_eq|?%Z.eqb_eq]; subst; auto).
    rewrite fmul_ofZ, Hz in * by done. cbn [Z.eqb].
    destruct (l <? 0), (r <? 0); cbn; apply computes_norm; try done; apply zeroF_valid.
  - apply orb_false_iff in E as [E1%Z.eqb_neq E2%Z.eqb_neq]. cbn zeta.
    destruct (Z.eqb_spec (Z.quot (swrap 64 (l * r)) l) r) as [Hq|Hq]; [|by apply computes_float].
    rewrite (mul_check l r) by done. rewrite fmul_ofZ, (proj2 (Z.eqb_neq _ 0)) by (try done; nia). apply computes_int.
Qed.

Lemma mod_ieee l r : wfNumber l → wfNumber r → computes (modOp (NNum l) (NNum r)) (fmod (ToFloat l) (ToFloat r)).
Proof.
  intros Hl Hr. pose proof (fmod_valid _ _ (ToFloat_valid l Hl) (ToFloat_valid r Hr)) as Hv.
  destruct l as [l|f], r as [r|g]; cbn [ToFloat modOp ToFloatN wfNumber] in *; try (by apply computes_float).
  destruct (Z.eqb_spec r 0) as [->|Hr0].
  - assert (fmod (ofZ l) (ofZ 0) = NaN) as ->; [|by apply computes_norm].
    destruct (ofZ_small l Hl) as (m & e & -> & _). done.
  - rewrite fmod_ofZ by done. cbn zeta. destruct (Z.eqb_spec (Z.rem l r) 0) as [E|E]; cbn [andb].
    + destruct (l <? 0); [by apply computes_norm; [apply zeroF_valid|]|].
      rewrite E. apply computes_int.
    + apply computes_int.
Qed.

Lemma feq_zero f : validF f → feq f (ofZ 0) = match f with Fin _ m _ => m =? 0 | _ => false end.
Proof.
  intros Hv. destruct f as [|s|s m e]; [done|done|]. rewrite ofZ_zero. cbn [feq zeroF].
  change (fval false 0 minExp) with 0. destruct Hv as (Hm & He & _).
  pose proof (magnitude_zero m e ltac:(lia) ltac:(lia)). unfold fval.
  destruct (Z.eqb_spec m 0), s; try apply Z.eqb_eq; try apply Z.eqb_neq; lia.
Qed.

Lemma div_ieee l r : wfNumber l → wfNumber r → computes (divOp (NNum l) (NNum r)) (fdiv (ToFloat l) (ToFloat r)).
Proof.
  intros Hl%ToFloat_valid Hr%ToFloat_valid. cbn [divOp].
  set (f := ToFloat l) in *. set (g := ToFloat r) in *. clearbody f g. clear l r.
  pose proof (fdiv_valid f g Hl Hr) as Hv. apply computes_norm; [done|]. rewrite !feq_zero by done. clear Hl Hr Hv.
  destruct f as [|s|s m e], g as [|s'|s' m' e']; try done; cbn [isNaN isInf orb andb Signbit fdiv];
    rewrite ?andb_false_r; try (by destruct s, s').
  destruct (m' =? 0), (m =? 0); cbn [andb]; try done; destruct s, s'; reflexivity.
Qed.

(** C35: on numbers in either representation [+], [-], [*], [/] and [%] compute
    the IEEE 754 result of the operands' values, signed zeros, NaN and
    infinities included: the integer fast paths and their overflow checks lose
    nothing.  The result is in normal form, except that the integer fast path
    leaves 2^53 as a float when it rounds 2^53 + 1. *)
Theorem arith_ieee (op : arithOp) (l r : number) :
  wfNumber l → wfNumber r →
  computes (execArith op (NNum l) (NNum r)) (ieee op (ToFloat l) (ToFloat r)).
Proof. destruct op; [apply add_ieee|apply sub_ieee|apply mul_ieee|apply div_ieee|apply mod_ieee]. Qed.

Lemma arith_ieee_witness :
  computes (execArith Mul (NNum (valueInt 0)) (NNum (valueInt (-5)))) negativeZero ∧
  computes (execArith Add (NNum (valueInt maxInt)) (NNum (valueInt 1))) (ofZ maxInt).
Proof.
  split; [apply (arith_ieee Mul (valueInt 0) (valueInt (-5)))|apply (arith_ieee Add (valueInt maxInt) (valueInt 1))];
    cbn; unfold maxInt; lia.
Defined.

(** ** Unary instructions *)

Lemma fneg_ofZ i : i ≠ 0 → fneg (ofZ i) = ofZ (- i).
Proof.
  intros Hnz. unfold ofZ. rewrite Z.abs_opp. assert ((- i <? 0) = negb (i <? 0)) as ->
    by (destruct (Z.ltb_spec (- i) 0), (Z.ltb_spec i 0); try done; lia).
  unfold roundF. destruct (Z.abs i =? 0); [done|]. by destruct (if _ =? 2 ^ 53 then _ else _), (maxExp <? _).
Qed.

(** Unary minus, [++] and [--] have the IEEE 754 value.  An integer operand
    gives an integer result, but a float operand gives a float even when the
    result is an integer: these three instructions do not normalise. *)
Theorem unary_value (n : number) :
  wfNumber n →
  (∃ m, negOp (NNum n) = NNum m ∧ ToFloat m = fneg (ToFloat n)) ∧
  (∃ m, incOp (NNum n) = NNum m ∧ ToFloat m = fadd (ToFloat n) (ofZ 1)) ∧
  (∃ m, decOp (NNum n) = NNum m ∧ ToFloat m = fsub (ToFloat n) (ofZ 1)).
Proof.
  intros Hn. split; [|split].
  - eexists. split; [done|]. destruct (toNumericNum n) as [i|f] eqn:E.
    + assert (ToFloat n = ofZ i ∧ Z.abs i ≤ maxInt) as [-> Hi].
      { destruct n as [j|f]; cbn in *; [by injection E as ->|].
        destruct (floatToValue_spec f Hn) as [Hnorm Hval]. rewrite E in *. by cbn in *. }
      destruct (Z.eqb_spec i 0) as [->|Hnz]; [done|]. cbn [ToFloat].
      rewrite swrap64_small by (unfold maxInt in *; lia). by rewrite fneg_ofZ.
    + cbn [ToFloat]. by destruct (ToFloat n).
  - destruct n as [i|f]; cbn; (eexists; split; [done|]); [|done].
    unfold wfNumber, maxInt in *. rewrite ToFloat_intToValue, fadd_ofZ by lia.
    by rewrite swrap64_small by lia.
  - destruct n as [i|f]; cbn; (eexists; split; [done|]); [|done].
    unfold wfNumber, maxInt in *. rewrite ToFloat_intToValue, fsub_ofZ by lia.
    by rewrite swrap64_small by lia.
Qed.

Lemma unary_value_witness : ∃ m, incOp (NNum (valueInt 41)) = NNum m ∧ ToFloat m = ofZ 42.
Proof.
  destruct (unary_value (valueInt 41)) as (_ & (m & H1 & H2) & _); [cbn; unfold maxInt; lia|].
  exists m. split; [exact H1|]. rewrite H2. by vm_compute.
Defined.

(** [x = -0; x++] leaves the float 1, not the integer 1 that every other way of
    computing 1 gives; [-(-0)] is the float 0; 2^53 + 1 is the float 2^53. *)
Theorem not_normalised :
  incOp (NNum (valueFloat negativeZero)) = NNum (valueFloat (ofZ 1)) ∧
  negOp (NNum (valueFloat negativeZero)) = NNum (valueFloat (ofZ 0)) ∧
  addOp (NNum (valueInt maxInt)) (NNum (valueInt 1)) = Ok (NNum (valueFloat (ofZ maxInt))) ∧
  ¬ normal (valueFloat (ofZ 1)) ∧ ¬ normal (valueFloat (ofZ 0)) ∧ ¬ normal (valueFloat (ofZ maxInt)).
Proof.
  assert (∀ i, Z.abs i ≤ maxInt → ¬ normal (valueFloat (ofZ i))) as Hn by (intros i Hi [_ H]; by apply (H i)).
  split; [by vm_compute|]. split; [by vm_compute|]. split; [by vm_compute|].
  split; [|split]; apply Hn; unfold maxInt; lia.
Qed.

(** ** Bitwise instructions *)

Definition int32 (z : Z) : Prop := - 2 ^ 31 ≤ z < 2 ^ 31.

Lemma int32_shiftr z : int32 z ↔ Z.shiftr z 31 = 0 ∨ Z.shiftr z 31 = -1.
Proof.
  unfold int32. rewrite Z.shiftr_div_pow2 by lia. pose proof (Z.div_mod z (2 ^ 31) ltac:(lia)).
  pose proof (Z.mod_pos_bound z (2 ^ 31) ltac:(lia)). nia.
Qed.

Lemma int32_bitop z w :
  int32 z → int32 w → int32 (Z.land z w) ∧ int32 (Z.lor z w) ∧ int32 (Z.lxor z w) ∧ int32 (Z.lnot z).
Proof.
  rewrite !int32_shiftr. intros Hz Hw.
  rewrite Z.shiftr_land, Z.shiftr_lor, Z.shiftr_lxor. unfold Z.lnot.
  assert (Z.shiftr (Z.pred (- z)) 31 = Z.lnot (Z.shiftr z 31)) as ->.
  { fold (Z.lnot z). rewrite !Z.shiftr_div_pow2 by lia. unfold Z.lnot.
    pose proof (Z.div_mod z (2 ^ 31) ltac:(lia)). pose proof (Z.mod_pos_bound z (2 ^ 31) ltac:(lia)).
    pose proof (Z.div_mod (Z.pred (- z)) (2 ^ 31) ltac:(lia)). pose proof (Z.mod_pos_bound (Z.pred (- z)) (2 ^ 31) ltac:(lia)). nia. }
  destruct Hz as [-> | ->], Hw as [-> | ->]; cbn; auto.
Qed.

Lemma swrap32_int32 z : int32 (swrap 32 z).
Proof. pose proof (swrap_range 32 z ltac:(lia)) as H. exact H. Qed.

Lemma int32_value z : int32 z → intToValue z = valueInt z.
Proof.
  unfold int32. intros Hz. rewrite intToValue_eq. unfold maxInt. by zcmp.
Qed.

Lemma shift_count z : 0 ≤ Z.land z 0x1F < 32.
Proof. change 0x1F with (Z.ones 5). rewrite Z.land_ones by lia. apply Z.mod_pos_bound. lia. Qed.

Lemma int32_sar z k : int32 z → 0 ≤ k → int32 (Z.shiftr z k).
Proof.
  unfold int32. intros Hz Hk. rewrite Z.shiftr_div_pow2 by lia. assert (0 < 2 ^ k) by (apply Z.pow_pos_nonneg; lia).
  split; [apply Z.div_le_lower_bound; nia|apply Z.div_lt_upper_bound; nia].
Qed.

(** What ToInt32 and the shift count of a number are. *)
Definition I32 (n : number) : Z := swrap 32 (truncF (ToFloat n)).
Definition U32 (n : number) : Z := uwrap 32 (truncF (ToFloat n)).

(** The bitwise and shift instructions act on the 32-bit two's complement of
    the operands' integer parts, shift counts are modulo 32, and the results are
    integers in the int32 range, uint32 for [>>>]. *)
Theorem bitwise_int32 (l r : number) :
  wfNumber l → wfNumber r →
  let k := U32 r mod 32 in
  andOp (NNum l) (NNum r) = num (valueInt (Z.land (I32 l) (I32 r))) ∧
  orOp (NNum l) (NNum r) = num (valueInt (Z.lor (I32 l) (I32 r))) ∧
  xorOp (NNum l) (NNum r) = num (valueInt (Z.lxor (I32 l) (I32 r))) ∧
  bnotOp (NNum l) = NNum (valueInt (- I32 l - 1)) ∧
  salOp (NNum l) (NNum r) = num (valueInt (swrap 32 (I32 l * 2 ^ k))) ∧
  sarOp (NNum l) (NNum r) = num (valueInt (I32 l / 2 ^ k)) ∧
  shrOp (NNum l) (NNum r) = num (valueInt (U32 l / 2 ^ k)).
Proof.
  intros Hl Hr k. unfold I32, U32 in *.
  rewrite <- !toInt32_trunc by done. unfold andOp, orOp, xorOp, bnotOp, salOp, sarOp, shrOp.
  assert (Z.land (toUint32 r) 0x1F = k) as ->.
  { change 0x1F with (Z.ones 5). rewrite Z.land_ones, toUint32_trunc by (try done; lia). done. }
  assert (0 ≤ k < 32) as Hk by (apply Z.mod_pos_bound; lia).
  assert (int32 (toInt32 l) ∧ int32 (toInt32 r)) as [Hil Hir] by (rewrite !toInt32_trunc by done; split; apply swrap32_int32).
  pose proof (int32_bitop _ _ Hil Hir) as (H1 & H2 & H3 & H4).
  rewrite !int32_value by (done || apply swrap32_int32 || (apply int32_sar; [done|lia])).
  rewrite Z.shiftl_mul_pow2, Z.shiftr_div_pow2, toUint32_trunc by (try done; lia). repeat (split; [done|]).
  rewrite Z.shiftr_div_pow2 by lia. pose proof (uwrap_range 32 (truncF (ToFloat l)) ltac:(lia)) as Hu.
  assert (0 < 2 ^ k) by (apply Z.pow_pos_nonneg; lia).
  assert (0 ≤ uwrap 32 (truncF (ToFloat l)) / 2 ^ k < 2 ^ 32)
    by (split; [apply Z.div_pos; lia|apply Z.div_lt_upper_bound; nia]).
  rewrite intToValue_eq. unfold maxInt. by zcmp.
Qed.

Lemma bitwise_int32_witness :
  sarOp (NNum (valueInt (-9))) (NNum (valueInt 33)) = num (valueInt (-5)) ∧
  shrOp (NNum (valueInt (-1))) (NNum (valueInt 0)) = num (valueInt 4294967295).
Proof.
  assert (∀ i, Z.abs i ≤ 100 → wfNumber (valueInt i)) as Hw by (intros; cbn; unfold maxInt; lia).
  destruct (bitwise_int32 (valueInt (-9)) (valueInt 33) (Hw (-9) ltac:(lia)) (Hw 33 ltac:(lia)))
    as (_ & _ & _ & _ & _ & H1 & _).
  destruct (bitwise_int32 (valueInt (-1)) (valueInt 0) (Hw (-1) ltac:(lia)) (Hw 0 ltac:(lia)))
    as (_ & _ & _ & _ & _ & _ & H2).
  rewrite H1, H2. split; by vm_compute.
Defined.

(** ** Exponentiation *)

(** An integer power whose absolute value fits an int64 is exact before the
    one rounding to a float, whatever math.Pow returns; an overflowing one is
    math.Pow of the operands. *)
Theorem pow_integers (mathPow : float64 → float64 → float64) (a b : Z) :
  Z.abs a ≤ maxInt → 0 ≤ b ≤ maxInt →
  pow mathPow (valueInt a) (valueInt b) =
    if Z.abs a ^ b <=? MaxInt64 then intToValue (a ^ b) else floatToValue (mathPow (ofZ a) (ofZ b)).
Proof.
  intros Ha Hb. unfold pow. zcmp.
  destruct (Z.eqb_spec b 0) as [->|Hb0]; [by rewrite !Z.pow_0_r|].
  destruct (Z.eqb_spec a 0) as [->|Ha0]; [by rewrite !Z.pow_0_l by lia|].
  rewrite ipow_exact by (unfold maxInt, MinInt64, MaxInt64 in *; lia).
  rewrite (proj2 (Z.eqb_neq a MinInt64)), orb_false_r by (unfold maxInt, MinInt64 in *; lia).
  destruct (Z.leb_spec (Z.abs a ^ b) MaxInt64) as [E|E].
  - rewrite (proj2 (Z.eqb_neq _ 0)); [done|]. apply Z.pow_nonzero; lia.
  - cbn [negb Z.eqb ToFloat]. destruct (ofZ_small b ltac:(unfold maxInt in *; lia)) as (m & e & -> & _).
    cbn [isInf isNaN]. by rewrite !andb_false_r.
Qed.

Lemma pow_integers_witness : pow (λ _ _, NaN) (valueInt (-3)) (valueInt 3) = valueInt (-27).
Proof. rewrite (pow_integers (λ _ _, NaN) (-3) 3); [by vm_compute|unfold maxInt; lia..]. Defined.

(** ** BigInt *)

Lemma shiftr_bitlen x k : bitLen x ≤ k → Z.shiftr x k = if x <? 0 then -1 else 0.
Proof.
  intros Hk. unfold bitLen in Hk. destruct (Z.eqb_spec x 0) as [->|Hx]; [apply Z.shiftr_0_l|].
  pose proof (log2_bounds (Z.abs x) ltac:(lia)) as [_ Hhi]. pose proof (Z.log2_nonneg (Z.abs x)).
  assert (2 * 2 ^ Z.log2 (Z.abs x) ≤ 2 ^ k) as Hp by (rewrite <- Z.pow_succ_r by lia; apply Z.pow_le_mono_r; lia).
  rewrite Z.shiftr_div_pow2 by lia. destruct (Z.ltb_spec x 0).
  - symmetry. apply (Z.div_unique x (2 ^ k) (-1) (x + 2 ^ k)); lia.
  - apply Z.div_small. lia.
Qed.

(** C40: BigInt division truncates and the remainder has the sign of the dividend,
    division by zero is a RangeError; a shift is the exact product or floored
    quotient by a power of two, however large the count, and a RangeError
    exactly when the left shift would exceed the size limit. *)
Theorem bigint_ops (x n : Z) :
  bitLen x < 2 ^ 64 →
  (divOp (NBig x) (NBig n) = if n =? 0 then Throw (RangeError "Division by zero") else big (Z.quot x n)) ∧
  (modOp (NBig x) (NBig n) = if n =? 0 then Throw (RangeError "Division by zero") else big (Z.rem x n)) ∧
  bigIntShift x n =
    if (0 <? n) && negb (x =? 0) && (maxBigIntBits <? bitLen x + n)
    then Throw (RangeError "Maximum BigInt size exceeded")
    else Ok (if n <? 0 then x / 2 ^ (- n) else x * 2 ^ n).
Proof.
  intros Hx. split; [|split].
  - cbn. destruct (Z.eqb_spec n 0); [done|]. destruct (Z.ltb_spec (Z.abs x) (Z.abs n)); [|done].
    f_equal. symmetry. f_equal. rewrite Z.quot_small_iff by lia. lia.
  - cbn. destruct (Z.eqb_spec n 0); [done|]. unfold big. destruct (Z.ltb_spec x 0); do 2 f_equal.
    + rewrite <- (Z.rem_mod_nonneg (Z.abs x)) by lia. rewrite Z.rem_abs_r by lia.
      replace x with (- Z.abs x) at 2 by lia. by rewrite Z.rem_opp_l by lia.
    + rewrite <- (Z.rem_mod_nonneg x) by lia. by rewrite Z.rem_abs_r by lia.
  - unfold bigIntShift. cbn zeta. assert (0 ≤ bitLen x) as Hbx.
    { unfold bitLen. destruct (x =? 0); [lia|]. pose proof (Z.log2_nonneg (Z.abs x)). lia. }
    assert ((0 <? n) && negb (x =? 0) && ((MaxInt64 <? Z.abs n) || (maxBigIntBits - bitLen x <? Z.abs n))
          = (0 <? n) && negb (x =? 0) && (maxBigIntBits <? bitLen x + n)) as ->.
    { destruct (Z.ltb_spec 0 n), (Z.eqb_spec x 0); cbn; try done. unfold maxBigIntBits, MaxInt64.
      destruct (Z.ltb_spec 9223372036854775807 (Z.abs n)), (Z.ltb_spec (2 ^ 30 - bitLen x) (Z.abs n)),
        (Z.ltb_spec (2 ^ 30) (bitLen x + n)); try done; lia. }
    destruct ((0 <? n) && negb (x =? 0) && (maxBigIntBits <? bitLen x + n)) eqn:Eg; [done|].
    destruct (Z.ltb_spec 64 (bitLen (Z.abs n))) as [E|E].
    + assert (2 ^ 64 ≤ Z.abs n) as Hn.
      { unfold bitLen in E. destruct (Z.eqb_spec (Z.abs n) 0); [lia|]. rewrite Z.abs_idemp in E.
        pose proof (log2_bounds (Z.abs n) ltac:(lia)).
        assert (2 ^ 64 ≤ 2 ^ Z.log2 (Z.abs n)) by (apply Z.pow_le_mono_r; lia). lia. }
      rewrite shiftr_bitlen by lia. apply (f_equal Ok). destruct (Z.ltb_spec n 0) as [En|En].
      * rewrite <- Z.shiftr_div_pow2, shiftr_bitlen by lia. done.
      * rewrite (proj2 (Z.ltb_lt 0 n)) in Eg by lia. cbn [andb] in Eg. destruct (Z.eqb_spec x 0) as [->|]; [done|].
        cbn [negb andb] in Eg. apply Z.ltb_ge in Eg. unfold maxBigIntBits in Eg. lia.
    + destruct (Z.ltb_spec n 0).
      * rewrite Z.shiftr_div_pow2 by lia. replace (Z.abs n) with (- n) by lia. done.
      * rewrite Z.shiftl_mul_pow2 by lia. replace (Z.abs n) with n by lia. done.
Qed.

Lemma bigint_ops_witness : modOp (NBig (-7)) (NBig (-3)) = big (-1) ∧ bigIntShift (-5) (-1) = Ok (-3).
Proof.
  destruct (bigint_ops (-7) (-3)) as (_ & H1 & _); [done|]. destruct (bigint_ops (-5) (-1)) as (_ & _ & H2); [done|].
  rewrite H1, H2. by vm_compute.
Defined.

(** ** Comparison *)

(** The value of a numeric in the extended reals, in units of 2^-1074. *)
Inductive ext := MInf | Val (z : Z) | PInf.

Definition extVal (n : numeric) : option ext :=
  match n with
  | NBig b => Some (Val (b * one))
  | NNum n => match ToFloat n with
              | NaN => None
              | Inf s => Some (if s then MInf else PInf)
              | Fin s m e => Some (Val (fval s m e))
              end
  end.

Definition extLt (x y : ext) : bool :=
  match x, y with
  | MInf, MInf => false
  | MInf, _ => true
  | Val a, Val b => a <? b
  | Val _, PInf => true
  | _, _ => false
  end.

Definition wfNumeric (n : numeric) : Prop := match n with NNum n => wfNumber n | NBig _ => True end.

Lemma extVal_int i : Z.abs i ≤ maxInt → extVal (NNum (valueInt i)) = Some (Val (i * one)).
Proof. intros Hi. destruct (ofZ_small i Hi) as (m & e & Heq & _ & Hv & _). cbn. by rewrite Heq, Hv. Qed.

Lemma ltb_scale a b : (a * one <? b * one) = (a <? b).
Proof. pose proof one_pos. destruct (Z.ltb_spec a b), (Z.ltb_spec (a * one) (b * one)); try done; nia. Qed.

Lemma integral_val s m e : validF (Fin s m e) → isIntegral m e = true → fval s m e = truncZ s m e * one.
Proof.
  intros (Hm & He & _) Hi%isIntegral_iff. rewrite fval_truncZ by lia. unfold fval. destruct s; lia.
Qed.

Lemma cmp_ext (x y : numeric) :
  wfNumeric x → wfNumeric y →
  cmp x y = match extVal x, extVal y with Some a, Some b => Some (extLt a b) | _, _ => None end.
Proof.
  intros Hx Hy. destruct x as [[i|f]|b], y as [[j|g]|c]; cbn [wfNumeric wfNumber] in *.
  - rewrite !extVal_int by done. cbn. by rewrite ltb_scale.
  - rewrite extVal_int by done. cbn. destruct (ofZ_small i Hx) as (m & e & -> & _ & Hv & _).
    destruct g as [|s|s m' e']; cbn; [done|by destruct s|]. by rewrite Hv.
  - rewrite extVal_int by done. cbn. by rewrite ltb_scale.
  - rewrite extVal_int by done. cbn. destruct (ofZ_small j Hy) as (m & e & -> & _ & Hv & _).
    destruct f as [|s|s m' e']; cbn; [done|by destruct s|]. by rewrite Hv.
  - cbn. destruct f as [|s|s m e], g as [|s'|s' m' e']; cbn; try done; by destruct s || destruct s'; try destruct s'.
  - cbn. destruct f as [|s|s m e]; [done|by destruct s|]. unfold floatBigLt. cbn.
    destruct (isIntegral m e) eqn:E; [|done]. by rewrite (integral_val s m e), ltb_scale.
  - rewrite extVal_int by done. cbn. by rewrite ltb_scale.
  - cbn. destruct g as [|s|s m e]; [done|by destruct s|]. unfold bigFloatLt. cbn.
    destruct (isIntegral m e) eqn:E; [|done]. by rewrite (integral_val s m e), ltb_scale.
  - cbn. by rewrite ltb_scale.
Qed.

(** C28: the comparison of any two numerics, int, float or BigInt in any mix, orders
    them by their exact values, also where a conversion to float would round, and is
    undefined exactly when one of them is NaN; [<], [<=], [>] and [>=] are the exact
    comparisons, false on NaN. *)
Theorem cmp_exact (x y : numeric) :
  wfNumeric x → wfNumeric y →
  match extVal x, extVal y with
  | Some a, Some b =>
      cmp x y = Some (extLt a b) ∧ op_lt x y = extLt a b ∧ op_lte x y = negb (extLt b a) ∧
      op_gt x y = extLt b a ∧ op_gte x y = negb (extLt a b)
  | _, _ => cmp x y = None ∧ op_lt x y = false ∧ op_lte x y = false ∧ op_gt x y = false ∧ op_gte x y = false
  end.
Proof.
  intros Hx Hy. unfold op_lt, op_lte, op_gt, op_gte. rewrite (cmp_ext x y), (cmp_ext y x) by done.
  by destruct (extVal x), (extVal y).
Qed.

Lemma cmp_exact_witness :
  cmp (NBig (2 ^ 53 + 1)) (NNum (valueFloat (ofZ (2 ^ 53)))) = Some false ∧
  op_gt (NBig (2 ^ 53 + 1)) (NNum (valueFloat (ofZ (2 ^ 53)))) = true.
Proof.
  destruct (cmp_exact (NBig (2 ^ 53 + 1)) (NNum (valueFloat (ofZ (2 ^ 53))))) as (H1 & _ & _ & H4 & _); [done|apply ofZ_valid|].
  split; [exact H1|exact H4].
Defined.
End Arith.
