(* ===== verification/Values.v ===== *)
(** * Values: identity, equality and hashing

    Model of SameAs, StrictEquals and hash of value.go, builtin_bigint.go and
    the string files, and of what they promise to the ordered map: the instance
    of the interface [MapKey] of OrderedMap.v and the proof of its laws on the
    values in normal form.  The theorems about maps are thereby theorems about
    maps with JavaScript keys. *)

From S2P Require Import Prelude Utf Strings Float64 Numbers Arith OrderedMap.
Import Strings Float64 Numbers.
Open Scope Z_scope.

Module Values.

#[global] Instance Str_eq_dec : EqDecision Str.
Proof. solve_decision. Defined.

(** Symbols and objects are identified by their address. *)
Inductive Value :=
  | VUndefined
  | VNull
  | VBool (b : bool)
  | VNum (n : number)
  | VBigInt (z : Z)
  | VStr (s : Str)
  | VSymbol (p : positive)
  | VObject (p : positive).

#[global] Instance Value_eq_dec : EqDecision Value.
Proof. solve_decision. Defined.

Definition _negativeZero : Value := VNum (valueFloat negativeZero).

Section identity.
(** [selfEqual o o'] is [o.self.equal(o'.self)]: false for ordinary objects, a
    comparison of the wrapped Go values for wrapper objects. *)
Context (selfEqual : positive → positive → bool).

Definition intSameAs (i : Z) (other : Value) : bool :=
  match other with VNum (valueInt j) => i =? j | _ => false end.

Definition floatSameAs (f : float64) (other : Value) : bool :=
  match other with
  | VNum (valueFloat o) =>
      if isNaN f && isNaN o then true
      else let ret := feq f o in
           if ret && feq f (ofZ 0) then eqb (Signbit f) (Signbit o) else ret
  | VNum (valueInt o) =>
      let ret := feq f (ofZ o) in
      if ret && feq f (ofZ 0) then negb (Signbit f) else ret
  | _ => false
  end.

Definition boolSameAs (b : bool) (other : Value) : bool :=
  match other with VBool b' => eqb b b' | _ => false end.

Definition bigIntSameAs (z : Z) (other : Value) : bool :=
  match other with VBigInt z' => z =? z' | _ => false end.

Definition symbolSameAs (p : positive) (other : Value) : bool :=
  match other with VSymbol p' => Pos.eqb p p' | _ => false end.

Definition objectStrictEquals (p : positive) (other : Value) : bool :=
  match other with VObject p' => Pos.eqb p p' || selfEqual p p' | _ => false end.

Definition strStrictEquals (s : Str) (other : Value) : bool :=
  match other with VStr o => StrictEquals s o | _ => false end.

Definition SameAs (v other : Value) : bool :=
  match v with
  | VUndefined => match other with VUndefined => true | _ => false end
  | VNull => match other with VNull => true | _ => false end
  | VBool b => boolSameAs b other
  | VNum (valueInt i) => intSameAs i other
  | VNum (valueFloat f) => floatSameAs f other
  | VBigInt z => bigIntSameAs z other
  | VStr s => strStrictEquals s other
  | VSymbol p => symbolSameAs p other
  | VObject p => objectStrictEquals p other
  end.

Definition intStrictEquals (i : Z) (other : Value) : bool :=
  match other with
  | VNum (valueInt o) => i =? o
  | VNum (valueFloat o) => feq (ofZ i) o
  | _ => false
  end.

Definition floatStrictEquals (f : float64) (other : Value) : bool :=
  match other with
  | VNum (valueFloat o) => feq f o
  | VNum (valueInt o) => feq f (ofZ o)
  | _ => false
  end.

Definition ValueStrictEquals (v other : Value) : bool :=
  match v with
  | VNum (valueInt i) => intStrictEquals i other
  | VNum (valueFloat f) => floatStrictEquals f other
  | _ => SameAs v other
  end.

(** [key == _negativeZero], a comparison of interface values: both zeros as
    floats. *)
Definition isNegativeZero (v : Value) : bool :=
  match v with VNum (valueFloat f) => feq f negativeZero | _ => false end.
End identity.

(** ** Hashes *)

Section hashing.
(** maphash (seeded per runtime), the random constants of value.go, the memory
    order of the machine and the addresses of symbols and objects. *)
Context (maphash : list Z → Z) (hashTrue hashFalse hashNull hashUndef : Z).
Context (littleEndian : bool) (addr : positive → Z).

(** The words of |z| as bytes, least significant word first (8 bytes each). *)
Fixpoint bytesOf (n : nat) (z : Z) : list Z :=
  match n with O => [] | S n => (z mod 256) :: bytesOf n (z / 256) end.

Definition wordBytes (w : Z) : list Z :=
  let b := bytesOf 8 w in if littleEndian then b else rev b.

Fixpoint wordsOf (fuel : nat) (z : Z) : list Z :=
  match fuel with
  | O => []
  | S fuel => if z =? 0 then [] else (z mod 2 ^ 64) :: wordsOf fuel (z / 2 ^ 64)
  end.

Definition bigIntHash (z : Z) : Z :=
  maphash ((if z <? 0 then 1 else 0) ::
           (wordsOf (S (Z.to_nat (Z.log2 (Z.abs z)))) (Z.abs z) ≫= wordBytes)).

Definition floatHash (f : float64) : Z := if feq f negativeZero then 0 else Float64bits f.

Definition valueHash (v : Value) : Z :=
  match v with
  | VUndefined => hashUndef
  | VNull => hashNull
  | VBool b => if b then hashTrue else hashFalse
  | VNum (valueInt i) => uwrap 64 i
  | VNum (valueFloat f) => floatHash f
  | VBigInt z => bigIntHash z
  | VStr s => strHash littleEndian maphash s
  | VSymbol p | VObject p => uwrap 64 (addr p)
  end.
End hashing.

(** ** Values in normal form *)

Definition wfValue (v : Value) : Prop :=
  match v with VNum n => normal n | VStr s => wfStr s | _ => True end.

(** What a value is, up to the representation of strings. *)
Definition repr (v : Value) : list Z + Value :=
  match v with VStr s => inl (units s) | _ => inr v end.

Lemma feq_valid f g :
  validF f → validF g → feq f g = true → f = g ∨ (∃ s s', f = zeroF s ∧ g = zeroF s').
Proof.
  intros Hf Hg. destruct f as [|s|s m e], g as [|s' |s' m' e']; try done; cbn.
  - intros H%eqb_prop. subst. by left.
  - intros H%Z.eqb_eq. destruct (Z.eq_dec m 0) as [Hz|Hz].
    + right. exists s, s'. rewrite (valid_zero _ _ _ Hf Hz). split; [done|]. apply (valid_zero _ _ _ Hg).
      rewrite Hz in H. destruct Hg as (? & ? & _). apply (magnitude_zero m' e'); [lia..|].
      assert (magnitude 0 e = 0) by done. unfold fval in H. destruct s, s'; lia.
    + left. by apply fval_inj.
Qed.

Lemma feq_zeroF s s' : feq (zeroF s) (zeroF s') = true.
Proof. by destruct s, s'. Qed.

Lemma floatSameAs_float f g :
  validF f → validF g → floatSameAs f (VNum (valueFloat g)) = bool_decide (f = g).
Proof.
  intros Hf Hg. cbn. destruct (isNaN f && isNaN g) eqn:En.
  { apply andb_prop in En as [E1 E2]. destruct f, g; try done. }
  destruct (feq f g) eqn:E; cbn [andb].
  - destruct (feq_valid f g Hf Hg E) as [<-|(s & s' & -> & ->)].
    + rewrite eqb_reflx, bool_decide_eq_true_2 by done. by destruct (feq f (ofZ 0)).
    + rewrite ofZ_zero, feq_zeroF. cbn [Signbit zeroF]. destruct s, s'; by vm_compute.
  - symmetry. apply bool_decide_eq_false_2. intros <-. rewrite feq_refl in E; [done|].
    destruct f; cbn in En; done.
Qed.

(** On numbers in normal form SameAs is identity, in both directions. *)
Lemma SameAs_number se a b :
  normal a → normal b → SameAs se (VNum a) (VNum b) = bool_decide (a = b).
Proof.
  intros Ha Hb. destruct a as [i|f], b as [j|g].
  - cbn. destruct (Z.eqb_spec i j); symmetry; [apply bool_decide_eq_true_2|apply bool_decide_eq_false_2]; congruence.
  - cbn. symmetry. by apply bool_decide_eq_false_2.
  - destruct Ha as [Hv Ha]. cbn. rewrite (bool_decide_eq_false_2 (_ = _)) by done.
    destruct (feq f (ofZ j)) eqn:E; [|done]. cbn [andb].
    destruct (feq_valid f (ofZ j) Hv (ofZ_valid j) E) as [->|(s & s' & -> & Hs')]; [by destruct (Ha j)|].
    rewrite ofZ_zero, feq_zeroF. destruct s; [done|]. by destruct (Ha 0).
  - destruct Ha as [Hf _], Hb as [Hg _]. cbn [SameAs]. rewrite floatSameAs_float by done.
    apply bool_decide_ext. split; congruence.
Qed.

(** Wrapper objects apart. *)
Definition wfKey (se : positive → positive → bool) (v : Value) : Prop :=
  wfValue v ∧ match v with VObject p => ∀ q, se p q = true → p = q | _ => True end.

Lemma SameAs_repr se v w :
  wfKey se v → wfKey se w → SameAs se v w = bool_decide (repr v = repr w).
Proof.
  intros [Hv Hv'] [Hw Hw'].
  assert (∀ b : bool, ∀ P : Prop, ∀ D : Decision P, (b = true ↔ P) → b = bool_decide P) as Hdec.
  { intros b P D H. destruct b; symmetry; [apply bool_decide_eq_true_2|apply bool_decide_eq_false_2]; naive_solver. }
  destruct v as [| |b|n|z|s|p|p]; try (destruct w; try done; cbn; apply Hdec; split; (done || congruence)).
  - destruct w as [| |b'|n'|z'|s'|p'|p']; try done. cbn. apply Hdec. rewrite eqb_true_iff. split; congruence.
  - destruct w as [| |b'|n'|z'|s'|p'|p']; try (destruct n; done). rewrite SameAs_number by done.
    apply bool_decide_ext. cbn. split; congruence.
  - destruct w as [| |b'|n'|z'|s'|p'|p']; try done. cbn. apply Hdec. rewrite Z.eqb_eq. split; congruence.
  - destruct w as [| |b'|n'|z'|s'|p'|p']; try done. cbn. rewrite StrictEquals_spec by done.
    apply bool_decide_ext. split; congruence.
  - destruct w as [| |b'|n'|z'|s'|p'|p']; try done. cbn. apply Hdec. rewrite Pos.eqb_eq. split; congruence.
  - destruct w as [| |b'|n'|z'|s'|p'|p']; try done. cbn in *. apply Hdec. rewrite orb_true_iff, Pos.eqb_eq.
    split; [intros [->|H%Hv']; congruence|intros [= ->]; by left].
Qed.

(** ** The interface to the ordered map *)

Section map_keys.
Context (se : positive → positive → bool).
Context (maphash : list Z → Z) (hashTrue hashFalse hashNull hashUndef : Z).
Context (littleEndian : bool) (addr : positive → Z).

Definition valueKey : MapKey Value := {|
  sameAs := SameAs se;
  hash := valueHash maphash hashTrue hashFalse hashNull hashUndef littleEndian addr;
  isNegZero := isNegativeZero;
  zeroKey := VNum (intToValue 0);
|}.

Lemma hash_repr v w :
  wfValue v → wfValue w → repr v = repr w →
  valueHash maphash hashTrue hashFalse hashNull hashUndef littleEndian addr v
  = valueHash maphash hashTrue hashFalse hashNull hashUndef littleEndian addr w.
Proof.
  intros Hv Hw Hr. destruct v as [| |b|n|z|s|p|p], w as [| |b'|n'|z'|s'|p'|p']; cbn in Hr; try congruence.
  cbn. unfold strHash. f_equal. apply strKey_units; [done|done|congruence].
Qed.

#[local] Existing Instance valueKey.

Lemma valueKeyLaws : MapKeyLaws Value (wfKey se).
Proof.
  assert (∀ v w, wfKey se v → wfKey se w → sameAs v w = true ↔ repr v = repr w) as Hs.
  { intros v w Hv Hw. change (sameAs v w) with (SameAs se v w). rewrite SameAs_repr by done. apply bool_decide_eq_true. }
  split.
  - intros k Hk. by apply Hs.
  - intros k1 k2 H1 H2. change (SameAs se k1 k2 = SameAs se k2 k1). rewrite !SameAs_repr by done.
    apply bool_decide_ext. split; congruence.
  - intros k1 k2 k3 H1 H2 H3 E1%Hs E2%Hs; [|done..]. apply Hs; [done..|congruence].
  - intros k1 k2 H1 H2 E%Hs; [|done..]. apply hash_repr; [apply H1|apply H2|done].
  - split; [|done]. change (Z.abs 0 ≤ maxInt). unfold maxInt. lia.
  - done.
Qed.

End map_keys.

(** The value of a number: its float. *)
Definition zeroNum (v : Value) : Prop := ∃ n s, v = VNum n ∧ ToFloat n = zeroF s.
Definition nanNum (v : Value) : Prop := ∃ n, v = VNum n ∧ ToFloat n = NaN.

(** [===] is SameAs except on numbers, where NaN differs from itself and the
    two zeros are equal, whether a number is stored as an integer or a float. *)
Theorem StrictEquals_SameAs (se : positive → positive → bool) (v w : Value) :
  wfKey se v → wfKey se w →
  ValueStrictEquals se v w = true ↔
    (repr v = repr w ∧ ¬ nanNum v) ∨ (zeroNum v ∧ zeroNum w).
Proof.
  intros Hv Hw.
  assert (∀ n, normal n → validF (ToFloat n)) as Hval.
  { intros [i|f]; [intros _; apply ofZ_valid|by intros [? _]]. }
  destruct v as [| |b|n|z|s|p|p]; try (unfold ValueStrictEquals; rewrite SameAs_repr by done; rewrite bool_decide_eq_true;
    split; [intros H; left; split; [done|by intros (? & ? & _)]|intros [[? _]|[(? & ? & ? & _) _]]; done]).
  destruct w as [| |b'|n'|z'|s'|p'|p'];
    try (split; [by destruct n|intros [[? _]|[_ (? & ? & ? & _)]]; done]).
  assert (ValueStrictEquals se (VNum n) (VNum n') = feq (ToFloat n) (ToFloat n')) as ->.
  { destruct Hv as [Hv _], Hw as [Hw _]. destruct n as [i|f], n' as [j|g]; try done. cbn in *.
    destruct (ofZ_small i Hv) as (m & e & -> & _ & H1 & _), (ofZ_small j Hw) as (m' & e' & -> & _ & H2 & _).
    cbn. rewrite H1, H2. pose proof one_pos.
    destruct (Z.eqb_spec i j), (Z.eqb_spec (i * one) (j * one)); try done; nia. }
  destruct Hv as [Hv _], Hw as [Hw _]. cbn in Hv, Hw. split.
  - intros E. destruct (feq_valid _ _ (Hval _ Hv) (Hval _ Hw) E) as [Heq|(s & s' & H1 & H2)].
    + left. split; [cbn; do 2 f_equal; by apply normal_inj|]. intros (n0 & [= <-] & Hn).
      rewrite Hn in E. done.
    + right. split; eexists _, _; (split; [done|]); [exact H1|exact H2].
  - intros [[[= ->] Hn]|[(n0 & s & [= <-] & H1) (n1 & s' & [= <-] & H2)]].
    + apply feq_refl. destruct (ToFloat n') eqn:E; [|done..]. destruct Hn. by exists n'.
    + rewrite H1, H2. apply feq_zeroF.
Qed.

(** ** Witnesses *)

Definition exHash (l : list Z) : Z := foldl (λ h b, uwrap 64 (31 * h + b)) 7 l.
Definition exKey : MapKey Value := valueKey (λ _ _, false) exHash 1 2 3 4 true Zpos.
Definition exLaws : @MapKeyLaws Value exKey (wfKey (λ _ _, false)) :=
  valueKeyLaws (λ _ _, false) exHash 1 2 3 4 true Zpos.

Lemma wfKey_int se i : Z.abs i ≤ maxInt → wfKey se (VNum (valueInt i)).
Proof. intros Hi. by split. Qed.

Lemma wfKey_str se s : wfStr s → wfKey se (VStr s).
Proof. intros Hs. by split. Qed.

Lemma wfKey_float se f : validF f → floatToInt f = None → wfKey se (VNum (valueFloat f)).
Proof. intros Hv Hn. split; [|done]. by apply normal_valueFloat. Qed.


Lemma StrictEquals_SameAs_witness :
  ValueStrictEquals (λ _ _, false) (VNum (valueInt 0)) _negativeZero = true.
Proof.
  apply (StrictEquals_SameAs (λ _ _, false) (VNum (valueInt 0)) _negativeZero).
  - by apply wfKey_int.
  - apply wfKey_float; [apply Arith.zeroF_valid|by vm_compute].
  - right. split; [by exists (valueInt 0), false|by exists (valueFloat negativeZero), true].
Defined.

(** Numbers that are not in normal form are lost by maps: after [x = -0; x++] the
    number [x] is [=== 1], but a map or set with the key 1 does not find it, and
    Object.is tells it apart from 1. *)
Theorem unnormalised_key_lost :
  let x := VNum (valueFloat (ofZ 1)) in
  Arith.incOp (Arith.NNum (valueFloat negativeZero)) = Arith.NNum (valueFloat (ofZ 1)) ∧
  ValueStrictEquals (λ _ _, false) (VNum (valueInt 1)) x = true ∧
  SameAs (λ _ _, false) (VNum (valueInt 1)) x = false ∧
  (m ← OrderedMap.set (H := exKey) OrderedMap.newOrderedMap (VNum (valueInt 1)) VNull;
   OrderedMap.has (H := exKey) m x) = Some false.
Proof. by vm_compute. Qed.

(** Three insertions of keys 1, -0 (stored as 0) and "A", the second removed. *)
Definition exOps : list (OrderedMap.mapOp (V := Value)) :=
  [OrderedMap.OpSet (VNum (valueInt 1)) VNull; OrderedMap.OpSet _negativeZero (VBool true);
   OrderedMap.OpSet (VStr (SAscii [65])) VUndefined; OrderedMap.OpRemove (VNum (valueInt 0))].

Lemma exOps_wf : Forall (OrderedMap.wfOp (wfKey (λ _ _, false))) exOps.
Proof.
  unfold exOps. repeat apply Forall_cons_2; [| | | |apply Forall_nil_2]; cbn [OrderedMap.wfOp].
  - by apply wfKey_int.
  - apply wfKey_float; [apply Arith.zeroF_valid|by vm_compute].
  - by apply wfKey_str, wf_ascii.
  - by apply wfKey_int.
Qed.


Lemma iteration_under_mutation_witness :
  ∃ m0, OrderedMap.runOps (H := exKey) OrderedMap.newOrderedMap exOps = Some m0 ∧
  ∃ it' p, OrderedMap.next m0 OrderedMap.newIter = Some (it', Some p).
Proof.
  destruct (OrderedMap.runOps (H := exKey) OrderedMap.newOrderedMap exOps) as [m0|] eqn:E; [|by vm_compute in E].
  exists m0. split; [done|].
  destruct (@OrderedMap.iteration_under_mutation Value exKey (wfKey (λ _ _, false)) exLaws exOps m0 m0
    OrderedMap.newIter [] exOps_wf E (rtc_refl _ _)) as (_ & _ & l & it' & r & HR & Hn & _).
  exists it'. vm_compute in E. injection E as <-. rewrite Hn. vm_compute in Hn. injection Hn as <- <-. by eexists.
Defined.

Lemma copyTo_new_witness :
  ∃ m d l, OrderedMap.runOps (H := exKey) OrderedMap.newOrderedMap exOps = Some m ∧
    OrderedMap.copyTo (H := exKey) m OrderedMap.newOrderedMap = Some d ∧
    l = [(VNum (valueInt 1), VNull); (VStr (SAscii [65]), VUndefined)] ∧
    foldl (OrderedMap.specOp (H := exKey)) [] exOps = l.
Proof.
  destruct (OrderedMap.runOps (H := exKey) OrderedMap.newOrderedMap exOps) as [m|] eqn:E; [|by vm_compute in E].
  destruct (@OrderedMap.copyTo_new Value exKey (wfKey (λ _ _, false)) exLaws exOps m exOps_wf E) as (d & l & Hd & _ & Hl).
  exists m, d, (l.*2). split; [done|]. split; [exact Hd|]. rewrite Hl. split; [by vm_compute|done].
Defined.
End Values.
