(* ===== verification/ArrayIndex.v ===== *)
(** * Array indices as property keys

    Model of [strToArrayIdx], [strToInt] and [strToIdx64] of runtime.go and
    [toIdx] of array.go: a property key is an array index when it is the
    canonical decimal form of an integer below 2^32 - 1.  Keys are Go strings,
    lists of bytes. *)

From S2P Require Import Prelude Utf.
Import Utf.
Open Scope Z_scope.

Module ArrayIndex.

(** strconv.FormatInt of a non-negative integer, base 10. *)
Fixpoint formatFuel (fuel : nat) (n : Z) : list Z :=
  match fuel with
  | O => []
  | S fuel => if n <? 10 then [48 + n] else formatFuel fuel (n / 10) ++ [48 + n mod 10]
  end.

(** A number below 10^19 has at most 19 digits. *)
Definition FormatUint (n : Z) : list Z := formatFuel 20 n.

Definition isDigit (c : Z) : bool := (48 <=? c) && (c <=? 57).

(** The loop [n = n*10 + uint32(c-'0')] over digits; [None] on another byte. *)
Fixpoint digitsLoop (w : Z) (n : Z) (s : list Z) : option Z :=
  match s with
  | [] => Some n
  | c :: s => if isDigit c then digitsLoop w (uwrap w (n * 10 + (c - 48))) s else None
  end.

Definition strToArrayIdx (s : list Z) : Z :=
  match s with
  | [] => MaxUint32
  | c0 :: t =>
      let l := length s in
      if c0 =? 48 then (if Nat.eqb l 1 then 0 else MaxUint32)
      else if Nat.ltb l 10 then default MaxUint32 (digitsLoop 32 0 s)
      else if Nat.ltb 10 l then MaxUint32
      else
        let c9 := nth 9 s 0 in
        if negb (isDigit c9) then MaxUint32
        else match digitsLoop 32 0 (take 9 s) with
             | None => MaxUint32
             | Some n =>
                 if MaxUint32 / 10 + 1 <=? n then MaxUint32
                 else let n := uwrap 32 (n * 10) in
                      let n1 := uwrap 32 (n + (c9 - 48)) in
                      if n1 <? n then MaxUint32 else n1
             end
  end.

(** [toIdx] of an integer key. *)
Definition toIdx (v : Z) : Z := if (0 <=? v) && (v <? MaxUint32) then v else MaxUint32.

(** [strToInt64]: the number and whether the string is a canonical integer. *)
Definition strToInt64 (s : list Z) : Z * bool :=
  match s with
  | [] => (-1, false)
  | c0 :: t0 =>
      let neg := c0 =? 45 in
      let s := if neg then t0 else s in
      match s with
      | [] => (-1, false)
      | c :: t =>
          let l := length s in
          if c =? 48 then (if Nat.eqb l 1 then (0, negb neg) else (-1, false))
          else
            let r :=
              if Nat.ltb l 19 then
                match digitsLoop 64 0 s with Some n => inr n | None => inl (-1) end
              else if Nat.ltb 19 l then inl (-1)
              else
                let c18 := nth 18 s 0 in
                if 48 <=? c18 then
                  if (negb neg && (55 <? c18)) || (56 <? c18) then inl (-1)
                  else match digitsLoop 64 0 (take 18 s) with
                       | None => inl (-1)
                       | Some n => if MaxInt64 / 10 + 1 <=? n then inl 0
                                   else inr (uwrap 64 (n * 10 + (c18 - 48)))
                       end
                else inl (-1) in
            match r with
            | inl n => (n, false)
            | inr n => (swrap 64 (if neg then uwrap 64 (- n) else n), true)
            end
      end
  end.

Definition strToIdx64 (s : list Z) : Z := let '(n, ok) := strToInt64 s in if ok then n else -1.

Definition FormatInt (n : Z) : list Z := if n <? 0 then 45 :: FormatUint (- n) else FormatUint n.

(** ** Decimal notation *)

Definition digitsVal (n : Z) (s : list Z) : Z := foldl (λ n c, n * 10 + (c - 48)) n s.

Lemma digitsVal_app n s t : digitsVal n (s ++ t) = digitsVal (digitsVal n s) t.
Proof. apply foldl_app. Qed.

Lemma isDigit_spec c : isDigit c = true ↔ 48 ≤ c ≤ 57.
Proof. unfold isDigit. rewrite andb_true_iff, !Z.leb_le. done. Qed.

Lemma pow10_succ k : 10 ^ Z.of_nat (S k) = 10 * 10 ^ Z.of_nat k.
Proof. rewrite Nat2Z.inj_succ, Z.pow_succ_r by lia. done. Qed.

Lemma digitsVal_bounds n s :
  0 ≤ n → forallb isDigit s = true →
  n * 10 ^ Z.of_nat (length s) ≤ digitsVal n s < (n + 1) * 10 ^ Z.of_nat (length s).
Proof.
  revert n. induction s as [|c s IH]; intros n Hn Hs; [cbn; lia|].
  cbn [forallb] in Hs. apply andb_prop in Hs as [Hc%isDigit_spec Hs]. cbn [digitsVal foldl length].
  specialize (IH (n * 10 + (c - 48)) ltac:(lia) Hs). rewrite pow10_succ. unfold digitsVal in IH.
  assert (0 < 10 ^ Z.of_nat (length s)) by (apply Z.pow_pos_nonneg; lia). nia.
Qed.

(** The loop computes the value while it fits, and rejects other bytes. *)
Lemma digitsLoop_spec w n s :
  0 ≤ w → 0 ≤ n → (n + 1) * 10 ^ Z.of_nat (length s) ≤ 2 ^ w →
  digitsLoop w n s = if forallb isDigit s then Some (digitsVal n s) else None.
Proof.
  intros Hw. revert n. induction s as [|c s IH]; intros n Hn Hb; [done|]. cbn [digitsLoop forallb].
  destruct (isDigit c) eqn:Hc; [|done]. apply isDigit_spec in Hc. cbn [andb length] in *. rewrite pow10_succ in Hb.
  assert (0 < 10 ^ Z.of_nat (length s)) by (apply Z.pow_pos_nonneg; lia).
  rewrite uwrap_id by nia. apply IH; nia.
Qed.

Lemma format_digits fuel n :
  0 ≤ n < 10 ^ Z.of_nat fuel → (0 < fuel)%nat →
  forallb isDigit (formatFuel fuel n) = true ∧ digitsVal 0 (formatFuel fuel n) = n ∧
  (n ≠ 0 → ∃ c t, formatFuel fuel n = c :: t ∧ c ≠ 48) ∧ (n = 0 → formatFuel fuel n = [48]).
Proof.
  revert n. induction fuel as [|fuel IH]; intros n Hn Hf; [lia|]. cbn [formatFuel].
  destruct (Z.ltb_spec n 10) as [E|E].
  - split; [cbn; rewrite andb_true_r; apply isDigit_spec; lia|]. split; [cbn; lia|].
    split; [intros; exists (48 + n), []; split; [done|lia]|by intros ->].
  - rewrite pow10_succ in Hn. pose proof (Z.mod_pos_bound n 10 ltac:(lia)). pose proof (Z.div_mod n 10 ltac:(lia)).
    assert (1 ≤ n / 10) by (apply Z.div_le_lower_bound; lia).
    assert (n / 10 < 10 ^ Z.of_nat fuel) by (apply Z.div_lt_upper_bound; lia).
    assert (0 < fuel)%nat by (destruct fuel; [cbn in *; lia|lia]).
    destruct (IH (n / 10) ltac:(lia) ltac:(lia)) as (IH1 & IH2 & IH3 & _).
    split; [|split; [|split; [|lia]]].
    + rewrite forallb_app, IH1. cbn. rewrite andb_true_r. apply isDigit_spec. lia.
    + rewrite digitsVal_app, IH2. cbn. lia.
    + intros _. destruct (IH3 ltac:(lia)) as (c & t & -> & Hc). by exists c, (t ++ [48 + n mod 10]).
Qed.

(** A string of digits without a leading zero is the notation of its value. *)
Lemma format_canonical fuel c t :
  forallb isDigit (c :: t) = true → c ≠ 48 → (length (c :: t) ≤ fuel)%nat →
  formatFuel fuel (digitsVal 0 (c :: t)) = c :: t.
Proof.
  revert fuel. induction t as [|d t IH] using rev_ind; intros fuel Hd Hc Hf.
  - cbn in *. rewrite andb_true_r in Hd. apply isDigit_spec in Hd. destruct fuel; [lia|]. cbn.
    zcmp. f_equal. lia.
  - rewrite app_comm_cons in *. rewrite forallb_app in Hd. apply andb_prop in Hd as [Hd Hd2].
    cbn in Hd2. rewrite andb_true_r in Hd2. apply isDigit_spec in Hd2. rewrite length_app in Hf. cbn [length] in Hf.
    destruct fuel as [|fuel]; [lia|]. rewrite digitsVal_app. set (v := digitsVal 0 (c :: t)).
    assert (1 ≤ v) as Hv.
    { unfold v. cbn [digitsVal foldl]. pose proof Hd as Hd'. cbn [forallb] in Hd'. apply andb_prop in Hd' as [Hc'%isDigit_spec Ht].
      pose proof (digitsVal_bounds (0 * 10 + (c - 48)) t ltac:(lia) Ht) as [Hlo _]. unfold digitsVal in Hlo.
      assert (0 < 10 ^ Z.of_nat (length t)) by (apply Z.pow_pos_nonneg; lia). nia. }
    cbn [digitsVal foldl formatFuel]. zcmp.
    assert ((v * 10 + (d - 48)) / 10 = v) as -> by (symmetry; apply (Z.div_unique _ 10 v (d - 48)); lia).
    assert ((v * 10 + (d - 48)) mod 10 = d - 48) as -> by (symmetry; apply (Z.mod_unique _ 10 v (d - 48)); lia).
    rewrite IH by (try done; cbn [length]; lia). repeat f_equal. lia.
Qed.

Lemma format_length fuel n k :
  0 ≤ n < 10 ^ Z.of_nat k → (0 < k ≤ fuel)%nat → (length (formatFuel fuel n) ≤ k)%nat.
Proof.
  revert n fuel. induction k as [|k IH]; intros n fuel Hn Hf; [lia|]. destruct fuel as [|fuel]; [lia|]. cbn.
  destruct (Z.ltb_spec n 10) as [E|E]; [cbn; lia|]. rewrite pow10_succ in Hn. rewrite length_app. cbn.
  assert (0 < k)%nat by (destruct k; [cbn in *; lia|lia]).
  assert (0 ≤ n / 10 < 10 ^ Z.of_nat k) by (split; [apply Z.div_pos; lia|apply Z.div_lt_upper_bound; lia]).
  specialize (IH (n / 10) fuel ltac:(done) ltac:(lia)). lia.
Qed.

(** ** strToArrayIdx *)

(** The canonical digit strings are recognised, everything else is refused. *)
Lemma strToArrayIdx_digits c t :
  c ≠ 48 →
  strToArrayIdx (c :: t) =
    if forallb isDigit (c :: t) && (digitsVal 0 (c :: t) <? MaxUint32) then digitsVal 0 (c :: t) else MaxUint32.
Proof.
  intros Hc. set (s := c :: t). unfold strToArrayIdx, s. fold s. rewrite (proj2 (Z.eqb_neq c 48)) by done.
  assert (forallb isDigit s = true → 10 ^ Z.of_nat (length t) ≤ digitsVal 0 s) as Hlow.
  { intros Hd. unfold s in Hd. cbn [forallb] in Hd. apply andb_prop in Hd as [Hc'%isDigit_spec Ht].
    pose proof (digitsVal_bounds (0 * 10 + (c - 48)) t ltac:(lia) Ht) as [Hlo _]. unfold s. cbn [digitsVal foldl].
    unfold digitsVal in Hlo. assert (0 < 10 ^ Z.of_nat (length t)) by (apply Z.pow_pos_nonneg; lia). nia. }
  destruct (Nat.ltb_spec (length s) 10) as [E|E]; [|destruct (Nat.ltb_spec 10 (length s)) as [E2|E2]].
  - assert (10 ^ Z.of_nat (length s) ≤ 10 ^ 9) as Hp by (apply Z.pow_le_mono_r; lia).
    rewrite digitsLoop_spec by lia. destruct (forallb isDigit s) eqn:Hd; [|done]. cbn [default andb].
    pose proof (digitsVal_bounds 0 s ltac:(lia) Hd). rewrite (proj2 (Z.ltb_lt _ _)) by (unfold MaxUint32; lia). done.
  - destruct (forallb isDigit s); [|done]. specialize (Hlow eq_refl). cbn [andb].
    assert (10 ^ 10 ≤ 10 ^ Z.of_nat (length t)) by (apply Z.pow_le_mono_r; unfold s in E2; cbn [length] in E2; lia).
    by rewrite (proj2 (Z.ltb_ge _ _)) by (unfold MaxUint32; lia).
  - assert (length s = 10%nat) as Hl by lia.
    destruct (nth_error s 9) as [c9|] eqn:E9; [|apply nth_error_None in E9; lia].
    rewrite (nth_error_nth _ _ 0 E9).
    assert (s = take 9 s ++ [c9]) as Hs.
    { rewrite <- (take_drop 9 s) at 1. f_equal. apply nth_error_split in E9 as (l1 & l2 & Heq & Hl1).
      rewrite Heq in Hl |- *. rewrite length_app in Hl. cbn [length] in Hl. rewrite drop_app_length' by done.
      destruct l2; [done|cbn in Hl; lia]. }
    assert (forallb isDigit s = isDigit c9 && forallb isDigit (take 9 s)) as ->.
    { rewrite Hs at 1. rewrite forallb_app. cbn. by rewrite andb_true_r, andb_comm. }
    assert (digitsVal 0 s = digitsVal 0 (take 9 s) * 10 + (c9 - 48)) as -> by (rewrite Hs at 1; by rewrite digitsVal_app).
    destruct (isDigit c9) eqn:Hc9; [|done]. cbn [negb andb]. apply isDigit_spec in Hc9.
    assert (length (take 9 s) = 9%nat) as Hl9 by (rewrite length_take; lia).
    rewrite digitsLoop_spec by (rewrite ?Hl9; lia). destruct (forallb isDigit (take 9 s)) eqn:Hd; [|done]. cbn [andb].
    pose proof (digitsVal_bounds 0 _ ltac:(lia) Hd) as Hb. rewrite Hl9 in Hb. set (n := digitsVal 0 (take 9 s)) in *.
    change (10 ^ Z.of_nat 9) with 1000000000 in Hb. unfold MaxUint32 in *. change (4294967295 / 10 + 1) with 429496730.
    destruct (Z.leb_spec 429496730 n) as [En|En]; [by zcmp|].
    rewrite (uwrap_id 32 (n * 10)) by lia. unfold uwrap. change (2 ^ 32) with 4294967296.
    destruct (Z.le_gt_cases 4294967296 (n * 10 + (c9 - 48))) as [Ew|Ew].
    + replace ((n * 10 + (c9 - 48)) mod 4294967296) with (n * 10 + (c9 - 48) - 4294967296)
        by (apply (Z.mod_unique _ _ 1); lia).
      rewrite (proj2 (Z.ltb_lt _ _)), (proj2 (Z.ltb_ge _ _)) by lia. done.
    + rewrite Z.mod_small, (proj2 (Z.ltb_ge (n * 10 + _) (n * 10))) by lia.
      destruct (Z.ltb_spec (n * 10 + (c9 - 48)) 4294967295); [done|lia].
Qed.

Lemma strToArrayIdx_iff (s : list Z) (i : Z) :
  0 ≤ i < MaxUint32 → strToArrayIdx s = i ↔ s = FormatUint i.
Proof.
  intros Hi. destruct (format_digits 20 i) as (Hd & Hv & Hnz & Hz); [unfold MaxUint32 in *; lia|lia|].
  unfold FormatUint. split.
  - intros Hs. destruct s as [|c t]; [cbn in Hs; lia|]. destruct (Z.eq_dec c 48) as [->|Hc].
    + unfold strToArrayIdx in Hs. cbn [Z.eqb] in Hs. destruct t as [|d t]; [|cbn in Hs; lia].
      cbn in Hs. symmetry. by apply Hz.
    + rewrite strToArrayIdx_digits in Hs by done.
      destruct (forallb isDigit (c :: t)) eqn:Hds; [|cbn [andb] in Hs; lia]. cbn [andb] in Hs.
      destruct (Z.ltb_spec (digitsVal 0 (c :: t)) MaxUint32) as [E|E]; [|lia]. rewrite <- Hs.
      symmetry. apply format_canonical; [done|done|].
      cbn [forallb] in Hds. apply andb_prop in Hds as [Hc'%isDigit_spec Ht].
      pose proof (digitsVal_bounds (0 * 10 + (c - 48)) t ltac:(lia) Ht) as [Hlo _]. cbn [digitsVal foldl] in E, Hlo.
      unfold digitsVal in Hlo. destruct (le_lt_dec (length (c :: t)) 20) as [|Hgt]; [done|exfalso]. cbn [length] in Hgt.
      assert (10 ^ 19 ≤ 10 ^ Z.of_nat (length t)) by (apply Z.pow_le_mono_r; lia). unfold MaxUint32 in *. nia.
  - intros ->. destruct (Z.eq_dec i 0) as [->|Hi0]; [done|].
    destruct (Hnz Hi0) as (c & t & Heq & Hc). rewrite Heq in *. rewrite strToArrayIdx_digits by done.
    rewrite Hd, Hv. cbn [andb]. by zcmp.
Qed.

Lemma strToArrayIdx_range s : 0 ≤ strToArrayIdx s ≤ MaxUint32.
Proof.
  destruct s as [|c t]; [cbn; unfold MaxUint32; lia|]. destruct (Z.eq_dec c 48) as [->|Hc].
  - unfold strToArrayIdx. rewrite Z.eqb_refl. destruct (Nat.eqb _ 1); unfold MaxUint32; lia.
  - rewrite strToArrayIdx_digits by done. destruct (forallb isDigit (c :: t)) eqn:Hd; cbn [andb]; [|unfold MaxUint32; lia].
    pose proof (digitsVal_bounds 0 _ ltac:(lia) Hd). destruct (Z.ltb_spec (digitsVal 0 (c :: t)) MaxUint32); unfold MaxUint32 in *; lia.
Qed.

Lemma strToArrayIdx_inj s t :
  strToArrayIdx s = strToArrayIdx t → 0 ≤ strToArrayIdx s < MaxUint32 → s = t.
Proof.
  intros Heq Hr. apply (strToArrayIdx_iff t) in Hr as Ht. apply (strToArrayIdx_iff s) in Hr as Hs.
  destruct Ht as [Ht _], Hs as [Hs _]. rewrite (Hs eq_refl), (Ht (eq_sym Heq)). done.
Qed.

(** A property key is an array index exactly when it is the canonical decimal
    notation of an integer below 2^32 - 1: [strToArrayIdx] inverts the notation
    on that range, never yields an index for any other string (leading zeros,
    overflows, non-digits), and so is injective on indices. *)
Theorem strToArrayIdx_canonical (s : list Z) (i : Z) :
  0 ≤ i < MaxUint32 → strToArrayIdx s = i ↔ s = FormatUint i.
Proof. apply strToArrayIdx_iff. Qed.

Lemma strToArrayIdx_canonical_witness : strToArrayIdx [52; 50] = 42 ↔ [52; 50] = FormatUint 42.
Proof. apply (strToArrayIdx_canonical [52; 50] 42). unfold MaxUint32. lia. Defined.

(** [strToInt64] refuses every 19-digit number that ends in 9, although most of
    them fit an int64: "1000000000000000009" is below 2^63. *)
Theorem strToInt64_rejects :
  strToInt64 (FormatUint 1000000000000000009) = (-1, false) ∧ 1000000000000000009 ≤ MaxInt64 ∧
  strToInt64 (FormatUint 1000000000000000007) = (1000000000000000007, true).
Proof. by vm_compute. Qed.
End ArrayIndex.
