(* ===== verification/Property.v ===== *)
(** * Property descriptors

    Model of valueProperty (value.go), PropertyDescriptor,
    isCompatiblePropertyDescriptor and _defineOwnProperty (object.go) and
    propToValueProp (proxy.go).  A property is stored as a plain value when it
    is a writable, enumerable and configurable data property, and as a
    valueProperty otherwise.

    The reference is the operation ValidateAndApplyPropertyDescriptor of the
    ECMAScript specification, on properties that are either data or accessor
    properties.  The refinement theorem shows where the code implements it; two
    more theorems exhibit the redefinitions on which it does not. *)

From S2P Require Import Prelude Float64 Numbers Values.
Import Float64 Numbers Values.
Open Scope Z_scope.

Module Property.

(** ** The code *)

(** Flag: FLAG_NOT_SET is [None]. *)
Definition Flag := option bool.

Record valueProperty := MkProp {
  pvalue : option Value;
  writable : bool;
  configurable : bool;
  enumerable : bool;
  accessor : bool;
  getterFunc : option positive;
  setterFunc : option positive;
}.

(** What the property table holds. *)
Inductive slot := Raw (v : Value) | Prop_ (p : valueProperty).

Record PropertyDescriptor := MkDesc {
  dValue : option Value;
  dWritable : Flag;
  dConfigurable : Flag;
  dEnumerable : Flag;
  dGetter : option Value;
  dSetter : option Value;
}.

Definition isSome {A} (o : option A) : bool := match o with Some _ => true | None => false end.

Definition IsAccessor (p : PropertyDescriptor) : bool := isSome (dSetter p) || isSome (dGetter p).
Definition IsData (p : PropertyDescriptor) : bool := isSome (dValue p) || isSome (dWritable p).
Definition IsGeneric (p : PropertyDescriptor) : bool := negb (IsAccessor p) && negb (IsData p).

(** complete() fills in the defaults of an absent property. *)
Definition complete (p : PropertyDescriptor) : PropertyDescriptor :=
  let orUndef o := Some (default VUndefined o) in
  let orFalse f := Some (default false f) in
  if negb (isSome (dGetter p)) && negb (isSome (dSetter p))
  then MkDesc (orUndef (dValue p)) (orFalse (dWritable p)) (orFalse (dConfigurable p)) (orFalse (dEnumerable p))
         (dGetter p) (dSetter p)
  else MkDesc (dValue p) (dWritable p) (orFalse (dConfigurable p)) (orFalse (dEnumerable p))
         (orUndef (dGetter p)) (orUndef (dSetter p)).

Definition propToValueProp (s : slot) : valueProperty :=
  match s with Prop_ p => p | Raw v => MkProp (Some v) true true true false None None end.

Definition isWritable (p : valueProperty) : bool := writable p || isSome (setterFunc p).

(** valueProp of object.go *)
Definition valueProp (v : Value) (w e c : bool) : slot :=
  if w && e && c then Raw v else Prop_ (MkProp (Some v) w c e false None None).

Section code.
(** Object identity of wrapped Go values, and which objects are functions. *)
Context (selfEqual : positive → positive → bool) (callable : positive → bool).

Definition undefinedV (v : Value) : bool := match v with VUndefined => true | _ => false end.

(** [!(g == _undefined && f == nil) && !g.SameAs(f)] *)
Definition funcDiffers (g : Value) (f : option positive) : bool :=
  negb (undefinedV g && negb (isSome f)) &&
  negb (match f with Some p => SameAs selfEqual g (VObject p) | None => false end).

(** The jumps to [reject] for an existing property. *)
Definition rejects (desc : PropertyDescriptor) (current : valueProperty) : bool :=
  negb (configurable current) &&
  (match dConfigurable desc with Some true => true | _ => false end
   || match dEnumerable desc with Some e => negb (eqb e (enumerable current)) | None => false end
   || (negb (IsGeneric desc) && negb (eqb (IsAccessor desc) (accessor current)))
   || if accessor current then
        match dGetter desc with Some g => funcDiffers g (getterFunc current) | None => false end
        || match dSetter desc with Some g => funcDiffers g (setterFunc current) | None => false end
      else
        negb (writable current) &&
        (match dWritable desc with Some true => true | _ => false end
         || match dValue desc with
            | Some v => negb (match pvalue current with Some w => SameAs selfEqual v w | None => false end)
            | None => false
            end)).

Definition isCompatiblePropertyDescriptor (extensible : bool) (desc : PropertyDescriptor)
    (current : option valueProperty) (throw : bool) : result bool :=
  match current with
  | None =>
      if negb extensible && throw then Throw (TypeError "Cannot define property, object is not extensible")
      else Ok extensible
  | Some current =>
      if rejects desc current then
        if throw then Throw (TypeError "Cannot redefine property") else Ok false
      else Ok true
  end.

(** propGetter and propSetter of value.go *)
Definition propFunc (v : Value) : result (option positive) :=
  match v with
  | VUndefined => Ok None
  | VObject p => if callable p then Ok (Some p) else Throw (TypeError "Getter must be a function")
  | _ => Throw (TypeError "Getter must be a function")
  end.

Definition emptyProp : valueProperty := MkProp None false false false false None None.

(** The assignments to [existing], in the order of the code. *)
Definition applyDescriptor (existing : valueProperty) (descr : PropertyDescriptor) : result valueProperty :=
  let p := MkProp (pvalue existing) (default (writable existing) (dWritable descr))
             (default (configurable existing) (dConfigurable descr))
             (default (enumerable existing) (dEnumerable descr))
             (accessor existing) (getterFunc existing) (setterFunc existing) in
  let p := match dValue descr with
           | Some v => MkProp (Some v) (writable p) (configurable p) (enumerable p) (accessor p) None None
           | None => p
           end in
  let p := if isSome (dValue descr) || isSome (dWritable descr)
           then MkProp (pvalue p) (writable p) (configurable p) (enumerable p) false (getterFunc p) (setterFunc p)
           else p in
  p ← match dGetter descr with
      | Some g => f ← propFunc g;
                  Ok (MkProp None (writable p) (configurable p) (enumerable p) true f (setterFunc p))
      | None => Ok p
      end;
  p ← match dSetter descr with
      | Some g => f ← propFunc g;
                  Ok (MkProp None (writable p) (configurable p) (enumerable p) true (getterFunc p) f)
      | None => Ok p
      end;
  Ok (if negb (accessor p) && negb (isSome (pvalue p))
      then MkProp (Some VUndefined) (writable p) (configurable p) (enumerable p) (accessor p)
             (getterFunc p) (setterFunc p)
      else p).

(** [_defineOwnProperty]: the new content of the slot, or [None] when the
    descriptor is refused.  (The code assigns the fields of an existing property
    object in place; a getter or setter that is not a function, for which it panics
    half way, does not come from toPropertyDescriptor.) *)
Definition _defineOwnProperty (extensible : bool) (existingValue : option slot)
    (descr : PropertyDescriptor) (throw : bool) : result (option slot) :=
  let existing := propToValueProp <$> existingValue in
  ok ← isCompatiblePropertyDescriptor extensible descr existing throw;
  if negb ok then Ok None
  else
    match dWritable descr, dEnumerable descr, dConfigurable descr, dValue descr with
    | Some true, Some true, Some true, Some v => Ok (Some (Raw v))
    | _, _, _, _ => p ← applyDescriptor (default emptyProp existing) descr; Ok (Some (Prop_ p))
    end.
End code.

(** ** The specification *)

Inductive specProp :=
  | SData (v : Value) (w e c : bool)
  | SAccessor (g s : option positive) (e c : bool).

Definition specC (p : specProp) : bool := match p with SData _ _ _ c | SAccessor _ _ _ c => c end.
Definition specE (p : specProp) : bool := match p with SData _ _ e _ | SAccessor _ _ e _ => e end.
Definition specIsAccessor (p : specProp) : bool := match p with SAccessor _ _ _ _ => true | _ => false end.

(** The function of a [get] or [set] field: undefined or an object. *)
Definition specFunc (v : Value) : option positive := match v with VObject p => Some p | _ => None end.

Section spec.
Context (selfEqual : positive → positive → bool).

(** Step 2-4 of ValidateAndApplyPropertyDescriptor on an existing property. *)
Definition specValid (desc : PropertyDescriptor) (cur : specProp) : bool :=
  specC cur ||
  (negb (match dConfigurable desc with Some true => true | _ => false end)
   && match dEnumerable desc with Some e => eqb e (specE cur) | None => true end
   && (IsGeneric desc || eqb (IsAccessor desc) (specIsAccessor cur))
   && match cur with
      | SAccessor g s _ _ =>
          match dGetter desc with Some v => bool_decide (specFunc v = g) | None => true end
          && match dSetter desc with Some v => bool_decide (specFunc v = s) | None => true end
      | SData v w _ _ =>
          w || (negb (match dWritable desc with Some true => true | _ => false end)
                && match dValue desc with Some x => SameAs selfEqual x v | None => true end)
      end).

(** Step 6: the new property; a change of kind resets the other fields. *)
Definition specApply (desc : PropertyDescriptor) (cur : specProp) : specProp :=
  let e := default (specE cur) (dEnumerable desc) in
  let c := default (specC cur) (dConfigurable desc) in
  if IsAccessor desc then
    let '(g, s) := match cur with SAccessor g s _ _ => (g, s) | _ => (None, None) end in
    SAccessor (match dGetter desc with Some v => specFunc v | None => g end)
              (match dSetter desc with Some v => specFunc v | None => s end) e c
  else if IsData desc then
    let '(v, w) := match cur with SData v w _ _ => (v, w) | _ => (VUndefined, false) end in
    SData (default v (dValue desc)) (default w (dWritable desc)) e c
  else match cur with
       | SData v w _ _ => SData v w e c
       | SAccessor g s _ _ => SAccessor g s e c
       end.

(** Step 2: creation, absent fields at their defaults. *)
Definition specCreate (desc : PropertyDescriptor) : specProp :=
  specApply desc (SData VUndefined false false false).

Definition validateAndApply (extensible : bool) (cur : option specProp) (desc : PropertyDescriptor) : option specProp :=
  match cur with
  | None => if extensible then Some (specCreate desc) else None
  | Some cur => if specValid desc cur then Some (specApply desc cur) else None
  end.
End spec.

(** ** Refinement *)

(** What Object.getOwnPropertyDescriptor shows of a slot. *)
Definition abs (s : slot) : specProp :=
  let p := propToValueProp s in
  if accessor p then SAccessor (getterFunc p) (setterFunc p) (enumerable p) (configurable p)
  else SData (default VUndefined (pvalue p)) (writable p) (enumerable p) (configurable p).

(** A stored property has the fields of its kind only. *)
Definition wfProp (p : valueProperty) : Prop :=
  if accessor p then pvalue p = None ∧ writable p = false
  else isSome (pvalue p) = true ∧ getterFunc p = None ∧ setterFunc p = None.

Definition wfSlot (s : slot) : Prop := wfProp (propToValueProp s).

Section refinement.
Context (selfEqual : positive → positive → bool) (callable : positive → bool).

Definition isFunc (v : Value) : Prop :=
  match v with VUndefined => True | VObject p => callable p = true | _ => False end.

(** What toPropertyDescriptor guarantees. *)
Record wfDesc (d : PropertyDescriptor) : Prop := {
  wfd_kind : IsAccessor d && IsData d = false;
  wfd_getter : match dGetter d with Some g => isFunc g | None => True end;
  wfd_setter : match dSetter d with Some g => isFunc g | None => True end;
}.

(** Functions are not wrapped Go values: their identity is their address. *)
Hypothesis callable_identity : ∀ p q, callable p = true → selfEqual p q = true → p = q.

Lemma propFunc_spec v : isFunc v → propFunc callable v = Ok (specFunc v).
Proof. destruct v; cbn; try done. by intros ->. Qed.

Lemma funcDiffers_spec v f : isFunc v → funcDiffers selfEqual v f = negb (bool_decide (specFunc v = f)).
Proof.
  intros Hv. unfold funcDiffers. destruct v as [| | | | | | |p]; cbn in *; try done.
  - destruct f as [q|]; cbn; [|by rewrite bool_decide_eq_true_2]. by rewrite bool_decide_eq_false_2.
  - destruct f as [q|]; cbn; [|by rewrite bool_decide_eq_false_2]. f_equal.
    destruct (Pos.eqb_spec p q) as [->|Hne]; cbn; [by rewrite bool_decide_eq_true_2|].
    rewrite bool_decide_eq_false_2 by congruence. destruct (selfEqual p q) eqn:E; [|done].
    by apply callable_identity in E.
Qed.

(** *** Leftovers

    A redefinition that changes the kind of a property can leave fields of the
    other kind behind, and an assignment can give an accessor with a leftover
    [writable] a value.  What every stored property satisfies is less than
    [wfProp]: a data property has a value. *)
Definition okProp (p : valueProperty) : Prop := accessor p = false → isSome (pvalue p) = true.
Definition okSlot (s : slot) : Prop := okProp (propToValueProp s).

Lemma wfProp_ok p : wfProp p → okProp p.
Proof. unfold wfProp, okProp. intros Hw Ha. rewrite Ha in Hw. apply Hw. Qed.

(** The redefinitions that turn a leftover into an attribute: an accessor becomes
    a data property whose [writable] or value is an old one, a data property
    becomes an accessor with an old function. *)
Definition staleValue (v : option Value) : bool := match v with None | Some VUndefined => false | Some _ => true end.
Definition leftoverProp (p : valueProperty) (d : PropertyDescriptor) : bool :=
  if accessor p then
    IsData d && ((negb (isSome (dWritable d)) && writable p) || (negb (isSome (dValue d)) && staleValue (pvalue p)))
  else
    IsAccessor d && ((negb (isSome (dGetter d)) && isSome (getterFunc p))
                     || (negb (isSome (dSetter d)) && isSome (setterFunc p))).
Definition leftover (cur : option slot) (d : PropertyDescriptor) : bool :=
  match cur with None => false | Some s => leftoverProp (propToValueProp s) d end.

Lemma wfProp_no_leftover p d : wfProp p → leftoverProp p d = false.
Proof.
  unfold wfProp, leftoverProp. destruct p as [v w c e a g st]. cbn.
  destruct a; [intros [-> ->]|intros (_ & -> & ->)]; cbn; by rewrite !andb_false_r.
Qed.

(** The validation is the one of the specification. *)
Lemma rejects_spec d s :
  okSlot s → wfDesc d → rejects selfEqual d (propToValueProp s) = negb (specValid selfEqual d (abs s)).
Proof.
  intros Hs [Hk Hg Hset]. unfold rejects, specValid, abs, okSlot, okProp in *.
  set (p := propToValueProp s) in *. clearbody p. destruct p as [v w c e a g st]. cbn in *.
  destruct a; cbn [specC specE specIsAccessor]; destruct c; cbn; try done.
  - destruct (dConfigurable d) as [[]|], (dEnumerable d) as [b|]; cbn; try done;
      try (destruct (eqb b e); cbn; try done);
      destruct (IsGeneric d), (IsAccessor d); cbn; try done;
      (destruct (dGetter d) as [vg|], (dSetter d) as [vs|]; cbn; rewrite ?funcDiffers_spec by done;
       rewrite ?negb_andb, ?orb_false_r; done).
  - specialize (Hs eq_refl). destruct v as [v|]; [|done]. cbn.
    destruct (dConfigurable d) as [[]|], (dEnumerable d) as [b|]; cbn; try done;
      try (destruct (eqb b e); cbn; try done);
      destruct (IsGeneric d), (IsAccessor d); cbn; try done;
      (destruct w, (dWritable d) as [[]|], (dValue d); cbn; done).
Qed.

(** Redefinitions on which the code departs from the specification: an accessor
    property made a data property by [writable] alone, or a writable data
    property made an accessor property. *)
Definition keepsGetter (s : slot) (d : PropertyDescriptor) : bool :=
  accessor (propToValueProp s) && isSome (dWritable d) && negb (isSome (dValue d)).

Definition keepsWritable (s : slot) (d : PropertyDescriptor) : bool :=
  writable (propToValueProp s) && IsAccessor d.

(** The assignments make the property the specification prescribes, but for the
    leftovers. *)
Lemma applyDescriptor_spec p d :
  okProp p → wfDesc d →
  ∃ p', applyDescriptor callable p d = Ok p' ∧ okProp p' ∧
    (abs (Prop_ p') = specApply d (abs (Prop_ p)) ↔ leftoverProp p d = false).
Proof.
  intros Hp [Hk Hg Hset]. unfold applyDescriptor, abs, specApply, okProp, leftoverProp, IsAccessor, IsData in *.
  destruct p as [v w c e a g st], d as [dv dw dc de dg ds]. cbn [propToValueProp pvalue writable configurable enumerable
    accessor getterFunc setterFunc dValue dWritable dConfigurable dEnumerable dGetter dSetter] in *.
  destruct dg as [vg|], ds as [vs|]; destruct dv as [dv|], dw as [dw|]; cbn in Hk; try done; cbn;
    rewrite ?propFunc_spec by done; cbn; destruct a; cbn; try (specialize (Hp eq_refl); destruct v as [v|]; [|done]); cbn;
    try (destruct v as [v|]; cbn); try (eexists; split; [done|]; cbn; split; [done|]; split; intros ?; simplify_eq; try done);
    first [by destruct st | by destruct g | by destruct w | by destruct v].
Qed.

Lemma applyDescriptor_wf p d p' :
  wfProp p → wfDesc d → applyDescriptor callable p d = Ok p' →
  accessor p && isSome (dWritable d) && negb (isSome (dValue d)) = false → writable p && IsAccessor d = false → wfProp p'.
Proof.
  intros Hp [Hk Hg Hset]. unfold applyDescriptor, wfProp, IsAccessor, IsData in *.
  destruct p as [v w c e a g st], d as [dv dw dc de dg ds]. cbn [propToValueProp pvalue writable configurable enumerable
    accessor getterFunc setterFunc dValue dWritable dConfigurable dEnumerable dGetter dSetter] in *.
  destruct dg as [vg|], ds as [vs|]; destruct dv as [dv|], dw as [dw|]; cbn in Hk; try done; cbn;
    rewrite ?propFunc_spec by done; cbn; destruct a;
    (destruct Hp as [-> ->] || (destruct Hp as (Hv & -> & ->); destruct v as [v|]; [|done])); cbn;
    intros [= <-] H1 H2; rewrite ?andb_true_r in H2; subst; cbn in *; done.
Qed.

Definition undefProp : valueProperty := MkProp (Some VUndefined) false false false false None None.

Lemma applyDescriptor_empty d : wfDesc d → applyDescriptor callable emptyProp d = applyDescriptor callable undefProp d.
Proof.
  intros [Hk Hg Hs]. unfold applyDescriptor. cbn.
  destruct (dValue d), (dWritable d), (dGetter d), (dSetter d); cbn; try done; rewrite ?propFunc_spec by done; done.
Qed.

Lemma wfProp_undef : wfProp undefProp.
Proof. done. Qed.

(** The slot is replaced by the plain value when all attributes are set. *)
Lemma define_fast d cur v :
  wfDesc d → dWritable d = Some true → dEnumerable d = Some true → dConfigurable d = Some true → dValue d = Some v →
  abs (Raw v) = specApply d cur ∧ wfSlot (Raw v).
Proof.
  intros [Hk _ _] Hw He Hc Hv. split; [|done]. unfold specApply, IsAccessor, IsData in *. rewrite Hw, He, Hc, Hv in *.
  cbn in *. rewrite andb_true_r in Hk. rewrite Hk. by destruct cur.
Qed.

(** The end of [_defineOwnProperty]: the fast path for a plain value, or the
    assignments. *)
Lemma define_accepted existing d :
  okProp existing → wfDesc d →
  ∃ s', match dWritable d, dEnumerable d, dConfigurable d, dValue d with
        | Some true, Some true, Some true, Some v => Ok (Some (Raw v))
        | _, _, _, _ => p ← applyDescriptor callable existing d; Ok (Some (Prop_ p))
        end = Ok (Some s') ∧ okSlot s' ∧
    (abs s' = specApply d (abs (Prop_ existing)) ↔ leftoverProp existing d = false) ∧
    (wfProp existing → keepsGetter (Prop_ existing) d = false → keepsWritable (Prop_ existing) d = false → wfSlot s').
Proof.
  intros Hp Hd. destruct (applyDescriptor_spec existing d Hp Hd) as (p' & Ha & Hok & Habs).
  assert ((∃ v, dWritable d = Some true ∧ dEnumerable d = Some true ∧ dConfigurable d = Some true ∧ dValue d = Some v) ∨
          match dWritable d, dEnumerable d, dConfigurable d, dValue d with
          | Some true, Some true, Some true, Some v => Ok (Some (Raw v))
          | _, _, _, _ => p ← applyDescriptor callable existing d; Ok (Some (Prop_ p))
          end = (p ← applyDescriptor callable existing d; Ok (Some (Prop_ p)))) as [(v & Hw & He & Hc & Hv)| ->].
  { destruct (dWritable d) as [[]|], (dEnumerable d) as [[]|], (dConfigurable d) as [[]|], (dValue d) as [v|]; eauto 10. }
  - rewrite Hw, He, Hc, Hv. exists (Raw v). split; [done|]. split; [done|].
    destruct (define_fast d (abs (Prop_ existing)) v Hd Hw He Hc Hv) as [H1 H2]. split; [|done]. split; [|done]. intros _.
    pose proof (wfd_kind _ Hd) as Hk. unfold leftoverProp, IsData in *. rewrite Hw, Hv in *. cbn in *.
    rewrite andb_true_r in Hk. rewrite Hk. by destruct (accessor existing).
  - rewrite Ha. cbn. exists (Prop_ p'). split_and!; [done..|]. intros Hwf. by apply applyDescriptor_wf.
Qed.

Lemma define_refused ext cur d :
  (∀ s, cur = Some s → okSlot s) → wfDesc d → validateAndApply selfEqual ext (abs <$> cur) d = None →
  _defineOwnProperty selfEqual callable ext cur d false = Ok None ∧
  ∃ msg, _defineOwnProperty selfEqual callable ext cur d true = Throw (TypeError msg).
Proof.
  intros Hcur Hd. unfold _defineOwnProperty. destruct cur as [s|]; cbn [fmap option_fmap option_map validateAndApply].
  - specialize (Hcur s eq_refl). cbn [isCompatiblePropertyDescriptor]. rewrite rejects_spec by done.
    destruct (specValid selfEqual d (abs s)); [done|]. intros _. split; [done|]. by eexists.
  - destruct ext; [done|]. intros _. split; [done|]. by eexists.
Qed.

Lemma define_ok ext cur d p :
  (∀ s, cur = Some s → okSlot s) → wfDesc d → validateAndApply selfEqual ext (abs <$> cur) d = Some p →
  ∃ s', (∀ throw, _defineOwnProperty selfEqual callable ext cur d throw = Ok (Some s')) ∧ okSlot s' ∧
    (abs s' = p ↔ leftover cur d = false) ∧
    ((∀ s, cur = Some s → wfSlot s ∧ keepsGetter s d = false ∧ keepsWritable s d = false) → wfSlot s').
Proof.
  intros Hcur Hd. unfold _defineOwnProperty, leftover. destruct cur as [s|]; cbn [fmap option_fmap option_map validateAndApply].
  - specialize (Hcur s eq_refl). cbn [isCompatiblePropertyDescriptor]. rewrite rejects_spec by done.
    destruct (specValid selfEqual d (abs s)); [|done]. intros [= <-].
    destruct (define_accepted (propToValueProp s) d Hcur Hd) as (s' & He & Hok & Ha & Hw).
    exists s'. split_and!; [intros throw; exact He|done|exact Ha|]. intros Hk.
    destruct (Hk s eq_refl) as (H0 & H1 & H2). by apply Hw.
  - cbn [isCompatiblePropertyDescriptor default]. destruct ext; [|done]. intros [= <-]. cbn [negb andb].
    rewrite applyDescriptor_empty by done.
    destruct (define_accepted undefProp d (wfProp_ok _ wfProp_undef) Hd) as (s' & He & Hok & Ha & Hw).
    exists s'. split_and!; [intros throw; exact He|done| |intros _; by apply Hw].
    split; [done|]. intros _. apply Ha, wfProp_no_leftover, wfProp_undef.
Qed.

(** On a property with the fields of its kind only the result is always the one
    of the specification. *)
Lemma define_applied ext cur d p :
  (∀ s, cur = Some s → wfSlot s) → wfDesc d → validateAndApply selfEqual ext (abs <$> cur) d = Some p →
  ∃ s', (∀ throw, _defineOwnProperty selfEqual callable ext cur d throw = Ok (Some s')) ∧ abs s' = p ∧
    ((∀ s, cur = Some s → keepsGetter s d = false ∧ keepsWritable s d = false) → wfSlot s').
Proof.
  intros Hcur Hd Hv. destruct (define_ok ext cur d p) as (s' & He & _ & Ha & Hw); [|done..|].
  { intros s Hs. by apply wfProp_ok, Hcur. }
  exists s'. split_and!; [done| |intros Hk; apply Hw; intros s Hs; split; [by apply Hcur|by apply Hk]].
  apply Ha. destruct cur as [s|]; [|done]. by apply wfProp_no_leftover, Hcur.
Qed.

(** C12: defining a property on an object, with a descriptor as
    toPropertyDescriptor makes it and a stored property in any form the code
    leaves it in ([okSlot], which the result satisfies again), is refused (a
    TypeError if asked to throw) exactly when ValidateAndApplyPropertyDescriptor
    refuses it.  Otherwise Object.getOwnPropertyDescriptor shows what the
    specification prescribes, whichever of the two storage forms the property has
    before and after, exactly when the redefinition does not turn a field left
    over from an earlier one into an attribute ([leftover]); no property with the
    fields of its kind only has such fields, and it stays so unless an accessor is
    made a data property by [writable] alone or a writable data property is made
    an accessor. *)
Theorem defineOwnProperty_refines (extensible : bool) (cur : option slot) (d : PropertyDescriptor) :
  (∀ s, cur = Some s → okSlot s) → wfDesc d →
  match validateAndApply selfEqual extensible (abs <$> cur) d with
  | None =>
      _defineOwnProperty selfEqual callable extensible cur d false = Ok None ∧
      ∃ msg, _defineOwnProperty selfEqual callable extensible cur d true = Throw (TypeError msg)
  | Some p =>
      ∃ s', (∀ throw, _defineOwnProperty selfEqual callable extensible cur d throw = Ok (Some s')) ∧ okSlot s' ∧
        (abs s' = p ↔ leftover cur d = false) ∧
        ((∀ s, cur = Some s → wfSlot s) → leftover cur d = false) ∧
        ((∀ s, cur = Some s → wfSlot s ∧ keepsGetter s d = false ∧ keepsWritable s d = false) → wfSlot s')
  end.
Proof.
  intros Hcur Hd. destruct (validateAndApply selfEqual extensible (abs <$> cur) d) as [p|] eqn:E.
  - destruct (define_ok extensible cur d p Hcur Hd E) as (s' & He & Hok & Ha & Hw). exists s'. split_and!; [done..| |done].
    intros Hwf. destruct cur as [s|]; [|done]. by apply wfProp_no_leftover, Hwf.
  - by apply define_refused.
Qed.
End refinement.

(** ** Witnesses and counterexamples *)

Definition noSelf (p q : positive) : bool := false.
Definition allCallable (p : positive) : bool := true.

Definition exGetter : PropertyDescriptor := MkDesc None None (Some true) None (Some (VObject 7)) None.

Lemma defineOwnProperty_refines_witness :
  ∃ s', _defineOwnProperty noSelf allCallable true (Some (valueProp (VBool true) false true true)) exGetter true = Ok (Some s') ∧
        abs s' = SAccessor (Some 7%positive) None true true ∧ wfSlot s'.
Proof.
  assert (∀ p q, allCallable p = true → noSelf p q = true → p = q) as Hid by done.
  assert (∀ s, Some (valueProp (VBool true) false true true) = Some s → okSlot s) as Hs by (by intros s [= <-]).
  assert (wfDesc allCallable exGetter) as Hd by (by split).
  destruct (defineOwnProperty_refines noSelf allCallable Hid true (Some (valueProp (VBool true) false true true)) exGetter Hs Hd)
    as (s' & Hdef & _ & Habs & Hleft & Hwf).
  exists s'. split; [apply Hdef|]. split; [by apply Habs|]. apply Hwf. by intros s [= <-].
Defined.

(** Reading a property: valueProperty.get calls the getter if there is one. *)
Definition propGet (s : slot) : Value + positive :=
  match s with
  | Raw v => inl v
  | Prop_ p => match getterFunc p with None => inl (default VUndefined (pvalue p)) | Some g => inr g end
  end.

(** Writing it: [None] is the refusal, [inr] a call of the setter. *)
Definition propSet (s : slot) (v : Value) : option (slot + positive) :=
  match s with
  | Raw _ => Some (inl (Raw v))
  | Prop_ p =>
      if isWritable p then
        match setterFunc p with
        | None => Some (inl (Prop_ (MkProp (Some v) (writable p) (configurable p) (enumerable p) (accessor p)
                                      (getterFunc p) (setterFunc p))))
        | Some g => Some (inr g)
        end
      else None
  end.

(** An assignment leaves a stored property a stored property. *)
Lemma propSet_ok s v s' : okSlot s → propSet s v = Some (inl s') → okSlot s'.
Proof.
  unfold propSet, okSlot. destruct s as [x|p]; [by intros _ [= <-]|]. intros _.
  destruct (isWritable p); [|done]. destruct (setterFunc p); [done|]. by intros [= <-].
Qed.

(** On a property in the form its kind prescribes, reads and writes do what
    OrdinaryGet and OrdinarySet do: a data property yields its value and accepts
    a write exactly when it is writable; an accessor property calls its getter
    (undefined without one) and its setter (refusal without one). *)
Theorem propAccess_spec (s : slot) (v : Value) :
  wfSlot s →
  match abs s with
  | SData x w e c =>
      propGet s = inl x ∧
      if w then ∃ s', propSet s v = Some (inl s') ∧ abs s' = SData v w e c ∧ wfSlot s' else propSet s v = None
  | SAccessor g st e c =>
      propGet s = match g with Some f => inr f | None => inl VUndefined end ∧
      propSet s v = inr <$> st
  end.
Proof.
  unfold wfSlot, wfProp, abs. destruct s as [x|p]; cbn.
  - intros _. split; [done|]. by eexists.
  - destruct p as [x w c e a g st]. cbn. unfold propGet, propSet, isWritable. cbn. destruct a; cbn.
    + intros [-> ->]. split; [by destruct g|]. by destruct st.
    + intros (Hx & -> & ->). split; [done|]. rewrite orb_false_r. destruct w; [|done]. by eexists.
Qed.

Lemma propAccess_spec_witness : propSet (valueProp VNull false true true) VNull = None.
Proof. apply (propAccess_spec (valueProp VNull false true true) VNull). done. Defined.

(** [Object.defineProperty(o,"x",{get:f,configurable:true})] then
    [Object.defineProperty(o,"x",{writable:true})]: the property is a data
    property with the value undefined, but reading it still calls [f]. *)
Theorem stale_getter :
  ∃ s, _defineOwnProperty noSelf allCallable true
         (Some (Prop_ (MkProp None false true false true (Some 7%positive) None)))
         (MkDesc None (Some true) None None None None) true = Ok (Some s) ∧
       abs s = SData VUndefined true false true ∧ propGet s = inr 7%positive.
Proof. eexists. by split. Qed.

(** [o = {x: 1}; Object.defineProperty(o,"x",{get:f})] then [o.x = 2]: there is
    no setter, but the assignment succeeds. *)
Theorem stale_writable :
  ∃ s, _defineOwnProperty noSelf allCallable true (Some (Raw VNull))
         (MkDesc None None None None (Some (VObject 7)) None) true = Ok (Some s) ∧
       abs s = SAccessor (Some 7%positive) None true true ∧ propSet s VNull ≠ None.
Proof. eexists. by split. Qed.

(** [o = {x: null}], then [{get:f}], then [{value: true}]: the property is writable
    again, where the specification makes it read-only. *)
Theorem stale_attribute :
  ∃ s1 s2, _defineOwnProperty noSelf allCallable true (Some (Raw VNull))
      (MkDesc None None None None (Some (VObject 7)) None) true = Ok (Some s1) ∧
    _defineOwnProperty noSelf allCallable true (Some s1) (MkDesc (Some (VBool true)) None None None None None) true = Ok (Some s2) ∧
    leftover (Some s1) (MkDesc (Some (VBool true)) None None None None None) = true ∧
    abs s2 = SData (VBool true) true true true ∧
    validateAndApply noSelf true (Some (abs s1)) (MkDesc (Some (VBool true)) None None None None None)
      = Some (SData (VBool true) false true true).
Proof.
  exists (Prop_ (MkProp None true true true true (Some 7%positive) None)),
    (Prop_ (MkProp (Some (VBool true)) true true true false None None)).
  vm_compute. done.
Qed.
End Property.
