(* ===== verification/Objects.v ===== *)
(** * Ordinary objects: the property table and its order

    Model of baseObject of object.go: the table of string-keyed own properties
    with the list of names that keeps creation order and is reordered lazily
    (index keys first, ascending) when the keys are enumerated.

    The list of names is a value here; the copy-on-write marker that protects a
    running enumeration from reordering in place is not modelled. *)

From S2P Require Import Prelude ArrayIndex Values Property.
Import ArrayIndex Values Property.
Open Scope Z_scope.

Module Objects.

(** A unistring.String: bytes. *)
Abbreviation key := (list Z).

Record baseObject := MkObject {
  prototype : option positive;
  extensible : bool;
  values : gmap key slot;
  propNames : list key;
  lastSortedPropLen : nat;
  idxPropCount : nat;
}.

Definition newBaseObject (proto : option positive) : baseObject := MkObject proto true ∅ [] 0 0.

Definition isIdx (name : key) : bool := negb (strToArrayIdx name =? MaxUint32).

(** ** fixPropOrder *)

(** sort.Search(n, f): binary search in [i, j). *)
Fixpoint searchLoop (fuel : nat) (f : nat → bool) (i j : nat) : nat :=
  match fuel with
  | O => i
  | S fuel =>
      if Nat.ltb i j then
        let h := ((i + j) / 2)%nat in
        if f h then searchLoop fuel f i h else searchLoop fuel f (S h) j
      else i
  end.

Definition sortSearch (n : nat) (f : nat → bool) : nat := searchLoop (S n) f 0 n.

Definition nameAt (names : list key) (i : nat) : key := nth i names [].

(** The names with [names[i]] moved to [k], those between shifted up. *)
Definition moveName (names : list key) (k i : nat) : list key :=
  take k names ++ nameAt names i :: take (i - k) (drop k names) ++ drop (S i) names.

Fixpoint fixPropOrderLoop (n : nat) (i : nat) (names : list key) (idxCount : nat) : list key * nat :=
  match n with
  | O => (names, idxCount)
  | S n =>
      let name := nameAt names i in
      let idx := strToArrayIdx name in
      if idx =? MaxUint32 then fixPropOrderLoop n (S i) names idxCount
      else
        let k := sortSearch idxCount (λ j, idx <=? strToArrayIdx (nameAt names j)) in
        let names := if Nat.ltb k i then moveName names k i else names in
        fixPropOrderLoop n (S i) names (S idxCount)
  end.

Definition fixPropOrder (o : baseObject) : baseObject :=
  let '(names, c) := fixPropOrderLoop (length (propNames o) - lastSortedPropLen o) (lastSortedPropLen o)
                       (propNames o) (idxPropCount o) in
  MkObject (prototype o) (extensible o) (values o) names (length names) c.

Definition ensurePropOrder (o : baseObject) : baseObject :=
  if Nat.ltb (lastSortedPropLen o) (length (propNames o)) then fixPropOrder o else o.

(** ** Own properties *)

Definition appendName (o : baseObject) (name : key) (vs : gmap key slot) : baseObject :=
  MkObject (prototype o) (extensible o) vs (propNames o ++ [name]) (lastSortedPropLen o) (idxPropCount o).

Definition withValues (o : baseObject) (vs : gmap key slot) : baseObject :=
  MkObject (prototype o) (extensible o) vs (propNames o) (lastSortedPropLen o) (idxPropCount o).

Definition _put (o : baseObject) (name : key) (v : slot) : baseObject :=
  match values o !! name with
  | None => appendName o name (<[name := v]> (values o))
  | Some _ => withValues o (<[name := v]> (values o))
  end.

(** The index of a name. *)
Fixpoint indexOf (name : key) (names : list key) : option nat :=
  match names with
  | [] => None
  | n :: names => if decide (n = name) then Some 0%nat else S <$> indexOf name names
  end.

Definition _delete (o : baseObject) (name : key) : baseObject :=
  let vs := delete name (values o) in
  match indexOf name (propNames o) with
  | None => withValues o vs
  | Some i =>
      let names := take i (propNames o) ++ drop (S i) (propNames o) in
      if Nat.ltb i (lastSortedPropLen o) then
        MkObject (prototype o) (extensible o) vs names (lastSortedPropLen o - 1)
          (if Nat.ltb i (idxPropCount o) then idxPropCount o - 1 else idxPropCount o)
      else MkObject (prototype o) (extensible o) vs names (lastSortedPropLen o) (idxPropCount o)
  end.

(** checkDelete: a valueProperty must be configurable. *)
Definition checkDelete (v : slot) (throw : bool) : result bool :=
  match v with
  | Prop_ p => if configurable p then Ok true
               else if throw then Throw (TypeError "Cannot delete property") else Ok false
  | Raw _ => Ok true
  end.

Definition deleteStr (o : baseObject) (name : key) (throw : bool) : result (baseObject * bool) :=
  match values o !! name with
  | Some v => ok ← checkDelete v throw;
              Ok (if (ok : bool) then (_delete o name, true) else (o, false))
  | None => Ok (o, true)
  end.

Section define.
Context (selfEqual : positive → positive → bool) (callable : positive → bool).

Definition defineOwnPropertyStr (o : baseObject) (name : key) (descr : PropertyDescriptor) (throw : bool)
    : result (baseObject * bool) :=
  r ← _defineOwnProperty selfEqual callable (extensible o) (values o !! name) descr throw;
  Ok (match r with
      | Some v =>
          (match values o !! name with
           | None => appendName o name (<[name := v]> (values o))
           | Some _ => withValues o (<[name := v]> (values o))
           end, true)
      | None => (o, false)
      end).
End define.

Definition enumerableSlot (s : slot) : bool := match s with Prop_ p => enumerable p | Raw _ => true end.

(** stringKeys; the names are sorted first. *)
Definition stringKeys (o : baseObject) (all : bool) : baseObject * list key :=
  let o := ensurePropOrder o in
  (o, if all then propNames o
      else List.filter (λ k, match values o !! k with Some s => enumerableSlot s | None => true end) (propNames o)).

Definition preventExtensions (o : baseObject) : baseObject :=
  MkObject (prototype o) false (values o) (propNames o) (lastSortedPropLen o) (idxPropCount o).

(** ** Binary search *)

Lemma searchLoop_spec fuel f i j n :
  (j - i < fuel)%nat → (i ≤ j ≤ n)%nat →
  (∀ a b, (a ≤ b < n)%nat → f a = true → f b = true) →
  (∀ a, (a < i)%nat → f a = false) → (∀ a, (j ≤ a < n)%nat → f a = true) →
  let k := searchLoop fuel f i j in
  (k ≤ n)%nat ∧ (∀ a, (a < k)%nat → f a = false) ∧ (∀ a, (k ≤ a < n)%nat → f a = true).
Proof.
  revert i j. induction fuel as [|fuel IH]; intros i j Hf Hij Hmono Hlo Hhi; [lia|]. cbn [searchLoop].
  destruct (Nat.ltb_spec i j) as [E|E]; [|assert (i = j) as <- by lia; split; [lia|by split]].
  set (h := ((i + j) / 2)%nat). assert (i ≤ h < j)%nat as Hh.
  { split; [apply Nat.div_le_lower_bound; lia|apply Nat.Div0.div_lt_upper_bound; lia]. }
  destruct (f h) eqn:Eh.
  - apply IH; [lia|lia|done|done|]. intros a Ha. apply (Hmono h); [lia|done].
  - apply IH; [lia|lia|done| |done]. intros a Ha. destruct (f a) eqn:Ea; [|done].
    rewrite (Hmono a h) in Eh; [done|lia|done].
Qed.

Lemma sortSearch_spec n f :
  (∀ a b, (a ≤ b < n)%nat → f a = true → f b = true) →
  let k := sortSearch n f in
  (k ≤ n)%nat ∧ (∀ a, (a < k)%nat → f a = false) ∧ (∀ a, (k ≤ a < n)%nat → f a = true).
Proof. intros Hm. apply searchLoop_spec; try done; lia. Qed.

(** ** The order of the names *)

Definition idxLt (x y : key) : Prop := strToArrayIdx x < strToArrayIdx y.

Definition idxP (k : key) : Prop := isIdx k = true.
Definition nonIdxP (k : key) : Prop := isIdx k = false.
#[global] Instance idxP_dec k : Decision (idxP k).
Proof. unfold idxP. apply _. Defined.
#[global] Instance nonIdxP_dec k : Decision (nonIdxP k).
Proof. unfold nonIdxP. apply _. Defined.

Lemma isIdx_true k : isIdx k = true ↔ strToArrayIdx k ≠ MaxUint32.
Proof. unfold isIdx. by rewrite negb_true_iff, Z.eqb_neq. Qed.

Lemma isIdx_range k : isIdx k = true → 0 ≤ strToArrayIdx k < MaxUint32.
Proof. rewrite isIdx_true. pose proof (strToArrayIdx_range k). lia. Qed.

Lemma nameAt_app_r a x t : nameAt (a ++ x :: t) (length a) = x.
Proof. unfold nameAt. rewrite app_nth2, Nat.sub_diag by lia. done. Qed.

Lemma nameAt_app_l a t j : (j < length a)%nat → nameAt (a ++ t) j = nameAt a j.
Proof. intros Hj. unfold nameAt. by apply app_nth1. Qed.

Lemma nameAt_lookup a j x : a !! j = Some x → nameAt a j = x.
Proof. intros Hx. unfold nameAt. rewrite nth_lookup, Hx. done. Qed.

Lemma StronglySorted_insert a1 a2 x :
  StronglySorted idxLt (a1 ++ a2) → Forall (λ y, idxLt y x) a1 → Forall (idxLt x) a2 →
  StronglySorted idxLt (a1 ++ x :: a2).
Proof.
  induction a1 as [|y a1 IH]; cbn; intros Hs H1 H2; [by constructor|].
  apply StronglySorted_inv in Hs as [Hs Hy]. apply Forall_cons in H1 as [Hyx H1]. constructor; [by apply IH|].
  apply Forall_app in Hy as [Hy1 Hy2]. apply Forall_app. split; [done|]. by constructor.
Qed.

(** The position found for a new index splits the sorted indices. *)
Lemma search_split a rest x :
  StronglySorted idxLt a → Forall idxP a → isIdx x = true → x ∉ a →
  ∃ a1 a2, a = a1 ++ a2 ∧
    sortSearch (length a) (λ j, strToArrayIdx x <=? strToArrayIdx (nameAt (a ++ rest) j)) = length a1 ∧
    Forall (λ y, idxLt y x) a1 ∧ Forall (idxLt x) a2.
Proof.
  intros Hs Hi Hx Hnin. set (f := λ j, strToArrayIdx x <=? strToArrayIdx (nameAt (a ++ rest) j)).
  assert (∀ j y, a !! j = Some y → f j = (strToArrayIdx x <=? strToArrayIdx y)) as Hf.
  { intros j y Hy. unfold f. rewrite nameAt_app_l by (by eapply lookup_lt_Some). by rewrite (nameAt_lookup _ _ _ Hy). }
  destruct (sortSearch_spec (length a) f) as (Hk & Hlo & Hhi).
  { intros i j Hij Hfi. destruct (lookup_lt_is_Some_2 a i) as [y Hy]; [lia|].
    destruct (lookup_lt_is_Some_2 a j) as [z Hz]; [lia|]. rewrite (Hf _ _ Hy) in Hfi. rewrite (Hf _ _ Hz).
    apply Z.leb_le in Hfi. apply Z.leb_le. destruct (Nat.eq_dec i j) as [->|Hne]; [by simplify_eq|].
    assert (idxLt y z) as Hlt by (apply (StronglySorted_lookup_lt idxLt a i j); [done..|lia]). unfold idxLt in Hlt. lia. }
  set (k := sortSearch (length a) f) in *. exists (take k a), (drop k a).
  split; [by rewrite take_drop|]. split; [rewrite length_take; lia|]. split; apply Forall_lookup.
  - intros j y Hy. apply lookup_take_Some in Hy as [Hy Hj]. specialize (Hlo j Hj). rewrite (Hf _ _ Hy) in Hlo.
    apply Z.leb_gt in Hlo. exact Hlo.
  - intros j y Hy. rewrite lookup_drop in Hy. pose proof (lookup_lt_Some _ _ _ Hy).
    specialize (Hhi (k + j)%nat ltac:(lia)). rewrite (Hf _ _ Hy) in Hhi. apply Z.leb_le in Hhi. unfold idxLt.
    destruct (Z.eq_dec (strToArrayIdx x) (strToArrayIdx y)) as [He|]; [exfalso|lia].
    apply Hnin. rewrite (strToArrayIdx_inj x y He (isIdx_range x Hx)). by eapply list_elem_of_lookup_2.
Qed.

Lemma moveName_split (a1 a2 b c : list key) x :
  moveName (a1 ++ a2 ++ b ++ x :: c) (length a1) (length (a1 ++ a2 ++ b)) = a1 ++ x :: a2 ++ b ++ c.
Proof.
  assert (a1 ++ a2 ++ b ++ x :: c = (a1 ++ a2 ++ b) ++ x :: c) as Heq by (by rewrite <- !app_assoc).
  unfold moveName. f_equal; [apply take_app_length|]. f_equal; [by rewrite Heq, nameAt_app_r|].
  rewrite drop_app_length. rewrite (app_assoc a2 b c). f_equal.
  - rewrite (app_assoc a2 b). replace (length (a1 ++ a2 ++ b) - length a1)%nat with (length (a2 ++ b))
      by (rewrite !length_app; lia). apply take_app_length.
  - rewrite Heq. replace (S (length (a1 ++ a2 ++ b))) with (length (a1 ++ a2 ++ b) + 1)%nat by lia.
    rewrite <- drop_drop, drop_app_length. done.
Qed.

(** The loop sorts the index keys to the front and keeps the order of the rest. *)
Lemma fixLoop_spec c a b :
  NoDup (a ++ b ++ c) → StronglySorted idxLt a → Forall idxP a →
  ∃ a', fixPropOrderLoop (length c) (length (a ++ b)) (a ++ b ++ c) (length a)
        = (a' ++ b ++ filter nonIdxP c, length a') ∧
    StronglySorted idxLt a' ∧ Forall idxP a' ∧ a' ≡ₚ a ++ filter idxP c.
Proof.
  revert a b. induction c as [|x c IH]; intros a b Hnd Hs Hi.
  - exists a. cbn. rewrite !app_nil_r. done.
  - cbn [fixPropOrderLoop length].
    assert (a ++ b ++ x :: c = (a ++ b) ++ x :: c) as Heq by (by rewrite <- app_assoc).
    cbn zeta. replace (nameAt (a ++ b ++ x :: c) (length (a ++ b))) with x by (by rewrite Heq, nameAt_app_r).
    destruct (Z.eqb_spec (strToArrayIdx x) MaxUint32) as [E|E].
    + assert (isIdx x = false) as Hx by (unfold isIdx; rewrite E; done).
      rewrite (filter_cons_True nonIdxP), (filter_cons_False idxP) by (unfold idxP, nonIdxP; congruence).
      destruct (IH a (b ++ [x])) as (a' & Hl & H1); [by rewrite <- app_assoc|done|done|].
      exists a'. split; [|done]. rewrite <- !app_assoc in Hl. rewrite !length_app in Hl. cbn [length app] in Hl.
      rewrite <- Hl. f_equal. rewrite !length_app. cbn. lia.
    + assert (isIdx x = true) as Hx by (by apply isIdx_true).
      rewrite (filter_cons_False nonIdxP), (filter_cons_True idxP) by (unfold idxP, nonIdxP; congruence).
      assert (x ∉ a) as Hnin.
      { intros Hin. rewrite Heq, NoDup_app in Hnd. destruct Hnd as (_ & Hd & _).
        apply (Hd x); [apply elem_of_app; by left|left]. }
      destruct (search_split a (b ++ x :: c) x Hs Hi Hx Hnin) as (a1 & a2 & -> & -> & H1 & H2).
      assert ((if Nat.ltb (length a1) (length ((a1 ++ a2) ++ b))
               then moveName ((a1 ++ a2) ++ b ++ x :: c) (length a1) (length ((a1 ++ a2) ++ b))
               else (a1 ++ a2) ++ b ++ x :: c) = (a1 ++ x :: a2) ++ b ++ c) as ->.
      { rewrite <- !app_assoc. cbn [app]. rewrite moveName_split. destruct (Nat.ltb_spec (length a1) (length (a1 ++ a2 ++ b))); [done|].
        rewrite !length_app in *. destruct a2; [|cbn in *; lia]. destruct b; [done|cbn in *; lia]. }
      destruct (IH (a1 ++ x :: a2) b) as (a' & Hl & Hs' & Hi' & Hp).
      * assert ((a1 ++ x :: a2) ++ b ++ c ≡ₚ (a1 ++ a2) ++ b ++ x :: c) as ->; [|done].
        rewrite <- !app_assoc. apply Permutation_app_head. cbn. rewrite !app_assoc. apply Permutation_middle.
      * by apply StronglySorted_insert.
      * apply Forall_app in Hi as [Hi1 Hi2]. apply Forall_app. split; [done|]. by constructor.
      * exists a'. split; [|split; [done|split; [done|]]].
        -- rewrite <- Hl. f_equal; rewrite !length_app; cbn; lia.
        -- rewrite Hp. rewrite <- !app_assoc. apply Permutation_app_head. cbn. apply Permutation_middle.
Qed.

(** ** The reference: an association list in creation order *)

Abbreviation table := (list (key * slot)).

Definition tget (t : table) (name : key) : option slot := (list_to_map t : gmap key slot) !! name.

Definition tput (t : table) (name : key) (v : slot) : table :=
  match tget t name with
  | None => t ++ [(name, v)]
  | Some _ => (λ '(k, s), (k, if decide (k = name) then v else s)) <$> t
  end.

Definition tdel (t : table) (name : key) : table := filter (λ p, p.1 ≠ name) t.

(** Mutators of an object, [throw] false. *)
Inductive objOp :=
  | OpPut (name : key) (v : slot)
  | OpDefine (name : key) (d : PropertyDescriptor)
  | OpDelete (name : key)
  | OpKeys (all : bool)
  | OpPreventExtensions.

Section ops.
Context (selfEqual : positive → positive → bool) (callable : positive → bool).

(** A refused definition leaves the object as it is; one that throws (an accessor
    that is not a function) too. *)
Definition applyOp (o : baseObject) (op : objOp) : baseObject :=
  match op with
  | OpPut name v => _put o name v
  | OpDefine name d =>
      match defineOwnPropertyStr selfEqual callable o name d false with Ok (o, _) => o | Throw _ => o end
  | OpDelete name => match deleteStr o name false with Ok (o, _) => o | Throw _ => o end
  | OpKeys all => (stringKeys o all).1
  | OpPreventExtensions => preventExtensions o
  end.

Definition specOp (st : bool * table) (op : objOp) : bool * table :=
  let '(ext, t) := st in
  match op with
  | OpPut name v => (ext, tput t name v)
  | OpDefine name d =>
      match _defineOwnProperty selfEqual callable ext (tget t name) d false with
      | Ok (Some v) => (ext, tput t name v)
      | _ => st
      end
  | OpDelete name =>
      match tget t name with
      | Some s => match checkDelete s false with Ok true => (ext, tdel t name) | _ => st end
      | None => st
      end
  | OpKeys _ => st
  | OpPreventExtensions => (false, t)
  end.
End ops.

(** The object represents the table. *)
Record Rep (o : baseObject) (st : bool * table) : Prop := {
  rep_ext : extensible o = st.1;
  rep_values : values o = list_to_map st.2;
  rep_nodup : NoDup st.2.*1;
  rep_names : ∃ a b c, propNames o = a ++ b ++ c ∧ idxPropCount o = length a ∧
    lastSortedPropLen o = length (a ++ b) ∧ StronglySorted idxLt a ∧ Forall idxP a ∧ Forall nonIdxP b ∧
    a ++ b ++ c ≡ₚ st.2.*1 ∧ filter nonIdxP (a ++ b ++ c) = filter nonIdxP st.2.*1;
}.

Lemma tput_keys_absent t name v : tget t name = None → (tput t name v).*1 = t.*1 ++ [name].
Proof. intros H. unfold tput. rewrite H, fmap_app. done. Qed.

Lemma tput_keys_present t name v s : tget t name = Some s → (tput t name v).*1 = t.*1.
Proof.
  intros H. unfold tput. rewrite H. clear H. induction t as [|[k x] t IH]; [done|]. cbn. by rewrite IH.
Qed.

Lemma tget_elem t name : is_Some (tget t name) ↔ name ∈ t.*1.
Proof.
  unfold tget. split.
  - intros [s Hs%elem_of_list_to_map_2]. apply list_elem_of_fmap. by exists (name, s).
  - intros Hin. apply not_eq_None_Some. by intros Hn%not_elem_of_list_to_map.
Qed.

Lemma tget_Some t k x : NoDup t.*1 → tget t k = Some x ↔ (k, x) ∈ t.
Proof. intros Hnd. unfold tget. symmetry. by apply elem_of_list_to_map. Qed.

Lemma tget_None t k : tget t k = None ↔ k ∉ t.*1.
Proof. rewrite <- tget_elem. apply eq_None_not_Some. Qed.

Lemma tput_nodup t name v : NoDup t.*1 → NoDup (tput t name v).*1.
Proof.
  intros Hnd. destruct (tget t name) as [s|] eqn:E; [by rewrite (tput_keys_present _ _ _ s)|].
  rewrite tput_keys_absent by done. apply NoDup_app. split; [done|]. split; [|apply NoDup_singleton].
  intros k Hk Heq%list_elem_of_singleton. subst. by apply tget_None in E.
Qed.

Lemma tput_map t name v : NoDup t.*1 → (list_to_map (tput t name v) : gmap key slot) = <[name := v]> (list_to_map t).
Proof.
  intros Hnd. apply map_eq. intros k. apply option_eq. intros x.
  change (list_to_map (tput t name v) !! k) with (tget (tput t name v) k).
  rewrite tget_Some by (by apply tput_nodup). unfold tput. destruct (tget t name) as [s|] eqn:E.
  - rewrite list_elem_of_fmap. destruct (decide (k = name)) as [->|Hne].
    + rewrite lookup_insert_eq. split.
      * intros ([k' x'] & [= -> ->] & _). by rewrite decide_True.
      * intros [= <-]. exists (name, s). split; [by rewrite decide_True|]. by apply tget_Some.
    + rewrite lookup_insert_ne by done. change (list_to_map t !! k) with (tget t k). rewrite tget_Some by done. split.
      * intros ([k' x'] & [= -> ->] & Hin). by rewrite decide_False.
      * intros Hin. exists (k, x). by rewrite decide_False.
  - rewrite elem_of_app, list_elem_of_singleton. destruct (decide (k = name)) as [->|Hne].
    + rewrite lookup_insert_eq. split; [|intros [= <-]; by right].
      intros [Hin|[= ->]]; [|done]. apply tget_Some in Hin; [congruence|done].
    + rewrite lookup_insert_ne by done. change (list_to_map t !! k) with (tget t k). rewrite tget_Some by done.
      split; [intros [?|[= ? ?]]; done|by left].
Qed.

Lemma tdel_keys t name : (tdel t name).*1 = filter (λ k, k ≠ name) t.*1.
Proof.
  unfold tdel. induction t as [|[k x] t IH]; [done|]. cbn [fmap list_fmap fst].
  destruct (decide (k = name)) as [->|Hne].
  - rewrite !filter_cons_False; [done|tauto|cbn; tauto].
  - rewrite !filter_cons_True by done. cbn. by rewrite IH.
Qed.

Lemma tdel_map t name : NoDup t.*1 → (list_to_map (tdel t name) : gmap key slot) = delete name (list_to_map t).
Proof.
  intros Hnd. assert (NoDup (tdel t name).*1) as Hnd' by (rewrite tdel_keys; by apply NoDup_filter).
  apply map_eq. intros k. apply option_eq. intros x.
  change (list_to_map (tdel t name) !! k) with (tget (tdel t name) k). rewrite tget_Some by done.
  unfold tdel. rewrite list_elem_of_filter. cbn. destruct (decide (k = name)) as [->|Hne].
  - rewrite lookup_delete_eq. split; [tauto|done].
  - rewrite lookup_delete_ne by done. change (list_to_map t !! k) with (tget t k). rewrite tget_Some by done. tauto.
Qed.

(** ** The operations preserve the representation *)

Lemma rep_get o st name : Rep o st → values o !! name = tget st.2 name.
Proof. intros HR. by rewrite (rep_values _ _ HR). Qed.

Lemma newObject_rep proto : Rep (newBaseObject proto) (true, []).
Proof.
  split; cbn; [done|done|constructor|]. exists [], [], []. cbn.
  split; [done|]. split; [done|]. split; [done|]. split; [constructor|]. split; [constructor|].
  split; [constructor|]. by split.
Qed.

Lemma put_rep o st name v : Rep o st → Rep (_put o name v) (st.1, tput st.2 name v).
Proof.
  intros HR. pose proof (rep_get o st name HR) as Hg. destruct HR as [He Hv Hnd (a & b & c & Hn & Hi & Hl & Hs & Hia & Hb & Hp & Hf)].
  unfold _put. rewrite Hg. destruct (tget st.2 name) as [s|] eqn:E.
  - split; cbn; [done|by rewrite tput_map, Hv|by apply tput_nodup|].
    exists a, b, c. by rewrite (tput_keys_present _ _ _ s).
  - split; cbn; [done|by rewrite tput_map, Hv|by apply tput_nodup|].
    exists a, b, (c ++ [name]). rewrite tput_keys_absent by done.
    split; [by rewrite Hn, <- !app_assoc|]. do 5 (split; [done|]).
    assert (a ++ b ++ c ++ [name] = (a ++ b ++ c) ++ [name]) as -> by (by rewrite <- !app_assoc).
    split; [by rewrite Hp|]. by rewrite filter_app, Hf, <- filter_app.
Qed.

Lemma indexOf_spec name names :
  name ∈ names → ∃ l1 l2, names = l1 ++ name :: l2 ∧ indexOf name names = Some (length l1).
Proof.
  induction names as [|n names IH]; [by intros ?%not_elem_of_nil|]. cbn.
  destruct (decide (n = name)) as [->|Hne]; [intros _; by exists [], names|].
  intros [?|Hin]%elem_of_cons; [by subst|]. destruct (IH Hin) as (l1 & l2 & -> & ->). by exists (n :: l1), l2.
Qed.

Lemma filter_ne_middle (l1 l2 : list key) name :
  NoDup (l1 ++ name :: l2) → filter (λ k, k ≠ name) (l1 ++ name :: l2) = l1 ++ l2.
Proof.
  intros Hnd. apply NoDup_app in Hnd as (_ & H1 & H2). apply NoDup_cons in H2 as [H2 _].
  assert (∀ l : list key, name ∉ l → filter (λ k, k ≠ name) l = l) as Hid.
  { induction l as [|x l IH]; [done|]. intros [Hx Hl]%not_elem_of_cons. rewrite filter_cons_True by congruence. by rewrite IH. }
  rewrite filter_app, filter_cons_False by tauto. rewrite !Hid; [done|done|].
  intros Hin. apply (H1 _ Hin). left.
Qed.

Lemma StronglySorted_sub (l1 l2 : list key) x : StronglySorted idxLt (l1 ++ x :: l2) → StronglySorted idxLt (l1 ++ l2).
Proof.
  induction l1 as [|y l1 IH]; cbn; intros H; apply StronglySorted_inv in H as [H1 H2]; [done|].
  constructor; [by apply IH|]. apply Forall_app in H2 as [H2 H3]. apply Forall_cons in H3 as [_ H3]. by apply Forall_app.
Qed.

Lemma Forall_sub {A} (P : A → Prop) l1 x l2 : Forall P (l1 ++ x :: l2) → Forall P (l1 ++ l2).
Proof. intros [H1 [_ H2]%Forall_cons]%Forall_app. by apply Forall_app. Qed.

Lemma take_drop_hole (l1 l2 : list key) x : take (length l1) (l1 ++ x :: l2) ++ drop (S (length l1)) (l1 ++ x :: l2) = l1 ++ l2.
Proof.
  rewrite take_app_length. f_equal. replace (S (length l1)) with (length l1 + 1)%nat by lia.
  by rewrite <- drop_drop, drop_app_length.
Qed.

Lemma delete_rep o st name s :
  Rep o st → tget st.2 name = Some s → Rep (_delete o name) (st.1, tdel st.2 name).
Proof.
  intros HR Hg. destruct HR as [He Hv Hnd (a & b & c & Hn & Hi & Hl & Hs & Hia & Hb & Hp & Hf)].
  assert (name ∈ propNames o) as Hin by (rewrite Hn, Hp; apply tget_elem; by eexists).
  destruct (indexOf_spec _ _ Hin) as (l1 & l2 & Hsplit & Hidx). unfold _delete. rewrite Hidx, Hsplit, take_drop_hole.
  assert (NoDup (l1 ++ name :: l2)) as Hndn by (rewrite <- Hsplit, Hn, Hp; done).
  assert (l1 ++ l2 ≡ₚ (tdel st.2 name).*1) as Hperm.
  { rewrite tdel_keys, <- Hp, <- Hn, Hsplit. by rewrite filter_ne_middle. }
  assert (filter nonIdxP (l1 ++ l2) = filter nonIdxP (tdel st.2 name).*1) as Hfilt.
  { rewrite tdel_keys, <- (filter_ne_middle l1 l2 name Hndn), <- Hsplit, Hn.
    rewrite !list_filter_filter. rewrite (list_filter_iff _ (λ k, k ≠ name ∧ nonIdxP k)) by tauto.
    rewrite <- list_filter_filter, Hf, list_filter_filter. apply list_filter_iff. tauto. }
  assert (list_to_map (tdel st.2 name) = delete name (values o)) as Hvals by (by rewrite tdel_map, Hv).
  assert (NoDup (tdel st.2 name).*1) as Hnd' by (rewrite tdel_keys; by apply NoDup_filter).
  rewrite Hn in Hsplit. symmetry in Hsplit.
  destruct (app_cons_split _ _ _ _ _ Hsplit) as [(a' & -> & ->)|(b' & Hbc & ->)].
  - rewrite Hl, Hi, !length_app. cbn [length]. rewrite !(proj2 (Nat.ltb_lt _ _)) by lia.
    split; cbn; [done|done|done|]. exists (l1 ++ a'), b, c. rewrite !length_app. rewrite <- !app_assoc.
    split; [done|]. split; [lia|]. split; [lia|]. split; [by eapply StronglySorted_sub|].
    split; [by eapply Forall_sub|]. split; [done|]. by split.
  - destruct (app_cons_split _ _ _ _ _ (eq_sym Hbc)) as [(b'' & -> & ->)|(c' & -> & ->)].
    + rewrite Hl, Hi, !length_app. cbn [length]. rewrite (proj2 (Nat.ltb_lt (length a + length b') _)) by lia.
      rewrite (proj2 (Nat.ltb_ge _ (length a))) by lia.
      split; cbn; [done|done|done|]. exists a, (b' ++ b''), c. rewrite !length_app. rewrite <- !app_assoc.
      rewrite <- !app_assoc in Hperm, Hfilt.
      split; [done|]. split; [lia|]. split; [lia|]. split; [done|].
      split; [done|]. split; [by eapply Forall_sub|]. by split.
    + rewrite Hl, !length_app. rewrite (proj2 (Nat.ltb_ge _ _)) by lia.
      split; cbn; [done|done|done|]. exists a, b, (c' ++ l2). rewrite !length_app. rewrite <- !app_assoc.
      rewrite <- !app_assoc in Hperm, Hfilt. by repeat (split; [done|]).
Qed.

Lemma ensure_rep o st :
  Rep o st → Rep (ensurePropOrder o) st ∧
  ∃ a b, propNames (ensurePropOrder o) = a ++ b ∧ StronglySorted idxLt a ∧ Forall idxP a ∧ Forall nonIdxP b ∧
    a ≡ₚ filter idxP st.2.*1 ∧ b = filter nonIdxP st.2.*1 ∧ values (ensurePropOrder o) = values o.
Proof.
  intros HR. pose proof HR as [He Hv Hnd (a & b & c & Hn & Hi & Hl & Hs & Hia & Hb & Hp & Hf)].
  assert (∀ l, Forall idxP l → filter nonIdxP l = [] ∧ filter idxP l = l) as Hfi.
  { induction 1 as [|x l Hx _ [IH1 IH2]]; [done|].
    rewrite (filter_cons_False nonIdxP), (filter_cons_True idxP) by (unfold idxP, nonIdxP in *; congruence). by rewrite IH1, IH2. }
  assert (∀ l, Forall nonIdxP l → filter nonIdxP l = l ∧ filter idxP l = []) as Hfn.
  { induction 1 as [|x l Hx _ [IH1 IH2]]; [done|].
    rewrite (filter_cons_True nonIdxP), (filter_cons_False idxP) by (unfold idxP, nonIdxP in *; congruence). by rewrite IH1, IH2. }
  unfold ensurePropOrder. rewrite Hl, Hn. destruct (Nat.ltb_spec (length (a ++ b)) (length (a ++ b ++ c))) as [E|E].
  - unfold fixPropOrder. rewrite Hl, Hn, Hi. replace (length (a ++ b ++ c) - length (a ++ b))%nat with (length c)
      by (rewrite !length_app; lia).
    destruct (fixLoop_spec c a b) as (a' & -> & Hs' & Hi' & Hp'); [by rewrite Hp|done|done|].
    assert (Forall nonIdxP (b ++ filter nonIdxP c)) as Hbb.
    { apply Forall_app. split; [done|]. apply Forall_forall. intros x [Hx _]%list_elem_of_filter. done. }
    assert (b ++ filter nonIdxP c = filter nonIdxP st.2.*1) as Hb2.
    { rewrite <- Hf, !filter_app. rewrite (proj1 (Hfi a Hia)), (proj1 (Hfn b Hb)). done. }
    assert (a' ≡ₚ filter idxP st.2.*1) as Ha2.
    { rewrite Hp', <- Hp, !filter_app. rewrite (proj2 (Hfi a Hia)), (proj2 (Hfn b Hb)). done. }
    split.
    + split; cbn; [done|done|done|]. exists a', (b ++ filter nonIdxP c), []. rewrite !app_nil_r.
      split; [done|]. split; [done|]. split; [done|]. split; [done|]. split; [done|]. split; [done|]. split.
      * rewrite Hp', <- Hp. rewrite <- app_assoc. apply Permutation_app_head.
        rewrite (Permutation_app_comm (filter idxP c)), <- app_assoc. apply Permutation_app_head.
        clear. induction c as [|x c IH]; [done|]. destruct (isIdx x) eqn:Ex.
        -- rewrite (filter_cons_True idxP), (filter_cons_False nonIdxP) by (unfold idxP, nonIdxP; congruence).
           rewrite <- Permutation_middle. by rewrite IH.
        -- rewrite (filter_cons_False idxP), (filter_cons_True nonIdxP) by (unfold idxP, nonIdxP; congruence).
           cbn. by rewrite IH.
      * rewrite filter_app. rewrite (proj1 (Hfi a' Hi')), (proj1 (Hfn _ Hbb)). done.
    + exists a', (b ++ filter nonIdxP c). cbn. by repeat (split; [done|]).
  - assert (c = []) as -> by (rewrite !length_app in E; destruct c; [done|cbn in E; lia]).
    rewrite !app_nil_r in *. split; [done|]. exists a, b. rewrite Hn. do 4 (split; [done|]). split; [|split; [|done]].
    + rewrite <- Hp, filter_app, (proj2 (Hfi a Hia)), (proj2 (Hfn b Hb)). by rewrite app_nil_r.
    + by rewrite <- Hf, filter_app, (proj1 (Hfi a Hia)), (proj1 (Hfn b Hb)).
Qed.

Lemma applyOp_rep se cl o st op : Rep o st → Rep (applyOp se cl o op) (specOp se cl st op).
Proof.
  intros HR. destruct st as [ext t]. destruct op as [name v|name d|name|all|]; cbn [applyOp specOp].
  - by apply (put_rep o (ext, t)).
  - unfold defineOwnPropertyStr. rewrite (rep_get o (ext, t) name HR), (rep_ext _ _ HR). cbn [fst snd].
    destruct (_defineOwnProperty se cl ext (tget t name) d false) as [[v|]|e]; cbn; [|done|done].
    pose proof (put_rep o (ext, t) name v HR) as Hput. unfold _put in Hput.
    rewrite (rep_get o (ext, t) name HR) in Hput. cbn [fst snd] in Hput.
    by destruct (tget t name).
  - unfold deleteStr. rewrite (rep_get o (ext, t) name HR). cbn [fst snd].
    destruct (tget t name) as [s|] eqn:E; [|done].
    destruct (checkDelete s false) as [[]|]; cbn; [|done|done]. by apply (delete_rep o (ext, t) name s).
  - by apply ensure_rep.
  - destruct HR as [He Hv Hnd Hn]. by split.
Qed.

Lemma runObjOps_rep se cl o st ops : Rep o st → Rep (foldl (applyOp se cl) o ops) (foldl (specOp se cl) st ops).
Proof. revert o st. induction ops as [|op ops IH]; intros o st HR; [done|]. cbn. by apply IH, applyOp_rep. Qed.

(** C22: whatever properties have been added, redefined and deleted, and however
    often the keys were enumerated in between, the object's own keys are the
    index keys in ascending order followed by the other keys in creation order
    (OrdinaryOwnPropertyKeys), each key once, and looking a key up finds the
    property the same operations leave in an association list. *)
Theorem ownKeys_order (se : positive → positive → bool) (cl : positive → bool)
    (proto : option positive) (ops : list objOp) (name : key) :
  let o := foldl (applyOp se cl) (newBaseObject proto) ops in
  let st := foldl (specOp se cl) (true, []) ops in
  extensible o = st.1 ∧ values o !! name = tget st.2 name ∧
  ∃ a b, (stringKeys o true).2 = a ++ b ∧
    StronglySorted idxLt a ∧ a ≡ₚ filter idxP st.2.*1 ∧ b = filter nonIdxP st.2.*1 ∧ NoDup (a ++ b).
Proof.
  cbn zeta. pose proof (runObjOps_rep se cl _ _ ops (newObject_rep proto)) as HR.
  set (o := foldl (applyOp se cl) (newBaseObject proto) ops) in *. set (st := foldl (specOp se cl) (true, []) ops) in *.
  split; [apply (rep_ext _ _ HR)|]. split; [by apply rep_get|].
  destruct (ensure_rep o st HR) as [HR' (a & b & Hn & Hs & _ & _ & Ha & Hb & _)]. exists a, b.
  split; [exact Hn|]. split; [done|]. split; [done|]. split; [done|].
  destruct HR' as [_ _ Hnd (a' & b' & c' & Hn' & _ & _ & _ & _ & _ & Hp & _)]. rewrite <- Hn, Hn', Hp. done.
Qed.

(** Non-configurable properties stay. *)
Example delete_refused :
  deleteStr (_put (newBaseObject None) [97] (valueProp VNull true true false)) [97] false
  = Ok (_put (newBaseObject None) [97] (valueProp VNull true true false), false).
Proof. reflexivity. Qed.
End Objects.
