(* ===== verification/Prototypes.v ===== *)
(** * Prototype chains

    Model of the operations of baseObject (object.go) that follow prototypes:
    setProto with its cycle check, hasPropertyStr, getStr and setOwnStr with
    setForeignStr.  Objects live in a heap; calls of getters and setters are
    results of the operations, since they run arbitrary code.  Proxies and
    other exotic objects are not on the modelled chains. *)

From S2P Require Import Prelude Values Property Objects.
Import Values Property Objects.
Open Scope Z_scope.

Module Prototypes.

Abbreviation heap := (gmap positive baseObject).

Definition setPrototype (ob : baseObject) (p : option positive) : baseObject :=
  MkObject p (extensible ob) (values ob) (propNames ob) (lastSortedPropLen ob) (idxPropCount ob).

Section protos.
Context (selfEqual : positive → positive → bool).

(** Object.SameAs on possibly nil objects. *)
Definition sameObject (a b : option positive) : bool :=
  match a, b with
  | None, None => true
  | Some p, Some q => Pos.eqb p q || selfEqual p q
  | _, _ => false
  end.

(** The loop [for p := proto; p != nil; p = p.self.proto()]: whether it gets to
    the end without meeting [o]; the length of the chain bounds it. *)
Fixpoint cycleLoop (fuel : nat) (h : heap) (o : positive) (p : option positive) : option bool :=
  match p with
  | None => Some true
  | Some q =>
      if sameObject (Some q) (Some o) then Some false
      else match fuel with
           | O => None
           | S fuel => ob ← h !! q; cycleLoop fuel h o (prototype ob)
           end
  end.

(** [objectPrototype] is Object.prototype of the realm. *)
Definition setProto (objectPrototype : positive) (h : heap) (o : positive) (proto : option positive) (throw : bool)
    : option (result (heap * bool)) :=
  ob ← h !! o;
  let refuse msg := Some (if throw then Throw (TypeError msg) else Ok (h, false)) in
  if sameObject (prototype ob) proto then Some (Ok (h, true))
  else if Pos.eqb o objectPrototype then
    refuse "Immutable prototype object 'Object.prototype' cannot have their prototype set"%string
  else if negb (extensible ob) then refuse "object is not extensible"%string
  else
    ok ← cycleLoop (size h) h o proto;
    if (ok : bool) then Some (Ok (<[o := setPrototype ob proto]> h, true))
    else refuse "Cyclic __proto__ value"%string.
End protos.

(** ** Lookup *)

(** The first object from [p] on that has [name], and the slot. *)
Fixpoint findLoop (fuel : nat) (h : heap) (p : option positive) (name : key) : option (option (positive * slot)) :=
  match p with
  | None => Some None
  | Some q =>
      match fuel with
      | O => None
      | S fuel =>
          ob ← h !! q;
          match values ob !! name with
          | Some s => Some (Some (q, s))
          | None => findLoop fuel h (prototype ob) name
          end
      end
  end.

Definition hasPropertyStr (h : heap) (o : positive) (name : key) : option bool :=
  (λ r, isSome r) <$> findLoop (S (size h)) h (Some o) name.

(** getStr: [inl] a value (undefined if absent), [inr] a call of a getter. *)
Definition getStr (h : heap) (o : positive) (name : key) : option (Value + positive) :=
  (λ r, match r with None => inl VUndefined | Some (_, s) => propGet s end) <$> findLoop (S (size h)) h (Some o) name.

(** ** Assignment *)

Inductive setOutcome :=
  | SetDone (h : heap)
  | SetRefused
  | SetCall (setter : positive).

(** setForeignStr along the chain: [None] when not handled, that is the property
    may be created on the receiver. *)
Fixpoint setForeignLoop (fuel : nat) (h : heap) (receiver : positive) (p : option positive) (name : key)
    : option (option setOutcome) :=
  match p with
  | None => Some None
  | Some q =>
      match fuel with
      | O => None
      | S fuel =>
          if Pos.eqb q receiver then None
          else
            ob ← h !! q;
            match values ob !! name with
            | Some (Prop_ pr) =>
                Some (if negb (isWritable pr) then Some SetRefused
                      else match setterFunc pr with Some g => Some (SetCall g) | None => None end)
            | Some (Raw _) => Some None
            | None => setForeignLoop fuel h receiver (prototype ob) name
            end
      end
  end.

Definition setOwnStr (h : heap) (o : positive) (name : key) (val : Value) : option setOutcome :=
  ob ← h !! o;
  match values ob !! name with
  | None =>
      r ← setForeignLoop (size h) h o (prototype ob) name;
      match r with
      | Some res => Some res
      | None =>
          Some (if negb (extensible ob) then SetRefused
                else SetDone (<[o := appendName ob name (<[name := Raw val]> (values ob))]> h))
      end
  | Some (Prop_ pr) =>
      Some (match propSet (Prop_ pr) val with
            | None => SetRefused
            | Some (inr g) => SetCall g
            | Some (inl s) => SetDone (<[o := withValues ob (<[name := s]> (values ob))]> h)
            end)
  | Some (Raw _) => Some (SetDone (<[o := withValues ob (<[name := Raw val]> (values ob))]> h))
  end.

(** ** Chains *)

(** [chain h p l]: following prototypes from [p] visits [l] and ends. *)
Inductive chain (h : heap) : option positive → list positive → Prop :=
  | chain_nil : chain h None []
  | chain_cons q ob l : h !! q = Some ob → chain h (prototype ob) l → chain h (Some q) (q :: l).

Definition acyclic (h : heap) : Prop := ∀ o ob, h !! o = Some ob → ∃ l, chain h (prototype ob) l.

Lemma chain_det h p l l' : chain h p l → chain h p l' → l = l'.
Proof.
  intros H. revert l'. induction H as [|q ob l Hq _ IH]; intros l' H'; inversion H'; simplify_eq; [done|].
  f_equal. by apply IH.
Qed.

Lemma chain_suffix h p l1 x l2 : chain h p (l1 ++ x :: l2) → chain h (Some x) (x :: l2).
Proof.
  revert p. induction l1 as [|y l1 IH]; intros p H; cbn in H; inversion H as [|q ob l Hq Hc]; subst; [by econstructor|].
  by eapply IH.
Qed.

Lemma chain_nodup h p l : chain h p l → NoDup l.
Proof.
  intros H. induction H as [|q ob l Hq Hc IH]; [constructor|]. constructor; [|done].
  intros (l1 & l2 & ->)%list_elem_of_split. pose proof (chain_suffix _ _ _ _ _ Hc) as Hs.
  pose proof (chain_det _ _ _ _ Hs (chain_cons h q ob _ Hq Hc)) as Heq.
  apply (f_equal length) in Heq. cbn in Heq. rewrite length_app in Heq. cbn in Heq. lia.
Qed.

Lemma chain_dom h p l : chain h p l → ∀ x, x ∈ l → is_Some (h !! x).
Proof.
  induction 1 as [|q ob l Hq _ IH]; intros x Hx; [by apply not_elem_of_nil in Hx|].
  apply elem_of_cons in Hx as [->|Hx]; [by eexists|by apply IH].
Qed.

Lemma chain_length h p l : chain h p l → (length l ≤ size h)%nat.
Proof.
  intros H. pose proof (chain_nodup _ _ _ H) as Hnd. rewrite <- (size_list_to_set (C := gset positive) l Hnd).
  rewrite <- (size_dom (D := gset positive) h). apply subseteq_size. intros x Hx. apply elem_of_dom.
  apply (chain_dom _ _ _ H). by apply elem_of_list_to_set in Hx.
Qed.

Lemma acyclic_chain h o : acyclic h → is_Some (h !! o) → ∃ l, chain h (Some o) (o :: l).
Proof. intros Ha [ob Hob]. destruct (Ha o ob Hob) as [l Hl]. exists l. by econstructor. Qed.

(** ** Setting the prototype *)

Section setproto.
Context (selfEqual : positive → positive → bool).

Lemma cycleLoop_spec fuel h o p l :
  chain h p l → (length l ≤ fuel)%nat →
  cycleLoop selfEqual fuel h o p = Some (forallb (λ q, negb (sameObject selfEqual (Some q) (Some o))) l).
Proof.
  intros H. revert fuel. induction H as [|q ob l Hq _ IH]; intros fuel Hf; [by destruct fuel|].
  cbn in Hf. destruct fuel as [|fuel]; [lia|]. cbn [cycleLoop forallb].
  destruct (sameObject selfEqual (Some q) (Some o)); [done|]. rewrite Hq. cbn. apply IH. lia.
Qed.

Lemma chain_insert_ne h p l o ob : chain h p l → o ∉ l → chain (<[o := ob]> h) p l.
Proof.
  induction 1 as [|q ob' l Hq _ IH]; intros Hn; [constructor|]. apply not_elem_of_cons in Hn as [Hne Hn].
  econstructor; [by rewrite lookup_insert_ne|by apply IH].
Qed.

Lemma chain_insert h p l o ob lp :
  chain h p l → chain (<[o := ob]> h) (prototype ob) lp → ∃ l', chain (<[o := ob]> h) p l'.
Proof.
  intros H Hlp. induction H as [|q ob' l Hq _ [l' IH]]; [exists []; constructor|].
  destruct (decide (q = o)) as [->|Hne].
  - exists (o :: lp). econstructor; [by rewrite lookup_insert_eq|done].
  - exists (q :: l'). econstructor; [by rewrite lookup_insert_ne|done].
Qed.

Lemma acyclic_insert h o ob :
  acyclic h → (∃ l, chain h (prototype ob) l ∧ o ∉ l) → acyclic (<[o := ob]> h).
Proof.
  intros Ha (lp & Hlp & Hn) x obx Hx. apply (chain_insert_ne _ _ _ o ob) in Hlp; [|done].
  destruct (decide (x = o)) as [->|Hne].
  - rewrite lookup_insert_eq in Hx. injection Hx as <-. by exists lp.
  - rewrite lookup_insert_ne in Hx by done. destruct (Ha x obx Hx) as [l Hl]. by eapply chain_insert.
Qed.

(** When OrdinarySetPrototypeOf refuses a new prototype whose chain is [l]: the
    prototype of Object.prototype is fixed, that of an object that is not
    extensible too, and the chain may not lead back to the object. *)
Definition protoRefused (objectPrototype : positive) (o : positive) (ob : baseObject) (l : list positive) : Prop :=
  o = objectPrototype ∨ extensible ob = false ∨ ∃ q, q ∈ l ∧ sameObject selfEqual (Some q) (Some o) = true.

(** [h'] is [h] with the prototype of [o] set, and nothing else changed. *)
Definition ProtoSet (h : heap) (o : positive) (ob : baseObject) (proto : option positive) (h' : heap) : Prop :=
  ∃ ob', h' !! o = Some ob' ∧ (∀ x, x ≠ o → h' !! x = h !! x) ∧ prototype ob' = proto ∧
    extensible ob' = extensible ob ∧ values ob' = values ob ∧ propNames ob' = propNames ob.

Lemma cycleLoop_false l o :
  forallb (λ q, negb (sameObject selfEqual (Some q) (Some o))) l = false ↔
  ∃ q, q ∈ l ∧ sameObject selfEqual (Some q) (Some o) = true.
Proof.
  induction l as [|x l IH]; cbn [forallb]; [split; [done|by intros (q & Hq%not_elem_of_nil & _)]|].
  rewrite andb_false_iff, negb_false_iff, IH. setoid_rewrite elem_of_cons. naive_solver.
Qed.

Lemma setProto_cases (objectPrototype : positive) h o ob proto throw l :
  h !! o = Some ob → chain h proto l → sameObject selfEqual (prototype ob) proto = false →
  (protoRefused objectPrototype o ob l ∧ ∃ msg, setProto selfEqual objectPrototype h o proto throw =
     Some (if throw then Throw (TypeError msg) else Ok (h, false))) ∨
  (¬ protoRefused objectPrototype o ob l ∧
     setProto selfEqual objectPrototype h o proto throw = Some (Ok (<[o := setPrototype ob proto]> h, true))).
Proof.
  intros Hob Hl Hs. unfold setProto, protoRefused. rewrite Hob. cbn [mbind option_bind]. rewrite Hs.
  destruct (Pos.eqb_spec o objectPrototype) as [->|Hne]; [left; by eauto|].
  destruct (extensible ob); cbn [negb]; [|left; by eauto].
  rewrite (cycleLoop_spec _ h o proto l Hl (chain_length _ _ _ Hl)). cbn [mbind option_bind].
  destruct (forallb _ l) eqn:E.
  - right. split; [|done]. intros [?|[?|Hq%cycleLoop_false]]; [done..|congruence].
  - left. apply cycleLoop_false in E. by eauto.
Qed.

(** C37: on a heap without cyclic prototype chains, setting the prototype of an
    object to null or to an object of the heap terminates.  Setting the prototype
    it has does nothing.  Otherwise it is refused, with a TypeError if asked to
    throw and the heap unchanged, exactly when the object is Object.prototype or
    not extensible or when the chain of the new prototype contains the object; and
    when it is not refused, the object has the new prototype, nothing else has
    changed, and the heap has no cyclic chain. *)
Theorem setProto_acyclic (objectPrototype : positive) (h : heap) (o : positive) (ob : baseObject)
    (proto : option positive) (throw : bool) :
  acyclic h → h !! o = Some ob → (∀ q, proto = Some q → is_Some (h !! q)) →
  ∃ l, chain h proto l ∧
    let r := setProto selfEqual objectPrototype h o proto throw in
    (sameObject selfEqual (prototype ob) proto = true → r = Some (Ok (h, true))) ∧
    (sameObject selfEqual (prototype ob) proto = false →
     (protoRefused objectPrototype o ob l →
        ∃ msg, r = Some (if throw then Throw (TypeError msg) else Ok (h, false))) ∧
     (¬ protoRefused objectPrototype o ob l →
        ∃ h', r = Some (Ok (h', true)) ∧ ProtoSet h o ob proto h' ∧ acyclic h')).
Proof.
  intros Ha Hob Hproto.
  assert (∃ l, chain h proto l) as [l Hl].
  { destruct proto as [q|]; [|exists []; constructor].
    destruct (acyclic_chain h q Ha (Hproto q eq_refl)) as [l Hl]. by exists (q :: l). }
  exists l. split; [done|]. cbv zeta. split.
  { intros Hs. unfold setProto. rewrite Hob. cbn [mbind option_bind]. by rewrite Hs. }
  intros Hs. destruct (setProto_cases objectPrototype h o ob proto throw l Hob Hl Hs) as [[Hr Hm]|[Hr ->]]; [done|].
  split; [done|]. intros _. eexists. split; [done|]. split.
  - exists (setPrototype ob proto). rewrite lookup_insert_eq. split; [done|]. split; [|done].
    intros x Hx. by rewrite lookup_insert_ne.
  - apply acyclic_insert; [done|]. exists l. split; [done|]. intros Hin. apply Hr. right. right. exists o.
    split; [done|]. cbn. by rewrite Pos.eqb_refl.
Qed.
End setproto.

(** ** Lookup along the chain *)

Fixpoint firstWith (h : heap) (l : list positive) (name : key) : option (positive * slot) :=
  match l with
  | [] => None
  | q :: l =>
      match h !! q ≫= λ ob, values ob !! name with
      | Some s => Some (q, s)
      | None => firstWith h l name
      end
  end.

Lemma findLoop_spec fuel h p l name :
  chain h p l → (length l ≤ fuel)%nat → findLoop fuel h p name = Some (firstWith h l name).
Proof.
  intros H. revert fuel. induction H as [|q ob l Hq _ IH]; intros fuel Hf; [by destruct fuel|].
  cbn in Hf. destruct fuel as [|fuel]; [lia|]. cbn [findLoop firstWith]. rewrite Hq. cbn.
  destruct (values ob !! name); [done|]. apply IH. lia.
Qed.

(** On a heap without cyclic chains looking up a property always terminates
    and finds the one of the first object on the chain that has it: [getStr]
    reads that property (calls its getter), undefined if there is none, and
    [hasPropertyStr] says whether there is one. *)
Theorem lookup_chain (h : heap) (o : positive) (name : key) :
  acyclic h → is_Some (h !! o) →
  ∃ l, chain h (Some o) (o :: l) ∧
    getStr h o name = Some (match firstWith h (o :: l) name with None => inl VUndefined | Some (_, s) => propGet s end) ∧
    hasPropertyStr h o name = Some (isSome (firstWith h (o :: l) name)).
Proof.
  intros Ha Ho. destruct (acyclic_chain h o Ha Ho) as [l Hl]. exists l. split; [done|].
  pose proof (chain_length _ _ _ Hl). unfold getStr, hasPropertyStr.
  rewrite (findLoop_spec _ h (Some o) (o :: l) name Hl) by lia. done.
Qed.

(** ** Assignment *)

(** [h'] is [h] with the property [name] of [o] holding what [P] says: the other
    properties and objects, the prototype and extensibility are the same, and
    [names] are the names in the order of creation. *)
Definition PropertySet (h : heap) (o : positive) (ob : baseObject) (name : key) (names : list key) (P : slot → Prop)
    (h' : heap) : Prop :=
  ∃ ob' s', h' !! o = Some ob' ∧ (∀ x, x ≠ o → h' !! x = h !! x) ∧
    values ob' !! name = Some s' ∧ P s' ∧ (∀ n, n ≠ name → values ob' !! n = values ob !! n) ∧
    propNames ob' = names ∧ prototype ob' = prototype ob ∧ extensible ob' = extensible ob.

(** OrdinarySet on the first property found on the chain of [o], as a relation to
    the outcome: the code ends with [SetDone] of a new heap, a refusal, or the call
    of a setter. *)
Definition OrdinarySet (h : heap) (o : positive) (ob : baseObject) (name : key) (val : Value)
    (found : option (positive * slot)) (r : setOutcome) : Prop :=
  let create :=
    if extensible ob
    then ∃ h', r = SetDone h' ∧ PropertySet h o ob name (propNames ob ++ [name]) (λ s, abs s = SData val true true true ∧ wfSlot s) h'
    else r = SetRefused in
  match found with
  | None => create
  | Some (q, s) =>
      match abs s with
      | SAccessor _ (Some g) _ _ => r = SetCall g
      | SAccessor _ None _ _ => r = SetRefused
      | SData _ false _ _ => r = SetRefused
      | SData _ true e c =>
          if Pos.eqb q o
          then ∃ h', r = SetDone h' ∧ PropertySet h o ob name (propNames ob) (λ s, abs s = SData val true e c ∧ wfSlot s) h'
          else create
      end
  end.

Definition wfHeap (h : heap) : Prop := ∀ o ob name s, h !! o = Some ob → values ob !! name = Some s → wfSlot s.

Lemma setForeignLoop_spec fuel h o p l name :
  wfHeap h → chain h p l → (length l ≤ fuel)%nat → o ∉ l →
  setForeignLoop fuel h o p name =
    Some (match firstWith h l name with
          | None => None
          | Some (_, s) =>
              match abs s with
              | SAccessor _ (Some g) _ _ => Some (SetCall g)
              | SAccessor _ None _ _ => Some SetRefused
              | SData _ w _ _ => if w then None else Some SetRefused
              end
          end).
Proof.
  intros Hw H. revert fuel. induction H as [|q ob l Hq _ IH]; intros fuel Hf Hn; [by destruct fuel|].
  cbn in Hf. apply not_elem_of_cons in Hn as [Hne Hn]. destruct fuel as [|fuel]; [lia|]. cbn [setForeignLoop firstWith].
  rewrite (proj2 (Pos.eqb_neq q o)) by congruence. rewrite Hq. cbn.
  destruct (values ob !! name) as [[v|pr]|] eqn:E; [done| |apply IH; [lia|done]].
  specialize (Hw q ob name _ Hq E). unfold wfSlot, wfProp, abs in *. cbn in *.
  destruct pr as [x w c e a g st]. unfold isWritable. cbn in *. destruct a; cbn.
  - destruct Hw as [_ ->]. by destruct st.
  - destruct Hw as (_ & _ & ->). rewrite orb_false_r. by destruct w.
Qed.

Lemma PropertySet_insert h o ob name names (P : slot → Prop) ob' s' :
  P s' → values ob' = <[name := s']> (values ob) → propNames ob' = names → prototype ob' = prototype ob →
  extensible ob' = extensible ob → PropertySet h o ob name names P (<[o := ob']> h).
Proof.
  intros HP Hv Hn Hp He. exists ob', s'. rewrite lookup_insert_eq, Hv, lookup_insert_eq. split_and!; try done.
  - intros x Hx. by rewrite lookup_insert_ne.
  - intros n Hne. by rewrite lookup_insert_ne.
Qed.

(** The outcome keeps what the theorem asks of the heap. *)
Lemma PropertySet_keeps h o ob name names (P : slot → Prop) h' :
  acyclic h → wfHeap h → h !! o = Some ob → (∀ s, P s → wfSlot s) → PropertySet h o ob name names P h' → acyclic h' ∧ wfHeap h'.
Proof.
  intros Ha Hw Ho HP (ob' & s' & H1 & H2 & H3 & H4 & H5 & H6 & H7 & H8).
  assert (h' = <[o := ob']> h) as ->.
  { apply map_eq. intros x. destruct (decide (x = o)) as [->|Hx]; [by rewrite lookup_insert_eq|].
    rewrite lookup_insert_ne by done. by apply H2. }
  split.
  - apply acyclic_insert; [done|]. destruct (acyclic_chain h o Ha) as [l Hl]; [by eexists|].
    pose proof (chain_nodup _ _ _ Hl) as [Hn _]%NoDup_cons. inversion Hl; simplify_eq. exists l. by rewrite H7.
  - intros x obx n s [[<- <-]|[Hx Hobx]]%lookup_insert_Some Hs; [|by eapply Hw].
    destruct (decide (n = name)) as [->|Hn]; [simplify_eq; by apply HP|]. rewrite H5 in Hs by done. by eapply Hw.
Qed.

Lemma firstWith_elem h l name q s : firstWith h l name = Some (q, s) → q ∈ l.
Proof.
  induction l as [|x l IH]; [done|]. cbn. destruct (h !! x ≫= _).
  - intros [= <- <-]. left.
  - intros H. right. by apply IH.
Qed.

Lemma setOwnStr_create h o ob name val (r : setOutcome) :
  r = (if negb (extensible ob) then SetRefused else SetDone (<[o := appendName ob name (<[name := Raw val]> (values ob))]> h)) →
  if extensible ob
  then ∃ h', r = SetDone h' ∧ PropertySet h o ob name (propNames ob ++ [name]) (λ s, abs s = SData val true true true ∧ wfSlot s) h'
  else r = SetRefused.
Proof.
  intros ->. destruct (extensible ob) eqn:E; cbn [negb]; [|done]. eexists. split; [done|].
  by apply (PropertySet_insert h o ob name _ _ _ (Raw val)).
Qed.

(** An own property. *)
Lemma setOwnStr_own h o ob name val s :
  h !! o = Some ob → values ob !! name = Some s → wfSlot s →
  ∃ r, setOwnStr h o name val = Some r ∧ OrdinarySet h o ob name val (Some (o, s)) r.
Proof.
  intros Hob E Hs. unfold setOwnStr, OrdinarySet. rewrite Hob. cbn [mbind option_bind]. rewrite E, Pos.eqb_refl.
  destruct s as [v|pr].
  { eexists. split; [done|]. cbn. eexists. split; [done|]. by apply (PropertySet_insert h o ob name _ _ _ (Raw val)). }
  pose proof (propAccess_spec (Prop_ pr) val Hs) as Hp. destruct (abs (Prop_ pr)) as [x [] e c|g [st|] e c].
  - destruct Hp as (_ & s' & -> & Ha & Hw). eexists. split; [done|]. eexists. split; [done|].
    by apply (PropertySet_insert h o ob name _ _ _ s').
  - destruct Hp as [_ ->]. by eexists.
  - destruct Hp as [_ ->]. by eexists.
  - destruct Hp as [_ ->]. by eexists.
Qed.

(** C20: on a heap without cyclic chains whose stored properties have the fields of
    their kind only, assigning to a property of an object follows OrdinarySet on the
    first property of that name along the chain.  An own writable data property has
    the new value and its old attributes afterwards; a setter found first is the one
    that is called; a read-only property or an accessor without setter, own or
    inherited, refuses the assignment; otherwise the object itself gets a writable,
    enumerable and configurable property, the last in the order of its names, if it
    is extensible, and a refusal if not.  Nothing else changes, and the heap
    satisfies the two conditions again. *)
Theorem setOwnStr_ordinary (h : heap) (o : positive) (ob : baseObject) (name : key) (val : Value) :
  acyclic h → wfHeap h → h !! o = Some ob →
  ∃ l r, chain h (Some o) (o :: l) ∧ setOwnStr h o name val = Some r ∧
    OrdinarySet h o ob name val (firstWith h (o :: l) name) r ∧ (∀ h', r = SetDone h' → acyclic h' ∧ wfHeap h').
Proof.
  intros Ha Hw Hob. destruct (acyclic_chain h o Ha) as [l Hl]; [by eexists|].
  cut (∃ r, setOwnStr h o name val = Some r ∧ OrdinarySet h o ob name val (firstWith h (o :: l) name) r).
  { intros (r & Hr & HO). exists l, r. split_and!; [done..|]. intros h' ->.
    assert (∃ names P, (∀ s, P s → wfSlot s) ∧ PropertySet h o ob name names P h') as (names & P & HP & HS); [|by eapply PropertySet_keeps].
    revert HO. unfold OrdinarySet. destruct (firstWith h (o :: l) name) as [[q s]|]; [destruct (abs s) as [x [] e c|g [st|] e c]|];
      try done; try (destruct (Pos.eqb q o)); try (destruct (extensible ob)); try done;
      intros (? & [= <-] & HS); eexists _, _; (split; [|exact HS]); by intros ? []. }
  pose proof (chain_nodup _ _ _ Hl) as [Hn _]%NoDup_cons. pose proof (chain_length _ _ _ Hl) as Hlen. cbn in Hlen.
  inversion Hl as [|? ob' ? Hob' Hc]; simplify_eq. cbn [firstWith]. rewrite Hob. cbn [mbind option_bind].
  destruct (values ob !! name) as [s|] eqn:E; [apply setOwnStr_own; [done..|by eapply Hw]|].
  unfold setOwnStr. rewrite Hob. cbn [mbind option_bind]. rewrite E.
  rewrite (setForeignLoop_spec _ h o _ l name Hw Hc) by (done || lia). cbn [mbind option_bind]. unfold OrdinarySet.
  pose proof (setOwnStr_create h o ob name val _ eq_refl) as Hcreate.
  destruct (firstWith h l name) as [[q s]|] eqn:Ef; [|by eexists].
  destruct (abs s) as [x [] e' c|g [st|] e' c]; try (by eexists).
  assert (q ≠ o) as Hq by (intros ->; by apply Hn, (firstWith_elem h l name o s)).
  rewrite (proj2 (Pos.eqb_neq q o)) by done. by eexists.
Qed.

(** ** Witnesses *)

(** Object 2 inherits from object 1 a read-only property "a" and a setter "b". *)
Definition exOb1 : baseObject :=
  _put (_put (newBaseObject None) [97] (valueProp VNull false true true)) [98]
    (Prop_ (MkProp None false true true true None (Some 9%positive))).
Definition exOb2 : baseObject := newBaseObject (Some 1%positive).
Definition exHeap : heap := <[1%positive := exOb1]> (<[2%positive := exOb2]> ∅).

Lemma exHeap_lookup o ob : exHeap !! o = Some ob → (o = 1%positive ∧ ob = exOb1) ∨ (o = 2%positive ∧ ob = exOb2).
Proof.
  unfold exHeap. rewrite !lookup_insert_Some, lookup_empty. naive_solver.
Qed.

Lemma exHeap_acyclic : acyclic exHeap.
Proof.
  intros o ob [[-> ->]|[-> ->]]%exHeap_lookup; [exists []; constructor|].
  exists [1%positive]. econstructor; [reflexivity|constructor].
Qed.

Lemma exHeap_wf : wfHeap exHeap.
Proof.
  intros o ob name s [[-> ->]|[-> ->]]%exHeap_lookup; [|done].
  assert (values exOb1 = <[[98] := Prop_ (MkProp None false true true true None (Some 9%positive))]>
            (<[[97] := valueProp VNull false true true]> ∅)) as -> by reflexivity.
  rewrite !lookup_insert_Some, lookup_empty. intros [[_ <-]|[_ [[_ <-]|[_ ?]]]]; done.
Qed.

Lemma setProto_acyclic_witness :
  setProto noSelf 5 exHeap 1 (Some 2%positive) false = Some (Ok (exHeap, false)) ∧
  ∃ h', setProto noSelf 5 exHeap 2 None false = Some (Ok (h', true)) ∧ acyclic h'.
Proof.
  assert (∀ q, Some 2%positive = Some q → is_Some (exHeap !! q)) as Hq by (intros q [= <-]; by eexists).
  split.
  - destruct (setProto_acyclic noSelf 5 exHeap 1 exOb1 (Some 2%positive) false exHeap_acyclic eq_refl Hq)
      as (l & Hl & _ & Hc). destruct (Hc eq_refl) as [Hr _]. destruct Hr as [msg Hr]; [|exact Hr].
    right. right. exists 1%positive. split; [|reflexivity].
    inversion Hl as [|? ? ? H1 H2]; subst. vm_compute in H1. injection H1 as <-. inversion H2; subst. set_solver.
  - destruct (setProto_acyclic noSelf 5 exHeap 2 exOb2 None false exHeap_acyclic eq_refl) as (l & Hl & _ & Hc); [done|].
    destruct (Hc eq_refl) as [_ Hr]. destruct Hr as (h' & Hr & _ & Ha); [|by exists h'].
    inversion Hl; subst. intros [?|[?|(q & Hin & _)]]; [done..|set_solver].
Defined.

Lemma lookup_chain_witness :
  ∃ l, chain exHeap (Some 2%positive) (2%positive :: l) ∧ hasPropertyStr exHeap 2 [97] = Some true.
Proof.
  destruct (lookup_chain exHeap 2 [97] exHeap_acyclic (ex_intro _ exOb2 eq_refl)) as (l & Hl & _ & Hh).
  exists l. split; [exact Hl|]. reflexivity.
Defined.

Lemma setOwnStr_ordinary_witness :
  setOwnStr exHeap 2 [97] VNull = Some SetRefused ∧ setOwnStr exHeap 2 [98] VNull = Some (SetCall 9) ∧
  ∃ h', setOwnStr exHeap 2 [99] VNull = Some (SetDone h') ∧ wfHeap h'.
Proof.
  assert (chain exHeap (Some 2%positive) [2; 1]%positive) as Hc.
  { econstructor; [reflexivity|]. econstructor; [reflexivity|]. constructor. }
  destruct (setOwnStr_ordinary exHeap 2 exOb2 [97] VNull exHeap_acyclic exHeap_wf eq_refl) as (l & r & Hl & -> & Hr & _).
  pose proof (chain_det _ _ _ _ Hl Hc) as [= ->]. vm_compute in Hr.
  destruct (setOwnStr_ordinary exHeap 2 exOb2 [98] VNull exHeap_acyclic exHeap_wf eq_refl) as (l & r2 & Hl2 & -> & Hr2 & _).
  pose proof (chain_det _ _ _ _ Hl2 Hc) as [= ->]. vm_compute in Hr2.
  destruct (setOwnStr_ordinary exHeap 2 exOb2 [99] VNull exHeap_acyclic exHeap_wf eq_refl) as (l & r3 & Hl3 & -> & Hr3 & Hk).
  pose proof (chain_det _ _ _ _ Hl3 Hc) as [= ->]. destruct Hr3 as (h' & -> & _).
  split; [by rewrite Hr|]. split; [by rewrite Hr2|]. exists h'. split; [done|]. by apply Hk.
Defined.
End Prototypes.
