(* ===== verification/Arrays.v ===== *)
(** * Arrays

    Model of arrayObject (array.go) and sparseArrayObject (array_sparse.go): the
    dense representation, a Go slice whose backing array is longer than the
    slice, the sparse one, a list of items sorted by index, and the switches
    between them when an element is added far beyond the end or when a sparse
    array fills up.  [int] has 64 bits.

    The specification is the array exotic object of ECMAScript: a finite map from
    indices to properties, a length and whether the length is writable.  The
    simulation theorem shows that both representations and the switches implement
    it; two more theorems exhibit the switches on which the counter of property
    objects is lost.

    The methods of Array.prototype, which work on the slice directly, are in
    [ArrayProto]; the exports to Go values are not modelled. *)

From S2P Require Import Prelude ArrayIndex Float64 Numbers Values Property Objects.
Import Float64 Numbers ArrayIndex Values Property Objects.
Open Scope Z_scope.

Module Arrays.

(** ** The code *)

(** The boolean an operation returns, the error it panics with, or the call of a
    setter it makes (which runs arbitrary code). *)
Inductive outcome := Done (ok : bool) | Raise (e : exn) | CallSetter (f : positive).

(** typeErrorResult(throw, msg) and [return false]. *)
Definition reject (throw : bool) (msg : string) : outcome := if throw then Raise (TypeError msg) else Done false.

(** The field lengthProp: its value is recomputed from the length by
    getLengthProp, so only [writable] is kept.  The table of the base object
    holds a pointer to it under "length"; the entry is never read for its value. *)
Definition lengthKey : key := [108; 101; 110; 103; 116; 104].
Definition lengthSlot : slot := Prop_ (MkProp None true false false false None None).

Record arrayObject := MkArray {
  base : baseObject;
  backing : list (option slot);  (* all cap(a.values) cells; nil is None *)
  vlen : nat;                    (* len(a.values) *)
  alength : Z;
  objCount : Z;
  propValueCount : Z;
  lengthWritable : bool;
}.

Record sparseArrayObject := MkSparse {
  sbase : baseObject;
  items : list (Z * slot);
  slength : Z;
  spropValueCount : Z;
  slengthWritable : bool;
}.

(** What [a.val.self] is. *)
Inductive arrayImpl := Dense (a : arrayObject) | Sparse (a : sparseArrayObject).

Definition avalues (a : arrayObject) : list (option slot) := take (vlen a) (backing a).

(** The loop [for i := len(a.values) - 1; i >= int(l); i--] with [n] = i + 1. *)
Fixpoint shrinkLoop (vs : list (option slot)) (n : nat) (l pvc : Z) : Z * bool * Z :=
  match n with
  | O => (l, true, pvc)
  | S i =>
      if Z.of_nat i <? l then (l, true, pvc)
      else match vs !! i with
           | Some (Some (Prop_ p)) =>
               if negb (configurable p) then (Z.of_nat i + 1, false, pvc) else shrinkLoop vs i l (pvc - 1)
           | _ => shrinkLoop vs i l pvc
           end
  end.

Definition array_setLengthInt_ (a : arrayObject) (l : Z) (throw : bool) : arrayObject * outcome :=
  let '(l, ret, pvc) :=
    if (l <=? alength a) && (0 <? propValueCount a)
    then shrinkLoop (avalues a) (vlen a) l (propValueCount a) else (l, true, propValueCount a) in
  let '(back, n) :=
    if l <=? uwrap 32 (Z.of_nat (vlen a)) then
      if (16 <=? l) && (l <? Z.shiftr (uwrap 32 (Z.of_nat (length (backing a)))) 2)
      then (take (Z.to_nat l) (avalues a), Z.to_nat l)
      else (take (Z.to_nat l) (backing a) ++ replicate (vlen a - Z.to_nat l) None ++ drop (vlen a) (backing a), Z.to_nat l)
    else (backing a, vlen a) in
  (MkArray (base a) back n l (objCount a) pvc (lengthWritable a),
   if ret then Done true else reject throw "Cannot redefine property: length").

Definition array_setLengthInt (a : arrayObject) (l : Z) (throw : bool) : arrayObject * outcome :=
  if l =? alength a then (a, Done true)
  else if negb (lengthWritable a) then (a, reject throw "length is not writable")
  else array_setLengthInt_ a l throw.

Definition array_setLength (a : arrayObject) (v : Z) (throw : bool) : arrayObject * outcome :=
  if negb (lengthWritable a) then (a, reject throw "length is not writable")
  else array_setLengthInt_ a v throw.

(** [a.values[idx]] if [idx < uint32(len(a.values))], else nil *)
Definition array_get (a : arrayObject) (idx : Z) : option slot :=
  if idx <? uwrap 32 (Z.of_nat (vlen a)) then mjoin (avalues a !! Z.to_nat idx) else None.

(** [a.values[idx] = val], in range *)
Definition array_store (a : arrayObject) (idx : Z) (val : option slot) : arrayObject :=
  MkArray (base a) (<[Z.to_nat idx := val]> (backing a)) (vlen a) (alength a) (objCount a) (propValueCount a)
    (lengthWritable a).

Definition array_count (a : arrayObject) (dobj dprop : Z) : arrayObject :=
  MkArray (base a) (backing a) (vlen a) (alength a) (objCount a + dobj) (propValueCount a + dprop) (lengthWritable a).

(** The index search of array_sparse.go *)
Definition findIdx (a : sparseArrayObject) (idx : Z) : nat :=
  sortSearch (length (items a)) (λ i, idx <=? (nth i (items a) (0, Raw VUndefined)).1).

Definition sparse_get (a : sparseArrayObject) (idx : Z) : option slot :=
  match items a !! findIdx a idx with
  | Some (i, v) => if i =? idx then Some v else None
  | None => None
  end.

Definition sparse_withItems (a : sparseArrayObject) (its : list (Z * slot)) : sparseArrayObject :=
  MkSparse (sbase a) its (slength a) (spropValueCount a) (slengthWritable a).

(** Append, shift the items from [i] on, and assign. *)
Definition insertItem (its : list (Z * slot)) (i : nat) (idx : Z) (val : slot) : list (Z * slot) :=
  take i its ++ (idx, val) :: drop i its.

Definition sparse_add (a : sparseArrayObject) (idx : Z) (val : slot) : sparseArrayObject :=
  sparse_withItems a (insertItem (items a) (findIdx a idx) idx val).

(** growCap of runtime.go; the loop is bounded by fuel. *)
Fixpoint growCapLoop (fuel : nat) (cap newSize : Z) : option Z :=
  if (0 <? cap) && (cap <? newSize) then
    match fuel with
    | O => None
    | S fuel => growCapLoop fuel (swrap 64 (cap + cap / 4)) newSize
    end
  else Some cap.

Definition growCap (newSize oldSize oldCap : Z) : option Z :=
  let doublecap := swrap 64 (oldCap + oldCap) in
  if doublecap <? newSize then Some newSize
  else if oldSize <? 1024 then Some doublecap
  else (λ cap, if cap <=? 0 then newSize else cap) <$> growCapLoop 4 oldCap newSize.

(** setValues: the items of a dense array, from index [i] on. *)
Fixpoint setValues (i : Z) (vs : list (option slot)) : list (Z * slot) :=
  match vs with
  | [] => []
  | Some v :: vs => (i, v) :: setValues (i + 1) vs
  | None :: vs => setValues (i + 1) vs
  end.

(** expand: the array, grown to hold [idx], or its sparse form.  (A count that is
    a positive multiple of 2^32 would make Go panic in the division.) *)
Definition array_expand (a : arrayObject) (idx : Z) : arrayObject + sparseArrayObject :=
  let targetLen := uwrap 32 (idx + 1) in
  let grown back := MkArray (base a) back (Z.to_nat targetLen) (alength a) (objCount a) (propValueCount a) (lengthWritable a) in
  if uwrap 32 (Z.of_nat (vlen a)) <? targetLen then
    if targetLen <? uwrap 32 (Z.of_nat (length (backing a))) then inl (grown (backing a))
    else if (4096 <? idx) && ((objCount a =? 0) || (10 <? idx / uwrap 32 (objCount a))) then
      inr (MkSparse (_put (base a) lengthKey lengthSlot) (setValues 0 (avalues a)) (alength a) (propValueCount a)
             (lengthWritable a))
    else
      let cap := default targetLen (growCap targetLen (Z.of_nat (vlen a)) (Z.of_nat (length (backing a)))) in
      inl (grown (avalues a ++ replicate (Z.to_nat cap - vlen a) None))
  else inl a.

Definition setValuesFromSparse (its : list (Z * slot)) (newMaxIdx : Z) : list (option slot) :=
  foldl (λ vs it, <[Z.to_nat it.1 := Some it.2]> vs) (replicate (Z.to_nat (newMaxIdx + 1)) None) its.

(** expand of a sparse array: unchanged, or its dense form. *)
Definition sparse_expand (a : sparseArrayObject) (idx : Z) : sparseArrayObject + arrayObject :=
  let l := Z.of_nat (length (items a)) in
  if 1024 <=? l then
    let ii := (default (0, Raw VUndefined) (last (items a))).1 in
    let idx := if idx <? ii then ii else idx in
    if Z.shiftr idx 3 <? l then
      inr (MkArray (_put (sbase a) lengthKey lengthSlot) (setValuesFromSparse (items a) idx) (Z.to_nat (idx + 1))
             (slength a) l (spropValueCount a) (slengthWritable a))
    else inl a
  else inl a.

Definition isProp (s : slot) : bool := match s with Prop_ _ => true | Raw _ => false end.
Definition propInc (s : slot) : Z := if isProp s then 1 else 0.

(** Assignment to an element; [foreign] is what the prototype's setForeignIdx
    does ([None]: not handled). *)
Definition array_setOwnIdx (a : arrayObject) (idx : Z) (val : Value) (throw : bool) (foreign : option outcome)
    : arrayImpl * outcome :=
  match array_get a idx with
  | None =>
      match foreign with
      | Some res => (Dense a, res)
      | None =>
          if negb (extensible (base a)) then (Dense a, reject throw "Cannot add property, object is not extensible")
          else
            match (if alength a <=? idx then array_setLengthInt a (uwrap 32 (idx + 1)) throw else (a, Done true)) with
            | (a, Done true) =>
                match (if uwrap 32 (Z.of_nat (vlen a)) <=? idx then array_expand a idx else inl a) with
                | inl a => (Dense (array_store (array_count a 1 0) idx (Some (Raw val))), Done true)
                | inr s => (Sparse (sparse_add s idx (Raw val)), Done true)
                end
            | (a, o) => (Dense a, o)
            end
      end
  | Some (Raw _) => (Dense (array_store a idx (Some (Raw val))), Done true)
  | Some (Prop_ p) =>
      match propSet (Prop_ p) val with
      | None => (Dense a, reject throw "")
      | Some (inr g) => (Dense a, CallSetter g)
      | Some (inl s) => (Dense (array_store a idx (Some s)), Done true)
      end
  end.

Definition sparse_setLengthInt_loop := fix loop (ritems : list (Z * slot)) (l pvc : Z) : Z * bool * Z :=
  match ritems with
  | [] => (l, true, pvc)
  | (i, v) :: ritems =>
      if i <? l then (l, true, pvc)
      else match v with
           | Prop_ p => if negb (configurable p) then (i + 1, false, pvc) else loop ritems l (pvc - 1)
           | Raw _ => loop ritems l pvc
           end
  end.

Definition sparse_setLengthInt_ (a : sparseArrayObject) (l : Z) (throw : bool) : sparseArrayObject * outcome :=
  let '(l, ret, pvc) :=
    if (l <=? slength a) && (0 <? spropValueCount a)
    then sparse_setLengthInt_loop (reverse (items a)) l (spropValueCount a) else (l, true, spropValueCount a) in
  (MkSparse (sbase a) (take (findIdx a l) (items a)) l pvc (slengthWritable a),
   if ret then Done true else reject throw "Cannot redefine property: length").

Definition sparse_setLengthInt (a : sparseArrayObject) (l : Z) (throw : bool) : sparseArrayObject * outcome :=
  if l =? slength a then (a, Done true)
  else if negb (slengthWritable a) then (a, reject throw "length is not writable")
  else sparse_setLengthInt_ a l throw.

Definition sparse_setLength (a : sparseArrayObject) (v : Z) (throw : bool) : sparseArrayObject * outcome :=
  if negb (slengthWritable a) then (a, reject throw "length is not writable")
  else sparse_setLengthInt_ a v throw.

Definition sparse_setItem (a : sparseArrayObject) (i : nat) (idx : Z) (val : slot) : sparseArrayObject :=
  sparse_withItems a (<[i := (idx, val)]> (items a)).

Definition sparse_setOwnIdx (a : sparseArrayObject) (idx : Z) (val : Value) (throw : bool) (foreign : option outcome)
    : arrayImpl * outcome :=
  let i := findIdx a idx in
  match sparse_get a idx with
  | None =>
      match foreign with
      | Some res => (Sparse a, res)
      | None =>
          if negb (extensible (sbase a)) then (Sparse a, reject throw "Cannot add property, object is not extensible")
          else
            match (if slength a <=? idx then sparse_setLengthInt a (uwrap 32 (idx + 1)) throw else (a, Done true)) with
            | (a, Done true) =>
                match sparse_expand a idx with
                | inl a => (Sparse (sparse_withItems a (insertItem (items a) i idx (Raw val))), Done true)
                | inr ar => (Dense (array_store (array_count ar 1 0) idx (Some (Raw val))), Done true)
                end
            | (a, o) => (Sparse a, o)
            end
      end
  | Some (Raw _) => (Sparse (sparse_setItem a i idx (Raw val)), Done true)
  | Some (Prop_ p) =>
      match propSet (Prop_ p) val with
      | None => (Sparse a, reject throw "")
      | Some (inr g) => (Sparse a, CallSetter g)
      | Some (inl s) => (Sparse (sparse_setItem a i idx s), Done true)
      end
  end.

Definition array_deleteIdxProp (a : arrayObject) (idx : Z) (throw : bool) : arrayObject * outcome :=
  match array_get a idx with
  | Some (Prop_ p) =>
      if negb (configurable p) then (a, reject throw "Cannot delete property")
      else (array_store (array_count a (-1) (-1)) idx None, Done true)
  | Some (Raw _) => (array_store (array_count a (-1) 0) idx None, Done true)
  | None => (a, Done true)
  end.

Definition sparse_deleteIdxProp (a : sparseArrayObject) (idx : Z) (throw : bool) : sparseArrayObject * outcome :=
  let i := findIdx a idx in
  let removed d := MkSparse (sbase a) (take i (items a) ++ drop (S i) (items a)) (slength a) (spropValueCount a + d)
                     (slengthWritable a) in
  match sparse_get a idx with
  | Some (Prop_ p) =>
      if negb (configurable p) then (a, reject throw "Cannot delete property") else (removed (-1), Done true)
  | Some (Raw _) => (removed 0, Done true)
  | None => (a, Done true)
  end.

Section define.
Context (selfEqual : positive → positive → bool) (callable : positive → bool).

Definition array_defineIdxProperty (a : arrayObject) (idx : Z) (desc : PropertyDescriptor) (throw : bool)
    : arrayImpl * outcome :=
  match _defineOwnProperty selfEqual callable (extensible (base a)) (array_get a idx) desc throw with
  | Throw e => (Dense a, Raise e)
  | Ok None => (Dense a, Done false)
  | Ok (Some prop) =>
      match (if alength a <=? idx then array_setLengthInt a (uwrap 32 (idx + 1)) throw else (a, Done true)) with
      | (a, Done true) =>
          match array_expand a idx with
          | inl a => (Dense (array_count (array_store a idx (Some prop)) 1 (propInc prop)), Done true)
          | inr s => (Sparse (sparse_add s idx prop), Done true)
          end
      | (a, o) => (Dense a, o)
      end
  end.

Definition sparse_defineIdxProperty (a : sparseArrayObject) (idx : Z) (desc : PropertyDescriptor) (throw : bool)
    : arrayImpl * outcome :=
  let i := findIdx a idx in
  match _defineOwnProperty selfEqual callable (extensible (sbase a)) (sparse_get a idx) desc throw with
  | Throw e => (Sparse a, Raise e)
  | Ok None => (Sparse a, Done false)
  | Ok (Some prop) =>
      let counted a := MkSparse (sbase a) (items a) (slength a) (spropValueCount a + propInc prop) (slengthWritable a) in
      match (if slength a <=? idx then sparse_setLengthInt a (uwrap 32 (idx + 1)) throw else (a, Done true)) with
      | (a, Done true) =>
          match sparse_get a idx with
          | None =>
              match sparse_expand a idx with
              | inl a =>
                  let a := sparse_withItems a (insertItem (items a) i idx prop) in
                  let a := MkSparse (sbase a) (items a) (if slength a <=? idx then uwrap 32 (idx + 1) else slength a)
                             (spropValueCount a) (slengthWritable a) in
                  (Sparse (counted a), Done true)
              | inr ar => (Dense (array_store ar idx (Some prop)), Done true)
              end
          | Some _ => (Sparse (counted (sparse_setItem a i idx prop)), Done true)
          end
      | (a, o) => (Sparse a, o)
      end
  end.
End define.

(** *** Keys *)

(** The loop of stringKeys over the slice, from index [i] on. *)
Fixpoint array_idxKeys (all : bool) (i : Z) (vs : list (option slot)) : list key :=
  match vs with
  | [] => []
  | Some s :: vs =>
      if negb all && negb (enumerableSlot s) then array_idxKeys all (i + 1) vs
      else FormatUint i :: array_idxKeys all (i + 1) vs
  | None :: vs => array_idxKeys all (i + 1) vs
  end.

Definition array_stringKeys (a : arrayObject) (all : bool) : list key :=
  array_idxKeys all 0 (avalues a) ++ (stringKeys (base a) all).2.

Fixpoint sparse_idxKeys (all : bool) (its : list (Z * slot)) : list key :=
  match its with
  | [] => []
  | (i, s) :: its =>
      if all then FormatUint i :: sparse_idxKeys all its
      else if negb (enumerableSlot s) then sparse_idxKeys all its
      else FormatUint i :: sparse_idxKeys all its
  end.

Definition sparse_stringKeys (a : sparseArrayObject) (all : bool) : list key :=
  sparse_idxKeys all (items a) ++ (stringKeys (sbase a) all).2.

Definition arrayKeys (x : arrayImpl) (all : bool) : list key :=
  match x with Dense a => array_stringKeys a all | Sparse a => sparse_stringKeys a all end.

(** *** The length property *)

(** defineArrayLength of array.go on either representation.  [toLen] is
    toLengthUint32, whose conversion of an object may run user code; [setter] is
    the method setLength, [setW] assigns lengthProp.writable. *)
Definition defineArrayLength {A} (toLen : Value → result Z) (setter : A → Z → bool → A * outcome) (setW : A → bool → A)
    (oldLen : Z) (writable : bool) (a : A) (descr : PropertyDescriptor) (throw : bool) : A * outcome :=
  let fail := reject throw "Cannot redefine property: length" in
  match (match dValue descr with Some v => toLen v | None => Ok 0 end) with
  | Throw e => (a, Raise e)
  | Ok newLen =>
      if match dConfigurable descr with Some true => true | _ => false end
         || match dEnumerable descr with Some true => true | _ => false end
         || isSome (dGetter descr) || isSome (dSetter descr)
      then (a, fail)
      else
        let '(a, ret) :=
          if isSome (dValue descr) && negb (oldLen =? newLen)
          then let '(a, o) := setter a newLen false in (a, match o with Done b => b | _ => false end)
          else (a, true) in
        match dWritable descr with
        | None => (a, if ret then Done true else fail)
        | Some w => if writable then (setW a w, if ret then Done true else fail)
                    else if w then (a, fail) else (a, if ret then Done true else fail)
        end
  end.

Definition array_setW (a : arrayObject) (w : bool) : arrayObject :=
  MkArray (base a) (backing a) (vlen a) (alength a) (objCount a) (propValueCount a) w.

Definition sparse_setW (a : sparseArrayObject) (w : bool) : sparseArrayObject :=
  MkSparse (sbase a) (items a) (slength a) (spropValueCount a) w.

(** *** The methods, on whichever representation the object has *)

Definition dense_ (r : arrayObject * outcome) : arrayImpl * outcome := (Dense r.1, r.2).
Definition sparse_ (r : sparseArrayObject * outcome) : arrayImpl * outcome := (Sparse r.1, r.2).

Definition arrayBase (x : arrayImpl) : baseObject := match x with Dense a => base a | Sparse a => sbase a end.
Definition arrayLength (x : arrayImpl) : Z := match x with Dense a => alength a | Sparse a => slength a end.
Definition arrayLengthWritable (x : arrayImpl) : bool :=
  match x with Dense a => lengthWritable a | Sparse a => slengthWritable a end.
Definition arrayGet (x : arrayImpl) (idx : Z) : option slot :=
  match x with Dense a => array_get a idx | Sparse a => sparse_get a idx end.

Inductive arrayOp :=
  | OSet (idx : Z) (val : Value) (throw : bool) (foreign : option outcome)  (* a[idx] = val *)
  | ODelete (idx : Z) (throw : bool)                                        (* delete a[idx] *)
  | ODefine (idx : Z) (desc : PropertyDescriptor) (throw : bool)            (* Object.defineProperty(a, idx, desc) *)
  | OSetLength (val : Value) (throw : bool)                                 (* a.length = val *)
  | ODefineLength (desc : PropertyDescriptor) (throw : bool).               (* Object.defineProperty(a, "length", desc) *)

Section step.
Context (selfEqual : positive → positive → bool) (callable : positive → bool) (toLen : Value → result Z).

Definition setOwnLength {A} (setter : A → Z → bool → A * outcome) (a : A) (val : Value) (throw : bool) : A * outcome :=
  match toLen val with Ok l => setter a l throw | Throw e => (a, Raise e) end.

Definition arrayStep (x : arrayImpl) (op : arrayOp) : arrayImpl * outcome :=
  match x, op with
  | Dense a, OSet idx val throw foreign => array_setOwnIdx a idx val throw foreign
  | Sparse a, OSet idx val throw foreign => sparse_setOwnIdx a idx val throw foreign
  | Dense a, ODelete idx throw => dense_ (array_deleteIdxProp a idx throw)
  | Sparse a, ODelete idx throw => sparse_ (sparse_deleteIdxProp a idx throw)
  | Dense a, ODefine idx desc throw => array_defineIdxProperty selfEqual callable a idx desc throw
  | Sparse a, ODefine idx desc throw => sparse_defineIdxProperty selfEqual callable a idx desc throw
  | Dense a, OSetLength val throw => dense_ (setOwnLength array_setLength a val throw)
  | Sparse a, OSetLength val throw => sparse_ (setOwnLength sparse_setLength a val throw)
  | Dense a, ODefineLength desc throw =>
      dense_ (defineArrayLength toLen array_setLength array_setW (alength a) (lengthWritable a) a desc throw)
  | Sparse a, ODefineLength desc throw =>
      sparse_ (defineArrayLength toLen sparse_setLength sparse_setW (slength a) (slengthWritable a) a desc throw)
  end.
End step.

(** newArrayObject: an empty dense array; init puts the length property. *)
Definition newArray (proto : option positive) : arrayImpl :=
  Dense (MkArray (_put (newBaseObject proto) lengthKey lengthSlot) [] 0 0 0 0 true).

(** ** The specification *)

Record specArray := MkSpec {
  sElems : gmap Z specProp;
  sLen : Z;
  sLenW : bool;
  sExt : bool;
}.

Inductive specOutcome := SOk | SRefused | SCall (f : positive) | SForeign (o : outcome) | SThrow (e : exn).

(** Deleting the elements from index [l] on, in descending order, stops after the
    last one that is not configurable. *)
Inductive specShrink (m : gmap Z specProp) (l : Z) : Z → bool → Prop :=
  | shrink_all : (∀ i p, m !! i = Some p → l ≤ i → specC p = true) → specShrink m l l true
  | shrink_stop k p :
      m !! k = Some p → l ≤ k → specC p = false →
      (∀ i q, m !! i = Some q → k < i → specC q = true) → specShrink m l (k + 1) false.

Definition below (m : gmap Z specProp) (l : Z) : gmap Z specProp := filter (λ kv, kv.1 < l) m.

Definition intV (n : Z) : Value := VNum (valueInt n).

Section spec.
Context (selfEqual : positive → positive → bool) (toLen : Value → result Z).

(** ArrayDefineOwnProperty on an index *)
Definition specDefine (sp : specArray) (i : Z) (desc : PropertyDescriptor) : specArray * specOutcome :=
  if (sLen sp <=? i) && negb (sLenW sp) then (sp, SRefused)
  else match validateAndApply selfEqual (sExt sp) (sElems sp !! i) desc with
       | None => (sp, SRefused)
       | Some p => (MkSpec (<[i := p]> (sElems sp)) (Z.max (sLen sp) (i + 1)) (sLenW sp) (sExt sp), SOk)
       end.

Definition plainDesc (v : Value) : PropertyDescriptor := MkDesc (Some v) (Some true) (Some true) (Some true) None None.
Definition valueDesc (v : Value) : PropertyDescriptor := MkDesc (Some v) None None None None None.

(** OrdinarySet on an index; [foreign] is what the prototypes prescribe. *)
Definition specSet (sp : specArray) (i : Z) (v : Value) (foreign : option outcome) : specArray * specOutcome :=
  match sElems sp !! i with
  | Some (SData _ true _ _) => specDefine sp i (valueDesc v)
  | Some (SData _ false _ _) => (sp, SRefused)
  | Some (SAccessor _ (Some f) _ _) => (sp, SCall f)
  | Some (SAccessor _ None _ _) => (sp, SRefused)
  | None => match foreign with
            | Some o => (sp, SForeign o)
            | None => specDefine sp i (plainDesc v)
            end
  end.

Definition specDelete (sp : specArray) (i : Z) : specArray * specOutcome :=
  match sElems sp !! i with
  | Some p => if specC p then (MkSpec (delete i (sElems sp)) (sLen sp) (sLenW sp) (sExt sp), SOk) else (sp, SRefused)
  | None => (sp, SOk)
  end.

(** ArraySetLength: the descriptor, with the converted length as its value, is
    validated against the length property; then the elements beyond are deleted. *)
Inductive specSetLength (sp : specArray) (desc : PropertyDescriptor) : specArray → specOutcome → Prop :=
  | setLength_range v e : dValue desc = Some v → toLen v = Throw e → specSetLength sp desc sp (SThrow e)
  | setLength_refused v :
      match dValue desc with Some d => ∃ n, toLen d = Ok n ∧ v = Some (intV n) | None => v = None end →
      validateAndApply selfEqual (sExt sp) (Some (SData (intV (sLen sp)) (sLenW sp) false false))
        (MkDesc v (dWritable desc) (dConfigurable desc) (dEnumerable desc) (dGetter desc) (dSetter desc)) = None →
      specSetLength sp desc sp SRefused
  | setLength_done v newLen w l ok :
      match dValue desc with Some d => ∃ n, toLen d = Ok n ∧ v = Some (intV n) | None => v = None end →
      validateAndApply selfEqual (sExt sp) (Some (SData (intV (sLen sp)) (sLenW sp) false false))
        (MkDesc v (dWritable desc) (dConfigurable desc) (dEnumerable desc) (dGetter desc) (dSetter desc))
        = Some (SData (intV newLen) w false false) →
      specShrink (sElems sp) newLen l ok →
      specSetLength sp desc (MkSpec (below (sElems sp) l) l w (sExt sp)) (if ok then SOk else SRefused).

Inductive specStep (sp : specArray) : arrayOp → specArray → specOutcome → Prop :=
  | step_set i v throw foreign : specStep sp (OSet i v throw foreign) (specSet sp i v foreign).1 (specSet sp i v foreign).2
  | step_delete i throw : specStep sp (ODelete i throw) (specDelete sp i).1 (specDelete sp i).2
  | step_define i d throw : specStep sp (ODefine i d throw) (specDefine sp i d).1 (specDefine sp i d).2
  | step_length_readonly v throw : sLenW sp = false → specStep sp (OSetLength v throw) sp SRefused
  | step_length v throw sp' o :
      sLenW sp = true → specSetLength sp (valueDesc v) sp' o → specStep sp (OSetLength v throw) sp' o
  | step_define_length d throw sp' o : specSetLength sp d sp' o → specStep sp (ODefineLength d throw) sp' o.
End spec.

Definition throws (op : arrayOp) : bool :=
  match op with OSet _ _ t _ | ODelete _ t | ODefine _ _ t | OSetLength _ t | ODefineLength _ t => t end.

(** The result the code reports for a result of the specification. *)
Definition reports (throw : bool) (s : specOutcome) (o : outcome) : Prop :=
  match s with
  | SOk => o = Done true
  | SRefused => if throw then ∃ msg, o = Raise (TypeError msg) else o = Done false
  | SCall f => o = CallSetter f
  | SForeign r => o = r
  | SThrow e => o = Raise e
  end.

(** ** The invariant *)

Definition cnt (o : option slot) : Z := match o with Some s => propInc s | None => 0 end.
Fixpoint countP (vs : list (option slot)) : Z := match vs with [] => 0 | o :: vs => cnt o + countP vs end.

Lemma cnt_range o : 0 ≤ cnt o ≤ 1.
Proof. destruct o as [[]|]; cbn; lia. Qed.

Lemma countP_app vs ws : countP (vs ++ ws) = countP vs + countP ws.
Proof. induction vs as [|o vs IH]; cbn; lia. Qed.

Lemma countP_nonneg vs : 0 ≤ countP vs.
Proof. induction vs as [|o vs IH]; cbn; [lia|]. pose proof (cnt_range o). lia. Qed.

Lemma countP_None vs : Forall (λ o, o = None) vs → countP vs = 0.
Proof. induction 1 as [|o vs -> _ IH]; cbn; lia. Qed.

Lemma countP_insert vs i o o' : vs !! i = Some o → countP (<[i := o']> vs) = countP vs - cnt o + cnt o'.
Proof.
  intros Hi. rewrite insert_take_drop by (by eapply lookup_lt_Some).
  rewrite <- (take_drop_middle vs i o Hi) at 3. rewrite !countP_app. cbn [countP]. lia.
Qed.

Lemma countP_take_S vs i o : vs !! i = Some o → countP (take (S i) vs) = countP (take i vs) + cnt o.
Proof. intros Hi. rewrite (take_S_r _ _ _ Hi), countP_app. cbn. lia. Qed.

Lemma countP_zero vs i s : countP vs ≤ 0 → vs !! i = Some (Some s) → isProp s = false.
Proof.
  intros Hc Hi. pose proof (take_drop_middle vs i _ Hi) as Hv. rewrite <- Hv, countP_app in Hc. cbn in Hc.
  pose proof (countP_nonneg (take i vs)). pose proof (countP_nonneg (drop (S i) vs)). unfold propInc in Hc.
  destruct (isProp s); [lia|done].
Qed.

(** The cells of the backing array beyond the slice are nil, which growing in
    place relies on; the length bounds the slice; the counter of property objects
    is at least their number, which the deletion by length relies on. *)
Record InvD (a : arrayObject) : Prop := {
  id_cap : (vlen a ≤ length (backing a))%nat;
  id_int : Z.of_nat (length (backing a)) ≤ MaxInt64;
  id_len : Z.of_nat (vlen a) ≤ alength a ≤ MaxUint32;
  id_tail : Forall (λ o, o = None) (drop (vlen a) (backing a));
  id_wf : ∀ i s, avalues a !! i = Some (Some s) → wfSlot s;
  id_cnt : countP (avalues a) ≤ propValueCount a;
}.

Record InvS (a : sparseArrayObject) : Prop := {
  is_sorted : StronglySorted Z.lt (items a).*1;
  is_items : Forall (λ it, 0 ≤ it.1 < slength a ∧ wfSlot it.2) (items a);
  is_len : slength a ≤ MaxUint32;
  is_cnt : countP (Some <$> (items a).*2) ≤ spropValueCount a;
}.

Definition Inv (x : arrayImpl) : Prop := match x with Dense a => InvD a | Sparse a => InvS a end.

Definition atIdx (vs : list (option slot)) (i : Z) : option slot :=
  if 0 <=? i then mjoin (vs !! Z.to_nat i) else None.
Definition itemAt (its : list (Z * slot)) (i : Z) : option slot := (list_to_map its : gmap Z slot) !! i.

(** The elements, whatever the representation. *)
Definition elemAt (x : arrayImpl) (i : Z) : option slot :=
  match x with Dense a => atIdx (avalues a) i | Sparse a => itemAt (items a) i end.

(** *** Dense arrays *)

Lemma length_avalues a : InvD a → length (avalues a) = vlen a.
Proof. intros [Hc _ _ _ _ _]. unfold avalues. rewrite length_take. lia. Qed.

Lemma atIdx_Some vs i s :
  atIdx vs i = Some s ↔ 0 ≤ i ∧ vs !! Z.to_nat i = Some (Some s).
Proof.
  unfold atIdx. destruct (Z.leb_spec 0 i); [|naive_solver lia].
  destruct (vs !! Z.to_nat i) as [[t|]|]; cbn; naive_solver.
Qed.

Lemma atIdx_ge vs i : Z.of_nat (length vs) ≤ i → atIdx vs i = None.
Proof.
  intros Hi. unfold atIdx. destruct (0 <=? i); [|done]. by rewrite lookup_ge_None_2 by lia.
Qed.

Lemma atIdx_insert vs i j o :
  0 ≤ i < Z.of_nat (length vs) → atIdx (<[Z.to_nat i := o]> vs) j = if j =? i then o else atIdx vs j.
Proof.
  intros Hi. unfold atIdx. destruct (Z.eqb_spec j i) as [->|Hne].
  - zcmp. rewrite list_lookup_insert_eq by lia. done.
  - destruct (Z.leb_spec 0 j); [|done]. by rewrite list_lookup_insert_ne by lia.
Qed.

Lemma atIdx_take vs l i :
  atIdx (take (Z.to_nat l) vs) i = if i <? l then atIdx vs i else None.
Proof.
  unfold atIdx. destruct (Z.leb_spec 0 i); [|by destruct (i <? l)].
  destruct (Z.ltb_spec i l); [by rewrite lookup_take_lt by lia|].
  by rewrite lookup_take_ge by lia.
Qed.

Lemma atIdx_app_None vs ws i : Forall (λ o, o = None) ws → atIdx (vs ++ ws) i = atIdx vs i.
Proof.
  intros Hw. unfold atIdx. destruct (0 <=? i); [|done].
  destruct (decide (Z.to_nat i < length vs)%nat) as [H|H]; [by rewrite lookup_app_l|].
  rewrite lookup_app_r by lia. rewrite (lookup_ge_None_2 vs) by lia.
  destruct (ws !! _) as [o|] eqn:E; [|done]. by rewrite (Forall_lookup_1 _ _ _ _ Hw E).
Qed.

Lemma u32_vlen a : InvD a → uwrap 32 (Z.of_nat (vlen a)) = Z.of_nat (vlen a).
Proof. intros [_ _ Hl _ _ _]. apply uwrap_id. unfold MaxUint32 in Hl. change (2 ^ 32) with 4294967296. lia. Qed.

Lemma u32_succ i : 0 ≤ i < MaxUint32 → uwrap 32 (i + 1) = i + 1.
Proof. unfold MaxUint32. intros Hi. apply uwrap_id. change (2 ^ 32) with 4294967296. lia. Qed.

Lemma array_get_elem a i : InvD a → 0 ≤ i → array_get a i = atIdx (avalues a) i.
Proof.
  intros HI Hi. unfold array_get. rewrite u32_vlen by done. unfold atIdx. zcmp.
  destruct (Z.ltb_spec i (Z.of_nat (vlen a))); [done|]. rewrite lookup_ge_None_2; [done|].
  rewrite length_avalues by done. lia.
Qed.

Lemma elemAt_bound_D a i s : InvD a → atIdx (avalues a) i = Some s → 0 ≤ i < Z.of_nat (vlen a) ∧ wfSlot s.
Proof.
  intros HI [Hi Hs]%atIdx_Some. split; [|by eapply id_wf]. apply lookup_lt_Some in Hs.
  rewrite length_avalues in Hs by done. lia.
Qed.

(** Assigning a cell and adjusting the counters. *)
Lemma store_inv a idx new dobj dp :
  InvD a → 0 ≤ idx < Z.of_nat (vlen a) → (∀ s, new = Some s → wfSlot s) →
  countP (avalues a) - cnt (atIdx (avalues a) idx) + cnt new ≤ propValueCount a + dp →
  let a' := array_store (array_count a dobj dp) idx new in
  InvD a' ∧ ∀ j, atIdx (avalues a') j = if j =? idx then new else atIdx (avalues a) j.
Proof.
  intros HI Hidx Hnew Hcnt. assert (avalues (array_store (array_count a dobj dp) idx new) = <[Z.to_nat idx := new]> (avalues a)) as Hv.
  { unfold avalues. cbn. by rewrite take_insert_lt by lia. }
  assert (∃ o, avalues a !! Z.to_nat idx = Some o) as [o Ho].
  { apply lookup_lt_is_Some_2. rewrite length_avalues by done. lia. }
  assert (atIdx (avalues a) idx = o) as Hat by (unfold atIdx; rewrite (proj2 (Z.leb_le _ _)), Ho by lia; done).
  split.
  - pose proof HI as [H1 H0 H2 H3 H4 H5]. split; rewrite ?Hv; cbn.
    + by rewrite length_insert.
    + by rewrite length_insert.
    + done.
    + rewrite drop_insert_lt by lia. done.
    + intros i s. rewrite list_lookup_insert_Some. intros [(_ & Hn & _)|[_ Hs]]; [by apply Hnew|by eapply H4].
    + rewrite (countP_insert _ _ _ _ Ho). rewrite Hat in Hcnt. lia.
  - intros j. rewrite Hv. apply atIdx_insert. rewrite length_avalues by done. lia.
Qed.

(** *** Truncation *)

(** What deleting the elements from [l] on amounts to. *)
Definition shrinks (el : Z → option slot) (l l' : Z) (ok : bool) : Prop :=
  if ok then l' = l ∧ (∀ i s, el i = Some s → l ≤ i → specC (abs s) = true)
  else ∃ k s, l' = k + 1 ∧ l ≤ k ∧ el k = Some s ∧ specC (abs s) = false ∧
              (∀ i t, el i = Some t → k < i → specC (abs t) = true).

Lemma specC_Raw v : specC (abs (Raw v)) = true.
Proof. done. Qed.

Lemma specC_Prop p : specC (abs (Prop_ p)) = configurable p.
Proof. unfold abs. cbn. by destruct (accessor p). Qed.

Lemma atIdx_snoc vs o i : atIdx (vs ++ [o]) i = if i =? Z.of_nat (length vs) then o else atIdx vs i.
Proof.
  unfold atIdx. destruct (Z.eqb_spec i (Z.of_nat (length vs))) as [->|Hne].
  - rewrite (proj2 (Z.leb_le _ _)), Nat2Z.id, lookup_app_r, Nat.sub_diag by lia. done.
  - destruct (Z.leb_spec 0 i); [|done]. destruct (decide (Z.to_nat i < length vs)%nat) as [E|E]; [by rewrite lookup_app_l|].
    rewrite !lookup_ge_None_2; [done|lia|rewrite length_app; cbn; lia].
Qed.

(** One more element at the end, which can be deleted. *)
Lemma shrinks_extend (el el' : Z → option slot) n o l l' ok :
  (∀ j, el' j = if j =? n then o else el j) → (∀ j s, el j = Some s → j < n) → l ≤ n →
  (∀ s, o = Some s → specC (abs s) = true) → shrinks el l l' ok → shrinks el' l l' ok ∧ l' ≤ n.
Proof.
  intros He Hlt Hl Hconf. assert (∀ i s k, (∀ j t, el j = Some t → k < j → specC (abs t) = true) →
    el' i = Some s → k < i → specC (abs s) = true) as Hall.
  { intros i s k Ha. rewrite He. destruct (i =? _); [by intros ? _; apply Hconf|by apply Ha]. }
  unfold shrinks. destruct ok.
  - intros [-> Ha]. split; [split; [done|]|done]. intros i s Hi ?. apply (Hall i s (l - 1)); [|done|lia].
    intros j t Hj ?. apply (Ha j); [done|lia].
  - intros (k & s & -> & Hk & Hks & Hc & Ha). pose proof (Hlt k s Hks).
    split; [|lia]. exists k, s. do 2 (split; [done|]). rewrite He, (proj2 (Z.eqb_neq _ _)) by lia.
    do 2 (split; [done|]). intros i t Hi ?. by apply (Hall i t k).
Qed.

Lemma shrinkLoop_spec vs n l pvc l' ok pvc' :
  0 ≤ l → (n ≤ length vs)%nat → shrinkLoop vs n l pvc = (l', ok, pvc') →
  shrinks (atIdx (take n vs)) l l' ok ∧
  pvc' = pvc - (countP (take n vs) - countP (take (Z.to_nat l') (take n vs))).
Proof.
  intros Hl. revert pvc. induction n as [|n IH]; intros pvc Hn; cbn [shrinkLoop].
  { intros [= <- <- <-]. rewrite take_0, take_nil. cbn [countP]. split; [split; [done|]|lia].
    intros i s. unfold atIdx. by destruct (0 <=? i). }
  assert (length (take (S n) vs) = S n) as HlS by (rewrite length_take; lia).
  assert (length (take n vs) = n) as Hln by (rewrite length_take; lia).
  destruct (Z.ltb_spec (Z.of_nat n) l) as [E|E].
  { intros [= <- <- <-]. split; [split; [done|]|rewrite (take_ge _ (Z.to_nat l)) by lia; lia].
    intros i s [_ Hs%lookup_lt_Some]%atIdx_Some. lia. }
  destruct (vs !! n) as [o|] eqn:Ho; [|apply lookup_ge_None in Ho; lia].
  rewrite (countP_take_S _ _ _ Ho), (take_S_r _ _ _ Ho).
  assert (∀ pvc0, (∀ s, o = Some s → specC (abs s) = true) → shrinkLoop vs n l pvc0 = (l', ok, pvc') →
    shrinks (atIdx (take n vs ++ [o])) l l' ok ∧
    pvc' = pvc0 - (countP (take n vs) - countP (take (Z.to_nat l') (take n vs ++ [o])))) as Hgo.
  { intros pvc0 Hconf Hs. destruct (IH pvc0 ltac:(lia) Hs) as [Hsh ->].
    apply (shrinks_extend _ (atIdx (take n vs ++ [o])) (Z.of_nat n) o) in Hsh as [Hsh ?]; [| | |lia|done].
    2: { intros j. rewrite atIdx_snoc. by rewrite Hln. }
    2: { intros j s [? ?%lookup_lt_Some]%atIdx_Some. lia. }
    split; [done|].
    rewrite (take_app_le (take n vs) [o]) by lia. lia. }
  destruct o as [[v|p]|].
  - intros Hs. apply Hgo in Hs as [H1 ->]; [|by intros s [= <-]]. split; [done|]. cbn. lia.
  - destruct (configurable p) eqn:Hp; cbn [negb].
    + intros Hs. apply Hgo in Hs as [H1 ->]; [|intros s [= <-]; by rewrite specC_Prop]. split; [done|]. cbn. lia.
    + intros [= <- <- <-]. split.
      * exists (Z.of_nat n), (Prop_ p). do 2 (split; [done || lia|]). rewrite atIdx_snoc, Hln, Z.eqb_refl, specC_Prop.
        do 2 (split; [done|]). intros i t [_ Hi%lookup_lt_Some]%atIdx_Some ?. rewrite length_app, Hln in Hi. cbn in Hi. lia.
      * rewrite (take_ge (take n vs ++ [_])) by (rewrite length_app, Hln; cbn; lia). rewrite countP_app. cbn. lia.
  - intros Hs. apply Hgo in Hs as [H1 ->]; [|done]. split; [done|]. cbn. lia.
Qed.

Lemma countP_take_le n vs : countP (take n vs) ≤ countP vs.
Proof.
  rewrite <- (take_drop n vs) at 2. rewrite countP_app. pose proof (countP_nonneg (drop n vs)). lia.
Qed.

(** The scan is skipped when there is nothing to scan. *)
Lemma shrinkScan_spec a l l' ok pvc' :
  InvD a → 0 ≤ l ≤ MaxUint32 →
  (if (l <=? alength a) && (0 <? propValueCount a)
   then shrinkLoop (avalues a) (vlen a) l (propValueCount a) else (l, true, propValueCount a)) = (l', ok, pvc') →
  shrinks (atIdx (avalues a)) l l' ok ∧ countP (take (Z.to_nat l') (avalues a)) ≤ pvc' ∧ 0 ≤ l' ≤ MaxUint32.
Proof.
  intros HI Hl. pose proof HI as [H1 H0 H2 H3 H4 H5]. pose proof (length_avalues a HI) as Hlen.
  assert (∀ i s, atIdx (avalues a) i = Some s → 0 ≤ i < alength a ∧ (propValueCount a ≤ 0 → isProp s = false)) as Hel.
  { intros i s Hi. destruct (elemAt_bound_D _ _ _ HI Hi). split; [lia|]. intros Hp.
    apply atIdx_Some in Hi as [_ Hi]. eapply countP_zero; [|done]. lia. }
  pose proof (countP_take_le (Z.to_nat l') (avalues a)) as Hle.
  destruct (Z.leb_spec l (alength a)) as [E1|E1]; [destruct (Z.ltb_spec 0 (propValueCount a)) as [E2|E2]|]; cbn [andb].
  - intros [Hsh ->]%shrinkLoop_spec; [|lia|lia]. rewrite !(take_ge (avalues a) (vlen a)) in * by lia.
    split; [done|]. split; [lia|]. unfold shrinks in Hsh. destruct ok; [destruct Hsh; lia|].
    destruct Hsh as (k & s & -> & ? & [? ?]%Hel & _). lia.
  - intros [= <- <- <-]. split; [|lia]. split; [done|]. intros i s [_ Hp]%Hel _.
    destruct s; [done|]. by specialize (Hp E2).
  - intros [= <- <- <-]. split; [|lia]. split; [done|]. intros i s [? _]%Hel ?. lia.
Qed.

(** The slice after truncation, in either of the two ways the code does it. *)
Lemma shrinkBacking_spec a l back n :
  InvD a → 0 ≤ l →
  (if l <=? Z.of_nat (vlen a) then
     if (16 <=? l) && (l <? Z.shiftr (uwrap 32 (Z.of_nat (length (backing a)))) 2)
     then (take (Z.to_nat l) (avalues a), Z.to_nat l)
     else (take (Z.to_nat l) (backing a) ++ replicate (vlen a - Z.to_nat l) None ++ drop (vlen a) (backing a), Z.to_nat l)
   else (backing a, vlen a)) = (back, n) →
  take n back = take (Z.to_nat l) (avalues a) ∧ (n ≤ length back ≤ length (backing a))%nat ∧ Z.of_nat n ≤ l ∧
  Forall (λ o, o = None) (drop n back).
Proof.
  intros HI Hl. pose proof HI as [H1 H0 H2 H3 H4 H5]. pose proof (length_avalues a HI) as Hlen.
  destruct (Z.leb_spec l (Z.of_nat (vlen a))) as [E|E]; [destruct ((16 <=? l) && _)|]; intros [= <- <-].
  - rewrite take_take, Nat.min_id. rewrite length_take, drop_ge by (rewrite length_take; lia).
    split; [done|]. split; [lia|]. split; [lia|]. constructor.
  - assert (length (take (Z.to_nat l) (backing a)) = Z.to_nat l) as Hlt by (rewrite length_take; lia).
    rewrite take_app_length', drop_app_length' by done. split; [unfold avalues; rewrite take_take; f_equal; lia|].
    split; [rewrite !length_app, length_replicate, length_drop; lia|]. split; [lia|]. apply Forall_app.
    split; [by apply Forall_replicate|done].
  - split; [|split; [lia|]; split; [lia|done]]. rewrite (take_ge (avalues a)) by lia. done.
Qed.

Lemma array_setLengthInt_spec a l throw :
  InvD a → 0 ≤ l ≤ MaxUint32 →
  ∃ a' l' ok, shrinks (atIdx (avalues a)) l l' ok ∧
    array_setLengthInt_ a l throw = (a', if ok then Done true else reject throw "Cannot redefine property: length") ∧
    InvD a' ∧ (∀ i, atIdx (avalues a') i = if i <? l' then atIdx (avalues a) i else None) ∧
    alength a' = l' ∧ lengthWritable a' = lengthWritable a ∧ base a' = base a.
Proof.
  intros HI Hl. unfold array_setLengthInt_. rewrite (u32_vlen a HI).
  destruct (if (l <=? alength a) && (0 <? propValueCount a) then _ else _) as [[l' ok] pvc'] eqn:Hloop.
  destruct (shrinkScan_spec a l l' ok pvc' HI Hl Hloop) as (Hsh & Hc & Hl').
  destruct (if l' <=? Z.of_nat (vlen a) then _ else _) as [back n] eqn:Hback.
  destruct (shrinkBacking_spec a l' back n HI ltac:(lia) Hback) as (Ht & Hn & Hnl & Hd).
  eexists _, l', ok. do 2 (split; [done|]). cbn. split; [split; unfold avalues; cbn; rewrite ?Ht|]; [lia| |lia|done| |done|].
  - pose proof (id_int a HI). lia.
  - intros i s Hs. apply (id_wf a HI i). rewrite lookup_take_Some in Hs. apply Hs.
  - split; [|done]. intros i. unfold avalues at 1. cbn. rewrite Ht. apply atIdx_take.
Qed.

(** Growing the length changes nothing else. *)
Lemma array_setLengthInt_grow a l throw :
  InvD a → alength a < l ≤ MaxUint32 →
  array_setLengthInt_ a l throw =
    (MkArray (base a) (backing a) (vlen a) l (objCount a) (propValueCount a) (lengthWritable a), Done true).
Proof.
  intros HI Hl. pose proof (id_len a HI). unfold array_setLengthInt_. rewrite (u32_vlen a HI).
  rewrite (proj2 (Z.leb_gt l (alength a))) by lia. cbn [andb]. zcmp. done.
Qed.

(** *** Growth *)

Lemma growCap_step c :
  0 < c ≤ MaxInt64 →
  let c' := swrap 64 (c + c / 4) in c' ≤ 0 ∨ (5 * c - 3 ≤ 4 * c' ∧ c' ≤ MaxInt64).
Proof.
  unfold MaxInt64. intros Hc. cbn zeta. assert (4 * (c / 4) ≤ c < 4 * (c / 4) + 4) as Hd.
  { pose proof (Z.div_mod c 4 ltac:(lia)). pose proof (Z.mod_pos_bound c 4). lia. }
  unfold swrap. change (2 ^ (64 - 1)) with 9223372036854775808. change (2 ^ 64) with 18446744073709551616.
  destruct (decide (c + c / 4 < 9223372036854775808)).
  - right. rewrite Z.mod_small by lia. lia.
  - left. rewrite <- (Z_mod_plus_full _ (-1)), Z.mod_small by lia. lia.
Qed.

(** The loop ends within its fuel, since four rounds more than double the
    capacity or overflow. *)
Lemma growCapLoop_spec c newSize :
  1024 ≤ c ≤ MaxInt64 → newSize ≤ 2 * c → ∃ c', growCapLoop 4 c newSize = Some c' ∧ (c' ≤ 0 ∨ newSize ≤ c' ≤ MaxInt64).
Proof.
  intros Hc Hn.
  assert (∀ fuel c, 0 < c → ((c <? newSize) = false → c ≤ MaxInt64) →
    ((0 <? c) && (c <? newSize) = false) → ∃ c', growCapLoop fuel c newSize = Some c' ∧ (c' ≤ 0 ∨ newSize ≤ c' ≤ MaxInt64)) as Hstop.
  { intros fuel c0 H0 H1 H2. exists c0. split; [destruct fuel; cbn; by rewrite H2|].
    rewrite (proj2 (Z.ltb_lt 0 c0)) in H2 by lia. cbn in H2. specialize (H1 H2). apply Z.ltb_ge in H2. lia. }
  assert (∀ fuel c k, 0 < c ≤ MaxInt64 →
    (∀ c', swrap 64 (c + c / 4) = c' → 0 < c' → 5 * c - 3 ≤ 4 * c' ∧ c' ≤ MaxInt64 →
       ∃ r, growCapLoop fuel c' newSize = Some r ∧ (r ≤ 0 ∨ newSize ≤ r ≤ MaxInt64)) →
    k = S fuel → ∃ r, growCapLoop k c newSize = Some r ∧ (r ≤ 0 ∨ newSize ≤ r ≤ MaxInt64)) as Hgo.
  { intros fuel c0 k H0 Hk ->. destruct ((0 <? c0) && (c0 <? newSize)) eqn:E; [|apply Hstop; [lia|lia|done]].
    cbn [growCapLoop]. rewrite E. destruct (growCap_step c0 H0) as [Hle|Hgt]; [|].
    - exists (swrap 64 (c0 + c0 / 4)). split; [|by left].
      destruct fuel; cbn [growCapLoop]; zcmp; done.
    - destruct (decide (0 < swrap 64 (c0 + c0 / 4))); [by eapply Hk|].
      exists (swrap 64 (c0 + c0 / 4)). split; [|left; lia].
      destruct fuel; cbn [growCapLoop]; rewrite (proj2 (Z.ltb_ge 0 _)) by lia; done. }
  eapply Hgo; [lia| |done]. intros c1 _ Hc1 [Hx1 Hy1]. eapply Hgo; [lia| |done]. intros c2 _ Hc2 [Hx2 Hy2].
  eapply Hgo; [lia| |done]. intros c3 _ Hc3 [Hx3 Hy3]. eapply Hgo; [lia| |done]. intros c4 _ Hc4 [Hx4 Hy4].
  apply Hstop; [lia|lia|]. zcmp. apply andb_false_r.
Qed.

Lemma growCap_spec newSize oldSize oldCap :
  0 ≤ oldSize ≤ oldCap → oldCap ≤ MaxInt64 → newSize ≤ MaxInt64 →
  ∃ cap, growCap newSize oldSize oldCap = Some cap ∧ newSize ≤ cap ≤ MaxInt64.
Proof.
  intros Ho Hc Hn. unfold growCap. destruct (Z.ltb_spec (swrap 64 (oldCap + oldCap)) newSize) as [E|E]; [eexists; split; [done|lia]|].
  pose proof (swrap_range 64 (oldCap + oldCap) ltac:(lia)) as Hr. change (2 ^ (64 - 1)) with 9223372036854775808 in Hr.
  unfold MaxInt64 in *. destruct (Z.ltb_spec oldSize 1024) as [E2|E2]; [eexists; split; [done|lia]|].
  assert (newSize ≤ 2 * oldCap) as Hd.
  { revert E. unfold swrap. change (2 ^ (64 - 1)) with 9223372036854775808. change (2 ^ 64) with 18446744073709551616.
    destruct (decide (oldCap + oldCap < 9223372036854775808)); [rewrite Z.mod_small by lia; lia|lia]. }
  destruct (growCapLoop_spec oldCap newSize) as (c' & -> & Hc'); [unfold MaxInt64; lia|done|]. cbn. unfold MaxInt64 in Hc'.
  eexists. split; [done|]. destruct (Z.leb_spec c' 0); lia.
Qed.

(** *** Items *)

Lemma itemAt_cons i v its j : itemAt ((i, v) :: its) j = if j =? i then Some v else itemAt its j.
Proof.
  unfold itemAt. cbn. destruct (Z.eqb_spec j i) as [->|Hne]; [by rewrite lookup_insert_eq|].
  by rewrite lookup_insert_ne.
Qed.

Lemma setValues_range i vs : Forall (λ it, i ≤ it.1 < i + Z.of_nat (length vs)) (setValues i vs).
Proof.
  revert i. induction vs as [|o vs IH]; intros i; [constructor|]. cbn [setValues length].
  assert (Forall (λ it, i ≤ it.1 < i + Z.of_nat (S (length vs))) (setValues (i + 1) vs)).
  { eapply Forall_impl; [apply IH|]. cbn. lia. }
  destruct o as [v|]; [constructor; [cbn; lia|done]|done].
Qed.

Lemma setValues_sorted i vs : StronglySorted Z.lt (setValues i vs).*1.
Proof.
  revert i. induction vs as [|o vs IH]; intros i; [constructor|]. cbn [setValues]. destruct o as [v|]; [|apply IH].
  cbn. constructor; [apply IH|]. apply Forall_fmap. eapply Forall_impl; [apply setValues_range|]. cbn. lia.
Qed.

Lemma setValues_elem i vs j : itemAt (setValues i vs) j = atIdx vs (j - i).
Proof.
  revert i. induction vs as [|o vs IH]; intros i; cbn [setValues].
  { unfold itemAt, atIdx. cbn. by destruct (0 <=? j - i). }
  assert (atIdx (o :: vs) (j - i) = if j =? i then o else atIdx vs (j - (i + 1))) as ->.
  { unfold atIdx. destruct (Z.eqb_spec j i) as [->|Hne].
    - rewrite Z.sub_diag. by destruct o.
    - destruct (Z.leb_spec 0 (j - i)), (Z.leb_spec 0 (j - (i + 1))); try lia; [|done].
      replace (Z.to_nat (j - i)) with (S (Z.to_nat (j - (i + 1)))) by lia. done. }
  destruct o as [v|]; [by rewrite itemAt_cons, IH|]. rewrite IH. destruct (Z.eqb_spec j i) as [->|]; [|done].
  unfold atIdx. by zcmp.
Qed.

Lemma setValues_count i vs : countP (Some <$> (setValues i vs).*2) = countP vs.
Proof. revert i. induction vs as [|[v|] vs IH]; intros i; cbn; rewrite ?IH; done. Qed.

Lemma setValues_wf i vs (P : slot → Prop) :
  (∀ j s, vs !! j = Some (Some s) → P s) → Forall (λ it, P it.2) (setValues i vs).
Proof.
  revert i. induction vs as [|o vs IH]; intros i HP; [constructor|]. cbn [setValues].
  assert (Forall (λ it, P it.2) (setValues (i + 1) vs)) by (apply IH; intros j s; apply (HP (S j))).
  destruct o as [v|]; [constructor; [by apply (HP 0%nat)|done]|done].
Qed.

(** *** expand *)

Lemma put_extensible o name v : extensible (_put o name v) = extensible o.
Proof. unfold _put. by destruct (values o !! name). Qed.

(** What either form of growing guarantees. *)
Record Grown (a a' : arrayObject) (idx : Z) : Prop := {
  gr_inv : InvD a';
  gr_idx : idx < Z.of_nat (vlen a');
  gr_elems : ∀ i, atIdx (avalues a') i = atIdx (avalues a) i;
  gr_count : countP (avalues a') = countP (avalues a);
  gr_rest : alength a' = alength a ∧ propValueCount a' = propValueCount a ∧
            lengthWritable a' = lengthWritable a ∧ base a' = base a;
}.

Lemma grown_spec a ws n idx :
  InvD a → Forall (λ o, o = None) ws → (vlen a ≤ n ≤ vlen a + length ws)%nat → Z.of_nat n = idx + 1 → idx < alength a →
  Z.of_nat (vlen a + length ws) ≤ MaxInt64 →
  Grown a (MkArray (base a) (avalues a ++ ws) n (alength a) (objCount a) (propValueCount a) (lengthWritable a)) idx.
Proof.
  intros HI Hw Hn Hidx Hlt Hint. pose proof (length_avalues a HI) as Hlen. pose proof HI as [H1 H0 H2 H3 H4 H5].
  set (a' := MkArray _ _ _ _ _ _ _).
  assert (avalues a' = avalues a ++ take (n - vlen a) ws) as Ht.
  { unfold avalues at 1. cbn. rewrite take_app, Hlen. by rewrite take_ge by lia. }
  assert (Forall (λ o, o = None) (take (n - vlen a) ws)) as Hw' by (by apply Forall_take).
  assert (countP (avalues a') = countP (avalues a)) as Hc by (rewrite Ht, countP_app, (countP_None _ Hw'); lia).
  split; [|cbn; lia| |done|done].
  - split; rewrite ?Hc; cbn [a' vlen backing alength propValueCount]; rewrite ?length_app, ?Hlen; try lia.
    + rewrite drop_app, drop_ge by lia. by apply Forall_drop.
    + rewrite Ht. intros i s [Hs|[_ Hs]]%lookup_app_Some; [by eapply H4|]. by pose proof (Forall_lookup_1 _ _ _ _ Hw' Hs).
  - intros i. rewrite Ht. by apply atIdx_app_None.
Qed.

Record Sparsed (a : arrayObject) (s : sparseArrayObject) : Prop := {
  sp_inv : InvS s;
  sp_elems : ∀ i, itemAt (items s) i = atIdx (avalues a) i;
  sp_count : countP (Some <$> (items s).*2) = countP (avalues a);
  sp_rest : slength s = alength a ∧ spropValueCount s = propValueCount a ∧
            slengthWritable s = lengthWritable a ∧ extensible (sbase s) = extensible (base a);
}.

Lemma array_expand_spec a idx :
  InvD a → 0 ≤ idx < alength a →
  match array_expand a idx with
  | inl a' => Grown a a' idx
  | inr s => Sparsed a s ∧ Z.of_nat (vlen a) ≤ idx
  end.
Proof.
  intros HI Hidx. pose proof (length_avalues a HI) as Hlen. pose proof HI as [H1 H0 H2 H3 H4 H5].
  unfold array_expand. rewrite u32_vlen, u32_succ by (done || lia).
  destruct (Z.ltb_spec (Z.of_nat (vlen a)) (idx + 1)) as [E|E]; [|by split; [done|lia|..]].
  destruct (Z.ltb_spec (idx + 1) (uwrap 32 (Z.of_nat (length (backing a))))) as [E2|E2];
    [|destruct ((4096 <? idx) && _)].
  - rewrite <- (take_drop (vlen a) (backing a)). fold (avalues a).
    assert (uwrap 32 (Z.of_nat (length (backing a))) ≤ Z.of_nat (length (backing a))) by (apply Z.mod_le; lia).
    apply grown_spec; try done; try (rewrite length_drop; lia); lia.
  - split; [|lia]. split; cbn.
    + split; cbn; [apply setValues_sorted| |lia|by rewrite setValues_count].
      apply Forall_and. split; [|apply setValues_wf; intros; by eapply H4].
      eapply Forall_impl; [apply setValues_range|]. cbn. lia.
    + intros i. rewrite setValues_elem. f_equal. lia.
    + apply setValues_count.
    + by rewrite put_extensible.
  - destruct (growCap_spec (idx + 1) (Z.of_nat (vlen a)) (Z.of_nat (length (backing a)))) as (cap & -> & Hcap);
      [lia|lia|unfold MaxInt64, MaxUint32 in *; lia|]. cbn [default from_option id].
    apply grown_spec; [done|by apply Forall_replicate|rewrite length_replicate; lia|lia|lia|rewrite length_replicate; lia].
Qed.

(** *** Sparse arrays *)

Lemma itemAt_app l1 l2 j : itemAt (l1 ++ l2) j = match itemAt l1 j with Some v => Some v | None => itemAt l2 j end.
Proof.
  induction l1 as [|[i v] l1 IH]; [done|]. cbn [app]. rewrite !itemAt_cons, IH. by destruct (j =? i).
Qed.

Lemma itemAt_Some l j v : itemAt l j = Some v → (j, v) ∈ l.
Proof. apply elem_of_list_to_map_2. Qed.

Lemma itemAt_None l j : Forall (λ it, it.1 ≠ j) l → itemAt l j = None.
Proof.
  intros Hl. destruct (itemAt l j) as [v|] eqn:E; [|done]. apply itemAt_Some in E.
  rewrite Forall_forall in Hl. by apply Hl in E.
Qed.

(** The items around an index. *)
Definition mid (idx : Z) (o : option slot) : list (Z * slot) := match o with Some v => [(idx, v)] | None => [] end.

Record Zip (its : list (Z * slot)) (idx : Z) (l1 : list (Z * slot)) (o : option slot) (l2 : list (Z * slot)) : Prop := {
  zip_items : its = l1 ++ mid idx o ++ l2;
  zip_l : Forall (λ it, it.1 < idx) l1;
  zip_r : Forall (λ it, idx < it.1) l2;
}.

Lemma zip_elem its idx l1 o l2 j : Zip its idx l1 o l2 → itemAt its j = if j =? idx then o else itemAt (l1 ++ l2) j.
Proof.
  intros [-> Hl Hr]. rewrite !itemAt_app. assert (itemAt (mid idx o) j = if j =? idx then o else None) as ->.
  { destruct o as [v|]; cbn; [apply itemAt_cons|by destruct (j =? idx)]. }
  destruct (Z.eqb_spec j idx) as [->|Hne].
  - rewrite (itemAt_None l1) by (eapply Forall_impl; [done|]; cbn; lia).
    rewrite (itemAt_None l2) by (eapply Forall_impl; [done|]; cbn; lia). by destruct o.
  - done.
Qed.

Lemma zip_count its idx l1 o l2 :
  Zip its idx l1 o l2 → countP (Some <$> its.*2) = countP (Some <$> (l1 ++ l2).*2) + cnt o.
Proof. intros [-> _ _]. rewrite !fmap_app, !countP_app. destruct o; cbn; lia. Qed.

Lemma zip_sorted its idx l1 o l2 o' :
  Zip its idx l1 o l2 → StronglySorted Z.lt its.*1 → StronglySorted Z.lt (l1 ++ mid idx o' ++ l2).*1.
Proof.
  intros [-> Hl Hr]. rewrite !fmap_app, !StronglySorted_app. intros (H1 & H2 & _ & _ & H5).
  rewrite Forall_forall in Hl, Hr. assert (∀ x, x ∈ l1.*1 → x < idx) as Hl' by (intros x (it & -> & ?)%list_elem_of_fmap; by apply Hl).
  assert (∀ x, x ∈ l2.*1 → idx < x) as Hr' by (intros x (it & -> & ?)%list_elem_of_fmap; by apply Hr).
  assert (∀ x, x ∈ (mid idx o').*1 → x = idx) as Hm.
  { intros x. destruct o'; cbn; [|by intros ?%not_elem_of_nil]. by intros ?%list_elem_of_singleton. }
  split; [|split; [done|]; split; [|split; [|done]]].
  - intros x y Hx [->%Hm|Hy]%elem_of_app; [by apply Hl'|]. apply H1; [done|]. apply elem_of_app. by right.
  - intros x y ->%Hm Hy. by apply Hr'.
  - destruct o'; cbn; repeat constructor.
Qed.

(** Replacing, inserting or removing the item of an index. *)
Lemma zip_inv a idx l1 o l2 o' b pvc w :
  InvS a → Zip (items a) idx l1 o l2 → 0 ≤ idx < slength a → (∀ s, o' = Some s → wfSlot s) →
  countP (Some <$> (items a).*2) - cnt o + cnt o' ≤ pvc →
  let a' := MkSparse b (l1 ++ mid idx o' ++ l2) (slength a) pvc w in
  InvS a' ∧ ∀ j, itemAt (items a') j = if j =? idx then o' else itemAt (items a) j.
Proof.
  intros HI Hz Hidx Hwf Hcnt. assert (Zip (l1 ++ mid idx o' ++ l2) idx l1 o' l2) as Hz' by (destruct Hz; by split).
  split.
  - destruct HI as [H1 H2 H3 H4]. split; cbn [items slength spropValueCount]; [exact (zip_sorted _ _ _ _ _ o' Hz H1)| |done|].
    + rewrite (zip_items _ _ _ _ _ Hz), !Forall_app in H2. rewrite !Forall_app. destruct H2 as (? & _ & ?).
      split; [done|]. split; [|done]. destruct o' as [s|]; [|constructor].
      constructor; [|constructor]. split; [done|by apply Hwf].
    + rewrite (zip_count _ _ _ _ _ Hz'). rewrite (zip_count _ _ _ _ _ Hz) in Hcnt. lia.
  - intros j. cbn [items]. rewrite (zip_elem _ _ _ _ _ _ Hz'), (zip_elem _ _ _ _ _ j Hz). by destruct (j =? idx).
Qed.

(** The binary search splits the items. *)
Lemma findIdx_split a idx :
  InvS a → ∃ l1 l2, items a = l1 ++ l2 ∧ findIdx a idx = length l1 ∧
    Forall (λ it, it.1 < idx) l1 ∧ Forall (λ it, idx ≤ it.1) l2.
Proof.
  intros [Hs _ _ _]. unfold findIdx. set (f := λ i : nat, idx <=? _).
  destruct (sortSearch_spec (length (items a)) f) as (Hk & Hlo & Hhi).
  { intros x y Hxy. unfold f. rewrite !Z.leb_le.
    destruct (lookup_lt_is_Some_2 (items a) x) as [[ix vx] Hx]; [lia|].
    destruct (lookup_lt_is_Some_2 (items a) y) as [[iy vy] Hy]; [lia|].
    rewrite (nth_lookup_Some (A := Z * slot) _ _ _ _ Hx), (nth_lookup_Some (A := Z * slot) _ _ _ _ Hy). cbn.
    destruct (decide (x = y)) as [->|Hne]; [congruence|].
    assert (ix < iy) by (eapply (StronglySorted_lookup_lt Z.lt _ x y); [exact Hs|by rewrite list_lookup_fmap, Hx|by rewrite list_lookup_fmap, Hy|lia]).
    lia. }
  set (k := sortSearch _ _) in *. exists (take k (items a)), (drop k (items a)).
  rewrite take_drop, length_take. split; [done|]. split; [lia|]. split; apply Forall_lookup_2; intros i it Hi.
  - apply lookup_take_Some in Hi as [Hi ?]. specialize (Hlo i ltac:(lia)). unfold f in Hlo.
    rewrite (nth_lookup_Some (A := Z * slot) _ _ _ _ Hi) in Hlo. by apply Z.leb_gt.
  - rewrite lookup_drop in Hi. pose proof (lookup_lt_Some _ _ _ Hi). specialize (Hhi (k + i)%nat ltac:(lia)). unfold f in Hhi.
    rewrite (nth_lookup_Some (A := Z * slot) _ _ _ _ Hi) in Hhi. by apply Z.leb_le.
Qed.

Lemma findIdx_zip a idx :
  InvS a → ∃ l1 o l2, Zip (items a) idx l1 o l2 ∧ findIdx a idx = length l1 ∧ sparse_get a idx = o ∧ itemAt (items a) idx = o.
Proof.
  intros HI. destruct (findIdx_split a idx HI) as (l1 & l2 & Hit & Hk & Hl & Hr). exists l1.
  assert (∃ o l2', l2 = mid idx o ++ l2' ∧ Forall (λ it, idx < it.1) l2' ∧ sparse_get a idx = o) as (o & l2' & -> & Hr' & Hg).
  { unfold sparse_get. rewrite Hk, Hit, lookup_app_r, Nat.sub_diag by lia. destruct l2 as [|[i v] l2]; [by exists None, []|]. cbn.
    pose proof (is_sorted a HI) as Hs. rewrite Hit, fmap_app in Hs. apply StronglySorted_app_1_r in Hs. cbn in Hs.
    apply StronglySorted_inv in Hs as [_ Hs]. rewrite Forall_fmap in Hs. apply Forall_cons in Hr as [Hi Hr]. cbn in Hi.
    destruct (Z.eqb_spec i idx) as [->|Hne]; [by exists (Some v), l2|]. exists None, ((i, v) :: l2). split; [done|].
    split; [|done]. constructor; [cbn; lia|]. eapply Forall_impl; [exact Hs|]. cbn. lia. }
  assert (Zip (items a) idx l1 o l2') as Hz by (by split). exists o, l2'. split; [done|]. split; [done|]. split; [done|].
  by rewrite (zip_elem _ _ _ _ _ _ Hz), Z.eqb_refl.
Qed.

Definition countFrom (l : Z) (its : list (Z * slot)) : Z := countP (Some <$> (filter (λ it, l ≤ it.1) its).*2).

Lemma countFrom_app l its its' : countFrom l (its ++ its') = countFrom l its + countFrom l its'.
Proof. unfold countFrom. by rewrite filter_app, !fmap_app, countP_app. Qed.

Lemma countFrom_below l its : Forall (λ it, it.1 < l) its → countFrom l its = 0.
Proof.
  unfold countFrom. induction 1 as [|it its H _ IH]; [done|]. by rewrite filter_cons_False by lia.
Qed.

Lemma countFrom_above l its : Forall (λ it, l ≤ it.1) its → countFrom l its = countP (Some <$> its.*2).
Proof.
  unfold countFrom. induction 1 as [|it its H _ IH]; [done|]. rewrite filter_cons_True by done. cbn. by rewrite IH.
Qed.

Lemma countFrom_one l i v : countFrom l [(i, v)] = if l <=? i then propInc v else 0.
Proof.
  destruct (Z.leb_spec l i).
  - rewrite countFrom_above by (by repeat constructor). cbn. lia.
  - by rewrite countFrom_below by (by repeat constructor).
Qed.

Lemma sparseLoop_spec its l pvc l' ok pvc' :
  StronglySorted Z.lt its.*1 → sparse_setLengthInt_loop (reverse its) l pvc = (l', ok, pvc') →
  shrinks (itemAt its) l l' ok ∧ pvc' = pvc - countFrom l' its.
Proof.
  revert pvc. induction its as [|[i v] its IH] using rev_ind; intros pvc Hs.
  { intros [= <- <- <-]. split; [by split|]. cbn. lia. }
  rewrite reverse_snoc. cbn [sparse_setLengthInt_loop]. rewrite fmap_app, StronglySorted_app in Hs. cbn in Hs.
  destruct Hs as (Hlt & Hs & _).
  assert (Zip (its ++ [(i, v)]) i its (Some v) []) as Hz.
  { split; [done| |constructor]. apply Forall_forall. intros it Hit. apply Hlt; [by apply list_elem_of_fmap_2|by left]. }
  pose proof (zip_l _ _ _ _ _ Hz) as Hl. rewrite countFrom_app, countFrom_one.
  assert (∀ j, itemAt (its ++ [(i, v)]) j = if j =? i then Some v else itemAt its j) as Hat.
  { intros j. by rewrite (zip_elem _ _ _ _ _ _ Hz), app_nil_r. }
  assert (∀ j s, itemAt its j = Some s → j < i) as Hits.
  { intros j s Hj%itemAt_Some. rewrite Forall_forall in Hl. by apply Hl in Hj. }
  assert (∀ l0, i < l0 → countFrom l0 its = 0) as H0.
  { intros l0 ?. apply countFrom_below. eapply Forall_impl; [done|]. cbn. lia. }
  destruct (Z.ltb_spec i l) as [E|E].
  { intros [= <- <- <-]. rewrite H0, (proj2 (Z.leb_gt l i)) by lia.
    split; [split; [done|]|lia]. intros j s. rewrite Hat. destruct (Z.eqb_spec j i); [lia|]. intros ?%Hits. lia. }
  assert (∀ pvc0, specC (abs v) = true → sparse_setLengthInt_loop (reverse its) l pvc0 = (l', ok, pvc') →
    shrinks (itemAt (its ++ [(i, v)])) l l' ok ∧ pvc' = pvc0 - countFrom l' its ∧ l' ≤ i) as Hgo.
  { intros pvc0 Hc Hloop. destruct (IH pvc0 Hs Hloop) as [Hsh ->].
    apply (shrinks_extend _ _ i (Some v)) with (1 := Hat) in Hsh as [? ?]; [done|done|done|by intros s [= <-]]. }
  destruct v as [v|p].
  - intros Hloop. destruct (Hgo pvc eq_refl Hloop) as (? & -> & ?). split; [done|]. zcmp. cbn. lia.
  - destruct (configurable p) eqn:Hp; cbn [negb].
    + intros Hloop. destruct (Hgo (pvc - 1) ltac:(by rewrite specC_Prop) Hloop) as (? & -> & ?). split; [done|].
      zcmp. cbn. lia.
    + intros [= <- <- <-]. rewrite H0, (proj2 (Z.leb_gt (i + 1) i)) by lia.
      split; [|lia]. exists i, (Prop_ p). do 2 (split; [done|]). rewrite Hat, Z.eqb_refl, specC_Prop. do 2 (split; [done|]).
      intros j t. rewrite Hat. destruct (Z.eqb_spec j i); [lia|]. intros ?%Hits. lia.
Qed.

Lemma elemAt_bound_S a i s : InvS a → itemAt (items a) i = Some s → 0 ≤ i < slength a ∧ wfSlot s.
Proof. intros HI Hi%itemAt_Some. pose proof (is_items a HI) as Hf. rewrite Forall_forall in Hf. by apply Hf in Hi. Qed.

Lemma countP_items_zero its i s : countP (Some <$> its.*2) ≤ 0 → itemAt its i = Some s → isProp s = false.
Proof.
  intros Hc Hi%itemAt_Some. apply list_elem_of_lookup in Hi as [n Hn]. apply (countP_zero (Some <$> its.*2) n); [done|].
  by rewrite !list_lookup_fmap, Hn.
Qed.

Lemma sparseScan_spec a l l' ok pvc' :
  InvS a → 0 ≤ l ≤ MaxUint32 →
  (if (l <=? slength a) && (0 <? spropValueCount a)
   then sparse_setLengthInt_loop (reverse (items a)) l (spropValueCount a) else (l, true, spropValueCount a)) = (l', ok, pvc') →
  shrinks (itemAt (items a)) l l' ok ∧ countP (Some <$> (items a).*2) - countFrom l' (items a) ≤ pvc' ∧ 0 ≤ l' ≤ MaxUint32.
Proof.
  intros HI Hl. pose proof HI as [H1 H2 H3 H4]. pose proof (countP_nonneg (Some <$> (filter (λ it, l' ≤ it.1) (items a)).*2)) as Hnn.
  fold (countFrom l' (items a)) in Hnn.
  destruct (Z.leb_spec l (slength a)) as [E1|E1]; [destruct (Z.ltb_spec 0 (spropValueCount a)) as [E2|E2]|]; cbn [andb].
  - intros [Hsh ->]%sparseLoop_spec; [|done]. split; [done|]. split; [lia|]. unfold shrinks in Hsh.
    destruct ok; [destruct Hsh; lia|]. destruct Hsh as (k & s & -> & ? & Hk & _). apply elemAt_bound_S in Hk as [? _]; [|done]. lia.
  - intros [= <- <- <-]. split; [|lia]. split; [done|]. intros i s Hi _.
    assert (isProp s = false) as Hp by (eapply countP_items_zero; [|done]; lia). by destruct s.
  - intros [= <- <- <-]. split; [|lia]. split; [done|]. intros i s Hi%elemAt_bound_S ?; [|done]. lia.
Qed.

Lemma sparse_setLengthInt_spec a l throw :
  InvS a → 0 ≤ l ≤ MaxUint32 →
  ∃ a' l' ok, shrinks (itemAt (items a)) l l' ok ∧
    sparse_setLengthInt_ a l throw = (a', if ok then Done true else reject throw "Cannot redefine property: length") ∧
    InvS a' ∧ (∀ i, itemAt (items a') i = if i <? l' then itemAt (items a) i else None) ∧
    slength a' = l' ∧ slengthWritable a' = slengthWritable a ∧ sbase a' = sbase a.
Proof.
  intros HI Hl. unfold sparse_setLengthInt_.
  destruct (if (l <=? slength a) && (0 <? spropValueCount a) then _ else _) as [[l' ok] pvc'] eqn:Hloop.
  destruct (sparseScan_spec a l l' ok pvc' HI Hl Hloop) as (Hsh & Hc & Hl').
  destruct (findIdx_split a l' HI) as (l1 & l2 & Hit & Hk & H1 & H2).
  eexists _, l', ok. do 2 (split; [done|]). cbn [items slength slengthWritable sbase]. rewrite Hk, Hit, take_app_length.
  destruct HI as [I1 I2 I3 I4]. rewrite Hit in *. split; [split; cbn [items slength spropValueCount]|].
  - rewrite fmap_app in I1. by apply StronglySorted_app_1_l in I1.
  - apply Forall_app in I2 as [I2 _]. apply Forall_forall. intros it Hin. rewrite Forall_forall in I2, H1.
    specialize (I2 _ Hin). specialize (H1 _ Hin). cbn in H1. split; [lia|by apply I2].
  - lia.
  - rewrite countFrom_app, (countFrom_below l' l1), (countFrom_above l' l2), !fmap_app, countP_app in Hc by done. lia.
  - split; [|done]. intros i. rewrite itemAt_app. destruct (Z.ltb_spec i l').
    + rewrite (itemAt_None l2) by (eapply Forall_impl; [done|]; cbn; lia). by destruct (itemAt l1 i).
    + apply itemAt_None. eapply Forall_impl; [done|]. cbn. lia.
Qed.

Lemma sparse_setLengthInt_grow a l throw :
  InvS a → slength a < l ≤ MaxUint32 →
  sparse_setLengthInt_ a l throw = (MkSparse (sbase a) (items a) l (spropValueCount a) (slengthWritable a), Done true).
Proof.
  intros HI Hl. unfold sparse_setLengthInt_. rewrite (proj2 (Z.leb_gt l (slength a))) by lia. cbn [andb].
  destruct (findIdx_split a l HI) as (l1 & l2 & Hit & -> & _ & H2). destruct l2 as [|it l2].
  - by rewrite Hit, app_nil_r, take_ge.
  - pose proof (is_items a HI) as Hi. rewrite Hit in Hi. apply Forall_app in Hi as [_ [Hi _]%Forall_cons].
    apply Forall_cons in H2 as [H2 _]. lia.
Qed.

Lemma fromSparse_spec its vs :
  NoDup its.*1 → Forall (λ it, 0 ≤ it.1 < Z.of_nat (length vs) ∧ atIdx vs it.1 = None) its →
  let vs' := foldl (λ vs it, <[Z.to_nat it.1 := Some it.2]> vs) vs its in
  length vs' = length vs ∧ countP vs' = countP vs + countP (Some <$> its.*2) ∧
  ∀ j, atIdx vs' j = match itemAt its j with Some v => Some v | None => atIdx vs j end.
Proof.
  revert vs. induction its as [|[i v] its IH]; intros vs Hnd Hf; cbn [foldl].
  { split; [done|]. split; [cbn; lia|done]. }
  apply NoDup_cons in Hnd as [Hni Hnd]. apply Forall_cons in Hf as [[Hi Hv] Hf]. cbn [fst snd] in *.
  destruct (IH (<[Z.to_nat i := Some v]> vs) Hnd) as (H1 & H2 & H3).
  { rewrite length_insert. apply Forall_forall. intros it Hit. rewrite Forall_forall in Hf. destruct (Hf it Hit) as [? ?].
    split; [done|]. rewrite atIdx_insert by lia. destruct (Z.eqb_spec it.1 i) as [<-|]; [|done].
    exfalso. apply Hni. by apply list_elem_of_fmap_2. }
  rewrite length_insert in H1. split; [done|]. split.
  - rewrite H2. destruct (lookup_lt_is_Some_2 vs (Z.to_nat i)) as [o Ho]; [lia|]. rewrite (countP_insert _ _ _ _ Ho).
    assert (o = None) as -> by (unfold atIdx in Hv; rewrite (proj2 (Z.leb_le 0 i)), Ho in Hv by lia; done). cbn. lia.
  - intros j. rewrite H3, itemAt_cons, atIdx_insert by lia. destruct (Z.eqb_spec j i) as [->|]; [|done].
    rewrite itemAt_None; [done|]. apply Forall_forall. intros it Hit <-. apply Hni. by apply list_elem_of_fmap_2.
Qed.

Lemma sorted_NoDup (l : list Z) : StronglySorted Z.lt l → NoDup l.
Proof.
  induction 1 as [|x l _ IH Hx]; constructor; [|done]. intros Hin. rewrite Forall_forall in Hx. specialize (Hx _ Hin). lia.
Qed.

Record Densed (s : sparseArrayObject) (a : arrayObject) (idx : Z) : Prop := {
  ds_inv : InvD a;
  ds_idx : idx < Z.of_nat (vlen a);
  ds_elems : ∀ i, atIdx (avalues a) i = itemAt (items s) i;
  ds_count : countP (avalues a) = countP (Some <$> (items s).*2);
  ds_rest : alength a = slength s ∧ propValueCount a = spropValueCount s ∧
            lengthWritable a = slengthWritable s ∧ extensible (base a) = extensible (sbase s);
}.

Lemma last_max a : InvS a → Forall (λ it, it.1 ≤ (default (0, Raw VUndefined) (last (items a))).1) (items a) ∧
  ((default (0, Raw VUndefined) (last (items a))).1 < slength a ∨ items a = []).
Proof.
  intros [Hs Hf _ _]. destruct (items a) as [|it its _] using rev_ind; [by split; [|right]|]. rewrite last_snoc. cbn [default from_option id].
  rewrite fmap_app, StronglySorted_app in Hs. destruct Hs as [Hs _]. split.
  - apply Forall_app. split; [|repeat constructor; lia]. apply Forall_forall. intros x Hx.
    enough (x.1 < it.1) by lia. apply Hs; [by apply list_elem_of_fmap_2|by left].
  - left. apply Forall_app in Hf as [_ [Hf _]%Forall_cons]. lia.
Qed.

Lemma sparse_expand_spec s idx :
  InvS s → 0 ≤ idx < slength s →
  match sparse_expand s idx with inl s' => s' = s | inr a => Densed s a idx end.
Proof.
  intros HI Hidx. unfold sparse_expand. destruct (1024 <=? _) eqn:E; [|done].
  destruct (last_max s HI) as [Hmax Hlast]. set (ii := (default _ _).1) in *. cbn zeta.
  set (m := if idx <? ii then ii else idx). destruct (Z.shiftr m 3 <? _); [|done].
  assert (idx ≤ m < slength s ∧ ii ≤ m) as [Hm Him].
  { apply Z.leb_le in E. destruct Hlast as [|He]; [|rewrite He in E; cbn in E; lia]. unfold m. destruct (Z.ltb_spec idx ii); lia. }
  pose proof HI as [H1 H2 H3 H4].
  destruct (fromSparse_spec (items s) (replicate (Z.to_nat (m + 1)) None)) as (F1 & F2 & F3).
  { by apply sorted_NoDup. }
  { rewrite length_replicate. apply Forall_forall. intros it Hit. rewrite Forall_forall in H2, Hmax.
    specialize (H2 it Hit). specialize (Hmax it Hit). cbn in Hmax. split; [lia|]. unfold atIdx.
    zcmp. destruct (replicate _ _ !! _) as [o|] eqn:Eo; [|done].
    by apply lookup_replicate_1 in Eo as [-> _]. }
  fold (setValuesFromSparse (items s) m) in F1, F2, F3. rewrite length_replicate in F1.
  set (a := MkArray _ _ _ _ _ _ _). assert (avalues a = setValuesFromSparse (items s) m) as Hav.
  { unfold avalues. cbn. rewrite take_ge by lia. done. }
  rewrite (countP_None (replicate _ _)) in F2 by (by apply Forall_replicate).
  assert (∀ j, atIdx (avalues a) j = itemAt (items s) j) as Hel.
  { intros j. rewrite Hav, F3. destruct (itemAt (items s) j); [done|]. unfold atIdx. destruct (0 <=? j); [|done].
    destruct (replicate _ _ !! _) as [o|] eqn:Eo; [|done]. by apply lookup_replicate_1 in Eo as [-> _]. }
  split; [|cbn; lia|done|rewrite Hav, F2; lia|by cbn; rewrite put_extensible].
  split; rewrite ?Hav; cbn; rewrite ?F1; try lia.
  - unfold MaxInt64, MaxUint32 in *. lia.
  - rewrite drop_ge by lia. constructor.
  - intros i t Hi. apply (elemAt_bound_S s (Z.of_nat i)); [done|]. rewrite <- Hel, Hav. unfold atIdx.
    rewrite (proj2 (Z.leb_le _ _)), Nat2Z.id, Hi by lia. done.
Qed.

(** ** Refinement *)

Record Rep (x : arrayImpl) (sp : specArray) : Prop := {
  rep_inv : Inv x;
  rep_elems : ∀ i, sElems sp !! i = abs <$> elemAt x i;
  rep_len : sLen sp = arrayLength x;
  rep_lenW : sLenW sp = arrayLengthWritable x;
  rep_ext : sExt sp = extensible (arrayBase x);
}.

Lemma arrayGet_elem x i : Inv x → 0 ≤ i → arrayGet x i = elemAt x i.
Proof.
  destruct x as [a|a]; cbn; intros HI Hi; [by apply array_get_elem|].
  destruct (findIdx_zip a i HI) as (? & o & ? & _ & _ & -> & ->). done.
Qed.

Lemma elemAt_bound x i s : Inv x → elemAt x i = Some s → 0 ≤ i < arrayLength x ∧ wfSlot s.
Proof.
  destruct x as [a|a]; cbn; intros HI Hi; [|by apply elemAt_bound_S].
  destruct (elemAt_bound_D a i s HI Hi). pose proof (id_len a HI). split; [lia|done].
Qed.

Lemma arrayLength_range x : Inv x → arrayLength x ≤ MaxUint32.
Proof. destruct x; cbn; [intros HI; apply (id_len _ HI)|apply is_len]. Qed.

(** [x'] has the elements [f] and the length [len], and is otherwise like [x]. *)
Record Upd (x x' : arrayImpl) (f : Z → option slot) (len : Z) : Prop := {
  upd_inv : Inv x';
  upd_elems : ∀ j, elemAt x' j = f j;
  upd_len : arrayLength x' = len;
  upd_lenW : arrayLengthWritable x' = arrayLengthWritable x;
  upd_ext : extensible (arrayBase x') = extensible (arrayBase x);
}.

Definition setAt (x : arrayImpl) (idx : Z) (o : option slot) (j : Z) : option slot := if j =? idx then o else elemAt x j.

Lemma rep_upd x x' sp idx s len :
  Rep x sp → Upd x x' (setAt x idx (Some s)) len →
  Rep x' (MkSpec (<[idx := abs s]> (sElems sp)) len (sLenW sp) (sExt sp)).
Proof.
  intros [H1 H2 H3 H4 H5] [U1 U2 U3 U4 U5]. split; cbn; [done| |done|by rewrite H4, U4|by rewrite H5, U5].
  intros i. rewrite U2. unfold setAt. destruct (Z.eqb_spec i idx) as [->|]; [by rewrite lookup_insert_eq|].
  rewrite lookup_insert_ne by done. apply H2.
Qed.

Lemma rep_delete x x' sp idx :
  Rep x sp → Upd x x' (setAt x idx None) (arrayLength x) →
  Rep x' (MkSpec (delete idx (sElems sp)) (sLen sp) (sLenW sp) (sExt sp)).
Proof.
  intros [H1 H2 H3 H4 H5] [U1 U2 U3 U4 U5]. split; cbn; [done| |by rewrite H3, U3|by rewrite H4, U4|by rewrite H5, U5].
  intros i. rewrite U2. unfold setAt. destruct (Z.eqb_spec i idx) as [->|]; [by rewrite lookup_delete_eq|].
  rewrite lookup_delete_ne by done. apply H2.
Qed.

Lemma below_lookup m l i : below m l !! i = if i <? l then m !! i else None.
Proof.
  unfold below. rewrite map_lookup_filter. destruct (m !! i) as [p|]; cbn; [|by destruct (i <? l)].
  destruct (Z.ltb_spec i l); [by rewrite option_guard_True|by rewrite option_guard_False by (cbn; lia)].
Qed.

Lemma rep_shrunk x x' sp l w :
  Rep x sp → Inv x' → (∀ j, elemAt x' j = if j <? l then elemAt x j else None) → arrayLength x' = l →
  arrayLengthWritable x' = w → extensible (arrayBase x') = extensible (arrayBase x) →
  Rep x' (MkSpec (below (sElems sp) l) l w (sExt sp)).
Proof.
  intros [H1 H2 H3 H4 H5] U1 U2 U3 U4 U5. split; cbn; [done| |done|done|by rewrite H5, U5].
  intros i. rewrite below_lookup, U2, H2. by destruct (i <? l).
Qed.

Lemma rep_shrinks x sp l l' ok : Rep x sp → shrinks (elemAt x) l l' ok → specShrink (sElems sp) l l' ok.
Proof.
  intros [_ He _ _ _]. unfold shrinks. destruct ok.
  - intros [-> Ha]. constructor. intros i p. rewrite He, fmap_Some. intros (s & Hs & ->). by apply Ha.
  - intros (k & s & -> & Hk & Hs & Hc & Ha). apply (shrink_stop _ _ k (abs s)); [by rewrite He, Hs|done|done|].
    intros i p. rewrite He, fmap_Some. intros (t & Ht & ->). by apply Ha.
Qed.

(** Nothing lies beyond the length. *)
Lemma rep_no_shrink x sp : Rep x sp → specShrink (sElems sp) (sLen sp) (sLen sp) true ∧ below (sElems sp) (sLen sp) = sElems sp.
Proof.
  intros [HI He Hl _ _]. assert (∀ i p, sElems sp !! i = Some p → i < sLen sp) as Hb.
  { intros i p. rewrite He, fmap_Some. intros (s & Hs & _). apply elemAt_bound in Hs as [? _]; [|done]. lia. }
  split; [constructor; intros i p Hi%Hb ?; lia|]. apply map_eq. intros i. rewrite below_lookup.
  destruct (Z.ltb_spec i (sLen sp)); [done|]. destruct (sElems sp !! i) as [p|] eqn:E; [|done]. apply Hb in E. lia.
Qed.

(** *** The length, for either representation *)

(** What the length operations need of a representation. *)
Class LengthRep (A : Type) := {
  toImpl : A → arrayImpl;
  lr_setLength : A → Z → bool → A * outcome;
  lr_setW : A → bool → A;
}.

Class LengthRepLaws (A : Type) `{LengthRep A} : Prop := {
  lr_readonly a n throw :
    arrayLengthWritable (toImpl a) = false → lr_setLength a n throw = (a, reject throw "length is not writable");
  lr_truncate a n throw :
    Inv (toImpl a) → 0 ≤ n ≤ MaxUint32 → arrayLengthWritable (toImpl a) = true →
    ∃ a' l' ok, shrinks (elemAt (toImpl a)) n l' ok ∧
      lr_setLength a n throw = (a', if ok then Done true else reject throw "Cannot redefine property: length") ∧
      Upd (toImpl a) (toImpl a') (λ j, if j <? l' then elemAt (toImpl a) j else None) l';
  lr_writable a w sp : Rep (toImpl a) sp → Rep (toImpl (lr_setW a w)) (MkSpec (sElems sp) (sLen sp) w (sExt sp));
}.

#[global] Instance arrayLengthRep : LengthRep arrayObject := {|
  toImpl := Dense; lr_setLength := array_setLength; lr_setW := array_setW |}.
#[global] Instance sparseLengthRep : LengthRep sparseArrayObject := {|
  toImpl := Sparse; lr_setLength := sparse_setLength; lr_setW := sparse_setW |}.

#[global] Instance arrayLengthRepLaws : LengthRepLaws arrayObject.
Proof.
  split; cbn; unfold array_setLength.
  - by intros a n throw ->.
  - intros a n throw HI Hn ->. cbn [negb]. destruct (array_setLengthInt_spec a n throw HI Hn) as (a' & l' & ok & ? & -> & ? & ? & ? & ? & Hb).
    exists a', l', ok. do 2 (split; [done|]). split; try done. cbn. by rewrite Hb.
  - intros a w sp [HI H2 H3 H4 H5]. split; [|done..]. destruct HI. by split.
Qed.

#[global] Instance sparseLengthRepLaws : LengthRepLaws sparseArrayObject.
Proof.
  split; cbn; unfold sparse_setLength.
  - by intros a n throw ->.
  - intros a n throw HI Hn ->. cbn [negb]. destruct (sparse_setLengthInt_spec a n throw HI Hn) as (a' & l' & ok & ? & -> & ? & ? & ? & ? & Hb).
    exists a', l', ok. do 2 (split; [done|]). split; try done. cbn. by rewrite Hb.
  - intros a w sp [HI H2 H3 H4 H5]. split; [|done..]. destruct HI. by split.
Qed.

(** The flags and accessors that defineArrayLength refuses outright. *)
Definition badLengthDesc (d : PropertyDescriptor) : bool :=
  match dConfigurable d with Some true => true | _ => false end
  || match dEnumerable d with Some true => true | _ => false end
  || isSome (dGetter d) || isSome (dSetter d).

Lemma lengthProp_validate se ext len w n dw dc de dg ds :
  validateAndApply se ext (Some (SData (intV len) w false false)) (MkDesc (intV <$> n) dw dc de dg ds) =
  if badLengthDesc (MkDesc None dw dc de dg ds) then None
  else if w || (match dw with Some true => false | _ => true end && match n with Some n => n =? len | None => true end)
  then Some (SData (intV (default len n)) (default w dw) false false) else None.
Proof.
  unfold validateAndApply, badLengthDesc, specValid, specApply, IsGeneric, IsAccessor, IsData. cbn.
  destruct dc as [[]|]; cbn; [done| |]; (destruct de as [[]|]; cbn; [done| |]);
    (destruct dg; cbn; [by destruct ds, n, dw|]); (destruct ds; cbn; [by destruct n, dw|]);
    destruct n as [n|], dw as [[]|], w; cbn; try done; by destruct (n =? len).
Qed.

Section length_refinement.
Context {A : Type} `{LengthRepLaws A} (selfEqual : positive → positive → bool) (toLen : Value → result Z).
Hypothesis toLen_range : ∀ v n, toLen v = Ok n → 0 ≤ n ≤ MaxUint32.

Lemma setLength_rep (a : A) sp n throw :
  Rep (toImpl a) sp → 0 ≤ n ≤ MaxUint32 → sLenW sp = true →
  ∃ a' l' ok, specShrink (sElems sp) n l' ok ∧
    lr_setLength a n throw = (a', if ok then Done true else reject throw "Cannot redefine property: length") ∧
    Rep (toImpl a') (MkSpec (below (sElems sp) l') l' true (sExt sp)).
Proof.
  intros HR Hn Hw. rewrite (rep_lenW _ _ HR) in Hw.
  destruct (lr_truncate a n throw (rep_inv _ _ HR) Hn Hw) as (a' & l' & ok & Hsh & He & [U1 U2 U3 U4 U5]).
  exists a', l', ok. split; [by eapply rep_shrinks|]. split; [done|]. apply (rep_shrunk (toImpl a)); try done. by rewrite U4.
Qed.

Lemma setOwnLength_refines (a : A) sp v throw :
  Rep (toImpl a) sp → sLenW sp = true ∨ (∃ n, toLen v = Ok n) →
  let r := setOwnLength toLen lr_setLength a v throw in
  ∃ sp' so, specStep selfEqual toLen sp (OSetLength v throw) sp' so ∧ Rep (toImpl r.1) sp' ∧ reports throw so r.2.
Proof.
  intros HR Hv. unfold setOwnLength. destruct (sLenW sp) eqn:Hw.
  - destruct (toLen v) as [n|e] eqn:Hn; cbn zeta.
    + destruct (setLength_rep a sp n throw HR (toLen_range _ _ Hn) Hw) as (a' & l' & ok & Hsh & -> & HR').
      eexists _, _. split; [|split; [exact HR'|]].
      * apply step_length; [done|]. apply (setLength_done _ _ _ _ (Some (intV n)) n true l' ok); [by exists n| |done].
        rewrite Hw. by rewrite (lengthProp_validate _ _ _ _ (Some n)).
      * destruct ok; [done|]. destruct throw; [by eexists|done].
    + exists sp, (SThrow e). split; [|done]. apply step_length; [done|]. by apply (setLength_range _ _ _ _ v).
  - destruct Hv as [|[n Hn]]; [done|]. rewrite Hn. cbn zeta. rewrite lr_readonly by (by rewrite <- (rep_lenW _ _ HR)).
    exists sp, SRefused. split; [by apply step_length_readonly|]. split; [done|]. destruct throw; [by eexists|done].
Qed.

Lemma reports_result throw (ok : bool) msg : reports throw (if ok then SOk else SRefused) (if ok then Done true else reject throw msg).
Proof. destruct ok; [done|]. destruct throw; [by eexists|done]. Qed.

Lemma rep_same_w x sp : Rep x sp → Rep x (MkSpec (below (sElems sp) (sLen sp)) (sLen sp) (sLenW sp) (sExt sp)).
Proof. intros HR. destruct (rep_no_shrink _ _ HR) as [_ ->]. by destruct sp. Qed.

(** The last step of defineArrayLength: [writable]. *)
Lemma defineWritable_rep (a : A) sp (ret : bool) (dw : Flag) msg throw :
  Rep (toImpl a) sp → (match dw with Some true => sLenW sp | _ => true end = true) →
  let r := match dw with
           | None => (a, if ret then Done true else reject throw msg)
           | Some w => if sLenW sp then (lr_setW a w, if ret then Done true else reject throw msg)
                       else if w then (a, reject throw msg) else (a, if ret then Done true else reject throw msg)
           end in
  Rep (toImpl r.1) (MkSpec (sElems sp) (sLen sp) (default (sLenW sp) dw) (sExt sp)) ∧
  reports throw (if ret then SOk else SRefused) r.2.
Proof.
  intros HR Hw. destruct dw as [w|]; cbn [default]; [|split; [by destruct sp|apply reports_result]].
  destruct (sLenW sp) eqn:E; [split; [by apply lr_writable|apply reports_result]|].
  destruct w; [done|]. split; [cbn; rewrite <- E; by destruct sp|apply reports_result].
Qed.

(** The value of the descriptor, converted. *)
Definition converted (d : PropertyDescriptor) (n : option Z) : Prop :=
  match dValue d with Some v => ∃ m, toLen v = Ok m ∧ n = Some m | None => n = None end.

Lemma converted_intV d n :
  converted d n →
  match dValue d with Some v => ∃ k, toLen v = Ok k ∧ intV <$> n = Some (intV k) | None => intV <$> n = None end.
Proof. unfold converted. destruct (dValue d); [intros (m & ? & ->); by exists m|by intros ->]. Qed.

Lemma specLength_refused sp d n :
  converted d n →
  badLengthDesc d = true ∨ (sLenW sp = false ∧ (dWritable d = Some true ∨ ∃ m, n = Some m ∧ m ≠ sLen sp)) →
  specSetLength selfEqual toLen sp d sp SRefused.
Proof.
  intros Hn Hr. apply setLength_refused with (v := intV <$> n); [by apply converted_intV|]. rewrite lengthProp_validate.
  change (badLengthDesc (MkDesc None _ _ _ _ _)) with (badLengthDesc d). destruct (badLengthDesc d); [done|].
  destruct Hr as [|[-> Hr]]; [done|]. destruct Hr as [->|(m & -> & Hm)]; [done|].
  rewrite (proj2 (Z.eqb_neq m (sLen sp))) by done. by destruct (dWritable d) as [[]|].
Qed.

Lemma specLength_done sp d n l ok :
  converted d n → badLengthDesc d = false →
  sLenW sp = true ∨ (dWritable d ≠ Some true ∧ default (sLen sp) n = sLen sp) →
  specShrink (sElems sp) (default (sLen sp) n) l ok →
  specSetLength selfEqual toLen sp d (MkSpec (below (sElems sp) l) l (default (sLenW sp) (dWritable d)) (sExt sp))
    (if ok then SOk else SRefused).
Proof.
  intros Hn Hb Hw Hsh. apply setLength_done with (v := intV <$> n) (newLen := default (sLen sp) n);
    [by apply converted_intV| |done]. rewrite lengthProp_validate.
  change (badLengthDesc (MkDesc None _ _ _ _ _)) with (badLengthDesc d). rewrite Hb.
  destruct Hw as [->|[Hdw Hd]]; [done|]. destruct n as [m|]; cbn in *; [subst m; rewrite Z.eqb_refl|];
    destruct (dWritable d) as [[]|]; try done; by rewrite orb_true_r.
Qed.

Lemma defineLength_refines (a : A) sp d throw :
  Rep (toImpl a) sp →
  let r := defineArrayLength toLen lr_setLength lr_setW (sLen sp) (sLenW sp) a d throw in
  ∃ sp' so, specSetLength selfEqual toLen sp d sp' so ∧ Rep (toImpl r.1) sp' ∧ reports throw so r.2.
Proof.
  intros HR. unfold defineArrayLength. fold (badLengthDesc d).
  assert ((∃ n, converted d n ∧ (match dValue d with Some v => toLen v | None => Ok 0 end) = Ok (default 0 n) ∧
             isSome (dValue d) = isSome n ∧ (∀ m, n = Some m → 0 ≤ m ≤ MaxUint32)) ∨
          (∃ v e, dValue d = Some v ∧ toLen v = Throw e)) as [(n & Hn & -> & -> & Hrange)|(v & e & Hv & He)].
  { unfold converted. destruct (dValue d) as [v|]; [|by left; exists None]. destruct (toLen v) as [m|e] eqn:Em; [left|right; eauto].
    exists (Some m). split; [by exists m|]. do 2 (split; [done|]). intros ? [= <-]. by eapply toLen_range. }
  2: { rewrite Hv, He. cbn zeta. exists sp, (SThrow e). split; [|done]. by apply setLength_range with v. }
  assert (∀ o, badLengthDesc d = true ∨ (sLenW sp = false ∧ (dWritable d = Some true ∨ ∃ m, n = Some m ∧ m ≠ sLen sp)) →
    o = reject throw "Cannot redefine property: length" →
    ∃ sp' so, specSetLength selfEqual toLen sp d sp' so ∧ Rep (toImpl a) sp' ∧ reports throw so o) as Hrefuse.
  { intros o Hb ->. exists sp, SRefused. split; [by eapply specLength_refused|]. split; [done|].
    apply (reports_result throw false). }
  destruct (badLengthDesc d) eqn:Hb; [by apply Hrefuse; [left|]|].
  destruct (isSome n && negb (sLen sp =? default 0 n)) eqn:Hset.
  - destruct n as [m|]; [|done]. cbn [isSome default andb from_option id] in *. apply negb_true_iff, Z.eqb_neq in Hset.
    destruct (sLenW sp) eqn:Hw.
    + destruct (setLength_rep a sp m false HR (Hrange m eq_refl) Hw) as (a' & l' & ok & Hsh & -> & HR').
      destruct (defineWritable_rep a' _ ok (dWritable d) "Cannot redefine property: length" throw HR') as [HR'' Ho];
        [by destruct (dWritable d) as [[]|]|]. cbn [sElems sLen sLenW sExt] in *.
      eexists _, _. split; [apply (specLength_done sp d (Some m) l' ok); [done|done|by left|done]|].
      rewrite Hw. destruct ok; by split.
    + rewrite lr_readonly by (by rewrite <- (rep_lenW _ _ HR)). cbn [reject].
      assert (∃ m', Some m = Some m' ∧ m' ≠ sLen sp) as Hm by eauto.
      destruct (dWritable d) as [[]|]; apply Hrefuse; auto.
  - assert (default (sLen sp) n = sLen sp) as Hd.
    { destruct n as [m|]; [|done]. cbn in *. apply negb_false_iff, Z.eqb_eq in Hset. done. }
    destruct (decide (sLenW sp = false ∧ dWritable d = Some true)) as [[Hw Hdw]|Hnot].
    { rewrite Hw, Hdw in *. apply Hrefuse; auto. }
    destruct (defineWritable_rep a sp true (dWritable d) "Cannot redefine property: length" throw HR) as [HR' Ho].
    { destruct (dWritable d) as [[]|]; try done. destruct (sLenW sp); [done|]. by exfalso; apply Hnot. }
    destruct (rep_no_shrink _ _ HR) as [Hsh Hbelow].
    eexists _, _. split; [apply (specLength_done sp d n (sLen sp) true); [done|done| |by rewrite Hd]|].
    + destruct (sLenW sp); [by left|right]. split; [|done]. intros Hdw. by apply Hnot.
    + rewrite Hbelow. by split.
Qed.
End length_refinement.

(** *** Elements *)

Definition withLen (a : arrayObject) (l : Z) : arrayObject :=
  MkArray (base a) (backing a) (vlen a) l (objCount a) (propValueCount a) (lengthWritable a).
Definition swithLen (a : sparseArrayObject) (l : Z) : sparseArrayObject :=
  MkSparse (sbase a) (items a) l (spropValueCount a) (slengthWritable a).

Lemma withLen_inv a l : InvD a → alength a ≤ l ≤ MaxUint32 → InvD (withLen a l).
Proof. intros [H1 H0 H2 H3 H4 H5] Hl. split; cbn; try done. lia. Qed.

Lemma swithLen_inv a l : InvS a → slength a ≤ l ≤ MaxUint32 → InvS (swithLen a l).
Proof.
  intros [H1 H2 H3 H4] Hl. split; cbn; [done| |lia|done]. eapply Forall_impl; [exact H2|]. cbn. intros it [? ?]. split; [lia|done].
Qed.

(** The length after an element is added at [idx]. *)
Lemma array_lenStep a idx throw :
  InvD a → 0 ≤ idx < MaxUint32 →
  (if alength a <=? idx then array_setLengthInt a (uwrap 32 (idx + 1)) throw else (a, Done true)) =
  if (alength a <=? idx) && negb (lengthWritable a) then (a, reject throw "length is not writable")
  else (withLen a (Z.max (alength a) (idx + 1)), Done true).
Proof.
  intros HI Hidx. rewrite u32_succ by done. destruct (Z.leb_spec (alength a) idx) as [E|E]; cbn [andb].
  - unfold array_setLengthInt. zcmp. destruct (negb (lengthWritable a)); [done|].
    rewrite array_setLengthInt_grow by (done || lia). rewrite Z.max_r by lia. done.
  - rewrite Z.max_l by lia. by destruct a.
Qed.

Lemma sparse_lenStep a idx throw :
  InvS a → 0 ≤ idx < MaxUint32 →
  (if slength a <=? idx then sparse_setLengthInt a (uwrap 32 (idx + 1)) throw else (a, Done true)) =
  if (slength a <=? idx) && negb (slengthWritable a) then (a, reject throw "length is not writable")
  else (swithLen a (Z.max (slength a) (idx + 1)), Done true).
Proof.
  intros HI Hidx. rewrite u32_succ by done. destruct (Z.leb_spec (slength a) idx) as [E|E]; cbn [andb].
  - unfold sparse_setLengthInt. zcmp. destruct (negb (slengthWritable a)); [done|].
    rewrite sparse_setLengthInt_grow by (done || lia). rewrite Z.max_r by lia. done.
  - rewrite Z.max_l by lia. by destruct a.
Qed.

Definition switches (x : arrayImpl) (idx : Z) : bool :=
  match x with
  | Dense a => match array_expand a idx with inl _ => false | inr _ => true end
  | Sparse a => match sparse_expand a idx with inl _ => false | inr _ => true end
  end.

Lemma switches_withLen a l idx : switches (Dense (withLen a l)) idx = switches (Dense a) idx.
Proof.
  unfold switches, array_expand. cbn. repeat case_match; done || congruence.
Qed.

Lemma switches_swithLen a l idx : switches (Sparse (swithLen a l)) idx = switches (Sparse a) idx.
Proof. unfold switches, sparse_expand. cbn. repeat case_match; done || congruence. Qed.

Lemma array_expand_same a idx : InvD a → 0 ≤ idx < Z.of_nat (vlen a) → array_expand a idx = inl a.
Proof.
  intros HI Hidx. pose proof (id_len a HI). unfold array_expand. rewrite u32_vlen, u32_succ by (done || lia).
  by zcmp.
Qed.

Lemma array_count_0 a : array_count a 0 0 = a.
Proof. destruct a. unfold array_count. cbn. by rewrite !Z.add_0_r. Qed.

(** Storing into a dense array, growing it or switching it if need be. *)
Lemma dense_put a idx s dp :
  InvD a → 0 ≤ idx < alength a → wfSlot s → (switches (Dense a) idx = true → propInc s = 0) →
  countP (avalues a) - cnt (atIdx (avalues a) idx) + propInc s ≤ propValueCount a + dp →
  Upd (Dense a) (match array_expand a idx with
                 | inl a' => Dense (array_store (array_count a' 1 dp) idx (Some s))
                 | inr sa => Sparse (sparse_add sa idx s)
                 end) (setAt (Dense a) idx (Some s)) (alength a).
Proof.
  intros HI Hidx Hs Hsw Hc. pose proof (array_expand_spec a idx HI Hidx) as He. unfold switches in Hsw.
  destruct (array_expand a idx) as [a'|sa].
  - destruct He as [G1 G2 G3 G4 (G5 & G6 & G7 & G8)].
    destruct (store_inv a' idx (Some s) 1 dp) as [S1 S2]; [done|lia|by intros ? [= <-]|rewrite G4, G3, G6; done|].
    split; cbn; [done| |done|done|by rewrite G8]. intros j. rewrite S2, G3. done.
  - destruct He as [[P1 P2 P3 (P4 & P5 & P6 & P7)] Hge]. specialize (Hsw eq_refl).
    destruct (findIdx_zip sa idx P1) as (l1 & o & l2 & Hz & Hk & _ & Ho).
    assert (o = None) as -> by (rewrite <- Ho, P2; apply atIdx_ge; rewrite length_avalues by done; lia).
    destruct (zip_inv sa idx l1 None l2 (Some s) (sbase sa) (spropValueCount sa) (slengthWritable sa) P1 Hz) as [S1 S2];
      [lia|by intros ? [= <-]|cbn; rewrite P3, P5; pose proof (id_cnt a HI); lia|].
    unfold sparse_add, sparse_withItems, insertItem. rewrite Hk, (zip_items _ _ _ _ _ Hz). cbn [mid app] in *.
    rewrite take_app_length, drop_app_length.
    split; cbn [Inv elemAt arrayLength arrayLengthWritable arrayBase sbase slength slengthWritable items]; [exact S1| |done|done|done].
    intros j. rewrite S2, P2. done.
Qed.

(** Adding an item to a sparse array or to the dense array it becomes. *)
Lemma sparse_put a idx s dobj dp :
  InvS a → 0 ≤ idx < slength a → itemAt (items a) idx = None → wfSlot s →
  (switches (Sparse a) idx = true → propInc s = 0) → propInc s ≤ dp →
  Upd (Sparse a) (match sparse_expand a idx with
                  | inl a => Sparse (MkSparse (sbase a) (insertItem (items a) (findIdx a idx) idx s) (slength a)
                                       (spropValueCount a + dp) (slengthWritable a))
                  | inr ar => Dense (array_store (array_count ar dobj 0) idx (Some s))
                  end) (setAt (Sparse a) idx (Some s)) (slength a).
Proof.
  intros HI Hidx Hn Hs Hsw Hdp. pose proof (sparse_expand_spec a idx HI Hidx) as He. unfold switches in Hsw.
  destruct (sparse_expand a idx) as [a'|ar].
  - subst a'. destruct (findIdx_zip a idx HI) as (l1 & o & l2 & Hz & Hk & _ & Ho). rewrite Hn in Ho. subst o.
    destruct (zip_inv a idx l1 None l2 (Some s) (sbase a) (spropValueCount a + dp) (slengthWritable a) HI Hz) as [S1 S2];
      [done|by intros ? [= <-]|cbn; pose proof (is_cnt a HI); lia|].
    unfold insertItem. rewrite Hk, (zip_items _ _ _ _ _ Hz). cbn [mid app] in *. rewrite take_app_length, drop_app_length.
    split; cbn [Inv elemAt arrayLength arrayLengthWritable arrayBase sbase slength slengthWritable items]; [exact S1|exact S2|done..].
  - destruct He as [D1 D2 D3 D4 (D5 & D6 & D7 & D8)]. specialize (Hsw eq_refl).
    destruct (store_inv ar idx (Some s) dobj 0) as [S1 S2]; [done|lia|by intros ? [= <-]|cbn; rewrite D3, Hn, D4, D6; pose proof (is_cnt a HI); cbn; lia|].
    split; cbn; [done| |done|done|done]. intros j. rewrite S2, D3. done.
Qed.

(** Replacing an item. *)
Lemma sparse_setItem_upd a idx old s dp :
  InvS a → itemAt (items a) idx = Some old → wfSlot s → propInc s ≤ propInc old + dp →
  Upd (Sparse a) (Sparse (MkSparse (sbase a) (<[findIdx a idx := (idx, s)]> (items a)) (slength a) (spropValueCount a + dp)
                            (slengthWritable a))) (setAt (Sparse a) idx (Some s)) (slength a).
Proof.
  intros HI Hold Hs Hdp. destruct (elemAt_bound_S a idx old HI Hold) as [Hidx _].
  destruct (findIdx_zip a idx HI) as (l1 & o & l2 & Hz & Hk & _ & Ho). rewrite Hold in Ho. subst o.
  destruct (zip_inv a idx l1 (Some old) l2 (Some s) (sbase a) (spropValueCount a + dp) (slengthWritable a) HI Hz) as [S1 S2];
    [done|by intros ? [= <-]|cbn; pose proof (is_cnt a HI); lia|].
  rewrite Hk. assert (<[length l1 := (idx, s)]> (items a) = l1 ++ mid idx (Some s) ++ l2) as ->.
  { rewrite (zip_items _ _ _ _ _ Hz), insert_app_r_alt, Nat.sub_diag by lia. done. }
  split; cbn [Inv elemAt arrayLength arrayLengthWritable arrayBase sbase slength slengthWritable items]; [exact S1|exact S2|done..].
Qed.

Lemma reject_reports throw msg : reports throw SRefused (reject throw msg).
Proof. destruct throw; [by eexists|done]. Qed.
#[export] Hint Resolve reject_reports reports_result rep_upd rep_delete : sobek.

Section element_refinement.
Context (selfEqual : positive → positive → bool) (callable : positive → bool) (toLen : Value → result Z).
Hypothesis callable_identity : ∀ p q, callable p = true → selfEqual p q = true → p = q.
Hypothesis toLen_range : ∀ v n, toLen v = Ok n → 0 ≤ n ≤ MaxUint32.

Definition isPlain (d : PropertyDescriptor) : bool :=
  match dWritable d, dEnumerable d, dConfigurable d, dValue d with
  | Some true, Some true, Some true, Some _ => true
  | _, _, _, _ => false
  end.

(** When the operations are covered: indices are array indices, descriptors well
    formed and not among the redefinitions of Property.v that leave stale fields;
    the length assigned to a read-only length is one the conversion accepts; and a
    new element that switches the representation is not a property object. *)
Definition okOp (x : arrayImpl) (op : arrayOp) : Prop :=
  match op with
  | OSet idx _ _ _ | ODelete idx _ => 0 ≤ idx < MaxUint32
  | ODefine idx d _ =>
      0 ≤ idx < MaxUint32 ∧ wfDesc callable d ∧
      (∀ s, arrayGet x idx = Some s → keepsGetter s d = false ∧ keepsWritable s d = false) ∧
      (arrayGet x idx = None → switches x idx = true → isPlain d = true)
  | OSetLength v _ => arrayLengthWritable x = true ∨ ∃ n, toLen v = Ok n
  | ODefineLength _ _ => True
  end.

Lemma define_plain ext cur d s :
  isPlain d = true → _defineOwnProperty selfEqual callable ext cur d false = Ok (Some s) → propInc s = 0.
Proof.
  unfold isPlain, _defineOwnProperty. destruct (isCompatiblePropertyDescriptor _ _ _ _ _) as [[]|]; cbn; try done.
  destruct (dWritable d) as [[]|], (dEnumerable d) as [[]|], (dConfigurable d) as [[]|], (dValue d); try done.
  by intros _ [= <-].
Qed.

(** An element is defined as [s]: in every case the result is the updated array. *)
Lemma array_define_ok x idx d throw s :
  Inv x → 0 ≤ idx < MaxUint32 → wfSlot s →
  (∀ t, _defineOwnProperty selfEqual callable (extensible (arrayBase x)) (elemAt x idx) d t = Ok (Some s)) →
  (elemAt x idx = None → switches x idx = true → propInc s = 0) →
  let r := arrayStep selfEqual callable toLen x (ODefine idx d throw) in
  if (arrayLength x <=? idx) && negb (arrayLengthWritable x) then r = (x, reject throw "length is not writable")
  else r.2 = Done true ∧ Upd x r.1 (setAt x idx (Some s)) (Z.max (arrayLength x) (idx + 1)).
Proof.
  intros HI Hidx Hs Hdef Hsw. pose proof (arrayLength_range x HI) as Hlen.
  destruct x as [a|a]; cbn [arrayStep arrayLength arrayLengthWritable arrayBase Inv] in *; cbn zeta.
  - unfold array_defineIdxProperty. rewrite (array_get_elem a idx) by (done || lia). cbn [elemAt] in *. rewrite Hdef.
    rewrite array_lenStep by done. destruct (_ && _); [by destruct throw|].
    set (a' := withLen a (Z.max (alength a) (idx + 1))).
    assert (InvD a') as HI' by (apply withLen_inv; [done|lia]).
    destruct (dense_put a' idx s (propInc s)) as [U1 U2 U3 U4 U5]; [done|cbn; lia|done| | |].
    + unfold a'. rewrite switches_withLen. intros Hx. apply Hsw; [|done]. destruct (atIdx (avalues a) idx) as [old|] eqn:Eo; [|done].
      destruct (elemAt_bound_D a idx old HI Eo) as [Hb _]. unfold switches in Hx. by rewrite array_expand_same in Hx.
    + pose proof (id_cnt a' HI'). pose proof (cnt_range (atIdx (avalues a') idx)). lia.
    + destruct (array_expand a' idx); (split; [done|]); by split.
  - unfold sparse_defineIdxProperty. destruct (findIdx_zip a idx HI) as (_ & o & _ & _ & _ & Hg & Ho).
    rewrite Hg. cbn [elemAt] in *. rewrite <- Ho, Hdef. rewrite sparse_lenStep by done. destruct (_ && _); [by destruct throw|].
    set (a' := swithLen a (Z.max (slength a) (idx + 1))). assert (InvS a') as HI' by (apply swithLen_inv; [done|lia]).
    change (sparse_get a' idx) with (sparse_get a idx). change (findIdx a idx) with (findIdx a' idx). rewrite Hg.
    destruct o as [old|].
    + destruct (sparse_setItem_upd a' idx old s (propInc s) HI' Ho Hs) as [U1 U2 U3 U4 U5]; [pose proof (cnt_range (Some old)); cbn in *; lia|].
      split; [done|]. by split.
    + destruct (sparse_put a' idx s 0 (propInc s)) as [U1 U2 U3 U4 U5]; [done|cbn; lia|done|done| |done|].
      { unfold a'. rewrite switches_swithLen. by apply Hsw. }
      destruct (sparse_expand a' idx) as [a''|ar] eqn:Ex.
      * assert (a'' = a') as ->. { pose proof (sparse_expand_spec a' idx HI' ltac:(cbn; lia)) as He. by rewrite Ex in He. }
        split; [done|]. cbn [sparse_withItems slength].
        replace (slength a' <=? idx) with false by (symmetry; apply Z.leb_gt; cbn; lia). by split.
      * rewrite array_count_0 in *. split; [done|]. by split.
Qed.

Lemma define_refines x sp idx d throw :
  Rep x sp → okOp x (ODefine idx d throw) →
  let r := arrayStep selfEqual callable toLen x (ODefine idx d throw) in
  ∃ sp' so, specDefine selfEqual sp idx d = (sp', so) ∧ Rep r.1 sp' ∧ reports throw so r.2.
Proof.
  intros HR (Hidx & Hd & Hkeep & Hplain). pose proof (rep_inv _ _ HR) as HI. rewrite arrayGet_elem in * by (done || lia).
  assert (∀ s, elemAt x idx = Some s → wfSlot s) as Hwf by (intros s Hs; by eapply elemAt_bound).
  unfold specDefine. rewrite (rep_elems _ _ HR), (rep_len _ _ HR), (rep_lenW _ _ HR), (rep_ext _ _ HR).
  destruct (validateAndApply selfEqual _ (abs <$> elemAt x idx) d) as [p|] eqn:Ev.
  - destruct (define_applied selfEqual callable callable_identity _ _ d p Hwf Hd Ev) as (s & Hdef & <- & Hs).
    pose proof (array_define_ok x idx d throw s HI Hidx (Hs Hkeep) Hdef) as Hr. cbn zeta in *.
    destruct (_ && _).
    + exists sp, SRefused. rewrite Hr; [|intros; eapply define_plain; [by apply Hplain|by apply Hdef]].
      split; [done|]. cbn [fst snd]; auto with sobek.
    + destruct Hr as [Ho Hu]; [intros; eapply define_plain; [by apply Hplain|by apply Hdef]|].
      rewrite Ho. eexists _, _. split; [done|]. split; [|done]. rewrite <- (rep_lenW _ _ HR), <- (rep_ext _ _ HR).
      by apply (rep_upd x).
  - destruct (define_refused selfEqual callable callable_identity _ _ d (λ s Hs, wfProp_ok _ (Hwf s Hs)) Hd Ev) as [Hf [msg Ht]].
    exists sp, SRefused. split; [by destruct (_ && _)|].
    assert (arrayStep selfEqual callable toLen x (ODefine idx d throw) = (x, if throw then Raise (TypeError msg) else Done false)) as ->.
    { rewrite <- arrayGet_elem in Hf, Ht by (done || lia).
      destruct x; cbn in *; unfold array_defineIdxProperty, sparse_defineIdxProperty; destruct throw; by rewrite ?Hf, ?Ht. }
    split; [done|]. destruct throw; [by eexists|done].
Qed.

Definition updateElem (x : arrayImpl) (idx : Z) (s : slot) : arrayImpl :=
  match x with
  | Dense a => Dense (array_store a idx (Some s))
  | Sparse a => Sparse (sparse_setItem a (findIdx a idx) idx s)
  end.

Lemma updateElem_upd x idx old s :
  Inv x → elemAt x idx = Some old → wfSlot s → propInc s ≤ propInc old →
  Upd x (updateElem x idx s) (setAt x idx (Some s)) (arrayLength x).
Proof.
  intros HI Hold Hs Hp. destruct x as [a|a]; cbn [updateElem elemAt Inv] in *.
  - destruct (elemAt_bound_D a idx old HI Hold) as [Hidx _].
    replace (array_store a idx (Some s)) with (array_store (array_count a 0 0) idx (Some s)) by (by rewrite array_count_0).
    destruct (store_inv a idx (Some s) 0 0) as [S1 S2]; [done|done|by intros ? [= <-]|rewrite Hold; cbn; pose proof (id_cnt a HI); lia|].
    by split.
  - pose proof (sparse_setItem_upd a idx old s 0 HI Hold Hs ltac:(lia)) as HU. rewrite Z.add_0_r in HU. exact HU.
Qed.

(** A new element with a plain value. *)
Lemma array_new_ok x idx v throw :
  Inv x → 0 ≤ idx < MaxUint32 → elemAt x idx = None →
  let r := arrayStep selfEqual callable toLen x (OSet idx v throw None) in
  if negb (extensible (arrayBase x)) then r = (x, reject throw "Cannot add property, object is not extensible")
  else if (arrayLength x <=? idx) && negb (arrayLengthWritable x) then r = (x, reject throw "length is not writable")
  else r.2 = Done true ∧ Upd x r.1 (setAt x idx (Some (Raw v))) (Z.max (arrayLength x) (idx + 1)).
Proof.
  intros HI Hidx Hn. pose proof (arrayLength_range x HI) as Hlen.
  destruct x as [a|a]; cbn [arrayStep arrayLength arrayLengthWritable arrayBase Inv] in *; cbn zeta.
  - unfold array_setOwnIdx. rewrite (array_get_elem a idx) by (done || lia). cbn [elemAt] in *. rewrite Hn.
    destruct (negb _); [done|]. rewrite array_lenStep by done. destruct (_ && _); [by destruct throw|].
    set (a' := withLen a (Z.max (alength a) (idx + 1))). assert (InvD a') as HI' by (apply withLen_inv; [done|lia]).
    assert ((if uwrap 32 (Z.of_nat (vlen a')) <=? idx then array_expand a' idx else inl a') = array_expand a' idx) as ->.
    { rewrite u32_vlen by done. destruct (Z.leb_spec (Z.of_nat (vlen a')) idx); [done|]. symmetry. apply array_expand_same; [done|lia]. }
    destruct (dense_put a' idx (Raw v) 0) as [U1 U2 U3 U4 U5]; [done|cbn; lia|done|done| |].
    + pose proof (id_cnt a' HI'). pose proof (cnt_range (atIdx (avalues a') idx)). change (propInc (Raw v)) with 0. lia.
    + destruct (array_expand a' idx); (split; [done|]); by split.
  - unfold sparse_setOwnIdx. destruct (findIdx_zip a idx HI) as (_ & o & _ & _ & _ & Hg & Ho).
    cbn [elemAt] in *. rewrite Hn in Ho. rewrite Hg, <- Ho. destruct (negb _); [done|].
    rewrite sparse_lenStep by done. destruct (_ && _); [by destruct throw|].
    set (a' := swithLen a (Z.max (slength a) (idx + 1))). assert (InvS a') as HI' by (apply swithLen_inv; [done|lia]).
    change (findIdx a idx) with (findIdx a' idx).
    destruct (sparse_put a' idx (Raw v) 1 0) as [U1 U2 U3 U4 U5]; [done|cbn; lia|done|done|done|cbn; lia|].
    pose proof (sparse_expand_spec a' idx HI' ltac:(cbn; lia)) as He.
    destruct (sparse_expand a' idx) as [a''|ar]; [subst a''; rewrite Z.add_0_r in *|]; (split; [done|]); by split.
Qed.

(** Assigning to an element that exists. *)
Lemma arrayStep_set_existing x idx v throw foreign s :
  Inv x → 0 ≤ idx → elemAt x idx = Some s →
  arrayStep selfEqual callable toLen x (OSet idx v throw foreign) =
    match propSet s v with
    | None => (x, reject throw "")
    | Some (inr g) => (x, CallSetter g)
    | Some (inl s') => (updateElem x idx s', Done true)
    end.
Proof.
  intros HI Hidx Hs. rewrite <- (arrayGet_elem x idx) in Hs by done.
  destruct x as [a|a]; cbn [arrayStep arrayGet] in *; unfold array_setOwnIdx, sparse_setOwnIdx; rewrite Hs;
    (destruct s as [w|p]; [done|]); by destruct (propSet (Prop_ p) v) as [[]|].
Qed.

Lemma specDefine_value sp i v x w e c :
  sElems sp !! i = Some (SData x w e c) → i < sLen sp → w = true →
  specDefine selfEqual sp i (valueDesc v) = (MkSpec (<[i := SData v w e c]> (sElems sp)) (sLen sp) (sLenW sp) (sExt sp), SOk).
Proof.
  intros Hi Hlt ->. unfold specDefine. zcmp. rewrite Hi. cbn.
  rewrite Z.max_l by lia. by destruct c.
Qed.

Lemma set_refines x sp idx v throw foreign :
  Rep x sp → 0 ≤ idx < MaxUint32 →
  let r := arrayStep selfEqual callable toLen x (OSet idx v throw foreign) in
  ∃ sp' so, specSet selfEqual sp idx v foreign = (sp', so) ∧ Rep r.1 sp' ∧ reports throw so r.2.
Proof.
  intros HR Hidx. pose proof (rep_inv _ _ HR) as HI. unfold specSet. rewrite (rep_elems _ _ HR).
  destruct (elemAt x idx) as [s|] eqn:Es; cbn [fmap option_fmap option_map].
  - destruct (elemAt_bound x idx s HI Es) as [Hb Hs]. rewrite (arrayStep_set_existing x idx v throw foreign s) by (done || lia).
    assert (∀ s' y e c, abs s = SData y true e c → abs s' = SData v true e c → wfSlot s' → propInc s' ≤ propInc s →
      ∃ sp' so, specDefine selfEqual sp idx (valueDesc v) = (sp', so) ∧ Rep (updateElem x idx s') sp' ∧ reports throw so (Done true)) as Hupd.
    { intros s' y e c Ha Ha' Hs' Hp. rewrite (specDefine_value sp idx v y true e c); [|by rewrite (rep_elems _ _ HR), Es; cbn; rewrite Ha|rewrite (rep_len _ _ HR); lia|done].
      eexists _, _. split; [done|]. split; [|done]. rewrite <- Ha'. rewrite (rep_len _ _ HR). apply (rep_upd x); [done|].
      by eapply updateElem_upd. }
    destruct s as [y|p]; [cbn; by eapply (Hupd (Raw v))|].
    unfold wfSlot, wfProp, abs in *. cbn in Hs |- *. destruct p as [y w c e a g st]. unfold isWritable. cbn in *. destruct a; cbn.
    + destruct Hs as [_ ->]. destruct st as [st|]; cbn; eexists _, _; (split; [done|]); (split; [done|]); [done|apply reject_reports].
    + destruct Hs as (Hy & -> & ->). destruct w; cbn; [|eexists _, _; split; [done|]; cbn [fst snd]; auto with sobek].
      by eapply (Hupd (Prop_ _)).
  - destruct foreign as [o|].
    + exists sp, (SForeign o). split; [done|]. rewrite <- (arrayGet_elem x idx) in Es by (done || lia).
      destruct x; cbn in *; unfold array_setOwnIdx, sparse_setOwnIdx; by rewrite Es.
    + pose proof (array_new_ok x idx v throw HI Hidx Es) as Hr. cbn zeta in Hr. unfold specDefine.
      rewrite (rep_elems _ _ HR), Es, (rep_len _ _ HR), (rep_lenW _ _ HR), (rep_ext _ _ HR). cbn [fmap option_fmap option_map validateAndApply].
      destruct (extensible (arrayBase x)) eqn:Ex; cbn [negb] in Hr.
      * destruct (_ && _); [rewrite Hr; exists sp, SRefused; split; [done|]; cbn [fst snd]; auto with sobek|].
        destruct Hr as [-> Hu]. eexists _, _. split; [done|]. split; [|done]. rewrite <- (rep_lenW _ _ HR), <- Ex, <- (rep_ext _ _ HR).
        by apply (rep_upd x) with (s := Raw v).
      * rewrite Hr. exists sp, SRefused. split; [by destruct (_ && _)|]. cbn [fst snd]; auto with sobek.
Qed.

(** Deleting a configurable element. *)
Lemma array_delete_ok x idx throw s :
  Inv x → 0 ≤ idx < MaxUint32 → elemAt x idx = Some s → specC (abs s) = true →
  ∃ x', arrayStep selfEqual callable toLen x (ODelete idx throw) = (x', Done true) ∧ Upd x x' (setAt x idx None) (arrayLength x).
Proof.
  intros HI Hidx Hs Hc. pose proof Hs as Hg. rewrite <- (arrayGet_elem x idx) in Hg by (done || lia).
  destruct x as [a|a]; cbn [arrayStep arrayGet elemAt Inv] in *.
  - destruct (elemAt_bound_D a idx s HI Hs) as [Hb _]. unfold array_deleteIdxProp. rewrite Hg.
    destruct (store_inv a idx None (-1) (- propInc s)) as [S1 S2]; [done|done|done|rewrite Hs; cbn; pose proof (id_cnt a HI); lia|].
    destruct s as [y|p]; [|rewrite specC_Prop in Hc; rewrite Hc]; (eexists; split; [done|]); by split.
  - destruct (elemAt_bound_S a idx s HI Hs) as [Hb _]. unfold sparse_deleteIdxProp. rewrite Hg.
    destruct (findIdx_zip a idx HI) as (l1 & o & l2 & Hz & Hk & _ & Ho). rewrite Hs in Ho. subst o. rewrite Hk.
    destruct (zip_inv a idx l1 (Some s) l2 None (sbase a) (spropValueCount a + - propInc s) (slengthWritable a) HI Hz) as [S1 S2];
      [done|done|cbn; pose proof (is_cnt a HI); lia|].
    assert (take (length l1) (items a) ++ drop (S (length l1)) (items a) = l1 ++ mid idx None ++ l2) as ->.
    { rewrite (zip_items _ _ _ _ _ Hz), take_app_length, drop_app_ge by lia. by replace (S (length l1) - length l1)%nat with 1%nat by lia. }
    destruct s as [y|p]; [|rewrite specC_Prop in Hc; rewrite Hc]; (eexists; split; [done|]);
      (split; cbn [Inv elemAt arrayLength arrayLengthWritable arrayBase sbase slength slengthWritable items]; [exact S1|exact S2|done..]).
Qed.

Lemma delete_refines x sp idx throw :
  Rep x sp → 0 ≤ idx < MaxUint32 →
  let r := arrayStep selfEqual callable toLen x (ODelete idx throw) in
  ∃ sp' so, specDelete sp idx = (sp', so) ∧ Rep r.1 sp' ∧ reports throw so r.2.
Proof.
  intros HR Hidx. pose proof (rep_inv _ _ HR) as HI. unfold specDelete. rewrite (rep_elems _ _ HR).
  destruct (elemAt x idx) as [s|] eqn:Es; cbn [fmap option_fmap option_map].
  - destruct (specC (abs s)) eqn:Ec.
    + destruct (array_delete_ok x idx throw s HI Hidx Es Ec) as (x' & -> & HU). eexists _, _. split; [done|]. split; [by eapply rep_delete|done].
    + exists sp, SRefused. split; [done|]. rewrite <- (arrayGet_elem x idx) in Es by (done || lia). destruct s as [|p]; [done|].
      rewrite specC_Prop in Ec. destruct x; cbn in *; unfold array_deleteIdxProp, sparse_deleteIdxProp; rewrite Es, Ec;
        (split; [done|apply reject_reports]).
  - exists sp, SOk. split; [done|]. rewrite <- (arrayGet_elem x idx) in Es by (done || lia).
    destruct x; cbn in *; unfold array_deleteIdxProp, sparse_deleteIdxProp; by rewrite Es.
Qed.

Lemma arrayStep_refines x sp op :
  Rep x sp → okOp x op →
  let r := arrayStep selfEqual callable toLen x op in
  ∃ sp' so, specStep selfEqual toLen sp op sp' so ∧ Rep r.1 sp' ∧ reports (throws op) so r.2.
Proof.
  intros HR Hok. destruct op as [i v t f|i t|i d t|v t|d t]; cbn [throws okOp] in *.
  - destruct (set_refines x sp i v t f HR Hok) as (sp' & so & He & ? & ?). exists sp', so.
    pose proof (step_set selfEqual toLen sp i v t f) as Hst. by rewrite He in Hst.
  - destruct (delete_refines x sp i t HR Hok) as (sp' & so & He & ? & ?). exists sp', so.
    pose proof (step_delete selfEqual toLen sp i t) as Hst. by rewrite He in Hst.
  - destruct (define_refines x sp i d t HR Hok) as (sp' & so & He & ? & ?). exists sp', so.
    pose proof (step_define selfEqual toLen sp i d t) as Hst. by rewrite He in Hst.
  - rewrite <- (rep_lenW _ _ HR) in Hok.
    destruct x as [a|a];
      [exact (setOwnLength_refines (A := arrayObject) selfEqual toLen toLen_range a sp v t HR Hok)
      |exact (setOwnLength_refines (A := sparseArrayObject) selfEqual toLen toLen_range a sp v t HR Hok)].
  - destruct x as [a|a]; cbn [arrayStep];
      [pose proof (defineLength_refines (A := arrayObject) selfEqual toLen toLen_range a sp d t HR) as Hd
      |pose proof (defineLength_refines (A := sparseArrayObject) selfEqual toLen toLen_range a sp d t HR) as Hd];
      rewrite (rep_len _ _ HR), (rep_lenW _ _ HR) in Hd; destruct Hd as (sp' & so & ? & ? & ?); exists sp', so; by split; [constructor|].
Qed.

(** A run of operations and the outcomes they report. *)
Fixpoint arrayRun (x : arrayImpl) (ops : list arrayOp) : arrayImpl * list outcome :=
  match ops with
  | [] => (x, [])
  | op :: ops =>
      let '(x, o) := arrayStep selfEqual callable toLen x op in
      let '(x, os) := arrayRun x ops in (x, o :: os)
  end.

Inductive specRun (sp : specArray) : list arrayOp → specArray → list specOutcome → Prop :=
  | run_nil : specRun sp [] sp []
  | run_cons op ops sp1 sp2 so sos :
      specStep selfEqual toLen sp op sp1 so → specRun sp1 ops sp2 sos → specRun sp (op :: ops) sp2 (so :: sos).

Fixpoint okRun (x : arrayImpl) (ops : list arrayOp) : Prop :=
  match ops with
  | [] => True
  | op :: ops => okOp x op ∧ okRun (arrayStep selfEqual callable toLen x op).1 ops
  end.

Lemma newArray_rep proto : Rep (newArray proto) (MkSpec ∅ 0 true true).
Proof.
  split; [|intros i|done..]; cbn.
  - split; cbn; try done; unfold MaxInt64, MaxUint32; lia.
  - rewrite lookup_empty. unfold atIdx, avalues. cbn. by destruct (0 <=? i).
Qed.

Lemma arrayRun_refines x sp ops :
  Rep x sp → okRun x ops →
  ∃ sp' sos, specRun sp ops sp' sos ∧ Rep (arrayRun x ops).1 sp' ∧
    Forall2 (λ op r, reports (throws op) r.1 r.2) ops (zip sos (arrayRun x ops).2).
Proof.
  revert x sp. induction ops as [|op ops IH]; intros x sp HR Hok; cbn [arrayRun].
  { exists sp, []. split; [constructor|]. split; [done|constructor]. }
  destruct Hok as [Hop Hok]. destruct (arrayStep_refines x sp op HR Hop) as (sp1 & so & Hst & HR1 & Hrep).
  destruct (IH _ sp1 HR1 Hok) as (sp2 & sos & Hrun & HR2 & Hall).
  destruct (arrayStep selfEqual callable toLen x op) as [x1 o]. cbn [fst snd] in *.
  destruct (arrayRun x1 ops) as [x2 os]. exists sp2, (so :: sos). split; [by econstructor|]. split; [done|].
  cbn. by constructor.
Qed.

(** C9: whatever sequence of element assignments, definitions and deletions and of
    changes of the length is applied to a new array, and however often it switches
    between the dense and the sparse representation on the way, every operation
    succeeds, is refused, throws or calls a setter as the array exotic object of
    ECMAScript prescribes, and at the end the array has exactly the prescribed
    length, elements and attributes.  Each operation meets [okOp]: the index is an
    array index, the descriptor is one toPropertyDescriptor makes, a redefinition
    leaves no field of the other kind of property behind ([keepsGetter],
    [keepsWritable]), an element whose definition switches the representation is a
    plain data property ([switch_loses_count] shows the deviation), and a read-only
    length is only assigned values that convert to a length. *)
Theorem array_refines (proto : option positive) (ops : list arrayOp) :
  okRun (newArray proto) ops →
  let '(x, os) := arrayRun (newArray proto) ops in
  ∃ sp sos, specRun (MkSpec ∅ 0 true true) ops sp sos ∧
    Forall2 (λ op r, reports (throws op) r.1 r.2) ops (zip sos os) ∧
    arrayLength x = sLen sp ∧ arrayLengthWritable x = sLenW sp ∧
    ∀ i, 0 ≤ i → abs <$> arrayGet x i = sElems sp !! i.
Proof.
  intros Hok. destruct (arrayRun_refines _ _ ops (newArray_rep proto) Hok) as (sp & sos & Hrun & HR & Hall).
  destruct (arrayRun (newArray proto) ops) as [x os]. exists sp, sos. do 2 (split; [done|]).
  pose proof HR as [HI He Hl Hw _]. do 2 (split; [done|]). intros i Hi. by rewrite arrayGet_elem, He.
Qed.

Lemma idxKeys_setValues all i vs : array_idxKeys all i vs = sparse_idxKeys all (setValues i vs).
Proof.
  revert i. induction vs as [|[s|] vs IH]; intros i; cbn; [done| |apply IH]. rewrite IH.
  by destruct all; cbn; [|destruct (enumerableSlot s)].
Qed.

Lemma sparse_idxKeys_filter all its :
  sparse_idxKeys all its = FormatUint <$> (filter (λ it, all || enumerableSlot it.2 = true) its).*1.
Proof.
  induction its as [|[i s] its IH]; [done|]. rewrite filter_cons. cbn [sparse_idxKeys snd fst]. rewrite IH.
  destruct all; cbn [orb negb andb]; [by rewrite decide_True|]. by destruct (enumerableSlot s); [rewrite decide_True|rewrite decide_False].
Qed.

Lemma sorted_filter (P : Z * slot → Prop) `{∀ x, Decision (P x)} its :
  StronglySorted Z.lt its.*1 → StronglySorted Z.lt (filter P its).*1.
Proof.
  induction its as [|it its IH]; [done|]. rewrite fmap_cons, filter_cons. intros [Hs Hf]%StronglySorted_inv.
  destruct (decide (P it)); [|by apply IH]. cbn. constructor; [by apply IH|]. rewrite Forall_forall in *.
  intros x (y & -> & [_ Hy]%list_elem_of_filter)%list_elem_of_fmap. apply Hf. by apply list_elem_of_fmap_2.
Qed.

Lemma keys_spec its all :
  StronglySorted Z.lt its.*1 →
  ∃ idxs, sparse_idxKeys all its = FormatUint <$> idxs ∧ StronglySorted Z.lt idxs ∧
    ∀ i, i ∈ idxs ↔ ∃ s, itemAt its i = Some s ∧ all || enumerableSlot s = true.
Proof.
  intros Hs. exists (filter (λ it, all || enumerableSlot it.2 = true) its).*1. split; [apply sparse_idxKeys_filter|].
  split; [by apply sorted_filter|]. intros i. rewrite list_elem_of_fmap. split.
  - intros ([j s] & -> & [Hp Hin]%list_elem_of_filter). exists s. split; [|done].
    apply elem_of_list_to_map_1; [by apply sorted_NoDup|done].
  - intros (s & Hi%itemAt_Some & Hp). exists (i, s). split; [done|]. by apply list_elem_of_filter.
Qed.

Lemma enumerable_abs s : specE (abs s) = enumerableSlot s.
Proof. destruct s as [v|p]; [done|]. unfold abs. cbn. by destruct (accessor p). Qed.

(** The own keys of an array in either representation are the decimal names of
    its element indices, in ascending order and each once (only the enumerable ones
    unless all are asked for), followed by the keys of the underlying object. *)
Theorem array_keys_ascending (proto : option positive) (ops : list arrayOp) (all : bool) :
  okRun (newArray proto) ops →
  let x := (arrayRun (newArray proto) ops).1 in
  ∃ idxs sp sos, specRun (MkSpec ∅ 0 true true) ops sp sos ∧
    arrayKeys x all = (FormatUint <$> idxs) ++ (stringKeys (arrayBase x) all).2 ∧ StronglySorted Z.lt idxs ∧
    ∀ i, i ∈ idxs ↔ ∃ p, sElems sp !! i = Some p ∧ all || specE p = true.
Proof.
  intros Hok. destruct (arrayRun_refines _ _ ops (newArray_rep proto) Hok) as (sp & sos & Hrun & HR & _). cbn zeta.
  set (x := (arrayRun (newArray proto) ops).1) in *.
  assert (∃ its, StronglySorted Z.lt its.*1 ∧ (∀ i, itemAt its i = elemAt x i) ∧
            arrayKeys x all = sparse_idxKeys all its ++ (stringKeys (arrayBase x) all).2) as (its & Hs & Hel & ->).
  { destruct HR as [HI _ _ _ _]. destruct x as [a|a].
    - exists (setValues 0 (avalues a)). split; [apply setValues_sorted|]. split; [intros i; rewrite setValues_elem; cbn; f_equal; lia|].
      cbn. unfold array_stringKeys. by rewrite idxKeys_setValues.
    - exists (items a). split; [apply (is_sorted a HI)|]. by split. }
  destruct (keys_spec its all Hs) as (idxs & -> & Hsorted & Hin). exists idxs, sp, sos. do 3 (split; [done|]).
  intros i. rewrite Hin, (rep_elems _ _ HR), Hel. split.
  - intros (s & -> & Hp). exists (abs s). by rewrite enumerable_abs.
  - intros (p & (s & Hs' & ->)%fmap_Some & Hp). exists s. by rewrite <- enumerable_abs.
Qed.
End element_refinement.

(** ** Witnesses and counterexamples *)

(** toLengthUint32 on numbers. *)
Definition numLen (v : Value) : result Z :=
  match v with VNum n => toLengthUint32 n | _ => Throw (RangeError "Invalid array length") end.

Lemma numLen_range v n : numLen v = Ok n → 0 ≤ n ≤ MaxUint32.
Proof.
  destruct v as [| | |m| | | |]; cbn [numLen]; try done. unfold toLengthUint32.
  destruct (match m with valueInt i => Some i | valueFloat f => _ end) as [i|]; [|done].
  destruct (Z.leb_spec 0 i), (Z.leb_spec i MaxUint32); cbn [andb]; try done. intros [= <-]. lia.
Qed.

Lemma noSelf_identity p q : allCallable p = true → noSelf p q = true → p = q.
Proof. done. Qed.

(** [a[0] = null; a[5000] = null; Object.defineProperty(a, 1, {value: null});
    delete a[0]; a.length = 0]: the array becomes sparse at the second assignment,
    and the last one stops at the element that is not configurable. *)
Definition exArrayOps : list arrayOp :=
  [OSet 0 VNull true None; OSet 5000 VNull true None; ODefine 1 (valueDesc VNull) true; ODelete 0 true;
   OSetLength (intV 0) false].

Lemma exArrayOps_ok : okRun noSelf allCallable numLen (newArray None) exArrayOps.
Proof.
  cbn [okRun exArrayOps okOp]. split; [unfold MaxUint32; lia|]. split; [unfold MaxUint32; lia|]. split.
  { split; [unfold MaxUint32; lia|]. split; [by split|]. split; [intros s Hs; vm_compute in Hs; done|].
    intros _ Hs. vm_compute in Hs. done. }
  split; [unfold MaxUint32; lia|]. split; [right; by exists 0|done].
Qed.

Lemma array_refines_witness :
  (arrayRun noSelf allCallable numLen (newArray None) exArrayOps).2 = [Done true; Done true; Done true; Done true; Done false] ∧
  ∃ sp sos, specRun noSelf numLen (MkSpec ∅ 0 true true) exArrayOps sp sos ∧ sLen sp = 2.
Proof.
  split; [vm_compute; reflexivity|].
  pose proof (array_refines noSelf allCallable numLen noSelf_identity numLen_range None exArrayOps exArrayOps_ok) as H.
  assert (arrayLength (arrayRun noSelf allCallable numLen (newArray None) exArrayOps).1 = 2) as Hl by (vm_compute; reflexivity).
  destruct (arrayRun noSelf allCallable numLen (newArray None) exArrayOps) as [x os].
  destruct H as (sp & sos & Hrun & _ & Hlen & _). exists sp, sos. split; [exact Hrun|]. rewrite <- Hlen. exact Hl.
Defined.

Lemma array_keys_ascending_witness :
  ∃ idxs, arrayKeys (arrayRun noSelf allCallable numLen (newArray None) (take 3 exArrayOps)).1 true =
    (FormatUint <$> idxs) ++ [lengthKey] ∧ StronglySorted Z.lt idxs.
Proof.
  assert (okRun noSelf allCallable numLen (newArray None) (take 3 exArrayOps)) as Hok.
  { destruct exArrayOps_ok as (H1 & H2 & H3 & _). exact (conj H1 (conj H2 (conj H3 I))). }
  destruct (array_keys_ascending noSelf allCallable numLen noSelf_identity numLen_range None (take 3 exArrayOps) true Hok)
    as (idxs & sp & sos & _ & Hk & Hs & _).
  exists idxs. split; [|exact Hs]. rewrite Hk. apply (f_equal (app (FormatUint <$> idxs))). vm_compute. reflexivity.
Defined.

(** [a = []; Object.defineProperty(a, 5000, {value: null}); a.length = 0]: the
    definition switches the representation without counting the property object,
    so that the assignment deletes the element although it is not configurable. *)
Theorem switch_loses_count :
  let '(x, os) := arrayRun noSelf allCallable numLen (newArray None)
                    [ODefine 5000 (valueDesc VNull) true; OSetLength (intV 0) true] in
  os = [Done true; Done true] ∧ arrayGet x 5000 = None ∧ arrayLength x = 0.
Proof. vm_compute. done. Qed.
End Arrays.
