(* ===== verification/Base64.v ===== *)
(** * Base64 decoding

    Model of base64.go and of fromBase64Into (builtin_typedarrays.go), the decoder
    behind Uint8Array.fromBase64 and setFromBase64: loops that decode eight or four
    characters at a time, and a slow path for a chunk with white space, padding or
    the end of the input in it.  The destination is a byte slice of a fixed length.

    The reference is the operation FromBase64 of the ECMAScript specification,
    which reads one character at a time.  The refinement theorem shows that the
    decoder returns its result for both alphabets, all ways of treating the last
    chunk and every length of the destination. *)

From S2P Require Import Prelude Utf Strings.
Import Utf Strings.
Open Scope Z_scope.
Open Scope go_scope.

Module Base64.

(** ** The code *)

Inductive base64LastChunkHandling := Loose | Strict | Stop.

#[global] Instance handling_eq_dec : EqDecision base64LastChunkHandling.
Proof. solve_decision. Defined.

(** The bytes of "ABC...XYZabc...xyz0123456789" and the two last characters. *)
Definition alphabet (c62 c63 : Z) : list Z := seqZ 65 26 ++ seqZ 97 26 ++ seqZ 48 10 ++ [c62; c63].

(** The table: 0xff, overwritten by the position of each character. *)
Definition decodeTable (chars : list Z) : list Z :=
  foldl (λ t ic, <[Z.to_nat ic.2 := ic.1]> t) (replicate 256 0xff) (zip (seqZ 0 64) chars).

Definition base64DecodeMap : list Z := decodeTable (alphabet 43 47).
Definition base64DecodeMapUrl : list Z := decodeTable (alphabet 45 95).

Definition isAsciiWhitespace (c : Z) : bool :=
  (c =? 0x09) || (c =? 0x0A) || (c =? 0x0C) || (c =? 0x0D) || (c =? 0x20).

(** The loop of skipAsciiWhitespace on the code units from [index] on. *)
Fixpoint skipLoop (rest : list Z) (index : nat) : nat :=
  match rest with
  | c :: rest => if isAsciiWhitespace c then skipLoop rest (S index) else index
  | [] => index
  end.

Definition skipAsciiWhitespace (s : list Z) (index : nat) : nat := skipLoop (drop index s) index.

Definition base64Assemble32Checked (n1 n2 n3 n4 : Z) : Z :=
  Z.lor (Z.lor (Z.lor (uint32 (Z.shiftl n1 18)) (uint32 (Z.shiftl n2 12))) (uint32 (Z.shiftl n3 6))) n4.

Definition base64Assemble32 (n1 n2 n3 n4 : Z) : option Z :=
  if Z.lor (Z.lor (Z.lor n1 n2) n3) n4 =? 0xff then None else Some (base64Assemble32Checked n1 n2 n3 n4).

Definition base64Assemble64 (n1 n2 n3 n4 n5 n6 n7 n8 : Z) : option Z :=
  if Z.lor (Z.lor (Z.lor (Z.lor (Z.lor (Z.lor (Z.lor n1 n2) n3) n4) n5) n6) n7) n8 =? 0xff then None
  else Some (Z.lor (Z.lor (Z.lor (Z.lor (Z.lor (Z.lor (Z.lor
    (uint64 (Z.shiftl n1 42)) (uint64 (Z.shiftl n2 36))) (uint64 (Z.shiftl n3 30))) (uint64 (Z.shiftl n4 24)))
    (uint64 (Z.shiftl n5 18))) (uint64 (Z.shiftl n6 12))) (uint64 (Z.shiftl n7 6))) n8).

(** Writing bytes into a slice at an offset, in range. *)
Definition putBytes (b : list Z) (off : nat) (bs : list Z) : list Z := take off b ++ bs ++ drop (off + length bs) b.

(** [copy(b[off:], bs)]: the slice and the number of bytes copied. *)
Definition copyBytes (b : list Z) (off : nat) (bs : list Z) : list Z * nat :=
  let n := Nat.min (length b - off) (length bs) in (putBytes b off (take n bs), n).

Definition bytes6 (v : Z) : list Z :=
  [uint8 (Z.shiftr v 40); uint8 (Z.shiftr v 32); uint8 (Z.shiftr v 24); uint8 (Z.shiftr v 16); uint8 (Z.shiftr v 8); uint8 v].
Definition bytes3 (v : Z) : list Z := [uint8 (Z.shiftr v 16); uint8 (Z.shiftr v 8); uint8 v].

Definition base64Put6Bytes (b : list Z) (off : nat) (v : Z) : list Z := putBytes b off (bytes6 v).
Definition base64Put3Bytes (b : list Z) (off : nat) (v : Z) : list Z := putBytes b off (bytes3 v).

Definition at_ (l : list Z) (i : nat) : Z := nth i l 0.

(** The three bytes, how many of them count, or the error. *)
Definition decodeFinalBase64Chunk (chunk : list Z) (chunkLength : nat) (throwOnExtraBits : bool) : list Z * nat + string :=
  let res := bytes3 (base64Assemble32Checked (at_ chunk 0) (at_ chunk 1) (at_ chunk 2) (at_ chunk 3)) in
  if Nat.eqb chunkLength 2 then
    if throwOnExtraBits && negb (at_ res 1 =? 0) then inr "extra bits in the last base64 character"%string else inl (res, 1%nat)
  else if throwOnExtraBits && negb (at_ res 2 =? 0) then inr "extra bits in the last base64 character"%string
  else inl (res, 2%nat).

Record decodeState := MkState {
  read : nat;
  dst : list Z;
  written : nat;
  eof : bool;
  err : option string;
}.

Section decode.
Context (s : list Z) (decodeMap : list Z) (lastChunkHandling : base64LastChunkHandling).

(** The parts of base64DecodeChunk that return: [newIndex] and [newDstIndex] are
    what it returns unless it completes a chunk. *)
Definition finishChunk (dst : list Z) (newDstIndex : nat) (dec : list Z) (n : nat) : decodeState :=
  let '(dst, k) := copyBytes dst newDstIndex (take n dec) in MkState (length s) dst (newDstIndex + k) true None.

(** At the end of the input. *)
Definition chunkAtEnd (newIndex : nat) (dst : list Z) (newDstIndex : nat) (chunk : list Z) (chunkLength : nat) : decodeState :=
  let ret eof err := MkState newIndex dst newDstIndex eof err in
  if Nat.ltb 0 chunkLength then
    match lastChunkHandling with
    | Stop => ret true None
    | Strict => ret true (Some "missing padding in the last chunk"%string)
    | Loose =>
        if Nat.eqb chunkLength 1 then ret true (Some "a single extra base64 character in the last chunk"%string)
        else match decodeFinalBase64Chunk chunk chunkLength false with
             | inl (dec, n) => finishChunk dst newDstIndex dec n
             | inr _ => finishChunk dst newDstIndex [] 0
             end
    end
  else MkState (length s) dst newDstIndex true None.

(** After the padding. *)
Definition chunkPadded (newIndex : nat) (dst : list Z) (newDstIndex : nat) (chunk : list Z) (chunkLength : nat) (index : nat) : decodeState :=
  let ret eof err := MkState newIndex dst newDstIndex eof err in
  if Nat.ltb index (length s) then ret false (Some "unexpected character after padding"%string)
  else match decodeFinalBase64Chunk chunk chunkLength (bool_decide (lastChunkHandling = Strict)) with
       | inr e => ret false (Some e)
       | inl (dec, n) => finishChunk dst newDstIndex dec n
       end.

(** At a padding character; [index] is behind it. *)
Definition chunkAtPadding (newIndex : nat) (dst : list Z) (newDstIndex : nat) (chunk : list Z) (chunkLength : nat) (index : nat) : decodeState :=
  let ret eof err := MkState newIndex dst newDstIndex eof err in
  if Nat.ltb chunkLength 2 then ret false (Some "unexpected padding character"%string)
  else
    let index := skipAsciiWhitespace s index in
    if Nat.eqb chunkLength 2 then
      if Nat.eqb index (length s) then
        match lastChunkHandling with
        | Stop => ret true None
        | _ => ret false (Some "missing padding character"%string)
        end
      else chunkPadded newIndex dst newDstIndex chunk chunkLength
             (if at_ s index =? 61 then skipAsciiWhitespace s (S index) else index)
    else chunkPadded newIndex dst newDstIndex chunk chunkLength index.

(** The loop of base64DecodeChunk. *)
Fixpoint chunkLoop (fuel : nat) (newIndex : nat) (dst : list Z) (newDstIndex : nat)
    (index : nat) (chunk : list Z) (chunkLength : nat) : option decodeState :=
  let ret eof err := Some (MkState newIndex dst newDstIndex eof err) in
  match fuel with
  | O => None
  | S fuel =>
      let index := skipAsciiWhitespace s index in
      if Nat.eqb index (length s) then Some (chunkAtEnd newIndex dst newDstIndex chunk chunkLength)
      else
        let char := at_ s index in
        let index := S index in
        if char =? 61 then Some (chunkAtPadding newIndex dst newDstIndex chunk chunkLength index)
        else if 128 <=? char then ret false (Some "invalid base64 character"%string)
        else
          let b := at_ decodeMap (Z.to_nat char) in
          if b =? 0xff then ret false (Some "invalid base64 character"%string)
          else
            let remaining := (length dst - newDstIndex)%nat in
            if (Nat.eqb remaining 1 && Nat.eqb chunkLength 2) || (Nat.eqb remaining 2 && Nat.eqb chunkLength 3)
            then ret true None
            else
              let chunk := <[chunkLength := b]> chunk in
              let chunkLength := S chunkLength in
              if Nat.eqb chunkLength 4 then
                let n := base64Assemble32Checked (at_ chunk 0) (at_ chunk 1) (at_ chunk 2) (at_ chunk 3) in
                if Nat.ltb 3 remaining then
                  Some (MkState index (base64Put3Bytes dst newDstIndex n) (newDstIndex + 3) false None)
                else
                  let '(dst, k) := copyBytes dst newDstIndex (base64Put3Bytes chunk 0 n) in
                  Some (MkState index dst (newDstIndex + k) true None)
              else chunkLoop fuel newIndex dst newDstIndex index chunk chunkLength
  end.

Definition base64DecodeChunk (index : nat) (dst : list Z) (dstIndex : nat) : option decodeState :=
  chunkLoop (S (length s - index)) index dst dstIndex index [0; 0; 0; 0] 0.

(** One of the two fast loops: [width] characters become [out] bytes; [fast]
    decodes them, [put] stores the result. *)
Fixpoint fastLoop (fuel : nat) (width out : nat) (fast : list Z → option Z) (put : list Z → nat → Z → list Z)
    (read : nat) (dst : list Z) (written : nat) : option decodeState :=
  if (Nat.leb width (length s - read) && Nat.leb out (length dst - written)) then
    match fuel with
    | O => None
    | S fuel =>
        match fast (take width (drop read s)) with
        | Some dn => fastLoop fuel width out fast put (read + width) (put dst written dn) (written + out)
        | None =>
            st ← base64DecodeChunk read dst written;
            match eof st, err st with
            | false, None => fastLoop fuel width out fast put (Base64.read st) (Base64.dst st) (Base64.written st)
            | _, _ => Some (MkState (Base64.read st) (Base64.dst st) (Base64.written st) true (err st))
            end
        end
    end
  else Some (MkState read dst written false None).

(** The loop [for eof := false; !eof;] *)
Fixpoint slowLoop (fuel : nat) (read : nat) (dst : list Z) (written : nat) : option decodeState :=
  match fuel with
  | O => None
  | S fuel =>
      st ← base64DecodeChunk read dst written;
      match err st with
      | Some _ => Some st
      | None => if eof st then Some st else slowLoop fuel (Base64.read st) (Base64.dst st) (Base64.written st)
      end
  end.

Definition decodeLoops (fast8 fast4 : list Z → option Z) (dst : list Z) : option decodeState :=
  let fuel := S (length s) in
  st ← fastLoop fuel 8 6 fast8 base64Put6Bytes 0 dst 0;
  if eof st then Some st
  else
    st ← fastLoop fuel 4 3 fast4 base64Put3Bytes (read st) (Base64.dst st) (written st);
    if eof st then Some st
    else if Nat.eqb (written st) (length (Base64.dst st)) then Some st
    else slowLoop fuel (read st) (Base64.dst st) (written st).

Definition dm (c : Z) : Z := at_ decodeMap (Z.to_nat c).

Definition asciiFast8 (src2 : list Z) : option Z :=
  base64Assemble64 (dm (at_ src2 0)) (dm (at_ src2 1)) (dm (at_ src2 2)) (dm (at_ src2 3))
                   (dm (at_ src2 4)) (dm (at_ src2 5)) (dm (at_ src2 6)) (dm (at_ src2 7)).
Definition asciiFast4 (src2 : list Z) : option Z :=
  base64Assemble32 (dm (at_ src2 0)) (dm (at_ src2 1)) (dm (at_ src2 2)) (dm (at_ src2 3)).

Definition base64DecodeAscii (dst : list Z) : option decodeState := decodeLoops asciiFast8 asciiFast4 dst.

(** Code units above 255 are left to the slow path. *)
Definition noHighBits (src2 : list Z) : bool := Z.land (foldl Z.lor 0 src2) 0xFF00 =? 0.
Definition unicodeFast8 (src2 : list Z) : option Z := if noHighBits src2 then asciiFast8 (uwrap 8 <$> src2) else None.
Definition unicodeFast4 (src2 : list Z) : option Z := if noHighBits src2 then asciiFast4 (uwrap 8 <$> src2) else None.

Definition base64DecodeUnicode (dst : list Z) : option decodeState := decodeLoops unicodeFast8 unicodeFast4 dst.
End decode.

(** fromBase64Into; the code units of an ASCII string are its bytes. *)
Definition fromBase64Into (s : Str) (decodeMap : list Z) (h : base64LastChunkHandling) (dst : list Z) : option decodeState :=
  match devirtualizeString s with
  | inl a => base64DecodeAscii a decodeMap h dst
  | inr u => base64DecodeUnicode (tail u) decodeMap h dst
  end.

(** fromBase64 allocates a destination that is long enough. *)
Definition fromBase64 (s : Str) (decodeMap : list Z) (h : base64LastChunkHandling) : option (nat * list Z * option string) :=
  let n := Z.to_nat ((Length s + 3) / 4 * 3) in
  st ← fromBase64Into s decodeMap h (replicate n 0);
  Some (read st, take (written st) (dst st), err st).

(** ** The specification: FromBase64 *)

Definition sextet (url : bool) (c : Z) : option Z :=
  if (65 <=? c) && (c <=? 90) then Some (c - 65)
  else if (97 <=? c) && (c <=? 122) then Some (c - 71)
  else if (48 <=? c) && (c <=? 57) then Some (c + 4)
  else if c =? (if url then 45 else 43) then Some 62
  else if c =? (if url then 95 else 47) then Some 63
  else None.

(** The 24 bits of four sextets, missing ones being zero. *)
Definition chunkBits (chunk : list Z) : Z :=
  at_ chunk 0 * 2 ^ 18 + at_ chunk 1 * 2 ^ 12 + at_ chunk 2 * 2 ^ 6 + at_ chunk 3.

Definition chunkBytes (chunk : list Z) : list Z :=
  [chunkBits chunk / 2 ^ 16; chunkBits chunk / 2 ^ 8 mod 2 ^ 8; chunkBits chunk mod 2 ^ 8].

(** DecodeFinalBase64Chunk: one or two bytes; the bits that are left over. *)
Definition finalBytes (chunk : list Z) : list Z := take (length chunk - 1) (chunkBytes chunk).
Definition extraBits (chunk : list Z) : bool := negb (at_ (chunkBytes chunk) (length chunk - 1) =? 0).

Fixpoint skipWs (l : list Z) : list Z :=
  match l with c :: l' => if isAsciiWhitespace c then skipWs l' else l | [] => [] end.

Section spec.
Context (url : bool) (h : base64LastChunkHandling) (total : nat).

(** The characters read, the bytes, and whether a SyntaxError is thrown. *)
Abbreviation outcome := (nat * list Z * bool)%type.

(** After a padding character; [rest] is what follows it. *)
Definition specPadding (rest chunk : list Z) (read : nat) (bytes : list Z) : outcome :=
  if Nat.ltb (length chunk) 2 then (read, bytes, true)
  else
    let rest := skipWs rest in
    let last rest :=
      match rest with
      | _ :: _ => (read, bytes, true)
      | [] => if bool_decide (h = Strict) && extraBits chunk then (read, bytes, true)
              else (total, bytes ++ finalBytes chunk, false)
      end in
    if Nat.eqb (length chunk) 2 then
      match rest with
      | [] => (read, bytes, negb (bool_decide (h = Stop)))
      | c :: rest' => last (if c =? 61 then skipWs rest' else rest)
      end
    else last rest.

(** [maxLength] is absent when it is [None]; [index] is the number of characters
    before [rest]. *)
Fixpoint specDecode (maxLength : option nat) (rest chunk : list Z) (index read : nat) (bytes : list Z) : outcome :=
  match rest with
  | [] =>
      match chunk with
      | [] => (total, bytes, false)
      | _ :: _ =>
          match h with
          | Stop => (read, bytes, false)
          | Strict => (read, bytes, true)
          | Loose => if Nat.eqb (length chunk) 1 then (read, bytes, true) else (total, bytes ++ finalBytes chunk, false)
          end
      end
  | c :: rest =>
      if isAsciiWhitespace c then specDecode maxLength rest chunk (S index) read bytes
      else if c =? 61 then specPadding rest chunk read bytes
      else
        match sextet url c with
        | None => (read, bytes, true)
        | Some v =>
            let remaining := (λ m, m - length bytes)%nat <$> maxLength in
            if (bool_decide (remaining = Some 1%nat) && Nat.eqb (length chunk) 2)
               || (bool_decide (remaining = Some 2%nat) && Nat.eqb (length chunk) 3)
            then (read, bytes, false)
            else
              let chunk := chunk ++ [v] in
              if Nat.eqb (length chunk) 4 then
                let bytes := bytes ++ chunkBytes chunk in
                if bool_decide (maxLength = Some (length bytes)) then (S index, bytes, false)
                else specDecode maxLength rest [] (S index) (S index) bytes
              else specDecode maxLength rest chunk (S index) read bytes
        end
  end.
End spec.

Definition FromBase64 (s : list Z) (url : bool) (h : base64LastChunkHandling) (maxLength : option nat) : nat * list Z * bool :=
  if bool_decide (maxLength = Some 0%nat) then (0%nat, [], false)
  else specDecode url h (length s) maxLength s [] 0 0 [].

(** ** Alphabets and bits *)

Definition decodeMapOf (url : bool) : list Z := if url then base64DecodeMapUrl else base64DecodeMap.

Lemma decodeMap_table url :
  forallb (λ c, at_ (decodeMapOf url) (Z.to_nat c) =? default 0xff (sextet url c)) (seqZ 0 256) = true.
Proof. destruct url; vm_compute; reflexivity. Qed.

Lemma decodeMap_sextet url c : 0 ≤ c < 256 → dm (decodeMapOf url) c = default 0xff (sextet url c).
Proof.
  intros Hc. pose proof (decodeMap_table url) as Ht. rewrite forallb_forall in Ht. apply Z.eqb_eq, Ht.
  apply list_elem_of_In, elem_of_seqZ. lia.
Qed.

Lemma sextet_range url c v : sextet url c = Some v → 0 ≤ v < 64 ∧ 0 ≤ c < 128 ∧ isAsciiWhitespace c = false ∧ (c =? 61) = false.
Proof.
  unfold sextet, isAsciiWhitespace. intros Hs.
  assert ((0 ≤ v < 64) ∧ (65 ≤ c ≤ 90 ∨ 97 ≤ c ≤ 122 ∨ 48 ≤ c ≤ 57 ∨ c = 45 ∨ c = 43 ∨ c = 95 ∨ c = 47)) as [Hv Hc].
  { repeat case_match; simplify_eq; rewrite ?andb_true_iff, ?Z.leb_le, ?Z.eqb_eq in *; lia. }
  split; [done|]. split; [lia|]. zcmp. done.
Qed.

Lemma lor_small a b : 0 ≤ a < 64 → 0 ≤ b < 64 → 0 ≤ Z.lor a b < 64.
Proof.
  intros Ha Hb. split; [apply Z.lor_nonneg; lia|]. destruct (decide (Z.lor a b = 0)) as [->|Hne]; [lia|].
  apply (Z.log2_lt_pow2 _ 6); [assert (0 ≤ Z.lor a b) by (apply Z.lor_nonneg; lia); lia|]. rewrite Z.log2_lor by lia.
  apply Z.max_lub_lt; (destruct (decide (0 < a)), (decide (0 < b)));
    try (apply Z.log2_lt_pow2; lia); rewrite Z.log2_nonpos by lia; lia.
Qed.

Lemma lor_255 b : 0 ≤ b < 256 → Z.lor 0xff b = 0xff ∧ Z.lor b 0xff = 0xff.
Proof.
  intros Hb. assert (Z.lor b 255 = 255) as H; [|by rewrite Z.lor_comm].
  change 255 with (Z.ones 8). apply Z.lor_ones_low; [lia|].
  destruct (decide (0 < b)); [|rewrite Z.log2_nonpos by lia; lia]. apply Z.log2_lt_pow2; lia.
Qed.

(** Valid entries are below 64, the others 0xff. *)
Definition entry (n : Z) : Prop := 0 ≤ n < 64 ∨ n = 0xff.

Lemma lor_entry a b : entry a → entry b → entry (Z.lor a b) ∧ (Z.lor a b = 0xff ↔ a = 0xff ∨ b = 0xff).
Proof.
  intros Ha Hb. assert (∀ n, entry n → 0 ≤ n < 256) as Hr by (unfold entry; lia).
  destruct Ha as [Ha| ->]; [destruct Hb as [Hb| ->]|].
  - pose proof (lor_small a b Ha Hb). split; [by left|]. lia.
  - rewrite (proj2 (lor_255 a ltac:(lia))). split; [by right|]. tauto.
  - rewrite (proj1 (lor_255 b (Hr b Hb))). split; [by right|]. tauto.
Qed.

Lemma dm_entry url c : 0 ≤ c < 256 → entry (dm (decodeMapOf url) c).
Proof.
  intros Hc. rewrite decodeMap_sextet by done. destruct (sextet url c) as [v|] eqn:E; [|by right].
  left. by apply sextet_range in E as [? _].
Qed.

Lemma lor_shift a b k : 0 ≤ k → 0 ≤ b < 2 ^ k → Z.lor (a * 2 ^ k) b = a * 2 ^ k + b.
Proof.
  intros Hk Hb. assert (Z.land (a * 2 ^ k) b = 0) as Hl.
  { apply Z.bits_inj'. intros n Hn. rewrite Z.land_spec, Z.bits_0. destruct (decide (n < k)).
    - by rewrite Z.mul_pow2_bits_low.
    - destruct (decide (b = 0)) as [->|]; [by rewrite Z.bits_0, andb_false_r|].
      rewrite (Z.bits_above_log2 b n), andb_false_r; [done|lia|].
      enough (Z.log2 b < k) by lia. apply Z.log2_lt_pow2; lia. }
  by rewrite <- (Z.lxor_lor _ _ Hl), (Z.add_nocarry_lxor _ _ Hl).
Qed.

(** Multiplying out the shifts of sextets. *)
Lemma shift_sextet n k w : 0 ≤ n < 64 → 0 ≤ k → k + 6 ≤ w → uwrap w (Z.shiftl n k) = n * 2 ^ k.
Proof.
  intros Hn Hk Hw. rewrite Z.shiftl_mul_pow2 by done. apply uwrap_id.
  assert (2 ^ (k + 6) = 64 * 2 ^ k) as He by (rewrite Z.pow_add_r by lia; lia).
  assert (2 ^ (k + 6) ≤ 2 ^ w) by (apply Z.pow_le_mono_r; lia).
  assert (0 < 2 ^ k) by (by apply Z.pow_pos_nonneg; lia). nia.
Qed.

Definition isSextet (n : Z) : Prop := 0 ≤ n < 64.

Lemma chunkBits_range n1 n2 n3 n4 :
  isSextet n1 → isSextet n2 → isSextet n3 → isSextet n4 → 0 ≤ chunkBits [n1; n2; n3; n4] < 2 ^ 24.
Proof. unfold isSextet, chunkBits, at_. cbn [nth]. intros. change (2 ^ 18) with 262144. change (2 ^ 24) with 16777216. lia. Qed.

Lemma assemble32_bits n1 n2 n3 n4 :
  isSextet n1 → isSextet n2 → isSextet n3 → isSextet n4 →
  base64Assemble32Checked n1 n2 n3 n4 = chunkBits [n1; n2; n3; n4].
Proof.
  unfold isSextet. intros H1 H2 H3 H4. unfold base64Assemble32Checked, chunkBits, at_. cbn [nth].
  rewrite !shift_sextet by lia. rewrite (lor_shift n1 (n2 * 2 ^ 12) 18) by lia.
  replace (n1 * 2 ^ 18 + n2 * 2 ^ 12) with ((n1 * 2 ^ 6 + n2) * 2 ^ 12) by lia. rewrite lor_shift by lia.
  replace ((n1 * 2 ^ 6 + n2) * 2 ^ 12 + n3 * 2 ^ 6) with ((n1 * 2 ^ 12 + n2 * 2 ^ 6 + n3) * 2 ^ 6) by lia.
  rewrite lor_shift by lia. lia.
Qed.

Lemma assemble64_bits n1 n2 n3 n4 n5 n6 n7 n8 :
  isSextet n1 → isSextet n2 → isSextet n3 → isSextet n4 → isSextet n5 → isSextet n6 → isSextet n7 → isSextet n8 →
  Z.lor (Z.lor (Z.lor (Z.lor (Z.lor (Z.lor (Z.lor
    (uint64 (Z.shiftl n1 42)) (uint64 (Z.shiftl n2 36))) (uint64 (Z.shiftl n3 30))) (uint64 (Z.shiftl n4 24)))
    (uint64 (Z.shiftl n5 18))) (uint64 (Z.shiftl n6 12))) (uint64 (Z.shiftl n7 6))) n8
  = chunkBits [n1; n2; n3; n4] * 2 ^ 24 + chunkBits [n5; n6; n7; n8].
Proof.
  unfold isSextet. intros H1 H2 H3 H4 H5 H6 H7 H8. unfold chunkBits, at_. cbn [nth]. rewrite !shift_sextet by lia.
  rewrite (lor_shift n1 (n2 * 2 ^ 36) 42) by lia.
  replace (n1 * 2 ^ 42 + n2 * 2 ^ 36) with ((n1 * 2 ^ 6 + n2) * 2 ^ 36) by lia. rewrite lor_shift by lia.
  replace ((n1 * 2 ^ 6 + n2) * 2 ^ 36 + n3 * 2 ^ 30) with ((n1 * 2 ^ 12 + n2 * 2 ^ 6 + n3) * 2 ^ 30) by lia. rewrite lor_shift by lia.
  set (a := n1 * 2 ^ 12 + n2 * 2 ^ 6 + n3). replace (a * 2 ^ 30 + n4 * 2 ^ 24) with ((a * 2 ^ 6 + n4) * 2 ^ 24) by lia.
  rewrite lor_shift by lia. set (b := a * 2 ^ 6 + n4).
  replace (b * 2 ^ 24 + n5 * 2 ^ 18) with ((b * 2 ^ 6 + n5) * 2 ^ 18) by lia. rewrite lor_shift by lia.
  replace ((b * 2 ^ 6 + n5) * 2 ^ 18 + n6 * 2 ^ 12) with ((b * 2 ^ 12 + n5 * 2 ^ 6 + n6) * 2 ^ 12) by lia. rewrite lor_shift by lia.
  set (c := b * 2 ^ 12 + n5 * 2 ^ 6 + n6). replace (c * 2 ^ 12 + n7 * 2 ^ 6) with ((c * 2 ^ 6 + n7) * 2 ^ 6) by lia.
  rewrite lor_shift by lia. unfold c, b, a. lia.
Qed.

Lemma bytes3_chunk v : 0 ≤ v < 2 ^ 24 → bytes3 v = [v / 2 ^ 16; v / 2 ^ 8 mod 2 ^ 8; v mod 2 ^ 8].
Proof.
  intros Hv. unfold bytes3, uwrap. rewrite !Z.shiftr_div_pow2 by lia. rewrite (Z.mod_small (v / 2 ^ 16)); [done|].
  split; [apply Z.div_pos; lia|]. apply Z.div_lt_upper_bound; lia.
Qed.

Lemma bytes6_chunks a b : 0 ≤ b < 2 ^ 24 → bytes6 (a * 2 ^ 24 + b) = bytes3 a ++ bytes3 b.
Proof.
  intros Hb. unfold bytes6, bytes3, uwrap. rewrite !Z.shiftr_div_pow2 by lia. cbn [app].
  assert (∀ k, 0 ≤ k → (a * 2 ^ 24 + b) / 2 ^ (24 + k) = a / 2 ^ k) as Hhi.
  { intros k Hk. rewrite Z.pow_add_r by lia. rewrite <- Z.div_div by lia. rewrite Z.div_add_l by lia.
    rewrite (Z.div_small b) by lia. by rewrite Z.add_0_r. }
  assert (∀ k, 0 ≤ k ≤ 16 → (a * 2 ^ 24 + b) / 2 ^ k mod 2 ^ 8 = b / 2 ^ k mod 2 ^ 8) as Hlo.
  { intros k Hk. replace (a * 2 ^ 24 + b) with (a * 2 ^ (16 - k) * 2 ^ 8 * 2 ^ k + b).
    - rewrite Z.div_add_l by (apply Z.pow_nonzero; lia). rewrite Z.add_comm, Z_mod_plus_full. done.
    - f_equal. rewrite <- !Z.mul_assoc, <- !Z.pow_add_r by lia. do 2 f_equal. lia. }
  pose proof (Hhi 16 ltac:(lia)) as H1. pose proof (Hhi 8 ltac:(lia)) as H2. pose proof (Hhi 0 ltac:(lia)) as H3.
  pose proof (Hlo 16 ltac:(lia)) as H4. pose proof (Hlo 8 ltac:(lia)) as H5. pose proof (Hlo 0 ltac:(lia)) as H6.
  change (24 + 16) with 40 in H1. change (24 + 8) with 32 in H2. change (24 + 0) with 24 in H3. rewrite Z.pow_0_r, !Z.div_1_r in *. rewrite H1, H2, H3, H4, H5, H6. done.
Qed.

(** ** Slices and white space *)

Lemma putBytes_spec b off bs :
  (off + length bs ≤ length b)%nat →
  let b' := putBytes b off bs in
  length b' = length b ∧ take (off + length bs) b' = take off b ++ bs ∧
  drop (off + length bs) b' = drop (off + length bs) b.
Proof.
  intros Hl. unfold putBytes. assert (length (take off b) = off) as Ht by (rewrite length_take; lia). split.
  - rewrite !length_app, length_drop. lia.
  - rewrite app_assoc. assert (length (take off b ++ bs) = off + length bs)%nat as Hab by (rewrite length_app; lia).
    by rewrite take_app_length', drop_app_length'.
Qed.

Lemma copyBytes_fits b off bs :
  (off + length bs ≤ length b)%nat → copyBytes b off bs = (putBytes b off bs, length bs).
Proof. intros Hl. unfold copyBytes. rewrite Nat.min_r by lia. by rewrite take_ge by lia. Qed.

Lemma skip_spec s index :
  (index ≤ length s)%nat →
  let i' := skipAsciiWhitespace s index in (index ≤ i' ≤ length s)%nat ∧ drop i' s = skipWs (drop index s).
Proof.
  intros Hi. unfold skipAsciiWhitespace. remember (drop index s) as rest eqn:Hr. revert index Hi Hr.
  induction rest as [|c rest IH]; intros index Hi Hr; cbn; [by split; [lia|]|].
  destruct (isAsciiWhitespace c); [|by split; [lia|]].
  assert (index < length s)%nat as Hlt.
  { destruct (decide (index < length s)%nat); [done|]. by rewrite drop_ge in Hr by lia. }
  rewrite (drop_S _ (at_ s index)) in Hr by (unfold at_; destruct (lookup_lt_is_Some_2 s index Hlt) as [x Hx]; by rewrite (nth_lookup_Some _ _ _ _ Hx)).
  injection Hr as _ Hr. destruct (IH (S index)) as [? ?]; [lia|done|]. split; [lia|done].
Qed.

Lemma skipWs_head l c l' : skipWs l = c :: l' → isAsciiWhitespace c = false.
Proof. induction l as [|x l IH]; [done|]. cbn. destruct (isAsciiWhitespace x) eqn:E; [done|]. by intros [= <- _]. Qed.

Lemma at_drop s i c l : drop i s = c :: l → at_ s i = c ∧ drop (S i) s = l ∧ (i < length s)%nat.
Proof.
  intros Hd. assert (s !! i = Some c) as Hi by (rewrite <- (Nat.add_0_r i), <- lookup_drop, Hd; done).
  split; [by apply (nth_lookup_Some _ _ _ _ Hi)|]. split; [|by eapply lookup_lt_Some].
  rewrite (drop_S _ _ _ Hi) in Hd. by injection Hd.
Qed.

Section decoder.
Context (s : list Z) (url : bool) (h : base64LastChunkHandling) (n : nat).
Hypothesis units_s : Forall isUnit s.

Abbreviation D := (specDecode url h (length s) (Some n)).

Lemma spec_skipLoop rest chunk index read bytes :
  D rest chunk index read bytes = D (skipWs rest) chunk (skipLoop rest index) read bytes.
Proof.
  revert index. induction rest as [|c rest IH]; intros index; [done|]. cbn [skipWs skipLoop].
  destruct (isAsciiWhitespace c) eqn:E; [|done]. cbn [specDecode]. rewrite E. apply IH.
Qed.

Lemma spec_skip chunk index read bytes :
  (index ≤ length s)%nat →
  let i' := skipAsciiWhitespace s index in D (drop index s) chunk index read bytes = D (drop i' s) chunk i' read bytes.
Proof. intros Hi. cbn zeta. rewrite (proj2 (skip_spec s index Hi)). apply spec_skipLoop. Qed.

(** ** One chunk *)

(** The array of the code holds the chunk, then zeros. *)
Definition padded (chunk : list Z) : list Z := chunk ++ replicate (4 - length chunk) 0.

Lemma at_padded chunk i : at_ (padded chunk) i = at_ chunk i.
Proof.
  unfold at_, padded. destruct (decide (i < length chunk)%nat); [by rewrite app_nth1|].
  rewrite app_nth2, (nth_overflow chunk) by lia. rewrite nth_lookup.
  destruct (replicate _ _ !! _) as [x|] eqn:E; [by apply lookup_replicate_1 in E as [-> _]|done].
Qed.

Lemma chunk_sextets chunk i : Forall isSextet chunk → isSextet (at_ chunk i).
Proof.
  intros Hc. unfold at_. destruct (decide (i < length chunk)%nat) as [Hi|Hi]; [|rewrite nth_overflow by lia; split; lia].
  destruct (lookup_lt_is_Some_2 chunk i Hi) as [x Hx]. rewrite (nth_lookup_Some _ _ _ _ Hx). by eapply Forall_lookup_1.
Qed.

Lemma padded_bytes chunk :
  Forall isSextet chunk →
  bytes3 (base64Assemble32Checked (at_ (padded chunk) 0) (at_ (padded chunk) 1) (at_ (padded chunk) 2) (at_ (padded chunk) 3))
  = chunkBytes chunk.
Proof.
  intros Hc. rewrite !at_padded. rewrite assemble32_bits by (by apply chunk_sextets).
  rewrite bytes3_chunk by (apply chunkBits_range; by apply chunk_sextets). done.
Qed.

Lemma padded_insert chunk v :
  (length chunk < 4)%nat → <[length chunk := v]> (padded chunk) = padded (chunk ++ [v]).
Proof.
  intros Hl. unfold padded. replace (4 - length chunk)%nat with (S (4 - length (chunk ++ [v]))) by (rewrite length_app; cbn; lia).
  cbn [replicate]. rewrite insert_app_r_alt, Nat.sub_diag by lia. cbn. by rewrite <- app_assoc.
Qed.

Lemma decodeFinal_spec chunk strict :
  Forall isSextet chunk → (2 ≤ length chunk ≤ 3)%nat →
  if strict && extraBits chunk then ∃ e, decodeFinalBase64Chunk (padded chunk) (length chunk) strict = inr e
  else decodeFinalBase64Chunk (padded chunk) (length chunk) strict = inl (chunkBytes chunk, (length chunk - 1)%nat).
Proof.
  intros Hc Hl. unfold decodeFinalBase64Chunk, extraBits. rewrite padded_bytes by done.
  assert (length chunk = 2 ∨ length chunk = 3)%nat as [->| ->] by lia; cbn [Nat.eqb Nat.sub];
    destruct (strict && _); done || by eexists.
Qed.

Definition isErr (st : decodeState) : bool := match err st with Some _ => true | None => false end.

(** What a step leaves of the destination. *)
Definition frame (dst0 : list Z) (w : nat) (st : decodeState) : Prop :=
  length (dst st) = n ∧ (w ≤ written st ≤ n)%nat ∧ drop (written st) (dst st) = drop (written st) dst0.

Definition outcomeOf (st : decodeState) : nat * list Z * bool := (read st, take (written st) (dst st), isErr st).

(** The bytes of the last chunk are appended. *)
Lemma finish_spec dst w dec m :
  length dst = n → (m ≤ length dec)%nat → (w + m ≤ n)%nat →
  let st := finishChunk s dst w dec m in
  frame dst w st ∧ eof st = true ∧ outcomeOf st = (length s, take w dst ++ take m dec, false).
Proof.
  intros Hn Hd Hl. cbn zeta. assert (length (take m dec) = m) as Hm by (rewrite length_take; lia).
  destruct (putBytes_spec dst w (take m dec)) as (H1 & H2 & H3); [lia|].
  unfold finishChunk. rewrite copyBytes_fits by lia. unfold frame, outcomeOf, isErr. cbn. rewrite H1, H2, H3.
  split; [|done]. split; [done|]. split; [lia|done].
Qed.

(** What the specification still has to do, before and after a step. *)
Definition chunkPost (dst0 : list Z) (w index : nat) (before : nat * list Z * bool) (st : decodeState) : Prop :=
  frame dst0 w st ∧
  if eof st || isErr st then before = outcomeOf st
  else before = D (drop (read st) s) [] (read st) (read st) (take (written st) (dst st)) ∧
       (index < read st ≤ length s)%nat ∧ (written st < n)%nat.

Lemma frame_same dst w ri e er : length dst = n → (w ≤ n)%nat → frame dst w (MkState ri dst w e er).
Proof. intros ? ?. split; [done|]. split; [cbn; lia|done]. Qed.

Lemma same_post dst w ri index e er before :
  length dst = n → (w < n)%nat → e || isErr (MkState ri dst w e er) = true →
  before = (ri, take w dst, isErr (MkState ri dst w e er)) → chunkPost dst w index before (MkState ri dst w e er).
Proof. intros Hn Hw He ->. split; [apply frame_same; [done|lia]|]. cbn [eof]. by rewrite He. Qed.

(** The end of the input. *)
Lemma chunkAtEnd_spec dst w ri index chunk :
  length dst = n → (w < n)%nat → Forall isSextet chunk → (length chunk < 4)%nat → (n - w = 1 → length chunk ≤ 2)%nat →
  chunkPost dst w index (D [] chunk index ri (take w dst)) (chunkAtEnd s h ri dst w (padded chunk) (length chunk)).
Proof.
  intros Hn Hw Hc Hl H1. destruct chunk as [|c chunk]; [split; [by apply frame_same; [|lia]|done]|].
  cbn [specDecode]. set (ch := c :: chunk) in *. unfold chunkAtEnd. destruct (Nat.ltb_spec 0 (length ch)); [|cbn in *; lia].
  destruct h; [destruct (Nat.eqb_spec (length ch) 1) as [E|E]| |]; try (by apply same_post).
  assert (2 ≤ length ch ≤ 3)%nat as Hlen by (cbn in *; lia).
  pose proof (decodeFinal_spec ch false Hc Hlen) as Hd. cbn [andb] in Hd. rewrite Hd.
  destruct (finish_spec dst w (chunkBytes ch) (length ch - 1)) as (Hf & He & Ho); [done|change (length (chunkBytes ch)) with 3%nat; lia|clearbody ch; lia|].
  split; [done|]. rewrite He. cbn [orb]. by rewrite Ho.
Qed.

(** The end of the padding. *)
Lemma chunkPadded_spec dst w ri index chunk k :
  length dst = n → (w < n)%nat → Forall isSextet chunk → (2 ≤ length chunk < 4)%nat → (n - w = 1 → length chunk ≤ 2)%nat →
  (k ≤ length s)%nat →
  chunkPost dst w index
    match drop k s with
    | _ :: _ => (ri, take w dst, true)
    | [] => if bool_decide (h = Strict) && extraBits chunk then (ri, take w dst, true)
            else (length s, take w dst ++ finalBytes chunk, false)
    end (chunkPadded s h ri dst w (padded chunk) (length chunk) k).
Proof.
  intros Hn Hw Hc Hl H1 Hk. unfold chunkPadded. destruct (Nat.ltb_spec k (length s)) as [El|El].
  - apply same_post; [done|done|done|]. destruct (drop k s) eqn:Ed; [|done].
    apply (f_equal length) in Ed. rewrite length_drop in Ed. cbn in Ed. lia.
  - rewrite drop_ge by lia. pose proof (decodeFinal_spec chunk (bool_decide (h = Strict)) Hc ltac:(lia)) as Hdf.
    destruct (bool_decide (h = Strict) && extraBits chunk); [destruct Hdf as [e ->]; by apply same_post|]. rewrite Hdf.
    destruct (finish_spec dst w (chunkBytes chunk) (length chunk - 1)) as (Hf & He & Ho); [done|change (length (chunkBytes chunk)) with 3%nat; lia|lia|].
    split; [done|]. rewrite He. cbn [orb]. by rewrite Ho.
Qed.

(** A padding character. *)
Lemma chunkAtPadding_spec dst w ri index chunk i :
  length dst = n → (w < n)%nat → Forall isSextet chunk → (length chunk < 4)%nat → (n - w = 1 → length chunk ≤ 2)%nat →
  (i ≤ length s)%nat →
  chunkPost dst w index (specPadding h (length s) (drop i s) chunk ri (take w dst))
    (chunkAtPadding s h ri dst w (padded chunk) (length chunk) i).
Proof.
  intros Hn Hw Hc Hl H1 Hi. unfold specPadding, chunkAtPadding.
  destruct (Nat.ltb_spec (length chunk) 2) as [E2|E2]; [by apply same_post|].
  destruct (skip_spec s i Hi) as [Hk Hd]. set (j := skipAsciiWhitespace s i) in *. rewrite <- Hd.
  pose proof (λ k, chunkPadded_spec dst w ri index chunk k Hn Hw Hc ltac:(lia) H1) as Htail.
  destruct (Nat.eqb (length chunk) 2); [|apply Htail; lia].
  destruct (Nat.eqb_spec j (length s)) as [Ej|Ej]; [rewrite drop_ge by lia; destruct h; by apply same_post|].
  destruct (drop j s) as [|c l] eqn:Ed; [apply (f_equal length) in Ed; rewrite length_drop in Ed; cbn in Ed; lia|].
  destruct (at_drop s j c l Ed) as (Hat & Hdr & Hlt). rewrite Hat. destruct (c =? 61).
  - destruct (skip_spec s (S j)) as [Hk2 Hd2]; [lia|]. rewrite <- Hdr, <- Hd2. apply Htail. lia.
  - pose proof (Htail j ltac:(lia)) as Ht. rewrite Ed in Ht. exact Ht.
Qed.

Lemma chunkPost_weaken dst w i i' before st : (i ≤ i')%nat → chunkPost dst w i' before st → chunkPost dst w i before st.
Proof. intros Hi [Hf H]. split; [done|]. destruct (eof st || isErr st); [done|]. destruct H as (? & ? & ?). split; [done|]. split; [lia|done]. Qed.

Lemma at_unit i c l : drop i s = c :: l → isUnit c.
Proof. intros Hd. rewrite <- (take_drop i s), Hd in units_s. apply Forall_app in units_s as [_ [? _]%Forall_cons]. done. Qed.

Lemma bool_decide_some (a b : nat) : bool_decide (Some a = Some b) = Nat.eqb a b.
Proof. destruct (Nat.eqb_spec a b); [apply bool_decide_eq_true_2|apply bool_decide_eq_false_2]; congruence. Qed.

(** A complete chunk is stored. *)
Lemma chunkFull_spec dst w index i chunk :
  length dst = n → (w + 3 ≤ n)%nat → Forall isSextet chunk → length chunk = 4%nat → (index < i ≤ length s)%nat →
  let m := base64Assemble32Checked (at_ (padded chunk) 0) (at_ (padded chunk) 1) (at_ (padded chunk) 2) (at_ (padded chunk) 3) in
  let st := if Nat.ltb 3 (n - w) then MkState i (base64Put3Bytes dst w m) (w + 3) false None
            else let '(dst, k) := copyBytes dst w (base64Put3Bytes (padded chunk) 0 m) in MkState i dst (w + k) true None in
  chunkPost dst w index
    (if bool_decide (Some n = Some (length (take w dst ++ chunkBytes chunk))) then (i, take w dst ++ chunkBytes chunk, false)
     else D (drop i s) [] i i (take w dst ++ chunkBytes chunk)) st.
Proof.
  intros Hn Hw Hc Hl Hi. cbn zeta. unfold base64Put3Bytes. rewrite padded_bytes by done.
  assert (length (take w dst ++ chunkBytes chunk) = w + 3)%nat as Hlen by (rewrite length_app, length_take; cbn; lia). rewrite Hlen.
  destruct (putBytes_spec dst w (chunkBytes chunk)) as (P1 & P2 & P3); [cbn; lia|]. change (length (chunkBytes chunk)) with 3%nat in *.
  assert (frame dst w (MkState i (putBytes dst w (chunkBytes chunk)) (w + 3) (negb (Nat.ltb 3 (n - w))) None)) as Hf.
  { split; [cbn; lia|]. split; [cbn; lia|exact P3]. }
  destruct (Nat.ltb_spec 3 (n - w)) as [E|E]; cbn [negb] in Hf.
  - split; [done|]. cbn [eof isErr err orb read written Base64.dst]. rewrite bool_decide_eq_false_2 by (intros [= ?]; lia).
    rewrite P2. split; [done|]. split; lia.
  - rewrite bool_decide_eq_true_2 by (f_equal; lia).
    assert (copyBytes dst w (putBytes (padded chunk) 0 (chunkBytes chunk)) = (putBytes dst w (chunkBytes chunk), 3%nat)) as ->.
    { assert (length (padded chunk) = 4%nat) as H4 by (unfold padded; rewrite length_app, length_replicate; lia).
      unfold copyBytes. destruct (putBytes_spec (padded chunk) 0 (chunkBytes chunk)) as (Q1 & Q2 & _).
      { change (length (chunkBytes chunk)) with 3%nat. lia. }
      change (0 + length (chunkBytes chunk))%nat with 3%nat in Q2. change (take 0 (padded chunk) ++ chunkBytes chunk) with (chunkBytes chunk) in Q2.
      rewrite Q1, H4. replace ((length dst - w) `min` 4)%nat with 3%nat by lia. by rewrite Q2. }
    split; [done|]. cbn [eof orb]. unfold outcomeOf, isErr. cbn. by rewrite P2.
Qed.

Lemma chunkLoop_spec fuel dst w ri index chunk :
  length dst = n → (w < n)%nat → Forall isSextet chunk → (length chunk < 4)%nat → (n - w = 1 → length chunk ≤ 2)%nat →
  (n - w = 2 → length chunk ≤ 3)%nat → (index ≤ length s)%nat → (length s - index < fuel)%nat →
  ∃ st, chunkLoop s (decodeMapOf url) h fuel ri dst w index (padded chunk) (length chunk) = Some st ∧
    chunkPost dst w index (D (drop index s) chunk index ri (take w dst)) st.
Proof.
  intros Hn Hw. revert index chunk. induction fuel as [|fuel IH]; intros index chunk Hc Hl H1 H2 Hi Hfuel; [lia|].
  cbn [chunkLoop]. rewrite spec_skip by done. destruct (skip_spec s index Hi) as [Hk Hd]. set (i := skipAsciiWhitespace s index) in *.
  destruct (Nat.eqb_spec i (length s)) as [Ei|Ei].
  { eexists. split; [done|]. rewrite drop_ge by lia. apply chunkPost_weaken with i; [lia|]. by apply chunkAtEnd_spec. }
  destruct (drop i s) as [|c rest] eqn:Ed; [apply (f_equal length) in Ed; rewrite length_drop in Ed; cbn in Ed; lia|].
  destruct (at_drop s i c rest Ed) as (-> & Hrest & Hlt). cbn [specDecode].
  rewrite (skipWs_head _ _ _ (eq_sym Hd)). pose proof (at_unit _ _ _ Ed) as Hu. unfold isUnit in Hu.
  destruct (c =? 61) eqn:Ec.
  { eexists. split; [done|]. rewrite <- Hrest. apply chunkAtPadding_spec; (done || lia). }
  assert (∀ msg, sextet url c = None → ∃ st, Some (MkState ri dst w false (Some msg)) = Some st ∧
    chunkPost dst w index (match sextet url c with None => (ri, take w dst, true) | Some _ => D rest chunk i ri (take w dst) end) st) as Hinv.
  { intros msg ->. eexists. split; [done|]. by apply same_post. }
  destruct (Z.leb_spec 128 c) as [E128|E128].
  { destruct (sextet url c) as [v|] eqn:Es; [apply sextet_range in Es; lia|]. by apply (Hinv "invalid base64 character"%string). }
  change (at_ (decodeMapOf url) (Z.to_nat c)) with (dm (decodeMapOf url) c). rewrite decodeMap_sextet by lia.
  destruct (sextet url c) as [v|] eqn:Es; cbn [default from_option id];
    [|by apply (Hinv "invalid base64 character"%string)].
  destruct (sextet_range _ _ _ Es) as (Hv & _). rewrite (proj2 (Z.eqb_neq v 255)) by lia.
  rewrite Hn. replace (length (take w dst)) with w by (rewrite length_take; lia). cbn [fmap option_fmap option_map].
  rewrite !bool_decide_some.
  destruct ((Nat.eqb (n - w) 1 && Nat.eqb (length chunk) 2) || (Nat.eqb (n - w) 2 && Nat.eqb (length chunk) 3)) eqn:Elim.
  { eexists. split; [done|]. by apply same_post. }
  rewrite padded_insert by done. replace (S (length chunk)) with (length (chunk ++ [v])) by (rewrite length_app; cbn; lia).
  assert (Forall isSextet (chunk ++ [v])) as Hc' by (apply Forall_app; split; [done|]; by apply Forall_singleton).
  assert (length (chunk ++ [v]) = S (length chunk)) as Hlen by (rewrite length_app; cbn; lia).
  apply orb_false_iff in Elim as [L1%andb_false_iff L2%andb_false_iff]. rewrite !Nat.eqb_neq in L1, L2.
  destruct (Nat.eqb_spec (length (chunk ++ [v])) 4) as [E4|E4].
  - pose proof (chunkFull_spec dst w index (S i) (chunk ++ [v]) Hn ltac:(lia) Hc' E4 ltac:(lia)) as Hfull. cbn zeta in Hfull.
    rewrite Hrest, bool_decide_some in Hfull. destruct (Nat.ltb 3 (n - w)); [eexists; split; [done|exact Hfull]|].
    destruct (copyBytes dst w _) as [dst' k]. eexists. split; [done|exact Hfull].
  - destruct (IH (S i) (chunk ++ [v])) as (st & Hst & Hp); [done|lia|lia|lia|lia|lia|]. exists st. split; [done|].
    rewrite Hrest in Hp. apply chunkPost_weaken with (S i); [lia|done].
Qed.

Lemma base64DecodeChunk_spec dst w index :
  length dst = n → (w < n)%nat → (index ≤ length s)%nat →
  ∃ st, base64DecodeChunk s (decodeMapOf url) h index dst w = Some st ∧
    chunkPost dst w index (D (drop index s) [] index index (take w dst)) st.
Proof. intros Hn Hw Hi. apply (chunkLoop_spec _ dst w index index []); cbn; (done || lia). Qed.

(** ** The fast loops *)

(** What the specification still has to do between chunks. *)
Definition now (read : nat) (bytes : list Z) : nat * list Z * bool :=
  if Nat.eqb (length bytes) n then (read, bytes, false) else D (drop read s) [] read read bytes.

(** A character of the alphabet, read by the specification. *)
Lemma spec_sextet c v rest chunk index read bytes :
  sextet url c = Some v → (length chunk < 4)%nat → (length bytes + 3 ≤ n)%nat →
  D (c :: rest) chunk index read bytes =
    if Nat.eqb (length chunk) 3 then
      (let bytes := bytes ++ chunkBytes (chunk ++ [v]) in
       if Nat.eqb n (length bytes) then (S index, bytes, false) else D rest [] (S index) (S index) bytes)
    else D rest (chunk ++ [v]) (S index) read bytes.
Proof.
  intros Hs Hl Hb. destruct (sextet_range _ _ _ Hs) as (_ & _ & Hws & Hpad). cbn [specDecode]. rewrite Hws, Hpad, Hs.
  cbn [fmap option_fmap option_map]. rewrite !bool_decide_some.
  rewrite (proj2 (Nat.eqb_neq (n - length bytes) 1)), (proj2 (Nat.eqb_neq (n - length bytes) 2)) by lia. cbn [andb orb].
  rewrite length_app, Nat.add_1_r. cbn [length Nat.eqb]. done.
Qed.

(** Four characters of the alphabet. *)
Lemma now_chunk read bytes src vs :
  take 4 (drop read s) = src → Forall2 (λ c v, sextet url c = Some v) src vs → length src = 4%nat →
  (length bytes + 3 ≤ n)%nat → now read bytes = now (read + 4) (bytes ++ chunkBytes vs).
Proof.
  intros Hsrc Hv Hl Hb. assert (drop read s = src ++ drop (read + 4) s) as Hd.
  { rewrite <- Hsrc, <- drop_drop. by rewrite take_drop. }
  unfold now at 1. rewrite (proj2 (Nat.eqb_neq (length bytes) n)) by lia. rewrite Hd.
  destruct src as [|c1 [|c2 [|c3 [|c4 [|]]]]]; try done. cbn [app].
  apply Forall2_cons_inv_l in Hv as (v1 & vs1 & S1 & Hv & ->). apply Forall2_cons_inv_l in Hv as (v2 & vs2 & S2 & Hv & ->).
  apply Forall2_cons_inv_l in Hv as (v3 & vs3 & S3 & Hv & ->). apply Forall2_cons_inv_l in Hv as (v4 & vs4 & S4 & Hv & ->).
  apply Forall2_nil_inv_l in Hv as ->.
  do 4 (erewrite spec_sextet by (done || cbn; lia); cbn [length Nat.eqb app]). cbn zeta. unfold now. rewrite (Nat.eqb_sym n).
  by replace (S (S (S (S read)))) with (read + 4)%nat by lia.
Qed.

(** What a fast path promises: the characters are in the alphabet, and the bytes
    of the result are theirs. *)
Definition decodesTo (fast : list Z → option Z) (bytesOf : Z → list Z) (width : nat) : Prop :=
  ∀ src dn, length src = width → Forall (λ c, c ∈ s) src → fast src = Some dn →
    ∃ vs, Forall2 (λ c v, sextet url c = Some v) src vs ∧
      bytesOf dn = if Nat.eqb width 8 then chunkBytes (take 4 vs) ++ chunkBytes (drop 4 vs) else chunkBytes vs.

(** After a loop: the result is final, or the specification goes on from here. *)
Definition loopPost (dst0 : list Z) (w : nat) (before : nat * list Z * bool) (st : decodeState) : Prop :=
  frame dst0 w st ∧
  if eof st then before = outcomeOf st
  else isErr st = false ∧ before = now (read st) (take (written st) (dst st)) ∧ (read st ≤ length s)%nat.

Lemma frame_trans dst0 w st1 st2 : frame dst0 w st1 → frame (dst st1) (written st1) st2 → frame dst0 w st2.
Proof.
  intros (L1 & W1 & D1) (L2 & W2 & D2). split; [done|]. split; [lia|]. rewrite D2.
  replace (written st2) with (written st1 + (written st2 - written st1))%nat by lia.
  by rewrite <- !drop_drop, D1.
Qed.

Lemma now_fast width out fast bytesOf read bytes dn :
  (width = 8 ∧ out = 6 ∨ width = 4 ∧ out = 3)%nat → decodesTo fast bytesOf width →
  fast (take width (drop read s)) = Some dn → (width ≤ length s - read)%nat → (length bytes + out ≤ n)%nat →
  length (bytesOf dn) = out ∧ now read bytes = now (read + width) (bytes ++ bytesOf dn).
Proof.
  intros Hw Hfast Hdn Hlen Hb. assert (length (take width (drop read s)) = width) as Hl by (rewrite length_take, length_drop; lia).
  destruct (Hfast _ dn Hl) as (vs & Hvs & Hbytes); [|done|].
  { apply Forall_take, Forall_drop. by apply Forall_forall. }
  pose proof (Forall2_length _ _ _ Hvs) as Hlv. destruct Hw as [[-> ->]|[-> ->]]; cbn [Nat.eqb] in Hbytes; rewrite Hbytes.
  - split; [done|]. rewrite (now_chunk read bytes (take 4 (drop read s)) (take 4 vs)); [|done| | |lia].
    + rewrite (now_chunk (read + 4) (bytes ++ chunkBytes (take 4 vs)) (take 4 (drop (read + 4) s)) (drop 4 vs)); [|done| | |].
      * rewrite <- app_assoc. by replace (read + 4 + 4)%nat with (read + 8)%nat by lia.
      * apply (Forall2_drop _ _ _ 4) in Hvs. rewrite skipn_firstn_comm in Hvs. cbn [Nat.sub] in Hvs. by rewrite drop_drop in Hvs.
      * rewrite length_take, length_drop. lia.
      * rewrite length_app. cbn. lia.
    + apply (Forall2_take _ _ _ 4) in Hvs. by rewrite take_take in Hvs.
    + rewrite length_take, length_drop. lia.
  - split; [done|]. by apply (now_chunk read bytes (take 4 (drop read s))).
Qed.

Lemma fastLoop_spec fuel width out fast put bytesOf r dst w :
  (width = 8 ∧ out = 6 ∨ width = 4 ∧ out = 3)%nat → decodesTo fast bytesOf width →
  (∀ b off v, put b off v = putBytes b off (bytesOf v)) →
  length dst = n → (w ≤ n)%nat → (r ≤ length s)%nat → (length s - r < fuel)%nat →
  ∃ st, fastLoop s (decodeMapOf url) h fuel width out fast put r dst w = Some st ∧ loopPost dst w (now r (take w dst)) st.
Proof.
  intros Hwo Hfast Hput. revert r dst w. induction fuel as [|fuel IH]; intros r dst w Hn Hw Hr Hfuel; [lia|]. cbn [fastLoop].
  destruct (Nat.leb_spec width (length s - r)) as [E1|E1]; [destruct (Nat.leb_spec out (length dst - w)) as [E2|E2]|];
    cbn [andb]; [|eexists; split; [done|]; split; [by apply frame_same|done]..].
  destruct (fast (take width (drop r s))) as [dn|] eqn:Ef.
  - destruct (now_fast width out fast bytesOf r (take w dst) dn Hwo Hfast Ef E1) as [Hbl Hnow]; [rewrite length_take; lia|].
    rewrite Hput. destruct (putBytes_spec dst w (bytesOf dn)) as (P1 & P2 & P3); [lia|]. rewrite Hbl in *.
    destruct (IH (r + width)%nat (putBytes dst w (bytesOf dn)) (w + out)%nat) as (st & Hst & Hf & Hp); [lia|lia|lia|lia|].
    exists st. split; [done|]. rewrite Hnow. rewrite P2 in Hp. split; [|done].
    apply (frame_trans dst w (MkState (r + width) (putBytes dst w (bytesOf dn)) (w + out) false None)); [|done].
    split; [cbn; lia|]. split; [cbn; lia|exact P3].
  - destruct (base64DecodeChunk_spec dst w r Hn ltac:(lia) Hr) as (st & -> & Hf & Hp). cbn [mbind option_bind].
    assert (now r (take w dst) = D (drop r s) [] r r (take w dst)) as Hnow.
    { unfold now. rewrite (proj2 (Nat.eqb_neq _ _)); [done|]. rewrite length_take. lia. }
    rewrite Hnow. destruct st as [r' dst' w' e er]. unfold isErr in Hp. cbn [eof err read written Base64.dst] in *.
    destruct e, er as [m|]; cbn [orb] in Hp; try (eexists; split; [done|]; split; [done|exact Hp]).
    destruct Hp as (Hp & Hrd & Hwr). destruct Hf as (F1 & F2 & F3). cbn in F1, F2, F3.
    destruct (IH r' dst' w') as (st & Hst & Hf' & Hp'); [done|lia|lia|lia|]. exists st. split; [done|]. rewrite Hp.
    assert (now r' (take w' dst') = D (drop r' s) [] r' r' (take w' dst')) as Hnow'.
    { unfold now. rewrite (proj2 (Nat.eqb_neq _ _)); [done|]. rewrite length_take. lia. }
    rewrite Hnow' in Hp'. split; [|done]. by apply (frame_trans dst w (MkState r' dst' w' false None)).
Qed.

Lemma slowLoop_spec fuel r dst w :
  length dst = n → (w < n)%nat → (r ≤ length s)%nat → (length s - r < fuel)%nat →
  ∃ st, slowLoop s (decodeMapOf url) h fuel r dst w = Some st ∧ frame dst w st ∧
    D (drop r s) [] r r (take w dst) = outcomeOf st.
Proof.
  revert r dst w. induction fuel as [|fuel IH]; intros r dst w Hn Hw Hr Hfuel; [lia|]. cbn [slowLoop].
  destruct (base64DecodeChunk_spec dst w r Hn Hw Hr) as (st & -> & Hf & Hp). cbn [mbind option_bind].
  destruct st as [r' dst' w' e er]. unfold isErr in Hp. cbn [eof err read written Base64.dst] in *.
  destruct er as [m|]; [rewrite orb_true_r in Hp; eexists; split; [done|]; by split|]. rewrite orb_false_r in Hp.
  destruct e; [eexists; split; [done|]; by split|]. destruct Hp as (-> & Hrd & Hwr). destruct Hf as (F1 & F2 & F3). cbn in F1, F2, F3.
  destruct (IH r' dst' w') as (st & Hst & Hf' & Ho); [done|lia|lia|lia|]. exists st. split; [done|]. split; [|done].
  by apply (frame_trans dst w (MkState r' dst' w' false None)).
Qed.

(** ** The whole decoder *)

Lemma decodeLoops_spec fast8 fast4 dst :
  decodesTo fast8 bytes6 8 → decodesTo fast4 bytes3 4 → length dst = n →
  ∃ st, decodeLoops s (decodeMapOf url) h fast8 fast4 dst = Some st ∧ frame dst 0 st ∧
    FromBase64 s url h (Some n) = outcomeOf st.
Proof.
  intros H8 H4 Hn. assert (FromBase64 s url h (Some n) = now 0 (take 0 dst)) as ->.
  { unfold FromBase64, now. rewrite bool_decide_some, (Nat.eqb_sym n). cbn [take length]. by destruct n. }
  unfold decodeLoops.
  destruct (fastLoop_spec (S (length s)) 8 6 fast8 base64Put6Bytes bytes6 0 dst 0) as (st & -> & Hf & Hp); [auto|done|done|done|lia|lia|lia|].
  cbn [mbind option_bind]. destruct (eof st) eqn:E1; [by exists st|]. destruct Hp as (He1 & -> & Hr1). pose proof Hf as (L1 & W1 & D1).
  destruct (fastLoop_spec (S (length s)) 4 3 fast4 base64Put3Bytes bytes3 (read st) (Base64.dst st) (written st)) as (st2 & -> & Hf2 & Hp2);
    [auto|done|done|done|lia|lia|lia|]. cbn [mbind option_bind].
  pose proof (frame_trans _ _ _ _ Hf Hf2) as Hf02. destruct (eof st2) eqn:E2; [by exists st2|].
  destruct Hp2 as (He2 & -> & Hr2). pose proof Hf2 as (L2 & W2 & D2). rewrite L2. unfold now. rewrite length_take, L2.
  replace (written st2 `min` n)%nat with (written st2) by lia. destruct (Nat.eqb_spec (written st2) n) as [Ew|Ew].
  - exists st2. split; [done|]. split; [done|]. unfold outcomeOf. by rewrite He2.
  - destruct (slowLoop_spec (S (length s)) (read st2) (Base64.dst st2) (written st2)) as (st3 & Hst3 & Hf3 & Ho); [done|lia|lia|lia|].
    exists st3. split; [done|]. split; [by eapply frame_trans|done].
Qed.

Lemma dm_sextet c : 0 ≤ c < 256 → dm (decodeMapOf url) c ≠ 0xff → ∃ v, sextet url c = Some v ∧ dm (decodeMapOf url) c = v ∧ isSextet v.
Proof.
  intros Hc. rewrite decodeMap_sextet by done. destruct (sextet url c) as [v|] eqn:E; [|done]. intros _. exists v.
  split; [done|]. split; [done|]. by apply sextet_range in E as [? _].
Qed.

(** Four table entries whose disjunction is not 0xff are sextets. *)
Lemma asciiFast4_spec c1 c2 c3 c4 dn :
  Forall (λ c, 0 ≤ c < 256) [c1; c2; c3; c4] → asciiFast4 (decodeMapOf url) [c1; c2; c3; c4] = Some dn →
  ∃ vs, Forall2 (λ c v, sextet url c = Some v) [c1; c2; c3; c4] vs ∧ bytes3 dn = chunkBytes vs.
Proof.
  intros Hc. rewrite !Forall_cons in Hc. destruct Hc as (H1 & H2 & H3 & H4 & _).
  unfold asciiFast4, base64Assemble32, at_. cbn [nth]. set (d := dm (decodeMapOf url)).
  destruct (lor_entry (d c1) (d c2)) as [E2 L2]; [by apply dm_entry..|].
  destruct (lor_entry (Z.lor (d c1) (d c2)) (d c3)) as [E3 L3]; [done|by apply dm_entry|].
  destruct (lor_entry (Z.lor (Z.lor (d c1) (d c2)) (d c3)) (d c4)) as [E4 L4]; [done|by apply dm_entry|].
  destruct (Z.eqb_spec (Z.lor (Z.lor (Z.lor (d c1) (d c2)) (d c3)) (d c4)) 255) as [|Hne]; [done|]. intros [= <-].
  destruct (dm_sextet c1 H1) as (v1 & ? & Hv1 & ?); [tauto|]. destruct (dm_sextet c2 H2) as (v2 & ? & Hv2 & ?); [tauto|].
  destruct (dm_sextet c3 H3) as (v3 & ? & Hv3 & ?); [tauto|]. destruct (dm_sextet c4 H4) as (v4 & ? & Hv4 & ?); [tauto|].
  fold d in Hv1, Hv2, Hv3, Hv4. exists [v1; v2; v3; v4]. split; [by repeat constructor|].
  rewrite Hv1, Hv2, Hv3, Hv4, assemble32_bits, bytes3_chunk by (done || by apply chunkBits_range). done.
Qed.

Lemma asciiFast8_spec c1 c2 c3 c4 c5 c6 c7 c8 dn :
  Forall (λ c, 0 ≤ c < 256) [c1; c2; c3; c4; c5; c6; c7; c8] →
  asciiFast8 (decodeMapOf url) [c1; c2; c3; c4; c5; c6; c7; c8] = Some dn →
  ∃ vs, Forall2 (λ c v, sextet url c = Some v) [c1; c2; c3; c4; c5; c6; c7; c8] vs ∧
    bytes6 dn = chunkBytes (take 4 vs) ++ chunkBytes (drop 4 vs).
Proof.
  intros Hc. rewrite !Forall_cons in Hc. destruct Hc as (H1 & H2 & H3 & H4 & H5 & H6 & H7 & H8 & _).
  unfold asciiFast8, base64Assemble64, at_. cbn [nth]. set (d := dm (decodeMapOf url)).
  destruct (lor_entry (d c1) (d c2)) as [E2 L2]; [by apply dm_entry..|]. set (o2 := Z.lor (d c1) (d c2)) in *.
  destruct (lor_entry o2 (d c3)) as [E3 L3]; [done|by apply dm_entry|]. set (o3 := Z.lor o2 (d c3)) in *.
  destruct (lor_entry o3 (d c4)) as [E4 L4]; [done|by apply dm_entry|]. set (o4 := Z.lor o3 (d c4)) in *.
  destruct (lor_entry o4 (d c5)) as [E5 L5]; [done|by apply dm_entry|]. set (o5 := Z.lor o4 (d c5)) in *.
  destruct (lor_entry o5 (d c6)) as [E6 L6]; [done|by apply dm_entry|]. set (o6 := Z.lor o5 (d c6)) in *.
  destruct (lor_entry o6 (d c7)) as [E7 L7]; [done|by apply dm_entry|]. set (o7 := Z.lor o6 (d c7)) in *.
  destruct (lor_entry o7 (d c8)) as [E8 L8]; [done|by apply dm_entry|].
  destruct (Z.eqb_spec (Z.lor o7 (d c8)) 255) as [|Hne]; [done|]. intros [= <-]. clearbody o2 o3 o4 o5 o6 o7.
  destruct (dm_sextet c1 H1) as (v1 & ? & Hv1 & ?); [tauto|]. destruct (dm_sextet c2 H2) as (v2 & ? & Hv2 & ?); [tauto|].
  destruct (dm_sextet c3 H3) as (v3 & ? & Hv3 & ?); [tauto|]. destruct (dm_sextet c4 H4) as (v4 & ? & Hv4 & ?); [tauto|].
  destruct (dm_sextet c5 H5) as (v5 & ? & Hv5 & ?); [tauto|]. destruct (dm_sextet c6 H6) as (v6 & ? & Hv6 & ?); [tauto|].
  destruct (dm_sextet c7 H7) as (v7 & ? & Hv7 & ?); [tauto|]. destruct (dm_sextet c8 H8) as (v8 & ? & Hv8 & ?); [tauto|].
  fold d in Hv1, Hv2, Hv3, Hv4, Hv5, Hv6, Hv7, Hv8. exists [v1; v2; v3; v4; v5; v6; v7; v8]. split; [by repeat constructor|].
  rewrite Hv1, Hv2, Hv3, Hv4, Hv5, Hv6, Hv7, Hv8, assemble64_bits by done. cbn [take drop].
  rewrite bytes6_chunks, !bytes3_chunk by (by apply chunkBits_range). done.
Qed.

(** Lists of eight and of four. *)
Lemma decodesTo8 fast :
  (∀ c1 c2 c3 c4 c5 c6 c7 c8 dn, Forall (λ c, c ∈ s) [c1; c2; c3; c4; c5; c6; c7; c8] →
     fast [c1; c2; c3; c4; c5; c6; c7; c8] = Some dn →
     ∃ vs, Forall2 (λ c v, sextet url c = Some v) [c1; c2; c3; c4; c5; c6; c7; c8] vs ∧
       bytes6 dn = chunkBytes (take 4 vs) ++ chunkBytes (drop 4 vs)) → decodesTo fast bytes6 8.
Proof.
  intros Hf src dn Hl Hs Hdn. destruct src as [|c1 [|c2 [|c3 [|c4 [|c5 [|c6 [|c7 [|c8 [|]]]]]]]]]; try done. by apply Hf.
Qed.

Lemma decodesTo4 fast :
  (∀ c1 c2 c3 c4 dn, Forall (λ c, c ∈ s) [c1; c2; c3; c4] → fast [c1; c2; c3; c4] = Some dn →
     ∃ vs, Forall2 (λ c v, sextet url c = Some v) [c1; c2; c3; c4] vs ∧ bytes3 dn = chunkBytes vs) → decodesTo fast bytes3 4.
Proof. intros Hf src dn Hl Hs Hdn. destruct src as [|c1 [|c2 [|c3 [|c4 [|]]]]]; try done. by apply Hf. Qed.

(** The check of the high bytes. *)
Lemma lor_high a c : 0 ≤ a → 0 ≤ c < 65536 → Z.land (Z.lor a c) 0xFF00 = 0 → Z.land a 0xFF00 = 0 ∧ c < 256.
Proof.
  intros Ha Hc. rewrite Z.land_lor_distr_l. intros [H1 H2]%Z.lor_eq_0_iff. split; [done|].
  change 0xFF00 with (Z.shiftl (Z.ones 8) 8) in H2. assert (c / 2 ^ 8 = 0) as Hd.
  { apply Z.bits_inj'. intros i Hi. rewrite Z.bits_0, <- Z.shiftr_div_pow2, Z.shiftr_spec by lia.
    destruct (decide (i < 8)).
    - apply (f_equal (λ z, Z.testbit z (i + 8))) in H2. rewrite Z.bits_0, Z.land_spec, Z.shiftl_spec in H2 by lia.
      replace (i + 8 - 8) with i in H2 by lia. by rewrite Z.ones_spec_low, andb_true_r in H2 by lia.
    - destruct (decide (c = 0)) as [->|]; [apply Z.bits_0|]. apply Z.bits_above_log2; [lia|].
      enough (Z.log2 c < 16) by lia. apply Z.log2_lt_pow2; lia. }
  apply Z.div_small_iff in Hd; lia.
Qed.

Lemma noHighBits_spec src : Forall isUnit src → noHighBits src = true → Forall (λ c, 0 ≤ c < 256) src.
Proof.
  intros Hu. unfold noHighBits. rewrite Z.eqb_eq. assert (∀ a, 0 ≤ a → Z.land (foldl Z.lor a src) 0xFF00 = 0 →
    Z.land a 0xFF00 = 0 ∧ Forall (λ c, 0 ≤ c < 256) src) as H; [|intros Hz; by apply (H 0)].
  induction Hu as [|c src Hc Hu IH]; intros a Ha; [done|]. cbn [foldl]. intros Hz. unfold isUnit in Hc.
  destruct (IH (Z.lor a c)) as [H1 H2]; [apply Z.lor_nonneg; lia|done|]. apply lor_high in H1 as [? ?]; [|done|done].
  split; [done|]. constructor; [lia|done].
Qed.

Lemma uint8_id src : Forall (λ c, 0 ≤ c < 256) src → uwrap 8 <$> src = src.
Proof. induction 1 as [|c src Hc _ IH]; [done|]. cbn. rewrite IH. f_equal. by apply uwrap_id. Qed.

End decoder.

Lemma decodeAscii_fast s url : Forall isAsciiByte s →
  decodesTo s url (asciiFast8 (decodeMapOf url)) bytes6 8 ∧ decodesTo s url (asciiFast4 (decodeMapOf url)) bytes3 4.
Proof.
  intros Ha. rewrite Forall_forall in Ha. assert (∀ l, Forall (λ c, c ∈ s) l → Forall (λ c, 0 ≤ c < 256) l) as Hs.
  { intros l Hl. eapply Forall_impl; [exact Hl|]. cbn. intros c Hc%Ha. unfold isAsciiByte in Hc. lia. }
  split; [apply decodesTo8|apply decodesTo4]; intros; [by apply asciiFast8_spec; [apply Hs|]|by apply asciiFast4_spec; [apply Hs|]].
Qed.

Lemma decodeUnicode_fast s url : Forall isUnit s →
  decodesTo s url (unicodeFast8 (decodeMapOf url)) bytes6 8 ∧ decodesTo s url (unicodeFast4 (decodeMapOf url)) bytes3 4.
Proof.
  intros Ha. rewrite Forall_forall in Ha. assert (∀ l, Forall (λ c, c ∈ s) l → noHighBits l = true → Forall (λ c, 0 ≤ c < 256) l) as Hs.
  { intros l Hl. apply noHighBits_spec. eapply Forall_impl; [exact Hl|]. done. }
  split; [apply decodesTo8|apply decodesTo4]; unfold unicodeFast8, unicodeFast4.
  - intros c1 c2 c3 c4 c5 c6 c7 c8 dn Hin. destruct (noHighBits _) eqn:E; [|done]. rewrite uint8_id by (by apply Hs).
    apply asciiFast8_spec. by apply Hs.
  - intros c1 c2 c3 c4 dn Hin. destruct (noHighBits _) eqn:E; [|done]. rewrite uint8_id by (by apply Hs).
    apply asciiFast4_spec. by apply Hs.
Qed.

Lemma fromBase64Into_spec (s : Str) url h dst :
  wfStr s →
  ∃ st, fromBase64Into s (decodeMapOf url) h dst = Some st ∧ frame (length dst) dst 0 st ∧
    FromBase64 (units s) url h (Some (length dst)) = outcomeOf st.
Proof.
  intros Hs. destruct (devirtualize_spec s Hs) as [Hf Hu]. pose proof (flat_units_unit _ Hf) as Hunits. rewrite Hu in Hunits.
  unfold fromBase64Into. destruct (devirtualizeString s) as [a|u]; cbn in Hf, Hu; rewrite <- Hu in *.
  - destruct (decodeAscii_fast a url Hf). by apply decodeLoops_spec.
  - destruct (decodeUnicode_fast (tail u) url Hunits). by apply decodeLoops_spec.
Qed.

(** A destination of three bytes for every four characters does not limit. *)
Lemma spec_unlimited url h total q rest chunk index read bytes b :
  length bytes = (3 * b)%nat → (b < q)%nat → (4 * b + length chunk + length rest ≤ 4 * q)%nat → (length chunk < 4)%nat →
  (index + length rest = total)%nat →
  specDecode url h total (Some (3 * q)%nat) rest chunk index read bytes = specDecode url h total None rest chunk index read bytes.
Proof.
  revert chunk index read bytes b. induction rest as [|c rest IH]; intros chunk index read bytes b Hb Hq Hl Hc Hi; [done|].
  cbn [specDecode length] in *. destruct (isAsciiWhitespace c); [apply (IH _ _ _ _ b); lia|]. destruct (c =? 61); [done|].
  destruct (sextet url c) as [v|]; [|done]. cbn [fmap option_fmap option_map]. rewrite !bool_decide_some.
  rewrite (proj2 (Nat.eqb_neq (3 * q - length bytes) 1)), (proj2 (Nat.eqb_neq (3 * q - length bytes) 2)) by lia. cbn [andb orb].
  rewrite !(bool_decide_eq_false_2 (None = _)) by done. cbn [andb orb]. rewrite length_app. cbn [length].
  destruct (Nat.eqb_spec (length chunk + 1) 4) as [E|E].
  - assert (length (bytes ++ chunkBytes (chunk ++ [v])) = 3 * S b)%nat as Hb' by (rewrite length_app; cbn [length chunkBytes]; lia).
    rewrite Hb'. destruct (Nat.eqb_spec (3 * q) (3 * S b)) as [Eq|Eq]; [|apply (IH _ _ _ _ (S b)); cbn [length]; lia].
    destruct rest as [|]; [|cbn in Hl; lia]. cbn [specDecode]. do 2 f_equal. cbn in Hi. lia.
  - apply (IH _ _ _ _ b); rewrite ?length_app; cbn [length]; lia.
Qed.

Lemma FromBase64_unlimited s url h :
  FromBase64 s url h (Some (Z.to_nat ((len s + 3) / 4 * 3))) = FromBase64 s url h None.
Proof.
  unfold FromBase64, len. rewrite (bool_decide_eq_false_2 (None = _)) by done. rewrite bool_decide_some.
  set (q := Z.to_nat ((Z.of_nat (length s) + 3) / 4)).
  assert (4 * ((Z.of_nat (length s) + 3) / 4) ≤ Z.of_nat (length s) + 3 < 4 * ((Z.of_nat (length s) + 3) / 4) + 4) as Hd.
  { pose proof (Z.div_mod (Z.of_nat (length s) + 3) 4 ltac:(lia)). pose proof (Z.mod_pos_bound (Z.of_nat (length s) + 3) 4 ltac:(lia)). lia. }
  replace (Z.to_nat ((Z.of_nat (length s) + 3) / 4 * 3)) with (3 * q)%nat by lia.
  destruct (Nat.eqb_spec (3 * q) 0) as [E|E]; [destruct s; [done|cbn [length] in *; lia]|].
  apply (spec_unlimited _ _ _ q _ _ _ _ _ 0); cbn [length]; lia.
Qed.

(** C23: decoding base64 into a buffer of any length, by the loops over eight and
    four characters with their fall-backs, always returns and does what FromBase64
    of the specification does one character at a time: it reads as many
    characters, writes the same bytes and fails in the same cases, for both
    alphabets, all treatments of the last chunk and all representations of the
    string; the rest of the buffer is unchanged. *)
Theorem fromBase64Into_refines (s : Str) (url : bool) (h : base64LastChunkHandling) (dst0 : list Z) :
  wfStr s →
  ∃ st, fromBase64Into s (decodeMapOf url) h dst0 = Some st ∧
    FromBase64 (units s) url h (Some (length dst0)) = (read st, take (written st) (dst st), isErr st) ∧
    (written st ≤ length dst0)%nat ∧ length (dst st) = length dst0 ∧ drop (written st) (dst st) = drop (written st) dst0.
Proof.
  intros Hs. destruct (fromBase64Into_spec s url h dst0 Hs) as (st & Hst & (H1 & H2 & H3) & Ho).
  exists st. split; [done|]. split; [done|]. split; [lia|done].
Qed.

(** The buffer that fromBase64 allocates, three bytes for every four
    characters, never limits the result: it is the one of FromBase64 without a
    maximal length. *)
Theorem fromBase64_unlimited (s : Str) (url : bool) (h : base64LastChunkHandling) :
  wfStr s →
  ∃ r bytes e, fromBase64 s (decodeMapOf url) h = Some (r, bytes, e) ∧
    FromBase64 (units s) url h None = (r, bytes, match e with Some _ => true | None => false end).
Proof.
  intros Hs. unfold fromBase64. rewrite Length_spec by done. set (k := Z.to_nat _).
  destruct (fromBase64Into_spec s url h (replicate k 0) Hs) as (st & -> & _ & Ho). cbn [mbind option_bind].
  rewrite length_replicate in Ho. unfold k in Ho. rewrite FromBase64_unlimited in Ho. eexists _, _, _. split; [done|]. by rewrite Ho.
Qed.

(** ** Witnesses *)

(** "Zm9v YmFyIQ=" with its padding incomplete. *)
Definition exText : Str := SAscii [90; 109; 57; 118; 32; 89; 109; 70; 121; 73; 81; 61].

Lemma exText_wf : wfStr exText.
Proof. by apply wf_ascii. Qed.

Lemma fromBase64Into_refines_witness :
  ∃ st, fromBase64Into exText base64DecodeMap Stop (replicate 9 7) = Some st ∧
    FromBase64 (units exText) false Stop (Some 9%nat) = (read st, take (written st) (dst st), false) ∧
    take (written st) (dst st) = [102; 111; 111; 98; 97; 114] ∧ read st = 9%nat.
Proof.
  destruct (fromBase64Into_refines exText false Stop (replicate 9 7) exText_wf) as (st & Hst & Ho & _).
  exists st. split; [exact Hst|]. vm_compute in Hst. injection Hst as <-. split; [exact Ho|]. split; reflexivity.
Defined.

Lemma fromBase64_unlimited_witness :
  fromBase64 (SAscii [81; 81; 61; 61]) base64DecodeMap Strict = Some (4%nat, [65], None) ∧
  FromBase64 [81; 81; 61; 61] false Strict None = (4%nat, [65], false).
Proof.
  assert (wfStr (SAscii [81; 81; 61; 61])) as Hs by (by apply wf_ascii).
  destruct (fromBase64_unlimited (SAscii [81; 81; 61; 61]) false Strict Hs) as (r & bytes & e & He & Hf).
  change (decodeMapOf false) with base64DecodeMap in He. vm_compute in He. injection He as <- <- <-.
  split; [vm_compute; reflexivity|exact Hf].
Defined.
End Base64.
