(* ===== verification/Vm.v ===== *)
(** * The virtual machine: operands, jumps, references and exceptions

    Model of the instruction loop of vm.go for the instructions that script code
    without calls, declarations and iterators compiles to: the operand stack,
    the reference stack, the jumps, the result register and the try frames with
    handleThrow.  What the instructions do to values and to the rest of the
    runtime (operators, lookups of global bindings, references) is the interface
    [Runtime], so that the theorems about control hold for any implementation
    of the operators. *)

From S2P Require Import Prelude.
From stdpp Require Import strings.
Open Scope Z_scope.

Module Vm.

Inductive unaryOp := OToNumber | OBnot | ONeg | OPlus | OInc | ODec | OTypeof.

Inductive binaryOp :=
  | OLt | OGt | OLte | OGte | OEq | ONeq | OStrictEq | OStrictNeq
  | OAdd | OSub | OMul | OExp | ODiv | OMod | OAnd | OOr | OXor
  | OInstanceof | OIn | OSal | OSar | OShr.

#[global] Instance unaryOp_eq_dec : EqDecision unaryOp.
Proof. solve_decision. Defined.
#[global] Instance binaryOp_eq_dec : EqDecision binaryOp.
Proof. solve_decision. Defined.

(** A Go call that may panic with a JavaScript exception. *)
Inductive res (V A : Type) := Ok (a : A) | Throw (e : V).
Arguments Ok {V A} _.
Arguments Throw {V A} _.

(** What the control instructions use of the rest of the runtime.  [G] is its
    state: the heap, the global object and the global lexical bindings.  The
    operators may run arbitrary code through the conversions of objects. *)
Class Runtime := {
  Value : Type;
  G : Type;
  Ref : Type;
  _undefined : Value;
  _null : Value;
  valueTrue : Value;
  valueFalse : Value;
  ToBoolean : Value → bool;
  (** v == _undefined || v == _null *)
  isNullish : Value → bool;
  (** the type switch of toNumeric that returns its argument *)
  isNumeric : Value → bool;
  unary : unaryOp → Value → G → res Value Value * G;
  binary : binaryOp → Value → Value → G → res Value Value * G;
  (** the stash scan and the global fallback of loadDynamic; None: not found *)
  getDynamic : string → bool → G → res Value (option Value) * G;
  newReferenceError : string → G → Value * G;
  valueUnresolved : string → Value;
  (** the reference that resolveVar1 or resolveVar1Strict pushes *)
  resolveVar : bool → string → G → res Value Ref * G;
  refGet : Ref → G → res Value Value * G;
  refSet : Ref → Value → G → res Value unit * G;
  (** toConstructor and the call of the constructor *)
  construct : Value → list Value → G → res Value Value * G;
  (** the properties name and message of an error object *)
  errorName : Value → G → option string;
  errorMessage : Value → G → option Value;
}.

Section instructions.
Context {rt : Runtime}.

Inductive instruction :=
  | loadVal (v : Value)
  | loadUndef
  | saveResult
  | clearResult
  | pop
  | dup
  | rdupN (n : nat)
  | unaryI (op : unaryOp)
  | not
  | binaryI (op : binaryOp)
  | jump (j : Z)
  | jneP (j : Z)
  | jeqP (j : Z)
  | jeq (j : Z)
  | jne (j : Z)
  | jcoalesc (j : Z)
  | jcoalescP (j : Z)
  | loadDynamic (name : string) (strict : bool)
  | loadDynamicRef (name : string) (strict : bool)
  | resolveVar1 (strict : bool) (name : string)
  | getValue
  | putValue
  | putValueP
  | popRef
  | try (catchOffset finallyOffset : Z)
  | leaveTry
  | enterFinally
  | leaveFinally
  | throw
  | _new (n : nat).

End instructions.

(** The code of a program; None is a nil instruction, a jump not patched yet. *)
Abbreviation code := (list (option instruction)).

Section vm.
Context {rt : Runtime}.

Record tryFrame := MkFrame {
  exception : option Value;
  refLen : nat;
  sp : nat;
  catchPos : Z;
  finallyPos : Z;
  finallyRet : Z
}.

(** The head of [stack], [refStack] and [tryStack] is the top. *)
Record vm := MkVm {
  pc : Z;
  stack : list Value;
  refStack : list Ref;
  tryStack : list tryFrame;
  result : Value;
  g : G
}.

Definition tryPanicMarker : Z := -2.

(** How a run ends: past the code, with an exception no frame catches, or with a
    Go panic that is not a JavaScript exception (nil instruction, empty stack). *)
Inductive outcome :=
  | Halted (m : vm)
  | Uncaught (e : Value) (g : G)
  | Crash.

Inductive stepResult := Running (m : vm) | Stop (o : outcome).

(** [l[:n]] of a stack whose top is the head. *)
Definition keep {A} (n : nat) (l : list A) : list A := drop (length l - n) l.

Definition pushTryFrame (catchPos finallyPos : Z) (m : vm) : list tryFrame :=
  MkFrame None (length (refStack m)) (length (stack m)) catchPos finallyPos (-1) :: tryStack m.

Fixpoint handleThrowLoop (tries : list tryFrame) (e : Value) (m : vm) : stepResult :=
  match tries with
  | [] => Stop (Uncaught e (g m))
  | tf :: rest =>
      if (catchPos tf =? -1) && (finallyPos tf =? -1) then handleThrowLoop rest e m else
      let stk := keep (sp tf) (stack m) in
      let refs := keep (refLen tf) (refStack m) in
      if catchPos tf =? tryPanicMarker then Stop (Uncaught e (g m))
      else if 0 <=? catchPos tf then
        Running (MkVm (catchPos tf) (e :: stk) refs
          (MkFrame (exception tf) (refLen tf) (sp tf) (-1) (finallyPos tf) (finallyRet tf) :: rest)
          (result m) (g m))
      else if 0 <=? finallyPos tf then
        Running (MkVm (finallyPos tf) stk refs
          (MkFrame (Some e) (refLen tf) (sp tf) (catchPos tf) (-1) (-1) :: rest)
          (result m) (g m))
      else Stop Crash
  end.

Definition handleThrow (e : Value) (m : vm) : stepResult := handleThrowLoop (tryStack m) e m.

Definition setG (g' : G) (m : vm) : vm :=
  MkVm (pc m) (stack m) (refStack m) (tryStack m) (result m) g'.
Definition setRefs (r : list Ref) (m : vm) : vm :=
  MkVm (pc m) (stack m) r (tryStack m) (result m) (g m).
(** Continue at the next instruction with the operand stack [s]. *)
Definition next (s : list Value) (m : vm) : stepResult :=
  Running (MkVm (pc m + 1) s (refStack m) (tryStack m) (result m) (g m)).
Definition goto (j : Z) (s : list Value) (m : vm) : stepResult :=
  Running (MkVm (pc m + j) s (refStack m) (tryStack m) (result m) (g m)).

(** Continue with the result of a call, or raise its exception. *)
Definition andThen {A} (r : res Value A * G) (m : vm) (k : A → vm → stepResult) : stepResult :=
  match r.1 with
  | Ok a => k a (setG r.2 m)
  | Throw e => handleThrow e (setG r.2 m)
  end.

Definition exec_loadDynamic (name : string) (strict : bool) (unresolved : vm → stepResult) (m : vm) : stepResult :=
  andThen (getDynamic name strict (g m)) m (λ ov m',
    match ov with
    | Some v => next (v :: stack m') m'
    | None => unresolved m'
    end).

Definition exec_put (popIt : bool) (m : vm) : stepResult :=
  match refStack m, stack m with
  | r :: refs, v :: s =>
      andThen (refSet r v (g m)) (setRefs refs m) (λ _ m', next (if popIt then s else v :: s) m')
  | _, _ => Stop Crash
  end.

Definition exec_try (catchOffset finallyOffset : Z) (m : vm) : stepResult :=
  let cp := if 0 <? catchOffset then pc m + catchOffset else -1 in
  let fp := if 0 <? finallyOffset then pc m + finallyOffset else -1 in
  Running (MkVm (pc m + 1) (stack m) (refStack m) (pushTryFrame cp fp m) (result m) (g m)).

Definition exec_leaveTry (m : vm) : stepResult :=
  match tryStack m with
  | [] => Stop Crash
  | tf :: rest =>
      if 0 <=? finallyPos tf then
        Running (MkVm (finallyPos tf) (keep (sp tf) (stack m)) (refStack m)
          (MkFrame (exception tf) (refLen tf) (sp tf) (-1) (-1) (pc m + 1) :: rest)
          (result m) (g m))
      else Running (MkVm (pc m + 1) (stack m) (refStack m) rest (result m) (g m))
  end.

Definition exec_enterFinally (m : vm) : stepResult :=
  match tryStack m with
  | [] => Stop Crash
  | tf :: rest =>
      Running (MkVm (pc m + 1) (stack m) (refStack m)
        (MkFrame (exception tf) (refLen tf) (sp tf) (-1) (-1) (finallyRet tf) :: rest)
        (result m) (g m))
  end.

Definition exec_leaveFinally (m : vm) : stepResult :=
  match tryStack m with
  | [] => Stop Crash
  | tf :: rest =>
      let m' := MkVm (pc m) (stack m) (refStack m) rest (result m) (g m) in
      match exception tf with
      | Some e => handleThrow e m'
      | None =>
          if finallyRet tf =? -1 then next (stack m') m'
          else Running (MkVm (finallyRet tf) (stack m') (refStack m') rest (result m) (g m))
      end
  end.

Definition exec_new (n : nat) (m : vm) : stepResult :=
  match drop n (stack m) with
  | ctor :: s =>
      andThen (construct ctor (rev (take n (stack m))) (g m)) m (λ o m', next (o :: s) m')
  | [] => Stop Crash
  end.

Definition exec (i : instruction) (m : vm) : stepResult :=
  match i, stack m with
  | loadVal v, s => next (v :: s) m
  | loadUndef, s => next (_undefined :: s) m
  | saveResult, v :: s => Running (MkVm (pc m + 1) s (refStack m) (tryStack m) v (g m))
  | clearResult, s => Running (MkVm (pc m + 1) s (refStack m) (tryStack m) _undefined (g m))
  | pop, _ :: s => next s m
  | dup, v :: s => next (v :: v :: s) m
  | rdupN n, v :: s => if bool_decide (n < length (v :: s))%nat then next (<[n := v]> (v :: s)) m else Stop Crash
  | unaryI op, v :: s => andThen (unary op v (g m)) m (λ w, next (w :: s))
  | not, v :: s => next ((if ToBoolean v then valueFalse else valueTrue) :: s) m
  | binaryI op, r :: l :: s => andThen (binary op l r (g m)) m (λ w, next (w :: s))
  | jump j, s => goto j s m
  | jneP j, v :: s => if negb (ToBoolean v) then goto j s m else next s m
  | jeqP j, v :: s => if ToBoolean v then goto j s m else next s m
  | jeq j, v :: s => if ToBoolean v then goto j (v :: s) m else next s m
  | jne j, v :: s => if negb (ToBoolean v) then goto j (v :: s) m else next s m
  | jcoalesc j, v :: s => if isNullish v then next s m else goto j (v :: s) m
  | jcoalescP j, v :: s => if isNullish v then next s m else goto j s m
  | loadDynamic name strict, _ =>
      exec_loadDynamic name strict
        (λ m', let '(e, g') := newReferenceError name (g m') in handleThrow e (setG g' m')) m
  | loadDynamicRef name strict, _ =>
      exec_loadDynamic name strict (λ m', next (valueUnresolved name :: stack m') m') m
  | resolveVar1 strict name, _ =>
      andThen (resolveVar strict name (g m)) m (λ r m', next (stack m') (setRefs (r :: refStack m') m'))
  | getValue, s =>
      match refStack m with
      | r :: _ => andThen (refGet r (g m)) m (λ v, next (v :: s))
      | [] => Stop Crash
      end
  | putValue, _ => exec_put false m
  | putValueP, _ => exec_put true m
  | popRef, s => match refStack m with _ :: refs => next s (setRefs refs m) | [] => Stop Crash end
  | try c f, _ => exec_try c f m
  | leaveTry, _ => exec_leaveTry m
  | enterFinally, _ => exec_enterFinally m
  | leaveFinally, _ => exec_leaveFinally m
  | throw, v :: _ => handleThrow v m
  | _new n, _ => exec_new n m
  | _, [] => Stop Crash
  | _, [_] => Stop Crash
  end.

(** The instruction at [pc], None when [pc] is outside of the code. *)
Definition fetch (P : code) (p : Z) : option (option instruction) :=
  if 0 <=? p then P !! Z.to_nat p else None.

(** vm.run with at most [fuel] rounds of its loop. *)
Fixpoint run (fuel : nat) (P : code) (r : stepResult) : option outcome :=
  match r with
  | Stop o => Some o
  | Running m =>
      match fuel with
      | O => None
      | S fuel' =>
          match fetch P (pc m) with
          | None => Some (Halted m)
          | Some None => Some Crash
          | Some (Some i) => run fuel' P (exec i m)
          end
      end
  end.

(** vm.runTry: run below a frame that catches every exception. *)
Definition runTry (fuel : nat) (P : code) (m : vm) : option outcome :=
  run fuel P (Running (MkVm (pc m) (stack m) (refStack m) (pushTryFrame tryPanicMarker (-1) m) (result m) (g m))).
End vm.
End Vm.
