(* ===== verification/Compiler.v ===== *)
(** * The compiler: expressions, statements and jumps

    Model of compiler_expr.go and compiler_stmt.go for script code without
    declarations, calls and member access: constant folding with the VM of the
    compiler, the code of the operators with their short circuits, references to
    global variables, and the statements with their jumps, whose targets are
    patched into the code when the enclosing block is left.  Names are looked up
    in the global scope, where lookupName finds no binding, so every variable
    is accessed dynamically.  A compile-time SyntaxError is [None]. *)

From S2P Require Import Prelude Vm.
From stdpp Require Import strings.
Import Vm.
Open Scope Z_scope.

Module Compiler.

#[local] Set Warnings "-register-all".

Inductive logicalOp := LOr | LAnd | LCoalesce.
Inductive blockType := blockLoop | blockTry | blockLabel | blockSwitch.
Inductive unaryToken := TNot | TBitwiseNot | TTypeof | TMinus | TPlus | TVoid.

#[global] Instance blockType_eq_dec : EqDecision blockType.
Proof. solve_decision. Defined.

(** A block of the chain c.block.  The pointer [breaking] to a block further out
    is the number of blocks outside of that block. *)
Record block := MkBlock {
  typ : blockType;
  label : string;
  cont : nat;
  breaks : list nat;
  conts : list nat;
  breaking : option nat;
  needResult : bool
}.

Section compiler.
Context {rt : Runtime}.

(** *** Syntax *)

Inductive expr :=
  | ELiteral (v : Value)
  | EIdentifier (name : string)
  | EUnary (op : unaryToken) (operand : expr)
  | EUpdate (op : unaryOp) (postfix : bool) (name : string)
  | EBinary (op : binaryOp) (left right : expr)
  | ELogical (op : logicalOp) (left right : expr)
  | EConditional (test consequent alternate : expr)
  | ESequence (sequence : list expr)
  | EAssign (name : string) (right : expr)
  | EAssignOp (op : binaryOp) (name : string) (right : expr)
  | EAssignLogical (op : logicalOp) (name : string) (right : expr).

Inductive stmt :=
  | SExpression (e : expr)
  | SEmpty
  | SBlock (list : list stmt)
  | SIf (test : expr) (consequent : stmt) (alternate : option stmt)
  | SDoWhile (body : stmt) (test : expr)
  | SWhile (test : expr) (body : stmt)
  | SFor (init test update : option expr) (body : stmt)
  | SBranch (isBreak : bool) (label : option string)
  | SLabelled (label : string) (s : stmt)
  | SThrow (argument : expr)
  | STry (body : list stmt) (catch : option (list stmt)) (finally : option (list stmt))
  | SSwitch (discriminant : expr) (body : list (option expr * list stmt)).

(** *** Expressions *)

(** [strict] is c.scope.strict; [g0] the state of the runtime that evaluates
    constant expressions, with its intrinsics untouched. *)
Context (strict : bool) (g0 : G).

Definition emit (l : list instruction) (c : code) : code := c ++ (Some <$> l).
(** c.emit(nil): room for a jump. *)
Definition emitNil (c : code) : code := c ++ [None].
Definition patch (j : nat) (i : instruction) (c : code) : code := <[j := Some i]> c.

(** [b - a] for positions in the code. *)
Definition off (b a : nat) : Z := Z.of_nat b - Z.of_nat a.

Definition emitLiteralValue (v : Value) : code → code := emit [loadVal v].

Definition checkIdentifierLName (name : string) : option unit :=
  if decide (name = "eval"%string ∨ name = "arguments"%string) then None else Some ().

(** emitThrow: the exception of a constant expression, thrown again at run time
    as a new object of the constructor that the global name denotes then. *)
Definition emitThrow (e : Value) (g : G) (c : code) : option code :=
  match errorName e g with
  | Some t =>
      if decide (t = "TypeError"%string ∨ t = "RangeError"%string) then
        let c := emit [loadDynamic t false] c in
        let c := match errorMessage e g with
                 | Some msg => emit [_new 1] (emitLiteralValue msg c)
                 | None => emit [_new 0] c
                 end in
        Some (emit [throw] c)
      else None
  | None => None
  end.

(** The result of evalConst: the value, or the exception and the state of the
    evaluating runtime that holds the error object. *)
Inductive constResult := CVal (v : Value) | CExc (e : Value) (g : G).

Definition literalOf (e : expr) : option Value :=
  match e with ELiteral v => Some v | _ => None end.

(** evalConst: the code of the expression is appended to the program of the
    evaluating VM ([inEval]: this is the program being compiled), run, and cut
    off again. *)
Definition evalConst (lit : option Value) (emitGetter : code → option code) (inEval : bool) (c : code)
    : option constResult :=
  match lit with
  | Some v => Some (CVal v)
  | None =>
      let start := if inEval then c else [] in
      c' ← emitGetter start;
      match runTry (S (length c' - length start)) c'
              (MkVm (Z.of_nat (length start)) [] [] [] _undefined g0) with
      | Some (Halted m) => match stack m with v :: _ => Some (CVal v) | [] => None end
      | Some (Uncaught e g) => Some (CExc e g)
      | _ => None
      end
  end.

Definition emitConst (r : option constResult) (putOnStack : bool) (c : code) : option code :=
  r ← r;
  match r with
  | CVal v => Some (if putOnStack then emitLiteralValue v c else c)
  | CExc e g => emitThrow e g c
  end.

Definition popUnless (putOnStack : bool) (c : code) : code :=
  if putOnStack then c else emit [pop] c.

(** emitVarRef at global scope. *)
Definition emitVarRef (name : string) (c : code) : option code :=
  _ ← (if strict then checkIdentifierLName name else Some ());
  Some (emit [resolveVar1 strict name] c).

Definition emitVarSetter1 (name : string) (putOnStack : bool) (emitRight : code → option code) (c : code)
    : option code :=
  c ← emitVarRef name c;
  c ← emitRight c;
  Some (emit [if putOnStack then putValue else putValueP] c).

(** compiledIdentifierExpr.emitUnary; the references are on the reference stack. *)
Definition emitUnary (name : string) (prepare : option instruction) (body : code → option code)
    (postfix putOnStack : bool) (c : code) : option code :=
  if putOnStack then
    c ← emitVarSetter1 name true (λ c,
          let c := emit [loadUndef] c in
          let c := emit [getValue] c in
          let c := match prepare with Some i => emit [i] c | None => c end in
          c ← (if postfix then Some c else body c);
          let c := emit [rdupN 1] c in
          if postfix then body c else Some c) c;
    Some (emit [pop] c)
  else
    emitVarSetter1 name false (λ c, body (emit [getValue] c)) c.

(** The value decides the result of the operator alone. *)
Definition shortCircuits (op : logicalOp) (v : Value) : bool :=
  match op with
  | LOr => ToBoolean v
  | LAnd => negb (ToBoolean v)
  | LCoalesce => negb (isNullish v)
  end.

Definition logicalJump (op : logicalOp) (j : Z) : instruction :=
  match op with LOr => jeq j | LAnd => jne j | LCoalesce => jcoalesc j end.

Definition assignJump (op : logicalOp) (putOnStack : bool) (j : Z) : instruction :=
  match op, putOnStack with
  | LAnd, true => jne j | LAnd, false => jneP j
  | LOr, true => jeq j | LOr, false => jeqP j
  | LCoalesce, true => jcoalesc j | LCoalesce, false => jcoalescP j
  end.

(** The methods constant and emitGetter of the compiled expressions; emitExpr
    and emitNamedOrConst, which fold constants, are the local [emitExpr]. *)
Fixpoint emitGetter (inEval : bool) (e : expr) (putOnStack : bool) (c : code) {struct e} : option code :=
  let emitExpr e put c :=
    k ← constant inEval e c;
    if k : bool then emitConst (evalConst (literalOf e) (emitGetter true e true) inEval c) put c
    else emitGetter inEval e put c in
  match e with
  | ELiteral v => Some (if putOnStack then emitLiteralValue v c else c)
  | EIdentifier name => Some (popUnless putOnStack (emit [loadDynamic name strict] c))
  | EUnary op operand =>
      match op with
      | TNot => c ← emitGetter inEval operand true c; Some (popUnless putOnStack (emit [not] c))
      | TBitwiseNot => c ← emitGetter inEval operand true c; Some (popUnless putOnStack (emit [unaryI OBnot] c))
      | TTypeof =>
          c ← match operand with
              | EIdentifier name => Some (emit [loadDynamicRef name strict] c)
              | _ => emitGetter inEval operand true c
              end;
          Some (popUnless putOnStack (emit [unaryI OTypeof] c))
      | TMinus => c ← emitExpr operand true c; Some (popUnless putOnStack (emit [unaryI ONeg] c))
      | TPlus => c ← emitExpr operand true c; Some (popUnless putOnStack (emit [unaryI OPlus] c))
      | TVoid => c ← emitExpr operand false c; Some (if putOnStack then emit [loadUndef] c else c)
      end
  | EUpdate op postfix name =>
      emitUnary name (Some (unaryI OToNumber)) (λ c, Some (emit [unaryI op] c)) postfix putOnStack c
  | EBinary op lhs rhs =>
      c ← emitExpr lhs true c;
      c ← emitExpr rhs true c;
      Some (popUnless putOnStack (emit [binaryI op] c))
  | ELogical op lhs rhs =>
      k ← constant inEval lhs c;
      if k : bool then
        r ← evalConst (literalOf lhs) (emitGetter true lhs true) inEval c;
        match r with
        | CVal v =>
            if shortCircuits op v then Some (if putOnStack then emitLiteralValue v c else c)
            else emitExpr rhs putOnStack c
        | CExc e g => emitThrow e g c
        end
      else
        c ← match op with LAnd => emitGetter inEval lhs true c | _ => emitExpr lhs true c end;
        let j := length c in
        let c := emitNil c in
        c ← emitExpr rhs true c;
        let c := patch j (logicalJump op (off (length c) j)) c in
        Some (popUnless putOnStack c)
  | EConditional test consequent alternate =>
      c ← emitGetter inEval test true c;
      let j := length c in
      let c := emitNil c in
      c ← emitGetter inEval consequent putOnStack c;
      let j1 := length c in
      let c := emitNil c in
      let c := patch j (jneP (off (length c) j)) c in
      c ← emitGetter inEval alternate putOnStack c;
      Some (patch j1 (jump (off (length c) j1)) c)
  | ESequence es =>
      (fix go es c := match es with
                      | [] => Some c
                      | [e] => emitGetter inEval e putOnStack c
                      | e :: es => c ← emitGetter inEval e false c; go es c
                      end) es c
  | EAssign name rhs => emitVarSetter1 name putOnStack (emitExpr rhs true) c
  | EAssignOp op name rhs =>
      emitUnary name None (λ c, c ← emitGetter inEval rhs true c; Some (emit [binaryI op] c)) false putOnStack c
  | EAssignLogical op name rhs =>
      c ← emitVarRef name c;
      let c := emit [getValue] c in
      let mark := length c in
      let c := emitNil c in
      c ← emitExpr rhs true c;
      let c := emit [if putOnStack then putValue else putValueP] c in
      let c := emit [jump 2] c in
      let c := patch mark (assignJump op putOnStack (off (length c) mark)) c in
      Some (emit [popRef] c)
  end
with constant (inEval : bool) (e : expr) (c : code) {struct e} : option bool :=
  match e with
  | ELiteral _ => Some true
  | EUnary _ operand => constant inEval operand c
  | EBinary _ lhs rhs =>
      k ← constant inEval lhs c;
      if k : bool then constant inEval rhs c else Some false
  | ELogical op lhs rhs =>
      k ← constant inEval lhs c;
      if k : bool then
        r ← evalConst (literalOf lhs) (emitGetter true lhs true) inEval c;
        match r with
        | CVal v => if shortCircuits op v then Some true else constant inEval rhs c
        | CExc _ _ => Some true
        end
      else Some false
  | _ => Some false
  end.

(** compiler.emitExpr and evalConst of an expression of the program. *)
Definition evalConstE (inEval : bool) (e : expr) (c : code) : option constResult :=
  evalConst (literalOf e) (emitGetter true e true) inEval c.

Definition emitExpr (inEval : bool) (e : expr) (putOnStack : bool) (c : code) : option code :=
  k ← constant inEval e c;
  if k : bool then emitConst (evalConstE inEval e c) putOnStack c else emitGetter inEval e putOnStack c.

(** *** Statements *)

(** c.p.code and the chain of c.block, the innermost block first. *)
Record compiler := MkC { cp : code; blocks : list block }.

Definition onCode (f : code → code) (cs : compiler) : compiler := MkC (f (cp cs)) (blocks cs).
Definition onCodeM (f : code → option code) (cs : compiler) : option compiler :=
  c ← f (cp cs); Some (MkC c (blocks cs)).

Definition newBlock (t : blockType) (l : string) (nr : bool) (cs : compiler) : compiler :=
  MkC (cp cs) (MkBlock t l 0 [] [] None nr :: blocks cs).

(** Update of the block with [h] blocks outside of it. *)
Definition onBlock (h : nat) (f : block → block) (bs : list block) : list block :=
  alter f (length bs - S h)%nat bs.
Definition blockAt (h : nat) (bs : list block) : option block := bs !! (length bs - S h)%nat.

Definition addBreak (p : nat) (b : block) : block :=
  MkBlock (typ b) (label b) (cont b) (breaks b ++ [p]) (conts b) (breaking b) (needResult b).
Definition addCont (p : nat) (b : block) : block :=
  MkBlock (typ b) (label b) (cont b) (breaks b) (conts b ++ [p]) (breaking b) (needResult b).
Definition setCont (p : nat) (b : block) : block :=
  MkBlock (typ b) (label b) p (breaks b) (conts b) (breaking b) (needResult b).
Definition setBreaking (bb : option nat) (b : block) : block :=
  MkBlock (typ b) (label b) (cont b) (breaks b) (conts b) bb (needResult b).

Definition onHead (f : block → block) (cs : compiler) : compiler :=
  MkC (cp cs) (match blocks cs with b :: bs => f b :: bs | [] => [] end).

(** Patch the holes [items] with jumps to [lbl]. *)
Definition patchJumps (lbl : nat) (items : list nat) (c : code) : code :=
  foldl (λ c item, patch item (jump (off lbl item)) c) c items.

Definition leaveBlock (cs : compiler) : compiler :=
  match blocks cs with
  | [] => cs
  | b :: outer =>
      let c := patchJumps (length (cp cs)) (breaks b) (cp cs) in
      let c := if decide (typ b = blockLoop) then patchJumps (cont b) (conts b) c else c in
      MkC c outer
  end.

(** enterDummyMode: a new program, and a copy of the innermost block whose outer
    blocks are shared with the blocks of the program. *)
Definition enterDummyMode (cs : compiler) : compiler :=
  MkC [] (match blocks cs with
          | [] => []
          | b :: outer => MkBlock (typ b) (label b) 0 [] [] (breaking b) false :: outer
          end).
Definition leaveDummyMode (saved cs : compiler) : compiler :=
  MkC (cp saved) (match blocks saved with
                  | [] => []
                  | b :: _ => b :: tail (blocks cs)
                  end).
Definition compileDummy (f : compiler → option compiler) (cs : compiler) : option compiler :=
  cs' ← f (enterDummyMode cs); Some (leaveDummyMode cs cs').

(** findBreakBlock, with a label: the result so far and the block that has it. *)
Fixpoint findLabelled (name : string) (isBreak : bool) (bs : list block) (res : option nat)
    : option nat * option (nat * blockType) * bool :=
  match bs with
  | [] => (res, None, false)
  | b :: outer =>
      let res' := match res with None => breaking b | Some _ => res end in
      if isBreak && bool_decide (is_Some res') then (res', None, true)
      else if decide (label b = name) then (res', Some (length outer, typ b), false)
      else findLabelled name isBreak outer res'
  end.

Fixpoint findUnlabelled (isBreak : bool) (bs : list block) : option nat :=
  match bs with
  | [] => None
  | b :: outer =>
      match breaking b with
      | Some bb => Some bb
      | None =>
          match typ b with
          | blockLoop => Some (length outer)
          | blockSwitch => if isBreak then Some (length outer) else findUnlabelled isBreak outer
          | _ => findUnlabelled isBreak outer
          end
      end
  end.

Definition findBreakBlock (lbl : option string) (isBreak : bool) (bs : list block) : option (option nat) :=
  match lbl with
  | Some name =>
      let '(res, found, returned) := findLabelled name isBreak bs None in
      if returned : bool then Some res
      else match found with
           | Some (_, t) =>
               if negb isBreak && negb (bool_decide (t = blockLoop)) then None
               else Some (match res with None => fst <$> found | Some _ => res end)
           | None => Some res
           end
  | None => Some (findUnlabelled isBreak bs)
  end.

(** The code that leaves the blocks inside of the block with [h] blocks outside. *)
Fixpoint exitCode (h : nat) (bs : list block) : list instruction :=
  match bs with
  | [] => []
  | b :: outer =>
      if decide (length outer = h) then []
      else match typ b with blockTry => leaveTry :: exitCode h outer | _ => exitCode h outer end
  end.

Definition emitBlockExitCode (lbl : option string) (isBreak : bool) (cs : compiler) : option (nat * compiler) :=
  r ← findBreakBlock lbl isBreak (blocks cs);
  h ← r;
  Some (h, onCode (emit (exitCode h (blocks cs))) cs).

Definition compileBranchStatement (isBreak : bool) (lbl : option string) (cs : compiler) : option compiler :=
  '(h, cs) ← emitBlockExitCode lbl isBreak cs;
  let p := length (cp cs) in
  Some (MkC (emitNil (cp cs)) (onBlock h (if isBreak then addBreak p else addCont p) (blocks cs))).

Definition isBranch (s : stmt) : bool := match s with SBranch _ _ => true | _ => false end.

Fixpoint isEmptyResult (s : stmt) : bool :=
  match s with
  | SEmpty | SBranch _ _ => true
  | SLabelled _ s => isEmptyResult s
  | SBlock l =>
      (fix go l := match l with
                   | [] => true
                   | s :: l => if isBranch s then true else if negb (isEmptyResult s) then false else go l
                   end) l
  | _ => false
  end.

(** scanStatements: the index of the last statement that yields a result before
    the first branch statement (None for -1), and the block that this branches to. *)
Fixpoint scanStatements (bs : list block) (i : nat) (l : list stmt) (last : option nat)
    : option (option nat * option nat) :=
  match l with
  | [] => Some (last, None)
  | SBranch isBreak lbl :: _ =>
      r ← findBreakBlock lbl isBreak bs; Some (last, r)
  | s :: l => scanStatements bs (S i) l (if isEmptyResult s then last else Some i)
  end.

Section lists.
Context (compileStatement : stmt → bool → compiler → option compiler).

Definition compileAll : list stmt → compiler → option compiler :=
  fix go l cs := match l with
                 | [] => Some cs
                 | s :: l => cs ← compileStatement s false cs; go l cs
                 end.

(** The statements after the last one that yields a result; those after a branch
    statement are compiled in dummy mode. *)
Definition compileTail : list stmt → compiler → option compiler :=
  fix go l cs := match l with
                 | [] => Some cs
                 | s :: l =>
                     cs ← compileStatement s false cs;
                     if isBranch s then compileDummy (compileAll l) cs else go l cs
                 end.

Definition compileStatementsNeedResult : list stmt → option nat → compiler → option compiler :=
  fix go l lastProducingIdx cs :=
    match lastProducingIdx, l with
    | Some (S n), s :: l => cs ← compileStatement s false cs; go l (Some n) cs
    | Some O, s :: l => cs ← compileStatement s true cs; compileTail l cs
    | None, l => compileTail l cs
    | Some _, [] => Some cs
    end.

Definition compileStatements (l : list stmt) (nr : bool) (cs : compiler) : option compiler :=
  '(last, blk) ← scanStatements (blocks cs) 0 l None;
  let nr := match blk with
            | Some h => match blockAt h (blocks cs) with Some b => needResult b | None => nr end
            | None => nr
            end in
  if nr then compileStatementsNeedResult l last cs else compileAll l cs.
End lists.

Definition emitS (l : list instruction) : compiler → compiler := onCode (emit l).
Definition emitWhen (nr : bool) (i : instruction) (cs : compiler) : compiler := if nr then emitS [i] cs else cs.
Definition len (cs : compiler) : nat := length (cp cs).

(** The tests of a switch statement: each leaves a hole for the jump to its
    statements; the positions of the holes, by case. *)
Fixpoint compileTests (cases : list (option expr * list stmt)) (cs : compiler)
    : option (list (option nat) * compiler) :=
  match cases with
  | [] => Some ([], cs)
  | (None, _) :: l => '(jumps, cs) ← compileTests l cs; Some (None :: jumps, cs)
  | (Some t, _) :: l =>
      let cs := emitS [dup] cs in
      cs ← onCodeM (emitGetter false t true) cs;
      let cs := emitS [binaryI OStrictEq; jneP 3; pop] cs in
      let j := len cs in
      '(jumps, cs) ← compileTests l (onCode emitNil cs);
      Some (Some j :: jumps, cs)
  end.

(** The index of the default clause. *)
Fixpoint defaultIdx (cases : list (option expr * list stmt)) : option nat :=
  match cases with
  | [] => None
  | (None, _) :: _ => Some O
  | _ :: l => S <$> defaultIdx l
  end.

Section bodies.
Context (compileStatement : stmt → bool → compiler → option compiler) (nr : bool).

Definition compileBodies : list (option expr * list stmt) → list (option nat) → compiler → option compiler :=
  fix go cases jumps cs :=
    match cases, jumps with
    | (_, l) :: cases, j :: jumps =>
        let cs := match j with
                  | Some j => onCode (patch j (jump (off (len cs) j))) cs
                  | None => cs
                  end in
        cs ← compileStatements compileStatement l nr cs;
        go cases jumps cs
    | _, _ => Some cs
    end.
End bodies.

(** compileTryStatement; [body], [catch] and [finally] compile the blocks. *)
Definition compileTry (scan : list block → option (option nat * option nat))
    (body : bool → compiler → option compiler) (catch : option (bool → compiler → option compiler))
    (finally : option (bool → compiler → option compiler)) (nr : bool) (cs : compiler) : option compiler :=
  let cs := newBlock blockTry "" false cs in
  '(lp, finallyBreaking) ← scan (blocks cs);
  let bodyNeedResult :=
    match finallyBreaking with
    | Some h =>
        match lp with
        | None => match blockAt h (blocks cs) with Some b => needResult b | None => false end
        | Some _ => false
        end
    | None => nr
    end in
  let cs := onHead (setBreaking finallyBreaking) cs in
  let lbl := len cs in
  let cs := emitWhen nr clearResult (onCode emitNil cs) in
  cs ← body bodyNeedResult cs;
  '(catchOffset, cs) ←
    match catch with
    | Some catch =>
        let lbl2 := len cs in
        let cs := onCode emitNil cs in
        let catchOffset := off (len cs) lbl in
        cs ← catch bodyNeedResult (emitS [pop] cs);
        Some (catchOffset, onCode (patch lbl2 (jump (off (len cs) lbl2))) cs)
    | None => Some (0, cs)
    end;
  '(finallyOffset, cs) ←
    match finally with
    | Some finally =>
        let cs := emitS [enterFinally] cs in
        let finallyOffset := off (len cs) lbl in
        let cs := emitWhen (bodyNeedResult && bool_decide (is_Some finallyBreaking) && bool_decide (lp = None))
                    clearResult cs in
        cs ← finally false cs;
        Some (finallyOffset, emitS [leaveFinally] cs)
    | None => Some (0, emitS [leaveTry] cs)
    end;
  Some (leaveBlock (onCode (patch lbl (try catchOffset finallyOffset)) cs)).

(** The test of a loop: folded to a constant, or code and a hole for the exit. *)
Inductive loopTest := TestTrue | TestFalse | TestThrows (e : Value) (g : G) | TestCode.

Definition classifyTest (test : expr) (c : code) : option loopTest :=
  k ← constant false test c;
  if k : bool then
    r ← evalConstE false test c;
    Some (match r with
          | CVal v => if ToBoolean v then TestTrue else TestFalse
          | CExc e g => TestThrows e g
          end)
  else Some TestCode.

Definition optM {A} (f : A → code → option code) (o : option A) (c : code) : option code :=
  match o with Some a => f a c | None => Some c end.

(** The words checkIdentifierName refuses as labels of strict code. *)
Definition strictReserved : list string :=
  ["implements"; "interface"; "let"; "package"; "private"; "protected"; "public"; "static"; "yield"]%string.

Definition compileLabeledDoWhile (body : bool → compiler → option compiler) (test : expr)
    (nr : bool) (lbl : string) (cs : compiler) : option compiler :=
  let cs := newBlock blockLoop lbl nr cs in
  let start := len cs in
  cs ← body nr cs;
  let cs := onHead (setCont (len cs)) cs in
  cs ← onCodeM (emitExpr false test true) cs;
  Some (leaveBlock (emitS [jeqP (off start (len cs))] cs)).

(** The end of a loop with its test at the start: the jump back and the exit. *)
Definition closeLoop (start : nat) (j : option nat) (cs : compiler) : compiler :=
  let cs := emitS [jump (off start (len cs))] cs in
  leaveBlock (match j with Some j => onCode (patch j (jneP (off (len cs) j))) cs | None => cs end).

Definition compileLabeledWhile (test : expr) (body : bool → compiler → option compiler)
    (nr : bool) (lbl : string) (cs : compiler) : option compiler :=
  let cs := emitWhen nr clearResult (newBlock blockLoop lbl nr cs) in
  let start := len cs in
  let cs := onHead (setCont start) cs in
  let rest j cs := cs ← body nr (emitWhen nr clearResult cs); Some (closeLoop start j cs) in
  t ← classifyTest test (cp cs);
  match t with
  | TestFalse => cs ← compileDummy (body false) cs; Some (leaveBlock cs)
  | TestThrows e g => cs ← onCodeM (emitThrow e g) cs; Some (leaveBlock cs)
  | TestTrue => rest None cs
  | TestCode => cs ← onCodeM (emitGetter false test true) cs; rest (Some (len cs)) (onCode emitNil cs)
  end.

Definition compileLabeledFor (init test update : option expr) (body : bool → compiler → option compiler)
    (nr : bool) (lbl : string) (cs : compiler) : option compiler :=
  let cs := newBlock blockLoop lbl nr cs in
  let effect e := emitGetter false e false in
  cs ← onCodeM (optM effect init) cs;
  let cs := emitWhen nr clearResult cs in
  let start := len cs in
  let rest j cs :=
    cs ← body nr (emitWhen nr clearResult cs);
    cs ← onCodeM (optM effect update) (onHead (setCont (len cs)) cs);
    Some (closeLoop start j cs) in
  t ← match test with Some test => classifyTest test (cp cs) | None => Some TestTrue end;
  match t with
  | TestFalse =>
      cs ← compileDummy (λ cs, cs ← body false cs; onCodeM (optM effect update) cs) cs;
      Some (leaveBlock cs)
  | TestThrows e g => cs ← onCodeM (emitThrow e g) cs; Some (leaveBlock cs)
  | TestTrue => rest None cs
  | TestCode =>
      match test with
      | Some test => cs ← onCodeM (emitGetter false test true) cs; rest (Some (len cs)) (onCode emitNil cs)
      | None => None
      end
  end.

Fixpoint compileStatement (s : stmt) (nr : bool) (cs : compiler) {struct s} : option compiler :=
  match s with
  | SExpression e =>
      cs ← onCodeM (emitExpr false e nr) cs;
      Some (emitWhen nr saveResult cs)
  | SEmpty => Some (emitWhen nr clearResult cs)
  | SBlock l => compileStatements compileStatement l nr cs
  | SIf test consequent alternate =>
      let cs := emitWhen nr clearResult cs in
      t ← classifyTest test (cp cs);
      match t with
      | TestThrows e g => onCodeM (emitThrow e g) cs
      | TestTrue =>
          cs ← compileStatement consequent nr cs;
          match alternate with
          | Some alternate => compileDummy (compileStatement alternate false) cs
          | None => Some cs
          end
      | TestFalse =>
          cs ← compileDummy (compileStatement consequent false) cs;
          match alternate with
          | Some alternate => compileStatement alternate nr cs
          | None => Some (emitWhen nr clearResult cs)
          end
      | TestCode =>
          cs ← onCodeM (emitGetter false test true) cs;
          let jmp := len cs in
          cs ← compileStatement consequent nr (onCode emitNil cs);
          match alternate with
          | Some alternate =>
              let jmp1 := len cs in
              let cs := onCode emitNil cs in
              let cs := onCode (patch jmp (jneP (off (len cs) jmp))) cs in
              cs ← compileStatement alternate nr cs;
              Some (onCode (patch jmp1 (jump (off (len cs) jmp1))) cs)
          | None =>
              if nr then
                let cs := emitS [jump 2] cs in
                let cs := onCode (patch jmp (jneP (off (len cs) jmp))) cs in
                Some (emitS [clearResult] cs)
              else Some (onCode (patch jmp (jneP (off (len cs) jmp))) cs)
          end
      end
  | SDoWhile body test => compileLabeledDoWhile (compileStatement body) test nr "" cs
  | SWhile test body => compileLabeledWhile test (compileStatement body) nr "" cs
  | SFor init test update body => compileLabeledFor init test update (compileStatement body) nr "" cs
  | SBranch isBreak lbl => compileBranchStatement isBreak lbl cs
  | SLabelled lbl s =>
      if strict && bool_decide (lbl ∈ strictReserved) then None
      else if bool_decide (lbl ∈ label <$> blocks cs) then None
      else match s with
           | SDoWhile body test => compileLabeledDoWhile (compileStatement body) test nr lbl cs
           | SWhile test body => compileLabeledWhile test (compileStatement body) nr lbl cs
           | SFor init test update body => compileLabeledFor init test update (compileStatement body) nr lbl cs
           | _ => cs ← compileStatement s nr (newBlock blockLabel lbl nr cs); Some (leaveBlock cs)
           end
  | SThrow e =>
      cs ← onCodeM (emitGetter false e true) cs;
      Some (emitS [throw] cs)
  | STry body catch finally =>
      compileTry (λ bs, match finally with Some l => scanStatements bs 0 l None | None => Some (None, None) end)
        (compileStatements compileStatement body)
        (match catch with Some l => Some (compileStatements compileStatement l) | None => None end)
        (match finally with Some l => Some (compileStatements compileStatement l) | None => None end) nr cs
  | SSwitch disc cases =>
      let cs := newBlock blockSwitch "" nr cs in
      cs ← onCodeM (emitGetter false disc true) cs;
      let cs := emitWhen nr clearResult cs in
      '(jumps, cs) ← compileTests cases cs;
      let cs := emitS [pop] cs in
      let '(jumps, jumpNoMatch, cs) :=
        match defaultIdx cases with
        | Some O => (jumps, None, cs)
        | Some d => (<[d := Some (len cs)]> jumps, None, onCode emitNil cs)
        | None => (jumps, Some (len cs), onCode emitNil cs)
        end in
      cs ← compileBodies compileStatement nr cases jumps cs;
      let cs := match jumpNoMatch with
                | Some j => onCode (patch j (jump (off (len cs) j))) cs
                | None => cs
                end in
      Some (leaveBlock cs)
  end.

(** compile: the statements of a script, at top level with a result. *)
Definition compile (l : list stmt) : option code :=
  cs ← compileStatements compileStatement l true (MkC [] []);
  Some (cp cs).
End compiler.
End Compiler.
