(* ===== verification/Semantics.v ===== *)
(** * Reference semantics of the compiled language

    Evaluation of the expressions and statements of Compiler.v as ECMAScript
    prescribes it, with completion records: a statement completes normally or
    with a break, a continue or an exception, and with a value or none.  The
    operators are those of [Runtime].  Statements run with fuel, which only
    bounds the depth and the number of iterations. *)

From S2P Require Import Prelude Vm Compiler.
From stdpp Require Import strings.
Import Vm Compiler.
Open Scope Z_scope.

Module Semantics.

Section semantics.
Context {rt : Runtime} (strict : bool).

(** *** Expressions *)

(** Computations that change the runtime state and may throw; [None] is a
    computation the semantics does not define. *)
Definition X (A : Type) : Type := G → option (res Value A * G).

Definition ret {A} (a : A) : X A := λ g, Some (Ok a, g).
Definition raise {A} (e : Value) : X A := λ g, Some (Throw e, g).
Definition undefinedBehaviour {A} : X A := λ _, None.
Definition call {A} (f : G → res Value A * G) : X A := λ g, Some (f g).
Definition bind {A B} (x : X A) (f : A → X B) : X B := λ g,
  match x g with
  | Some (Ok a, g') => f a g'
  | Some (Throw e, g') => Some (Throw e, g')
  | None => None
  end.

#[local] Notation "'let*' x ':=' e 'in' f" := (bind e (λ x, f)) (at level 10, x name, e at level 200, f at level 200).

Definition throwReferenceError {A} (name : string) : X A := λ g,
  let '(e, g') := newReferenceError name g in Some (Throw e, g').

Definition getBindingValue (name : string) : X Value :=
  let* ov := call (getDynamic name strict) in
  match ov with Some v => ret v | None => throwReferenceError name end.

Definition boolValue (b : bool) : Value := if b then valueTrue else valueFalse.

(** An update expression reads the reference, converts to a numeric and writes
    the new value.  When its value is not used ([put] is false) the conversion
    of a value that is not a number is left undefined. *)
Definition update (op : unaryOp) (postfix : bool) (name : string) (put : bool) : X Value :=
  let* r := call (resolveVar strict name) in
  let* v := call (refGet r) in
  let* old := if put || isNumeric v then call (unary OToNumber v) else undefinedBehaviour in
  let* new := call (unary op old) in
  let* _ := call (refSet r new) in
  ret (if postfix then old else new).

Fixpoint eval (put : bool) (e : expr) : X Value :=
  match e with
  | ELiteral v => ret v
  | EIdentifier name => getBindingValue name
  | EUnary op e =>
      match op with
      | TNot => let* v := eval true e in ret (boolValue (negb (ToBoolean v)))
      | TBitwiseNot => let* v := eval true e in call (unary OBnot v)
      | TTypeof =>
          let* v := match e with
                    | EIdentifier name =>
                        let* ov := call (getDynamic name strict) in
                        ret (default (valueUnresolved name) ov)
                    | _ => eval true e
                    end in
          call (unary OTypeof v)
      | TMinus => let* v := eval true e in call (unary ONeg v)
      | TPlus => let* v := eval true e in call (unary OPlus v)
      | TVoid => let* _ := eval false e in ret _undefined
      end
  | EUpdate op postfix name => update op postfix name put
  | EBinary op lhs rhs =>
      let* l := eval true lhs in let* r := eval true rhs in call (binary op l r)
  | ELogical op lhs rhs =>
      let* l := eval true lhs in if shortCircuits op l then ret l else eval put rhs
  | EConditional test consequent alternate =>
      let* t := eval true test in if ToBoolean t then eval put consequent else eval put alternate
  | ESequence es =>
      (fix go es := match es with
                    | [] => undefinedBehaviour
                    | [e] => eval put e
                    | e :: es => let* _ := eval false e in go es
                    end) es
  | EAssign name rhs =>
      let* r := call (resolveVar strict name) in
      let* v := eval true rhs in
      let* _ := call (refSet r v) in ret v
  | EAssignOp op name rhs =>
      let* r := call (resolveVar strict name) in
      let* l := call (refGet r) in
      let* v := eval true rhs in
      let* w := call (binary op l v) in
      let* _ := call (refSet r w) in ret w
  | EAssignLogical op name rhs =>
      let* r := call (resolveVar strict name) in
      let* l := call (refGet r) in
      if shortCircuits op l then ret l
      else let* v := eval true rhs in
           let* _ := call (refSet r v) in ret v
  end.

(** *** Statements *)

Inductive ctype :=
  | Normal
  | Branch (isBreak : bool) (label : option string)
  | Thrown (e : Value).

(** A completion record: its type and its value. *)
Definition completion : Type := ctype * option Value.

Definition Y : Type := G → option (completion * G).

Definition UpdateEmpty (c : completion) (v : Value) : completion := (c.1, Some (default v c.2)).

(** Continue with the value of an expression. *)
Definition withExpr {A} (x : X A) (f : A → Y) : Y := λ g,
  match x g with
  | Some (Ok a, g') => f a g'
  | Some (Throw e, g') => Some ((Thrown e, None), g')
  | None => None
  end.

Definition withStmt (x : Y) (f : completion → Y) : Y := λ g,
  match x g with Some (c, g') => f c g' | None => None end.

Definition complete (c : completion) : Y := λ g, Some (c, g).

Definition LoopContinues (c : ctype) (labels : list string) : bool :=
  match c with
  | Normal => true
  | Branch false None => true
  | Branch false (Some l) => bool_decide (l ∈ labels)
  | _ => false
  end.

Definition breaksTo (l : string) (c : ctype) : bool :=
  match c with Branch true (Some l') => bool_decide (l = l') | _ => false end.

(** A break without label ends the innermost loop or switch. *)
Definition endBreakable (c : completion) : completion :=
  match c.1 with
  | Branch true None => (Normal, Some (default _undefined c.2))
  | _ => c
  end.

(** while and for: [k] bounds the iterations. *)
Fixpoint whileLoop (k : nat) (test : X bool) (body : Y) (upd : X unit) (labels : list string) (V : Value) : Y :=
  match k with
  | O => λ _, None
  | S k =>
      withExpr test (λ b,
        if b : bool then
          withStmt body (λ c,
            if LoopContinues c.1 labels
            then withExpr upd (λ _, whileLoop k test body upd labels (default V c.2))
            else complete (endBreakable (UpdateEmpty c V)))
        else complete (Normal, Some V))
  end.

Fixpoint doLoop (k : nat) (test : X bool) (body : Y) (labels : list string) (V : Value) : Y :=
  match k with
  | O => λ _, None
  | S k =>
      withStmt body (λ c,
        if LoopContinues c.1 labels
        then withExpr test (λ b,
               if b : bool then doLoop k test body labels (default V c.2)
               else complete (Normal, Some (default V c.2)))
        else complete (endBreakable (UpdateEmpty c V)))
  end.

Definition testOf (e : expr) : X bool := bind (eval true e) (λ v, ret (ToBoolean v)).
Definition effectOf (o : option expr) : X unit :=
  match o with Some e => bind (eval false e) (λ _, ret ()) | None => ret () end.

Section lists.
Context (exec : stmt → Y).

(** A statement list; [V] is the value so far. *)
Fixpoint execList (l : list stmt) (V : option Value) : Y :=
  match l with
  | [] => complete (Normal, V)
  | s :: l =>
      withStmt (exec s) (λ c,
        let V' := match c.2 with Some v => Some v | None => V end in
        match c.1 with Normal => execList l V' | _ => complete (c.1, V') end)
  end.

(** The statements of the clauses from the selected one on. *)
Fixpoint execCases (cases : list (option expr * list stmt)) (V : option Value) : Y :=
  match cases with
  | [] => complete (Normal, V)
  | (_, l) :: cases =>
      withStmt (execList l None) (λ c,
        let V' := match c.2 with Some v => Some v | None => V end in
        match c.1 with Normal => execCases cases V' | _ => complete (c.1, V') end)
  end.

(** The clauses from the first one whose test is strictly equal to [d]. *)
Fixpoint selectCase (d : Value) (cases : list (option expr * list stmt))
    : X (option (list (option expr * list stmt))) :=
  match cases with
  | [] => ret None
  | (None, _) :: l => selectCase d l
  | ((Some t, _) :: l) as here =>
      let* v := eval true t in
      let* b := call (binary OStrictEq d v) in
      if ToBoolean b then ret (Some here) else selectCase d l
  end.
End lists.

Definition defaultCases (cases : list (option expr * list stmt)) : list (option expr * list stmt) :=
  match defaultIdx cases with Some i => drop i cases | None => [] end.

(** Run the finally block, which overrides the completion when it is abrupt. *)
Definition withFinally (C : completion) (F : option Y) : Y :=
  match F with
  | Some F =>
      withStmt F (λ cf, complete (UpdateEmpty (match cf.1 with Normal => C | _ => cf end) _undefined))
  | None => complete (UpdateEmpty C _undefined)
  end.

Definition execTry (body : Y) (catch finally : option Y) : Y :=
  withStmt body (λ B,
    match B.1, catch with
    | Thrown _, Some catch => withStmt catch (λ C, withFinally C finally)
    | _, _ => withFinally B finally
    end).

(** [labels] are the labels directly around the statement. *)
Fixpoint exec (fuel : nat) (labels : list string) (s : stmt) : Y :=
  match fuel with
  | O => λ _, None
  | S fuel =>
      match s with
      | SExpression e => withExpr (eval false e) (λ v, complete (Normal, Some v))
      | SEmpty => complete (Normal, None)
      | SBlock l => execList (exec fuel []) l None
      | SIf test s1 s2 =>
          withExpr (testOf test) (λ b,
            if b : bool then withStmt (exec fuel [] s1) (λ c, complete (UpdateEmpty c _undefined))
            else match s2 with
                 | Some s2 => withStmt (exec fuel [] s2) (λ c, complete (UpdateEmpty c _undefined))
                 | None => complete (Normal, Some _undefined)
                 end)
      | SDoWhile body test => doLoop fuel (testOf test) (exec fuel [] body) labels _undefined
      | SWhile test body => whileLoop fuel (testOf test) (exec fuel [] body) (ret ()) labels _undefined
      | SFor init test upd body =>
          withExpr (effectOf init) (λ _,
            whileLoop fuel (match test with Some t => testOf t | None => ret true end)
              (exec fuel [] body) (effectOf upd) labels _undefined)
      | SBranch isBreak lbl => complete (Branch isBreak lbl, None)
      | SLabelled l s =>
          withStmt (exec fuel (l :: labels) s) (λ c,
            complete (if breaksTo l c.1 then (Normal, c.2) else c))
      | SThrow e => withExpr (eval true e) (λ v, complete (Thrown v, None))
      | STry body catch finally =>
          execTry (execList (exec fuel []) body None)
            ((λ l, execList (exec fuel []) l None) <$> catch)
            ((λ l, execList (exec fuel []) l None) <$> finally)
      | SSwitch disc cases =>
          withExpr (eval true disc) (λ d,
            withExpr (selectCase d cases) (λ sel,
              withStmt (execCases (exec fuel []) (default (defaultCases cases) sel) None) (λ c,
                complete (endBreakable (UpdateEmpty c _undefined)))))
      end
  end.

(** A script: the completion of its statements. *)
Definition execScript (fuel : nat) (l : list stmt) : Y := execList (exec fuel []) l None.
End semantics.
End Semantics.
