(* ===== verification/ExprCorrect.v ===== *)
(** * Correctness of the code of expressions

    The code emitGetter and emitExpr append evaluates the expression as the
    reference semantics does and leaves the stacks as they were, with the value
    on top when it is asked for; constants folded by the compiler's own VM
    included.  [RuntimeLaws] is what the folding relies on. *)

From S2P Require Import Prelude Vm Compiler Semantics.
From stdpp Require Import strings.
Import Vm Compiler Semantics.
Open Scope Z_scope.

Module ExprCorrect.

Section laws.
Context {rt : Runtime}.

(** Names whose global bindings the folding of constants relies on. *)
Definition errorCtor (k : string) : Prop := k = "TypeError"%string ∨ k = "RangeError"%string.

#[global] Instance errorCtor_dec k : Decision (errorCtor k).
Proof. unfold errorCtor. apply _. Defined.

(** The computation yields [w] and changes nothing. *)
Definition Yields (pristine : G → Prop) (w : Value) (f : G → res Value Value * G) : Prop :=
  ∀ g, pristine g → f g = (Ok w, g).

(** The computation throws a new error, the one that the global constructor
    [k] makes from the message [m]. *)
Definition ThrowsError (pristine : G → Prop) (k : string) (m : option Value) (f : G → res Value Value * G) : Prop :=
  ∀ g, pristine g → ∃ ctor e g',
    f g = (Throw e, g') ∧ getDynamic k false g = (Ok (Some ctor), g) ∧
    construct ctor (option_list m) g = (Ok e, g') ∧
    errorName e g' = Some k ∧ errorMessage e g' = m.

Definition ConstantComputation (pristine prim : _ → Prop) (f : G → res Value Value * G) : Prop :=
  (∃ w, prim w ∧ Yields pristine w f) ∨ (∃ k m, errorCtor k ∧ ThrowsError pristine k m f).

(** [prim] are the values literals denote; [pristine] the states in which the
    names TypeError and RangeError are bound to the intrinsic constructors;
    [safe] the references to other names. *)
Class RuntimeLaws (g0 : G) := {
  prim : Value → Prop;
  pristine : G → Prop;
  safe : Ref → Prop;
  pristine_g0 : pristine g0;
  prim_undefined : prim _undefined;
  prim_bool b : prim (boolValue b);
  unary_prim op v : prim v → ConstantComputation pristine prim (unary op v);
  binary_prim op v w : prim v → prim w → ConstantComputation pristine prim (binary op v w);
  isNumeric_toNumber v g : isNumeric v = true → unary OToNumber v g = (Ok v, g);
  unary_pristine op v g : pristine g → pristine (unary op v g).2;
  binary_pristine op v w g : pristine g → pristine (binary op v w g).2;
  getDynamic_pristine name b g : pristine g → pristine (getDynamic name b g).2;
  newReferenceError_pristine name g : pristine g → pristine (newReferenceError name g).2;
  resolveVar_pristine b name g : pristine g → pristine (resolveVar b name g).2;
  resolveVar_safe b name g r : ¬ errorCtor name → (resolveVar b name g).1 = Ok r → safe r;
  refGet_pristine r g : pristine g → pristine (refGet r g).2;
  refSet_pristine r v g : safe r → pristine g → pristine (refSet r v g).2
}.
End laws.

#[global] Arguments handleThrow : simpl never.
#[global] Arguments keep : simpl never.
#[global] Arguments goto {rt} _ _ _ /.
#[global] Arguments next {rt} _ _ /.
#[global] Arguments bind {rt A B} _ _ _ : simpl never.
#[global] Arguments call {rt A} _ _ : simpl never.

Section vm.
Context {rt : Runtime}.

(** [n] rounds of the loop lead from [r] to [r']. *)
Definition Reach (P : code) (r r' : stepResult) (n : nat) : Prop :=
  ∀ fuel, run (n + fuel) P r = run fuel P r'.

Lemma reach_refl P r : Reach P r r 0.
Proof. by intros fuel. Qed.

Lemma reach_trans P r1 r2 r3 n1 n2 : Reach P r1 r2 n1 → Reach P r2 r3 n2 → Reach P r1 r3 (n1 + n2).
Proof. intros H1 H2 fuel. by rewrite <- Nat.add_assoc, H1, H2. Qed.

Lemma reach_step P m i : fetch P (pc m) = Some (Some i) → Reach P (Running m) (Vm.exec i m) 1.
Proof. intros Hi fuel. cbn [Nat.add run]. by rewrite Hi. Qed.

Lemma reach_cons P m i r n :
  fetch P (pc m) = Some (Some i) → Reach P (Vm.exec i m) r n → Reach P (Running m) r (S n).
Proof. intros Hi Hr. eapply (reach_trans _ _ _ _ 1 n); [by apply reach_step|done]. Qed.

(** The frames lie within the stacks. *)
Definition FramesOK (tries : list tryFrame) (stk : list Value) (refs : list Ref) : Prop :=
  Forall (λ tf, (sp tf ≤ length stk)%nat ∧ (refLen tf ≤ length refs)%nat) tries.

Lemma frames_push tries stk stk' refs refs' :
  FramesOK tries stk refs → FramesOK tries (stk' ++ stk) (refs' ++ refs).
Proof. intros H. eapply Forall_impl; [exact H|]. cbn. intros tf. rewrite !length_app. lia. Qed.

Lemma frames_push1 tries stk refs v : FramesOK tries stk refs → FramesOK tries (v :: stk) refs.
Proof. apply (frames_push tries stk [v] refs []). Qed.

Lemma frames_pushR tries stk refs r : FramesOK tries stk refs → FramesOK tries stk (r :: refs).
Proof. apply (frames_push tries stk [] refs [r]). Qed.

Lemma keep_app {A} n (l l' : list A) : (n ≤ length l)%nat → keep n (l' ++ l) = keep n l.
Proof.
  intros H. unfold keep. rewrite length_app.
  replace (length l' + length l - n)%nat with (length l' + (length l - n))%nat by lia.
  by rewrite drop_app_add.
Qed.

Lemma keep_all {A} (l : list A) : keep (length l) l = l.
Proof. unfold keep. by rewrite Nat.sub_diag. Qed.

(** An exception forgets what was pushed since the frames. *)
Lemma handleThrow_ext e p p' stk stk' refs refs' tries rs g :
  FramesOK tries stk refs →
  handleThrow e (MkVm p (stk' ++ stk) (refs' ++ refs) tries rs g) = handleThrow e (MkVm p' stk refs tries rs g).
Proof.
  intros HF. unfold handleThrow. cbn [tryStack].
  assert (∀ tries0, FramesOK tries stk refs →
    handleThrowLoop tries e (MkVm p (stk' ++ stk) (refs' ++ refs) tries0 rs g) =
    handleThrowLoop tries e (MkVm p' stk refs tries0 rs g)) as Hloop; [|by apply Hloop].
  clear HF. induction tries as [|tf tries IH]; intros tries0 HF; [done|].
  apply Forall_cons in HF as [[Hs Hr] HF]. cbn [handleThrowLoop stack refStack].
  rewrite !keep_app by done. by rewrite IH.
Qed.

Lemma handleThrow_push e p v stk refs tries rs g :
  FramesOK tries stk refs →
  handleThrow e (MkVm p (v :: stk) refs tries rs g) = handleThrow e (MkVm 0 stk refs tries rs g).
Proof. apply (handleThrow_ext e p 0 stk [v] refs []). Qed.

(** *** Loaded code *)

(** [P] has the instructions of [K] from [base] on; the holes of [K] are free. *)
Definition Loaded (P : code) (base : Z) (K : code) : Prop :=
  ∀ i ins, K !! i = Some (Some ins) → fetch P (base + Z.of_nat i) = Some (Some ins).

Lemma loaded_app P base K1 K2 :
  Loaded P base (K1 ++ K2) ↔ Loaded P base K1 ∧ Loaded P (base + Z.of_nat (length K1)) K2.
Proof.
  split.
  - intros H. split.
    + intros i ins Hi. apply H. by apply lookup_app_l_Some.
    + intros i ins Hi. replace (_ + _ + _) with (base + Z.of_nat (length K1 + i)) by lia.
      apply H. by rewrite lookup_app_r, Nat.add_comm, Nat.add_sub by lia.
  - intros [H1 H2] i ins Hi. apply lookup_app_Some in Hi as [Hi|[Hlen Hi]]; [by apply H1|].
    apply H2 in Hi. by replace (_ + _ + _) with (base + Z.of_nat i) in Hi by lia.
Qed.

Lemma loaded_cons P base i K :
  Loaded P base (Some i :: K) ↔ fetch P base = Some (Some i) ∧ Loaded P (base + 1) K.
Proof.
  change (Some i :: K) with ([Some i] ++ K). rewrite loaded_app. cbn [length].
  assert (Loaded P base [Some i] ↔ fetch P base = Some (Some i)) as ->; [|done].
  split.
  - intros H. by rewrite <- (H O i eq_refl), Z.add_0_r.
  - intros H [|n] ins Hn; [|done]. injection Hn as <-. by rewrite Z.add_0_r.
Qed.

Lemma loaded_nil P base : Loaded P base [].
Proof. by intros i ins ?. Qed.

Lemma loaded_hole P base K : Loaded P base (None :: K) ↔ Loaded P (base + 1) K.
Proof.
  change (None :: K) with ([None] ++ K). rewrite loaded_app. cbn [length].
  split; [by intros [_ ?]|]. intros H. split; [|done]. by intros [|n] ins Hn.
Qed.

Lemma loaded_self (c K : code) : Loaded (c ++ K) (Z.of_nat (length c)) K.
Proof.
  intros i ins Hi. unfold fetch. rewrite (proj2 (Z.leb_le _ _)) by lia.
  replace (Z.to_nat _) with (length c + i)%nat by lia. by rewrite lookup_app_r, Nat.add_comm, Nat.add_sub by lia.
Qed.
End vm.

(** *** Code fragments *)

Section fragments.
Context {rt : Runtime} {g0 : G} {laws : RuntimeLaws g0}.

(** The computation leaves the intrinsic constructors in place. *)
Definition Keeps {A} (x : X A) : Prop :=
  ∀ g r g', x g = Some (r, g') → pristine g → pristine g'.

(** Where a fragment of code of [n] instructions at [base] ends. *)
Definition landing {A} (base : Z) (n : nat) (outs : A → list Value) (outsR : A → list Ref)
    (stk : list Value) (refs : list Ref) (tries : list tryFrame) (rs : Value) (r : res Value A) (g' : G) : stepResult :=
  match r with
  | Ok a => Running (MkVm (base + Z.of_nat n) (outs a ++ stk) (outsR a ++ refs) tries rs g')
  | Throw e => handleThrow e (MkVm 0 stk refs tries rs g')
  end.

(** [K] computes [x]: it takes [ins] from the operand stack and [insR] from the
    reference stack and leaves [outs] and [outsR], each instruction executed at
    most once. *)
Definition Computes {A} (K : code) (ins : list Value) (insR : list Ref) (x : X A)
    (outs : A → list Value) (outsR : A → list Ref) : Prop :=
  ∀ P base, Loaded P base K → ∀ g r g', x g = Some (r, g') → pristine g →
  ∀ stk refs tries rs, FramesOK tries stk refs →
  ∃ n, (n ≤ length K)%nat ∧
    Reach P (Running (MkVm base (ins ++ stk) (insR ++ refs) tries rs g))
      (landing base (length K) outs outsR stk refs tries rs r g') n.

Lemma computes_seq {A B} K1 K2 ins insR (x : X A) outs outsR (f : A → X B) outs2 outsR2 :
  Computes K1 ins insR x outs outsR → Keeps x →
  (∀ g a g', x g = Some (Ok a, g') → Computes K2 (outs a) (outsR a) (f a) outs2 outsR2) →
  Computes (K1 ++ K2) ins insR (bind x f) outs2 outsR2.
Proof.
  intros H1 Hk H2 P base HL g r g' Hx Hp stk refs tries rs HF.
  apply loaded_app in HL as [HL1 HL2]. unfold bind in Hx. rewrite length_app.
  destruct (x g) as [[[a|e] g1]|] eqn:E; [| |done].
  - destruct (H1 P base HL1 _ _ _ E Hp stk refs tries rs HF) as (n1 & Hn1 & R1).
    destruct (H2 _ a _ E P _ HL2 _ _ _ Hx (Hk _ _ _ E Hp) stk refs tries rs HF) as (n2 & Hn2 & R2).
    exists (n1 + n2)%nat. split; [lia|]. eapply reach_trans; [exact R1|].
    unfold landing in *. cbn in *. by rewrite Nat2Z.inj_add, Z.add_assoc.
  - destruct (H1 P base HL1 _ _ _ E Hp stk refs tries rs HF) as (n1 & Hn1 & R1).
    injection Hx as <- <-. exists n1. split; [lia|done].
Qed.

(** What lies below on the stacks is kept. *)
Lemma computes_frame {A} K ins insR (x : X A) outs outsR fr frR :
  Computes K ins insR x outs outsR →
  Computes K (ins ++ fr) (insR ++ frR) x (λ a, outs a ++ fr) (λ a, outsR a ++ frR).
Proof.
  intros H P base HL g r g' Hx Hp stk refs tries rs HF.
  destruct (H P base HL _ _ _ Hx Hp (fr ++ stk) (frR ++ refs) tries rs (frames_push _ _ _ _ _ HF)) as (n & Hn & R).
  exists n. split; [done|]. rewrite <- !app_assoc. unfold landing in *.
  destruct r as [a|e]; [by rewrite <- !app_assoc|]. by rewrite (handleThrow_ext _ _ 0) in R.
Qed.

Lemma computes_ext {A} K ins insR (x y : X A) outs outsR :
  (∀ g, y g = x g) → Computes K ins insR x outs outsR → Computes K ins insR y outs outsR.
Proof. intros E H P base HL g r g' Hx. rewrite E in Hx. by apply H. Qed.

(** A computation that is less defined. *)
Lemma computes_weaken {A} K ins insR (x y : X A) outs outsR :
  (∀ g r, y g = Some r → x g = Some r) → Computes K ins insR x outs outsR → Computes K ins insR y outs outsR.
Proof. intros E H P base HL g r g' Hx. apply E in Hx. by apply H. Qed.

Lemma computes_nil {A} (a : A) outs outsR : Computes [] (outs a) (outsR a) (ret a) outs outsR.
Proof.
  intros P base _ g r g' [= <- <-] _ stk refs tries rs _. exists O. split; [done|].
  cbn. rewrite Z.add_0_r. apply reach_refl.
Qed.

(** One instruction whose effect is that of a computation. *)
Lemma computes_instr {A} i ins insR (x : X A) outs outsR :
  (∀ p g r g' stk refs tries rs, x g = Some (r, g') → FramesOK tries stk refs →
     Vm.exec i (MkVm p (ins ++ stk) (insR ++ refs) tries rs g) =
     landing p 1 outs outsR stk refs tries rs r g') →
  Computes [Some i] ins insR x outs outsR.
Proof.
  intros H P base HL g r g' Hx _ stk refs tries rs HF. apply loaded_cons in HL as [Hi _].
  exists 1%nat. split; [done|]. cbn [length]. rewrite <- (H _ _ _ _ _ _ _ _ Hx HF). by apply reach_step.
Qed.

(** The instructions that call the runtime. *)
Lemma computes_call {A} i ins insR refs0 (f : G → res Value A * G) outs outsR :
  (∀ p g stk refs tries rs,
     Vm.exec i (MkVm p (ins ++ stk) (insR ++ refs) tries rs g) =
     andThen (f g) (MkVm p (ins ++ stk) (refs0 ++ refs) tries rs g)
       (λ a m', Running (MkVm (p + 1) (outs a ++ stk) (outsR a ++ refs) tries rs (Vm.g m')))) →
  Computes [Some i] ins insR (call f) outs outsR.
Proof.
  intros H. apply computes_instr. intros p g r g' stk refs tries rs Hx HF.
  rewrite H. unfold call in Hx. injection Hx as Hx. unfold andThen, setG. rewrite Hx. cbn.
  destruct r; [done|]. by apply handleThrow_ext.
Qed.

Ltac by_instr := apply computes_instr; intros ???????? [= <- <-] ?; cbn; try done.

Lemma computes_load v : Computes [Some (loadVal v)] [] [] (ret v) (λ w, [w]) (λ _, []).
Proof. by_instr. Qed.

Lemma computes_undef : Computes [Some loadUndef] [] [] (ret ()) (λ _, [_undefined]) (λ _, []).
Proof. by_instr. Qed.

Lemma computes_pop v : Computes [Some pop] [v] [] (ret v) (λ _, []) (λ _, []).
Proof. by_instr. Qed.

Lemma computes_rdup v w : Computes [Some (rdupN 1)] [v; w] [] (ret v) (λ _, [v; v]) (λ _, []).
Proof. by_instr. Qed.

Lemma computes_not v :
  Computes [Some not] [v] [] (ret (boolValue (negb (ToBoolean v)))) (λ w, [w]) (λ _, []).
Proof. by_instr. by destruct (ToBoolean v). Qed.

Lemma computes_popRef v r : Computes [Some popRef] [v] [r] (ret v) (λ _, [v]) (λ _, []).
Proof. by_instr. Qed.

Lemma computes_unary op v : Computes [Some (unaryI op)] [v] [] (call (unary op v)) (λ w, [w]) (λ _, []).
Proof. by apply (computes_call _ _ _ []). Qed.

Lemma computes_binary op l r : Computes [Some (binaryI op)] [r; l] [] (call (binary op l r)) (λ w, [w]) (λ _, []).
Proof. by apply (computes_call _ _ _ []). Qed.

Lemma computes_resolve b name :
  Computes [Some (resolveVar1 b name)] [] [] (call (resolveVar b name)) (λ _, []) (λ r, [r]).
Proof. by apply (computes_call _ _ _ []). Qed.

Lemma computes_getValue r : Computes [Some getValue] [] [r] (call (refGet r)) (λ v, [v]) (λ _, [r]).
Proof. by apply (computes_call _ _ _ [r]). Qed.

Lemma computes_put (put : bool) r v :
  Computes [Some (if put then putValue else putValueP)] [v] [r] (call (refSet r v))
    (λ _, if put then [v] else []) (λ _, []).
Proof. by destruct put; apply (computes_call _ _ _ []). Qed.

(** *** Constants *)

Definition ThrowsX (k : string) (m : option Value) (x : X Value) : Prop :=
  ∀ g, pristine g → ∃ ctor e g',
    x g = Some (Throw e, g') ∧ getDynamic k false g = (Ok (Some ctor), g) ∧
    construct ctor (option_list m) g = (Ok e, g') ∧
    errorName e g' = Some k ∧ errorMessage e g' = m.

(** The computation has one result in all pristine states. *)
Definition ConstX (x : X Value) : Prop :=
  (∃ w, prim w ∧ ∀ g, pristine g → x g = Some (Ok w, g)) ∨ (∃ k m, errorCtor k ∧ ThrowsX k m x).

Lemma const_ret w : prim w → ConstX (ret w).
Proof. intros Hw. left. by exists w. Qed.

Lemma const_call f : ConstantComputation pristine prim f → ConstX (call f).
Proof.
  intros [(w & Hw & H)|(k & m & Hk & H)]; [left|right].
  - exists w. split; [done|]. intros g Hg. unfold call. by rewrite H.
  - exists k, m. split; [done|]. intros g Hg. destruct (H g Hg) as (ctor & e & g' & E & ?).
    exists ctor, e, g'. unfold call. by rewrite E.
Qed.

Lemma const_bind x f : ConstX x → (∀ w, prim w → ConstX (f w)) → ConstX (bind x f).
Proof.
  intros [(w & Hw & H)|(k & m & Hk & H)] Hf.
  - destruct (Hf w Hw) as [(w' & Hw' & H')|(k & m & Hk & H')]; [left|right].
    + exists w'. split; [done|]. intros g Hg. unfold bind. by rewrite H, H'.
    + exists k, m. split; [done|]. intros g Hg. unfold bind. rewrite H by done. by apply H'.
  - right. exists k, m. split; [done|]. intros g Hg. destruct (H g Hg) as (ctor & e & g' & E & ?).
    exists ctor, e, g'. unfold bind. by rewrite E.
Qed.

(** The code of emitThrow throws what the constant computation throws. *)
Lemma emitThrow_computes k m e g c c' (x : X Value) outs outsR :
  errorCtor k → errorName e g = Some k → errorMessage e g = m → ThrowsX k m x →
  emitThrow e g c = Some c' →
  ∃ K, c' = c ++ K ∧ Computes K [] [] x outs outsR.
Proof.
  intros Hk Hn Hm Hx. unfold emitThrow. rewrite Hn, Hm, decide_True by done. intros [= <-].
  exists (Some <$> [loadDynamic k false] ++ match m with Some v => [loadVal v; _new 1] | None => [_new 0] end ++ [throw]).
  split; [unfold emitLiteralValue; destruct m; unfold emit; rewrite <- !app_assoc; reflexivity|].
  intros P base HL g1 r g' Hr Hp stk refs tries rs HF.
  destruct (Hx g1 Hp) as (ctor & e' & g2 & E & Hd & Hc & _). rewrite E in Hr. injection Hr as <- <-.
  exists (match m with Some _ => 4 | None => 3 end)%nat. split; [by destruct m|].
  destruct m as [v|]; cbn in HL, Hc; repeat (apply loaded_cons in HL as [? HL]);
    (eapply reach_cons; [done|]; cbn; unfold exec_loadDynamic, andThen; cbn; rewrite Hd; cbn).
  - eapply reach_cons; [done|]. eapply reach_cons; [done|]. cbn. unfold exec_new, andThen. cbn. rewrite Hc.
    eapply reach_cons; [done|]. cbn. rewrite handleThrow_push by done. apply reach_refl.
  - eapply reach_cons; [done|]. cbn. unfold exec_new, andThen. cbn. rewrite Hc.
    eapply reach_cons; [done|]. cbn. rewrite handleThrow_push by done. apply reach_refl.
Qed.
End fragments.

Section expressions.
Context {rt : Runtime} {g0 : G} {laws : RuntimeLaws g0} (strict : bool).

(** Induction on expressions, through the lists of sequences. *)
Lemma expr_induction (Q : expr → Prop) :
  (∀ v, Q (ELiteral v)) → (∀ name, Q (EIdentifier name)) → (∀ op e, Q e → Q (EUnary op e)) →
  (∀ op pf name, Q (EUpdate op pf name)) → (∀ op l r, Q l → Q r → Q (EBinary op l r)) →
  (∀ op l r, Q l → Q r → Q (ELogical op l r)) →
  (∀ t a b, Q t → Q a → Q b → Q (EConditional t a b)) →
  (∀ es, Forall Q es → Q (ESequence es)) → (∀ name r, Q r → Q (EAssign name r)) →
  (∀ op name r, Q r → Q (EAssignOp op name r)) → (∀ op name r, Q r → Q (EAssignLogical op name r)) →
  ∀ e, Q e.
Proof.
  intros H1 H2 H3 H4 H5 H6 H7 H8 H9 H10 H11.
  fix IH 1. intros []; [apply H1|apply H2|apply H3|apply H4|apply H5|apply H6|apply H7|apply H8|apply H9|apply H10|apply H11];
    try apply IH.
  induction sequence as [|e es IHes]; constructor; [apply IH|done].
Qed.

(** Literals are primitive values, and the script does not assign to the names
    of the error constructors. *)
Fixpoint okE (e : expr) : Prop :=
  match e with
  | ELiteral v => prim v
  | EIdentifier _ => True
  | EUnary _ e => okE e
  | EUpdate _ _ name => ¬ errorCtor name
  | EBinary _ l r | ELogical _ l r => okE l ∧ okE r
  | EConditional t a b => okE t ∧ okE a ∧ okE b
  | ESequence es => (fix go es := match es with [] => True | e :: es => okE e ∧ go es end) es
  | EAssign name r | EAssignOp _ name r | EAssignLogical _ name r => ¬ errorCtor name ∧ okE r
  end.

(** *** Facts about evaluation *)

Lemma bind_mono {A B} (x x' : X A) (f f' : A → X B) g r :
  (∀ r, x g = Some r → x' g = Some r) → (∀ a g r, f a g = Some r → f' a g = Some r) →
  bind x f g = Some r → bind x' f' g = Some r.
Proof.
  intros Hx Hf. unfold bind. destruct (x g) as [[[a|e] g']|] eqn:E; [| |done]; rewrite (Hx _ eq_refl); auto.
Qed.

(** Evaluation for its effects is evaluation where it is defined. *)
Lemma eval_discard e g r : eval strict false e g = Some r → eval strict true e g = Some r.
Proof.
  revert g r. induction e as [| | |op pf name| |op l r _ IHr|t a b _ IHa IHb|es IHes| | | ] using expr_induction;
    intros g res; cbn [eval]; try done.
  - unfold update. apply bind_mono; [done|]. intros r g1 r1. apply bind_mono; [done|]. intros v g2 r2.
    apply bind_mono; [|done]. intros x. cbn. by destruct (isNumeric v).
  - apply bind_mono; [done|]. intros v g1 r1. destruct (shortCircuits op v); auto.
  - apply bind_mono; [done|]. intros v g1 r1. destruct (ToBoolean v); auto.
  - revert g res. induction es as [|e es IH]; intros g res; [done|].
    apply Forall_cons in IHes as [He Hes]. destruct es as [|e' es]; [apply He|].
    apply bind_mono; [done|]. intros _ g1 r1. by apply IH.
Qed.

Lemma keeps_ret {A} (a : A) : Keeps (ret a).
Proof. by intros g r g' [= <- <-]. Qed.

Lemma keeps_bind {A B} (x : X A) (f : A → X B) :
  Keeps x → (∀ g a g', x g = Some (Ok a, g') → Keeps (f a)) → Keeps (bind x f).
Proof.
  intros Hx Hf g r g'. unfold bind. destruct (x g) as [[[a|e] g1]|] eqn:E; [| |done].
  - intros Hr Hp. eapply (Hf _ _ _ E); [done|]. by eapply Hx.
  - intros [= <- <-]. by eapply Hx.
Qed.

Lemma keeps_call {A} (f : G → res Value A * G) : (∀ g, pristine g → pristine (f g).2) → Keeps (call f).
Proof. intros H g r g' [= E] Hp. specialize (H g Hp). by rewrite E in H. Qed.

Lemma keeps_getBindingValue name : Keeps (getBindingValue strict name).
Proof.
  apply keeps_bind; [apply keeps_call; intros; by apply getDynamic_pristine|].
  intros _ [v|] _ _; [apply keeps_ret|]. intros g r g'. unfold throwReferenceError.
  destruct (newReferenceError name g) as [e g1] eqn:E. intros [= <- <-] Hp.
  pose proof (newReferenceError_pristine name g Hp). by rewrite E in H.
Qed.

Create HintDb keeps.
#[local] Hint Resolve keeps_ret keeps_getBindingValue unary_pristine binary_pristine getDynamic_pristine
  resolveVar_pristine refGet_pristine refSet_pristine : keeps.
#[local] Hint Extern 1 (Keeps (call _)) => apply keeps_call; intros : keeps.
#[local] Hint Extern 1 (Keeps (bind _ _)) => apply keeps_bind; [|intros ? ? ? ?] : keeps.
#[local] Hint Extern 1 (Keeps (if ?b then _ else _)) => destruct b : keeps.
#[local] Hint Extern 1 (Keeps undefinedBehaviour) => intros ???; done : keeps.

(** A reference resolved from a name that is not an error constructor is safe. *)
Lemma resolved_safe name g r g' :
  ¬ errorCtor name → call (resolveVar strict name) g = Some (Ok r, g') → safe r.
Proof. intros Hn [= E]. eapply (resolveVar_safe strict name g); [done|]. by rewrite E. Qed.

#[local] Hint Extern 2 (safe _) => eapply resolved_safe; eassumption : keeps.

Lemma eval_keeps e put : okE e → Keeps (eval strict put e).
Proof.
  revert put. induction e as [| |op e IH|op pf name| |op l r IHl IHr|t a b IHt IHa IHb|es IHes| | | ] using expr_induction;
    intros put Hok; cbn [okE] in Hok; cbn [eval]; eauto 20 with keeps.
  - destruct op; eauto 10 with keeps. apply keeps_bind; [|eauto with keeps].
    destruct e; eauto with keeps.
  - unfold update. eauto 20 with keeps.
  - destruct Hok. eauto 10 with keeps.
  - destruct Hok. eauto 10 with keeps.
  - destruct Hok as (? & ? & ?). eauto 10 with keeps.
  - induction es as [|e es IH]; [by intros ???|]. apply Forall_cons in IHes as [He Hes].
    destruct Hok as [Hok Hoks]. destruct es as [|e' es]; [by apply He|].
    apply keeps_bind; [by apply He|]. intros _ _ _ _. by apply IH.
  - destruct Hok. eauto 20 with keeps.
  - destruct Hok. eauto 20 with keeps.
  - destruct Hok. eauto 20 with keeps.
Qed.

(** *** The emitters *)

(** What an expression leaves on the operand stack, and on the reference stack. *)
Definition out (put : bool) (v : Value) : list Value := if put then [v] else [].
Definition noRef {A} (_ : A) : list Ref := [].

Definition EmitOK (e : expr) : Prop := ∀ inEval put c c',
  emitGetter strict g0 inEval e put c = Some c' →
  ∃ K, c' = c ++ K ∧ Computes K [] [] (eval strict put e) (out put) noRef.

Definition ConstOK (e : expr) : Prop := ∀ inEval c,
  constant strict g0 inEval e c = Some true → ∀ put, ConstX (eval strict put e).

(** The result of evalConst describes the computation in every pristine state. *)
Definition ConstR (x : X Value) (r : constResult) : Prop :=
  match r with
  | CVal w => prim w ∧ ∀ g, pristine g → x g = Some (Ok w, g)
  | CExc e g => ∃ k m, errorCtor k ∧ errorName e g = Some k ∧ errorMessage e g = m ∧ ThrowsX k m x
  end.

Lemma evalConst_spec e inEval c r :
  okE e → EmitOK e → ConstX (eval strict true e) →
  evalConstE strict g0 inEval e c = Some r → ConstR (eval strict true e) r.
Proof.
  intros Hok HE HC. unfold evalConstE, evalConst. destruct (literalOf e) as [v|] eqn:Hlit.
  { destruct e; try done. injection Hlit as ->. intros [= <-]. cbn. by split. }
  set (start := if inEval then c else []). intros Hr.
  apply bind_Some in Hr as (c' & Hemit & Hrun). destruct (HE _ _ _ _ Hemit) as (K & -> & HK).
  set (tf := MkFrame None 0 0 tryPanicMarker (-1) (-1)).
  assert (FramesOK [tf] [] []) as HF by (repeat constructor).
  assert (∀ r g', eval strict true e g0 = Some (r, g') →
    runTry (S (length (start ++ K) - length start)) (start ++ K)
      (MkVm (Z.of_nat (length start)) [] [] [] _undefined g0) =
    Some (match r with
          | Ok w => Halted (MkVm (Z.of_nat (length (start ++ K))) [w] [] [tf] _undefined g')
          | Throw e => Uncaught e g'
          end)) as Hgo.
  { intros r0 g' He.
    destruct (HK _ _ (loaded_self start K) _ _ _ He pristine_g0 [] [] [tf] _undefined HF) as (n & Hn & R).
    rewrite length_app. replace (S _) with (n + (S (length K) - n))%nat by lia.
    unfold runTry. cbn [pc stack refStack pushTryFrame tryStack result g length]. rewrite (R _).
    replace (S (length K) - n)%nat with (S (length K - n)) by lia.
    destruct r0 as [w|e0]; cbn; [|done].
    unfold fetch. rewrite (proj2 (Z.leb_le _ _)) by lia. rewrite lookup_ge_None_2 by (rewrite length_app; lia).
    by rewrite Nat2Z.inj_add. }
  destruct HC as [(w & Hw & HC)|(k & m & Hk & HC)].
  - rewrite (Hgo _ _ (HC _ pristine_g0)) in Hrun. injection Hrun as <-. by split.
  - destruct (HC _ pristine_g0) as (ctor & e0 & g' & He & _ & _ & Hn & Hm).
    rewrite (Hgo _ _ He) in Hrun. injection Hrun as <-. by exists k, m.
Qed.

Lemma computes_const (put : bool) w (x : X Value) :
  (∀ g, pristine g → x g = Some (Ok w, g)) →
  Computes (if put then [Some (loadVal w)] else []) [] [] x (out put) noRef.
Proof.
  intros Hx P base HL g r g' Hr Hp. rewrite Hx in Hr by done.
  destruct put; [by apply (computes_load w P base HL g r g')|]. by apply (computes_nil w (out false) noRef P base HL g r g').
Qed.

Lemma emitConst_spec e (put : bool) r c c' :
  ConstR (eval strict true e) r → emitConst (Some r) put c = Some c' →
  ∃ K, c' = c ++ K ∧ Computes K [] [] (eval strict put e) (out put) noRef.
Proof.
  intros HR. assert (∀ K, Computes K [] [] (eval strict true e) (out put) noRef →
    Computes K [] [] (eval strict put e) (out put) noRef) as Hput.
  { intros K. destruct put; [done|]. apply computes_weaken. intros g r'. apply eval_discard. }
  destruct r as [w|e0 g]; cbn.
  - intros [= <-]. destruct HR as [_ HR]. exists (if put then [Some (loadVal w)] else []).
    split; [destruct put; [done|by rewrite app_nil_r]|]. by apply Hput, computes_const.
  - intros Hc. destruct HR as (k & m & Hk & Hn & Hm & HT).
    destruct (emitThrow_computes k m e0 g c c' _ (out put) noRef Hk Hn Hm HT Hc) as (K & -> & HK).
    exists K. split; [done|]. by apply Hput.
Qed.

Lemma emitExpr_spec e inEval put c c' :
  okE e → EmitOK e → ConstOK e → emitExpr strict g0 inEval e put c = Some c' →
  ∃ K, c' = c ++ K ∧ Computes K [] [] (eval strict put e) (out put) noRef.
Proof.
  intros Hok HE HC Hc. unfold emitExpr in Hc. apply bind_Some in Hc as (k & Hk & Hc).
  destruct k; [|by eapply HE]. destruct (evalConstE strict g0 inEval e c) as [r|] eqn:Er; [|done].
  eapply emitConst_spec; [|exact Hc]. eapply evalConst_spec; [done|done| |exact Er]. by eapply HC.
Qed.

Lemma patch_hole (c : code) i K : patch (length c) i (c ++ None :: K) = c ++ Some i :: K.
Proof. unfold patch. rewrite insert_app_r_alt, Nat.sub_diag by lia. done. Qed.

(** A forward jump over the code emitted since its hole. *)
Lemma patch_forward (mk : Z → instruction) (d K : code) n :
  n = length d →
  patch n (mk (off (length (d ++ None :: K)) n)) (d ++ None :: K) = d ++ Some (mk (Z.of_nat (S (length K)))) :: K.
Proof.
  intros ->. rewrite patch_hole. unfold off. rewrite length_app. cbn [length].
  by replace (Z.of_nat (length d + S (length K)) - Z.of_nat (length d)) with (Z.of_nat (S (length K))) by lia.
Qed.

Lemma computes_done {A B} (a : A) (outs : A → list Value) outsR (outs' : B → list Value) outsR' (b : B) :
  outs a = outs' b → outsR a = outsR' b → Computes [] (outs a) (outsR a) (ret b) outs' outsR'.
Proof. intros -> ->. apply computes_nil. Qed.

(** The results may be renamed. *)
Lemma computes_map {A B} K ins insR (x : X A) outs outsR (outs' : B → list Value) outsR' (f : A → B) :
  (∀ a, outs a = outs' (f a)) → (∀ a, outsR a = outsR' (f a)) →
  Computes K ins insR x outs outsR → Computes K ins insR (bind x (λ a, ret (f a))) outs' outsR'.
Proof.
  intros H1 H2 H P base HL g r g' Hx Hp stk refs tries rs HF. unfold bind in Hx.
  destruct (x g) as [[[a|e] g1]|] eqn:E; [| |done]; injection Hx as <- <-;
    destruct (H P base HL _ _ _ E Hp stk refs tries rs HF) as (n & Hn & R); exists n; (split; [done|]); cbn in *; [|done].
  by rewrite <- H1, <- H2.
Qed.

Lemma bind_ext {A B} (x : X A) (f f' : A → X B) g : (∀ a g, f a g = f' a g) → bind x f g = bind x f' g.
Proof. intros H. unfold bind. destruct (x g) as [[[]]|]; auto. Qed.

Lemma bind_assoc {A B C} (x : X A) (f : A → X B) (h : B → X C) g :
  bind (bind x f) h g = bind x (λ a, bind (f a) h) g.
Proof. unfold bind. by destruct (x g) as [[[]]|]. Qed.

(** Without a result on the stack, the value does not matter. *)
Lemma computes_forget K ins insR (x y : X Value) :
  (∀ g r g', y g = Some (r, g') → ∃ r', x g = Some (r', g') ∧
     match r, r' with Ok _, Ok _ => True | Throw e, Throw e' => e = e' | _, _ => False end) →
  Computes K ins insR x (out false) noRef → Computes K ins insR y (out false) noRef.
Proof.
  intros E H P base HL g r g' Hy Hp stk refs tries rs HF. apply E in Hy as (r' & Hx & Hr).
  destruct (H P base HL _ _ _ Hx Hp stk refs tries rs HF) as (n & Hn & R). exists n. split; [done|].
  destruct r, r'; try done. by rewrite Hr.
Qed.

Lemma computes_popUnless K (x : X Value) (put : bool) :
  Computes K [] [] x (out true) noRef → Keeps x →
  Computes (K ++ if put then [] else [Some pop]) [] [] x (out put) noRef.
Proof.
  intros H Hk. destruct put; [by rewrite app_nil_r|].
  apply (computes_ext _ _ _ (bind x ret)).
  { intros g. unfold bind. by destruct (x g) as [[[]]|]. }
  eapply computes_seq; [done|done|]. intros _ v _ _. apply computes_pop.
Qed.

Lemma popUnless_app put c : popUnless put c = c ++ if put then [] else [Some pop].
Proof. destruct put; [by rewrite app_nil_r|done]. Qed.

Lemma computes_loadDynamic name :
  Computes [Some (loadDynamic name strict)] [] [] (getBindingValue strict name) (out true) noRef.
Proof.
  apply computes_instr. intros p g r g' stk refs tries rs Hx HF. cbn.
  unfold getBindingValue, bind, call, throwReferenceError, exec_loadDynamic, andThen in *. cbn.
  destruct (getDynamic name strict g) as [[[v|]|e] g1]; cbn in *; [by injection Hx as <- <-| |].
  - destruct (newReferenceError name g1) as [e g2]. injection Hx as <- <-. cbn.
    by apply (handleThrow_ext _ p 0 stk [] refs []).
  - injection Hx as <- <-. cbn. by apply (handleThrow_ext _ p 0 stk [] refs []).
Qed.

Lemma computes_loadDynamicRef name :
  Computes [Some (loadDynamicRef name strict)] [] []
    (bind (call (getDynamic name strict)) (λ ov, ret (default (valueUnresolved name) ov))) (out true) noRef.
Proof.
  apply computes_instr. intros p g r g' stk refs tries rs Hx HF. cbn.
  unfold bind, call, exec_loadDynamic, andThen in *. cbn.
  destruct (getDynamic name strict g) as [[[v|]|e] g1]; cbn in *; injection Hx as <- <-; cbn; try done.
  by apply (handleThrow_ext _ p 0 stk [] refs []).
Qed.

(** The jump over the second operand of a logical operator. *)
Lemma computes_shortCircuit (jmp : Z → instruction) (short : Value → bool) (l : Value) K (x : X Value) :
  (∀ j p s refs tries rs g,
     Vm.exec (jmp j) (MkVm p (l :: s) refs tries rs g) =
     if short l then Running (MkVm (p + j) (l :: s) refs tries rs g)
     else Running (MkVm (p + 1) s refs tries rs g)) →
  Computes K [] [] x (out true) noRef →
  Computes (Some (jmp (Z.of_nat (S (length K)))) :: K) [l] [] (if short l then ret l else x) (out true) noRef.
Proof.
  intros Hj HK P base HL g r g' Hx Hp stk refs tries rs HF. apply loaded_cons in HL as [Hi HL].
  specialize (Hj (Z.of_nat (S (length K))) base stk refs tries rs g). destruct (short l).
  - injection Hx as <- <-. exists 1%nat. split; [cbn; lia|]. eapply reach_cons; [done|]. cbn in *. rewrite Hj. apply reach_refl.
  - destruct (HK P _ HL _ _ _ Hx Hp stk refs tries rs HF) as (n & Hn & R). exists (S n). split; [cbn; lia|].
    eapply reach_cons; [done|]. cbn [app]. rewrite Hj. unfold landing in *. cbn [length].
    by replace (base + Z.of_nat (S (length K))) with (base + 1 + Z.of_nat (length K)) by lia.
Qed.

(** The value written is the value of an assignment. *)
Lemma computes_putV (put : bool) r v :
  Computes [Some (if put then putValue else putValueP)] [v] [r] (bind (call (refSet r v)) (λ _, ret v)) (out put) noRef.
Proof. eapply (computes_map _ _ _ _ _ _ _ _ (λ _, v)); [| |apply computes_put]; done. Qed.

Lemma computes_popOver v w : Computes [Some pop] [w; v] [] (ret v) (out true) noRef.
Proof. apply computes_instr. by intros ???????? [= <- <-] ?. Qed.

(** Continue after a fragment that ended normally, and with its exception. *)
Lemma landing_ok {A} base n outs (outsR : A → list Ref) stk refs tries rs r g' P r' k1 k2 m :
  (∀ a, r = Ok a → Reach P (landing base n outs outsR stk refs tries rs (Ok a) g') r' k2) →
  (∀ e, r = Throw e → r' = handleThrow e (MkVm 0 stk refs tries rs g')) →
  Reach P m (landing base n outs outsR stk refs tries rs r g') k1 →
  ∃ k, (k ≤ k1 + k2)%nat ∧ Reach P m r' k.
Proof.
  intros Hok Hth HR. destruct r as [a|e].
  - exists (k1 + k2)%nat. split; [done|]. eapply reach_trans; [exact HR|]. by apply Hok.
  - exists k1. split; [lia|]. by rewrite (Hth e eq_refl).
Qed.

Lemma computes_conditional t Ka Kb (xa xb : X Value) outs :
  Computes Ka [] [] xa outs noRef → Computes Kb [] [] xb outs noRef →
  Computes (Some (jneP (Z.of_nat (length Ka + 2))) :: Ka ++ Some (jump (Z.of_nat (length Kb + 1))) :: Kb)
    [t] [] (if ToBoolean t then xa else xb) outs noRef.
Proof.
  intros Ha Hb P base HL g r g' Hx Hp stk refs tries rs HF. apply loaded_cons in HL as [Hi HL].
  apply loaded_app in HL as [HLa HL]. apply loaded_cons in HL as [Hj HLb]. cbn [length]. rewrite length_app. cbn [length].
  destruct (ToBoolean t) eqn:Et.
  - destruct (Ha P _ HLa _ _ _ Hx Hp stk refs tries rs HF) as (n & Hn & R).
    eapply (landing_ok _ _ _ _ _ _ _ _ _ _ _ _ _ 1) in R as (k & Hk & R); [exists (S k); split; [lia|]| |].
    + eapply reach_cons; [done|]. cbn. rewrite Et. exact R.
    + intros a ->. eapply reach_cons; [done|]. cbn.
      replace (base + 1 + Z.of_nat (length Ka) + Z.of_nat (length Kb + 1))
        with (base + Z.of_nat (S (length Ka + S (length Kb)))) by lia. apply reach_refl.
    + by intros e ->.
  - destruct (Hb P _ HLb _ _ _ Hx Hp stk refs tries rs HF) as (n & Hn & R). exists (S n). split; [lia|].
    eapply reach_cons; [done|]. cbn. rewrite Et. cbn.
    replace (base + Z.of_nat (length Ka + 2)) with (base + 1 + Z.of_nat (length Ka) + 1) by lia.
    unfold landing in *. by replace (base + Z.of_nat (S (length Ka + S (length Kb))))
      with (base + 1 + Z.of_nat (length Ka) + 1 + Z.of_nat (length Kb)) by lia.
Qed.

Lemma assignJump_exec op (put : bool) j p l s refs tries rs g :
  Vm.exec (assignJump op put j) (MkVm p (l :: s) refs tries rs g) =
  if shortCircuits op l then Running (MkVm (p + j) (out put l ++ s) refs tries rs g)
  else Running (MkVm (p + 1) s refs tries rs g).
Proof. destruct op, put; cbn; by destruct (ToBoolean l), (isNullish l). Qed.

Lemma computes_assignLogical op (put : bool) l r K (x : X Value) :
  Computes K [] [] x (out true) noRef → Keeps x →
  Computes (Some (assignJump op put (Z.of_nat (length K + 3))) ::
            K ++ [Some (if put then putValue else putValueP); Some (jump 2); Some popRef])
    [l] [r] (if shortCircuits op l then ret l else bind x (λ v, bind (call (refSet r v)) (λ _, ret v)))
    (out put) noRef.
Proof.
  intros HK Hk P base HL g r0 g' Hx Hp stk refs tries rs HF. apply loaded_cons in HL as [Hi HL].
  change [?a; ?b; ?c] with ([a] ++ [b; c]) in HL. rewrite app_assoc in HL. apply loaded_app in HL as [HLa HL].
  apply loaded_cons in HL as [Hj HL]. apply loaded_cons in HL as [Hq _].
  pose proof (assignJump_exec op put (Z.of_nat (length K + 3)) base l stk ([r] ++ refs) tries rs g) as Hjmp.
  rewrite length_app in *. cbn [length] in *. rewrite length_app. cbn [length].
  destruct (shortCircuits op l).
  - injection Hx as <- <-. exists 2%nat. split; [lia|]. eapply reach_cons; [done|]. cbn [app] in *. rewrite Hjmp.
    eapply reach_cons; [cbn; by replace (base + _) with (base + 1 + Z.of_nat (length K + 1) + 1) by lia|].
    cbn. replace (base + Z.of_nat (length K + 3) + 1) with (base + Z.of_nat (S (length K + 3))) by lia. apply reach_refl.
  - assert (Computes (K ++ [Some (if put then putValue else putValueP)]) [] [r]
      (bind x (λ v, bind (call (refSet r v)) (λ _, ret v))) (out put) noRef) as HC.
    { eapply computes_seq; [apply (computes_frame _ _ _ _ _ _ [] [r] HK)|done|]. intros _ v _ _.
      apply computes_putV. }
    destruct (HC P _ HLa _ _ _ Hx Hp stk refs tries rs HF) as (n & Hn & R). rewrite length_app in Hn, R. cbn [length] in Hn, R.
    eapply (landing_ok _ _ _ _ _ _ _ _ _ _ _ _ _ 1) in R as (k & Hk' & R); [exists (S k); split; [lia|]| |].
    + eapply reach_cons; [done|]. cbn [app] in *. rewrite Hjmp. exact R.
    + intros a ->. eapply reach_cons; [done|]. cbn.
      replace (base + 1 + Z.of_nat (length K + 1) + 2) with (base + Z.of_nat (S (length K + 3))) by lia. apply reach_refl.
    + by intros e ->.
Qed.

Section emitUnary.
Context (name : string) (Hname : ¬ errorCtor name).
Context (prepare : option instruction) (p : Value → X Value) (bodyE : code → option code) (b : Value → X Value).
Context (Hp : ∀ v, Computes (option_list (Some <$> prepare)) [v] [] (p v) (out true) noRef).
Context (Kp : ∀ v, Keeps (p v)) (Kb : ∀ v, Keeps (b v)).
Context (Hb : ∀ c c', bodyE c = Some c' → ∃ K, c' = c ++ K ∧ ∀ v, Computes K [v] [] (b v) (out true) noRef).

(** Read the variable, convert with [p], compute with [b] and write back. *)
Definition updating (postfix : bool) : X Value :=
  bind (call (resolveVar strict name)) (λ r, bind (call (refGet r)) (λ v,
    bind (p v) (λ old, bind (b old) (λ new, bind (call (refSet r new)) (λ _, ret (if postfix then old else new)))))).

Lemma emitVarRef_spec c c' :
  emitVarRef strict name c = Some c' → c' = c ++ [Some (resolveVar1 strict name)].
Proof.
  unfold emitVarRef. intros Hc. apply bind_Some in Hc as (_ & _ & [= <-]). done.
Qed.

Lemma computes_update_prefix K :
  (∀ v, Computes K [v] [] (b v) (out true) noRef) →
  Computes ([Some (resolveVar1 strict name)] ++ [Some loadUndef] ++ [Some getValue] ++ option_list (Some <$> prepare) ++
            K ++ [Some (rdupN 1)] ++ [Some putValue] ++ [Some pop])
    [] [] (updating false) (out true) noRef.
Proof using Hname Hp Kp Kb.
  intros HK. apply (computes_ext _ _ _ (bind (call (resolveVar strict name)) (λ r, bind (ret ()) (λ _,
    bind (call (refGet r)) (λ v, bind (p v) (λ old, bind (b old) (λ new, bind (ret new) (λ _,
    bind (call (refSet r new)) (λ _, ret new))))))))); [reflexivity|].
  eapply computes_seq; [apply computes_resolve|auto with keeps|]. intros g r g' Hr. pose proof (resolved_safe _ _ _ _ Hname Hr).
  eapply computes_seq; [exact (computes_frame _ _ _ _ _ _ [] [r] computes_undef)|auto with keeps|]. intros ????.
  eapply computes_seq; [exact (computes_frame _ _ _ _ _ _ [_undefined] [] (computes_getValue r))|auto with keeps|]. intros _ v _ _.
  eapply computes_seq; [exact (computes_frame _ _ _ _ _ _ [_undefined] [r] (Hp v))|auto|]. intros _ old _ _.
  eapply computes_seq; [exact (computes_frame _ _ _ _ _ _ [_undefined] [r] (HK old))|auto|]. intros _ new _ _.
  eapply computes_seq; [exact (computes_frame _ _ _ _ _ _ [] [r] (computes_rdup new _undefined))|auto with keeps|]. intros ????.
  eapply computes_seq; [exact (computes_frame _ _ _ _ _ _ [new] [] (computes_put true r new))|auto with keeps|]. intros ????.
  apply computes_popOver.
Qed.

Lemma computes_update_postfix K :
  (∀ v, Computes K [v] [] (b v) (out true) noRef) →
  Computes ([Some (resolveVar1 strict name)] ++ [Some loadUndef] ++ [Some getValue] ++ option_list (Some <$> prepare) ++
            [Some (rdupN 1)] ++ K ++ [Some putValue] ++ [Some pop])
    [] [] (updating true) (out true) noRef.
Proof using Hname Hp Kp Kb.
  intros HK. apply (computes_ext _ _ _ (bind (call (resolveVar strict name)) (λ r, bind (ret ()) (λ _,
    bind (call (refGet r)) (λ v, bind (p v) (λ old, bind (ret old) (λ _, bind (b old) (λ new,
    bind (call (refSet r new)) (λ _, ret old))))))))); [reflexivity|].
  eapply computes_seq; [apply computes_resolve|auto with keeps|]. intros g r g' Hr. pose proof (resolved_safe _ _ _ _ Hname Hr).
  eapply computes_seq; [exact (computes_frame _ _ _ _ _ _ [] [r] computes_undef)|auto with keeps|]. intros ????.
  eapply computes_seq; [exact (computes_frame _ _ _ _ _ _ [_undefined] [] (computes_getValue r))|auto with keeps|]. intros _ v _ _.
  eapply computes_seq; [exact (computes_frame _ _ _ _ _ _ [_undefined] [r] (Hp v))|auto|]. intros _ old _ _.
  eapply computes_seq; [exact (computes_frame _ _ _ _ _ _ [] [r] (computes_rdup old _undefined))|auto with keeps|]. intros ????.
  eapply computes_seq; [exact (computes_frame _ _ _ _ _ _ [old] [r] (HK old))|auto|]. intros _ new _ _.
  eapply computes_seq; [exact (computes_frame _ _ _ _ _ _ [old] [] (computes_put true r new))|auto with keeps|]. intros ????.
  apply computes_popOver.
Qed.

Lemma computes_update_discard K :
  (∀ v, Computes K [v] [] (b v) (out true) noRef) →
  Computes ([Some (resolveVar1 strict name)] ++ [Some getValue] ++ K ++ [Some putValueP]) [] []
    (bind (call (resolveVar strict name)) (λ r, bind (call (refGet r)) (λ v,
       bind (b v) (λ new, bind (call (refSet r new)) (λ _, ret new))))) (out false) noRef.
Proof using Hname Kb.
  intros HK.
  eapply computes_seq; [apply computes_resolve|auto with keeps|]. intros g r g' Hr.
  eapply computes_seq; [apply (computes_getValue r)|auto with keeps|]. intros _ v _ _.
  eapply computes_seq; [exact (computes_frame _ _ _ _ _ _ [] [r] (HK v))|auto|]. intros _ new _ _.
  apply (computes_putV false).
Qed.

(** emitUnary reads, converts, computes and writes; without a result the
    conversion is left out. *)
Lemma emitUnary_spec postfix (put : bool) c c' :
  emitUnary strict name prepare bodyE postfix put c = Some c' →
  ∃ K, c' = c ++ K ∧ Computes K [] []
    (if put then updating postfix
     else bind (call (resolveVar strict name)) (λ r, bind (call (refGet r)) (λ v,
            bind (b v) (λ new, bind (call (refSet r new)) (λ _, ret new))))) (out put) noRef.
Proof using Hname Hp Kp Kb Hb.
  unfold emitUnary, emitVarSetter1. destruct put; intros Hc.
  - apply bind_Some in Hc as (c3 & Hc & [= <-]). apply bind_Some in Hc as (c1 & H1%emitVarRef_spec & Hc).
    apply bind_Some in Hc as (c2 & Hc & [= <-]). apply bind_Some in Hc as (c4 & H4 & Hc).
    subst c1. destruct postfix.
    + injection H4 as <-. apply Hb in Hc as (K & -> & HK).
      eexists; split; [|by apply computes_update_postfix]. unfold emit. destruct prepare; cbn; by rewrite <- !app_assoc.
    + injection Hc as <-. apply Hb in H4 as (K & -> & HK).
      eexists; split; [|by apply computes_update_prefix]. unfold emit. destruct prepare; cbn; by rewrite <- !app_assoc.
  - apply bind_Some in Hc as (c1 & ->%emitVarRef_spec & Hc). apply bind_Some in Hc as (c2 & Hc & [= <-]).
    apply Hb in Hc as (K & -> & HK). eexists; split; [|by apply computes_update_discard].
    unfold emit. by rewrite <- !app_assoc.
Qed.
End emitUnary.

(** A fragment followed by one instruction, and the pop when the value is unused. *)
Lemma computes_then K (x : X Value) i (f : Value → X Value) (put : bool) :
  Computes K [] [] x (out true) noRef → Keeps x → (∀ a, Computes [Some i] [a] [] (f a) (out true) noRef) →
  Keeps (bind x f) →
  ∀ c, ∃ K', popUnless put (emit [i] (c ++ K)) = c ++ K' ∧ Computes K' [] [] (bind x f) (out put) noRef.
Proof.
  intros HK Hk Hi Hkf c. exists ((K ++ [Some i]) ++ if put then [] else [Some pop]). split.
  - rewrite popUnless_app. unfold emit. by rewrite <- !app_assoc.
  - apply computes_popUnless; [|done]. eapply computes_seq; [done|done|]. intros _ a _ _. apply Hi.
Qed.

Definition ExprOK (e : expr) : Prop := EmitOK e ∧ ConstOK e.

Lemma emitExpr_ok e inEval put c c' :
  okE e → ExprOK e → emitExpr strict g0 inEval e put c = Some c' →
  ∃ K, c' = c ++ K ∧ Computes K [] [] (eval strict put e) (out put) noRef.
Proof. intros Hok [HE HC]. by apply emitExpr_spec. Qed.

Lemma evalConst_ok e inEval c c' r :
  okE e → ExprOK e → constant strict g0 inEval e c' = Some true →
  evalConstE strict g0 inEval e c = Some r → ConstR (eval strict true e) r.
Proof. intros Hok [HE HC] Hk. apply evalConst_spec; [done|done|]. by eapply HC. Qed.

Lemma unary_ok op e : okE e → ExprOK e → ExprOK (EUnary op e).
Proof.
  intros Hok He. assert (∀ put, Keeps (eval strict put (EUnary op e))) as Hk by (intros; by apply eval_keeps).
  assert (∀ put, Keeps (eval strict put e)) as Hke by (intros; by apply eval_keeps).
  split.
  - intros inEval put c c'. destruct op; cbn [emitGetter]; intros Hc;
      try (apply bind_Some in Hc as (c1 & H1 & [= <-])).
    + apply He in H1 as (K & -> & HK). apply computes_then; auto using computes_not. apply (Hk put).
    + apply He in H1 as (K & -> & HK). apply computes_then; auto using computes_unary. apply (Hk put).
    + assert (∃ K, c1 = c ++ K ∧ Computes K [] [] (match e with
                    | EIdentifier name => bind (call (getDynamic name strict)) (λ ov, ret (default (valueUnresolved name) ov))
                    | _ => eval strict true e
                    end) (out true) noRef) as (K & -> & HK).
      { destruct e; try (by apply He in H1). injection H1 as <-. eexists; split; [done|]. apply computes_loadDynamicRef. }
      apply computes_then; auto using computes_unary; [|apply (Hk put)].
      destruct e; try apply (Hke true). auto with keeps.
    + apply emitExpr_ok in H1 as (K & -> & HK); [|done..].
      apply computes_then; auto using computes_unary. apply (Hk put).
    + apply emitExpr_ok in H1 as (K & -> & HK); [|done..].
      apply computes_then; auto using computes_unary. apply (Hk put).
    + apply emitExpr_ok in H1 as (K & -> & HK); [|done..]. exists (K ++ if put then [Some loadUndef] else []).
      split; [destruct put; [unfold emit; by rewrite <- app_assoc|by rewrite app_nil_r]|].
      eapply computes_seq; [done|apply Hke|]. intros _ v _ _.
      destruct put; [apply computes_instr; by intros ???????? [= <- <-] ?|].
      apply (computes_nil _undefined (out false) noRef).
  - intros inEval c Hc. cbn [constant] in Hc. pose proof (proj2 He _ _ Hc) as HC. intros put. cbn [eval]. destruct op;
      try (apply const_bind; [done|]; intros w Hw;
           first [by apply const_call, unary_prim|apply const_ret, prim_bool|apply const_ret, prim_undefined]).
    apply const_bind; [|intros w Hw; by apply const_call, unary_prim]. by destruct e.
Qed.

Lemma const_bindR x f r :
  ConstR x r → match r with CVal w => ConstX (f w) | CExc _ _ => True end → ConstX (bind x f).
Proof.
  destruct r as [w|e g].
  - intros [Hw Hx] [(w' & Hw' & Hf)|(k & m & Hk & Hf)]; [left; exists w'|right; exists k, m]; (split; [done|]);
      intros g Hg; unfold bind; rewrite Hx by done; auto.
  - intros (k & m & Hk & _ & _ & HT) _. right. exists k, m. split; [done|]. intros g1 Hg.
    destruct (HT g1 Hg) as (ctor & e' & g' & E & ?). exists ctor, e', g'. unfold bind. by rewrite E.
Qed.

Lemma binary_ok op l r : okE l → okE r → ExprOK l → ExprOK r → ExprOK (EBinary op l r).
Proof.
  intros Hl Hr IHl IHr. split.
  - intros inEval put c c' Hc. cbn [emitGetter] in Hc.
    apply bind_Some in Hc as (c1 & H1 & Hc). apply bind_Some in Hc as (c2 & H2 & [= <-]).
    apply emitExpr_ok in H1 as (K1 & -> & HK1); [|done..]. apply emitExpr_ok in H2 as (K2 & -> & HK2); [|done..].
    exists ((K1 ++ K2 ++ [Some (binaryI op)]) ++ if put then [] else [Some pop]).
    split; [rewrite popUnless_app; unfold emit; by rewrite <- !app_assoc|].
    apply computes_popUnless; [|by apply (eval_keeps (EBinary op l r) put)].
    eapply computes_seq; [done|by apply eval_keeps|]. intros _ v _ _.
    eapply computes_seq; [exact (computes_frame _ _ _ _ _ _ [v] [] HK2)|by apply eval_keeps|]. intros _ w _ _.
    apply computes_binary.
  - intros inEval c Hc put. cbn [constant] in Hc. apply bind_Some in Hc as ([] & H1 & Hc); [|done]. cbn [eval].
    apply const_bind; [by eapply (proj2 IHl)|]. intros v Hv.
    apply const_bind; [by eapply (proj2 IHr)|]. intros w Hw. by apply const_call, binary_prim.
Qed.

(** Replace the computed constant operand by its value. *)
Lemma computes_constLeft K l (x y : X Value) (f : Value → X Value) outs :
  ConstR x (CVal l) → (∀ g, y g = bind x f g) → Computes K [] [] (f l) outs noRef → Computes K [] [] y outs noRef.
Proof.
  intros [_ Hx] Hy HK P base HL g r g' Hr Hp. rewrite Hy in Hr. unfold bind in Hr. rewrite Hx in Hr by done. by apply HK.
Qed.

Lemma logical_ok op l r : okE l → okE r → ExprOK l → ExprOK r → ExprOK (ELogical op l r).
Proof.
  intros Hl Hr IHl IHr. split.
  - intros inEval put c c' Hc. cbn [emitGetter] in Hc. apply bind_Some in Hc as (k & Hk & Hc). destruct k.
    + apply bind_Some in Hc as (res & Hres & Hc). apply (evalConst_ok l inEval c c) in Hres as HR; [|done..].
      destruct res as [v|e g].
      * destruct (shortCircuits op v) eqn:Es.
        -- injection Hc as <-. exists (if put then [Some (loadVal v)] else []).
           split; [destruct put; [done|by rewrite app_nil_r]|].
           eapply computes_constLeft; [done|reflexivity|]. cbn. rewrite Es. by apply computes_const.
        -- apply emitExpr_ok in Hc as (K & -> & HK); [|done..]. exists K. split; [done|].
           eapply computes_constLeft; [done|reflexivity|]. cbn. by rewrite Es.
      * destruct HR as (k & m & Hk' & Hn & Hm & HT).
        eapply emitThrow_computes; [done|done|done| |done]. cbn [eval]. intros g1 Hg.
        destruct (HT g1 Hg) as (ctor & e' & g' & E & ?). exists ctor, e', g'. unfold bind. by rewrite E.
    + apply bind_Some in Hc as (c1 & H1 & Hc). apply bind_Some in Hc as (c2 & H2 & [= <-]).
      assert (∃ K, c1 = c ++ K ∧ Computes K [] [] (eval strict true l) (out true) noRef) as (K1 & -> & HK1).
      { destruct op; [by eapply emitExpr_ok|by eapply IHl|by eapply emitExpr_ok]. }
      apply emitExpr_ok in H2 as (K2 & -> & HK2); [|done..].
      exists ((K1 ++ Some (logicalJump op (Z.of_nat (S (length K2)))) :: K2) ++ if put then [] else [Some pop]). split.
      { rewrite popUnless_app. unfold emitNil. rewrite <- (app_assoc (c ++ K1)). cbn [app].
        rewrite (patch_forward (logicalJump op)) by done. by rewrite <- !app_assoc. }
      assert (Computes (K1 ++ Some (logicalJump op (Z.of_nat (S (length K2)))) :: K2) [] []
                (eval strict true (ELogical op l r)) (out true) noRef) as HC.
      { eapply computes_seq; [done|by apply eval_keeps|]. intros _ v _ _.
        apply (computes_shortCircuit (logicalJump op) (shortCircuits op)); [|done].
        intros. destruct op; cbn; by destruct (ToBoolean v), (isNullish v). }
      apply computes_popUnless; [|by apply (eval_keeps (ELogical op l r) put)].
      destruct put; [done|]. eapply computes_weaken; [|done]. intros g x. apply eval_discard.
  - intros inEval c Hc put. cbn [constant] in Hc. apply bind_Some in Hc as ([] & Hk & Hc); [|done].
    apply bind_Some in Hc as (res & Hres & Hc). apply (evalConst_ok l inEval c c) in Hres as HR; [|done..].
    cbn [eval]. eapply const_bindR; [done|]. destruct res as [v|]; [|done].
    destruct (shortCircuits op v); [apply const_ret, HR|]. by eapply (proj2 IHr).
Qed.

Lemma conditional_ok t a b : okE t → ExprOK t → ExprOK a → ExprOK b → ExprOK (EConditional t a b).
Proof.
  intros Ht IHt IHa IHb. split; [|done]. intros inEval put c c' Hc. cbn [emitGetter] in Hc.
  apply bind_Some in Hc as (c1 & H1 & Hc). apply bind_Some in Hc as (c2 & H2 & Hc). apply bind_Some in Hc as (c3 & H3 & [= <-]).
  apply IHt in H1 as (K1 & -> & HK1). apply IHa in H2 as (Ka & -> & HKa). apply IHb in H3 as (Kb & -> & HKb).
  exists (K1 ++ Some (jneP (Z.of_nat (length Ka + 2))) :: Ka ++ Some (jump (Z.of_nat (length Kb + 1))) :: Kb). split.
  - unfold emitNil. set (d := c ++ K1).
    assert (patch (length d) (jneP (off (length (((d ++ [None]) ++ Ka) ++ [None])) (length d))) (((d ++ [None]) ++ Ka) ++ [None]) =
            (d ++ Some (jneP (Z.of_nat (length Ka + 2))) :: Ka) ++ [None]) as ->.
    { rewrite <- !app_assoc. cbn [app]. rewrite (patch_forward jneP) by done. rewrite length_app. cbn [length].
      by replace (S (length Ka + 1)) with (length Ka + 2)%nat by lia. }
    rewrite <- (app_assoc _ [None] Kb). cbn [app]. rewrite (patch_forward jump) by (rewrite !length_app; cbn [length]; lia).
    rewrite <- (Nat.add_1_r (length Kb)). subst d. by rewrite <- !app_assoc.
  - eapply computes_seq; [done|by apply eval_keeps|]. intros _ v _ _. by apply computes_conditional.
Qed.

Lemma sequence_ok es : okE (ESequence es) → Forall (λ e, okE e → ExprOK e) es → ExprOK (ESequence es).
Proof.
  intros Hok IHes. split; [|done]. intros inEval put c c' Hc. cbn [emitGetter] in Hc. cbn [eval].
  revert c Hc. induction es as [|e es IH]; intros c Hc.
  { injection Hc as <-. exists []. split; [by rewrite app_nil_r|]. by intros P base HL g r g' Hx. }
  apply Forall_cons in IHes as [IHe IHes]. destruct Hok as [He Hok]. specialize (IHe He). destruct es as [|e' es].
  - by eapply IHe.
  - apply bind_Some in Hc as (c1 & H1 & Hc). apply IHe in H1 as (K1 & -> & HK1).
    apply IH in Hc as (K2 & -> & HK2); [|done..]. exists (K1 ++ K2). split; [by rewrite app_assoc|].
    eapply computes_seq; [done|by apply eval_keeps|]. by intros _ v _ _.
Qed.

Lemma assign_ok name r : ¬ errorCtor name → okE r → ExprOK r → ExprOK (EAssign name r).
Proof.
  intros Hn Hr IHr. split; [|done]. intros inEval put c c' Hc. cbn [emitGetter] in Hc. unfold emitVarSetter1 in Hc.
  apply bind_Some in Hc as (c1 & ->%emitVarRef_spec & Hc). apply bind_Some in Hc as (c2 & H2 & [= <-]).
  apply emitExpr_ok in H2 as (K & -> & HK); [|done..].
  exists ([Some (resolveVar1 strict name)] ++ K ++ [Some (if put then putValue else putValueP)]).
  split; [unfold emit; by rewrite <- !app_assoc|]. cbn [eval].
  eapply computes_seq; [apply computes_resolve|auto with keeps|]. intros _ rf _ _.
  eapply computes_seq; [exact (computes_frame _ _ _ _ _ _ [] [rf] HK)|by apply eval_keeps|]. intros _ v _ _.
  apply computes_putV.
Qed.

Lemma assignOp_ok op name r : ¬ errorCtor name → okE r → ExprOK r → ExprOK (EAssignOp op name r).
Proof.
  intros Hn Hr IHr. split; [|done]. intros inEval put c c' Hc. cbn [emitGetter] in Hc.
  apply (emitUnary_spec name Hn None ret _ (λ l, bind (eval strict true r) (λ v, call (binary op l v))))
    in Hc as (K & -> & HK).
  - exists K. split; [done|]. eapply computes_ext; [|apply HK]. intros g. cbn [eval]. unfold updating.
    destruct put; (apply bind_ext; intros rf g1; apply bind_ext; intros v g2);
      [change (bind (ret v) ?f g2) with (f v g2); cbn beta|]; by rewrite bind_assoc.
  - intros v. apply (computes_nil v (out true) noRef).
  - auto with keeps.
  - intros v. apply keeps_bind; [by apply eval_keeps|]. auto with keeps.
  - intros c1 c2 H2. apply bind_Some in H2 as (c3 & H3 & [= <-]). apply IHr in H3 as (K3 & -> & HK3).
    exists (K3 ++ [Some (binaryI op)]). split; [unfold emit; by rewrite app_assoc|]. intros v.
    eapply computes_seq; [exact (computes_frame _ _ _ _ _ _ [v] [] HK3)|by apply eval_keeps|]. intros _ w _ _.
    apply computes_binary.
Qed.

Lemma update_ok op postfix name : ¬ errorCtor name → ExprOK (EUpdate op postfix name).
Proof.
  intros Hn. split; [|done]. intros inEval put c c' Hc. cbn [emitGetter] in Hc.
  apply (emitUnary_spec name Hn (Some (unaryI OToNumber)) (λ v, call (unary OToNumber v)) _ (λ v, call (unary op v)))
    in Hc as (K & -> & HK).
  - exists K. split; [done|]. destruct put; [done|]. cbn [eval]. unfold update.
    eapply computes_forget; [|exact HK]. intros g x g' Hx. cbn [orb] in Hx.
    unfold bind in *. destruct (call (resolveVar strict name) g) as [[[rf|e] g1]|]; [| |done]; [|injection Hx as <- <-; by eexists].
    destruct (call (refGet rf) g1) as [[[v|e] g2]|]; [| |done]; [|injection Hx as <- <-; by eexists].
    destruct (isNumeric v) eqn:Ev; [|done]. unfold call in Hx at 1. rewrite isNumeric_toNumber in Hx by done. cbn in Hx.
    destruct (call (unary op v) g2) as [[[w|e] g3]|]; [| |done]; [|injection Hx as <- <-; by eexists].
    destruct (call (refSet rf w) g3) as [[[[]|e] g4]|]; [| |done]; [|injection Hx as <- <-; by eexists].
    injection Hx as <- <-. by eexists.
  - intros v. apply computes_unary.
  - auto with keeps.
  - auto with keeps.
  - intros c1 c2 [= <-]. exists [Some (unaryI op)]. split; [done|]. intros v. apply computes_unary.
Qed.

Lemma assignLogical_ok op name r : ¬ errorCtor name → okE r → ExprOK r → ExprOK (EAssignLogical op name r).
Proof.
  intros Hn Hr IHr. split; [|done]. intros inEval put c c' Hc. cbn [emitGetter] in Hc.
  apply bind_Some in Hc as (c1 & ->%emitVarRef_spec & Hc). apply bind_Some in Hc as (c2 & H2 & [= <-]).
  apply emitExpr_ok in H2 as (K & -> & HK); [|done..].
  exists ([Some (resolveVar1 strict name)] ++ [Some getValue] ++
          Some (assignJump op put (Z.of_nat (length K + 3))) ::
          K ++ [Some (if put then putValue else putValueP); Some (jump 2); Some popRef]). split.
  - unfold emit, emitNil. set (d := (c ++ _) ++ _).
    assert ((((d ++ [None]) ++ K) ++ (Some <$> [if put then putValue else putValueP])) ++ (Some <$> [jump 2]) =
            d ++ None :: K ++ [Some (if put then putValue else putValueP); Some (jump 2)]) as ->
      by (rewrite <- !app_assoc; reflexivity).
    rewrite (patch_forward (assignJump op put)) by done. rewrite length_app. cbn [length].
    replace (S _) with (length K + 3)%nat by lia. subst d. rewrite <- !app_assoc. cbn. by rewrite <- !app_assoc.
  - cbn [eval]. eapply computes_seq; [apply computes_resolve|auto with keeps|]. intros _ rf _ _.
    eapply computes_seq; [apply computes_getValue|auto with keeps|]. intros _ v _ _.
    apply computes_assignLogical; [done|by apply eval_keeps].
Qed.

(** Every expression of the language compiles to code that evaluates it. *)
Theorem expr_ok e : okE e → ExprOK e.
Proof.
  induction e as [v|name|op e IH|op pf name|op l r IHl IHr|op l r IHl IHr|t a b IHt IHa IHb|es IHes|name r IH|op name r IH|op name r IH]
    using expr_induction; intros Hok.
  - split; [|intros inEval c _ put; by apply const_ret]. intros inEval put c c' [= <-].
    exists (if put then [Some (loadVal v)] else []). split; [destruct put; [done|by rewrite app_nil_r]|].
    by apply computes_const.
  - split; [|done]. intros inEval put c c' [= <-]. exists ([Some (loadDynamic name strict)] ++ if put then [] else [Some pop]).
    split; [rewrite popUnless_app; unfold emit; by rewrite <- app_assoc|].
    apply computes_popUnless; [apply computes_loadDynamic|apply keeps_getBindingValue].
  - apply unary_ok; auto.
  - by apply update_ok.
  - destruct Hok. apply binary_ok; auto.
  - destruct Hok. apply logical_ok; auto.
  - destruct Hok as (? & ? & ?). apply conditional_ok; auto.
  - by apply sequence_ok.
  - destruct Hok. apply assign_ok; auto.
  - destruct Hok. apply assignOp_ok; auto.
  - destruct Hok. apply assignLogical_ok; auto.
Qed.
End expressions.
End ExprCorrect.
