(* ===== verification/Jumps.v ===== *)
(** * Jumps of the compiled statements

    How the holes that break and continue statements leave in the code are
    recorded in the blocks of the compiler and patched when a block is left:
    the exits of a piece of code, what it means that a program has that piece
    with its exits resolved, and the effect of leaveBlock on both. *)

From S2P Require Import Prelude Vm Compiler Semantics ExprCorrect.
From stdpp Require Import strings.
Import Vm Compiler Semantics ExprCorrect.
Open Scope Z_scope.

Module Jumps.

Section jumps.
Context {rt : Runtime}.

(** An exit: the position of the hole, the number of blocks outside of the block
    it leaves for, and whether it is a break. *)
Definition exit : Type := nat * nat * bool.
Definition epos (e : exit) : nat := e.1.1.
Definition eblock (e : exit) : nat := e.1.2.
Definition ebreak (e : exit) : bool := e.2.

Definition addExit (bs : list block) (e : exit) : list block :=
  onBlock (eblock e) (if ebreak e then addBreak (epos e) else addCont (epos e)) bs.
Definition addExits (X : list exit) (bs : list block) : list block := foldl addExit bs X.

(** The compiler appended [K] and left the exits [X] in its blocks. *)
Definition Emits (cs cs' : compiler) (K : code) (X : list exit) : Prop :=
  cp cs' = cp cs ++ K ∧ blocks cs' = addExits X (blocks cs).

(** The exits are holes of [K], which starts at [base], to existing blocks. *)
Definition Holes (base : nat) (K : code) (X : list exit) (nb : nat) : Prop :=
  NoDup (epos <$> X) ∧
  ∀ e, e ∈ X → (base ≤ epos e)%nat ∧ K !! (epos e - base)%nat = Some None ∧ (eblock e < nb)%nat.

(** [P] has the code [K] at [base], and its exits are jumps to the targets that
    [tg] gives to the breaks and continues of a block. *)
Definition LoadedX (P : code) (base : nat) (K : code) (X : list exit) (tg : nat → bool → option Z) : Prop :=
  Loaded P (Z.of_nat base) K ∧
  ∀ e t, e ∈ X → tg (eblock e) (ebreak e) = Some t →
    fetch P (Z.of_nat (epos e)) = Some (Some (jump (t - Z.of_nat (epos e)))).

Lemma addExits_app X1 X2 bs : addExits (X1 ++ X2) bs = addExits X2 (addExits X1 bs).
Proof. apply foldl_app. Qed.

Lemma addExit_length bs e : length (addExit bs e) = length bs.
Proof. unfold addExit, onBlock. apply length_alter. Qed.

Lemma addExits_length X bs : length (addExits X bs) = length bs.
Proof. revert bs. induction X as [|e X IH]; intros bs; [done|]. etrans; [apply IH|apply addExit_length]. Qed.

(** *** Composition *)

Lemma emits_refl cs : Emits cs cs [] [].
Proof. split; [by rewrite app_nil_r|done]. Qed.

Lemma emits_trans cs1 cs2 cs3 K1 X1 K2 X2 :
  Emits cs1 cs2 K1 X1 → Emits cs2 cs3 K2 X2 → Emits cs1 cs3 (K1 ++ K2) (X1 ++ X2).
Proof.
  intros [H1 H1'] [H2 H2']. split.
  - by rewrite H2, H1, <- app_assoc.
  - by rewrite H2', H1', addExits_app.
Qed.

Lemma holes_nil base K nb : Holes base K [] nb.
Proof. split; [constructor|]. by intros e ?%not_elem_of_nil. Qed.

Lemma holes_range base K X nb e : Holes base K X nb → e ∈ X → (base ≤ epos e < base + length K)%nat.
Proof. intros [_ H] He. apply H in He as (? & Hl & _). apply lookup_lt_Some in Hl. lia. Qed.

Lemma holes_app base K1 X1 K2 X2 nb :
  Holes base K1 X1 nb → Holes (base + length K1) K2 X2 nb → Holes base (K1 ++ K2) (X1 ++ X2) nb.
Proof.
  intros H1 H2. split.
  - rewrite fmap_app. apply NoDup_app. split; [apply H1|]. split; [|apply H2].
    intros p (e1 & -> & He1)%list_elem_of_fmap (e2 & E & He2)%list_elem_of_fmap.
    apply (holes_range _ _ _ _ _ H1) in He1. apply (holes_range _ _ _ _ _ H2) in He2. lia.
  - intros e [He|He]%elem_of_app.
    + pose proof (holes_range _ _ _ _ _ H1 He). apply H1 in He as (? & Hl & ?). split; [done|]. split; [|done].
      by apply lookup_app_l_Some.
    + pose proof (holes_range _ _ _ _ _ H2 He). apply H2 in He as (? & Hl & ?). split; [lia|]. split; [|done].
      rewrite lookup_app_r by lia. by replace (epos e - base - length K1)%nat with (epos e - (base + length K1))%nat by lia.
Qed.

Lemma loadedX_app P base K1 X1 K2 X2 tg :
  LoadedX P base (K1 ++ K2) (X1 ++ X2) tg ↔ LoadedX P base K1 X1 tg ∧ LoadedX P (base + length K1) K2 X2 tg.
Proof.
  unfold LoadedX. rewrite loaded_app, Nat2Z.inj_add. setoid_rewrite elem_of_app. naive_solver.
Qed.

(** Code without exits. *)
Lemma loadedX_plain P base K tg : LoadedX P base K [] tg ↔ Loaded P (Z.of_nat base) K.
Proof. unfold LoadedX. split; [by intros [? _]|]. intros H. split; [done|]. by intros e t ?%not_elem_of_nil. Qed.

(** *** Leaving a block *)

Definition ownPos (h : nat) (ib : bool) (X : list exit) : list nat :=
  epos <$> filter (λ e, eblock e = h ∧ ebreak e = ib) X.
Definition others (h : nat) (X : list exit) : list exit := filter (λ e, eblock e ≠ h) X.

Definition withExits (b : block) (brs cts : list nat) : block :=
  MkBlock (typ b) (label b) (cont b) (breaks b ++ brs) (conts b ++ cts) (breaking b) (needResult b).

Lemma elem_ownPos p h ib X : p ∈ ownPos h ib X ↔ (p, h, ib) ∈ X.
Proof.
  unfold ownPos. rewrite list_elem_of_fmap. split.
  - intros ([[p' h'] ib'] & -> & [[? ?] He]%list_elem_of_filter). cbn in *. by subst.
  - intros He. exists (p, h, ib). split; [done|]. by apply list_elem_of_filter.
Qed.

(** The exits to the innermost block are recorded in it, the others further out. *)
Lemma addExits_cons X b bs :
  Forall (λ e, (eblock e < S (length bs))%nat) X →
  addExits X (b :: bs) =
  withExits b (ownPos (length bs) true X) (ownPos (length bs) false X) :: addExits (others (length bs) X) bs.
Proof.
  revert b bs. induction X as [|[[p h] ib] X IH]; intros b bs HX.
  { cbn. unfold withExits, ownPos. cbn. rewrite !app_nil_r. by destruct b. }
  apply Forall_cons in HX as [He HX]. unfold eblock in He. cbn in He.
  unfold addExits, ownPos, others in *. cbn [foldl].
  assert (addExit (b :: bs) (p, h, ib) =
    if decide (h = length bs) then (if ib then addBreak p b else addCont p b) :: bs
    else b :: addExit bs (p, h, ib)) as ->.
  { unfold addExit, onBlock, eblock, ebreak, epos. cbn [fst snd length].
    case_decide as Hh; [subst; replace (_ - _)%nat with O by lia; by destruct ib|].
    replace (S (length bs) - S h)%nat with (S (length bs - S h)) by lia. done. }
  rewrite !filter_cons. unfold eblock, ebreak in *. cbn [fst snd].
  case_decide as Hh.
  - subst h. rewrite IH by done. rewrite (decide_False (P := length bs ≠ length bs)) by (intros []; done).
    destruct ib; [rewrite decide_True, decide_False by naive_solver|rewrite decide_False, decide_True by naive_solver];
      rewrite ?fmap_cons; unfold withExits; cbn; rewrite <- ?app_assoc; done.
  - rewrite IH by (by rewrite addExit_length). rewrite addExit_length.
    rewrite !decide_False by naive_solver. by rewrite decide_True.
Qed.

Lemma patchJumps_spec lbl items (c K : code) :
  Forall (λ p, (length c ≤ p < length c + length K)%nat) items →
  ∃ K', patchJumps lbl items (c ++ K) = c ++ K' ∧ length K' = length K ∧
    ∀ i, K' !! i = if decide ((length c + i)%nat ∈ items)
                   then Some (Some (jump (off lbl (length c + i)))) else K !! i.
Proof.
  revert K. unfold patchJumps. induction items as [|p items IH]; intros K HI.
  { exists K. split; [done|]. split; [done|]. intros i. by rewrite decide_False by apply not_elem_of_nil. }
  apply Forall_cons in HI as [Hp HI]. cbn [foldl].
  replace (patch p (jump (off lbl p)) (c ++ K)) with (c ++ <[(p - length c)%nat := Some (jump (off lbl p))]> K)
    by (unfold patch; by rewrite insert_app_r_alt by lia).
  destruct (IH (<[(p - length c)%nat := Some (jump (off lbl p))]> K)) as (K' & E & HL & HK).
  { by rewrite length_insert. }
  exists K'. split; [done|]. rewrite length_insert in HL. split; [done|]. intros i. rewrite HK.
  rewrite (decide_ext (_ ∈ p :: items) (length c + i = p ∨ (length c + i)%nat ∈ items)%nat) by apply elem_of_cons.
  case_decide as H1; [by rewrite decide_True by auto|].
  destruct (decide (p = (length c + i)%nat)) as [->|Hne].
  - rewrite decide_True by auto. replace (length c + i - length c)%nat with i by lia.
    rewrite list_lookup_insert_eq; [done|]. lia.
  - rewrite decide_False by naive_solver. rewrite list_lookup_insert_ne by lia. done.
Qed.

(** The targets inside of a block: its end, and its continuation if it is a loop. *)
Definition retarget (h : nat) (brk : nat) (cnt : option nat) (tg : nat → bool → option Z) (h' : nat) (ib : bool)
    : option Z :=
  if decide (h' = h) then (if ib then Some (Z.of_nat brk) else Z.of_nat <$> cnt) else tg h' ib.

Definition contOf (b : block) : option nat := if decide (typ b = blockLoop) then Some (cont b) else None.

Lemma holes_inj base K X nb e e' : Holes base K X nb → e ∈ X → e' ∈ X → epos e = epos e' → e = e'.
Proof.
  intros [Hnd _] (i & Hi)%list_elem_of_lookup (j & Hj)%list_elem_of_lookup E.
  assert (i = j) as -> by (eapply NoDup_lookup; [exact Hnd| |]; rewrite list_lookup_fmap, ?Hi, ?Hj; cbn; by rewrite ?E).
  congruence.
Qed.

(** The code after both rounds of patches of leaveBlock. *)
Lemma leaveBlock_code b (c K : code) X h nb :
  Holes (length c) K X nb →
  ∃ K', (let c1 := patchJumps (length (c ++ K)) (ownPos h true X) (c ++ K) in
         if decide (typ b = blockLoop) then patchJumps (cont b) (ownPos h false X) c1 else c1) = c ++ K' ∧
    length K' = length K ∧
    ∀ i, K' !! i =
      if decide ((length c + i)%nat ∈ ownPos h true X) then Some (Some (jump (off (length (c ++ K)) (length c + i))))
      else if decide (typ b = blockLoop ∧ (length c + i)%nat ∈ ownPos h false X)
      then Some (Some (jump (off (cont b) (length c + i)))) else K !! i.
Proof.
  intros HH.
  assert (∀ ib, Forall (λ p, (length c ≤ p < length c + length K)%nat) (ownPos h ib X)) as Hrange.
  { intros ib. apply Forall_forall. intros p Hp%elem_ownPos. apply (holes_range _ _ _ _ _ HH Hp). }
  destruct (patchJumps_spec (length (c ++ K)) (ownPos h true X) c K (Hrange true)) as (K1 & E1 & L1 & H1).
  cbn zeta. rewrite E1. case_decide as Ht.
  - destruct (patchJumps_spec (cont b) (ownPos h false X) c K1) as (K2 & E2 & L2 & H2); [by rewrite L1|].
    exists K2. split; [done|]. split; [lia|]. intros i. rewrite H2, H1.
    destruct (decide (_ ∈ ownPos h true X)) as [Hi|]; [|repeat case_decide; naive_solver].
    rewrite decide_False; [done|]. intros Hi'. apply elem_ownPos in Hi, Hi'.
    by pose proof (holes_inj _ _ _ _ _ _ HH Hi Hi' eq_refl).
  - exists K1. split; [done|]. split; [done|]. intros i. rewrite H1. case_decide; [done|]. by rewrite decide_False by naive_solver.
Qed.

(** Leaving a block patches the exits to it with jumps to its targets. *)
Lemma leaveBlock_spec cs b bs (c K : code) X :
  cp cs = c ++ K → blocks cs = b :: addExits (others (length bs) X) bs →
  breaks b = ownPos (length bs) true X → conts b = ownPos (length bs) false X →
  Holes (length c) K X (S (length bs)) →
  ∃ K', leaveBlock cs = MkC (c ++ K') (addExits (others (length bs) X) bs) ∧ length K' = length K ∧
    Holes (length c) K' (others (length bs) X) (length bs) ∧
    ∀ P tg, LoadedX P (length c) K' (others (length bs) X) tg →
            LoadedX P (length c) K X (retarget (length bs) (length c + length K) (contOf b) tg).
Proof.
  intros Hc Hb Hbr Hct HH. destruct (leaveBlock_code b c K X (length bs) _ HH) as (K' & E & HL & HK).
  exists K'. unfold leaveBlock. rewrite Hb, Hc, Hbr, Hct. cbn zeta in *. rewrite E. split; [done|]. split; [done|].
  assert (∀ e, e ∈ X → (length c + (epos e - length c))%nat = epos e) as Hpos.
  { intros e He. pose proof (holes_range _ _ _ _ _ HH He). lia. }
  assert (∀ i ib ins, K !! i = Some (Some ins) → (length c + i)%nat ∉ ownPos (length bs) ib X) as Hin.
  { intros i ib ins Hi Hp%elem_ownPos. apply HH in Hp as (_ & Hn & _). unfold epos in Hn. cbn in Hn.
    replace (length c + i - length c)%nat with i in Hn by lia. congruence. }
  split; [split|].
  - unfold others. eapply sublist_NoDup; [apply HH|]. apply fmap_sublist, sublist_filter.
  - intros e [Hne He]%list_elem_of_filter. destruct (proj2 HH e He) as (? & Hl & Hn).
    split; [done|]. split; [|lia]. rewrite HK, (Hpos e He). rewrite !decide_False; [done| |]; rewrite elem_ownPos.
    + intros [_ He']. by apply Hne, (f_equal eblock (holes_inj _ _ _ _ _ _ HH He He' eq_refl)).
    + intros He'. by apply Hne, (f_equal eblock (holes_inj _ _ _ _ _ _ HH He He' eq_refl)).
  - intros P tg [HP HE]. split.
    + intros i ins Hi. apply HP. rewrite HK, !decide_False; [done| |]; [intros [_ ?]|]; by eapply Hin.
    + intros [[p h] ib] t He. specialize (Hpos _ He). unfold retarget, eblock, ebreak, epos in *. cbn [fst snd] in *.
      destruct (decide (h = length bs)) as [Hh|Hh]; [|intros Ht; apply (HE (p, h, ib) t); [apply list_elem_of_filter; by split|exact Ht]].
      subst h. intros Ht. replace (Z.of_nat p) with (Z.of_nat (length c) + Z.of_nat (p - length c)) by lia.
      assert (K' !! (p - length c)%nat = Some (Some (jump (t - Z.of_nat p)))) as Hi; [|rewrite (HP _ _ Hi); repeat f_equal; lia].
      rewrite HK, Hpos. destruct ib.
      * rewrite decide_True by (by apply elem_ownPos). injection Ht as <-. unfold off. rewrite length_app. done.
      * rewrite decide_False.
        2: { rewrite elem_ownPos. intros He'. by pose proof (holes_inj _ _ _ _ _ _ HH He He' eq_refl). }
        unfold contOf in Ht. destruct (decide (typ b = blockLoop)) as [Hl|]; [|done]. injection Ht as <-.
        rewrite decide_True by (split; [done|by apply elem_ownPos]). done.
Qed.
End jumps.
End Jumps.
