(* ===== verification/StmtCorrect.v ===== *)
(** * Correctness of the code of statements

    The code of a statement runs as the reference semantics prescribes: it
    completes at its end, raises the exception in the frames it started with, or
    arrives at the code that leaves for the target of a break or continue, with
    the finally blocks on the way executed. *)

From S2P Require Import Prelude Vm Compiler Semantics ExprCorrect Jumps.
From stdpp Require Import strings.
Import Vm Compiler Semantics ExprCorrect Jumps.
Open Scope Z_scope.

Module StmtCorrect.

(** *** The blocks around a statement *)

(** What matters of a block while its statements are compiled; [ffin] holds in
    the finally part of a try statement. *)
Record frame := MkFr {
  ftyp : blockType;
  flabel : string;
  fbreaking : option nat;
  ffin : bool
}.

Definition toBlock (f : frame) : block := MkBlock (ftyp f) (flabel f) 0 [] [] (fbreaking f) false.

Definition SameShape (f : frame) (b : block) : Prop :=
  ftyp f = typ b ∧ flabel f = label b ∧ fbreaking f = breaking b.

Definition Matches : list frame → list block → Prop := Forall2 SameShape.

(** The block that a break or continue with that label leaves for. *)
Definition targets (f : frame) (ib : bool) (l : option string) : bool :=
  match l with
  | None => bool_decide (ftyp f = blockLoop) || (ib && bool_decide (ftyp f = blockSwitch))
  | Some l => bool_decide (flabel f = l) && (ib || bool_decide (ftyp f = blockLoop))
  end.

(** A label that cannot be continued to. *)
Definition blocked (f : frame) (ib : bool) (l : option string) : bool :=
  match l with Some l => negb ib && bool_decide (flabel f = l) | None => false end.

(** The finally block of this try statement always branches away. *)
Definition overrides (f : frame) : bool := negb (ffin f) && bool_decide (is_Some (fbreaking f)).

Section exits.
Context {rt : Runtime}.

(** At [p] is the code that leaves for the target of a break or continue. *)
Fixpoint AtExit (P : code) (tg : nat → bool → option Z) (cx : list frame) (p : Z) (ib : bool) (l : option string)
    : Prop :=
  match cx with
  | [] => False
  | f :: outer =>
      if targets f ib l then
        ∃ t, tg (length outer) ib = Some t ∧ fetch P p = Some (Some (jump (t - p)))
      else if blocked f ib l then False
      else match ftyp f with
           | blockTry =>
               fetch P p = Some (Some leaveTry) ∧ (overrides f = false → AtExit P tg outer (p + 1) ib l)
           | _ => AtExit P tg outer p ib l
           end
  end.

(** The block [h] found for a break or continue is its target, as far as the
    exit code is executed. *)
Fixpoint okBranch (cx : list frame) (ib : bool) (l : option string) (h : nat) : bool :=
  match cx with
  | [] => false
  | f :: outer =>
      if targets f ib l then bool_decide (h = length outer)
      else if blocked f ib l then false
      else match ftyp f with
           | blockTry => if overrides f then bool_decide (h < length outer)%nat else okBranch outer ib l h
           | _ => okBranch outer ib l h
           end
  end.

(** Every block has a target for its breaks, and loops for their continues. *)
Definition TgOK (cx : list frame) (tg : nat → bool → option Z) : Prop :=
  ∀ f outer, suffix (f :: outer) cx →
    is_Some (tg (length outer) true) ∧ (ftyp f = blockLoop → is_Some (tg (length outer) false)).

Lemma tgOK_cons f cx tg : TgOK (f :: cx) tg → TgOK cx tg.
Proof. intros H f' outer Hs. apply H. by apply suffix_cons_r. Qed.

Lemma matches_length cx bs : Matches cx bs → length cx = length bs.
Proof. apply Forall2_length. Qed.

Lemma okBranch_lt cx ib l h : okBranch cx ib l h = true → (h < length cx)%nat.
Proof.
  induction cx as [|f outer IH]; [done|]. cbn.
  destruct (targets f ib l); [intros ?%bool_decide_eq_true; lia|]. destruct (blocked f ib l); [done|].
  destruct (ftyp f); try (intros ?%IH; lia).
  destruct (overrides f); [intros ?%bool_decide_eq_true; lia|]. intros ?%IH. lia.
Qed.

Lemma targets_continue f l : targets f false l = true → ftyp f = blockLoop.
Proof. destruct l; cbn; rewrite ?andb_true_iff, ?orb_false_r, ?orb_false_l, !bool_decide_eq_true; tauto. Qed.

(** The code of a branch statement is where it leaves for its target. *)
Lemma exitCode_at P tg cx bs p ib l h :
  Matches cx bs → TgOK cx tg → okBranch cx ib l h = true →
  Loaded P p (Some <$> exitCode h bs) →
  (∀ t, tg h ib = Some t →
     fetch P (p + Z.of_nat (length (exitCode h bs))) =
     Some (Some (jump (t - (p + Z.of_nat (length (exitCode h bs))))))) →
  AtExit P tg cx p ib l.
Proof.
  intros HM. revert p. induction HM as [|f b cx bs (Ht & Hl & Hb) HM IH]; intros p Htg Hok HL Hj; [done|].
  pose proof (matches_length _ _ HM) as Hlen. cbn [okBranch AtExit exitCode] in *. rewrite <- Hlen in *.
  destruct (targets f ib l) eqn:Et.
  - apply bool_decide_eq_true in Hok as ->. rewrite decide_True in * by done.
    destruct (Htg f cx (reflexivity _)) as [Hbr Hct].
    assert (is_Some (tg (length cx) ib)) as [t Htgt].
    { destruct ib; [done|]. apply Hct. by eapply targets_continue. }
    exists t. split; [done|]. specialize (Hj t Htgt). cbn in Hj. by rewrite Z.add_0_r in Hj.
  - destruct (blocked f ib l); [done|]. rewrite <- Ht in *.
    assert (length cx ≠ h) as Hne.
    { destruct (ftyp f); try (apply okBranch_lt in Hok; lia).
      destruct (overrides f); [apply bool_decide_eq_true in Hok; lia|apply okBranch_lt in Hok; lia]. }
    rewrite decide_False in * by done.
    destruct (ftyp f); try (apply IH; auto; by eapply tgOK_cons).
    cbn [fmap list_fmap] in HL. apply loaded_cons in HL as [Hi HL]. split; [done|]. intros Ho. rewrite Ho in Hok.
    apply IH; auto; [by eapply tgOK_cons|]. intros t Htt. specialize (Hj t Htt). cbn [length] in Hj.
    by replace (p + 1 + Z.of_nat (length (exitCode h bs))) with (p + Z.of_nat (S (length (exitCode h bs)))) by lia.
Qed.
End exits.

(** *** Scripts the theorem covers *)

Definition loopF (l : string) : frame := MkFr blockLoop l None false.
Definition labelF (l : string) : frame := MkFr blockLabel l None false.
Definition switchF : frame := MkFr blockSwitch "" None false.
Definition tryF (bb : option nat) (fin : bool) : frame := MkFr blockTry "" bb fin.

Section covered.
Context {rt : Runtime} (strict : bool) (g0 : G).

(** The break and continue statements in a statement that leave it. *)
Fixpoint frees (s : stmt) : list (bool * option string) :=
  match s with
  | SBranch ib l => [(ib, l)]
  | SBlock l => flat_map frees l
  | SIf _ a b => frees a ++ match b with Some b => frees b | None => [] end
  | SDoWhile b _ | SWhile _ b | SFor _ _ _ b => filter (λ x, x.2 ≠ None) (frees b)
  | SLabelled l s => filter (λ x, x.2 ≠ Some l) (frees s)
  | STry b c f =>
      flat_map frees b ++ match c with Some c => flat_map frees c | None => [] end ++
      match f with Some f => flat_map frees f | None => [] end
  | SSwitch _ cases => filter (λ x, x ≠ (true, None)) (flat_map (λ c, flat_map frees c.2) cases)
  | _ => []
  end.

Definition findIn (cx : list frame) (ib : bool) (l : option string) : option (option nat) :=
  findBreakBlock l ib (toBlock <$> cx).

(** Statements compiled in dummy mode leave for the innermost block at most,
    which is a copy; the blocks around it are those of the program. *)
Definition deadOK (cx : list frame) (fs : list (bool * option string)) : bool :=
  forallb (λ x, bool_decide (findIn cx x.1 x.2 = Some (Some (length (tail cx))))) fs.

(** A statement list; what follows a branch statement may be dead code. *)
Definition okList (okS : list frame → stmt → bool) (cx : list frame) : list stmt → bool :=
  fix go l := match l with
              | [] => true
              | s :: l => okS cx s && go l && (negb (isBranch s) || deadOK cx (flat_map frees l))
              end.

Definition okTest (t : expr) (cx : list frame) (body : bool) (fs : list (bool * option string)) : bool :=
  match classifyTest strict g0 t [] with
  | Some TestFalse => body && deadOK cx fs
  | Some (TestThrows _ _) => true
  | Some _ => body
  | None => false
  end.

(** Dead code branches to the copied block only, and a branch statement inside
    of a finally block that branches away has the same target. *)
Fixpoint okS (cx : list frame) (s : stmt) : bool :=
  match s with
  | SExpression _ | SEmpty | SThrow _ => true
  | SBlock l => okList okS cx l
  | SIf t a b =>
      match classifyTest strict g0 t [], b with
      | Some TestTrue, Some b => okS cx a && okS cx b && deadOK cx (frees b)
      | Some TestTrue, None => okS cx a
      | Some TestFalse, Some b => okS cx a && deadOK cx (frees a) && okS cx b
      | Some TestFalse, None => okS cx a && deadOK cx (frees a)
      | Some (TestThrows _ _), _ => true
      | Some TestCode, Some b => okS cx a && okS cx b
      | Some TestCode, None => okS cx a
      | None, _ => false
      end
  | SDoWhile body _ => okS (loopF "" :: cx) body
  | SWhile t body => okTest t (loopF "" :: cx) (okS (loopF "" :: cx) body) (frees body)
  | SFor _ t _ body =>
      match t with
      | Some t => okTest t (loopF "" :: cx) (okS (loopF "" :: cx) body) (frees body)
      | None => okS (loopF "" :: cx) body
      end
  | SBranch ib l =>
      bool_decide (l ≠ Some ""%string) &&
      match findIn cx ib l with Some (Some h) => okBranch cx ib l h | _ => false end
  | SLabelled l s =>
      bool_decide (l ≠ ""%string) &&
      match s with
      | SDoWhile body _ => okS (loopF l :: cx) body
      | SWhile t body => okTest t (loopF l :: cx) (okS (loopF l :: cx) body) (frees body)
      | SFor _ t _ body =>
          match t with
          | Some t => okTest t (loopF l :: cx) (okS (loopF l :: cx) body) (frees body)
          | None => okS (loopF l :: cx) body
          end
      | _ => okS (labelF l :: cx) s
      end
  | STry b c f =>
      match match f with Some l => scanStatements (toBlock <$> tryF None false :: cx) 0 l None | None => Some (None, None) end with
      | Some (_, bb) =>
          okList okS (tryF bb false :: cx) b &&
          match c with Some c => okList okS (tryF bb false :: cx) c | None => true end &&
          match f with Some f => okList okS (tryF bb true :: cx) f | None => true end
      | None => false
      end
  | SSwitch _ cases => forallb (λ c, okList okS (switchF :: cx) c.2) cases
  end.
End covered.

(** *** Runs of the code of statements *)

Section runs.
Context {rt : Runtime} {g0 : G} {laws : RuntimeLaws g0}.

(** The state of the machine at the completion of a statement. *)
Definition Ends (P : code) (tg : nat → bool → option Z) (cx : list frame) (to : Z) (c : ctype)
    (stk : list Value) (refs : list Ref) (tries : list tryFrame) (rs : Value) (g : G) (r : stepResult) : Prop :=
  match c with
  | Normal => r = Running (MkVm to stk refs tries rs g)
  | Thrown e => r = handleThrow e (MkVm 0 stk refs tries rs g)
  | Branch ib l => l ≠ Some ""%string ∧ ∃ p, r = Running (MkVm p stk refs tries rs g) ∧ AtExit P tg cx p ib l
  end.

(** The code at [from] executes the statement [y] and completes at [to]. *)
Definition GoesS (P : code) (tg : nat → bool → option Z) (cx : list frame) (from to : Z) (y : Y) : Prop :=
  ∀ g c v g', y g = Some ((c, v), g') → pristine g →
  pristine g' ∧ ∀ stk refs tries rs, FramesOK tries stk refs →
  ∃ n rs' r, Reach P (Running (MkVm from stk refs tries rs g)) r n ∧ Ends P tg cx to c stk refs tries rs' g' r.

(** The code at [from] computes [x] and continues at a place given by its value. *)
Definition Goes {A} (P : code) (from : Z) (x : X A) (to : A → Z) : Prop :=
  ∀ g r g', x g = Some (r, g') → pristine g →
  pristine g' ∧ ∀ stk refs tries rs, FramesOK tries stk refs →
  ∃ n rs', Reach P (Running (MkVm from stk refs tries rs g))
    (match r with
     | Ok a => Running (MkVm (to a) stk refs tries rs' g')
     | Throw e => handleThrow e (MkVm 0 stk refs tries rs' g')
     end) n.

(** Steps that change the result register at most. *)
Definition Silent (P : code) (a b : Z) : Prop :=
  ∀ stk refs tries rs g, ∃ n rs',
    Reach P (Running (MkVm a stk refs tries rs g)) (Running (MkVm b stk refs tries rs' g)) n.

Lemma silent_refl P a : Silent P a a.
Proof. intros stk refs tries rs g. exists O, rs. apply reach_refl. Qed.

Lemma silent_trans P a b d : Silent P a b → Silent P b d → Silent P a d.
Proof.
  intros H1 H2 stk refs tries rs g. destruct (H1 stk refs tries rs g) as (n1 & rs1 & R1).
  destruct (H2 stk refs tries rs1 g) as (n2 & rs2 & R2). exists (n1 + n2)%nat, rs2. by eapply reach_trans.
Qed.

Lemma silent_jump P a b : fetch P a = Some (Some (jump (b - a))) → Silent P a b.
Proof.
  intros H stk refs tries rs g. exists 1%nat, rs. eapply reach_cons; [done|]. cbn.
  replace (a + (b - a)) with b by lia. apply reach_refl.
Qed.

(** The clearResult that emitWhen appends. *)
Lemma silent_clear P a (nr : bool) :
  Loaded P a (if nr then [Some clearResult] else []) → Silent P a (a + if nr then 1 else 0).
Proof.
  destruct nr; [|rewrite Z.add_0_r; intros _; apply silent_refl]. intros [H _]%loaded_cons stk refs tries rs g.
  exists 1%nat, _undefined. eapply reach_cons; [done|]. apply reach_refl.
Qed.

Lemma goesS_pre P tg cx a b d y : Silent P a b → GoesS P tg cx b d y → GoesS P tg cx a d y.
Proof.
  intros HS HY g c v g' Hy Hp. destruct (HY g c v g' Hy Hp) as [Hp' H]. split; [done|]. intros stk refs tries rs HF.
  destruct (HS stk refs tries rs g) as (n1 & rs1 & R1). destruct (H stk refs tries rs1 HF) as (n2 & rs2 & r & R2 & He).
  exists (n1 + n2)%nat, rs2, r. split; [by eapply reach_trans|done].
Qed.

Lemma goesS_post P tg cx a b d y : GoesS P tg cx a b y → Silent P b d → GoesS P tg cx a d y.
Proof.
  intros HY HS g c v g' Hy Hp. destruct (HY g c v g' Hy Hp) as [Hp' H]. split; [done|]. intros stk refs tries rs HF.
  destruct (H stk refs tries rs HF) as (n1 & rs1 & r & R1 & He). destruct c as [|ib l|e]; [|by exists n1, rs1, r..].
  cbn in He. subst r. destruct (HS stk refs tries rs1 g') as (n2 & rs2 & R2).
  exists (n1 + n2)%nat, rs2. eexists. split; [by eapply reach_trans|done].
Qed.

Lemma goes_pre {A} P a b (x : X A) to : Silent P a b → Goes P b x to → Goes P a x to.
Proof.
  intros HS HX g r g' Hx Hp. destruct (HX g r g' Hx Hp) as [Hp' H]. split; [done|]. intros stk refs tries rs HF.
  destruct (HS stk refs tries rs g) as (n1 & rs1 & R1). destruct (H stk refs tries rs1 HF) as (n2 & rs2 & R2).
  exists (n1 + n2)%nat, rs2. by eapply reach_trans.
Qed.

Lemma goesS_complete P tg cx a v : GoesS P tg cx a a (complete (Normal, v)).
Proof.
  intros g c v' g' [= <- <- <-] Hp. split; [done|]. intros stk refs tries rs HF.
  exists O, rs. eexists. split; [apply reach_refl|done].
Qed.

(** Only the values [x] can have matter. *)
Lemma goesS_exprV {A} P tg cx from to d (x : X A) f :
  Goes P from x to → (∀ a g g', x g = Some (Ok a, g') → pristine g → GoesS P tg cx (to a) d (f a)) →
  GoesS P tg cx from d (withExpr x f).
Proof.
  intros HX HF g c v g' Hy Hp. unfold withExpr in Hy. destruct (x g) as [[[a|e] g1]|] eqn:E; [| |done].
  - destruct (HX _ _ _ E Hp) as [Hp1 H1]. destruct (HF _ _ _ E Hp _ _ _ _ Hy Hp1) as [Hp' H]. split; [done|].
    intros stk refs tries rs HFr. destruct (H1 stk refs tries rs HFr) as (n1 & rs1 & R1).
    destruct (H stk refs tries rs1 HFr) as (n2 & rs2 & r & R2 & He).
    exists (n1 + n2)%nat, rs2, r. split; [by eapply reach_trans|done].
  - destruct (HX _ _ _ E Hp) as [Hp1 H1]. injection Hy as <- <- <-. split; [done|].
    intros stk refs tries rs HFr. destruct (H1 stk refs tries rs HFr) as (n1 & rs1 & R1).
    exists n1, rs1. eexists. split; [exact R1|done].
Qed.

Lemma goesS_expr {A} P tg cx from to d (x : X A) f :
  Goes P from x to → (∀ a, GoesS P tg cx (to a) d (f a)) → GoesS P tg cx from d (withExpr x f).
Proof. intros HX HF. by eapply goesS_exprV. Qed.

(** [f] continues after a normal completion and passes an abrupt one on. *)
Lemma goesS_seq P tg cx a b d y f :
  GoesS P tg cx a b y → (∀ v, GoesS P tg cx b d (f (Normal, v))) →
  (∀ c v, c ≠ Normal → ∃ v', f (c, v) = complete (c, v')) → GoesS P tg cx a d (withStmt y f).
Proof.
  intros HY HF Hab g c v g' Hy Hp. unfold withStmt in Hy. destruct (y g) as [[[c1 v1] g1]|] eqn:E; [|done].
  destruct (HY _ _ _ _ E Hp) as [Hp1 H1]. assert (c1 = Normal ∨ c1 ≠ Normal) as [->|Hc] by (destruct c1; auto).
  - destruct (HF v1 _ _ _ _ Hy Hp1) as [Hp' H]. split; [done|].
    intros stk refs tries rs HFr. destruct (H1 stk refs tries rs HFr) as (n1 & rs1 & r1 & R1 & E1). cbn in E1. subst r1.
    destruct (H stk refs tries rs1 HFr) as (n2 & rs2 & r & R2 & He).
    exists (n1 + n2)%nat, rs2, r. split; [by eapply reach_trans|done].
  - destruct (Hab c1 v1 Hc) as [v' Hf]. rewrite Hf in Hy. injection Hy as <- <- <-. split; [done|].
    intros stk refs tries rs HFr. destruct (H1 stk refs tries rs HFr) as (n1 & rs1 & r1 & R1 & E1).
    exists n1, rs1, r1. split; [done|]. by destruct c1.
Qed.

Lemma goesS_ext P tg cx a b y y' : (∀ g, y g = y' g) → GoesS P tg cx a b y' → GoesS P tg cx a b y.
Proof. intros E H g c v g' Hy. rewrite E in Hy. exact (H g c v g' Hy). Qed.

(** *** Loops *)

Lemma atExit_ext P tg tg' cx p ib l :
  (∀ h ib, (h < length cx)%nat → tg h ib = tg' h ib) → AtExit P tg cx p ib l → AtExit P tg' cx p ib l.
Proof.
  revert p. induction cx as [|f cx IH]; intros p E; [done|]. cbn [AtExit].
  assert (∀ p, AtExit P tg cx p ib l → AtExit P tg' cx p ib l) as IH'.
  { intros p'. apply IH. intros h ib' Hh. apply E. cbn. lia. }
  destruct (targets f ib l).
  - intros (t & Ht & Hf). exists t. split; [|done]. rewrite <- E; [done|]. cbn. lia.
  - destruct (blocked f ib l); [done|]. destruct (ftyp f); auto. intros [? H]. split; [done|]. auto.
Qed.

(** The labels of a statement are those of the labelled blocks directly around it. *)
Definition LabelsOK (cx : list frame) (labels : list string) : Prop :=
  ∃ k, labels = flabel <$> take k cx ∧ Forall (λ f, ftyp f = blockLabel) (take k cx).

Lemma labels_nil cx : LabelsOK cx [].
Proof. exists O. split; [done|constructor]. Qed.

Lemma labels_cons cx labels l : LabelsOK cx labels → LabelsOK (labelF l :: cx) (l :: labels).
Proof. intros (k & -> & H). exists (S k). split; [done|]. by constructor. Qed.

Lemma labels_blocked P tg cx p labels l :
  LabelsOK cx labels → l ∈ labels → ¬ AtExit P tg cx p false (Some l).
Proof.
  intros (k & -> & H). revert cx H. induction k as [|k IH]; intros [|f cx] HF; cbn; [by intros ?%not_elem_of_nil..|].
  apply Forall_cons in HF as [Hf HF]. rewrite elem_of_cons. rewrite Hf.
  rewrite (bool_decide_eq_false_2 (blockLabel = blockLoop)), andb_false_r by done.
  case_bool_decide as Hl; [by intros _ []|]. intros [->|Hin]; [done|]. by apply IH.
Qed.

(** A break to the label of a loop ends at the end of the loop. *)
Definition unl (lbl : string) (c : completion) : completion :=
  if negb (bool_decide (lbl = ""%string)) && breaksTo lbl c.1 then (Normal, c.2) else c.

Definition loopLabels (lbl : string) (labels : list string) : list string :=
  if bool_decide (lbl = ""%string) then labels else lbl :: labels.

Section loops.
Context (P : code) (tg tg' : nat → bool → option Z) (cx : list frame) (lbl : string) (labels : list string).
Context (Cn E : Z).
Context (Htg : ∀ h ib, (h < length cx)%nat → tg' h ib = tg h ib).
Context (HE : tg' (length cx) true = Some E) (HC : tg' (length cx) false = Some Cn).
Context (Hlab : LabelsOK cx labels).

Lemma targets_loop ib l : l ≠ Some ""%string →
  targets (loopF lbl) ib l = match l with None => true | Some l => negb (bool_decide (lbl = ""%string)) && bool_decide (lbl = l) end.
Proof.
  intros Hl. destruct l as [l|]; cbn.
  - rewrite (bool_decide_eq_true_2 (blockLoop = blockLoop)), orb_true_r, andb_true_r by done.
    repeat case_bool_decide; cbn; try done. congruence.
  - by rewrite bool_decide_eq_true_2.
Qed.

(** Where the body of a loop ends: at the next iteration, or as the loop ends. *)
Lemma loop_exit C c v V stk refs tries rs g r :
  Silent P C Cn → Ends P tg' (loopF lbl :: cx) C c stk refs tries rs g r →
  if LoopContinues c (loopLabels lbl labels)
  then ∃ n rs', Reach P r (Running (MkVm Cn stk refs tries rs' g)) n
  else ∃ n rs' r', Reach P r r' n ∧ Ends P tg cx E (unl lbl (endBreakable (UpdateEmpty (c, v) V))).1 stk refs tries rs' g r'.
Proof using Htg HE HC Hlab.
  intros HS HEnds. destruct c as [|ib l|e]; cbn [LoopContinues].
  - cbn in HEnds. subst r. apply HS.
  - destruct HEnds as (Hl & p & -> & HA). cbn [AtExit] in HA. rewrite targets_loop in HA by done.
    assert (∀ t, (∃ t', tg' (length cx) ib = Some t' ∧ fetch P p = Some (Some (jump (t' - p)))) → tg' (length cx) ib = Some t →
      ∃ n rs', Reach P (Running (MkVm p stk refs tries rs g)) (Running (MkVm t stk refs tries rs' g)) n) as Hjump.
    { intros t (t' & E1 & Hf) E2. assert (t' = t) as -> by congruence. by apply silent_jump. }
    destruct l as [l|].
    + destruct (negb (bool_decide (lbl = ""%string)) && bool_decide (lbl = l)) eqn:Eq.
      * apply andb_true_iff in Eq as [Hne Heq%bool_decide_eq_true]. subst l. destruct ib; cbn.
        -- destruct (Hjump E HA HE) as (n & rs' & R). exists n, rs'. eexists. split; [exact R|].
           unfold unl. cbn. rewrite Hne. by rewrite bool_decide_eq_true_2.
        -- rewrite bool_decide_eq_true_2; [by apply Hjump|]. unfold loopLabels.
           destruct (bool_decide (lbl = ""%string)); [done|]. by left.
      * cbn in HA. assert (lbl ≠ l) as Hne.
        { intros ->. rewrite (bool_decide_eq_true_2 (l = l)), andb_true_r in Eq by done.
          apply negb_false_iff, bool_decide_eq_true in Eq. by subst. }
        rewrite (bool_decide_eq_false_2 (lbl = l)), andb_false_r in HA by done.
        apply (atExit_ext _ tg' tg) in HA; [|done]. destruct ib; cbn.
        -- exists O, rs. eexists. split; [apply reach_refl|]. unfold unl. cbn.
           rewrite (bool_decide_eq_false_2 (lbl = l)), andb_false_r by done. split; [done|]. by exists p.
        -- rewrite bool_decide_eq_false_2.
           ++ exists O, rs. eexists. split; [apply reach_refl|]. unfold unl. cbn. rewrite andb_false_r.
              split; [done|]. by exists p.
           ++ unfold loopLabels. destruct (bool_decide (lbl = ""%string)); rewrite ?elem_of_cons; intros Hin;
                (eapply labels_blocked; [exact Hlab| |exact HA]); naive_solver.
    + destruct ib; cbn.
      * destruct (Hjump E HA HE) as (n & rs' & R). exists n, rs'. eexists. split; [exact R|].
        unfold unl. cbn. by rewrite andb_false_r.
      * by apply Hjump.
  - cbn in HEnds. exists O, rs, r. split; [apply reach_refl|]. unfold unl. cbn. by rewrite andb_false_r.
Qed.

Lemma goesS_loopBody B C body V (NEXT : completion → Y) :
  GoesS P tg' (loopF lbl :: cx) B C body → Silent P C Cn → (∀ c, GoesS P tg cx Cn E (NEXT c)) →
  GoesS P tg cx B E (withStmt body (λ c,
    if LoopContinues c.1 (loopLabels lbl labels) then NEXT c else complete (unl lbl (endBreakable (UpdateEmpty c V))))).
Proof using Htg HE HC Hlab.
  intros HB HS HN g c v g' Hy Hp. unfold withStmt in Hy.
  destruct (body g) as [[[c1 v1] g1]|] eqn:Eb; [|done]. destruct (HB _ _ _ _ Eb Hp) as [Hp1 H1]. cbn [fst] in Hy.
  pose proof (λ stk refs tries rs r, loop_exit C c1 v1 V stk refs tries rs g1 r HS) as HX.
  destruct (LoopContinues c1 _).
  - destruct (HN _ _ _ _ _ Hy Hp1) as [Hp' H]. split; [done|]. intros stk refs tries rs HF.
    destruct (H1 stk refs tries rs HF) as (n1 & rs1 & r1 & R1 & E1). apply HX in E1 as (n2 & rs2 & R2).
    destruct (H stk refs tries rs2 HF) as (n3 & rs3 & r & R3 & He).
    exists (n1 + (n2 + n3))%nat, rs3, r. split; [|done]. eapply reach_trans; [done|]. by eapply reach_trans.
  - injection Hy as Hc <-. apply (f_equal fst) in Hc. cbn [fst] in Hc. subst c. split; [done|]. intros stk refs tries rs HF.
    destruct (H1 stk refs tries rs HF) as (n1 & rs1 & r1 & R1 & E1). apply HX in E1 as (n2 & rs2 & r2 & R2 & E2).
    exists (n1 + n2)%nat, rs2, r2. split; [by eapply reach_trans|done].
Qed.
End loops.

(** A labelled statement, as far as breaks to its label go. *)
Definition unlabel (lbl : string) (y : Y) : Y := withStmt y (λ c, complete (unl lbl c)).

Lemma unl_normal lbl v : unl lbl (Normal, v) = (Normal, v).
Proof. unfold unl. cbn. by rewrite andb_false_r. Qed.

Lemma unl_thrown lbl e v : unl lbl (Thrown e, v) = (Thrown e, v).
Proof. unfold unl. cbn. by rewrite andb_false_r. Qed.

Lemma while_unfold lbl k test body upd labels V g :
  unlabel lbl (whileLoop (S k) test body upd labels V) g =
  withExpr test (λ b, if b : bool then
    withStmt body (λ c, if LoopContinues c.1 labels
      then withExpr upd (λ _, unlabel lbl (whileLoop k test body upd labels (default V c.2)))
      else complete (unl lbl (endBreakable (UpdateEmpty c V))))
    else complete (Normal, Some V)) g.
Proof.
  unfold unlabel, withStmt, withExpr, complete. cbn [whileLoop]. unfold withExpr, withStmt, complete.
  destruct (test g) as [[[[]|e] g1]|]; [|by rewrite unl_normal|by rewrite unl_thrown|done].
  destruct (body g1) as [[c g2]|]; [|done]. destruct (LoopContinues c.1 _); [|done].
  destruct (upd g2) as [[[[]|e] g3]|]; [done|by rewrite unl_thrown|done].
Qed.

Lemma goesS_while P tg tg' cx lbl labels start B C Cn U E test body upd :
  (∀ h ib, (h < length cx)%nat → tg' h ib = tg h ib) →
  tg' (length cx) true = Some E → tg' (length cx) false = Some Cn → LabelsOK cx labels →
  Goes P start test (λ b : bool, if b then B else E) →
  GoesS P tg' (loopF lbl :: cx) B C body → Silent P C Cn →
  Goes P Cn upd (λ _ : unit, U) → Silent P U start →
  ∀ k V, GoesS P tg cx start E (unlabel lbl (whileLoop k test body upd (loopLabels lbl labels) V)).
Proof.
  intros Htg HE HC Hlab HT HB HS HU HJ. induction k as [|k IH]; intros V; [by intros g c v g' Hy|].
  eapply goesS_ext; [apply while_unfold|].
  eapply goesS_expr; [exact HT|]. intros []; [|apply goesS_complete].
  eapply goesS_loopBody; try done. intros c. eapply goesS_expr; [exact HU|]. intros ?.
  eapply goesS_pre; [exact HJ|]. apply IH.
Qed.

Lemma goesS_do P tg tg' cx lbl labels B C Cn E test body :
  (∀ h ib, (h < length cx)%nat → tg' h ib = tg h ib) →
  tg' (length cx) true = Some E → tg' (length cx) false = Some Cn → LabelsOK cx labels →
  Goes P Cn test (λ b : bool, if b then B else E) →
  GoesS P tg' (loopF lbl :: cx) B C body → Silent P C Cn →
  ∀ k V, GoesS P tg cx B E (unlabel lbl (doLoop k test body (loopLabels lbl labels) V)).
Proof.
  intros Htg HE HC Hlab HT HB HS. induction k as [|k IH]; intros V; [by intros g c v g' Hy|].
  apply (goesS_ext _ _ _ _ _ _ (withStmt body (λ c, if LoopContinues c.1 (loopLabels lbl labels)
      then withExpr test (λ b, if b : bool then unlabel lbl (doLoop k test body (loopLabels lbl labels) (default V c.2))
                               else complete (Normal, Some (default V c.2)))
      else complete (unl lbl (endBreakable (UpdateEmpty c V)))))).
  { intros g. unfold unlabel, withStmt, withExpr, complete. cbn [doLoop]. unfold withExpr, withStmt, complete.
    destruct (body g) as [[c g2]|]; [|done]. destruct (LoopContinues c.1 _); [|done].
    destruct (test g2) as [[[[]|e] g3]|]; [done|by rewrite unl_normal|by rewrite unl_thrown|done]. }
  eapply goesS_loopBody; try done. intros c. eapply goesS_expr; [exact HT|]. intros []; [apply IH|apply goesS_complete].
Qed.

(** *** try statements *)

Lemma atExit_try P tg cx bb fin p ib l :
  l ≠ Some ""%string → AtExit P tg (tryF bb fin :: cx) p ib l →
  fetch P p = Some (Some leaveTry) ∧ (overrides (tryF bb fin) = false → AtExit P tg cx (p + 1) ib l).
Proof.
  intros Hl. cbn [AtExit].
  assert (targets (tryF bb fin) ib l = false ∧ blocked (tryF bb fin) ib l = false) as [-> ->]; [|done].
  destruct l as [l|]; cbn; [|by rewrite andb_false_r]. rewrite (bool_decide_eq_false_2 (""%string = l)) by congruence.
  by rewrite andb_false_r.
Qed.

Lemma fetch_nonneg P p i : fetch P p = Some i → 0 ≤ p.
Proof. unfold fetch. destruct (Z.leb_spec 0 p); [lia|done]. Qed.

Section try.
Context (P : code) (tg tg' : nat → bool → option Z) (cx : list frame) (bb : option nat).
Context (Htg : ∀ h ib, (h < length cx)%nat → tg' h ib = tg h ib).

(** A frame that catches nothing any more. *)
Definition spent (ex : option Value) (ret : Z) (stk : list Value) (refs : list Ref) : tryFrame :=
  MkFrame ex (length refs) (length stk) (-1) (-1) ret.

Lemma frames_own cp fp ret ex tries stk refs :
  FramesOK tries stk refs → FramesOK (MkFrame ex (length refs) (length stk) cp fp ret :: tries) stk refs.
Proof. intros H. constructor; [done|exact H]. Qed.

Lemma handleThrowLoop_tries l e p stk refs t1 t2 rs g :
  handleThrowLoop l e (MkVm p stk refs t1 rs g) = handleThrowLoop l e (MkVm p stk refs t2 rs g).
Proof. induction l as [|tf l IH]; [done|]. cbn [handleThrowLoop]. by rewrite IH. Qed.

Lemma handleThrow_spent e ex ret stk refs tries rs g :
  handleThrow e (MkVm 0 stk refs (spent ex ret stk refs :: tries) rs g) = handleThrow e (MkVm 0 stk refs tries rs g).
Proof. apply (handleThrowLoop_tries tries). Qed.

(** An abrupt completion leaves a try statement without a finally block to run. *)
Lemma leave_spent fin to to' c ex ret cp stk refs tries rs g r :
  overrides (tryF bb fin) = false → c ≠ Normal → (∀ e, c = Thrown e → cp = -1) →
  Ends P tg' (tryF bb fin :: cx) to c stk refs (MkFrame ex (length refs) (length stk) cp (-1) ret :: tries) rs g r →
  ∃ n r', Reach P r r' n ∧ Ends P tg cx to' c stk refs tries rs g r'.
Proof using Htg.
  intros Ho Hc Hcp. destruct c as [|ib l|e]; [done| |].
  - intros (Hl & p & -> & HA). apply atExit_try in HA as (Hf & HA); [|done]. specialize (HA Ho). exists 1%nat. eexists.
    split; [eapply reach_cons; [done|apply reach_refl]|]. split; [done|]. exists (p + 1). split; [done|].
    by eapply atExit_ext.
  - cbn. intros ->. rewrite (Hcp e eq_refl). exists O. eexists. split; [apply reach_refl|]. apply handleThrow_spent.
Qed.

Section finally.
Context (Fs Fb Fe : Z) (F : Y).
Context (HFs : Silent P Fs Fb) (HF : GoesS P tg' (tryF bb true :: cx) Fb Fe F).
Context (Hleave : fetch P Fe = Some (Some leaveFinally)).
Context (Habrupt : is_Some bb → ∀ g c v g', F g = Some ((c, v), g') → c ≠ Normal).

(** The finally block with its frame, entered for the completion [c0]. *)
Lemma finally_run c0 p0 ex ret stk refs tries g c v g' :
  FramesOK tries stk refs → F g = Some ((c, v), g') → pristine g →
  (∀ rs, c = Normal → ∃ n r', Reach P (exec_leaveFinally (MkVm Fe stk refs (spent ex ret stk refs :: tries) rs g')) r' n ∧
     Ends P tg cx (Fe + 1) c0 stk refs tries rs g' r') →
  p0 = MkVm Fs stk refs (spent ex ret stk refs :: tries) →
  pristine g' ∧ ∀ rs, ∃ n rs' r, Reach P (Running (p0 rs g)) r n ∧
    Ends P tg cx (Fe + 1) (match c with Normal => c0 | _ => c end) stk refs tries rs' g' r.
Proof using Htg HFs HF Hleave.
  intros HFr Hy Hp Hn ->. destruct (HF _ _ _ _ Hy Hp) as [Hp' H]. split; [done|]. intros rs.
  destruct (HFs stk refs (spent ex ret stk refs :: tries) rs g) as (n1 & rs1 & R1).
  destruct (H stk refs (spent ex ret stk refs :: tries) rs1 (frames_own _ _ _ _ _ _ _ HFr)) as (n2 & rs2 & r2 & R2 & E2).
  assert (c = Normal ∨ c ≠ Normal) as [->|Hc] by (destruct c; auto).
  - cbn in E2. subst r2. destruct (Hn rs2 eq_refl) as (n3 & r3 & R3 & E3).
    exists (n1 + (n2 + S n3))%nat, rs2, r3. split; [|done]. eapply reach_trans; [done|]. eapply reach_trans; [done|].
    eapply reach_cons; [done|]. exact R3.
  - apply (leave_spent true Fe (Fe + 1)) in E2 as (n3 & r3 & R3 & E3); [|done..].
    exists (n1 + (n2 + n3))%nat, rs2, r3. split; [|by destruct c]. eapply reach_trans; [done|]. by eapply reach_trans.
Qed.

(** The finally block run for the completion [c0] of the blocks before it. *)
Lemma withFinally_run M cp stk refs tries c0 v0 rs g r0 c v g' :
  fetch P M = Some (Some enterFinally) → Fs = M + 1 → FramesOK tries stk refs → (∀ e, c0 = Thrown e → cp = -1) →
  Ends P tg' (tryF bb false :: cx) M c0 stk refs (MkFrame None (length refs) (length stk) cp Fs (-1) :: tries) rs g r0 →
  withFinally (c0, v0) (Some F) g = Some ((c, v), g') → pristine g →
  pristine g' ∧ ∃ n rs' r, Reach P r0 r n ∧ Ends P tg cx (Fe + 1) c stk refs tries rs' g' r.
Proof using Htg HFs HF Hleave Habrupt.
  intros HM HFM HFr Hcp HE Hy Hp. pose proof (fetch_nonneg _ _ _ HM) as HM0.
  cbn [withFinally] in Hy. unfold withStmt in Hy. destruct (F g) as [[[cf vf] g1]|] eqn:EF; [|done].
  injection Hy as Hc _ <-.
  assert (c = match cf with Normal => c0 | _ => cf end) as -> by (by destruct cf). clear Hc.
  assert (∀ ex ret r1 n1, Reach P r0 r1 n1 → r1 = Running (MkVm Fs stk refs (spent ex ret stk refs :: tries) rs g) →
    (∀ rs, cf = Normal → ∃ n r', Reach P (exec_leaveFinally (MkVm Fe stk refs (spent ex ret stk refs :: tries) rs g1)) r' n ∧
       Ends P tg cx (Fe + 1) c0 stk refs tries rs g1 r') →
    pristine g1 ∧ ∃ n rs' r, Reach P r0 r n ∧
      Ends P tg cx (Fe + 1) (match cf with Normal => c0 | _ => cf end) stk refs tries rs' g1 r) as Hrun.
  { intros ex ret r1 n1 R1 -> Hn. destruct (finally_run c0 _ ex ret stk refs tries g cf vf g1 HFr EF Hp Hn eq_refl) as [Hp' H].
    split; [done|]. destruct (H rs) as (n2 & rs2 & r & R2 & E2). exists (n1 + n2)%nat, rs2, r.
    split; [by eapply reach_trans|done]. }
  destruct c0 as [|ib l|e].
  - cbn in HE. subst r0. eapply (Hrun None (-1)); [eapply reach_cons; [done|apply reach_refl]|by rewrite HFM|].
    intros rs1 _. exists O. eexists. split; [apply reach_refl|done].
  - destruct HE as (Hl & p & -> & HA). apply atExit_try in HA as (Hf & HA); [|done].
    pose proof (fetch_nonneg _ _ _ Hf) as Hp0. eapply (Hrun None (p + 1)).
    + eapply reach_cons; [done|apply reach_refl].
    + cbn. unfold exec_leaveTry. cbn. rewrite (proj2 (Z.leb_le 0 Fs)) by lia. by rewrite keep_all.
    + intros rs1 Hn. assert (overrides (tryF bb false) = false) as Ho.
      { unfold overrides. cbn. apply bool_decide_eq_false. intros Hbb. by eapply (Habrupt Hbb). }
      exists O. eexists. split; [apply reach_refl|]. cbn. rewrite (proj2 (Z.eqb_neq (p + 1) (-1))) by lia.
      split; [done|]. exists (p + 1). split; [done|]. eapply atExit_ext; [|by apply HA]. done.
  - cbn in HE. assert (cp = -1) as -> by (by eapply Hcp). subst r0. eapply (Hrun (Some e) (-1)); [apply reach_refl| |].
    + unfold handleThrow. cbn [tryStack handleThrowLoop catchPos finallyPos].
      rewrite (proj2 (Z.eqb_neq Fs (-1))) by lia. cbn [andb Z.eqb Z.leb Z.compare].
      rewrite (proj2 (Z.leb_le 0 Fs)) by lia. cbn. by rewrite !keep_all.
    + intros rs1 _. exists O. eexists. split; [apply reach_refl|]. cbn. apply (handleThrow_ext _ _ 0 stk [] refs []). done.
Qed.
End finally.

(** Without a finally block. *)
Lemma noFinally_run M cp stk refs tries c0 v0 rs g r0 c v g' :
  fetch P M = Some (Some leaveTry) → bb = None → (∀ e, c0 = Thrown e → cp = -1) →
  Ends P tg' (tryF bb false :: cx) M c0 stk refs (MkFrame None (length refs) (length stk) cp (-1) (-1) :: tries) rs g r0 →
  withFinally (c0, v0) None g = Some ((c, v), g') →
  g' = g ∧ ∃ n rs' r, Reach P r0 r n ∧ Ends P tg cx (M + 1) c stk refs tries rs' g' r.
Proof using Htg.
  intros HM Hbb Hcp HE [= <- <- <-]. split; [done|].
  assert (c0 = Normal ∨ c0 ≠ Normal) as [->|Hc] by (destruct c0; auto).
  - cbn in HE. subst r0. exists 1%nat, rs. eexists. split; [eapply reach_cons; [done|apply reach_refl]|done].
  - apply (leave_spent false M (M + 1)) in HE as (n & r & R & E); [|by rewrite Hbb|done|done]. by exists n, rs, r.
Qed.

(** The end of a try statement, from the completion of its blocks. *)
Definition TryTail (M fp End : Z) (F : option Y) : Prop :=
  ∀ cp stk refs tries c0 v0 rs g r0 c v g', FramesOK tries stk refs → (∀ e, c0 = Thrown e → cp = -1) →
  Ends P tg' (tryF bb false :: cx) M c0 stk refs (MkFrame None (length refs) (length stk) cp fp (-1) :: tries) rs g r0 →
  withFinally (c0, v0) F g = Some ((c, v), g') → pristine g →
  pristine g' ∧ ∃ n rs' r, Reach P r0 r n ∧ Ends P tg cx End c stk refs tries rs' g' r.

Definition TryCatch (cp Be M : Z) (C : option Y) : Prop :=
  match C with
  | None => Be = M ∧ cp = -1
  | Some C => 0 ≤ cp ∧ Silent P Be M ∧ fetch P cp = Some (Some pop) ∧ GoesS P tg' (tryF bb false :: cx) (cp + 1) M C
  end.

(** An exception enters the catch block. *)
Lemma catch_enter e cp fp stk refs tries rs g :
  0 ≤ cp → fetch P cp = Some (Some pop) →
  Reach P (handleThrow e (MkVm 0 stk refs (MkFrame None (length refs) (length stk) cp fp (-1) :: tries) rs g))
    (Running (MkVm (cp + 1) stk refs (MkFrame None (length refs) (length stk) (-1) fp (-1) :: tries) rs g)) 1.
Proof.
  intros Hcp Hf. unfold handleThrow. cbn [tryStack handleThrowLoop catchPos finallyPos].
  rewrite (proj2 (Z.eqb_neq cp (-1))) by lia. cbn [andb]. unfold tryPanicMarker.
  rewrite (proj2 (Z.eqb_neq cp (-2))) by lia. rewrite (proj2 (Z.leb_le 0 cp)) by lia. cbn. rewrite !keep_all.
  eapply reach_cons; [done|]. apply reach_refl.
Qed.

(** The completion of the blocks before the finally block. *)
Definition bodyCatch (body : Y) (C : option Y) : Y :=
  withStmt body (λ B, match B.1, C with Thrown _, Some C => C | _, _ => complete B end).

Lemma execTry_split body C F g : execTry body C F g = withStmt (bodyCatch body C) (λ c, withFinally c F) g.
Proof.
  unfold execTry, bodyCatch, withStmt. destruct (body g) as [[[[|ib l|e] v] g1]|]; [done|done| |done].
  by destruct C as [C|].
Qed.

Definition tryFr (cp fp : Z) (stk : list Value) (refs : list Ref) : tryFrame :=
  MkFrame None (length refs) (length stk) cp fp (-1).

Lemma tryBlocks_run A co fo Bd Be M cp fp body C g c1 v1 g1 :
  fetch P A = Some (Some (try co fo)) → (if 0 <? co then A + co else -1) = cp → (if 0 <? fo then A + fo else -1) = fp →
  Silent P (A + 1) Bd → GoesS P tg' (tryF bb false :: cx) Bd Be body → TryCatch cp Be M C →
  bodyCatch body C g = Some ((c1, v1), g1) → pristine g →
  pristine g1 ∧ ∀ stk refs tries rs, FramesOK tries stk refs →
    ∃ n rs' r cp', Reach P (Running (MkVm A stk refs tries rs g)) r n ∧ (∀ e, c1 = Thrown e → cp' = -1) ∧
      Ends P tg' (tryF bb false :: cx) M c1 stk refs (tryFr cp' fp stk refs :: tries) rs' g1 r.
Proof.
  intros HA Hco Hfo HBd HB HC Hy Hp. unfold bodyCatch, withStmt in Hy.
  destruct (body g) as [[[c0 v0] g0']|] eqn:Eb; [|done]. destruct (HB _ _ _ _ Eb Hp) as [Hp0 H0].
  assert (∀ stk refs tries rs, FramesOK tries stk refs → ∃ n rs' r,
    Reach P (Running (MkVm A stk refs tries rs g)) r n ∧
    Ends P tg' (tryF bb false :: cx) Be c0 stk refs (tryFr cp fp stk refs :: tries) rs' g0' r) as Hbody.
  { intros stk refs tries rs HF. destruct (HBd stk refs (tryFr cp fp stk refs :: tries) rs g) as (n2 & rs2 & R2).
    destruct (H0 stk refs (tryFr cp fp stk refs :: tries) rs2 (frames_own _ _ _ _ _ _ _ HF)) as (n3 & rs3 & r & R3 & E3).
    exists (S (n2 + n3)), rs3, r. split; [|done]. eapply reach_cons; [done|]. cbn. unfold exec_try, pushTryFrame. cbn.
    rewrite Hco, Hfo. by eapply reach_trans. }
  assert ((∃ e C', c0 = Thrown e ∧ C = Some C') ∨ ((c1, v1), g1) = ((c0, v0), g0') ∧ (∀ e, c0 = Thrown e → C = None))
    as [(e & C' & -> & ->)|[[= -> -> ->] HN]].
  { unfold complete in Hy. destruct c0 as [|ib l|e]; cbn in Hy; [right; split; [congruence|done]..|].
    destruct C as [C'|]; [left; by exists e, C'|right; split; [congruence|done]]. }
  - destruct HC as (Hcp & HSil & Hpop & HC). cbn in Hy. destruct (HC _ _ _ _ Hy Hp0) as [Hp1 H1]. split; [done|].
    intros stk refs tries rs HF. destruct (Hbody stk refs tries rs HF) as (n1 & rs1 & r1 & R1 & E1). cbn in E1. subst r1.
    destruct (H1 stk refs (tryFr (-1) fp stk refs :: tries) rs1 (frames_own _ _ _ _ _ _ _ HF)) as (n3 & rs3 & r3 & R3 & E3).
    exists (n1 + (1 + n3))%nat, rs3, r3, (-1). split; [|done].
    eapply reach_trans; [done|]. eapply reach_trans; [|done]. by apply catch_enter.
  - split; [done|]. intros stk refs tries rs HF. destruct (Hbody stk refs tries rs HF) as (n1 & rs1 & r1 & R1 & E1).
    assert (Silent P Be M ∧ (C = None → cp = -1)) as [HSil Hcp].
    { destruct C as [C|]; [by destruct HC as (? & ? & _)|]. destruct HC as [-> ->]. split; [apply silent_refl|done]. }
    assert (c0 = Normal ∨ c0 ≠ Normal) as [->|Hn] by (destruct c0; auto).
    + cbn in E1. subst r1. destruct (HSil stk refs (tryFr cp fp stk refs :: tries) rs1 g0') as (n2 & rs2 & R2).
      exists (n1 + n2)%nat, rs2. eexists _, cp. split; [by eapply reach_trans|]. done.
    + exists n1, rs1, r1, cp. split; [done|]. split; [intros e He; apply Hcp; by eapply HN|]. by destruct c0.
Qed.

Lemma goesS_try A co fo Bd Be M cp fp End body C F :
  fetch P A = Some (Some (try co fo)) → (if 0 <? co then A + co else -1) = cp → (if 0 <? fo then A + fo else -1) = fp →
  Silent P (A + 1) Bd → GoesS P tg' (tryF bb false :: cx) Bd Be body →
  TryCatch cp Be M C → TryTail M fp End F → GoesS P tg cx A End (execTry body C F).
Proof.
  intros HA Hco Hfo HBd HB HC HT. eapply goesS_ext; [intros g; apply execTry_split|].
  intros g c v g' Hy Hp. unfold withStmt in Hy. destruct (bodyCatch body C g) as [[[c1 v1] g1]|] eqn:Eb; [|done].
  destruct (tryBlocks_run A co fo Bd Be M cp fp body C g c1 v1 g1 HA Hco Hfo HBd HB HC Eb Hp) as [Hp1 H1]. split.
  - destruct (H1 [] [] [] _undefined ltac:(constructor)) as (n & rs' & r & cp' & R & Hcp & E).
    by eapply (HT cp' [] [] []); [constructor|done|exact E|exact Hy|].
  - intros stk refs tries rs HF. destruct (H1 stk refs tries rs HF) as (n1 & rs1 & r1 & cp' & R1 & Hcp & E1).
    destruct (HT cp' stk refs tries c1 v1 rs1 g1 r1 c v g' HF Hcp E1 Hy Hp1) as [_ (n2 & rs2 & r2 & R2 & E2)].
    exists (n1 + n2)%nat, rs2, r2. split; [by eapply reach_trans|done].
Qed.
End try.
End runs.
End StmtCorrect.
