(* ===== verification/CompilerCorrect.v ===== *)
(** * Correctness of the compiler for scripts

    The compiler's treatment of statements put together: what each statement
    appends to the code, which exits it leaves, that dead code leaves no trace,
    and that the code runs as the reference semantics prescribes. *)

From S2P Require Import Prelude Vm Compiler Semantics ExprCorrect Jumps StmtCorrect.
From stdpp Require Import strings.
Import Vm Compiler Semantics ExprCorrect Jumps StmtCorrect.
Open Scope Z_scope.

Module CompilerCorrect.

(** *** Finding the block of a branch *)

Section find.
Lemma findLabelled_shape cx bs name ib r :
  Matches cx bs → findLabelled name ib bs r = findLabelled name ib (toBlock <$> cx) r.
Proof.
  intros HM. revert r. induction HM as [|f b cx bs (Ht & Hl & Hb) HM IH]; intros r; [done|]. cbn.
  by rewrite <- Ht, <- Hl, <- Hb, <- (Forall2_length _ _ _ HM), length_fmap, IH.
Qed.

Lemma findUnlabelled_shape cx bs ib : Matches cx bs → findUnlabelled ib bs = findUnlabelled ib (toBlock <$> cx).
Proof.
  induction 1 as [|f b cx bs (Ht & Hl & Hb) HM IH]; [done|]. cbn.
  by rewrite <- Ht, <- Hb, <- (Forall2_length _ _ _ HM), length_fmap, IH.
Qed.

(** Only the types, labels and overrides of the blocks matter. *)
Lemma findBreakBlock_shape cx bs l ib : Matches cx bs → findBreakBlock l ib bs = findIn cx ib l.
Proof.
  intros HM. unfold findIn, findBreakBlock. destruct l as [l|].
  - by rewrite (findLabelled_shape _ _ _ _ _ HM).
  - by rewrite (findUnlabelled_shape _ _ _ HM).
Qed.

Lemma matches_addExits cx bs X : Matches cx bs → Matches cx (addExits X bs).
Proof.
  revert bs. induction X as [|[[p h] ib] X IH]; intros bs HM; [done|]. apply IH.
  unfold addExit, onBlock. apply Forall2_alter_r; [done|]. intros f b ?? HS. destruct HS as (? & ? & ?).
  unfold ebreak. cbn. by destruct ib.
Qed.

Lemma find_cons_none f cx ib l h :
  fbreaking f = None → findIn (f :: cx) ib l = Some (Some h) →
  (h = length cx ∧ targets f ib l = true) ∨
  (findIn cx ib l = Some (Some h) ∧ targets f ib l = false ∧ blocked f ib l = false).
Proof.
  intros Hb. unfold findIn, findBreakBlock, targets, blocked. destruct l as [l|]; cbn; rewrite Hb, length_fmap.
  - rewrite (bool_decide_eq_false_2 (is_Some None)), andb_false_r by (by intros []).
    destruct (decide (flabel f = l)) as [->|Hne].
    + rewrite (bool_decide_eq_true_2 (l = l)) by done. intros E. left. revert E.
      destruct ib, (bool_decide (ftyp f = blockLoop)); cbn; naive_solver.
    + rewrite (bool_decide_eq_false_2 (flabel f = l)), andb_false_r by done. auto.
  - destruct (ftyp f), ib; cbn; (intros [= <-] || intros E); first [by left|right; split; [first [done|by rewrite E]|by split]].
Qed.

Lemma findLabelled_some name cx bb :
  (findLabelled name false (toBlock <$> cx) (Some bb)).1.1 = Some bb.
Proof. induction cx as [|f cx IH]; [done|]. cbn. by case_decide. Qed.

(** Inside of a try statement that overrides, every branch leaves for [bb]. *)
Lemma find_cons_some f cx ib l h bb :
  fbreaking f = Some bb → findIn (f :: cx) ib l = Some (Some h) → h = bb.
Proof.
  intros Hb. unfold findIn, findBreakBlock. destruct l as [l|]; cbn; rewrite Hb; [|congruence].
  rewrite (bool_decide_eq_true_2 (is_Some (Some bb))) by (by eexists). destruct ib; cbn; [congruence|].
  case_decide; cbn.
  - destruct (negb _); congruence.
  - pose proof (findLabelled_some l cx bb) as E. destruct (findLabelled l false (toBlock <$> cx) (Some bb)) as [[r o] b].
    cbn in E. subst r. destruct b; [congruence|]. destruct o as [[? t]|]; [|congruence].
    destruct (negb _); congruence.
Qed.
End find.

(** *** Expressions in statements *)

Section pieces.
Context {rt : Runtime} {g0 : G} {laws : RuntimeLaws g0} (strict : bool).

Lemma goes_effect {A} P a K (x : X A) outs :
  (∀ v, outs v = []) → Computes K [] [] x outs noRef → Keeps x → Loaded P a K → Goes P a x (λ _, a + Z.of_nat (length K)).
Proof.
  intros Ho HK Hk HL g r g' Hx Hp. split; [by eapply Hk|]. intros stk refs tries rs HF.
  destruct (HK P a HL g r g' Hx Hp stk refs tries rs HF) as (n & _ & R). exists n, rs. unfold landing in R.
  destruct r; [by rewrite Ho in R|done].
Qed.

(** The value of a test decides a jump. *)
Lemma goes_jump P a K e (i : instruction) (yes no : Z) :
  Computes K [] [] (eval strict true e) (out true) noRef → okE e → Loaded P a (K ++ [Some i]) →
  (∀ v s refs tries rs g, Vm.exec i (MkVm (a + Z.of_nat (length K)) (v :: s) refs tries rs g) =
     Running (MkVm (if ToBoolean v then yes else no) s refs tries rs g)) →
  Goes P a (testOf strict e) (λ b, if b : bool then yes else no).
Proof.
  intros HK Hok [HL Hi]%loaded_app Hexec g r g' Hx Hp. apply loaded_cons in Hi as [Hi _].
  unfold testOf, bind in Hx. destruct (eval strict true e g) as [[[v|ex] g1]|] eqn:E; [| |done]; injection Hx as <- <-;
    (split; [by eapply eval_keeps|]); intros stk refs tries rs HF;
    destruct (HK P a HL g _ g1 E Hp stk refs tries rs HF) as (n & _ & R).
  - exists (n + 1)%nat, rs. eapply reach_trans; [exact R|]. eapply reach_cons; [done|]. cbn [landing out app] in *.
    rewrite Hexec. apply reach_refl.
  - by exists n, rs.
Qed.

(** A constant test. *)
Lemma goes_const {A} P a (x : X A) v : (∀ g, pristine g → x g = Some (Ok v, g)) → Goes P a x (λ _, a).
Proof.
  intros Hx g r g' E Hp. rewrite Hx in E by done. injection E as <- <-. split; [done|].
  intros stk refs tries rs HF. exists O, rs. apply reach_refl.
Qed.

(** The expression statement, with its value saved or dropped. *)
Lemma goesS_expression P tg cx a K e (nr : bool) :
  Computes K [] [] (eval strict nr e) (out nr) noRef → okE e →
  Loaded P a (K ++ if nr then [Some saveResult] else []) →
  GoesS P tg cx a (a + Z.of_nat (length (K ++ if nr then [Some saveResult] else [])))
    (withExpr (eval strict false e) (λ v, complete (Normal, Some v))).
Proof.
  intros HK Hok [HL Hi]%loaded_app.
  eapply (goesS_expr _ _ _ _ (λ _, a + Z.of_nat (length (K ++ if nr then [Some saveResult] else [])))); [|intros; apply goesS_complete].
  intros g r g' Hx Hp. split; [by eapply eval_keeps|]. intros stk refs tries rs HF.
  assert (eval strict nr e g = Some (r, g')) as Hx' by (destruct nr; [by apply eval_discard|done]).
  destruct (HK P a HL g r g' Hx' Hp stk refs tries rs HF) as (n & _ & R). rewrite length_app. destruct r as [v|ex].
  - destruct nr; cbn [length landing out app] in *.
    + apply loaded_cons in Hi as [Hi _]. exists (n + 1)%nat, v. eapply reach_trans; [exact R|].
      eapply reach_cons; [done|]. cbn. replace (a + Z.of_nat (length K) + 1) with (a + Z.of_nat (length K + 1)) by lia.
      apply reach_refl.
    + exists n, rs. by rewrite Nat.add_0_r.
  - exists n, rs. exact R.
Qed.

Lemma goesS_throw P tg cx a K e to :
  Computes K [] [] (eval strict true e) (out true) noRef → okE e → Loaded P a (K ++ [Some throw]) →
  GoesS P tg cx a to (withExpr (eval strict true e) (λ v, complete (Thrown v, None))).
Proof.
  intros HK Hok [HL Hi]%loaded_app g c v g' Hy Hp. apply loaded_cons in Hi as [Hi _]. unfold withExpr in Hy.
  destruct (eval strict true e g) as [[[w|ex] g1]|] eqn:E; [| |done]; injection Hy as <- <- <-;
    (split; [by eapply eval_keeps|]); intros stk refs tries rs HF;
    destruct (HK P a HL g _ g1 E Hp stk refs tries rs HF) as (n & _ & R).
  - exists (n + 1)%nat, rs. eexists. split; [|done]. eapply reach_trans; [exact R|]. eapply reach_cons; [done|].
    cbn. rewrite handleThrow_push by done. apply reach_refl.
  - exists n, rs. eexists. split; [exact R|done].
Qed.

(** The test of a loop or an if statement, as the compiler sees it. *)
Definition TestIs (t : expr) (k : loopTest) : Prop :=
  match k with
  | TestTrue => ∀ g, pristine g → testOf strict t g = Some (Ok true, g)
  | TestFalse => ∀ g, pristine g → testOf strict t g = Some (Ok false, g)
  | TestThrows e g => ConstR (eval strict true t) (CExc e g)
  | TestCode => True
  end.

Lemma constant_indep e c : constant strict g0 false e c = constant strict g0 false e [].
Proof.
  induction e as [| |op e IH| |op l r IHl IHr|op l r IHl IHr| | | | |] using expr_induction; cbn [constant]; try done.
  - by rewrite IHl, IHr.
  - by rewrite IHl, IHr.
Qed.

Lemma classifyTest_indep t c : classifyTest strict g0 t c = classifyTest strict g0 t [].
Proof. unfold classifyTest. by rewrite constant_indep. Qed.

Lemma classifyTest_spec t c k : okE t → classifyTest strict g0 t c = Some k → TestIs t k.
Proof.
  intros Hok Hc. unfold classifyTest in Hc. apply bind_Some in Hc as ([] & Hk & Hc); [|by injection Hc as <-].
  apply bind_Some in Hc as (r & Hr & [= <-]).
  pose proof (evalConst_ok strict t false c c r Hok (expr_ok strict t Hok) Hk Hr) as HR.
  destruct r as [v|e g]; [|done]. destruct HR as [_ HR].
  destruct (ToBoolean v) eqn:Ev; intros g Hg; unfold testOf, bind; rewrite HR by done; unfold ret; by rewrite Ev.
Qed.
End pieces.

(** *** Correct pieces of the compiler *)

Section components.
Context {rt : Runtime} {g0 : G} {laws : RuntimeLaws g0} (strict : bool).

Definition SimS (cx : list frame) (base : nat) (K : code) (X : list exit) (y : Y) : Prop :=
  ∀ P tg, LoadedX P base K X tg → TgOK cx tg → GoesS P tg cx (Z.of_nat base) (Z.of_nat (base + length K)) y.

(** The exits come from the branch statements [fs]. *)
Definition Srcs (cx : list frame) (fs : list (bool * option string)) (X : list exit) : Prop :=
  ∀ e, e ∈ X → ∃ ib l, (ib, l) ∈ fs ∧ findIn cx ib l = Some (Some (eblock e)).

Definition Emitted (cx : list frame) (fs : list (bool * option string)) (cs cs' : compiler) (K : code) (X : list exit) : Prop :=
  Emits cs cs' K X ∧ Holes (len cs) K X (length cx) ∧ Srcs cx fs X.

(** [f] appends code that executes each of the statements [Ys]. *)
Definition CompOK (cx : list frame) (fs : list (bool * option string)) (f : compiler → option compiler) (Ys : Y → Prop) : Prop :=
  ∀ cs cs', f cs = Some cs' → Matches cx (blocks cs) →
  ∃ K X, Emitted cx fs cs cs' K X ∧ ∀ y, Ys y → SimS cx (len cs) K X y.

Lemma srcs_nil cx fs : Srcs cx fs [].
Proof. by intros e ?%not_elem_of_nil. Qed.

Lemma srcs_app cx fs X1 X2 : Srcs cx fs X1 → Srcs cx fs X2 → Srcs cx fs (X1 ++ X2).
Proof. intros H1 H2 e [He|He]%elem_of_app; auto. Qed.

Lemma srcs_mono cx fs fs' X : (∀ x, x ∈ fs → x ∈ fs') → Srcs cx fs X → Srcs cx fs' X.
Proof. intros H HX e He. destruct (HX e He) as (ib & l & Hin & Hf). exists ib, l. auto. Qed.

Lemma emitted_mono cx fs fs' cs cs' K X :
  (∀ x, x ∈ fs → x ∈ fs') → Emitted cx fs cs cs' K X → Emitted cx fs' cs cs' K X.
Proof. intros H (? & ? & ?). split; [done|]. split; [done|]. by eapply srcs_mono. Qed.

Lemma emitted_len cx fs cs cs' K X : Emitted cx fs cs cs' K X → len cs' = (len cs + length K)%nat.
Proof. intros [[Hc _] _]. unfold len. by rewrite Hc, length_app. Qed.

Lemma emitted_trans cx fs cs cs1 cs2 K1 X1 K2 X2 :
  Emitted cx fs cs cs1 K1 X1 → Emitted cx fs cs1 cs2 K2 X2 → Emitted cx fs cs cs2 (K1 ++ K2) (X1 ++ X2).
Proof.
  intros H1 H2. pose proof (emitted_len _ _ _ _ _ _ H1) as El. destruct H1 as (E1 & H1 & S1), H2 as (E2 & H2 & S2).
  split; [by eapply emits_trans|]. split; [|by apply srcs_app]. rewrite El in H2. by apply holes_app.
Qed.

Lemma emitted_code cx fs cs K : Emitted cx fs cs (MkC (cp cs ++ K) (blocks cs)) K [].
Proof. split; [done|]. split; [apply holes_nil|apply srcs_nil]. Qed.

Lemma emitted_matches cx fs cs cs' K X : Emitted cx fs cs cs' K X → Matches cx (blocks cs) → Matches cx (blocks cs').
Proof. intros [[_ ->] _]. apply matches_addExits. Qed.

(** Dead code leaves no trace when it branches to the copied block at most. *)
Lemma dummy_id cx fs f Ys cs cs' :
  CompOK cx fs f Ys → deadOK cx fs = true → Matches cx (blocks cs) → compileDummy f cs = Some cs' → cs' = cs.
Proof.
  intros Hf Hd HM Hc. unfold compileDummy in Hc. apply bind_Some in Hc as (cs1 & H1 & [= <-]).
  assert (Matches cx (blocks (enterDummyMode cs))) as HM'.
  { unfold enterDummyMode. cbn. destruct HM as [|f0 b cx bs (? & ? & ?) HM]; constructor; done. }
  destruct (Hf _ _ H1 HM') as (K & X & ([_ Hb] & [_ HX] & HS) & _).
  assert (∀ e, e ∈ X → eblock e = length (tail cx)) as Hown.
  { intros e He. destruct (HS e He) as (ib & l & Hin & Hfi). unfold deadOK in Hd. rewrite forallb_forall in Hd.
    apply list_elem_of_In in Hin. apply Hd, bool_decide_eq_true in Hin. cbn in Hin. congruence. }
  unfold leaveDummyMode. destruct cs as [c bs]. cbn in *. destruct HM as [|f0 b cx bs Hs HM]; [done|]. cbn in *.
  rewrite Hb, addExits_cons.
  - cbn. assert (others (length bs) X = []) as ->; [|done].
    apply elem_of_nil_inv. intros e [Hne He]%list_elem_of_filter. by rewrite (Hown e He), (Forall2_length _ _ _ HM) in Hne.
  - apply Forall_forall. intros e He. rewrite (Hown e He), (Forall2_length _ _ _ HM). lia.
Qed.

(** *** Statement lists *)

Definition StmtYs (cx : list frame) (s : stmt) (y : Y) : Prop :=
  ∃ fuel labels, LabelsOK cx labels ∧ y = exec strict fuel labels s.

Definition StmtOK (cx : list frame) (s : stmt) : Prop :=
  ∀ nr, CompOK cx (frees s) (compileStatement strict g0 s nr) (StmtYs cx s).

Definition ListYs (l : list stmt) (y : Y) : Prop := ∃ fuel V, y = execList (exec strict fuel []) l V.

Lemma goesS_abrupt P tg cx a b d y f :
  (∀ g c v g', y g = Some ((c, v), g') → c ≠ Normal) →
  (∀ c v, c ≠ Normal → ∃ v', f (c, v) = complete (c, v')) →
  GoesS P tg cx a b y → GoesS P tg cx a d (withStmt y f).
Proof.
  intros Hab Hf HY g c v g' Hy Hp. unfold withStmt in Hy. destruct (y g) as [[[c1 v1] g1]|] eqn:E; [|done].
  pose proof (Hab _ _ _ _ E) as Hc. destruct (Hf c1 v1 Hc) as [v' Hf']. rewrite Hf' in Hy. injection Hy as <- <- <-.
  destruct (HY _ _ _ _ E Hp) as [Hp1 H1]. split; [done|]. intros stk refs tries rs HF.
  destruct (H1 stk refs tries rs HF) as (n & rs' & r & R & He). exists n, rs', r. split; [done|]. by destruct c1.
Qed.

Lemma execList_abrupt (ex : stmt → Y) l (V : option Value) (c : ctype) v :
  c ≠ Normal → ∃ v', (λ c0 : completion, let V' := match c0.2 with Some w => Some w | None => V end in
    match c0.1 with Normal => execList ex l V' | _ => complete (c0.1, V') end) (c, v) = complete (c, v').
Proof. intros Hc. eexists. by destruct c. Qed.

(** One statement followed by others. *)
Lemma list_cons_ok cx s l nr cs cs1 cs2 K2 X2 fs :
  StmtOK cx s → compileStatement strict g0 s nr cs = Some cs1 → Matches cx (blocks cs) →
  Emitted cx fs cs1 cs2 K2 X2 → (∀ y, ListYs l y → SimS cx (len cs1) K2 X2 y) →
  ∃ K X, Emitted cx (frees s ++ fs) cs cs2 K X ∧ ∀ y, ListYs (s :: l) y → SimS cx (len cs) K X y.
Proof.
  intros Hs H1 HM HE2 HS2. destruct (Hs nr cs cs1 H1 HM) as (K1 & X1 & HE1 & HS1).
  pose proof (emitted_len _ _ _ _ _ _ HE1) as Hl.
  exists (K1 ++ K2), (X1 ++ X2). split.
  { eapply emitted_trans; (eapply emitted_mono; [|eassumption]); intros x Hx; apply elem_of_app; auto. }
  intros y (fuel & V & ->) P tg [HL1 HL2]%loadedX_app Htg. cbn [execList].
  eapply goesS_seq; [apply HS1; [exists fuel, []; split; [apply labels_nil|done]|done|done]| |].
  - intros v. cbn. rewrite length_app, Nat.add_assoc, <- Hl in *. apply HS2; [by eexists _, _|done|done].
  - intros c v. apply execList_abrupt.
Qed.

Lemma compileAll_ok cx l :
  Forall (StmtOK cx) l → CompOK cx (flat_map frees l) (compileAll (compileStatement strict g0) l) (ListYs l).
Proof.
  induction 1 as [|s l Hs HF IH]; intros cs cs' Hc HM.
  - injection Hc as <-. exists [], []. split.
    { split; [apply emits_refl|]. split; [apply holes_nil|apply srcs_nil]. }
    intros y (fuel & V & ->) P tg HL Htg. cbn. rewrite Nat.add_0_r. apply goesS_complete.
  - cbn in Hc. apply bind_Some in Hc as (cs1 & H1 & Hc). destruct (Hs false cs cs1 H1 HM) as (K1 & X1 & HE1 & _).
    destruct (IH cs1 cs' Hc (emitted_matches _ _ _ _ _ _ HE1 HM)) as (K2 & X2 & HE2 & HS2).
    by eapply list_cons_ok.
Qed.

Fixpoint deadTails (cx : list frame) (l : list stmt) : Prop :=
  match l with
  | [] => True
  | s :: l => (isBranch s = true → deadOK cx (flat_map frees l) = true) ∧ deadTails cx l
  end.

Lemma okList_inv okS cx l : okList okS cx l = true → Forall (λ s, okS cx s = true) l ∧ deadTails cx l.
Proof.
  induction l as [|s l IH]; [done|]. cbn. rewrite !andb_true_iff. intros [[Hs Hl%IH] Hd]. destruct Hl.
  split; [by constructor|]. split; [|done]. intros Hb. by rewrite Hb in Hd.
Qed.

Lemma exec_branch fuel labels ib l g c v g' :
  exec strict fuel labels (SBranch ib l) g = Some ((c, v), g') → c ≠ Normal.
Proof. destruct fuel; [done|]. cbn. intros [= <- <- <-]. done. Qed.

Lemma compileTail_ok cx l :
  Forall (StmtOK cx) l → deadTails cx l →
  CompOK cx (flat_map frees l) (compileTail (compileStatement strict g0) l) (ListYs l).
Proof.
  induction 1 as [|s l Hs HF IH]; intros Hd cs cs' Hc HM.
  - by apply (compileAll_ok cx []).
  - cbn in Hc. apply bind_Some in Hc as (cs1 & H1 & Hc). destruct Hd as [Hd1 Hd].
    destruct (Hs false cs cs1 H1 HM) as (K1 & X1 & HE1 & HS1).
    pose proof (emitted_matches _ _ _ _ _ _ HE1 HM) as HM1. destruct (isBranch s) eqn:Hb.
    + apply (dummy_id cx (flat_map frees l) _ (ListYs l)) in Hc as ->; [|by apply compileAll_ok|by apply Hd1|done].
      exists K1, X1. split; [eapply emitted_mono; [|done]; intros x Hx; apply elem_of_app; auto|].
      intros y (fuel & V & ->) P tg HL Htg. cbn [execList].
      eapply goesS_abrupt; [destruct s; try done; apply exec_branch|intros c v; apply execList_abrupt|].
      apply HS1; [exists fuel, []; split; [apply labels_nil|done]|done|done].
    + destruct (IH Hd cs1 cs' Hc HM1) as (K2 & X2 & HE2 & HS2). by eapply list_cons_ok.
Qed.

Lemma compileStatementsNeedResult_ok cx l last :
  Forall (StmtOK cx) l → deadTails cx l →
  CompOK cx (flat_map frees l) (compileStatementsNeedResult (compileStatement strict g0) l last) (ListYs l).
Proof.
  intros HF. revert last. induction HF as [|s l Hs HF IH]; intros last Hd cs cs' Hc HM.
  - apply (compileAll_ok cx [] ltac:(constructor) cs cs'); [|done]. by destruct last as [[|n]|].
  - pose proof Hd as [_ Hd']. destruct last as [[|n]|].
    + cbn in Hc. apply bind_Some in Hc as (cs1 & H1 & Hc). destruct (Hs true cs cs1 H1 HM) as (K1 & X1 & HE1 & _).
      destruct (compileTail_ok cx l HF Hd' cs1 cs' Hc (emitted_matches _ _ _ _ _ _ HE1 HM)) as (K2 & X2 & HE2 & HS2).
      by eapply list_cons_ok.
    + cbn in Hc. apply bind_Some in Hc as (cs1 & H1 & Hc). destruct (Hs false cs cs1 H1 HM) as (K1 & X1 & HE1 & _).
      destruct (IH (Some n) Hd' cs1 cs' Hc (emitted_matches _ _ _ _ _ _ HE1 HM)) as (K2 & X2 & HE2 & HS2).
      by eapply list_cons_ok.
    + apply (compileTail_ok cx (s :: l)); [by constructor|done|done|done].
Qed.

Lemma compileStatements_ok cx l nr :
  Forall (StmtOK cx) l → deadTails cx l →
  CompOK cx (flat_map frees l) (compileStatements (compileStatement strict g0) l nr) (ListYs l).
Proof.
  intros HF Hd cs cs' Hc HM. unfold compileStatements in Hc. apply bind_Some in Hc as ([last blk] & _ & Hc).
  destruct (match blk with Some _ => _ | None => _ end); [by eapply compileStatementsNeedResult_ok|by eapply compileAll_ok].
Qed.

(** The blocks pushed and left around a statement; [cnt] is where continue goes
    when that is known at the end only. *)
Definition headCont (cnt : option nat) (cs : compiler) : compiler :=
  match cnt with Some n => onHead (setCont n) cs | None => cs end.

Lemma headCont_eq cnt cs :
  headCont cnt cs = MkC (cp cs) (match cnt, blocks cs with Some n, b :: bs => setCont n b :: bs | _, bs => bs end).
Proof. by destruct cnt, cs as [? []]. Qed.

Lemma leave_ok cx f b cs0 cs1 fs K X :
  SameShape f b → breaks b = [] → conts b = [] →
  cs0 = MkC (cp cs0) (b :: tail (blocks cs0)) → Matches cx (tail (blocks cs0)) →
  Emitted (f :: cx) fs cs0 cs1 K X → ∀ cnt,
  ∃ K', leaveBlock (headCont cnt cs1) =
    MkC (cp cs0 ++ K') (addExits (others (length cx) X) (tail (blocks cs0))) ∧ length K' = length K ∧
    Holes (len cs0) K' (others (length cx) X) (length cx) ∧
    ∀ P tg, LoadedX P (len cs0) K' (others (length cx) X) tg →
      LoadedX P (len cs0) K X (retarget (length cx) (len cs0 + length K)
        (if decide (ftyp f = blockLoop) then Some (default (cont b) cnt) else None) tg).
Proof.
  intros (Ht & _ & _) Hbr Hct Hcs0 HM ([Hcp Hbl] & HH & _) cnt. rewrite (matches_length _ _ HM) in *.
  rewrite Hcs0 in Hbl. cbn [blocks] in Hbl. set (bs := tail (blocks cs0)) in *.
  rewrite addExits_cons in Hbl.
  2: { apply Forall_forall. intros e He. apply HH in He as (_ & _ & He). cbn in He. by rewrite (matches_length _ _ HM) in He. }
  destruct (leaveBlock_spec (headCont cnt cs1)
    (match cnt with Some n => setCont n (withExits b (ownPos (length bs) true X) (ownPos (length bs) false X))
               | None => withExits b (ownPos (length bs) true X) (ownPos (length bs) false X) end) bs (cp cs0) K X)
    as (K' & E & HL & HH' & HP).
  - by destruct cnt.
  - destruct cnt; cbn; by rewrite Hbl.
  - destruct cnt; cbn; by rewrite Hbr.
  - destruct cnt; cbn; by rewrite Hct.
  - cbn in HH. by rewrite (matches_length _ _ HM) in HH.
  - exists K'. split; [done|]. split; [done|]. split; [done|]. intros P tg HLX. apply HP in HLX.
    unfold len in *. revert HLX. unfold contOf. destruct cnt; cbn; by rewrite <- Ht.
Qed.

(** *** Loops *)

(** The branches that a block does not catch. *)
Definition uncaught (f : frame) (fs : list (bool * option string)) : list (bool * option string) :=
  filter (λ x, targets f x.1 x.2 = false ∧ blocked f x.1 x.2 = false) fs.

Lemma srcs_leave f cx fs X :
  fbreaking f = None → Srcs (f :: cx) fs X → Srcs cx (uncaught f fs) (others (length cx) X).
Proof.
  intros Hb HX e [Hne He]%list_elem_of_filter. destruct (HX e He) as (ib & l & Hin & Hf).
  apply find_cons_none in Hf as [[? _]|[Hf Ht]]; [done| |done]. exists ib, l. split; [|done]. by apply list_elem_of_filter.
Qed.

(** The code before a piece may be replaced by code of the same length. *)
Lemma emitted_prefix cx fs (c1 c2 : code) bs cs' K X :
  length c1 = length c2 → Emitted cx fs (MkC c1 bs) cs' K X →
  Emitted cx fs (MkC c2 bs) (MkC (c2 ++ K) (blocks cs')) K X.
Proof. intros El ([_ Hb] & HH & HS). split; [done|]. split; [|done]. unfold len in *. cbn in *. by rewrite <- El. Qed.

Lemma emitted_plain cx fs c bs K : Emitted cx fs (MkC c bs) (MkC (c ++ K) bs) K [].
Proof. apply (emitted_code cx fs (MkC c bs)). Qed.

(** A piece between code without exits. *)
Lemma emitted_between cx fs (c1 c : code) bs cs' K X Kpre Kpost :
  length c1 = length (c ++ Kpre) → Emitted cx fs (MkC c1 bs) cs' K X →
  Emitted cx fs (MkC c bs) (MkC (c ++ Kpre ++ K ++ Kpost) (blocks cs')) (Kpre ++ K ++ Kpost) X.
Proof.
  intros El HE. apply (emitted_prefix _ _ _ (c ++ Kpre)) in HE; [|done].
  pose proof (emitted_trans _ _ _ _ _ _ _ _ _ (emitted_plain cx fs c bs Kpre) HE) as H1.
  pose proof (emitted_trans _ _ _ _ _ _ _ _ _ H1 (emitted_plain cx fs ((c ++ Kpre) ++ K) (blocks cs') Kpost)) as H2.
  by rewrite app_nil_r, <- !app_assoc in H2.
Qed.

Lemma loadedX_between P base K1 K K2 X tg :
  LoadedX P base (K1 ++ K ++ K2) X tg →
  Loaded P (Z.of_nat base) K1 ∧ LoadedX P (base + length K1) K X tg ∧
  Loaded P (Z.of_nat (base + length K1 + length K)) K2.
Proof.
  intros [HL HX]. rewrite !loaded_app in HL. destruct HL as (H1 & H2 & H3). rewrite !Nat2Z.inj_add.
  split; [done|]. split; [|done]. split; [by rewrite Nat2Z.inj_add|done].
Qed.

Lemma tgOK_retarget f cx brk cnt tg :
  (ftyp f = blockLoop → is_Some cnt) → TgOK cx tg → TgOK (f :: cx) (retarget (length cx) brk cnt tg).
Proof.
  intros Hc Htg f' outer Hs. unfold retarget. apply suffix_cons_inv in Hs as [[= -> ->]|Hs].
  - rewrite !decide_True by done. split; [by eexists|]. intros Hf. apply fmap_is_Some. auto.
  - assert (length outer ≠ length cx). { apply suffix_length in Hs. cbn in Hs. lia. }
    rewrite !decide_False by done. by apply Htg.
Qed.

Lemma retarget_other (cx : list frame) brk cnt tg h ib :
  (h < length cx)%nat → retarget (length cx) brk cnt tg h ib = tg h ib.
Proof. intros H. unfold retarget. rewrite decide_False by lia. done. Qed.

(** A block around a piece [K] between code without exits. *)
Lemma block_ok cx f b fs fs' cs (c1 : code) cs1 Kpre K X Kpost cnt :
  SameShape f b → breaks b = [] → conts b = [] → Matches cx (blocks cs) →
  (ftyp f ≠ blockLoop → cnt = None) →
  length c1 = length (cp cs ++ Kpre) → Emitted (f :: cx) fs (MkC c1 (b :: blocks cs)) cs1 K X →
  Srcs cx fs' (others (length cx) X) →
  ∃ K' cs', leaveBlock (headCont cnt (MkC (cp cs ++ Kpre ++ K ++ Kpost) (blocks cs1))) = cs' ∧
    Emitted cx fs' cs cs' K' (others (length cx) X) ∧ length K' = length (Kpre ++ K ++ Kpost) ∧
    ∀ P tg, LoadedX P (len cs) K' (others (length cx) X) tg → TgOK cx tg →
      ∃ tg', (∀ h ib, (h < length cx)%nat → tg' h ib = tg h ib) ∧
        tg' (length cx) true = Some (Z.of_nat (len cs + length K')) ∧
        (ftyp f = blockLoop → tg' (length cx) false = Some (Z.of_nat (default (cont b) cnt))) ∧ TgOK (f :: cx) tg' ∧
        Loaded P (Z.of_nat (len cs)) Kpre ∧ LoadedX P (len cs + length Kpre) K X tg' ∧
        Loaded P (Z.of_nat (len cs + length Kpre + length K)) Kpost.
Proof.
  intros Hs Hbr Hct HM Hcnt El HE HS. apply (emitted_between _ _ _ (cp cs) _ _ _ _ Kpre Kpost) in HE; [|done].
  destruct (leave_ok cx f b (MkC (cp cs) (b :: blocks cs)) _ fs _ _ Hs Hbr Hct eq_refl HM HE cnt) as (K' & E & HL & HH & HP).
  exists K'. eexists. split; [exact E|]. split; [split; [done|by split]|]. split; [done|]. intros P tg HLX Htg.
  exists (retarget (length cx) (len cs + length K')
    (if decide (ftyp f = blockLoop) then Some (default (cont b) cnt) else None) tg).
  split; [intros; by apply retarget_other|]. unfold retarget at 1 2. rewrite !decide_True by done.
  split; [done|]. split; [intros Hl; by rewrite decide_True by done|].
  split; [apply tgOK_retarget; [intros ->; by rewrite decide_True by done|done]|].
  apply loadedX_between. rewrite HL. by apply HP.
Qed.

(** A loop with its test at the start, from the code [K0] before it on: [T] is
    the code of a test that is not constant. *)
Definition testCode (T : option code) (a E : Z) : code :=
  match T with Some Kt => Kt ++ [Some (jneP (E - (a + Z.of_nat (length Kt))))] | None => [] end.
Definition testHole (T : option code) : code := match T with Some Kt => Kt ++ [None] | None => [] end.

Lemma off_S a b : off a b = Z.of_nat a - (Z.of_nat (S b) - 1).
Proof. unfold off. lia. Qed.

Lemma closeLoop_eq T (c K : code) bs cnt start :
  start = length c →
  closeLoop start (match T with Some Kt => Some (length (c ++ Kt)) | None => None end)
    (headCont cnt (MkC (c ++ testHole T ++ K) bs)) =
  let E := length (c ++ testHole T ++ K ++ [None]) in
  leaveBlock (headCont cnt (MkC (c ++ testCode T (Z.of_nat start) (Z.of_nat E) ++ K ++
    [Some (jump (Z.of_nat start - (Z.of_nat E - 1)))]) bs)).
Proof.
  intros ->. unfold closeLoop. f_equal. rewrite !headCont_eq. unfold emitS, emit, onCode, len. cbn [cp blocks].
  assert (length (c ++ testHole T ++ K ++ [None]) = S (length (c ++ testHole T ++ K))) as ->
    by (rewrite !length_app; cbn; lia).
  rewrite off_S.
  destruct T as [Kt|]; cbn [testHole testCode cp blocks] in *; [|by rewrite <- !app_assoc].
  rewrite <- !app_assoc. cbn [fmap list_fmap app].
  rewrite (app_assoc c Kt), patch_hole, length_app. cbn [length]. rewrite <- !app_assoc. cbn [app]. f_equal. do 4 f_equal.
  unfold off. rewrite !length_app. cbn [length]. f_equal. lia.
Qed.

Definition clr (nr : bool) : code := if nr then [Some clearResult] else [].

Lemma emitWhen_clr nr cs : emitWhen nr clearResult cs = MkC (cp cs ++ clr nr) (blocks cs).
Proof. destruct nr; cbn; [done|]. rewrite app_nil_r. by destruct cs. Qed.

Lemma testCode_length T a E : length (testCode T a E) = length (testHole T).
Proof. destruct T; cbn; [by rewrite !length_app|done]. Qed.

(** Arithmetic on positions. *)
Ltac lens := repeat (rewrite ?length_app, ?testCode_length; cbn [length]); unfold len in *; cbn [cp] in *;
  repeat (rewrite ?length_app, ?testCode_length; cbn [length]); lia.

Lemma loaded_at P a a' K : a' = a → Loaded P a K → Loaded P a' K.
Proof. by intros ->. Qed.

Lemma loadedX_at P a a' K X tg : a' = a → LoadedX P a K X tg → LoadedX P a' K X tg.
Proof. by intros ->. Qed.

Lemma goesS_at P tg cx a b a' b' y : a' = a → b' = b → GoesS P tg cx a b y → GoesS P tg cx a' b' y.
Proof. by intros -> ->. Qed.

Lemma goes_at {A} P a (x : X A) to to' : (∀ v, to' v = to v) → Goes P a x to → Goes P a x to'.
Proof.
  intros E H g r g' Hx Hp. destruct (H g r g' Hx Hp) as [Hp' H']. split; [done|]. intros stk refs tries rs HF.
  destruct (H' stk refs tries rs HF) as (n & rs' & R). exists n, rs'. destruct r; [by rewrite E|done].
Qed.

Lemma fetch_at P a a' j j' : a' = a → fetch P a = Some (Some (jump j)) → j' = j → fetch P a' = Some (Some (jump j')).
Proof. by intros -> ? ->. Qed.

(** The run of such a loop. *)
Lemma headLoop_run P tg tg' cx lbl labels a Cn E T nr nb Ku (test : X bool) (upd : X unit) y :
  (∀ h ib, (h < length cx)%nat → tg' h ib = tg h ib) →
  tg' (length cx) true = Some E → tg' (length cx) false = Some Cn → LabelsOK cx labels →
  (∀ P a, Loaded P a Ku → Goes P a upd (λ _, a + Z.of_nat (length Ku))) →
  (∀ P a E, Loaded P a (testCode T a E) →
     Goes P a test (λ b : bool, if b then a + Z.of_nat (length (testHole T)) else E)) →
  let B := a + Z.of_nat (length (testHole T)) in
  let C := B + Z.of_nat (length (clr nr)) + nb in
  let U := C + Z.of_nat (length Ku) in
  Loaded P a (testCode T a E) → Loaded P B (clr nr) → GoesS P tg' (loopF lbl :: cx) (B + Z.of_nat (length (clr nr))) C y →
  Loaded P C Ku → fetch P U = Some (Some (jump (a - U))) →
  (Cn = a ∧ Ku = [] ∧ upd = ret ()) ∨ Cn = C →
  ∀ k V, GoesS P tg cx a E (unlabel lbl (whileLoop k test y upd (loopLabels lbl labels) V)).
Proof.
  intros Htg HE HC Hlab Hu Ht B C U HLt HLc Hy HLu HLj Hcn k V.
  assert (GoesS P tg' (loopF lbl :: cx) B C y) as HB.
  { eapply goesS_pre; [|exact Hy]. destruct nr; cbn [clr length] in *; [by apply (silent_clear P B true)|].
    rewrite Z.add_0_r. apply silent_refl. }
  destruct Hcn as [(-> & -> & ->)| ->].
  - eapply (goesS_while P tg tg' cx lbl labels a B C a a E); try done; [by apply Ht| |by apply (goes_const _ _ _ ())|apply silent_refl].
    unfold U in HLj. cbn in HLj. rewrite Z.add_0_r in HLj. by apply silent_jump.
  - eapply (goesS_while P tg tg' cx lbl labels a B C C U E); try done; [by apply Ht|apply silent_refl|by apply Hu|].
    by apply silent_jump.
Qed.

Lemma headLoop_ok cx lbl b cs s nr K0 T cs1 Ku cnt (test : X bool) (upd : X unit) :
  StmtOK (loopF lbl :: cx) s → Matches cx (blocks cs) →
  SameShape (loopF lbl) b → breaks b = [] → conts b = [] →
  compileStatement strict g0 s nr (MkC (cp cs ++ K0 ++ testHole T ++ clr nr) (b :: blocks cs)) = Some cs1 →
  let start := (len cs + length K0)%nat in
  (cnt = None ∧ cont b = start ∧ Ku = [] ∧ upd = ret () ∨ cnt = Some (len cs1)) →
  (∀ P a, Loaded P a Ku → Goes P a upd (λ _, a + Z.of_nat (length Ku))) →
  (∀ P a E, Loaded P a (testCode T a E) →
     Goes P a test (λ b : bool, if b then a + Z.of_nat (length (testHole T)) else E)) →
  ∃ K X cs', closeLoop start (match T with Some Kt => Some (start + length Kt)%nat | None => None end)
      (headCont cnt (MkC (cp cs1 ++ Ku) (blocks cs1))) = cs' ∧
    Emitted cx (uncaught (loopF lbl) (frees s)) cs cs' K X ∧
    ∀ P tg labels y, LoadedX P (len cs) K X tg → TgOK cx tg → LabelsOK cx labels → StmtYs (loopF lbl :: cx) s y →
      Loaded P (Z.of_nat (len cs)) K0 ∧
      ∀ k V, GoesS P tg cx (Z.of_nat start) (Z.of_nat (len cs + length K))
        (unlabel lbl (whileLoop k test y upd (loopLabels lbl labels) V)).
Proof.
  intros Hs HM Hsh Hbr Hct Hc start Hcnt Hu Ht.
  destruct (Hs nr _ _ Hc) as (Kb & X & HE & HSim); [by constructor|].
  pose proof (emitted_len _ _ _ _ _ _ HE) as Hl1. pose proof HE as ([Hcp1 _] & _ & HSrc). cbn [cp] in Hcp1.
  set (E := length ((cp cs ++ K0) ++ testHole T ++ (clr nr ++ Kb ++ Ku) ++ [None])).
  destruct (block_ok cx (loopF lbl) b (frees s) (uncaught (loopF lbl) (frees s)) cs (cp cs ++ K0 ++ testHole T ++ clr nr) cs1
    (K0 ++ testCode T (Z.of_nat start) (Z.of_nat E) ++ clr nr) Kb X (Ku ++ [Some (jump (Z.of_nat start - (Z.of_nat E - 1)))]) cnt)
    as (K' & cs' & HL & HE' & Hlen & HP); try done.
  { rewrite !length_app. f_equal. f_equal. f_equal. destruct T; [|done]. cbn. by rewrite !length_app. }
  { by apply srcs_leave. }
  exists K', (others (length cx) X), cs'. split; [|split; [done|]].
  { rewrite <- HL. assert (start = length (cp cs ++ K0)) as Hst by (by rewrite length_app).
    pose proof (closeLoop_eq T (cp cs ++ K0) (clr nr ++ Kb ++ Ku) (blocks cs1) cnt start Hst) as Hcl.
    cbn zeta in Hcl. fold E in Hcl. rewrite Hcp1. rewrite <- !app_assoc in *. rewrite <- Hcl.
    f_equal. destruct T as [Kt|]; [|done]. f_equal. rewrite !length_app. unfold start, len. lia. }
  intros P tg labels y HLX Htg Hlab HY. destruct (HP P tg HLX Htg) as (tg' & Htg' & HB & HC & HTG & HL0 & HLb & HLu).
  apply loaded_app in HL0 as [HL0 [HLt HLc]%loaded_app], HLu as [HLu [HLj _]%loaded_cons].
  split; [done|]. intros k V. unfold len in *. cbn [cp] in *.
  assert (E = length (cp cs) + length K')%nat as HEK by (unfold E; rewrite Hlen; lens).
  eapply (headLoop_run P tg tg' cx lbl labels _ (Z.of_nat (default (cont b) cnt)) _ T nr (Z.of_nat (length Kb)) Ku); try done.
  - by apply HC.
  - rewrite <- HEK. eapply loaded_at; [|exact HLt]. lens.
  - eapply loaded_at; [|exact HLc]. lens.
  - eapply goesS_at; [| |apply (HSim y HY P tg'); [|done]]; [lens..|].
    eapply loadedX_at; [|exact HLb]. lens.
  - eapply loaded_at; [|exact HLu]. lens.
  - eapply fetch_at; [|exact HLj|]; [lens|]. rewrite HEK, Hlen. lens.
  - destruct Hcnt as [(-> & Hcb & -> & ->)| ->]; [left; by rewrite <- Hcb|right; cbn; rewrite Hl1; lens].
Qed.

(** *** The loops of the compiler *)

(** The value of the test, constantly true when there is none. *)
Definition testO (test : option expr) : X bool := match test with Some t => testOf strict t | None => ret true end.

(** From [cs], the code [K0] and a loop with its test at the start. *)
Definition HeadSim (cx : list frame) (lbl : string) (cs : compiler) (K0 : code) (test : option expr) (upd : X unit)
    (s : stmt) (K : code) (X : list exit) : Prop :=
  ∀ P tg labels y, LoadedX P (len cs) K X tg → TgOK cx tg → LabelsOK cx labels → StmtYs (loopF lbl :: cx) s y →
    Loaded P (Z.of_nat (len cs)) K0 ∧
    ∀ k V, GoesS P tg cx (Z.of_nat (len cs + length K0)) (Z.of_nat (len cs + length K))
      (unlabel lbl (whileLoop k (testO test) y upd (loopLabels lbl labels) V)).

Lemma goes_throws t e g c c' :
  okE t → ConstR (eval strict true t) (CExc e g) → emitThrow e g c = Some c' →
  ∃ K, c' = c ++ K ∧ (∀ P a to, Loaded P a K → Goes P a (testOf strict t) to) ∧
    ∀ g b g', pristine g → testOf strict t g = Some (Ok b, g') → False.
Proof.
  intros Hok (k & m & Hk & Hn & Hm & Hx) Hc.
  destruct (emitThrow_computes k m e g c c' _ (λ _, []) noRef Hk Hn Hm Hx Hc) as (K & -> & HK).
  exists K. split; [done|]. split.
  - intros P a to HL g1 r g' Hr Hp. destruct (Hx g1 Hp) as (ctor & ex & g2 & E & _).
    unfold testOf, bind in Hr. rewrite E in Hr. injection Hr as <- <-. split; [by eapply eval_keeps|].
    intros stk refs tries rs HF. destruct (HK P a HL g1 _ g2 E Hp stk refs tries rs HF) as (n & _ & R). by exists n, rs.
  - intros g1 b g' Hp Hr. destruct (Hx g1 Hp) as (ctor & ex & g2 & E & _). unfold testOf, bind in Hr. by rewrite E in Hr.
Qed.

(** The body of a loop, as far as it is compiled. *)
Definition TestOK (cx : list frame) (test : option expr) (s : stmt) : Prop :=
  match test with
  | Some t =>
      okE t ∧
      match classifyTest strict g0 t [] with
      | Some TestFalse => StmtOK cx s ∧ deadOK cx (frees s) = true
      | Some (TestThrows _ _) => True
      | Some _ => StmtOK cx s
      | None => False
      end
  | None => StmtOK cx s
  end.

(** The loop of a test that does not hold or throws. *)
Lemma goesS_noLoop P tg cx a b lbl (test : X bool) y upd labels :
  Goes P a test (λ _, b) → (∀ g v g', pristine g → test g = Some (Ok v, g') → v = false) →
  ∀ k V, GoesS P tg cx a b (unlabel lbl (whileLoop k test y upd labels V)).
Proof.
  intros HT Hf [|k] V; [by intros g c v g' Hy|]. eapply goesS_ext; [apply while_unfold|].
  eapply goesS_exprV; [exact HT|]. intros v g g' Hg Hp. rewrite (Hf g v g' Hp Hg). apply goesS_complete.
Qed.

(** Such a loop has only the code [Kt] of the test. *)
Lemma noLoop_ok cx lbl b cs K0 Kt t upd s :
  Matches cx (blocks cs) → SameShape (loopF lbl) b → breaks b = [] → conts b = [] →
  (∀ P a, Loaded P a Kt → Goes P a (testOf strict t) (λ _, a + Z.of_nat (length Kt))) →
  (∀ g v g', pristine g → testOf strict t g = Some (Ok v, g') → v = false) →
  ∃ K X, Emitted cx (uncaught (loopF lbl) (frees s)) cs (leaveBlock (MkC (cp cs ++ K0 ++ Kt) (b :: blocks cs))) K X ∧
    HeadSim cx lbl cs K0 (Some t) upd s K X.
Proof.
  intros HM Hsh Hbr Hct HG Hf.
  destruct (block_ok cx (loopF lbl) b [] (uncaught (loopF lbl) (frees s)) cs (cp cs ++ K0 ++ Kt)
    (MkC (cp cs ++ K0 ++ Kt) (b :: blocks cs)) (K0 ++ Kt) [] [] [] None) as (K' & cs' & HL & HE & Hlen & HP); try done.
  { split; [by split; [rewrite app_nil_r|]|]. split; [apply holes_nil|apply srcs_nil]. }
  { apply srcs_nil. }
  cbn [headCont app blocks] in HL. rewrite app_nil_r in HL. exists K', []. split; [by rewrite HL|].
  intros P tg labels y HLX Htg Hlab HY. destruct (HP P tg HLX Htg) as (tg' & _ & _ & _ & _ & [HL0 HLt]%loaded_app & _).
  split; [done|]. intros k V. apply goesS_noLoop; [|done].
  rewrite Hlen, app_nil_r. replace (Z.of_nat (len cs + length (K0 ++ Kt))) with (Z.of_nat (len cs + length K0) + Z.of_nat (length Kt)) by lens.
  apply HG. eapply loaded_at; [|exact HLt]. lens.
Qed.

(** The part of the while and for loops after the code [K0]; [rest] compiles the
    body and what follows. *)
Lemma head_ok cx lbl b cs K0 test upd s rest dead cs' :
  Matches cx (blocks cs) → SameShape (loopF lbl) b → breaks b = [] → conts b = [] →
  TestOK (loopF lbl :: cx) test s →
  (StmtOK (loopF lbl :: cx) s → deadOK (loopF lbl :: cx) (frees s) = true → ∀ cs1 cs2,
     Matches (loopF lbl :: cx) (blocks cs1) → compileDummy dead cs1 = Some cs2 → cs2 = cs1) →
  (∀ T cs', StmtOK (loopF lbl :: cx) s →
     rest (match T with Some Kt => Some (len cs + length K0 + length Kt)%nat | None => None end)
       (MkC (cp cs ++ K0 ++ testHole T) (b :: blocks cs)) = Some cs' →
     (∀ P a E, Loaded P a (testCode T a E) →
        Goes P a (testO test) (λ b : bool, if b then a + Z.of_nat (length (testHole T)) else E)) →
     ∃ K X, Emitted cx (uncaught (loopF lbl) (frees s)) cs cs' K X ∧ HeadSim cx lbl cs K0 test upd s K X) →
  (let cs0 := MkC (cp cs ++ K0) (b :: blocks cs) in
   k ← match test with Some t => classifyTest strict g0 t (cp cs0) | None => Some TestTrue end;
   match k with
   | TestFalse => cs ← compileDummy dead cs0; Some (leaveBlock cs)
   | TestThrows e g => cs ← onCodeM (emitThrow e g) cs0; Some (leaveBlock cs)
   | TestTrue => rest None cs0
   | TestCode =>
       match test with
       | Some t => cs ← onCodeM (emitGetter strict g0 false t true) cs0; rest (Some (len cs)) (onCode emitNil cs)
       | None => None
       end
   end) = Some cs' →
  ∃ K X, Emitted cx (uncaught (loopF lbl) (frees s)) cs cs' K X ∧ HeadSim cx lbl cs K0 test upd s K X.
Proof.
  intros HM Hsh Hbr Hct HT Hdead Hrest Hc. cbn zeta in Hc. cbn [cp] in Hc. apply bind_Some in Hc as (k & Hk & Hc).
  assert (∀ P a E, Loaded P a (testCode None a E) → (∀ g, pristine g → testO test g = Some (Ok true, g)) →
    Goes P a (testO test) (λ b : bool, if b then a + Z.of_nat (length (testHole None)) else E)) as Htrue.
  { intros P a E _ HTt g r g' Hx Hp. rewrite HTt in Hx by done. injection Hx as <- <-. split; [done|].
    intros stk refs tries rs HF. exists O, rs. cbn. rewrite Z.add_0_r. apply reach_refl. }
  destruct test as [t|].
  2: { injection Hk as <-. apply (Hrest None); [done|by rewrite app_nil_r|]. intros P a E HL. by apply Htrue. }
  rewrite classifyTest_indep in Hk. destruct HT as [Hok HT]. rewrite Hk in HT.
  pose proof (classifyTest_spec strict t [] k Hok Hk) as Hspec. destruct k as [| |e g|]; cbn [TestIs] in Hspec.
  - apply (Hrest None); [done|by rewrite app_nil_r|]. intros P a E HL. by apply Htrue.
  - apply bind_Some in Hc as (cs2 & H2 & [= <-]). destruct HT as [HS Hd].
    apply Hdead in H2 as ->; [|done|done|by constructor].
    destruct (noLoop_ok cx lbl b cs K0 [] t upd s HM Hsh Hbr Hct) as (K & X & HE & HH).
    + intros P a _. apply (goes_at _ _ _ (λ _, a)); [intros; cbn; lia|]. by eapply goes_const.
    + intros g v g' Hp Hg. rewrite Hspec in Hg by done. by injection Hg as <- <-.
    + rewrite app_nil_r in HE. by exists K, X.
  - apply bind_Some in Hc as (cs2 & H2 & [= <-]). apply bind_Some in H2 as (c2 & H2 & [= <-]). cbn [cp] in H2.
    destruct (goes_throws t e g _ _ Hok Hspec H2) as (Kt & -> & HG & HF). rewrite <- app_assoc.
    apply noLoop_ok; auto. intros g1 v g' Hp Hg. by destruct (HF g1 v g' Hp Hg).
  - apply bind_Some in Hc as (cs2 & H2 & Hc). apply bind_Some in H2 as (c2 & H2 & [= <-]). cbn [cp] in H2.
    destruct (proj1 (expr_ok strict t Hok) false true _ _ H2) as (Kt & -> & HK).
    apply (Hrest (Some Kt)); [done| |].
    + revert Hc. unfold len, onCode, emitNil. cbn. rewrite <- !app_assoc. by rewrite !length_app, Nat.add_assoc.
    + intros P a E HL. apply (goes_jump strict P a Kt t (jneP (E - (a + Z.of_nat (length Kt))))); [done..|].
      intros v stk refs tries rs g. cbn. rewrite length_app. cbn. destruct (ToBoolean v); cbn; do 2 f_equal; lia.
Qed.

Definition okO (o : option expr) : Prop := match o with Some e => okE e | None => True end.

Lemma effect_ok o c c' :
  okO o → optM (λ e, emitGetter strict g0 false e false) o c = Some c' →
  ∃ K, c' = c ++ K ∧ ∀ P a, Loaded P a K → Goes P a (effectOf strict o) (λ _, a + Z.of_nat (length K)).
Proof.
  destruct o as [e|]; cbn; intros Hok Hc.
  - destruct (proj1 (expr_ok strict e Hok) false false c c' Hc) as (K & -> & HK). exists K. split; [done|].
    intros P a HL g r g' Hx Hp. unfold bind in Hx.
    destruct (eval strict false e g) as [[r1 g1]|] eqn:E; [|done].
    destruct (goes_effect P a K (eval strict false e) (out false) ltac:(done) HK (eval_keeps strict e false Hok) HL g r1 g1 E Hp)
      as [Hp1 H]. destruct r1; injection Hx as <- <-; by split.
  - injection Hc as <-. exists []. split; [by rewrite app_nil_r|]. intros P a _.
    apply (goes_at _ _ _ (λ _, a)); [intros; cbn; lia|]. by apply (goes_const _ _ _ ()).
Qed.

(** What a loop with label [lbl] executes; without a label [lbl] is empty. *)
Definition LoopYs (cx : list frame) (lbl : string) (s : stmt) (y : Y) : Prop :=
  ∃ fuel labels, LabelsOK cx labels ∧ y = unlabel lbl (exec strict fuel (loopLabels lbl labels) s).

Lemma unlabel_expr {A} lbl (x : X A) f g : unlabel lbl (withExpr x f) g = withExpr x (λ a, unlabel lbl (f a)) g.
Proof. unfold unlabel, withStmt, withExpr. destruct (x g) as [[[a|e] g1]|]; [done| |done]. by rewrite unl_thrown. Qed.

Lemma goesS_none P tg cx a b lbl y : (∀ g, y g = None) → GoesS P tg cx a b (unlabel lbl y).
Proof. intros H g c v g' Hy. unfold unlabel, withStmt in Hy. by rewrite H in Hy. Qed.

Lemma silent_clr P a nr : Loaded P a (clr nr) → Silent P a (a + Z.of_nat (length (clr nr))).
Proof. destruct nr; apply silent_clear with (nr := true) || apply silent_clear with (nr := false). Qed.

Definition loopBlock (lbl : string) (cnt : nat) (nr : bool) : block := MkBlock blockLoop lbl cnt [] [] None nr.
Definition effects (o : option expr) : code → option code := optM (λ e, emitGetter strict g0 false e false) o.

(** The body of a while and a for loop and what follows. *)
Definition restWhile (s : stmt) (nr : bool) (start : nat) (j : option nat) (cs : compiler) : option compiler :=
  cs ← compileStatement strict g0 s nr (emitWhen nr clearResult cs); Some (closeLoop start j cs).
Definition restFor (s : stmt) (upd : option expr) (nr : bool) (start : nat) (j : option nat) (cs : compiler)
    : option compiler :=
  cs ← compileStatement strict g0 s nr (emitWhen nr clearResult cs);
  cs ← onCodeM (effects upd) (onHead (setCont (len cs)) cs); Some (closeLoop start j cs).

Lemma restFor_ok cx lbl s upd nr cs K0 T test cs' :
  okO upd → Matches cx (blocks cs) → StmtOK (loopF lbl :: cx) s → let start := (len cs + length K0)%nat in
  restFor s upd nr start (match T with Some Kt => Some (start + length Kt)%nat | None => None end)
    (MkC (cp cs ++ K0 ++ testHole T) (loopBlock lbl 0 nr :: blocks cs)) = Some cs' →
  (∀ P a E, Loaded P a (testCode T a E) →
     Goes P a (testO test) (λ b : bool, if b then a + Z.of_nat (length (testHole T)) else E)) →
  ∃ K X, Emitted cx (uncaught (loopF lbl) (frees s)) cs cs' K X ∧
    HeadSim cx lbl cs K0 test (effectOf strict upd) s K X.
Proof.
  intros Hu HM Hs start Hc HG. unfold restFor in Hc. rewrite emitWhen_clr in Hc. cbn [cp blocks] in Hc.
  rewrite <- !app_assoc in Hc. apply bind_Some in Hc as (cs1 & H1 & Hc). apply bind_Some in Hc as (cs2 & H2 & [= <-]).
  apply bind_Some in H2 as (c2 & H2 & [= <-]). destruct (effect_ok upd _ _ Hu H2) as (Ku & -> & HKu).
  destruct (headLoop_ok cx lbl (loopBlock lbl 0 nr) cs s nr K0 T cs1 Ku (Some (len cs1)) (testO test) (effectOf strict upd))
    as (K & X & cs' & Hcs' & HE & HS); try done; [by right|].
  exists K, X. rewrite headCont_eq in Hcs'. cbn [cp blocks onHead] in *. subst cs'.
  split; [|done]. by destruct (blocks cs1).
Qed.

Lemma restWhile_ok cx lbl s nr cs K0 T test cs' :
  Matches cx (blocks cs) → StmtOK (loopF lbl :: cx) s → let start := (len cs + length K0)%nat in
  restWhile s nr start (match T with Some Kt => Some (start + length Kt)%nat | None => None end)
    (MkC (cp cs ++ K0 ++ testHole T) (loopBlock lbl start nr :: blocks cs)) = Some cs' →
  (∀ P a E, Loaded P a (testCode T a E) →
     Goes P a (testO test) (λ b : bool, if b then a + Z.of_nat (length (testHole T)) else E)) →
  ∃ K X, Emitted cx (uncaught (loopF lbl) (frees s)) cs cs' K X ∧ HeadSim cx lbl cs K0 test (ret ()) s K X.
Proof.
  intros HM Hs start Hc HG. unfold restWhile in Hc. rewrite emitWhen_clr in Hc. cbn [cp blocks] in Hc.
  rewrite <- !app_assoc in Hc. apply bind_Some in Hc as (cs1 & H1 & [= <-]).
  destruct (headLoop_ok cx lbl (loopBlock lbl start nr) cs s nr K0 T cs1 [] None (testO test) (ret ()))
    as (K & X & cs' & Hcs' & HE & HS); try done.
  { by left. }
  { intros P a _. apply (goes_at _ _ _ (λ _, a)); [intros; cbn; lia|]. by apply (goes_const _ _ _ ()). }
  exists K, X. rewrite headCont_eq, app_nil_r in Hcs'. cbn [cp blocks] in *. destruct cs1. cbn [cp blocks] in *. subst cs'. by split.
Qed.

Lemma deadFor_ok cx s upd :
  okO upd → StmtOK cx s →
  CompOK cx (frees s) (λ cs, cs ← compileStatement strict g0 s false cs; onCodeM (effects upd) cs) (λ _, False).
Proof.
  intros Hu Hs cs cs' Hc HM. apply bind_Some in Hc as (cs1 & H1 & H2). destruct (Hs false cs cs1 H1 HM) as (K & X & HE & _).
  apply bind_Some in H2 as (c2 & H2 & [= <-]). destruct (effect_ok upd _ _ Hu H2) as (Ku & -> & _).
  exists (K ++ Ku), X. split; [|done]. rewrite <- (app_nil_r X).
  eapply emitted_trans; [exact HE|apply emitted_code].
Qed.

Lemma for_ok cx lbl init test upd s nr :
  okO init → okO upd → TestOK (loopF lbl :: cx) test s →
  CompOK cx (uncaught (loopF lbl) (frees s))
    (compileLabeledFor strict g0 init test upd (compileStatement strict g0 s) nr lbl) (LoopYs cx lbl (SFor init test upd s)).
Proof.
  intros Hi Hu HT cs cs' Hc HM. unfold compileLabeledFor in Hc.
  apply bind_Some in Hc as (cs1 & H1 & Hc). apply bind_Some in H1 as (c1 & H1 & [= <-]). cbn [newBlock cp blocks] in *.
  destruct (effect_ok init _ _ Hi H1) as (Ki & -> & HKi). rewrite emitWhen_clr in Hc. cbn [cp blocks] in Hc.
  rewrite <- app_assoc in Hc.
  apply (head_ok cx lbl (loopBlock lbl 0 nr) cs (Ki ++ clr nr) test (effectOf strict upd) s
    (restFor s upd nr (length (cp cs ++ Ki ++ clr nr)))
    (λ cs, cs ← compileStatement strict g0 s false cs; onCodeM (effects upd) cs) cs' HM) in Hc as (K & X & HE & HH); try done.
  - exists K, X. split; [done|]. intros y (fuel & labels & Hlab & ->) P tg HLX Htg.
    destruct fuel as [|fuel]; [by apply goesS_none|]. cbn [exec].
    destruct (HH P tg labels (exec strict fuel [] s) HLX Htg Hlab) as [[HLi HLc]%loaded_app HG].
    { exists fuel, []. split; [apply labels_nil|done]. }
    eapply goesS_ext; [intros g; apply unlabel_expr|]. eapply goesS_expr; [by apply HKi|]. intros u. cbn beta.
    eapply goesS_pre; [by apply silent_clr|]. eapply goesS_at; [| |apply HG]; lens.
  - intros HS Hd cs1 cs2 HM1. by apply (dummy_id _ _ _ _ _ _ (deadFor_ok _ s upd Hu HS)).
  - rewrite length_app. intros T cs2 HS Hr HG. by eapply restFor_ok.
Qed.

Lemma while_ok cx lbl t s nr :
  TestOK (loopF lbl :: cx) (Some t) s →
  CompOK cx (uncaught (loopF lbl) (frees s))
    (compileLabeledWhile strict g0 t (compileStatement strict g0 s) nr lbl) (LoopYs cx lbl (SWhile t s)).
Proof.
  intros HT cs cs' Hc HM. unfold compileLabeledWhile in Hc. rewrite emitWhen_clr in Hc. cbn [newBlock onHead cp blocks] in Hc.
  apply (head_ok cx lbl (loopBlock lbl (length (cp cs ++ clr nr)) nr) cs (clr nr) (Some t) (ret ()) s
    (restWhile s nr (length (cp cs ++ clr nr))) (compileStatement strict g0 s false) cs' HM) in Hc as (K & X & HE & HH); try done.
  - exists K, X. split; [done|]. intros y (fuel & labels & Hlab & ->) P tg HLX Htg.
    destruct fuel as [|fuel]; [by apply goesS_none|]. cbn [exec].
    destruct (HH P tg labels (exec strict fuel [] s) HLX Htg Hlab) as [HLc HG].
    { exists fuel, []. split; [apply labels_nil|done]. }
    eapply goesS_pre; [by apply silent_clr|]. eapply goesS_at; [| |apply HG]; lens.
  - intros HS Hd cs1 cs2 HM1. by apply (dummy_id _ _ _ _ _ _ (HS false)).
  - rewrite length_app. intros T cs2 HS Hr HG. by eapply restWhile_ok.
Qed.

Lemma do_ok cx lbl t s nr :
  okE t → StmtOK (loopF lbl :: cx) s →
  CompOK cx (uncaught (loopF lbl) (frees s))
    (compileLabeledDoWhile strict g0 (compileStatement strict g0 s) t nr lbl) (LoopYs cx lbl (SDoWhile s t)).
Proof.
  intros Ht Hs cs cs' Hc HM. unfold compileLabeledDoWhile in Hc. apply bind_Some in Hc as (cs1 & H1 & Hc).
  destruct (Hs nr _ _ H1) as (Kb & X & HE & HSim); [by constructor|]. unfold newBlock in *.
  apply bind_Some in Hc as (cs2 & H2 & [= <-]). apply bind_Some in H2 as (c2 & H2 & [= <-]).
  destruct (emitExpr_ok strict t false true _ _ Ht (expr_ok strict t Ht) H2) as (Kt & -> & HKt).
  pose proof HE as ([Hcp1 Hb1] & _ & HSrc). cbn [cp blocks onHead] in *.
  set (back := Some (jeqP (off (length (cp cs)) (length (cp cs1 ++ Kt))))).
  destruct (block_ok cx (loopF lbl) (loopBlock lbl 0 nr) (frees s) (uncaught (loopF lbl) (frees s)) cs (cp cs) cs1 [] Kb X
    (Kt ++ [back]) (Some (len cs1))) as (K & cs' & HL & HE' & Hlen & HP); try done.
  { by rewrite app_nil_r. }
  { by apply srcs_leave. }
  exists K, (others (length cx) X). split.
  { rewrite <- HL in HE'. unfold emitS, onCode, emit, len in *. cbn [cp blocks newBlock headCont onHead app] in *.
    replace ((cp cs1 ++ Kt) ++ (Some <$> [jeqP (off (length (cp cs)) (length (cp cs1 ++ Kt)))]))
      with (cp cs ++ Kb ++ Kt ++ [back]) by (rewrite Hcp1, <- !app_assoc; unfold back; by rewrite Hcp1, <- app_assoc).
    by destruct (blocks cs1). }
  intros y (fuel & labels & Hlab & ->) P tg HLX Htg. destruct fuel as [|fuel]; [by apply goesS_none|]. cbn [exec].
  destruct (HP P tg HLX Htg) as (tg' & Htg' & HB & HC & HTG & _ & HLb & HLt).
  assert (len cs1 = len cs + length Kb)%nat as Hl1 by (unfold len; rewrite Hcp1; lens).
  cbn [length default from_option app id] in *. rewrite Nat.add_0_r in *. rewrite <- Hl1 in *.
  eapply (goesS_do P tg tg' cx lbl labels _ _ _ _); try done; [by apply HC| | |apply silent_refl].
  - eapply goes_jump; [done|done|exact HLt|]. intros v stk refs tries rs g. cbn.
    destruct (ToBoolean v); do 2 f_equal; unfold off; [lens|]. rewrite Hlen. lens.
  - eapply goesS_at; [reflexivity| |apply HSim; [|exact HLb|done]]; [lens|].
    exists fuel, []. split; [apply labels_nil|done].
Qed.
End components.
End CompilerCorrect.
