(* ===== verification/ScriptCorrect.v ===== *)
(** * Correctness of compiled scripts

    The statements that need no loop, the try and switch statements, and the
    theorem that a compiled script runs as the reference semantics prescribes. *)

From S2P Require Import Prelude Vm Compiler Semantics ExprCorrect Jumps StmtCorrect CompilerCorrect.
From stdpp Require Import strings.
Import Vm Compiler Semantics ExprCorrect Jumps StmtCorrect CompilerCorrect.
Open Scope Z_scope.

Module ScriptCorrect.

(** Arithmetic on positions. *)
#[local] Ltac lens :=
  unfold emitS, onCode, emitNil, emit, len in *; cbn [cp blocks] in *;
  repeat (rewrite ?length_app, ?length_fmap; cbn [length]); lia.

Section statements.
Context {rt : Runtime} {g0 : G} {laws : RuntimeLaws g0} (strict : bool).

(** *** Statements without blocks *)

(** Code without exits. *)
Lemma compOK_plain cx fs f (Ys : Y → Prop) :
  (∀ cs cs', f cs = Some cs' → ∃ K, cs' = MkC (cp cs ++ K) (blocks cs) ∧
     ∀ y P tg a, Ys y → Loaded P a K → GoesS P tg cx a (a + Z.of_nat (length K)) y) →
  CompOK cx fs f Ys.
Proof.
  intros Hf cs cs' Hc HM. destruct (Hf cs cs' Hc) as (K & -> & HK). exists K, []. split; [apply emitted_code|].
  intros y Hy P tg HL Htg. rewrite Nat2Z.inj_add. apply HK; [done|]. by apply loadedX_plain in HL.
Qed.

Lemma goesS_out P tg cx a b s (labels : list string) : GoesS P tg cx a b (exec strict 0 labels s).
Proof. by intros g c v g' Hy. Qed.

Lemma expression_ok cx e : okE e → StmtOK strict cx (SExpression e).
Proof.
  intros He nr. apply compOK_plain. intros cs cs' Hc. cbn [compileStatement] in Hc.
  apply bind_Some in Hc as (cs1 & H1 & [= <-]). apply bind_Some in H1 as (c1 & H1 & [= <-]).
  destruct (emitExpr_ok strict e false nr _ _ He (expr_ok strict e He) H1) as (K & -> & HK).
  exists (K ++ if nr then [Some saveResult] else []). split.
  { destruct nr; unfold emitWhen, emitS, onCode, emit; cbn; by rewrite ?app_nil_r, <- ?app_assoc. }
  intros y P tg a ([|fuel] & labels & Hlab & ->) HL; [apply goesS_out|]. by apply goesS_expression.
Qed.

Lemma empty_ok cx : StmtOK strict cx SEmpty.
Proof.
  intros nr. apply compOK_plain. intros cs cs' [= <-]. rewrite emitWhen_clr. exists (clr nr). split; [done|].
  intros y P tg a ([|fuel] & labels & Hlab & ->) HL; [apply goesS_out|].
  eapply goesS_pre; [by apply silent_clr|]. apply goesS_complete.
Qed.

Lemma throw_ok cx e : okE e → StmtOK strict cx (SThrow e).
Proof.
  intros He nr. apply compOK_plain. intros cs cs' Hc. cbn [compileStatement] in Hc.
  apply bind_Some in Hc as (cs1 & H1 & [= <-]). apply bind_Some in H1 as (c1 & H1 & [= <-]).
  destruct (proj1 (expr_ok strict e He) false true _ _ H1) as (K & -> & HK).
  exists (K ++ [Some throw]). split; [by rewrite app_assoc|].
  intros y P tg a ([|fuel] & labels & Hlab & ->) HL; [apply goesS_out|]. by eapply goesS_throw.
Qed.

Lemma branch_ok cx ib l h :
  l ≠ Some ""%string → findIn cx ib l = Some (Some h) → okBranch cx ib l h = true → StmtOK strict cx (SBranch ib l).
Proof.
  intros Hl Hf Hok nr cs cs' Hc HM. cbn [compileStatement] in Hc. unfold compileBranchStatement, emitBlockExitCode in Hc.
  rewrite (findBreakBlock_shape cx _ _ _ HM), Hf in Hc. injection Hc as <-. cbn [cp blocks onCode].
  set (x := Some <$> exitCode h (blocks cs)). pose proof (okBranch_lt _ _ _ _ Hok) as Hlt.
  exists (x ++ [None]), [(length (cp cs ++ x), h, ib)]. split.
  - split; [|split].
    + split; [unfold emitNil, emit; cbn; by rewrite <- app_assoc|]. cbn. unfold addExit, epos, eblock, ebreak. done.
    + split; [apply NoDup_singleton|]. intros e ->%list_elem_of_singleton. unfold epos, eblock, len. cbn.
      rewrite length_app. split; [lia|]. split; [|done].
      rewrite lookup_app_r by lia. by replace (_ - _)%nat with O by lia.
    + intros e ->%list_elem_of_singleton. exists ib, l. split; [apply list_elem_of_singleton|]; done.
  - intros y ([|fuel] & labels & Hlab & ->) P tg [HL HX] Htg; [apply goesS_out|]. intros g c v g' [= <- <- <-] Hp.
    split; [done|]. intros stk refs tries rs HF. exists O, rs. eexists. split; [apply reach_refl|]. split; [done|].
    eexists. split; [done|]. apply loaded_app in HL as [HL _]. eapply exitCode_at; [done|done|done|exact HL|].
    intros t Ht. specialize (HX _ t (list_elem_of_here _ _) Ht). unfold epos, x in HX. cbn in HX.
    rewrite length_app, length_fmap, Nat2Z.inj_add in HX. exact HX.
Qed.

Lemma block_stmt_ok cx l : Forall (StmtOK strict cx) l → deadTails cx l → StmtOK strict cx (SBlock l).
Proof.
  intros HF Hd nr cs cs' Hc HM. destruct (compileStatements_ok strict cx l nr HF Hd cs cs' Hc HM) as (K & X & HE & HS).
  exists K, X. split; [done|]. intros y ([|fuel] & labels & Hlab & ->); [intros P tg HL Htg; apply goesS_out|].
  apply HS. by exists fuel, None.
Qed.

(** *** The if statement *)

(** Two pieces with exits between code without. *)
Lemma emitted_two cx fs c c1 c2 bs cs1 cs2 K1 X1 K2 X2 (A B D : code) :
  length c1 = length (c ++ A) → Emitted cx fs (MkC c1 bs) cs1 K1 X1 →
  length c2 = length (c ++ A ++ K1 ++ B) → Emitted cx fs (MkC c2 (blocks cs1)) cs2 K2 X2 →
  Emitted cx fs (MkC c bs) (MkC (c ++ A ++ K1 ++ B ++ K2 ++ D) (blocks cs2)) (A ++ K1 ++ B ++ K2 ++ D) (X1 ++ X2).
Proof.
  intros L1 E1 L2 E2. apply (emitted_between _ _ _ c _ _ _ _ A B) in E1; [|done].
  apply (emitted_between _ _ _ (c ++ A ++ K1 ++ B) _ _ _ _ [] D) in E2; [|by rewrite app_nil_r].
  pose proof (emitted_trans _ _ _ _ _ _ _ _ _ E1 E2) as H. cbn [app] in H. by rewrite <- !app_assoc in H.
Qed.

Lemma loadedX_two P base A K1 B K2 D X1 X2 tg :
  LoadedX P base (A ++ K1 ++ B ++ K2 ++ D) (X1 ++ X2) tg →
  Loaded P (Z.of_nat base) A ∧ LoadedX P (base + length A) K1 X1 tg ∧
  Loaded P (Z.of_nat (base + length A + length K1)) B ∧
  LoadedX P (base + length A + length K1 + length B) K2 X2 tg ∧
  Loaded P (Z.of_nat (base + length A + length K1 + length B + length K2)) D.
Proof.
  intros H. replace (A ++ K1 ++ B ++ K2 ++ D) with ((A ++ K1 ++ B) ++ ([] ++ K2 ++ D)) in H by (by rewrite <- !app_assoc).
  apply loadedX_app in H as [H1 H2]. apply loadedX_between in H1 as (? & ? & ?), H2 as (_ & H2 & H3).
  assert (base + length (A ++ K1 ++ B) + length (@nil (option instruction)) = base + length A + length K1 + length B)%nat as E
    by (rewrite !length_app; cbn; lia).
  rewrite E in H2, H3. done.
Qed.

(** The value of a statement does not matter. *)
Lemma goesS_update P tg cx a b y v :
  GoesS P tg cx a b y → GoesS P tg cx a b (withStmt y (λ c, complete (UpdateEmpty c v))).
Proof.
  intros HY. eapply goesS_seq; [exact HY|intros w; apply goesS_complete|]. intros c w Hc. by eexists.
Qed.

Definition ifY (fuel : nat) (t : expr) (a : stmt) (b : option stmt) : Y :=
  withExpr (testOf strict t) (λ v, if v : bool then withStmt (exec strict fuel [] a) (λ c, complete (UpdateEmpty c _undefined))
    else match b with
         | Some b => withStmt (exec strict fuel [] b) (λ c, complete (UpdateEmpty c _undefined))
         | None => complete (Normal, Some _undefined)
         end).

Lemma stmtYs_nil cx fuel s : StmtYs strict cx s (exec strict fuel [] s).
Proof. exists fuel, []. split; [apply labels_nil|done]. Qed.

(** A constant test: one branch is compiled. *)
Lemma goesS_ifConst P tg cx a d fuel t s1 s2 v :
  TestIs strict t (if v : bool then TestTrue else TestFalse) →
  GoesS P tg cx a d (if v then exec strict fuel [] s1 else
    match s2 with Some s2 => exec strict fuel [] s2 | None => complete (Normal, None) end) →
  GoesS P tg cx a d (ifY fuel t s1 s2).
Proof.
  intros HT HY. assert (∀ g, pristine g → testOf strict t g = Some (Ok v, g)) as HTv by (by destruct v).
  eapply goesS_exprV; [by eapply goes_const|]. intros w g g' Hg Hp. rewrite HTv in Hg by done. injection Hg as <- <-.
  destruct v; [by apply goesS_update|]. destruct s2; by apply (goesS_update _ _ _ _ _ _ _undefined) in HY.
Qed.

(** The parts of an if statement that are compiled. *)
Definition IfOK (cx : list frame) (t : expr) (a : stmt) (b : option stmt) : Prop :=
  match classifyTest strict g0 t [], b with
  | Some TestTrue, Some b => StmtOK strict cx a ∧ StmtOK strict cx b ∧ deadOK cx (frees b) = true
  | Some TestTrue, None => StmtOK strict cx a
  | Some TestFalse, Some b => StmtOK strict cx a ∧ deadOK cx (frees a) = true ∧ StmtOK strict cx b
  | Some TestFalse, None => StmtOK strict cx a ∧ deadOK cx (frees a) = true
  | Some (TestThrows _ _), _ => True
  | Some TestCode, Some b => StmtOK strict cx a ∧ StmtOK strict cx b
  | Some TestCode, None => StmtOK strict cx a
  | None, _ => False
  end.

Definition freesO (b : option stmt) : list (bool * option string) := match b with Some b => frees b | None => [] end.

(** What follows a test that is not constant. *)
Definition ifCode (a : stmt) (b : option stmt) (nr : bool) (cs : compiler) : option compiler :=
  let jmp := len cs in
  cs ← compileStatement strict g0 a nr (onCode emitNil cs);
  match b with
  | Some b =>
      let jmp1 := len cs in
      let cs := onCode emitNil cs in
      let cs := onCode (patch jmp (jneP (off (len cs) jmp))) cs in
      cs ← compileStatement strict g0 b nr cs;
      Some (onCode (patch jmp1 (jump (off (len cs) jmp1))) cs)
  | None =>
      if nr then
        let cs := emitS [jump 2] cs in
        let cs := onCode (patch jmp (jneP (off (len cs) jmp))) cs in
        Some (emitS [clearResult] cs)
      else Some (onCode (patch jmp (jneP (off (len cs) jmp))) cs)
  end.

(** The run of such a statement: the test, its branches and the jump between. *)
Lemma goesS_ifCode P tg cx a K t k fuel s1 s2 A B D :
  Computes K [] [] (eval strict true t) (out true) noRef → okE t →
  Loaded P a (K ++ [Some (jneP k)]) → A = a + Z.of_nat (length K) + 1 → B = a + Z.of_nat (length K) + k →
  GoesS P tg cx A D (exec strict fuel [] s1) →
  GoesS P tg cx B D (match s2 with Some s2 => exec strict fuel [] s2 | None => complete (Normal, None) end) →
  GoesS P tg cx a D (ifY fuel t s1 s2).
Proof.
  intros HK Hok HL -> -> H1 H2.
  eapply (goesS_expr _ _ _ _ (λ v : bool, if v then a + Z.of_nat (length K) + 1 else a + Z.of_nat (length K) + k)).
  - eapply goes_jump; [done|done|exact HL|]. intros v stk refs tries rs g. cbn. by destruct (ToBoolean v).
  - intros []; [by apply goesS_update|]. destruct s2; by apply (goesS_update _ _ _ _ _ _ _undefined) in H2.
Qed.

Lemma ifElse_ok cx a b nr t Kt c0 bs cs' :
  StmtOK strict cx a → StmtOK strict cx b → okE t → Computes Kt [] [] (eval strict true t) (out true) noRef → Matches cx bs →
  ifCode a (Some b) nr (MkC (c0 ++ Kt) bs) = Some cs' →
  ∃ K X, Emitted cx (frees a ++ freesO (Some b)) (MkC c0 bs) cs' K X ∧
    ∀ fuel P tg, LoadedX P (length c0) K X tg → TgOK cx tg →
      GoesS P tg cx (Z.of_nat (length c0)) (Z.of_nat (length c0 + length K)) (ifY fuel t a (Some b)).
Proof.
  intros Ha Hb Ht HK HM Hc. unfold ifCode in Hc. apply bind_Some in Hc as (cs1 & H1 & Hc).
  destruct (Ha nr _ _ H1) as (Ka & Xa & HEa & HSa); [done|].
  apply (emitted_mono _ _ (frees a ++ freesO (Some b))) in HEa; [|intros; apply elem_of_app; by left].
  pose proof HEa as ([Hcp1 _] & _). unfold onCode, emitNil in Hcp1. cbn [cp] in Hcp1.
  pose proof (emitted_matches _ _ _ _ _ _ HEa HM) as HM1.
  unfold onCode, emitNil, len in Hc. cbn [cp blocks] in Hc. rewrite Hcp1, <- !app_assoc in Hc. cbn [app] in Hc.
  rewrite !(app_assoc c0 Kt), patch_forward in Hc by done.
  apply bind_Some in Hc as (cs2 & H2 & [= <-]). destruct (Hb nr _ _ H2) as (Kb & Xb & HEb & HSb); [done|].
  apply (emitted_mono _ _ (frees a ++ freesO (Some b))) in HEb; [|intros; apply elem_of_app; by right].
  pose proof HEb as ([Hcp2 _] & _). cbn [cp] in Hcp2. rewrite Hcp2. set (i1 := jneP _) in *.
  replace (((c0 ++ Kt) ++ Some i1 :: Ka ++ [None]) ++ Kb) with (((c0 ++ Kt) ++ Some i1 :: Ka) ++ None :: Kb)
    by (by rewrite <- !app_assoc; cbn; rewrite <- app_assoc).
  rewrite (patch_forward jump ((c0 ++ Kt) ++ Some i1 :: Ka)) by (by rewrite !length_app).
  set (i2 := jump _). exists ((Kt ++ [Some i1]) ++ Ka ++ [Some i2] ++ Kb ++ []), (Xa ++ Xb). split.
  - replace (((c0 ++ Kt) ++ Some i1 :: Ka) ++ Some i2 :: Kb) with (c0 ++ (Kt ++ [Some i1]) ++ Ka ++ [Some i2] ++ Kb ++ [])
      by (by rewrite app_nil_r, <- !app_assoc).
    eapply emitted_two; [|exact HEa| |exact HEb]; lens.
  - intros fuel P tg HLX Htg. apply loadedX_two in HLX as (HLt & HLa & HLj & HLb & _).
    apply loaded_cons in HLj as [HLj _].
    eapply (goesS_ifCode P tg cx _ Kt t (Z.of_nat (S (length (Ka ++ [None])))) fuel a (Some b)); [done|done|done|done|done| |].
    + eapply goesS_post; [eapply goesS_at; [| |apply (HSa _ (stmtYs_nil cx fuel a) P tg); [|done]]|]; [lens|reflexivity| |].
      * eapply loadedX_at; [|exact HLa]. unfold onCode, emitNil. lens.
      * apply silent_jump. eapply fetch_at; [|exact HLj|].
        -- unfold onCode, emitNil. lens.
        -- unfold onCode, emitNil. lens.
    + eapply goesS_at; [| |apply (HSb _ (stmtYs_nil cx fuel b) P tg); [|done]]; [lens|lens|].
      eapply loadedX_at; [|exact HLb]. lens.
Qed.

Lemma ifOnly_ok cx a nr t Kt c0 bs cs' :
  StmtOK strict cx a → okE t → Computes Kt [] [] (eval strict true t) (out true) noRef → Matches cx bs →
  ifCode a None nr (MkC (c0 ++ Kt) bs) = Some cs' →
  ∃ K X, Emitted cx (frees a ++ freesO None) (MkC c0 bs) cs' K X ∧
    ∀ fuel P tg, LoadedX P (length c0) K X tg → TgOK cx tg →
      GoesS P tg cx (Z.of_nat (length c0)) (Z.of_nat (length c0 + length K)) (ifY fuel t a None).
Proof.
  intros Ha Ht HK HM Hc. unfold ifCode in Hc. apply bind_Some in Hc as (cs1 & H1 & Hc).
  destruct (Ha nr _ _ H1) as (Ka & Xa & HEa & HSa); [done|].
  apply (emitted_mono _ _ (frees a ++ freesO None)) in HEa; [|intros; apply elem_of_app; by left].
  pose proof HEa as ([Hcp1 _] & _). unfold onCode, emitNil in Hcp1. cbn [cp] in Hcp1.
  set (E := if nr then [jump 2; clearResult] else []).
  set (i1 := jneP (Z.of_nat (S (length Ka + if nr then 1 else 0)))).
  assert (cs' = MkC (c0 ++ (Kt ++ [Some i1]) ++ Ka ++ (Some <$> E)) (blocks cs1)) as ->.
  { unfold emitS, emit, len, onCode in Hc. cbn [cp blocks] in Hc. rewrite Hcp1, <- !app_assoc in Hc. cbn [app] in Hc.
    destruct nr; injection Hc as <-; f_equal.
    - rewrite (app_assoc c0 Kt (None :: Ka ++ _)), patch_forward, length_app, <- !app_assoc by done. cbn. by rewrite <- app_assoc.
    - rewrite (app_assoc c0 Kt (None :: Ka)), patch_forward, <- !app_assoc by done. cbn. rewrite app_nil_r. unfold i1. by rewrite Nat.add_0_r. }
  exists ((Kt ++ [Some i1]) ++ Ka ++ (Some <$> E)), Xa. split.
  { eapply emitted_between; [|exact HEa]. lens. }
  intros fuel P tg HLX Htg. apply loadedX_between in HLX as (HLt & HLa & HLe).
  assert (GoesS P tg cx (Z.of_nat (length c0 + length (Kt ++ [Some i1]))) (Z.of_nat (length c0 + length (Kt ++ [Some i1]) + length Ka))
    (exec strict fuel [] a)) as HGa.
  { eapply goesS_at; [| |apply (HSa _ (stmtYs_nil cx fuel a) P tg); [|done]]; [lens|lens|].
    eapply loadedX_at; [|exact HLa]. lens. }
  eapply (goesS_ifCode P tg cx _ Kt t _ fuel a None); [done|done|exact HLt|reflexivity|reflexivity| |];
    unfold E in *; destruct nr; cbn [fmap list_fmap] in *.
  - apply loaded_cons in HLe as [HLj _]. eapply goesS_at; [| |eapply goesS_post; [exact HGa|]]; [lens| |].
    2: { apply (silent_jump _ _ (Z.of_nat (length c0 + length (Kt ++ [Some i1]) + length Ka) + 2)).
         eapply fetch_at; [reflexivity|exact HLj|]. lia. }
    lens.
  - eapply goesS_at; [| |exact HGa]; lens.
  - apply loaded_cons in HLe as [_ [HLc _]%loaded_cons]. eapply goesS_at; [| |eapply goesS_pre; [|apply goesS_complete]].
    3: { apply (silent_clear P _ true). apply loaded_cons. split; [exact HLc|apply loaded_nil]. }
    all: lens.
  - eapply goesS_at; [| |apply goesS_complete]; [reflexivity|lens].
Qed.

(** Code without exits before a piece. *)
Lemma prefix_ok cx fs cs cs' K0 K X :
  Emitted cx fs (MkC (cp cs ++ K0) (blocks cs)) cs' K X → Emitted cx fs cs cs' (K0 ++ K) X.
Proof.
  intros HE. pose proof HE as ([Hcp Hb] & _). apply (emitted_between _ _ _ (cp cs) _ _ _ _ K0 []) in HE; [|done].
  rewrite app_nil_r in HE. destruct cs, cs'. cbn in *. rewrite <- app_assoc in Hcp. by rewrite Hcp.
Qed.

(** The code of an if statement for a test of the kind [k]. *)
Definition ifKind (k : loopTest) (t : expr) (a : stmt) (b : option stmt) (nr : bool) (cs : compiler) : option compiler :=
  match k with
  | TestThrows e g => onCodeM (emitThrow e g) cs
  | TestTrue =>
      cs ← compileStatement strict g0 a nr cs;
      match b with Some b => compileDummy (compileStatement strict g0 b false) cs | None => Some cs end
  | TestFalse =>
      cs ← compileDummy (compileStatement strict g0 a false) cs;
      match b with Some b => compileStatement strict g0 b nr cs | None => Some (emitWhen nr clearResult cs) end
  | TestCode => cs ← onCodeM (emitGetter strict g0 false t true) cs; ifCode a b nr cs
  end.

Lemma ifKind_ok cx k t a b nr cs cs' :
  okE t → classifyTest strict g0 t [] = Some k → IfOK cx t a b → Matches cx (blocks cs) →
  ifKind k t a b nr cs = Some cs' →
  ∃ K X, Emitted cx (frees a ++ freesO b) cs cs' K X ∧
    ∀ fuel P tg, LoadedX P (len cs) K X tg → TgOK cx tg →
      GoesS P tg cx (Z.of_nat (len cs)) (Z.of_nat (len cs + length K)) (ifY fuel t a b).
Proof.
  intros Ht Hk Hab HM Hc. unfold IfOK in Hab. rewrite Hk in Hab.
  pose proof (classifyTest_spec strict t [] k Ht Hk) as Hspec. destruct k as [| |e g|]; cbn [ifKind] in Hc.
  - apply bind_Some in Hc as (cs1 & H1 & Hc).
    assert (StmtOK strict cx a) as Ha by (destruct b; [by destruct Hab|done]).
    destruct (Ha nr _ _ H1 HM) as (K & X & HE & HS).
    assert (cs' = cs1) as ->.
    { destruct b as [b|]; [|by injection Hc]. destruct Hab as (_ & Hb & Hd).
      eapply (dummy_id _ _ _ _ _ _ (Hb false)); [done| |done]. by eapply emitted_matches. }
    exists K, X. split; [eapply emitted_mono; [|done]; intros; apply elem_of_app; by left|].
    intros fuel P tg HLX Htg. apply (goesS_ifConst _ _ _ _ _ _ _ _ _ true); [done|]. by apply HS; [apply stmtYs_nil|..].
  - apply bind_Some in Hc as (cs1 & H1 & Hc).
    apply (dummy_id cx (frees a) _ (StmtYs strict cx a)) in H1 as ->; [|destruct b; apply Hab|destruct b; apply Hab|done].
    destruct b as [b|].
    + destruct Hab as (_ & _ & Hb). destruct (Hb nr _ _ Hc HM) as (K & X & HE & HS).
      exists K, X. split; [eapply emitted_mono; [|done]; intros; apply elem_of_app; by right|].
      intros fuel P tg HLX Htg. apply (goesS_ifConst _ _ _ _ _ _ _ _ _ false); [done|]. by apply HS; [apply stmtYs_nil|..].
    + injection Hc as <-. rewrite emitWhen_clr. exists (clr nr), []. split; [apply emitted_code|].
      intros fuel P tg HLX%loadedX_plain Htg. apply (goesS_ifConst _ _ _ _ _ _ _ _ _ false); [done|].
      rewrite Nat2Z.inj_add. eapply goesS_pre; [by apply silent_clr|]. apply goesS_complete.
  - apply bind_Some in Hc as (c & Hc & [= <-]).
    destruct (goes_throws strict t e g _ _ Ht Hspec Hc) as (K & -> & HG & HF). exists K, []. split; [apply emitted_code|].
    intros fuel P tg HLX%loadedX_plain Htg. eapply (goesS_exprV _ _ _ _ (λ _, 0)); [by apply HG|].
    intros v g1 g' Hg Hp. by destruct (HF g1 v g' Hp).
  - apply bind_Some in Hc as (cs1 & H1 & Hc). apply bind_Some in H1 as (c & H1 & [= <-]).
    destruct (proj1 (expr_ok strict t Ht) false true _ _ H1) as (Kt & -> & HK). destruct cs as [c0 bs]. cbn in *.
    destruct b as [b|]; [destruct Hab; by eapply ifElse_ok|by eapply ifOnly_ok].
Qed.

Lemma if_ok cx t a b : okE t → IfOK cx t a b → StmtOK strict cx (SIf t a b).
Proof.
  intros Ht Hab nr cs cs' Hc HM. cbn [compileStatement] in Hc. rewrite emitWhen_clr in Hc. cbn [cp] in Hc.
  apply bind_Some in Hc as (k & Hk & Hc). rewrite classifyTest_indep in Hk.
  destruct (ifKind_ok cx k t a b nr (MkC (cp cs ++ clr nr) (blocks cs)) cs' Ht Hk Hab HM) as (K & X & HE & HS).
  { destruct k; try exact Hc. }
  exists (clr nr ++ K), X. split; [by eapply prefix_ok|].
  intros y ([|fuel] & labels & Hlab & ->) P tg HLX Htg; [apply goesS_out|].
  rewrite <- (app_nil_r K) in HLX. apply loadedX_between in HLX as (HLc & HLX & _).
  eapply goesS_pre; [by apply silent_clr|]. eapply goesS_at; [| |apply (HS fuel P tg); [|done]]; [lens|lens|].
  eapply loadedX_at; [|exact HLX]. lens.
Qed.

(** *** Loops and labelled statements *)

Lemma frees_loop lbl fs x : x ∈ uncaught (loopF lbl) fs → x ∈ filter (λ x, x.2 ≠ None) fs ∧ x.2 ≠ Some lbl.
Proof.
  intros [[Ht _] Hin]%list_elem_of_filter. destruct x as [ib [l|]]; cbn in *.
  - rewrite (bool_decide_eq_true_2 (blockLoop = blockLoop)), orb_true_r, andb_true_r in Ht by done.
    apply bool_decide_eq_false in Ht. split; [by apply list_elem_of_filter|]. congruence.
  - by rewrite bool_decide_eq_true_2 in Ht.
Qed.

Lemma frees_label lbl fs x : x ∈ uncaught (labelF lbl) fs → x ∈ filter (λ x, x.2 ≠ Some lbl) fs.
Proof.
  intros [[Ht Hb] Hin]%list_elem_of_filter. apply list_elem_of_filter. split; [|done]. intros E.
  destruct x as [ib l]. cbn in E. subst l. cbn in Ht, Hb. rewrite (bool_decide_eq_true_2 (lbl = lbl)) in * by done.
  by destruct ib.
Qed.

(** A loop without a label. *)
Lemma loop_plain_ok cx s body f :
  frees s = filter (λ x, x.2 ≠ None) (frees body) → (∀ nr, compileStatement strict g0 s nr = f nr ""%string) →
  (∀ nr, CompOK cx (uncaught (loopF "") (frees body)) (f nr ""%string) (LoopYs strict cx "" s)) → StmtOK strict cx s.
Proof.
  intros Hfr Hcs Hf nr cs cs' Hc HM. rewrite Hcs in Hc. destruct (Hf nr cs cs' Hc HM) as (K & X & HE & HS).
  exists K, X. split.
  { eapply emitted_mono; [|exact HE]. intros x Hx%frees_loop. rewrite Hfr. by apply Hx. }
  intros y (fuel & labels & Hlab & ->) P tg HL Htg.
  eapply goesS_ext; [|apply (HS (unlabel "" (exec strict fuel labels s))); [by exists fuel, labels|exact HL|done]].
  intros g. unfold unlabel, withStmt, complete, unl. cbn. by destruct (exec strict fuel labels s g) as [[]|].
Qed.

Lemma exec_labelled fuel labels l s g :
  l ≠ ""%string → exec strict (S fuel) labels (SLabelled l s) g = unlabel l (exec strict fuel (l :: labels) s) g.
Proof.
  intros Hl. cbn [exec]. unfold unlabel, withStmt, complete, unl. by rewrite (bool_decide_eq_false_2 (l = ""%string)).
Qed.

(** A labelled loop. *)
Lemma loop_labelled_ok cx l s body f :
  l ≠ ""%string → frees s = filter (λ x, x.2 ≠ None) (frees body) →
  (∀ nr cs cs', compileStatement strict g0 (SLabelled l s) nr cs = Some cs' → f nr l cs = Some cs') →
  (∀ nr, CompOK cx (uncaught (loopF l) (frees body)) (f nr l) (LoopYs strict cx l s)) → StmtOK strict cx (SLabelled l s).
Proof.
  intros Hl Hfr Hcs Hf nr cs cs' Hc HM. apply Hcs in Hc. destruct (Hf nr cs cs' Hc HM) as (K & X & HE & HS).
  exists K, X. split.
  { eapply emitted_mono; [|exact HE]. intros x [Hx Hne]%frees_loop. cbn [frees]. rewrite Hfr. by apply list_elem_of_filter. }
  intros y ([|fuel] & labels & Hlab & ->) P tg HL Htg; [apply goesS_out|].
  eapply goesS_ext; [intros g; by apply exec_labelled|]. apply HS; [|done|done]. exists fuel, labels. split; [done|].
  unfold loopLabels. by rewrite (bool_decide_eq_false_2 (l = ""%string)).
Qed.

(** The block of a label ends the breaks to it. *)
Lemma goesS_label P tg tg' cx l a E y :
  l ≠ ""%string → (∀ h ib, (h < length cx)%nat → tg' h ib = tg h ib) → tg' (length cx) true = Some E →
  GoesS P tg' (labelF l :: cx) a E y → GoesS P tg cx a E (unlabel l y).
Proof.
  intros Hl Htg HE HY g c v g' Hy Hp. unfold unlabel, withStmt in Hy. destruct (y g) as [[[c1 v1] g1]|] eqn:Eb; [|done].
  injection Hy as Hc <-. destruct (HY _ _ _ _ Eb Hp) as [Hp1 H1]. split; [done|]. intros stk refs tries rs HF.
  destruct (H1 stk refs tries rs HF) as (n & rs' & r & R & HEnds). unfold unl in Hc. cbn in Hc.
  rewrite (bool_decide_eq_false_2 (l = ""%string)) in Hc by done. cbn in Hc.
  destruct c1 as [|ib l1|e]; cbn in Hc; [injection Hc as <- <-; by exists n, rs', r| |injection Hc as <- <-; by exists n, rs', r].
  destruct HEnds as (Hne & p & -> & HA). cbn [AtExit] in HA. destruct (targets (labelF l) ib l1) eqn:Et.
  - destruct l1 as [l1|]; cbn in Et; [|by rewrite andb_false_r in Et].
    apply andb_true_iff in Et as [<-%bool_decide_eq_true Hib]. destruct ib; [|done].
    rewrite bool_decide_eq_true_2 in Hc by done. injection Hc as <- <-. destruct HA as (t & Ht & Hf). rewrite HE in Ht.
    injection Ht as <-. exists (n + 1)%nat, rs'. eexists. split; [|done]. eapply reach_trans; [exact R|].
    eapply reach_cons; [done|]. cbn. replace (p + (E - p)) with E by lia. apply reach_refl.
  - destruct (blocked (labelF l) ib l1) eqn:Eb1; [done|]. cbn in HA.
    assert ((c, v) = (Branch ib l1, v1)) as [= -> ->].
    { rewrite <- Hc. destruct ib, l1 as [l1|]; try done. cbn in Et. rewrite andb_true_r in Et. by rewrite Et. }
    exists n, rs'. eexists. split; [exact R|]. split; [done|]. exists p. split; [done|]. by eapply atExit_ext.
Qed.

Lemma label_ok cx l s :
  l ≠ ""%string → StmtOK strict (labelF l :: cx) s →
  (∀ nr cs cs', compileStatement strict g0 (SLabelled l s) nr cs = Some cs' →
     (cs ← compileStatement strict g0 s nr (newBlock blockLabel l nr cs); Some (leaveBlock cs)) = Some cs') →
  StmtOK strict cx (SLabelled l s).
Proof.
  intros Hl Hs Hcs nr cs cs' Hc HM. apply Hcs, bind_Some in Hc as (cs1 & H1 & [= <-]).
  destruct (Hs nr _ _ H1) as (K & X & HE & HS); [by constructor|]. unfold newBlock in *.
  destruct (block_ok cx (labelF l) (MkBlock blockLabel l 0 [] [] None nr) (frees s) (frees (SLabelled l s)) cs (cp cs) cs1 [] K X
    [] None) as (K' & cs' & HL & HE' & Hlen & HP); try done.
  { by rewrite app_nil_r. }
  { eapply srcs_mono; [apply frees_label|]. apply srcs_leave; [done|]. apply HE. }
  cbn [app headCont] in *. rewrite app_nil_r in *. exists K', (others (length cx) X). split.
  { pose proof HE as ([Hcp _] & _). cbn in Hcp. rewrite <- Hcp in HL. destruct cs1. cbn in HL. by rewrite HL. }
  intros y ([|fuel] & labels & Hlab & ->) P tg HLX Htg; [apply goesS_out|].
  destruct (HP P tg HLX Htg) as (tg' & Htg' & HB & _ & HTG & _ & HLb & _). rewrite Nat.add_0_r in HLb.
  eapply goesS_ext; [intros g; by apply exec_labelled|]. eapply (goesS_label P tg tg'); [done|done|exact HB|].
  rewrite Hlen. apply (HS _); [|exact HLb|done]. exists fuel, (l :: labels). split; [by apply labels_cons|done].
Qed.

(** *** The try statement *)

Lemma scan_shape cx bs i l last :
  Matches cx bs → scanStatements bs i l last = scanStatements (toBlock <$> cx) i l last.
Proof.
  intros HM. revert i last. induction l as [|s l IH]; intros i last; [done|]. cbn. destruct s; auto.
  by rewrite (findBreakBlock_shape cx _ _ _ HM).
Qed.

(** A block found by scanStatements is that of a branch statement of the list. *)
Lemma scan_branch bs i l last lp bb :
  scanStatements bs i l last = Some (lp, bb) → is_Some bb → ∃ ib lbl, SBranch ib lbl ∈ l ∧ findBreakBlock lbl ib bs = Some bb.
Proof.
  intros Hs [h ->]. revert i last Hs. induction l as [|s l IH]; intros i last Hs; [done|].
  assert ((∃ ib lbl, s = SBranch ib lbl) ∨ ∀ ib lbl, s ≠ SBranch ib lbl) as [(ib & lbl & ->)|Hn]
    by (destruct s; first [by right|left; eauto]).
  - cbn in Hs. apply bind_Some in Hs as (r & Hr & [= <- ->]). exists ib, lbl. split; [left|done].
  - assert (scanStatements bs (S i) l (if isEmptyResult s then last else Some i) = Some (lp, Some h)) as Hs'.
    { destruct s as [| | | | | | |ib lbl| | | |]; try exact Hs. by destruct (Hn ib lbl). }
    destruct (IH _ _ Hs') as (ib & lbl & Hin & Hf). exists ib, lbl. split; [by right|done].
Qed.

(** Statements with a branch among them do not complete normally. *)
Lemma execList_branch fuel l V ib lbl g c v g' :
  SBranch ib lbl ∈ l → execList (exec strict fuel []) l V g = Some ((c, v), g') → c ≠ Normal.
Proof.
  revert V g. induction l as [|s l IH]; intros V g Hin Hy; [by apply not_elem_of_nil in Hin|].
  cbn in Hy. unfold withStmt in Hy. destruct (exec strict fuel [] s g) as [[[c1 v1] g1]|] eqn:E; [|done]. cbn in Hy.
  assert (c1 = Normal ∨ c1 ≠ Normal) as [->|Hc] by (destruct c1; auto).
  - apply elem_of_cons in Hin as [<-|Hin]; [by apply exec_branch in E|]. by eapply IH.
  - destruct c1; [done|..]; by injection Hy as <- <- <-.
Qed.

Section try.
Context (cx : list frame) (bb : option nat).
#[local] Abbreviation f := (tryF bb false).

Definition ListOK (cx : list frame) (l : list stmt) : Prop := Forall (StmtOK strict cx) l ∧ deadTails cx l.
Definition ListOKO (cx : list frame) (l : option (list stmt)) : Prop := match l with Some l => ListOK cx l | None => True end.
Definition freesL (l : option (list stmt)) : list (bool * option string) :=
  match l with Some l => flat_map frees l | None => [] end.
Definition listY (fuel : nat) (l : list stmt) : Y := execList (exec strict fuel []) l None.

Lemma listOK_sim cx' l nr cs cs' :
  ListOK cx' l → compileStatements (compileStatement strict g0) l nr cs = Some cs' → Matches cx' (blocks cs) →
  ∃ K X, Emitted cx' (flat_map frees l) cs cs' K X ∧ ∀ fuel, SimS cx' (len cs) K X (listY fuel l).
Proof.
  intros [HF Hd] Hc HM. destruct (compileStatements_ok strict cx' l nr HF Hd cs cs' Hc HM) as (K & X & HE & HS).
  exists K, X. split; [done|]. intros fuel. apply HS. by exists fuel, None.
Qed.

(** The catch block, with the jump over it. *)
Definition compileCatch (catch : option (list stmt)) (nr : bool) (lbl : nat) (cs : compiler) : option (Z * compiler) :=
  match catch with
  | Some catch =>
      let lbl2 := len cs in
      let cs := onCode emitNil cs in
      let catchOffset := off (len cs) lbl in
      cs ← compileStatements (compileStatement strict g0) catch nr (emitS [pop] cs);
      Some (catchOffset, onCode (patch lbl2 (jump (off (len cs) lbl2))) cs)
  | None => Some (0, cs)
  end.

Definition catchPosOf (catch : option (list stmt)) (cs : compiler) : Z :=
  match catch with Some _ => Z.of_nat (len cs) + 1 | None => -1 end.

Lemma catch_ok catch nr lbl cs co cs' :
  ListOKO (f :: cx) catch → Matches (f :: cx) (blocks cs) → (lbl < len cs)%nat →
  compileCatch catch nr lbl cs = Some (co, cs') →
  (if 0 <? co then Z.of_nat lbl + co else -1) = catchPosOf catch cs ∧
  ∃ K X, Emitted (f :: cx) (freesL catch) cs cs' K X ∧
    ∀ fuel P tg, LoadedX P (len cs) K X tg → TgOK (f :: cx) tg →
      TryCatch P tg cx bb (catchPosOf catch cs) (Z.of_nat (len cs)) (Z.of_nat (len cs + length K)) (listY fuel <$> catch).
Proof.
  intros HL HM Hlbl Hc. destruct catch as [l|]; cbn [compileCatch] in Hc.
  2: { injection Hc as <- <-. split; [done|]. exists [], []. split; [split; [apply emits_refl|split; [apply holes_nil|apply srcs_nil]]|].
    intros fuel P tg _ _. split; [|done]. by rewrite Nat.add_0_r. }
  apply bind_Some in Hc as (cs1 & H1 & [= <- <-]). destruct (listOK_sim _ _ _ _ _ HL H1 HM) as (K & X & HE & HS).
  split.
  { cbn [catchPosOf]. unfold off. rewrite (proj2 (Z.ltb_lt 0 _)) by lens. lens. }
  set (j := jump (Z.of_nat (S (S (length K))))). exists ([Some j; Some pop] ++ K ++ []), X. split.
  - replace (onCode _ cs1) with (MkC (cp cs ++ [Some j; Some pop] ++ K ++ []) (blocks cs1)).
    { destruct cs. eapply emitted_between; [|exact HE]. lens. }
    pose proof HE as ([Hcp _] & _). unfold emitS, onCode, emit, emitNil, len in *. cbn [cp] in *. f_equal.
    rewrite Hcp, <- !app_assoc. cbn [app fmap list_fmap]. by rewrite patch_forward, app_nil_r.
  - intros fuel P tg HLX Htg. apply loadedX_between in HLX as (HLj & HLX & _).
    apply loaded_cons in HLj as [HLj [HLp _]%loaded_cons]. cbn [fmap option_fmap option_map TryCatch catchPosOf].
    split; [lia|]. split; [|split; [done|]].
    + apply silent_jump. eapply fetch_at; [|exact HLj|]; lens.
    + eapply goesS_at; [| |apply HS; [|done]]; [lens|lens|]. eapply loadedX_at; [|exact HLX]. lens.
Qed.

(** The finally block; [clear] is whether the result is cleared before it. *)
Definition compileFinally (finally : option (list stmt)) (clear : bool) (lbl : nat) (cs : compiler) : option (Z * compiler) :=
  match finally with
  | Some finally =>
      let cs := emitS [enterFinally] cs in
      let finallyOffset := off (len cs) lbl in
      cs ← compileStatements (compileStatement strict g0) finally false (emitWhen clear clearResult cs);
      Some (finallyOffset, emitS [leaveFinally] cs)
  | None => Some (0, emitS [leaveTry] cs)
  end.

Lemma tgOK_fin tg : TgOK (f :: cx) tg → TgOK (tryF bb true :: cx) tg.
Proof.
  intros H f' outer Hs. apply suffix_cons_inv in Hs as [[= -> ->]|Hs].
  - by apply (H f cx).
  - apply (H f' outer). by apply suffix_cons_r.
Qed.

Lemma matches_fin bs : Matches (f :: cx) bs → Matches (tryF bb true :: cx) bs.
Proof. intros H. inversion H; subst. by constructor. Qed.

Lemma tryTail_at P tg tg' M fp e e' F : e' = e → TryTail P tg tg' cx bb M fp e F → TryTail P tg tg' cx bb M fp e' F.
Proof. by intros ->. Qed.

Lemma finally_ok finally clear lbl cs fo cs' :
  ListOKO (tryF bb true :: cx) finally → Matches (f :: cx) (blocks cs) → (lbl < len cs)%nat →
  (is_Some bb → match finally with Some l => ∃ ib lbl, SBranch ib lbl ∈ l | None => False end) →
  compileFinally finally clear lbl cs = Some (fo, cs') →
  (if 0 <? fo then Z.of_nat lbl + fo else -1) = catchPosOf finally cs ∧
  ∃ K X, Emitted (f :: cx) (freesL finally) cs cs' K X ∧
    ∀ fuel P tg tg', (∀ h ib, (h < length cx)%nat → tg' h ib = tg h ib) → LoadedX P (len cs) K X tg' → TgOK (f :: cx) tg' →
      TryTail P tg tg' cx bb (Z.of_nat (len cs)) (catchPosOf finally cs) (Z.of_nat (len cs + length K)) (listY fuel <$> finally).
Proof.
  intros HL HM Hlbl Hbb Hc. destruct finally as [l|]; cbn [compileFinally] in Hc.
  - apply bind_Some in Hc as (cs1 & H1 & [= <- <-]). rewrite emitWhen_clr in H1.
    destruct (listOK_sim (tryF bb true :: cx) _ _ _ _ HL H1) as (K & X & HE & HS); [by apply matches_fin|].
    split; [cbn [catchPosOf]; unfold off; rewrite (proj2 (Z.ltb_lt 0 _)) by lens; lens|].
    exists (([Some enterFinally] ++ clr clear) ++ K ++ [Some leaveFinally]), X. split.
    + replace (emitS [leaveFinally] cs1) with (MkC (cp cs ++ ([Some enterFinally] ++ clr clear) ++ K ++ [Some leaveFinally]) (blocks cs1)).
      { destruct cs. eapply (emitted_between (f :: cx)); [|exact HE]. lens. }
      pose proof HE as ([Hcp _] & _). unfold emitS, onCode, emit in *. cbn [cp blocks] in *. f_equal.
      by rewrite Hcp, <- !app_assoc.
    + intros fuel P tg tg' Htg HLX HTG. apply loadedX_between in HLX as ([HLe HLc]%loaded_app & HLX & HLl).
      apply loaded_cons in HLe as [HLe _], HLl as [HLl _]. cbn [fmap option_fmap option_map].
      set (Fe := Z.of_nat (len cs + length ([Some enterFinally] ++ clr clear) + length K)).
      apply (tryTail_at _ _ _ _ _ (Fe + 1)); [unfold Fe; lens|].
      intros cp stk refs tries c0 v0 rs g r0 c v g' HFr Hcp HEnds Hy Hp. cbn [catchPosOf] in HEnds.
      eapply (withFinally_run P tg tg' cx bb Htg (Z.of_nat (len cs) + 1) (Z.of_nat (len cs) + 1 + Z.of_nat (length (clr clear))) Fe);
        [apply silent_clr| | | |exact HLe|done|exact HFr|exact Hcp|exact HEnds|exact Hy|done].
      * eapply loaded_at; [|exact HLc]. lens.
      * eapply goesS_at; [| |apply HS; [|by apply tgOK_fin]]; [lens|unfold Fe; lens|]. eapply loadedX_at; [|exact HLX]. lens.
      * exact HLl.
      * intros (ib & lb & Hin)%Hbb g1 c1 v1 g1'. by eapply execList_branch.
  - injection Hc as <- <-. split; [done|]. exists [Some leaveTry], []. split; [apply emitted_code|].
    intros fuel P tg tg' Htg HLX%loadedX_plain HTG. apply loaded_cons in HLX as [HLe _].
    apply (tryTail_at _ _ _ _ _ (Z.of_nat (len cs) + 1)); [lens|].
    intros cp stk refs tries c0 v0 rs g r0 c v g' HFr Hcp HEnds Hy Hp.
    assert (bb = None) as Hb by (destruct bb; [by destruct Hbb|done]).
    destruct (noFinally_run P tg tg' cx bb Htg _ _ _ _ _ _ _ _ _ _ _ _ _ HLe Hb Hcp HEnds Hy) as [-> H]. by split.
Qed.
End try.

Definition tryBlock (bb : option nat) : block := MkBlock blockTry "" 0 [] [] bb false.

(** The target that the finally block branches to. *)
Definition finallyTarget (cx : list frame) (finally : option (list stmt)) : option (option nat * option nat) :=
  match finally with Some l => scanStatements (toBlock <$> tryF None false :: cx) 0 l None | None => Some (None, None) end.

Lemma compileTry_inv cx body catch finally nr cs cs' :
  Matches cx (blocks cs) → compileStatement strict g0 (STry body catch finally) nr cs = Some cs' →
  ∃ lp bb nrb clear cs1 cs2 cs3 co fo, finallyTarget cx finally = Some (lp, bb) ∧
    compileStatements (compileStatement strict g0) body nrb (MkC (cp cs ++ [None] ++ clr nr) (tryBlock bb :: blocks cs)) = Some cs1 ∧
    compileCatch catch nrb (len cs) cs1 = Some (co, cs2) ∧
    compileFinally finally clear (len cs) cs2 = Some (fo, cs3) ∧ cs' = leaveBlock (onCode (patch (len cs) (try co fo)) cs3).
Proof.
  intros HM Hc. cbn [compileStatement] in Hc. unfold compileTry in Hc. apply bind_Some in Hc as ([lp bb] & Hs & Hc).
  rewrite emitWhen_clr in Hc. cbn [newBlock onHead onCode cp blocks setBreaking emitNil] in Hc.
  unfold emitNil in Hc. rewrite <- app_assoc in Hc.
  apply bind_Some in Hc as (cs1 & H1 & Hc). apply bind_Some in Hc as ([co cs2] & H2 & Hc).
  apply bind_Some in Hc as ([fo cs3] & H3 & [= <-]).
  exists lp, bb. eexists _, _, cs1, cs2, cs3, co, fo. split; [|split; [exact H1|split; [|split; [|done]]]].
  - destruct finally as [l|]; [|done]. cbn [finallyTarget]. rewrite <- Hs. symmetry. apply scan_shape. by constructor.
  - by destruct catch.
  - destruct finally; [|done]. exact H3.
Qed.

(** The exits of a try statement; all leave for the target of its finally block
    when that branches away. *)
Lemma srcs_try cx bb lp finally fs X :
  finallyTarget cx finally = Some (lp, bb) → (∀ x, x ∈ freesL finally → x ∈ fs) → Srcs (tryF bb false :: cx) fs X →
  Srcs cx fs (others (length cx) X).
Proof.
  intros Ht Hfs HS. destruct bb as [h|].
  - intros e [Hne He]%list_elem_of_filter. destruct (HS e He) as (ib & l & _ & Hf).
    apply (find_cons_some (tryF (Some h) false)) with (bb := h) in Hf; [|done].
    destruct finally as [fl|]; [|done]. apply scan_branch in Ht as (ib' & l' & Hin & Hf'); [|done].
    apply (find_cons_none (tryF None false)) in Hf' as [[-> _]|[Hf' _]]; [congruence| |done].
    exists ib', l'. split; [|by rewrite Hf', Hf]. apply Hfs. cbn. apply list_elem_of_In, in_flat_map.
    exists (SBranch ib' l'). split; [by apply list_elem_of_In|by left].
  - eapply srcs_mono; [|by apply (srcs_leave (tryF None false)); [done|exact HS]]. intros x [_ Hx]%list_elem_of_filter. done.
Qed.

(** The three blocks of a try statement, one after the other. *)
Lemma tryBlocks_ok cx body catch finally lp bb nr nrb clear cs cs1 cs2 cs3 co fo :
  finallyTarget cx finally = Some (lp, bb) → Matches cx (blocks cs) →
  ListOK (tryF bb false :: cx) body → ListOKO (tryF bb false :: cx) catch → ListOKO (tryF bb true :: cx) finally →
  compileStatements (compileStatement strict g0) body nrb (MkC (cp cs ++ [None] ++ clr nr) (tryBlock bb :: blocks cs)) = Some cs1 →
  compileCatch catch nrb (len cs) cs1 = Some (co, cs2) → compileFinally finally clear (len cs) cs2 = Some (fo, cs3) →
  ∃ K X, Emitted (tryF bb false :: cx) (frees (STry body catch finally))
      (MkC (cp cs ++ [None] ++ clr nr) (tryBlock bb :: blocks cs)) cs3 K X ∧
    ∀ fuel P tg tg', (∀ h ib, (h < length cx)%nat → tg' h ib = tg h ib) →
      Loaded P (Z.of_nat (len cs)) ([Some (try co fo)] ++ clr nr) →
      LoadedX P (len cs + length ([Some (try co fo)] ++ clr nr)) K X tg' → TgOK (tryF bb false :: cx) tg' →
      GoesS P tg cx (Z.of_nat (len cs)) (Z.of_nat (len cs + length ([Some (try co fo)] ++ clr nr) + length K))
        (execTry (listY fuel body) (listY fuel <$> catch) (listY fuel <$> finally)).
Proof.
  intros Ht HM Hb Hca Hfi H1 H2 H3. set (fs := frees (STry body catch finally)).
  assert (Matches (tryF bb false :: cx) (tryBlock bb :: blocks cs)) as HM0 by (by constructor).
  destruct (listOK_sim _ _ _ _ _ Hb H1 HM0) as (Kb & Xb & HEb & HSb).
  pose proof (emitted_matches _ _ _ _ _ _ HEb HM0) as HM1. pose proof (emitted_len _ _ _ _ _ _ HEb) as Hl1.
  destruct (catch_ok cx bb catch nrb (len cs) cs1 co cs2 Hca HM1) as [Hco (Kc & Xc & HEc & HSc)]; [rewrite Hl1; lens|done|].
  pose proof (emitted_matches _ _ _ _ _ _ HEc HM1) as HM2. pose proof (emitted_len _ _ _ _ _ _ HEc) as Hl2.
  destruct (finally_ok cx bb finally clear (len cs) cs2 fo cs3 Hfi HM2) as [Hfo (Kf & Xf & HEf & HSf)];
    [rewrite Hl2, Hl1; lens| |done|].
  { intros Hbb. destruct finally as [l|]; [|injection Ht as <- <-; by destruct Hbb].
    apply scan_branch in Ht as (ib & lb & Hin & _); [by exists ib, lb|done]. }
  exists (Kb ++ Kc ++ Kf), (Xb ++ Xc ++ Xf). split.
  { eapply emitted_trans; [|eapply emitted_trans]; (eapply emitted_mono; [|eassumption]); intros x Hx; unfold fs; cbn [frees];
      rewrite !elem_of_app; auto. }
  intros fuel P tg tg' Htg [[HL0 _]%loaded_cons HLc]%loaded_app [HLb [HLc' HLf]%loadedX_app]%loadedX_app HTG.
  eapply (goesS_try P tg tg' cx bb (Z.of_nat (len cs)) co fo _ _ _ _ _ _ _ _ _ HL0 Hco Hfo).
  - apply silent_clr. exact HLc.
  - eapply goesS_at; [| |apply HSb; [|done]]; [lens|reflexivity|]. eapply loadedX_at; [|exact HLb]. lens.
  - rewrite <- Hl1. apply HSc; [|done]. eapply loadedX_at; [|exact HLc']. rewrite Hl1. lens.
  - rewrite <- Hl2. eapply tryTail_at; [|apply (HSf fuel P tg tg' Htg); [|done]].
    + rewrite Hl2, Hl1. lens.
    + eapply loadedX_at; [|exact HLf]. rewrite Hl2, Hl1. lens.
Qed.

Lemma try_ok cx body catch finally lp bb :
  finallyTarget cx finally = Some (lp, bb) →
  ListOK (tryF bb false :: cx) body → ListOKO (tryF bb false :: cx) catch → ListOKO (tryF bb true :: cx) finally →
  StmtOK strict cx (STry body catch finally).
Proof.
  intros Ht Hb Hca Hfi nr cs cs' Hc HM.
  destruct (compileTry_inv _ _ _ _ _ _ _ HM Hc) as (lp' & bb' & nrb & clear & cs1 & cs2 & cs3 & co & fo & Ht' & H1 & H2 & H3 & ->).
  rewrite Ht in Ht'. injection Ht' as <- <-. set (fs := frees (STry body catch finally)).
  destruct (tryBlocks_ok _ _ _ _ _ _ _ _ _ _ _ _ _ _ _ Ht HM Hb Hca Hfi H1 H2 H3) as (K & X & HE & HS).
  destruct (block_ok cx (tryF bb false) (tryBlock bb) fs fs cs (cp cs ++ [None] ++ clr nr) cs3 ([Some (try co fo)] ++ clr nr)
    K X [] None) as (K' & cs' & HL & HE' & Hlen & HP); try done.
  { lens. }
  { eapply srcs_try; [done| |apply HE]. intros x Hx. unfold fs. cbn [frees]. rewrite !elem_of_app. auto. }
  exists K', (others (length cx) X). split.
  { pose proof HE as ([Hcp _] & _). cbn [cp headCont] in *. rewrite app_nil_r in HL.
    replace (onCode _ cs3) with (MkC (cp cs ++ ([Some (try co fo)] ++ clr nr) ++ K) (blocks cs3)); [by rewrite HL|].
    unfold onCode. f_equal. rewrite Hcp, <- !app_assoc. cbn [app]. unfold len. by rewrite patch_hole. }
  intros y ([|fuel] & labels & Hlab & ->) P tg HLX Htg; [apply goesS_out|].
  destruct (HP P tg HLX Htg) as (tg' & Htg' & HB & _ & HTG & HL0 & HLb & _).
  eapply goesS_at; [reflexivity| |by apply (HS fuel P tg tg')]. rewrite Hlen. lens.
Qed.
End statements.
End ScriptCorrect.
