(* ===== verification/SwitchCorrect.v ===== *)
(** * Correctness of the switch statement

    The tests with the holes for the jumps to the clauses, the clauses one after
    the other, which patch those holes, and the statement as a whole. *)

From S2P Require Import Prelude Vm Compiler Semantics ExprCorrect Jumps StmtCorrect CompilerCorrect ScriptCorrect.
From stdpp Require Import strings.
Import Vm Compiler Semantics ExprCorrect Jumps StmtCorrect CompilerCorrect ScriptCorrect.
Open Scope Z_scope.

Module SwitchCorrect.

(** Arithmetic on positions. *)
#[local] Ltac lens :=
  unfold emitS, onCode, emitNil, emit, len in *; cbn [cp blocks] in *;
  repeat (rewrite ?length_app, ?length_fmap; cbn [length]); lia.

Section switch.
Context {rt : Runtime} {g0 : G} {laws : RuntimeLaws g0} (strict : bool).

Local Abbreviation clauses := (list (option expr * list stmt)).

(** *** The tests *)

Definition okTests (cases : clauses) : Prop := Forall (λ c, okO c.1) cases.

(** The code of a test, with the hole for the jump to its clause. *)
Definition testPart (Kt : code) : code :=
  [Some dup] ++ Kt ++ [Some (binaryI OStrictEq); Some (jneP 3); Some pop; None].

(** One test: it continues at the hole, at the next test or with an exception. *)
Lemma test_run P a Kt t d g r g' stk refs tries rs :
  Computes Kt [] [] (eval strict true t) (out true) noRef → Loaded P a (testPart Kt) → pristine g →
  bind (eval strict true t) (λ v, bind (call (binary OStrictEq d v)) (λ b, ret (ToBoolean b))) g = Some (r, g') →
  FramesOK tries stk refs →
  ∃ n, Reach P (Running (MkVm a (d :: stk) refs tries rs g))
    (match r with
     | Ok true => Running (MkVm (a + Z.of_nat (length Kt) + 4) stk refs tries rs g')
     | Ok false => Running (MkVm (a + Z.of_nat (length Kt) + 5) (d :: stk) refs tries rs g')
     | Throw e => handleThrow e (MkVm 0 stk refs tries rs g')
     end) n.
Proof.
  intros HK [Hd [HLt HL]%loaded_app]%loaded_cons Hp Hx HF.
  apply loaded_cons in HL as [He [Hj [Hpop _]%loaded_cons]%loaded_cons].
  unfold bind in Hx. destruct (eval strict true t g) as [[r1 g1]|] eqn:E; [|done].
  destruct (HK P (a + 1) HLt g r1 g1 E Hp (d :: d :: stk) refs tries rs) as (n & _ & R); [by do 2 apply frames_push1|].
  assert (Reach P (Running (MkVm a (d :: stk) refs tries rs g))
    (landing (a + 1) (length Kt) (out true) noRef (d :: d :: stk) refs tries rs r1 g1) (S n)) as R1.
  { eapply reach_cons; [done|]. exact R. }
  destruct r1 as [v|e]; cbn [landing out app noRef] in R1.
  2: { injection Hx as <- <-. exists (S n). by rewrite !handleThrow_push in R1 by (repeat apply frames_push1; done). }
  unfold call in Hx. destruct (binary OStrictEq d v g1) as [[b|e] g2] eqn:Eb; injection Hx as <- <-.
  - exists (S n + (2 + if ToBoolean b then 1 else 0))%nat. eapply reach_trans; [exact R1|].
    eapply reach_cons; [done|]. cbn. unfold andThen. rewrite Eb. cbn. eapply reach_cons; [exact Hj|]. cbn.
    destruct (ToBoolean b); cbn.
    + eapply reach_cons; [exact Hpop|]. cbn. match goal with |- Reach _ (Running (MkVm ?p _ _ _ _ _)) _ _ =>
        replace p with (a + Z.of_nat (length Kt) + 4) by lia end. apply reach_refl.
    + match goal with |- Reach _ (Running (MkVm ?p _ _ _ _ _)) _ _ =>
        replace p with (a + Z.of_nat (length Kt) + 5) by lia end. apply reach_refl.
  - exists (S n + 1)%nat. eapply reach_trans; [exact R1|]. eapply reach_cons; [done|]. cbn. unfold andThen. rewrite Eb. cbn.
    unfold setG. cbn. rewrite !handleThrow_push by (repeat apply frames_push1; done). apply reach_refl.
Qed.

(** The holes are positions of [K], which starts at [base], all different. *)
Definition JumpsOK (base : nat) (K : code) (jumps : list (option nat)) : Prop :=
  (∀ i j, jumps !! i = Some (Some j) → (base ≤ j)%nat ∧ K !! (j - base)%nat = Some None) ∧
  (∀ i i' j, jumps !! i = Some (Some j) → jumps !! i' = Some (Some j) → i = i').

(** The holes are jumps to the targets [tgt] of the clauses. *)
Definition JumpsTo (P : code) (jumps : list (option nat)) (tgt : nat → Z) : Prop :=
  ∀ i j, jumps !! i = Some (Some j) → fetch P (Z.of_nat j) = Some (Some (jump (tgt i - Z.of_nat j))).

(** The selection of a clause: its statements, or the end of the tests with the
    discriminant still on the stack. *)
Definition TestsRun (P : code) (a b : Z) (cases : clauses) (tgt : nat → Z) : Prop :=
  ∀ d g r g', selectCase strict d cases g = Some (r, g') → pristine g →
  pristine g' ∧ ∀ stk refs tries rs, FramesOK tries stk refs →
  match r with
  | Ok (Some here) => ∃ i n, here = drop i cases ∧ (i < length cases)%nat ∧
      Reach P (Running (MkVm a (d :: stk) refs tries rs g)) (Running (MkVm (tgt i) stk refs tries rs g')) n
  | Ok None => ∃ n, Reach P (Running (MkVm a (d :: stk) refs tries rs g)) (Running (MkVm b (d :: stk) refs tries rs g')) n
  | Throw e => ∃ n, Reach P (Running (MkVm a (d :: stk) refs tries rs g)) (handleThrow e (MkVm 0 stk refs tries rs g')) n
  end.

Lemma testsRun_skip P a b s l tgt : TestsRun P a b l (λ i, tgt (S i)) → TestsRun P a b ((None, s) :: l) tgt.
Proof.
  intros HR d g r g' Hs Hp. destruct (HR d g r g' Hs Hp) as [Hp' H]. split; [done|]. intros stk refs tries rs HF.
  specialize (H stk refs tries rs HF). destruct r as [[here|]|e]; [|done..].
  destruct H as (i & n & Hh & Hi & R). exists (S i), n. split; [done|]. split; [cbn; lia|done].
Qed.

Lemma selectCase_cons d t s l g :
  selectCase strict d ((Some t, s) :: l) g =
  bind (bind (eval strict true t) (λ v, bind (call (binary OStrictEq d v)) (λ b, ret (ToBoolean b))))
    (λ b, if b : bool then ret (Some ((Some t, s) :: l)) else selectCase strict d l) g.
Proof.
  cbn [selectCase]. unfold bind, call, ret. destruct (eval strict true t g) as [[[v|e] g1]|]; [|done..].
  by destruct (binary OStrictEq d v g1) as [[b|e] g2].
Qed.

Lemma testsRun_cons P a b t s l tgt Kt :
  okE t → Computes Kt [] [] (eval strict true t) (out true) noRef → Loaded P a (testPart Kt) →
  fetch P (a + Z.of_nat (length Kt) + 4) = Some (Some (jump (tgt O - (a + Z.of_nat (length Kt) + 4)))) →
  TestsRun P (a + Z.of_nat (length Kt) + 5) b l (λ i, tgt (S i)) → TestsRun P a b ((Some t, s) :: l) tgt.
Proof.
  intros Hok HK HL Hj HR d g r g' Hs Hp. rewrite selectCase_cons in Hs. unfold bind at 1 in Hs.
  destruct (bind (eval strict true t) _ g) as [[r1 g1]|] eqn:E; [|done].
  assert (pristine g1) as Hp1.
  { eapply (keeps_bind (eval strict true t)); [by apply eval_keeps| |exact E|done]. intros g2 v g3 _.
    apply keeps_bind; [apply keeps_call; intros; by apply binary_pristine|intros; apply keeps_ret]. }
  pose proof (λ stk refs tries rs, test_run P a Kt t d g r1 g1 stk refs tries rs HK HL Hp E) as HT.
  destruct r1 as [[]|e].
  - injection Hs as <- <-. split; [done|]. intros stk refs tries rs HF. destruct (HT stk refs tries rs HF) as (n & R).
    exists O, (n + 1)%nat. split; [done|]. split; [cbn; lia|]. eapply reach_trans; [exact R|]. eapply reach_cons; [exact Hj|].
    cbn. replace (a + _ + 4 + _) with (tgt O) by lia. apply reach_refl.
  - destruct (HR d g1 r g' Hs Hp1) as [Hp' H]. split; [done|]. intros stk refs tries rs HF.
    destruct (HT stk refs tries rs HF) as (n & R). specialize (H stk refs tries rs HF). destruct r as [[here|]|e].
    + destruct H as (i & n' & Hh & Hi & R'). exists (S i), (n + n')%nat. split; [done|]. split; [cbn; lia|].
      by eapply reach_trans.
    + destruct H as (n' & R'). exists (n + n')%nat. by eapply reach_trans.
    + destruct H as (n' & R'). exists (n + n')%nat. by eapply reach_trans.
  - injection Hs as <- <-. split; [done|]. intros stk refs tries rs HF. exact (HT stk refs tries rs HF).
Qed.

Lemma jumpsOK_cons base (A K : code) js j0 :
  (base ≤ j0)%nat → A !! (j0 - base)%nat = Some None → JumpsOK (base + length A) K js → JumpsOK base (A ++ K) (Some j0 :: js).
Proof.
  intros Hj HA [H1 H2]. pose proof (lookup_lt_Some _ _ _ HA) as Hlt.
  assert (∀ i j, js !! i = Some (Some j) → (base + length A ≤ j)%nat) as Hge by (intros i j Hi; by apply (H1 i j)).
  split.
  - intros [|i] j Hi; cbn in Hi; [injection Hi as <-; split; [done|by apply lookup_app_l_Some]|].
    destruct (H1 i j Hi) as [Hb HK]. split; [lia|]. rewrite lookup_app_r by lia.
    by replace (j - base - length A)%nat with (j - (base + length A))%nat by lia.
  - intros [|i] [|i'] j Hi Hi'; cbn in Hi, Hi'; [done|..].
    + injection Hi as <-. apply Hge in Hi'. lia.
    + injection Hi' as <-. apply Hge in Hi. lia.
    + f_equal. by eapply H2.
Qed.

Lemma testPart_length Kt : length (testPart Kt) = (length Kt + 5)%nat.
Proof. unfold testPart. rewrite !length_app. cbn. lia. Qed.

Lemma testPart_hole Kt : testPart Kt !! (length Kt + 4)%nat = Some None.
Proof.
  unfold testPart. rewrite app_assoc, lookup_app_r by (rewrite length_app; cbn; lia). rewrite length_app.
  by replace (_ - _)%nat with 3%nat by (cbn; lia).
Qed.

Lemma tests_ok cases cs jumps cs' :
  okTests cases → compileTests strict g0 cases cs = Some (jumps, cs') →
  ∃ K, cs' = MkC (cp cs ++ K) (blocks cs) ∧ length jumps = length cases ∧ JumpsOK (len cs) K jumps ∧
    (∀ d, defaultIdx cases = Some d → jumps !! d = Some None) ∧
    ∀ P tgt, Loaded P (Z.of_nat (len cs)) K → JumpsTo P jumps tgt →
      TestsRun P (Z.of_nat (len cs)) (Z.of_nat (len cs + length K)) cases tgt.
Proof.
  intros Hok. revert cs jumps cs'. induction Hok as [|[[t|] s] l Ht Hok IH]; intros cs jumps cs' Hc; cbn in Hc.
  - injection Hc as <- <-. exists []. split; [destruct cs; cbn; by rewrite app_nil_r|]. split; [done|]. split; [done|].
    split; [done|]. intros P tgt _ _ d g r g' [= <- <-] Hp. split; [done|]. intros stk refs tries rs HF. exists O.
    rewrite Nat.add_0_r. apply reach_refl.
  - apply bind_Some in Hc as (cs1 & H1 & Hc). apply bind_Some in H1 as (c1 & H1 & [= <-]).
    destruct (proj1 (expr_ok strict t Ht) false true _ _ H1) as (Kt & -> & HK).
    apply bind_Some in Hc as ([js cs2] & H2 & [= <- <-]).
    destruct (IH _ _ _ H2) as (K & -> & Hlen & HJ & Hd & HR).
    replace (length (emit [binaryI OStrictEq; jneP 3; pop] (emit [dup] (cp cs) ++ Kt)))
      with (len cs + (length Kt + 4))%nat by lens.
    replace (len (onCode emitNil _)) with (len cs + (length Kt + 5))%nat in HJ, HR by lens.
    exists (testPart Kt ++ K). split; [|split; [cbn; by rewrite Hlen|split; [|split]]].
    + f_equal. unfold testPart, emitS, onCode, emit, emitNil. cbn [cp blocks]. rewrite <- !app_assoc. done.
    + apply jumpsOK_cons; [lia| |].
      * replace (_ - _)%nat with (length Kt + 4)%nat by lia. apply testPart_hole.
      * by rewrite testPart_length.
    + intros d Hdef. cbn in Hdef. apply fmap_Some in Hdef as (d' & Hd' & ->). by apply Hd.
    + intros P tgt [HL1 HL2]%loaded_app HT. rewrite testPart_length in HL2.
      eapply testsRun_cons; [done|done|exact HL1| |].
      * specialize (HT O _ eq_refl). by replace (_ + _ + 4) with (Z.of_nat (len cs + (length Kt + 4))) by lia.
      * replace (_ + _ + 5) with (Z.of_nat (len cs + (length Kt + 5))) by lia. rewrite length_app, testPart_length.
        replace (len cs + (length Kt + 5 + length K))%nat with (len cs + (length Kt + 5) + length K)%nat by lia.
        apply HR; [eapply loaded_at; [|exact HL2]; lia|]. intros i j Hi. by apply (HT (S i)).
  - apply bind_Some in Hc as ([js cs2] & H2 & [= <- <-]). destruct (IH _ _ _ H2) as (K & -> & Hlen & HJ & Hd & HR).
    exists K. split; [done|]. split; [cbn; by rewrite Hlen|]. split; [|split].
    + split; [intros [|i] j Hi; [done|by eapply HJ]|]. intros [|i] [|i'] j Hi Hi'; try done. f_equal. by eapply HJ.
    + by intros d [= <-].
    + intros P tgt HL HT. apply testsRun_skip, HR; [done|]. intros i j Hi. by apply (HT (S i)).
Qed.

(** *** The clauses *)

Fixpoint patchAll (jumps : list (option nat)) (starts : list nat) (c : code) : code :=
  match jumps, starts with
  | Some j :: jumps, s :: starts => patchAll jumps starts (patch j (jump (off s j)) c)
  | None :: jumps, _ :: starts => patchAll jumps starts c
  | _, _ => c
  end.

Definition Below (jumps : list (option nat)) (n : nat) : Prop := ∀ i j, jumps !! i = Some (Some j) → (j < n)%nat.

Lemma below_cons o jumps n : Below (o :: jumps) n → Below jumps n.
Proof. intros H i j Hi. by apply (H (S i)). Qed.

Lemma patchAll_length jumps starts c : length (patchAll jumps starts c) = length c.
Proof.
  revert starts c. induction jumps as [|[j|] jumps IH]; intros [|s starts] c; cbn; try done.
  rewrite IH. apply length_insert.
Qed.

Lemma patchAll_app jumps starts (c K : code) :
  Below jumps (length c) → patchAll jumps starts (c ++ K) = patchAll jumps starts c ++ K.
Proof.
  revert starts c. induction jumps as [|[j|] jumps IH]; intros [|s starts] c HB; cbn; try done.
  - assert (j < length c)%nat by (by apply (HB O)).
    rewrite <- IH; [unfold patch; by rewrite insert_app_l|]. unfold patch. rewrite length_insert. by eapply below_cons.
  - apply IH. by eapply below_cons.
Qed.

(** The code after the patches: the holes of different clauses are different. *)
Lemma patchAll_other jumps starts (c : code) p :
  (∀ i, jumps !! i ≠ Some (Some p)) → patchAll jumps starts c !! p = c !! p.
Proof.
  revert starts c. induction jumps as [|[j|] jumps IH]; intros [|s starts] c Hp; cbn; try done.
  - rewrite IH; [|intros i; by apply (Hp (S i))]. unfold patch. apply list_lookup_insert_ne.
    intros ->. by apply (Hp O).
  - apply IH. intros i. by apply (Hp (S i)).
Qed.

Lemma patchAll_hole jumps starts (c : code) i j s :
  Below jumps (length c) → (∀ i i' j, jumps !! i = Some (Some j) → jumps !! i' = Some (Some j) → i = i') →
  jumps !! i = Some (Some j) → starts !! i = Some s → patchAll jumps starts c !! j = Some (Some (jump (off s j))).
Proof.
  revert starts c i. induction jumps as [|o jumps IH]; intros [|s0 starts] c i HB Hinj Hi Hs; try done.
  assert (∀ i i' j, jumps !! i = Some (Some j) → jumps !! i' = Some (Some j) → i = i') as Hinj'.
  { intros a b k Ha Hb. specialize (Hinj (S a) (S b) k Ha Hb). by injection Hinj. }
  destruct i as [|i]; cbn in Hi, Hs.
  - injection Hi as ->. injection Hs as ->. cbn. rewrite patchAll_other.
    + unfold patch. apply list_lookup_insert_eq. by apply (HB O).
    + intros i Hi. by specialize (Hinj O (S i) j eq_refl Hi).
  - destruct o as [k|]; cbn; eapply IH; try done.
    + intros a b Ha. unfold patch. rewrite length_insert. by apply (HB (S a)).
    + by eapply below_cons.
Qed.

(** The clauses run from each of their starts to the end. *)
Definition BodiesRun (P : code) (tg : nat → bool → option Z) (cx : list frame) (E : Z) (cases : clauses) (starts : list nat) : Prop :=
  ∀ fuel i s V, starts !! i = Some s → GoesS P tg cx (Z.of_nat s) E (execCases (exec strict fuel []) (drop i cases) V).

Lemma goesS_cases P tg cx a b d fuel t l cases V :
  GoesS P tg cx a b (listY strict fuel l) → (∀ V, GoesS P tg cx b d (execCases (exec strict fuel []) cases V)) →
  GoesS P tg cx a d (execCases (exec strict fuel []) ((t, l) :: cases) V).
Proof.
  intros Hl Hc. cbn [execCases]. eapply goesS_seq; [exact Hl|intros v; apply Hc|]. intros c v Hn. eexists. by destruct c.
Qed.

Lemma bodies_ok cx nr cases jumps cs cs' :
  Forall (λ c, ListOK strict cx c.2) cases → Matches cx (blocks cs) → length jumps = length cases → Below jumps (len cs) →
  compileBodies (compileStatement strict g0) nr cases jumps cs = Some cs' →
  ∃ K X starts, length starts = length cases ∧ (cases ≠ [] → starts !! O = Some (len cs)) ∧
    Emitted cx (flat_map (λ c, flat_map frees c.2) cases) (MkC (patchAll jumps starts (cp cs)) (blocks cs)) cs' K X ∧
    ∀ P tg, LoadedX P (len cs) K X tg → TgOK cx tg →
      BodiesRun P tg cx (Z.of_nat (len cs + length K)) cases starts ∧
      ∀ fuel V, GoesS P tg cx (Z.of_nat (len cs)) (Z.of_nat (len cs + length K)) (execCases (exec strict fuel []) cases V).
Proof.
  intros HF. revert jumps cs. induction HF as [|[t l] cases Hl HF IH]; intros jumps cs HM Hlen HB Hc.
  { destruct jumps; [|done]. injection Hc as <-. exists [], [], []. split; [done|]. split; [done|]. split.
    - destruct cs. split; [apply emits_refl|split; [apply holes_nil|apply srcs_nil]].
    - intros P tg _ _. split; [done|]. intros fuel V. rewrite Nat.add_0_r. apply goesS_complete. }
  destruct jumps as [|o jumps]; [done|]. cbn in Hc.
  set (cs1 := match o with Some j => onCode (patch j (jump (off (len cs) j))) cs | None => cs end) in *.
  assert (len cs1 = len cs ∧ blocks cs1 = blocks cs) as [Hl1 Hb1].
  { unfold cs1. destruct o; [|done]. unfold len, onCode, patch. cbn. by rewrite length_insert. }
  apply bind_Some in Hc as (cs2 & H2 & Hc).
  destruct (listOK_sim strict _ _ _ _ _ Hl H2) as (K1 & X1 & HE1 & HS1); [by rewrite Hb1|].
  pose proof (emitted_len _ _ _ _ _ _ HE1) as Hl2. pose proof HE1 as ([Hcp2 _] & _).
  destruct (IH jumps cs2) as (K2 & X2 & starts & Hls & _ & HE2 & HR); [|by injection Hlen|..]; [| |done|].
  { eapply emitted_matches; [exact HE1|]. by rewrite Hb1. }
  { intros i j Hi. rewrite Hl2, Hl1. specialize (HB (S i) j Hi). lia. }
  exists (K1 ++ K2), (X1 ++ X2), (len cs :: starts). split; [cbn; by rewrite Hls|]. split; [done|].
  assert (patchAll (o :: jumps) (len cs :: starts) (cp cs) = patchAll jumps starts (cp cs1)) as -> by (by destruct o).
  rewrite Hcp2, patchAll_app in HE2 by (intros i j Hi; specialize (HB (S i) j Hi); unfold len in *; lia). split.
  - eapply emitted_trans; [|eapply emitted_mono; [|exact HE2]].
    + destruct cs1 as [c1 bs1]. cbn in Hb1. subst bs1. eapply emitted_prefix; [symmetry; apply patchAll_length|].
      eapply emitted_mono; [|exact HE1]. intros x Hx. cbn. apply elem_of_app. by left.
    + intros x Hx. cbn. apply elem_of_app. by right.
  - intros P tg [HL1 HL2]%loadedX_app Htg. rewrite length_app, Nat.add_assoc.
    destruct (HR P tg) as [HR1 HR2]; [by rewrite Hl2, Hl1|done|]. rewrite Hl2, Hl1 in HR1, HR2.
    assert (∀ fuel V, GoesS P tg cx (Z.of_nat (len cs)) (Z.of_nat (len cs + length K1 + length K2))
      (execCases (exec strict fuel []) ((t, l) :: cases) V)) as HR0.
    { intros fuel V. eapply goesS_cases; [rewrite <- Hl1; apply HS1; [by rewrite Hl1|done]|]. intros V'.
      rewrite Hl1. apply HR2. }
    split; [|done]. intros fuel [|i] s V Hs; [injection Hs as <-; apply HR0|by apply HR1].
Qed.

(** *** The statement *)

Lemma patchAll_snoc jumps starts j e (c : code) :
  length jumps = length starts →
  patchAll (jumps ++ [Some j]) (starts ++ [e]) c = patch j (jump (off e j)) (patchAll jumps starts c).
Proof.
  revert starts c. induction jumps as [|[k|] jumps IH]; intros [|s starts] c Hl; try done; cbn; apply IH; by injection Hl.
Qed.

(** The patches stay within the region of the tests and fill its holes. *)
Lemma patched_region (c0 R : code) jumps starts :
  JumpsOK (length c0) R jumps → length jumps = length starts →
  ∃ R', patchAll jumps starts (c0 ++ R) = c0 ++ R' ∧ length R' = length R ∧
    ∀ P, Loaded P (Z.of_nat (length c0)) R' → Loaded P (Z.of_nat (length c0)) R ∧
      ∀ i j s, jumps !! i = Some (Some j) → starts !! i = Some s →
        fetch P (Z.of_nat j) = Some (Some (jump (Z.of_nat s - Z.of_nat j))).
Proof.
  intros [HJ Hinj] Hl. set (c := patchAll jumps starts (c0 ++ R)).
  assert (Below jumps (length (c0 ++ R))) as HB.
  { intros i j Hi. destruct (HJ i j Hi) as [? Hlt%lookup_lt_Some]. rewrite length_app. lia. }
  assert (length c = length (c0 ++ R)) as Hlc by apply patchAll_length.
  exists (drop (length c0) c). split; [|split].
  - rewrite <- (take_drop (length c0) c) at 1. f_equal. apply list_eq. intros p.
    destruct (decide (p < length c0)%nat) as [Hp|Hp].
    + rewrite lookup_take_lt by done. unfold c. rewrite patchAll_other; [by rewrite lookup_app_l|].
      intros i Hi. apply HJ in Hi as [? _]. lia.
    + rewrite lookup_take_ge by lia. symmetry. apply lookup_ge_None. lia.
  - rewrite length_drop, Hlc, length_app. lia.
  - intros P HL. split.
    + intros p ins Hp. apply HL. rewrite lookup_drop. unfold c. rewrite patchAll_other.
      * rewrite lookup_app_r by lia. by replace (length c0 + p - length c0)%nat with p by lia.
      * intros i Hi. destruct (HJ _ _ Hi) as [_ HN]. replace (length c0 + p - length c0)%nat with p in HN by lia. congruence.
    + intros i j s Hi Hs. pose proof (patchAll_hole jumps starts (c0 ++ R) i j s HB Hinj Hi Hs) as Hh.
      destruct (HJ i j Hi) as [Hb _]. replace (Z.of_nat j) with (Z.of_nat (length c0) + Z.of_nat (j - length c0)) at 1 by lia.
      apply HL. rewrite lookup_drop. by replace (length c0 + (j - length c0))%nat with j by lia.
Qed.

(** The clauses that the discriminant selects. *)
Definition selX (disc : expr) (cases : clauses) : X clauses :=
  bind (eval strict true disc) (λ d, bind (selectCase strict d cases) (λ s, ret (default (defaultCases cases) s))).

Lemma goes_select P a b0 b1 Kd disc cases tgt def nr (to : clauses → Z) :
  okE disc → Computes Kd [] [] (eval strict true disc) (out true) noRef → Loaded P a (Kd ++ clr nr) →
  b0 = a + Z.of_nat (length Kd) + Z.of_nat (length (clr nr)) → TestsRun P b0 b1 cases tgt →
  fetch P b1 = Some (Some pop) → Silent P (b1 + 1) def →
  (∀ i, (i < length cases)%nat → to (drop i cases) = tgt i) → to (defaultCases cases) = def →
  Goes P a (selX disc cases) to.
Proof.
  intros Hok HK [HLd HLc]%loaded_app -> HT Hpop HS Hto Hdef g r g' Hx Hp. unfold selX, bind in Hx.
  destruct (eval strict true disc g) as [[r1 g1]|] eqn:E; [|done].
  assert (pristine g1) as Hp1 by (by eapply eval_keeps).
  pose proof (λ stk refs tries rs, HK P a HLd g r1 g1 E Hp stk refs tries rs) as HR.
  destruct r1 as [d|e].
  2: { injection Hx as <- <-. split; [done|]. intros stk refs tries rs HF.
       destruct (HR stk refs tries rs HF) as (n & _ & R). by exists n, rs. }
  destruct (selectCase strict d cases g1) as [[r2 g2]|] eqn:E2; [|done].
  destruct (HT d g1 r2 g2 E2 Hp1) as [Hp2 HT2]. destruct r2 as [s|e]; injection Hx as <- <-; (split; [done|]);
    intros stk refs tries rs HF; destruct (HR stk refs tries rs HF) as (n1 & _ & R1);
    destruct (silent_clr P _ nr HLc (d :: stk) refs tries rs g1) as (n2 & rs2 & R2); specialize (HT2 stk refs tries rs2 HF);
    pose proof (reach_trans _ _ _ _ _ _ R1 R2) as R; cbn [landing out app noRef] in R.
  - destruct s as [here|].
    + destruct HT2 as (i & n3 & -> & Hi & R3). exists (n1 + n2 + n3)%nat, rs2. cbn. rewrite Hto by done. by eapply reach_trans.
    + destruct HT2 as (n3 & R3). destruct (HS stk refs tries rs2 g2) as (n4 & rs4 & R4).
      exists (n1 + n2 + (n3 + S n4))%nat, rs4. cbn. rewrite Hdef. eapply reach_trans; [exact R|]. eapply reach_trans; [exact R3|].
      eapply reach_cons; [exact Hpop|]. exact R4.
  - destruct HT2 as (n3 & R3). exists (n1 + n2 + n3)%nat, rs2. by eapply reach_trans.
Qed.

Lemma selectCase_drop d cases g here g' :
  selectCase strict d cases g = Some (Ok (Some here), g') → ∃ i, (i < length cases)%nat ∧ here = drop i cases.
Proof.
  revert g. induction cases as [|[[t|] s] l IH]; intros g Hs; [done|..].
  - rewrite selectCase_cons in Hs. unfold bind at 1 in Hs. destruct (bind (eval strict true t) _ g) as [[[[]|e] g1]|]; [..|done|done].
    + injection Hs as <- <-. exists O. split; [cbn; lia|done].
    + apply IH in Hs as (i & Hi & ->). exists (S i). split; [cbn; lia|done].
  - apply IH in Hs as (i & Hi & ->). exists (S i). split; [cbn; lia|done].
Qed.

Lemma selX_value disc cases g here g' :
  selX disc cases g = Some (Ok here, g') → (∃ i, (i < length cases)%nat ∧ here = drop i cases) ∨ here = defaultCases cases.
Proof.
  unfold selX, bind. destruct (eval strict true disc g) as [[[d|e] g1]|]; [|done..].
  destruct (selectCase strict d cases g1) as [[[[l|]|e] g2]|] eqn:E; [..|done|done]; intros [= <- <-]; [|by right].
  left. by eapply selectCase_drop.
Qed.

Lemma defaultIdx_lt cases d : defaultIdx cases = Some d → (d < length cases)%nat.
Proof.
  revert d. induction cases as [|[[t|] s] l IH]; intros d; cbn; [done|..].
  - intros (d' & Hd' & ->)%fmap_Some. apply IH in Hd'. lia.
  - intros [= <-]. lia.
Qed.

(** The block of the switch statement ends the breaks without a label. *)
Lemma goesS_switchEnd P tg tg' cx a E y :
  (∀ h ib, (h < length cx)%nat → tg' h ib = tg h ib) → tg' (length cx) true = Some E →
  GoesS P tg' (switchF :: cx) a E y →
  GoesS P tg cx a E (withStmt y (λ c, complete (endBreakable (UpdateEmpty c _undefined)))).
Proof.
  intros Htg HE HY g c v g' Hy Hp. unfold withStmt in Hy. destruct (y g) as [[[c1 v1] g1]|] eqn:Eb; [|done].
  injection Hy as Hc <-. destruct (HY _ _ _ _ Eb Hp) as [Hp1 H1]. split; [done|]. intros stk refs tries rs HF.
  destruct (H1 stk refs tries rs HF) as (n & rs' & r & R & HEnds). unfold endBreakable in Hc. cbn in Hc.
  destruct c1 as [|ib l1|e]; [injection Hc as <- <-; by exists n, rs', r| |injection Hc as <- <-; by exists n, rs', r].
  destruct HEnds as (Hne & p & -> & HA). cbn [AtExit] in HA.
  assert (targets switchF ib l1 = ib && bool_decide (l1 = None) ∧ blocked switchF ib l1 = false) as [Et Eb1].
  { destruct l1 as [l1|]; cbn; [|by destruct ib].
    rewrite (bool_decide_eq_false_2 (""%string = l1)), andb_false_r by congruence. by rewrite andb_false_r. }
  rewrite Et, Eb1 in HA. destruct ib, l1 as [l1|]; cbn in HA, Hc.
  2: { injection Hc as <- <-. destruct HA as (t & Ht & Hf). rewrite HE in Ht. injection Ht as <-.
       exists (n + 1)%nat, rs'. eexists. split; [|done]. eapply reach_trans; [exact R|].
       eapply reach_cons; [done|]. cbn. replace (p + (E - p)) with E by lia. apply reach_refl. }
  all: injection Hc as <- <-; exists n, rs'; eexists; (split; [exact R|]); (split; [done|]); exists p; (split; [done|]);
    by eapply atExit_ext.
Qed.

Definition switchY (fuel : nat) (disc : expr) (cases : clauses) : Y :=
  withExpr (selX disc cases) (λ here, withStmt (execCases (exec strict fuel []) here None)
    (λ c, complete (endBreakable (UpdateEmpty c _undefined)))).

Lemma exec_switch fuel labels disc cases g :
  exec strict (S fuel) labels (SSwitch disc cases) g = switchY fuel disc cases g.
Proof.
  cbn [exec]. unfold switchY, withExpr, selX, bind. destruct (eval strict true disc g) as [[[d|e] g1]|]; [|done..].
  by destruct (selectCase strict d cases g1) as [[[s|e] g2]|].
Qed.

(** The run of the whole statement. *)
Lemma goesS_switch P tg tg' cx a b0 b1 E Kd disc cases starts nr fuel :
  okE disc → Computes Kd [] [] (eval strict true disc) (out true) noRef → Loaded P a (Kd ++ clr nr) →
  b0 = a + Z.of_nat (length Kd) + Z.of_nat (length (clr nr)) →
  TestsRun P b0 b1 cases (λ i, Z.of_nat (starts !!! i)) → fetch P b1 = Some (Some pop) →
  Silent P (b1 + 1) (match defaultIdx cases with Some d => Z.of_nat (starts !!! d) | None => E end) →
  length starts = length cases → BodiesRun P tg' (switchF :: cx) E cases starts →
  (∀ h ib, (h < length cx)%nat → tg' h ib = tg h ib) → tg' (length cx) true = Some E →
  GoesS P tg cx a E (switchY fuel disc cases).
Proof.
  intros Hok HK HL Hb0 HT Hpop HS Hls HB Htg HE.
  set (to := λ here : clauses, match here with [] => E | _ => Z.of_nat (starts !!! (length cases - length here)%nat) end).
  assert (∀ i, (i < length cases)%nat → to (drop i cases) = Z.of_nat (starts !!! i)) as Hto.
  { intros i Hi. unfold to. destruct (drop i cases) as [|x l] eqn:Ed; [apply (f_equal length) in Ed; rewrite length_drop in Ed; cbn in Ed; lia|].
    rewrite <- Ed, length_drop. by replace (length cases - (length cases - i))%nat with i by lia. }
  assert (to (defaultCases cases) = match defaultIdx cases with Some d => Z.of_nat (starts !!! d) | None => E end) as Hdef.
  { unfold defaultCases. destruct (defaultIdx cases) as [d|] eqn:Ed; [|done]. by apply Hto, defaultIdx_lt. }
  assert (∀ i, (i < length cases)%nat → GoesS P tg cx (to (drop i cases)) E
    (withStmt (execCases (exec strict fuel []) (drop i cases) None) (λ c, complete (endBreakable (UpdateEmpty c _undefined))))) as Hgo.
  { intros i Hi. rewrite Hto by done. apply (goesS_switchEnd P tg tg'); [done|done|]. apply HB.
    destruct (lookup_lt_is_Some_2 starts i) as [s Hs]; [lia|]. by rewrite (list_lookup_total_correct _ _ _ Hs). }
  eapply goesS_exprV; [exact (goes_select P a b0 b1 Kd disc cases _ _ nr to Hok HK HL Hb0 HT Hpop HS Hto Hdef)|].
  intros here g g' [(i & Hi & ->)|Hh]%selX_value Hp; [by apply Hgo|]. subst here.
  destruct (defaultIdx cases) as [d|] eqn:Ed; unfold defaultCases in *; rewrite Ed in *.
  - by apply Hgo, defaultIdx_lt.
  - apply (goesS_switchEnd P tg tg'); [done|done|]. apply goesS_complete.
Qed.

(** What follows the tests: the jump for a discriminant that no test matches. *)
Definition noMatch (cases : clauses) (p : nat) (jumps : list (option nat)) : list (option nat) * option nat * code :=
  match defaultIdx cases with
  | Some O => (jumps, None, [])
  | Some d => (<[d := Some p]> jumps, None, [None])
  | None => (jumps, Some p, [None])
  end.
Definition allJumps (jumps : list (option nat)) (o : option nat) : list (option nat) :=
  jumps ++ match o with Some p => [Some p] | None => [] end.

Lemma jumpsOK_more base (K K' : code) jumps : JumpsOK base K jumps → JumpsOK base (K ++ K') jumps.
Proof. intros [H1 H2]. split; [|done]. intros i j Hi. destruct (H1 i j Hi). split; [done|]. by apply lookup_app_l_Some. Qed.

Lemma jumpsOK_add base (K K' : code) jumps jumps' d p :
  JumpsOK base K jumps → p = (base + length K + 1)%nat → K' = [Some pop; None] →
  (∀ i j, jumps' !! i = Some (Some j) → i = d ∧ j = p ∨ i ≠ d ∧ jumps !! i = Some (Some j)) → JumpsOK base (K ++ K') jumps'.
Proof.
  intros [H1 H2] -> -> Hd.
  assert (∀ i j, jumps !! i = Some (Some j) → (j < base + length K)%nat) as Hlt.
  { intros i j Hi. destruct (H1 i j Hi) as [? Hl%lookup_lt_Some]. lia. }
  split.
  - intros i j [[-> ->]|[_ Hi]]%Hd.
    + split; [lia|]. rewrite lookup_app_r by lia. by replace (_ - _ - _)%nat with 1%nat by lia.
    + destruct (H1 i j Hi). split; [done|]. by apply lookup_app_l_Some.
  - intros i i' j [[-> ->]|[_ Hi]]%Hd [[-> Hj]|[_ Hi']]%Hd; [done|..|by eapply H2].
    + apply Hlt in Hi'. lia.
    + apply Hlt in Hi. lia.
Qed.

Lemma noMatch_ok base K jumps cases jumps' o Kj :
  JumpsOK base K jumps → length jumps = length cases → (∀ d, defaultIdx cases = Some d → jumps !! d = Some None) →
  noMatch cases (base + length K + 1) jumps = (jumps', o, Kj) →
  length jumps' = length jumps ∧ JumpsOK base (K ++ [Some pop] ++ Kj) (allJumps jumps' o) ∧
  (∀ i j, jumps !! i = Some (Some j) → allJumps jumps' o !! i = Some (Some j)) ∧
  match defaultIdx cases with
  | Some O => Kj = [] ∧ o = None
  | Some d => Kj = [None] ∧ o = None ∧ allJumps jumps' o !! d = Some (Some (base + length K + 1)%nat)
  | None => Kj = [None] ∧ is_Some o ∧ allJumps jumps' o !! length cases = Some (Some (base + length K + 1)%nat)
  end.
Proof.
  intros HJ Hl Hd Hn. unfold noMatch in Hn. destruct (defaultIdx cases) as [[|d]|] eqn:Ed; injection Hn as <- <- <-;
    unfold allJumps; rewrite ?app_nil_r.
  - split; [done|]. split; [by apply jumpsOK_more|]. done.
  - specialize (Hd (S d) eq_refl). pose proof (lookup_lt_Some _ _ _ Hd) as Hlt. split; [apply length_insert|]. split; [|split].
    + eapply (jumpsOK_add _ _ _ jumps _ (S d)); [done|done|done|]. intros i j Hi. destruct (decide (i = S d)) as [->|Hne].
      * rewrite list_lookup_insert_eq in Hi by done. left. by injection Hi.
      * rewrite list_lookup_insert_ne in Hi by done. by right.
    + intros i j Hi. rewrite list_lookup_insert_ne; [done|]. intros <-. congruence.
    + split; [done|]. split; [done|]. by apply list_lookup_insert_eq.
  - split; [done|]. split; [|split].
    + eapply (jumpsOK_add _ _ _ jumps _ (length jumps)); [done|done|done|]. intros i j Hi.
      apply lookup_app_Some in Hi as [Hi|[Hge Hi]]; [right; split; [|done]; apply lookup_lt_Some in Hi; lia|].
      left. destruct (i - length jumps)%nat eqn:Ei; [|done]. injection Hi as ->. split; [lia|done].
    + intros i j Hi. by apply lookup_app_l_Some.
    + split; [done|]. split; [by eexists|]. rewrite lookup_app_r by lia. by rewrite Hl, Nat.sub_diag.
Qed.

Definition switchBlock (nr : bool) : block := MkBlock blockSwitch "" 0 [] [] None nr.

(** The steps of the compilation of a switch statement. *)
Lemma switch_inv disc cases nr cs cs' :
  okE disc → okTests cases → compileStatement strict g0 (SSwitch disc cases) nr cs = Some cs' →
  ∃ Kd K jumps jumps' o Kj csb, let c0 := cp cs ++ Kd ++ clr nr in
    Computes Kd [] [] (eval strict true disc) (out true) noRef ∧
    compileTests strict g0 cases (MkC c0 (switchBlock nr :: blocks cs)) = Some (jumps, MkC (c0 ++ K) (switchBlock nr :: blocks cs)) ∧
    noMatch cases (length c0 + length K + 1) jumps = (jumps', o, Kj) ∧
    compileBodies (compileStatement strict g0) nr cases jumps' (MkC (c0 ++ K ++ [Some pop] ++ Kj) (switchBlock nr :: blocks cs)) = Some csb ∧
    cs' = leaveBlock (match o with Some j => onCode (patch j (jump (off (len csb) j))) csb | None => csb end).
Proof.
  intros Hok Hts Hc. cbn [compileStatement] in Hc. apply bind_Some in Hc as (cs1 & H1 & Hc).
  apply bind_Some in H1 as (c1 & H1 & [= <-]). destruct (proj1 (expr_ok strict disc Hok) false true _ _ H1) as (Kd & -> & HK).
  rewrite emitWhen_clr in Hc. unfold newBlock in *. cbn [cp blocks] in *. rewrite <- app_assoc in Hc.
  apply bind_Some in Hc as ([jumps cs2] & H2 & Hc).
  destruct (tests_ok cases _ jumps cs2 Hts H2) as (K & -> & _). cbn [cp blocks] in *.
  exists Kd, K, jumps. set (c0 := cp cs ++ Kd ++ clr nr) in *.
  assert (len (emitS [pop] (MkC (c0 ++ K) (switchBlock nr :: blocks cs))) = length c0 + length K + 1)%nat as Hlen by lens.
  unfold noMatch. fold (switchBlock nr) in Hc. rewrite !Hlen in Hc.
  destruct (defaultIdx cases) as [[|d]|]; apply bind_Some in Hc as (csb & H3 & [= <-]);
    eexists _, _, _, csb; (split; [exact HK|]); (split; [exact H2|]); (split; [reflexivity|]); (split; [|done]);
    rewrite <- H3; unfold emitS, onCode, emit, emitNil; cbn [cp blocks fmap list_fmap app]; rewrite <- ?Hlen, <- ?app_assoc; done.
Qed.

(** The tests with all jumps in place, [E] being the end of the statement. *)
Lemma tests_jumps_run P cases (c0 K : code) jumps jumps' o Kj starts E :
  (∀ P tgt, Loaded P (Z.of_nat (length c0)) K → JumpsTo P jumps tgt →
     TestsRun P (Z.of_nat (length c0)) (Z.of_nat (length c0 + length K)) cases tgt) →
  length jumps = length cases → length starts = length cases →
  (cases ≠ [] → starts !! O = Some (length (c0 ++ K ++ [Some pop] ++ Kj))) →
  (∀ i j, jumps !! i = Some (Some j) → allJumps jumps' o !! i = Some (Some j)) →
  match defaultIdx cases with
  | Some O => Kj = [] ∧ o = None
  | Some d => Kj = [None] ∧ o = None ∧ allJumps jumps' o !! d = Some (Some (length c0 + length K + 1)%nat)
  | None => Kj = [None] ∧ is_Some o ∧ allJumps jumps' o !! length cases = Some (Some (length c0 + length K + 1)%nat)
  end →
  Loaded P (Z.of_nat (length c0)) (K ++ [Some pop] ++ Kj) →
  (∀ i j s, allJumps jumps' o !! i = Some (Some j) → (starts ++ match o with Some _ => [E] | None => [] end) !! i = Some s →
     fetch P (Z.of_nat j) = Some (Some (jump (Z.of_nat s - Z.of_nat j)))) →
  TestsRun P (Z.of_nat (length c0)) (Z.of_nat (length c0 + length K)) cases (λ i, Z.of_nat (starts !!! i)) ∧
  fetch P (Z.of_nat (length c0 + length K)) = Some (Some pop) ∧
  Silent P (Z.of_nat (length c0 + length K) + 1)
    (match defaultIdx cases with Some d => Z.of_nat (starts !!! d) | None => Z.of_nat E end).
Proof.
  intros HR Hlj Hls Hs0 Hsub Hdef [HLK [Hpop _]%loaded_cons]%loaded_app HJP.
  assert (∀ i, (i < length cases)%nat → starts !! i = Some (starts !!! i)) as Hst.
  { intros i Hi. apply list_lookup_lookup_total_lt. lia. }
  split; [|split; [by rewrite Nat2Z.inj_add|]].
  - apply HR; [done|]. intros i j Hi. apply (HJP i); [by apply Hsub|]. apply lookup_app_l_Some, Hst.
    apply lookup_lt_Some in Hi. lia.
  - destruct (defaultIdx cases) as [[|d]|] eqn:Ed.
    + destruct Hdef as [-> ->]. pose proof (defaultIdx_lt _ _ Ed) as Hlt.
      assert (starts !!! O = length c0 + length K + 1)%nat as ->.
      { specialize (Hst O Hlt). rewrite Hs0 in Hst by (intros ->; cbn in Hlt; lia). injection Hst as <-. lens. }
      rewrite (Nat2Z.inj_add (_ + _) 1). apply silent_refl.
    + destruct Hdef as (-> & -> & Hp). pose proof (defaultIdx_lt _ _ Ed) as Hlt.
      specialize (HJP _ _ (starts !!! S d) Hp). rewrite app_nil_r in HJP. specialize (HJP (Hst _ Hlt)).
      rewrite (Nat2Z.inj_add (_ + _) 1) in HJP. by apply silent_jump.
    + destruct Hdef as (-> & [j ->] & Hp). specialize (HJP _ _ E Hp). rewrite lookup_app_r, Hls, Nat.sub_diag in HJP by lia.
      specialize (HJP eq_refl). rewrite (Nat2Z.inj_add (_ + _) 1) in HJP. by apply silent_jump.
Qed.

(** The code of the tests once all jumps are patched. *)
Lemma switchRegion_ok cases (c0 : code) bs K jumps jumps' o Kj starts E :
  okTests cases → compileTests strict g0 cases (MkC c0 bs) = Some (jumps, MkC (c0 ++ K) bs) →
  noMatch cases (length c0 + length K + 1) jumps = (jumps', o, Kj) → length starts = length cases →
  (cases ≠ [] → starts !! O = Some (length (c0 ++ K ++ [Some pop] ++ Kj))) →
  ∃ R', length R' = length (K ++ [Some pop] ++ Kj) ∧
    (∀ Z, match o with Some j => patch j (jump (off E j)) | None => id end
            (patchAll jumps' starts (c0 ++ K ++ [Some pop] ++ Kj) ++ Z) = c0 ++ R' ++ Z) ∧
    ∀ P, Loaded P (Z.of_nat (length c0)) R' →
      TestsRun P (Z.of_nat (length c0)) (Z.of_nat (length c0 + length K)) cases (λ i, Z.of_nat (starts !!! i)) ∧
      fetch P (Z.of_nat (length c0 + length K)) = Some (Some pop) ∧
      Silent P (Z.of_nat (length c0 + length K) + 1)
        (match defaultIdx cases with Some d => Z.of_nat (starts !!! d) | None => Z.of_nat E end).
Proof.
  intros Hts H2 Hn Hls Hs0. set (R := K ++ [Some pop] ++ Kj) in *.
  destruct (tests_ok _ _ _ _ Hts H2) as (K0 & HK0 & Hlj & HJ & Hd & HR). injection HK0 as HK0%app_inv_head. subst K0.
  destruct (noMatch_ok _ _ _ _ _ _ _ HJ Hlj Hd Hn) as (Hlj' & HJ' & Hsub & Hdef). unfold len in *. cbn [cp] in *. fold R in HJ'.
  set (S' := starts ++ match o with Some _ => [E] | None => [] end).
  destruct (patched_region c0 R (allJumps jumps' o) S' HJ') as (R' & Hp & HlR & HP).
  { unfold S', allJumps. rewrite !length_app. destruct o; cbn; lia. }
  exists R'. split; [done|]. split.
  - intros Z. rewrite app_assoc, <- Hp. unfold S', allJumps. destruct o as [j|]; [|by rewrite !app_nil_r].
    rewrite patchAll_snoc by lia. unfold patch. rewrite insert_app_l; [done|]. rewrite patchAll_length.
    destruct (proj1 HJ' (length jumps') j) as [? Hlt%lookup_lt_Some]; [|rewrite length_app; lia].
    unfold allJumps. rewrite lookup_app_r by lia. by rewrite Nat.sub_diag.
  - intros P HL. destruct (HP P HL) as [HLR HJP]. by eapply tests_jumps_run.
Qed.

Lemma switchJumps_below cases (c0 : code) bs K jumps jumps' o Kj :
  okTests cases → compileTests strict g0 cases (MkC c0 bs) = Some (jumps, MkC (c0 ++ K) bs) →
  noMatch cases (length c0 + length K + 1) jumps = (jumps', o, Kj) →
  length jumps' = length cases ∧ Below jumps' (length (c0 ++ K ++ [Some pop] ++ Kj)).
Proof.
  intros Hts H2 Hn. destruct (tests_ok _ _ _ _ Hts H2) as (K0 & HK0 & Hlj & HJ & Hd & _).
  injection HK0 as HK0%app_inv_head. subst K0. destruct (noMatch_ok _ _ _ _ _ _ _ HJ Hlj Hd Hn) as (Hlj' & HJ' & _).
  split; [lia|]. intros i j Hi. unfold len in HJ'. cbn [cp] in HJ'.
  destruct (proj1 HJ' i j) as [? Hlt%lookup_lt_Some]; [by apply lookup_app_l_Some|]. rewrite length_app. lia.
Qed.

Lemma switch_ok cx disc cases :
  okE disc → okTests cases → Forall (λ c, ListOK strict (switchF :: cx) c.2) cases → StmtOK strict cx (SSwitch disc cases).
Proof.
  intros Hok Hts HF nr cs cs' Hc HM.
  destruct (switch_inv _ _ _ _ _ Hok Hts Hc) as (Kd & K & jumps & jumps' & o & Kj & csb & HK & H2 & Hn & H3 & ->).
  set (c0 := cp cs ++ Kd ++ clr nr) in *. destruct (switchJumps_below _ _ _ _ _ _ _ _ Hts H2 Hn) as [Hlj HB].
  assert (Matches (switchF :: cx) (switchBlock nr :: blocks cs)) as HM0 by (by constructor).
  destruct (bodies_ok (switchF :: cx) nr cases jumps' (MkC _ _) csb HF HM0 Hlj HB H3) as (Kb & X & starts & Hls & Hs0 & HE & HBR).
  destruct (switchRegion_ok _ _ _ _ _ _ _ _ starts (len csb) Hts H2 Hn Hls Hs0) as (R' & HlR & Hpatch & HT).
  pose proof HE as ([Hcp _] & _). cbn [cp blocks] in Hcp.
  assert (len csb = len cs + length Kd + length (clr nr) + length R' + length Kb)%nat as Hlb.
  { unfold len. rewrite Hcp, length_app, patchAll_length, length_app, <- HlR. unfold c0. lens. }
  assert (length (patchAll jumps' starts (c0 ++ K ++ [Some pop] ++ Kj)) = length (cp cs ++ (Kd ++ clr nr ++ R'))) as Hlp.
  { rewrite patchAll_length, length_app, <- HlR. unfold c0. lens. }
  destruct (block_ok cx switchF (switchBlock nr) _ (frees (SSwitch disc cases)) cs _ csb (Kd ++ clr nr ++ R') Kb X [] None
    ltac:(done) eq_refl eq_refl HM ltac:(done) Hlp HE) as (K' & cs' & HL & HE' & Hlen & HP).
  { eapply srcs_mono; [|apply (srcs_leave switchF); [done|apply HE]]. intros x [[Ht _] Hx]%list_elem_of_filter. cbn [frees].
    apply list_elem_of_filter. split; [|done]. by intros ->. }
  exists K', (others (length cx) X). split.
  { cbn [headCont] in HL. rewrite app_nil_r in HL. specialize (Hpatch Kb). rewrite <- Hcp in Hpatch.
    replace (match o with Some j => _ | None => csb end) with (MkC (cp cs ++ (Kd ++ clr nr ++ R') ++ Kb) (blocks csb)).
    { by rewrite HL. }
    replace (cp cs ++ (Kd ++ clr nr ++ R') ++ Kb) with (c0 ++ R' ++ Kb) by (unfold c0; by rewrite <- !app_assoc).
    rewrite <- Hpatch. by destruct o, csb. }
  intros y ([|fuel] & labels & Hlab & ->) P tg HLX Htg; [apply goesS_out|].
  destruct (HP P tg HLX Htg) as (tg' & Htg' & HBk & _ & HTG & HLp & HLb & _).
  rewrite app_assoc in HLp. apply loaded_app in HLp as [HLd HLR].
  eapply goesS_ext; [intros g; apply exec_switch|].
  destruct (HT P) as (HTr & Hpop & HS); [eapply loaded_at; [|exact HLR]; unfold c0; lens|].
  destruct (HBR P tg') as [HBR1 _]; [|done|].
  { eapply loadedX_at; [|exact HLb]. unfold c0. revert HlR. lens. }
  assert (Z.of_nat (len csb) = Z.of_nat (len cs + length K')) as HEb by (rewrite Hlb, Hlen; lens).
  eapply (goesS_switch P tg tg' cx _ (Z.of_nat (length c0)) (Z.of_nat (length c0 + length K)) _ Kd disc cases starts nr fuel);
    [done|done|exact HLd|unfold c0; lens|exact HTr|exact Hpop|by rewrite <- HEb|done| |done|done].
  rewrite <- HEb. by replace (len csb) with (len (MkC (c0 ++ K ++ [Some pop] ++ Kj) (switchBlock nr :: blocks cs)) + length Kb)%nat
    by (unfold len; rewrite Hcp, length_app, patchAll_length; done).
Qed.
End switch.
End SwitchCorrect.
