(* ===== verification/Scripts.v ===== *)
(** * Compiled scripts run as prescribed

    The theorems about whole scripts: every statement of a covered script is
    compiled correctly, so the compiled script runs to the state and the
    completion of the reference semantics; a model of the runtime shows that the
    assumptions can hold, and four scripts outside of the covered ones show what
    the compiler does there. *)

From S2P Require Import Prelude Vm Compiler Semantics ExprCorrect Jumps StmtCorrect CompilerCorrect ScriptCorrect SwitchCorrect.
From stdpp Require Import strings.
Import Vm Compiler Semantics ExprCorrect Jumps StmtCorrect CompilerCorrect ScriptCorrect SwitchCorrect.
Open Scope Z_scope.

Module Scripts.

Section scripts.
Context {rt : Runtime} {g0 : G} {laws : RuntimeLaws g0} (strict : bool).

(** *** All statements *)

Definition allO {A} (Q : A → Prop) (o : option A) : Prop := match o with Some a => Q a | None => True end.

(** Induction on statements, through the lists and options of their parts. *)
Lemma stmt_induction (Q : stmt → Prop) :
  (∀ e, Q (SExpression e)) → Q SEmpty → (∀ l, Forall Q l → Q (SBlock l)) →
  (∀ t a b, Q a → allO Q b → Q (SIf t a b)) → (∀ b t, Q b → Q (SDoWhile b t)) → (∀ t b, Q b → Q (SWhile t b)) →
  (∀ i t u b, Q b → Q (SFor i t u b)) → (∀ ib l, Q (SBranch ib l)) → (∀ l s, Q s → Q (SLabelled l s)) →
  (∀ e, Q (SThrow e)) → (∀ b c f, Forall Q b → allO (Forall Q) c → allO (Forall Q) f → Q (STry b c f)) →
  (∀ d cases, Forall (λ c, Forall Q c.2) cases → Q (SSwitch d cases)) → ∀ s, Q s.
Proof.
  intros H1 H2 H3 H4 H5 H6 H7 H8 H9 H10 H11 H12. fix IH 1.
  pose (list_IH := fix go (l : list stmt) : Forall Q l :=
    match l with [] => List.Forall_nil Q | s :: l => @List.Forall_cons _ Q s l (IH s) (go l) end).
  intros [e| |l|t a b|b t|t b|i t u b|ib l|l s|e|b c f|d cases];
    [apply H1|apply H2|apply H3, list_IH| |apply H5, IH|apply H6, IH|apply H7, IH|apply H8|apply H9, IH|apply H10|..].
  - apply H4; [apply IH|]. destruct b; [apply IH|done].
  - apply H11; [apply list_IH| |]; [destruct c|destruct f]; first [apply list_IH|done].
  - apply H12. induction cases as [|[t l] cases IHc]; constructor; [apply list_IH|exact IHc].
Qed.

(** The expressions of a statement: literals are primitive values and nothing is
    assigned to the names of the error constructors. *)
Fixpoint okX (s : stmt) : Prop :=
  match s with
  | SExpression e | SThrow e => okE e
  | SEmpty | SBranch _ _ => True
  | SBlock l => foldr (λ s, and (okX s)) True l
  | SIf t a b => okE t ∧ okX a ∧ match b with Some b => okX b | None => True end
  | SDoWhile b t | SWhile t b => okE t ∧ okX b
  | SFor i t u b => okO i ∧ okO t ∧ okO u ∧ okX b
  | SLabelled _ s => okX s
  | STry b c f =>
      foldr (λ s, and (okX s)) True b ∧
      match c with Some c => foldr (λ s, and (okX s)) True c | None => True end ∧
      match f with Some f => foldr (λ s, and (okX s)) True f | None => True end
  | SSwitch d cases => okE d ∧ foldr (λ c, and (okO c.1 ∧ foldr (λ s, and (okX s)) True c.2)) True cases
  end.

(** A covered statement is compiled correctly whatever is around it. *)
Definition Covered (s : stmt) : Prop := ∀ cx, okS strict g0 cx s = true → okX s → StmtOK strict cx s.

Lemma list_covered cx l :
  Forall Covered l → okList (okS strict g0) cx l = true → foldr (λ s, and (okX s)) True l → ListOK strict cx l.
Proof.
  intros HF [HS Hd]%okList_inv Hx. split; [|done]. clear Hd. induction HF as [|s l Hs HF IH]; constructor;
    apply Forall_cons in HS as [? HS]; destruct Hx as [Hx1 Hx]; [by apply Hs|by apply IH].
Qed.

Lemma listO_covered cx l :
  allO (Forall Covered) l → match l with Some l => okList (okS strict g0) cx l | None => true end = true →
  match l with Some l => foldr (λ s, and (okX s)) True l | None => True end → ListOKO strict cx l.
Proof. destruct l; [apply list_covered|done]. Qed.

(** The test and the body of a while or for loop. *)
Lemma test_covered cx t s :
  Covered s → okE t → okTest strict g0 t cx (okS strict g0 cx s) (frees s) = true → okX s → TestOK strict cx (Some t) s.
Proof.
  intros Hs Ht Hok Hx. split; [done|]. unfold okTest in Hok. destruct (classifyTest strict g0 t []) as [[| |e g|]|]; try done.
  - by apply Hs.
  - apply andb_true_iff in Hok as [Hok Hd]. split; [by apply Hs|done].
  - by apply Hs.
Qed.

Lemma testO_covered cx t s :
  Covered s → okO t →
  match t with Some t => okTest strict g0 t cx (okS strict g0 cx s) (frees s) | None => okS strict g0 cx s end = true →
  okX s → TestOK strict cx t s.
Proof. destruct t as [t|]; [apply test_covered|]. intros Hs _ Hok Hx. by apply Hs. Qed.

Lemma if_covered t a b : Covered a → allO Covered b → Covered (SIf t a b).
Proof.
  intros Ha Hb cx Hok (Ht & Hxa & Hxb). apply if_ok; [done|]. unfold IfOK. cbn in Hok.
  destruct (classifyTest strict g0 t []) as [[| |e g|]|], b as [b|]; try done; rewrite ?andb_true_iff in Hok;
    repeat match goal with H : _ ∧ _ |- _ => destruct H end; repeat split; auto; by apply Ha || by apply Hb.
Qed.

(** Loops, with and without a label. *)
Lemma labelled_inv l s nr cs cs' f :
  compileStatement strict g0 (SLabelled l s) nr cs = Some cs' →
  (match s with
   | SDoWhile body test => compileLabeledDoWhile strict g0 (compileStatement strict g0 body) test nr l cs
   | SWhile test body => compileLabeledWhile strict g0 test (compileStatement strict g0 body) nr l cs
   | SFor i t u body => compileLabeledFor strict g0 i t u (compileStatement strict g0 body) nr l cs
   | _ => cs ← compileStatement strict g0 s nr (newBlock blockLabel l nr cs); Some (leaveBlock cs)
   end = f) → f = Some cs'.
Proof.
  intros Hc <-. cbn [compileStatement] in Hc. destruct (strict && _); [done|]. destruct (bool_decide _); [done|]. exact Hc.
Qed.

Lemma do_covered b t : Covered b → Covered (SDoWhile b t) ∧ ∀ l, Covered (SLabelled l (SDoWhile b t)).
Proof.
  intros Hb. split.
  - intros cx Hok [Ht Hx].
    apply (loop_plain_ok strict cx (SDoWhile b t) b (λ nr lbl, compileLabeledDoWhile strict g0 (compileStatement strict g0 b) t nr lbl));
      [done|done|]. intros nr. by apply do_ok; [|apply Hb].
  - intros l cx [Hl%bool_decide_eq_true Hok]%andb_true_iff [Ht Hx].
    apply (loop_labelled_ok strict cx l (SDoWhile b t) b (λ nr lbl, compileLabeledDoWhile strict g0 (compileStatement strict g0 b) t nr lbl));
      [done|done|intros nr cs cs' Hc; by eapply labelled_inv|]. intros nr. by apply do_ok; [|apply Hb].
Qed.

Lemma while_covered t b : Covered b → Covered (SWhile t b) ∧ ∀ l, Covered (SLabelled l (SWhile t b)).
Proof.
  intros Hb. split.
  - intros cx Hok [Ht Hx].
    apply (loop_plain_ok strict cx (SWhile t b) b (λ nr lbl, compileLabeledWhile strict g0 t (compileStatement strict g0 b) nr lbl));
      [done|done|]. intros nr. by apply while_ok, test_covered.
  - intros l cx [Hl%bool_decide_eq_true Hok]%andb_true_iff [Ht Hx].
    apply (loop_labelled_ok strict cx l (SWhile t b) b (λ nr lbl, compileLabeledWhile strict g0 t (compileStatement strict g0 b) nr lbl));
      [done|done|intros nr cs cs' Hc; by eapply labelled_inv|]. intros nr. by apply while_ok, test_covered.
Qed.

Lemma for_covered i t u b : Covered b → Covered (SFor i t u b) ∧ ∀ l, Covered (SLabelled l (SFor i t u b)).
Proof.
  intros Hb. split.
  - intros cx Hok (Hi & Ht & Hu & Hx).
    apply (loop_plain_ok strict cx (SFor i t u b) b (λ nr lbl, compileLabeledFor strict g0 i t u (compileStatement strict g0 b) nr lbl));
      [done|done|]. intros nr. by apply for_ok, testO_covered.
  - intros l cx [Hl%bool_decide_eq_true Hok]%andb_true_iff (Hi & Ht & Hu & Hx).
    apply (loop_labelled_ok strict cx l (SFor i t u b) b (λ nr lbl, compileLabeledFor strict g0 i t u (compileStatement strict g0 b) nr lbl));
      [done|done|intros nr cs cs' Hc; by eapply labelled_inv|]. intros nr. by apply for_ok, testO_covered.
Qed.

(** Both parts, since a label changes how a loop is compiled. *)
Lemma labelled_covered l s :
  Covered s → match s with SDoWhile _ _ | SWhile _ _ | SFor _ _ _ _ => False | _ => True end → Covered (SLabelled l s).
Proof.
  intros Hs Hn cx Hok Hx. cbn in Hok. apply andb_true_iff in Hok as [Hl%bool_decide_eq_true Hok].
  assert (okS strict g0 (labelF l :: cx) s = true) as Hs' by (by destruct s).
  apply label_ok; [done|by apply Hs|]. intros nr cs cs' Hc. eapply labelled_inv; [exact Hc|]. by destruct s.
Qed.

Lemma try_covered b c f : Forall Covered b → allO (Forall Covered) c → allO (Forall Covered) f → Covered (STry b c f).
Proof.
  intros Hb Hc Hf cx Hok (Hxb & Hxc & Hxf). cbn [okS] in Hok.
  destruct (match f with Some l => _ | None => Some (None, None) end) as [[lp bb]|] eqn:E; [|done].
  rewrite !andb_true_iff in Hok. destruct Hok as [[Hob Hoc] Hof].
  apply (try_ok strict cx b c f lp bb); [exact E|by apply list_covered|by apply listO_covered|by apply listO_covered].
Qed.

Lemma switch_covered d cases : Forall (λ c, Forall Covered c.2) cases → Covered (SSwitch d cases).
Proof.
  intros HF cx Hok [Hd Hx]. cbn [okS] in Hok. rewrite forallb_forall in Hok.
  assert (Forall (λ c, okO c.1 ∧ ListOK strict (switchF :: cx) c.2) cases) as H.
  { induction HF as [|c cases Hc HF IH]; constructor; destruct Hx as [[Ho Hxc] Hx].
    - split; [done|]. apply list_covered; [done|by apply Hok; left|done].
    - apply IH; [|done]. intros x Hin. apply Hok. by right. }
  apply Forall_and in H as [H1 H2]. by apply switch_ok.
Qed.

Definition CoveredL (s : stmt) : Prop := Covered s ∧ ∀ l, Covered (SLabelled l s).

Lemma coveredL_intro s :
  Covered s → match s with SDoWhile _ _ | SWhile _ _ | SFor _ _ _ _ => False | _ => True end → CoveredL s.
Proof. intros Hs Hn. split; [done|]. intros l. by apply labelled_covered. Qed.

Lemma coveredL_list l : Forall CoveredL l → Forall Covered l.
Proof. intros HF. eapply Forall_impl; [exact HF|]. by intros s []. Qed.

Lemma covered_all s : CoveredL s.
Proof.
  induction s as [e| |l HF|t a b [Ha _] Hb|b t [Hb _]|t b [Hb _]|i t u b [Hb _]|ib l|l s [_ Hs]|e|b c f Hb Hc Hf|d cases HF]
    using stmt_induction; [ | | | |by apply do_covered|by apply while_covered|by apply for_covered|..];
    (apply coveredL_intro; [|done]).
  - intros cx _ Hx. by apply expression_ok.
  - intros cx _ _. apply empty_ok.
  - intros cx Hok Hx. apply coveredL_list in HF. destruct (list_covered cx l HF Hok Hx). by apply block_stmt_ok.
  - apply if_covered; [done|]. destruct b; [by destruct Hb|done].
  - intros cx [Hl%bool_decide_eq_true Hok]%andb_true_iff _. destruct (findIn cx ib l) as [[h|]|] eqn:E; [|done..].
    by eapply branch_ok.
  - apply Hs.
  - intros cx _ Hx. by apply throw_ok.
  - apply try_covered; [by apply coveredL_list|destruct c|destruct f]; try done; by apply coveredL_list.
  - apply switch_covered. eapply Forall_impl; [exact HF|]. intros c. apply coveredL_list.
Qed.

(** *** Scripts *)

(** The outcome the reference semantics prescribes for a script: the state, and
    the exception if it completes with one. *)
Definition Prescribed (c : ctype) (g : G) (o : outcome) : Prop :=
  match c with
  | Normal => ∃ m, o = Halted m ∧ stack m = [] ∧ refStack m = [] ∧ Vm.g m = g
  | Thrown e => o = Uncaught e g
  | Branch _ _ => False
  end.

(** A covered script: dead code branches to the innermost block only, branches
    leave for their own targets where a finally block overrides them, literals
    are primitive and the error constructors are not assigned to. *)
Definition okScript (l : list stmt) : Prop :=
  okList (okS strict g0) [] l = true ∧ foldr (λ s, and (okX s)) True l.

Lemma fetch_end (P : code) : fetch P (Z.of_nat (length P)) = None.
Proof. unfold fetch. rewrite (proj2 (Z.leb_le 0 _)), Nat2Z.id by lia. by apply lookup_ge_None. Qed.

Lemma compiled_script_runs l P fuel g c v g' rs :
  okScript l → compile strict g0 l = Some P → pristine g → execScript strict fuel l g = Some ((c, v), g') →
  ∃ n o, runTry n P (MkVm 0 [] [] [] rs g) = Some o ∧ Prescribed c g' o ∧
    ∀ n', (n ≤ n')%nat → runTry n' P (MkVm 0 [] [] [] rs g) = Some o.
Proof.
  intros [Hok Hx] Hc Hp Hy. unfold compile in Hc. apply bind_Some in Hc as (cs & Hc & [= <-]).
  assert (ListOK strict [] l) as [HF Hd].
  { apply list_covered; [|done|done]. apply Forall_true. intros s. apply covered_all. }
  destruct (compileStatements_ok strict [] l true HF Hd (MkC [] []) cs Hc ltac:(constructor)) as (K & X & HE & HS).
  destruct HE as ([Hcp _] & HH & _). cbn in Hcp. subst K.
  assert (X = []) as ->.
  { apply elem_of_nil_inv. intros e He. destruct (proj2 HH e He) as (_ & _ & Hlt). cbn in Hlt. lia. }
  assert (Loaded (cp cs) 0 (cp cs)) as HL by apply (loaded_self []).
  assert (GoesS (cp cs) (λ _ _, None) [] 0 (Z.of_nat (length (cp cs))) (execScript strict fuel l)) as HG.
  { apply (HS (execScript strict fuel l)); [by exists fuel, None|by apply loadedX_plain|].
    intros f outer Hs. by apply suffix_nil_inv in Hs. }
  destruct (HG _ _ _ _ Hy Hp) as [_ HR].
  set (fr := MkFrame None 0 0 tryPanicMarker (-1) (-1)).
  destruct (HR [] [] [fr] rs) as (n & rs' & r & R & HEnds); [by constructor|].
  assert (∃ o, Prescribed c g' o ∧ ∀ k, run (S k) (cp cs) r = Some o) as (o & Ho & Hrun).
  { destruct c as [|ib lb|e]; cbn in HEnds.
    - subst r. exists (Halted (MkVm (Z.of_nat (length (cp cs))) [] [] [fr] rs' g')). split; [by eexists|]. intros k. cbn [run pc]. by rewrite fetch_end.
    - by destruct HEnds as (_ & p & _ & []).
    - subst r. exists (Uncaught e g'). by split. }
  assert (∀ k, runTry (n + S k) (cp cs) (MkVm 0 [] [] [] rs g) = Some o) as Hall.
  { intros k. unfold runTry, pushTryFrame. cbn. fold fr. rewrite R. apply Hrun. }
  exists (n + 1)%nat, o. split; [apply (Hall O)|]. split; [done|]. intros n' Hn.
  replace n' with (n + S (n' - n - 1))%nat by lia. apply Hall.
Qed.

(** C1: a covered script ([okScript]: dead code branches to the innermost block
    only, a finally block does not redirect a pending branch, literals are
    primitive and the error constructors are not assigned to) that completes in the
    reference semantics, normally or with an exception, from a state in which the
    error constructors are untouched ([pristine]), compiles to code that the machine
    runs, within some number of rounds, to the same state: it halts past the code
    with empty stacks, or ends with that exception.  Loops, labels, break and
    continue, switch, try with catch and finally, folded constants and dead code are
    included.  The operators may do anything to the state but rebind the error
    constructors, and on primitive values they compute a value or throw a TypeError
    or RangeError whatever the state ([RuntimeLaws]).  What happens to scripts that
    are not covered is in [dead_branch_corrupts], [finally_branch_redirected] and
    [finally_continue_crashes]. *)
Theorem compile_correct l P fuel g c v g' rs :
  okScript l → compile strict g0 l = Some P → pristine g → execScript strict fuel l g = Some ((c, v), g') →
  ∃ n o, runTry n P (MkVm 0 [] [] [] rs g) = Some o ∧ Prescribed c g' o ∧
    ∀ n', (n ≤ n')%nat → runTry n' P (MkVm 0 [] [] [] rs g) = Some o.
Proof. apply compiled_script_runs. Qed.

(** *** Expressions *)

(** The code of an expression, run from a fresh machine for at most one round
    per instruction and one more, ends past the code with the value of the
    expression on the stack, or with the exception that evaluating it throws, and
    in the state that evaluation leaves. *)
Theorem expression_correct e P g r g' rs :
  okE e → emitExpr strict g0 false e true [] = Some P → pristine g → eval strict true e g = Some (r, g') →
  runTry (S (length P)) P (MkVm 0 [] [] [] rs g) =
  Some (match r with
        | Ok v => Halted (MkVm (Z.of_nat (length P)) [v] [] [MkFrame None 0 0 tryPanicMarker (-1) (-1)] rs g')
        | Throw ex => Uncaught ex g'
        end).
Proof.
  intros He Hc Hp Hy. destruct (emitExpr_ok strict e false true [] P He (expr_ok strict e He) Hc) as (K & -> & HK).
  cbn [app] in *. destruct (HK K 0 (loaded_self [] K) g r g' Hy Hp [] [] [MkFrame None 0 0 tryPanicMarker (-1) (-1)] rs)
    as (n & Hn & R); [by constructor|].
  unfold runTry, pushTryFrame. cbn [pc stack refStack tryStack result Vm.g length app] in *.
  replace (S (length K)) with (n + S (length K - n))%nat by lia. rewrite R. destruct r as [v|ex]; cbn [landing]; [|done].
  cbn [run pc]. by rewrite Z.add_0_l, fetch_end.
Qed.

(** C31: what the compiler's own machine computes for a constant expression holds
    in every state with the error constructors untouched: a value is the value of
    the expression, which changes nothing; an exception is described by the name
    and message from which the constructor makes the one evaluation throws. *)
Theorem folding_correct e inEval c r :
  okE e → constant strict g0 inEval e c = Some true → evalConstE strict g0 inEval e c = Some r →
  ∀ g, pristine g → match r with
  | CVal v => eval strict true e g = Some (Ok v, g)
  | CExc ex gx => ∃ k m ctor ex' g', (k = "TypeError" ∨ k = "RangeError")%string ∧
      errorName ex gx = Some k ∧ errorMessage ex gx = m ∧ eval strict true e g = Some (Throw ex', g') ∧
      getDynamic k false g = (Ok (Some ctor), g) ∧ construct ctor (option_list m) g = (Ok ex', g')
  end.
Proof.
  intros He Hk Hr g Hp. pose proof (evalConst_ok strict e inEval c c r He (expr_ok strict e He) Hk Hr) as HR.
  destruct r as [v|ex gx]; cbn in HR; [by apply HR|]. destruct HR as (k & m & Hc & Hn & Hm & HT).
  destruct (HT g Hp) as (ctor & ex' & g' & H1 & H2 & H3 & _). by exists k, m, ctor, ex', g'.
Qed.
End scripts.

(** *** A small runtime *)

(** Integers, strings and errors in one flat global scope: enough to run scripts. *)
Module Toy.
Inductive value := TUndef | TNull | TBool (b : bool) | TInt (z : Z) | TStr (s : string) | TCtor (k : string) | TErr (k msg : string).

#[global] Instance value_eq_dec : EqDecision value.
Proof. solve_decision. Defined.

Definition toBool (v : value) : bool :=
  match v with
  | TBool b => b | TInt z => negb (z =? 0) | TStr s => negb (bool_decide (s = ""%string))
  | TCtor _ | TErr _ _ => true | _ => false
  end.
Definition toInt (v : value) : Z := match v with TInt z => z | TBool true => 1 | _ => 0 end.

Definition unaryT (op : unaryOp) (v : value) : value :=
  match op with
  | OInc => TInt (toInt v + 1)
  | ODec => TInt (toInt v - 1)
  | ONeg => TInt (- toInt v)
  | OBnot => TInt (Z.lnot (toInt v))
  | OTypeof => TStr "value"
  | OToNumber | OPlus => TInt (toInt v)
  end.

Definition binaryT (op : binaryOp) (l r : value) : res value value :=
  match op with
  | OIn | OInstanceof => Throw (TErr "TypeError" "not an object")
  | OLt => Ok (TBool (toInt l <? toInt r)) | OGt => Ok (TBool (toInt r <? toInt l))
  | OLte => Ok (TBool (toInt l <=? toInt r)) | OGte => Ok (TBool (toInt r <=? toInt l))
  | OEq | OStrictEq => Ok (TBool (bool_decide (l = r)))
  | ONeq | OStrictNeq => Ok (TBool (negb (bool_decide (l = r))))
  | OSub => Ok (TInt (toInt l - toInt r))
  | OMul => Ok (TInt (toInt l * toInt r))
  | _ => Ok (TInt (toInt l + toInt r))
  end.

(** The global scope: names with their values. *)
Definition scope : Type := list (string * value).
Fixpoint get (x : string) (g : scope) : option value :=
  match g with [] => None | (y, v) :: g => if String.eqb x y then Some v else get x g end.
Fixpoint put (x : string) (v : value) (g : scope) : scope :=
  match g with
  | [] => [(x, v)]
  | (y, w) :: g => if String.eqb x y then (y, v) :: g else (y, w) :: put x v g
  end.

Lemma get_put_ne x y v g : x ≠ y → get x (put y v g) = get x g.
Proof.
  intros Hne. assert (String.eqb x y = false) as E by (by apply String.eqb_neq).
  induction g as [|[z w] g IH]; cbn; [by rewrite E|]. destruct (String.eqb_spec y z) as [<-|Hz]; cbn; [by rewrite E|].
  by rewrite IH.
Qed.

#[local] Instance toy : Runtime := {|
  Value := value; G := scope; Ref := string;
  _undefined := TUndef; _null := TNull; valueTrue := TBool true; valueFalse := TBool false;
  ToBoolean := toBool;
  isNullish v := bool_decide (v = TUndef ∨ v = TNull);
  isNumeric v := match v with TInt _ => true | _ => false end;
  unary op v g := (Ok (unaryT op v), g);
  binary op l r g := (binaryT op l r, g);
  getDynamic name _ g := (Ok (get name g), g);
  newReferenceError name g := (TErr "ReferenceError" name, g);
  valueUnresolved name := TStr name;
  resolveVar _ name g := (Ok name, g);
  refGet name g := (match get name g with Some v => Ok v | None => Throw (TErr "ReferenceError" name) end, g);
  refSet name v g := (Ok (), put name v g);
  construct c l g := (match c, l with TCtor k, [TStr m] => Ok (TErr k m) | _, _ => Throw TUndef end, g);
  errorName e g := match e with TErr k _ => Some k | _ => None end;
  errorMessage e g := match e with TErr _ m => Some (TStr m) | _ => None end
|}.

Definition g0 : scope := [("TypeError", TCtor "TypeError"); ("RangeError", TCtor "RangeError")]%string.

Definition primT (v : value) : Prop := match v with TCtor _ | TErr _ _ => False | _ => True end.
Definition pristineT (g : scope) : Prop :=
  get "TypeError" g = Some (TCtor "TypeError") ∧ get "RangeError" g = Some (TCtor "RangeError").

Lemma binaryT_const op (l r : value) : @ConstantComputation toy pristineT primT (@binary toy op l r).
Proof.
  destruct op; try (left; eexists; split; [|intros g _; reflexivity]; exact I);
    (right; exists "TypeError"%string, (Some (TStr "not an object")); split; [by left|];
     intros g [HT _]; exists (TCtor "TypeError"), (TErr "TypeError" "not an object"), g; cbn; by rewrite HT).
Qed.

#[local] Instance toyLaws : @RuntimeLaws toy g0.
Proof.
  refine {| prim := primT; pristine := pristineT; safe := λ r : string, ¬ errorCtor r |}; try done.
  - by intros [].
  - intros op v _. left. eexists. split; [|by intros g _]. by destruct op.
  - intros op l r _ _. apply binaryT_const.
  - intros v g. by destruct v.
  - intros b name g r Hn [= <-]. done.
  - intros r v g Hr [H1 H2]. cbn. split; (rewrite get_put_ne; [done|]); intros <-; apply Hr; unfold errorCtor; auto.
Defined.

Abbreviation tstmt := (@stmt toy).
Definition id (x : string) : @expr toy := EIdentifier x.
Definition int (z : Z) : @expr toy := ELiteral (TInt z).
Definition set (x : string) (e : @expr toy) : tstmt := SExpression (EAssign x e).
Definition add (x : string) (z : Z) : tstmt := SExpression (EAssignOp OAdd x (int z)).

Definition machine (g : scope) : @vm toy := MkVm 0 [] [] [] TUndef g.

(** Loops, labels, exceptions with finally, a folded exception and a switch:
    [x = 0; L: for (i = 0; i < 9; i++) { try { if (i === 2) continue L; if (i === 4) throw 7; x += i }
    catch { x += 100; break L } finally { x += 1 } }
    switch (x) { case 1: x = 0; default: x += 1000; break; case 2: x = 3 }
    do { 1 in 2 } while (x)]. *)
Definition sample : list tstmt :=
  [set "x" (int 0);
   SLabelled "L" (SFor (Some (EAssign "i" (int 0))) (Some (EBinary OLt (id "i") (int 9))) (Some (EUpdate OInc true "i"))
     (STry
        [SIf (EBinary OStrictEq (id "i") (int 2)) (SBranch false (Some "L")) None;
         SIf (EBinary OStrictEq (id "i") (int 4)) (SThrow (int 7)) None;
         SExpression (EAssignOp OAdd "x" (id "i"))]
        (Some [add "x" 100; SBranch true (Some "L")])
        (Some [add "x" 1])));
   SSwitch (id "x") [(Some (int 1), [set "x" (int 0)]); (None, [add "x" 1000; SBranch true None]); (Some (int 2), [set "x" (int 3)])];
   SDoWhile (SExpression (EBinary OIn (int 1) (int 2))) (id "x")]%string.

(** What the semantics prescribes for it: the folded exception, with [x] at 1109. *)
Definition typeError : @ctype toy := Thrown (rt := toy) (TErr "TypeError" "not an object").
Definition sampleEnds : bool :=
  match execScript (rt := toy) false 30 sample g0 with
  | Some ((Thrown (TErr k m), Some TUndef), g) =>
      String.eqb k "TypeError" && String.eqb m "not an object" &&
      match get "x" g with Some (TInt z) => z =? 1109 | _ => false end
  | _ => false
  end.

Lemma isSome_true {A} (o : option A) : match o with Some _ => true | None => false end = true → ∃ x, o = Some x.
Proof. destruct o as [x|]; [by exists x|done]. Qed.

Lemma sampleEnds_spec : sampleEnds = true →
  ∃ g, execScript (rt := toy) false 30 sample g0 = Some ((typeError, Some TUndef), g) ∧ get "x" g = Some (TInt 1109).
Proof.
  unfold sampleEnds. destruct (execScript _ _ _ _) as [[[ct v] g]|]; [|done]. destruct ct as [| |w]; try done; destruct w; try done; destruct v as [[]|]; try done.
  intros [[Hk Hm]%andb_prop Hx]%andb_prop. apply String.eqb_eq in Hk as ->, Hm as ->. exists g. split; [done|].
  destruct (get "x" g) as [[]|]; try done. by apply Z.eqb_eq in Hx as ->.
Qed.

Ltac solve_okX := repeat first [split | exact I | intros [|]; discriminate].

Lemma sample_ok : okScript (rt := toy) (g0 := g0) false sample.
Proof. split; [vm_cast_no_check (eq_refl true)|]. cbn. solve_okX. Qed.

Lemma pristine_g0T : pristineT g0.
Proof. split; reflexivity. Qed.

Lemma compile_correct_witness : ∃ c g n o,
  compile (rt := toy) false g0 sample = Some c ∧ get "x" g = Some (TInt 1109) ∧
  runTry (rt := toy) n c (machine g0) = Some o ∧ Prescribed (rt := toy) typeError g o.
Proof.
  destruct (isSome_true (compile (rt := toy) false g0 sample)) as [c Hc]; [vm_cast_no_check (eq_refl true)|].
  destruct sampleEnds_spec as (g & Hg & Hx); [vm_cast_no_check (eq_refl true)|].
  destruct (compile_correct (laws := toyLaws) false sample c 30 g0 typeError (Some TUndef) g TUndef) as (n & o & H & Ho & _);
    [exact sample_ok|exact Hc|exact pristine_g0T|exact Hg|].
  exists c, g, n, o. split; [exact Hc|]. split; [exact Hx|]. split; [exact H|exact Ho].
Defined.

Lemma expression_correct_witness :
  let e := EConditional (EBinary OLt (id "x") (int 3)) (EAssignOp OAdd "x" (EBinary OMul (int 2) (int 3))) (EBinary OIn (int 1) (int 2)) in
  let g := put "x" (TInt 1) g0 in
  ∃ P, emitExpr (rt := toy) false g0 false e true [] = Some P ∧ length P = 18%nat ∧
    runTry (rt := toy) 19 P (machine g) =
    Some (Halted (MkVm 18 [TInt 7] [] [MkFrame None 0 0 tryPanicMarker (-1) (-1)] TUndef (put "x" (TInt 7) g))).
Proof.
  intros e g.
  assert (∃ P, emitExpr (rt := toy) false g0 false e true [] = Some P ∧ length P = 18%nat) as (P & HP & Hl).
  { exists (default [] (emitExpr (rt := toy) false g0 false e true [])).
    split; [vm_cast_no_check (eq_refl (emitExpr (rt := toy) false g0 false e true []))|vm_cast_no_check (eq_refl 18%nat)]. }
  exists P. split; [exact HP|]. split; [exact Hl|].
  assert (okE (rt := toy) (laws := toyLaws) e) as Hok by (cbn; solve_okX).
  assert (pristineT g) as Hp by (split; reflexivity).
  assert (eval (rt := toy) false true e g = Some (Ok (TInt 7), put "x" (TInt 7) g)) as Hy
    by vm_cast_no_check (eq_refl (eval (rt := toy) false true e g)).
  pose proof (expression_correct (laws := toyLaws) false e P g _ _ TUndef Hok HP Hp Hy) as H.
  rewrite Hl in H. exact H.
Defined.

Lemma folding_correct_witness :
  (∀ g : scope, pristineT g →
     eval (rt := toy) false true (EBinary OAdd (EBinary OMul (int 2) (int 3)) (int 1)) g = Some (Ok (TInt 7), g)) ∧
  ∃ m ctor ex' g', eval (rt := toy) false true (EBinary OIn (int 1) (int 2)) g0 = Some (Throw ex', g') ∧
    construct (Runtime := toy) ctor (option_list m) g0 = (Ok ex', g').
Proof.
  split.
  - refine (folding_correct (laws := toyLaws) false _ false [] (CVal (rt := toy) (TInt 7)) _ _ _).
    + cbn. solve_okX.
    + vm_cast_no_check (eq_refl (Some true)).
    + vm_cast_no_check (eq_refl (Some (CVal (rt := toy) (TInt 7)))).
  - destruct (folding_correct (laws := toyLaws) false (EBinary OIn (int 1) (int 2)) false []
      (CExc (rt := toy) (TErr "TypeError" "not an object") g0)) with (4 := pristine_g0T)
      as (k & m & ctor & ex' & g' & _ & _ & _ & H1 & _ & H2).
    + cbn. solve_okX.
    + vm_cast_no_check (eq_refl (Some true)).
    + vm_cast_no_check (eq_refl (Some (CExc (rt := toy) (TErr "TypeError" "not an object") g0))).
    + exists m, ctor, ex', g'. split; [exact H1|exact H2].
Defined.

(** *** Scripts outside of the covered ones *)

Definition outcomeOf (l : list tstmt) : option (@outcome toy) :=
  c ← compile (rt := toy) false g0 l; runTry (rt := toy) 200 c (machine g0).
(** A variable and the result after the run, and as the semantics prescribes. *)
Definition finalRun (x : string) (l : list tstmt) : option (option value * value) :=
  match outcomeOf l with Some (Halted m) => Some (get x (Vm.g m), result m) | _ => None end.
Definition finalSpec (x : string) (l : list tstmt) : option (option value * option value) :=
  match execScript (rt := toy) false 100 l g0 with Some ((Normal, v), g) => Some (get x g, v) | _ => None end.

(** [x = 1; L: while (x) { while (x) { if (false) break L; x = 0 } } y = 7] *)
Definition deadBranch : list tstmt :=
  [set "x" (int 1);
   SLabelled "L" (SWhile (id "x") (SWhile (id "x") (SBlock
     [SIf (ELiteral (TBool false)) (SBranch true (Some "L")) None; set "x" (int 0)])));
   set "y" (int 7)]%string.

(** The compiled script never assigns to [x]: the jump of the dead break was
    patched over the code of the script. *)
Theorem dead_branch_corrupts :
  finalSpec "x" deadBranch = Some (Some (TInt 0), Some (TInt 7)) ∧
  finalRun "x" deadBranch = Some (None, TInt 7).
Proof. split; vm_compute; reflexivity. Qed.

(** [x = 0; outer: while (x < 3) { x++; while (1) { try {} finally { if (x < 2) break outer; break } } }] *)
Definition finallyBranch : list tstmt :=
  [set "x" (int 0);
   SLabelled "outer" (SWhile (EBinary OLt (id "x") (int 3)) (SBlock
     [SExpression (EUpdate OInc true "x");
      SWhile (int 1) (STry [] None (Some
        [SIf (EBinary OLt (id "x") (int 2)) (SBranch true (Some "outer")) None; SBranch true None]))]))]%string.

(** The break to [outer] leaves for the inner loop. *)
Theorem finally_branch_redirected :
  (fst <$> finalSpec "x" finallyBranch) = Some (Some (TInt 1)) ∧
  (fst <$> finalRun "x" finallyBranch) = Some (Some (TInt 3)).
Proof. split; vm_compute; reflexivity. Qed.

(** [x = 1; while (x) { L: { x = 0; try {} finally { if (!x) continue; break L } } }] *)
Definition finallyContinue : list tstmt :=
  [set "x" (int 1);
   SWhile (id "x") (SLabelled "L" (SBlock
     [set "x" (int 0);
      STry [] None (Some [SIf (EUnary TNot (id "x")) (SBranch false None) None; SBranch true (Some "L")])]))]%string.

(** The continue is recorded in the block of the label and never patched: the
    machine meets a nil instruction. *)
Theorem finally_continue_crashes :
  (fst <$> finalSpec "x" finallyContinue) = Some (Some (TInt 0)) ∧ outcomeOf finallyContinue = Some Crash.
Proof. split; vm_compute; reflexivity. Qed.

(** [i = 0; do { do { if (i === 1) break; 7 } while (false) } while (i++ < 1)] *)
Definition doResult : list tstmt :=
  [set "i" (int 0);
   SDoWhile (SDoWhile (SBlock
       [SIf (EBinary OStrictEq (id "i") (int 1)) (SBranch true None) None; SExpression (int 7)]) (ELiteral (TBool false)))
     (EBinary OLt (EUpdate OInc true "i") (int 1))]%string.

(** The value of an earlier iteration survives an iteration without a value. *)
Theorem do_result_stale :
  (snd <$> finalSpec "i" doResult) = Some (Some TUndef) ∧ (snd <$> finalRun "i" doResult) = Some (TInt 7).
Proof. split; vm_compute; reflexivity. Qed.
End Toy.
End Scripts.
