(* ===== verification/Promises.v ===== *)
(** * Promises, jobs and async functions

    The model of builtin_promise.go, of the job queue of runtime.go and of the
    runner of async functions in func.go.

    JavaScript and Go code outside of these files is arbitrary: a program is a
    tree of type [code] whose nodes are the calls it makes back into the runtime
    (calls, constructions, function expressions, await, calls through the Go
    interface), so that it can re-enter every operation at every point where the
    source runs foreign code: executors, handlers, [then] getters, iterators,
    the rejection tracker.  The class [Host] collects these programs.

    The state is a heap of objects together with the variables the closures of
    the source share: [alreadyResolved] of a pair of resolving functions, the
    counter and values of Promise.all, the variables of a capability executor.
    [log] is a ghost variable: it records what happened and is read by no
    operation.

    Computations run on fuel, which bounds the depth of calls, the iterations of
    an iterator and the rounds of [leave]; [None] is lack of fuel only. *)

From S2P Require Import Prelude.

Module Promises.
#[local] Open Scope nat_scope.

(** ** Data *)

Inductive value := VUndef | VNull | VPrim (z : Z) | VStr (s : string) | VObj (o : nat).

#[global] Instance value_eq_dec : EqDecision value.
Proof. solve_decision. Defined.

(** How a computation ends: with a value, a JavaScript exception, an uncatchable
    exception (interrupt, stack overflow), any other Go panic. *)
Inductive res (A : Type) := Ok (a : A) | Exn (v : value) | Abort | Panic.
Arguments Ok {A}. Arguments Exn {A}. Arguments Abort {A}. Arguments Panic {A}.

Inductive PromiseState := PromiseStatePending | PromiseStateFulfilled | PromiseStateRejected.
Inductive PromiseRejectionOperation := PromiseRejectionReject | PromiseRejectionHandle.
Inductive promiseReactionType := promiseReactionFulfill | promiseReactionReject.

#[global] Instance PromiseState_eq_dec : EqDecision PromiseState.
Proof. solve_decision. Defined.

(** What a jobCallback calls: a function object or a method of an asyncRunner. *)
Inductive callee := CFn (o : nat) | COnFulfilled (ar : nat) | COnRejected (ar : nat).

Record promiseCapability := PCap { cpromise : nat; resolveObj : nat; rejectObj : nat }.

(** [owner] is ghost: the promise the reaction was added to. *)
Record promiseReaction := PReaction {
  capability : option promiseCapability; typ : promiseReactionType;
  handler : option callee; asyncCtx : option nat; owner : option nat }.

Record Promise := MkPromise {
  state : PromiseState; result : value;
  fulfillReactions : list promiseReaction; rejectReactions : list promiseReaction;
  handled : bool }.

(** The closures queued by newPromiseReactionJob and newPromiseResolveThenableJob. *)
Inductive job :=
  | JReaction (r : promiseReaction) (argument : value)
  | JThenable (p : nat) (thenable : value) (thenCb : callee).

Inductive builtin :=
  | BPromise | BThen | BCatch | BFinally | BAll | BAllSettled | BAny | BRace
  | BReject | BResolve | BTry | BWithResolvers.

Inductive fkind := JS | Go | Async.

(** Function objects; the native ones carry the variables their closures capture. *)
Inductive func :=
  | FBuiltin (b : builtin)
  | FUser (k : fkind) (n : nat)
  | FResolve (c : nat) | FReject (c : nat)
  | FExecutor (e : nat)
  | FThenFinally (onFinally : nat) (c : nat) | FCatchFinally (onFinally : nat) (c : nat)
  | FValueThunk (v : value) | FThrower (v : value)
  | FAllElement (agg index called : nat) (pcap : promiseCapability)
  | FSettledElement (fulfilled : bool) (agg index called : nat) (pcap : promiseCapability)
  | FAnyElement (agg index called : nat) (pcap : promiseCapability).

Inductive obj :=
  | OPromise (p : Promise)
  | OFunc (f : func)
  | OArray (l : list value)
  | OData (l : list (string * value))
  | OError (kind : string) (msg : string) (errors : option nat)
  | OUser (n : nat).

(** ** Foreign code *)

Section Code.
Context {U : Type}.

Inductive code :=
  | CReturn (v : value)
  | CThrow (v : value)
  | CAbort
  | CState (f : U → U) (k : U → code)
  | CFunc (kind : fkind) (n : nat) (k : value → code)
  | CObject (n : nat) (k : value → code)
  | CCall (f this : value) (args : list value) (k : res value → code)
  | CNew (f : value) (args : list value) (k : res value → code)
  | CCallable (f this : value) (args : list value) (k : res value → code)
  | CAwait (v : value) (k : res value → code).

(** How a body ended: it returned, or it is suspended at an await. *)
Inductive outcome := Done (v : value) | Awaiting (v : value) (k : res value → code).
End Code.
Arguments code : clear implicits.
Arguments outcome : clear implicits.

(** ** State *)

Inductive event :=
  | EvRegister (p : nat) (onFulfilled onRejected : promiseReaction)
  | EvSettle (p : nat) (st : PromiseState) (v : value)
  | EvEnqueue (j : job)
  | EvRun (j : job)
  | EvGrab | EvResumed (ctx : option nat) | EvExited.

(** The variable shared by the two functions of createResolvingFunctions, with
    the promise they settle. *)
Record resolving := MkResolving { target : nat; alreadyResolved : bool }.
(** values (or errors) and remainingElementsCount of Promise.all and the like. *)
Record aggregate := MkAgg { values : list value; remaining : Z }.

Section State.
Context {U : Type}.

(** asyncRunner: [gen] is the rest of the body at the last await. *)
Record runner := MkRunner { promiseCap : promiseCapability; gen : option (res value → code U) }.

Record st := MkSt {
  heap : list obj;
  cells : list resolving;
  called : list bool;
  aggs : list aggregate;
  execs : list (option value * option value);
  runners : list runner;
  jobQueue : list job;
  callStack : nat;
  log : list event;
  ustate : U }.

Definition set_heap h s := MkSt h (cells s) (called s) (aggs s) (execs s) (runners s) (jobQueue s) (callStack s) (log s) (ustate s).
Definition set_cells x s := MkSt (heap s) x (called s) (aggs s) (execs s) (runners s) (jobQueue s) (callStack s) (log s) (ustate s).
Definition set_called x s := MkSt (heap s) (cells s) x (aggs s) (execs s) (runners s) (jobQueue s) (callStack s) (log s) (ustate s).
Definition set_aggs x s := MkSt (heap s) (cells s) (called s) x (execs s) (runners s) (jobQueue s) (callStack s) (log s) (ustate s).
Definition set_execs x s := MkSt (heap s) (cells s) (called s) (aggs s) x (runners s) (jobQueue s) (callStack s) (log s) (ustate s).
Definition set_runners x s := MkSt (heap s) (cells s) (called s) (aggs s) (execs s) x (jobQueue s) (callStack s) (log s) (ustate s).
Definition set_jobQueue x s := MkSt (heap s) (cells s) (called s) (aggs s) (execs s) (runners s) x (callStack s) (log s) (ustate s).
Definition set_callStack x s := MkSt (heap s) (cells s) (called s) (aggs s) (execs s) (runners s) (jobQueue s) x (log s) (ustate s).
Definition set_log x s := MkSt (heap s) (cells s) (called s) (aggs s) (execs s) (runners s) (jobQueue s) (callStack s) x (ustate s).
Definition set_ustate x s := MkSt (heap s) (cells s) (called s) (aggs s) (execs s) (runners s) (jobQueue s) (callStack s) (log s) x.
End State.
Arguments runner : clear implicits.
Arguments st : clear implicits.

(** The foreign code of a runtime: the bodies of its functions and constructors,
    property reads, the rejection tracker, and whether an AsyncContextTracker is
    set (its calls are events of the log). *)
Class Host (U : Type) := {
  body : nat → value → list value → code U;
  ctor : nat → list value → nat → code U;
  isCtor : nat → bool;
  prop : st U → value → string → code U;
  tracker : option (nat → PromiseRejectionOperation → code U);
  asyncContextTracker : bool;
  maxCallStackSize : nat }.

(** ** The monad *)

Section Operations.
Context {U : Type} {host : Host U}.

Definition M (A : Type) : Type := st U → option (res A * st U).

#[global] Instance M_ret : MRet M := λ A a s, Some (Ok a, s).
#[global] Instance M_bind : MBind M := λ A B k m s,
  match m s with
  | Some (Ok a, s') => k a s'
  | Some (Exn v, s') => Some (Exn v, s')
  | Some (Abort, s') => Some (Abort, s')
  | Some (Panic, s') => Some (Panic, s')
  | None => None
  end.

Definition throw {A} (v : value) : M A := λ s, Some (Exn v, s).
Definition abort {A} : M A := λ s, Some (Abort, s).
Definition panic {A} : M A := λ s, Some (Panic, s).
Definition noFuel {A} : M A := λ _, None.
Definition gets {A} (f : st U → A) : M A := λ s, Some (Ok (f s), s).
Definition modify (f : st U → st U) : M unit := λ s, Some (Ok (), f s).

(** vm.try: exceptions are caught, uncatchable ones are not. *)
Definition try {A} (m : M A) : M (A + value) := λ s,
  match m s with
  | Some (Ok a, s') => Some (Ok (inl a), s')
  | Some (Exn v, s') => Some (Ok (inr v), s')
  | Some (Abort, s') => Some (Abort, s')
  | Some (Panic, s') => Some (Panic, s')
  | None => None
  end.

(** tryFunc recovers from everything. *)
Definition tryFunc {A} (m : M A) : M (res A) := λ s,
  match m s with Some (r, s') => Some (Ok r, s') | None => None end.
Definition rethrow {A B} (r : res A) : M B :=
  match r with Exn v => throw v | Abort => abort | _ => panic end.

Definition logEvent (e : event) : M unit := modify (λ s, set_log (log s ++ [e]) s).

(** ** Objects *)

Definition alloc (o : obj) : M nat := λ s, Some (Ok (length (heap s)), set_heap (heap s ++ [o]) s).
Definition newNativeFunc (f : func) : M nat := alloc (OFunc f).
Definition NewTypeError (msg : string) : M value := o ← alloc (OError "TypeError" msg None); mret (VObj o).
Definition throwTypeError {A} (msg : string) : M A := e ← NewTypeError msg; throw e.
Definition newArrayValues (l : list value) : M value := o ← alloc (OArray l); mret (VObj o).
Definition newAggregateErrorErrors (l : list value) : M value :=
  a ← alloc (OArray l); o ← alloc (OError "AggregateError" "" (Some a)); mret (VObj o).

Definition Argument (i : nat) (args : list value) : value := default VUndef (args !! i).

Definition funcAt (s : st U) (o : nat) : option func :=
  match heap s !! o with Some (OFunc f) => Some f | _ => None end.
Definition promiseAt (s : st U) (o : nat) : option Promise :=
  match heap s !! o with Some (OPromise p) => Some p | _ => None end.

Definition assertCallable (v : value) : M (option nat) :=
  match v with
  | VObj o => gets (λ s, match funcAt s o with Some _ => Some o | None => None end)
  | _ => mret None
  end.

Definition toObject (v : value) : M nat :=
  match v with VObj o => mret o | _ => throwTypeError "Value is not an object" end.

Definition toCallable (v : value) : M nat :=
  o ← toObject v; f ← assertCallable (VObj o);
  match f with Some f => mret f | None => throwTypeError "Value is not callable" end.

(** The objects that have a [[Construct]] method. *)
Definition assertConstructor (s : st U) (o : nat) : bool :=
  match funcAt s o with
  | Some (FBuiltin BPromise) => true
  | Some (FUser _ n) => isCtor n
  | _ => false
  end.

Definition toMethod (v : value) : M (option nat) :=
  match v with
  | VUndef | VNull => mret None
  | _ => f ← assertCallable v;
         match f with Some f => mret (Some f) | None => throwTypeError "not a method" end
  end.

Definition getPromiseObj (p : nat) : M Promise :=
  o ← gets (λ s, promiseAt s p); match o with Some po => mret po | None => panic end.
Definition updatePromise (p : nat) (f : Promise → Promise) : M unit :=
  po ← getPromiseObj p; modify (λ s, set_heap (<[p := OPromise (f po)]> (heap s)) s).

(** r.getPromise(): the constructor is the first object of the heap. *)
Definition promiseCtor : nat := 0.

(** A frame is pushed for the time of a call; pushCtx checks for overflow. *)
Definition inCtx {A} (m : M A) : M A := λ s,
  if bool_decide (maxCallStackSize < callStack s)%nat then Some (Abort, s)
  else match m (set_callStack (S (callStack s)) s) with
       | Some (r, s') => Some (r, set_callStack (callStack s) s')
       | None => None
       end.

(** ** Promises *)

Definition newPromise : M nat := alloc (OPromise (MkPromise PromiseStatePending VUndef [] [] false)).

Definition enqueuePromiseJob (j : job) : M unit :=
  modify (λ s, set_jobQueue (jobQueue s ++ [j]) s);; logEvent (EvEnqueue j).

Fixpoint triggerPromiseReactions (reactions : list promiseReaction) (argument : value) : M unit :=
  match reactions with
  | [] => mret ()
  | r :: reactions => enqueuePromiseJob (JReaction r argument);; triggerPromiseReactions reactions argument
  end.

Definition createResolvingFunctions (p : nat) : M (nat * nat) :=
  c ← gets (λ s, length (cells s));
  modify (λ s, set_cells (cells s ++ [MkResolving p false]) s);;
  resolve ← newNativeFunc (FResolve c);
  reject ← newNativeFunc (FReject c);
  mret (resolve, reject).

(** *** Calls

    [call] calls a function object, a method of an async runner, or constructs
    with a new target; it is the recursive call of the interpreter.  [loop] is
    the fuel of loops. *)

Inductive how := Call (this : value) | Construct (newTarget : nat).

Section Calls.
Context (call : callee → how → list value → M value) (loop : nat).

Definition callJobCallback (cb : callee) (this : value) (args : list value) : M value := call cb (Call this) args.

Definition pcapResolve (pcap : promiseCapability) (v : value) : M unit :=
  f ← toCallable (VObj (resolveObj pcap)); _ ← call (CFn f) (Call VUndef) [v]; mret ().
Definition pcapReject (pcap : promiseCapability) (v : value) : M unit :=
  f ← toCallable (VObj (rejectObj pcap)); _ ← call (CFn f) (Call VUndef) [v]; mret ().
Definition pcapTry (pcap : promiseCapability) (m : M unit) : M bool :=
  r ← try m;
  match r with inl _ => mret true | inr e => pcapReject pcap e;; mret false end.

(** The job of newPromiseResolveThenableJob. *)
Definition promiseResolveThenableJob (p : nat) (thenable : value) (thenCb : callee) : M unit :=
  '(resolve, reject) ← createResolvingFunctions p;
  ex ← try (callJobCallback thenCb thenable [VObj resolve; VObj reject]);
  match ex with
  | inl _ => mret ()
  | inr e => fn ← assertCallable (VObj reject);
             match fn with Some fn => _ ← call (CFn fn) (Call VUndef) [e]; mret () | None => mret () end
  end.

(** The job of newPromiseReactionJob. *)
Definition promiseReactionJob (reaction : promiseReaction) (argument : value) : M unit :=
  '(handlerResult, fulfill) ←
    match handler reaction with
    | None => mret (argument, match typ reaction with promiseReactionFulfill => true | promiseReactionReject => false end)
    | Some h =>
        (if asyncContextTracker then logEvent (EvResumed (asyncCtx reaction)) else mret ());;
        ex ← try (callJobCallback h VUndef [argument]);
        (if asyncContextTracker then logEvent EvExited else mret ());;
        mret (match ex with inl v => (v, true) | inr e => (e, false) end)
    end;
  match capability reaction with
  | None => mret ()
  | Some c => if (fulfill : bool) then pcapResolve c handlerResult else pcapReject c handlerResult
  end.

Definition runJob (j : job) : M unit :=
  logEvent (EvRun j);;
  match j with
  | JReaction r v => promiseReactionJob r v
  | JThenable p t cb => promiseResolveThenableJob p t cb
  end.

Fixpoint runJobs (l : list job) : M unit :=
  match l with [] => mret () | j :: l => runJob j;; runJobs l end.

(** leave takes the whole queue, runs it, and takes what was queued meanwhile. *)
Fixpoint leaveLoop (fuel : nat) : M unit :=
  jobs ← gets jobQueue;
  match jobs with
  | [] => mret ()
  | _ => match fuel with
         | O => noFuel
         | S fuel => modify (set_jobQueue []);; runJobs jobs;; leaveLoop fuel
         end
  end.
Definition leave : M unit := leaveLoop loop;; modify (set_jobQueue []).
Definition leaveAbrupt : M unit := modify (set_jobQueue []).

(** runWrapped returns the error of f instead of panicking.  The jobs run when
    the call stack is empty; an exception that escapes a job panics. *)
Definition runWrapped {A} (f : M A) : M (res A) :=
  r ← tryFunc (
    ex ← try f;
    depth ← gets callStack;
    (if bool_decide (depth = 0) then leave else mret ());;
    mret ex);
  match r with
  | Ok (inl a) => mret (Ok a)
  | Ok (inr e) => mret (Exn e)
  | Abort => depth ← gets callStack; (if bool_decide (depth = 0) then leaveAbrupt else mret ());; mret Abort
  | Exn _ | Panic => rethrow r
  end.

Definition callValue (f this : value) (args : list value) : M value :=
  f ← toCallable f; call (CFn f) (Call this) args.

Definition toConstructor (v : value) : M nat :=
  o ← toObject v; b ← gets (λ s, assertConstructor s o);
  if (b : bool) then mret o else throwTypeError "Value is not a constructor".

Definition fromSum {A} (x : A + value) : res A := match x with inl a => Ok a | inr e => Exn e end.

(** Foreign code, up to its end or to the next await. *)
Fixpoint exec (c : code U) : M (outcome U) :=
  match c with
  | CReturn v => mret (Done v)
  | CThrow v => throw v
  | CAbort => abort
  | CState f k => λ s, exec (k (ustate s)) (set_ustate (f (ustate s)) s)
  | CFunc kind n k => o ← alloc (OFunc (FUser kind n)); exec (k (VObj o))
  | CObject n k => o ← alloc (OUser n); exec (k (VObj o))
  | CCall f this args k => r ← try (callValue f this args); exec (k (fromSum r))
  | CNew f args k => r ← try (c ← toConstructor f; call (CFn c) (Construct c) args); exec (k (fromSum r))
  | CCallable f this args k =>
      fn ← assertCallable f;
      match fn with
      | Some fn => r ← runWrapped (call (CFn fn) (Call this) args); exec (k r)
      | None => exec (k (Exn VUndef))
      end
  | CAwait v k => mret (Awaiting v k)
  end.

(** Code that is not the body of an async function has no await. *)
Definition run (c : code U) : M value :=
  o ← exec c; match o with Done v => mret v | Awaiting _ _ => panic end.

Definition trackPromiseRejection (p : nat) (op : PromiseRejectionOperation) : M unit :=
  match tracker with Some t => _ ← run (t p op); mret () | None => mret () end.

(** obj.self.getStr and getSym; a missing property reads as undefined. *)
Definition getProp (v : value) (name : string) : M value := λ s, run (prop s v name) s.
(** r.getV and the lookup of r.invoke: ToObject throws on undefined and null. *)
Definition getV (v : value) (name : string) : M value :=
  match v with
  | VUndef | VNull => throwTypeError "Cannot convert undefined or null to object"
  | _ => getProp v name
  end.
Definition invoke (v : value) (name : string) (args : list value) : M value :=
  f ← getV v name; callValue f v args.

Definition speciesConstructorObj (o defaultConstructor : nat) : M nat :=
  c ← getProp (VObj o) "constructor";
  c ← (if bool_decide (c = VUndef) then mret c else c ← toObject c; getProp (VObj c) "@@species");
  match c with
  | VUndef | VNull => mret defaultConstructor
  | _ => toConstructor c
  end.

(** *** Settling *)

Definition reject (p : nat) (reason : value) : M value :=
  po ← getPromiseObj p;
  let reactions := rejectReactions po in
  updatePromise p (λ po, MkPromise PromiseStateRejected reason [] [] (handled po));;
  logEvent (EvSettle p PromiseStateRejected reason);;
  (if handled po then mret () else trackPromiseRejection p PromiseRejectionReject);;
  triggerPromiseReactions reactions reason;;
  mret VUndef.

Definition fulfill (p : nat) (v : value) : M value :=
  po ← getPromiseObj p;
  let reactions := fulfillReactions po in
  updatePromise p (λ po, MkPromise PromiseStateFulfilled v [] [] (handled po));;
  logEvent (EvSettle p PromiseStateFulfilled v);;
  triggerPromiseReactions reactions v;;
  mret VUndef.

(** The first of the resolving functions. *)
Definition resolveFunction (c : nat) (args : list value) : M value :=
  cell ← gets (λ s, cells s !! c);
  match cell with
  | None => panic
  | Some (MkResolving p true) => mret VUndef
  | Some (MkResolving p false) =>
      modify (λ s, set_cells (<[c := MkResolving p true]> (cells s)) s);;
      let resolution := Argument 0 args in
      if bool_decide (resolution = VObj p) then
        e ← NewTypeError "Promise self-resolution"; reject p e
      else match resolution with
      | VObj _ =>
          thenAction ← try (getProp resolution "then");
          match thenAction with
          | inr e => reject p e
          | inl thenAction =>
              cb ← assertCallable thenAction;
              match cb with
              | Some f => enqueuePromiseJob (JThenable p resolution (CFn f));; mret VUndef
              | None => fulfill p resolution
              end
          end
      | _ => fulfill p resolution
      end
  end.

(** The second one. *)
Definition rejectFunction (c : nat) (args : list value) : M value :=
  cell ← gets (λ s, cells s !! c);
  match cell with
  | None => panic
  | Some (MkResolving p true) => mret VUndef
  | Some (MkResolving p false) =>
      modify (λ s, set_cells (<[c := MkResolving p true]> (cells s)) s);;
      reject p (Argument 0 args)
  end.

(** *** Reactions *)

Definition withCtx (ctx : option nat) (p : nat) (r : promiseReaction) : promiseReaction :=
  PReaction (capability r) (typ r) (handler r) ctx (Some p).

Definition addReactions (p : nat) (fulfillReaction rejectReaction : promiseReaction) : M unit :=
  ctx ← (if asyncContextTracker then logEvent EvGrab;; gets (λ s, Some (length (log s))) else mret None);
  let fulfillReaction := withCtx ctx p fulfillReaction in
  let rejectReaction := withCtx ctx p rejectReaction in
  po ← getPromiseObj p;
  match state po with
  | PromiseStatePending =>
      updatePromise p (λ po, MkPromise (state po) (result po) (fulfillReactions po ++ [fulfillReaction])
                               (rejectReactions po ++ [rejectReaction]) (handled po));;
      logEvent (EvRegister p fulfillReaction rejectReaction)
  | PromiseStateFulfilled =>
      logEvent (EvRegister p fulfillReaction rejectReaction);;
      enqueuePromiseJob (JReaction fulfillReaction (result po))
  | PromiseStateRejected =>
      let reason := result po in
      (if handled po then mret () else trackPromiseRejection p PromiseRejectionHandle);;
      logEvent (EvRegister p fulfillReaction rejectReaction);;
      enqueuePromiseJob (JReaction rejectReaction reason)
  end;;
  updatePromise p (λ po, MkPromise (state po) (result po) (fulfillReactions po) (rejectReactions po) true).

Definition performPromiseThen (p : nat) (onFulfilled onRejected : value) (resultCapability : option promiseCapability) : M value :=
  onFulfilledJobCallback ← assertCallable onFulfilled;
  onRejectedJobCallback ← assertCallable onRejected;
  addReactions p
    (PReaction resultCapability promiseReactionFulfill (CFn <$> onFulfilledJobCallback) None None)
    (PReaction resultCapability promiseReactionReject (CFn <$> onRejectedJobCallback) None None);;
  mret (match resultCapability with None => VUndef | Some c => VObj (cpromise c) end).

(** *** Construction and capabilities *)

Definition getPrototypeFromCtor (newTarget : nat) : M unit :=
  if bool_decide (newTarget = promiseCtor) then mret () else _ ← getProp (VObj newTarget) "prototype"; mret ().

Definition builtin_newPromise (args : list value) (newTarget : option nat) : M value :=
  match newTarget with
  | None => throwTypeError "Constructor Promise requires 'new'"
  | Some newTarget =>
      executor ← toCallable (Argument 0 args);
      getPrototypeFromCtor newTarget;;
      po ← newPromise;
      '(resolve, reject) ← createResolvingFunctions po;
      ex ← try (call (CFn executor) (Call VUndef) [VObj resolve; VObj reject]);
      match ex with
      | inl _ => mret ()
      | inr e => fn ← assertCallable (VObj reject);
                 match fn with Some fn => _ ← call (CFn fn) (Call VUndef) [e]; mret () | None => mret () end
      end;;
      mret (VObj po)
  end.

(** The executor newPromiseCapability passes to a foreign constructor. *)
Definition executorFunction (e : nat) (args : list value) : M value :=
  x ← gets (λ s, execs s !! e);
  match x with
  | None => panic
  | Some (Some _, _) => throwTypeError "resolve is already set"
  | Some (None, Some _) => throwTypeError "reject is already set"
  | Some (None, None) =>
      let set v := if bool_decide (v = VUndef) then None else Some v in
      modify (λ s, set_execs (<[e := (set (Argument 0 args), set (Argument 1 args))]> (execs s)) s);;
      mret VUndef
  end.

Definition newPromiseCapability (c : nat) : M promiseCapability :=
  if bool_decide (c = promiseCtor) then
    p ← newPromise;
    '(resolve, reject) ← createResolvingFunctions p;
    mret (PCap p resolve reject)
  else
    e ← gets (λ s, length (execs s));
    modify (λ s, set_execs (execs s ++ [(None, None)]) s);;
    executor ← newNativeFunc (FExecutor e);
    ctor ← toConstructor (VObj c);
    promise ← call (CFn ctor) (Construct c) [VObj executor];
    promise ← toObject promise;
    x ← gets (λ s, execs s !! e);
    let '(resolve, reject) := default (None, None) x in
    resolveObj ← toObject (default VUndef resolve);
    _ ← toCallable (VObj resolveObj);
    rejectObj ← toObject (default VUndef reject);
    _ ← toCallable (VObj rejectObj);
    mret (PCap promise resolveObj rejectObj).

Definition promiseProto_then (this : value) (args : list value) : M value :=
  thisObj ← toObject this;
  p ← gets (λ s, promiseAt s thisObj);
  match p with
  | Some _ =>
      c ← speciesConstructorObj thisObj promiseCtor;
      resultCapability ← newPromiseCapability c;
      performPromiseThen thisObj (Argument 0 args) (Argument 1 args) (Some resultCapability)
  | None => throwTypeError "Method Promise.prototype.then called on incompatible receiver"
  end.

Definition promiseProto_catch (this : value) (args : list value) : M value :=
  invoke this "then" [VUndef; Argument 0 args].

Definition promiseResolve (c : nat) (x : value) : M nat :=
  same ← match x with
         | VObj o =>
             p ← gets (λ s, promiseAt s o);
             match p with
             | Some _ => xConstructor ← getProp x "constructor";
                         mret (if bool_decide (xConstructor = VObj c) then Some o else None)
             | None => mret None
             end
         | _ => mret None
         end;
  match same with
  | Some o => mret o
  | None => pcap ← newPromiseCapability c; pcapResolve pcap x;; mret (cpromise pcap)
  end.

Definition promiseProto_finally (this : value) (args : list value) : M value :=
  promise ← toObject this;
  c ← speciesConstructorObj promise promiseCtor;
  let onFinally := Argument 0 args in
  fn ← assertCallable onFinally;
  '(thenFinally, catchFinally) ←
    match fn with
    | None => mret (onFinally, onFinally)
    | Some onFinallyFn =>
        t ← newNativeFunc (FThenFinally onFinallyFn c);
        k ← newNativeFunc (FCatchFinally onFinallyFn c);
        mret (VObj t, VObj k)
    end;
  invoke (VObj promise) "then" [thenFinally; catchFinally].

Definition finallyFunction (onFinallyFn c : nat) (mk : value → func) (args : list value) : M value :=
  let v := Argument 0 args in
  result ← call (CFn onFinallyFn) (Call VUndef) [];
  promise ← promiseResolve c result;
  thunk ← newNativeFunc (mk v);
  invoke (VObj promise) "then" [VObj thunk].

(** *** Iteration, for iterators without the shortcut of the built-in ones *)

Record iteratorRecord := MkIter { iterator : nat; next : option nat }.

Definition getIteratorDirect (o : nat) : M iteratorRecord :=
  n ← getProp (VObj o) "next"; n ← assertCallable n; mret (MkIter o n).

Definition getIterator (v : value) : M iteratorRecord :=
  m ← getV v "@@iterator"; m ← toMethod m;
  match m with
  | Some m => iter ← call (CFn m) (Call v) []; iter ← toObject iter; getIteratorDirect iter
  | None => throwTypeError "object is not iterable"
  end.

Definition ToBoolean (v : value) : bool :=
  match v with
  | VUndef | VNull => false
  | VPrim z => negb (bool_decide (z = 0%Z))
  | VStr s => negb (bool_decide (s = ""%string))
  | VObj _ => true
  end.

Definition stepValue (ir : iteratorRecord) : M (option value) :=
  match next ir with
  | None => throwTypeError "iterator.next is missing or not a function"
  | Some n =>
      res ← call (CFn n) (Call (VObj (iterator ir))) []; res ← toObject res;
      d ← getProp (VObj res) "done";
      if ToBoolean d then mret None else v ← getProp (VObj res) "value"; mret (Some v)
  end.

Definition returnIter (ir : iteratorRecord) : M unit :=
  m ← getProp (VObj (iterator ir)) "return"; m ← toMethod m;
  match m with
  | Some m => v ← call (CFn m) (Call (VObj (iterator ir))) []; _ ← toObject v; mret ()
  | None => mret ()
  end.

Fixpoint iterateLoop (fuel : nat) (ir : iteratorRecord) (step : value → M unit) : M unit :=
  match fuel with
  | O => noFuel
  | S fuel =>
      v ← stepValue ir;
      match v with
      | None => mret ()
      | Some v =>
          ret ← tryFunc (step v);
          match ret with
          | Ok _ => iterateLoop fuel ir step
          | _ => _ ← tryFunc (returnIter ir); rethrow ret
          end
      end
  end.
Definition iterate (ir : iteratorRecord) (step : value → M unit) : M unit := iterateLoop loop ir step.

(** *** Combinators *)

Definition getAgg (a : nat) : M aggregate :=
  x ← gets (λ s, aggs s !! a); match x with Some x => mret x | None => panic end.
Definition setAgg (a : nat) (x : aggregate) : M unit := modify (λ s, set_aggs (<[a := x]> (aggs s)) s).

(** The start of a combinator: values is empty, remainingElementsCount is 1. *)
Definition newAgg : M nat :=
  a ← gets (λ s, length (aggs s)); modify (λ s, set_aggs (aggs s ++ [MkAgg [] 1]) s);; mret a.
Definition newCalled : M nat :=
  c ← gets (λ s, length (called s)); modify (λ s, set_called (called s ++ [false]) s);; mret c.

(** index := len(values); values = append(values, _undefined) *)
Definition reserve (a : nat) : M nat :=
  x ← getAgg a; setAgg a (MkAgg (values x ++ [VUndef]) (remaining x));; mret (length (values x)).
Definition countUp (a : nat) : M unit := x ← getAgg a; setAgg a (MkAgg (values x) (remaining x + 1)).
(** remainingElementsCount--, with the action for the last element. *)
Definition countDown (a : nat) (last : list value → M unit) : M unit :=
  x ← getAgg a;
  setAgg a (MkAgg (values x) (remaining x - 1));;
  if bool_decide (remaining x - 1 = 0)%Z then last (values x) else mret ().

Definition resolveValues (pcap : promiseCapability) (l : list value) : M unit :=
  v ← newArrayValues l; pcapResolve pcap v.
Definition rejectErrors (pcap : promiseCapability) (l : list value) : M unit :=
  v ← newAggregateErrorErrors l; pcapReject pcap v.

(** The functions given to the elements: the first call stores its value. *)
Definition elementFunction (a index c : nat) (v : M value) (last : list value → M unit) : M value :=
  done ← gets (λ s, called s !! c);
  match done with
  | None => panic
  | Some true => mret VUndef
  | Some false =>
      modify (λ s, set_called (<[c := true]> (called s)) s);;
      v ← v;
      x ← getAgg a;
      (if bool_decide (index < length (values x))%nat
       then setAgg a (MkAgg (<[index := v]> (values x)) (remaining x)) else panic);;
      countDown a last;; mret VUndef
  end.

Definition settledObject (fulfilled : bool) (v : value) : M value :=
  o ← alloc (OData [("status", VStr (if fulfilled then "fulfilled" else "rejected"));
                    (if fulfilled then "value" else "reason", v)]%string);
  mret (VObj o).

Definition combine (this : value) (args : list value)
    (element : nat → promiseCapability → value → value → M unit) (last : promiseCapability → list value → M unit) : M value :=
  c ← toObject this;
  pcap ← newPromiseCapability c;
  _ ← pcapTry pcap (
    promiseResolve ← getProp (VObj c) "resolve"; promiseResolve ← toCallable promiseResolve;
    iter ← getIterator (Argument 0 args);
    a ← newAgg;
    iterate iter (λ nextValue, element a pcap (VObj promiseResolve) nextValue);;
    countDown a (last pcap));
  mret (VObj (cpromise pcap)).

(** The step of the iteration: the promise of the element is made between the
    reservation of its place and the creation of its functions. *)
Definition elementStep (c : value) (mk : nat → nat → M (value * value)) (a : nat) (promiseResolve nextValue : value) : M unit :=
  index ← reserve a;
  nextPromise ← callValue promiseResolve c [nextValue];
  alreadyCalled ← newCalled;
  '(onFulfilled, onRejected) ← mk index alreadyCalled;
  countUp a;;
  _ ← invoke nextPromise "then" [onFulfilled; onRejected];
  mret ().

Definition promise_all (this : value) (args : list value) : M value :=
  combine this args (λ a pcap, elementStep this (λ index k,
    f ← newNativeFunc (FAllElement a index k pcap); mret (VObj f, VObj (rejectObj pcap))) a) resolveValues.

Definition promise_allSettled (this : value) (args : list value) : M value :=
  combine this args (λ a pcap, elementStep this (λ index k,
    f ← newNativeFunc (FSettledElement true a index k pcap);
    r ← newNativeFunc (FSettledElement false a index k pcap); mret (VObj f, VObj r)) a) resolveValues.

Definition promise_any (this : value) (args : list value) : M value :=
  combine this args (λ a pcap, elementStep this (λ index k,
    r ← newNativeFunc (FAnyElement a index k pcap); mret (VObj (resolveObj pcap), VObj r)) a) rejectErrors.

Definition promise_race (this : value) (args : list value) : M value :=
  c ← toObject this;
  pcap ← newPromiseCapability c;
  _ ← pcapTry pcap (
    promiseResolve ← getProp (VObj c) "resolve"; promiseResolve ← toCallable promiseResolve;
    iter ← getIterator (Argument 0 args);
    iterate iter (λ nextValue,
      nextPromise ← call (CFn promiseResolve) (Call (VObj c)) [nextValue];
      _ ← invoke nextPromise "then" [VObj (resolveObj pcap); VObj (rejectObj pcap)]; mret ()));
  mret (VObj (cpromise pcap)).

Definition promise_reject (this : value) (args : list value) : M value :=
  c ← toObject this; pcap ← newPromiseCapability c;
  pcapReject pcap (Argument 0 args);; mret (VObj (cpromise pcap)).

Definition promise_resolve (this : value) (args : list value) : M value :=
  c ← toObject this; p ← promiseResolve c (Argument 0 args); mret (VObj p).

Definition promise_try (this : value) (args : list value) : M value :=
  c ← toObject this;
  ex ← try (f ← toCallable (Argument 0 args); call (CFn f) (Call VUndef) (drop 1 args));
  match ex with
  | inr e => pcap ← newPromiseCapability c; pcapReject pcap e;; mret (VObj (cpromise pcap))
  | inl result => p ← promiseResolve c result; mret (VObj p)
  end.

Definition promise_withResolvers (this : value) : M value :=
  c ← toObject this; pcap ← newPromiseCapability c;
  o ← alloc (OData [("promise", VObj (cpromise pcap)); ("resolve", VObj (resolveObj pcap));
                    ("reject", VObj (rejectObj pcap))]%string);
  mret (VObj o).

(** *** Async functions *)

(** asyncRunner.step: the function ended or is at an await. *)
Definition asyncStep (ar : nat) (pcap : promiseCapability) (r : outcome U + value) : M unit :=
  match r with
  | inl (Done v) => pcapResolve pcap v
  | inr e => pcapReject pcap e
  | inl (Awaiting v k) =>
      modify (λ s, set_runners (<[ar := MkRunner pcap (Some k)]> (runners s)) s);;
      promise ← promiseResolve promiseCtor v;
      addReactions promise
        (PReaction None promiseReactionFulfill (Some (COnFulfilled ar)) None None)
        (PReaction None promiseReactionReject (Some (COnRejected ar)) None None)
  end.

(** asyncRunner.start with asyncCall. *)
Definition asyncCall (c : code U) : M value :=
  pcap ← newPromiseCapability promiseCtor;
  ar ← gets (λ s, length (runners s));
  modify (λ s, set_runners (runners s ++ [MkRunner pcap None]) s);;
  inCtx (r ← try (inCtx (exec c)); asyncStep ar pcap r);;
  mret (VObj (cpromise pcap)).

(** asyncRunner.onFulfilled and onRejected: the body goes on after the await. *)
Definition asyncResume (ar : nat) (r : res value) : M value :=
  x ← gets (λ s, runners s !! ar);
  match x with
  | Some (MkRunner pcap (Some k)) => o ← try (inCtx (exec (k r))); asyncStep ar pcap o;; mret VUndef
  | _ => panic
  end.

(** *** All functions *)

Definition callFunc (f : func) (h : how) (args : list value) : M value :=
  let this := match h with Call t => t | Construct _ => VUndef end in
  match f with
  | FBuiltin b =>
      match b with
      | BPromise => builtin_newPromise args (match h with Call _ => None | Construct nt => Some nt end)
      | BThen => promiseProto_then this args
      | BCatch => promiseProto_catch this args
      | BFinally => promiseProto_finally this args
      | BAll => promise_all this args
      | BAllSettled => promise_allSettled this args
      | BAny => promise_any this args
      | BRace => promise_race this args
      | BReject => promise_reject this args
      | BResolve => promise_resolve this args
      | BTry => promise_try this args
      | BWithResolvers => promise_withResolvers this
      end
  | FUser k n =>
      match h, k with
      | Construct nt, _ => v ← inCtx (run (ctor n args nt)); o ← toObject v; mret (VObj o)
      | Call this, JS => inCtx (run (body n this args))
      | Call this, Go => run (body n this args)
      | Call this, Async => asyncCall (body n this args)
      end
  | FResolve c => resolveFunction c args
  | FReject c => rejectFunction c args
  | FExecutor e => executorFunction e args
  | FThenFinally onFinally c => finallyFunction onFinally c FValueThunk args
  | FCatchFinally onFinally c => finallyFunction onFinally c FThrower args
  | FValueThunk v => mret v
  | FThrower v => throw v
  | FAllElement a i k pcap => elementFunction a i k (mret (Argument 0 args)) (resolveValues pcap)
  | FSettledElement ok a i k pcap => elementFunction a i k (settledObject ok (Argument 0 args)) (resolveValues pcap)
  | FAnyElement a i k pcap => elementFunction a i k (mret (Argument 0 args)) (rejectErrors pcap)
  end.

Definition callBody (x : callee) (h : how) (args : list value) : M value :=
  match x with
  | CFn o => f ← gets (λ s, funcAt s o); match f with Some f => callFunc f h args | None => panic end
  | COnFulfilled ar => asyncResume ar (Ok (Argument 0 args))
  | COnRejected ar => asyncResume ar (Exn (Argument 0 args))
  end.
End Calls.

Fixpoint call (n : nat) : callee → how → list value → M value :=
  match n with
  | O => λ _ _ _, noFuel
  | S n => callBody (call n) n
  end.

(** ** Entry points *)

(** RunProgram: the error is the second component of the source's result. *)
Definition RunProgram (n : nat) (prg : code U) : M (res value) :=
  depth ← gets callStack;
  if bool_decide (0 < depth)%nat then
    r ← tryFunc (inCtx (try (run (call n) n prg)));
    match r with
    | Ok (inl v) => mret (Ok v) | Ok (inr e) => mret (Exn e)
    | Abort => mret Abort
    | Exn _ | Panic => rethrow r
    end
  else
    modify (set_callStack 1);;
    r ← tryFunc (ex ← try (run (call n) n prg); leave (call n) n;; mret ex);
    modify (set_callStack 0);;
    match r with
    | Ok (inl v) => mret (Ok v) | Ok (inr e) => mret (Exn e)
    | Abort => leaveAbrupt;; mret Abort
    | Exn _ | Panic => rethrow r
    end.

(** A call of a function value from Go: AssertFunction. *)
Definition Callable (n : nat) (f this : value) (args : list value) : M (option (res value)) :=
  fn ← assertCallable f;
  match fn with
  | Some fn => r ← runWrapped (call n) n (call n (CFn fn) (Call this) args); mret (Some r)
  | None => mret None
  end.

(** NewPromise: the promise with its resolving functions, which Go calls through
    wrapPromiseReaction, that is as [Callable]. *)
Definition NewPromise : M (nat * nat * nat) :=
  p ← newPromise; '(resolve, reject) ← createResolvingFunctions p; mret (p, resolve, reject).

(** The objects made by createPromise and createPromiseProto. *)
Definition initHeap : list obj :=
  (OFunc ∘ FBuiltin) <$> [BPromise; BThen; BCatch; BFinally; BAll; BAllSettled; BAny; BRace; BReject; BResolve; BTry; BWithResolvers].
Definition init (u : U) : st U := MkSt initHeap [] [] [] [] [] [] 0 [] u.
End Operations.
End Promises.
