(* ===== verification/PromiseInv.v ===== *)
(** * The invariant of promises

    Every pending promise can be settled by at most one agent: a pair of
    resolving functions that was not used, a queued thenable job, or a running
    operation that has used up its pair ([Inv], first two fields; the promises of
    running operations are its first argument).  With it the ghost log determines
    the state of every promise ([PromiseOk]).  Every operation keeps the
    invariant, whatever foreign code it runs. *)

From S2P Require Import Prelude Promises.
Import Promises.

Module PromiseInv.
#[local] Open Scope nat_scope.
Create HintDb promises.

(** ** What the log says *)

Definition registered (p : nat) (l : list event) : list (promiseReaction * promiseReaction) :=
  omap (λ e, match e with EvRegister q f r => if decide (q = p) then Some (f, r) else None | _ => None end) l.
Definition settles (p : nat) (l : list event) : list (PromiseState * value) :=
  omap (λ e, match e with EvSettle q st v => if decide (q = p) then Some (st, v) else None | _ => None end) l.
Definition enqueued (l : list event) : list job :=
  omap (λ e, match e with EvEnqueue j => Some j | _ => None end) l.
Definition ran (l : list event) : list job :=
  omap (λ e, match e with EvRun j => Some j | _ => None end) l.

(** The reaction jobs of a promise among a list of jobs. *)
Definition reactionsOf (p : nat) (l : list job) : list (promiseReaction * value) :=
  omap (λ j, match j with
             | JReaction r v => if decide (owner r = Some p) then Some (r, v) else None
             | JThenable _ _ _ => None end) l.

Definition live (l : list resolving) : list nat :=
  omap (λ c, if alreadyResolved c then None else Some (target c)) l.
Definition thenables (l : list job) : list nat :=
  omap (λ j, match j with JThenable p _ _ => Some p | JReaction _ _ => None end) l.

(** The state of a promise as the log determines it. *)
Definition PromiseOk (l : list event) (p : nat) (po : Promise) : Prop :=
  (handled po = false → registered p l = []) ∧
  match state po with
  | PromiseStatePending =>
      fulfillReactions po = (registered p l).*1 ∧ rejectReactions po = (registered p l).*2 ∧
      reactionsOf p (enqueued l) = [] ∧ settles p l = []
  | PromiseStateFulfilled =>
      fulfillReactions po = [] ∧ rejectReactions po = [] ∧
      reactionsOf p (enqueued l) = (λ x, (x.1, result po)) <$> registered p l ∧
      settles p l = [(PromiseStateFulfilled, result po)]
  | PromiseStateRejected =>
      fulfillReactions po = [] ∧ rejectReactions po = [] ∧
      reactionsOf p (enqueued l) = (λ x, (x.2, result po)) <$> registered p l ∧
      settles p l = [(PromiseStateRejected, result po)]
  end.

Definition ownerOk (e : event) : Prop :=
  match e with EvRegister p f r => owner f = Some p ∧ owner r = Some p | _ => True end.

(** Events that say nothing about promises and jobs. *)
Definition neutral (e : event) : Prop :=
  match e with EvGrab | EvResumed _ | EvExited => True | _ => False end.

Lemma registered_app p l k : registered p (l ++ k) = registered p l ++ registered p k.
Proof. apply omap_app. Qed.
Lemma settles_app p l k : settles p (l ++ k) = settles p l ++ settles p k.
Proof. apply omap_app. Qed.
Lemma enqueued_app l k : enqueued (l ++ k) = enqueued l ++ enqueued k.
Proof. apply omap_app. Qed.
Lemma ran_app l k : ran (l ++ k) = ran l ++ ran k.
Proof. apply omap_app. Qed.
Lemma reactionsOf_app p l k : reactionsOf p (l ++ k) = reactionsOf p l ++ reactionsOf p k.
Proof. apply omap_app. Qed.
Lemma live_app l k : live (l ++ k) = live l ++ live k.
Proof. apply omap_app. Qed.
Lemma thenables_app l k : thenables (l ++ k) = thenables l ++ thenables k.
Proof. apply omap_app. Qed.

#[global] Arguments registered : simpl never.
#[global] Arguments settles : simpl never.
#[global] Arguments enqueued : simpl never.
#[global] Arguments ran : simpl never.
#[global] Arguments reactionsOf : simpl never.
#[global] Arguments thenables : simpl never.
#[global] Arguments live : simpl never.

(** A new event, by its kind. *)
Lemma registered_one p q f r : registered p [EvRegister q f r] = if decide (q = p) then [(f, r)] else [].
Proof. unfold registered. cbn. by destruct (decide _). Qed.
Lemma settles_one p q x v : settles p [EvSettle q x v] = if decide (q = p) then [(x, v)] else [].
Proof. unfold settles. cbn. by destruct (decide _). Qed.
Lemma reactionsOf_one p r v : reactionsOf p [JReaction r v] = if decide (owner r = Some p) then [(r, v)] else [].
Proof. unfold reactionsOf. cbn. by destruct (decide _). Qed.

Ltac logs :=
  rewrite ?registered_app, ?settles_app, ?enqueued_app, ?ran_app;
  repeat match goal with
  | |- context [enqueued [EvEnqueue ?j]] => change (enqueued [EvEnqueue j]) with [j]
  | |- context [enqueued [?e]] => change (enqueued [e]) with (@nil job)
  | |- context [ran [EvRun ?j]] => change (ran [EvRun j]) with [j]
  | |- context [ran [?e]] => change (ran [e]) with (@nil job)
  | |- context [registered ?p [EvRegister _ _ _]] => rewrite registered_one
  | |- context [registered ?p [?e]] => change (registered p [e]) with (@nil (promiseReaction * promiseReaction))
  | |- context [settles ?p [EvSettle _ _ _]] => rewrite settles_one
  | |- context [settles ?p [?e]] => change (settles p [e]) with (@nil (PromiseState * value))
  end;
  rewrite ?reactionsOf_app, ?thenables_app, ?reactionsOf_one;
  repeat match goal with
  | |- context [reactionsOf ?q [JThenable ?p ?t ?c]] => change (reactionsOf q [JThenable p t c]) with (@nil (promiseReaction * value))
  end;
  rewrite ?app_nil_r.

Lemma neutral_enqueued e : neutral e → enqueued [e] = [].
Proof. by destruct e. Qed.
Lemma neutral_ran e : neutral e → ran [e] = [].
Proof. by destruct e. Qed.
Lemma neutral_registered p e : neutral e → registered p [e] = [].
Proof. by destruct e. Qed.
Lemma neutral_settles p e : neutral e → settles p [e] = [].
Proof. by destruct e. Qed.

(** Using up a pair of resolving functions takes its promise out of the list. *)
Lemma live_used c p l : l !! c = Some (MkResolving p false) → live l ≡ₚ p :: live (<[c := MkResolving p true]> l).
Proof.
  intros H. rewrite <- (take_drop_middle l c _ H) at 1.
  rewrite insert_take_drop by (by eapply lookup_lt_Some).
  rewrite !live_app. cbn. by rewrite Permutation_middle.
Qed.

Lemma live_new p l k : live (l ++ [MkResolving p false]) ++ k ≡ₚ p :: live l ++ k.
Proof. rewrite live_app, <- app_assoc. change (live [MkResolving p false]) with [p]. cbn. by rewrite <- Permutation_middle. Qed.

Section Inv.
Context {U : Type} {host : Host U}.
Implicit Types s : st U.

Definition tokens s : list nat := live (cells s) ++ thenables (jobQueue s).
Definition pending s p : Prop := ∃ po, promiseAt s p = Some po ∧ state po = PromiseStatePending.

Record Inv (F : list nat) s : Prop := {
  inv_nodup : NoDup (F ++ tokens s);
  inv_pending : Forall (pending s) (F ++ tokens s);
  inv_promise p po : promiseAt s p = Some po → PromiseOk (log s) p po;
  inv_fresh p : promiseAt s p = None → registered p (log s) = [] ∧ reactionsOf p (enqueued (log s)) = [] ∧ settles p (log s) = [];
  inv_owner : Forall ownerOk (log s) }.

(** The order of states: the log grows, calls return to their depth, and while a
    program runs ([0 < callStack]) the queue only grows at its end. *)
Record ext s s' : Prop := {
  ext_log : log s `prefix_of` log s';
  ext_depth : callStack s' = callStack s;
  ext_queue : 0 < callStack s → ∃ new, jobQueue s' = jobQueue s ++ new ∧
    enqueued (log s') = enqueued (log s) ++ new ∧ ran (log s') = ran (log s) }.

#[global] Instance ext_preorder : PreOrder ext.
Proof.
  split.
  - intros s. split; [done|done|]. intros _. exists []. by rewrite !app_nil_r.
  - intros s1 s2 s3 [L1 D1 Q1] [L2 D2 Q2]. split; [by etrans|congruence|]. intros H.
    destruct (Q1 H) as (n1 & E1 & N1 & R1). rewrite <- D1 in H. destruct (Q2 H) as (n2 & E2 & N2 & R2).
    exists (n1 ++ n2). rewrite E2, E1, N2, N1, R2, R1, !app_assoc. done.
Qed.

(** A computation that keeps the invariant. *)
Definition Safe {A} (m : M A) : Prop := ∀ F s r s', Inv F s → m s = Some (r, s') → Inv F s' ∧ ext s s'.

Lemma Inv_perm F F' s : F ≡ₚ F' → Inv F s → Inv F' s.
Proof. intros HF [? ? ? ? ?]. split; try done; by rewrite <- HF. Qed.

Lemma Inv_weaken F G s : Inv (F ++ G) s → Inv G s.
Proof.
  intros [Hn Hp ? ? ?]. rewrite <- app_assoc in Hn, Hp. split; try done.
  - by apply NoDup_app in Hn as (_ & _ & ?).
  - by apply Forall_app in Hp as [_ ?].
Qed.

(** ** Rules of the monad *)

Lemma Safe_ret {A} (a : A) : Safe (mret a).
Proof. intros F s r s' HI [= <- <-]. by split. Qed.
Lemma Safe_throw {A} v : Safe (throw v : M A).
Proof. intros F s r s' HI [= <- <-]. by split. Qed.
Lemma Safe_abort {A} : Safe (abort : M A).
Proof. intros F s r s' HI [= <- <-]. by split. Qed.
Lemma Safe_panic {A} : Safe (panic : M A).
Proof. intros F s r s' HI [= <- <-]. by split. Qed.
Lemma Safe_noFuel {A} : Safe (noFuel : M A).
Proof. by intros F s r s' HI. Qed.
Lemma Safe_gets {A} (f : st U → A) : Safe (gets f).
Proof. intros F s r s' HI [= <- <-]. by split. Qed.
Lemma Safe_rethrow {A B} (r : res A) : Safe (rethrow r : M B).
Proof. destruct r; [apply Safe_panic|apply Safe_throw|apply Safe_abort|apply Safe_panic]. Qed.

Lemma bind_inv {A B} (m : M A) (k : A → M B) s r s' : (m ≫= k) s = Some (r, s') →
  ∃ ra s1, m s = Some (ra, s1) ∧
    match ra with Ok a => k a s1 = Some (r, s') | _ => s' = s1 ∧ ∀ b, r ≠ Ok b end.
Proof.
  unfold mbind, M_bind. destruct (m s) as [[ra s1]|]; [|done]. intros H. exists ra, s1. split; [done|].
  destruct ra; [done|by injection H as <- <-..].
Qed.

Lemma tryFunc_inv {A} (m : M A) s r s' : tryFunc m s = Some (r, s') → ∃ r0, r = Ok r0 ∧ m s = Some (r0, s').
Proof. unfold tryFunc. destruct (m s) as [[r0 s0]|]; [|done]. intros [= <- <-]. by exists r0. Qed.

Lemma Safe_bind {A B} (m : M A) (k : A → M B) : Safe m → (∀ a, Safe (k a)) → Safe (m ≫= k).
Proof.
  intros Hm Hk F s r s' HI (ra & s1 & E & H)%bind_inv. destruct (Hm _ _ _ _ HI E) as [HI1 HE1].
  destruct ra as [a|v| |]; [|by destruct H as [-> _]..].
  destruct (Hk a _ _ _ _ HI1 H) as [HI2 HE2]. split; [done|by etrans].
Qed.

Lemma Safe_try {A} (m : M A) : Safe m → Safe (try m).
Proof.
  intros Hm F s r s' HI. unfold try.
  destruct (m s) as [[[a|v| |] s1]|] eqn:E; try done;
    destruct (Hm _ _ _ _ HI E) as [HI1 HE1]; intros [= <- <-]; by split.
Qed.
Lemma Safe_tryFunc {A} (m : M A) : Safe m → Safe (tryFunc m).
Proof.
  intros Hm F s r s' HI. unfold tryFunc.
  destruct (m s) as [[a s1]|] eqn:E; try done. intros [= <- <-]. by apply (Hm _ _ _ _ HI E).
Qed.

(** Changes of the variables the invariant does not mention. *)
Record frame s s' : Prop := {
  fr_promise p : promiseAt s' p = promiseAt s p;
  fr_cells : cells s' = cells s; fr_queue : jobQueue s' = jobQueue s;
  fr_depth : callStack s' = callStack s; fr_log : log s' = log s }.

Lemma frame_pending s s' l : frame s s' → Forall (pending s) l → Forall (pending s') l.
Proof.
  intros [Hp _ _ _ _] Hl. eapply Forall_impl; [exact Hl|]. intros p (po & H & ?). exists po. by rewrite Hp.
Qed.

Lemma frame_ok F s s' : frame s s' → Inv F s → Inv F s' ∧ ext s s'.
Proof.
  intros Hf [HN HP Hpr Hfr Ho]. pose proof Hf as [Fp Fc Fq Fd Fl]. unfold tokens in *. split.
  - split; rewrite ?Fl; try done.
    + unfold tokens. by rewrite Fc, Fq.
    + eapply frame_pending; [done|]. unfold tokens. by rewrite Fc, Fq.
    + intros p po. rewrite Fp. apply Hpr.
    + intros p. rewrite Fp. apply Hfr.
  - split; [by rewrite Fl|done|]. intros _. exists []. by rewrite Fq, Fl, !app_nil_r.
Qed.

Lemma Safe_modify f : (∀ s, frame s (f s)) → Safe (modify f).
Proof. intros Hf F s r s' HI [= <- <-]. by eapply frame_ok. Qed.

Lemma promiseAt_app s o p : (∀ po, o ≠ OPromise po) → promiseAt (set_heap (heap s ++ [o]) s) p = promiseAt s p.
Proof.
  intros Ho. unfold promiseAt. cbn. rewrite lookup_app. destruct (heap s !! p) as [x|] eqn:E; [done|].
  destruct (p - length (heap s)) as [|n] eqn:En; cbn; [destruct o; try done; by edestruct Ho|by destruct n].
Qed.

Lemma Safe_alloc o : (∀ po, o ≠ OPromise po) → Safe (alloc o).
Proof.
  intros Ho F s r s' HI [= <- <-]. eapply frame_ok; [|done]. split; try done. intros p. by apply promiseAt_app.
Qed.

Lemma Safe_neutral e : neutral e → Safe (logEvent e).
Proof.
  intros He F s r s' [HN HP Hpr Hfr Ho] [= <- <-]. split; [split|split]; cbn; try done.
  - intros p po H. specialize (Hpr p po H). unfold PromiseOk in *. logs.
    rewrite (neutral_enqueued e), (neutral_registered p e), (neutral_settles p e) by done. by rewrite !app_nil_r.
  - intros p H. specialize (Hfr p H). logs.
    rewrite (neutral_enqueued e), (neutral_registered p e), (neutral_settles p e) by done. by rewrite !app_nil_r.
  - apply Forall_app. split; [done|]. constructor; [|done]. by destruct e.
  - by apply prefix_app_r.
  - intros _. exists []. logs. rewrite (neutral_enqueued e), (neutral_ran e) by done. by rewrite !app_nil_r.
Qed.

(** A frame on the call stack. *)
Lemma Inv_callStack F n s : Inv F s → Inv F (set_callStack n s).
Proof. intros [? ? ? ? ?]. by split. Qed.

Lemma Safe_inCtx {A} (m : M A) : Safe m → Safe (inCtx m).
Proof.
  intros Hm F s r s' HI. unfold inCtx. case_bool_decide; [intros [= <- <-]; by split|].
  destruct (m _) as [[r1 s1]|] eqn:E; [|done]. intros [= <- <-].
  destruct (Hm _ _ _ _ (Inv_callStack _ _ _ HI) E) as [HI1 [L D Q]]. split; [by apply Inv_callStack|].
  split; [done|done|]. intros _. apply Q. cbn. lia.
Qed.

(** ** Creating and settling promises *)

Lemma promiseAt_new s po p :
  promiseAt (set_heap (heap s ++ [OPromise po]) s) p = (if decide (p = length (heap s)) then Some po else promiseAt s p).
Proof.
  unfold promiseAt. cbn. destruct (decide _) as [->|Hne].
  - by rewrite list_lookup_middle.
  - rewrite lookup_app. destruct (heap s !! p) as [x|] eqn:E; [done|]. apply lookup_ge_None in E.
    destruct (p - length (heap s)) as [|n] eqn:En; [lia|by destruct n].
Qed.

Lemma promiseAt_heap s s' p : heap s = heap s' → promiseAt s p = promiseAt s' p.
Proof. unfold promiseAt. by intros ->. Qed.

Lemma promiseAt_length s : promiseAt s (length (heap s)) = None.
Proof. unfold promiseAt. by rewrite lookup_ge_None_2. Qed.

Lemma pending_mono s s' l :
  (∀ p po, promiseAt s p = Some po → ∃ po', promiseAt s' p = Some po' ∧ (state po = PromiseStatePending → state po' = PromiseStatePending)) →
  Forall (pending s) l → Forall (pending s') l.
Proof.
  intros H Hl. eapply Forall_impl; [exact Hl|]. intros p (po & E & Hp). destruct (H p po E) as (po' & ? & ?).
  exists po'. auto.
Qed.

(** A new promise belongs to whoever made it. *)
Lemma newPromise_ok F s r s' : Inv F s → newPromise s = Some (r, s') →
  ext s s' ∧ ∃ p, r = Ok p ∧ Inv (p :: F) s' ∧ jobQueue s' = jobQueue s.
Proof.
  intros [HN HP Hpr Hfr Ho] [= <- <-]. split; [split; [done|done|]; intros _; exists []; by rewrite !app_nil_r|].
  eexists. split; [done|]. split; [|done]. split; try done.
  - cbn. constructor; [|done]. intros Hin. unfold tokens in *. cbn in *.
    rewrite Forall_forall in HP. destruct (HP _ Hin) as (po & E & _). by rewrite promiseAt_length in E.
  - cbn. constructor; [eexists; rewrite promiseAt_new, decide_True by done; done|].
    eapply pending_mono; [|exact HP]. intros p po E. exists po. rewrite promiseAt_new, decide_False; [done|].
    intros ->. by rewrite promiseAt_length in E.
  - intros p po. rewrite promiseAt_new. destruct (decide _) as [->|Hne]; [|apply Hpr].
    intros [= <-]. destruct (Hfr _ (promiseAt_length s)) as (R & E & S). repeat split; cbn; by rewrite ?R.
  - intros p. rewrite promiseAt_new. destruct (decide _) as [->|Hne]; [done|apply Hfr].
Qed.

Lemma createResolving_ok F p s r s' : Inv (p :: F) s → createResolvingFunctions p s = Some (r, s') → Inv F s' ∧ ext s s'.
Proof.
  intros HI. unfold createResolvingFunctions. cbn. intros [= <- <-].
  assert (Inv F (set_cells (cells s ++ [MkResolving p false]) s)) as HI1.
  { destruct HI as [HN HP Hpr Hfr Ho]. split; try done; unfold tokens in *; cbn in *.
    - by rewrite live_new, <- Permutation_middle.
    - change (Forall (pending s) (F ++ live (cells s ++ [MkResolving p false]) ++ thenables (jobQueue s))). by rewrite live_new, <- Permutation_middle. }
  assert (ext s (set_cells (cells s ++ [MkResolving p false]) s)) as HE.
  { split; [done|done|]. intros _. exists []. by rewrite !app_nil_r. }
  set (s1 := set_cells _ s) in *.
  destruct (Safe_alloc (OFunc (FResolve (length (cells s)))) ltac:(done) F s1 _ _ HI1 eq_refl) as [HI2 HE2].
  destruct (Safe_alloc (OFunc (FReject (length (cells s)))) ltac:(done) F _ _ _ HI2 eq_refl) as [HI3 HE3].
  split; [exact HI3|]. etrans; [exact HE|]. etrans; [exact HE2|exact HE3].
Qed.

Lemma Safe_newResolving {B} (k : nat → nat * nat → M B) : (∀ p x, Safe (k p x)) →
  Safe (p ← newPromise; x ← createResolvingFunctions p; k p x).
Proof.
  intros Hk F s r s' HI (r1 & s1 & E1 & H1)%bind_inv.
  destruct (newPromise_ok _ _ _ _ HI E1) as (HE1 & p & -> & HI1 & _).
  apply bind_inv in H1 as (r2 & s2 & E2 & H2). destruct (createResolving_ok _ _ _ _ _ HI1 E2) as [HI2 HE2].
  assert (ext s s2) as HE by (by etrans).
  destruct r2 as [x|v| |]; [|by destruct H2 as [-> _]..].
  destruct (Hk p x _ _ _ _ HI2 H2) as [HI3 HE3]. split; [done|by etrans].
Qed.

Definition pushJobs (js : list job) s : st U :=
  set_log (log s ++ (EvEnqueue <$> js)) (set_jobQueue (jobQueue s ++ js) s).

Lemma enqueue_spec j s : enqueuePromiseJob j s = Some (Ok (), pushJobs [j] s).
Proof. done. Qed.

Lemma pushJobs_nil s : pushJobs [] s = s.
Proof. destruct s. unfold pushJobs. cbn. by rewrite !app_nil_r. Qed.

Lemma pushJobs_app js ks s : pushJobs ks (pushJobs js s) = pushJobs (js ++ ks) s.
Proof. unfold pushJobs. cbn. by rewrite fmap_app, !app_assoc. Qed.

Lemma trigger_spec l v s : triggerPromiseReactions l v s = Some (Ok (), pushJobs ((λ r, JReaction r v) <$> l) s).
Proof.
  revert s. induction l as [|r l IH]; intros s; [by rewrite pushJobs_nil|].
  change (triggerPromiseReactions l v (pushJobs [JReaction r v] s) = Some (Ok (), pushJobs ((λ r, JReaction r v) <$> r :: l) s)).
  by rewrite IH, pushJobs_app.
Qed.

Lemma enqueued_jobs js : enqueued (EvEnqueue <$> js) = js.
Proof. induction js as [|j js IH]; [done|]. cbn. change (j :: enqueued (EvEnqueue <$> js) = j :: js). by rewrite IH. Qed.
Lemma ran_jobs js : ran (EvEnqueue <$> js) = [].
Proof. induction js as [|j js IH]; [done|exact IH]. Qed.
Lemma registered_jobs p js : registered p (EvEnqueue <$> js) = [].
Proof. induction js as [|j js IH]; [done|exact IH]. Qed.
Lemma settles_jobs p js : settles p (EvEnqueue <$> js) = [].
Proof. induction js as [|j js IH]; [done|exact IH]. Qed.
Lemma thenables_reactions v l : thenables ((λ r, JReaction r v) <$> l) = [].
Proof. induction l as [|r l IH]; [done|exact IH]. Qed.

Lemma reactionsOf_reactions p q v l : Forall (λ r, owner r = Some p) l →
  reactionsOf q ((λ r, JReaction r v) <$> l) = if decide (q = p) then (λ r, (r, v)) <$> l else [].
Proof.
  intros Hl. induction l as [|r l IH]; [by destruct (decide _)|].
  inversion_clear Hl as [|? ? Hr Hl']. specialize (IH Hl'). cbn.
  change (reactionsOf q ([JReaction r v] ++ ((λ r, JReaction r v) <$> l)) = if decide (q = p) then (r, v) :: ((λ r, (r, v)) <$> l) else []).
  rewrite reactionsOf_app, reactionsOf_one, IH, Hr.
  destruct (decide (q = p)) as [->|Hne]; [by rewrite decide_True|rewrite decide_False; [done|congruence]].
Qed.

Lemma pushJobs_ext js s : ext s (pushJobs js s).
Proof.
  split; [by apply prefix_app_r|done|]. intros _. exists js. cbn. logs. by rewrite enqueued_jobs, ran_jobs, app_nil_r.
Qed.

Lemma registered_owner p l : Forall ownerOk l →
  Forall (λ r, owner r = Some p) (registered p l).*1 ∧ Forall (λ r, owner r = Some p) (registered p l).*2.
Proof.
  induction l as [|e l IH]; [done|]. intros [He Hl]%Forall_cons. destruct (IH Hl) as [H1 H2].
  change (e :: l) with ([e] ++ l). rewrite registered_app, !fmap_app.
  destruct e as [q f r| | | | | |]; try done. rewrite registered_one. destruct (decide (q = p)) as [->|]; [|done].
  cbn in He |- *. destruct He. by split; constructor.
Qed.

(** ** Settling *)

Definition put p po s : st U := set_heap (<[p := OPromise po]> (heap s)) s.

Lemma promiseAt_put s p po po0 q : promiseAt s p = Some po0 →
  promiseAt (put p po s) q = if decide (q = p) then Some po else promiseAt s q.
Proof.
  unfold promiseAt. intros H. cbn.
  assert (p < length (heap s)) as Hp by (apply lookup_lt_is_Some; destruct (heap s !! p); done).
  destruct (decide (q = p)) as [->|Hne]; [by rewrite list_lookup_insert_eq|by rewrite list_lookup_insert_ne].
Qed.

Lemma updatePromise_spec p f po s : promiseAt s p = Some po → updatePromise p f s = Some (Ok (), put p (f po) s).
Proof. intros H. unfold updatePromise, getPromiseObj, mbind, M_bind, gets. by rewrite H. Qed.

(** The state in which a settled promise leaves the runtime. *)
Definition settled p (ps : PromiseState) v (h : bool) (reactions : list promiseReaction) s : st U :=
  pushJobs ((λ r, JReaction r v) <$> reactions)
    (set_log (log s ++ [EvSettle p ps v]) (put p (MkPromise ps v [] [] h) s)).

Lemma settled_ok F p ps v po reactions s :
  Inv (p :: F) s → promiseAt s p = Some po →
  (ps = PromiseStateFulfilled ∧ reactions = fulfillReactions po ∨ ps = PromiseStateRejected ∧ reactions = rejectReactions po) →
  Inv F (settled p ps v (handled po) reactions s) ∧ ext s (settled p ps v (handled po) reactions s).
Proof.
  intros HI Hp Hst. pose proof HI as [HN HP Hpr Hfr Ho].
  assert (state po = PromiseStatePending) as Hpend.
  { apply Forall_cons in HP as [(po' & E & ?) _]. congruence. }
  destruct (Hpr p po Hp) as [Hh Hpo]. rewrite Hpend in Hpo. destruct Hpo as (Hf & Hr & He & Hs).
  destruct (registered_owner p (log s) Ho) as [Ho1 Ho2].
  assert (Forall (λ r, owner r = Some p) reactions) as Hor by (destruct Hst as [[_ ->]|[_ ->]]; congruence).
  assert (thenables (jobQueue s ++ ((λ r, JReaction r v) <$> reactions)) = thenables (jobQueue s)) as Ht.
  { by rewrite thenables_app, thenables_reactions, app_nil_r. }
  split.
  - split; unfold tokens; cbn; rewrite ?Ht.
    + by apply NoDup_cons in HN as [_ ?].
    + apply Forall_cons in HP as [_ HP]. apply NoDup_cons in HN as [Hn _]. rewrite Forall_forall in HP |- *.
      intros q Hq. destruct (HP q Hq) as (qo & E & ?). exists qo. split; [|done].
      change (promiseAt (put p (MkPromise ps v [] [] (handled po)) s) q = Some qo).
      rewrite (promiseAt_put _ _ _ po) by done. rewrite decide_False; [done|]. intros ->. by apply Hn.
    + intros q qo. change (promiseAt (settled _ _ _ _ _ _) q) with (promiseAt (put p (MkPromise ps v [] [] (handled po)) s) q).
      rewrite (promiseAt_put _ _ _ po) by done. unfold PromiseOk. logs.
      rewrite registered_jobs, settles_jobs, enqueued_jobs, (reactionsOf_reactions p), !app_nil_r by done.
      destruct (decide (q = p)) as [->|Hne].
      * intros [= <-]. rewrite decide_True, He, Hs by done. cbn. split; [done|].
        destruct Hst as [[-> ->]|[-> ->]]; repeat split; rewrite ?Hf, ?Hr, <- list_fmap_compose; done.
      * rewrite decide_False, !app_nil_r by congruence. apply Hpr.
    + intros q. change (promiseAt (settled _ _ _ _ _ _) q) with (promiseAt (put p (MkPromise ps v [] [] (handled po)) s) q).
      rewrite (promiseAt_put _ _ _ po) by done. destruct (decide (q = p)) as [->|Hne]; [done|]. logs.
      rewrite registered_jobs, settles_jobs, enqueued_jobs, (reactionsOf_reactions p), !app_nil_r by done.
      rewrite !decide_False, !app_nil_r by congruence. apply Hfr.
    + rewrite !Forall_app. repeat split; [done| |].
      * by constructor.
      * apply Forall_fmap. by apply Forall_true.
  - etrans; [|apply pushJobs_ext]. split; [by apply prefix_app_r|done|]. intros _. exists []. cbn. logs. done.
Qed.

Lemma fulfill_ok F p v s r s' : Inv (p :: F) s → fulfill p v s = Some (r, s') → Inv F s' ∧ ext s s'.
Proof.
  intros HI H. pose proof (inv_pending _ _ HI) as Hp. apply Forall_cons in Hp as [(po & Hp & _) _].
  unfold fulfill in H. apply bind_inv in H as (r1 & s1 & E1 & H). unfold getPromiseObj, mbind, M_bind, gets in E1.
  rewrite Hp in E1. injection E1 as <- <-. apply bind_inv in H as (r1 & s1 & E1 & H).
  rewrite (updatePromise_spec _ _ po) in E1 by done. injection E1 as <- <-.
  apply bind_inv in H as (r1 & s1 & E1 & H). injection E1 as <- <-.
  apply bind_inv in H as (r1 & s1 & E1 & H). rewrite trigger_spec in E1. injection E1 as <- <-. injection H as <- <-.
  eapply settled_ok; [done|done|by left].
Qed.

(** Queueing a thenable job hands the promise over to the job. *)
Lemma enqueueThenable_ok F p t cb s : Inv (p :: F) s → Inv F (pushJobs [JThenable p t cb] s).
Proof.
  intros [HN HP Hpr Hfr Ho].
  assert (F ++ live (cells s) ++ thenables (jobQueue s ++ [JThenable p t cb]) ≡ₚ p :: F ++ tokens s) as Hperm.
  { rewrite thenables_app. change (thenables [JThenable p t cb]) with [p]. unfold tokens.
    rewrite !app_assoc. by rewrite <- Permutation_cons_append. }
  split; unfold tokens; cbn.
  - by rewrite Hperm.
  - change (Forall (pending s) (F ++ live (cells s) ++ thenables (jobQueue s ++ [JThenable p t cb]))). by rewrite Hperm.
  - intros q qo Hq. specialize (Hpr q qo Hq). unfold PromiseOk in *. logs.
    by rewrite ?app_nil_r.
  - intros q Hq. specialize (Hfr q Hq). logs.
    by rewrite ?app_nil_r.
  - rewrite Forall_app. split; [done|by repeat constructor].
Qed.

(** *** Running jobs *)

(** As [ext], for computations in which the jobs [d] were run. *)
Record extR (d : list job) s s' : Prop := {
  extR_log : log s `prefix_of` log s';
  extR_depth : callStack s' = callStack s;
  extR_queue : 0 < callStack s → ∃ new, jobQueue s' = jobQueue s ++ new ∧
    enqueued (log s') = enqueued (log s) ++ new ∧ ran (log s') = ran (log s) ++ d }.

Lemma ext_extR s s' : ext s s' ↔ extR [] s s'.
Proof. split; intros [L D Q]; (split; [done|done|]); intros H; destruct (Q H) as (n & ? & ? & HR); exists n; by rewrite ?app_nil_r in *. Qed.

Lemma extR_trans d1 d2 s1 s2 s3 : extR d1 s1 s2 → extR d2 s2 s3 → extR (d1 ++ d2) s1 s3.
Proof.
  intros [L1 D1 Q1] [L2 D2 Q2]. split; [by etrans|congruence|]. intros H.
  destruct (Q1 H) as (n1 & E1 & N1 & R1). rewrite <- D1 in H. destruct (Q2 H) as (n2 & E2 & N2 & R2).
  exists (n1 ++ n2). rewrite E2, E1, N2, N1, R2, R1, !app_assoc. done.
Qed.
End Inv.

#[export] Hint Resolve Safe_ret Safe_throw Safe_abort Safe_panic Safe_noFuel Safe_gets Safe_rethrow : promises.

Ltac safe1 :=
  match goal with
  | |- Safe (newPromise ≫= _) => apply Safe_newResolving; intros ? [? ?]
  | |- Safe (_ ≫= _) => apply Safe_bind; [|intros ?]
  | |- Safe (try _) => apply Safe_try
  | |- Safe (tryFunc _) => apply Safe_tryFunc
  | |- Safe (inCtx _) => apply Safe_inCtx
  | |- Safe (alloc _) => apply Safe_alloc; congruence
  | |- Safe (match ?x with _ => _ end) => destruct x
  | |- Safe (if ?x then _ else _) => destruct x
  | |- Safe (let _ := ?x in _) => cbv zeta
  | |- Safe _ => solve [eauto 2 with promises]
  | |- Safe (modify _) => apply Safe_modify; by intros
  end.
Ltac safe := intros; repeat safe1.

Section Calls.
Context {U : Type} {host : Host U}.
Implicit Types s : st U.

Lemma Safe_NewTypeError m : Safe (NewTypeError (U := U) m).
Proof. unfold NewTypeError. safe. Qed.
#[local] Hint Resolve Safe_NewTypeError : promises.
Lemma Safe_throwTypeError {A} m : Safe (throwTypeError (U := U) m : M A).
Proof. unfold throwTypeError. safe. Qed.
#[local] Hint Resolve Safe_throwTypeError : promises.
Lemma Safe_assertCallable v : Safe (assertCallable (U := U) v).
Proof. unfold assertCallable. safe. Qed.
#[local] Hint Resolve Safe_assertCallable : promises.
Lemma Safe_toObject v : Safe (toObject (U := U) v).
Proof. unfold toObject. safe. Qed.
#[local] Hint Resolve Safe_toObject : promises.
Lemma Safe_toCallable v : Safe (toCallable (U := U) v).
Proof. unfold toCallable. safe. Qed.
#[local] Hint Resolve Safe_toCallable : promises.
Lemma Safe_toMethod v : Safe (toMethod (U := U) v).
Proof. unfold toMethod. safe. Qed.
Lemma Safe_toConstructor v : Safe (toConstructor (U := U) v).
Proof. unfold toConstructor. safe. Qed.
Lemma Safe_newArrayValues l : Safe (newArrayValues (U := U) l).
Proof. unfold newArrayValues. safe. Qed.
Lemma Safe_newAggregateErrorErrors l : Safe (newAggregateErrorErrors (U := U) l).
Proof. unfold newAggregateErrorErrors. safe. Qed.
Lemma Safe_newNativeFunc f : Safe (newNativeFunc (U := U) f).
Proof. unfold newNativeFunc. safe. Qed.
Lemma Safe_getPromiseObj p : Safe (getPromiseObj (U := U) p).
Proof. unfold getPromiseObj. safe. Qed.
End Calls.
#[export] Hint Resolve Safe_NewTypeError Safe_throwTypeError Safe_assertCallable Safe_toObject Safe_toCallable Safe_toMethod
  Safe_toConstructor Safe_newArrayValues Safe_newAggregateErrorErrors Safe_newNativeFunc Safe_getPromiseObj : promises.
End PromiseInv.
