(* ===== verification/PromiseJobs.v ===== *)
(** * Jobs: promises settle once, reactions run once and in order

    The operations of [Promises] keep the invariant of [PromiseInv]
    ([call_safe]); what follows for whole runs of the runtime. *)

From S2P Require Import Prelude Promises PromiseInv.
Import Promises PromiseInv.

Module PromiseJobs.
#[local] Open Scope nat_scope.

Section Calls.
Context {U : Type} {host : Host U}.
Implicit Types s : st U.
Context (call : callee → how → list value → M (U := U) value) (loop : nat).
Hypothesis Hcall : ∀ x h args, Safe (call x h args).
#[local] Hint Resolve Hcall : promises.

Lemma Safe_pcapResolve c v : Safe (pcapResolve call c v).
Proof. unfold pcapResolve. safe. Qed.
Lemma Safe_pcapReject c v : Safe (pcapReject call c v).
Proof. unfold pcapReject. safe. Qed.
#[local] Hint Resolve Safe_pcapResolve Safe_pcapReject : promises.
Lemma Safe_pcapTry c m : Safe m → Safe (pcapTry call c m).
Proof. unfold pcapTry. safe. Qed.

Lemma Safe_reactionJob r v : Safe (promiseReactionJob call r v).
Proof.
  unfold promiseReactionJob, callJobCallback. safe; (apply Safe_neutral; done).
Qed.

Lemma thenableJob_ok F p t cb s r s' : Inv (p :: F) s → promiseResolveThenableJob call p t cb s = Some (r, s') →
  Inv F s' ∧ ext s s'.
Proof.
  intros HI (r1 & s1 & E1 & H)%bind_inv. destruct (createResolving_ok _ _ _ _ _ HI E1) as [HI1 HE1].
  destruct r1 as [[x y]|v| |]; [|by destruct H as [-> _]..].
  assert (∀ m : M (U := U) unit, Safe m → m s1 = Some (r, s') → Inv F s' ∧ ext s s') as HS.
  { intros m Hm Em. destruct (Hm _ _ _ _ HI1 Em) as [? ?]. split; [done|by etrans]. }
  eapply HS; [|exact H]. unfold callJobCallback. safe.
Qed.

Lemma run_ok j F s : Inv F s → Inv F (set_log (log s ++ [EvRun j]) s) ∧ extR [j] s (set_log (log s ++ [EvRun j]) s).
Proof.
  intros [HN HP Hpr Hfr Ho]. split; [split; try done|split; cbn].
  - intros p po H. specialize (Hpr p po H). unfold PromiseOk in *. cbn. logs. done.
  - intros p H. specialize (Hfr p H). cbn. logs. done.
  - cbn. rewrite Forall_app. split; [done|by repeat constructor].
  - by apply prefix_app_r.
  - done.
  - intros _. exists []. logs. done.
Qed.

Lemma runJob_ok j F s r s' : Inv (thenables [j] ++ F) s → runJob call j s = Some (r, s') → Inv F s' ∧ extR [j] s s'.
Proof.
  intros HI (r1 & s1 & E1 & H)%bind_inv. injection E1 as <- <-. destruct (run_ok j _ _ HI) as [HI1 HE1].
  change [j] with ([j] ++ []).
  destruct j as [rc v|p t cb]; [destruct (Safe_reactionJob rc v _ _ _ _ HI1 H)|destruct (thenableJob_ok _ _ _ _ _ _ _ HI1 H)];
    (split; [done|]; eapply extR_trans; [done|by apply ext_extR]).
Qed.

Lemma runJobs_ok l F s r s' : Inv (thenables l ++ F) s → runJobs call l s = Some (r, s') →
  Inv F s' ∧ ∃ d, extR d s s' ∧ (∀ x, r = Ok x → d = l).
Proof.
  revert s. induction l as [|j l IH]; intros s HI H.
  { injection H as <- <-. split; [done|]. exists []. split; [by apply ext_extR|done]. }
  apply bind_inv in H as (r1 & s1 & E1 & H).
  change (j :: l) with ([j] ++ l) in HI. rewrite thenables_app, <- app_assoc in HI.
  destruct (runJob_ok _ _ _ _ _ HI E1) as [HI1 HE1].
  destruct r1 as [[]|v| |];
    [|destruct H as [-> Hr]; split; [by eapply Inv_weaken|]; exists [j]; split; [done|intros x ->; by destruct (Hr x)]..].
  destruct (IH _ HI1 H) as (HI2 & d & HE2 & Hd). split; [done|]. exists (j :: d). split.
  - by apply (extR_trans [j]) with s1.
  - intros x Hx. by rewrite (Hd x Hx).
Qed.

(** Taking the queue. *)
Lemma takeQueue_ok F s : Inv F s → Inv (thenables (jobQueue s) ++ F) (set_jobQueue [] s).
Proof.
  intros [HN HP Hpr Hfr Ho].
  assert ((thenables (jobQueue s) ++ F) ++ live (cells s) ++ thenables [] ≡ₚ F ++ tokens s) as Hperm.
  { unfold tokens. change (thenables []) with (@nil nat). rewrite app_nil_r, <- app_assoc, Permutation_app_comm.
    by rewrite app_assoc. }
  split; try done; unfold tokens at 1; cbn.
  - by rewrite Hperm.
  - change (Forall (pending s) ((thenables (jobQueue s) ++ F) ++ live (cells s) ++ thenables [])). by rewrite Hperm.
Qed.

(** What [leave] has done when it returns. *)
Definition drained s s' : Prop :=
  jobQueue s' = [] ∧ ∃ new, enqueued (log s') = enqueued (log s) ++ new ∧ ran (log s') = ran (log s) ++ jobQueue s ++ new.

Lemma drained_empty s : jobQueue s = [] → drained s s.
Proof. intros Eq. split; [done|]. exists []. by rewrite Eq, !app_nil_r. Qed.

Lemma leaveLoop_ok n F s r s' : Inv F s → leaveLoop call n s = Some (r, s') →
  Inv F s' ∧ log s `prefix_of` log s' ∧ callStack s' = callStack s ∧
  (r = Ok () → jobQueue s' = []) ∧ (0 < callStack s → r = Ok () → drained s s').
Proof.
  revert s. induction n as [|n IH]; intros s HI H; cbn [leaveLoop] in H; apply bind_inv in H as (r1 & s1 & E1 & H);
    injection E1 as <- <-; destruct (decide (jobQueue s = [])) as [Eq|Hne].
  1, 3: rewrite Eq in H; injection H as <- <-; do 4 (split; [done|]); by intros; apply drained_empty.
  { destruct (jobQueue s) eqn:E; [by destruct Hne|discriminate H]. }
  assert ((modify (set_jobQueue []);; runJobs call (jobQueue s);; leaveLoop call n) s = Some (r, s')) as H'
    by (by destruct (jobQueue s)).
  clear H. apply bind_inv in H' as (r1 & s1 & E1 & H). injection E1 as <- <-.
  apply bind_inv in H as (r1 & s1 & E1 & H).
  destruct (runJobs_ok _ _ _ _ _ (takeQueue_ok _ _ HI) E1) as (HI1 & d & [L D Q] & Hd). cbn in L, D, Q.
  destruct r1 as [[]|v| |]; [|destruct H as [-> Hr]; do 3 (split; [done|]); split; intros; by destruct (Hr ())..].
  destruct (IH _ HI1 H) as (HI2 & L2 & D2 & Q2 & R2). rewrite D in D2, R2.
  split; [done|]. split; [by etrans|]. split; [done|]. split; [done|]. intros H0 Hr.
  split; [by apply Q2|]. rewrite (Hd () eq_refl) in Q. destruct (Q H0) as (n1 & N1 & N2 & N3).
  destruct (R2 H0 Hr) as (_ & n2 & M2 & M3). exists (n1 ++ n2). by rewrite M2, M3, N2, N3, N1, !app_assoc.
Qed.

(** At the top level, where the queue may be emptied. *)
Lemma Safe_whenTop {B} (m : M (U := U) unit) (k : M B) :
  (∀ F s r s', callStack s = 0 → Inv F s → m s = Some (r, s') → Inv F s' ∧ log s `prefix_of` log s' ∧ callStack s' = callStack s) →
  Safe k → Safe (depth ← gets callStack; (if bool_decide (depth = 0) then m else mret ());; k).
Proof.
  intros Hm Hk F s r s' HI (r1 & s1 & E1 & H)%bind_inv. injection E1 as <- <-. case_bool_decide as Hd.
  - apply bind_inv in H as (r1 & s1 & E1 & H). destruct (Hm _ _ _ _ Hd HI E1) as (HI1 & L1 & D1).
    assert (ext s s1) as HE1 by (split; [done|done|lia]).
    destruct r1 as [[]|v| |]; [|by destruct H as [-> _]..].
    destruct (Hk _ _ _ _ HI1 H) as [HI2 HE2]. split; [done|by etrans].
  - exact (Hk _ _ _ _ HI H).
Qed.

Lemma leave_drains F s r s' : Inv F s → leave call loop s = Some (r, s') →
  Inv F s' ∧ log s `prefix_of` log s' ∧ callStack s' = callStack s ∧ (0 < callStack s → r = Ok () → drained s s').
Proof.
  intros HI (r1 & s1 & E1 & H)%bind_inv. destruct (leaveLoop_ok _ _ _ _ _ HI E1) as (HI1 & L1 & D1 & Q1 & R1).
  destruct r1 as [[]|v| |]; [|destruct H as [-> Hr]; do 3 (split; [done|]); intros; by destruct (Hr ())..].
  injection H as <- <-.
  assert (set_jobQueue [] s1 = s1) as -> by (specialize (Q1 eq_refl); destruct s1; cbn in Q1; by rewrite Q1). done.
Qed.

Lemma Safe_runWrapped {A} (f : M (U := U) A) : Safe f → Safe (runWrapped call loop f).
Proof.
  intros Hf. apply Safe_bind.
  - apply Safe_tryFunc, Safe_bind; [by apply Safe_try|]. intros ex. apply Safe_whenTop; [|safe].
    intros F s r s' _ HI H. destruct (leave_drains _ _ _ _ HI H) as (? & ? & ? & _). done.
  - intros [[a|e]|v| |]; [by safe..| |by safe]. apply Safe_whenTop; [|safe]. intros F s r s' _ HI [= <- <-].
    split; [|done]. eapply Inv_weaken, takeQueue_ok, HI.
Qed.
#[local] Hint Resolve Safe_runWrapped : promises.

Lemma Safe_exec c : Safe (exec call loop c).
Proof.
  induction c as [v|v| |f k IH|kd n k IH|n k IH|f t args k IH|f args k IH|f t args k IH|v k IH]; cbn [exec]; unfold callValue; try (safe; fail).
  - intros F s r s' HI H. change (exec call loop (k (ustate s)) (set_ustate (f (ustate s)) s) = Some (r, s')) in H.
    destruct (frame_ok F s (set_ustate (f (ustate s)) s)) as [HI1 HE1]; [by split|done|].
    destruct (IH _ _ _ _ _ HI1 H) as [HI2 HE2]. split; [done|by etrans].
Qed.
#[local] Hint Resolve Safe_exec : promises.

Lemma Safe_run c : Safe (run call loop c).
Proof. unfold run. safe. Qed.
#[local] Hint Resolve Safe_run : promises.
Lemma Safe_track p op : Safe (trackPromiseRejection call loop p op).
Proof. unfold trackPromiseRejection. safe. Qed.
Lemma Safe_getProp v n : Safe (getProp call loop v n).
Proof. intros F s r s'. apply Safe_run. Qed.
#[local] Hint Resolve Safe_track Safe_getProp : promises.
Lemma Safe_getV v n : Safe (getV call loop v n).
Proof. unfold getV. safe. Qed.
#[local] Hint Resolve Safe_getV : promises.
Lemma Safe_callValue f t a : Safe (callValue call f t a).
Proof. unfold callValue. safe. Qed.
#[local] Hint Resolve Safe_callValue : promises.
Lemma Safe_invoke v n a : Safe (invoke call loop v n a).
Proof. unfold invoke. safe. Qed.
#[local] Hint Resolve Safe_invoke : promises.
Lemma Safe_species o d : Safe (speciesConstructorObj call loop o d).
Proof. unfold speciesConstructorObj. safe. Qed.
#[local] Hint Resolve Safe_species : promises.

(** *** The resolving functions *)

Lemma getPromiseObj_inv {B} p (k : Promise → M (U := U) B) po s r s' : promiseAt s p = Some po →
  (po ← getPromiseObj p; k po) s = Some (r, s') → k po s = Some (r, s').
Proof. intros H. unfold getPromiseObj, mbind, M_bind, gets. by rewrite H. Qed.

Lemma reject_ok F p v s r s' : Inv (p :: F) s → reject call loop p v s = Some (r, s') → Inv F s' ∧ ext s s'.
Proof.
  intros HI H. pose proof (inv_pending _ _ HI) as Hp. apply Forall_cons in Hp as [(po & Hp & Hpend) _].
  apply (getPromiseObj_inv p _ po) in H; [|done]. apply bind_inv in H as (r1 & s1 & E1 & H).
  rewrite (updatePromise_spec _ _ po) in E1 by done. injection E1 as <- <-.
  apply bind_inv in H as (r1 & s1 & E1 & H). injection E1 as <- <-.
  destruct (settled_ok F p PromiseStateRejected v po (rejectReactions po) s HI Hp) as [HI1 HE1]; [by right|].
  apply bind_inv in H as (r1 & s1 & E1 & H). destruct (handled po) eqn:Eh.
  - injection E1 as <- <-. apply bind_inv in H as (r1 & s1 & E1 & H). rewrite trigger_spec in E1.
    injection E1 as <- <-. injection H as <- <-. by split.
  - destruct (inv_promise _ _ HI p po Hp) as [Hh Hr]. rewrite Hpend in Hr. destruct Hr as (_ & Hr & _ & _).
    rewrite (Hh Eh) in Hr. rewrite Hr in H, HI1, HE1. unfold settled in HI1, HE1. cbn [fmap list_fmap] in HI1, HE1.
    rewrite pushJobs_nil in HI1, HE1. destruct (Safe_track _ _ _ _ _ _ HI1 E1) as [HI2 HE2].
    assert (ext s s1) as HE by (by etrans).
    destruct r1 as [[]|w| |]; [|by destruct H as [-> _]..]. injection H as <- <-. by split.
Qed.

(** The promise of an unused pair passes to the function that is called. *)
Lemma useCell_ok F c p s : Inv F s → cells s !! c = Some (MkResolving p false) →
  Inv (p :: F) (set_cells (<[c := MkResolving p true]> (cells s)) s) ∧ ext s (set_cells (<[c := MkResolving p true]> (cells s)) s).
Proof.
  intros [HN HP Hpr Hfr Ho] Hc.
  assert ((p :: F) ++ live (<[c := MkResolving p true]> (cells s)) ++ thenables (jobQueue s) ≡ₚ F ++ tokens s) as Hperm.
  { unfold tokens. rewrite (live_used c p (cells s) Hc). cbn. by rewrite <- Permutation_middle. }
  split.
  - split; try done; unfold tokens at 1; cbn [cells set_cells jobQueue].
    + by rewrite Hperm.
    + change (Forall (pending s) ((p :: F) ++ live (<[c := MkResolving p true]> (cells s)) ++ thenables (jobQueue s))).
      by rewrite Hperm.
  - split; [done|done|]. intros _. exists []. by rewrite !app_nil_r.
Qed.

(** A computation that ends the ownership of [p]. *)
Definition Settles (p : nat) (m : M (U := U) value) : Prop :=
  ∀ F s r s', Inv (p :: F) s → m s = Some (r, s') → Inv F s' ∧ ext s s'.

Lemma Settles_bind {A} p (m : M (U := U) A) k : Safe m → (∀ a, Settles p (k a)) → Settles p (m ≫= k).
Proof.
  intros Hm Hk F s r s' HI (ra & s1 & E & H)%bind_inv. destruct (Hm _ _ _ _ HI E) as [HI1 HE1].
  destruct ra as [a|v| |]; [|destruct H as [-> _]; split; [by apply (Inv_weaken [p])|done]..].
  destruct (Hk a _ _ _ _ HI1 H) as [HI2 HE2]. split; [done|by etrans].
Qed.

Lemma Settles_safe p (m : M (U := U) value) : Safe m → Settles p m.
Proof. intros Hm F s r s' HI H. destruct (Hm _ _ _ _ HI H). split; [by apply (Inv_weaken [p])|done]. Qed.

Lemma Settles_fulfill p v : Settles p (fulfill p v).
Proof. intros F s r s'. apply fulfill_ok. Qed.
Lemma Settles_reject p v : Settles p (reject call loop p v).
Proof. intros F s r s'. apply reject_ok. Qed.
Lemma Settles_thenable p t cb : Settles p (enqueuePromiseJob (JThenable p t cb);; mret VUndef).
Proof.
  intros F s r s' HI (r1 & s1 & E1 & H)%bind_inv. rewrite enqueue_spec in E1. injection E1 as <- <-. injection H as <- <-.
  split; [by apply enqueueThenable_ok|apply pushJobs_ext].
Qed.

Lemma Safe_useCell (c : nat) (k : nat → M (U := U) value) : (∀ p, Settles p (k p)) →
  Safe (cell ← gets (λ s, cells s !! c);
        match cell with
        | None => panic
        | Some (MkResolving p true) => mret VUndef
        | Some (MkResolving p false) => modify (λ s, set_cells (<[c := MkResolving p true]> (cells s)) s);; k p
        end).
Proof.
  intros Hk F s r s' HI (r1 & s1 & E1 & H)%bind_inv. injection E1 as <- <-.
  destruct (cells s !! c) as [[p []]|] eqn:Ec; [injection H as <- <-; by split| |injection H as <- <-; by split].
  apply bind_inv in H as (r1 & s1 & E1 & H). injection E1 as <- <-.
  destruct (useCell_ok _ _ _ _ HI Ec) as [HI1 HE1]. destruct (Hk p _ _ _ _ HI1 H) as [HI2 HE2].
  split; [done|by etrans].
Qed.

Lemma Safe_resolveFunction c args : Safe (resolveFunction call loop c args).
Proof.
  apply Safe_useCell. intros p. cbv zeta. case_bool_decide.
  - apply Settles_bind; [safe|intros e; apply Settles_reject].
  - destruct (Argument 0 args) as [| | | |o]; try apply Settles_fulfill.
    apply Settles_bind; [safe|]. intros [v|e]; [|apply Settles_reject].
    apply Settles_bind; [safe|]. intros [f|]; [apply Settles_thenable|apply Settles_fulfill].
Qed.

Lemma Safe_rejectFunction c args : Safe (rejectFunction call loop c args).
Proof. apply Safe_useCell. intros p. apply Settles_reject. Qed.
#[local] Hint Resolve Safe_resolveFunction Safe_rejectFunction : promises.

(** *** Adding reactions *)

(** A settled promise stays as it is. *)
Lemma settled_stays F G s s' p po : Inv F s → Inv G s' → log s `prefix_of` log s' →
  promiseAt s p = Some po → state po ≠ PromiseStatePending →
  ∃ po', promiseAt s' p = Some po' ∧ state po' = state po ∧ result po' = result po.
Proof.
  intros HI HG [l Hl] Hp Hst.
  assert (settles p (log s) = [(state po, result po)]) as Hs.
  { destruct (inv_promise _ _ HI p po Hp) as [_ H]. by destruct (state po); [|destruct H as (_ & _ & _ & ?)..]. }
  assert (settles p (log s') = (state po, result po) :: settles p l) as Hs' by (by rewrite Hl, settles_app, Hs).
  destruct (promiseAt s' p) as [po'|] eqn:Hp'.
  - exists po'. split; [done|]. destruct (inv_promise _ _ HG p po' Hp') as [_ H].
    destruct (state po'); destruct H as (_ & _ & _ & H); rewrite H in Hs'; by simplify_eq.
  - destruct (inv_fresh _ _ HG p Hp') as (_ & _ & H). by rewrite H in Hs'.
Qed.

(** The effect of a registration, by the state of the promise. *)
Definition registeredPromise (po : Promise) (f r : promiseReaction) : Promise :=
  match state po with
  | PromiseStatePending => MkPromise (state po) (result po) (fulfillReactions po ++ [f]) (rejectReactions po ++ [r]) true
  | _ => MkPromise (state po) (result po) (fulfillReactions po) (rejectReactions po) true
  end.
Definition registeredJobs (po : Promise) (f r : promiseReaction) : list job :=
  match state po with
  | PromiseStatePending => []
  | PromiseStateFulfilled => [JReaction f (result po)]
  | PromiseStateRejected => [JReaction r (result po)]
  end.

Lemma register_ok F p po f r s s' : Inv F s → promiseAt s p = Some po → owner f = Some p → owner r = Some p →
  heap s' = <[p := OPromise (registeredPromise po f r)]> (heap s) → cells s' = cells s → callStack s' = callStack s →
  jobQueue s' = jobQueue s ++ registeredJobs po f r →
  log s' = log s ++ [EvRegister p f r] ++ (EvEnqueue <$> registeredJobs po f r) →
  Inv F s' ∧ ext s s'.
Proof.
  intros HI Hp Hf Hr Eh Ec Ed Eq El. pose proof HI as [HN HP Hpr Hfr Ho].
  assert (∀ q, promiseAt s' q = if decide (q = p) then Some (registeredPromise po f r) else promiseAt s q) as Hat.
  { intros q. rewrite <- (promiseAt_put s p _ po q Hp). by apply promiseAt_heap. }
  assert (thenables (registeredJobs po f r) = []) as Ht by (unfold registeredJobs; by destruct (state po)).
  assert (tokens s' = tokens s) as Htok by (unfold tokens; by rewrite Ec, Eq, thenables_app, Ht, app_nil_r).
  assert (∀ q, q ≠ p → reactionsOf q (registeredJobs po f r) = []) as Hother.
  { intros q Hne. unfold registeredJobs. destruct (state po); [done|rewrite reactionsOf_one, decide_False; congruence..]. }
  split; [split|split].
  - by rewrite Htok.
  - rewrite Htok. eapply pending_mono; [|exact HP]. intros q qo Hq. rewrite Hat.
    destruct (decide (q = p)) as [->|]; [|by exists qo]. replace qo with po by congruence. eexists. split; [done|].
    unfold registeredPromise. by destruct (state po).
  - intros q qo. rewrite Hat, El. unfold PromiseOk. logs. rewrite registered_jobs, settles_jobs, enqueued_jobs, app_nil_r.
    destruct (decide (q = p)) as [->|Hne].
    + intros [= <-]. rewrite decide_True by done. destruct (Hpr p po Hp) as [_ Hpo].
      unfold registeredPromise, registeredJobs in *. destruct (state po) eqn:Est; cbn; rewrite ?Est;
        destruct Hpo as (H1 & H2 & H3 & H4); (split; [done|]); rewrite ?fmap_app, ?app_nil_r, ?H1, ?H2, ?H3, ?H4; cbn;
        try done; rewrite reactionsOf_one, decide_True by done; done.
    + rewrite decide_False, !app_nil_r, Hother, app_nil_r by congruence. apply Hpr.
  - intros q. rewrite Hat, El. destruct (decide (q = p)) as [->|Hne]; [done|]. logs.
    rewrite registered_jobs, settles_jobs, enqueued_jobs, decide_False, Hother, !app_nil_r by congruence. apply Hfr.
  - rewrite El, !Forall_app. repeat split; [done|by repeat constructor|]. apply Forall_fmap. by apply Forall_true.
  - rewrite El. by apply prefix_app_r.
  - done.
  - intros _. exists (registeredJobs po f r). rewrite Eq, El. logs. by rewrite enqueued_jobs, ran_jobs, !app_nil_r.
Qed.

Lemma updatePromise_inv p f po s r s' : promiseAt s p = Some po → updatePromise p f s = Some (r, s') → s' = put p (f po) s.
Proof. intros H. rewrite (updatePromise_spec _ _ po) by done. by intros [= _ <-]. Qed.

(** Registration after the rejection tracker was called. *)
Definition register (p : nat) (po : Promise) (f r : promiseReaction) : M (U := U) unit :=
  match state po with
  | PromiseStatePending =>
      updatePromise p (λ po, MkPromise (state po) (result po) (fulfillReactions po ++ [f]) (rejectReactions po ++ [r]) (handled po));;
      logEvent (EvRegister p f r)
  | PromiseStateFulfilled => logEvent (EvRegister p f r);; enqueuePromiseJob (JReaction f (result po))
  | PromiseStateRejected => logEvent (EvRegister p f r);; enqueuePromiseJob (JReaction r (result po))
  end;;
  updatePromise p (λ po, MkPromise (state po) (result po) (fulfillReactions po) (rejectReactions po) true).

Lemma register_run F p po qo f r s x s' : Inv F s → promiseAt s p = Some qo → owner f = Some p → owner r = Some p →
  state qo = state po → result qo = result po → register p po f r s = Some (x, s') → Inv F s' ∧ ext s s'.
Proof.
  intros HI Hq Hf Hr Hst Hres H. unfold register in H. rewrite <- Hst, <- Hres in H.
  apply bind_inv in H as (r1 & s1 & E1 & H).
  destruct (state qo) eqn:Est; apply bind_inv in E1 as (r2 & s2 & E2 & E1).
  - rewrite (updatePromise_spec _ _ qo) in E2 by done. injection E2 as <- <-. injection E1 as <- <-.
    eapply updatePromise_inv in H; [|unfold promiseAt; cbn; rewrite list_lookup_insert_eq; [done|]].
    + subst s'. eapply (register_ok F p qo f r); unfold registeredPromise, registeredJobs; rewrite ?Est; cbn; try done.
      * by rewrite list_insert_insert_eq.
      * by rewrite app_nil_r.
    + apply lookup_lt_is_Some. unfold promiseAt in Hq. by destruct (heap s !! p).
  - injection E2 as <- <-. rewrite enqueue_spec in E1. injection E1 as <- <-.
    eapply updatePromise_inv in H; [|exact Hq]. subst s'.
    eapply (register_ok F p qo f r); unfold registeredPromise, registeredJobs; rewrite ?Est; cbn; try done; by rewrite <- app_assoc.
  - injection E2 as <- <-. rewrite enqueue_spec in E1. injection E1 as <- <-.
    eapply updatePromise_inv in H; [|exact Hq]. subst s'.
    eapply (register_ok F p qo f r); unfold registeredPromise, registeredJobs; rewrite ?Est; cbn; try done; by rewrite <- app_assoc.
Qed.

Lemma M_bind_assoc {A B C} (m : M (U := U) A) (k : A → M B) (h : B → M C) s : ((m ≫= k) ≫= h) s = (m ≫= λ a, k a ≫= h) s.
Proof. unfold mbind, M_bind. by destruct (m s) as [[[]]|]. Qed.

Lemma Safe_addReactions p f r : Safe (addReactions call loop p f r).
Proof.
  apply Safe_bind; [safe; apply Safe_neutral; done|]. intros ctx. cbv zeta.
  set (f' := withCtx ctx p f). set (r' := withCtx ctx p r). intros F s x s' HI (po0 & s1 & E1 & H)%bind_inv.
  unfold getPromiseObj, mbind, M_bind, gets in E1. destruct (promiseAt s p) as [po|] eqn:Hp; injection E1 as <- <-;
    [|by destruct H as [-> _]].
  assert (register p po f' r' s = Some (x, s') → Inv F s' ∧ ext s s') as Hreg by (by eapply register_run).
  unfold register in Hreg. destruct (state po) eqn:Hst; [by apply Hreg..|].
  destruct (handled po) eqn:Eh; [by apply Hreg|].
  rewrite M_bind_assoc in H. apply bind_inv in H as (r2 & s2 & E2 & H).
  destruct (Safe_track _ _ _ _ _ _ HI E2) as [HI2 HE2]. destruct r2 as [[]|v| |]; [|by destruct H as [-> _]..].
  destruct (settled_stays _ _ _ _ _ _ HI HI2 (ext_log _ _ HE2) Hp) as (qo & Hq & Hq1 & Hq2); [by rewrite Hst|].
  destruct (register_run F p po qo f' r' s2 x s') as [HI3 HE3]; try done; [unfold register; by rewrite Hst|].
  split; [done|by etrans].
Qed.
#[local] Hint Resolve Safe_addReactions : promises.
Lemma Safe_performPromiseThen p a b c : Safe (performPromiseThen call loop p a b c).
Proof. unfold performPromiseThen. safe. Qed.
#[local] Hint Resolve Safe_performPromiseThen : promises.
Lemma Safe_getPrototypeFromCtor n : Safe (getPrototypeFromCtor call loop n).
Proof. unfold getPrototypeFromCtor. safe. Qed.
#[local] Hint Resolve Safe_getPrototypeFromCtor : promises.
Lemma Safe_builtin_newPromise a n : Safe (builtin_newPromise call loop a n).
Proof. unfold builtin_newPromise. safe. Qed.
#[local] Hint Resolve Safe_builtin_newPromise : promises.
Lemma Safe_executorFunction e a : Safe (executorFunction (U := U) e a).
Proof. unfold executorFunction. safe. Qed.
#[local] Hint Resolve Safe_executorFunction : promises.
Lemma Safe_newPromiseCapability c : Safe (newPromiseCapability call c).
Proof. unfold newPromiseCapability. safe. Qed.
#[local] Hint Resolve Safe_newPromiseCapability : promises.
Lemma Safe_then t a : Safe (promiseProto_then call loop t a).
Proof. unfold promiseProto_then. safe. Qed.
#[local] Hint Resolve Safe_then : promises.
Lemma Safe_catch t a : Safe (promiseProto_catch call loop t a).
Proof. unfold promiseProto_catch. safe. Qed.
#[local] Hint Resolve Safe_catch : promises.
Lemma Safe_promiseResolve c v : Safe (promiseResolve call loop c v).
Proof. unfold promiseResolve. safe. Qed.
#[local] Hint Resolve Safe_promiseResolve : promises.
Lemma Safe_finally t a : Safe (promiseProto_finally call loop t a).
Proof. unfold promiseProto_finally. safe. Qed.
#[local] Hint Resolve Safe_finally : promises.
Lemma Safe_finallyFunction f c k a : Safe (finallyFunction call loop f c k a).
Proof. unfold finallyFunction. safe. Qed.
#[local] Hint Resolve Safe_finallyFunction : promises.
Lemma Safe_getIteratorDirect o : Safe (getIteratorDirect call loop o).
Proof. unfold getIteratorDirect. safe. Qed.
#[local] Hint Resolve Safe_getIteratorDirect : promises.
Lemma Safe_getIterator v : Safe (getIterator call loop v).
Proof. unfold getIterator. safe. Qed.
#[local] Hint Resolve Safe_getIterator : promises.
Lemma Safe_stepValue i : Safe (stepValue call loop i).
Proof. unfold stepValue. safe. Qed.
#[local] Hint Resolve Safe_stepValue : promises.
Lemma Safe_returnIter i : Safe (returnIter call loop i).
Proof. unfold returnIter. safe. Qed.
#[local] Hint Resolve Safe_returnIter : promises.

Lemma Safe_iterate i step : (∀ v, Safe (step v)) → Safe (iterate call loop i step).
Proof.
  intros Hs. unfold iterate. generalize loop at 2 as n. induction n as [|n IH]; cbn [iterateLoop]; safe.
Qed.
#[local] Hint Resolve Safe_iterate : promises.

Lemma Safe_getAgg a : Safe (getAgg (U := U) a).
Proof. unfold getAgg. safe. Qed.
Lemma Safe_setAgg a x : Safe (setAgg (U := U) a x).
Proof. unfold setAgg. safe. Qed.
#[local] Hint Resolve Safe_getAgg Safe_setAgg : promises.
Lemma Safe_newAgg : Safe (newAgg (U := U)).
Proof. unfold newAgg. safe. Qed.
Lemma Safe_newCalled : Safe (newCalled (U := U)).
Proof. unfold newCalled. safe. Qed.
Lemma Safe_reserve a : Safe (reserve (U := U) a).
Proof. unfold reserve. safe. Qed.
Lemma Safe_countUp a : Safe (countUp (U := U) a).
Proof. unfold countUp. safe. Qed.
Lemma Safe_countDown a last : (∀ l, Safe (last l)) → Safe (countDown (U := U) a last).
Proof. unfold countDown. safe. Qed.
Lemma Safe_resolveValues c l : Safe (resolveValues call c l).
Proof. unfold resolveValues. safe. Qed.
Lemma Safe_rejectErrors c l : Safe (rejectErrors call c l).
Proof. unfold rejectErrors. safe. Qed.
Lemma Safe_settledObject b v : Safe (settledObject (U := U) b v).
Proof. unfold settledObject. safe. Qed.
#[local] Hint Resolve Safe_newAgg Safe_newCalled Safe_reserve Safe_countUp Safe_countDown Safe_resolveValues Safe_rejectErrors
  Safe_settledObject Safe_pcapTry : promises.
Lemma Safe_elementFunction a i c v last : Safe v → (∀ l, Safe (last l)) → Safe (elementFunction (U := U) a i c v last).
Proof. unfold elementFunction. safe. Qed.
Lemma Safe_elementStep c mk a pr v : (∀ i k, Safe (mk i k)) → Safe (elementStep call loop c mk a pr v).
Proof. unfold elementStep. safe. Qed.
Lemma Safe_combine t args el last : (∀ a c p v, Safe (el a c p v)) → (∀ c l, Safe (last c l)) →
  Safe (combine call loop t args el last).
Proof. unfold combine. safe. apply Safe_pcapTry. safe. Qed.

Lemma Safe_builtin b t args : Safe (callFunc call loop (FBuiltin b) (Call t) args).
Proof.
  destruct b; cbn [callFunc]; unfold promise_all, promise_allSettled, promise_any, promise_race, promise_reject,
    promise_resolve, promise_try, promise_withResolvers; safe.
  all: try (apply Safe_combine; [intros; apply Safe_elementStep|]; safe; fail).
  apply Safe_pcapTry. safe. apply Safe_iterate. safe.
Qed.

Lemma Safe_asyncStep ar c r : Safe (asyncStep call loop ar c r).
Proof. unfold asyncStep. safe. Qed.
#[local] Hint Resolve Safe_asyncStep : promises.
Lemma Safe_asyncCall c : Safe (asyncCall call loop c).
Proof. unfold asyncCall. safe. Qed.
Lemma Safe_asyncResume ar r : Safe (asyncResume call loop ar r).
Proof. unfold asyncResume. safe. Qed.
#[local] Hint Resolve Safe_asyncCall Safe_asyncResume Safe_elementFunction : promises.

Lemma Safe_callFunc f h args : Safe (callFunc call loop f h args).
Proof.
  destruct f as [b|k n| | | | | | | | | |]; cbn [callFunc]; try (safe; fail).
  destruct h as [t|nt]; [apply Safe_builtin|]. pose proof (Safe_builtin b VUndef args) as Hb. destruct b; [safe|exact Hb..].
Qed.

Lemma Safe_callBody x h args : Safe (callBody call loop x h args).
Proof. unfold callBody. destruct x; safe. apply Safe_callFunc. Qed.
End Calls.

Section Runs.
Context {U : Type} {host : Host U}.
Implicit Types s : st U.

Lemma call_safe n x h args : Safe (call n x h args : M (U := U) value).
Proof.
  revert x h args. induction n as [|n IH]; intros x h args; [apply Safe_noFuel|]. cbn [call]. by apply Safe_callBody.
Qed.

Lemma init_inv u : Inv [] (init (U := U) u).
Proof.
  split; cbn; try done; [constructor|]. intros p po. unfold promiseAt, init, initHeap. cbn.
  do 12 (destruct p as [|p]; [done|]). done.
Qed.

(** *** Programs *)

(** What a program run at the top level does to the runtime. *)
Lemma program_ok F n prg s r s' : Inv F s → callStack s = 0 → RunProgram n prg s = Some (r, s') →
  Inv F s' ∧ callStack s' = 0 ∧ log s `prefix_of` log s' ∧
  (∀ x, r = Ok x → x ≠ Abort → drained s s').
Proof.
  intros HI Hd (r0 & s0 & E0 & H)%bind_inv. injection E0 as <- <-. rewrite bool_decide_false in H by lia.
  apply bind_inv in H as (r0 & s0 & E0 & H). injection E0 as <- <-.
  apply bind_inv in H as (r1 & s1 & E1 & H).
  assert (∃ y, r1 = Ok y ∧ Inv F s1 ∧ log s `prefix_of` log s1 ∧ callStack s1 = 1 ∧ (∀ x, y = Ok x → drained s s1))
    as (y & -> & HI1 & L1 & D1 & R1).
  { apply tryFunc_inv in E1 as (r2 & -> & E2). rename s1 into s2. exists r2. split; [done|].
    apply bind_inv in E2 as (r3 & s3 & E3 & E2).
    destruct (Safe_try _ (Safe_run (call n) n (call_safe n) prg) _ _ _ _ (Inv_callStack F 1 s HI) E3) as [HI3 [L3 D3 Q3]].
    destruct r3 as [x|v| |]; [|by destruct E2 as [-> Hn]; do 3 (split; [done|]); intros x ->; destruct (Hn x)..].
    apply bind_inv in E2 as (r4 & s4 & E4 & E2).
    destruct (leave_drains (call n) n (call_safe n) _ _ _ _ HI3 E4) as (HI4 & L4 & D4 & R4).
    assert (s2 = s4) as -> by (destruct r4 as [[]|v| |]; [by injection E2|by destruct E2 as [-> _]..]).
    split; [done|]. split; [by etrans|]. split; [by rewrite D4|]. intros z Hz.
    destruct r4 as [[]|v| |]; [|by destruct E2 as [_ Hn]; destruct (Hn z)..].
    cbn in *. rewrite D3 in R4. destruct (R4 ltac:(lia) eq_refl) as (Hq & n1 & N1 & N2).
    destruct (Q3 ltac:(lia)) as (n0 & M1 & M2 & M3). split; [done|]. exists (n0 ++ n1).
    by rewrite N1, N2, M1, M2, M3, !app_assoc. }
  apply bind_inv in H as (r2 & s2 & E2 & H). injection E2 as <- <-.
  assert (Inv F (set_callStack 0 s1)) as HI2 by (by apply Inv_callStack).
  destruct y as [[a|e]|v| |].
  1, 2: injection H as <- <-; do 3 (split; [done|]); intros; by eapply R1.
  1, 3: injection H as <- <-; by do 3 (split; [done|]).
  apply bind_inv in H as (r3 & s3 & E3 & H). injection E3 as <- <-. injection H as <- <-.
  split; [by eapply Inv_weaken, takeQueue_ok|]. do 2 (split; [done|]). by intros x [= <-].
Qed.

Lemma Callable_ok F n f t args s r s' : Inv F s → callStack s = 0 → Callable n f t args s = Some (r, s') →
  Inv F s' ∧ callStack s' = 0 ∧ log s `prefix_of` log s'.
Proof.
  intros HI Hd H. assert (Safe (Callable n f t args : M (U := U) _)) as HS.
  { unfold Callable. safe. apply Safe_runWrapped; [apply call_safe|]. apply call_safe. }
  destruct (HS _ _ _ _ HI H) as [? [? ? _]]. rewrite Hd in *. done.
Qed.

(** The calls of the embedder. *)
Inductive step : st U → st U → Prop :=
  | step_RunProgram n prg s r s' : RunProgram n prg s = Some (r, s') → step s s'
  | step_Callable n f t args s r s' : Callable n f t args s = Some (r, s') → step s s'
  | step_NewPromise s r s' : NewPromise s = Some (r, s') → step s s'.

(** The states of a runtime between these calls. *)
Definition reachable s : Prop := ∃ u, rtc step (init u) s.

Lemma step_inv s s' : step s s' → Inv [] s → callStack s = 0 → Inv [] s' ∧ callStack s' = 0 ∧ log s `prefix_of` log s'.
Proof.
  intros H HI HD. destruct H as [n prg s r s' H|n f t args s r s' H|s r s' H].
  - destruct (program_ok _ _ _ _ _ _ HI HD H) as (? & ? & ? & _). done.
  - by apply (Callable_ok _ _ _ _ _ _ _ _ HI HD H).
  - assert (Safe (NewPromise (U := U))) as HS by (unfold NewPromise; safe).
    destruct (HS _ _ _ _ HI H) as [? [? ? _]]. rewrite HD in *. done.
Qed.

Lemma steps_inv s s' : rtc step s s' → Inv [] s → callStack s = 0 → Inv [] s' ∧ callStack s' = 0 ∧ log s `prefix_of` log s'.
Proof.
  induction 1 as [s|s1 s2 s3 H _ IH]; intros HI HD; [done|].
  destruct (step_inv _ _ H HI HD) as (HI2 & HD2 & L2). destruct (IH HI2 HD2) as (? & ? & ?). by split; [|split; [|etrans]].
Qed.

Lemma reachable_inv s : reachable s → Inv [] s ∧ callStack s = 0.
Proof. intros [u H]. destruct (steps_inv _ _ H (init_inv u) eq_refl) as (? & ? & _). done. Qed.

(** ** Theorems *)

(** C4: Safety: whatever scripts, handlers, getters and embedder do, fulfill and
    reject run at most once for a promise, together, and a promise that is no
    longer pending keeps its state and result from then on. *)
Theorem promise_settles_once s s' p po : reachable s → rtc step s s' → promiseAt s p = Some po →
  settles p (log s) = match state po with PromiseStatePending => [] | x => [(x, result po)] end ∧
  (state po ≠ PromiseStatePending → ∃ po', promiseAt s' p = Some po' ∧ state po' = state po ∧ result po' = result po).
Proof.
  intros [HI HD]%reachable_inv Hs Hp. split.
  - destruct (inv_promise _ _ HI p po Hp) as [_ H]. by destruct (state po); destruct H as (_ & _ & _ & ?).
  - destruct (steps_inv _ _ Hs HI HD) as (HI' & _ & L). intros Hne. exact (settled_stays _ _ _ _ _ _ HI HI' L Hp Hne).
Qed.

(** C21: When a program returns, the queue is empty and the jobs queued before and
    during the run were run in the order in which they were queued, each once. *)
Theorem jobs_fifo n prg s x s' : reachable s → RunProgram n prg s = Some (Ok x, s') → x ≠ Abort →
  jobQueue s' = [] ∧ ∃ new, enqueued (log s') = enqueued (log s) ++ new ∧ ran (log s') = ran (log s) ++ jobQueue s ++ new.
Proof.
  intros [HI HD]%reachable_inv H Hx. destruct (program_ok _ _ _ _ _ _ HI HD H) as (_ & _ & _ & Hr). by apply (Hr x).
Qed.

(** C5: Liveness: in a reachable runtime whose jobs so far have all run in the order
    they were queued or are in the queue in that order (a new runtime, and every
    runtime after a program that was not interrupted; an interrupt drops jobs, and a
    call from Go outside of a program may reorder them), when a program returns
    without an interrupt, every reaction that was ever added to a promise that is
    settled by then has been run, once, in the order of registration and with the
    result of the promise: its fulfil reactions or its reject reactions.  No
    reaction of a pending promise has been run.  The condition holds again for the
    next program. *)
Theorem reactions_run n prg s x s' : reachable s → ran (log s) ++ jobQueue s = enqueued (log s) →
  RunProgram n prg s = Some (Ok x, s') → x ≠ Abort →
  ran (log s') ++ jobQueue s' = enqueued (log s') ∧
  ∀ p po, promiseAt s' p = Some po →
    reactionsOf p (ran (log s')) =
    match state po with
    | PromiseStatePending => []
    | PromiseStateFulfilled => (λ '(onFulfilled, _), (onFulfilled, result po)) <$> registered p (log s')
    | PromiseStateRejected => (λ '(_, onRejected), (onRejected, result po)) <$> registered p (log s')
    end.
Proof.
  intros [HI HD]%reachable_inv Hq H Hx. destruct (program_ok _ _ _ _ _ _ HI HD H) as (HI' & _ & _ & Hr).
  destruct (Hr x eq_refl Hx) as (Hq' & new & He & Hn).
  assert (ran (log s') = enqueued (log s')) as Heq by (by rewrite Hn, He, <- Hq, !app_assoc).
  split; [by rewrite Hq', app_nil_r|]. intros p po Hp. rewrite Heq.
  destruct (inv_promise _ _ HI' p po Hp) as [_ Hok].
  destruct (state po); destruct Hok as (_ & _ & -> & _); [done|apply list_fmap_ext; by intros ? [? ?]..].
Qed.
End Runs.
End PromiseJobs.
