(* ===== verification/PromiseSamples.v ===== *)
(** * Concrete runtimes with promises

    A host on which the theorems of [PromiseJobs] are applied, and runs in which
    the job queue and async functions do not behave as ECMAScript prescribes. *)

From S2P Require Import Prelude Promises PromiseInv PromiseJobs.
Import Promises PromiseInv PromiseJobs.

Module PromiseSamples.
#[local] Open Scope nat_scope.

(** The scripts keep the promises and functions they share in a list. *)
Abbreviation U := (list value).
Definition slot (i : nat) (k : value → code U) : code U := CState (λ u, u) (λ u, k (default VUndef (u !! i))).
Definition save (v : value) (k : code U) : code U := CState (λ u, u ++ [v]) (λ _, k).
Definition onOk (k : value → code U) (r : res value) : code U :=
  match r with Ok v => k v | Exn e => CThrow e | _ => CAbort end.
Definition ret : code U := CReturn VUndef.

(** Property reads of unmodified promises. *)
Definition protoProp (s : st U) (v : value) (name : string) : code U :=
  match v with
  | VObj o =>
      match promiseAt s o with
      | Some _ => if String.eqb name "then" then CReturn (VObj 1)
                  else if String.eqb name "constructor" then CReturn (VObj 0) else ret
      | None => if String.eqb name "@@species" then CReturn v else ret
      end
  | _ => ret
  end.

(** p.then(f), with the kinds and bodies of the functions by number. *)
Definition then_ (p : value) (k : fkind) (n : nat) (c : code U) : code U :=
  CFunc k n (λ f, CCall (VObj 1) p [f] (onOk (λ _, c))).

(** *** A script whose handlers are called in order

    [p = new Promise(f0); p.then(f1); p.then(f2); resolve(7)] where f0 saves its
    argument, f1 adds a reaction to p and f2 throws. *)
#[local] Instance sampleHost : Host U := {|
  body n this args :=
    match n with
    | 0 => save (Argument 0 args) ret
    | 1 => slot 1 (λ p, then_ p JS 3 ret)
    | 2 => CThrow (VPrim 5)
    | _ => ret
    end;
  ctor _ _ _ := ret; isCtor _ := false; prop := protoProp;
  tracker := None; asyncContextTracker := false; maxCallStackSize := 100 |}.

Definition sample : code U :=
  CFunc JS 0 (λ f, CNew (VObj 0) [f] (onOk (λ p, save p (
    then_ p JS 1 (then_ p JS 2 (slot 0 (λ resolve, CCall resolve VUndef [VPrim 7] (onOk CReturn)))))))).

(** The final state, if the run returns. *)
Definition finish {H : Host U} (m : M (U := U) (res value)) (s : st U) : option (st U) :=
  match m s with Some (Ok (Ok _), s') => Some s' | _ => None end.
Definition sampleRun : option (res (res value) * st U) := RunProgram 20 sample (init []).

Definition kindOf (j : job) : nat :=
  match j with JReaction r _ => match handler r with Some (CFn f) => f | _ => 0 end | JThenable _ _ _ => 1 end.

(** Three handlers run, in the order of registration; the promise is object 13. *)
Definition sampleOk : bool :=
  match sampleRun with
  | Some (Ok (Ok _), s) =>
      bool_decide (kindOf <$> ran (log s) = kindOf <$> enqueued (log s)) &&
      bool_decide (length (ran (log s)) = 3) &&
      match promiseAt s 13 with
      | Some po => bool_decide (state po = PromiseStateFulfilled) && bool_decide (result po = VPrim 7) &&
                   bool_decide (length (registered 13 (log s)) = 3)
      | None => false
      end
  | _ => false
  end.

Lemma sampleOk_true : sampleOk = true.
Proof. vm_cast_no_check (eq_refl true). Qed.

Lemma sample_state : ∃ v s po, RunProgram 20 sample (init []) = Some (Ok (Ok v), s) ∧ promiseAt s 13 = Some po ∧
  state po = PromiseStateFulfilled ∧ result po = VPrim 7 ∧ length (registered 13 (log s)) = 3 ∧ length (ran (log s)) = 3.
Proof.
  pose proof sampleOk_true as H. unfold sampleOk, sampleRun in H.
  destruct (RunProgram 20 sample (init [])) as [[[[v|e| |]|e| |] s]|]; try done.
  apply andb_prop in H as [[_ H1%bool_decide_eq_true]%andb_prop H].
  destruct (promiseAt s 13) as [po|] eqn:E; [|done].
  apply andb_prop in H as [[H2%bool_decide_eq_true H3%bool_decide_eq_true]%andb_prop H4%bool_decide_eq_true].
  by exists v, s, po.
Qed.

Lemma sample_reachable : reachable (init (U := U) []).
Proof. exists []. apply rtc_refl. Qed.

Lemma promise_settles_once_witness : ∃ (s : st U) po,
  promiseAt s 13 = Some po ∧ settles 13 (log s) = [(PromiseStateFulfilled, VPrim 7)].
Proof.
  destruct sample_state as (v & s & po & Hr & Hp & Hst & Hv & _ & _). exists s, po. split; [done|].
  assert (reachable s) as Hs by (exists []; apply rtc_once; by eapply step_RunProgram).
  destruct (promise_settles_once s s 13 po Hs (rtc_refl _ s) Hp) as [H _]. by rewrite Hst, Hv in H.
Defined.

Lemma jobs_fifo_witness : ∃ s : st U, length (ran (log s)) = 3 ∧ jobQueue s = [] ∧ ran (log s) = enqueued (log s).
Proof.
  destruct sample_state as (v & s & po & Hr & _ & _ & _ & _ & Hl). exists s. split; [done|].
  destruct (jobs_fifo 20 sample (init []) (Ok v) s sample_reachable Hr ltac:(done)) as (Hq & new & H1 & H2).
  cbn in H1, H2. split; [done|]. by rewrite H1, H2.
Defined.

Lemma reactions_run_witness : ∃ s : st U,
  length (registered 13 (log s)) = 3 ∧
  reactionsOf 13 (ran (log s)) = (λ '(onFulfilled, _), (onFulfilled, VPrim 7)) <$> registered 13 (log s).
Proof.
  destruct sample_state as (v & s & po & Hr & Hp & Hst & Hv & Hl & _). exists s. split; [done|].
  destruct (reactions_run 20 sample (init []) (Ok v) s sample_reachable eq_refl Hr ltac:(done)) as [_ H].
  specialize (H 13 po Hp). by rewrite Hst, Hv in H.
Defined.

(** ** Departures from ECMAScript *)

(** *** Jobs run out of order

    [leave] runs at call depth 0 when the embedder calls a function through
    [Callable]; a handler written in Go that uses [Callable] then runs the jobs
    queued meanwhile, before the jobs that were queued earlier.  Function 1 is
    such a handler: it adds a reaction to a resolved promise. *)
Definition reorderHost : Host U := {|
  body n this args :=
    match n with
    | 0 => save (Argument 0 args) ret
    | 1 => CCall (VObj 9) (VObj 0) [VPrim 5] (onOk (λ q, CFunc JS 3 (λ h, CCallable (VObj 1) q [h] (λ _, ret))))
    | _ => ret
    end;
  ctor _ _ _ := ret; isCtor _ := false; prop := protoProp;
  tracker := None; asyncContextTracker := false; maxCallStackSize := 100 |}.

(** [p = new Promise(f0); p.then(f1); p.then(f2)], then the embedder resolves p. *)
Definition reorderPrg : code U :=
  CFunc JS 0 (λ f, CNew (VObj 0) [f] (onOk (λ p, then_ p Go 1 (then_ p JS 2 ret)))).

Definition reorder : option (list nat * list nat * nat) :=
  s ← finish (RunProgram (host := reorderHost) 20 reorderPrg) (init []);
  match Callable (host := reorderHost) 20 (default VUndef (ustate s !! 0)) VUndef [VPrim 7] s with
  | Some (Ok (Some (Ok _)), s') => Some (kindOf <$> enqueued (log s'), kindOf <$> ran (log s'), length (jobQueue s'))
  | _ => None
  end.

(** The third job runs before the second. *)
Theorem callable_reorders_jobs : ∃ f1 f2 f3, reorder = Some ([f1; f2; f3], [f1; f3; f2], 0) ∧ f2 ≠ f3.
Proof. exists 16, 20, 27. split; [vm_compute; reflexivity|done]. Qed.

(** *** An exception of a job panics

    A subclass may supply resolving functions that throw; the reaction job calls
    them outside of [try], so that RunProgram panics in the embedder. *)
Definition escapeHost : Host U := {|
  body n this args := match n with 0 => CThrow (VPrim 1) | _ => ret end;
  ctor n args _ :=
    CFunc JS 0 (λ bad, CCall (Argument 0 args) VUndef [bad; bad] (onOk (λ _, CFunc JS 1 (λ f, CNew (VObj 0) [f] (onOk CReturn)))));
  isCtor _ := true;
  prop s v name := if String.eqb name "@@species" then slot 0 CReturn else protoProp s v name;
  tracker := None; asyncContextTracker := false; maxCallStackSize := 100 |}.

(** [class C ...; Promise.resolve(5).then()] with C as the species. *)
Definition escapePrg : code U :=
  CFunc JS 2 (λ c, save c (CCall (VObj 9) (VObj 0) [VPrim 5] (onOk (λ p, CCall (VObj 1) p [] (onOk CReturn))))).

Theorem job_exception_escapes :
  match RunProgram (host := escapeHost) 20 escapePrg (init []) with Some (Exn (VPrim 1), _) => true | _ => false end = true.
Proof. vm_compute. reflexivity. Qed.

(** *** An await that throws

    When reading the constructor of the awaited promise throws, the exception
    should arrive at the await; instead the call of the async function throws and
    its promise stays pending. *)
Definition awaitHost : Host U := {|
  body n this args := slot 0 (λ p, CAwait p (λ _, ret));
  ctor _ _ _ := ret; isCtor _ := false;
  prop s v name := if String.eqb name "constructor" then CThrow (VPrim 1) else protoProp s v name;
  tracker := None; asyncContextTracker := false; maxCallStackSize := 100 |}.

(** [p = Promise.resolve(5); f()] with [async function f() { try { await p } catch {} }] *)
Definition awaitPrg : code U :=
  CCall (VObj 9) (VObj 0) [VPrim 5] (onOk (λ p, save p (
    CFunc Async 0 (λ f, CCall f VUndef [] (onOk CReturn))))).

(** The promise of f is the last one, object 16. *)
Theorem await_throws_synchronously :
  match RunProgram (host := awaitHost) 20 awaitPrg (init []) with
  | Some (Ok (Exn (VPrim 1)), s) => match promiseAt s 16 with Some po => bool_decide (state po = PromiseStatePending) | None => false end
  | _ => false
  end = true.
Proof. vm_compute. reflexivity. Qed.
End PromiseSamples.
