(* ===== verification/FloatBits.v ===== *)
(** * Bit patterns of floats and half precision

    The three binary interchange formats of the typed arrays: rounding to a
    format ([roundFmt]), its bits ([encode]) and their value ([decode]), for
    binary16, binary32 and binary64.  float16.go computes the first with float64
    arithmetic; [Float64ToFloat16_spec] and [Float16ToFloat64_spec] show that its
    functions are the correctly rounded conversions. *)

From S2P Require Import Prelude Float64 Numbers.
Import Float64 Numbers.
Open Scope Z_scope.

Module FloatBits.

(** ** Formats: precision, exponent bits, exponent of the least positive value *)

Record format := Fmt { prec : Z; ebits : Z; emin : Z }.
Definition binary16 : format := Fmt 11 5 (-24).
Definition binary32 : format := Fmt 24 8 (-149).
Definition binary64 : format := Fmt 53 11 minExp.

(** The exponent of the largest binade. *)
Definition emax (F : format) : Z := emin F + 2 ^ ebits F - 3.

Definition isFormat (F : format) : Prop := F = binary16 ∨ F = binary32 ∨ F = binary64.

(** [m * 2^e] to the nearest value of the format, ties to even: mantissa and
    exponent, or [None] for an overflow. *)
Definition roundFmt (F : format) (m e : Z) : option (Z * Z) :=
  if m =? 0 then Some (0, emin F)
  else
    let e' := Z.max (e + Z.log2 m - (prec F - 1)) (emin F) in
    let q := if e' <=? e then m * 2 ^ (e - e') else rne m (2 ^ (e' - e)) in
    let '(q, e') := if q =? 2 ^ prec F then (2 ^ (prec F - 1), e' + 1) else (q, e') in
    if emax F <? e' then None else Some (q, e').

(** The value of the format nearest to a float, as a float64. *)
Definition roundTo (F : format) (f : float64) : float64 :=
  match f with
  | Fin s m e => match roundFmt F m e with Some (q, e') => roundF s q e' | None => Inf s end
  | _ => f
  end.

(** Exponent and fraction fields. *)
Definition fields (F : format) (q e : Z) : Z :=
  if q <? 2 ^ (prec F - 1) then q else (e - emin F + 1) * 2 ^ (prec F - 1) + (q - 2 ^ (prec F - 1)).
Definition infFields (F : format) : Z := (2 ^ ebits F - 1) * 2 ^ (prec F - 1).
Definition signBit (F : format) (s : bool) : Z := if s then 2 ^ (prec F - 1 + ebits F) else 0.

(** The bits of a float converted to the format; [nan] is the pattern of NaN. *)
Definition encode (F : format) (nan : Z) (f : float64) : Z :=
  match f with
  | NaN => nan
  | Inf s => signBit F s + infFields F
  | Fin s m e => signBit F s + match roundFmt F m e with Some (q, e') => fields F q e' | None => infFields F end
  end.

(** The value of a bit pattern. *)
Definition decode (F : format) (b : Z) : float64 :=
  let s := Z.testbit b (prec F - 1 + ebits F) in
  let E := (b / 2 ^ (prec F - 1)) mod 2 ^ ebits F in
  let R := b mod 2 ^ (prec F - 1) in
  if E =? 2 ^ ebits F - 1 then if R =? 0 then Inf s else NaN
  else if E =? 0 then roundF s R (emin F)
  else roundF s (R + 2 ^ (prec F - 1)) (emin F + E - 1).

(** Go's conversions: float32(f) with Float32bits and Float32frombits, and
    Float64bits with Float64frombits. *)
Definition Float32bits : float64 → Z := encode binary32 0x7FC00000.
Definition Float32frombits : Z → float64 := decode binary32.
Definition Float64frombits : Z → float64 := decode binary64.

(** ** Decoding what was encoded *)

Lemma format_facts F : isFormat F → 1 < prec F ≤ 53 ∧ 1 < ebits F ∧ minExp ≤ emin F ≤ emax F ∧ emax F ≤ maxExp.
Proof. intros [->|[->| ->]]; repeat split; vm_compute; congruence. Qed.

Lemma roundFmt_range F m e q e' : isFormat F → 0 ≤ m → roundFmt F m e = Some (q, e') →
  0 ≤ q < 2 ^ prec F ∧ emin F ≤ e' ≤ emax F ∧ (2 ^ (prec F - 1) ≤ q ∨ e' = emin F).
Proof.
  intros HF Hm. unfold roundFmt. destruct (Z.eqb_spec m 0) as [->|Hnz].
  { intros [= <- <-]. pose proof (format_facts F HF). assert (0 < 2 ^ prec F) by (apply Z.pow_pos_nonneg; lia). lia. }
  set (p := prec F). set (x := Z.max (e + Z.log2 m - (p - 1)) (emin F)).
  assert (1 < p ∧ emin F ≤ emax F) as [Hp Hee] by (pose proof (format_facts F HF); unfold p; lia).
  assert (2 ^ p = 2 * 2 ^ (p - 1)) as Hpp by (rewrite <- Z.pow_succ_r by lia; f_equal; lia).
  assert (0 < 2 ^ (p - 1)) as Hpos by (apply Z.pow_pos_nonneg; lia).
  pose proof (log2_bounds m ltac:(lia)) as [Hlo Hhi]. pose proof (Z.log2_nonneg m) as Hl. set (l := Z.log2 m) in *.
  set (qq := if x <=? e then m * 2 ^ (e - x) else rne m (2 ^ (x - e))).
  assert (0 ≤ qq ≤ 2 ^ p ∧ (2 ^ (p - 1) ≤ qq ∨ x = emin F)) as [Hq Hn].
  { unfold qq. rewrite Hpp. destruct (Z.leb_spec x e) as [E|E].
    - assert (2 ^ l * 2 ^ (e - x) ≤ 2 ^ (p - 1)) as Hu by (rewrite <- pow2_split by lia; apply Z.pow_le_mono_r; lia).
      assert (0 < 2 ^ (e - x)) by (apply Z.pow_pos_nonneg; lia).
      split; [nia|]. destruct (Z.eq_dec x (emin F)) as [|Hne]; [by right|left].
      assert (2 ^ (p - 1) = 2 ^ l * 2 ^ (e - x)) as -> by (rewrite <- pow2_split by lia; f_equal; lia). nia.
    - set (d := 2 ^ (x - e)). assert (0 < d) as Hd by (apply Z.pow_pos_nonneg; lia).
      assert (2 ^ l ≤ 2 ^ (p - 1) * d) as Hu by (unfold d; rewrite <- pow2_split by lia; apply Z.pow_le_mono_r; lia).
      pose proof (rne_cases m d Hd) as Hr. pose proof (Z.div_pos m d ltac:(lia) Hd).
      assert (m / d < 2 * 2 ^ (p - 1)) by (apply Z.div_lt_upper_bound; nia).
      split; [lia|]. destruct (Z.eq_dec x (emin F)) as [|Hne]; [by right|left].
      assert (2 ^ l = 2 ^ (p - 1) * d) as Heq by (unfold d; rewrite <- pow2_split by lia; f_equal; lia).
      assert (2 ^ (p - 1) ≤ m / d) by (apply Z.div_le_lower_bound; nia). lia. }
  assert (emin F ≤ x) by (unfold x; lia).
  destruct (Z.eqb_spec qq (2 ^ p)) as [Eq|Eq].
  - destruct (Z.ltb_spec (emax F) (x + 1)); [done|]. intros [= <- <-]. lia.
  - destruct (Z.ltb_spec (emax F) x); [done|]. intros [= <- <-]. lia.
Qed.

Lemma fields_split (F : format) (s : bool) X R : 0 < prec F → 0 < ebits F → 0 ≤ X < 2 ^ ebits F → 0 ≤ R < 2 ^ (prec F - 1) →
  let b := signBit F s + (X * 2 ^ (prec F - 1) + R) in
  Z.testbit b (prec F - 1 + ebits F) = s ∧ (b / 2 ^ (prec F - 1)) mod 2 ^ ebits F = X ∧ b mod 2 ^ (prec F - 1) = R.
Proof.
  intros Hp He HX HR b. set (P := 2 ^ (prec F - 1)) in *. set (B := 2 ^ ebits F) in *.
  assert (0 < P ∧ 0 < B) as [HP HB] by (split; apply Z.pow_pos_nonneg; lia).
  assert (2 ^ (prec F - 1 + ebits F) = B * P) as HBP by (rewrite pow2_split by lia; unfold P, B; lia).
  assert (b = ((if s then B else 0) + X) * P + R) as Hb by (unfold b, signBit; rewrite HBP; destruct s; lia).
  split; [|split].
  - rewrite Z.testbit_eqb, HBP, (Z.mul_comm B), <- Z.div_div by lia.
    rewrite Hb, Z.div_add_l, (Z.div_small R), Z.add_0_r by lia.
    destruct s; [|by rewrite Z.add_0_l, Z.div_small by lia].
    replace (B + X) with (1 * B + X) by lia. by rewrite Z.div_add_l, Z.div_small by lia.
  - rewrite Hb, Z.div_add_l, Z.div_small, Z.add_0_r by lia. destruct s; [|by rewrite Z.add_0_l, Z.mod_small].
    replace (B + X) with (X + 1 * B) by lia. rewrite Z.mod_add by lia. by apply Z.mod_small.
  - rewrite Hb, Z.add_comm, Z.mod_add by lia. by apply Z.mod_small.
Qed.

Lemma decode_signed F s X R : isFormat F → 0 ≤ X < 2 ^ ebits F → 0 ≤ R < 2 ^ (prec F - 1) →
  decode F (signBit F s + (X * 2 ^ (prec F - 1) + R)) =
  if X =? 2 ^ ebits F - 1 then if R =? 0 then Inf s else NaN
  else if X =? 0 then roundF s R (emin F) else roundF s (R + 2 ^ (prec F - 1)) (emin F + X - 1).
Proof.
  intros HF HX HR. pose proof (format_facts F HF). unfold decode.
  destruct (fields_split F s X R) as (-> & -> & ->); [lia..|]. done.
Qed.

Lemma fields_range F q e : isFormat F → 0 ≤ q < 2 ^ prec F → emin F ≤ e ≤ emax F →
  0 ≤ fields F q e < infFields F.
Proof.
  intros HF Hq He. pose proof (format_facts F HF) as (Hp & Heb & _). unfold fields, infFields, emax in *.
  assert (0 < 2 ^ (prec F - 1)) as HP by (apply Z.pow_pos_nonneg; lia).
  assert (2 < 2 ^ ebits F) as HB by (change 2 with (2 ^ 1) at 1; apply Z.pow_lt_mono_r; lia).
  assert (2 ^ prec F = 2 * 2 ^ (prec F - 1)) as Hpp by (rewrite <- Z.pow_succ_r by lia; f_equal; lia).
  destruct (Z.ltb_spec q (2 ^ (prec F - 1))); nia.
Qed.

Lemma encode_range F nan f : isFormat F → validF f → 0 ≤ nan < 2 ^ (prec F + ebits F) →
  0 ≤ encode F nan f < 2 ^ (prec F + ebits F).
Proof.
  intros HF Hv Hnan. pose proof (format_facts F HF) as (Hp & Heb & _).
  assert (0 < 2 ^ (prec F - 1)) as HP by (apply Z.pow_pos_nonneg; lia).
  assert (2 ^ (prec F - 1 + ebits F) = 2 ^ ebits F * 2 ^ (prec F - 1)) as HBP by (rewrite pow2_split by lia; lia).
  assert (2 ^ (prec F + ebits F) = 2 * 2 ^ (prec F - 1 + ebits F)) as H2 by (rewrite <- Z.pow_succ_r by lia; f_equal; lia).
  assert (∀ s x, 0 ≤ x ≤ infFields F → 0 ≤ signBit F s + x < 2 ^ (prec F + ebits F)) as Hs.
  { intros s x Hx. unfold infFields in Hx. rewrite H2. unfold signBit. destruct s; nia. }
  assert (0 ≤ infFields F) by (unfold infFields; nia).
  destruct f as [|s|s m e]; cbn [encode]; [done|apply Hs; lia|]. apply Hs.
  destruct (roundFmt F m e) as [[q e']|] eqn:E; [|lia].
  destruct (roundFmt_range F m e q e' HF) as (Hq & He' & _); [destruct Hv as [? _]; lia|done|].
  pose proof (fields_range F q e' HF Hq He'). lia.
Qed.

(** Reading the bits of a converted float gives the float rounded to the format. *)
Lemma decode_encode F nan f : isFormat F → decode F nan = NaN → validF f → decode F (encode F nan f) = roundTo F f.
Proof.
  intros HF Hnan Hv. pose proof (format_facts F HF) as (Hp & He & Hemin & Hemax).
  assert (0 < 2 ^ (prec F - 1)) as HP by (apply Z.pow_pos_nonneg; lia).
  assert (2 < 2 ^ ebits F) as HB by (change 2 with (2 ^ 1) at 1; apply Z.pow_lt_mono_r; lia).
  assert (∀ s, decode F (signBit F s + infFields F) = Inf s) as Hinf.
  { intros s. unfold infFields. rewrite <- (Z.add_0_r ((_ - 1) * _)), decode_signed by (done || lia). by rewrite Z.eqb_refl. }
  destruct f as [|s|s m e]; [done|apply Hinf|]. cbn [encode roundTo].
  destruct (roundFmt F m e) as [[q e']|] eqn:E; [|apply Hinf].
  destruct (roundFmt_range F m e q e' HF) as (Hq & He' & Hn); [destruct Hv as [? _]; lia|done|].
  unfold fields. destruct (Z.ltb_spec q (2 ^ (prec F - 1))) as [Hlt|Hge].
  - rewrite <- (Z.add_0_l q) at 1. change (0 + q) with (0 * 2 ^ (prec F - 1) + q).
    rewrite decode_signed by (done || lia). rewrite (proj2 (Z.eqb_neq 0 _)) by lia. cbn.
    destruct Hn as [Hn| ->]; [lia|done].
  - assert (2 ^ prec F = 2 * 2 ^ (prec F - 1)) as Hpp by (rewrite <- Z.pow_succ_r by lia; f_equal; lia).
    unfold emax in He'. rewrite decode_signed by (done || lia).
    rewrite (proj2 (Z.eqb_neq (e' - _ + 1) (_ - 1))), (proj2 (Z.eqb_neq (e' - _ + 1) 0)) by lia. f_equal; lia.
Qed.

Lemma roundFmt_binary64 m e : 0 ≤ m → roundF false m e =
  match roundFmt binary64 m e with Some (q, e') => Fin false q e' | None => Inf false end.
Proof.
  intros Hm. unfold roundFmt, roundF. cbn [prec emin binary64]. destruct (m =? 0); [done|].
  change (53 - 1) with 52. change (emax binary64) with maxExp.
  set (e' := Z.max (e + Z.log2 m - 52) minExp). set (q := if e' <=? e then _ else _).
  destruct (q =? 2 ^ 53); destruct (maxExp <? _); done.
Qed.

Lemma roundTo_binary64 f : validF f → roundTo binary64 f = f.
Proof.
  intros Hv. destruct f as [|s|s m e]; [done..|]. cbn [roundTo].
  pose proof (roundFmt_binary64 m e ltac:(apply Hv)) as H. rewrite (roundF_exact false m e) in H by exact Hv.
  destruct (roundFmt binary64 m e) as [[q e']|]; [|done]. injection H as <- <-. by apply roundF_exact.
Qed.

Lemma encode_binary64 f : validF f → encode binary64 0x7FF8000000000001 f = Float64bits f.
Proof.
  intros Hv. destruct f as [|s|s m e]; [done|by destruct s|]. cbn [encode Float64bits].
  pose proof (roundFmt_binary64 m e ltac:(apply Hv)) as H. rewrite (roundF_exact false m e) in H by exact Hv.
  destruct (roundFmt binary64 m e) as [[q e']|]; [|done]. injection H as <- <-. unfold fields, signBit.
  cbn [prec ebits emin binary64]. change (53 - 1) with 52. unfold minExp.
  destruct s, (m <? 2 ^ 52); change (52 + 11) with 63; lia.
Qed.

(** Float64frombits inverts Float64bits; a float32 is read back rounded. *)
Lemma Float64frombits_bits f : validF f → Float64frombits (Float64bits f) = f.
Proof.
  intros Hv. unfold Float64frombits. rewrite <- encode_binary64 by done.
  rewrite decode_encode; [by apply roundTo_binary64|by right; right|done|done].
Qed.

Lemma Float32frombits_bits f : validF f → Float32frombits (Float32bits f) = roundTo binary32 f.
Proof. intros Hv. apply decode_encode; [by right; left|done|done]. Qed.

(** ** Half precision: float16.go *)

(** math.RoundToEven, math.Frexp and math.Ldexp *)
Definition RoundToEven (f : float64) : float64 :=
  match f with Fin s m e => roundF s (rne (magnitude m e) one) 0 | _ => f end.
Definition Frexp (f : float64) : float64 * Z :=
  match f with
  | Fin s m e => if m =? 0 then (f, 0) else (roundF s m (- (Z.log2 m + 1)), e + Z.log2 m + 1)
  | _ => (f, 0)
  end.
Definition Ldexp (f : float64) (exp : Z) : float64 :=
  match f with Fin s m e => roundF s m (e + exp) | _ => f end.

(** The constant 2^k. *)
Definition pow2F (k : Z) : float64 := Fin false (2 ^ 52) (k - 52).

Definition Float64ToFloat16 (f : float64) : Z :=
  let sign := Z.land (Z.shiftr (Float64bits f) 48) 0x8000 in
  if isNaN f then 0x7e00
  else
    let a := fabs f in
    if fle (ofZ 65520) a then Z.lor sign 0x7c00
    else if flt a (pow2F (-14)) then Z.lor sign (uwrap 16 (int64F (RoundToEven (fmul a (pow2F 24)))))
    else
      let '(frac, exp) := Frexp a in
      let m := RoundToEven (fmul frac (ofZ 2048)) in
      let '(m, exp) := if feq m (ofZ 2048) then (ofZ 1024, exp + 1) else (m, exp) in
      Z.lor (Z.lor sign (uwrap 16 (Z.shiftl (uwrap 16 (exp + 14)) 10))) (uwrap 16 (uwrap 16 (int64F m) - 1024)).

Definition Float16ToFloat64 (b : Z) : float64 :=
  let exp := Z.land (Z.shiftr b 10) 0x1f in
  let m := ofZ (Z.land b 0x3ff) in
  let f := if exp =? 0 then fmul m (pow2F (-24))
           else if exp =? 0x1f then if negb (feq m (ofZ 0)) then NaN else Inf false
           else Ldexp (fadd (ofZ 1024) m) (exp - 25) in
  if negb (Z.land b 0x8000 =? 0) then fneg f else f.

(** *** Auxiliary facts *)

(** Disjoint bit fields. *)
Lemma lor_fields k x y : 0 ≤ k → 0 ≤ x < 2 ^ k → 0 ≤ y → Z.lor (y * 2 ^ k) x = y * 2 ^ k + x.
Proof.
  intros Hk Hx Hy. rewrite <- Z.lxor_lor, Z.add_nocarry_lxor; [done| |].
  all: rewrite <- (Z.mod_small x (2 ^ k)) by done; rewrite <- Z.land_ones, Z.land_comm, <- Z.land_assoc by lia;
    rewrite (Z.land_comm (Z.ones k)), Z.land_ones, Z.mod_mul by lia; apply Z.land_0_r.
Qed.

(** Normalising a mantissa of at most 53 bits does not change the value. *)
Lemma roundF_normalise s m e : 0 < m < 2 ^ 53 → minExp ≤ e → e + Z.log2 m ≤ 1023 →
  ∃ m' e', roundF s m e = Fin s m' e' ∧ validF (Fin s m' e') ∧ magnitude m' e' = magnitude m e.
Proof.
  intros Hm He Hl. pose proof (roundF_valid s m e ltac:(lia)) as Hv. revert Hv. unfold roundF.
  rewrite (proj2 (Z.eqb_neq m 0)) by lia. set (x := Z.max (e + Z.log2 m - 52) minExp).
  assert (Z.log2 m ≤ 52) as Hl2 by (assert (Z.log2 m < 53); [apply Z.log2_lt_pow2; lia|lia]).
  assert (x ≤ e) as Hx by (unfold x; lia). rewrite (proj2 (Z.leb_le x e) Hx).
  pose proof (log2_bounds m ltac:(lia)) as [Hlo Hhi]. pose proof (Z.log2_nonneg m).
  assert (m * 2 ^ (e - x) < 2 ^ 53) as Hq.
  { assert (2 ^ Z.log2 m * 2 ^ (e - x) ≤ 2 ^ 52) by (rewrite <- pow2_split by lia; apply Z.pow_le_mono_r; unfold x; lia).
    assert (0 < 2 ^ (e - x)) by (apply Z.pow_pos_nonneg; lia). nia. }
  rewrite (proj2 (Z.eqb_neq _ (2 ^ 53))) by lia. rewrite (proj2 (Z.ltb_ge maxExp x)) by (unfold maxExp, x, minExp in *; lia).
  intros Hv. eexists _, _. split; [done|]. split; [done|]. unfold magnitude.
  rewrite <- Z.mul_assoc, <- pow2_split by (unfold x in *; lia). do 2 f_equal. lia.
Qed.

Lemma rne_magnitude m e : minExp ≤ e ≤ 0 → rne (magnitude m e) one = rne m (2 ^ (- e)).
Proof.
  intros He. unfold magnitude, one. replace 1074 with ((- e) + (e - minExp)) by (unfold minExp; lia).
  rewrite pow2_split by (unfold minExp in *; lia). apply rne_scale; apply Z.pow_pos_nonneg; unfold minExp in *; lia.
Qed.

Lemma int64F_round n : 0 ≤ n ≤ maxInt → int64F (roundF false n 0) = n.
Proof.
  intros Hn. assert (roundF false n 0 = ofZ n) as ->.
  { unfold ofZ. rewrite Z.abs_eq by lia. f_equal. symmetry. apply Z.ltb_ge. lia. }
  apply truncF_ofZ. lia.
Qed.

(** The sign bit, moved to its place in half precision. *)
Lemma sign16 f : validF f → isNaN f = false → Z.land (Z.shiftr (Float64bits f) 48) 0x8000 = signBit binary16 (Signbit f).
Proof.
  intros Hv Hn. assert (∃ F R, 0 ≤ F < 2 ^ 11 ∧ 0 ≤ R < 2 ^ 52 ∧ Float64bits f = (if Signbit f then 2 ^ 63 else 0) + (F * 2 ^ 52 + R))
    as (F & R & HF & HR & ->).
  { destruct f as [|s|s m e]; [done|exists 0x7FF, 0; cbn; lia|]. destruct Hv as (Hm & He & Hd). cbn [Float64bits Signbit].
    unfold minExp, maxExp in *. destruct (Z.ltb_spec m (2 ^ 52)); [exists 0, m|exists (e + 1075), (m - 2 ^ 52)]; lia. }
  change 0x8000 with (Z.shiftl 1 15).
  apply Z.bits_inj'. intros k Hk. rewrite Z.land_spec, Z.shiftr_spec, Z.shiftl_spec by lia.
  destruct (Z.eq_dec k 15) as [->|Hne].
  - change (Z.testbit 1 (15 - 15)) with true. rewrite andb_true_r. change (15 + 48) with 63.
    rewrite Z.testbit_eqb by lia. destruct (Signbit f); cbn [signBit].
    + replace ((2 ^ 63 + (F * 2 ^ 52 + R)) / 2 ^ 63) with 1; [done|]. apply Z.div_unique with (F * 2 ^ 52 + R); lia.
    + rewrite Z.div_small by lia. done.
  - replace (Z.testbit 1 (k - 15)) with false.
    + rewrite andb_false_r. symmetry. destruct (Signbit f); cbn; [|by rewrite Z.bits_0].
      change (Z.testbit (2 ^ 15) k = false). by rewrite Z.pow2_bits_false by lia.
    + symmetry. destruct (Z.neg_nonneg_cases (k - 15)); [by apply Z.testbit_neg_r|].
      change 1 with (2 ^ 0). apply Z.pow2_bits_false. lia.
Qed.

(** *** The three ranges of Float64ToFloat16 *)

Lemma magnitude_log2 m e k : minExp ≤ e → 0 < m → minExp ≤ k → (2 ^ (k - minExp) ≤ magnitude m e ↔ k ≤ e + Z.log2 m).
Proof.
  intros He Hm Hk. unfold magnitude. rewrite Z.log2_le_pow2 by (pose proof (magnitude_pos m e He Hm); unfold magnitude in *; lia).
  rewrite Z.log2_mul_pow2 by lia. lia.
Qed.

(** The values that round to infinity. *)
Lemma roundFmt16_large m e : validF (Fin false m e) → 65520 * one ≤ magnitude m e → roundFmt binary16 m e = None.
Proof.
  intros (Hm & He & Hd) Hge. assert (0 < one) as H1 by apply one_pos.
  assert (0 < m) as Hpos by (destruct (Z.eq_dec m 0) as [->|]; [unfold magnitude in Hge; lia|lia]).
  assert (15 ≤ e + Z.log2 m) as Hl.
  { apply magnitude_log2; [lia|lia|unfold minExp; lia|]. change (2 ^ (15 - minExp)) with (32768 * one). lia. }
  unfold roundFmt. rewrite (proj2 (Z.eqb_neq m 0)) by lia. cbn [prec emin binary16].
  change (emax binary16) with 5. change (11 - 1) with 10.
  rewrite (Z.max_l (e + Z.log2 m - 10)) by lia. set (l := Z.log2 m) in *.
  assert (2 ^ 52 ≤ m) as Hn.
  { destruct Hd as [?|Hd]; [done|]. exfalso. assert (l ≤ 52); [|unfold minExp in *; lia].
    assert (Z.log2 m < 53); [apply Z.log2_lt_pow2; lia|lia]. }
  assert (l = 52) as El by (apply Z.log2_unique; lia). rewrite El in *.
  rewrite (proj2 (Z.leb_gt _ e)) by lia. replace (e + 52 - 10 - e) with 42 by lia.
  destruct (Z.eq_dec (e + 52) 15) as [E15|Hne].
  - assert (65520 * 2 ^ 37 ≤ m) as Hm2.
    { unfold magnitude in Hge. replace (e - minExp) with 1037 in Hge by (unfold minExp; lia). unfold one in Hge.
      change (2 ^ 1074) with (2 ^ 37 * 2 ^ 1037) in Hge. nia. }
    assert (rne m (2 ^ 42) = 2 ^ 11) as ->.
    { unfold rne. assert (m / 2 ^ 42 = 2047) as -> by (symmetry; apply Z.div_unique with (m - 2047 * 2 ^ 42); lia).
      assert (m mod 2 ^ 42 = m - 2047 * 2 ^ 42) as -> by (symmetry; apply Z.mod_unique with 2047; lia).
      destruct (Z.compare_spec (2 * (m - 2047 * 2 ^ 42)) (2 ^ 42)); [done|lia|done]. }
    rewrite Z.eqb_refl. by rewrite (proj2 (Z.ltb_lt 5 _)) by lia.
  - destruct (_ =? _); by rewrite (proj2 (Z.ltb_lt 5 _)) by lia.
Qed.

(** The subnormal range. *)
Lemma roundFmt16_small m e : validF (Fin false m e) → magnitude m e < 2 ^ 1060 →
  ∃ q, roundFmt binary16 m e = Some (q, -24) ∧ 0 ≤ q ≤ 1024 ∧ RoundToEven (fmul (Fin false m e) (pow2F 24)) = roundF false q 0.
Proof.
  intros Hv Hlt. pose proof Hv as (Hm & He & Hd). destruct (Z.eq_dec m 0) as [->|Hnz]; [by exists 0|].
  assert (e + Z.log2 m < -14) as Hl.
  { destruct (Z.le_gt_cases (-14) (e + Z.log2 m)) as [Hc|]; [|done]. apply magnitude_log2 in Hc; [|lia|lia|unfold minExp; lia].
    change (2 ^ (-14 - minExp)) with (2 ^ 1060) in Hc. lia. }
  pose proof (Z.log2_nonneg m) as Hl0.
  assert (e < -24) as He24.
  { destruct Hd as [Hd|Hd]; [|unfold minExp in *; lia]. assert (52 ≤ Z.log2 m); [apply Z.log2_le_pow2; lia|lia]. }
  set (d := 2 ^ (-24 - e)). assert (0 < d) as Hdp by (apply Z.pow_pos_nonneg; lia).
  pose proof (log2_bounds m ltac:(lia)) as [Hlo Hhi].
  assert (m ≤ 1024 * d) as Hmd.
  { assert (2 * 2 ^ Z.log2 m ≤ 1024 * d); [|lia]. unfold d. change 1024 with (2 ^ 10).
    rewrite <- pow2_split, <- Z.pow_succ_r by lia. apply Z.pow_le_mono_r; lia. }
  assert (0 ≤ rne m d ≤ 1024) as Hq.
  { pose proof (Z.div_pos m d ltac:(lia) Hdp). assert (m / d ≤ 1024) by (apply Z.div_le_upper_bound; lia).
    destruct (rne_cases m d Hdp) as [->| Hr]; [lia|]. rewrite Hr.
    destruct (Z.eq_dec (m / d) 1024) as [E|]; [|lia]. exfalso.
    assert (m = 1024 * d) as Em by (pose proof (Z.div_mod m d ltac:(lia)); pose proof (Z.mod_pos_bound m d Hdp); lia).
    rewrite Em, rne_mult, Z.div_mul in Hr by lia. lia. }
  exists (rne m d). split; [|split; [done|]].
  - unfold roundFmt. rewrite (proj2 (Z.eqb_neq m 0)) by lia. cbn [prec emin binary16]. change (11 - 1) with 10.
    rewrite (Z.max_r (e + Z.log2 m - 10)) by lia. rewrite (proj2 (Z.leb_gt (-24) e)) by lia. fold d.
    rewrite (proj2 (Z.eqb_neq (rne m d) (2 ^ 11))) by lia. done.
  - unfold pow2F. cbn [fmul xorb]. rewrite roundF_shift by lia. replace (e + (24 - 52) + 52) with (e + 24) by lia.
    destruct (roundF_normalise false m (e + 24)) as (m' & e' & -> & Hv' & Hmag); [lia..|]. cbn [RoundToEven].
    rewrite Hmag, rne_magnitude by lia. unfold d. by replace (-24 - e) with (- (e + 24)) by lia.
Qed.

(** The normal range: the mantissa has 53 bits, of which 42 are rounded away. *)
Lemma roundFmt16_normal m e : validF (Fin false m e) → 2 ^ 1060 ≤ magnitude m e → magnitude m e < 65520 * one →
  2 ^ 52 ≤ m ∧ -66 ≤ e ≤ -37 ∧ 1024 ≤ rne m (2 ^ 42) ≤ 2048 ∧
  roundFmt binary16 m e = Some (if rne m (2 ^ 42) =? 2048 then (1024, e + 43) else (rne m (2 ^ 42), e + 42)).
Proof.
  intros (Hm & He & Hd) Hge Hlt. assert (0 < one) as H1 by apply one_pos.
  assert (0 < m) as Hpos.
  { destruct (Z.eq_dec m 0) as [->|]; [|lia]. unfold magnitude in Hge. assert (0 < 2 ^ 1060) by (apply Z.pow_pos_nonneg; lia). lia. }
  assert (-14 ≤ e + Z.log2 m) as Hl by (apply magnitude_log2; [lia|lia|unfold minExp; lia|done]).
  assert (Z.log2 m < 53) as Hl53 by (apply Z.log2_lt_pow2; lia).
  assert (2 ^ 52 ≤ m) as Hn by (destruct Hd as [?|Hd]; [done|unfold minExp in *; lia]).
  assert (Z.log2 m = 52) as El by (apply Z.log2_unique; lia). rewrite El in Hl.
  assert (e + 52 ≤ 15) as Hu.
  { destruct (Z.le_gt_cases 16 (e + 52)) as [Hc|]; [|lia]. rewrite <- El in Hc.
    apply magnitude_log2 in Hc; [|lia|lia|unfold minExp; lia]. change (2 ^ (16 - minExp)) with (65536 * one) in Hc. lia. }
  assert (1024 ≤ rne m (2 ^ 42) ≤ 2048) as Hq.
  { assert (1024 ≤ m / 2 ^ 42) by (apply Z.div_le_lower_bound; lia). assert (m / 2 ^ 42 < 2048) by (apply Z.div_lt_upper_bound; lia).
    destruct (rne_cases m (2 ^ 42)); lia. }
  split; [done|]. split; [lia|]. split; [done|].
  unfold roundFmt. rewrite (proj2 (Z.eqb_neq m 0)) by lia. cbn [prec emin binary16].
  change (emax binary16) with 5. change (11 - 1) with 10. rewrite El.
  rewrite (Z.max_l (e + 52 - 10)) by lia. rewrite (proj2 (Z.leb_gt _ e)) by lia. replace (e + 52 - 10 - e) with 42 by lia.
  change (2 ^ 11) with 2048. change (2 ^ 10) with 1024. destruct (Z.eqb_spec (rne m (2 ^ 42)) 2048) as [E|E].
  - rewrite (proj2 (Z.ltb_ge 5 _)); [do 2 f_equal; lia|]. destruct (Z.eq_dec (e + 52) 15) as [E15|]; [|lia]. exfalso.
    (* 65520 is the least value that rounds up there *)
    assert (m < 65520 * 2 ^ 37) as Hm2.
    { unfold magnitude in Hlt. replace (e - minExp) with 1037 in Hlt by (unfold minExp; lia). unfold one in Hlt.
      change (2 ^ 1074) with (2 ^ 37 * 2 ^ 1037) in Hlt. assert (0 < 2 ^ 1037) by (apply Z.pow_pos_nonneg; lia). nia. }
    pose proof (rne_nearest m (2 ^ 42) ltac:(lia)) as Hr. rewrite E in Hr. lia.
  - rewrite (proj2 (Z.ltb_ge 5 _)) by lia. do 2 f_equal. lia.
Qed.

Lemma flt_pow2F m e : flt (Fin false m e) (pow2F (-14)) = (magnitude m e <? 2 ^ 1060).
Proof. unfold flt, pow2F, fval. f_equal. Qed.

Lemma fle_65520 m e : fle (ofZ 65520) (Fin false m e) = (65520 * one <=? magnitude m e).
Proof.
  destruct (ofZ_small 65520 ltac:(unfold maxInt; lia)) as (m' & e' & -> & _ & Hval & _).
  unfold fle, flt, feq. rewrite Hval. cbn [fval].
  destruct (Z.leb_spec (65520 * one) (magnitude m e)); destruct (Z.ltb_spec (65520 * one) (magnitude m e));
    destruct (Z.eqb_spec (65520 * one) (magnitude m e)); cbn; lia.
Qed.

Lemma lor_sign s x : 0 ≤ x < 2 ^ 15 → Z.lor (signBit binary16 s) x = signBit binary16 s + x.
Proof.
  intros Hx. destruct s; [|done]. change (signBit binary16 true) with (1 * 2 ^ 15). by apply lor_fields.
Qed.

Lemma lor_sign_fields s x r : 0 ≤ x < 32 → 0 ≤ r < 1024 →
  Z.lor (Z.lor (signBit binary16 s) (uwrap 16 (Z.shiftl x 10))) r = signBit binary16 s + (x * 1024 + r).
Proof.
  intros Hx Hr. rewrite Z.shiftl_mul_pow2, uwrap_id by lia. rewrite lor_sign by lia.
  set (S := if s then 32 else 0). assert (signBit binary16 s = S * 1024) as -> by (by destruct s).
  replace (S * 1024 + x * 2 ^ 10) with ((S + x) * 2 ^ 10) by lia.
  rewrite lor_fields by (unfold S; destruct s; lia). lia.
Qed.

(** Float64ToFloat16 is the conversion to the nearest half, ties to even. *)
Lemma Float64ToFloat16_spec f : validF f → Float64ToFloat16 f = encode binary16 0x7e00 f.
Proof.
  intros Hv. destruct f as [|s|s m e]; [done|by destruct s|].
  unfold Float64ToFloat16. rewrite sign16 by done. cbn [isNaN fabs Signbit encode].
  rewrite fle_65520, flt_pow2F. assert (validF (Fin false m e)) as Hv' by exact Hv.
  destruct (Z.leb_spec (65520 * one) (magnitude m e)) as [Hge|Hlt].
  { rewrite roundFmt16_large by done. by apply lor_sign. }
  destruct (Z.ltb_spec (magnitude m e) (2 ^ 1060)) as [Hs|Hn].
  { destruct (roundFmt16_small m e Hv' Hs) as (q & -> & Hq & ->). rewrite int64F_round by (unfold maxInt; lia).
    rewrite uwrap_id, lor_sign by lia. f_equal. unfold fields. cbn [prec emin binary16].
    destruct (Z.ltb_spec q (2 ^ (11 - 1))); lia. }
  destruct (roundFmt16_normal m e Hv' Hn Hlt) as (Hm & He & Hq & Hr). rewrite Hr.
  destruct Hv' as (Hm53 & _ & _). assert (Z.log2 m = 52) as El by (apply Z.log2_unique; lia).
  unfold Frexp. rewrite (proj2 (Z.eqb_neq m 0)), El by lia. change (- (52 + 1)) with (-53).
  rewrite (roundF_exact false m (-53)) by (cbn; unfold minExp, maxExp; lia).
  assert (RoundToEven (fmul (Fin false m (-53)) (ofZ 2048)) = roundF false (rne m (2 ^ 42)) 0) as ->.
  { change (ofZ 2048) with (Fin false (2 ^ 52) (-41)). cbn [fmul xorb]. rewrite roundF_shift by lia.
    change (-53 + -41 + 52) with (-42). rewrite roundF_exact by (cbn; unfold minExp, maxExp; lia).
    cbn [RoundToEven]. by rewrite rne_magnitude by (unfold minExp; lia). }
  set (q := rne m (2 ^ 42)) in *.
  assert (roundF false q 0 = ofZ q) as Eq.
  { unfold ofZ. rewrite Z.abs_eq by lia. f_equal. symmetry. apply Z.ltb_ge. lia. }
  assert (feq (roundF false q 0) (ofZ 2048) = (q =? 2048)) as ->.
  { rewrite Eq. destruct (ofZ_small q ltac:(unfold maxInt; lia)) as (m1 & e1 & -> & _ & Hv1 & _).
    destruct (ofZ_small 2048 ltac:(unfold maxInt; lia)) as (m2 & e2 & -> & _ & Hv2 & _).
    unfold feq. rewrite Hv1, Hv2. pose proof one_pos. destruct (Z.eqb_spec q 2048) as [->|]; [apply Z.eqb_refl|apply Z.eqb_neq; nia]. }
  unfold fields. cbn [prec emin binary16]. change (11 - 1) with 10.
  destruct (Z.eqb_spec q 2048) as [E|E].
  - change (int64F (ofZ 1024)) with 1024. change (uwrap 16 (uwrap 16 1024 - 1024)) with 0.
    rewrite (uwrap_id 16 (e + 52 + 1 + 1 + 14)), lor_sign_fields by lia. change (1024 <? 2 ^ 10) with false. cbv iota. lia.
  - rewrite int64F_round by (unfold maxInt; lia). rewrite (uwrap_id 16 q), (uwrap_id 16 (q - 1024)), (uwrap_id 16 (e + 52 + 1 + 14)) by lia.
    rewrite lor_sign_fields by lia. rewrite (proj2 (Z.ltb_ge q (2 ^ 10))) by lia. lia.
Qed.

Lemma fneg_roundF s m e : fneg (roundF s m e) = roundF (negb s) m e.
Proof. unfold roundF. repeat (case_match; try done). Qed.

(** An integer of at most 53 bits, scaled. *)
Lemma roundF_ofZ n m e k : ofZ n = Fin false m e → 0 < n ≤ maxInt → roundF false m (e + k) = roundF false n k.
Proof.
  intros H Hn. destruct (ofZ_small n ltac:(unfold maxInt in *; lia)) as (m' & e' & H' & _ & Hval & Hm' & He').
  rewrite H in H'. injection H' as Hs <- <-. rewrite <- Hs in Hval. cbn [fval] in Hval.
  assert (0 < m) as Hm.
  { destruct (Z.eq_dec m 0) as [->|]; [|lia]. pose proof one_pos. unfold magnitude in Hval. lia. }
  apply (roundF_value _ _ _ _ _ (k + minExp)); [done|lia|lia|unfold minExp; lia|].
  replace (e + k - (k + minExp)) with (e - minExp) by lia. replace (k - (k + minExp)) with 1074 by (unfold minExp; lia).
  exact Hval.
Qed.

(** Float16ToFloat64 reads a half. *)
Lemma Float16ToFloat64_spec b : 0 ≤ b < 2 ^ 16 → Float16ToFloat64 b = decode binary16 b.
Proof.
  intros Hb. unfold Float16ToFloat64, decode. cbn [prec ebits emin binary16].
  change (11 - 1) with 10. change (10 + 5) with 15.
  change 0x1f with (Z.ones 5). change 0x3ff with (Z.ones 10). rewrite !Z.land_ones, Z.shiftr_div_pow2 by lia.
  assert (negb (Z.land b 0x8000 =? 0) = Z.testbit b 15) as ->.
  { change 0x8000 with (2 ^ 15). destruct (Z.testbit b 15) eqn:E.
    - apply negb_true_iff, Z.eqb_neq. intros H. apply (f_equal (λ x, Z.testbit x 15)) in H.
      rewrite Z.land_spec, E in H. done.
    - apply negb_false_iff, Z.eqb_eq. apply Z.bits_inj'. intros k Hk. rewrite Z.land_spec, Z.bits_0, Z.pow2_bits_eqb by lia.
      destruct (Z.eqb_spec 15 k) as [<-|]; [by rewrite E|apply andb_false_r]. }
  set (X := (b / 2 ^ 10) mod 2 ^ 5). set (R := b mod 2 ^ 10). generalize (Z.testbit b 15). intros s.
  assert (0 ≤ X < 32) as HX by (apply Z.mod_pos_bound; lia). assert (0 ≤ R < 1024) as HR by (apply Z.mod_pos_bound; lia).
  assert (∀ m e, (if s then fneg (roundF false m e) else roundF false m e) = roundF s m e) as Hsg.
  { intros m e. destruct s; [by rewrite fneg_roundF|done]. }
  change (Z.ones 5) with 31. change (2 ^ 5 - 1) with 31.
  assert (0 < R → ∃ m e, ofZ R = Fin false m e) as HofR.
  { intros HR0. destruct (ofZ_small R ltac:(lia)) as (m' & e' & H & _). rewrite (proj2 (Z.ltb_ge R 0)) in H by lia. eauto. }
  destruct (Z.eqb_spec X 0) as [E0|E0].
  - rewrite E0. change (0 =? 31) with false. change (0 =? 0) with true. cbv iota. rewrite <- Hsg.
    destruct (Z.eq_dec R 0) as [->|HR0]; [by destruct s|].
    destruct (HofR ltac:(lia)) as (m & e & Hm). rewrite Hm. unfold pow2F. cbn [fmul xorb].
    assert (0 < m) as Hpos.
    { destruct (ofZ_small R ltac:(lia)) as (m' & e' & H' & _ & Hval & ? & _). rewrite Hm in H'. injection H' as _ <- <-.
      destruct (Z.eq_dec m 0) as [->|]; [|lia]. pose proof one_pos. unfold fval, magnitude in Hval. destruct (R <? 0); lia. }
    rewrite roundF_shift by lia. replace (e + (-24 - 52) + 52) with (e + -24) by lia.
    by rewrite (roundF_ofZ R m e (-24) Hm) by (unfold maxInt; lia).
  - destruct (Z.eqb_spec X 31) as [E1|E1].
    + destruct (Z.eqb_spec R 0) as [->|HR0]; [by destruct s|].
      destruct (ofZ_small R ltac:(lia)) as (m' & e' & -> & _ & Hval & _). pose proof one_pos.
      unfold feq. change (ofZ 0) with (Fin false 0 minExp). rewrite Hval.
      assert ((R * one =? fval false 0 minExp) = false) as -> by (apply Z.eqb_neq; change (fval false 0 minExp) with 0; nia).
      by destruct s.
    + rewrite <- Hsg. rewrite fadd_ofZ by lia.
      destruct (ofZ_small (1024 + R) ltac:(lia)) as (m & e & Hm & _). rewrite (proj2 (Z.ltb_ge (1024 + R) 0)) in Hm by lia.
      rewrite Hm. cbn [Ldexp]. rewrite (roundF_ofZ (1024 + R) m e (X - 25) Hm) by (unfold maxInt; lia).
      replace (R + 2 ^ 10) with (1024 + R) by lia. by replace (-24 + X - 1) with (X - 25) by lia.
Qed.

(** *** Storing what was read *)

Lemma roundFmt_shift F m e k : isFormat F → 0 < m → 0 ≤ k → roundFmt F (m * 2 ^ k) e = roundFmt F m (e + k).
Proof.
  intros HF Hm Hk. assert (0 < 2 ^ k) as Hp by (apply Z.pow_pos_nonneg; lia). unfold roundFmt.
  rewrite (proj2 (Z.eqb_neq (m * 2 ^ k) 0)), (proj2 (Z.eqb_neq m 0)) by nia.
  rewrite Z.log2_mul_pow2 by lia. replace (e + (k + Z.log2 m) - (prec F - 1)) with (e + k + Z.log2 m - (prec F - 1)) by lia.
  set (x := Z.max (e + k + Z.log2 m - (prec F - 1)) (emin F)).
  assert ((if x <=? e then m * 2 ^ k * 2 ^ (e - x) else rne (m * 2 ^ k) (2 ^ (x - e)))
        = (if x <=? e + k then m * 2 ^ (e + k - x) else rne m (2 ^ (x - (e + k))))) as ->; [|done].
  destruct (Z.leb_spec x e) as [E|E].
  - zcmp. rewrite <- Z.mul_assoc, <- pow2_split by lia. do 2 f_equal. lia.
  - destruct (Z.leb_spec x (e + k)) as [E2|E2].
    + replace k with ((e + k - x) + (x - e)) at 1 by lia. rewrite pow2_split, Z.mul_assoc by lia.
      apply rne_mult. apply Z.pow_pos_nonneg; lia.
    + replace (x - e) with ((x - (e + k)) + k) by lia. rewrite pow2_split by lia.
      apply rne_scale; [apply Z.pow_pos_nonneg; lia|done].
Qed.

Lemma roundFmt_exact F q e : isFormat F → 0 ≤ q < 2 ^ prec F → emin F ≤ e ≤ emax F → 2 ^ (prec F - 1) ≤ q ∨ e = emin F →
  roundFmt F q e = Some (q, e).
Proof.
  intros HF Hq He Hn. pose proof (format_facts F HF) as (Hp & _). unfold roundFmt.
  assert (0 < 2 ^ (prec F - 1)) by (apply Z.pow_pos_nonneg; lia).
  destruct (Z.eqb_spec q 0) as [->|Hnz]; [destruct Hn as [Hn|Hn]; [lia|by rewrite Hn]|].
  assert (Z.log2 q < prec F) as Hl by (apply Z.log2_lt_pow2; lia).
  assert (Z.max (e + Z.log2 q - (prec F - 1)) (emin F) = e) as ->.
  { destruct Hn as [Hn|Hn]; [|lia]. assert (prec F - 1 ≤ Z.log2 q) by (apply Z.log2_le_pow2; lia). lia. }
  rewrite Z.leb_refl, Z.sub_diag, Z.mul_1_r. rewrite (proj2 (Z.eqb_neq q _)) by lia. by rewrite (proj2 (Z.ltb_ge (emax F) e)) by lia.
Qed.

(** A value of the format, normalised as a float64, is converted back exactly. *)
Lemma encode_roundF F nan s q e : isFormat F → 0 ≤ q < 2 ^ prec F → emin F ≤ e ≤ emax F → 2 ^ (prec F - 1) ≤ q ∨ e = emin F →
  encode F nan (roundF s q e) = signBit F s + fields F q e.
Proof.
  intros HF Hq He Hn. pose proof (format_facts F HF) as (Hp & Heb & Hemin & Hemax).
  destruct (Z.eq_dec q 0) as [->|Hnz].
  { destruct Hn as [Hn|Hn]; [assert (0 < 2 ^ (prec F - 1)) by (apply Z.pow_pos_nonneg; lia); lia|]. subst e. cbn. done. }
  assert (q < 2 ^ 53) as H53 by (assert (2 ^ prec F ≤ 2 ^ 53) by (apply Z.pow_le_mono_r; lia); lia).
  assert (Z.log2 q < prec F) as Hl by (apply Z.log2_lt_pow2; lia).
  destruct (roundF_normalise s q e) as (m' & e' & -> & Hv & Hmag); [lia|lia|unfold maxExp in *; lia|].
  cbn [encode]. assert (roundFmt F m' e' = roundFmt F q e) as ->.
  { assert (0 < m') as Hm'. { destruct Hv as (? & ? & _). destruct (Z.eq_dec m' 0) as [->|]; [|lia].
      pose proof (magnitude_pos q e ltac:(lia) ltac:(lia)). unfold magnitude in *. lia. }
    destruct Hv as (_ & He' & _). unfold magnitude in Hmag.
    replace e' with (minExp + (e' - minExp)) by lia. replace e with (minExp + (e - minExp)) by lia.
    rewrite <- !roundFmt_shift by (done || lia). by rewrite Hmag. }
  by rewrite roundFmt_exact.
Qed.

Lemma encode_decode F nan b : isFormat F → 0 ≤ b < 2 ^ (prec F + ebits F) → decode F b ≠ NaN → encode F nan (decode F b) = b.
Proof.
  intros HF Hb. pose proof (format_facts F HF) as (Hp & Heb & _). unfold decode.
  set (P := 2 ^ (prec F - 1)). set (B := 2 ^ ebits F).
  assert (0 < P ∧ 2 < B) as [HP HB].
  { split; [apply Z.pow_pos_nonneg; lia|]. change 2 with (2 ^ 1) at 1. apply Z.pow_lt_mono_r; lia. }
  assert (2 ^ (prec F - 1 + ebits F) = B * P) as HBP by (rewrite pow2_split by lia; unfold P, B; lia).
  assert (2 ^ (prec F + ebits F) = 2 * (B * P)) as H2 by (rewrite <- HBP, <- Z.pow_succ_r by lia; f_equal; lia).
  assert (2 ^ prec F = 2 * P) as HPp by (unfold P; rewrite <- Z.pow_succ_r by lia; f_equal; lia).
  set (s := Z.testbit b (prec F - 1 + ebits F)). set (X := (b / P) mod B). set (R := b mod P).
  assert (0 ≤ X < B) as HX by (apply Z.mod_pos_bound; lia). assert (0 ≤ R < P) as HR by (apply Z.mod_pos_bound; lia).
  assert (b = signBit F s + (X * P + R)) as Hsplit.
  { assert (b / P / B = if s then 1 else 0) as Hs.
    { rewrite Z.div_div, (Z.mul_comm P), <- HBP by lia. unfold s. rewrite Z.testbit_eqb, HBP by lia.
      assert (0 ≤ b / (B * P) < 2) by (split; [apply Z.div_pos; nia|apply Z.div_lt_upper_bound; nia]).
      destruct (Z.eqb_spec (b / (B * P) mod 2) 1) as [E|E]; rewrite Z.mod_small in E by lia; lia. }
    pose proof (Z.div_mod b P ltac:(lia)) as H1. pose proof (Z.div_mod (b / P) B ltac:(lia)) as H3.
    rewrite Hs in H3. fold X in H3. fold R in H1. unfold signBit. rewrite HBP. destruct s; nia. }
  clearbody s X R. intros Hnan. destruct (Z.eqb_spec X (B - 1)) as [E|E].
  - destruct (Z.eqb_spec R 0) as [ER|]; [|done]. cbn [encode]. unfold infFields. fold P B. rewrite Hsplit, E, ER. lia.
  - destruct (Z.eqb_spec X 0) as [E0|E0].
    + rewrite encode_roundF; [|done|lia|unfold emax; fold B; lia|by right]. unfold fields. fold P.
      rewrite (proj2 (Z.ltb_lt R P)) by lia. lia.
    + rewrite encode_roundF; [|done|lia|unfold emax; fold B; lia|left; fold P; lia]. unfold fields. fold P.
      rewrite (proj2 (Z.ltb_ge (R + P) P)) by lia. nia.
Qed.

Lemma decode_valid F b : isFormat F → 0 ≤ b → validF (decode F b).
Proof.
  intros HF Hb. pose proof (format_facts F HF) as (? & _). unfold decode.
  assert (0 < 2 ^ (prec F - 1)) by (apply Z.pow_pos_nonneg; lia).
  pose proof (Z.mod_pos_bound b (2 ^ (prec F - 1)) ltac:(lia)).
  destruct (_ =? _); [by destruct (_ =? 0)|]. destruct (_ =? 0); apply roundF_valid; lia.
Qed.

(** C34: Float64ToFloat16, which works with float64 arithmetic, is the correctly
    rounded conversion: reading its bits back with Float16ToFloat64 gives the
    binary16 value nearest to the argument, ties to even, with overflow to
    infinity, gradual underflow and the sign of zero; and every bit pattern that is
    not a NaN survives the way to float64 and back. *)
Theorem float16_conversion (f : float64) (b : Z) : validF f → 0 ≤ b < 2 ^ 16 →
  0 ≤ Float64ToFloat16 f < 2 ^ 16 ∧
  Float16ToFloat64 (Float64ToFloat16 f) = roundTo binary16 f ∧
  (Float16ToFloat64 b ≠ NaN → Float64ToFloat16 (Float16ToFloat64 b) = b).
Proof.
  intros Hf Hb. assert (isFormat binary16) as HF by (by left). rewrite (Float64ToFloat16_spec f Hf), (Float16ToFloat64_spec b Hb).
  pose proof (encode_range binary16 0x7e00 f HF Hf ltac:(cbn; lia)) as Hr. cbn in Hr. split; [exact Hr|].
  rewrite Float16ToFloat64_spec by exact Hr. split; [by apply decode_encode|]. intros Hn.
  rewrite Float64ToFloat16_spec; [by apply encode_decode|]. apply decode_valid; [done|lia].
Qed.
End FloatBits.
