(* ===== verification/TypedArrays.v ===== *)
(** * Typed arrays, array buffers and data views

    Model of typedarrays.go: the memory behind array buffers, the twelve element
    types with their unchecked pointer arithmetic, the buffer accessors with a
    byte order, and the exotic index access of typed array objects.

    Memory is a list of blocks of bytes.  A Go slice is a window of a block; two
    buffers may share a block (transfer hands the bytes over, NewArrayBuffer takes
    any slice).  An access through an unsafe pointer or an index that leaves the
    slice is the outcome [Crash]: what the pointer reads there is not determined
    by the program.  JavaScript code that a conversion runs is a function on the
    heap inside the value ([VOther]). *)

From S2P Require Import Prelude Float64 Numbers Arith FloatBits.
Import Float64 Numbers Arith FloatBits.
Open Scope Z_scope.

Module TypedArrays.

(** ** Memory, heap and outcomes *)

Abbreviation memory := (list (list Z)).
Record goslice := Slice { sblk : nat; soff : Z; slen : Z }.

(** The data of a buffer is nil ([None]) before it is allocated and after detach. *)
Record arrayBufferObject := ArrayBuffer { detached : bool; data : option goslice }.
Record heap := Heap { mem : memory; bufs : list arrayBufferObject }.

Definition lenData (d : option goslice) : Z := match d with Some s => slen s | None => 0 end.

Inductive outcome (A : Type) := Ret (a : A) | Raise (e : exn) | Crash.
Arguments Ret {A} _.
Arguments Raise {A} _.
Arguments Crash {A}.

Definition M (A : Type) : Type := heap → outcome A * heap.
#[global] Instance M_ret : MRet M := λ A a h, (Ret a, h).
#[global] Instance M_bind : MBind M := λ A B k m h,
  match m h with
  | (Ret a, h') => k a h'
  | (Raise e, h') => (Raise e, h')
  | (Crash, h') => (Crash, h')
  end.

Definition raise {A} (e : exn) : M A := λ h, (Raise e, h).
Definition crash {A} : M A := λ h, (Crash, h).
Definition liftResult {A} (r : result A) : M A := match r with Ok a => mret a | Throw e => raise e end.
Definition buffer (b : nat) : M arrayBufferObject :=
  λ h, match bufs h !! b with Some o => (Ret o, h) | None => (Crash, h) end.

(** *** Bytes of a slice *)

Definition inSlice (s : goslice) (off n : Z) : bool := (0 <=? off) && (0 <=? n) && (off + n <=? slen s).

Definition peekBytes (d : option goslice) (off n : Z) : M (list Z) := λ h,
  match d with
  | Some s =>
      if inSlice s off n then
        match mem h !! sblk s with
        | Some blk => (Ret (take (Z.to_nat n) (drop (Z.to_nat (soff s + off)) blk)), h)
        | None => (Crash, h)
        end
      else (Crash, h)
  | None => (Crash, h)
  end.

Definition pokeMem (m : memory) (s : goslice) (off : Z) (bs : list Z) : memory :=
  alter (list_inserts (Z.to_nat (soff s + off)) bs) (sblk s) m.

Definition pokeBytes (d : option goslice) (off : Z) (bs : list Z) : M unit := λ h,
  match d with
  | Some s =>
      if inSlice s off (Z.of_nat (length bs)) then
        (Ret (), Heap (pokeMem (mem h) s off bs) (bufs h))
      else (Crash, h)
  | None => (Crash, h)
  end.

(** make([]byte, size) *)
Definition allocByteSlice (size : Z) : M goslice :=
  if size <? 0 then raise (RangeError "Invalid buffer size")
  else λ h, (Ret (Slice (length (mem h)) 0 size), Heap (mem h ++ [replicate (Z.to_nat size) 0]) (bufs h)).

(** A new buffer object; its data is set by the caller. *)
Definition _newArrayBuffer (d : option goslice) : M nat := λ h,
  (Ret (length (bufs h)), Heap (mem h) (bufs h ++ [ArrayBuffer false d])).

Definition detach (b : nat) : M unit := λ h,
  (Ret (), Heap (mem h) (alter (λ _, ArrayBuffer true None) b (bufs h))).

(** Detach of the Go API: false when the buffer was detached already. *)
Definition Detach (b : nat) : M bool :=
  o ← buffer b; if detached o then mret false else detach b ≫= λ _, mret true.

Definition ensureNotDetached (b : nat) : M unit :=
  o ← buffer b; if detached o then raise (TypeError "ArrayBuffer is detached") else mret ().
(** The same check with throw = false. *)
Definition notDetached (b : nat) : M bool := o ← buffer b; mret (negb (detached o)).

(** *** Values

    A number, a BigInt, or another value with what converting it to a number, to
    a BigInt and to a boolean gives; for an object the conversion runs JavaScript
    code, which may change the heap. *)
Inductive value :=
  | VNum (n : number)
  | VBig (b : Z)
  | VOther (isUndefined : bool) (num : M number) (big : M Z) (truthy : bool).

Definition ofNumeric (n : numeric) : value := match n with NNum n => VNum n | NBig b => VBig b end.

Definition _undefined : value :=
  VOther true (mret (valueFloat NaN)) (raise (TypeError "Cannot convert undefined to a BigInt")) false.

Definition ToNumber (v : value) : M number :=
  match v with
  | VNum n => mret n
  | VBig _ => raise (TypeError "Cannot convert a BigInt value to a number")
  | VOther _ num _ _ => num
  end.

Definition toBigInt (v : value) : M Z :=
  match v with
  | VNum _ => raise (TypeError "Cannot convert a Number to a BigInt")
  | VBig b => mret b
  | VOther _ _ big _ => big
  end.

Definition VToInteger (v : value) : M Z := n ← ToNumber v; mret (ToInteger n).
Definition VtoIndex (v : value) : M Z := n ← ToNumber v; liftResult (toIndex n).
Definition VToFloat (v : value) : M float64 := n ← ToNumber v; mret (ToFloat n).
Definition isUndefined (v : value) : bool := match v with VOther u _ _ _ => u | _ => false end.

(** ** Byte order *)

Inductive byteOrder := bigEndian | littleEndian.
#[global] Instance byteOrder_eq_dec : EqDecision byteOrder.
Proof. solve_decision. Defined.

Fixpoint leBytes (w : nat) (z : Z) : list Z :=
  match w with O => [] | S w => uwrap 8 z :: leBytes w (z / 256) end.
Fixpoint leValue (bs : list Z) : Z := match bs with [] => 0 | b :: bs => b + 256 * leValue bs end.

(** A [w]-byte integer as a machine of the order stores it. *)
Definition orderBytes (bo : byteOrder) (w : nat) (z : Z) : list Z :=
  match bo with littleEndian => leBytes w z | bigEndian => rev (leBytes w z) end.
Definition orderValue (bo : byteOrder) (bs : list Z) : Z :=
  match bo with littleEndian => leValue bs | bigEndian => leValue (rev bs) end.

(** init: how the machine stores 0xCAFE decides nativeEndian. *)
Definition detectEndian (store : Z → list Z) : option byteOrder :=
  let buf := store 0xCAFE in
  if decide (buf = [0xFE; 0xCA]) then Some littleEndian
  else if decide (buf = [0xCA; 0xFE]) then Some bigEndian
  else None.

(** ** Element types *)

(** toUint8Exact and the like: the integer value of a Number in a range. *)
Definition toIntExact (lo hi : Z) (v : value) : option Z :=
  match v with
  | VNum (valueInt i) => if (lo <=? i) && (i <=? hi) then Some i else None
  | VNum (valueFloat f) =>
      if fle (ofZ lo) f && fle f (ofZ hi) && feq f (Trunc f) then Some (int64F f) else None
  | _ => None
  end.
Definition toUint8Exact := toIntExact 0 255.
Definition toInt8Exact := toIntExact (-128) 127.
Definition toUint16Exact := toIntExact 0 65535.
Definition toInt16Exact := toIntExact (-32768) 32767.
Definition toUint32Exact := toIntExact 0 4294967295.
Definition toInt32Exact := toIntExact (-2147483648) 2147483647.

Definition toFloat16Exact (v : value) : option float64 :=
  match v with
  | VNum n =>
      let f := ToFloat n in
      if negb (feq (Float16ToFloat64 (Float64ToFloat16 f)) f) then None else Some f
  | _ => None
  end.

(** A float32 is the float64 of the same value. *)
Definition toFloat32Exact (v : value) : option float64 :=
  match v with
  | VNum n =>
      let f := ToFloat n in
      let f32 := roundTo binary32 f in
      if negb (feq f32 f) then None else Some f32
  | _ => None
  end.

Definition typedFloatLess (x y : float64) : bool :=
  let xNan := isNaN x in
  let yNan := isNaN y in
  if yNan then negb xNan
  else if xNan then false
  else if feq x (ofZ 0) && feq y (ofZ 0) then Signbit x
  else flt x y.

Definition toBigInt64 (v : value) : M Z :=
  n ← toBigInt v;
  let int64bit := n mod 2 ^ 64 in
  mret (if 2 ^ 63 <=? int64bit then int64bit - 2 ^ 64 else int64bit).
Definition toBigUint64 (v : value) : M Z := n ← toBigInt v; mret (n mod 2 ^ 64).

Definition IsInt64 (b : Z) : bool := (MinInt64 <=? b) && (b <=? MaxInt64).
Definition IsUint64 (b : Z) : bool := (0 <=? b) && (b <? 2 ^ 64).

(** *** The interface typedArray

    The receiver of a method points at the data field of the buffer: a method
    takes the data of the buffer at the time of the call. *)
Record typedArray := TypedArray {
  elemSize : Z;
  get : option goslice → Z → M numeric;
  set : option goslice → Z → value → M unit;
  less : option goslice → Z → Z → M bool;
  swap : option goslice → Z → Z → M unit;
  indexOf : option goslice → value → Z → Z → M Z;
  lastIndexOf : option goslice → value → Z → Z → M Z;
  includes : option goslice → value → Z → Z → M bool;
  fill : option goslice → value → Z → Z → M unit }.

(** What the machine decides: the byte order, int64(f) of a float out of range, and
    the address of a block of memory. *)
Class Machine := { nativeEndian : byteOrder; int64OutOfRange : float64 → Z; addrOf : nat → Z }.

(** The element type of an object is also its default constructor. *)
Inductive taKind :=
  | Uint8 | Uint8Clamped | Int8 | Uint16 | Int16 | Uint32 | Int32 | Float16 | Float32 | Float64 | BigInt64 | BigUint64.
#[global] Instance taKind_eq_dec : EqDecision taKind.
Proof. solve_decision. Defined.

Section elements.
Context `{Machine}.

(** A pointer to element [idx] of a slice of [w]-byte elements, and what it
    points at, as an unsigned integer. *)
Definition ptr : Type := option goslice * Z.
Definition typedArrayPtr (w : Z) (s : option goslice) (idx : Z) : ptr := (s, idx * w).
Definition load (w : Z) (p : ptr) : M Z :=
  bs ← peekBytes p.1 p.2 w; mret (orderValue nativeEndian bs).
Definition store (w : Z) (p : ptr) (raw : Z) : M unit :=
  pokeBytes p.1 p.2 (orderBytes nativeEndian (Z.to_nat w) raw).

Definition swapPtr (w : Z) (pi pj : ptr) : M unit :=
  x ← load w pi; y ← load w pj; store w pi y ≫= λ _, store w pj x.

(** The slices of typedArraySlice: the data with the index of the first element
    and the number of elements, empty when it starts at or past the end. *)
Definition typedArraySlice (w : Z) (s : option goslice) (start len : Z) : option goslice * Z * Z :=
  if lenData s <=? start * w then (None, 0, 0) else (s, start, len).

(** slices.Index, bytes.IndexByte; lastIndex, bytes.LastIndexByte: the position
    in the slice of the first or last element that satisfies the test. *)
Fixpoint indexLoop (w : Z) (s : option goslice) (start : Z) (eq : Z → bool) (i : Z) (n : nat) : M Z :=
  match n with
  | O => mret (-1)
  | S n => x ← load w (typedArrayPtr w s (start + i)); if eq x then mret i else indexLoop w s start eq (i + 1) n
  end.
Definition sliceIndex (w : Z) (sl : option goslice * Z * Z) (eq : Z → bool) : M Z :=
  let '(s, start, len) := sl in if len <? 0 then crash else indexLoop w s start eq 0 (Z.to_nat len).

Fixpoint lastIndexLoop (w : Z) (s : option goslice) (start : Z) (eq : Z → bool) (n : nat) : M Z :=
  match n with
  | O => mret (-1)
  | S n =>
      x ← load w (typedArrayPtr w s (start + Z.of_nat n));
      if eq x then mret (Z.of_nat n) else lastIndexLoop w s start eq n
  end.
Definition lastIndex (w : Z) (sl : option goslice * Z * Z) (eq : Z → bool) : M Z :=
  let '(s, start, len) := sl in if len <? 0 then crash else lastIndexLoop w s start eq (Z.to_nat len).

Fixpoint fillLoop (w : Z) (s : option goslice) (start : Z) (raw : Z) (n : nat) : M unit :=
  match n with
  | O => mret ()
  | S n => store w (typedArrayPtr w s start) raw ≫= λ _, fillLoop w s (start + 1) raw n
  end.
Definition fillSlice (w : Z) (sl : option goslice * Z * Z) (raw : Z) : M unit :=
  let '(s, start, len) := sl in if len <? 0 then crash else fillLoop w s start raw (Z.to_nat len).

(** Searching for an element with the value of [v], if the type has one. *)
Definition searchOr {A} (key : option A) (search : A → M Z) : M Z :=
  match key with Some i => search i | None => mret (-1) end.
Definition found (idx : M Z) : M bool := i ← idx; mret (0 <=? i).

(** *** The element types *)

(** An integer type of [w] bytes: its conversion of a number, how it reads the
    unsigned integer in memory, the search key and how an element is compared
    with the key. *)
Definition intArray (w : Z) (conv : number → Z) (read : Z → Z) (exact : value → option Z) (same : Z → Z → bool)
    : typedArray :=
  let bits := uwrap (8 * w) in
  {| elemSize := w;
     get s idx := (x ← load w (typedArrayPtr w s idx); mret (NNum (intToValue (read x))));
     set s idx v := (let p := typedArrayPtr w s idx in n ← ToNumber v; store w p (bits (conv n)));
     less s i j := (x ← load w (typedArrayPtr w s i); y ← load w (typedArrayPtr w s j); mret (read x <? read y));
     swap s i j := swapPtr w (typedArrayPtr w s i) (typedArrayPtr w s j);
     indexOf s v start len :=
       searchOr (exact v) (λ k, sliceIndex w (typedArraySlice w s start len) (λ x, same x k));
     lastIndexOf s v start len :=
       searchOr (exact v) (λ k, lastIndex w (typedArraySlice w s start len) (λ x, same x k));
     includes s v start len :=
       found (searchOr (exact v) (λ k, sliceIndex w (typedArraySlice w s start len) (λ x, same x k)));
     fill s v start len :=
       (let sl := typedArraySlice w s start len in n ← ToNumber v; fillSlice w sl (bits (conv n))) |}.

Definition uint8Array : typedArray := intArray 1 (toUint8 int64OutOfRange) id toUint8Exact Z.eqb.
Definition uint8ClampedArray : typedArray := intArray 1 toUint8Clamp id toUint8Exact Z.eqb.
(** The bytes are searched for the bits of the key. *)
Definition int8Array : typedArray :=
  intArray 1 (toInt8 int64OutOfRange) (swrap 8) toInt8Exact (λ x k, x =? uwrap 8 k).
Definition uint16Array : typedArray := intArray 2 toUint16 id toUint16Exact Z.eqb.
Definition int16Array : typedArray :=
  intArray 2 (toInt16 int64OutOfRange) (swrap 16) toInt16Exact (λ x k, swrap 16 x =? k).
Definition uint32Array : typedArray := intArray 4 toUint32 id toUint32Exact Z.eqb.
Definition int32Array : typedArray := intArray 4 toInt32 (swrap 32) toInt32Exact (λ x k, swrap 32 x =? k).

(** float16Array has no slice of its element type: its loops go over the values. *)
Definition float16Array : typedArray :=
  let val s idx := (x ← load 2 (typedArrayPtr 2 s idx); mret (Float16ToFloat64 x)) in
  let search s start len f := if len <? 0 then mret (-1)
    else indexLoop 2 s start (λ x, feq (Float16ToFloat64 x) f) 0 (Z.to_nat len) in
  let index s v start len := searchOr (toFloat16Exact v) (search s start len) in
  {| elemSize := 2;
     get s idx := (f ← val s idx; mret (NNum (floatToValue f)));
     set s idx v := (let p := typedArrayPtr 2 s idx in f ← VToFloat v; store 2 p (Float64ToFloat16 f));
     less s i j := (x ← val s i; y ← val s j; mret (typedFloatLess x y));
     swap s i j := swapPtr 2 (typedArrayPtr 2 s i) (typedArrayPtr 2 s j);
     indexOf s v start len := index s v start len;
     lastIndexOf s v start len :=
       searchOr (toFloat16Exact v) (λ f, if len <? 0 then mret (-1)
         else lastIndexLoop 2 s start (λ x, feq (Float16ToFloat64 x) f) (Z.to_nat len));
     includes s v start len :=
       match v with
       | VNum n =>
           if isNaN (ToFloat n) then
             found (if len <? 0 then mret (-1)
                    else indexLoop 2 s start (λ x, isNaN (Float16ToFloat64 x)) 0 (Z.to_nat len))
           else found (index s v start len)
       | _ => mret false
       end;
     fill s v start len :=
       (let sl := typedArraySlice 2 s start len in f ← VToFloat v; fillSlice 2 sl (Float64ToFloat16 f)) |}.

Definition float32Array : typedArray :=
  let at_ s idx := (x ← load 4 (typedArrayPtr 4 s idx); mret (Float32frombits x)) in
  {| elemSize := 4;
     get s idx := (f ← at_ s idx; mret (NNum (floatToValue f)));
     set s idx v := (let p := typedArrayPtr 4 s idx in f ← VToFloat v; store 4 p (Float32bits f));
     less s i j := (x ← at_ s i; y ← at_ s j; mret (typedFloatLess x y));
     swap s i j := swapPtr 4 (typedArrayPtr 4 s i) (typedArrayPtr 4 s j);
     indexOf s v start len :=
       searchOr (toFloat32Exact v) (λ f, sliceIndex 4 (typedArraySlice 4 s start len) (λ x, feq (Float32frombits x) f));
     lastIndexOf s v start len :=
       searchOr (toFloat32Exact v) (λ f, lastIndex 4 (typedArraySlice 4 s start len) (λ x, feq (Float32frombits x) f));
     includes s v start len :=
       match v with
       | VNum n =>
           let f := ToFloat n in
           let sl := typedArraySlice 4 s start len in
           if isNaN f then found (sliceIndex 4 sl (λ x, isNaN (Float32frombits x)))
           else
             let f32 := roundTo binary32 f in
             if negb (feq f32 f) then mret false
             else found (sliceIndex 4 sl (λ x, feq (Float32frombits x) f32))
       | _ => mret false
       end;
     fill s v start len :=
       (let sl := typedArraySlice 4 s start len in f ← VToFloat v; fillSlice 4 sl (Float32bits f)) |}.

Definition float64Array : typedArray :=
  let at_ s idx := (x ← load 8 (typedArrayPtr 8 s idx); mret (Float64frombits x)) in
  {| elemSize := 8;
     get s idx := (f ← at_ s idx; mret (NNum (floatToValue f)));
     set s idx v := (let p := typedArrayPtr 8 s idx in f ← VToFloat v; store 8 p (Float64bits f));
     less s i j := (x ← at_ s i; y ← at_ s j; mret (typedFloatLess x y));
     swap s i j := swapPtr 8 (typedArrayPtr 8 s i) (typedArrayPtr 8 s j);
     indexOf s v start len :=
       match v with
       | VNum n => sliceIndex 8 (typedArraySlice 8 s start len) (λ x, feq (Float64frombits x) (ToFloat n))
       | _ => mret (-1)
       end;
     lastIndexOf s v start len :=
       match v with
       | VNum n => lastIndex 8 (typedArraySlice 8 s start len) (λ x, feq (Float64frombits x) (ToFloat n))
       | _ => mret (-1)
       end;
     includes s v start len :=
       match v with
       | VNum n =>
           let sl := typedArraySlice 8 s start len in
           let f := ToFloat n in
           if isNaN f then found (sliceIndex 8 sl (λ x, isNaN (Float64frombits x)))
           else found (sliceIndex 8 sl (λ x, feq (Float64frombits x) f))
       | _ => mret false
       end;
     fill s v start len :=
       (let sl := typedArraySlice 8 s start len in f ← VToFloat v; fillSlice 8 sl (Float64bits f)) |}.

Definition bigInt64Array : typedArray :=
  let index s v start len :=
    match v with
    | VBig b => if IsInt64 b then sliceIndex 8 (typedArraySlice 8 s start len) (λ x, swrap 64 x =? b) else mret (-1)
    | _ => mret (-1)
    end in
  {| elemSize := 8;
     get s idx := (x ← load 8 (typedArrayPtr 8 s idx); mret (NBig (swrap 64 x)));
     set s idx v := (let p := typedArrayPtr 8 s idx in n ← toBigInt64 v; store 8 p (uwrap 64 n));
     less s i j :=
       (x ← load 8 (typedArrayPtr 8 s i); y ← load 8 (typedArrayPtr 8 s j); mret (swrap 64 x <? swrap 64 y));
     swap s i j := swapPtr 8 (typedArrayPtr 8 s i) (typedArrayPtr 8 s j);
     indexOf := index;
     lastIndexOf s v start len :=
       match v with
       | VBig b => if IsInt64 b then lastIndex 8 (typedArraySlice 8 s start len) (λ x, swrap 64 x =? b) else mret (-1)
       | _ => mret (-1)
       end;
     includes s v start len := found (index s v start len);
     fill s v start len :=
       (let sl := typedArraySlice 8 s start len in n ← toBigInt64 v; fillSlice 8 sl (uwrap 64 n)) |}.

Definition bigUint64Array : typedArray :=
  let index s v start len :=
    match v with
    | VBig b => if IsUint64 b then sliceIndex 8 (typedArraySlice 8 s start len) (λ x, x =? b) else mret (-1)
    | _ => mret (-1)
    end in
  {| elemSize := 8;
     get s idx := (x ← load 8 (typedArrayPtr 8 s idx); mret (NBig x));
     set s idx v := (let p := typedArrayPtr 8 s idx in n ← toBigUint64 v; store 8 p n);
     less s i j := (x ← load 8 (typedArrayPtr 8 s i); y ← load 8 (typedArrayPtr 8 s j); mret (x <? y));
     swap s i j := swapPtr 8 (typedArrayPtr 8 s i) (typedArrayPtr 8 s j);
     indexOf := index;
     lastIndexOf s v start len :=
       match v with
       | VBig b => if IsUint64 b then lastIndex 8 (typedArraySlice 8 s start len) (λ x, x =? b) else mret (-1)
       | _ => mret (-1)
       end;
     includes s v start len := found (index s v start len);
     fill s v start len :=
       (let sl := typedArraySlice 8 s start len in n ← toBigUint64 v; fillSlice 8 sl n) |}.

Definition ops (k : taKind) : typedArray :=
  match k with
  | Uint8 => uint8Array | Uint8Clamped => uint8ClampedArray | Int8 => int8Array
  | Uint16 => uint16Array | Int16 => int16Array | Uint32 => uint32Array | Int32 => int32Array
  | Float16 => float16Array | Float32 => float32Array | Float64 => float64Array
  | BigInt64 => bigInt64Array | BigUint64 => bigUint64Array
  end.

Definition isBig (k : taKind) : bool := match k with BigInt64 | BigUint64 => true | _ => false end.

(** ** Buffers with a byte order *)

(** [w] bytes at [idx], read as an unsigned integer in the given order; the other
    order reverses the bytes first. *)
Definition inOrder (bo : byteOrder) (bs : list Z) : list Z := if decide (bo = nativeEndian) then bs else rev bs.
Definition getRaw (w : Z) (b : nat) (idx : Z) (bo : byteOrder) : M Z :=
  o ← buffer b; bs ← peekBytes (data o) idx w; mret (orderValue nativeEndian (inOrder bo bs)).
Definition setRaw (w : Z) (b : nat) (idx val : Z) (bo : byteOrder) : M unit :=
  o ← buffer b; pokeBytes (data o) idx (inOrder bo (orderBytes nativeEndian (Z.to_nat w) val)).

Definition getUint64 := getRaw 8.
Definition setUint64 := setRaw 8.
Definition getUint32 := getRaw 4.
Definition setUint32 (b : nat) (idx val : Z) (bo : byteOrder) : M unit :=
  ensureNotDetached b ≫= λ _, setRaw 4 b idx val bo.
Definition getUint16 := getRaw 2.
Definition setUint16 := setRaw 2.
Definition getUint8 (b : nat) (idx : Z) : M Z := getRaw 1 b idx nativeEndian.
Definition setUint8 (b : nat) (idx val : Z) : M unit := setRaw 1 b idx val nativeEndian.

Definition getBigInt64 (b : nat) (idx : Z) (bo : byteOrder) : M Z := x ← getRaw 8 b idx bo; mret (swrap 64 x).
Definition getBigUint64 := getRaw 8.
Definition setBigInt64 (b : nat) (idx val : Z) (bo : byteOrder) : M unit := setRaw 8 b idx (uwrap 64 val) bo.
Definition setBigUint64 (b : nat) (idx val : Z) (bo : byteOrder) : M unit := setRaw 8 b idx (uwrap 64 val) bo.

Definition getInt32 (b : nat) (idx : Z) (bo : byteOrder) : M Z := x ← getUint32 b idx bo; mret (swrap 32 x).
Definition setInt32 (b : nat) (idx val : Z) (bo : byteOrder) : M unit := setUint32 b idx (uwrap 32 val) bo.
Definition getInt16 (b : nat) (idx : Z) (bo : byteOrder) : M Z := x ← getUint16 b idx bo; mret (swrap 16 x).
Definition setInt16 (b : nat) (idx val : Z) (bo : byteOrder) : M unit := setUint16 b idx (uwrap 16 val) bo.
Definition getInt8 (b : nat) (idx : Z) : M Z := x ← getUint8 b idx; mret (swrap 8 x).
Definition setInt8 (b : nat) (idx val : Z) : M unit := setUint8 b idx (uwrap 8 val).

Definition getFloat16 (b : nat) (idx : Z) (bo : byteOrder) : M float64 := x ← getUint16 b idx bo; mret (Float16ToFloat64 x).
Definition setFloat16 := setUint16.
Definition getFloat32 (b : nat) (idx : Z) (bo : byteOrder) : M float64 := x ← getUint32 b idx bo; mret (Float32frombits x).
Definition setFloat32 (b : nat) (idx : Z) (val : float64) (bo : byteOrder) : M unit := setUint32 b idx (Float32bits val) bo.
Definition getFloat64 (b : nat) (idx : Z) (bo : byteOrder) : M float64 := x ← getUint64 b idx bo; mret (Float64frombits x).
Definition setFloat64 (b : nat) (idx : Z) (val : float64) (bo : byteOrder) : M unit := setUint64 b idx (Float64bits val) bo.

(** ** Typed array objects *)

Record typedArrayObject := TypedArrayObject { viewedArrayBuf : nat; defaultCtor : taKind; ta_length : Z; ta_offset : Z }.

Definition taOps (a : typedArrayObject) : typedArray := ops (defaultCtor a).
Definition taElemSize (a : typedArrayObject) : Z := elemSize (taOps a).
Definition taData (a : typedArrayObject) : M (option goslice) := o ← buffer (viewedArrayBuf a); mret (data o).

(** The methods of the element type, on the current data of the buffer. *)
Definition taGet (a : typedArrayObject) (idx : Z) : M numeric := d ← taData a; get (taOps a) d idx.
Definition taSet (a : typedArrayObject) (idx : Z) (v : value) : M unit := d ← taData a; set (taOps a) d idx v.

Definition _getIdx (a : typedArrayObject) (idx : Z) : M (option numeric) :=
  if (0 <=? idx) && (idx <? ta_length a) then
    ok ← notDetached (viewedArrayBuf a);
    if ok : bool then v ← taGet a (idx + ta_offset a); mret (Some v) else mret None
  else mret None.

Definition isValidIntegerIndex (a : typedArrayObject) (idx : Z) : M bool :=
  ok ← notDetached (viewedArrayBuf a); mret (ok && ((0 <=? idx) && (idx <? ta_length a))).

(** The conversion to the content type of the array. *)
Definition toContent (k : taKind) (v : value) : M value :=
  if isBig k then b ← toBigInt v; mret (VBig b) else n ← ToNumber v; mret (VNum n).

Definition _putIdx (a : typedArrayObject) (idx : Z) (v : value) : M unit :=
  v ← toContent (defaultCtor a) v;
  ok ← isValidIntegerIndex a idx;
  if ok : bool then taSet a (idx + ta_offset a) v else mret ().

Definition _hasIdx (a : typedArrayObject) (idx : Z) : M bool := isValidIntegerIndex a idx.

(** Integer keys (toIntClamp is the identity on a 64-bit machine). *)
Definition getIdx (a : typedArrayObject) (idx : Z) : M (option numeric) := _getIdx a idx.
Definition setOwnIdx (a : typedArrayObject) (p : Z) (v : value) : M bool := _putIdx a p v ≫= λ _, mret true.
Definition hasOwnPropertyIdx (a : typedArrayObject) (idx : Z) : M bool := _hasIdx a idx.
Definition hasPropertyIdx (a : typedArrayObject) (idx : Z) : M bool := hasOwnPropertyIdx a idx.
Definition deleteIdx (a : typedArrayObject) (idx : Z) (throw : bool) : M bool :=
  ok ← notDetached (viewedArrayBuf a);
  if ok && (0 <=? idx) && (idx <? ta_length a) then
    if throw then raise (TypeError "Cannot delete property") else mret false
  else mret true.

(** ** Data views *)

Record dataViewObject := DataView { dvBuf : nat; byteLen : Z; byteOffset : Z }.

Definition ToBoolean (v : value) : bool :=
  match v with
  | VNum (valueInt i) => negb (i =? 0)
  | VNum (valueFloat f) => negb (isNaN f) && negb (feq f (ofZ 0))
  | VBig b => negb (b =? 0)
  | VOther _ _ _ t => t
  end.

Definition getIdxAndByteOrder (o : dataViewObject) (getIdx : Z) (littleEndianVal : option value) (size : Z)
    : M (Z * byteOrder) :=
  ensureNotDetached (dvBuf o) ≫= λ _,
  if byteLen o <? getIdx + size then raise (RangeError "Index is out of bounds")
  else mret (getIdx + byteOffset o,
             match littleEndianVal with
             | Some v => if ToBoolean v then littleEndian else bigEndian
             | None => nativeEndian
             end).
End elements.
End TypedArrays.
