(* ===== verification/TypedArrayOps.v ===== *)
(** * The builtins of typed arrays, array buffers and data views

    Model of builtin_typedarrays.go on the state of TypedArrays: ArrayBuffer and
    DataView methods, the constructors, and the methods of %TypedArray%.prototype.
    [this] is the object of the expected class; on any other value the methods
    throw a TypeError.  Arguments are values whose conversion may run JavaScript
    code; callbacks, species constructors and the lookup of newTarget.prototype
    are functions on the heap.  toIntStrict is the identity on a 64-bit machine. *)

From S2P Require Import Prelude Float64 Numbers Arith FloatBits TypedArrays.
Import Float64 Numbers Arith FloatBits TypedArrays.
Open Scope Z_scope.

Module TypedArrayOps.

(** ** ArrayBuffer *)

(** b.data = s *)
Definition setData (b : nat) (s : goslice) : M unit := λ h,
  (Ret (), Heap (mem h) (alter (λ o, ArrayBuffer (detached o) (Some s)) b (bufs h))).

Definition builtin_newArrayBuffer (proto : M unit) (arg : option value) : M nat :=
  proto ;;
  b ← _newArrayBuffer None;
  match arg with
  | Some v =>
      n ← VtoIndex v;
      s ← allocByteSlice n;
      setData b s ;;
      mret b
  | None => mret b
  end.

Definition NewArrayBuffer (s : goslice) : M nat := _newArrayBuffer (Some s).

Definition arrayBufferProto_getByteLength (b : nat) : M Z :=
  o ← buffer b; mret (if detached o then 0 else lenData (data o)).

Definition arrayBufferProto_getDetached (b : nat) : M bool := o ← buffer b; mret (detached o).

(** An end argument: undefined stands for the length. *)
Definition endArg (v : value) (l : Z) : M Z := if isUndefined v then mret l else VToInteger v.

(** copy(dst[doff:], src[soff:soff+n]) of two slices, as far as both reach. *)
Definition copySlice (dst : option goslice) (doff : Z) (src : option goslice) (soff n : Z) : M unit :=
  if (lenData dst <? doff) || (lenData src <? soff + n) then crash
  else
    let n := Z.min (lenData dst - doff) n in
    if n =? 0 then mret () else bs ← peekBytes src soff n; pokeBytes dst doff bs.

(** [species] is the constructor r.speciesConstructor finds, applied to a length:
    the buffer it returns, or [None] for another object. *)
Definition arrayBufferProto_slice (b : nat) (species : Z → M (option nat)) (a0 a1 : value) : M nat :=
  ensureNotDetached b ;;
  o ← buffer b;
  let l := lenData (data o) in
  start ← VToInteger a0;
  let start := relToIdx start l in
  stop ← endArg a1 l;
  let stop := relToIdx stop l in
  let newLen := Z.max (stop - start) 0 in
  ret ← species newLen;
  match ret with
  | Some ab =>
      ensureNotDetached b ;;
      if decide (ab = b) then raise (TypeError "Species constructor returned the same ArrayBuffer")
      else
        abo ← buffer ab;
        if lenData (data abo) <? newLen then
          raise (TypeError "Species constructor returned an ArrayBuffer that is too small")
        else
          ensureNotDetached ab ;;
          (if 0 <? newLen then o ← buffer b; copySlice (data abo) 0 (data o) start (stop - start) else mret ()) ;;
          mret ab
  | None => raise (TypeError "Species constructor did not return an ArrayBuffer")
  end.

Definition arrayBufferCopyAndDetach (b : nat) (newLength : value) : M nat :=
  newByteLength ← (if isUndefined newLength then o ← buffer b; mret (lenData (data o)) else VtoIndex newLength);
  ensureNotDetached b ;;
  o ← buffer b;
  d ← (if newByteLength <=? lenData (data o) then
         mret (match data o with Some s => Some (Slice (sblk s) (soff s) newByteLength) | None => None end)
       else
         s ← allocByteSlice newByteLength;
         copySlice (Some s) 0 (data o) 0 (lenData (data o)) ;;
         mret (Some s));
  detach b ;;
  _newArrayBuffer d.
Definition arrayBufferProto_transfer := arrayBufferCopyAndDetach.
Definition arrayBufferProto_transferToFixedLength := arrayBufferCopyAndDetach.

(** ** DataView *)

Definition newDataView (proto : M unit) (b : nat) (a1 a2 : option value) : M dataViewObject :=
  byteOffset ← match a1 with
               | Some v =>
                   n ← VtoIndex v;
                   ensureNotDetached b ;;
                   o ← buffer b;
                   if lenData (data o) <? n then raise (RangeError "Start offset is outside the bounds of the buffer")
                   else mret n
               | None => mret 0
               end;
  byteLen ← match a2 with
            | Some v =>
                if isUndefined v then o ← buffer b; mret (lenData (data o) - byteOffset)
                else
                  n ← VtoIndex v;
                  o ← buffer b;
                  if lenData (data o) <? byteOffset + n then raise (RangeError "Invalid DataView length") else mret n
            | None => o ← buffer b; mret (lenData (data o) - byteOffset)
            end;
  proto ;;
  ensureNotDetached b ;;
  o ← buffer b;
  if lenData (data o) <? byteOffset then raise (RangeError "Start offset is outside the bounds of the buffer")
  else if lenData (data o) <? byteOffset + byteLen then raise (RangeError "Invalid DataView length")
  else mret (DataView b byteLen byteOffset).

Section dataview.
Context `{Machine}.

Definition dataViewProto_getByteLen (dv : dataViewObject) : M Z := ensureNotDetached (dvBuf dv) ;; mret (byteLen dv).
Definition dataViewProto_getByteOffset (dv : dataViewObject) : M Z := ensureNotDetached (dvBuf dv) ;; mret (byteOffset dv).

(** The index and byte order of a getter. *)
Definition viewIndex (dv : dataViewObject) (a0 a1 : value) (size : Z) : M (Z * byteOrder) :=
  i ← VtoIndex a0; getIdxAndByteOrder dv i (Some a1) size.

Definition dataViewProto_getFloat16 (dv : dataViewObject) (a0 a1 : value) : M numeric :=
  p ← viewIndex dv a0 a1 2; f ← getFloat16 (dvBuf dv) p.1 p.2; mret (NNum (floatToValue f)).
Definition dataViewProto_getFloat32 (dv : dataViewObject) (a0 a1 : value) : M numeric :=
  p ← viewIndex dv a0 a1 4; f ← getFloat32 (dvBuf dv) p.1 p.2; mret (NNum (floatToValue f)).
Definition dataViewProto_getFloat64 (dv : dataViewObject) (a0 a1 : value) : M numeric :=
  p ← viewIndex dv a0 a1 8; f ← getFloat64 (dvBuf dv) p.1 p.2; mret (NNum (floatToValue f)).
Definition dataViewProto_getInt8 (dv : dataViewObject) (a0 a1 : value) : M numeric :=
  p ← viewIndex dv a0 a1 1; x ← getInt8 (dvBuf dv) p.1; mret (NNum (intToValue x)).
Definition dataViewProto_getInt16 (dv : dataViewObject) (a0 a1 : value) : M numeric :=
  p ← viewIndex dv a0 a1 2; x ← getInt16 (dvBuf dv) p.1 p.2; mret (NNum (intToValue x)).
Definition dataViewProto_getInt32 (dv : dataViewObject) (a0 a1 : value) : M numeric :=
  p ← viewIndex dv a0 a1 4; x ← getInt32 (dvBuf dv) p.1 p.2; mret (NNum (intToValue x)).
Definition dataViewProto_getUint8 (dv : dataViewObject) (a0 a1 : value) : M numeric :=
  p ← viewIndex dv a0 a1 1; x ← getUint8 (dvBuf dv) p.1; mret (NNum (intToValue x)).
Definition dataViewProto_getUint16 (dv : dataViewObject) (a0 a1 : value) : M numeric :=
  p ← viewIndex dv a0 a1 2; x ← getUint16 (dvBuf dv) p.1 p.2; mret (NNum (intToValue x)).
Definition dataViewProto_getUint32 (dv : dataViewObject) (a0 a1 : value) : M numeric :=
  p ← viewIndex dv a0 a1 4; x ← getUint32 (dvBuf dv) p.1 p.2; mret (NNum (intToValue x)).
Definition dataViewProto_getBigInt64 (dv : dataViewObject) (a0 a1 : value) : M numeric :=
  p ← viewIndex dv a0 a1 8; x ← getBigInt64 (dvBuf dv) p.1 p.2; mret (NBig x).
Definition dataViewProto_getBigUint64 (dv : dataViewObject) (a0 a1 : value) : M numeric :=
  p ← viewIndex dv a0 a1 8; x ← getBigUint64 (dvBuf dv) p.1 p.2; mret (NBig x).

Definition dataViewProto_setFloat16 (dv : dataViewObject) (a0 a1 a2 : value) : M unit :=
  i ← VtoIndex a0; f ← VToFloat a1; p ← getIdxAndByteOrder dv i (Some a2) 2;
  setFloat16 (dvBuf dv) p.1 (Float64ToFloat16 f) p.2.
Definition dataViewProto_setFloat32 (dv : dataViewObject) (a0 a1 a2 : value) : M unit :=
  i ← VtoIndex a0; f ← VToFloat a1; p ← getIdxAndByteOrder dv i (Some a2) 4; setFloat32 (dvBuf dv) p.1 f p.2.
Definition dataViewProto_setFloat64 (dv : dataViewObject) (a0 a1 a2 : value) : M unit :=
  i ← VtoIndex a0; f ← VToFloat a1; p ← getIdxAndByteOrder dv i (Some a2) 8; setFloat64 (dvBuf dv) p.1 f p.2.
Definition dataViewProto_setInt8 (dv : dataViewObject) (a0 a1 a2 : value) : M unit :=
  i ← VtoIndex a0; n ← ToNumber a1; p ← getIdxAndByteOrder dv i (Some a2) 1;
  setInt8 (dvBuf dv) p.1 (toInt8 int64OutOfRange n).
Definition dataViewProto_setInt16 (dv : dataViewObject) (a0 a1 a2 : value) : M unit :=
  i ← VtoIndex a0; n ← ToNumber a1; p ← getIdxAndByteOrder dv i (Some a2) 2;
  setInt16 (dvBuf dv) p.1 (toInt16 int64OutOfRange n) p.2.
Definition dataViewProto_setInt32 (dv : dataViewObject) (a0 a1 a2 : value) : M unit :=
  i ← VtoIndex a0; n ← ToNumber a1; p ← getIdxAndByteOrder dv i (Some a2) 4; setInt32 (dvBuf dv) p.1 (toInt32 n) p.2.
Definition dataViewProto_setUint8 (dv : dataViewObject) (a0 a1 a2 : value) : M unit :=
  i ← VtoIndex a0; n ← ToNumber a1; p ← getIdxAndByteOrder dv i (Some a2) 1;
  setUint8 (dvBuf dv) p.1 (toUint8 int64OutOfRange n).
Definition dataViewProto_setUint16 (dv : dataViewObject) (a0 a1 a2 : value) : M unit :=
  i ← VtoIndex a0; n ← ToNumber a1; p ← getIdxAndByteOrder dv i (Some a2) 2; setUint16 (dvBuf dv) p.1 (toUint16 n) p.2.
Definition dataViewProto_setUint32 (dv : dataViewObject) (a0 a1 a2 : value) : M unit :=
  i ← VtoIndex a0; n ← ToNumber a1; p ← getIdxAndByteOrder dv i (Some a2) 4; setUint32 (dvBuf dv) p.1 (toUint32 n) p.2.
Definition dataViewProto_setBigInt64 (dv : dataViewObject) (a0 a1 a2 : value) : M unit :=
  i ← VtoIndex a0; n ← toBigInt64 a1; p ← getIdxAndByteOrder dv i (Some a2) 8; setBigInt64 (dvBuf dv) p.1 n p.2.
Definition dataViewProto_setBigUint64 (dv : dataViewObject) (a0 a1 a2 : value) : M unit :=
  i ← VtoIndex a0; n ← toBigUint64 a1; p ← getIdxAndByteOrder dv i (Some a2) 8; setBigUint64 (dvBuf dv) p.1 n p.2.
End dataview.

(** ** Constructors *)

(** What typedArrayFrom and %TypedArray%.from iterate over: the values of an
    iterable, collected first, or an array-like with its length and elements. *)
Inductive itemSource :=
  | Iterable (values : M (list value))
  | ArrayLike (len : M number) (item : Z → M value).

(** The first argument of a constructor, with the rest where it matters. *)
Inductive ctorArg :=
  | ArgNone
  | ArgValue (v : value)
  | ArgBuffer (b : nat) (off len : option value)
  | ArgTyped (src : typedArrayObject)
  | ArgObject (items : itemSource).

(** What the methods pass to a constructor. *)
Inductive createArgs := CreateLen (n : Z) | CreateView (b : nat) (byteOff len : Z).

(** A constructor that is not one of the builtin ones: the typed array it
    returns, or [None] for another object. *)
Definition userCtor := createArgs → M (option typedArrayObject).

Section ctors.
Context `{Machine}.

Definition allocateTypedArray (proto : M unit) (length : Z) (k : taKind) : M typedArrayObject :=
  buf ← _newArrayBuffer None;
  proto ;;
  (if 0 <? length then s ← allocByteSlice (length * elemSize (ops k)); setData buf s else mret ()) ;;
  mret (TypedArrayObject buf k length 0).

Definition definedArg (v : option value) : option value :=
  match v with Some v => if isUndefined v then None else Some v | None => None end.

Definition _newTypedArrayFromArrayBuffer (proto : M unit) (ab : nat) (a1 a2 : option value) (k : taKind)
    : M typedArrayObject :=
  proto ;;
  let size := elemSize (ops k) in
  byteOffset ← match definedArg a1 with
               | Some v =>
                   n ← VtoIndex v;
                   if negb (Z.rem n size =? 0) then raise (RangeError "Start offset should be a multiple of the element size")
                   else mret n
               | None => mret 0
               end;
  length ← match definedArg a2 with
           | Some v =>
               n ← VtoIndex v;
               ensureNotDetached ab ;;
               o ← buffer ab;
               if lenData (data o) <? byteOffset + n * size then raise (RangeError "Invalid typed array length")
               else mret n
           | None =>
               ensureNotDetached ab ;;
               o ← buffer ab;
               if negb (Z.rem (lenData (data o)) size =? 0) then
                 raise (RangeError "Byte length should be a multiple of the element size")
               else
                 let length := Z.quot (lenData (data o) - byteOffset) size in
                 if length <? 0 then raise (RangeError "Start offset is outside the bounds of the buffer")
                 else mret length
           end;
  mret (TypedArrayObject ab k length (Z.quot byteOffset size)).

(** The names of the constructors, which it reads, are taken to be the builtin ones. *)
Definition checkTypedArrayMixBigInt (src dst : taKind) : M unit :=
  if isBig src && negb (isBig dst) then raise errMixBigIntType else mret ().

(** for i := start; i < start+n; i++ { dst.set(doff+i, src.get(soff+i)) } *)
Fixpoint copyUp (dst : typedArrayObject) (doff : Z) (src : typedArrayObject) (soff start : Z) (n : nat) : M unit :=
  match n with
  | O => mret ()
  | S n =>
      v ← taGet src (soff + start);
      taSet dst (doff + start) (ofNumeric v) ;;
      copyUp dst doff src soff (start + 1) n
  end.
(** for i := start+n-1; i >= start; i-- *)
Fixpoint copyDown (dst : typedArrayObject) (doff : Z) (src : typedArrayObject) (soff start : Z) (n : nat) : M unit :=
  match n with
  | O => mret ()
  | S n =>
      v ← taGet src (soff + start + Z.of_nat n);
      taSet dst (doff + start + Z.of_nat n) (ofNumeric v) ;;
      copyDown dst doff src soff start n
  end.

Definition _newTypedArrayFromTypedArray (proto : M unit) (src : typedArrayObject) (k : taKind) : M typedArrayObject :=
  dst ← allocateTypedArray proto 0 k;
  ensureNotDetached (viewedArrayBuf src) ;;
  let l := ta_length src in
  size ← liftResult (safeMul l (elemSize (ops k)));
  s ← allocByteSlice size;
  setData (viewedArrayBuf dst) s ;;
  ensureNotDetached (viewedArrayBuf src) ;;
  let dst := TypedArrayObject (viewedArrayBuf dst) k l 0 in
  if decide (defaultCtor src = k) then
    d ← taData src;
    let off := ta_offset src * taElemSize src in
    copySlice (Some s) 0 d off (lenData d - off) ;;
    mret dst
  else
    checkTypedArrayMixBigInt (defaultCtor src) k ;;
    copyUp dst 0 src (ta_offset src) 0 (Z.to_nat l) ;;
    mret dst.

(** ta.typedArray.set(idx, val) for the values of a list *)
Fixpoint setValues (ta : typedArrayObject) (idx : Z) (vals : list value) : M unit :=
  match vals with
  | [] => mret ()
  | v :: vals => taSet ta idx v ;; setValues ta (idx + 1) vals
  end.
(** ta.typedArray.set(i, item(i)) for the items of an array-like *)
Fixpoint setItems (ta : typedArrayObject) (item : Z → M value) (i : Z) (n : nat) : M unit :=
  match n with
  | O => mret ()
  | S n => v ← item i; taSet ta i v ;; setItems ta item (i + 1) n
  end.

(** The constructors call it without a mapFn. *)
Definition typedArrayFrom (proto : M unit) (items : itemSource) (k : taKind) : M typedArrayObject :=
  match items with
  | Iterable values =>
      vals ← values;
      ta ← allocateTypedArray proto (Z.of_nat (length vals)) k;
      setValues ta 0 vals ;;
      mret ta
  | ArrayLike len item =>
      n ← len;
      let n := toLength n in
      ta ← allocateTypedArray proto n k;
      setItems ta item 0 (Z.to_nat n) ;;
      mret ta
  end.

(** The twelve constructors, which differ in the element type. *)
Definition _newTypedArray (proto : M unit) (k : taKind) (arg : ctorArg) : M typedArrayObject :=
  match arg with
  | ArgBuffer b off len => _newTypedArrayFromArrayBuffer proto b off len k
  | ArgTyped src => _newTypedArrayFromTypedArray proto src k
  | ArgObject items => typedArrayFrom proto items k
  | ArgValue v => n ← VtoIndex v; allocateTypedArray proto n k
  | ArgNone => allocateTypedArray proto 0 k
  end.

(** A builtin constructor called from a method. *)
Definition builtinCtor (k : taKind) : userCtor := λ args,
  ta ← match args with
       | CreateLen n => _newTypedArray (mret ()) k (ArgValue (VNum (intToValue n)))
       | CreateView b off len =>
           _newTypedArray (mret ()) k (ArgBuffer b (Some (VNum (intToValue off))) (Some (VNum (intToValue len))))
       end;
  mret (Some ta).

Definition typedArrayCreate (ctor : userCtor) (args : createArgs) : M typedArrayObject :=
  o ← ctor args;
  match o with
  | Some ta =>
      ensureNotDetached (viewedArrayBuf ta) ;;
      match args with
      | CreateLen l =>
          (* the length is a valueInt up to 2^53 *)
          if (l <=? maxInt) && (ta_length ta <? l) then raise (TypeError "Derived TypedArray constructor created an array which was too small")
          else mret ta
      | _ => mret ta
      end
  | None => raise (TypeError "Invalid TypedArray")
  end.

(** [species]: the constructor speciesConstructorObj finds, [None] for the default. *)
Definition typedArraySpeciesCreate (species : M (option userCtor)) (ta : typedArrayObject) (args : createArgs)
    : M typedArrayObject :=
  c ← species;
  typedArrayCreate (match c with Some c => c | None => builtinCtor (defaultCtor ta) end) args.

(** Data taken over by a new buffer. *)
Definition newBytes (bs : list Z) : M goslice := λ h,
  (Ret (Slice (length (mem h)) 0 (Z.of_nat (length bs))), Heap (mem h ++ [bs]) (bufs h)).
Definition newTypedArrayWithData (bs : list Z) (k : taKind) : M typedArrayObject :=
  s ← newBytes bs;
  ab ← _newArrayBuffer (Some s);
  mret (TypedArrayObject ab k (Z.quot (slen s) (elemSize (ops k))) 0).

(** %TypedArray%.from and %TypedArray%.of; [mapFn] is called with the value and its index *)
Fixpoint fromValues (ta : typedArrayObject) (mapFn : value → Z → M value) (idx : Z) (vals : list value) : M unit :=
  match vals with
  | [] => mret ()
  | v :: vals => v ← mapFn v idx; _putIdx ta idx v ;; fromValues ta mapFn (idx + 1) vals
  end.

Definition typedArray_from (ctor : userCtor) (mapFn : option (value → Z → M value)) (items : itemSource)
    : M typedArrayObject :=
  match items with
  | Iterable values =>
      vals ← values;
      ta ← typedArrayCreate ctor (CreateLen (Z.of_nat (length vals)));
      match mapFn with
      | None => setValues ta 0 vals
      | Some f => fromValues ta f 0 vals
      end ;;
      mret ta
  | ArrayLike len item =>
      n ← len;
      let n := toLength n in
      ta ← typedArrayCreate ctor (CreateLen n);
      match mapFn with
      | None => setItems ta item 0 (Z.to_nat n)
      | Some f => setItems ta (λ i, v ← item i; f v i) 0 (Z.to_nat n)
      end ;;
      mret ta
  end.

Definition typedArray_of (ctor : userCtor) (args : list value) : M typedArrayObject :=
  ta ← typedArrayCreate ctor (CreateLen (Z.of_nat (length args)));
  setValues ta 0 args ;;
  mret ta.
End ctors.

(** ** %TypedArray%.prototype *)

Section methods.
Context `{Machine}.
Implicit Types ta : typedArrayObject.

Definition typedArrayProto_getByteLen ta : M Z :=
  d ← taData ta; mret (match d with None => 0 | Some _ => ta_length ta * taElemSize ta end).
Definition typedArrayProto_getLength ta : M Z :=
  d ← taData ta; mret (match d with None => 0 | Some _ => ta_length ta end).
Definition typedArrayProto_getByteOffset ta : M Z :=
  d ← taData ta; mret (match d with None => 0 | Some _ => ta_offset ta * taElemSize ta end).

Definition typedArrayProto_copyWithin ta (a0 a1 a2 : value) : M unit :=
  ensureNotDetached (viewedArrayBuf ta) ;;
  let l := ta_length ta in
  to ← VToInteger a0;
  let to := relToIdx to l in
  from ← VToInteger a1;
  let from := relToIdx from l in
  relEnd ← endArg a2 l;
  let final := relToIdx relEnd l in
  d ← taData ta;
  let offset := ta_offset ta in
  let size := taElemSize ta in
  if from <? final then
    ensureNotDetached (viewedArrayBuf ta) ;;
    copySlice d ((offset + to) * size) d ((offset + from) * size) ((final - from) * size)
  else mret ().

(** The element a callback gets, [None] for undefined. *)
Definition elemArg ta (k : Z) : M (option numeric) :=
  ok ← isValidIntegerIndex ta k;
  if ok : bool then v ← taGet ta (ta_offset ta + k); mret (Some v) else mret None.

Section callbacks.
(** A callback gets the element and its index. *)
Context (callbackFn : option numeric → Z → M value).

Fixpoint everyLoop ta (k : Z) (n : nat) : M bool :=
  match n with
  | O => mret true
  | S n => v ← elemArg ta k; r ← callbackFn v k; if ToBoolean r then everyLoop ta (k + 1) n else mret false
  end.
Definition typedArrayProto_every ta : M bool :=
  ensureNotDetached (viewedArrayBuf ta) ;; everyLoop ta 0 (Z.to_nat (ta_length ta)).

Fixpoint someLoop ta (k : Z) (n : nat) : M bool :=
  match n with
  | O => mret false
  | S n => v ← elemArg ta k; r ← callbackFn v k; if ToBoolean r then mret true else someLoop ta (k + 1) n
  end.
Definition typedArrayProto_some ta : M bool :=
  ensureNotDetached (viewedArrayBuf ta) ;; someLoop ta 0 (Z.to_nat (ta_length ta)).

(** find and findIndex, findLast and findLastIndex: the element with its index *)
Fixpoint findLoop ta (k : Z) (n : nat) : M (option (option numeric * Z)) :=
  match n with
  | O => mret None
  | S n => v ← elemArg ta k; r ← callbackFn v k; if ToBoolean r then mret (Some (v, k)) else findLoop ta (k + 1) n
  end.
Fixpoint findLastLoop ta (n : nat) : M (option (option numeric * Z)) :=
  match n with
  | O => mret None
  | S n =>
      let k := Z.of_nat n in
      v ← elemArg ta k; r ← callbackFn v k; if ToBoolean r then mret (Some (v, k)) else findLastLoop ta n
  end.
Definition typedArrayProto_find ta : M (option numeric) :=
  ensureNotDetached (viewedArrayBuf ta) ;;
  r ← findLoop ta 0 (Z.to_nat (ta_length ta)); mret (match r with Some (v, _) => v | None => None end).
Definition typedArrayProto_findIndex ta : M Z :=
  ensureNotDetached (viewedArrayBuf ta) ;;
  r ← findLoop ta 0 (Z.to_nat (ta_length ta)); mret (match r with Some (_, k) => k | None => -1 end).
Definition typedArrayProto_findLast ta : M (option numeric) :=
  ensureNotDetached (viewedArrayBuf ta) ;;
  r ← findLastLoop ta (Z.to_nat (ta_length ta)); mret (match r with Some (v, _) => v | None => None end).
Definition typedArrayProto_findLastIndex ta : M Z :=
  ensureNotDetached (viewedArrayBuf ta) ;;
  r ← findLastLoop ta (Z.to_nat (ta_length ta)); mret (match r with Some (_, k) => k | None => -1 end).

Fixpoint forEachLoop ta (k : Z) (n : nat) : M unit :=
  match n with
  | O => mret ()
  | S n => v ← elemArg ta k; callbackFn v k ;; forEachLoop ta (k + 1) n
  end.
Definition typedArrayProto_forEach ta : M unit :=
  ensureNotDetached (viewedArrayBuf ta) ;; forEachLoop ta 0 (Z.to_nat (ta_length ta)).

Fixpoint mapLoop ta (dst : typedArrayObject) (i : Z) (n : nat) : M unit :=
  match n with
  | O => mret ()
  | S n =>
      v ← elemArg ta i;
      r ← callbackFn v i;
      taSet dst (ta_offset dst + i) r ;;
      mapLoop ta dst (i + 1) n
  end.
Definition typedArrayProto_map (species : M (option userCtor)) ta : M typedArrayObject :=
  ensureNotDetached (viewedArrayBuf ta) ;;
  dst ← typedArraySpeciesCreate species ta (CreateLen (ta_length ta));
  mapLoop ta dst 0 (Z.to_nat (ta_length ta)) ;;
  mret dst.

(** The bytes of the elements the callback keeps. *)
Fixpoint filterLoop ta (k : Z) (n : nat) : M (list Z) :=
  match n with
  | O => mret []
  | S n =>
      let size := taElemSize ta in
      ok ← isValidIntegerIndex ta k;
      arg ← (if ok : bool then
               v ← taGet ta (ta_offset ta + k);
               d ← taData ta;
               bs ← peekBytes d ((ta_offset ta + k) * size) size;
               mret (Some v, bs)
             else mret (None, replicate (Z.to_nat size) 0));
      r ← callbackFn arg.1 k;
      rest ← filterLoop ta (k + 1) n;
      mret (if ToBoolean r then arg.2 ++ rest else rest)
  end.
Definition typedArrayProto_filter (species : M (option userCtor)) ta : M typedArrayObject :=
  ensureNotDetached (viewedArrayBuf ta) ;;
  buf ← filterLoop ta 0 (Z.to_nat (ta_length ta));
  let captured := Z.quot (Z.of_nat (length buf)) (taElemSize ta) in
  c ← species;
  s ← newBytes buf;
  ab ← _newArrayBuffer (Some s);
  kept ← _newTypedArray (mret ()) (defaultCtor ta) (ArgBuffer ab None None);
  match c with
  | None => mret kept
  | Some c =>
      ret ← typedArrayCreate c (CreateLen captured);
      copyUp ret (ta_offset ret) kept (ta_offset kept) 0 (Z.to_nat captured) ;;
      mret ret
  end.
End callbacks.

Section reduce.
Context (callbackFn : value → option numeric → Z → M value).

Fixpoint reduceLoop ta (acc : value) (k : Z) (n : nat) : M value :=
  match n with
  | O => mret acc
  | S n => v ← elemArg ta k; acc ← callbackFn acc v k; reduceLoop ta acc (k + 1) n
  end.
Definition typedArrayProto_reduce ta (initial : option value) : M value :=
  ensureNotDetached (viewedArrayBuf ta) ;;
  match initial with
  | Some acc => reduceLoop ta acc 0 (Z.to_nat (ta_length ta))
  | None =>
      if 0 <? ta_length ta then
        v ← taGet ta (ta_offset ta + 0); reduceLoop ta (ofNumeric v) 1 (Z.to_nat (ta_length ta - 1))
      else raise (TypeError "Reduce of empty array with no initial value")
  end.

Fixpoint reduceRightLoop ta (acc : value) (n : nat) : M value :=
  match n with
  | O => mret acc
  | S n => v ← elemArg ta (Z.of_nat n); acc ← callbackFn acc v (Z.of_nat n); reduceRightLoop ta acc n
  end.
Definition typedArrayProto_reduceRight ta (initial : option value) : M value :=
  ensureNotDetached (viewedArrayBuf ta) ;;
  match initial with
  | Some acc => reduceRightLoop ta acc (Z.to_nat (ta_length ta))
  | None =>
      let k := ta_length ta - 1 in
      if 0 <=? k then v ← taGet ta (ta_offset ta + k); reduceRightLoop ta (ofNumeric v) (Z.to_nat k)
      else raise (TypeError "Reduce of empty array with no initial value")
  end.
End reduce.

Definition typedArrayProto_fill ta (a0 a1 a2 : value) : M unit :=
  ensureNotDetached (viewedArrayBuf ta) ;;
  let l := ta_length ta in
  v ← toContent (defaultCtor ta) a0;
  k ← VToInteger a1;
  let k := relToIdx k l in
  relEnd ← endArg a2 l;
  let final := relToIdx relEnd l in
  ensureNotDetached (viewedArrayBuf ta) ;;
  let length := final - k in
  if 0 <? length then d ← taData ta; fill (taOps ta) d v (ta_offset ta + k) length else mret ().

Definition typedArrayProto_includes ta (a0 a1 : value) : M bool :=
  ensureNotDetached (viewedArrayBuf ta) ;;
  let length := ta_length ta in
  if length =? 0 then mret false
  else
    n ← VToInteger a1;
    if length <=? n then mret false
    else
      let startIdx := if n <? 0 then Z.max (length + n) 0 else n in
      ok ← notDetached (viewedArrayBuf ta);
      if negb ok then mret (isUndefined a0 && (startIdx <? length))
      else d ← taData ta; includes (taOps ta) d a0 (ta_offset ta + startIdx) (length - startIdx).

Definition typedArrayProto_at ta (a0 : value) : M (option numeric) :=
  ensureNotDetached (viewedArrayBuf ta) ;;
  idx ← VToInteger a0;
  let length := ta_length ta in
  let idx := if idx <? 0 then length + idx else idx in
  if (length <=? idx) || (idx <? 0) then mret None
  else
    ok ← notDetached (viewedArrayBuf ta);
    if ok : bool then v ← taGet ta (ta_offset ta + idx); mret (Some v) else mret None.

Definition typedArrayProto_indexOf ta (a0 a1 : value) : M Z :=
  ensureNotDetached (viewedArrayBuf ta) ;;
  let length := ta_length ta in
  if length =? 0 then mret (-1)
  else
    n ← VToInteger a1;
    if length <=? n then mret (-1)
    else
      let start := if n <? 0 then Z.max (length + n) 0 else n in
      ok ← notDetached (viewedArrayBuf ta);
      if ok : bool then
        d ← taData ta;
        idx ← indexOf (taOps ta) d a0 (ta_offset ta + start) (length - start);
        mret (if 0 <=? idx then start + idx else -1)
      else mret (-1).

Definition typedArrayProto_lastIndexOf ta (a0 : value) (a1 : option value) : M Z :=
  ensureNotDetached (viewedArrayBuf ta) ;;
  let length := ta_length ta in
  if length =? 0 then mret (-1)
  else
    fromIndex ← match a1 with
                | None => mret (length - 1)
                | Some v =>
                    n ← VToInteger v;
                    mret (if 0 <=? n then Z.min n (length - 1) else if n + length <? 0 then -1 else n + length)
                end;
    ok ← notDetached (viewedArrayBuf ta);
    if ok : bool then
      d ← taData ta;
      idx ← lastIndexOf (taOps ta) d a0 (ta_offset ta) (fromIndex + 1);
      mret (if 0 <=? idx then idx else -1)
    else mret (-1).

Fixpoint reverseLoop ta (lower : Z) (n : nat) : M unit :=
  match n with
  | O => mret ()
  | S n =>
      let upper := ta_length ta - lower - 1 in
      d ← taData ta;
      swap (taOps ta) d (ta_offset ta + lower) (ta_offset ta + upper) ;;
      reverseLoop ta (lower + 1) n
  end.
Definition typedArrayProto_reverse ta : M unit :=
  ensureNotDetached (viewedArrayBuf ta) ;; reverseLoop ta 0 (Z.to_nat (Z.quot (ta_length ta) 2)).

(** The address of the byte at [off] of a slice; indexing outside it panics. *)
Definition addressOf (d : option goslice) (off : Z) : M Z :=
  match d with
  | Some s => if (0 <=? off) && (off <? slen s) then mret (addrOf (sblk s) + soff s + off) else crash
  | None => crash
  end.

(** set from a typed array, after the checks *)
Definition setFromTyped ta (src : typedArrayObject) (targetOffset : Z) : M unit :=
  let srcLen := ta_length src in
  let dsize := taElemSize ta in
  let ssize := taElemSize src in
  if decide (defaultCtor src = defaultCtor ta) then
    d ← taData ta;
    sd ← taData src;
    copySlice d ((ta_offset ta + targetOffset) * dsize) sd (ta_offset src * ssize) (srcLen * ssize)
  else
    checkTypedArrayMixBigInt (defaultCtor src) (defaultCtor ta) ;;
    if srcLen =? 0 then mret ()
    else
      sd ← taData src;
      d ← taData ta;
      curSrc ← addressOf sd (ta_offset src * ssize);
      let endSrc := curSrc + srcLen * ssize in
      curDst ← addressOf d ((ta_offset ta + targetOffset) * dsize);
      let dstOffset := ta_offset ta + targetOffset in
      let srcOffset := ta_offset src in
      let up := copyUp ta dstOffset src srcOffset in
      let down := copyDown ta dstOffset src srcOffset in
      if dsize =? ssize then
        if (curDst <=? curSrc) || (endSrc <=? curDst) then up 0 (Z.to_nat srcLen) else down 0 (Z.to_nat srcLen)
      else
        let x := Z.quot (swrap 64 (curDst - curSrc)) (ssize - dsize) in
        let x := if x <? 0 then 0 else if srcLen <? x then srcLen else x in
        if dsize <? ssize then up x (Z.to_nat (srcLen - x)) ;; down 0 (Z.to_nat x)
        else up 0 (Z.to_nat x) ;; down x (Z.to_nat (srcLen - x)).

(** set from an array-like *)
Fixpoint setFromItems ta (item : Z → M value) (targetOffset i : Z) (n : nat) : M unit :=
  match n with
  | O => mret ()
  | S n =>
      val ← item i;
      ok ← isValidIntegerIndex ta (targetOffset + i);
      (if ok : bool then taSet ta (ta_offset ta + targetOffset + i) val else mret ()) ;;
      setFromItems ta item targetOffset (i + 1) n
  end.

Inductive setSource := SetTyped (src : typedArrayObject) | SetItems (len : M number) (item : Z → M value).

Definition typedArrayProto_set ta (a0 : setSource) (a1 : value) : M unit :=
  targetOffset ← VToInteger a1;
  if targetOffset <? 0 then raise (RangeError "offset should be >= 0")
  else
    ensureNotDetached (viewedArrayBuf ta) ;;
    let targetLen := ta_length ta in
    let tooLarge srcLen := let x := swrap 64 (srcLen + targetOffset) in (x <? 0) || (targetLen <? x) in
    match a0 with
    | SetTyped src =>
        ensureNotDetached (viewedArrayBuf src) ;;
        if tooLarge (ta_length src) then raise (RangeError "Source is too large")
        else setFromTyped ta src targetOffset
    | SetItems len item =>
        n ← len;
        let srcLen := toLength n in
        if tooLarge srcLen then raise (RangeError "Source is too large")
        else setFromItems ta item targetOffset 0 (Z.to_nat srcLen)
    end.

(** for i := 0; i < byteCount; i++ { dstBuf[i] = srcBuf[i] } *)
Fixpoint copyBytesUp (dst : option goslice) (doff : Z) (src : option goslice) (soff : Z) (n : nat) : M unit :=
  match n with
  | O => mret ()
  | S n =>
      bs ← peekBytes src soff 1;
      pokeBytes dst doff bs ;;
      copyBytesUp dst (doff + 1) src (soff + 1) n
  end.

Fixpoint sliceLoop ta (dst : typedArrayObject) (start i : Z) (n : nat) : M unit :=
  match n with
  | O => mret ()
  | S n =>
      ensureNotDetached (viewedArrayBuf ta) ;;
      v ← taGet ta (ta_offset ta + start + i);
      taSet dst (ta_offset dst + i) (ofNumeric v) ;;
      sliceLoop ta dst start (i + 1) n
  end.

Definition typedArrayProto_slice (species : M (option userCtor)) ta (a0 a1 : value) : M typedArrayObject :=
  ensureNotDetached (viewedArrayBuf ta) ;;
  let length := ta_length ta in
  start ← VToInteger a0;
  let start := relToIdx start length in
  e ← endArg a1 length;
  let end_ := relToIdx e length in
  let count := if end_ - start <? 0 then 0 else end_ - start in
  dst ← typedArraySpeciesCreate species ta (CreateLen count);
  (if decide (defaultCtor dst = defaultCtor ta) then
     if 0 <? count then
       ensureNotDetached (viewedArrayBuf ta) ;;
       let size := taElemSize ta in
       let byteCount := count * size in
       d ← taData dst;
       sd ← taData ta;
       let doff := ta_offset dst * size in
       let soff := (ta_offset ta + start) * size in
       dstStart ← addressOf d doff;
       srcStart ← addressOf sd soff;
       if (dstStart <=? srcStart) || (srcStart + byteCount <=? dstStart) then
         bs ← peekBytes sd soff byteCount; pokeBytes d doff bs
       else copyBytesUp d doff sd soff (Z.to_nat byteCount)
     else mret ()
   else sliceLoop ta dst start 0 (Z.to_nat count)) ;;
  mret dst.

Definition typedArrayProto_subarray (species : M (option userCtor)) ta (a0 a1 : value) : M typedArrayObject :=
  let l := ta_length ta in
  beginIdx ← VToInteger a0;
  let beginIdx := relToIdx beginIdx l in
  relEnd ← endArg a1 l;
  let endIdx := relToIdx relEnd l in
  let newLen := Z.max (endIdx - beginIdx) 0 in
  typedArraySpeciesCreate species ta
    (CreateView (viewedArrayBuf ta) ((ta_offset ta + beginIdx) * taElemSize ta) newLen).

Definition typedArrayProto_with ta (a0 a1 : value) : M typedArrayObject :=
  ensureNotDetached (viewedArrayBuf ta) ;;
  let length := ta_length ta in
  relativeIndex ← VToInteger a0;
  let actualIndex := if 0 <=? relativeIndex then relativeIndex else length + relativeIndex in
  numericValue ← toContent (defaultCtor ta) a1;
  ok ← isValidIntegerIndex ta actualIndex;
  if negb ok then raise (RangeError "Invalid typed array index")
  else
    a ← typedArrayCreate (builtinCtor (defaultCtor ta)) (CreateLen length);
    d ← taData a;
    sd ← taData ta;
    let off := ta_offset ta * taElemSize ta in
    copySlice d 0 sd off (lenData sd - off) ;;
    taSet a actualIndex numericValue ;;
    mret a.

Fixpoint toReversedLoop ta (a : typedArrayObject) (k : Z) (n : nat) : M unit :=
  match n with
  | O => mret ()
  | S n =>
      let from := ta_length ta - k - 1 in
      fromValue ← taGet ta (ta_offset ta + from);
      taSet a k (ofNumeric fromValue) ;;
      toReversedLoop ta a (k + 1) n
  end.
Definition typedArrayProto_toReversed ta : M typedArrayObject :=
  ensureNotDetached (viewedArrayBuf ta) ;;
  a ← typedArrayCreate (builtinCtor (defaultCtor ta)) (CreateLen (ta_length ta));
  toReversedLoop ta a 0 (Z.to_nat (ta_length ta)) ;;
  mret a.

(** ** Sorting

    sort.Stable works through Less and Swap only: it is any tree of such calls,
    with the indices of the Len elements. *)
Inductive sortProg :=
  | SortDone
  | SortLess (i j : Z) (k : bool → sortProg)
  | SortSwap (i j : Z) (k : sortProg).

Record typedArraySortCtx := SortCtx { needValidate : bool; ctxDetached : bool }.

Section sorting.
Context (compare : option (numeric → numeric → M value)).

Definition checkDetached ta (ctx : typedArraySortCtx) : M typedArraySortCtx :=
  if negb (ctxDetached ctx) && needValidate ctx then
    ok ← notDetached (viewedArrayBuf ta); mret (SortCtx false (negb ok))
  else mret ctx.

Definition Less ta (ctx : typedArraySortCtx) (i j : Z) : M (bool * typedArraySortCtx) :=
  ctx ← checkDetached ta ctx;
  if ctxDetached ctx then mret (false, ctx)
  else
    let offset := ta_offset ta in
    match compare with
    | Some f =>
        x ← taGet ta (offset + i);
        y ← taGet ta (offset + j);
        r ← f x y;
        res ← ToNumber r;
        mret (match res with
              | valueInt i => i <? 0
              | valueFloat f => if flt f (ofZ 0) then true else if flt (ofZ 0) f then false else Signbit f
              end, SortCtx true (ctxDetached ctx))
    | None => d ← taData ta; b ← less (taOps ta) d (offset + i) (offset + j); mret (b, ctx)
    end.

Definition Swap ta (ctx : typedArraySortCtx) (i j : Z) : M typedArraySortCtx :=
  ctx ← checkDetached ta ctx;
  if ctxDetached ctx then mret ctx
  else
    let offset := ta_offset ta in
    d ← taData ta; swap (taOps ta) d (offset + i) (offset + j) ;; mret ctx.

Fixpoint runSort ta (ctx : typedArraySortCtx) (p : sortProg) : M unit :=
  match p with
  | SortDone => mret ()
  | SortLess i j k => r ← Less ta ctx i j; runSort ta r.2 (k r.1)
  | SortSwap i j k => ctx ← Swap ta ctx i j; runSort ta ctx k
  end.

(** [stable n]: the calls of sort.Stable on n elements. *)
Context (stable : Z → sortProg).

Definition typedArrayProto_sort ta : M unit :=
  ensureNotDetached (viewedArrayBuf ta) ;; runSort ta (SortCtx false false) (stable (ta_length ta)).

Definition typedArrayProto_toSorted ta : M typedArrayObject :=
  ensureNotDetached (viewedArrayBuf ta) ;;
  a ← typedArrayCreate (builtinCtor (defaultCtor ta)) (CreateLen (ta_length ta));
  d ← taData a;
  sd ← taData ta;
  let off := ta_offset ta * taElemSize ta in
  copySlice d 0 sd off (lenData sd - off) ;;
  runSort a (SortCtx false false) (stable (ta_length a)) ;;
  mret a.
End sorting.
End methods.
End TypedArrayOps.
