(* ===== verification/TypedArrayMem.v ===== *)
(** * Memory and element types: lemmas

    Byte order and bit patterns, reading and writing slices, and the laws of the
    element types ([ElementLaws]): every type loads and stores fixed-width raw
    values, and reading back a stored value gives the value the language
    prescribes. *)

From S2P Require Import Prelude Float64 Numbers Arith FloatBits TypedArrays.
Import Float64 Numbers Arith FloatBits TypedArrays.
Open Scope Z_scope.

Module TypedArrayMem.

Definition byte (b : Z) : Prop := 0 ≤ b < 256.

(** ** Bytes of integers *)

Lemma length_leBytes w z : length (leBytes w z) = w.
Proof. revert z. induction w as [|w IH]; intros z; cbn; [done|by rewrite IH]. Qed.

Lemma leBytes_byte w z : Forall byte (leBytes w z).
Proof.
  revert z. induction w as [|w IH]; intros z; cbn; constructor; [|done].
  unfold byte. apply (uwrap_range 8). lia.
Qed.

Lemma leValue_leBytes w z : leValue (leBytes w z) = uwrap (8 * Z.of_nat w) z.
Proof.
  revert z. induction w as [|w IH]; intros z; cbn [leBytes leValue]; [symmetry; apply Z.mod_1_r|].
  rewrite IH. unfold uwrap. replace (8 * Z.of_nat (S w)) with (8 + 8 * Z.of_nat w) by lia.
  rewrite Z.pow_add_r by lia. change (2 ^ 8) with 256.
  by rewrite Z.rem_mul_r by (try apply Z.pow_pos_nonneg; lia).
Qed.

Lemma leValue_range bs : Forall byte bs → 0 ≤ leValue bs < 2 ^ (8 * Z.of_nat (length bs)).
Proof.
  induction 1 as [|b bs Hb _ IH]; cbn [leValue length]; [lia|]. unfold byte in Hb.
  replace (8 * Z.of_nat (S (length bs))) with (8 + 8 * Z.of_nat (length bs)) by lia.
  rewrite Z.pow_add_r by lia. change (2 ^ 8) with 256. lia.
Qed.

Lemma leBytes_leValue bs : Forall byte bs → leBytes (length bs) (leValue bs) = bs.
Proof.
  induction 1 as [|b bs Hb _ IH]; cbn [leValue length leBytes]; [done|]. unfold byte in Hb.
  assert (uwrap 8 (b + 256 * leValue bs) = b) as ->.
  { unfold uwrap. change (2 ^ 8) with 256. rewrite Z.mul_comm, Z.mod_add, Z.mod_small; lia. }
  assert ((b + 256 * leValue bs) / 256 = leValue bs) as ->; [|by rewrite IH].
  rewrite Z.mul_comm, Z.div_add, Z.div_small; lia.
Qed.

Lemma length_orderBytes bo w z : length (orderBytes bo w z) = w.
Proof. destruct bo; cbn; [rewrite length_rev|]; apply length_leBytes. Qed.

Lemma orderBytes_byte bo w z : Forall byte (orderBytes bo w z).
Proof. destruct bo; cbn; [apply Forall_rev|]; apply leBytes_byte. Qed.

Lemma orderValue_orderBytes bo w z : orderValue bo (orderBytes bo w z) = uwrap (8 * Z.of_nat w) z.
Proof. destruct bo; cbn; [rewrite rev_involutive|]; apply leValue_leBytes. Qed.

Lemma orderValue_range bo bs : Forall byte bs → 0 ≤ orderValue bo bs < 2 ^ (8 * Z.of_nat (length bs)).
Proof.
  intros Hb. destruct bo; cbn; [|by apply leValue_range].
  rewrite <- (length_rev bs). apply leValue_range. by apply Forall_rev.
Qed.

Lemma orderBytes_orderValue bo bs : Forall byte bs → orderBytes bo (length bs) (orderValue bo bs) = bs.
Proof.
  intros Hb. destruct bo; cbn; [|by apply leBytes_leValue].
  rewrite <- (length_rev bs), leBytes_leValue, rev_involutive; [done|by apply Forall_rev].
Qed.

Lemma orderBytes_cong bo w z z' : uwrap (8 * Z.of_nat w) z = uwrap (8 * Z.of_nat w) z' → orderBytes bo w z = orderBytes bo w z'.
Proof.
  intros Hz. rewrite <- (orderBytes_orderValue bo (orderBytes bo w z)), <- (orderBytes_orderValue bo (orderBytes bo w z'))
    by apply orderBytes_byte. by rewrite !orderValue_orderBytes, Hz, !length_orderBytes.
Qed.

(** Reversing the bytes is reading in the other order. *)
Definition otherOrder (bo : byteOrder) : byteOrder := match bo with bigEndian => littleEndian | littleEndian => bigEndian end.

Lemma orderBytes_other bo w z : rev (orderBytes bo w z) = orderBytes (otherOrder bo) w z.
Proof. destruct bo; cbn; [apply rev_involutive|done]. Qed.

(** ** Well-formed heaps *)

Definition wfSlice (m : memory) (s : goslice) : Prop :=
  ∃ blk, m !! sblk s = Some blk ∧ 0 ≤ soff s ∧ 0 ≤ slen s ∧ soff s + slen s ≤ Z.of_nat (length blk) < 2 ^ 63.
Definition wfData (m : memory) (d : option goslice) : Prop := match d with Some s => wfSlice m s | None => True end.
Definition wfBuffer (m : memory) (o : arrayBufferObject) : Prop :=
  (detached o = true → data o = None) ∧ wfData m (data o).

(** Every slice lies in its block, memory holds bytes. *)
Record wfHeap (h : heap) : Prop := {
  wf_bytes : Forall (Forall byte) (mem h);
  wf_bufs : ∀ b o, bufs h !! b = Some o → wfBuffer (mem h) o }.

(** What running code may do to a heap: blocks keep their size, a detached buffer
    stays detached, and the data of a live buffer is only ever set once. *)
Record evolves (h h' : heap) : Prop := {
  ev_blocks : ∀ i blk, mem h !! i = Some blk → ∃ blk', mem h' !! i = Some blk' ∧ length blk' = length blk;
  ev_bufs : ∀ b o, bufs h !! b = Some o → ∃ o', bufs h' !! b = Some o' ∧
    (detached o = true → detached o' = true) ∧ (detached o' = false → data o = None ∨ data o' = data o) }.

#[export] Instance evolves_preorder : PreOrder evolves.
Proof.
  split.
  - intros h. split; [eauto|]. intros b o Hb. exists o. auto.
  - intros h1 h2 h3 [A1 B1] [A2 B2]. split.
    + intros i blk Hi. destruct (A1 _ _ Hi) as (blk' & Hi' & E1). destruct (A2 _ _ Hi') as (blk'' & Hi'' & E2).
      exists blk''. split; [done|lia].
    + intros b o Hb. destruct (B1 _ _ Hb) as (o' & Hb' & D1 & L1). destruct (B2 _ _ Hb') as (o'' & Hb'' & D2 & L2).
      exists o''. split; [done|]. split; [auto|]. intros Hd. destruct (L2 Hd) as [E|E].
      * left. destruct (detached o') eqn:E'; [by rewrite D2 in Hd|]. destruct (L1 eq_refl) as [->|E1]; [done|congruence].
      * destruct (detached o') eqn:E'; [by rewrite D2 in Hd|]. destruct (L1 eq_refl) as [->|E1]; [by left|right; congruence].
Qed.

Lemma wfSlice_evolves h h' s : evolves h h' → wfSlice (mem h) s → wfSlice (mem h') s.
Proof.
  intros He (blk & Hb & ? & ? & ?). destruct (ev_blocks _ _ He _ _ Hb) as (blk' & Hb' & El).
  exists blk'. repeat split; [done|lia..].
Qed.

(** *** Writing bytes *)

Lemma lookup_pokeMem m s off bs i :
  pokeMem m s off bs !! i =
  (if decide (i = sblk s) then list_inserts (Z.to_nat (soff s + off)) bs <$> (m !! i) else m !! i).
Proof.
  unfold pokeMem. rewrite list_lookup_alter. destruct (decide (sblk s = i)) as [<-|]; destruct (decide _); done || congruence.
Qed.

Lemma inSlice_spec s off n : inSlice s off n = true ↔ 0 ≤ off ∧ 0 ≤ n ∧ off + n ≤ slen s.
Proof. unfold inSlice. rewrite !andb_true_iff, !Z.leb_le. tauto. Qed.

Lemma wf_poke h s off bs : wfHeap h → wfSlice (mem h) s → inSlice s off (Z.of_nat (length bs)) = true → Forall byte bs →
  wfHeap (Heap (pokeMem (mem h) s off bs) (bufs h)) ∧ evolves h (Heap (pokeMem (mem h) s off bs) (bufs h)).
Proof.
  intros [Hbytes Hbufs] Hs Hin Hb. assert (evolves h (Heap (pokeMem (mem h) s off bs) (bufs h))) as He.
  { split; cbn; [|intros b o ?; exists o; auto]. intros i blk Hi. rewrite lookup_pokeMem.
    destruct (decide (i = sblk s)); [|eauto]. rewrite Hi. cbn. eexists. split; [done|]. apply length_inserts. }
  split; [|done]. split; cbn.
  - apply Forall_lookup_2. intros i blk. rewrite lookup_pokeMem. destruct (decide (i = sblk s)) as [->|].
    + intros (blk0 & Hl & ->)%fmap_Some_1. apply (Forall_lookup_1 _ _ _ _ Hbytes) in Hl.
      apply Forall_lookup_2. intros j b Hj. apply list_lookup_inserts_Some in Hj as [(_ & Hj)|(_ & _ & Hj)].
      * by apply (Forall_lookup_1 _ _ _ _ Hl Hj).
      * by apply (Forall_lookup_1 _ _ _ _ Hb Hj).
    + apply (Forall_lookup_1 _ _ _ _ Hbytes).
  - intros b o Ho. destruct (Hbufs b o Ho) as [H1 H2]. split; [done|].
    destruct (data o); [|done]. by apply (wfSlice_evolves _ _ _ He).
Qed.

(** *** Reading bytes *)

Definition sliceBytes (m : memory) (s : goslice) (off n : Z) : list Z :=
  match m !! sblk s with Some blk => take (Z.to_nat n) (drop (Z.to_nat (soff s + off)) blk) | None => [] end.

Lemma peekBytes_ok h s off n : wfSlice (mem h) s → inSlice s off n = true →
  peekBytes (Some s) off n h = (Ret (sliceBytes (mem h) s off n), h).
Proof. intros (blk & Hb & _) Hin. unfold peekBytes, sliceBytes. by rewrite Hin, Hb. Qed.

Lemma pokeBytes_ok h s off bs : inSlice s off (Z.of_nat (length bs)) = true →
  pokeBytes (Some s) off bs h = (Ret (), Heap (pokeMem (mem h) s off bs) (bufs h)).
Proof. intros Hin. unfold pokeBytes. by rewrite Hin. Qed.

Lemma length_sliceBytes m s off n : wfSlice m s → inSlice s off n = true → Z.of_nat (length (sliceBytes m s off n)) = n.
Proof.
  intros (blk & Hb & ? & ? & ?) Hin%inSlice_spec. unfold sliceBytes. rewrite Hb, length_take, length_drop. lia.
Qed.

Lemma sliceBytes_byte m s off n : Forall (Forall byte) m → Forall byte (sliceBytes m s off n).
Proof.
  intros Hm. unfold sliceBytes. destruct (m !! sblk s) as [blk|] eqn:E; [|constructor].
  apply Forall_take, Forall_drop. by apply (Forall_lookup_1 _ _ _ _ Hm E).
Qed.

Lemma lookup_sliceBytes m s off n i : (i < Z.to_nat n)%nat →
  sliceBytes m s off n !! i = m !! sblk s ≫= λ blk, blk !! (Z.to_nat (soff s + off) + i)%nat.
Proof.
  intros Hi. unfold sliceBytes. destruct (m !! sblk s) as [blk|]; cbn; [|done].
  by rewrite lookup_take_lt, lookup_drop by done.
Qed.

Lemma lookup_sliceBytes_ge m s off n i : (Z.to_nat n ≤ i)%nat → sliceBytes m s off n !! i = None.
Proof.
  intros Hi. unfold sliceBytes. destruct (m !! sblk s); [|done]. by apply lookup_take_ge.
Qed.

(** Two ranges of bytes that do not overlap. *)
Definition disjointRange (s : goslice) (off n : Z) (s' : goslice) (off' n' : Z) : Prop :=
  sblk s ≠ sblk s' ∨ soff s + off + n ≤ soff s' + off' ∨ soff s' + off' + n' ≤ soff s + off.

Lemma sliceBytes_poke_ne m s off bs s' off' n' : 0 ≤ soff s + off → 0 ≤ soff s' + off' → 0 ≤ n' →
  disjointRange s off (Z.of_nat (length bs)) s' off' n' →
  sliceBytes (pokeMem m s off bs) s' off' n' = sliceBytes m s' off' n'.
Proof.
  intros Hs Hs' Hn Hd. apply list_eq. intros i. destruct (decide (i < Z.to_nat n')%nat) as [Hi|Hi];
    [|by rewrite !lookup_sliceBytes_ge by lia].
  rewrite !lookup_sliceBytes, lookup_pokeMem by done. destruct (decide (sblk s' = sblk s)) as [E|]; [|done].
  destruct (m !! sblk s') as [blk|]; [cbn|done]. destruct Hd as [?|[Hd|Hd]]; [congruence| |].
  - apply list_lookup_inserts_ge. lia.
  - apply list_lookup_inserts_lt. lia.
Qed.

Lemma sliceBytes_poke_eq m s off bs : wfSlice m s → inSlice s off (Z.of_nat (length bs)) = true →
  sliceBytes (pokeMem m s off bs) s off (Z.of_nat (length bs)) = bs.
Proof.
  intros (blk & Hb & ? & ? & ?) Hin%inSlice_spec. apply list_eq. intros i.
  destruct (decide (i < length bs)%nat) as [Hi|Hi].
  - rewrite lookup_sliceBytes by lia. rewrite lookup_pokeMem, decide_True, Hb by done. cbn.
    rewrite list_lookup_inserts by lia. f_equal. lia.
  - rewrite lookup_sliceBytes_ge by lia. symmetry. apply lookup_ge_None. lia.
Qed.

(** A range is a window of a larger one. *)
Lemma sliceBytes_poke_inside m s off bs off' n' : wfSlice m s → inSlice s off (Z.of_nat (length bs)) = true →
  off ≤ off' → 0 ≤ n' → off' + n' ≤ off + Z.of_nat (length bs) →
  sliceBytes (pokeMem m s off bs) s off' n' = take (Z.to_nat n') (drop (Z.to_nat (off' - off)) bs).
Proof.
  intros (blk & Hb & ? & ? & ?) Hin%inSlice_spec ???. apply list_eq. intros i.
  destruct (decide (i < Z.to_nat n')%nat) as [Hi|Hi].
  - rewrite lookup_sliceBytes, lookup_take_lt, lookup_drop by lia. rewrite lookup_pokeMem, decide_True, Hb by done. cbn.
    rewrite list_lookup_inserts by lia. f_equal. lia.
  - rewrite lookup_sliceBytes_ge, lookup_take_ge by lia. done.
Qed.

(** ** The laws of the element types *)

Section laws.
Context `{Machine}.

(** The conversion of a number or BigInt to the raw value stored. *)
Definition numRaw (k : taKind) (n : number) : Z :=
  match k with
  | Uint8 => uwrap 8 (toUint8 int64OutOfRange n)
  | Uint8Clamped => uwrap 8 (toUint8Clamp n)
  | Int8 => uwrap 8 (toInt8 int64OutOfRange n)
  | Uint16 => uwrap 16 (toUint16 n)
  | Int16 => uwrap 16 (toInt16 int64OutOfRange n)
  | Uint32 => uwrap 32 (toUint32 n)
  | Int32 => uwrap 32 (toInt32 n)
  | Float16 => Float64ToFloat16 (ToFloat n)
  | Float32 => Float32bits (ToFloat n)
  | Float64 => Float64bits (ToFloat n)
  | _ => 0
  end.
Definition convElem (k : taKind) (v : value) : M Z :=
  if isBig k then b ← toBigInt v; mret (uwrap 64 b) else n ← ToNumber v; mret (numRaw k n).

(** The value of a raw element. *)
Definition readElem (k : taKind) (x : Z) : numeric :=
  match k with
  | Uint8 | Uint8Clamped | Uint16 | Uint32 => NNum (intToValue x)
  | Int8 => NNum (intToValue (swrap 8 x))
  | Int16 => NNum (intToValue (swrap 16 x))
  | Int32 => NNum (intToValue (swrap 32 x))
  | Float16 => NNum (floatToValue (Float16ToFloat64 x))
  | Float32 => NNum (floatToValue (Float32frombits x))
  | Float64 => NNum (floatToValue (Float64frombits x))
  | BigInt64 => NBig (swrap 64 x)
  | BigUint64 => NBig x
  end.

(** What an element type promises to the code that uses it. *)
Class ElementLaws (T : typedArray) (read : Z → numeric) (conv : value → M Z) : Prop := {
  law_size : elemSize T ∈ [1; 2; 4; 8];
  law_get s i h : get T s i h = (x ← load (elemSize T) (typedArrayPtr (elemSize T) s i); mret (read x)) h;
  law_set s i v h : set T s i v h = (x ← conv v; store (elemSize T) (typedArrayPtr (elemSize T) s i) x) h;
  law_swap s i j h : swap T s i j h =
    swapPtr (elemSize T) (typedArrayPtr (elemSize T) s i) (typedArrayPtr (elemSize T) s j) h;
  law_fill s v start len h : fill T s v start len h =
    (x ← conv v; fillSlice (elemSize T) (typedArraySlice (elemSize T) s start len) x) h }.

(** Unfolds the binds of both sides at a heap. *)
Ltac run_binds :=
  repeat match goal with
  | |- context [match ?x with (_, _) => _ end] =>
      lazymatch x with context [match _ with (_, _) => _ end] => fail | _ => destruct x as [[?|?|] ?]; try done end
  end.

(** toBigInt64 keeps the low 64 bits. *)
Lemma uwrap_int64bit b : uwrap 64 (if 2 ^ 63 <=? b mod 2 ^ 64 then b mod 2 ^ 64 - 2 ^ 64 else b mod 2 ^ 64) = uwrap 64 b.
Proof.
  unfold uwrap. destruct (_ <=? _); [|by rewrite Z.mod_mod by lia].
  replace (b mod 2 ^ 64 - 2 ^ 64) with (b mod 2 ^ 64 + (-1) * 2 ^ 64) by lia. by rewrite Z.mod_add, Z.mod_mod by lia.
Qed.

#[export] Instance ops_laws k : ElementLaws (ops k) (readElem k) (convElem k).
Proof.
  split.
  - destruct k; cbn; set_solver.
  - intros s i h. destruct k; cbn; unfold mbind, M_bind; run_binds.
  - intros s i v h. destruct k; cbn; unfold convElem, VToFloat, toBigInt64, toBigUint64, mbind, M_bind, mret, M_ret; cbn;
      destruct v as [n|b|u num big t]; cbn; run_binds.
    all: try (by rewrite uwrap_int64bit). all: done.
  - intros s i j h. by destruct k.
  - intros s v start len h. destruct k; cbn; unfold convElem, VToFloat, toBigInt64, toBigUint64, mbind, M_bind, mret, M_ret; cbn;
      destruct v as [n|b|u num big t]; cbn; run_binds.
    all: try (by rewrite uwrap_int64bit). all: done.
Qed.

(** *** What an element reads back as

    The value the language prescribes for a stored number or BigInt: the integer
    part modulo the width, the nearest integer clamped to a byte, the nearest
    value of the format, or the low 64 bits. *)
Definition ideal (k : taKind) (c : numeric) : numeric :=
  match c with
  | NBig b => NBig (match k with BigInt64 => swrap 64 b | _ => uwrap 64 b end)
  | NNum n =>
      let f := ToFloat n in
      NNum match k with
           | Uint8 => intToValue (uwrap 8 (truncF f))
           | Uint8Clamped => intToValue (clampRound f)
           | Int8 => intToValue (swrap 8 (truncF f))
           | Uint16 => intToValue (uwrap 16 (truncF f))
           | Int16 => intToValue (swrap 16 (truncF f))
           | Uint32 => intToValue (uwrap 32 (truncF f))
           | Int32 => intToValue (swrap 32 (truncF f))
           | Float16 => floatToValue (roundTo binary16 f)
           | Float32 => floatToValue (roundTo binary32 f)
           | _ => floatToValue f
           end
  end.

(** The numbers a conversion of the type is defined on: int8, uint8 and int16
    convert through int64. *)
Definition convertible (k : taKind) (c : numeric) : Prop :=
  match c with
  | NBig _ => isBig k = true
  | NNum n => isBig k = false ∧ wfNumber n ∧
              (k = Int8 ∨ k = Uint8 ∨ k = Int16 → MinInt64 ≤ truncF (ToFloat n) ≤ MaxInt64)
  end.

(** The raw value of a numeric. *)
Definition rawOf (k : taKind) (c : numeric) : Z := match c with NNum n => numRaw k n | NBig b => uwrap 64 b end.

Lemma clampRound_range f : 0 ≤ clampRound f ≤ 255.
Proof.
  destruct f as [|[]|s m e]; cbn; try lia. destruct (Z.leb_spec (fval s m e) 0); [lia|].
  destruct (Z.leb_spec (255 * one) (fval s m e)); [lia|]. pose proof one_pos.
  assert (fval s m e / one < 255) by (apply Z.div_lt_upper_bound; lia).
  pose proof (Z.div_pos (fval s m e) one ltac:(lia) ltac:(lia)). destruct (rne_cases (fval s m e) one); lia.
Qed.

Lemma toUint16_trunc n : wfNumber n → toUint16 n = uwrap 16 (truncF (ToFloat n)).
Proof.
  destruct n as [i|f]; cbn; intros Hn; [by rewrite truncF_ofZ|].
  by rewrite floatToUint32_trunc, uwrap_uwrap by (try done; lia).
Qed.

Lemma uwrap_twice w z : 0 ≤ w → uwrap w (uwrap w z) = uwrap w z.
Proof. intros ?. apply uwrap_uwrap. lia. Qed.

Lemma swrap_uwrap_swrap w z : 0 < w → swrap w (uwrap w (swrap w z)) = swrap w z.
Proof. intros ?. rewrite swrap_uwrap by lia. apply swrap_id; [done|]. by apply swrap_range. Qed.

Lemma rawOf_range k c : convertible k c → 0 ≤ rawOf k c < 2 ^ (8 * elemSize (ops k)).
Proof.
  destruct c as [n|b]; cbn [convertible rawOf]; [intros (Hb & Hn & _)|intros Hb].
  - pose proof (ToFloat_valid n Hn) as Hv. destruct k; try done; cbn [numRaw ops]; try (by apply uwrap_range).
    + rewrite Float64ToFloat16_spec by done. apply (encode_range binary16); [by left|done|done].
    + apply (encode_range binary32); [by right; left|done|done].
    + rewrite <- encode_binary64 by done. apply (encode_range binary64); [by right; right|done|done].
  - destruct k; try done; apply (uwrap_range 64); lia.
Qed.

Lemma read_rawOf k c : convertible k c → readElem k (rawOf k c) = ideal k c.
Proof.
  destruct c as [n|b]; cbn [convertible rawOf ideal]; [intros (Hb & Hn & Hr)|intros Hb; destruct k; try done].
  2: { cbn. by rewrite swrap_uwrap by lia. }
  pose proof (ToFloat_valid n Hn) as Hv.
  assert (k = Int8 ∨ k = Uint8 ∨ k = Int16 → toInt8 int64OutOfRange n = swrap 8 (truncF (ToFloat n)) ∧
    toUint8 int64OutOfRange n = uwrap 8 (truncF (ToFloat n)) ∧ toInt16 int64OutOfRange n = swrap 16 (truncF (ToFloat n))) as Hi.
  { intros Hk. apply toInt16_in_range; auto. }
  destruct k; try done; cbn [readElem numRaw]; do 2 f_equal.
  - by rewrite (proj1 (proj2 (Hi ltac:(auto)))), uwrap_twice by lia.
  - rewrite toUint8Clamp_nearest, uwrap_id by (try done; pose proof (clampRound_range (ToFloat n)); lia). done.
  - by rewrite (proj1 (Hi ltac:(auto))), swrap_uwrap_swrap by lia.
  - by rewrite toUint16_trunc, uwrap_twice by (try done; lia).
  - by rewrite (proj2 (proj2 (Hi ltac:(auto)))), swrap_uwrap_swrap by lia.
  - by rewrite toUint32_trunc, uwrap_twice by (try done; lia).
  - by rewrite toInt32_trunc, swrap_uwrap_swrap by (try done; lia).
  - pose proof (rawOf_range Float16 (NNum n) ltac:(split; [done|split; [done|intros [?|[?|?]]; done]])) as Hrg.
    cbn in Hrg. rewrite Float16ToFloat64_spec by done. rewrite Float64ToFloat16_spec by done.
    apply decode_encode; [by left|done|done].
  - by apply Float32frombits_bits.
  - by apply Float64frombits_bits.
Qed.

(** A number for a number type, a BigInt for a BigInt type. *)
Definition sameContent (k : taKind) (c : numeric) : Prop := isBig k = match c with NNum _ => false | NBig _ => true end.

#[export] Instance sameContent_dec k c : Decision (sameContent k c).
Proof. unfold sameContent. apply _. Defined.

Lemma convertible_content k c : convertible k c → sameContent k c.
Proof. by destruct c; [intros [? _]|intros ?]. Qed.

Lemma readElem_content k k' x : sameContent k (readElem k' x) ↔ isBig k = isBig k'.
Proof. unfold sameContent. by destruct k'. Qed.

(** Converting a numeric runs no code. *)
Lemma convElem_numeric k c h : sameContent k c → convElem k (ofNumeric c) h = (Ret (rawOf k c), h).
Proof. unfold convElem, sameContent. intros ->. by destruct c. Qed.

Lemma convElem_mixed k c h : ¬ sameContent k c → ∃ msg, convElem k (ofNumeric c) h = (Raise (TypeError msg), h).
Proof.
  unfold convElem, sameContent. destruct c, (isBig k); cbn; intros Hc; try done; by eexists.
Qed.

(** *** Elements of a slice *)

(** Element [idx] of width [w] lies in the slice. *)
Definition inBounds (s : goslice) (w idx : Z) : Prop := 0 ≤ idx ∧ (idx + 1) * w ≤ slen s.

Definition rawAt (m : memory) (s : goslice) (w idx : Z) : Z := orderValue nativeEndian (sliceBytes m s (idx * w) w).

Lemma inBounds_inSlice s w idx : 0 < w → inBounds s w idx → inSlice s (idx * w) w = true.
Proof. intros Hw [H1 H2]. apply inSlice_spec. nia. Qed.

Lemma load_ok h s w idx : 0 < w → wfSlice (mem h) s → inBounds s w idx →
  load w (typedArrayPtr w (Some s) idx) h = (Ret (rawAt (mem h) s w idx), h).
Proof.
  intros Hw Hs Hb. unfold load, typedArrayPtr. cbn [fst snd]. unfold mbind, M_bind.
  by rewrite peekBytes_ok by (try done; by apply inBounds_inSlice).
Qed.

Definition storeMem (m : memory) (s : goslice) (w idx raw : Z) : memory :=
  pokeMem m s (idx * w) (orderBytes nativeEndian (Z.to_nat w) raw).

Lemma store_ok h s w idx raw : 0 < w → inBounds s w idx →
  store w (typedArrayPtr w (Some s) idx) raw h = (Ret (), Heap (storeMem (mem h) s w idx raw) (bufs h)).
Proof.
  intros Hw Hb. unfold store, typedArrayPtr. cbn [fst snd]. apply pokeBytes_ok.
  rewrite length_orderBytes, Z2Nat.id by lia. by apply inBounds_inSlice.
Qed.

Lemma rawAt_range m s w idx : Forall (Forall byte) m → wfSlice m s → 0 < w → inBounds s w idx →
  0 ≤ rawAt m s w idx < 2 ^ (8 * w).
Proof.
  intros Hm Hs Hw Hb. unfold rawAt. pose proof (orderValue_range nativeEndian (sliceBytes m s (idx * w) w)) as Hr.
  rewrite length_sliceBytes in Hr by (try done; by apply inBounds_inSlice). apply Hr. by apply sliceBytes_byte.
Qed.

Lemma rawAt_store_eq m s w idx raw : 0 < w → wfSlice m s → inBounds s w idx → 0 ≤ raw < 2 ^ (8 * w) →
  rawAt (storeMem m s w idx raw) s w idx = raw.
Proof.
  intros Hw Hs Hb Hr. unfold rawAt, storeMem. pose proof (length_orderBytes nativeEndian (Z.to_nat w) raw) as Hl.
  pose proof (sliceBytes_poke_eq m s (idx * w) (orderBytes nativeEndian (Z.to_nat w) raw) Hs) as Hp.
  rewrite Hl, Z2Nat.id in Hp by lia. rewrite Hp by (by apply inBounds_inSlice).
  rewrite orderValue_orderBytes, Z2Nat.id by lia. by apply uwrap_id.
Qed.

(** Element [i] of one slice and element [j] of another do not overlap. *)
Definition disjointElems (s : goslice) (w i : Z) (s' : goslice) (w' j : Z) : Prop :=
  disjointRange s (i * w) w s' (j * w') w'.

Lemma rawAt_store_ne m s w i raw s' w' j : 0 < w → 0 < w' → 0 ≤ soff s → 0 ≤ soff s' → 0 ≤ i → 0 ≤ j →
  disjointElems s w i s' w' j → rawAt (storeMem m s w i raw) s' w' j = rawAt m s' w' j.
Proof.
  intros ?????? Hd. unfold rawAt, storeMem. rewrite sliceBytes_poke_ne; [done|nia|nia|lia|].
  by rewrite length_orderBytes, Z2Nat.id by lia.
Qed.

Lemma disjointElems_ne s w i j : 0 < w → i ≠ j → disjointElems s w i s w j.
Proof. intros Hw Hij. right. destruct (Z.lt_total i j) as [?|[?|?]]; [left; nia|done|right; nia]. Qed.

Lemma wf_store h s w i raw : wfHeap h → wfSlice (mem h) s → 0 < w → inBounds s w i →
  wfHeap (Heap (storeMem (mem h) s w i raw) (bufs h)) ∧ evolves h (Heap (storeMem (mem h) s w i raw) (bufs h)).
Proof.
  intros Hh Hs Hw Hb. apply wf_poke; [done|done| |apply orderBytes_byte].
  rewrite length_orderBytes, Z2Nat.id by lia. by apply inBounds_inSlice.
Qed.
End laws.
End TypedArrayMem.
