(* ===== verification/TypedArrayProps.v ===== *)
(** * Elements and data views: round trips

    Writing an element of a typed array or through a data view, for every element
    type, byte order and machine: what is read back and what stays unchanged. *)

From S2P Require Import Prelude Float64 Numbers Arith FloatBits TypedArrays TypedArrayOps TypedArrayMem.
Import Float64 Numbers Arith FloatBits TypedArrays TypedArrayOps TypedArrayMem.
Open Scope Z_scope.

Module TypedArrayProps.

Section props.
Context `{Machine}.

Lemma elemSize_cases k : elemSize (ops k) = 1 ∨ elemSize (ops k) = 2 ∨ elemSize (ops k) = 4 ∨ elemSize (ops k) = 8.
Proof. pose proof (law_size (T := ops k)). set_solver. Qed.

Lemma elemSize_pos k : 0 < elemSize (ops k).
Proof. destruct (elemSize_cases k) as [->|[->|[->| ->]]]; lia. Qed.

(** A typed array object lies in the data of its buffer, while that is not detached. *)
Definition wfTA (h : heap) (a : typedArrayObject) : Prop :=
  0 ≤ ta_offset a ∧ 0 ≤ ta_length a ∧
  ∃ o, bufs h !! viewedArrayBuf a = Some o ∧
       (detached o = false → (ta_offset a + ta_length a) * taElemSize a ≤ lenData (data o)).

(** The buffer is live and its data is the slice. *)
Definition live (h : heap) (b : nat) (s : goslice) : Prop := bufs h !! b = Some (ArrayBuffer false (Some s)).

Lemma live_wf h b s : wfHeap h → live h b s → wfSlice (mem h) s.
Proof. intros Hh Hl. apply (wf_bufs _ Hh) in Hl. apply Hl. Qed.

(** Index [idx] of a live well-formed array is in bounds. *)
Lemma wfTA_inBounds h a s i : wfTA h a → live h (viewedArrayBuf a) s → 0 ≤ i < ta_length a →
  inBounds s (taElemSize a) (ta_offset a + i).
Proof.
  intros (Ho & Hl & o & Hb & Hlen) Hlive Hi. unfold live in Hlive. rewrite Hlive in Hb. injection Hb as <-.
  specialize (Hlen eq_refl). cbn in Hlen. pose proof (elemSize_pos (defaultCtor a)) as Hp. unfold taElemSize, taOps in *.
  split; [lia|]. nia.
Qed.

Lemma buffer_live h b s : live h b s → buffer b h = (Ret (ArrayBuffer false (Some s)), h).
Proof. unfold live, buffer. by intros ->. Qed.

Lemma taData_live h a s : live h (viewedArrayBuf a) s → taData a h = (Ret (Some s), h).
Proof. intros Hl. unfold taData, mbind, M_bind. by rewrite (buffer_live _ _ _ Hl). Qed.

Lemma taGet_ok h a s idx : wfSlice (mem h) s → live h (viewedArrayBuf a) s → inBounds s (taElemSize a) idx →
  taGet a idx h = (Ret (readElem (defaultCtor a) (rawAt (mem h) s (taElemSize a) idx)), h).
Proof.
  intros Hs Hl Hb. unfold taGet. unfold mbind, M_bind. rewrite (taData_live _ _ _ Hl).
  rewrite law_get. unfold mbind, M_bind. unfold taElemSize, taOps in *.
  rewrite load_ok; [done|apply elemSize_pos|done|done].
Qed.

Lemma taSet_ok h a s idx c : live h (viewedArrayBuf a) s → inBounds s (taElemSize a) idx → sameContent (defaultCtor a) c →
  taSet a idx (ofNumeric c) h = (Ret (), Heap (storeMem (mem h) s (taElemSize a) idx (rawOf (defaultCtor a) c)) (bufs h)).
Proof.
  intros Hl Hb Hc. unfold taSet. unfold mbind, M_bind. rewrite (taData_live _ _ _ Hl).
  rewrite law_set. unfold mbind, M_bind. rewrite convElem_numeric by done. unfold taElemSize, taOps in *.
  apply store_ok; [apply elemSize_pos|done].
Qed.

Lemma notDetached_live h b s : live h b s → notDetached b h = (Ret true, h).
Proof. intros Hl. unfold notDetached, mbind, M_bind. by rewrite (buffer_live _ _ _ Hl). Qed.

Lemma isValidIntegerIndex_live h a s i : live h (viewedArrayBuf a) s →
  isValidIntegerIndex a i h = (Ret ((0 <=? i) && (i <? ta_length a)), h).
Proof. intros Hl. unfold isValidIntegerIndex, mbind, M_bind. by rewrite (notDetached_live _ _ _ Hl). Qed.

Lemma getIdx_live h a s i : wfHeap h → wfTA h a → live h (viewedArrayBuf a) s → 0 ≤ i < ta_length a →
  getIdx a i h = (Ret (Some (readElem (defaultCtor a) (rawAt (mem h) s (taElemSize a) (i + ta_offset a)))), h).
Proof.
  intros Hh Ha Hl Hi. unfold getIdx, _getIdx. rewrite (proj2 (Z.leb_le 0 i)), (proj2 (Z.ltb_lt i _)) by lia. cbn [andb].
  unfold mbind, M_bind. rewrite (notDetached_live _ _ _ Hl). rewrite (taGet_ok _ _ s); [done|by apply (live_wf _ _ _ Hh Hl)|done|].
  rewrite Z.add_comm. by apply (wfTA_inBounds h).
Qed.

Lemma getIdx_outside h a i : ¬ (0 ≤ i < ta_length a) → getIdx a i h = (Ret None, h).
Proof.
  intros Hi. unfold getIdx, _getIdx. assert ((0 <=? i) && (i <? ta_length a) = false) as ->; [|done].
  apply andb_false_iff. rewrite Z.leb_gt, Z.ltb_ge. lia.
Qed.

(** Storing a converted value. *)
Lemma putIdx_converted h a i v c h1 : toContent (defaultCtor a) v h = (Ret (ofNumeric c), h1) →
  setOwnIdx a i v h = (_ ← (ok ← isValidIntegerIndex a i; if ok : bool then taSet a (i + ta_offset a) (ofNumeric c) else mret ()); mret true) h1.
Proof. intros Hc. unfold setOwnIdx, _putIdx, mbind, M_bind. by rewrite Hc. Qed.

Lemma ideal_content k v h c h1 : toContent k v h = (Ret (ofNumeric c), h1) →
  match c with NNum _ => isBig k = false | NBig _ => isBig k = true end.
Proof.
  unfold toContent, mbind, M_bind. destruct (isBig k).
  - destruct (toBigInt v h) as [[b|e|] h']; try done. unfold mret, M_ret. intros [= Hc _]. by destruct c.
  - destruct (ToNumber v h) as [[b|e|] h']; try done. unfold mret, M_ret. intros [= Hc _]. by destruct c.
Qed.

(** C17: Assigning [a[i] = v] on a typed array, where converting [v] gives the number
    or BigInt [c] and leaves the heap [h1] (the conversion may run any code): if
    the buffer is live in [h1] and the index is in range, then afterwards [a[i]] is
    the value the language prescribes for [c] and the element type, every other
    index of [a] reads as before, and no byte outside the element changed in any
    slice; if the index is out of range, nothing changes.  For int8, uint8 and int16
    elements the integer part of [c] is in the range of int64 ([convertible]);
    beyond it the code deviates ([toInt16_out_of_range]). *)
Theorem element_roundtrip (h h1 : heap) (a : typedArrayObject) (s : goslice) (i : Z) (v : value) (c : numeric) :
  wfHeap h1 → wfTA h1 a → live h1 (viewedArrayBuf a) s →
  toContent (defaultCtor a) v h = (Ret (ofNumeric c), h1) → convertible (defaultCtor a) c →
  if decide (0 ≤ i < ta_length a) then
    ∃ h', setOwnIdx a i v h = (Ret true, h') ∧ wfHeap h' ∧
      getIdx a i h' = (Ret (Some (ideal (defaultCtor a) c)), h') ∧
      (∀ j, j ≠ i → getIdx a j h' = ((getIdx a j h1).1, h')) ∧
      ∀ s' off n, 0 ≤ soff s' + off → 0 ≤ n →
        disjointRange s ((i + ta_offset a) * taElemSize a) (taElemSize a) s' off n →
        sliceBytes (mem h') s' off n = sliceBytes (mem h1) s' off n
  else setOwnIdx a i v h = (Ret true, h1).
Proof.
  intros Hh Ha Hl Hc Hcv. rewrite (putIdx_converted h a i v c h1 Hc).
  pose proof (elemSize_pos (defaultCtor a)) as Hp. pose proof (live_wf _ _ _ Hh Hl) as Hs.
  unfold mbind, M_bind. rewrite (isValidIntegerIndex_live _ _ _ _ Hl).
  destruct (decide (0 ≤ i < ta_length a)) as [Hi|Hi].
  2: { assert ((0 <=? i) && (i <? ta_length a) = false) as ->; [|done].
       apply andb_false_iff. rewrite Z.leb_gt, Z.ltb_ge. lia. }
  rewrite (proj2 (Z.leb_le 0 i)), (proj2 (Z.ltb_lt i _)) by lia. cbn [andb].
  pose proof (wfTA_inBounds h1 a s i Ha Hl Hi) as Hb. rewrite Z.add_comm in Hb.
  rewrite (taSet_ok _ _ _ _ _ Hl Hb (convertible_content _ _ Hcv)).
  set (raw := rawOf (defaultCtor a) c). set (h' := Heap _ _). exists h'. split; [done|].
  destruct (wf_store h1 s (taElemSize a) (i + ta_offset a) raw Hh Hs Hp Hb) as [Hh' He]. fold h' in Hh', He.
  assert (wfTA h' a) as Ha' by exact Ha. assert (live h' (viewedArrayBuf a) s) as Hl' by exact Hl.
  split; [done|]. split; [|split].
  - rewrite (getIdx_live _ _ s) by done. do 3 f_equal. cbn [mem h'].
    rewrite rawAt_store_eq; [|done|done|done|by apply rawOf_range]. by apply read_rawOf.
  - intros j Hj. destruct (decide (0 ≤ j < ta_length a)) as [Hj'|Hj']; [|by rewrite !getIdx_outside].
    rewrite !(getIdx_live _ _ s) by done. cbn [fst mem h'].
    rewrite rawAt_store_ne; [done|done|done|by destruct Hs as (? & ? & ? & _)..|destruct Ha; lia|destruct Ha; lia|].
    apply disjointElems_ne; [done|lia].
  - intros s' off n Hoff Hn Hd. cbn [mem h']. unfold storeMem.
    assert (0 ≤ soff s) by (by destruct Hs as (? & ? & ? & _)). destruct Hb as [Hb _].
    apply sliceBytes_poke_ne; [unfold taElemSize, taOps in *; nia|done|done|].
    rewrite length_orderBytes, Z2Nat.id by (unfold taElemSize, taOps; lia). done.
Qed.

(** ** Data views *)

(** The getter and setter of an element type. *)
Definition viewGet (k : taKind) : dataViewObject → value → value → M numeric :=
  match k with
  | Uint8 | Uint8Clamped => dataViewProto_getUint8
  | Int8 => dataViewProto_getInt8
  | Uint16 => dataViewProto_getUint16
  | Int16 => dataViewProto_getInt16
  | Uint32 => dataViewProto_getUint32
  | Int32 => dataViewProto_getInt32
  | Float16 => dataViewProto_getFloat16
  | Float32 => dataViewProto_getFloat32
  | Float64 => dataViewProto_getFloat64
  | BigInt64 => dataViewProto_getBigInt64
  | BigUint64 => dataViewProto_getBigUint64
  end.
Definition viewSet (k : taKind) : dataViewObject → value → value → value → M unit :=
  match k with
  | Uint8 | Uint8Clamped => dataViewProto_setUint8
  | Int8 => dataViewProto_setInt8
  | Uint16 => dataViewProto_setUint16
  | Int16 => dataViewProto_setInt16
  | Uint32 => dataViewProto_setUint32
  | Int32 => dataViewProto_setInt32
  | Float16 => dataViewProto_setFloat16
  | Float32 => dataViewProto_setFloat32
  | Float64 => dataViewProto_setFloat64
  | BigInt64 => dataViewProto_setBigInt64
  | BigUint64 => dataViewProto_setBigUint64
  end.

Definition wfView (h : heap) (dv : dataViewObject) : Prop :=
  0 ≤ byteOffset dv ∧ 0 ≤ byteLen dv ∧
  ∃ o, bufs h !! dvBuf dv = Some o ∧ (detached o = false → byteOffset dv + byteLen dv ≤ lenData (data o)).

Definition orderOf (v : value) : byteOrder := if ToBoolean v then littleEndian else bigEndian.

(** Bytes written in a byte order are that order, whatever the machine's is. *)
Lemma inOrder_orderBytes bo w z : inOrder bo (orderBytes nativeEndian w z) = orderBytes bo w z.
Proof.
  unfold inOrder. destruct (decide (bo = nativeEndian)) as [->|Hne]; [done|]. rewrite orderBytes_other.
  f_equal. destruct bo, nativeEndian; done.
Qed.

Lemma inOrder_value bo bs : orderValue nativeEndian (inOrder bo bs) = orderValue bo bs.
Proof.
  unfold inOrder. destruct (decide (bo = nativeEndian)) as [->|Hne]; [done|].
  destruct bo, nativeEndian; try done; cbn; by rewrite ?rev_involutive.
Qed.

(** Where an access of [n] bytes at index [i] of the view is. *)
Lemma getIdxAndByteOrder_ok h dv s i le n : live h (dvBuf dv) s → i + n ≤ byteLen dv →
  getIdxAndByteOrder dv i (Some le) n h = (Ret (i + byteOffset dv, orderOf le), h).
Proof.
  intros Hl Hi. unfold getIdxAndByteOrder, ensureNotDetached, mbind, M_bind. rewrite (buffer_live _ _ _ Hl). cbn.
  by rewrite (proj2 (Z.ltb_ge _ _)) by lia.
Qed.

Lemma wfView_inSlice h dv s i n : wfView h dv → live h (dvBuf dv) s → 0 ≤ i → 0 ≤ n → i + n ≤ byteLen dv →
  inSlice s (i + byteOffset dv) n = true.
Proof.
  intros (Ho & Hl & o & Hb & Hlen) Hlive Hi Hn Hin. unfold live in Hlive. rewrite Hlive in Hb. injection Hb as <-.
  specialize (Hlen eq_refl). cbn in Hlen. apply inSlice_spec. lia.
Qed.

Lemma setRaw_ok h b s w idx val bo : 0 ≤ w → live h b s → inSlice s idx w = true →
  setRaw w b idx val bo h = (Ret (), Heap (pokeMem (mem h) s idx (orderBytes bo (Z.to_nat w) val)) (bufs h)).
Proof.
  intros Hw Hl Hin. unfold setRaw, mbind, M_bind. rewrite (buffer_live _ _ _ Hl), inOrder_orderBytes.
  apply pokeBytes_ok. by rewrite length_orderBytes, Z2Nat.id.
Qed.

Lemma getRaw_ok h b s w idx bo : wfHeap h → live h b s → inSlice s idx w = true →
  getRaw w b idx bo h = (Ret (orderValue bo (sliceBytes (mem h) s idx w)), h).
Proof.
  intros Hh Hl Hin. unfold getRaw, mbind, M_bind. rewrite (buffer_live _ _ _ Hl). cbn [data].
  rewrite peekBytes_ok by (try done; by apply (live_wf _ _ _ Hh Hl)). unfold mret, M_ret. by rewrite inOrder_value.
Qed.

Lemma ensureNotDetached_live h b s : live h b s → ensureNotDetached b h = (Ret (), h).
Proof. intros Hl. unfold ensureNotDetached, mbind, M_bind. by rewrite (buffer_live _ _ _ Hl). Qed.

Definition viewOk (k : taKind) (h : heap) (dv : dataViewObject) (s : goslice) (i : Z) : Prop :=
  wfHeap h ∧ wfView h dv ∧ live h (dvBuf dv) s ∧ 0 ≤ i < maxInt ∧ i + elemSize (ops k) ≤ byteLen dv.

Lemma toIndex_int h i : 0 ≤ i < maxInt → VtoIndex (VNum (valueInt i)) h = (Ret i, h).
Proof.
  intros Hi. unfold VtoIndex, mbind, M_bind. cbn. unfold toIndex. cbn [ToInteger].
  by rewrite (proj2 (Z.leb_le 0 i)), (proj2 (Z.ltb_lt i _)) by lia.
Qed.

(** Data views have no clamped type. *)
Lemma viewGet_ok k h dv s i le : viewOk k h dv s i → k ≠ Uint8Clamped →
  viewGet k dv (VNum (valueInt i)) le h =
  (Ret (readElem k (orderValue (orderOf le) (sliceBytes (mem h) s (i + byteOffset dv) (elemSize (ops k))))), h).
Proof.
  intros (Hh & Hv & Hl & Hi & Hlen) Hk. pose proof (elemSize_pos k) as Hp.
  assert (inSlice s (i + byteOffset dv) (elemSize (ops k)) = true) as Hin by (apply (wfView_inSlice h); lia || done).
  assert (∀ x, getRaw 1 (dvBuf dv) (i + byteOffset dv) x h = getRaw 1 (dvBuf dv) (i + byteOffset dv) nativeEndian h) as H1.
  { intros x. unfold getRaw, mbind, M_bind. destruct (buffer (dvBuf dv) h) as [[o|e|] h']; try done.
    unfold peekBytes. destruct (data o) as [s0|]; [|done]. destruct (inSlice s0 _ 1); [|done].
    destruct (mem h' !! sblk s0) as [blk|]; [|done]. unfold mret, M_ret. do 3 f_equal.
    destruct (drop _ blk) as [|b l]; cbn; unfold inOrder; by repeat destruct (decide _). }
  destruct k; try done; cbn [viewGet]; unfold dataViewProto_getFloat16, dataViewProto_getFloat32, dataViewProto_getFloat64,
    dataViewProto_getInt8, dataViewProto_getInt16, dataViewProto_getInt32, dataViewProto_getUint8, dataViewProto_getUint16,
    dataViewProto_getUint32, dataViewProto_getBigInt64, dataViewProto_getBigUint64, viewIndex, getFloat16, getFloat32,
    getFloat64, getInt8, getInt16, getInt32, getBigInt64, getBigUint64, getUint8, getUint16, getUint32, getUint64,
    mbind, M_bind; rewrite (toIndex_int h i Hi), (getIdxAndByteOrder_ok h dv s) by done; cbn [fst snd];
    rewrite <- ?(H1 (orderOf le)), (getRaw_ok _ _ s) by done; done.
Qed.

Lemma viewSet_ok k h dv s i c le : viewOk k h dv s i → k ≠ Uint8Clamped → convertible k c →
  viewSet k dv (VNum (valueInt i)) (ofNumeric c) le h =
  (Ret (), Heap (pokeMem (mem h) s (i + byteOffset dv)
                   (orderBytes (orderOf le) (Z.to_nat (elemSize (ops k))) (rawOf k c))) (bufs h)).
Proof.
  intros (Hh & Hv & Hl & Hi & Hlen) Hk Hc. pose proof (elemSize_pos k) as Hp.
  assert (inSlice s (i + byteOffset dv) (elemSize (ops k)) = true) as Hin by (apply (wfView_inSlice h); lia || done).
  assert (∀ x b z, orderBytes b 1 z = orderBytes x 1 z) as H1 by (by intros [] []).
  destruct k; try done; destruct c as [n|b]; try done; try (by destruct Hc); cbn [viewSet ofNumeric];
    unfold dataViewProto_setFloat16, dataViewProto_setFloat32, dataViewProto_setFloat64,
    dataViewProto_setInt8, dataViewProto_setInt16, dataViewProto_setInt32, dataViewProto_setUint8, dataViewProto_setUint16,
    dataViewProto_setUint32, dataViewProto_setBigInt64, dataViewProto_setBigUint64, VToFloat, toBigInt64, toBigUint64,
    setFloat16, setFloat32, setFloat64, setInt8, setInt16, setInt32, setBigInt64, setBigUint64,
    setUint8, setUint16, setUint32, setUint64, mbind, M_bind; rewrite (toIndex_int h i Hi); cbn [ToNumber toBigInt mret M_ret];
    rewrite (getIdxAndByteOrder_ok h dv s), ?(ensureNotDetached_live _ _ _ Hl) by done; cbn [fst snd];
    rewrite (setRaw_ok _ _ s) by done; do 3 f_equal; rewrite 1?(H1 (orderOf le) nativeEndian); try done;
    apply orderBytes_cong; cbn [rawOf numRaw]; try (symmetry; by apply uwrap_twice).
  all: rewrite ?uwrap_int64bit; unfold uwrap; cbn; by rewrite ?Z.mod_mod.
Qed.

(** Out of bounds, a getter and a setter throw and change nothing. *)
Lemma view_out_of_bounds k h dv s i c le : live h (dvBuf dv) s → 0 ≤ i < maxInt → byteLen dv < i + elemSize (ops k) →
  convertible k c →
  viewGet k dv (VNum (valueInt i)) le h = (Raise (RangeError "Index is out of bounds"), h) ∧
  viewSet k dv (VNum (valueInt i)) (ofNumeric c) le h = (Raise (RangeError "Index is out of bounds"), h).
Proof.
  intros Hl Hi Hlen Hc.
  assert (getIdxAndByteOrder dv i (Some le) (elemSize (ops k)) h = (Raise (RangeError "Index is out of bounds"), h)) as He.
  { unfold getIdxAndByteOrder, mbind, M_bind. rewrite (ensureNotDetached_live _ _ _ Hl).
    by rewrite (proj2 (Z.ltb_lt _ _)) by lia. }
  split; destruct k; try done; cbn [viewGet viewSet];
    unfold dataViewProto_getFloat16, dataViewProto_getFloat32, dataViewProto_getFloat64,
    dataViewProto_getInt8, dataViewProto_getInt16, dataViewProto_getInt32, dataViewProto_getUint8, dataViewProto_getUint16,
    dataViewProto_getUint32, dataViewProto_getBigInt64, dataViewProto_getBigUint64, viewIndex,
    dataViewProto_setFloat16, dataViewProto_setFloat32, dataViewProto_setFloat64,
    dataViewProto_setInt8, dataViewProto_setInt16, dataViewProto_setInt32, dataViewProto_setUint8, dataViewProto_setUint16,
    dataViewProto_setUint32, dataViewProto_setBigInt64, dataViewProto_setBigUint64, VToFloat, toBigInt64, toBigUint64,
    mbind, M_bind; rewrite (toIndex_int h i Hi); destruct c as [n|b]; try done; try (by destruct Hc);
    cbn [ofNumeric ToNumber toBigInt mret M_ret]; cbn in He; by rewrite He.
Qed.

(** C19: Writing through a DataView on a live buffer, for every type and either byte
    order, stores exactly the bytes of the converted value in the order asked for,
    whatever the byte order of the machine; reading with the same order gives the
    value the language prescribes, a typed array over the same bytes reads the same
    value when the order is the machine's, and no other byte changes.  Outside the
    view both throw a RangeError and change nothing. *)
Theorem dataview_roundtrip (h : heap) (dv : dataViewObject) (s : goslice) (k : taKind) (i : Z) (c : numeric) (le : value) :
  wfHeap h → wfView h dv → live h (dvBuf dv) s → 0 ≤ i < maxInt → k ≠ Uint8Clamped → convertible k c →
  let idx := VNum (valueInt i) in
  let size := elemSize (ops k) in
  if decide (i + size ≤ byteLen dv) then
    ∃ h', viewSet k dv idx (ofNumeric c) le h = (Ret (), h') ∧ wfHeap h' ∧
      sliceBytes (mem h') s (i + byteOffset dv) size = orderBytes (orderOf le) (Z.to_nat size) (rawOf k c) ∧
      viewGet k dv idx le h' = (Ret (ideal k c), h') ∧
      (∀ a j, viewedArrayBuf a = dvBuf dv → defaultCtor a = k → wfTA h a → 0 ≤ j < ta_length a →
         (j + ta_offset a) * size = i + byteOffset dv → orderOf le = nativeEndian →
         getIdx a j h' = (Ret (Some (ideal k c)), h')) ∧
      ∀ s' off n, 0 ≤ soff s' + off → 0 ≤ n → disjointRange s (i + byteOffset dv) size s' off n →
        sliceBytes (mem h') s' off n = sliceBytes (mem h) s' off n
  else viewSet k dv idx (ofNumeric c) le h = (Raise (RangeError "Index is out of bounds"), h) ∧
       viewGet k dv idx le h = (Raise (RangeError "Index is out of bounds"), h).
Proof.
  intros Hh Hv Hl Hi Hk Hc idx size. destruct (decide _) as [Hin|Hout].
  2: { destruct (view_out_of_bounds k h dv s i c le Hl Hi ltac:(unfold size in *; lia) Hc) as [E1 E2]. done. }
  pose proof (elemSize_pos k) as Hp. fold size in Hp.
  assert (viewOk k h dv s i) as Hok by (split_and!; done || lia). pose proof (live_wf _ _ _ Hh Hl) as Hs.
  assert (inSlice s (i + byteOffset dv) size = true) as Hsl by (apply (wfView_inSlice h); lia || done).
  set (bs := orderBytes (orderOf le) (Z.to_nat size) (rawOf k c)).
  assert (Z.of_nat (length bs) = size) as Hbs by (unfold bs; rewrite length_orderBytes; lia).
  set (h' := Heap (pokeMem (mem h) s (i + byteOffset dv) bs) (bufs h)). exists h'.
  split; [by apply viewSet_ok|]. rewrite <- Hbs in Hsl.
  destruct (wf_poke h s (i + byteOffset dv) bs Hh Hs Hsl ltac:(apply orderBytes_byte)) as [Hh' He].
  pose proof (sliceBytes_poke_eq _ _ _ _ Hs Hsl) as Hread. rewrite Hbs in Hread.
  assert (orderValue (orderOf le) bs = rawOf k c) as Hraw.
  { unfold bs. rewrite orderValue_orderBytes, Z2Nat.id by lia. apply uwrap_id. by apply rawOf_range. }
  split; [done|]. split; [done|]. split; [|split].
  - assert (viewOk k h' dv s i) as Hok' by (split_and!; done || lia). unfold idx. rewrite (viewGet_ok k h' dv s i le Hok' Hk).
    cbn [mem h']. fold size. rewrite Hread, Hraw. by rewrite read_rawOf.
  - intros a j Hab Hak Ha Hj Hoff Hord. rewrite (getIdx_live h' a s); [|done|exact Ha|unfold live; cbn; by rewrite Hab|done].
    do 3 f_equal. rewrite Hak. unfold rawAt, taElemSize, taOps. rewrite Hak. fold size. rewrite Hoff. cbn [mem h'].
    rewrite Hread, <- Hord, Hraw. by apply read_rawOf.
  - intros s' off n Ho Hn Hd. cbn [mem h']. apply sliceBytes_poke_ne; [|done|done|by rewrite Hbs].
    destruct Hs as (? & ? & ? & _). destruct Hv as (? & ? & _). lia.
Qed.
End props.
End TypedArrayProps.
