(* ===== verification/TypedArraySet.v ===== *)
(** * %TypedArray%.prototype.set with a typed array

    The source and the target may be windows of the same memory, of different
    element sizes.  The method copies in an order, up to a crossing point and down
    from the end or the other way round, that never overwrites a source element
    before it is read; [typedArray_set_overlap] shows that the result is that of
    reading the whole source first. *)

From S2P Require Import Prelude Float64 Numbers Arith FloatBits TypedArrays TypedArrayOps TypedArrayMem TypedArrayProps.
Import Float64 Numbers Arith FloatBits TypedArrays TypedArrayOps TypedArrayMem TypedArrayProps.
Open Scope Z_scope.

Module TypedArraySet.

Section set.
Context `{Machine}.

(** ** Writes to disjoint ranges commute *)

Lemma list_inserts_app_seq {A} (k1 k2 l : list A) i :
  list_inserts i (k1 ++ k2) l = list_inserts (i + length k1) k2 (list_inserts i k1 l).
Proof.
  apply list_eq. intros j. destruct (decide (j < length l)%nat) as [Hj|Hj].
  2: { rewrite !lookup_ge_None_2 by (rewrite ?length_inserts; lia). done. }
  destruct (decide (j < i)%nat); [by rewrite !list_lookup_inserts_lt by lia|].
  destruct (decide (j < i + length k1)%nat).
  { rewrite (list_lookup_inserts_lt _ (i + length k1)) by lia.
    rewrite !list_lookup_inserts by (rewrite ?length_app; lia). by rewrite lookup_app_l by lia. }
  destruct (decide (j < i + length k1 + length k2)%nat).
  { rewrite !list_lookup_inserts by (rewrite ?length_app, ?length_inserts; lia). rewrite lookup_app_r by lia. f_equal. lia. }
  by rewrite !list_lookup_inserts_ge by (rewrite ?length_app; lia).
Qed.

Lemma list_inserts_comm {A} (k1 k2 l : list A) i j : (i + length k1 ≤ j)%nat ∨ (j + length k2 ≤ i)%nat →
  list_inserts i k1 (list_inserts j k2 l) = list_inserts j k2 (list_inserts i k1 l).
Proof.
  intros Hd. apply list_eq. intros x. destruct (decide (x < length l)%nat) as [Hx|Hx].
  2: { rewrite !lookup_ge_None_2 by (rewrite !length_inserts; lia). done. }
  destruct (decide (i ≤ x < i + length k1)%nat) as [Hi|Hi].
  { rewrite list_lookup_inserts by (rewrite ?length_inserts; lia).
    destruct (decide (x < j)%nat); [rewrite list_lookup_inserts_lt by lia|rewrite list_lookup_inserts_ge by lia].
    all: by rewrite list_lookup_inserts by lia. }
  assert (∀ l' : list A, list_inserts i k1 l' !! x = l' !! x) as Hl.
  { intros l'. destruct (decide (x < i)%nat); [by apply list_lookup_inserts_lt|apply list_lookup_inserts_ge; lia]. }
  rewrite Hl. destruct (decide (j ≤ x < j + length k2)%nat) as [Hj|Hj].
  { by rewrite !list_lookup_inserts by (rewrite ?length_inserts; lia). }
  destruct (decide (x < j)%nat); [by rewrite !list_lookup_inserts_lt, Hl by lia|by rewrite !list_lookup_inserts_ge, Hl by lia].
Qed.

Lemma pokeMem_app m s off b1 b2 : 0 ≤ soff s + off →
  pokeMem m s off (b1 ++ b2) = pokeMem (pokeMem m s off b1) s (off + Z.of_nat (length b1)) b2.
Proof.
  intros Hs. apply list_eq. intros i. rewrite !lookup_pokeMem. destruct (decide (i = sblk s)); [|done].
  destruct (m !! i); cbn; [|done]. rewrite list_inserts_app_seq. do 2 f_equal. lia.
Qed.

Lemma pokeMem_nil m s off : pokeMem m s off [] = m.
Proof.
  apply list_eq. intros i. rewrite lookup_pokeMem. destruct (decide _); [|done]. by destruct (m !! i).
Qed.

Lemma storeMem_comm m s w i j x y : 0 < w → 0 ≤ soff s → 0 ≤ i → 0 ≤ j → i ≠ j →
  storeMem (storeMem m s w i x) s w j y = storeMem (storeMem m s w j y) s w i x.
Proof.
  intros Hw Hs Hi Hj Hij. unfold storeMem. apply list_eq. intros b. rewrite !lookup_pokeMem.
  destruct (decide (b = sblk s)); [|done]. destruct (m !! b); cbn; [|done]. f_equal. apply list_inserts_comm.
  rewrite !length_orderBytes. destruct (Z.lt_total i j) as [?|[?|?]]; [right|done|left]; nia.
Qed.

(** ** Copying elements in an order *)

Section copy.
Context (sd : goslice) (wd doff : Z) (ss : goslice) (ws soff' : Z) (f : Z → Z).

(** Each element read from the memory as it is then. *)
Definition copyMem (order : list Z) (m : memory) : memory :=
  foldl (λ m i, storeMem m sd wd (doff + i) (f (rawAt m ss ws (soff' + i)))) m order.
(** All elements read from a memory given beforehand. *)
Definition storeFrom (m0 : memory) (order : list Z) (m : memory) : memory :=
  foldl (λ m i, storeMem m sd wd (doff + i) (f (rawAt m0 ss ws (soff' + i)))) m order.

Hypotheses (Hwd : 0 < wd) (Hws : 0 < ws) (Hsd : 0 ≤ soff sd) (Hss : 0 ≤ soff ss) (Hd : 0 ≤ doff) (Hs : 0 ≤ soff').

Lemma storeFrom_ext m0 m1 order m :
  (∀ j, j ∈ order → rawAt m0 ss ws (soff' + j) = rawAt m1 ss ws (soff' + j)) → storeFrom m0 order m = storeFrom m1 order m.
Proof.
  revert m. induction order as [|i order IH]; intros m He; cbn; [done|].
  rewrite (He i) by set_solver. apply IH. set_solver.
Qed.

(** No write hits a source element that is still to be read. *)
Inductive safeOrder : list Z → Prop :=
  | safe_nil : safeOrder []
  | safe_cons i order : (∀ j, j ∈ order → disjointElems sd wd (doff + i) ss ws (soff' + j)) → safeOrder order →
      safeOrder (i :: order).

Lemma copyMem_safe order m : safeOrder order → Forall (λ i, 0 ≤ i) order → copyMem order m = storeFrom m order m.
Proof.
  intros Hso. revert m. induction Hso as [|i order Hi _ IH]; intros m Hpos; [done|]. inversion Hpos as [|? ? Hi0 Hrest]; subst.
  cbn. fold (storeFrom m). unfold copyMem in IH. rewrite IH by done. apply storeFrom_ext. intros j Hj.
  rewrite Forall_forall in Hrest. specialize (Hrest j Hj). apply rawAt_store_ne; [done..|lia|lia|by apply Hi].
Qed.

Lemma storeFrom_perm m0 o1 o2 m : Permutation o1 o2 → NoDup o1 → Forall (λ i, 0 ≤ i) o1 → storeFrom m0 o1 m = storeFrom m0 o2 m.
Proof.
  intros Hp. revert m. induction Hp as [|x l l' Hp IH|x y l|l l' l'' Hp1 IH1 Hp2 IH2]; intros m Hnd Hpos; [done| | |].
  - cbn. inversion Hnd; inversion Hpos; subst. by apply IH.
  - cbn. apply NoDup_cons in Hnd as [Hy _]. inversion Hpos as [|? ? ? Hpos']; inversion Hpos'; subst. f_equal.
    apply storeMem_comm; [done|done|lia|lia|]. intros E. apply Hy. apply elem_of_cons. left. lia.
  - rewrite IH1 by done. apply IH2; by rewrite <- Hp1.
Qed.
End copy.

(** ** The two loops *)

Section loops.
Context (dst src : typedArrayObject) (doff soff' : Z) (sd ss : goslice).
Let wd := taElemSize dst.
Let ws := taElemSize src.

(** The raw value a target element gets from a raw source element. *)
Definition transferRaw (x : Z) : Z := rawOf (defaultCtor dst) (readElem (defaultCtor src) x).

Definition copyOk (h : heap) (n : Z) : Prop :=
  isBig (defaultCtor dst) = isBig (defaultCtor src) ∧
  live h (viewedArrayBuf dst) sd ∧ live h (viewedArrayBuf src) ss ∧ wfSlice (mem h) sd ∧ wfSlice (mem h) ss ∧
  0 ≤ doff ∧ 0 ≤ soff' ∧ (doff + n) * wd ≤ slen sd ∧ (soff' + n) * ws ≤ slen ss.

Lemma wfSlice_store m s w i x s' : wfSlice m s' → wfSlice (storeMem m s w i x) s'.
Proof.
  intros (blk & Hb & ? & ? & ?). unfold storeMem.
  exists (if decide (sblk s' = sblk s) then list_inserts (Z.to_nat (soff s + i * w)) (orderBytes nativeEndian (Z.to_nat w) x) blk else blk).
  rewrite lookup_pokeMem, Hb. destruct (decide _); [rewrite length_inserts|]; done.
Qed.

Lemma copyOk_store h n i x : copyOk h n → copyOk (Heap (storeMem (mem h) sd wd i x) (bufs h)) n.
Proof. intros (? & ? & ? & ? & ? & ?). split_and!; try tauto; by apply wfSlice_store. Qed.

Lemma copyOk_copyMem h n order :
  copyOk h n → copyOk (Heap (copyMem sd wd doff ss ws soff' transferRaw order (mem h)) (bufs h)) n.
Proof.
  revert h. induction order as [|i order IH]; intros h Hok; [by destruct h|].
  exact (IH (Heap _ (bufs h)) (copyOk_store h n _ _ Hok)).
Qed.

Lemma copyStep h n i : copyOk h n → 0 ≤ i < n →
  (v ← taGet src (soff' + i); taSet dst (doff + i) (ofNumeric v)) h =
  (Ret (), Heap (storeMem (mem h) sd wd (doff + i) (transferRaw (rawAt (mem h) ss ws (soff' + i)))) (bufs h)).
Proof.
  intros (Hb & Hl & Hl' & Hs & Hs' & Hd & Hso & Hlen & Hlen') Hi.
  pose proof (elemSize_pos (defaultCtor dst)). pose proof (elemSize_pos (defaultCtor src)).
  assert (inBounds ss (taElemSize src) (soff' + i)) as Hbs by (unfold ws, taElemSize, taOps in *; split; nia).
  assert (inBounds sd (taElemSize dst) (doff + i)) as Hbd by (unfold wd, taElemSize, taOps in *; split; nia).
  unfold mbind, M_bind. rewrite (taGet_ok h src ss) by done. cbv iota beta.
  rewrite (taSet_ok h dst sd) by (done || by apply readElem_content). done.
Qed.

Lemma copyUp_ok h N start n : copyOk h N → 0 ≤ start → start + Z.of_nat n ≤ N →
  copyUp dst doff src soff' start n h =
  (Ret (), Heap (copyMem sd wd doff ss ws soff' transferRaw (seqZ start (Z.of_nat n)) (mem h)) (bufs h)).
Proof.
  revert h start. induction n as [|n IH]; intros h start Hok Hst Hn; [destruct h; by rewrite seqZ_nil by lia|].
  rewrite seqZ_cons by lia. cbn [copyUp]. unfold copyMem. cbn [foldl]. pose proof (copyStep h N start Hok ltac:(lia)) as Hstep.
  unfold mbind, M_bind in *. destruct (taGet src (soff' + start) h) as [[v|e|] h1]; [|done|done].
  rewrite Hstep. set (h2 := Heap _ _). change (bufs h) with (bufs h2).
  rewrite (IH h2) by (try lia; by apply copyOk_store). replace (start + 1) with (Z.succ start) by lia.
  by replace (Z.pred (Z.of_nat (S n))) with (Z.of_nat n) by lia.
Qed.

Lemma copyDown_ok h N start n : copyOk h N → 0 ≤ start → start + Z.of_nat n ≤ N →
  copyDown dst doff src soff' start n h =
  (Ret (), Heap (copyMem sd wd doff ss ws soff' transferRaw (reverse (seqZ start (Z.of_nat n))) (mem h)) (bufs h)).
Proof.
  revert h. induction n as [|n IH]; intros h Hok Hst Hn; [destruct h; by rewrite seqZ_nil by lia|].
  rewrite seqZ_S, reverse_app, reverse_singleton. cbn [copyDown app]. unfold copyMem. cbn [foldl]. pose proof (copyStep h N (start + Z.of_nat n) Hok ltac:(lia)) as Hstep.
  unfold mbind, M_bind in *. rewrite !Z.add_assoc in Hstep.
  destruct (taGet src (soff' + start + Z.of_nat n) h) as [[v|e|] h1]; [|done|done].
  rewrite Hstep. set (h2 := Heap _ _). rewrite (IH h2) by (try lia; by apply copyOk_store).
  unfold h2. cbn [mem bufs]. by rewrite !Z.add_assoc.
Qed.
End loops.

(** ** The order is safe *)

Section order.
Context (sd : goslice) (wd doff : Z) (ss : goslice) (ws soff' : Z) (n : Z).
Abbreviation dpos := (soff sd + doff * wd).
Abbreviation spos := (soff ss + soff' * ws).
Abbreviation safe := (safeOrder sd wd doff ss ws soff').

(** Target element [i] and source element [j] do not overlap. *)
Definition apart (i j : Z) : Prop :=
  sblk sd ≠ sblk ss ∨ dpos + (i + 1) * wd ≤ spos + j * ws ∨ spos + (j + 1) * ws ≤ dpos + i * wd.

Lemma apart_disjoint i j : apart i j → disjointElems sd wd (doff + i) ss ws (soff' + j).
Proof. intros [?|[?|?]]; [by left|right; left|right; right]; lia. Qed.

Lemma safe_up a len : (∀ i j, a ≤ i → i < j → j < a + len → apart i j) → safe (seqZ a len).
Proof.
  destruct (Z.nonpos_pos_cases len) as [?|Hlen]; [intros _; rewrite seqZ_nil by lia; constructor|].
  rewrite <- (Z2Nat.id len) by lia. generalize (Z.to_nat len). clear Hlen len. intros len. revert a.
  induction len as [|len IH]; intros a Ha; [constructor|]. rewrite seqZ_cons by lia. constructor.
  - intros j Hj%elem_of_seqZ. apply apart_disjoint, Ha; lia.
  - replace (Z.pred (Z.of_nat (S len))) with (Z.of_nat len) by lia. apply IH. intros i j ???. apply Ha; lia.
Qed.

Lemma safe_app o1 o2 : safe o1 → safe o2 → (∀ i j, i ∈ o1 → j ∈ o2 → apart i j) → safe (o1 ++ o2).
Proof.
  intros H1 H2 H3. induction H1 as [|i o1 Hi Ho IH]; [done|]. cbn. constructor.
  - intros j [Hj|Hj]%elem_of_app; [auto|]. apply apart_disjoint, H3; [apply elem_of_cons; by left|done].
  - apply IH. intros i' j Hi' Hj. apply H3; [apply elem_of_cons; by right|done].
Qed.

Lemma safe_down a len : (∀ i j, a ≤ j → j < i → i < a + len → apart i j) → safe (reverse (seqZ a len)).
Proof.
  destruct (Z.nonpos_pos_cases len) as [?|Hlen]; [intros _; rewrite seqZ_nil by lia; constructor|].
  rewrite <- (Z2Nat.id len) by lia. generalize (Z.to_nat len). clear Hlen len. intros len.
  induction len as [|len IH]; intros Ha; [constructor|]. rewrite seqZ_S, reverse_app, reverse_singleton. cbn. constructor.
  - intros j Hj%elem_of_reverse%elem_of_seqZ. apply apart_disjoint, Ha; lia.
  - apply IH. intros i j ???. apply Ha; lia.
Qed.

Hypotheses (Hwd : 0 < wd) (Hws : 0 < ws).

(** Equal sizes. *)
Lemma safe_equal : wd = ws → sblk sd ≠ sblk ss ∨ dpos ≤ spos ∨ spos + n * ws ≤ dpos → safe (seqZ 0 n).
Proof.
  intros Hw Hc. apply safe_up. intros i j ???. destruct Hc as [?|[?|?]]; [by left|right; left; nia|right; right; nia].
Qed.
Lemma safe_equal_down : wd = ws → sblk sd ≠ sblk ss ∨ spos < dpos → safe (reverse (seqZ 0 n)).
Proof. intros Hw Hc. apply safe_down. intros i j ???. destruct Hc as [?|?]; [by left|right; right; nia]. Qed.

(** Different sizes, with the crossing point [x]. *)
Definition crossing (x : Z) : Prop :=
  0 ≤ x ≤ n ∧ (sblk sd ≠ sblk ss ∨
    (if wd <? ws then (x < n → dpos - spos < (x + 1) * (ws - wd)) ∧ (0 < x → x * (ws - wd) ≤ dpos - spos)
     else (x < n → spos - dpos < (x + 1) * (wd - ws)) ∧ (0 < x → x * (wd - ws) ≤ spos - dpos))).

Lemma safe_shrink x : wd < ws → crossing x → safe (seqZ x (n - x) ++ reverse (seqZ 0 x)).
Proof.
  intros Hw [Hx Hc]. rewrite (proj2 (Z.ltb_lt wd ws) Hw) in Hc. apply safe_app.
  - apply safe_up. intros i j ???. destruct Hc as [?|[Hc _]]; [by left|]. right. left. specialize (Hc ltac:(lia)). nia.
  - apply safe_down. intros i j ???. destruct Hc as [?|[_ Hc]]; [by left|]. right. right. specialize (Hc ltac:(lia)). nia.
  - intros i j Hi%elem_of_seqZ Hj%elem_of_reverse%elem_of_seqZ. destruct Hc as [?|[_ Hc]]; [by left|].
    right. right. specialize (Hc ltac:(lia)). nia.
Qed.

Lemma safe_grow x : ws < wd → crossing x → safe (seqZ 0 x ++ reverse (seqZ x (n - x))).
Proof.
  intros Hw [Hx Hc]. rewrite (proj2 (Z.ltb_ge wd ws)) in Hc by lia. apply safe_app.
  - apply safe_up. intros i j ???. destruct Hc as [?|[_ Hc]]; [by left|]. right. left. specialize (Hc ltac:(lia)). nia.
  - apply safe_down. intros i j ???. destruct Hc as [?|[Hc _]]; [by left|]. right. right. specialize (Hc ltac:(lia)). nia.
  - intros i j Hi%elem_of_seqZ Hj%elem_of_reverse%elem_of_seqZ. destruct Hc as [?|[_ Hc]]; [by left|].
    right. left. specialize (Hc ltac:(lia)). nia.
Qed.

(** The code computes the crossing point. *)
Lemma crossing_quot diff : 0 ≤ n → wd ≠ ws → (sblk sd = sblk ss → diff = dpos - spos) →
  let x := Z.quot diff (ws - wd) in crossing (if x <? 0 then 0 else if n <? x then n else x).
Proof.
  intros Hn Hne Hdiff x. split; [destruct (Z.ltb_spec x 0); [lia|]; destruct (Z.ltb_spec n x); lia|].
  destruct (decide (sblk sd = sblk ss)) as [E|]; [|by left]. right. specialize (Hdiff E). unfold x. clear x.
  pose proof (Z.quot_rem diff (ws - wd) ltac:(lia)) as Hqr. set (x := Z.quot diff (ws - wd)) in *.
  assert (Z.abs (Z.rem diff (ws - wd)) < Z.abs (ws - wd)) as Hr by (apply Z.rem_bound_abs; lia).
  assert (0 ≤ Z.rem diff (ws - wd) ∨ diff < 0) as Hs1.
  { destruct (Z.neg_nonneg_cases diff); [by right|left]. by apply Z.rem_nonneg; lia. }
  assert (Z.rem diff (ws - wd) ≤ 0 ∨ 0 < diff) as Hs2.
  { destruct (Z.nonpos_pos_cases diff); [left|by right]. by apply Z.rem_nonpos; lia. }
  set (r := Z.rem diff (ws - wd)) in *. rewrite Hdiff in *.
  destruct (Z.ltb_spec wd ws); destruct (Z.ltb_spec x 0); try destruct (Z.ltb_spec n x); nia.
Qed.

Lemma perm_shrink x : 0 ≤ x ≤ n → seqZ x (n - x) ++ reverse (seqZ 0 x) ≡ₚ seqZ 0 n.
Proof.
  intros Hx. rewrite reverse_Permutation, Permutation_app_comm.
  replace (seqZ 0 n) with (seqZ 0 (x + (n - x))) by (f_equal; lia). by rewrite seqZ_app by lia.
Qed.
Lemma perm_grow x : 0 ≤ x ≤ n → seqZ 0 x ++ reverse (seqZ x (n - x)) ≡ₚ seqZ 0 n.
Proof.
  intros Hx. rewrite reverse_Permutation.
  replace (seqZ 0 n) with (seqZ 0 (x + (n - x))) by (f_equal; lia). by rewrite seqZ_app by lia.
Qed.
End order.

(** ** Storing a list of raw values *)

Fixpoint storeAll (m : memory) (s : goslice) (w idx : Z) (vals : list Z) : memory :=
  match vals with [] => m | x :: vals => storeAll (storeMem m s w idx x) s w (idx + 1) vals end.

(** The raw elements [start .. start+n) of a slice. *)
Definition rawElems (m : memory) (s : goslice) (w start n : Z) : list Z := (λ i, rawAt m s w (start + i)) <$> seqZ 0 n.

Lemma rawElems_cons m s w start n : 0 < n →
  rawElems m s w start n = rawAt m s w start :: rawElems m s w (start + 1) (n - 1).
Proof.
  intros Hn. unfold rawElems. rewrite seqZ_cons by lia. cbn. rewrite Z.add_0_r. f_equal.
  rewrite <- (fmap_add_seqZ 1 0), <- list_fmap_compose. replace (Z.pred n) with (n - 1) by lia.
  apply list_fmap_ext. intros i x _. cbn. f_equal. lia.
Qed.

Lemma storeFrom_storeAll sd wd doff ss ws soff' f m0 n : 0 ≤ n → ∀ a m,
  storeFrom sd wd doff ss ws soff' f m0 (seqZ a n) m = storeAll m sd wd (doff + a) (f <$> rawElems m0 ss ws (soff' + a) n).
Proof.
  intros Hn. rewrite <- (Z2Nat.id n) by lia. generalize (Z.to_nat n). clear n Hn. intros n.
  induction n as [|n IH]; intros a m; [done|]. rewrite seqZ_cons, rawElems_cons by lia. unfold storeFrom in *. cbn [foldl fmap list_fmap storeAll].
  replace (Z.of_nat (S n) - 1) with (Z.of_nat n) by lia. replace (Z.pred (Z.of_nat (S n))) with (Z.of_nat n) by lia.
  rewrite IH. f_equal; [lia|]. by replace (soff' + Z.succ a) with (soff' + a + 1) by lia.
Qed.

(** A block of bytes is the bytes of its elements. *)
Lemma sliceBytes_split m s off n1 n2 : 0 ≤ soff s + off → 0 ≤ n1 → 0 ≤ n2 →
  sliceBytes m s off (n1 + n2) = sliceBytes m s off n1 ++ sliceBytes m s (off + n1) n2.
Proof.
  intros ???. unfold sliceBytes. destruct (m !! sblk s) as [blk|]; [|done].
  rewrite Z2Nat.inj_add by lia. rewrite <- (take_take_drop _ (Z.to_nat n1)), drop_drop. do 3 f_equal. lia.
Qed.

Lemma poke_elements m0 ss ws sidx m sd didx n : Forall (Forall byte) m0 → wfSlice m0 ss → 0 < ws →
  0 ≤ soff sd → 0 ≤ sidx → 0 ≤ didx → 0 ≤ n → (sidx + n) * ws ≤ slen ss →
  pokeMem m sd (didx * ws) (sliceBytes m0 ss (sidx * ws) (n * ws)) = storeAll m sd ws didx (rawElems m0 ss ws sidx n).
Proof.
  intros Hby Hs Hw Hsd Hsi Hdi Hn. revert sidx didx m Hsi Hdi.
  rewrite <- (Z2Nat.id n) by lia. generalize (Z.to_nat n). clear n Hn. intros n.
  induction n as [|n IH]; intros sidx didx m Hsi Hdi Hlen.
  - change (Z.of_nat 0 * ws) with 0. unfold rawElems. rewrite seqZ_nil by lia. cbn [fmap list_fmap storeAll].
    assert (sliceBytes m0 ss (sidx * ws) 0 = []) as -> by (unfold sliceBytes; by destruct (m0 !! sblk ss)). apply pokeMem_nil.
  - rewrite rawElems_cons by lia. cbn [storeAll]. replace (Z.of_nat (S n) - 1) with (Z.of_nat n) by lia.
    assert (inSlice ss (sidx * ws) ws = true) as Hin by (apply inSlice_spec; nia).
    replace (Z.of_nat (S n) * ws) with (ws + Z.of_nat n * ws) by nia.
    assert (0 ≤ soff ss) as Hso by (destruct Hs as (? & _ & ? & _); done). rewrite sliceBytes_split by nia.
    rewrite pokeMem_app by nia. pose proof (length_sliceBytes m0 ss (sidx * ws) ws Hs Hin) as Hl. rewrite Hl.
    replace (sidx * ws + ws) with ((sidx + 1) * ws) by lia. replace (didx * ws + ws) with ((didx + 1) * ws) by lia.
    rewrite <- IH by nia. f_equal. unfold storeMem, rawAt. f_equal.
    replace (Z.to_nat ws) with (length (sliceBytes m0 ss (sidx * ws) ws)) by lia.
    rewrite orderBytes_orderValue; [done|by apply sliceBytes_byte].
Qed.

(** ** The method *)

Section method.
Context (ta src : typedArrayObject) (sd ss : goslice) (h : heap) (off : Z).
Hypotheses (Hh : wfHeap h) (Hta : wfTA h ta) (Hsrc : wfTA h src)
  (Hld : live h (viewedArrayBuf ta) sd) (Hls : live h (viewedArrayBuf src) ss)
  (Hoff : 0 ≤ off) (Hfit : ta_length src + off ≤ ta_length ta).

Let wd := taElemSize ta.
Let ws := taElemSize src.
Let n := ta_length src.

(** What the element of the source becomes in the target: the same bits for the
    same type, the converted value otherwise. *)
Definition convertRaw (x : Z) : Z :=
  if decide (defaultCtor src = defaultCtor ta) then x else transferRaw ta src x.

Lemma method_bounds : 0 < wd ∧ 0 < ws ∧ wfSlice (mem h) sd ∧ wfSlice (mem h) ss ∧ 0 ≤ ta_offset ta ∧ 0 ≤ ta_offset src ∧ 0 ≤ n ∧
  (ta_offset ta + off + n) * wd ≤ slen sd ∧ (ta_offset src + n) * ws ≤ slen ss.
Proof.
  pose proof (elemSize_pos (defaultCtor ta)) as Hp. pose proof (elemSize_pos (defaultCtor src)) as Hp'.
  destruct Hta as (? & ? & o & Hb & Hlen), Hsrc as (? & ? & o' & Hb' & Hlen'). unfold live in *.
  rewrite Hld in Hb. rewrite Hls in Hb'. injection Hb as <-. injection Hb' as <-.
  specialize (Hlen eq_refl). specialize (Hlen' eq_refl). cbn in Hlen, Hlen'. unfold wd, ws, n, taElemSize, taOps in *.
  split_and!; try done; [by apply (live_wf _ _ _ Hh Hld)|by apply (live_wf _ _ _ Hh Hls)|nia].
Qed.

Lemma copyOk_method : isBig (defaultCtor ta) = isBig (defaultCtor src) →
  copyOk ta src (ta_offset ta + off) (ta_offset src) sd ss h n.
Proof.
  intros Hb. destruct method_bounds as (_ & _ & ? & ? & ? & ? & ? & ? & ?). split_and!; try done. lia.
Qed.

(** The loops, in a safe order, store what was in memory before. *)
Lemma loops_result order : isBig (defaultCtor ta) = isBig (defaultCtor src) → order ≡ₚ seqZ 0 n →
  safeOrder sd wd (ta_offset ta + off) ss ws (ta_offset src) order →
  copyMem sd wd (ta_offset ta + off) ss ws (ta_offset src) (transferRaw ta src) order (mem h) =
  storeAll (mem h) sd wd (ta_offset ta + off) (transferRaw ta src <$> rawElems (mem h) ss ws (ta_offset src) n).
Proof.
  intros Hb Hp Hso. destruct method_bounds as (Hwd & Hws & Hsd & Hss & ? & ? & Hn & _).
  assert (0 ≤ soff sd) by (destruct Hsd as (? & _ & ? & _); done).
  assert (0 ≤ soff ss) by (destruct Hss as (? & _ & ? & _); done).
  assert (Forall (λ i, 0 ≤ i) order) as Hpos.
  { rewrite Hp. apply Forall_forall. intros i Hi%elem_of_seqZ. lia. }
  rewrite copyMem_safe by (done || lia). erewrite storeFrom_perm; [|lia..|exact Hp|rewrite Hp; apply NoDup_seqZ|done].
  rewrite storeFrom_storeAll by done. by rewrite !Z.add_0_r.
Qed.

Lemma addressOf_ok d o : 0 ≤ o < slen d → addressOf (Some d) o h = (Ret (addrOf (sblk d) + soff d + o), h).
Proof. intros Ho. unfold addressOf. by rewrite (proj2 (Z.leb_le 0 o)), (proj2 (Z.ltb_lt o _)) by lia. Qed.

Lemma copySlice_elements : defaultCtor src = defaultCtor ta →
  copySlice (Some sd) ((ta_offset ta + off) * wd) (Some ss) (ta_offset src * ws) (n * ws) h =
  (Ret (), Heap (storeAll (mem h) sd wd (ta_offset ta + off) (rawElems (mem h) ss ws (ta_offset src) n)) (bufs h)).
Proof.
  intros Hk. destruct method_bounds as (Hwd & Hws & Hsd & Hss & Hod & Hos & Hn & Hlen & Hlen').
  assert (ws = wd) as Ew by (unfold wd, ws, taElemSize, taOps; by rewrite Hk).
  unfold copySlice. cbn [lenData]. rewrite (proj2 (Z.ltb_ge (slen sd) _)), (proj2 (Z.ltb_ge (slen ss) _)) by nia. cbn [orb].
  rewrite Z.min_r by nia. destruct (Z.eqb_spec (n * ws) 0) as [E|E].
  { assert (n = 0) as -> by nia. by destruct h. }
  assert (inSlice ss (ta_offset src * ws) (n * ws) = true) as Hin by (apply inSlice_spec; nia).
  unfold mbind, M_bind. rewrite peekBytes_ok by done. rewrite pokeBytes_ok.
  2: { rewrite length_sliceBytes by done. apply inSlice_spec. nia. }
  rewrite <- Ew. rewrite poke_elements; [done|by apply wf_bytes|done|done|by destruct Hsd as (? & _ & ? & _)|lia..|nia].
Qed.

(** Different types: the loops. *)
Lemma setFromTyped_loops : defaultCtor src ≠ defaultCtor ta → isBig (defaultCtor ta) = isBig (defaultCtor src) →
  setFromTyped ta src off h =
  (Ret (), Heap (storeAll (mem h) sd wd (ta_offset ta + off) (transferRaw ta src <$> rawElems (mem h) ss ws (ta_offset src) n)) (bufs h)).
Proof.
  intros Hk Hb. destruct method_bounds as (Hwd & Hws & Hsd & Hss & Hod & Hos & Hn & Hlen & Hlen').
  pose proof (copyOk_method Hb) as Hok. unfold setFromTyped. fold n wd ws. rewrite decide_False by done.
  unfold mbind, M_bind. unfold checkTypedArrayMixBigInt. rewrite Hb, andb_negb_r. cbn [mret M_ret].
  destruct (Z.eqb_spec n 0) as [->|Hn0]; [by destruct h|].
  rewrite (taData_live _ _ _ Hls), (taData_live _ _ _ Hld), !addressOf_ok by nia.
  set (curSrc := addrOf (sblk ss) + soff ss + _). set (curDst := addrOf (sblk sd) + soff sd + _).
  assert (∀ (order : list Z), order ≡ₚ seqZ 0 n → safeOrder sd wd (ta_offset ta + off) ss ws (ta_offset src) order →
    (Ret (), Heap (copyMem sd wd (ta_offset ta + off) ss ws (ta_offset src) (transferRaw ta src) order (mem h)) (bufs h)) =
    (Ret (), Heap (storeAll (mem h) sd wd (ta_offset ta + off) (transferRaw ta src <$> rawElems (mem h) ss ws (ta_offset src) n)) (bufs h)))
    as Hres by (intros order ??; by rewrite loops_result).
  assert (sblk sd = sblk ss → curDst - curSrc = soff sd + (ta_offset ta + off) * wd - (soff ss + ta_offset src * ws)) as Hdiff.
  { intros E. unfold curDst, curSrc. rewrite E. lia. }
  destruct (Z.eqb_spec wd ws) as [Ew|Ew].
  - destruct ((curDst <=? curSrc) || (curSrc + n * ws <=? curDst)) eqn:Eo.
    + rewrite (copyUp_ok _ _ _ _ sd ss _ n) by (done || lia). rewrite Z2Nat.id by done. apply Hres; [done|].
      apply safe_equal; [done|done|]. destruct (decide (sblk sd = sblk ss)) as [E|]; [right|by left].
      specialize (Hdiff E). apply orb_true_iff in Eo as [Eo%Z.leb_le|Eo%Z.leb_le]; lia.
    + rewrite (copyDown_ok _ _ _ _ sd ss _ n) by (done || lia). rewrite Z2Nat.id by done.
      apply Hres; [apply reverse_Permutation|]. apply safe_equal_down; [done|done|].
      destruct (decide (sblk sd = sblk ss)) as [E|]; [right|by left]. specialize (Hdiff E).
      apply orb_false_iff in Eo as [Eo%Z.leb_gt _]. lia.
  - set (diff := swrap 64 (curDst - curSrc)).
    assert (sblk sd = sblk ss → diff = soff sd + (ta_offset ta + off) * wd - (soff ss + ta_offset src * ws)) as Hdiff'.
    { intros E. unfold diff. rewrite Hdiff by done. apply swrap_id; [lia|]. destruct Hsd as (? & ? & ? & ? & ?), Hss as (? & ? & ? & ? & ?).
      change (2 ^ (64 - 1)) with (2 ^ 63). nia. }
    pose proof (crossing_quot sd wd (ta_offset ta + off) ss ws (ta_offset src) n Hwd Hws diff Hn Ew Hdiff') as Hx. cbv zeta in Hx.
    set (x := if _ <? 0 then 0 else _) in *. destruct (Z.ltb_spec wd ws) as [Hlt|Hge].
    + rewrite (copyUp_ok _ _ _ _ sd ss _ n) by (try done; destruct Hx; lia).
      rewrite (copyDown_ok _ _ _ _ sd ss _ n) by (try (by apply copyOk_copyMem); destruct Hx; lia).
      rewrite !Z2Nat.id by (destruct Hx; lia). cbn [mem bufs]. unfold copyMem. rewrite <- foldl_app. fold copyMem.
      apply (Hres (seqZ x (n - x) ++ reverse (seqZ 0 x))); [apply perm_shrink, Hx|by apply safe_shrink].
    + rewrite (copyUp_ok _ _ _ _ sd ss _ n) by (try done; destruct Hx; lia).
      rewrite (copyDown_ok _ _ _ _ sd ss _ n) by (try (by apply copyOk_copyMem); destruct Hx; lia).
      rewrite !Z2Nat.id by (destruct Hx; lia). cbn [mem bufs]. unfold copyMem. rewrite <- foldl_app. fold copyMem.
      apply (Hres (seqZ 0 x ++ reverse (seqZ x (n - x)))); [apply perm_grow, Hx|apply safe_grow; [done|done|lia|done]].
Qed.

(** A number source and a BigInt target: the first store throws. *)
Definition numberToBigInt : exn := TypeError "Cannot convert a Number to a BigInt".

Lemma step_mixed i (k : heap → outcome unit * heap) : isBig (defaultCtor ta) = true → isBig (defaultCtor src) = false →
  0 ≤ i < n →
  (v ← taGet src (ta_offset src + i); taSet ta (ta_offset ta + off + i) (ofNumeric v) ;; k) h = (Raise numberToBigInt, h).
Proof.
  intros Hb Hb' Hi. destruct method_bounds as (Hwd & Hws & Hsd & Hss & Hod & Hos & Hn & Hlen & Hlen').
  unfold mbind, M_bind. rewrite (taGet_ok h src ss) by (done || split; fold ws; nia). cbv iota beta.
  assert (∃ x, readElem (defaultCtor src) (rawAt (mem h) ss (taElemSize src) (ta_offset src + i)) = NNum x) as (x & ->).
  { destruct (defaultCtor src); try done; cbn; eauto. }
  assert (taSet ta (ta_offset ta + off + i) (ofNumeric (NNum x)) h = (Raise numberToBigInt, h)) as ->; [|done].
  unfold taSet, mbind, M_bind. rewrite (taData_live _ _ _ Hld), law_set. unfold mbind, M_bind, convElem. by rewrite Hb.
Qed.

Lemma setFromTyped_mixed : isBig (defaultCtor ta) ≠ isBig (defaultCtor src) →
  setFromTyped ta src off h =
  if isBig (defaultCtor src) then (Raise errMixBigIntType, h)
  else if n =? 0 then (Ret (), h) else (Raise numberToBigInt, h).
Proof.
  intros Hb. destruct method_bounds as (Hwd & Hws & Hsd & Hss & Hod & Hos & Hn & Hlen & Hlen').
  unfold setFromTyped. fold n wd ws. rewrite decide_False by congruence. unfold checkTypedArrayMixBigInt.
  destruct (isBig (defaultCtor src)) eqn:Es; [by destruct (isBig (defaultCtor ta))|]. cbn [andb]. unfold mbind, M_bind. cbn [mret M_ret].
  destruct (Z.eqb_spec n 0) as [->|Hn0]; [done|]. destruct (isBig (defaultCtor ta)) eqn:Et; [|done].
  rewrite (taData_live _ _ _ Hls), (taData_live _ _ _ Hld), !addressOf_ok by nia.
  assert (∀ a k, 0 ≤ a → a + Z.of_nat (S k) ≤ n → copyUp ta (ta_offset ta + off) src (ta_offset src) a (S k) h = (Raise numberToBigInt, h)) as Hup.
  { intros a k Ha Hk. cbn [copyUp]. apply step_mixed; [done|done|lia]. }
  assert (∀ a k, 0 ≤ a → a + Z.of_nat (S k) ≤ n → copyDown ta (ta_offset ta + off) src (ta_offset src) a (S k) h = (Raise numberToBigInt, h)) as Hdown.
  { intros a k Ha Hk. cbn [copyDown]. rewrite <- (Z.add_assoc (ta_offset src)), <- (Z.add_assoc (ta_offset ta + off)).
    apply step_mixed; [done|done|lia]. }
  destruct (Z.to_nat n) as [|n'] eqn:En; [lia|].
  destruct (wd =? ws); [destruct (_ || _); [apply Hup|apply Hdown]; lia|].
  set (x := if _ <? 0 then 0 else _). assert (0 ≤ x ≤ n) as Hx.
  { unfold x. destruct (Z.ltb_spec (swrap 64 (addrOf (sblk sd) + soff sd + (ta_offset ta + off) * wd -
      (addrOf (sblk ss) + soff ss + ta_offset src * ws)) ÷ (ws - wd)) 0); [lia|]. destruct (Z.ltb_spec n
      (swrap 64 (addrOf (sblk sd) + soff sd + (ta_offset ta + off) * wd - (addrOf (sblk ss) + soff ss + ta_offset src * ws)) ÷ (ws - wd))); lia. }
  destruct (wd <? ws).
  - destruct (Z.to_nat (n - x)) as [|y] eqn:Ey; [|by rewrite Hup by lia]. cbn [copyUp mret M_ret].
    destruct (Z.to_nat x) as [|y'] eqn:Ey'; [lia|]. apply Hdown; lia.
  - destruct (Z.to_nat x) as [|y] eqn:Ey; [|by rewrite Hup by lia]. cbn [copyUp mret M_ret].
    destruct (Z.to_nat (n - x)) as [|y'] eqn:Ey'; [lia|]. apply Hdown; lia.
Qed.

Lemma setFromTyped_ok : isBig (defaultCtor ta) = isBig (defaultCtor src) →
  setFromTyped ta src off h =
  (Ret (), Heap (storeAll (mem h) sd wd (ta_offset ta + off) (convertRaw <$> rawElems (mem h) ss ws (ta_offset src) n)) (bufs h)).
Proof.
  intros Hb. unfold convertRaw. destruct (decide (defaultCtor src = defaultCtor ta)) as [Hk|Hk]; [|by apply setFromTyped_loops].
  unfold setFromTyped. rewrite decide_True by done. unfold mbind, M_bind.
  rewrite (taData_live _ _ _ Hld), (taData_live _ _ _ Hls), list_fmap_id. by apply copySlice_elements.
Qed.
End method.

(** C16: %TypedArray%.prototype.set with a typed array source on live buffers, at any
    integer offset: the source and the target may overlap in any way and have any
    two element types.  The result is as if all elements of the source had been
    read before the first is written (their bits for equal types, the converted
    values otherwise); if the source does not fit, also when the sum overflows, it
    throws a RangeError, and mixing numbers and BigInts throws, without a change. *)
Theorem typedArray_set_overlap (h : heap) (ta src : typedArrayObject) (sd ss : goslice) (off : Z) :
  wfHeap h → wfTA h ta → wfTA h src → live h (viewedArrayBuf ta) sd → live h (viewedArrayBuf src) ss → off ≤ MaxInt64 →
  typedArrayProto_set ta (SetTyped src) (VNum (valueInt off)) h =
  if off <? 0 then (Raise (RangeError "offset should be >= 0"), h)
  else if ta_length ta <? ta_length src + off then (Raise (RangeError "Source is too large"), h)
  else if eqb (isBig (defaultCtor ta)) (isBig (defaultCtor src)) then
    (Ret (), Heap (storeAll (mem h) sd (taElemSize ta) (ta_offset ta + off)
                     (convertRaw ta src <$> rawElems (mem h) ss (taElemSize src) (ta_offset src) (ta_length src))) (bufs h))
  else if isBig (defaultCtor src) then (Raise errMixBigIntType, h)
  else if ta_length src =? 0 then (Ret (), h) else (Raise numberToBigInt, h).
Proof.
  intros Hh Hta Hsrc Hld Hls Hoff. unfold typedArrayProto_set, VToInteger, mbind, M_bind. cbn [ToNumber mret M_ret ToInteger].
  destruct (Z.ltb_spec off 0) as [Hneg|Hpos]; [done|].
  rewrite (ensureNotDetached_live _ _ _ Hld), (ensureNotDetached_live _ _ _ Hls).
  assert (0 ≤ ta_length src < 2 ^ 63 ∧ ta_length ta < 2 ^ 63) as [Hn Hn'].
  { assert (∀ a s, wfTA h a → live h (viewedArrayBuf a) s → 0 ≤ ta_length a < 2 ^ 63) as Hl; [|split; [by apply (Hl _ ss)|by apply (Hl _ sd)]].
    intros a s (? & ? & o & Hb & Hlen) Hl. pose proof (live_wf _ _ _ Hh Hl) as (? & ? & ? & ? & ?).
    unfold live in Hl. rewrite Hl in Hb. injection Hb as <-. specialize (Hlen eq_refl). cbn in Hlen.
    pose proof (elemSize_pos (defaultCtor a)). unfold taElemSize, taOps in *. nia. }
  assert (((swrap 64 (ta_length src + off) <? 0) || (ta_length ta <? swrap 64 (ta_length src + off))) =
    (ta_length ta <? ta_length src + off)) as ->.
  { unfold MaxInt64 in *. destruct (Z.lt_ge_cases (ta_length src + off) (2 ^ 63)) as [Hlt|Hge].
    - rewrite swrap_id by (change (2 ^ (64 - 1)) with (2 ^ 63); lia). by rewrite (proj2 (Z.ltb_ge _ 0)) by lia.
    - rewrite (proj2 (Z.ltb_lt (ta_length ta) (_ + _))) by lia. apply orb_true_iff. left. apply Z.ltb_lt.
      unfold swrap. replace (ta_length src + off + 2 ^ (64 - 1)) with ((ta_length src + off - 2 ^ 63) + 1 * 2 ^ 64) by lia.
      rewrite Z.mod_add, Z.mod_small by lia. lia. }
  destruct (Z.ltb_spec (ta_length ta) (ta_length src + off)) as [Hbig|Hfit]; [done|].
  destruct (eqb (isBig (defaultCtor ta)) (isBig (defaultCtor src))) eqn:Eb.
  - apply eqb_prop in Eb. by apply (setFromTyped_ok ta src sd ss h off).
  - apply eqb_false_iff in Eb. by apply (setFromTyped_mixed ta src sd ss h off).
Qed.
End set.
End TypedArraySet.
