(* ===== verification/TypedArraySearch.v ===== *)
(** * Searching typed arrays

    indexOf, lastIndexOf and includes convert the search value to the element type
    once and compare raw elements.  [typedArray_search] shows that they find what a
    comparison of every element value with the search value finds. *)

From S2P Require Import Prelude Float64 Numbers Arith FloatBits TypedArrays TypedArrayOps TypedArrayMem TypedArrayProps TypedArraySet.
Import Float64 Numbers Arith FloatBits TypedArrays TypedArrayOps TypedArrayMem TypedArrayProps TypedArraySet.
Open Scope Z_scope.

Module TypedArraySearch.

(** ** Reference definitions *)

(** IsStrictlyEqual and SameValueZero of an element and a value. *)
Definition strictEq (x : numeric) (v : value) : bool :=
  match x, v with
  | NNum a, VNum b => feq (ToFloat a) (ToFloat b)
  | NBig a, VBig b => a =? b
  | _, _ => false
  end.
Definition sameValueZero (x : numeric) (v : value) : bool :=
  match x, v with
  | NNum a, VNum b => feq (ToFloat a) (ToFloat b) || (isNaN (ToFloat a) && isNaN (ToFloat b))
  | _, _ => strictEq x v
  end.

(** The first and the last position, counted from [i], that satisfies a test. *)
Fixpoint firstAt {A} (p : A → bool) (i : Z) (l : list A) : Z :=
  match l with [] => -1 | x :: l => if p x then i else firstAt p (i + 1) l end.
Fixpoint lastAt {A} (p : A → bool) (i : Z) (l : list A) : Z :=
  match l with
  | [] => -1
  | x :: l => let r := lastAt p (i + 1) l in if 0 <=? r then r else if p x then i else -1
  end.

Lemma firstAt_ext {A} (p q : A → bool) i l : Forall (λ x, p x = q x) l → firstAt p i l = firstAt q i l.
Proof. intros Hl. revert i. induction Hl as [|x l Hx _ IH]; intros i; cbn; [done|]. by rewrite Hx, IH. Qed.
Lemma lastAt_ext {A} (p q : A → bool) i l : Forall (λ x, p x = q x) l → lastAt p i l = lastAt q i l.
Proof. intros Hl. revert i. induction Hl as [|x l Hx _ IH]; intros i; cbn; [done|]. by rewrite Hx, IH. Qed.
Lemma firstAt_fmap {A B} (f : A → B) p i l : firstAt p i (f <$> l) = firstAt (λ x, p (f x)) i l.
Proof. revert i. induction l as [|x l IH]; intros i; cbn; [done|]. by rewrite IH. Qed.
Lemma lastAt_fmap {A B} (f : A → B) p i l : lastAt p i (f <$> l) = lastAt (λ x, p (f x)) i l.
Proof. revert i. induction l as [|x l IH]; intros i; cbn; [done|]. by rewrite IH. Qed.
Lemma firstAt_false {A} i (l : list A) : firstAt (λ _, false) i l = -1.
Proof. revert i. by induction l as [|x l IH]; intros i; cbn. Qed.
Lemma lastAt_false {A} i (l : list A) : lastAt (λ _, false) i l = -1.
Proof. revert i. induction l as [|x l IH]; intros i; cbn; [done|]. by rewrite IH. Qed.

Lemma firstAt_shift {A} (p : A → bool) i j l : 0 ≤ i → 0 ≤ j →
  firstAt p (i + j) l = if 0 <=? firstAt p j l then i + firstAt p j l else -1.
Proof.
  intros Hi. revert j. induction l as [|x l IH]; intros j Hj; cbn; [done|].
  destruct (p x); [by rewrite (proj2 (Z.leb_le 0 j)) by lia|]. rewrite <- Z.add_assoc. apply IH. lia.
Qed.

Lemma firstAt_existsb {A} (p : A → bool) i l : 0 ≤ i → (0 <=? firstAt p i l) = existsb p l.
Proof.
  revert i. induction l as [|x l IH]; intros i Hi; cbn; [done|].
  destruct (p x); cbn; [by apply Z.leb_le|]. apply IH. lia.
Qed.

Lemma lastAt_snoc {A} (p : A → bool) i l x : 0 ≤ i →
  lastAt p i (l ++ [x]) = if p x then i + Z.of_nat (length l) else lastAt p i l.
Proof.
  revert i. induction l as [|y l IH]; intros i Hi; cbn [app lastAt length].
  { cbn. destruct (p x); [lia|done]. }
  rewrite IH by lia. destruct (p x); [|done]. rewrite (proj2 (Z.leb_le 0 _)) by lia. lia.
Qed.

Lemma lastAt_none {A} (p : A → bool) i l : 0 ≤ i → (0 <=? lastAt p i l) = false → lastAt p i l = -1.
Proof.
  intros Hi E%Z.leb_gt. enough (0 ≤ lastAt p i l ∨ lastAt p i l = -1) by lia. clear E. revert i Hi.
  induction l as [|x l IH]; intros i Hi; cbn; [by right|]. destruct (IH (i + 1) ltac:(lia)) as [E|E]; rewrite ?E.
  - rewrite (proj2 (Z.leb_le _ _) E). by left.
  - cbn. destruct (p x); [by left|by right].
Qed.

(** ** Integers among floats *)

Lemma feq_eq f g : validF f → validF g → feq f g = true → f = g ∨ ∃ s s', f = zeroF s ∧ g = zeroF s'.
Proof.
  intros Hf Hg. destruct f as [|s|s m e], g as [|s'|s' m' e']; cbn; try done.
  - destruct s, s'; try done; by left.
  - intros E%Z.eqb_eq. destruct (Z.eq_dec m 0) as [Hz|Hnz].
    + right. assert (m' = 0) as Hz'.
      { destruct Hg as (? & ? & _). apply (magnitude_zero m' e'); [lia..|].
        rewrite Hz in E. assert (fval s 0 e = 0) as E0 by (by destruct s).
        rewrite E0 in E. unfold fval in E. destruct s'; lia. }
      exists s, s'. by rewrite (valid_zero s m e Hf Hz), (valid_zero s' m' e' Hg Hz').
    + left. by apply fval_inj.
Qed.

Lemma feq_ofZ a b : Z.abs a ≤ maxInt → Z.abs b ≤ maxInt → feq (ofZ a) (ofZ b) = (a =? b).
Proof.
  intros Ha Hb. destruct (ofZ_small a Ha) as (m & e & -> & _ & Hv & _), (ofZ_small b Hb) as (m' & e' & -> & _ & Hv' & _).
  cbn [feq]. rewrite Hv, Hv'. pose proof one_pos.
  destruct (Z.eqb_spec a b) as [->|]; [apply Z.eqb_refl|apply Z.eqb_neq; nia].
Qed.

(** toIntExact finds the integer of the range that a number equals. *)
Lemma toIntExact_spec lo hi n z : wfNumber n → - maxInt ≤ lo → hi ≤ maxInt → lo ≤ z ≤ hi →
  feq (ofZ z) (ToFloat n) = match toIntExact lo hi (VNum n) with Some k => z =? k | None => false end.
Proof.
  unfold maxInt. intros Hn Hlo Hhi Hz. destruct n as [i|f]; cbn [toIntExact ToFloat].
  - cbn in Hn. rewrite feq_ofZ by (unfold maxInt in *; done || lia). destruct ((lo <=? i) && (i <=? hi)) eqn:E; [done|].
    apply Z.eqb_neq. apply andb_false_iff in E as [E%Z.leb_gt|E%Z.leb_gt]; lia.
  - destruct f as [|s|s m e]; [by rewrite !andb_false_r; destruct (ofZ z)|..].
    { destruct (ofZ_small z ltac:(lia)) as (m & e & -> & _). destruct (ofZ_small lo ltac:(lia)) as (m1 & e1 & -> & _).
      destruct (ofZ_small hi ltac:(lia)) as (m2 & e2 & -> & _). by destruct s. }
    cbn [wfNumber] in Hn. destruct (ofZ_small z ltac:(lia)) as (mz & ez & -> & _ & Hvz & _).
    destruct (ofZ_small lo ltac:(lia)) as (m1 & e1 & -> & _ & Hv1 & _). destruct (ofZ_small hi ltac:(lia)) as (m2 & e2 & -> & _ & Hv2 & _).
    destruct (Trunc_spec s m e Hn) as (m' & e' & -> & _ & Hmag). pose proof one_pos as H1.
    assert (∀ a b, (a <? b) || (a =? b) = (a <=? b)) as Hle.
    { intros a b. destruct (Z.ltb_spec a b), (Z.eqb_spec a b), (Z.leb_spec a b); try done; lia. }
    unfold fle. cbn [flt feq int64F]. rewrite Hvz, Hv1, Hv2, !Hle.
    assert (fval s m' e' = truncZ s m e * one) as ->.
    { rewrite fval_truncZ by (destruct Hn as (? & ? & _); lia). unfold fval. rewrite Hmag. destruct s; lia. }
    destruct (Z.eqb_spec (z * one) (fval s m e)) as [E|E].
    + assert (truncZ s m e = z) as -> by (unfold truncZ; rewrite <- E; apply Z.quot_mul; lia).
      rewrite <- E. rewrite !(proj2 (Z.leb_le _ _)) by nia. rewrite Z.eqb_refl. cbn. by rewrite Z.eqb_refl.
    + destruct (_ && _) eqn:Ec; [|done]. apply andb_true_iff in Ec as [_ Ec%Z.eqb_eq]. symmetry. apply Z.eqb_neq. nia.
Qed.

Lemma toIntExact_range lo hi n k : wfNumber n → - maxInt ≤ lo → lo ≤ maxInt → - maxInt ≤ hi → hi ≤ maxInt →
  toIntExact lo hi (VNum n) = Some k → lo ≤ k ≤ hi.
Proof.
  unfold maxInt. intros Hn ????. destruct n as [i|f]; cbn [toIntExact].
  - destruct ((lo <=? i) && (i <=? hi)) eqn:E; [|done]. intros [= <-]. apply andb_true_iff in E as [E%Z.leb_le E'%Z.leb_le]. lia.
  - destruct (_ && _ && _) eqn:E; [|done]. intros [= <-]. apply andb_true_iff in E as [[E1 E2]%andb_true_iff E3].
    destruct (ofZ_small lo ltac:(lia)) as (m1 & e1 & Ho1 & _ & Hv1 & _). destruct (ofZ_small hi ltac:(lia)) as (m2 & e2 & Ho2 & _ & Hv2 & _).
    rewrite Ho1 in E1. rewrite Ho2 in E2. destruct f as [|s|s m e]; [done|by destruct s|]. cbn [wfNumber] in Hn. cbn [int64F].
    destruct (Trunc_spec s m e Hn) as (m' & e' & HT & _ & Hmag). rewrite HT in E3.
    unfold fle in *. cbn [flt feq] in *. rewrite Hv1 in E1. rewrite Hv2 in E2.
    assert (fval s m' e' = truncZ s m e * one) as Ht.
    { rewrite fval_truncZ by (destruct Hn as (? & ? & _); lia). unfold fval. rewrite Hmag. destruct s; lia. }
    apply Z.eqb_eq in E3. rewrite Ht in E3. pose proof one_pos. rewrite E3 in E1, E2.
    apply orb_true_iff in E1 as [E1%Z.ltb_lt|E1%Z.eqb_eq], E2 as [E2%Z.ltb_lt|E2%Z.eqb_eq]; nia.
Qed.

(** ** The raw comparison is the comparison of values *)

Definition wfValue (v : value) : Prop := match v with VNum n => wfNumber n | _ => True end.

Section search.
Context `{Machine}.

Lemma int_test lo hi v z : wfValue v → - maxInt ≤ lo → hi ≤ maxInt → lo ≤ z ≤ hi →
  strictEq (NNum (intToValue z)) v = match toIntExact lo hi v with Some k => z =? k | None => false end.
Proof.
  intros Hv Hlo Hhi Hz. destruct v as [n|b|u num big t]; [|done|done]. cbn [strictEq]. rewrite ToFloat_intToValue.
  by apply toIntExact_spec.
Qed.

Lemma swrap_raw w x : 0 < w → 0 ≤ x < 2 ^ w → swrap w x = if x <? 2 ^ (w - 1) then x else x - 2 ^ w.
Proof.
  intros Hw Hx. assert (2 ^ w = 2 * 2 ^ (w - 1)) as Hp by (rewrite <- Z.pow_succ_r by lia; f_equal; lia).
  unfold swrap. destruct (Z.ltb_spec x (2 ^ (w - 1))).
  - rewrite Z.mod_small by lia. lia.
  - replace (x + 2 ^ (w - 1)) with ((x - 2 ^ (w - 1)) + 1 * 2 ^ w) by lia. rewrite Z.mod_add, Z.mod_small by lia. lia.
Qed.

Lemma int8_test x k : 0 ≤ x < 256 → -128 ≤ k ≤ 127 → (x =? uwrap 8 k) = (swrap 8 x =? k).
Proof.
  intros Hx Hk. rewrite swrap_raw by (change (2 ^ 8) with 256; lia). change (2 ^ (8 - 1)) with 128. change (2 ^ 8) with 256.
  assert (uwrap 8 k = if k <? 0 then k + 256 else k) as ->.
  { unfold uwrap. change (2 ^ 8) with 256. destruct (Z.ltb_spec k 0).
    - replace k with ((k + 256) + (-1) * 256) at 1 by lia. rewrite Z.mod_add, Z.mod_small by lia. lia.
    - apply Z.mod_small. lia. }
  destruct (Z.ltb_spec k 0), (Z.ltb_spec x 128); [destruct (Z.eqb_spec x (k + 256)), (Z.eqb_spec x k)|
    destruct (Z.eqb_spec x (k + 256)), (Z.eqb_spec (x - 256) k)|destruct (Z.eqb_spec x k)|
    destruct (Z.eqb_spec x k), (Z.eqb_spec (x - 256) k)]; done || lia.
Qed.

(** A float of a format that equals a float is representable. *)
Lemma representable F nan b f : isFormat F → decode F nan = NaN → 0 ≤ b < 2 ^ (prec F + ebits F) → validF f →
  feq (decode F b) f = true → feq (roundTo F f) f = true.
Proof.
  intros HF Hnan Hb Hv He. destruct (feq_eq _ _ (decode_valid F b HF ltac:(lia)) Hv He) as [<-|(s & s' & _ & ->)].
  - assert (isNaN (decode F b) = false) as Hn by (by destruct (decode F b)).
    rewrite <- (decode_encode F nan) by (try done; apply decode_valid; lia || done).
    rewrite encode_decode; [by apply feq_refl|done|done|]. intros E. by rewrite E in Hn.
  - cbn. by destruct s'.
Qed.

Lemma feq_true_l f g h' : validF f → validF g → validF h' → feq g h' = true → feq f g = feq f h'.
Proof.
  intros Hf Hg Hh He. destruct (feq_eq g h' Hg Hh He) as [->|(s & s' & -> & ->)]; [done|].
  destruct f as [| |]; [done|done|]. cbn [feq zeroF]. by destruct s, s'.
Qed.

(** ** The loops *)

Section loops.
Context (h : heap) (s : goslice) (w : Z).
Hypotheses (Hh : wfHeap h) (Hs : wfSlice (mem h) s) (Hw : 0 < w).

Lemma inBounds_range i last : 0 ≤ i < last → last * w ≤ slen s → inBounds s w i.
Proof. intros Hi Hl. split; [lia|]. assert ((i + 1) * w ≤ last * w) by (apply Z.mul_le_mono_nonneg_r; lia). lia. Qed.

(** The raw elements are in the range of the width. *)
Lemma rawElems_range start n : 0 ≤ start → (start + n) * w ≤ slen s →
  Forall (λ x, 0 ≤ x < 2 ^ (8 * w)) (rawElems (mem h) s w start n).
Proof.
  intros Hst Hn. apply Forall_fmap, Forall_forall. intros i Hi%elem_of_seqZ. cbn.
  apply rawAt_range; [by apply wf_bytes|done|done|]. apply (inBounds_range _ (start + n)); [lia|done].
Qed.

Lemma indexLoop_ok eq start i n : 0 ≤ start + i → (start + i + Z.of_nat n) * w ≤ slen s →
  indexLoop w (Some s) start eq i n h = (Ret (firstAt eq i (rawElems (mem h) s w (start + i) (Z.of_nat n))), h).
Proof.
  revert i. induction n as [|n IH]; intros i Hi Hn; [done|]. rewrite rawElems_cons by lia. cbn [indexLoop firstAt].
  unfold mbind, M_bind. rewrite load_ok by (done || (apply (inBounds_range _ (start + i + Z.of_nat (S n))); [lia|done])).
  destruct (eq _); [done|]. rewrite IH; [|lia|by replace (start + (i + 1) + Z.of_nat n) with (start + i + Z.of_nat (S n)) by lia].
  rewrite Z.add_assoc. by replace (Z.of_nat (S n) - 1) with (Z.of_nat n) by lia.
Qed.

Lemma rawElems_snoc start n : rawElems (mem h) s w start (Z.of_nat (S n)) =
  rawElems (mem h) s w start (Z.of_nat n) ++ [rawAt (mem h) s w (start + Z.of_nat n)].
Proof. unfold rawElems. by rewrite seqZ_S, fmap_app. Qed.

Lemma length_rawElems start n : 0 ≤ n → Z.of_nat (length (rawElems (mem h) s w start n)) = n.
Proof. intros Hn. unfold rawElems. rewrite length_fmap, length_seqZ. lia. Qed.

Lemma lastIndexLoop_ok eq start n : 0 ≤ start → (start + Z.of_nat n) * w ≤ slen s →
  lastIndexLoop w (Some s) start eq n h = (Ret (lastAt eq 0 (rawElems (mem h) s w start (Z.of_nat n))), h).
Proof.
  intros Hst. induction n as [|n IH]; intros Hn; [done|]. rewrite rawElems_snoc, lastAt_snoc, length_rawElems by lia.
  cbn [lastIndexLoop]. unfold mbind, M_bind.
  rewrite load_ok by (done || (apply (inBounds_range _ (start + Z.of_nat (S n))); [lia|done])).
  destruct (eq _); [done|]. apply IH. nia.
Qed.

Lemma sliceIndex_ok eq start len : 0 ≤ start → 0 ≤ len → (start + len) * w ≤ slen s →
  sliceIndex w (typedArraySlice w (Some s) start len) eq h = (Ret (firstAt eq 0 (rawElems (mem h) s w start len)), h).
Proof.
  intros Hst Hlen Hn. unfold typedArraySlice. cbn [lenData]. destruct (Z.leb_spec (slen s) (start * w)).
  - assert (len = 0) as -> by nia. done.
  - cbn [sliceIndex]. rewrite (proj2 (Z.ltb_ge len 0)) by lia. rewrite indexLoop_ok by (rewrite ?Z2Nat.id; nia).
    by rewrite Z2Nat.id, Z.add_0_r by lia.
Qed.

Lemma lastIndex_ok eq start len : 0 ≤ start → 0 ≤ len → (start + len) * w ≤ slen s →
  lastIndex w (typedArraySlice w (Some s) start len) eq h = (Ret (lastAt eq 0 (rawElems (mem h) s w start len)), h).
Proof.
  intros Hst Hlen Hn. unfold typedArraySlice. cbn [lenData]. destruct (Z.leb_spec (slen s) (start * w)).
  - assert (len = 0) as -> by nia. done.
  - cbn [lastIndex]. rewrite (proj2 (Z.ltb_ge len 0)) by lia. rewrite lastIndexLoop_ok by (rewrite ?Z2Nat.id; nia).
    by rewrite Z2Nat.id by lia.
Qed.
End loops.

(** The test the search of a type applies to raw elements, if it searches. *)
Definition rawTest (k : taKind) (v : value) : option (Z → bool) :=
  match k with
  | Uint8 | Uint8Clamped => (λ i x, x =? i) <$> toUint8Exact v
  | Int8 => (λ i x, x =? uwrap 8 i) <$> toInt8Exact v
  | Uint16 => (λ i x, x =? i) <$> toUint16Exact v
  | Int16 => (λ i x, swrap 16 x =? i) <$> toInt16Exact v
  | Uint32 => (λ i x, x =? i) <$> toUint32Exact v
  | Int32 => (λ i x, swrap 32 x =? i) <$> toInt32Exact v
  | Float16 => (λ f x, feq (Float16ToFloat64 x) f) <$> toFloat16Exact v
  | Float32 => (λ f x, feq (Float32frombits x) f) <$> toFloat32Exact v
  | Float64 => match v with VNum n => Some (λ x, feq (Float64frombits x) (ToFloat n)) | _ => None end
  | BigInt64 => match v with VBig b => if IsInt64 b then Some (λ x, swrap 64 x =? b) else None | _ => None end
  | BigUint64 => match v with VBig b => if IsUint64 b then Some (λ x, x =? b) else None | _ => None end
  end.

Lemma rawTest_spec k v x : wfValue v → 0 ≤ x < 2 ^ (8 * elemSize (ops k)) →
  match rawTest k v with Some p => p x | None => false end = strictEq (readElem k x) v.
Proof.
  intros Hv Hx. destruct k; cbn [rawTest readElem]; cbn in Hx.
  - rewrite (int_test 0 255) by (done || lia). fold toUint8Exact. by destruct (toUint8Exact v).
  - rewrite (int_test 0 255) by (done || lia). fold toUint8Exact. by destruct (toUint8Exact v).
  - pose proof (swrap_range 8 x ltac:(lia)). rewrite (int_test (-128) 127) by (done || lia). fold toInt8Exact.
    destruct (toInt8Exact v) as [i|] eqn:E; [cbn|done]. apply int8_test; [lia|].
    destruct v as [n| |]; [|done|done]. by apply (toIntExact_range (-128) 127 n).
  - rewrite (int_test 0 65535) by (done || lia). fold toUint16Exact. by destruct (toUint16Exact v).
  - pose proof (swrap_range 16 x ltac:(lia)). rewrite (int_test (-32768) 32767) by (done || lia). fold toInt16Exact. by destruct (toInt16Exact v).
  - rewrite (int_test 0 4294967295) by (done || lia). fold toUint32Exact. by destruct (toUint32Exact v).
  - pose proof (swrap_range 32 x ltac:(lia)). rewrite (int_test (-2147483648) 2147483647) by (done || lia). fold toInt32Exact. by destruct (toInt32Exact v).
  - destruct v as [n| |]; [|done|done]. pose proof (ToFloat_valid n Hv) as Hf. cbn [strictEq toFloat16Exact].
    rewrite (Float16ToFloat64_spec x) by lia. assert (validF (decode binary16 x)) as Hd by (apply decode_valid; [by left|lia]).
    rewrite (proj2 (floatToValue_spec _ Hd)). rewrite (Float16ToFloat64_spec (Float64ToFloat16 _)), Float64ToFloat16_spec.
    2: done. 2: { apply (rawOf_range Float16 (NNum n)). split; [done|]. split; [done|]. by intros [?|[?|?]]. }
    rewrite decode_encode by (try done; by left). destruct (feq (roundTo binary16 (ToFloat n)) (ToFloat n)) eqn:E; cbn; [by rewrite Float16ToFloat64_spec by lia|].
    destruct (feq (decode binary16 x) (ToFloat n)) eqn:E'; [|done].
    rewrite (representable binary16 0x7e00 x) in E; done || lia || by left.
  - destruct v as [n| |]; [|done|done]. pose proof (ToFloat_valid n Hv) as Hf. cbn [strictEq toFloat32Exact].
    unfold Float32frombits. assert (validF (decode binary32 x)) as Hd by (apply decode_valid; [by right; left|lia]).
    rewrite (proj2 (floatToValue_spec _ Hd)). destruct (feq (roundTo binary32 (ToFloat n)) (ToFloat n)) eqn:E; cbn.
    + apply feq_true_l; [done| |done|done]. rewrite <- Float32frombits_bits by done. apply decode_valid; [by right; left|].
      apply (encode_range binary32); [by right; left|done|done].
    + destruct (feq (decode binary32 x) (ToFloat n)) eqn:E'; [|done].
      rewrite (representable binary32 0x7FC00000 x) in E; done || lia || by right; left.
  - destruct v as [n| |]; [|done|done]. cbn [strictEq]. unfold Float64frombits.
    assert (validF (decode binary64 x)) as Hd by (apply decode_valid; [by right; right|lia]). by rewrite (proj2 (floatToValue_spec _ Hd)).
  - destruct v as [|b|]; [done| |done]. cbn [strictEq]. destruct (IsInt64 b) eqn:E; [done|]. symmetry. apply Z.eqb_neq. intros <-.
    pose proof (swrap_range 64 x ltac:(lia)). unfold IsInt64, MinInt64, MaxInt64 in E.
    rewrite !(proj2 (Z.leb_le _ _)) in E by (change (2 ^ (64 - 1)) with 9223372036854775808 in *; lia). done.
  - destruct v as [|b|]; [done| |done]. cbn [strictEq]. destruct (IsUint64 b) eqn:E; [done|]. symmetry. apply Z.eqb_neq. intros ->.
    unfold IsUint64 in E. rewrite (proj2 (Z.leb_le _ _)), (proj2 (Z.ltb_lt _ _)) in E by lia. done.
Qed.

(** ** The three searches of an element type *)

Section kinds.
Context (k : taKind) (h : heap) (s : goslice) (v : value) (start len : Z).
Hypotheses (Hh : wfHeap h) (Hs : wfSlice (mem h) s) (Hv : wfValue v)
  (Hst : 0 ≤ start) (Hlen : 0 ≤ len) (Hn : (start + len) * elemSize (ops k) ≤ slen s).
Let w := elemSize (ops k).
Let raws := rawElems (mem h) s w start len.

(** The values of the elements searched. *)
Definition searched : list numeric := readElem k <$> raws.

Lemma test_ext : Forall (λ x, match rawTest k v with Some p => p x | None => false end = strictEq (readElem k x) v) raws.
Proof.
  assert (0 < w) as Hw by apply elemSize_pos.
  apply (Forall_impl _ _ _ (rawElems_range h s w Hh Hs Hw start len Hst Hn)). intros x Hx. by apply rawTest_spec.
Qed.

Lemma firstAt_searched : firstAt (λ x, strictEq x v) 0 searched = match rawTest k v with Some p => firstAt p 0 raws | None => -1 end.
Proof.
  unfold searched. rewrite firstAt_fmap, <- (firstAt_ext _ _ _ _ test_ext). destruct (rawTest k v); [done|apply firstAt_false].
Qed.

Lemma lastAt_searched : lastAt (λ x, strictEq x v) 0 searched = match rawTest k v with Some p => lastAt p 0 raws | None => -1 end.
Proof.
  unfold searched. rewrite lastAt_fmap, <- (lastAt_ext _ _ _ _ test_ext). destruct (rawTest k v); [done|apply lastAt_false].
Qed.

(** The loop of a search, over a slice or over the elements. *)
Lemma search_loop p : (if decide (k = Float16) then (if len <? 0 then mret (-1) else indexLoop w (Some s) start p 0 (Z.to_nat len)) h
   else sliceIndex w (typedArraySlice w (Some s) start len) p h) = (Ret (firstAt p 0 raws), h).
Proof.
  assert (0 < w) as Hw by apply elemSize_pos. destruct (decide _); [|by apply sliceIndex_ok].
  rewrite (proj2 (Z.ltb_ge len 0)) by lia. rewrite indexLoop_ok by (rewrite ?Z2Nat.id, ?Z.add_0_r by lia; done).
  by rewrite Z2Nat.id, Z.add_0_r by lia.
Qed.

Lemma indexOf_raw : indexOf (ops k) (Some s) v start len h =
  match rawTest k v with
  | Some p => if decide (k = Float16) then (if len <? 0 then mret (-1) else indexLoop w (Some s) start p 0 (Z.to_nat len)) h
              else sliceIndex w (typedArraySlice w (Some s) start len) p h
  | None => (Ret (-1), h)
  end.
Proof.
  unfold w. clear. destruct k; cbn; unfold searchOr.
  1-7: by match goal with |- context [?f v] => destruct (f v) end.
  - by destruct (toFloat16Exact v).
  - by destruct (toFloat32Exact v).
  - by destruct v.
  - destruct v as [|b|]; [done| |done]. by destruct (IsInt64 b).
  - destruct v as [|b|]; [done| |done]. by destruct (IsUint64 b).
Qed.

Lemma indexOf_ok : indexOf (ops k) (Some s) v start len h = (Ret (firstAt (λ x, strictEq x v) 0 searched), h).
Proof. rewrite indexOf_raw, firstAt_searched. destruct (rawTest k v); [apply search_loop|done]. Qed.

Lemma lastIndexOf_ok : lastIndexOf (ops k) (Some s) v start len h = (Ret (lastAt (λ x, strictEq x v) 0 searched), h).
Proof.
  assert (0 < w) as Hw by apply elemSize_pos. rewrite lastAt_searched.
  assert (lastIndexOf (ops k) (Some s) v start len h =
    match rawTest k v with
    | Some p => if decide (k = Float16) then (if len <? 0 then mret (-1) else lastIndexLoop w (Some s) start p (Z.to_nat len)) h
                else lastIndex w (typedArraySlice w (Some s) start len) p h
    | None => (Ret (-1), h)
    end) as ->.
  { unfold w. clear. destruct k; cbn; unfold searchOr.
    1-7: by match goal with |- context [?f v] => destruct (f v) end.
    - by destruct (toFloat16Exact v).
    - by destruct (toFloat32Exact v).
    - by destruct v.
    - destruct v as [|b|]; [done| |done]. by destruct (IsInt64 b).
    - destruct v as [|b|]; [done| |done]. by destruct (IsUint64 b). }
  destruct (rawTest k v) as [p|]; [|done]. destruct (decide _); [|by apply lastIndex_ok].
  rewrite (proj2 (Z.ltb_ge len 0)) by lia. rewrite lastIndexLoop_ok by (rewrite ?Z2Nat.id by lia; done).
  by rewrite Z2Nat.id by lia.
Qed.

(** Elements of integer types are not NaN, so SameValueZero is strict equality. *)
Lemma isNaN_ofZ z : isNaN (ofZ z) = false.
Proof. unfold ofZ, roundF. repeat (case_match; try done). Qed.

Definition isFloatKind : bool := match k with Float16 | Float32 | Float64 => true | _ => false end.

Lemma sameValueZero_int x : isFloatKind = false → sameValueZero (readElem k x) v = strictEq (readElem k x) v.
Proof.
  unfold isFloatKind. intros Hk. destruct k; try done; destruct v as [n| |]; try done; cbn [readElem sameValueZero strictEq]; try done;
    rewrite ToFloat_intToValue, isNaN_ofZ; apply orb_false_r.
Qed.

(** The value of a raw float element. *)
Definition rawFloat (x : Z) : float64 :=
  match k with Float16 => Float16ToFloat64 x | Float32 => Float32frombits x | _ => Float64frombits x end.

Lemma rawFloat_valid x : isFloatKind = true → 0 ≤ x < 2 ^ (8 * w) → validF (rawFloat x).
Proof.
  unfold w, rawFloat, isFloatKind. clear. intros Hk Hx. destruct k; try done; cbn in Hx.
  - rewrite Float16ToFloat64_spec by lia. apply decode_valid; [by left|lia].
  - apply decode_valid; [by right; left|lia].
  - apply decode_valid; [by right; right|lia].
Qed.

Lemma readElem_float x : isFloatKind = true → readElem k x = NNum (floatToValue (rawFloat x)).
Proof. unfold isFloatKind, rawFloat. by destruct k. Qed.

(** includes of a float type: NaN is searched for by itself. *)
Lemma includes_float : isFloatKind = true →
  includes (ops k) (Some s) v start len h =
  match v with
  | VNum n =>
      if isNaN (ToFloat n) then
        found (λ h, if decide (k = Float16)
                    then (if len <? 0 then mret (-1) else indexLoop w (Some s) start (λ x, isNaN (rawFloat x)) 0 (Z.to_nat len)) h
                    else sliceIndex w (typedArraySlice w (Some s) start len) (λ x, isNaN (rawFloat x)) h) h
      else found (indexOf (ops k) (Some s) v start len) h
  | _ => (Ret false, h)
  end.
Proof.
  unfold isFloatKind, rawFloat, w. clear. intros Hk. destruct k; try done; destruct v as [n| |]; try done; cbn; destruct (isNaN (ToFloat n)) eqn:E; try done.
  unfold searchOr. by destruct (feq (roundTo binary32 (ToFloat n)) (ToFloat n)).
Qed.

Lemma includes_ok : includes (ops k) (Some s) v start len h = (Ret (existsb (λ x, sameValueZero x v) searched), h).
Proof.
  assert (0 < w) as Hw by apply elemSize_pos. pose proof indexOf_ok as Hidx.
  destruct isFloatKind eqn:Ek.
  - rewrite includes_float by done. destruct v as [n|b|u num big t] eqn:Ev.
    2,3: rewrite <- (firstAt_existsb _ 0) by done; unfold searched; rewrite firstAt_fmap;
      rewrite (firstAt_ext _ (λ _, false)); [by rewrite firstAt_false|];
      apply Forall_forall; intros x _; by rewrite readElem_float.
    destruct (isNaN (ToFloat n)) eqn:En; rewrite <- (firstAt_existsb _ 0) by done.
    + unfold found, mbind, M_bind. rewrite search_loop. unfold mret, M_ret. do 2 f_equal. unfold searched. rewrite firstAt_fmap.
      f_equal. apply firstAt_ext. apply (Forall_impl _ _ _ (rawElems_range h s w Hh Hs Hw start len Hst Hn)). intros x Hx.
      rewrite readElem_float by done. cbn [sameValueZero]. rewrite (proj2 (floatToValue_spec _ (rawFloat_valid x Ek Hx))), En, andb_true_r.
      destruct (ToFloat n); try done. by destruct (rawFloat x).
    + unfold found, mbind, M_bind. rewrite Hidx. unfold mret, M_ret. do 3 f_equal. apply firstAt_ext.
      apply Forall_forall. intros x Hx. destruct x; cbn [strictEq sameValueZero]; [|done]. by rewrite En, andb_false_r, orb_false_r.
  - assert (includes (ops k) (Some s) v start len h = found (indexOf (ops k) (Some s) v start len) h) as ->.
    { revert Ek. unfold isFloatKind. clear. by destruct k. }
    unfold found, mbind, M_bind. rewrite indexOf_ok. unfold mret, M_ret. do 2 f_equal. rewrite firstAt_existsb by done.
    unfold searched. induction raws as [|x l IH]; cbn; [done|]. by rewrite sameValueZero_int, IH.
Qed.
End kinds.

(** ** The methods *)

(** The values of the elements of a typed array. *)
Definition taElems (h : heap) (a : typedArrayObject) (s : goslice) : list numeric :=
  readElem (defaultCtor a) <$> rawElems (mem h) s (taElemSize a) (ta_offset a) (ta_length a).

Lemma rawElems_drop m s w start n j : 0 ≤ j ≤ n →
  drop (Z.to_nat j) (rawElems m s w start n) = rawElems m s w (start + j) (n - j).
Proof.
  intros Hj. unfold rawElems. rewrite <- fmap_drop.
  replace (seqZ 0 n) with (seqZ 0 (j + (n - j))) by (f_equal; lia). rewrite seqZ_app by lia.
  rewrite drop_app_length' by (rewrite length_seqZ; lia). rewrite Z.add_0_l.
  replace (seqZ j (n - j)) with (Z.add j <$> seqZ 0 (n - j)) by (by rewrite fmap_add_seqZ, Z.add_0_r).
  rewrite <- list_fmap_compose. apply list_fmap_ext. intros i x _. cbn. f_equal. lia.
Qed.

Lemma rawElems_take m s w start n j : 0 ≤ j ≤ n → take (Z.to_nat j) (rawElems m s w start n) = rawElems m s w start j.
Proof.
  intros Hj. unfold rawElems. rewrite <- fmap_take.
  replace (seqZ 0 n) with (seqZ 0 (j + (n - j))) by (f_equal; lia). rewrite seqZ_app by lia.
  by rewrite take_app_length' by (rewrite length_seqZ; lia).
Qed.

Lemma length_taElems h a s : 0 ≤ ta_length a → Z.of_nat (length (taElems h a s)) = ta_length a.
Proof. intros Hl. unfold taElems, rawElems. rewrite !length_fmap, length_seqZ. lia. Qed.

(** C33: On a live buffer, indexOf and lastIndexOf return the first or last index in
    the range given by fromIndex whose element is strictly equal to the search
    value, or -1, and includes tells whether an element is SameValueZero-equal to
    it (so it finds NaN), for every element type and every search value, although
    they compare raw elements with a key converted once; none changes the heap. *)
Theorem typedArray_search (h : heap) (a : typedArrayObject) (s : goslice) (v : value) (n : Z) :
  wfHeap h → wfTA h a → live h (viewedArrayBuf a) s → wfValue v →
  let elems := taElems h a s in
  let from := relToIdx n (ta_length a) in
  let last := if 0 <=? n then Z.min n (ta_length a - 1) else ta_length a + n in
  typedArrayProto_indexOf a v (VNum (valueInt n)) h =
    (Ret (firstAt (λ x, strictEq x v) from (drop (Z.to_nat from) elems)), h) ∧
  typedArrayProto_includes a v (VNum (valueInt n)) h =
    (Ret (existsb (λ x, sameValueZero x v) (drop (Z.to_nat from) elems)), h) ∧
  typedArrayProto_lastIndexOf a v (Some (VNum (valueInt n))) h =
    (Ret (lastAt (λ x, strictEq x v) 0 (take (Z.to_nat (last + 1)) elems)), h) ∧
  typedArrayProto_lastIndexOf a v None h = (Ret (lastAt (λ x, strictEq x v) 0 elems), h).
Proof.
  intros Hh Ha Hl Hv elems from last. pose proof (live_wf _ _ _ Hh Hl) as Hs. pose proof Ha as (Ho & Hlen & o & Hb & Hbound).
  pose proof Hl as Hl'. unfold live in Hl'. rewrite Hl' in Hb. injection Hb as <-. specialize (Hbound eq_refl). cbn [data lenData] in Hbound.
  pose proof (elemSize_pos (defaultCtor a)) as Hw. fold (taOps a) in Hw. fold (taElemSize a) in Hw.
  assert (∀ j, 0 ≤ j ≤ ta_length a → drop (Z.to_nat j) elems = searched (defaultCtor a) h s (ta_offset a + j) (ta_length a - j)) as Hdrop.
  { intros j Hj. unfold elems, taElems, searched. by rewrite <- fmap_drop, rawElems_drop. }
  assert (∀ j, 0 ≤ j ≤ ta_length a → take (Z.to_nat j) elems = searched (defaultCtor a) h s (ta_offset a) j) as Htake.
  { intros j Hj. unfold elems, taElems, searched. by rewrite <- fmap_take, rawElems_take. }
  assert (∀ j, 0 ≤ j ≤ ta_length a → (ta_offset a + j + (ta_length a - j)) * elemSize (ops (defaultCtor a)) ≤ slen s) as Hb1.
  { intros j Hj. replace (ta_offset a + j + (ta_length a - j)) with (ta_offset a + ta_length a) by lia. exact Hbound. }
  assert (∀ j, 0 ≤ j ≤ ta_length a → (ta_offset a + j) * elemSize (ops (defaultCtor a)) ≤ slen s) as Hb2.
  { intros j Hj. unfold taElemSize, taOps in *. nia. }
  assert (∀ j, 0 ≤ j ≤ ta_length a → lastIndexOf (taOps a) (Some s) v (ta_offset a) j h =
    (Ret (lastAt (λ x, strictEq x v) 0 (take (Z.to_nat j) elems)), h)) as Hlast.
  { intros j Hj. rewrite Htake by done. apply lastIndexOf_ok; try done; [lia|by apply Hb2]. }
  unfold typedArrayProto_indexOf, typedArrayProto_includes, typedArrayProto_lastIndexOf, VToInteger, mbind, M_bind.
  rewrite !(ensureNotDetached_live _ _ _ Hl). cbn [ToNumber mret M_ret ToInteger].
  destruct (Z.eqb_spec (ta_length a) 0) as [E0|E0].
  { assert (elems = []) as ->.
    { apply length_zero_iff_nil. pose proof (length_taElems h a s Hlen). unfold elems. lia. }
    rewrite drop_nil, take_nil. done. }
  assert (0 ≤ from ≤ ta_length a) as Hfrom by (unfold from, relToIdx; destruct (Z.leb_spec 0 n); lia).
  assert (ta_length a ≤ n → drop (Z.to_nat from) elems = []) as Hend.
  { intros Hge. assert (from = ta_length a) as -> by (unfold from, relToIdx; rewrite (proj2 (Z.leb_le 0 n)) by lia; lia).
    rewrite Hdrop by lia. by rewrite Z.sub_diag. }
  assert (n < ta_length a → (if n <? 0 then Z.max (ta_length a + n) 0 else n) = from) as Hstart.
  { intros Hlt. unfold from, relToIdx. destruct (Z.ltb_spec n 0); [by rewrite (proj2 (Z.leb_gt 0 n)) by lia|].
    rewrite (proj2 (Z.leb_le 0 n)) by lia. lia. }
  split; [|split; [|split]].
  - destruct (Z.leb_spec (ta_length a) n) as [Hge|Hlt]; [by rewrite Hend|]. rewrite Hstart by done.
    rewrite (notDetached_live _ _ _ Hl). cbn [negb]. rewrite (taData_live _ _ _ Hl). unfold taOps. rewrite indexOf_ok by (done || lia || by apply Hb1). rewrite <- Hdrop by done.
    pose proof (firstAt_shift (λ x, strictEq x v) from 0 (drop (Z.to_nat from) elems) ltac:(lia) ltac:(lia)) as Hsh.
    rewrite Z.add_0_r in Hsh. by rewrite Hsh.
  - destruct (Z.leb_spec (ta_length a) n) as [Hge|Hlt]; [by rewrite Hend|]. rewrite Hstart by done.
    rewrite (notDetached_live _ _ _ Hl). cbn [negb]. rewrite (taData_live _ _ _ Hl). unfold taOps. rewrite includes_ok by (done || lia || by apply Hb1). by rewrite <- Hdrop by done.
  - assert ((if 0 <=? n then Z.min n (ta_length a - 1) else if n + ta_length a <? 0 then -1 else n + ta_length a) =
      Z.max last (-1)) as ->.
    { unfold last. destruct (Z.leb_spec 0 n); [lia|]. destruct (Z.ltb_spec (n + ta_length a) 0); lia. }
    assert (take (Z.to_nat (last + 1)) elems = take (Z.to_nat (Z.max last (-1) + 1)) elems) as -> by (f_equal; lia).
    rewrite (notDetached_live _ _ _ Hl). cbv beta iota. rewrite (taData_live _ _ _ Hl). rewrite Hlast by (unfold last; destruct (Z.leb_spec 0 n); lia).
    destruct (0 <=? lastAt _ _ _) eqn:E; [done|]. by rewrite (lastAt_none _ 0 _ ltac:(lia) E).
  - rewrite (notDetached_live _ _ _ Hl). cbv beta iota. rewrite (taData_live _ _ _ Hl). rewrite Hlast by lia. rewrite take_ge by (pose proof (length_taElems h a s Hlen); unfold elems; lia).
    destruct (0 <=? lastAt _ _ _) eqn:E; [done|]. by rewrite (lastAt_none _ 0 _ ltac:(lia) E).
Qed.
End search.
End TypedArraySearch.
