(* ===== verification/TypedArraySafe.v ===== *)
(** * Memory safety of typed arrays

    The element types compute unchecked pointers; the builtins guard them with the
    detached checks and the bounds of the view, around conversions and callbacks
    that run arbitrary code.  [typedarray_memory_safe] shows for the operations of
    [call] that no access leaves the data of a buffer, whatever that code does:
    the outcome is a value or an exception, never [Crash].

    Running code is only assumed to be safe itself and to change the heap the way
    the program can ([evolves]); in particular it may detach any buffer. *)

From S2P Require Import Prelude Float64 Numbers Arith FloatBits TypedArrays TypedArrayOps TypedArrayMem TypedArrayProps TypedArraySet TypedArraySearch.
Import Float64 Numbers Arith FloatBits TypedArrays TypedArrayOps TypedArrayMem TypedArrayProps TypedArraySet TypedArraySearch.
Open Scope Z_scope.

Module TypedArraySafe.

(** ** Safe computations *)

Definition safeAt {A} (h : heap) (m : M A) (φ : A → heap → Prop) : Prop :=
  match m h with
  | (Ret a, h') => wfHeap h' ∧ evolves h h' ∧ φ a h'
  | (Raise _, h') => wfHeap h' ∧ evolves h h'
  | (Crash, _) => False
  end.
Definition safe {A} (m : M A) (φ : A → heap → Prop) : Prop := ∀ h, wfHeap h → safeAt h m φ.

Definition any {A} : A → heap → Prop := λ _ _, True.

Lemma safeAt_bind {A B} h (m : M A) (k : A → M B) φ ψ :
  safeAt h m φ → (∀ a h', wfHeap h' → evolves h h' → φ a h' → safeAt h' (k a) ψ) → safeAt h (m ≫= k) ψ.
Proof.
  unfold safeAt, mbind, M_bind. intros Hm Hk. destruct (m h) as [[a|e|] h']; [|done|done].
  destruct Hm as (Hw & He & Ha). specialize (Hk a h' Hw He Ha). destruct (k a h') as [[b|e|] h'']; [| |done].
  - destruct Hk as (? & ? & ?). split; [done|]. split; [by etrans|done].
  - destruct Hk. split; [done|by etrans].
Qed.

Lemma safeAt_ret {A} h (a : A) (φ : A → heap → Prop) : wfHeap h → φ a h → safeAt h (mret a) φ.
Proof. intros Hh Ha. unfold safeAt. cbn. split; [done|]. split; [reflexivity|done]. Qed.

Lemma safeAt_raise {A} h e (φ : A → heap → Prop) : wfHeap h → safeAt h (raise e) φ.
Proof. intros Hh. unfold safeAt. cbn. split; [done|reflexivity]. Qed.

Lemma safeAt_weaken {A} h (m : M A) (φ ψ : A → heap → Prop) : safeAt h m φ → (∀ a h', φ a h' → ψ a h') → safeAt h m ψ.
Proof. unfold safeAt. intros Hm Hw. destruct (m h) as [[a|e|] h']; naive_solver. Qed.

(** A step that returns and changes nothing. *)
Lemma safeAt_pure {A B} h (m : M A) a (k : A → M B) ψ : m h = (Ret a, h) → safeAt h (k a) ψ → safeAt h (m ≫= k) ψ.
Proof. intros Hm Hk. unfold safeAt, mbind, M_bind. by rewrite Hm. Qed.

Lemma safeAt_liftResult {A} h (r : result A) : wfHeap h → safeAt h (liftResult r) (λ a _, r = Ok a).
Proof. intros Hh. destruct r; [by apply safeAt_ret|by apply safeAt_raise]. Qed.

(** *** Values *)

Definition safeValue (v : value) : Prop :=
  match v with VOther _ num big _ => safe num any ∧ safe big any | _ => True end.

Lemma safe_ToNumber h v : wfHeap h → safeValue v → safeAt h (ToNumber v) any.
Proof. intros Hh Hv. destruct v; [by apply safeAt_ret|by apply safeAt_raise|by apply Hv]. Qed.
Lemma safe_toBigInt h v : wfHeap h → safeValue v → safeAt h (toBigInt v) any.
Proof. intros Hh Hv. destruct v; [by apply safeAt_raise|by apply safeAt_ret|by apply Hv]. Qed.
Lemma safe_VToInteger h v : wfHeap h → safeValue v → safeAt h (VToInteger v) any.
Proof. intros Hh Hv. eapply safeAt_bind; [by apply safe_ToNumber|]. intros. by apply safeAt_ret. Qed.
Lemma safe_VToFloat h v : wfHeap h → safeValue v → safeAt h (VToFloat v) any.
Proof. intros Hh Hv. eapply safeAt_bind; [by apply safe_ToNumber|]. intros. by apply safeAt_ret. Qed.
Lemma safe_VtoIndex h v : wfHeap h → safeValue v → safeAt h (VtoIndex v) (λ n _, 0 ≤ n < maxInt).
Proof.
  intros Hh Hv. eapply safeAt_bind; [by apply safe_ToNumber|]. intros n h' Hh' _ _.
  eapply safeAt_weaken; [by apply safeAt_liftResult|]. cbn. intros i _. unfold toIndex.
  destruct ((0 <=? _) && (_ <? maxInt)) eqn:E; [|done]. intros [= <-]. apply andb_true_iff in E as [E%Z.leb_le E'%Z.ltb_lt]. done.
Qed.
Lemma safe_endArg h v l : wfHeap h → safeValue v → safeAt h (endArg v l) any.
Proof. intros Hh Hv. unfold endArg. destruct (isUndefined v); [by apply safeAt_ret|by apply safe_VToInteger]. Qed.

(** *** Buffers *)

(** A live buffer, its data possibly nil. *)
Definition alive (h : heap) (b : nat) (d : option goslice) : Prop := bufs h !! b = Some (ArrayBuffer false d).
Definition isBuffer (h : heap) (b : nat) : Prop := is_Some (bufs h !! b).

Lemma isBuffer_evolves h h' b : evolves h h' → isBuffer h b → isBuffer h' b.
Proof. intros He [o Hb]. destruct (ev_bufs _ _ He _ _ Hb) as (o' & Hb' & _). by eexists. Qed.

Lemma alive_isBuffer h b d : alive h b d → isBuffer h b.
Proof. intros Hb. by eexists. Qed.

Lemma safe_ensureNotDetached {B} h b (k : unit → M B) ψ : wfHeap h → isBuffer h b →
  (∀ d, alive h b d → safeAt h (k ()) ψ) → safeAt h (ensureNotDetached b ≫= k) ψ.
Proof.
  intros Hh [[[] d] Hb] Hk; unfold safeAt, ensureNotDetached, buffer, mbind, M_bind; rewrite Hb; cbn.
  - split; [done|reflexivity].
  - by apply (Hk d).
Qed.

Lemma safe_notDetached {B} h b (k : bool → M B) ψ : isBuffer h b →
  (∀ d, alive h b d → safeAt h (k true) ψ) → safeAt h (k false) ψ → safeAt h (notDetached b ≫= k) ψ.
Proof.
  intros [[[] d] Hb] Hk Hk'; unfold safeAt, notDetached, buffer, mbind, M_bind; rewrite Hb; cbn; [done|by apply (Hk d)].
Qed.

Lemma safe_buffer {B} h b (k : arrayBufferObject → M B) ψ : isBuffer h b →
  (∀ o, bufs h !! b = Some o → safeAt h (k o) ψ) → safeAt h (buffer b ≫= k) ψ.
Proof. intros [o Hb] Hk. eapply safeAt_pure; [unfold buffer; by rewrite Hb|by apply Hk]. Qed.

Lemma safe_taData {B} h a (k : option goslice → M B) ψ : isBuffer h (viewedArrayBuf a) →
  (∀ o, bufs h !! viewedArrayBuf a = Some o → safeAt h (k (data o)) ψ) → safeAt h (taData a ≫= k) ψ.
Proof.
  intros [o Hb] Hk. eapply safeAt_pure; [|by apply Hk]. unfold taData, buffer, mbind, M_bind. by rewrite Hb.
Qed.

Lemma taData_alive {B} h a d (k : option goslice → M B) ψ : alive h (viewedArrayBuf a) d →
  safeAt h (k d) ψ → safeAt h (taData a ≫= k) ψ.
Proof. intros Hb Hk. apply safe_taData; [by apply (alive_isBuffer _ _ d)|]. intros o. unfold alive in Hb. rewrite Hb. intros [= <-]. exact Hk. Qed.

(** *** Bytes *)

Lemma safe_peek h s off n : wfHeap h → wfSlice (mem h) s → inSlice s off n = true →
  safeAt h (peekBytes (Some s) off n) (λ bs _, Z.of_nat (length bs) = n ∧ Forall byte bs).
Proof.
  intros Hh Hs Hin. unfold safeAt. rewrite peekBytes_ok by done. split; [done|]. split; [reflexivity|].
  split; [by apply length_sliceBytes|by apply sliceBytes_byte, wf_bytes].
Qed.

Lemma safe_poke h s off bs : wfHeap h → wfSlice (mem h) s → inSlice s off (Z.of_nat (length bs)) = true → Forall byte bs →
  safeAt h (pokeBytes (Some s) off bs) (λ _ h', bufs h' = bufs h).
Proof.
  intros Hh Hs Hin Hb. unfold safeAt. rewrite pokeBytes_ok by done. by destruct (wf_poke h s off bs Hh Hs Hin Hb).
Qed.

Lemma wf_alive h b s : wfHeap h → alive h b (Some s) → wfSlice (mem h) s.
Proof. intros Hh Hb. apply (wf_bufs _ Hh) in Hb. apply Hb. Qed.

Lemma lenData_nonneg h b o : wfHeap h → bufs h !! b = Some o → 0 ≤ lenData (data o) < 2 ^ 63.
Proof.
  intros Hh Hb. apply (wf_bufs _ Hh) in Hb as [_ Hd]. destruct (data o) as [s|]; [|done]. cbn.
  destruct Hd as (? & ? & ? & ? & ?). lia.
Qed.

Lemma wfData_buf h b o : wfHeap h → bufs h !! b = Some o → wfData (mem h) (data o).
Proof. intros Hh Hb. by apply (wf_bufs _ Hh) in Hb as [_ Hd]. Qed.

Lemma safe_copySlice h dst doff src soff n : wfHeap h → wfData (mem h) dst → wfData (mem h) src →
  0 ≤ doff ≤ lenData dst → 0 ≤ soff → 0 ≤ n → soff + n ≤ lenData src →
  safeAt h (copySlice dst doff src soff n) (λ _ h', bufs h' = bufs h).
Proof.
  intros Hh Hd Hs Hdo Hso Hn Hle. unfold copySlice. rewrite (proj2 (Z.ltb_ge _ doff)), (proj2 (Z.ltb_ge _ (soff + n))) by lia. cbn [orb].
  destruct (Z.eqb_spec (Z.min (lenData dst - doff) n) 0) as [|E]; [by apply safeAt_ret|].
  destruct dst as [sd|]; [|cbn in *; lia]. destruct src as [ss|]; [|cbn in *; lia]. cbn in *.
  set (n' := Z.min (slen sd - doff) n) in *. assert (inSlice ss soff n' = true) as Hin by (apply inSlice_spec; lia).
  eapply safeAt_pure; [by apply peekBytes_ok|]. apply safe_poke; [done|done| |by apply sliceBytes_byte, wf_bytes].
  rewrite length_sliceBytes by done. apply inSlice_spec. lia.
Qed.

Section elements.
Context `{Machine}.

(** ** Views stay well-formed *)

Lemma wfTA_evolves h h' a : wfHeap h' → evolves h h' → wfTA h a → wfTA h' a.
Proof.
  intros Hh' He (Ho & Hl & o & Hb & Hlen). destruct (ev_bufs _ _ He _ _ Hb) as (o' & Hb' & Hd & Hdata).
  split; [done|]. split; [done|]. exists o'. split; [done|]. intros Hd'. pose proof (lenData_nonneg _ _ _ Hh' Hb').
  destruct (detached o) eqn:E; [by rewrite Hd in Hd'|]. specialize (Hlen eq_refl).
  destruct (Hdata Hd') as [E'| ->]; [rewrite E' in Hlen; cbn in Hlen; lia|done].
Qed.

Lemma wfView_evolves h h' dv : wfHeap h' → evolves h h' → wfView h dv → wfView h' dv.
Proof.
  intros Hh' He (Ho & Hl & o & Hb & Hlen). destruct (ev_bufs _ _ He _ _ Hb) as (o' & Hb' & Hd & Hdata).
  split; [done|]. split; [done|]. exists o'. split; [done|]. intros Hd'. pose proof (lenData_nonneg _ _ _ Hh' Hb').
  destruct (detached o) eqn:E; [by rewrite Hd in Hd'|]. specialize (Hlen eq_refl).
  destruct (Hdata Hd') as [E'| ->]; [rewrite E' in Hlen; cbn in Hlen; lia|done].
Qed.

Lemma wfTA_isBuffer h a : wfTA h a → isBuffer h (viewedArrayBuf a).
Proof. intros (_ & _ & o & Hb & _). by exists o. Qed.

Lemma wfTA_data h a d : wfTA h a → alive h (viewedArrayBuf a) d → (ta_offset a + ta_length a) * taElemSize a ≤ lenData d.
Proof. intros (_ & _ & o & Hb & Hlen) Hd. unfold alive in Hd. rewrite Hd in Hb. injection Hb as <-. by apply Hlen. Qed.

(** A live array with elements has data. *)
Lemma alive_live h a d : wfTA h a → alive h (viewedArrayBuf a) d → 0 < ta_length a → ∃ s, d = Some s ∧ live h (viewedArrayBuf a) s.
Proof.
  intros Ha Hd Hl. pose proof (wfTA_data h a d Ha Hd) as Hlen. pose proof (elemSize_pos (defaultCtor a)).
  destruct Ha as (? & _). destruct d as [s|]; [by exists s|]. cbn in Hlen. unfold taElemSize, taOps in Hlen. nia.
Qed.

(** ** Elements *)

Lemma safe_store h s w i raw : wfHeap h → wfSlice (mem h) s → 0 < w → inBounds s w i →
  safeAt h (store w (typedArrayPtr w (Some s) i) raw) (λ _ h', bufs h' = bufs h).
Proof.
  intros Hh Hs Hw Hb. unfold safeAt. rewrite store_ok by done. by destruct (wf_store h s w i raw Hh Hs Hw Hb).
Qed.

Lemma safe_convElem h k v : wfHeap h → safeValue v → safeAt h (convElem k v) any.
Proof.
  intros Hh Hv. unfold convElem. destruct (isBig k).
  - eapply safeAt_bind; [by apply safe_toBigInt|]. intros. by apply safeAt_ret.
  - eapply safeAt_bind; [by apply safe_ToNumber|]. intros. by apply safeAt_ret.
Qed.

(** The pointer is computed before the conversion, which may detach the buffer:
    the write goes to the memory the buffer had. *)
Lemma safe_taSet h a s idx v : wfHeap h → live h (viewedArrayBuf a) s → inBounds s (taElemSize a) idx → safeValue v →
  safeAt h (taSet a idx v) any.
Proof.
  intros Hh Hl Hb Hv. unfold taSet. eapply safeAt_pure; [by apply taData_live|]. unfold safeAt. rewrite law_set.
  change (safeAt h (x ← convElem (defaultCtor a) v; store (taElemSize a) (typedArrayPtr (taElemSize a) (Some s) idx) x) any).
  eapply safeAt_bind; [by apply safe_convElem|]. intros x h' Hh' He _.
  eapply safeAt_weaken; [apply safe_store; [done| |apply elemSize_pos|done]|done].
  apply (wfSlice_evolves _ _ _ He). by apply (live_wf _ _ _ Hh Hl).
Qed.

Lemma safe_taSet_numeric h a s idx c : wfHeap h → live h (viewedArrayBuf a) s → inBounds s (taElemSize a) idx →
  safeAt h (taSet a idx (ofNumeric c)) (λ _ h', bufs h' = bufs h).
Proof.
  intros Hh Hl Hb. destruct (decide (sameContent (defaultCtor a) c)) as [Hc|Hc].
  - unfold safeAt. rewrite (taSet_ok _ _ _ _ _ Hl Hb Hc).
    by destruct (wf_store h s (taElemSize a) idx (rawOf (defaultCtor a) c) Hh (live_wf _ _ _ Hh Hl) (elemSize_pos _) Hb).
  - unfold taSet. eapply safeAt_pure; [by apply taData_live|]. unfold safeAt. rewrite law_set. unfold mbind, M_bind.
    destruct (convElem_mixed (defaultCtor a) c h Hc) as (msg & ->). split; [done|reflexivity].
Qed.

Lemma safe_swap h a s i j : wfHeap h → live h (viewedArrayBuf a) s → inBounds s (taElemSize a) i → inBounds s (taElemSize a) j →
  safeAt h (swap (taOps a) (Some s) i j) (λ _ h', bufs h' = bufs h).
Proof.
  intros Hh Hl Hi Hj. pose proof (live_wf _ _ _ Hh Hl) as Hs. pose proof (elemSize_pos (defaultCtor a)) as Hw.
  unfold safeAt, taOps. rewrite law_swap. unfold swapPtr. unfold taElemSize, taOps in *.
  match goal with |- match ?m h with _ => _ end => change (safeAt h m (λ _ h', bufs h' = bufs h)) end.
  eapply safeAt_pure; [by apply load_ok|]. eapply safeAt_pure; [by apply load_ok|].
  eapply safeAt_bind; [by apply safe_store|]. intros [] h' Hh' He Hb'. rewrite <- Hb'.
  apply safe_store; [done|by apply (wfSlice_evolves _ _ _ He)|done|done].
Qed.

Lemma less_ok h k s i j : wfSlice (mem h) s → inBounds s (elemSize (ops k)) i → inBounds s (elemSize (ops k)) j →
  ∃ b, less (ops k) (Some s) i j h = (Ret b, h).
Proof.
  intros Hs Hi Hj. destruct k; cbn in *; unfold mbind, M_bind, mret, M_ret;
    do 2 (rewrite load_ok by done; cbv beta iota); by eexists.
Qed.

Lemma safe_fillLoop h s w start raw n : wfHeap h → wfSlice (mem h) s → 0 < w → 0 ≤ start → (start + Z.of_nat n) * w ≤ slen s →
  safeAt h (fillLoop w (Some s) start raw n) any.
Proof.
  intros Hh Hs Hw. revert h start Hh Hs. induction n as [|n IH]; intros h start Hh Hs Hst Hn; [by apply safeAt_ret|].
  cbn [fillLoop]. eapply safeAt_bind; [apply safe_store; [done|done|done|]; apply (inBounds_range s w Hw _ (start + Z.of_nat (S n))); lia|].
  intros [] h' Hh' He _. apply IH; [done|by apply (wfSlice_evolves _ _ _ He)|lia|].
  by replace (start + 1 + Z.of_nat n) with (start + Z.of_nat (S n)) by lia.
Qed.

Lemma safe_fill h a s v start len : wfHeap h → live h (viewedArrayBuf a) s → safeValue v →
  0 ≤ start → 0 ≤ len → (start + len) * taElemSize a ≤ slen s →
  safeAt h (fill (taOps a) (Some s) v start len) any.
Proof.
  intros Hh Hl Hv Hst Hlen Hn. pose proof (elemSize_pos (defaultCtor a)) as Hw. unfold safeAt, taOps. rewrite law_fill.
  unfold taElemSize, taOps in *.
  match goal with |- match ?m h with _ => _ end => change (safeAt h m any) end.
  eapply safeAt_bind; [by apply safe_convElem|]. intros x h' Hh' He _. unfold typedArraySlice. cbn [lenData].
  destruct (slen s <=? start * elemSize (ops (defaultCtor a))); [by apply safeAt_ret|]. cbn [fillSlice].
  rewrite (proj2 (Z.ltb_ge len 0)) by lia. apply safe_fillLoop; [done| |done|done|by rewrite Z2Nat.id by lia].
  apply (wfSlice_evolves _ _ _ He). by apply (live_wf _ _ _ Hh Hl).
Qed.

Lemma safe_isValid {B} h a k (f : bool → M B) ψ : wfTA h a →
  (∀ s, live h (viewedArrayBuf a) s → 0 ≤ k < ta_length a → safeAt h (f true) ψ) → safeAt h (f false) ψ →
  safeAt h (isValidIntegerIndex a k ≫= f) ψ.
Proof.
  intros Ha Hk Hk'. pose proof (wfTA_isBuffer _ _ Ha) as [[[] d] Hb]; unfold safeAt, isValidIntegerIndex, notDetached, buffer, mbind, M_bind;
    rewrite Hb; cbn; [done|].
  destruct ((0 <=? k) && (k <? ta_length a)) eqn:E; [|done]. apply andb_true_iff in E as [E%Z.leb_le E'%Z.ltb_lt].
  destruct (alive_live h a d Ha Hb ltac:(lia)) as (s & -> & Hl). by apply (Hk s).
Qed.

Lemma safe_elemArg h a k : wfHeap h → wfTA h a → safeAt h (elemArg a k) any.
Proof.
  intros Hh Ha. unfold elemArg. apply safe_isValid; [done| |by apply safeAt_ret]. intros s Hl Hk.
  eapply safeAt_pure; [|by apply safeAt_ret]. apply (taGet_ok _ _ s); [by apply (live_wf _ _ _ Hh Hl)|done|by apply (wfTA_inBounds h)].
Qed.

Lemma safe_toContent h k v : wfHeap h → safeValue v → safeAt h (toContent k v) (λ c _, ∃ n, c = ofNumeric n).
Proof.
  intros Hh Hv. unfold toContent. destruct (isBig k).
  - eapply safeAt_bind; [by apply safe_toBigInt|]. intros b h' Hh' _ _. apply safeAt_ret; [done|]. by exists (NBig b).
  - eapply safeAt_bind; [by apply safe_ToNumber|]. intros n h' Hh' _ _. apply safeAt_ret; [done|]. by exists (NNum n).
Qed.

(** ** Element access *)

Lemma safe_getIdx h a i : wfHeap h → wfTA h a → safeAt h (getIdx a i) any.
Proof.
  intros Hh Ha. unfold getIdx, _getIdx. destruct ((0 <=? i) && (i <? ta_length a)) eqn:E; [|by apply safeAt_ret].
  apply andb_true_iff in E as [E%Z.leb_le E'%Z.ltb_lt].
  apply safe_notDetached; [by apply wfTA_isBuffer| |by apply safeAt_ret]. intros d Hd.
  destruct (alive_live h a d Ha Hd ltac:(lia)) as (s & -> & Hl). eapply safeAt_pure; [|by apply safeAt_ret].
  apply (taGet_ok _ _ s); [by apply (live_wf _ _ _ Hh Hl)|done|]. rewrite Z.add_comm. by apply (wfTA_inBounds h).
Qed.

Lemma safe_setOwnIdx h a i v : wfHeap h → wfTA h a → safeValue v → safeAt h (setOwnIdx a i v) any.
Proof.
  intros Hh Ha Hv. unfold setOwnIdx, _putIdx. eapply (safeAt_bind _ _ _ any); [|intros; by apply safeAt_ret].
  eapply safeAt_bind; [by apply safe_toContent|]. intros c h1 Hh1 He (n & ->).
  pose proof (wfTA_evolves _ _ _ Hh1 He Ha) as Ha1. apply safe_isValid; [done| |by apply safeAt_ret]. intros s Hl Hi.
  eapply safeAt_weaken; [apply (safe_taSet_numeric _ _ s); [done|done|]|done]. rewrite Z.add_comm. by apply (wfTA_inBounds h1).
Qed.

Lemma safe_deleteIdx h a i throw : wfHeap h → wfTA h a → safeAt h (deleteIdx a i throw) any.
Proof.
  intros Hh Ha. unfold deleteIdx. apply safe_notDetached; [by apply wfTA_isBuffer|intros d _|cbn; by apply safeAt_ret].
  destruct (true && (0 <=? i) && (i <? ta_length a)); [|by apply safeAt_ret]. destruct throw; [by apply safeAt_raise|by apply safeAt_ret].
Qed.

(** ** Data views *)

Lemma wfView_isBuffer h dv : wfView h dv → isBuffer h (dvBuf dv).
Proof. intros (_ & _ & o & Hb & _). by exists o. Qed.

(** Where an access of [n] bytes goes: into the data of the buffer. *)
Definition accessible (dv : dataViewObject) (n : Z) (p : Z * byteOrder) (h : heap) : Prop :=
  ∃ s, live h (dvBuf dv) s ∧ inSlice s p.1 n = true.

Lemma safe_access h dv i le n : wfHeap h → wfView h dv → 0 ≤ i → 0 < n →
  safeAt h (getIdxAndByteOrder dv i le n) (accessible dv n).
Proof.
  intros Hh Hv Hi Hn. unfold getIdxAndByteOrder. apply safe_ensureNotDetached; [done|by apply wfView_isBuffer|]. intros d Hb.
  destruct (Z.ltb_spec (byteLen dv) (i + n)); [by apply safeAt_raise|]. apply safeAt_ret; [done|].
  destruct Hv as (Ho & Hl & o & Hb' & Hlen). unfold alive in Hb. rewrite Hb in Hb'. injection Hb' as <-. specialize (Hlen eq_refl). cbn in Hlen.
  destruct d as [s|]; [|cbn in Hlen; lia]. exists s. split; [done|]. apply inSlice_spec. cbn in *. lia.
Qed.

Lemma safe_viewIndex h dv a0 a1 n : wfHeap h → wfView h dv → safeValue a0 → 0 < n →
  safeAt h (viewIndex dv a0 a1 n) (accessible dv n).
Proof.
  intros Hh Hv Ha Hn. unfold viewIndex. eapply safeAt_bind; [by apply safe_VtoIndex|]. intros i h' Hh' He [Hi _].
  apply safe_access; [done|by apply (wfView_evolves h)|done|done].
Qed.

Lemma safe_getRaw {B} h b s w idx bo (k : Z → M B) ψ : wfHeap h → live h b s → inSlice s idx w = true →
  (∀ x, safeAt h (k x) ψ) → safeAt h (getRaw w b idx bo ≫= k) ψ.
Proof. intros Hh Hl Hin Hk. eapply safeAt_pure; [by apply getRaw_ok|apply Hk]. Qed.

Lemma safe_setRaw h b s w idx x bo : wfHeap h → 0 ≤ w → live h b s → inSlice s idx w = true → safeAt h (setRaw w b idx x bo) any.
Proof.
  intros Hh Hw Hl Hin. unfold safeAt. rewrite (setRaw_ok h b s) by done.
  destruct (wf_poke h s idx (orderBytes bo (Z.to_nat w) x) Hh (live_wf _ _ _ Hh Hl)) as [? ?]; [|apply orderBytes_byte|done].
  by rewrite length_orderBytes, Z2Nat.id.
Qed.

Lemma safe_viewGet h k dv a0 a1 : wfHeap h → wfView h dv → safeValue a0 → safeAt h (viewGet k dv a0 a1) any.
Proof.
  intros Hh Hv Ha. destruct k; cbn [viewGet]; unfold dataViewProto_getFloat16, dataViewProto_getFloat32, dataViewProto_getFloat64,
    dataViewProto_getInt8, dataViewProto_getInt16, dataViewProto_getInt32, dataViewProto_getUint8, dataViewProto_getUint16,
    dataViewProto_getUint32, dataViewProto_getBigInt64, dataViewProto_getBigUint64, getFloat16, getFloat32,
    getFloat64, getInt8, getInt16, getInt32, getBigInt64, getBigUint64, getUint8, getUint16, getUint32, getUint64;
    (eapply safeAt_bind; [by apply safe_viewIndex|]); intros p h' Hh' _ (s & Hl & Hin);
    try (apply (safe_getRaw _ _ s); [done..|]; intros x; by apply safeAt_ret);
    (eapply (safeAt_bind _ _ _ any); [apply (safe_getRaw _ _ s); [done..|]|]; intros; by apply safeAt_ret).
Qed.

(** What a setter stores is converted first, then the view is checked. *)
Lemma safe_viewStore {A} h dv a0 le n (conv : M A) (f : A → Z * byteOrder → M unit) : wfHeap h → wfView h dv → safeValue a0 → 0 < n →
  safe conv any → (∀ x p h', wfHeap h' → accessible dv n p h' → safeAt h' (f x p) any) →
  safeAt h (i ← VtoIndex a0; x ← conv; p ← getIdxAndByteOrder dv i le n; f x p) any.
Proof.
  intros Hh Hv Ha Hn Hc Hf. eapply safeAt_bind; [by apply safe_VtoIndex|]. intros i h1 Hh1 He1 [Hi _].
  eapply safeAt_bind; [by apply Hc|]. intros x h2 Hh2 He2 _. eapply safeAt_bind.
  { apply safe_access; [done| |done|done]. apply (wfView_evolves h1); [done..|]. by apply (wfView_evolves h). }
  intros p h3 Hh3 _ Hp. by apply Hf.
Qed.

Lemma safe_toBigInt64 h v : wfHeap h → safeValue v → safeAt h (toBigInt64 v) any.
Proof. intros Hh Hv. eapply safeAt_bind; [by apply safe_toBigInt|]. intros. by apply safeAt_ret. Qed.
Lemma safe_toBigUint64 h v : wfHeap h → safeValue v → safeAt h (toBigUint64 v) any.
Proof. intros Hh Hv. eapply safeAt_bind; [by apply safe_toBigInt|]. intros. by apply safeAt_ret. Qed.

Lemma safe_viewSet h k dv a0 a1 a2 : wfHeap h → wfView h dv → safeValue a0 → safeValue a1 →
  safeAt h (viewSet k dv a0 a1 a2) any.
Proof.
  intros Hh Hv Ha Ha1. destruct k; cbn [viewSet]; unfold dataViewProto_setFloat16, dataViewProto_setFloat32, dataViewProto_setFloat64,
    dataViewProto_setInt8, dataViewProto_setInt16, dataViewProto_setInt32, dataViewProto_setUint8, dataViewProto_setUint16,
    dataViewProto_setUint32, dataViewProto_setBigInt64, dataViewProto_setBigUint64,
    setFloat16, setFloat32, setFloat64, setInt8, setInt16, setInt32, setBigInt64, setBigUint64, setUint8, setUint16, setUint64;
    apply safe_viewStore; try done; try (intros h' Hh'; by first [apply safe_ToNumber|apply safe_VToFloat|apply safe_toBigInt64|apply safe_toBigUint64]);
    intros x p h' Hh' (s & Hl & Hin); try (by apply (safe_setRaw _ _ s)).
  all: unfold setUint32; apply safe_ensureNotDetached; [done|by exists (ArrayBuffer false (Some s))|]; intros d Hd; by apply (safe_setRaw _ _ s).
Qed.
End elements.

(** ** Allocation *)

Lemma evolves_app h m' b' : evolves h (Heap (mem h ++ m') (bufs h ++ b')).
Proof.
  split; cbn.
  - intros i blk Hi. exists blk. split; [by apply lookup_app_l_Some|done].
  - intros b o Hb. exists o. split; [by apply lookup_app_l_Some|]. auto.
Qed.

Lemma wf_app h m' b' : wfHeap h → Forall (Forall byte) m' → Forall (wfBuffer (mem h ++ m')) b' →
  wfHeap (Heap (mem h ++ m') (bufs h ++ b')) ∧ evolves h (Heap (mem h ++ m') (bufs h ++ b')).
Proof.
  intros Hh Hm Hb. pose proof (evolves_app h m' b') as He. split; [|done]. split; cbn.
  - apply Forall_app. split; [by apply wf_bytes|done].
  - intros b o [Ho|(_ & Ho)]%lookup_app_Some; [|by apply (Forall_lookup_1 _ _ _ _ Hb Ho)].
    destruct (wf_bufs _ Hh _ _ Ho) as [H1 H2]. split; [done|]. destruct (data o); [|done]. by apply (wfSlice_evolves _ _ _ He).
Qed.

(** A new block of bytes. *)
Definition newSlice (h : heap) (n : Z) (s : goslice) (h' : heap) : Prop := wfSlice (mem h') s ∧ slen s = n ∧ bufs h' = bufs h.

Lemma newSlice_wf (m : memory) bs n : Z.of_nat (length bs) = n → n < 2 ^ 63 → wfSlice (m ++ [bs]) (Slice (length m) 0 n).
Proof. intros Hl Hn. exists bs. cbn. split; [by apply list_lookup_middle|]. lia. Qed.

Lemma safe_newBytes h bs : wfHeap h → Forall byte bs → Z.of_nat (length bs) < 2 ^ 63 →
  safeAt h (newBytes bs) (newSlice h (Z.of_nat (length bs))).
Proof.
  intros Hh Hb Hn. unfold safeAt, newBytes. pose proof (wf_app h [bs] [] Hh) as Hw. rewrite app_nil_r in Hw.
  destruct Hw as [? ?]; [by constructor|constructor|]. split; [done|]. split; [done|]. split; [by apply newSlice_wf|done].
Qed.

Lemma safe_alloc h n : wfHeap h → n < 2 ^ 63 → safeAt h (allocByteSlice n) (newSlice h n).
Proof.
  intros Hh Hn. unfold allocByteSlice. destruct (Z.ltb_spec n 0); [by apply safeAt_raise|].
  pose proof (safe_newBytes h (replicate (Z.to_nat n) 0) Hh) as Hb. unfold safeAt, newBytes in *. rewrite length_replicate, Z2Nat.id in Hb by lia.
  apply Hb; [|done]. apply Forall_replicate. unfold byte. lia.
Qed.

Definition freshBuf (h : heap) (d : option goslice) (b : nat) (h' : heap) : Prop :=
  b = length (bufs h) ∧ alive h' b d ∧ mem h' = mem h ∧ bufs h' = bufs h ++ [ArrayBuffer false d].

Lemma safe_newArrayBuffer h d : wfHeap h → wfData (mem h) d → safeAt h (_newArrayBuffer d) (freshBuf h d).
Proof.
  intros Hh Hd. unfold safeAt, _newArrayBuffer. pose proof (wf_app h [] [ArrayBuffer false d] Hh) as Hw. rewrite app_nil_r in Hw.
  destruct Hw as [? ?]; [constructor|by repeat constructor|]. split; [done|]. split; [done|]. split_and!; try done.
  unfold alive. cbn. by apply list_lookup_middle.
Qed.

(** Setting the data of a live buffer that has none. *)
Lemma safe_setData h b s : wfHeap h → alive h b None → wfSlice (mem h) s → 
  safeAt h (setData b s) (λ _ h', alive h' b (Some s) ∧ mem h' = mem h ∧ ∀ b', b' ≠ b → bufs h' !! b' = bufs h !! b').
Proof.
  intros Hh Hb Hs. unfold safeAt, setData, alive in *. cbn. split; [|split; [|split]].
  - split; cbn; [by apply wf_bytes|]. intros b' o. rewrite list_lookup_alter. destruct (decide (b = b')) as [<-|].
    + rewrite Hb. cbn. by intros [= <-].
    + apply (wf_bufs _ Hh).
  - split; cbn; [eauto|]. intros b' o Ho. rewrite list_lookup_alter. destruct (decide (b = b')) as [<-|]; [|exists o; auto].
    rewrite Hb in Ho |- *. injection Ho as <-. cbn. eexists. split; [done|]. cbn. auto.
  - rewrite list_lookup_alter, decide_True by done. by rewrite Hb.
  - split; [done|]. intros b' Hne. by rewrite list_lookup_alter, decide_False.
Qed.

Lemma safe_detach h b : wfHeap h → isBuffer h b → safeAt h (detach b) (λ _ h', mem h' = mem h).
Proof.
  intros Hh [o Hb]. unfold safeAt, detach. cbn. split; [|split; [|done]].
  - split; cbn; [by apply wf_bytes|]. intros b' o'. rewrite list_lookup_alter. destruct (decide (b = b')) as [<-|].
    + rewrite Hb. cbn. by intros [= <-].
    + apply (wf_bufs _ Hh).
  - split; cbn; [eauto|]. intros b' o' Ho. rewrite list_lookup_alter. destruct (decide (b = b')) as [<-|]; [|exists o'; auto].
    rewrite Hb in Ho |- *. injection Ho as <-. cbn. eexists. by split_and!.
Qed.

(** ** ArrayBuffer *)

(** Code that runs while a builtin holds a buffer it has just created: it cannot
    reach that buffer. *)
Definition keepsLast {A} (m : M A) : Prop := ∀ h, wfHeap h →
  safeAt h m (λ _ h', ∀ b, S b = length (bufs h) → bufs h' !! b = bufs h !! b).

Lemma keepsLast_ret {A} (a : A) : keepsLast (mret a).
Proof. intros h Hh. by apply safeAt_ret. Qed.

Definition keepsLastValue (v : value) : Prop := match v with VOther _ num _ _ => keepsLast num | _ => True end.

Lemma safe_builtin_newArrayBuffer h proto arg : wfHeap h → safe proto any →
  match arg with Some v => keepsLastValue v | None => True end →
  safeAt h (builtin_newArrayBuffer proto arg) (λ b h', isBuffer h' b).
Proof.
  intros Hh Hp Ha. unfold builtin_newArrayBuffer. eapply safeAt_bind; [by apply Hp|]. intros _ h1 Hh1 _ _.
  eapply safeAt_bind; [by apply safe_newArrayBuffer|]. intros b h2 Hh2 _ (Hb & Hal & _ & Hbufs).
  destruct arg as [v|]; [|apply safeAt_ret; [done|by apply (alive_isBuffer _ _ None)]].
  assert (S b = length (bufs h2)) as Hlast by (rewrite Hbufs, length_app, Hb; cbn; lia).
  eapply (safeAt_bind _ _ _ (λ n h3, 0 ≤ n < maxInt ∧ alive h3 b None)).
  { unfold VtoIndex. eapply (safeAt_bind _ _ _ (λ _ h3, alive h3 b None)).
    - destruct v as [n|z|u num big t]; [by apply safeAt_ret|by apply safeAt_raise|].
      eapply safeAt_weaken; [by apply Ha|]. cbn. intros _ h3 Hk. unfold alive. by rewrite (Hk b Hlast).
    - intros n h3 Hh3 _ Hal3. eapply safeAt_weaken.
      + instantiate (1 := λ i h, toIndex n = Ok i ∧ alive h b None).
        destruct (toIndex n); [apply safeAt_ret; [done|by split]|by apply safeAt_raise].
      + cbn. intros i h4 [Hi Hal4]. split; [|done]. revert Hi. unfold toIndex.
        destruct ((0 <=? _) && (_ <? maxInt)) eqn:E; [|done]. intros [= <-].
        by apply andb_true_iff in E as [E%Z.leb_le E'%Z.ltb_lt]. }
  intros n h3 Hh3 _ [Hn Hal3]. eapply safeAt_bind; [apply safe_alloc; [done|unfold maxInt in *; lia]|].
  intros s h4 Hh4 _ (Hs & _ & Hb4). assert (alive h4 b None) as Hal4 by (unfold alive in *; by rewrite Hb4).
  eapply safeAt_bind; [by apply safe_setData|]. intros _ h5 Hh5 _ [Hal5 _].
  apply safeAt_ret; [done|by apply (alive_isBuffer _ _ (Some s))].
Qed.

Lemma safe_transfer h b v : wfHeap h → isBuffer h b → safeValue v → safeAt h (arrayBufferCopyAndDetach b v) (λ b' h', isBuffer h' b').
Proof.
  intros Hh Hb Hv. unfold arrayBufferCopyAndDetach. eapply (safeAt_bind _ _ _ (λ n _, 0 ≤ n < 2 ^ 63)).
  { destruct (isUndefined v).
    - apply safe_buffer; [done|]. intros o Ho. apply safeAt_ret; [done|]. by apply (lenData_nonneg h b).
    - eapply safeAt_weaken; [by apply safe_VtoIndex|]. unfold maxInt. cbn. intros. lia. }
  intros n h1 Hh1 He1 Hn. assert (isBuffer h1 b) as Hb1 by (by apply (isBuffer_evolves h)).
  apply safe_ensureNotDetached; [done|done|]. intros d Hd. apply safe_buffer; [done|]. intros o Ho.
  unfold alive in Hd. rewrite Ho in Hd. injection Hd as ->. cbn [data].
  pose proof (wfData_buf _ _ _ Hh1 Ho) as Hwd. cbn [data] in Hwd.
  eapply (safeAt_bind _ _ _ (λ d' h', wfData (mem h') d')).
  { destruct (Z.leb_spec n (lenData d)).
    - apply safeAt_ret; [done|]. destruct d as [s|]; [|done]. destruct Hwd as (blk & ? & ? & ? & ? & ?). cbn in *.
      exists blk. cbn. split_and!; try done; lia.
    - eapply safeAt_bind; [apply safe_alloc; [done|lia]|]. intros s h2 Hh2 He2 (Hs & Hsl & Hb2).
      assert (wfData (mem h2) d) as Hd2 by (destruct d; [by apply (wfSlice_evolves _ _ _ He2)|done]).
      pose proof (lenData_nonneg h1 b _ Hh1 Ho) as Hl. cbn [data] in Hl.
      eapply safeAt_bind; [apply safe_copySlice; [done|done|done|cbn; lia..]|].
      intros _ h3 Hh3 He3 _. apply safeAt_ret; [done|]. by apply (wfSlice_evolves _ _ _ He3). }
  intros d' h2 Hh2 He2 Hd'. eapply safeAt_bind; [apply safe_detach; [done|by apply (isBuffer_evolves h1)]|].
  intros [] h3 Hh3 _ Hm3. cbn in Hm3. eapply safeAt_weaken; [apply safe_newArrayBuffer; [done|by rewrite Hm3]|].
  intros b' h4 (_ & Hal & _). by apply (alive_isBuffer _ _ d').
Qed.
End TypedArraySafe.
