(* ===== verification/TypedArraySafeOps.v ===== *)
(** * Memory safety of the constructors and methods

    Each builtin is safe from any well-formed heap, and the views it returns are
    well-formed; [typedarray_memory_safe] collects them. *)

From S2P Require Import Prelude Float64 Numbers Arith FloatBits TypedArrays TypedArrayOps TypedArrayMem TypedArrayProps TypedArraySet TypedArraySearch TypedArraySafe.
Import Float64 Numbers Arith FloatBits TypedArrays TypedArrayOps TypedArrayMem TypedArrayProps TypedArraySet TypedArraySearch TypedArraySafe.
Open Scope Z_scope.

Module TypedArraySafeOps.

Definition safeArg (v : option value) : Prop := match v with Some v => safeValue v | None => True end.

Definition safeBufferSpecies (species : Z → M (option nat)) : Prop :=
  ∀ n, safe (species n) (λ o h', match o with Some b => isBuffer h' b | None => True end).

Lemma alive_data h b d o : alive h b d → bufs h !! b = Some o → data o = d.
Proof. unfold alive. intros ->. by intros [= <-]. Qed.

Lemma safe_arrayBuffer_slice h b species a0 a1 : wfHeap h → isBuffer h b → safeBufferSpecies species → safeValue a0 → safeValue a1 →
  safeAt h (arrayBufferProto_slice b species a0 a1) (λ b' h', isBuffer h' b').
Proof.
  intros Hh Hb Hsp H0 H1. unfold arrayBufferProto_slice. apply safe_ensureNotDetached; [done|done|]. intros d Hd.
  apply safe_buffer; [done|]. intros o Ho. pose proof (alive_data _ _ _ _ Hd Ho) as Ed. rewrite Ed.
  pose proof (lenData_nonneg _ _ _ Hh Ho) as Hl. rewrite Ed in Hl. set (l := lenData d) in *.
  eapply safeAt_bind; [by apply safe_VToInteger|]. intros start h1 Hh1 He1 _. pose proof (relToIdx_range start l ltac:(lia)) as Hst.
  eapply safeAt_bind; [by apply safe_endArg|]. intros stop h2 Hh2 He2 _. pose proof (relToIdx_range stop l ltac:(lia)) as Hsp'.
  set (start' := relToIdx start l) in *. set (stop' := relToIdx stop l) in *. cbv zeta.
  eapply safeAt_bind; [by apply Hsp|]. intros ret h3 Hh3 He3 Hret. cbn in Hret. destruct ret as [ab|]; [|by apply safeAt_raise].
  assert (evolves h h3) as He by (etrans; [done|]; by etrans).
  apply safe_ensureNotDetached; [done|by apply (isBuffer_evolves h)|]. intros d3 Hd3.
  destruct (decide (ab = b)) as [|Hne]; [by apply safeAt_raise|].
  apply safe_buffer; [done|]. intros abo Hab. destruct (Z.ltb_spec (lenData (data abo)) (Z.max (stop' - start') 0)) as [|Hfit]; [by apply safeAt_raise|].
  apply safe_ensureNotDetached; [done|done|]. intros dab Hdab. rewrite (alive_data _ _ _ _ Hdab Hab) in *.
  eapply (safeAt_bind _ _ _ any).
  { destruct (Z.ltb_spec 0 (Z.max (stop' - start') 0)); [|by apply safeAt_ret].
    apply safe_buffer; [by apply (isBuffer_evolves h)|]. intros o3 Ho3.
    assert (data o3 = d) as Ed3.
    { destruct (ev_bufs _ _ He _ _ Ho) as (o' & Ho' & _ & Hdata). rewrite Ho3 in Ho'. injection Ho' as <-.
      unfold alive in Hd3. rewrite Ho3 in Hd3. injection Hd3 as E3. destruct Hdata as [E|E]; [by rewrite E3| |congruence].
      rewrite Ed in E. assert (l = 0) by (unfold l; by rewrite E). lia. }
    rewrite Ed3. eapply safeAt_weaken; [apply safe_copySlice|done]; [done| | |lia|lia|lia|fold l; lia].
    - pose proof (wfData_buf _ _ _ Hh3 Hdab). done.
    - pose proof (wfData_buf _ _ _ Hh3 Ho3) as Hw. by rewrite Ed3 in Hw. }
  intros _ h4 Hh4 He4 _. apply safeAt_ret; [done|]. by apply (isBuffer_evolves h3).
Qed.

Lemma safe_newDataView h proto b a1 a2 : wfHeap h → isBuffer h b → safe proto any → safeArg a1 → safeArg a2 →
  safeAt h (newDataView proto b a1 a2) (λ dv h', wfView h' dv).
Proof.
  intros Hh Hb Hp H1 H2. unfold newDataView.
  eapply (safeAt_bind _ _ _ (λ n h', 0 ≤ n ∧ ∀ o, bufs h' !! b = Some o → n ≤ lenData (data o))).
  { destruct a1 as [v|].
    - eapply safeAt_bind; [by apply safe_VtoIndex|]. intros n h1 Hh1 He1 [Hn _].
      assert (isBuffer h1 b) by (by apply (isBuffer_evolves h)). apply safe_ensureNotDetached; [done|done|]. intros d _.
      apply safe_buffer; [done|]. intros o Ho. destruct (Z.ltb_spec (lenData (data o)) n); [by apply safeAt_raise|].
      apply safeAt_ret; [done|]. split; [done|]. intros o' Ho'. rewrite Ho in Ho'. by injection Ho' as <-.
    - apply safeAt_ret; [done|]. split; [done|]. intros o Ho. by apply (lenData_nonneg h b). }
  intros off h1 Hh1 He1 [Hoff Hle]. assert (isBuffer h1 b) as Hb1 by (by apply (isBuffer_evolves h)).
  eapply (safeAt_bind _ _ _ (λ n _, 0 ≤ n)).
  { assert (safeAt h1 (o ← buffer b; mret (lenData (data o) - off)) (λ n _, 0 ≤ n)) as Hrest.
    { apply safe_buffer; [done|]. intros o Ho. apply safeAt_ret; [done|]. specialize (Hle o Ho). lia. }
    destruct a2 as [v|]; [|done]. destruct (isUndefined v); [done|].
    eapply safeAt_bind; [by apply safe_VtoIndex|]. intros n h2 Hh2 He2 [Hn _]. apply safe_buffer; [by apply (isBuffer_evolves h1)|]. intros o _.
    destruct (_ <? off + n); [by apply safeAt_raise|by apply safeAt_ret]. }
  intros len h2 Hh2 He2 Hlen. eapply safeAt_bind; [by apply Hp|]. intros _ h3 Hh3 He3 _.
  assert (isBuffer h3 b) as Hb3 by (apply (isBuffer_evolves h1); [by etrans|done]).
  apply safe_ensureNotDetached; [done|done|]. intros d Hd. apply safe_buffer; [done|]. intros o Ho.
  destruct (Z.ltb_spec (lenData (data o)) off); [by apply safeAt_raise|]. destruct (Z.ltb_spec (lenData (data o)) (off + len)); [by apply safeAt_raise|].
  apply safeAt_ret; [done|]. split_and!; [done|done|]. by exists o.
Qed.

Section ctors.
Context `{Machine}.

Lemma safe_allocateTypedArray h proto n k : wfHeap h → keepsLast proto → 0 ≤ n < maxInt →
  safeAt h (allocateTypedArray proto n k)
    (λ a h', wfTA h' a ∧ ta_offset a = 0 ∧ ta_length a = n ∧ defaultCtor a = k ∧ ∃ d, alive h' (viewedArrayBuf a) d ∧ (n = 0 → d = None)).
Proof.
  intros Hh Hp Hn. unfold allocateTypedArray. eapply safeAt_bind; [by apply safe_newArrayBuffer|].
  intros b h1 Hh1 _ (Hb & Hal & _ & Hbufs). assert (S b = length (bufs h1)) as Hlast by (rewrite Hbufs, length_app, Hb; cbn; lia).
  eapply safeAt_bind; [by apply Hp|]. intros [] h2 Hh2 _ Hk. cbn in Hk.
  assert (alive h2 b None) as Hal2 by (unfold alive in *; by rewrite (Hk b Hlast)).
  pose proof (elemSize_pos k). pose proof (elemSize_cases k).
  eapply (safeAt_bind _ _ _ (λ _ h', ∃ d, alive h' b d ∧ n * elemSize (ops k) ≤ lenData d ∧ (n = 0 → d = None))).
  { destruct (Z.ltb_spec 0 n).
    - eapply safeAt_bind; [apply safe_alloc; [done|unfold maxInt in *; lia]|]. intros s h3 Hh3 _ (Hs & Hsl & Hb3).
      eapply safeAt_weaken; [apply safe_setData; [done|unfold alive in *; by rewrite Hb3|done]|].
      cbn. intros _ h4 [Hal4 _]. exists (Some s). cbn. split_and!; [done|lia|lia].
    - apply safeAt_ret; [done|]. exists None. cbn. split_and!; [done|nia|done]. }
  intros [] h3 Hh3 _ (d & Hd & Hlen & Hz). apply safeAt_ret; [done|]. split_and!; try done; [|by exists d].
  split_and!; cbn; [done|lia|]. exists (ArrayBuffer false d). split; [done|]. intros _. cbn. unfold taElemSize, taOps. cbn. lia.
Qed.

Lemma safe_fromArrayBuffer h proto b a1 a2 k : wfHeap h → isBuffer h b → safe proto any → safeArg a1 → safeArg a2 →
  safeAt h (_newTypedArrayFromArrayBuffer proto b a1 a2 k)
    (λ a h', wfTA h' a ∧ defaultCtor a = k ∧ viewedArrayBuf a = b ∧ ∃ d, alive h' b d).
Proof.
  intros Hh Hb Hp H1 H2. unfold _newTypedArrayFromArrayBuffer. pose proof (elemSize_pos k) as Hw. set (w := elemSize (ops k)) in *.
  eapply safeAt_bind; [by apply Hp|]. intros _ h1 Hh1 He1 _. cbv zeta. eapply (safeAt_bind _ _ _ (λ n _, 0 ≤ n ∧ Z.rem n w = 0)).
  { assert (safeArg (definedArg a1)) as Ha by (destruct a1 as [v|]; [|done]; cbn; by destruct (isUndefined v)).
    destruct (definedArg a1) as [v|]; [|by apply safeAt_ret]. eapply safeAt_bind; [by apply safe_VtoIndex|]. intros n h2 Hh2 _ [Hn _].
    destruct (Z.eqb_spec (Z.rem n w) 0); cbn [negb]; [by apply safeAt_ret|by apply safeAt_raise]. }
  intros off h2 Hh2 He2 [Hoff Hrem]. assert (off = Z.quot off w * w) as Hq.
  { pose proof (Z.quot_rem off w ltac:(lia)). lia. }
  assert (0 ≤ Z.quot off w) as Hq0 by (apply Z.quot_pos; lia).
  assert (isBuffer h2 b) as Hb2 by (apply (isBuffer_evolves h1); [done|]; by apply (isBuffer_evolves h)).
  eapply (safeAt_bind _ _ _ (λ n h', 0 ≤ n ∧ ∃ d, alive h' b d ∧ (Z.quot off w + n) * w ≤ lenData d)).
  { assert (safeArg (definedArg a2)) as Ha by (destruct a2 as [v|]; [|done]; cbn; by destruct (isUndefined v)).
    destruct (definedArg a2) as [v|].
    - eapply safeAt_bind; [by apply safe_VtoIndex|]. intros n h3 Hh3 He3 [Hn _]. assert (isBuffer h3 b) by (by apply (isBuffer_evolves h2)).
      apply safe_ensureNotDetached; [done|done|]. intros d Hd. apply safe_buffer; [done|]. intros o Ho. rewrite (alive_data _ _ _ _ Hd Ho).
      destruct (Z.ltb_spec (lenData d) (off + n * w)); [by apply safeAt_raise|]. apply safeAt_ret; [done|]. split; [done|]. exists d. split; [done|lia].
    - apply safe_ensureNotDetached; [done|done|]. intros d Hd. apply safe_buffer; [done|]. intros o Ho. rewrite (alive_data _ _ _ _ Hd Ho).
      destruct (Z.eqb_spec (Z.rem (lenData d) w) 0) as [Er|]; cbn [negb]; [|by apply safeAt_raise].
      destruct (Z.ltb_spec (Z.quot (lenData d - off) w) 0) as [|Hge]; [by apply safeAt_raise|]. apply safeAt_ret; [done|]. split; [done|].
      exists d. split; [done|]. pose proof (Z.quot_rem (lenData d) w ltac:(lia)) as Hl.
      assert (lenData d - off = (Z.quot (lenData d) w - Z.quot off w) * w) as E by lia. rewrite E, Z.quot_mul by lia. lia. }
  intros n h3 Hh3 He3 (Hn & d & Hd & Hlen). apply safeAt_ret; [done|]. split_and!; try done; [|by exists d].
  split_and!; cbn; [done|done|]. exists (ArrayBuffer false d). split; [done|]. intros _. done.
Qed.

Lemma safeMul_exact l r n : 0 ≤ l < 2 ^ 63 → 0 < r ≤ 8 → safeMul l r = Ok n → n = l * r ∧ n < 2 ^ 63.
Proof.
  intros Hl Hr. unfold safeMul. set (res := swrap 64 (l * r)).
  pose proof (swrap_range 64 (l * r) ltac:(lia)) as Hres. fold res in Hres. change (2 ^ (64 - 1)) with (2 ^ 63) in Hres.
  destruct (Z.eqb_spec l 0) as [->|Hl0]; [intros [= <-]; split; [done|lia]|]. destruct (Z.eqb_spec r 0); [lia|]. cbn [orb].
  destruct (Z.eqb_spec (swrap 64 (Z.quot res l)) r) as [E|]; [|done]. intros [= <-]. split; [|lia].
  assert (∃ q, l * r = res + q * 2 ^ 64) as (q & Hq).
  { exists ((l * r + 2 ^ 63) / 2 ^ 64). unfold res, swrap. change (2 ^ (64 - 1)) with (2 ^ 63).
    pose proof (Z.div_mod (l * r + 2 ^ 63) (2 ^ 64) ltac:(lia)). lia. }
  pose proof (Z.quot_rem res l ltac:(lia)) as Hqr. pose proof (Z.rem_bound_abs res l ltac:(lia)) as Hb.
  destruct (Z.eq_dec l 1) as [->|Hl1]; [rewrite Z.quot_1_r in *; nia|].
  assert (swrap 64 (Z.quot res l) = Z.quot res l) as Es.
  { apply swrap_id; [lia|]. change (2 ^ (64 - 1)) with (2 ^ 63). nia. }
  rewrite Es in E. rewrite E in Hqr. nia.
Qed.

(** [n] elements of the array from [off] on lie in its data. *)
Definition elemsIn (h : heap) (a : typedArrayObject) (off n : Z) : Prop :=
  n ≤ 0 ∨ ∃ s, live h (viewedArrayBuf a) s ∧ 0 ≤ off ∧ (off + n) * taElemSize a ≤ slen s.

Lemma elemsIn_bufs h h' a off n : bufs h' = bufs h → elemsIn h a off n → elemsIn h' a off n.
Proof. unfold elemsIn, live. by intros ->. Qed.

Lemma elemsIn_array h a d j n : wfTA h a → alive h (viewedArrayBuf a) d → 0 ≤ j → j + n ≤ ta_length a → elemsIn h a (ta_offset a + j) n.
Proof.
  intros Ha Hd Hj Hn. destruct (Z.nonpos_pos_cases n); [by left|right]. pose proof Ha as (Ho & Hl & _).
  destruct (alive_live h a d Ha Hd ltac:(lia)) as (s & -> & Hs). exists s. split; [done|]. split; [lia|].
  pose proof (wfTA_data h a _ Ha Hd) as Hlen. cbn in Hlen. pose proof (elemSize_pos (defaultCtor a)). unfold taElemSize, taOps in *. nia.
Qed.

Lemma elemsIn_inBounds h a off n i : elemsIn h a off n → 0 ≤ i < n → ∃ s, live h (viewedArrayBuf a) s ∧ inBounds s (taElemSize a) (off + i).
Proof.
  intros [?|(s & Hl & Ho & Hn)] Hi; [lia|]. exists s. split; [done|].
  pose proof (elemSize_pos (defaultCtor a)) as Hw. apply (inBounds_range s _ Hw _ (off + n)); [lia|done].
Qed.

(** One element copied. *)
Lemma safe_copyStep h dst doff src soff N i : wfHeap h → elemsIn h dst doff N → elemsIn h src soff N → 0 ≤ i < N →
  safeAt h (v ← taGet src (soff + i); taSet dst (doff + i) (ofNumeric v)) (λ _ h', bufs h' = bufs h).
Proof.
  intros Hh Hd Hs Hi. destruct (elemsIn_inBounds _ _ _ _ _ Hd Hi) as (sd & Hld & Hbd), (elemsIn_inBounds _ _ _ _ _ Hs Hi) as (ss & Hls & Hbs).
  eapply safeAt_pure; [apply (taGet_ok _ _ ss); [by apply (live_wf _ _ _ Hh Hls)|done|done]|]. by apply (safe_taSet_numeric _ _ sd).
Qed.

Lemma bind_assoc_safe {A B C} h (m : M A) (k : A → M B) (f : B → M C) ψ :
  safeAt h ((m ≫= k) ≫= f) ψ → safeAt h (m ≫= λ a, k a ≫= f) ψ.
Proof. unfold safeAt, mbind, M_bind. by destruct (m h) as [[a|e|] h']. Qed.

Lemma bind_assoc_safe_inv {A B C} h (m : M A) (k : A → M B) (f : B → M C) ψ :
  safeAt h (m ≫= λ a, k a ≫= f) ψ → safeAt h ((m ≫= k) ≫= f) ψ.
Proof. unfold safeAt, mbind, M_bind. by destruct (m h) as [[a|e|] h']. Qed.

Lemma safe_copyUp h dst doff src soff N start n : wfHeap h → elemsIn h dst doff N → elemsIn h src soff N →
  0 ≤ start → start + Z.of_nat n ≤ N → safeAt h (copyUp dst doff src soff start n) (λ _ h', bufs h' = bufs h).
Proof.
  revert h start. induction n as [|n IH]; intros h start Hh Hd Hs Hst Hn; [by apply safeAt_ret|]. cbn [copyUp].
  apply bind_assoc_safe. eapply safeAt_bind; [apply (safe_copyStep _ _ _ _ _ N); [done..|lia]|]. intros [] h' Hh' _ Hb. cbn in Hb. rewrite <- Hb.
  apply IH; [done|by apply (elemsIn_bufs h)|by apply (elemsIn_bufs h)|lia..].
Qed.

Lemma safe_copyDown h dst doff src soff N start n : wfHeap h → elemsIn h dst doff N → elemsIn h src soff N →
  0 ≤ start → start + Z.of_nat n ≤ N → safeAt h (copyDown dst doff src soff start n) (λ _ h', bufs h' = bufs h).
Proof.
  revert h. induction n as [|n IH]; intros h Hh Hd Hs Hst Hn; [by apply safeAt_ret|]. cbn [copyDown].
  apply bind_assoc_safe. rewrite <- !Z.add_assoc.
  eapply safeAt_bind; [apply (safe_copyStep _ _ _ _ _ N); [done..|lia]|]. intros [] h' Hh' _ Hb. cbn in Hb. rewrite <- Hb.
  apply IH; [done|by apply (elemsIn_bufs h)|by apply (elemsIn_bufs h)|lia..].
Qed.

Lemma wfTA_of h a d : alive h (viewedArrayBuf a) d → 0 ≤ ta_offset a → 0 ≤ ta_length a →
  (ta_offset a + ta_length a) * taElemSize a ≤ lenData d → wfTA h a.
Proof. intros Hd Ho Hl Hlen. split; [done|]. split; [done|]. exists (ArrayBuffer false d). split; [done|]. by intros _. Qed.

Lemma safe_fromTypedArray h proto src k : wfHeap h → keepsLast proto → wfTA h src →
  safeAt h (_newTypedArrayFromTypedArray proto src k) (λ a h', wfTA h' a).
Proof.
  intros Hh Hp Hsrc. unfold _newTypedArrayFromTypedArray. pose proof (elemSize_pos k) as Hw.
  eapply safeAt_bind; [apply safe_allocateTypedArray; [done|done|unfold maxInt; lia]|].
  intros dst0 h1 Hh1 He1 (_ & _ & _ & Hk & d0 & Hd0 & Hz). rewrite (Hz eq_refl) in Hd0.
  pose proof (wfTA_evolves _ _ _ Hh1 He1 Hsrc) as Hsrc1. apply safe_ensureNotDetached; [done|by apply wfTA_isBuffer|]. intros d1 Hd1.
  pose proof (wfTA_data _ _ _ Hsrc1 Hd1) as Hlen1. pose proof (lenData_nonneg _ _ _ Hh1 Hd1) as Hb1. cbn [data] in Hb1.
  pose proof Hsrc as (Ho & Hl & _). pose proof (elemSize_pos (defaultCtor src)) as Hw'. cbv zeta.
  assert (0 ≤ ta_length src < 2 ^ 63) as Hls by (unfold taElemSize, taOps in *; nia).
  destruct (safeMul (ta_length src) (elemSize (ops k))) as [size|e] eqn:Hsize.
  2: { unfold safeAt, mbind, M_bind. cbn. split; [done|reflexivity]. }
  eapply safeAt_pure; [done|].
  apply safeMul_exact in Hsize as [-> Hmax]; [|done|destruct (elemSize_cases k) as [->|[->|[->| ->]]]; lia].
  eapply safeAt_bind; [by apply safe_alloc|]. intros s h2 Hh2 He2 (Hs & Hsl & Hb2).
  eapply safeAt_bind; [apply safe_setData; [done|unfold alive in *; by rewrite Hb2|done]|]. intros [] h3 Hh3 He3 [Hd3 Hm3].
  pose proof (wfTA_evolves _ _ _ Hh3 He3 (wfTA_evolves _ _ _ Hh2 He2 Hsrc1)) as Hsrc3.
  apply safe_ensureNotDetached; [done|by apply wfTA_isBuffer|]. intros dsrc Hdsrc.
  pose proof (wfTA_data _ _ _ Hsrc3 Hdsrc) as Hlen3. set (dst := TypedArrayObject (viewedArrayBuf dst0) k (ta_length src) 0).
  assert (wfTA h3 dst) as Hdst.
  { apply (wfTA_of _ _ (Some s)); [done|done|done|]. cbn. unfold taElemSize, taOps. cbn. lia. }
  destruct (decide (defaultCtor src = k)).
  - eapply taData_alive; [done|]. eapply (safeAt_bind _ _ _ any).
    { eapply safeAt_weaken; [apply safe_copySlice|done]; [done| |exact (wfData_buf _ _ _ Hh3 Hdsrc)|cbn; lia|unfold taElemSize, taOps in *; nia..].
      exact (wfData_buf _ _ _ Hh3 Hd3). }
    intros _ h4 Hh4 He4 _. apply safeAt_ret; [done|]. by apply (wfTA_evolves h3).
  - eapply (safeAt_bind _ _ _ (λ _ h', h' = h3)).
    { unfold checkTypedArrayMixBigInt. destruct (_ && _); [by apply safeAt_raise|by apply safeAt_ret]. }
    intros _ ? _ _ ->. eapply (safeAt_bind _ _ _ any).
    { eapply safeAt_weaken; [apply (safe_copyUp _ _ _ _ _ (ta_length src))|done]; [done| | |lia|lia].
      - apply (elemsIn_array _ dst (Some s) 0 (ta_length src)); [done|done|lia|cbn; lia].
      - replace (ta_offset src) with (ta_offset src + 0) by lia. apply (elemsIn_array _ _ dsrc); [done|done|lia|lia]. }
    intros _ h4 Hh4 He4 _. apply safeAt_ret; [done|]. by apply (wfTA_evolves h3).
Qed.

(** *** Constructors called by methods *)

Definition safeCtor (c : userCtor) : Prop :=
  ∀ args, match args with CreateLen n => 0 ≤ n < maxInt | CreateView b off len => 0 ≤ off ∧ 0 ≤ len end →
  ∀ h, wfHeap h → match args with CreateView b _ _ => isBuffer h b | _ => True end →
  safeAt h (c args) (λ o h', match o with Some a => wfTA h' a | None => True end).
Definition safeSpecies (species : M (option userCtor)) : Prop :=
  safe species (λ c _, match c with Some c => safeCtor c | None => True end).

Lemma safe_builtinCtor k : safeCtor (builtinCtor k).
Proof.
  intros args Ha h Hh Hb. unfold builtinCtor. destruct args as [n|b off len]; eapply (safeAt_bind _ _ _ (λ a h', wfTA h' a)).
  2,4: intros a h' Hh' _ Hw; by apply safeAt_ret.
  - cbn [_newTypedArray]. eapply safeAt_bind; [by apply safe_VtoIndex|]. intros i h' Hh' _ Hi.
    eapply safeAt_weaken; [apply safe_allocateTypedArray; [done|apply keepsLast_ret|done]|]. by intros a h'' (? & _).
  - cbn [_newTypedArray]. eapply safeAt_weaken; [apply safe_fromArrayBuffer; [done|done|intros ? ?; by apply safeAt_ret|done|done]|].
    by intros a h'' (? & _).
Qed.

(** The array a method gets is live and long enough. *)
Definition created (n : Z) (a : typedArrayObject) (h : heap) : Prop :=
  wfTA h a ∧ n ≤ ta_length a ∧ ∃ d, alive h (viewedArrayBuf a) d.

Lemma safe_create h c n (χ : heap → Prop) : 0 ≤ n < maxInt →
  safeAt h (c (CreateLen n)) (λ o h', match o with Some a => wfTA h' a | None => True end ∧ χ h') →
  safeAt h (typedArrayCreate c (CreateLen n)) (λ a h', created n a h' ∧ χ h').
Proof.
  intros Hn Hc. unfold typedArrayCreate. eapply safeAt_bind; [exact Hc|]. intros o h1 Hh1 _ [Ho Hχ]. destruct o as [a|]; [|by apply safeAt_raise].
  apply safe_ensureNotDetached; [done|by apply wfTA_isBuffer|]. intros d Hd.
  rewrite (proj2 (Z.leb_le n maxInt)) by lia. cbn [andb].
  destruct (Z.ltb_spec (ta_length a) n); [by apply safeAt_raise|]. apply safeAt_ret; [done|]. split; [|done]. split_and!; [done|done|by exists d].
Qed.

Lemma safe_typedArrayCreate h c n : wfHeap h → safeCtor c → 0 ≤ n < maxInt → safeAt h (typedArrayCreate c (CreateLen n)) (created n).
Proof.
  intros Hh Hc Hn. eapply safeAt_weaken; [apply (safe_create _ _ _ (λ _, True)); [done|]|by intros a h' [? _]].
  eapply safeAt_weaken; [by apply Hc|]. by intros.
Qed.

Lemma safe_speciesCreate h species a n : wfHeap h → safeSpecies species → 0 ≤ n < maxInt →
  safeAt h (typedArraySpeciesCreate species a (CreateLen n)) (created n).
Proof.
  intros Hh Hs Hn. unfold typedArraySpeciesCreate. eapply safeAt_bind; [by apply Hs|]. intros c h1 Hh1 _ Hc.
  apply safe_typedArrayCreate; [done| |done]. destruct c; [done|apply safe_builtinCtor].
Qed.
End ctors.

(** ** Methods *)

Section methods.
Context `{Machine}.
Implicit Types ta : typedArrayObject.

Definition safeCallback (cb : option numeric → Z → M value) : Prop := ∀ x k, safe (cb x k) any.

Lemma safe_copyWithin h ta a0 a1 a2 : wfHeap h → wfTA h ta → safeValue a0 → safeValue a1 → safeValue a2 →
  safeAt h (typedArrayProto_copyWithin ta a0 a1 a2) any.
Proof.
  intros Hh Ha H0 H1 H2. pose proof Ha as (Ho & Hl & _). pose proof (elemSize_pos (defaultCtor ta)) as Hw. unfold typedArrayProto_copyWithin.
  apply safe_ensureNotDetached; [done|by apply wfTA_isBuffer|]. intros _ _. cbv zeta.
  eapply safeAt_bind; [by apply safe_VToInteger|]. intros to h1 Hh1 He1 _. eapply safeAt_bind; [by apply safe_VToInteger|]. intros from h2 Hh2 He2 _.
  eapply safeAt_bind; [by apply safe_endArg|]. intros e h3 Hh3 He3 _.
  pose proof (relToIdx_range to _ Hl) as Ht. pose proof (relToIdx_range from _ Hl) as Hf. pose proof (relToIdx_range e _ Hl) as Hfin.
  set (to' := relToIdx to _) in *. set (from' := relToIdx from _) in *. set (fin := relToIdx e _) in *.
  assert (wfTA h3 ta) as Ha3 by (apply (wfTA_evolves h); [done|etrans; [done|]; by etrans|done]).
  apply safe_taData; [by apply wfTA_isBuffer|]. intros o Hob. destruct (Z.ltb_spec from' fin); [|by apply safeAt_ret].
  apply safe_ensureNotDetached; [done|by apply wfTA_isBuffer|]. intros d Hd. rewrite (alive_data _ _ _ _ Hd Hob).
  pose proof (wfTA_data _ _ _ Ha3 Hd) as Hlen. pose proof (wfData_buf _ _ _ Hh3 Hd) as Hwd. cbn [data] in Hwd.
  unfold taElemSize, taOps in *. eapply safeAt_weaken; [apply safe_copySlice; [done|done|done|nia|nia|nia|nia]|done].
Qed.

Lemma safe_fillMethod h ta a0 a1 a2 : wfHeap h → wfTA h ta → safeValue a0 → safeValue a1 → safeValue a2 →
  safeAt h (typedArrayProto_fill ta a0 a1 a2) any.
Proof.
  intros Hh Ha H0 H1 H2. pose proof Ha as (Ho & Hl & _). unfold typedArrayProto_fill.
  apply safe_ensureNotDetached; [done|by apply wfTA_isBuffer|]. intros _ _. cbv zeta.
  eapply safeAt_bind; [by apply safe_toContent|]. intros v h1 Hh1 He1 (c & ->). eapply safeAt_bind; [by apply safe_VToInteger|]. intros k h2 Hh2 He2 _.
  eapply safeAt_bind; [by apply safe_endArg|]. intros e h3 Hh3 He3 _.
  pose proof (relToIdx_range k _ Hl) as Hk. pose proof (relToIdx_range e _ Hl) as He. set (k' := relToIdx k _) in *. set (fin := relToIdx e _) in *.
  assert (wfTA h3 ta) as Ha3 by (apply (wfTA_evolves h); [done|etrans; [done|]; by etrans|done]).
  apply safe_ensureNotDetached; [done|by apply wfTA_isBuffer|]. intros d Hd. destruct (Z.ltb_spec 0 (fin - k')); [|by apply safeAt_ret].
  destruct (alive_live _ _ _ Ha3 Hd ltac:(lia)) as (s & -> & Hls). eapply taData_alive; [done|].
  pose proof (wfTA_data _ _ _ Ha3 Hd) as Hlen. cbn in Hlen. pose proof (elemSize_pos (defaultCtor ta)) as Hw. unfold taElemSize, taOps in Hlen.
  apply safe_fill; [done|done|by destruct c|lia|lia|unfold taElemSize, taOps; nia].
Qed.

Lemma safe_at h ta a0 : wfHeap h → wfTA h ta → safeValue a0 → safeAt h (typedArrayProto_at ta a0) any.
Proof.
  intros Hh Ha H0. unfold typedArrayProto_at. apply safe_ensureNotDetached; [done|by apply wfTA_isBuffer|]. intros _ _.
  eapply safeAt_bind; [by apply safe_VToInteger|]. intros i h1 Hh1 He1 _. pose proof (wfTA_evolves _ _ _ Hh1 He1 Ha) as Ha1.
  cbv zeta. set (idx := if i <? 0 then _ else i). destruct ((ta_length ta <=? idx) || (idx <? 0)) eqn:E; [by apply safeAt_ret|].
  apply orb_false_iff in E as [E%Z.leb_gt E'%Z.ltb_ge].
  apply safe_notDetached; [by apply wfTA_isBuffer| |by apply safeAt_ret]. intros d Hd.
  destruct (alive_live _ _ _ Ha1 Hd ltac:(lia)) as (s & -> & Hls). eapply safeAt_pure; [|by apply safeAt_ret].
  apply (taGet_ok _ _ s); [by apply (live_wf _ _ _ Hh1 Hls)|done|by apply (wfTA_inBounds h1)].
Qed.

(** The searches. *)
Lemma safe_search h ta v start len : wfHeap h → wfTA h ta → wfValue v → ∀ s, live h (viewedArrayBuf ta) s →
  0 ≤ start → 0 ≤ len → start + len ≤ ta_length ta →
  safeAt h (indexOf (taOps ta) (Some s) v (ta_offset ta + start) len) any ∧
  safeAt h (lastIndexOf (taOps ta) (Some s) v (ta_offset ta + start) len) any ∧
  safeAt h (includes (taOps ta) (Some s) v (ta_offset ta + start) len) any.
Proof.
  intros Hh Ha Hv s Hl Hst Hlen Hn. pose proof (wfTA_data _ _ (Some s) Ha Hl) as Hd. cbn in Hd. pose proof (live_wf _ _ _ Hh Hl) as Hs.
  pose proof Ha as (Ho & _). pose proof (elemSize_pos (defaultCtor ta)) as Hw.
  assert ((ta_offset ta + start + len) * elemSize (ops (defaultCtor ta)) ≤ slen s) as Hb by (unfold taElemSize, taOps in Hd; nia).
  unfold safeAt, taOps. rewrite indexOf_ok, lastIndexOf_ok, includes_ok by (done || lia). split_and!; done.
Qed.

Lemma safe_indexOf h ta a0 a1 : wfHeap h → wfTA h ta → wfValue a0 → safeValue a1 → safeAt h (typedArrayProto_indexOf ta a0 a1) any.
Proof.
  intros Hh Ha H0 H1. unfold typedArrayProto_indexOf. apply safe_ensureNotDetached; [done|by apply wfTA_isBuffer|]. intros _ _. cbv zeta.
  destruct (Z.eqb_spec (ta_length ta) 0) as [|Hnz]; [by apply safeAt_ret|]. eapply safeAt_bind; [by apply safe_VToInteger|]. intros n h1 Hh1 He1 _.
  pose proof (wfTA_evolves _ _ _ Hh1 He1 Ha) as Ha1. pose proof Ha1 as (_ & Hl & _). destruct (Z.leb_spec (ta_length ta) n); [by apply safeAt_ret|].
  set (st := if n <? 0 then _ else n). assert (0 ≤ st ≤ ta_length ta) by (unfold st; destruct (Z.ltb_spec n 0); lia).
  apply safe_notDetached; [by apply wfTA_isBuffer| |by apply safeAt_ret]. intros d Hd.
  destruct (alive_live _ _ _ Ha1 Hd ltac:(lia)) as (s & -> & Hls). eapply taData_alive; [done|].
  eapply safeAt_bind; [apply (safe_search h1); done || lia|]. intros. by apply safeAt_ret.
Qed.

Lemma safe_includes h ta a0 a1 : wfHeap h → wfTA h ta → wfValue a0 → safeValue a1 → safeAt h (typedArrayProto_includes ta a0 a1) any.
Proof.
  intros Hh Ha H0 H1. unfold typedArrayProto_includes. apply safe_ensureNotDetached; [done|by apply wfTA_isBuffer|]. intros _ _. cbv zeta.
  destruct (Z.eqb_spec (ta_length ta) 0) as [|Hnz]; [by apply safeAt_ret|]. eapply safeAt_bind; [by apply safe_VToInteger|]. intros n h1 Hh1 He1 _.
  pose proof (wfTA_evolves _ _ _ Hh1 He1 Ha) as Ha1. pose proof Ha1 as (_ & Hl & _). destruct (Z.leb_spec (ta_length ta) n); [by apply safeAt_ret|].
  set (st := if n <? 0 then _ else n). assert (0 ≤ st ≤ ta_length ta) by (unfold st; destruct (Z.ltb_spec n 0); lia).
  apply safe_notDetached; [by apply wfTA_isBuffer| |by apply safeAt_ret]. intros d Hd. cbn [negb].
  destruct (alive_live _ _ _ Ha1 Hd ltac:(lia)) as (s & -> & Hls). eapply taData_alive; [done|]. apply (safe_search h1); done || lia.
Qed.

Lemma safe_lastIndexOf h ta a0 a1 : wfHeap h → wfTA h ta → wfValue a0 → safeArg a1 → safeAt h (typedArrayProto_lastIndexOf ta a0 a1) any.
Proof.
  intros Hh Ha H0 H1. unfold typedArrayProto_lastIndexOf. apply safe_ensureNotDetached; [done|by apply wfTA_isBuffer|]. intros _ _. cbv zeta.
  pose proof Ha as (_ & Hl & _). destruct (Z.eqb_spec (ta_length ta) 0) as [|Hnz]; [by apply safeAt_ret|].
  eapply (safeAt_bind _ _ _ (λ i _, -1 ≤ i < ta_length ta)).
  { destruct a1 as [v|]; [|apply safeAt_ret; [done|lia]]. eapply safeAt_bind; [by apply safe_VToInteger|]. intros n h1 Hh1 _ _.
    apply safeAt_ret; [done|]. destruct (Z.leb_spec 0 n); [lia|]. destruct (Z.ltb_spec (n + ta_length ta) 0); lia. }
  intros i h1 Hh1 He1 Hi. pose proof (wfTA_evolves _ _ _ Hh1 He1 Ha) as Ha1.
  apply safe_notDetached; [by apply wfTA_isBuffer| |by apply safeAt_ret]. intros d Hd.
  destruct (alive_live _ _ _ Ha1 Hd ltac:(lia)) as (s & -> & Hls). eapply taData_alive; [done|].
  eapply safeAt_bind; [|intros; by apply safeAt_ret]. rewrite <- (Z.add_0_r (ta_offset ta)). apply (safe_search h1); done || lia.
Qed.

(** *** Callbacks *)

Section callbacks.
Context (cb : option numeric → Z → M value) (Hcb : safeCallback cb).

(** One round of a loop: the element, then the callback. *)
Lemma safe_round {B} h ta k (f : option numeric → value → M B) ψ : wfHeap h → wfTA h ta →
  (∀ x r h', wfHeap h' → wfTA h' ta → safeAt h' (f x r) ψ) → safeAt h (v ← elemArg ta k; r ← cb v k; f v r) ψ.
Proof.
  intros Hh Ha Hf. eapply safeAt_bind; [by apply safe_elemArg|]. intros x h1 Hh1 He1 _. eapply safeAt_bind; [by apply Hcb|].
  intros r h2 Hh2 He2 _. apply Hf; [done|]. apply (wfTA_evolves h); [done|by etrans|done].
Qed.

Lemma safe_everyLoop ta n : ∀ h k, wfHeap h → wfTA h ta → safeAt h (everyLoop cb ta k n) any.
Proof.
  induction n as [|n IH]; intros h k Hh Ha; [by apply safeAt_ret|]. cbn [everyLoop]. apply safe_round; [done..|].
  intros x r h' Hh' Ha'. destruct (ToBoolean r); [by apply IH|by apply safeAt_ret].
Qed.
Lemma safe_someLoop ta n : ∀ h k, wfHeap h → wfTA h ta → safeAt h (someLoop cb ta k n) any.
Proof.
  induction n as [|n IH]; intros h k Hh Ha; [by apply safeAt_ret|]. cbn [someLoop]. apply safe_round; [done..|].
  intros x r h' Hh' Ha'. destruct (ToBoolean r); [by apply safeAt_ret|by apply IH].
Qed.
Lemma safe_findLoop ta n : ∀ h k, wfHeap h → wfTA h ta → safeAt h (findLoop cb ta k n) any.
Proof.
  induction n as [|n IH]; intros h k Hh Ha; [by apply safeAt_ret|]. cbn [findLoop]. apply safe_round; [done..|].
  intros x r h' Hh' Ha'. destruct (ToBoolean r); [by apply safeAt_ret|by apply IH].
Qed.
Lemma safe_findLastLoop ta n : ∀ h, wfHeap h → wfTA h ta → safeAt h (findLastLoop cb ta n) any.
Proof.
  induction n as [|n IH]; intros h Hh Ha; [by apply safeAt_ret|]. cbn [findLastLoop]. apply safe_round; [done..|].
  intros x r h' Hh' Ha'. destruct (ToBoolean r); [by apply safeAt_ret|by apply IH].
Qed.
Lemma safe_forEachLoop ta n : ∀ h k, wfHeap h → wfTA h ta → safeAt h (forEachLoop cb ta k n) any.
Proof.
  induction n as [|n IH]; intros h k Hh Ha; [by apply safeAt_ret|]. cbn [forEachLoop]. apply safe_round; [done..|].
  intros x r h' Hh' Ha'. by apply IH.
Qed.

Lemma safe_guarded {B} h ta (m : M B) ψ : wfHeap h → wfTA h ta → safeAt h m ψ →
  safeAt h (ensureNotDetached (viewedArrayBuf ta) ;; m) ψ.
Proof. intros Hh Ha Hm. apply safe_ensureNotDetached; [done|by apply wfTA_isBuffer|]. by intros. Qed.

Lemma safe_every h ta : wfHeap h → wfTA h ta → safeAt h (typedArrayProto_every cb ta) any.
Proof. intros Hh Ha. apply safe_guarded; [done..|by apply safe_everyLoop]. Qed.
Lemma safe_some h ta : wfHeap h → wfTA h ta → safeAt h (typedArrayProto_some cb ta) any.
Proof. intros Hh Ha. apply safe_guarded; [done..|by apply safe_someLoop]. Qed.
Lemma safe_find h ta : wfHeap h → wfTA h ta → safeAt h (typedArrayProto_find cb ta) any.
Proof. intros Hh Ha. apply safe_guarded; [done..|]. eapply safeAt_bind; [by apply safe_findLoop|]. intros. by apply safeAt_ret. Qed.
Lemma safe_findIndex h ta : wfHeap h → wfTA h ta → safeAt h (typedArrayProto_findIndex cb ta) any.
Proof. intros Hh Ha. apply safe_guarded; [done..|]. eapply safeAt_bind; [by apply safe_findLoop|]. intros. by apply safeAt_ret. Qed.
Lemma safe_findLast h ta : wfHeap h → wfTA h ta → safeAt h (typedArrayProto_findLast cb ta) any.
Proof. intros Hh Ha. apply safe_guarded; [done..|]. eapply safeAt_bind; [by apply safe_findLastLoop|]. intros. by apply safeAt_ret. Qed.
Lemma safe_findLastIndex h ta : wfHeap h → wfTA h ta → safeAt h (typedArrayProto_findLastIndex cb ta) any.
Proof. intros Hh Ha. apply safe_guarded; [done..|]. eapply safeAt_bind; [by apply safe_findLastLoop|]. intros. by apply safeAt_ret. Qed.
Lemma safe_forEach h ta : wfHeap h → wfTA h ta → safeAt h (typedArrayProto_forEach cb ta) any.
Proof. intros Hh Ha. apply safe_guarded; [done..|by apply safe_forEachLoop]. Qed.

(** filter: whole elements are kept. *)
Lemma safe_filterLoop ta n : ∀ h k, wfHeap h → wfTA h ta →
  safeAt h (filterLoop cb ta k n) (λ bs _, Forall byte bs ∧ ∃ c, 0 ≤ c ≤ Z.of_nat n ∧ Z.of_nat (length bs) = c * taElemSize ta).
Proof.
  pose proof (elemSize_pos (defaultCtor ta)) as Hw. fold (taOps ta) in Hw. fold (taElemSize ta) in Hw.
  induction n as [|n IH]; intros h k Hh Ha; [apply safeAt_ret; [done|]; split; [constructor|]; exists 0; cbn; lia|]. cbn [filterLoop]. cbv zeta.
  set (φ := λ (bs : list Z) (_ : heap), Forall byte bs ∧ ∃ c, 0 ≤ c ≤ Z.of_nat (S n) ∧ Z.of_nat (length bs) = c * taElemSize ta).
  assert (∀ (arg : option numeric * list Z) h', wfHeap h' → wfTA h' ta → Forall byte arg.2 → Z.of_nat (length arg.2) = taElemSize ta →
    safeAt h' (r ← cb arg.1 k; rest ← filterLoop cb ta (k + 1) n; mret (if ToBoolean r then arg.2 ++ rest else rest)) φ) as Htail.
  { intros arg h1 Hh1 Ha1 Hb Hl. eapply safeAt_bind; [by apply Hcb|]. intros r h2 Hh2 He2 _.
    eapply safeAt_bind; [apply IH; [done|by apply (wfTA_evolves h1)]|]. intros rest h3 Hh3 _ (Hr & c & Hc & Hrl). apply safeAt_ret; [done|].
    destruct (ToBoolean r).
    - split; [by apply Forall_app|]. exists (c + 1). rewrite length_app. lia.
    - split; [done|]. exists c. lia. }
  apply safe_isValid; [done| |].
  - intros s Hl Hk. pose proof (live_wf _ _ _ Hh Hl) as Hs. pose proof (wfTA_inBounds _ _ _ _ Ha Hl Hk) as Hb.
    assert (inSlice s ((ta_offset ta + k) * taElemSize ta) (taElemSize ta) = true) as Hin by (by apply inBounds_inSlice).
    apply bind_assoc_safe_inv. eapply safeAt_pure; [by apply (taGet_ok _ _ s)|]. apply bind_assoc_safe_inv.
    eapply taData_alive; [done|]. apply bind_assoc_safe_inv. eapply safeAt_pure; [by apply peekBytes_ok|].
    eapply safeAt_pure; [done|]. apply Htail; [done|done|by apply sliceBytes_byte, wf_bytes|by apply length_sliceBytes].
  - eapply safeAt_pure; [done|]. apply Htail; [done|done| |cbn [snd]; rewrite length_replicate; lia]. apply Forall_replicate. unfold byte. lia.
Qed.

(** The array of the kept elements. *)
Lemma kept_ok h b k s c : alive h b (Some s) → slen s = c * elemSize (ops k) → 0 ≤ c →
  _newTypedArray (mret ()) k (ArgBuffer b None None) h = (Ret (TypedArrayObject b k c 0), h).
Proof.
  intros Hb Hs Hc. pose proof (elemSize_pos k) as Hw. unfold alive in Hb. cbn [_newTypedArray].
  unfold _newTypedArrayFromArrayBuffer, ensureNotDetached, buffer, mbind, M_bind, mret, M_ret. cbn. repeat (rewrite Hb; cbn).
  rewrite Hs, Z.sub_0_r, Z.rem_mul, Z.quot_mul by lia. cbn. destruct (Z.ltb_spec c 0); [lia|]. by rewrite Z.quot_0_l by lia.
Qed.

(** The constructor filter calls cannot reach the buffer of the kept elements. *)
Definition safeFilterSpecies (species : M (option userCtor)) : Prop :=
  safe species (λ c _, match c with Some c => safeCtor c ∧ ∀ n, keepsLast (c (CreateLen n)) | None => True end).

Lemma safeAt_and {A} h (m : M A) (φ ψ : A → heap → Prop) : safeAt h m φ → safeAt h m ψ → safeAt h m (λ a h', φ a h' ∧ ψ a h').
Proof. unfold safeAt. destruct (m h) as [[a|e|] h']; naive_solver. Qed.

Lemma safe_filter h ta species : wfHeap h → wfTA h ta → safeFilterSpecies species → ta_length ta < maxInt →
  safeAt h (typedArrayProto_filter cb species ta) (λ a h', wfTA h' a).
Proof.
  intros Hh Ha Hsp Hmax. pose proof (elemSize_pos (defaultCtor ta)) as Hw. fold (taOps ta) in Hw. fold (taElemSize ta) in Hw.
  assert (taElemSize ta ≤ 8) as Hw8 by (unfold taElemSize, taOps; destruct (elemSize_cases (defaultCtor ta)) as [->|[->|[->| ->]]]; lia).
  pose proof Ha as (_ & Hl & _). apply safe_guarded; [done..|].
  eapply safeAt_bind; [by apply safe_filterLoop|]. intros buf h1 Hh1 He1 (Hby & c & Hc & Hlen). rewrite Hlen, Z.quot_mul by lia.
  cbv zeta. eapply safeAt_bind; [by apply Hsp|]. intros ctor h2 Hh2 He2 Hctor.
  eapply safeAt_bind; [apply safe_newBytes; [done|done|unfold maxInt in *; nia]|]. intros s h3 Hh3 He3 (Hs & Hsl & Hb3).
  eapply safeAt_bind; [by apply safe_newArrayBuffer|]. intros ab h4 Hh4 He4 (Hab & Hal & _ & Hbufs).
  assert (S ab = length (bufs h4)) as Hlast by (rewrite Hbufs, length_app, Hab; cbn; lia).
  eapply safeAt_pure; [apply (kept_ok _ _ _ s c); [done|rewrite Hsl, Hlen; done|lia]|].
  set (kept := TypedArrayObject ab (defaultCtor ta) c 0).
  assert (∀ h', alive h' ab (Some s) → wfTA h' kept) as Hkept.
  { intros h' Hal'. apply (wfTA_of _ _ (Some s)); [done|done|cbn; lia|]. unfold taElemSize, taOps in *. cbn. lia. }
  destruct ctor as [ctor|]; [|apply safeAt_ret; [done|by apply Hkept]]. destruct Hctor as [Hctor Hk].
  eapply safeAt_bind; [apply (safe_create _ _ _ (λ h', alive h' ab (Some s))); [lia|]|].
  { apply safeAt_and; [apply Hctor; [lia|done|done]|]. eapply safeAt_weaken; [by apply Hk|].
    cbn. intros _ h' E. unfold alive in *. by rewrite (E ab Hlast). }
  intros ret h5 Hh5 He5 ((Hret & Hrl & dr & Hdr) & Hal5). eapply (safeAt_bind _ _ _ any); [|intros _ h6 Hh6 He6 _; apply safeAt_ret; [done|by apply (wfTA_evolves h5)]].
  eapply safeAt_weaken; [apply (safe_copyUp _ _ _ _ _ c); [done| | |lia|lia]|done].
  - replace (ta_offset ret) with (ta_offset ret + 0) by lia. apply (elemsIn_array _ _ dr); [done|done|lia|lia].
  - apply (elemsIn_array _ kept (Some s) 0 c); [by apply Hkept|done|lia|cbn; lia].
Qed.
End callbacks.
End methods.
End TypedArraySafeOps.
