(* ===== verification/TypedArraySafety.v ===== *)
(** * Memory safety of typed arrays: the remaining methods and the theorem

    reduce, reverse, set, slice, subarray, with, toReversed and the sorts, then
    [typedarray_memory_safe] for the operations of [call]. *)

From S2P Require Import Prelude Float64 Numbers Arith FloatBits TypedArrays TypedArrayOps TypedArrayMem TypedArrayProps TypedArraySet TypedArraySearch TypedArraySafe TypedArraySafeOps.
Import Float64 Numbers Arith FloatBits TypedArrays TypedArrayOps TypedArrayMem TypedArrayProps TypedArraySet TypedArraySearch TypedArraySafe TypedArraySafeOps.
Open Scope Z_scope.

Module TypedArraySafety.
Section methods.
Context `{Machine}.
Implicit Types ta : typedArrayObject.

(** ** Arrays the builtin constructors create *)

(** The buffers of before are as they were. *)
Definition extends (h h' : heap) : Prop := ∀ b o, bufs h !! b = Some o → bufs h' !! b = Some o.

Lemma extends_alive h h' b d : extends h h' → alive h b d → alive h' b d.
Proof. intros He. apply He. Qed.

Lemma VtoIndex_int h n : 0 ≤ n < maxInt → VtoIndex (VNum (intToValue n)) h = (Ret n, h).
Proof.
  intros Hn. unfold VtoIndex, intToValue, mbind, M_bind. cbn [ToNumber].
  assert ((0 <=? 256 + n) && (256 + n <? 256) = false) as -> by (apply andb_false_iff; right; apply Z.ltb_ge; lia).
  assert ((- maxInt <=? n) && (n <=? maxInt) = true) as -> by (apply andb_true_iff; split; apply Z.leb_le; lia).
  unfold mret, M_ret. cbn. unfold toIndex. cbn [ToInteger].
  assert ((0 <=? n) && (n <? maxInt) = true) as -> by (apply andb_true_iff; split; [apply Z.leb_le|apply Z.ltb_lt]; lia). done.
Qed.

Lemma allocate_extends h n k : wfHeap h → 0 ≤ n < maxInt → safeAt h (allocateTypedArray (mret ()) n k) (λ _ h', extends h h').
Proof.
  intros Hh Hn. unfold allocateTypedArray. pose proof (elemSize_cases k) as Hk. eapply safeAt_bind; [by apply safe_newArrayBuffer|].
  intros b h1 Hh1 _ (Hb & Hal & _ & Hbufs). eapply safeAt_pure; [done|].
  assert (extends h h1) as Hx by (intros b' o Ho; rewrite Hbufs; by apply lookup_app_l_Some).
  eapply (safeAt_bind _ _ _ (λ _ h', extends h h')); [|intros [] h2 Hh2 _ Hx2; by apply safeAt_ret].
  destruct (Z.ltb_spec 0 n); [|by apply safeAt_ret].
  eapply safeAt_bind; [apply safe_alloc; [done|unfold maxInt in *; lia]|]. intros s h2 Hh2 _ (Hs & _ & Hb2).
  eapply safeAt_weaken; [apply safe_setData; [done|unfold alive in *; by rewrite Hb2|done]|].
  cbn. intros _ h3 (_ & _ & Hrest) b' o Ho. rewrite Hrest, Hb2; [by apply Hx|].
  apply lookup_lt_Some in Ho. lia.
Qed.

Lemma safe_builtinCreate h k n : wfHeap h → 0 ≤ n < maxInt →
  safeAt h (typedArrayCreate (builtinCtor k) (CreateLen n))
    (λ a h', wfTA h' a ∧ ta_offset a = 0 ∧ ta_length a = n ∧ defaultCtor a = k ∧ (∃ d, alive h' (viewedArrayBuf a) d) ∧ extends h h').
Proof.
  intros Hh Hn. unfold typedArrayCreate, builtinCtor. cbn [_newTypedArray]. apply bind_assoc_safe_inv. apply bind_assoc_safe_inv.
  eapply safeAt_pure; [by apply VtoIndex_int|].
  eapply safeAt_bind; [apply safeAt_and; [apply safe_allocateTypedArray; [done|apply keepsLast_ret|done]|by apply allocate_extends]|].
  intros a h1 Hh1 _ ((Ha & Ho & Hl & Hk & d & Hd & _) & Hx). eapply safeAt_pure; [done|].
  apply safe_ensureNotDetached; [done|by apply wfTA_isBuffer|]. intros _ _. rewrite Hl, Z.ltb_irrefl, andb_false_r.
  apply safeAt_ret; [done|]. split_and!; try done. by exists d.
Qed.

(** ** reduce *)

Section reduce.
Context (cb : value → option numeric → Z → M value) (Hcb : ∀ acc x k, safe (cb acc x k) any).

Lemma safe_reduceLoop ta n : ∀ h acc k, wfHeap h → wfTA h ta → safeAt h (reduceLoop cb ta acc k n) any.
Proof.
  induction n as [|n IH]; intros h acc k Hh Ha; [by apply safeAt_ret|]. cbn [reduceLoop].
  eapply safeAt_bind; [by apply safe_elemArg|]. intros x h1 Hh1 He1 _. eapply safeAt_bind; [by apply Hcb|]. intros r h2 Hh2 He2 _.
  apply IH; [done|]. apply (wfTA_evolves h); [done|by etrans|done].
Qed.
Lemma safe_reduceRightLoop ta n : ∀ h acc, wfHeap h → wfTA h ta → safeAt h (reduceRightLoop cb ta acc n) any.
Proof.
  induction n as [|n IH]; intros h acc Hh Ha; [by apply safeAt_ret|]. cbn [reduceRightLoop].
  eapply safeAt_bind; [by apply safe_elemArg|]. intros x h1 Hh1 He1 _. eapply safeAt_bind; [by apply Hcb|]. intros r h2 Hh2 He2 _.
  apply IH; [done|]. apply (wfTA_evolves h); [done|by etrans|done].
Qed.

(** An element of a live array. *)
Lemma safe_taGet_in {B} h ta d k (f : numeric → M B) ψ : wfHeap h → wfTA h ta → alive h (viewedArrayBuf ta) d → 0 ≤ k < ta_length ta →
  (∀ v, safeAt h (f v) ψ) → safeAt h (taGet ta (ta_offset ta + k) ≫= f) ψ.
Proof.
  intros Hh Ha Hd Hk Hf. destruct (alive_live _ _ _ Ha Hd ltac:(lia)) as (s & -> & Hs).
  eapply safeAt_pure; [|apply Hf]. apply (taGet_ok _ _ s); [by apply (live_wf _ _ _ Hh Hs)|done|by apply (wfTA_inBounds h)].
Qed.

Lemma safe_reduce h ta init : wfHeap h → wfTA h ta → safeAt h (typedArrayProto_reduce cb ta init) any.
Proof.
  intros Hh Ha. unfold typedArrayProto_reduce. apply safe_ensureNotDetached; [done|by apply wfTA_isBuffer|]. intros d Hd.
  destruct init as [acc|]; [by apply safe_reduceLoop|]. destruct (Z.ltb_spec 0 (ta_length ta)); [|by apply safeAt_raise].
  eapply safe_taGet_in; [done|done|done|lia|]. intros v. by apply safe_reduceLoop.
Qed.
Lemma safe_reduceRight h ta init : wfHeap h → wfTA h ta → safeAt h (typedArrayProto_reduceRight cb ta init) any.
Proof.
  intros Hh Ha. unfold typedArrayProto_reduceRight. apply safe_ensureNotDetached; [done|by apply wfTA_isBuffer|]. intros d Hd. cbv zeta.
  destruct init as [acc|]; [by apply safe_reduceRightLoop|]. destruct (Z.leb_spec 0 (ta_length ta - 1)); [|by apply safeAt_raise].
  eapply safe_taGet_in; [done|done|done|lia|]. intros v. by apply safe_reduceRightLoop.
Qed.
End reduce.

(** ** reverse and toReversed *)

Lemma wfTA_bufs h h' ta : bufs h' = bufs h → wfTA h ta → wfTA h' ta.
Proof. unfold wfTA. by intros ->. Qed.
Lemma alive_bufs h h' b d : bufs h' = bufs h → alive h b d → alive h' b d.
Proof. unfold alive. by intros ->. Qed.

(** A swap of two elements of a live array. *)
Lemma safe_swap_in h ta d i j : wfHeap h → wfTA h ta → alive h (viewedArrayBuf ta) d → 0 ≤ i < ta_length ta → 0 ≤ j < ta_length ta →
  safeAt h (d ← taData ta; swap (taOps ta) d (ta_offset ta + i) (ta_offset ta + j)) (λ _ h', bufs h' = bufs h).
Proof.
  intros Hh Ha Hd Hi Hj. destruct (alive_live _ _ _ Ha Hd ltac:(lia)) as (s & -> & Hs). eapply taData_alive; [done|].
  apply safe_swap; [done|done|by apply (wfTA_inBounds h)|by apply (wfTA_inBounds h)].
Qed.

Lemma safe_reverseLoop ta n : ∀ h d lower, wfHeap h → wfTA h ta → alive h (viewedArrayBuf ta) d → 0 ≤ lower →
  2 * (lower + Z.of_nat n) ≤ ta_length ta → safeAt h (reverseLoop ta lower n) any.
Proof.
  induction n as [|n IH]; intros h d lower Hh Ha Hd Hlo Hn; [by apply safeAt_ret|]. cbn [reverseLoop]. cbv zeta.
  apply bind_assoc_safe. eapply safeAt_bind; [apply (safe_swap_in _ _ d); [done|done|done|lia|lia]|]. intros [] h' Hh' _ Hb. cbn in Hb.
  apply (IH _ d); [done|by apply (wfTA_bufs h)|by apply (alive_bufs h)|lia|lia].
Qed.

Lemma safe_reverse h ta : wfHeap h → wfTA h ta → safeAt h (typedArrayProto_reverse ta) any.
Proof.
  intros Hh Ha. pose proof Ha as (_ & Hl & _). unfold typedArrayProto_reverse. apply safe_ensureNotDetached; [done|by apply wfTA_isBuffer|]. intros d Hd.
  rewrite Z.quot_div_nonneg by lia. apply (safe_reverseLoop _ _ _ d); [done|done|done|lia|].
  pose proof (Z.div_pos (ta_length ta) 2 Hl ltac:(lia)). rewrite Z2Nat.id by done. pose proof (Z.mul_div_le (ta_length ta) 2 ltac:(lia)). lia.
Qed.

(** One element of a live array stored in another. *)
Lemma safe_copyElem h dst ta dd d i j : wfHeap h → wfTA h dst → wfTA h ta → alive h (viewedArrayBuf dst) dd → alive h (viewedArrayBuf ta) d →
  0 ≤ i < ta_length dst → 0 ≤ j < ta_length ta →
  safeAt h (v ← taGet ta (ta_offset ta + j); taSet dst (ta_offset dst + i) (ofNumeric v)) (λ _ h', bufs h' = bufs h).
Proof.
  intros Hh Hdst Ha Hdd Hd Hi Hj. eapply safe_taGet_in; [done..|]. intros v. destruct (alive_live _ _ _ Hdst Hdd ltac:(lia)) as (s & -> & Hs).
  apply (safe_taSet_numeric _ _ s); [done|done|by apply (wfTA_inBounds h)].
Qed.

Lemma safe_toReversedLoop ta a n : ta_offset a = 0 → ∀ h d da k, wfHeap h → wfTA h ta → wfTA h a →
  alive h (viewedArrayBuf ta) d → alive h (viewedArrayBuf a) da → 0 ≤ k → k + Z.of_nat n ≤ ta_length ta → ta_length a = ta_length ta →
  safeAt h (toReversedLoop ta a k n) (λ _ h', bufs h' = bufs h).
Proof.
  intros Ho. induction n as [|n IH]; intros h d da k Hh Ht Ha Hd Hda Hk Hn Hl; [by apply safeAt_ret|]. cbn [toReversedLoop]. cbv zeta.
  apply bind_assoc_safe. pose proof (safe_copyElem h a ta da d k (ta_length ta - k - 1) Hh Ha Ht Hda Hd ltac:(lia) ltac:(lia)) as Hc.
  rewrite Ho, Z.add_0_l in Hc. eapply safeAt_bind; [exact Hc|]. intros [] h' Hh' _ Hb. cbn in Hb. rewrite <- Hb.
  apply (IH _ d da); [done|by apply (wfTA_bufs h)|by apply (wfTA_bufs h)|by apply (alive_bufs h)|by apply (alive_bufs h)|lia..].
Qed.

Lemma safe_toReversed h ta : wfHeap h → wfTA h ta → ta_length ta < maxInt → safeAt h (typedArrayProto_toReversed ta) (λ a h', wfTA h' a).
Proof.
  intros Hh Ha Hmax. pose proof Ha as (_ & Hl & _). unfold typedArrayProto_toReversed.
  apply safe_ensureNotDetached; [done|by apply wfTA_isBuffer|]. intros d Hd.
  eapply safeAt_bind; [by apply safe_builtinCreate|]. intros a h1 Hh1 He1 (Haa & Ho & Hla & _ & (da & Hda) & Hx).
  eapply safeAt_bind; [apply (safe_toReversedLoop _ _ _ Ho _ d da); [done|by apply (wfTA_evolves h)|done|by apply (extends_alive h)|done|lia..]|].
  intros [] h2 Hh2 He2 _. apply safeAt_ret; [done|]. by apply (wfTA_evolves h1).
Qed.

(** ** set *)

(** ToInteger returns an int64. *)
Definition int64Value (v : value) : Prop :=
  match v with
  | VNum n => ToInteger n < 2 ^ 63
  | VOther _ num _ _ => safe num (λ n _, ToInteger n < 2 ^ 63)
  | VBig _ => True
  end.

Lemma safe_VToInteger64 h v : wfHeap h → int64Value v → safeAt h (VToInteger v) (λ i _, i < 2 ^ 63).
Proof.
  intros Hh Hv. unfold VToInteger. eapply (safeAt_bind _ _ _ (λ n _, ToInteger n < 2 ^ 63)); [|intros n h' Hh' _ Hn; by apply safeAt_ret].
  destruct v; [by apply safeAt_ret|by apply safeAt_raise|by apply Hv].
Qed.

(** The check for room is exact although the sum may overflow. *)
Lemma room_ok l srcLen off : 0 ≤ srcLen < 2 ^ 63 → 0 ≤ off < 2 ^ 63 →
  (swrap 64 (srcLen + off) <? 0) || (l <? swrap 64 (srcLen + off)) = false → srcLen + off ≤ l.
Proof.
  intros Hs Ho [E%Z.ltb_ge E'%Z.ltb_ge]%orb_false_iff. unfold swrap in *. change (2 ^ (64 - 1)) with (2 ^ 63) in *.
  destruct (Z.lt_ge_cases (srcLen + off) (2 ^ 63)) as [Hlt|Hge].
  - rewrite Z.mod_small in * by lia. lia.
  - replace (srcLen + off + 2 ^ 63) with ((srcLen + off - 2 ^ 63) + 1 * 2 ^ 64) in E by lia. rewrite Z.mod_add, Z.mod_small in E by lia. lia.
Qed.

Lemma wfTA_length h ta d : wfHeap h → wfTA h ta → alive h (viewedArrayBuf ta) d → 0 ≤ ta_length ta < 2 ^ 63.
Proof.
  intros Hh Ha Hd. pose proof Ha as (? & ? & _). pose proof (wfTA_data _ _ _ Ha Hd) as Hl. pose proof (lenData_nonneg _ _ _ Hh Hd) as Hb.
  cbn [data] in Hb. pose proof (elemSize_pos (defaultCtor ta)). unfold taElemSize, taOps in *. nia.
Qed.

Lemma safe_addressOf {B} h s off (k : Z → M B) ψ : 0 ≤ off < slen s → (∀ x, safeAt h (k x) ψ) → safeAt h (addressOf (Some s) off ≫= k) ψ.
Proof. intros Ho Hk. eapply safeAt_pure; [|apply Hk]. unfold addressOf. by rewrite (proj2 (Z.leb_le 0 off)), (proj2 (Z.ltb_lt off _)) by lia. Qed.

Lemma safe_setFromTyped h ta src d ds off : wfHeap h → wfTA h ta → wfTA h src → alive h (viewedArrayBuf ta) d → alive h (viewedArrayBuf src) ds →
  0 ≤ off → ta_length src + off ≤ ta_length ta → safeAt h (setFromTyped ta src off) any.
Proof.
  intros Hh Ha Hs Hd Hds Hoff Hfit. pose proof Ha as (Ho & Hl & _). pose proof Hs as (Hos & Hls & _).
  pose proof (wfTA_data _ _ _ Ha Hd) as Hlen. pose proof (wfTA_data _ _ _ Hs Hds) as Hlens.
  pose proof (elemSize_pos (defaultCtor ta)) as Hw. pose proof (elemSize_pos (defaultCtor src)) as Hws. unfold setFromTyped. cbv zeta.
  destruct (decide (defaultCtor src = defaultCtor ta)) as [Hk|Hk].
  - eapply taData_alive; [done|]. eapply taData_alive; [done|]. pose proof (wfData_buf _ _ _ Hh Hd) as Hwd. pose proof (wfData_buf _ _ _ Hh Hds) as Hwds.
    cbn [data] in *. unfold taElemSize, taOps in *. eapply safeAt_weaken; [apply safe_copySlice; [done|done|done|nia|nia|nia|nia]|done].
  - eapply (safeAt_bind _ _ _ (λ _ h', h' = h)).
    { unfold checkTypedArrayMixBigInt. destruct (_ && _); [by apply safeAt_raise|by apply safeAt_ret]. }
    intros _ ? _ _ ->. destruct (Z.eqb_spec (ta_length src) 0) as [|Hne]; [by apply safeAt_ret|].
    destruct (alive_live _ _ _ Ha Hd ltac:(lia)) as (sd & -> & Hld), (alive_live _ _ _ Hs Hds ltac:(lia)) as (ss & -> & Hlv).
    eapply taData_alive; [done|]. eapply taData_alive; [done|]. cbn [lenData] in *.
    apply safe_addressOf; [unfold taElemSize, taOps in *; nia|]. intros curSrc. apply safe_addressOf; [unfold taElemSize, taOps in *; nia|]. intros curDst.
    pose proof (elemsIn_array _ ta (Some sd) off (ta_length src) Ha Hd Hoff ltac:(lia)) as Hed.
    pose proof (elemsIn_array _ src (Some ss) 0 (ta_length src) Hs Hds ltac:(lia) ltac:(lia)) as Hes. rewrite Z.add_0_r in Hes.
    assert (∀ h' st n, wfHeap h' → bufs h' = bufs h → 0 ≤ st → 0 ≤ n → st + n ≤ ta_length src →
      safeAt h' (copyUp ta (ta_offset ta + off) src (ta_offset src) st (Z.to_nat n)) (λ _ h'', bufs h'' = bufs h')) as Hup.
    { intros. apply (safe_copyUp _ _ _ _ _ (ta_length src)); [done|by apply (elemsIn_bufs h)|by apply (elemsIn_bufs h)|lia|lia]. }
    assert (∀ h' st n, wfHeap h' → bufs h' = bufs h → 0 ≤ st → 0 ≤ n → st + n ≤ ta_length src →
      safeAt h' (copyDown ta (ta_offset ta + off) src (ta_offset src) st (Z.to_nat n)) (λ _ h'', bufs h'' = bufs h')) as Hdown.
    { intros. apply (safe_copyDown _ _ _ _ _ (ta_length src)); [done|by apply (elemsIn_bufs h)|by apply (elemsIn_bufs h)|lia|lia]. }
    destruct (taElemSize ta =? taElemSize src).
    + destruct (_ || _); eapply safeAt_weaken; [apply Hup|done|apply Hdown|done]; done || lia.
    + set (q := Z.quot _ _). set (x := if q <? 0 then 0 else _). assert (0 ≤ x ≤ ta_length src) as Hx.
      { unfold x. destruct (Z.ltb_spec q 0); [lia|]. destruct (Z.ltb_spec (ta_length src) q); lia. }
      destruct (taElemSize ta <? taElemSize src); (eapply safeAt_bind; [apply Hup; done || lia|]); intros [] h1 Hh1 _ Hb1; cbn in Hb1;
        (eapply safeAt_weaken; [apply Hdown|]); done || lia.
Qed.

Lemma safe_setFromItems ta item off n : (∀ i, safe (item i) (λ v _, safeValue v)) → ∀ h i, wfHeap h → wfTA h ta →
  safeAt h (setFromItems ta item off i n) any.
Proof.
  intros Hit. induction n as [|n IH]; intros h i Hh Ha; [by apply safeAt_ret|]. cbn [setFromItems].
  eapply safeAt_bind; [by apply Hit|]. intros v h1 Hh1 He1 Hv. pose proof (wfTA_evolves _ _ _ Hh1 He1 Ha) as Ha1.
  assert (∀ m : M unit, safeAt h1 m any → safeAt h1 (m ;; setFromItems ta item off (i + 1) n) any) as Hrest.
  { intros m Hm. eapply safeAt_bind; [exact Hm|]. intros [] h2 Hh2 He2 _. apply IH; [done|by apply (wfTA_evolves h1)]. }
  apply safe_isValid; [done| |apply Hrest; by apply safeAt_ret]. intros s Hl Hk. apply Hrest.
  apply (safe_taSet _ _ s); [done|done| |done]. rewrite <- Z.add_assoc. by apply (wfTA_inBounds h1).
Qed.

Definition safeSource (h : heap) (a0 : setSource) : Prop :=
  match a0 with
  | SetTyped src => wfTA h src
  | SetItems len item => safe len any ∧ ∀ i, safe (item i) (λ v _, safeValue v)
  end.

Lemma safe_set h ta a0 a1 : wfHeap h → wfTA h ta → safeSource h a0 → int64Value a1 → safeAt h (typedArrayProto_set ta a0 a1) any.
Proof.
  intros Hh Ha H0 H1. unfold typedArrayProto_set. eapply safeAt_bind; [by apply safe_VToInteger64|]. intros off h1 Hh1 He1 Hoff.
  pose proof (wfTA_evolves _ _ _ Hh1 He1 Ha) as Ha1. destruct (Z.ltb_spec off 0) as [|Hpos]; [by apply safeAt_raise|].
  apply safe_ensureNotDetached; [done|by apply wfTA_isBuffer|]. intros d Hd. cbv zeta. destruct a0 as [src|len item].
  - pose proof (wfTA_evolves _ _ _ Hh1 He1 H0) as Hs1. apply safe_ensureNotDetached; [done|by apply wfTA_isBuffer|]. intros ds Hds.
    destruct (_ || _) eqn:E; [by apply safeAt_raise|]. apply (safe_setFromTyped _ _ _ d ds); try done.
    apply room_ok; [by apply (wfTA_length h1 _ ds)|done|exact E].
  - destruct H0 as [Hlen Hit]. eapply safeAt_bind; [by apply Hlen|]. intros n h2 Hh2 He2 _.
    destruct (_ || _); [by apply safeAt_raise|]. apply safe_setFromItems; [done|done|by apply (wfTA_evolves h1)].
Qed.

(** ** slice, subarray and with *)

Lemma safe_copyBytesUp d doff s soff n : ∀ h k, wfHeap h → wfSlice (mem h) d → wfSlice (mem h) s → 0 ≤ k → 0 ≤ doff → 0 ≤ soff →
  doff + k + Z.of_nat n ≤ slen d → soff + k + Z.of_nat n ≤ slen s →
  safeAt h (copyBytesUp (Some d) (doff + k) (Some s) (soff + k) n) any.
Proof.
  induction n as [|n IH]; intros h k Hh Hd Hs Hk Hdo Hso Hn Hn'; [by apply safeAt_ret|]. cbn [copyBytesUp].
  eapply safeAt_bind; [apply safe_peek; [done|done|apply inSlice_spec; lia]|]. intros bs h1 Hh1 He1 [Hl Hb].
  pose proof (wfSlice_evolves _ _ _ He1 Hd) as Hd1. pose proof (wfSlice_evolves _ _ _ He1 Hs) as Hs1.
  eapply safeAt_bind; [apply safe_poke; [done|done|rewrite Hl; apply inSlice_spec; lia|done]|]. intros [] h2 Hh2 He2 _.
  rewrite <- !Z.add_assoc. apply IH; [done|by apply (wfSlice_evolves _ _ _ He2)|by apply (wfSlice_evolves _ _ _ He2)|lia..].
Qed.

Lemma safe_sliceLoop ta dst start n : ∀ h d i, wfHeap h → wfTA h ta → wfTA h dst → alive h (viewedArrayBuf dst) d → 0 ≤ start → 0 ≤ i →
  start + i + Z.of_nat n ≤ ta_length ta → i + Z.of_nat n ≤ ta_length dst → safeAt h (sliceLoop ta dst start i n) any.
Proof.
  induction n as [|n IH]; intros h d i Hh Ha Hdst Hd Hst Hi Hn Hn'; [by apply safeAt_ret|]. cbn [sliceLoop].
  apply safe_ensureNotDetached; [done|by apply wfTA_isBuffer|]. intros ds Hds. apply bind_assoc_safe. rewrite <- Z.add_assoc.
  eapply safeAt_bind; [apply (safe_copyElem h dst ta d ds i (start + i)); [done..|lia|lia]|]. intros [] h1 Hh1 _ Hb. cbn in Hb.
  apply (IH _ d); [done|by apply (wfTA_bufs h)|by apply (wfTA_bufs h)|by apply (alive_bufs h)|lia..].
Qed.

(** The bytes of one array copied to another of the same type. *)
Lemma safe_sliceBytes h ta dst d start count : wfHeap h → wfTA h ta → wfTA h dst → alive h (viewedArrayBuf dst) d → defaultCtor dst = defaultCtor ta →
  0 ≤ start → start + count ≤ ta_length ta → count ≤ ta_length dst →
  safeAt h
    (if 0 <? count then
       ensureNotDetached (viewedArrayBuf ta) ;;
       d ← taData dst;
       sd ← taData ta;
       dstStart ← addressOf d (ta_offset dst * taElemSize ta);
       srcStart ← addressOf sd ((ta_offset ta + start) * taElemSize ta);
       if (dstStart <=? srcStart) || (srcStart + count * taElemSize ta <=? dstStart) then
         bs ← peekBytes sd ((ta_offset ta + start) * taElemSize ta) (count * taElemSize ta);
         pokeBytes d (ta_offset dst * taElemSize ta) bs
       else copyBytesUp d (ta_offset dst * taElemSize ta) sd ((ta_offset ta + start) * taElemSize ta) (Z.to_nat (count * taElemSize ta))
     else mret ()) any.
Proof.
  intros Hh Ha Hdst Hd Hk Hst Hn Hn'. destruct (Z.ltb_spec 0 count) as [Hc|]; [|by apply safeAt_ret].
  apply safe_ensureNotDetached; [done|by apply wfTA_isBuffer|]. intros ds Hds. pose proof Ha as (Ho & _). pose proof Hdst as (Hod & _).
  pose proof (elemSize_pos (defaultCtor ta)) as Hw. fold (taOps ta) in Hw. fold (taElemSize ta) in Hw.
  assert (taElemSize dst = taElemSize ta) as Hsz by (unfold taElemSize, taOps; by rewrite Hk).
  destruct (alive_live _ _ _ Ha Hds ltac:(lia)) as (ss & -> & Hls), (alive_live _ _ _ Hdst Hd ltac:(lia)) as (sd & -> & Hld).
  pose proof (wfTA_data _ _ _ Ha Hds) as Hlen. pose proof (wfTA_data _ _ _ Hdst Hd) as Hlend. cbn [lenData] in *. rewrite Hsz in Hlend.
  eapply taData_alive; [done|]. eapply taData_alive; [done|]. apply safe_addressOf; [nia|]. intros dstStart. apply safe_addressOf; [nia|]. intros srcStart.
  pose proof (live_wf _ _ _ Hh Hls) as Hws. pose proof (live_wf _ _ _ Hh Hld) as Hwd. destruct (_ || _).
  - eapply safeAt_bind; [apply safe_peek; [done|done|apply inSlice_spec; nia]|]. intros bs h1 Hh1 He1 [Hl Hb].
    eapply safeAt_weaken; [apply safe_poke; [done|by apply (wfSlice_evolves _ _ _ He1)|rewrite Hl; apply inSlice_spec; nia|done]|done].
  - pose proof (safe_copyBytesUp sd (ta_offset dst * taElemSize ta) ss ((ta_offset ta + start) * taElemSize ta) (Z.to_nat (count * taElemSize ta)) h 0) as Hcp.
    rewrite !Z.add_0_r in Hcp. apply Hcp; [done|done|done|lia|nia|nia|rewrite Z2Nat.id; nia|rewrite Z2Nat.id; nia].
Qed.

Lemma safe_slice h species ta a0 a1 : wfHeap h → wfTA h ta → safeSpecies species → ta_length ta < maxInt → safeValue a0 → safeValue a1 →
  safeAt h (typedArrayProto_slice species ta a0 a1) (λ a h', wfTA h' a).
Proof.
  intros Hh Ha Hsp Hmax H0 H1. pose proof Ha as (_ & Hl & _). unfold typedArrayProto_slice.
  apply safe_ensureNotDetached; [done|by apply wfTA_isBuffer|]. intros _ _. cbv zeta.
  eapply safeAt_bind; [by apply safe_VToInteger|]. intros st h1 Hh1 He1 _. eapply safeAt_bind; [by apply safe_endArg|]. intros e h2 Hh2 He2 _.
  pose proof (relToIdx_range st _ Hl) as Hst. pose proof (relToIdx_range e _ Hl) as Hend. set (start := relToIdx st _) in *. set (fin := relToIdx e _) in *.
  set (count := if fin - start <? 0 then 0 else fin - start).
  assert (0 ≤ count ∧ start + count ≤ ta_length ta) as [Hc Hc'] by (unfold count; destruct (Z.ltb_spec (fin - start) 0); lia).
  eapply safeAt_bind; [by apply safe_speciesCreate; [done|done|lia]|]. intros dst h3 Hh3 He3 (Hdst & Hdl & d & Hd).
  assert (wfTA h3 ta) as Ha3 by (apply (wfTA_evolves h); [done|etrans; [done|]; by etrans|done]).
  eapply (safeAt_bind _ _ _ any); [|intros [] h4 Hh4 He4 _; apply safeAt_ret; [done|by apply (wfTA_evolves h3)]].
  destruct (decide (defaultCtor dst = defaultCtor ta)) as [Hk|].
  - apply (safe_sliceBytes h3 ta dst d start count); done || lia.
  - apply (safe_sliceLoop _ _ _ _ _ d); [done..|lia|lia|lia|lia].
Qed.

Lemma safe_subarray h species ta a0 a1 : wfHeap h → wfTA h ta → safeSpecies species → safeValue a0 → safeValue a1 →
  safeAt h (typedArrayProto_subarray species ta a0 a1) (λ a h', wfTA h' a).
Proof.
  intros Hh Ha Hsp H0 H1. pose proof Ha as (Ho & Hl & _). pose proof (elemSize_pos (defaultCtor ta)) as Hw. unfold typedArrayProto_subarray. cbv zeta.
  eapply safeAt_bind; [by apply safe_VToInteger|]. intros b h1 Hh1 He1 _. eapply safeAt_bind; [by apply safe_endArg|]. intros e h2 Hh2 He2 _.
  pose proof (relToIdx_range b _ Hl) as Hb. set (begin := relToIdx b _) in *. unfold typedArraySpeciesCreate.
  eapply safeAt_bind; [by apply Hsp|]. intros c h3 Hh3 He3 Hc. assert (isBuffer h3 (viewedArrayBuf ta)) as Hbuf.
  { apply (isBuffer_evolves h); [etrans; [done|]; by etrans|by apply wfTA_isBuffer]. }
  unfold typedArrayCreate. eapply safeAt_bind.
  { assert (safeCtor (match c with Some c => c | None => builtinCtor (defaultCtor ta) end)) as Hs by (destruct c; [done|apply safe_builtinCtor]).
    apply Hs; [|done|done]. unfold taElemSize, taOps. nia. }
  cbn. intros [a|] h4 Hh4 _ Hwa; [|by apply safeAt_raise]. apply safe_ensureNotDetached; [done|by apply wfTA_isBuffer|]. intros _ _. by apply safeAt_ret.
Qed.

(** The contents of a live array copied to a new one of the same length. *)
Lemma safe_copyAll h a ta da d : wfHeap h → wfTA h a → wfTA h ta → alive h (viewedArrayBuf a) da → alive h (viewedArrayBuf ta) d →
  safeAt h (let off := ta_offset ta * taElemSize ta in copySlice da 0 d off (lenData d - off)) (λ _ h', bufs h' = bufs h).
Proof.
  intros Hh Ha Ht Hda Hd. pose proof Ht as (Ho & Hl & _). pose proof (wfTA_data _ _ _ Ht Hd) as Hlen. pose proof (elemSize_pos (defaultCtor ta)) as Hw.
  pose proof (lenData_nonneg _ _ _ Hh Hda) as Hb. cbn [data] in Hb. unfold taElemSize, taOps in *. cbv zeta.
  apply safe_copySlice; [done|exact (wfData_buf _ _ _ Hh Hda)|exact (wfData_buf _ _ _ Hh Hd)|lia|nia|nia|lia].
Qed.

Lemma safe_with h ta a0 a1 : wfHeap h → wfTA h ta → ta_length ta < maxInt → safeValue a0 → safeValue a1 →
  safeAt h (typedArrayProto_with ta a0 a1) (λ a h', wfTA h' a).
Proof.
  intros Hh Ha Hmax H0 H1. pose proof Ha as (_ & Hl & _). unfold typedArrayProto_with. apply safe_ensureNotDetached; [done|by apply wfTA_isBuffer|]. intros _ _. cbv zeta.
  eapply safeAt_bind; [by apply safe_VToInteger|]. intros i h1 Hh1 He1 _. set (idx := if 0 <=? i then i else _).
  eapply safeAt_bind; [by apply safe_toContent|]. intros v h2 Hh2 He2 (c & ->).
  assert (wfTA h2 ta) as Ha2 by (apply (wfTA_evolves h); [done|by etrans|done]).
  apply safe_isValid; [done| |by apply safeAt_raise]. intros s Hs Hidx. cbn [negb].
  eapply safeAt_bind; [by apply safe_builtinCreate|]. intros a h3 Hh3 He3 (Haa & Ho & Hla & Hk & (da & Hda) & Hx).
  pose proof (extends_alive _ _ _ _ Hx Hs : alive h3 _ _) as Hs3. pose proof (wfTA_evolves _ _ _ Hh3 He3 Ha2) as Ha3.
  eapply taData_alive; [done|]. eapply taData_alive; [done|].
  eapply safeAt_bind; [apply (safe_copyAll h3 a ta); done|]. intros [] h4 Hh4 He4 Hb4. cbn in Hb4.
  pose proof (wfTA_evolves _ _ _ Hh4 He4 Haa) as Haa4. pose proof (alive_bufs _ h4 _ _ Hb4 Hda) as Hda4.
  destruct (alive_live _ _ _ Haa4 Hda4 ltac:(lia)) as (sa & -> & Hlv).
  eapply safeAt_bind; [apply (safe_taSet_numeric _ _ sa); [done|done|]; rewrite <- (Z.add_0_l idx), <- Ho; apply (wfTA_inBounds h4); [done|done|lia]|].
  intros [] h5 Hh5 He5 _. apply safeAt_ret; [done|]. by apply (wfTA_evolves h4).
Qed.

(** ** Sorting *)

(** sort.Stable calls Less and Swap with indices below Len. *)
Fixpoint indicesIn (n : Z) (p : sortProg) : Prop :=
  match p with
  | SortDone => True
  | SortLess i j k => 0 ≤ i < n ∧ 0 ≤ j < n ∧ ∀ b, indicesIn n (k b)
  | SortSwap i j k => 0 ≤ i < n ∧ 0 ≤ j < n ∧ indicesIn n k
  end.

Section sorting.
Context (compare : option (numeric → numeric → M value)).
Definition safeCompare : Prop := ∀ f, compare = Some f → ∀ x y, safe (f x y) (λ v _, safeValue v).
Hypothesis Hcmp : safeCompare.

(** Between the calls the buffer is live, known to be detached, or to be checked. *)
Definition sortOk (h : heap) ta (ctx : typedArraySortCtx) : Prop :=
  ctxDetached ctx = false → needValidate ctx = false → ∃ d, alive h (viewedArrayBuf ta) d.

Lemma safe_checkDetached {B} h ta ctx (f : typedArraySortCtx → M B) ψ : wfTA h ta → sortOk h ta ctx →
  (∀ ctx', ctxDetached ctx' = true → safeAt h (f ctx') ψ) →
  (∀ ctx' d, ctxDetached ctx' = false → needValidate ctx' = false → alive h (viewedArrayBuf ta) d → safeAt h (f ctx') ψ) →
  safeAt h (checkDetached ta ctx ≫= f) ψ.
Proof.
  intros Ha Hok Hdet Hlive. unfold checkDetached. destruct (ctxDetached ctx) eqn:Ed; cbn [negb andb].
  { eapply safeAt_pure; [done|]. by apply Hdet. }
  destruct (needValidate ctx) eqn:En.
  - apply bind_assoc_safe_inv. apply safe_notDetached; [by apply wfTA_isBuffer| |].
    + intros d Hd. eapply safeAt_pure; [done|]. by apply (Hlive _ d).
    + eapply safeAt_pure; [done|]. by apply Hdet.
  - eapply safeAt_pure; [done|]. destruct (Hok Ed En) as [d Hd]. by apply (Hlive _ d).
Qed.

Lemma safe_Less h ta ctx i j : wfHeap h → wfTA h ta → sortOk h ta ctx → 0 ≤ i < ta_length ta → 0 ≤ j < ta_length ta →
  safeAt h (Less compare ta ctx i j) (λ r h', sortOk h' ta r.2).
Proof.
  intros Hh Ha Hok Hi Hj. unfold Less. apply safe_checkDetached; [done|done| |].
  { intros ctx' Ed. rewrite Ed. apply safeAt_ret; [done|]. cbn. unfold sortOk. congruence. }
  intros ctx' d Ed En Hd. rewrite Ed. cbv zeta. destruct compare as [f|] eqn:Ec.
  - eapply safe_taGet_in; [done..|]. intros x. eapply safe_taGet_in; [done..|]. intros y.
    eapply safeAt_bind; [by apply Hcmp|]. intros r h1 Hh1 He1 Hr. eapply safeAt_bind; [by apply safe_ToNumber|]. intros n h2 Hh2 He2 _.
    apply safeAt_ret; [done|]. done.
  - destruct (alive_live _ _ _ Ha Hd ltac:(lia)) as (s & -> & Hs). eapply taData_alive; [done|].
    destruct (less_ok h (defaultCtor ta) s (ta_offset ta + i) (ta_offset ta + j)) as [b Hb];
      [by apply (live_wf _ _ _ Hh Hs)|by apply (wfTA_inBounds h)|by apply (wfTA_inBounds h)|].
    eapply safeAt_pure; [exact Hb|]. apply safeAt_ret; [done|]. intros _ _. by eexists.
Qed.

Lemma safe_Swap h ta ctx i j : wfHeap h → wfTA h ta → sortOk h ta ctx → 0 ≤ i < ta_length ta → 0 ≤ j < ta_length ta →
  safeAt h (Swap ta ctx i j) (λ ctx' h', sortOk h' ta ctx').
Proof.
  intros Hh Ha Hok Hi Hj. unfold Swap. apply safe_checkDetached; [done|done| |].
  { intros ctx' Ed. rewrite Ed. apply safeAt_ret; [done|]. unfold sortOk. congruence. }
  intros ctx' d Ed En Hd. rewrite Ed. cbv zeta. apply bind_assoc_safe. eapply safeAt_bind; [by apply (safe_swap_in _ _ d)|].
  intros [] h1 Hh1 _ Hb. cbn in Hb. apply safeAt_ret; [done|]. intros _ _. exists d. by apply (alive_bufs h).
Qed.

Lemma safe_runSort ta p : indicesIn (ta_length ta) p → ∀ h ctx, wfHeap h → wfTA h ta → sortOk h ta ctx → safeAt h (runSort compare ta ctx p) any.
Proof.
  induction p as [|i j k IH|i j k IH]; cbn [indicesIn runSort]; intros Hp h ctx Hh Ha Hok; [by apply safeAt_ret|..]; destruct Hp as (Hi & Hj & Hk).
  - eapply safeAt_bind; [by apply safe_Less|]. intros r h1 Hh1 He1 Hok1. apply IH; [done|done|by apply (wfTA_evolves h)|done].
  - eapply safeAt_bind; [by apply safe_Swap|]. intros ctx1 h1 Hh1 He1 Hok1. apply IH; [done|done|by apply (wfTA_evolves h)|done].
Qed.

Context (stable : Z → sortProg) (Hstable : ∀ n, indicesIn n (stable n)).

Lemma safe_sort h ta : wfHeap h → wfTA h ta → safeAt h (typedArrayProto_sort compare stable ta) any.
Proof.
  intros Hh Ha. unfold typedArrayProto_sort. apply safe_ensureNotDetached; [done|by apply wfTA_isBuffer|]. intros d Hd.
  apply safe_runSort; [done|done|done|]. intros _ _. by exists d.
Qed.

Lemma safe_toSorted h ta : wfHeap h → wfTA h ta → ta_length ta < maxInt → safeAt h (typedArrayProto_toSorted compare stable ta) (λ a h', wfTA h' a).
Proof.
  intros Hh Ha Hmax. pose proof Ha as (_ & Hl & _). unfold typedArrayProto_toSorted. apply safe_ensureNotDetached; [done|by apply wfTA_isBuffer|]. intros d Hd.
  eapply safeAt_bind; [by apply safe_builtinCreate|]. intros a h1 Hh1 He1 (Haa & Ho & Hla & Hk & (da & Hda) & Hx).
  pose proof (extends_alive _ _ _ _ Hx Hd) as Hd1. pose proof (wfTA_evolves _ _ _ Hh1 He1 Ha) as Ha1.
  eapply taData_alive; [done|]. eapply taData_alive; [done|]. cbv zeta.
  eapply safeAt_bind; [apply (safe_copyAll h1 a ta); done|]. intros [] h2 Hh2 He2 Hb2. cbn in Hb2. pose proof (wfTA_evolves _ _ _ Hh2 He2 Haa) as Haa2.
  eapply safeAt_bind; [apply safe_runSort; [done|done|done|]; intros _ _; exists da; by apply (alive_bufs h1)|].
  intros [] h3 Hh3 He3 _. apply safeAt_ret; [done|]. by apply (wfTA_evolves h2).
Qed.
End sorting.

(** ** The operations together *)

(** What an operation gives back, besides numbers and the like. *)
Inductive reply := RNone | RArray (a : typedArrayObject) | RBuffer (b : nat) | RView (dv : dataViewObject).

(** An operation with its arguments and the code it runs. *)
Inductive call :=
  (* buffers and data views *)
  | CNewBuffer (proto : M unit) (len : option value)
  | CBufferSlice (b : nat) (species : Z → M (option nat)) (a0 a1 : value)
  | CTransfer (b : nat) (len : value)
  | CNewView (proto : M unit) (b : nat) (a1 a2 : option value)
  | CViewGet (k : taKind) (dv : dataViewObject) (a0 a1 : value)
  | CViewSet (k : taKind) (dv : dataViewObject) (a0 a1 a2 : value)
  (* constructors *)
  | CNewLength (k : taKind) (proto : M unit) (len : value)
  | CNewOnBuffer (k : taKind) (proto : M unit) (b : nat) (a1 a2 : option value)
  | CNewFromTyped (k : taKind) (proto : M unit) (src : typedArrayObject)
  (* elements *)
  | CGet ta (idx : Z) | CPut ta (idx : Z) (v : value) | CDelete ta (idx : Z) (throw : bool)
  (* methods *)
  | CCopyWithin ta (a0 a1 a2 : value) | CFill ta (a0 a1 a2 : value) | CAt ta (a0 : value)
  | CIndexOf ta (a0 a1 : value) | CIncludes ta (a0 a1 : value) | CLastIndexOf ta (a0 : value) (a1 : option value)
  | CEvery ta (cb : option numeric → Z → M value) | CSome ta (cb : option numeric → Z → M value)
  | CFind ta (cb : option numeric → Z → M value) | CFindIndex ta (cb : option numeric → Z → M value)
  | CFindLast ta (cb : option numeric → Z → M value) | CFindLastIndex ta (cb : option numeric → Z → M value)
  | CForEach ta (cb : option numeric → Z → M value)
  | CFilter ta (cb : option numeric → Z → M value) (species : M (option userCtor))
  | CReduce ta (cb : value → option numeric → Z → M value) (init : option value)
  | CReduceRight ta (cb : value → option numeric → Z → M value) (init : option value)
  | CReverse ta | CToReversed ta
  | CSet ta (a0 : setSource) (a1 : value)
  | CSlice ta (species : M (option userCtor)) (a0 a1 : value) | CSubarray ta (species : M (option userCtor)) (a0 a1 : value)
  | CWith ta (a0 a1 : value)
  | CSort ta (compare : option (numeric → numeric → M value)) (stable : Z → sortProg)
  | CToSorted ta (compare : option (numeric → numeric → M value)) (stable : Z → sortProg).

Definition noReply {A} (m : M A) : M reply := m ;; mret RNone.
Definition array (m : M typedArrayObject) : M reply := a ← m; mret (RArray a).
Definition buf (m : M nat) : M reply := b ← m; mret (RBuffer b).

Definition exec (c : call) : M reply :=
  match c with
  | CNewBuffer proto len => buf (builtin_newArrayBuffer proto len)
  | CBufferSlice b species a0 a1 => buf (arrayBufferProto_slice b species a0 a1)
  | CTransfer b len => buf (arrayBufferProto_transfer b len)
  | CNewView proto b a1 a2 => dv ← newDataView proto b a1 a2; mret (RView dv)
  | CViewGet k dv a0 a1 => noReply (viewGet k dv a0 a1)
  | CViewSet k dv a0 a1 a2 => noReply (viewSet k dv a0 a1 a2)
  | CNewLength k proto len => array (_newTypedArray proto k (ArgValue len))
  | CNewOnBuffer k proto b a1 a2 => array (_newTypedArray proto k (ArgBuffer b a1 a2))
  | CNewFromTyped k proto src => array (_newTypedArray proto k (ArgTyped src))
  | CGet ta idx => noReply (getIdx ta idx)
  | CPut ta idx v => noReply (setOwnIdx ta idx v)
  | CDelete ta idx throw => noReply (deleteIdx ta idx throw)
  | CCopyWithin ta a0 a1 a2 => noReply (typedArrayProto_copyWithin ta a0 a1 a2)
  | CFill ta a0 a1 a2 => noReply (typedArrayProto_fill ta a0 a1 a2)
  | CAt ta a0 => noReply (typedArrayProto_at ta a0)
  | CIndexOf ta a0 a1 => noReply (typedArrayProto_indexOf ta a0 a1)
  | CIncludes ta a0 a1 => noReply (typedArrayProto_includes ta a0 a1)
  | CLastIndexOf ta a0 a1 => noReply (typedArrayProto_lastIndexOf ta a0 a1)
  | CEvery ta cb => noReply (typedArrayProto_every cb ta)
  | CSome ta cb => noReply (typedArrayProto_some cb ta)
  | CFind ta cb => noReply (typedArrayProto_find cb ta)
  | CFindIndex ta cb => noReply (typedArrayProto_findIndex cb ta)
  | CFindLast ta cb => noReply (typedArrayProto_findLast cb ta)
  | CFindLastIndex ta cb => noReply (typedArrayProto_findLastIndex cb ta)
  | CForEach ta cb => noReply (typedArrayProto_forEach cb ta)
  | CFilter ta cb species => array (typedArrayProto_filter cb species ta)
  | CReduce ta cb init => noReply (typedArrayProto_reduce cb ta init)
  | CReduceRight ta cb init => noReply (typedArrayProto_reduceRight cb ta init)
  | CReverse ta => noReply (typedArrayProto_reverse ta)
  | CToReversed ta => array (typedArrayProto_toReversed ta)
  | CSet ta a0 a1 => noReply (typedArrayProto_set ta a0 a1)
  | CSlice ta species a0 a1 => array (typedArrayProto_slice species ta a0 a1)
  | CSubarray ta species a0 a1 => array (typedArrayProto_subarray species ta a0 a1)
  | CWith ta a0 a1 => array (typedArrayProto_with ta a0 a1)
  | CSort ta compare stable => noReply (typedArrayProto_sort compare stable ta)
  | CToSorted ta compare stable => array (typedArrayProto_toSorted compare stable ta)
  end.

(** The views are those of the heap, and the code the operation runs is safe. *)
Definition wfCall (h : heap) (c : call) : Prop :=
  match c with
  | CNewBuffer proto len => safe proto any ∧ match len with Some v => keepsLastValue v | None => True end
  | CBufferSlice b species a0 a1 => isBuffer h b ∧ safeBufferSpecies species ∧ safeValue a0 ∧ safeValue a1
  | CTransfer b len => isBuffer h b ∧ safeValue len
  | CNewView proto b a1 a2 => isBuffer h b ∧ safe proto any ∧ safeArg a1 ∧ safeArg a2
  | CViewGet _ dv a0 _ => wfView h dv ∧ safeValue a0
  | CViewSet _ dv a0 a1 _ => wfView h dv ∧ safeValue a0 ∧ safeValue a1
  | CNewLength _ proto len => keepsLast proto ∧ safeValue len
  | CNewOnBuffer _ proto b a1 a2 => isBuffer h b ∧ safe proto any ∧ safeArg a1 ∧ safeArg a2
  | CNewFromTyped _ proto src => keepsLast proto ∧ wfTA h src
  | CGet ta _ | CDelete ta _ _ | CReverse ta => wfTA h ta
  | CPut ta _ v => wfTA h ta ∧ safeValue v
  | CCopyWithin ta a0 a1 a2 | CFill ta a0 a1 a2 => wfTA h ta ∧ safeValue a0 ∧ safeValue a1 ∧ safeValue a2
  | CAt ta a0 => wfTA h ta ∧ safeValue a0
  | CIndexOf ta a0 a1 | CIncludes ta a0 a1 => wfTA h ta ∧ wfValue a0 ∧ safeValue a1
  | CLastIndexOf ta a0 a1 => wfTA h ta ∧ wfValue a0 ∧ safeArg a1
  | CEvery ta cb | CSome ta cb | CFind ta cb | CFindIndex ta cb | CFindLast ta cb | CFindLastIndex ta cb | CForEach ta cb =>
      wfTA h ta ∧ safeCallback cb
  | CFilter ta cb species => wfTA h ta ∧ safeCallback cb ∧ safeFilterSpecies species ∧ ta_length ta < maxInt
  | CReduce ta cb _ | CReduceRight ta cb _ => wfTA h ta ∧ ∀ acc x k, safe (cb acc x k) any
  | CToReversed ta => wfTA h ta ∧ ta_length ta < maxInt
  | CSet ta a0 a1 => wfTA h ta ∧ safeSource h a0 ∧ int64Value a1
  | CSlice ta species a0 a1 => wfTA h ta ∧ safeSpecies species ∧ ta_length ta < maxInt ∧ safeValue a0 ∧ safeValue a1
  | CSubarray ta species a0 a1 => wfTA h ta ∧ safeSpecies species ∧ safeValue a0 ∧ safeValue a1
  | CWith ta a0 a1 => wfTA h ta ∧ ta_length ta < maxInt ∧ safeValue a0 ∧ safeValue a1
  | CSort ta compare stable => wfTA h ta ∧ safeCompare compare ∧ ∀ n, indicesIn n (stable n)
  | CToSorted ta compare stable => wfTA h ta ∧ safeCompare compare ∧ (∀ n, indicesIn n (stable n)) ∧ ta_length ta < maxInt
  end.

Definition wfReply (r : reply) (h : heap) : Prop :=
  match r with
  | RNone => True
  | RArray a => wfTA h a
  | RBuffer b => isBuffer h b
  | RView dv => wfView h dv
  end.

Lemma safe_noReply {A} h (m : M A) : safeAt h m any → safeAt h (noReply m) wfReply.
Proof. intros Hm. eapply safeAt_bind; [exact Hm|]. intros a h' Hh' _ _. by apply safeAt_ret. Qed.
Lemma safe_array h (m : M typedArrayObject) : safeAt h m (λ a h', wfTA h' a) → safeAt h (array m) wfReply.
Proof. intros Hm. eapply safeAt_bind; [exact Hm|]. intros a h' Hh' _ Ha. by apply safeAt_ret. Qed.
Lemma safe_buf h (m : M nat) : safeAt h m (λ b h', isBuffer h' b) → safeAt h (buf m) wfReply.
Proof. intros Hm. eapply safeAt_bind; [exact Hm|]. intros a h' Hh' _ Ha. by apply safeAt_ret. Qed.

Lemma safe_newLength h k proto v : wfHeap h → keepsLast proto → safeValue v →
  safeAt h (_newTypedArray proto k (ArgValue v)) (λ a h', wfTA h' a).
Proof.
  intros Hh Hp Hv. cbn [_newTypedArray]. eapply safeAt_bind; [by apply safe_VtoIndex|]. intros n h1 Hh1 _ Hn.
  eapply safeAt_weaken; [by apply safe_allocateTypedArray|]. by intros a h' (? & _).
Qed.
Lemma safe_newOnBuffer h k proto b a1 a2 : wfHeap h → isBuffer h b → safe proto any → safeArg a1 → safeArg a2 →
  safeAt h (_newTypedArray proto k (ArgBuffer b a1 a2)) (λ a h', wfTA h' a).
Proof. intros. cbn [_newTypedArray]. eapply safeAt_weaken; [by apply safe_fromArrayBuffer|]. by intros a h' (? & _). Qed.

Lemma safe_exec h c : wfHeap h → wfCall h c → safeAt h (exec c) wfReply.
Proof.
  intros Hh Hc. destruct c; cbn [exec wfCall] in *; destruct_and?;
    (apply safe_noReply || apply safe_array || apply safe_buf || idtac);
    first
      [ by apply safe_builtin_newArrayBuffer | by apply safe_arrayBuffer_slice | by apply safe_transfer
      | by apply safe_viewGet | by apply safe_viewSet | by apply safe_newLength | by apply safe_newOnBuffer | by apply safe_fromTypedArray
      | by apply safe_getIdx | by apply safe_setOwnIdx | by apply safe_deleteIdx | by apply safe_copyWithin | by apply safe_fillMethod
      | by apply safe_at | by apply safe_indexOf | by apply safe_includes | by apply safe_lastIndexOf | by apply safe_every | by apply safe_some
      | by apply safe_find | by apply safe_findIndex | by apply safe_findLast | by apply safe_findLastIndex | by apply safe_forEach
      | by apply safe_filter | by apply safe_reduce | by apply safe_reduceRight | by apply safe_reverse | by apply safe_toReversed
      | by apply safe_set | by apply safe_slice | by apply safe_subarray | by apply safe_with | by apply safe_sort | by apply safe_toSorted
      | eapply safeAt_bind; [by apply safe_newDataView|]; intros ? ? ? ? ?; by apply safeAt_ret ].
Qed.

(** C8: No operation on typed arrays, array buffers and data views leaves the
    memory of a buffer: from a well-formed heap each of the operations of [call],
    on views of that heap, returns a value or throws, whatever the conversions of
    its arguments, its callbacks and the constructors it calls do to the heap in
    between (detach the buffers, for one).  The heap stays well-formed, it changes
    only as a program can change it, and the views and buffers that come back are
    well-formed again. *)
Theorem typedarray_memory_safe (h : heap) (c : call) :
  wfHeap h → wfCall h c →
  match exec c h with
  | (Ret r, h') => wfHeap h' ∧ evolves h h' ∧ wfReply r h'
  | (Raise _, h') => wfHeap h' ∧ evolves h h'
  | (Crash, _) => False
  end.
Proof. intros Hh Hc. exact (safe_exec h c Hh Hc). Qed.
End methods.
End TypedArraySafety.
