(* ===== verification/TypedArraySamples.v ===== *)
(** * Concrete typed arrays

    A heap on which the theorems about typed arrays are applied, and runs in which
    the builtins do not behave as ECMAScript prescribes. *)

From S2P Require Import Prelude Float64 Numbers Arith FloatBits TypedArrays TypedArrayOps TypedArrayMem TypedArrayProps TypedArraySet TypedArraySearch TypedArraySafe TypedArraySafeOps TypedArraySafety.
Import Float64 Numbers Arith FloatBits TypedArrays TypedArrayOps TypedArrayMem TypedArrayProps TypedArraySet TypedArraySearch TypedArraySafe TypedArraySafeOps TypedArraySafety.
Open Scope Z_scope.

Module TypedArraySamples.
#[local] Instance machine : Machine := {| nativeEndian := littleEndian; int64OutOfRange _ := MinInt64; addrOf b := 4096 * Z.of_nat b |}.

(** A buffer of eight bytes, as [new Uint8Array([0, 1, 2, 3, 4, 5, 6, 7])] makes it. *)
Definition slice8 : goslice := Slice 0 0 8.
Definition heap8 : heap := Heap [[0; 1; 2; 3; 4; 5; 6; 7]] [ArrayBuffer false (Some slice8)].
Definition int (n : Z) : value := VNum (valueInt n).
(** Views of it: [new Uint8Array(buf, 0, 4)], [new Uint16Array(buf, 2, 3)], [new DataView(buf, 1, 6)]. *)
Definition bytes4 : typedArrayObject := TypedArrayObject 0 Uint8 4 0.
Definition words3 : typedArrayObject := TypedArrayObject 0 Uint16 3 1.
Definition view6 : dataViewObject := DataView 0 6 1.

Lemma heap8_wf : wfHeap heap8.
Proof.
  split; cbn.
  - repeat constructor; unfold byte; lia.
  - intros [|b] o; cbn; [|by destruct b]. intros [= <-]. split; [done|]. exists [0; 1; 2; 3; 4; 5; 6; 7]. cbn. split; [done|lia].
Qed.
Lemma heap8_live : live heap8 0 slice8.
Proof. done. Qed.

Ltac wf8 := split_and!; [cbn; lia|cbn; lia|]; eexists; split; [done|]; intros _; cbn; lia.

Lemma bytes4_wf : wfTA heap8 bytes4.
Proof. wf8. Qed.
Lemma words3_wf : wfTA heap8 words3.
Proof. wf8. Qed.
Lemma view6_wf : wfView heap8 view6.
Proof. wf8. Qed.

(** *** The theorems applied *)

Lemma float16_conversion_witness : Float16ToFloat64 (Float64ToFloat16 (ofZ 2049)) = roundTo binary16 (ofZ 2049).
Proof. apply (float16_conversion (ofZ 2049) 0); [vm_compute; intuition discriminate|lia]. Defined.

Lemma words_convertible : convertible Uint16 (NNum (valueInt 70000)).
Proof. split; [done|]. split; [cbn; unfold maxInt; lia|]. by intros [|[|]]. Qed.

Lemma element_roundtrip_witness :
  ∃ h', setOwnIdx words3 1 (int 70000) heap8 = (Ret true, h') ∧ getIdx words3 1 h' = (Ret (Some (ideal Uint16 (NNum (valueInt 70000)))), h').
Proof.
  pose proof (element_roundtrip heap8 heap8 words3 slice8 1 (int 70000) (NNum (valueInt 70000)) heap8_wf words3_wf heap8_live eq_refl words_convertible) as E.
  rewrite decide_True in E by (cbn; lia). destruct E as (h' & Hs & _ & Hg & _). exists h'. split; [exact Hs|exact Hg].
Defined.

Lemma view_convertible : convertible Uint16 (NNum (valueInt 515)).
Proof. split; [done|]. split; [cbn; unfold maxInt; lia|]. by intros [|[|]]. Qed.

Lemma dataview_roundtrip_witness :
  ∃ h', viewSet Uint16 view6 (int 3) (int 515) (int 0) heap8 = (Ret (), h') ∧
        viewGet Uint16 view6 (int 3) (int 0) h' = (Ret (ideal Uint16 (NNum (valueInt 515))), h').
Proof.
  pose proof (dataview_roundtrip heap8 view6 slice8 Uint16 3 (NNum (valueInt 515)) (int 0) heap8_wf view6_wf heap8_live
    ltac:(unfold maxInt; lia) ltac:(discriminate) view_convertible) as E. cbv zeta in E.
  rewrite decide_True in E by (cbn; lia). destruct E as (h' & Hs & _ & _ & Hg & _). exists h'. split; [exact Hs|exact Hg].
Defined.

(** The three 16-bit elements are written over the bytes they are read from. *)
Lemma typedArray_set_overlap_witness :
  typedArrayProto_set bytes4 (SetTyped words3) (int 1) heap8 =
  (Ret (), Heap (storeAll (mem heap8) slice8 1 1 (convertRaw bytes4 words3 <$> rawElems (mem heap8) slice8 2 1 3)) (bufs heap8)).
Proof. exact (typedArray_set_overlap heap8 bytes4 words3 slice8 slice8 1 heap8_wf bytes4_wf words3_wf heap8_live heap8_live ltac:(unfold MaxInt64; lia)). Defined.

Lemma typedArray_search_witness : typedArrayProto_indexOf words3 (int 1284) (int (-3)) heap8 =
  (Ret (firstAt (λ x, strictEq x (int 1284)) 0 (taElems heap8 words3 slice8)), heap8).
Proof. apply (typedArray_search heap8 words3 slice8 (int 1284) (-3) heap8_wf words3_wf heap8_live). cbn. unfold maxInt. lia. Defined.

(** A callback that detaches the buffer of the array it runs on. *)
Definition detaching (x : option numeric) (k : Z) : M value := detach 0 ;; mret _undefined.

Lemma detaching_safe : safeCallback detaching.
Proof.
  intros x k h Hh. unfold detaching. eapply (safeAt_bind _ _ _ any); [|intros; by apply safeAt_ret].
  destruct (bufs h !! 0%nat) as [o|] eqn:Hb; [eapply safeAt_weaken; [apply safe_detach; [done|by exists o]|done]|].
  assert (detach 0 h = (Ret (), h)) as E by (destruct h as [m [|o bs]]; done). unfold safeAt. rewrite E. split; [done|]. split; [reflexivity|done].
Qed.

Lemma typedarray_memory_safe_witness :
  match exec (CForEach bytes4 detaching) heap8 with
  | (Ret r, h') => wfHeap h' ∧ evolves heap8 h' ∧ wfReply r h'
  | (Raise _, h') => wfHeap h' ∧ evolves heap8 h'
  | (Crash, _) => False
  end.
Proof. exact (typedarray_memory_safe heap8 (CForEach bytes4 detaching) heap8_wf (conj bytes4_wf detaching_safe)). Defined.

(** *** Deviations from ECMAScript *)

(** copyWithin limits the elements it reads to the array, not those it writes: on
    [new Uint8Array(buf, 0, 4)] [copyWithin(2, 0)] changes the bytes 4 and 5, which
    are behind the end of the view. *)
Theorem copyWithin_leaves_view :
  typedArrayProto_copyWithin bytes4 (int 2) (int 0) _undefined heap8 =
  (Ret (), Heap [[0; 1; 0; 1; 2; 3; 6; 7]] (bufs heap8)).
Proof. vm_cast_no_check (eq_refl (Ret (), Heap [[0; 1; 0; 1; 2; 3; 6; 7]] (bufs heap8))). Qed.

(** The constructor of [new Uint8Array(buf, 4, 4)] in a class derived from it. *)
Definition onTail : userCtor := λ _, mret (Some (TypedArrayObject 0 Uint8 4 4)).

(** of writes from the start of the buffer, not of the array that is returned. *)
Theorem typedArray_of_ignores_offset :
  typedArray_of onTail [int 9] heap8 =
  (Ret (TypedArrayObject 0 Uint8 4 4), Heap [[9; 1; 2; 3; 4; 5; 6; 7]] (bufs heap8)).
Proof. vm_cast_no_check (eq_refl (Ret (TypedArrayObject 0 Uint8 4 4), Heap [[9; 1; 2; 3; 4; 5; 6; 7]] (bufs heap8))). Qed.

(** map does not check that the array it writes to is still attached: when the
    callback detaches it, the next element is written through a nil slice. *)
Theorem map_writes_detached :
  (typedArrayProto_map detaching (mret (Some (λ _, mret (Some bytes4)))) bytes4 heap8).1 = Crash.
Proof. vm_cast_no_check (eq_refl (@Crash typedArrayObject)). Qed.

(** A value whose valueOf transfers the buffer away. *)
Definition transferring : value :=
  VOther false (arrayBufferProto_transfer 0 _undefined ;; mret (valueInt 9)) (mret 9) true.

(** set takes the address of an element before it converts the value: the 9 is
    stored in the buffer the data has moved to, although the target is detached. *)
Theorem set_writes_transferred :
  typedArrayProto_set bytes4 (SetItems (mret (valueInt 1)) (λ _, mret transferring)) (int 0) heap8 =
  (Ret (), Heap [[9; 1; 2; 3; 4; 5; 6; 7]] [ArrayBuffer true None; ArrayBuffer false (Some slice8)]).
Proof.
  vm_cast_no_check (eq_refl (@Ret unit (), Heap [[9; 1; 2; 3; 4; 5; 6; 7]] [ArrayBuffer true None; ArrayBuffer false (Some slice8)])).
Qed.

(** [new BigInt64Array(new Uint8Array(0))] does not throw. *)
Theorem mixed_content_empty :
  (_newTypedArray (mret ()) BigInt64 (ArgTyped (TypedArrayObject 0 Uint8 0 0)) heap8).1 = Ret (TypedArrayObject 1 BigInt64 0 0).
Proof. vm_cast_no_check (eq_refl (Ret (TypedArrayObject 1 BigInt64 0 0))). Qed.

(** A comparison function that returns -0 for equal elements makes each of them
    less than the other. *)
Theorem sort_negative_zero_less (i j : Z) :
  0 ≤ i < 4 → 0 ≤ j < 4 →
  (Less (Some (λ _ _, mret (VNum (valueFloat negativeZero)))) bytes4 (SortCtx false false) i j heap8).1 = Ret (true, SortCtx true false).
Proof.
  intros Hi Hj. assert (∀ k, 0 ≤ k < 4 → k = 0 ∨ k = 1 ∨ k = 2 ∨ k = 3) as Hk by lia.
  destruct (Hk i Hi) as [->|[->|[->| ->]]], (Hk j Hj) as [->|[->|[->| ->]]]; reflexivity.
Qed.
End TypedArraySamples.
