(* ===== verification/Globals.v ===== *)
(** * Global functions

    Model of the functions of builtin_global.go on strings: encodeURI,
    encodeURIComponent and their inverses, escape and unescape, and parseInt.
    Go strings are lists of bytes, code units and runes are integers. *)

From S2P Require Import Prelude Utf Strings Float64 Numbers Arith.
Import Utf Strings Float64 Numbers Arith.
Open Scope Z_scope.

Module Globals.

(** ** Readers and conversion to UTF-8 *)

(** unicodeRuneReader.ReadRune on the units left: [None] at the end, otherwise the
    rune, [None] for InvalidRuneError, and the units after it. *)
Definition strictReadRune (u : list Z) : option (option Z * list Z) :=
  match u with
  | [] => None
  | c :: rest =>
      Some (if isUTF16FirstSurrogate c then
              match rest with
              | second :: rest' => if isUTF16SecondSurrogate second then (Some (utf16DecodeRune c second), rest') else (None, rest)
              | [] => (None, rest)
              end
            else if isUTF16SecondSurrogate c then (None, rest)
            else (Some c, rest))
  end.

(** Reading to the end; [None] if there is an error on the way. *)
Fixpoint strictRunesFuel (fuel : nat) (u : list Z) : option (list Z) :=
  match fuel with
  | O => Some []
  | S fuel =>
      match strictReadRune u with
      | None => Some []
      | Some (None, _) => None
      | Some (Some r, rest) => rs ← strictRunesFuel fuel rest; Some (r :: rs)
      end
  end.
Definition strictRunes (u : list Z) : option (list Z) := strictRunesFuel (length u) u.

(** The runes of s.Reader(). *)
Definition leafRunes (s : Str) : option (list Z) :=
  match s with
  | SAscii a => Some a
  | SUnicode u => strictRunes (tail u)
  | SImported i u scanned =>
      if scanned then match u with Some u => strictRunes (tail u) | None => Some i end
      else Some (rangeRunes i)
  | _ => None
  end.
Definition readerRunes (s : Str) : option (list Z) := leafRunes (flatten s).

(** utf16.Decode: an unpaired surrogate becomes U+FFFD. *)
Definition utf16Decode (u : list Z) : list Z := (λ r, if isSurrogate r then RuneError else r) <$> decodeUnits u.

(** s.String() *)
Definition leafString (s : Str) : list Z :=
  match s with
  | SAscii a => a
  | SUnicode u => utf8Encode (utf16Decode (tail u))
  | SImported i _ _ => i
  | _ => []
  end.
Definition toGoString (s : Str) : list Z := leafString (flatten s).

(** ** Hexadecimal digits *)

Definition hexUpper : list Z := [48; 49; 50; 51; 52; 53; 54; 55; 56; 57; 65; 66; 67; 68; 69; 70].
Definition hexDigit (x : Z) : Z := default 0 (hexUpper !! Z.to_nat x).

Definition ishex (c : Z) : bool :=
  (48 <=? c) && (c <=? 57) || (97 <=? c) && (c <=? 102) || (65 <=? c) && (c <=? 70).
Definition unhex (c : Z) : Z :=
  if (48 <=? c) && (c <=? 57) then c - 48
  else if (97 <=? c) && (c <=? 102) then c - 97 + 10
  else if (65 <=? c) && (c <=? 70) then c - 65 + 10
  else 0.
(** unhex(a)<<4 | unhex(b) *)
Definition unhex2 (a b : Z) : Z := Z.lor (Z.shiftl (unhex a) 4) (unhex b).

Definition percent : Z := 37.
(** '%' and the digits hexUpper[b>>4] and hexUpper[b&15] *)
Definition escapeByte (b : Z) : list Z := [percent; hexDigit (Z.shiftr b 4); hexDigit (Z.land b 15)].

(** ** The tables of init *)

Definition byteIn (chars : list Z) (c : Z) : bool := bool_decide (c ∈ chars).
(** "abcdefghijklmnopqrstuvwxyzABCDEFGHIJKLMNOPQRSTUVWXYZ0123456789-_.!~*'()" *)
Definition uriUnescaped : Z → bool :=
  byteIn (seqZ 97 26 ++ seqZ 65 26 ++ seqZ 48 10 ++ [45; 95; 46; 33; 126; 42; 39; 40; 41]).
(** ";/?:@&=+$," *)
Definition uriReserved : Z → bool := byteIn [59; 47; 63; 58; 64; 38; 61; 43; 36; 44].
Definition uriReservedUnescapedHash (c : Z) : bool := uriUnescaped c || uriReserved c || (c =? 35).
Definition uriReservedHash (c : Z) : bool := uriReserved c || (c =? 35).
Definition emptyEscapeSet (c : Z) : bool := false.

(** ** URI coding *)

Definition malformed : exn := URIError "Malformed URI".

Section uri.
Context (unescaped : Z → bool).

(** The first loop: whether anything is to be escaped, and the length. *)
Definition encodeScan (rs : list Z) : bool * Z :=
  foldl (λ '(needed, l) rn,
    if RuneSelf <=? rn then (true, l + Z.of_nat (length (utf8EncodeScalar rn)) * 3)
    else if negb (unescaped rn) then (true, l + 3)
    else (needed, l + 1)) (false, 0) rs.

(** What the second loop stores for a rune. *)
Definition encodeRune (rn : Z) : list Z :=
  if RuneSelf <=? rn then utf8EncodeScalar rn ≫= escapeByte
  else if negb (unescaped rn) then escapeByte rn
  else [rn].

(** [None] is a store outside of the buffer. *)
Definition _encode (uriString : Str) : option (result Str) :=
  match readerRunes uriString with
  | None => Some (Throw malformed)
  | Some rs =>
      let '(needed, l) := encodeScan rs in
      if negb needed then Some (Ok uriString)
      else
        let out := rs ≫= encodeRune in
        if l <? Z.of_nat (length out) then None
        else Some (Ok (SAscii (out ++ replicate (Z.to_nat (l - Z.of_nat (length out))) 0)))
  end.
End uri.

Section decode.
Context (reservedSet : Z → bool).

(** The first loop: the number of escapes to be replaced, [None] if one is malformed. *)
Fixpoint countHex (s : list Z) : option Z :=
  match s with
  | [] => Some 0
  | ch :: s =>
      if ch =? percent then
        match s with
        | a :: b :: s => if negb (ishex a) || negb (ishex b) then None
                         else n ← countHex s; Some (if negb (reservedSet (unhex2 a b)) then n + 1 else n)
        | _ => None
        end
      else countHex s
  end.

(** The second loop: the bytes and isUnicode. *)
Fixpoint replaceHex (s : list Z) : list Z * bool :=
  match s with
  | [] => ([], false)
  | ch :: s =>
      if ch =? percent then
        match s with
        | a :: b :: s =>
            let c := unhex2 a b in
            let '(t, isUnicode) := replaceHex s in
            if reservedSet c then (ch :: a :: b :: t, isUnicode) else (c :: t, (RuneSelf <=? c) || isUnicode)
        | _ => ([], false)
        end
      else let '(t, isUnicode) := replaceHex s in (ch :: t, (RuneSelf <=? ch) || isUnicode)
  end.

(** The third loop: the runes, [None] for a malformed sequence. *)
Fixpoint decodeRunesFuel (fuel : nat) (t : list Z) : option (list Z) :=
  match fuel, t with
  | _, [] => Some []
  | O, _ => None
  | S fuel, _ =>
      let '(rn, size) := utf8DecodeRune t in
      if (rn =? RuneError) && negb (bool_decide (size = 3%nat ∧ take 3 t = [0xEF; 0xBF; 0xBD])) then None
      else us ← decodeRunesFuel fuel (drop size t); Some (rn :: us)
  end.

(** unicodeStringFromRunes; AsUtf16 of an ASCII string is nil. *)
Definition unicodeStringFromRunes (rs : list Z) : Str :=
  match NewFromRunes rs with inr u => SUnicode u | inl _ => SUnicode [] end.

(** [None] is a store outside of t. *)
Definition _decode (sv : Str) : option (result Str) :=
  let s := toGoString sv in
  match countHex s with
  | None => Some (Throw malformed)
  | Some hexCount =>
      if hexCount =? 0 then Some (Ok sv)
      else
        let '(t, isUnicode) := replaceHex s in
        let l := Z.of_nat (length s) - hexCount * 2 in
        if l <? Z.of_nat (length t) then None
        else
          let t := t ++ replicate (Z.to_nat (l - Z.of_nat (length t))) 0 in
          if negb isUnicode then Some (Ok (SAscii t))
          else Some (match decodeRunesFuel (length t) t with
                     | None => Throw malformed
                     | Some us => Ok (unicodeStringFromRunes us)
                     end)
  end.
End decode.

Definition builtin_decodeURI : Str → option (result Str) := _decode uriReservedHash.
Definition builtin_decodeURIComponent : Str → option (result Str) := _decode emptyEscapeSet.
Definition builtin_encodeURI : Str → option (result Str) := _encode uriReservedUnescapedHash.
Definition builtin_encodeURIComponent : Str → option (result Str) := _encode uriUnescaped.

(** ** escape and unescape *)

(** s.CharAt(i) for all i below the length *)
Definition chars (s : Str) : list Z := omap (λ i, CharAt s (Z.of_nat i)) (seq 0 (Z.to_nat (Length s))).

Definition escapeUnit (r : Z) : list Z :=
  if ((65 <=? r) && (r <=? 90) || (97 <=? r) && (r <=? 122) || (48 <=? r) && (r <=? 57) ||
      (r =? 64) || (r =? 42) || (r =? 95) || (r =? 43) || (r =? 45) || (r =? 46) || (r =? 47))
  then [r]
  else if r <=? 0xff then [percent; hexDigit (Z.shiftr r 4); hexDigit (Z.land r 0xf)]
  else [percent; 117; hexDigit (Z.shiftr r 12); hexDigit (Z.land (Z.shiftr r 8) 0xf);
        hexDigit (Z.land (Z.shiftr r 4) 0xf); hexDigit (Z.land r 0xf)].
Definition builtin_escape (s : Str) : Str := SAscii (chars s ≫= escapeUnit).

Definition hexUnit (c : Z) : bool := (c <=? 0xff) && ishex c.

(** One round of the loop: the unit and the units after it. *)
Definition unescapeStep (r : Z) (rest : list Z) : Z * list Z :=
  let short :=
    match rest with
    | c0 :: c1 :: rest' => if hexUnit c0 && hexUnit c1 then (unhex2 c0 c1, rest') else (r, rest)
    | _ => (r, rest)
    end in
  if r =? percent then
    match rest with
    | u :: c0 :: c1 :: c2 :: c3 :: rest' =>
        if (u =? 117) && (hexUnit c0 && hexUnit c1 && hexUnit c2 && hexUnit c3)
        then (Z.lor (Z.lor (Z.lor (Z.shiftl (unhex c0) 12) (Z.shiftl (unhex c1) 8)) (Z.shiftl (unhex c2) 4)) (unhex c3), rest')
        else short
    | _ => short
    end
  else (r, rest).

(** [buf] is asciiBuf, or unicodeBuf after the BOM. *)
Fixpoint unescapeLoop (fuel : nat) (u : list Z) (unicode : bool) (buf : list Z) : bool * list Z :=
  match fuel, u with
  | S fuel, r :: rest =>
      let '(r, rest) := unescapeStep r rest in
      let unicode := unicode || (RuneSelf <=? r) in
      unescapeLoop fuel rest unicode (buf ++ [r])
  | _, _ => (unicode, buf)
  end.
Definition builtin_unescape (s : Str) : Str :=
  let unicode := match devirtualizeString s with inr _ => true | inl _ => false end in
  let u := chars s in
  let '(unicode, buf) := unescapeLoop (length u) u unicode [] in
  if unicode then SUnicode (BOM :: buf) else SAscii buf.

(** ** parseInt *)

Definition digitVal (d : Z) : Z :=
  if (48 <=? d) && (d <=? 57) then d - 48
  else if (97 <=? d) && (d <=? 122) then d - 97 + 10
  else if (65 <=? d) && (d <=? 90) then d - 65 + 10
  else 36.

Fixpoint parseLargeLoop (n : float64) (s : list Z) (base : Z) : float64 :=
  match s with
  | [] => n
  | d :: s => let v := digitVal d in
              if base <=? v then n else parseLargeLoop (fadd (fmul n (ofZ base)) (ofZ v)) s base
  end.
Definition parseLargeInt (n : float64) (s : list Z) (base : Z) (sign : bool) : number :=
  let n := parseLargeLoop n s base in valueFloat (if sign then fneg n else n).

(** The loop, [i] digits read: [inl n] when it ends, [inr v] when it returns. *)
Fixpoint parseLoop (n cutoff base : Z) (sign : bool) (i : Z) (s : list Z) : (Z * Z) + number :=
  match s with
  | [] => inl (n, i)
  | d :: rest =>
      if cutoff <=? n then inr (parseLargeInt (ofZ n) s base sign)
      else
        let v := digitVal d in
        if base <=? v then inl (n, i)
        else
          let n := swrap 64 (n * base) in
          let n1 := swrap 64 (n + v) in
          if (n1 <? n) || (MaxInt64 <? n1) then inr (parseLargeInt (fadd (ofZ n) (ofZ v)) rest base sign)
          else parseLoop n1 cutoff base sign (i + 1) rest
  end.

Definition isX (c : Z) : bool := (c =? 120) || (c =? 88).
Definition _NaN : number := valueFloat NaN.

Definition parseInt (s : list Z) (base : Z) : number :=
  match s with
  | [] => _NaN
  | c :: rest =>
      let '(sign, s) := if c =? 45 then (true, rest) else if c =? 43 then (false, rest) else (false, s) in
      match s with
      | [] => _NaN
      | _ =>
          let hex := match s with a :: b :: _ => (a =? 48) && isX b | _ => false end in
          let '(base, s) := if hex && ((base =? 0) || (base =? 16)) then (16, drop 2 s) else (base, s) in
          match s with
          | [] => _NaN
          | _ =>
              let base := if base =? 0 then 10 else base in
              if negb ((2 <=? base) && (base <=? 36)) then _NaN
              else
                let cutoff := MaxInt64 / base + 1 in
                match parseLoop 0 cutoff base sign 0 s with
                | inr v => v
                | inl (n, i) =>
                    if i =? 0 then _NaN
                    else if sign then if n =? 0 then valueFloat negativeZero else intToValue (- n)
                    else intToValue n
                end
          end
      end
  end.

(** ** Reading runes *)

Definition noSurrogate (rs : list Z) : bool := forallb (λ r, negb (isSurrogate r)) rs.

Lemma surrogate_split c : isSurrogate c = isUTF16FirstSurrogate c || isUTF16SecondSurrogate c.
Proof.
  unfold isSurrogate, isUTF16FirstSurrogate, isUTF16SecondSurrogate.
  destruct (Z.leb_spec 0xD800 c), (Z.leb_spec c 0xDFFF), (Z.leb_spec c 0xDBFF), (Z.leb_spec 0xDC00 c); cbn; lia.
Qed.

Lemma utf16DecodeRune_scalar a b : isUTF16FirstSurrogate a = true → isUTF16SecondSurrogate b = true →
  isSurrogate (utf16DecodeRune a b) = false.
Proof.
  intros Ha Hb. unfold utf16DecodeRune. rewrite Ha, Hb. cbn. unfold isUTF16FirstSurrogate, isUTF16SecondSurrogate in *. zbool.
  apply isSurrogate_false. lia.
Qed.

(** The strict reader reads what the lenient one does, up to the first unpaired
    surrogate. *)
Lemma strictRunesFuel_spec fuel u : let rs := readAll fuel (MkDecoder u None) in
  strictRunesFuel fuel u = if noSurrogate rs then Some rs else None.
Proof.
  revert u. induction fuel as [|fuel IH]; intros u; [done|]. cbn [strictRunesFuel readAll]. unfold ReadRune. cbn.
  destruct u as [|c rest]; [done|]. cbn. pose proof (surrogate_split c) as Hc.
  destruct (isUTF16FirstSurrogate c) eqn:E1; cbn in Hc.
  - destruct rest as [|d rest]; [cbn; by rewrite Hc|]. destruct (isUTF16SecondSurrogate d) eqn:E2; [|cbn; by rewrite Hc].
    rewrite IH. cbn [noSurrogate forallb]. rewrite utf16DecodeRune_scalar by done. cbn. unfold noSurrogate. by destruct (forallb _ _).
  - destruct (isUTF16SecondSurrogate c); [cbn; by rewrite Hc|]. rewrite IH. cbn [noSurrogate forallb]. rewrite Hc. cbn.
    unfold noSurrogate. by destruct (forallb _ _).
Qed.

Lemma strictRunes_spec u : strictRunes u = if noSurrogate (decodeUnits u) then Some (decodeUnits u) else None.
Proof. apply strictRunesFuel_spec. Qed.

Lemma noSurrogate_scalars rs : Forall isScalar rs → noSurrogate rs = true.
Proof. induction 1 as [|r rs [_ Hr] _ IH]; [done|]. cbn. by rewrite Hr. Qed.

Lemma strictRunes_scalars rs : Forall isScalar rs → strictRunes (runesUnits rs) = Some rs.
Proof. intros Hrs. by rewrite strictRunes_spec, decodeUnits_runesUnits, noSurrogate_scalars. Qed.

Lemma decode_ascii a : Forall isAsciiByte a → decodeUnits a = a ∧ Forall isScalar a.
Proof.
  intros Ha. assert (Forall isScalar a) as Hs by (eapply Forall_impl; [exact Ha|apply ascii_scalar]). split; [|done].
  rewrite <- (proj2 (ascii_encode a Ha)) at 1. by apply decodeUnits_runesUnits.
Qed.

Lemma units_isUnit s : wfStr s → Forall isUnit (units s).
Proof. intros Hw. destruct (devirtualize_spec s Hw) as [Hf <-]. by apply flat_units_unit. Qed.

Lemma decodeUnits_range u : Forall isUnit u → Forall (λ r, 0 ≤ r ≤ MaxRune) (decodeUnits u).
Proof. intros Hu. by apply readAll_range. Qed.

Lemma scalars_of u : Forall isUnit u → noSurrogate (decodeUnits u) = true → Forall isScalar (decodeUnits u).
Proof.
  intros Hu Hn. pose proof (decodeUnits_range u Hu) as Hr. unfold noSurrogate in Hn. rewrite forallb_forall in Hn.
  apply Forall_lookup_2. intros i r Hi. split; [by apply (Forall_lookup_1 _ _ _ _ Hr Hi)|].
  apply list_elem_of_lookup_2, list_elem_of_In in Hi. specialize (Hn r Hi). by destruct (isSurrogate r).
Qed.

Lemma readerRunes_spec s : wfStr s →
  readerRunes s = if noSurrogate (decodeUnits (units s)) then Some (decodeUnits (units s)) else None.
Proof.
  intros Hw. destruct (flatten_spec s Hw) as (Hu & Hwf & Hr). unfold readerRunes. rewrite <- Hu.
  destruct (flatten s) as [a|u|i u sc|l r n|l n]; [| | |by destruct Hr..]; cbn [leafRunes units].
  - destruct (decode_ascii a Hwf) as [-> Hs]. by rewrite noSurrogate_scalars.
  - apply strictRunes_spec.
  - destruct Hwf as [(rs & Hrs & ->) ->]. rewrite rangeRunes_encode, decodeUnits_runesUnits, noSurrogate_scalars by done.
    destruct sc; [|done]. rewrite Scan_eq. destruct (allAscii (utf8Encode rs)) eqn:E.
    + apply allAscii_encode in E; [|done]. by destruct (ascii_encode rs E) as [-> _].
    + cbn. rewrite rangeRunes_encode by done. by apply strictRunes_scalars.
Qed.

Lemma toGoString_spec s : wfStr s → noSurrogate (decodeUnits (units s)) = true → toGoString s = utf8Encode (decodeUnits (units s)).
Proof.
  intros Hw Hn. destruct (flatten_spec s Hw) as (Hu & Hwf & Hr). unfold toGoString. rewrite <- Hu in Hn |- *.
  destruct (flatten s) as [a|u|i u sc|l r n|l n]; [| | |by destruct Hr..]; cbn [leafString units] in *.
  - destruct (decode_ascii a Hwf) as [-> _]. by destruct (ascii_encode a Hwf) as [-> _].
  - unfold utf16Decode. f_equal. clear -Hn. induction (decodeUnits (tail u)) as [|r rs IH]; [done|].
    cbn in *. apply andb_true_iff in Hn as [Hr Hn]. rewrite IH by done. by destruct (isSurrogate r).
  - destruct Hwf as [(rs & Hrs & ->) _]. by rewrite rangeRunes_encode, decodeUnits_runesUnits.
Qed.

(** ** Hexadecimal digits *)

Lemma nibble_cases x : 0 ≤ x < 16 → x ∈ seqZ 0 16.
Proof. intros. apply elem_of_seqZ. lia. Qed.

Lemma hexDigit_spec x : 0 ≤ x < 16 → ishex (hexDigit x) = true ∧ unhex (hexDigit x) = x ∧ 48 ≤ hexDigit x ≤ 70.
Proof.
  intros Hx. assert (Forall (λ x, ishex (hexDigit x) && (unhex (hexDigit x) =? x) && (48 <=? hexDigit x) && (hexDigit x <=? 70) = true) (seqZ 0 16)) as Hall.
  { vm_compute. repeat constructor. }
  pose proof (proj1 (Forall_forall _ _) Hall x (nibble_cases x Hx)) as H. cbn beta in H.
  rewrite !andb_true_iff, Z.eqb_eq, !Z.leb_le in H. tauto.
Qed.

Lemma nibbles b : 0 ≤ b < 256 → 0 ≤ Z.shiftr b 4 < 16 ∧ 0 ≤ Z.land b 15 < 16 ∧ Z.lor (Z.shiftl (Z.shiftr b 4) 4) (Z.land b 15) = b.
Proof.
  intros Hb. rewrite Z.shiftr_div_pow2 by lia. change 15 with (Z.ones 4). rewrite Z.land_ones by lia. split; [|split].
  - divlia.
  - apply Z.mod_pos_bound. lia.
  - rewrite Z.shiftl_mul_pow2 by lia. rewrite <- Z.land_ones by lia. change (b / 2 ^ 4 * 2 ^ 4) with (b / 2 ^ 4 * 2 ^ 4).
    rewrite <- Z.shiftl_mul_pow2, <- Z.shiftr_div_pow2 by lia. apply Z.bits_inj'. intros n Hn.
    rewrite Z.lor_spec, Z.land_spec. destruct (Z.lt_ge_cases n 4).
    + rewrite Z.shiftl_spec_low, Z.ones_spec_low by lia. by rewrite andb_true_r.
    + rewrite Z.shiftl_spec, Z.shiftr_spec, Z.ones_spec_high by lia. rewrite andb_false_r, orb_false_r. f_equal. lia.
Qed.

Lemma unhex2_digits b : 0 ≤ b < 256 → unhex2 (hexDigit (Z.shiftr b 4)) (hexDigit (Z.land b 15)) = b.
Proof.
  intros Hb. destruct (nibbles b Hb) as (H1 & H2 & H3). unfold unhex2.
  destruct (hexDigit_spec _ H1) as (_ & -> & _), (hexDigit_spec _ H2) as (_ & -> & _). done.
Qed.

(** ** URI coding *)

Section roundtrip.
Context (unescaped reservedSet : Z → bool)
  (Hun : ∀ b, unescaped b = true → 0 ≤ b < RuneSelf ∧ b ≠ percent) (Hres : ∀ b, reservedSet b = true → unescaped b = true).

Definition encB (b : Z) : list Z := if unescaped b then [b] else escapeByte b.
Definition escaped (b : Z) : bool := negb (unescaped b).

Lemma scalar_bytes r : isScalar r → Forall isByte (utf8EncodeScalar r) ∧ (RuneSelf ≤ r → Forall (λ b, RuneSelf ≤ b) (utf8EncodeScalar r)).
Proof.
  intros [Hr _]. unfold isByte, RuneSelf, MaxRune in *. unfold utf8EncodeScalar.
  destruct (r <? 0x80) eqn:E1; [|destruct (r <? 0x800) eqn:E2; [|destruct (r <? 0x10000) eqn:E3]]; zbool;
    (split; [|intros ?]; repeat constructor; divlia).
Qed.

Lemma utf8Encode_bytes rs : Forall isScalar rs → Forall isByte (utf8Encode rs).
Proof. induction 1 as [|r rs Hr _ IH]; [constructor|]. cbn. apply Forall_app. split; [by apply scalar_bytes|done]. Qed.

Lemma unescaped_high b : RuneSelf ≤ b → unescaped b = false.
Proof. intros Hb. destruct (unescaped b) eqn:E; [|done]. apply Hun in E. lia. Qed.

Lemma encodeRune_bytes r : isScalar r → encodeRune unescaped r = utf8EncodeScalar r ≫= encB.
Proof.
  intros Hr. unfold encodeRune. destruct (Z.leb_spec RuneSelf r) as [E|E].
  - destruct (scalar_bytes r Hr) as [_ Hb]. specialize (Hb E). induction Hb as [|b bs Hb _ IH]; [done|].
    change (escapeByte b ++ bs ≫= escapeByte = encB b ++ bs ≫= encB). f_equal; [|exact IH]. unfold encB. by rewrite unescaped_high.
  - assert (utf8EncodeScalar r = [r]) as ->.
    { unfold utf8EncodeScalar, RuneSelf in *. by rewrite (proj2 (Z.ltb_lt _ _)). }
    cbn. unfold encB. by destruct (unescaped r).
Qed.

Lemma encode_bytes rs : Forall isScalar rs → rs ≫= encodeRune unescaped = utf8Encode rs ≫= encB.
Proof.
  induction 1 as [|r rs Hr _ IH]; [done|]. unfold utf8Encode in *. cbn. rewrite bind_app, <- IH. by rewrite encodeRune_bytes.
Qed.

Lemma length_encodeRune r : Z.of_nat (length (encodeRune unescaped r)) =
  if RuneSelf <=? r then Z.of_nat (length (utf8EncodeScalar r)) * 3 else if negb (unescaped r) then 3 else 1.
Proof.
  assert (∀ bs, length (bs ≫= escapeByte) = (length bs * 3)%nat) as Hb by (induction bs as [|b bs IHb]; cbn; [done|by rewrite IHb]).
  unfold encodeRune. destruct (RuneSelf <=? r); [rewrite Hb; lia|]. by destruct (unescaped r).
Qed.

(** The first loop counts what the second one stores. *)
Lemma encodeScan_spec rs :
  encodeScan unescaped rs = (existsb escaped rs, Z.of_nat (length (rs ≫= encodeRune unescaped))).
Proof.
  unfold encodeScan. rewrite <- (orb_false_l (existsb escaped rs)), <- (Z.add_0_l (Z.of_nat _)).
  generalize false as nd. generalize 0 as l. induction rs as [|r rs IH]; intros l nd; [cbn; by rewrite orb_false_r, Z.add_0_r|].
  assert (length ((r :: rs) ≫= encodeRune unescaped) = (length (encodeRune unescaped r) + length (rs ≫= encodeRune unescaped))%nat) as ->
    by (cbn; apply length_app).
  rewrite Nat2Z.inj_add, length_encodeRune. cbn [foldl existsb]. unfold escaped at 1.
  destruct (Z.leb_spec RuneSelf r) as [E|E]; [rewrite unescaped_high by done|destruct (unescaped r)]; cbn [negb]; rewrite IH; f_equal;
    rewrite ?orb_true_r; done || lia.
Qed.

(** The escapes of bytes are read back. *)
Lemma countHex_encode bs : Forall isByte bs → countHex reservedSet (bs ≫= encB) = Some (Z.of_nat (length (List.filter escaped bs))).
Proof.
  induction 1 as [|b bs Hb _ IH]; [done|]. change (countHex reservedSet (encB b ++ bs ≫= encB) = Some (Z.of_nat (length (List.filter escaped (b :: bs))))).
  unfold encB at 1. cbn [List.filter]. unfold escaped at 1. destruct (unescaped b) eqn:E; cbn [negb].
  - destruct (Hun b E) as [_ Hne]. cbn. by rewrite (proj2 (Z.eqb_neq b percent)).
  - destruct (nibbles b Hb) as (H1 & H2 & _). cbn -[unhex2 ishex].
    rewrite (proj1 (hexDigit_spec _ H1)), (proj1 (hexDigit_spec _ H2)). cbn -[unhex2]. rewrite IH, unhex2_digits by done. cbn.
    destruct (reservedSet b) eqn:Er; [apply Hres in Er; congruence|]. cbn. do 2 f_equal. lia.
Qed.

Lemma replaceHex_encode bs : Forall isByte bs → replaceHex reservedSet (bs ≫= encB) = (bs, existsb (λ b, RuneSelf <=? b) bs).
Proof.
  induction 1 as [|b bs Hb _ IH]; [done|]. change (replaceHex reservedSet (encB b ++ bs ≫= encB) = (b :: bs, existsb (λ b, RuneSelf <=? b) (b :: bs))).
  unfold encB at 1. destruct (unescaped b) eqn:E.
  - destruct (Hun b E) as [_ Hne]. cbn. by rewrite (proj2 (Z.eqb_neq b percent)), IH by done.
  - cbn -[unhex2]. rewrite IH, unhex2_digits by done. destruct (reservedSet b) eqn:Er; [apply Hres in Er; congruence|]. done.
Qed.

Lemma length_encB bs : Z.of_nat (length (bs ≫= encB)) = Z.of_nat (length bs) + Z.of_nat (length (List.filter escaped bs)) * 2.
Proof.
  induction bs as [|b bs IH]; [done|]. change ((b :: bs) ≫= encB) with (encB b ++ bs ≫= encB). rewrite length_app, Nat2Z.inj_add, IH.
  cbn [List.filter]. unfold encB. unfold escaped at 2. destruct (unescaped b); cbn [negb length escapeByte]; lia.
Qed.

Lemma decodeRunes_encode rs fuel : Forall isScalar rs → (length (utf8Encode rs) ≤ fuel)%nat →
  decodeRunesFuel fuel (utf8Encode rs) = Some rs.
Proof.
  intros Hrs. revert fuel. induction Hrs as [|r rs Hr _ IH]; intros fuel Hf; [by destruct fuel|].
  change (utf8Encode (r :: rs)) with (utf8EncodeScalar r ++ utf8Encode rs) in *. rewrite length_app in Hf.
  pose proof (utf8EncodeScalar_pos r) as Hpos. destruct fuel as [|fuel]; [lia|].
  pose proof (utf8_decode_encode r (utf8Encode rs) Hr) as Hd.
  assert ((r =? RuneError) && negb (bool_decide (length (utf8EncodeScalar r) = 3%nat ∧ take 3 (utf8EncodeScalar r ++ utf8Encode rs) = [0xEF; 0xBF; 0xBD])) = false) as Herr.
  { destruct (Z.eqb_spec r RuneError) as [->|]; [|done]. cbn. by rewrite bool_decide_true. }
  destruct (utf8EncodeScalar r ++ utf8Encode rs) as [|b t] eqn:E.
  { apply (f_equal length) in E. rewrite length_app in E. cbn in E. lia. }
  cbn [decodeRunesFuel]. rewrite Hd, Herr, <- E, drop_app_length, IH by lia. done.
Qed.

Lemma existsb_high bs : existsb (λ b, RuneSelf <=? b) bs = negb (allAscii bs).
Proof. unfold allAscii. induction bs as [|b bs IH]; [done|]. cbn. rewrite IH, negb_andb. f_equal. apply Z.leb_antisym. Qed.

(** Decoding what was escaped. *)
Lemma decode_escaped rs : Forall isScalar rs → existsb escaped rs = true →
  ∃ d, _decode reservedSet (SAscii (utf8Encode rs ≫= encB)) = Some (Ok d) ∧ wfStr d ∧ units d = runesUnits rs.
Proof.
  intros Hrs Hex. pose proof (utf8Encode_bytes rs Hrs) as Hb. unfold _decode. cbn [toGoString flatten leafString].
  rewrite countHex_encode, replaceHex_encode by done. set (c := length (List.filter escaped (utf8Encode rs))).
  assert (c ≠ 0%nat) as Hc.
  { unfold c. intros Hc%length_zero_iff_nil. apply existsb_exists in Hex as (r & Hr & He).
    assert (∃ b, b ∈ utf8Encode rs ∧ escaped b = true) as (b & Hbin & Hbe).
    { apply list_elem_of_In in Hr. destruct (Z.lt_ge_cases r RuneSelf) as [Hlt|Hge].
      - exists r. split; [|done]. apply list_elem_of_bind. exists r. split; [|done]. unfold utf8EncodeScalar, RuneSelf in *.
        rewrite (proj2 (Z.ltb_lt _ _)) by done. by apply list_elem_of_singleton.
      - assert (isScalar r) as Hsr by (by apply (proj1 (Forall_forall _ _) Hrs)). destruct (scalar_bytes r Hsr) as [_ Hh]. specialize (Hh Hge).
        pose proof (utf8EncodeScalar_pos r) as Hp. destruct (utf8EncodeScalar r) as [|b bs] eqn:Eb; [cbn in Hp; lia|].
        exists b. inversion Hh; subst. split; [|unfold escaped; by rewrite unescaped_high].
        apply list_elem_of_bind. exists r. rewrite Eb. split; [apply elem_of_cons; by left|done]. }
    assert (List.In b (List.filter escaped (utf8Encode rs))) as Hf by (apply filter_In; split; [by apply list_elem_of_In|done]). by rewrite Hc in Hf. }
  rewrite (proj2 (Z.eqb_neq _ 0)) by lia. rewrite length_encB. fold c.
  replace (Z.of_nat (length (utf8Encode rs)) + Z.of_nat c * 2 - Z.of_nat c * 2) with (Z.of_nat (length (utf8Encode rs))) by lia.
  rewrite Z.ltb_irrefl, Z.sub_diag. cbn [Z.to_nat replicate]. rewrite app_nil_r.
  rewrite existsb_high.
  destruct (allAscii (utf8Encode rs)) eqn:Ea; cbn [negb].
  - apply allAscii_encode in Ea; [|done]. destruct (ascii_encode rs Ea) as [E1 E2]. eexists. split; [done|]. by rewrite E1, E2.
  - rewrite decodeRunes_encode by done. eexists. split; [done|]. unfold unicodeStringFromRunes. rewrite NewFromRunes_eq.
    assert (¬ Forall isAsciiByte rs) as Hna by (intros Ha; by rewrite (proj2 (allAscii_encode rs Hrs) Ha) in Ea).
    destruct (forallb _ rs) eqn:Ef.
    { destruct Hna. rewrite forallb_forall in Ef. apply Forall_forall. intros r Hr. pose proof (proj1 (Forall_forall _ _) Hrs r Hr) as [? _].
      apply list_elem_of_In in Hr. specialize (Ef r Hr). apply Z.ltb_lt in Ef. unfold isAsciiByte, RuneSelf in *. lia. }
    split; [|done]. exists (runesUnits rs). split; [done|]. split; [by apply runesUnits_unit|]. by rewrite runesUnits_ascii.
Qed.

(** Text without escapes decodes to itself. *)
Lemma countHex_plain rs : existsb escaped rs = false → countHex reservedSet rs = Some 0.
Proof.
  induction rs as [|r rs IH]; [done|]. cbn [existsb]. intros [Hr Hrs]%orb_false_iff. unfold escaped in Hr. apply negb_false_iff in Hr.
  cbn. rewrite (proj2 (Z.eqb_neq r percent)); [by apply IH|]. by apply Hun.
Qed.

Lemma unescaped_ascii rs : existsb escaped rs = false → Forall isAsciiByte rs.
Proof.
  induction rs as [|r rs IH]; [constructor|]. cbn [existsb]. intros [Hr Hrs]%orb_false_iff. constructor; [|by apply IH].
  unfold escaped in Hr. apply negb_false_iff, Hun in Hr. unfold isAsciiByte, RuneSelf in *. lia.
Qed.

Lemma unescaped_encB bs : existsb escaped bs = false → bs ≫= encB = bs.
Proof.
  induction bs as [|b bs IH]; [done|]. cbn [existsb]. intros [Hb Hbs]%orb_false_iff. change (encB b ++ bs ≫= encB = b :: bs).
  rewrite IH by done. unfold encB. unfold escaped in Hb. apply negb_false_iff in Hb. by rewrite Hb.
Qed.

Lemma encB_ascii bs : Forall isByte bs → Forall isAsciiByte (bs ≫= encB).
Proof.
  induction 1 as [|b bs Hb _ IH]; [constructor|]. change ((b :: bs) ≫= encB) with (encB b ++ bs ≫= encB). apply Forall_app. split; [|done].
  unfold encB, isAsciiByte. destruct (unescaped b) eqn:E.
  - apply Hun in E. unfold RuneSelf in E. rewrite Forall_singleton. lia.
  - destruct (nibbles b Hb) as (H1 & H2 & _). destruct (hexDigit_spec _ H1) as (_ & _ & ?), (hexDigit_spec _ H2) as (_ & _ & ?).
    unfold escapeByte, percent. rewrite !Forall_cons, Forall_nil. lia.
Qed.

Lemma uri_coding s : wfStr s →
  let rs := decodeUnits (units s) in
  if noSurrogate rs then
    ∃ e d, _encode unescaped s = Some (Ok e) ∧ wfStr e ∧ units e = utf8Encode rs ≫= encB ∧
           _decode reservedSet e = Some (Ok d) ∧ wfStr d ∧ units d = units s
  else _encode unescaped s = Some (Throw malformed).
Proof.
  intros Hw rs. pose proof (units_isUnit s Hw) as Hu. unfold _encode. rewrite readerRunes_spec by done. fold rs.
  destruct (noSurrogate rs) eqn:Hn; [|done]. pose proof (scalars_of _ Hu Hn) as Hs. fold rs in Hs. rewrite encodeScan_spec.
  pose proof (decodeUnits_lossless _ Hu) as Hll. fold rs in Hll. destruct (existsb escaped rs) eqn:Hex; cbn [negb].
  - rewrite Z.ltb_irrefl, Z.sub_diag. cbn [Z.to_nat replicate]. rewrite app_nil_r, encode_bytes by done.
    destruct (decode_escaped rs Hs Hex) as (d & Hd & Hwd & Hud). exists (SAscii (utf8Encode rs ≫= encB)), d. split_and!; try done.
    + apply encB_ascii. by apply utf8Encode_bytes.
    + by rewrite Hud.
  - pose proof (unescaped_ascii rs Hex) as Ha. destruct (ascii_encode rs Ha) as [E1 E2]. exists s, s. split_and!; try done.
    + rewrite E1, unescaped_encB by done. by rewrite <- Hll, E2.
    + unfold _decode. rewrite toGoString_spec by done. fold rs. rewrite E1, countHex_plain by done. done.
Qed.
End roundtrip.

Lemma unescaped_table b : uriUnescaped b = true → 0 ≤ b < RuneSelf ∧ b ≠ percent.
Proof.
  unfold uriUnescaped, byteIn, RuneSelf, percent. rewrite bool_decide_eq_true, !elem_of_app, !elem_of_seqZ.
  intros [?|[?|[?|Hb]]]; [lia..|]. apply list_elem_of_In in Hb. cbn in Hb. lia.
Qed.
Lemma reserved_table b : uriReserved b = true → 0 ≤ b < RuneSelf ∧ b ≠ percent.
Proof.
  unfold uriReserved, byteIn, RuneSelf, percent. rewrite bool_decide_eq_true. intros Hb. apply list_elem_of_In in Hb. cbn in Hb. lia.
Qed.
Lemma reservedUnescaped_table b : uriReservedUnescapedHash b = true → 0 ≤ b < RuneSelf ∧ b ≠ percent.
Proof.
  unfold uriReservedUnescapedHash. rewrite !orb_true_iff, Z.eqb_eq. intros [[Hb|Hb]| ->];
    [by apply unescaped_table|by apply reserved_table|unfold RuneSelf, percent; lia].
Qed.

(** Every byte of the text in UTF-8 that is not in the set, as %XX. *)
Definition percentEncode (unescaped : Z → bool) (bs : list Z) : list Z := bs ≫= encB unescaped.

(** C27: encodeURIComponent and encodeURI of any string, in every representation: if it
    contains an unpaired surrogate they throw a URIError; otherwise the result is
    the UTF-8 form of the text with every byte outside of the respective set
    escaped as %XX, written exactly into the buffer whose length the first loop
    computes, and decodeURIComponent or decodeURI gives the text back. *)
Theorem uri_roundtrip (s : Str) : wfStr s →
  let rs := decodeUnits (units s) in
  if noSurrogate rs then
    (∃ e d, builtin_encodeURIComponent s = Some (Ok e) ∧ wfStr e ∧ units e = percentEncode uriUnescaped (utf8Encode rs) ∧
            builtin_decodeURIComponent e = Some (Ok d) ∧ wfStr d ∧ units d = units s) ∧
    (∃ e d, builtin_encodeURI s = Some (Ok e) ∧ wfStr e ∧ units e = percentEncode uriReservedUnescapedHash (utf8Encode rs) ∧
            builtin_decodeURI e = Some (Ok d) ∧ wfStr d ∧ units d = units s)
  else builtin_encodeURIComponent s = Some (Throw malformed) ∧ builtin_encodeURI s = Some (Throw malformed).
Proof.
  intros Hw rs. pose proof (uri_coding uriUnescaped emptyEscapeSet unescaped_table ltac:(done) s Hw) as H1.
  pose proof (uri_coding uriReservedUnescapedHash uriReservedHash reservedUnescaped_table) as H2.
  specialize (H2 ltac:(intros b; unfold uriReservedHash, uriReservedUnescapedHash; by destruct (uriUnescaped b)) s Hw).
  cbv zeta in *. fold rs in H1, H2. by destruct (noSurrogate rs).
Qed.

(** ** escape and unescape *)

Lemma omap_lookup {A} (l : list A) : omap (λ i, l !! i) (seq 0 (length l)) = l.
Proof.
  assert (∀ pre, omap (λ i, (pre ++ l) !! i) (seq (length pre) (length l)) = l) as H; [|by apply (H [])].
  induction l as [|x l IH]; intros pre; [done|]. cbn [length seq]. cbn [omap list_omap].
  rewrite list_lookup_middle by done. f_equal. specialize (IH (pre ++ [x])). rewrite length_app, Nat.add_1_r in IH. by rewrite <- app_assoc in IH.
Qed.

Lemma chars_spec s : wfStr s → chars s = units s.
Proof.
  intros Hw. unfold chars. rewrite Length_spec by done. unfold len. rewrite Nat2Z.id. rewrite <- (omap_lookup (units s)) at 2.
  apply list_omap_ext, Forall2_same_length_lookup_2; [done|]. intros i x y Hx Hy. rewrite Hx in Hy. injection Hy as <-. by apply CharAt_spec.
Qed.

Lemma nibble r k : 0 ≤ Z.land (Z.shiftr r k) 0xf < 16.
Proof. change 0xf with (Z.ones 4). rewrite Z.land_ones by lia. apply Z.mod_pos_bound. lia. Qed.

Lemma join_nibbles r : 0 ≤ r →
  Z.lor (Z.lor (Z.lor (Z.shiftl (Z.shiftr r 12) 12) (Z.shiftl (Z.land (Z.shiftr r 8) 0xf) 8)) (Z.shiftl (Z.land (Z.shiftr r 4) 0xf) 4)) (Z.land r 0xf) = r.
Proof.
  intros Hr. change 0xf with (Z.ones 4). apply Z.bits_inj'. intros n Hn. rewrite !Z.lor_spec, Z.land_spec.
  assert (∀ k, 0 ≤ k → Z.testbit (Z.shiftl (Z.land (Z.shiftr r k) (Z.ones 4)) k) n = Z.testbit r n && ((k <=? n) && (n <? k + 4))) as Hmid.
  { intros k Hk. destruct (Z.leb_spec k n); [|rewrite Z.shiftl_spec_low by lia; by rewrite andb_false_r].
    rewrite Z.shiftl_spec, Z.land_spec, Z.shiftr_spec, Z.testbit_ones_nonneg by lia. replace (n - k + k) with n by lia. cbn [andb].
    f_equal. destruct (Z.ltb_spec (n - k) 4), (Z.ltb_spec n (k + 4)); done || lia. }
  rewrite !Hmid, Z.testbit_ones_nonneg by lia.
  assert (Z.testbit (Z.shiftl (Z.shiftr r 12) 12) n = Z.testbit r n && (12 <=? n)) as ->.
  { destruct (Z.leb_spec 12 n); [|rewrite Z.shiftl_spec_low by lia; by rewrite andb_false_r].
    rewrite Z.shiftl_spec, Z.shiftr_spec, andb_true_r by lia. f_equal. lia. }
  destruct (Z.testbit r n); cbn [andb]; [|done].
  destruct (Z.leb_spec 12 n), (Z.leb_spec 8 n), (Z.leb_spec 4 n), (Z.ltb_spec n 12), (Z.ltb_spec n 8), (Z.ltb_spec n 4); done || lia.
Qed.

Lemma hexUnit_digit x : 0 ≤ x < 16 → hexUnit (hexDigit x) = true ∧ unhex (hexDigit x) = x ∧ hexDigit x ≠ 117.
Proof.
  intros Hx. destruct (hexDigit_spec x Hx) as (H1 & H2 & H3). unfold hexUnit. rewrite H1, H2, (proj2 (Z.leb_le _ _)) by lia.
  split; [done|]. split; [done|lia].
Qed.

(** One round undoes the escape of one unit. *)
Lemma unescapeStep_escape r rest : isUnit r → ∃ c esc, escapeUnit r = c :: esc ∧ unescapeStep c (esc ++ rest) = (r, rest).
Proof.
  intros Hr. unfold isUnit in Hr. unfold escapeUnit. destruct (_ || _) eqn:E.
  - exists r, []. split; [done|]. unfold unescapeStep. rewrite (proj2 (Z.eqb_neq r percent)); [done|]. intros ->. done.
  - destruct (Z.leb_spec r 0xff) as [Hs|Hs].
    + eexists _, _. split; [done|]. destruct (nibbles r ltac:(lia)) as (H1 & H2 & _).
      destruct (hexUnit_digit _ H1) as (A1 & _ & A3), (hexUnit_digit _ H2) as (B1 & _ & _). unfold unescapeStep. rewrite Z.eqb_refl. cbn [app].
      change 0xf with 15. rewrite A1, B1, unhex2_digits by lia. cbn [andb].
      destruct rest as [|x1 [|x2 [|x3 rest]]]; [done..|]. by rewrite (proj2 (Z.eqb_neq _ 117)).
    + eexists _, _. split; [done|]. assert (0 ≤ Z.shiftr r 12 < 16) as H1 by (rewrite Z.shiftr_div_pow2 by lia; divlia).
      assert (0 ≤ Z.land r 0xf < 16) as H4 by (pose proof (nibble r 0) as Hn; by rewrite Z.shiftr_0_r in Hn).
      unfold unescapeStep. rewrite Z.eqb_refl. cbn [app]. destruct (hexUnit_digit _ H1) as (-> & -> & _), (hexUnit_digit _ (nibble r 8)) as (-> & -> & _), (hexUnit_digit _ (nibble r 4)) as (-> & -> & _),
        (hexUnit_digit _ H4) as (-> & -> & _). rewrite join_nibbles by lia. done.
Qed.

Lemma unescapeLoop_escape us fuel unicode buf : Forall isUnit us → (length us ≤ fuel)%nat →
  unescapeLoop fuel (us ≫= escapeUnit) unicode buf = (unicode || existsb (λ b, RuneSelf <=? b) us, buf ++ us).
Proof.
  intros Hus. revert fuel unicode buf. induction Hus as [|r us Hr _ IH]; intros fuel unicode buf Hf; [destruct fuel; cbn; by rewrite orb_false_r, app_nil_r|].
  change ((r :: us) ≫= escapeUnit) with (escapeUnit r ++ us ≫= escapeUnit). destruct fuel as [|fuel]; [cbn in Hf; lia|].
  destruct (unescapeStep_escape r (us ≫= escapeUnit) Hr) as (c & esc & -> & Hstep). cbn [app unescapeLoop]. rewrite Hstep, IH by (cbn in Hf; lia).
  cbn. by rewrite orb_assoc, <- app_assoc.
Qed.

Lemma escapeUnit_ascii r : isUnit r → Forall isAsciiByte (escapeUnit r) ∧ (0 < length (escapeUnit r))%nat.
Proof.
  intros Hr. unfold escapeUnit, isAsciiByte, isUnit in *. destruct (_ || _) eqn:E; [split; [|cbn; lia]; apply Forall_singleton|].
  - rewrite !orb_true_iff, !andb_true_iff, !Z.leb_le, !Z.eqb_eq in E. lia.
  - assert (∀ x, 0 ≤ x < 16 → 0 ≤ hexDigit x < 128) as Hh by (intros x Hx; destruct (hexDigit_spec x Hx) as (_ & _ & ?); lia).
    destruct (Z.leb_spec r 0xff); (split; [|cbn; lia]); unfold percent; rewrite !Forall_cons, Forall_nil.
    + destruct (nibbles r ltac:(lia)) as (H1 & H2 & _). pose proof (Hh _ H1). pose proof (Hh _ H2). change 0xf with 15. lia.
    + assert (0 ≤ Z.shiftr r 12 < 16) as H1 by (rewrite Z.shiftr_div_pow2 by lia; divlia).
      pose proof (nibble r 0) as H4. rewrite Z.shiftr_0_r in H4. pose proof (Hh _ H1). pose proof (Hh _ H4). pose proof (Hh _ (nibble r 8)). pose proof (Hh _ (nibble r 4)). lia.
Qed.

(** Escape of any string, lone surrogates included, is an ASCII string, and unescape
    gives the string back. *)
Theorem escape_roundtrip (s : Str) : wfStr s →
  wfStr (builtin_escape s) ∧ wfStr (builtin_unescape (builtin_escape s)) ∧ units (builtin_unescape (builtin_escape s)) = units s.
Proof.
  intros Hw. pose proof (units_isUnit s Hw) as Hu. assert (wfStr (builtin_escape s)) as He.
  { cbn. rewrite chars_spec by done. clear Hw. induction Hu as [|r us Hr _ IH]; [constructor|].
    change ((r :: us) ≫= escapeUnit) with (escapeUnit r ++ us ≫= escapeUnit). apply Forall_app. split; [by apply escapeUnit_ascii|done]. }
  split; [done|]. unfold builtin_unescape. rewrite chars_spec by done. cbn [units builtin_escape devirtualizeString flatten devirtLeaf default from_option].
  rewrite chars_spec by done. rewrite unescapeLoop_escape; [|done|].
  2: { clear He Hw. induction Hu as [|r us Hr _ IH]; [done|]. change ((r :: us) ≫= escapeUnit) with (escapeUnit r ++ us ≫= escapeUnit).
       rewrite length_app. destruct (escapeUnit_ascii r Hr) as [_ ?]. cbn [length]. lia. }
  cbn [orb app]. rewrite existsb_high. destruct (allAscii (units s)) eqn:Ea; cbn [negb units wfStr tail].
  - split; [|done]. rewrite allAscii_spec in Ea by done. by apply bool_decide_eq_true in Ea.
  - split; [|done]. by apply wf_canon.
Qed.

(** ** parseInt *)

Fixpoint leadingDigits (R : Z) (s : list Z) : list Z :=
  match s with [] => [] | d :: s => if digitVal d <? R then d :: leadingDigits R s else [] end.
Definition digitsFrom (R n : Z) (ds : list Z) : Z := foldl (λ n d, n * R + digitVal d) n ds.

(** parseInt of ECMAScript, up to the conversion of the integer to a number: the
    sign and the integer, or [None] for NaN. *)
Definition parseIntSpec (s : list Z) (radix : Z) : option (bool * Z) :=
  let '(neg, s) := match s with c :: s' => if c =? 45 then (true, s') else if c =? 43 then (false, s') else (false, s) | [] => (false, s) end in
  if negb (radix =? 0) && negb ((2 <=? radix) && (radix <=? 36)) then None
  else
    let stripPrefix := (radix =? 0) || (radix =? 16) in
    let R := if radix =? 0 then 10 else radix in
    let hex := match s with a :: b :: _ => (a =? 48) && isX b | _ => false end in
    let '(R, s) := if stripPrefix && hex then (16, drop 2 s) else (R, s) in
    match leadingDigits R s with [] => None | ds => Some (neg, digitsFrom R 0 ds) end.

Lemma digitVal_nonneg d : 0 ≤ digitVal d.
Proof. unfold digitVal. repeat case_match; zbool; lia. Qed.

Lemma digitsFrom_le R n ds : 0 < R → 0 ≤ n → n ≤ digitsFrom R n ds.
Proof.
  intros HR. revert n. induction ds as [|d ds IH]; intros n Hn; [done|]. cbn. pose proof (digitVal_nonneg d).
  specialize (IH (n * R + digitVal d) ltac:(nia)). unfold digitsFrom in IH. nia.
Qed.

(** What the loop leaves: the value while it fits, possibly already as a float
    when it is next to the limit; otherwise some float. *)
Lemma parseLoop_spec R sign s : 2 ≤ R ≤ 36 → ∀ n i, 0 ≤ n ≤ MaxInt64 →
  let cutoff := MaxInt64 / R + 1 in
  let ds := leadingDigits R s in
  let v := digitsFrom R n ds in
  let r := parseLoop n cutoff R sign i s in
  if v <=? MaxInt64 then
    r = inl (v, i + Z.of_nat (length ds)) ∨
    maxInt < v ∧ r = inr (valueFloat (if sign then fneg (ofZ v) else ofZ v)) ∧ (ds = [] → 0 < n)
  else ∃ f, r = inr (valueFloat f).
Proof.
  intros HR. induction s as [|d rest IH]; intros n i Hn; cbn zeta.
  { cbn. rewrite (proj2 (Z.leb_le _ _)) by lia. left. do 2 f_equal. lia. }
  cbn [parseLoop leadingDigits]. pose proof (digitVal_nonneg d) as Hd. rewrite Z.ltb_antisym.
  assert (maxInt < MaxInt64 / R + 1) as Hmax.
  { assert (MaxInt64 / 36 ≤ MaxInt64 / R) by (apply Z.div_le_compat_l; unfold MaxInt64; lia).
    assert (maxInt < MaxInt64 / 36 + 1) by done. lia. }
  pose proof (Z.mul_succ_div_gt MaxInt64 R ltac:(lia)) as Hdiv. pose proof (Z.mul_div_le MaxInt64 R ltac:(lia)) as Hdiv'.
  destruct (Z.leb_spec (MaxInt64 / R + 1) n) as [Hcut|Hcut].
  - destruct (Z.leb_spec R (digitVal d)) as [Hnd|Hnd]; cbn [negb].
    + cbn [digitsFrom foldl]. rewrite (proj2 (Z.leb_le _ _)) by lia. right. assert (0 < maxInt) by done. split; [lia|]. split; [|intros _; lia].
      unfold parseLargeInt. cbn [parseLargeLoop]. by rewrite (proj2 (Z.leb_le R _)) by lia.
    + cbn [digitsFrom foldl]. pose proof (digitsFrom_le R (n * R + digitVal d) (leadingDigits R rest) ltac:(lia) ltac:(nia)) as Hle. unfold digitsFrom in Hle.
      rewrite (proj2 (Z.leb_gt _ _)) by nia. eexists. done.
  - destruct (Z.leb_spec R (digitVal d)) as [Hnd|Hnd]; cbn [negb].
    + cbn [digitsFrom foldl length]. rewrite (proj2 (Z.leb_le _ _)) by lia. left. do 2 f_equal. cbn. lia.
    + assert (n * R ≤ MaxInt64) as Hm by nia.
      assert (swrap 64 (n * R) = n * R) as Hw by (apply swrap_id; [lia|]; unfold MaxInt64 in *; change (2 ^ (64 - 1)) with (2 ^ 63); nia). rewrite Hw.
      cbn [digitsFrom foldl length]. fold (digitsFrom R (n * R + digitVal d) (leadingDigits R rest)).
      destruct (Z.le_gt_cases (n * R + digitVal d) MaxInt64) as [Hfit|Hover].
      * assert (swrap 64 (n * R + digitVal d) = n * R + digitVal d) as -> by (apply swrap_id; [lia|]; unfold MaxInt64 in *; change (2 ^ (64 - 1)) with (2 ^ 63); nia).
        rewrite (proj2 (Z.ltb_ge _ (n * R))), (proj2 (Z.ltb_ge MaxInt64 _)) by lia. cbn [orb].
        specialize (IH (n * R + digitVal d) (i + 1) ltac:(nia)). cbn zeta in IH.
        destruct (_ <=? MaxInt64); [|done]. destruct IH as [->|(Hv & -> & _)]; [left; do 2 f_equal; lia|right]. done.
      * assert (swrap 64 (n * R + digitVal d) = n * R + digitVal d - 2 ^ 64) as ->.
        { unfold swrap. unfold MaxInt64 in *. replace (n * R + digitVal d + 2 ^ (64 - 1)) with ((n * R + digitVal d - 2 ^ 63) + 1 * 2 ^ 64) by lia.
          rewrite Z.mod_add, Z.mod_small by lia. lia. }
        rewrite (proj2 (Z.ltb_lt _ (n * R))) by lia. cbn [orb].
        pose proof (digitsFrom_le R (n * R + digitVal d) (leadingDigits R rest) ltac:(lia) ltac:(nia)).
        rewrite (proj2 (Z.leb_gt _ _)) by lia. by eexists.
Qed.

(** The number of an integer with a sign. *)
Definition signedNumber (neg : bool) (v : Z) : number :=
  if neg then if v =? 0 then valueFloat negativeZero else intToValue (- v) else intToValue v.

Lemma signedNumber_large neg v : maxInt < v → signedNumber neg v = valueFloat (if neg then fneg (ofZ v) else ofZ v).
Proof.
  intros Hv. assert (0 < maxInt) by done. unfold signedNumber. rewrite (proj2 (Z.eqb_neq v 0)) by lia.
  rewrite !intToValue_eq, Z.abs_opp, (proj2 (Z.leb_gt (Z.abs v) _)) by lia. destruct neg; [|done]. by rewrite fneg_ofZ by lia.
Qed.

(** C29: parseInt on the bytes of any trimmed text and any radix: NaN exactly where
    ECMAScript returns NaN (no digits, an invalid radix), and otherwise the signed
    integer of the longest prefix of digits, with -0 for a negative zero, whenever
    the integer is below 2^63; the 64-bit products and sums never wrap around
    unnoticed, and larger integers are returned as floats. *)
Theorem parseInt_value (s : list Z) (radix : Z) :
  match parseIntSpec s radix with
  | None => parseInt s radix = _NaN
  | Some (neg, v) =>
      if v <=? MaxInt64 then parseInt s radix = signedNumber neg v else ∃ f, parseInt s radix = valueFloat f
  end.
Proof.
  unfold parseInt, parseIntSpec. destruct s as [|c s0]; [by destruct (_ && _), ((radix =? 0) || (radix =? 16)), (radix =? 0)|].
  destruct (if c =? 45 then (true, s0) else if c =? 43 then (false, s0) else (false, c :: s0)) as [neg s].
  set (hex := match s with a :: b :: _ => (a =? 48) && isX b | _ => false end). rewrite (andb_comm hex).
  destruct s as [|a s']; [by destruct (_ && _), ((radix =? 0) || (radix =? 16)), (radix =? 0)|].
  set (p := if ((radix =? 0) || (radix =? 16)) && hex then (16, drop 2 (a :: s')) else (radix, a :: s')).
  assert (∃ base t, p = (base, t) ∧
    (if ((radix =? 0) || (radix =? 16)) && hex then (16, drop 2 (a :: s')) else (if radix =? 0 then 10 else radix, a :: s')) =
    (if base =? 0 then 10 else base, t) ∧
    (2 <=? (if base =? 0 then 10 else base)) && ((if base =? 0 then 10 else base) <=? 36) = (radix =? 0) || (2 <=? radix) && (radix <=? 36))
    as (base & t & -> & -> & Hb).
  { unfold p. destruct (Z.eqb_spec radix 0) as [->|]; [|destruct (Z.eqb_spec radix 16) as [->|]]; cbn [orb andb].
    - destruct hex; by eexists _, _.
    - destruct hex; by eexists _, _.
    - eexists _, _. split; [done|]. by rewrite (proj2 (Z.eqb_neq radix 0)). }
  set (R := if base =? 0 then 10 else base) in *. rewrite Hb, <- negb_orb. destruct (_ || _) eqn:Hok; cbn [negb]; [|by destruct t].
  destruct t as [|d t]; [done|]. apply andb_true_iff in Hb as [H1%Z.leb_le H2%Z.leb_le].
  pose proof (parseLoop_spec R neg (d :: t) ltac:(lia) 0 0 ltac:(unfold MaxInt64; lia)) as Hl. cbv zeta in Hl.
  destruct (leadingDigits R (d :: t)) as [|d0 ds0] eqn:Eds.
  - cbn [digitsFrom foldl length] in Hl. change (0 <=? MaxInt64) with true in Hl. cbv iota in Hl. destruct Hl as [->|(_ & _ & Hn)]; [done|]. specialize (Hn eq_refl). lia.
  - destruct (_ <=? MaxInt64); [|by destruct Hl as [f ->]; exists f].
    destruct Hl as [->|(Hv & -> & _)]; [|by rewrite signedNumber_large]. rewrite (proj2 (Z.eqb_neq _ 0)) by (cbn; lia). done.
Qed.

(** ** Witnesses and deviations *)

Lemma uri_roundtrip_witness : ∃ e d, builtin_encodeURIComponent exImported = Some (Ok e) ∧ units e = [37; 68; 48; 37; 57; 54] ∧
  builtin_decodeURIComponent e = Some (Ok d) ∧ units d = [1046].
Proof.
  pose proof (uri_roundtrip exImported exImported_wf) as H. change (decodeUnits (units exImported)) with [1046] in H.
  change (noSurrogate [1046]) with true in H. cbv zeta iota in H. destruct H as [(e & d & He & _ & Hu & Hd & _ & Hud) _].
  exists e, d. split; [exact He|]. split; [rewrite Hu; reflexivity|]. split; [exact Hd|]. rewrite Hud. reflexivity.
Defined.

Lemma escape_roundtrip_witness : units (builtin_unescape (builtin_escape exRope)) = [97; 98; 1046; 0xD800].
Proof. rewrite (proj2 (proj2 (escape_roundtrip exRope exRope_wf))). reflexivity. Defined.

(** decodeURIComponent goes through the UTF-8 form of the text: if anything is
    decoded, an unpaired surrogate elsewhere becomes U+FFFD. *)
Theorem decode_replaces_surrogate :
  builtin_decodeURIComponent (SUnicode [BOM; 0xD800; 37; 52; 49]) = Some (Ok (SUnicode [BOM; 0xFFFD; 65])).
Proof. vm_compute. reflexivity. Qed.

(** From 2^63 on parseInt rounds after every digit: parseInt("8000000000000401", 16)
    is 2^63, although the integer is nearer to the next float. *)
Theorem parseInt_rounds_twice :
  parseInt ([56] ++ replicate 12 48 ++ [52; 48; 49]) 16 = valueFloat (ofZ (2 ^ 63)) ∧
  parseIntSpec ([56] ++ replicate 12 48 ++ [52; 48; 49]) 16 = Some (false, 2 ^ 63 + 2 ^ 10 + 1) ∧
  ofZ (2 ^ 63 + 2 ^ 10 + 1) = ofZ (2 ^ 63 + 2 ^ 11) ∧ ofZ (2 ^ 63 + 2 ^ 11) ≠ ofZ (2 ^ 63).
Proof. vm_compute. split_and!; done. Qed.
End Globals.
