(* ===== verification/ArrayProto.v ===== *)
(** * Array.prototype: objects and methods

    Model of builtin_array.go on the arrays of Arrays.v: the constructor, the
    methods of Array.prototype with their direct paths through the slice of a
    dense array and their generic paths through the methods of an object, and the
    iterator of array.go.

    The heap holds the objects whose [self] is an *arrayObject, a
    *sparseArrayObject or a *baseObject; a dense array is a pointer to its
    struct, which a method may still hold after the object has switched to the
    sparse form.  The field [values] of a struct is a Go slice: the address of a
    backing array and a length, so that two structs may share a backing array and a
    store through one slice is seen through the other.  All other objects (proxies, typed arrays, the templated
    Array.prototype, wrappers of Go values), functions and the conversion of other
    values than numbers are an environment of functions on the heap: they may run
    any JavaScript code.  An access outside of a slice is the outcome [Crash].

    Not modelled: sort and toSorted, join, toString and toLocaleString, Array.from. *)

From S2P Require Import Prelude ArrayIndex Float64 Numbers Values Property Objects Arrays.
Import ArrayIndex Float64 Numbers Values Property Objects.
Open Scope Z_scope.

Module ArrayProto.

(** ** Heap and outcomes *)

Inductive selfRef :=
  | SDense (p : positive)
  | SSparse (a : Arrays.sparseArrayObject)
  | SBase (b : baseObject).

Abbreviation cells := (list (option slot)).

(** A []Value that starts at the beginning of its backing array, as every slice
    that is stored in a struct does; its capacity is the size of that array. *)
Record slice := Slice { sptr : positive; slen : nat }.

(** The struct arrayObject of array.go. *)
Record arrayStruct := Struct {
  stBase : baseObject;
  stValues : slice;
  stLength : Z;
  stObjCount : Z;
  stPropValueCount : Z;
  stLengthWritable : bool;
}.

(** [arrays] are the backing arrays.  [next] is an address of objects and structs
    that is not in use, [nextArr] one of backing arrays. *)
Record heap := Heap {
  selfs : gmap positive selfRef;
  structs : gmap positive arrayStruct;
  arrays : gmap positive cells;
  next : positive;
  nextArr : positive;
}.

(** The array of a struct, with the contents of its backing array. *)
Definition loaded (s : arrayStruct) (back : cells) : Arrays.arrayObject :=
  Arrays.MkArray (stBase s) back (slen (stValues s)) (stLength s) (stObjCount s) (stPropValueCount s) (stLengthWritable s).
Definition structAt (h : heap) (p : positive) : option Arrays.arrayObject :=
  s ← structs h !! p; back ← arrays h !! sptr (stValues s); Some (loaded s back).

(** The struct whose backing array is at [q]. *)
Definition header (a : Arrays.arrayObject) (q : positive) : arrayStruct :=
  Struct (Arrays.base a) (Slice q (Arrays.vlen a)) (Arrays.alength a) (Arrays.objCount a) (Arrays.propValueCount a)
    (Arrays.lengthWritable a).

(** The struct [p], with its slice in the backing array [q], is [a]. *)
Definition storeAt (h : heap) (p q : positive) (a : Arrays.arrayObject) : heap :=
  Heap (selfs h) (<[p := header a q]> (structs h)) (<[q := Arrays.backing a]> (arrays h)) (next h)
    (Pos.max (nextArr h) (Pos.succ q)).

(** What a panic carries: an error of the runtime or a value JavaScript threw. *)
Inductive thrown := Native (e : exn) | User (v : Value).

Inductive outcome (A : Type) := Ret (a : A) | Raise (e : thrown) | Crash.
Arguments Ret {A} _.
Arguments Raise {A} _.
Arguments Crash {A}.

Definition M (A : Type) : Type := heap → outcome A * heap.
#[global] Instance M_ret : MRet M := λ A a h, (Ret a, h).
#[global] Instance M_bind : MBind M := λ A B k m h,
  match m h with
  | (Ret a, h') => k a h'
  | (Raise e, h') => (Raise e, h')
  | (Crash, h') => (Crash, h')
  end.

Definition raise {A} (e : exn) : M A := λ h, (Raise (Native e), h).
Definition crash {A} : M A := λ h, (Crash, h).
Definition liftResult {A} (r : result A) : M A := match r with Ok a => mret a | Throw e => raise e end.

(** A property key: an integer (valueInt, not negative) or "length". *)
Inductive pkey := KIdx (i : Z) | KLen.
Definition keyStr (k : pkey) : key := match k with KIdx i => FormatUint i | KLen => Arrays.lengthKey end.

(** The environment.  [other_setForeign] is [None] when the assignment was not
    handled, in which case no code has run.  [appendSlack n] is the capacity beyond
    the length of a slice built by n appends. *)
Class Env := {
  selfEqual : positive → positive → bool;
  callable : positive → bool;
  convInteger : Value → M Z;
  toBoolean : Value → bool;
  invoke : positive → Value → list Value → M Value;
  other_has : positive → pkey → M bool;
  other_get : positive → pkey → positive → M (option Value);
  other_setForeign : positive → pkey → Value → positive → M (option bool);
  other_set : positive → pkey → Value → M unit;
  other_delete : positive → pkey → M unit;
  other_define : positive → pkey → option Value → M unit;
  other_isArray : positive → M bool;
  getConstructor : positive → M (option Value);
  getSpecies : positive → M (option Value);
  getSpreadable : positive → M (option Value);
  isConstructor : positive → bool;
  construct : positive → list Value → M positive;
  appendSlack : nat → nat;
  arrayCtor : positive;
  arrayProto : positive;
}.

(** *** Objects in the heap *)

Inductive obj := OArr (x : Arrays.arrayImpl) | OBase (b : baseObject).

Definition implOf (h : heap) (o : positive) : option obj :=
  match selfs h !! o with
  | Some (SDense p) => (λ a, OArr (Arrays.Dense a)) <$> structAt h p
  | Some (SSparse a) => Some (OArr (Arrays.Sparse a))
  | Some (SBase b) => Some (OBase b)
  | None => None
  end.

(** Whether an operation of Arrays.v on [a] that left [a'] has made a new backing
    array: setLengthInt makes a smaller one, expand a larger one, or one of the same
    size when the slice grows to the capacity (it slices only below the capacity).
    All other stores go to the backing array in place. *)
Definition moved (a a' : Arrays.arrayObject) : bool :=
  negb (length (Arrays.backing a) =? length (Arrays.backing a'))%nat
  || (Arrays.vlen a <? Arrays.vlen a')%nat && (Arrays.vlen a' =? length (Arrays.backing a'))%nat.

(** Assigning the fields of an array; after a switch, [val.self] is a new struct. *)
Definition putImpl (o : positive) (x : Arrays.arrayImpl) : M unit := λ h,
  (Ret (),
   match x, selfs h !! o with
   | Arrays.Dense a, Some (SDense p) =>
       match structs h !! p, structAt h p with
       | Some s, Some a0 => storeAt h p (if moved a0 a then nextArr h else sptr (stValues s)) a
       | _, _ => h
       end
   | Arrays.Dense a, _ =>
       storeAt (Heap (<[o := SDense (next h)]> (selfs h)) (structs h) (arrays h) (Pos.succ (next h)) (nextArr h))
         (next h) (nextArr h) a
   | Arrays.Sparse a, _ => Heap (<[o := SSparse a]> (selfs h)) (structs h) (arrays h) (next h) (nextArr h)
   end).

Definition putBase (o : positive) (b : baseObject) : M unit := λ h,
  (Ret (), Heap (<[o := SBase b]> (selfs h)) (structs h) (arrays h) (next h) (nextArr h)).

Definition lookupObj (o : positive) : M (option obj) := λ h, (Ret (implOf h o), h).

(** The base object of an array, replaced. *)
Definition withBase (x : Arrays.arrayImpl) (b : baseObject) : Arrays.arrayImpl :=
  match x with
  | Arrays.Dense a =>
      Arrays.Dense (Arrays.MkArray b (Arrays.backing a) (Arrays.vlen a) (Arrays.alength a) (Arrays.objCount a)
                      (Arrays.propValueCount a) (Arrays.lengthWritable a))
  | Arrays.Sparse a =>
      Arrays.Sparse (Arrays.MkSparse b (Arrays.items a) (Arrays.slength a) (Arrays.spropValueCount a) (Arrays.slengthWritable a))
  end.

Definition baseOf (ob : obj) : baseObject := match ob with OArr x => Arrays.arrayBase x | OBase b => b end.

Definition setBase (o : positive) (ob : obj) (b : baseObject) : M unit :=
  match ob with OArr x => putImpl o (withBase x b) | OBase _ => putBase o b end.

(** getOwnPropIdx and getOwnPropStr("length"): what toIdx does not accept is a
    name of the base object; the length property of an array is recomputed. *)
Definition ownProp (ob : obj) (k : pkey) : option slot :=
  match ob, k with
  | OArr x, KIdx i => if (0 <=? i) && (i <? MaxUint32) then Arrays.arrayGet x i else values (Arrays.arrayBase x) !! FormatUint i
  | OArr x, KLen => Some (Prop_ (MkProp (Some (VNum (intToValue (Arrays.arrayLength x)))) (Arrays.arrayLengthWritable x)
                                   false false false None None))
  | OBase b, k => values b !! keyStr k
  end.

(** *** Reading *)

Section methods.
Context `{Env}.

(** The number of objects bounds the length of a chain of prototypes in the heap. *)
Definition chainFuel : M nat := λ h, (Ret (S (size (selfs h))), h).

Definition slotGet (s : slot) (receiver : positive) : M Value :=
  match propGet s with inl v => mret v | inr g => invoke g (VObject receiver) [] end.

Fixpoint getChain (fuel : nat) (o : positive) (k : pkey) (receiver : positive) : M (option Value) :=
  ob ← lookupObj o;
  match ob with
  | None => other_get o k receiver
  | Some ob =>
      match ownProp ob k with
      | Some s => v ← slotGet s receiver; mret (Some v)
      | None =>
          match prototype (baseOf ob), fuel with
          | Some p, S fuel => getChain fuel p k receiver
          | Some _, O => crash
          | None, _ => mret None
          end
      end
  end.

(** getIdx(idx, nil) and getStr("length", nil); [None] is nil. *)
Definition getKey (o : positive) (k : pkey) : M (option Value) := n ← chainFuel; getChain n o k o.
Definition getIdx (o : positive) (i : Z) : M (option Value) := getKey o (KIdx i).

Fixpoint hasChain (fuel : nat) (o : positive) (k : pkey) : M bool :=
  ob ← lookupObj o;
  match ob with
  | None => other_has o k
  | Some ob =>
      match ownProp ob k with
      | Some _ => mret true
      | None =>
          match prototype (baseOf ob), fuel with
          | Some p, S fuel => hasChain fuel p k
          | Some _, O => crash
          | None, _ => mret false
          end
      end
  end.

Definition hasPropertyIdx (o : positive) (i : Z) : M bool := n ← chainFuel; hasChain n o (KIdx i).

Definition nilSafe (v : option Value) : Value := default VUndefined v.

(** v.ToInteger() *)
Definition VToInteger (v : Value) : M Z :=
  match v with VNum n => mret (ToInteger n) | VUndefined | VNull => mret 0 | _ => convInteger v end.

(** toLength(o.self.getStr("length", nil)) *)
Definition toLengthV (v : option Value) : M Z :=
  match v with
  | None => mret 0
  | Some v => i ← VToInteger v; mret (if i <? 0 then 0 else if maxInt <=? i then maxInt - 1 else i)
  end.
Definition getLength (o : positive) : M Z := v ← getKey o KLen; toLengthV v.

(** *** Assignment, with throw = true *)

(** setForeignIdx and setForeignStr of the prototype [p], and of its prototypes
    while they do not have the property.  [byStr]: the chain is followed with
    setForeignStr from an ordinary object with index properties on. *)
Fixpoint setForeign (fuel : nat) (p : option positive) (k : pkey) (v : Value) (receiver : positive) (byStr : bool)
    : M (option bool) :=
  match p with
  | None => mret None
  | Some q =>
      if Pos.eqb q receiver then crash  (* the chain would be cyclic *)
      else
        ob ← lookupObj q;
        match ob with
        | None => other_setForeign q k v receiver
        | Some ob =>
            r ← match ob, k with
                | OBase b, KIdx i =>
                    if negb byStr && (i <? MaxUint32) then
                      let b := ensurePropOrder b in
                      putBase q b ;;
                      mret (if Nat.eqb (idxPropCount b) 0 then (None, false) else (values b !! keyStr k, true))
                    else mret (values b !! keyStr k, true)
                | _, _ => mret (ownProp ob k, byStr)
                end;
            match r.1 with
            | Some (Prop_ pr) =>
                if negb (isWritable pr) then raise (TypeError "Cannot assign to read only property")
                else match setterFunc pr with
                     | Some g => invoke g (VObject receiver) [v] ;; mret (Some true)
                     | None => mret None
                     end
            | Some (Raw _) => mret None
            | None =>
                match fuel with
                | S fuel => setForeign fuel (prototype (baseOf ob)) k v receiver r.2
                | O => match prototype (baseOf ob) with Some _ => crash | None => mret None end
                end
            end
        end
  end.

(** baseObject.setOwnStr *)
Definition base_setOwnStr (o : positive) (ob : obj) (k : pkey) (v : Value) : M unit :=
  let b := baseOf ob in
  match values b !! keyStr k with
  | None =>
      n ← chainFuel;
      r ← setForeign n (prototype b) k v o true;
      match r with
      | Some _ => mret ()
      | None =>
          if negb (extensible b) then raise (TypeError "Cannot add property, object is not extensible")
          else setBase o ob (appendName b (keyStr k) (<[keyStr k := Raw v]> (values b)))
      end
  | Some (Prop_ pr) =>
      match propSet (Prop_ pr) v with
      | None => raise (TypeError "Cannot assign to read only property")
      | Some (inr g) => invoke g (VObject o) [v] ;; mret ()
      | Some (inl s) => setBase o ob (withValues b (<[keyStr k := s]> (values b)))
      end
  | Some (Raw _) => setBase o ob (withValues b (<[keyStr k := Raw v]> (values b)))
  end.

(** What an operation of Arrays.v did to the array of object [o]. *)
Definition applyArr (o : positive) (v : Value) (r : Arrays.arrayImpl * Arrays.outcome) : M unit :=
  putImpl o r.1 ;;
  match r.2 with
  | Arrays.Done _ => mret ()
  | Arrays.Raise e => raise e
  | Arrays.CallSetter g => invoke g (VObject o) [v] ;; mret ()
  end.

Definition arr_setOwnIdx (x : Arrays.arrayImpl) (i : Z) (v : Value) : Arrays.arrayImpl * Arrays.outcome :=
  match x with
  | Arrays.Dense a => Arrays.array_setOwnIdx a i v true None
  | Arrays.Sparse a => Arrays.sparse_setOwnIdx a i v true None
  end.

(** setOwnIdx of an object *)
Definition setOwnIdx (o : positive) (i : Z) (v : Value) : M unit :=
  ob ← lookupObj o;
  match ob with
  | None => other_set o (KIdx i) v
  | Some (OArr x) =>
      if (0 <=? i) && (i <? MaxUint32) then
        match Arrays.arrayGet x i with
        | Some _ => applyArr o v (arr_setOwnIdx x i v)
        | None =>
            n ← chainFuel;
            r ← setForeign n (prototype (Arrays.arrayBase x)) (KIdx i) v o false;
            match r with
            | Some _ => mret ()
            | None => applyArr o v (arr_setOwnIdx x i v)
            end
        end
      else base_setOwnStr o (OArr x) (KIdx i) v
  | Some ob => base_setOwnStr o ob (KIdx i) v
  end.

(** setOwnStr("length", intToValue(n), true) *)
Definition setLength (o : positive) (n : Z) : M unit :=
  ob ← lookupObj o;
  match ob with
  | None => other_set o KLen (VNum (intToValue n))
  | Some (OArr x) =>
      l ← liftResult (toLengthUint32 (intToValue n));
      applyArr o VUndefined
        match x with
        | Arrays.Dense a => Arrays.dense_ (Arrays.array_setLength a l true)
        | Arrays.Sparse a => Arrays.sparse_ (Arrays.sparse_setLength a l true)
        end
  | Some ob => base_setOwnStr o ob KLen (VNum (intToValue n))
  end.

(** deleteIdx(idx, true) *)
Definition deleteIdx (o : positive) (i : Z) : M unit :=
  ob ← lookupObj o;
  match ob with
  | None => other_delete o (KIdx i)
  | Some (OArr x) =>
      if (0 <=? i) && (i <? MaxUint32) then
        applyArr o VUndefined
          match x with
          | Arrays.Dense a => Arrays.dense_ (Arrays.array_deleteIdxProp a i true)
          | Arrays.Sparse a => Arrays.sparse_ (Arrays.sparse_deleteIdxProp a i true)
          end
      else r ← liftResult (deleteStr (Arrays.arrayBase x) (FormatUint i) true); putImpl o (withBase x r.1)
  | Some (OBase b) => r ← liftResult (deleteStr b (FormatUint i) true); putBase o r.1
  end.

Definition dataDesc (v : option Value) : PropertyDescriptor := MkDesc v (Some true) (Some true) (Some true) None None.

(** createDataPropertyOrThrow; the value may be nil. *)
Definition createDataPropertyOrThrow (o : positive) (i : Z) (v : option Value) : M unit :=
  ob ← lookupObj o;
  match ob with
  | None => other_define o (KIdx i) v
  | Some (OArr x) =>
      if (0 <=? i) && (i <? MaxUint32) then
        applyArr o VUndefined
          match x with
          | Arrays.Dense a => Arrays.array_defineIdxProperty selfEqual callable a i (dataDesc v) true
          | Arrays.Sparse a => Arrays.sparse_defineIdxProperty selfEqual callable a i (dataDesc v) true
          end
      else
        r ← liftResult (defineOwnPropertyStr selfEqual callable (Arrays.arrayBase x) (FormatUint i) (dataDesc v) true);
        putImpl o (withBase x r.1)
  | Some (OBase b) =>
      r ← liftResult (defineOwnPropertyStr selfEqual callable b (FormatUint i) (dataDesc v) true);
      putBase o r.1
  end.
End methods.

(** *** Slices *)

(** copy(dst, src) *)
Definition goCopy {A} (dst src : list A) : list A := take (length dst) src ++ drop (length src) dst.
(** copy(dst[at:], src), at ≤ len(dst) *)
Definition goCopyAt {A} (dst : list A) (at_ : nat) (src : list A) : list A := take at_ dst ++ goCopy (drop at_ dst) src.

Definition make (n : Z) : cells := replicate (Z.to_nat n) None.
Definition raw (v : Value) : option slot := Some (Raw v).

Definition readStruct (p : positive) : M Arrays.arrayObject :=
  λ h, match structAt h p with Some a => (Ret a, h) | None => (Crash, h) end.
(** The fields of a struct, with stores to its backing array in place. *)
Definition writeStruct (p : positive) (a : Arrays.arrayObject) : M unit :=
  λ h, match structs h !! p with Some s => (Ret (), storeAt h p (sptr (stValues s)) a) | None => (Crash, h) end.

(** A slice with a new backing array, of which [slack] cells are beyond its length. *)
Definition newSlice (vs : cells) (slack : nat) : M slice := λ h,
  (Ret (Slice (nextArr h) (length vs)),
   Heap (selfs h) (structs h) (<[nextArr h := vs ++ replicate slack None]> (arrays h)) (next h) (Pos.succ (nextArr h))).
(** make([]Value, n) *)
Definition makeSlice (n : Z) : M slice := newSlice (make n) 0.

(** copy(dst[at:], src), with the contents of src *)
Definition copyTo (dst : slice) (at_ : Z) (src : cells) : M unit := λ h,
  match arrays h !! sptr dst with
  | Some back =>
      if (0 <=? at_) && (at_ <=? Z.of_nat (slen dst)) then
        (Ret (),
         Heap (selfs h) (structs h)
           (<[sptr dst := goCopyAt (take (slen dst) back) (Z.to_nat at_) src ++ drop (slen dst) back]> (arrays h))
           (next h) (nextArr h))
      else (Crash, h)
  | None => (Crash, h)
  end.

Definition updStruct (p : positive) (f : arrayStruct → arrayStruct) : M unit := λ h,
  match structs h !! p with
  | Some s => (Ret (), Heap (selfs h) (<[p := f s]> (structs h)) (arrays h) (next h) (nextArr h))
  | None => (Crash, h)
  end.
(** a.values = values *)
Definition setValues (p : positive) (values : slice) : M unit :=
  updStruct p (λ s, Struct (stBase s) values (stLength s) (stObjCount s) (stPropValueCount s) (stLengthWritable s)).
Definition setArrayValues (p : positive) (values : slice) : M unit :=
  let n := Z.of_nat (slen values) in
  updStruct p (λ s, Struct (stBase s) values (uwrap 32 n) n (stPropValueCount s) (stLengthWritable s)).

(** values[n:] *)
Definition sliceFrom (vs : cells) (n : Z) : M cells :=
  if (0 <=? n) && (n <=? Z.of_nat (length vs)) then mret (drop (Z.to_nat n) vs) else crash.
(** values[:n], up to the capacity *)
Definition sliceTo (backing : cells) (n : Z) : M cells :=
  if (0 <=? n) && (n <=? Z.of_nat (length backing)) then mret (take (Z.to_nat n) backing) else crash.
(** values[k] *)
Definition goIndex (vs : cells) (k : Z) : M (option slot) :=
  match (if 0 <=? k then vs !! Z.to_nat k else None) with Some o => mret o | None => crash end.

(** A cell as a Value: nil or a value.  (A property object, which is there only if
    propValueCount is wrong, would escape to JavaScript: not modelled.) *)
Definition cellValue (c : option slot) : M (option Value) :=
  match c with None => mret None | Some (Raw v) => mret (Some v) | Some (Prop_ _) => crash end.

(** a.values = values, with the backing array *)
Definition withCells (a : Arrays.arrayObject) (backing : cells) (n : nat) : Arrays.arrayObject :=
  Arrays.MkArray (Arrays.base a) backing n (Arrays.alength a) (Arrays.objCount a) (Arrays.propValueCount a)
    (Arrays.lengthWritable a).
Definition withLength (a : Arrays.arrayObject) (l : Z) : Arrays.arrayObject :=
  Arrays.MkArray (Arrays.base a) (Arrays.backing a) (Arrays.vlen a) l (Arrays.objCount a) (Arrays.propValueCount a)
    (Arrays.lengthWritable a).
Definition withObjCount (a : Arrays.arrayObject) (n : Z) : Arrays.arrayObject :=
  Arrays.MkArray (Arrays.base a) (Arrays.backing a) (Arrays.vlen a) (Arrays.alength a) n (Arrays.propValueCount a)
    (Arrays.lengthWritable a).

(** *** Loops *)

(** for k := k; k < k + n; k++ *)
Fixpoint forUp (n : nat) (k : Z) (body : Z → M unit) : M unit :=
  match n with O => mret () | S n => body k ;; forUp n (k + 1) body end.
Definition forRange (lo hi : Z) (body : Z → M unit) : M unit := forUp (Z.to_nat (hi - lo)) lo body.
(** for k := hi - 1; k >= lo; k-- *)
Fixpoint forDown (n : nat) (k : Z) (body : Z → M unit) : M unit :=
  match n with O => mret () | S n => body k ;; forDown n (k - 1) body end.
Definition forRangeDown (hi lo : Z) (body : Z → M unit) : M unit := forDown (Z.to_nat (hi - lo)) (hi - 1) body.
(** Loops that return from the function. *)
Fixpoint findUp {A} (n : nat) (k : Z) (body : Z → M (option A)) : M (option A) :=
  match n with
  | O => mret None
  | S n => r ← body k; match r with Some a => mret (Some a) | None => findUp n (k + 1) body end
  end.
Definition findRange {A} (lo hi : Z) (body : Z → M (option A)) : M (option A) := findUp (Z.to_nat (hi - lo)) lo body.
Fixpoint findDown {A} (n : nat) (k : Z) (body : Z → M (option A)) : M (option A) :=
  match n with
  | O => mret None
  | S n => r ← body k; match r with Some a => mret (Some a) | None => findDown n (k - 1) body end
  end.
(** The same with a state that the loop carries. *)
Fixpoint foldUp {S} (n : nat) (k : Z) (s : S) (body : Z → S → M S) : M S :=
  match n with O => mret s | Datatypes.S n => s ← body k s; foldUp n (k + 1) s body end.
Fixpoint foldDown {S} (n : nat) (k : Z) (s : S) (body : Z → S → M S) : M S :=
  match n with O => mret s | Datatypes.S n => s ← body k s; foldDown n (k - 1) s body end.
(** for i, x := range xs *)
Fixpoint forEachM {A} (i : Z) (xs : list A) (body : Z → A → M unit) : M unit :=
  match xs with [] => mret () | x :: xs => body i x ;; forEachM (i + 1) xs body end.

Definition arg (args : list Value) (i : nat) : Value := default VUndefined (args !! i).

(** ** Creating arrays *)

(** The array without elements; its slice is nil. *)
Definition emptyArray (proto : positive) : Arrays.arrayObject :=
  Arrays.MkArray (_put (newBaseObject (Some proto)) Arrays.lengthKey Arrays.lengthSlot) [] 0 0 0 0 true.

(** newArray: the object and its struct. *)
Definition newArray (proto : positive) : M (positive * positive) := λ h,
  let o := next h in
  let p := Pos.succ o in
  (Ret (o, p),
   storeAt (Heap (<[o := SDense p]> (selfs h)) (structs h) (arrays h) (Pos.succ p) (nextArr h)) p (nextArr h) (emptyArray proto)).

Section creation.
Context `{Env}.

(** setArrayValues(r.newArray(proto), values).val *)
Definition newArrayWith (proto : positive) (values : slice) : M positive :=
  op ← newArray proto; setArrayValues op.2 values ;; mret op.1.
Definition newArrayValues (values : slice) : M positive := newArrayWith arrayProto values.

Definition setArrayLength (proto : positive) (l : Z) : M positive :=
  op ← newArray proto; setLength op.1 l ;; mret op.1.
Definition newArrayLength (l : Z) : M positive := setArrayLength arrayProto l.

Definition builtin_newArray (args : list Value) (proto : positive) : M positive :=
  match args with
  | [VNum (valueInt al)] => setArrayLength proto al
  | [VNum (valueFloat f)] =>
      let al := int64F f in
      if feq (ofZ al) f then newArrayLength al else raise (RangeError "Invalid array length")
  | [v] => values ← newSlice [raw v] 0; newArrayWith proto values
  | _ =>
      argsCopy ← makeSlice (Z.of_nat (length args));
      copyTo argsCopy 0 (raw <$> args) ;;
      newArrayWith proto argsCopy
  end.

Definition isArray (o : positive) : M bool :=
  ob ← lookupObj o;
  match ob with None => other_isArray o | Some (OArr _) => mret true | Some (OBase _) => mret false end.

(** The constructor Array called with a length; its newTarget is itself. *)
Definition constructObj (c : positive) (args : list Value) : M positive :=
  if Pos.eqb c arrayCtor then builtin_newArray args arrayProto else construct c args.

Definition arraySpeciesCreate (o : positive) (size : Z) : M positive :=
  ia ← isArray o;
  v ← (if ia : bool then
         v ← getConstructor o;
         match v with
         | Some (VObject c) => v ← getSpecies c; mret (match v with Some VNull => None | v => v end)
         | v => mret v
         end
       else mret None);
  match v with
  | None | Some VUndefined => newArrayLength size
  | Some (VObject c) =>
      if isConstructor c then constructObj c [VNum (intToValue size)]
      else raise (TypeError "Species is not a constructor")
  | Some _ => raise (TypeError "Species is not a constructor")
  end.

(** *** The checks for the direct paths *)

Definition stdCond (a : Arrays.arrayObject) : bool :=
  (Arrays.propValueCount a =? 0) && (Arrays.alength a =? uwrap 32 (Z.of_nat (Arrays.vlen a)))
  && (uwrap 32 (Arrays.objCount a) =? Arrays.alength a).

(** The struct of an object that has no property objects, no holes (objCount
    counts the elements) and a slice as long as the array. *)
Definition checkStdArrayObj (o : positive) : M (option positive) := λ h,
  (Ret match selfs h !! o with
       | Some (SDense p) => match structAt h p with Some a => if stdCond a then Some p else None | None => None end
       | _ => None
       end, h).

Definition checkStdArrayObjWithProto (o : positive) : M (option positive) :=
  r ← checkStdArrayObj o;
  match r with
  | None => mret None
  | Some p =>
      a ← readStruct p;
      match prototype (Arrays.base a) with
      | None => mret (Some p)
      | Some q1 =>
          p1 ← lookupObj q1;
          match p1 with
          | Some (OArr (Arrays.Dense a1)) =>
              if Arrays.propValueCount a1 =? 0 then
                match prototype (Arrays.base a1) with
                | None => mret (Some p)
                | Some q2 =>
                    p2 ← lookupObj q2;
                    match p2 with
                    | Some (OBase b) =>
                        match prototype b with
                        | None =>
                            let b := ensurePropOrder b in
                            putBase q2 b ;;
                            mret (if Nat.eqb (idxPropCount b) 0 then Some p else None)
                        | Some _ => mret None
                        end
                    | _ => mret None
                    end
                end
              else mret None
          | _ => mret None
          end
      end
  end.
End creation.

(** ** Methods that change the array *)

Section mutators.
Context `{Env}.

Definition arrayproto_push (o : positive) (args : list Value) : M Z :=
  l ← getLength o;
  let nl := l + Z.of_nat (length args) in
  if maxInt <=? nl then raise (TypeError "Invalid array length")
  else
    forEachM 0 args (λ i a, setOwnIdx o (l + i) a) ;;
    setLength o nl ;;
    mret nl.

Definition arrayproto_pop_generic (o : positive) : M (option Value) :=
  l ← getLength o;
  if l =? 0 then setLength o 0 ;; mret (Some VUndefined)
  else
    let idx := l - 1 in
    val ← getIdx o idx;
    deleteIdx o idx ;;
    setLength o idx ;;
    mret val.

(** The end of pop: a.length = l, or the error. *)
Definition popLength (p : positive) (l : Z) : M unit :=
  a ← readStruct p;
  if Arrays.lengthWritable a then writeStruct p (withLength a l)
  else
    let r := Arrays.array_setLength a 0 true in
    writeStruct p r.1 ;;
    match r.2 with Arrays.Raise e => raise e | _ => mret () end.

Definition denseStruct (o : positive) : M (option positive) :=
  λ h, (Ret match selfs h !! o with Some (SDense p) => Some p | _ => None end, h).

Definition arrayproto_pop (o : positive) : M (option Value) :=
  d ← denseStruct o;
  match d with
  | Some p =>
      a ← readStruct p;
      let l := Arrays.alength a in
      if 0 <? l then
        let l := l - 1 in
        match Arrays.array_get a l with
        | Some (Raw val) =>
            let back := <[Z.to_nat l := None]> (Arrays.backing a) in
            writeStruct p (withCells a back (Z.to_nat l)) ;;
            popLength p l ;;
            mret (Some val)
        | _ => arrayproto_pop_generic o
        end
      else popLength p l ;; mret (Some VUndefined)
  | None => arrayproto_pop_generic o
  end.

(** o[to] = o[from], or its deletion *)
Definition moveElement (o : positive) (from to : Z) : M unit :=
  e ← hasPropertyIdx o from;
  if e : bool then v ← getIdx o from; setOwnIdx o to (nilSafe v) else deleteIdx o to.

Definition shiftGeneric (o : positive) : M (option Value) :=
  length ← getLength o;
  if length =? 0 then setLength o 0 ;; mret (Some VUndefined)
  else
    first ← getIdx o 0;
    forRange 1 length (λ i, moveElement o i (i - 1)) ;;
    let lv := length - 1 in
    deleteIdx o lv ;;
    setLength o lv ;;
    mret first.

Definition arrayproto_shift (o : positive) : M (option Value) :=
  d ← checkStdArrayObjWithProto o;
  match d with
  | Some p =>
      a ← readStruct p;
      match Arrays.avalues a with
      | [] =>
          (if negb (Arrays.lengthWritable a) then
             match (Arrays.array_setLength a 0 true).2 with Arrays.Raise e => raise e | _ => mret () end
           else mret ()) ;;
          mret (Some VUndefined)
      | first :: rest =>
          let n := length rest in
          let back := rest ++ None :: drop (S n) (Arrays.backing a) in
          writeStruct p (withLength (withCells a back n) (uwrap 32 (Arrays.alength a - 1))) ;;
          cellValue first
      end
  | None => shiftGeneric o
  end.

Definition unshiftGeneric (o : positive) (length : Z) (args : list Value) : M unit :=
  forRangeDown length 0 (λ k, moveElement o k (k + Z.of_nat (List.length args))) ;;
  forEachM 0 args (λ k a, setOwnIdx o k a).

Definition arrayproto_unshift (o : positive) (args : list Value) : M Z :=
  length ← getLength o;
  let argCount := Z.of_nat (List.length args) in
  let newSize := length + argCount in
  (if 0 <? argCount then
     if maxInt <=? newSize then raise (TypeError "Invalid array length")
     else
       d ← checkStdArrayObjWithProto o;
       match (if newSize <? MaxUint32 then d else None) with
       | Some p =>
           a ← readStruct p;
           let back := Arrays.backing a in
           (if newSize <=? Z.of_nat (List.length back) then
              writeStruct p (withCells a
                (goCopyAt (take (Z.to_nat newSize) back) (Z.to_nat argCount) (take (Z.to_nat length) back) ++ drop (Z.to_nat newSize) back)
                (Z.to_nat newSize))
            else
              values ← makeSlice newSize;
              copyTo values argCount (Arrays.avalues a) ;;
              setValues p values) ;;
           a ← readStruct p;
           let back := goCopy (Arrays.avalues a) (raw <$> args) ++ drop (Arrays.vlen a) (Arrays.backing a) in
           writeStruct p (withObjCount (withCells a back (Arrays.vlen a)) (Arrays.alength a))
       | None => unshiftGeneric o length args
       end
   else mret ()) ;;
  setLength o newSize ;;
  mret newSize.

Definition arrayproto_reverse_generic_step (o : positive) (lower upper : Z) : M unit :=
  lowerExists ← hasPropertyIdx o lower;
  lowerValue ← (if lowerExists : bool then v ← getIdx o lower; mret (nilSafe v) else mret VUndefined);
  upperExists ← hasPropertyIdx o upper;
  upperValue ← (if upperExists : bool then v ← getIdx o upper; mret (nilSafe v) else mret VUndefined);
  match lowerExists, upperExists with
  | true, true => setOwnIdx o lower upperValue ;; setOwnIdx o upper lowerValue
  | false, true => setOwnIdx o lower upperValue ;; deleteIdx o upper
  | true, false => deleteIdx o lower ;; setOwnIdx o upper lowerValue
  | false, false => mret ()
  end.

Definition arrayproto_reverse_generic (o : positive) (start : Z) : M unit :=
  l ← getLength o;
  let middle := l / 2 in
  forRange start middle (λ lower, arrayproto_reverse_generic_step o lower (l - lower - 1)).

(** The loop that swaps the cells [lower] and [l - lower - 1]. *)
Fixpoint swapLoop (n : nat) (lower : nat) (vs : cells) : cells :=
  match n with
  | O => vs
  | S n =>
      let upper := (length vs - lower - 1)%nat in
      swapLoop n (S lower)
        match vs !! lower, vs !! upper with
        | Some x, Some y => <[lower := y]> (<[upper := x]> vs)
        | _, _ => vs
        end
  end.

Definition arrayproto_reverse (o : positive) : M unit :=
  d ← checkStdArrayObj o;
  match d with
  | Some p =>
      a ← readStruct p;
      let vs := Arrays.avalues a in
      writeStruct p (withCells a (swapLoop (length vs / 2) 0 vs ++ drop (Arrays.vlen a) (Arrays.backing a)) (Arrays.vlen a))
  | None => arrayproto_reverse_generic o 0
  end.

(** An optional end argument *)
Definition endArg (v : Value) (l : Z) : M Z := match v with VUndefined => mret l | _ => VToInteger v end.

Definition copyWithinGeneric (o : positive) (to from count : Z) : M unit :=
  if (from <? to) && (to <? from + count) then
    forUp (Z.to_nat count) 0 (λ j, moveElement o (from + count - 1 - j) (to + count - 1 - j))
  else forUp (Z.to_nat count) 0 (λ j, moveElement o (from + j) (to + j)).

Definition arrayproto_copyWithin (o : positive) (args : list Value) : M unit :=
  l ← getLength o;
  to ← VToInteger (arg args 0);
  let to := relToIdx to l in
  from ← VToInteger (arg args 1);
  let from := relToIdx from l in
  relEnd ← endArg (arg args 2) l;
  let final := relToIdx relEnd l in
  let count := Z.min (final - from) (l - to) in
  d ← checkStdArrayObj o;
  match d with
  | Some p =>
      a ← readStruct p;
      if 0 <? count then
        (* values[from:from+count] and values[to:to+count] *)
        src ← sliceTo (Arrays.backing a) (from + count);
        dst ← sliceTo (Arrays.backing a) (to + count);
        let back := goCopyAt dst (Z.to_nat to) (drop (Z.to_nat from) src) ++ drop (Z.to_nat (to + count)) (Arrays.backing a) in
        writeStruct p (withCells a back (Arrays.vlen a))
      else mret ()
  | None => copyWithinGeneric o to from count
  end.

Definition arrayproto_fill (o : positive) (args : list Value) : M unit :=
  l ← getLength o;
  k ← VToInteger (arg args 1);
  let k := relToIdx k l in
  relEnd ← endArg (arg args 2) l;
  let final := relToIdx relEnd l in
  let value := arg args 0 in
  d ← checkStdArrayObj o;
  match d with
  | Some p =>
      forRange k final (λ k,
        a ← readStruct p;
        if k <? Z.of_nat (Arrays.vlen a) then writeStruct p (Arrays.array_store a k (raw value)) else crash)
  | None => forRange k final (λ k, setOwnIdx o k value)
  end.

(** The direct path of splice on the slice of the struct [p]: the slice with room
    for the items, in place or in a new backing array, then the items. *)
Definition spliceValues (p : positive) (length actualStart actualDeleteCount newLength : Z) (items : list Value) : M unit :=
  let itemCount := Z.of_nat (List.length items) in
  src ← readStruct p;
  let back := Arrays.backing src in
  let vs := Arrays.avalues src in
  (if itemCount <? actualDeleteCount then
     tl ← sliceFrom vs (actualStart + actualDeleteCount);
     if (actualStart + itemCount <=? Z.of_nat (List.length vs)) && (newLength <=? Z.of_nat (List.length vs)) then
       let vs1 := goCopyAt vs (Z.to_nat (actualStart + itemCount)) tl in
       writeStruct p (withCells src
         (take (Z.to_nat newLength) vs1 ++ replicate (List.length vs - Z.to_nat newLength) None ++ drop (List.length vs) back)
         (Z.to_nat newLength))
     else crash
   else if actualDeleteCount <? itemCount then
     if newLength <=? Z.of_nat (List.length back) then
       let vs1 := take (Z.to_nat newLength) back in
       let tl := drop (Z.to_nat (actualStart + actualDeleteCount)) (take (Z.to_nat length) back) in
       writeStruct p (withCells src
         (goCopyAt vs1 (Z.to_nat (actualStart + itemCount)) tl ++ drop (Z.to_nat newLength) back) (Z.to_nat newLength))
     else
       values ← makeSlice newLength;
       hd ← sliceTo back actualStart;
       copyTo values 0 hd ;;
       tl ← sliceFrom vs (actualStart + actualDeleteCount);
       copyTo values (actualStart + itemCount) tl ;;
       setValues p values
   else mret ()) ;;
  src ← readStruct p;
  let vs := Arrays.avalues src in
  let n := Z.of_nat (List.length vs) in
  if 0 <? itemCount then
    if actualStart <=? n then
      writeStruct p (withObjCount (withCells src
        (goCopyAt vs (Z.to_nat actualStart) (raw <$> items) ++ drop (Arrays.vlen src) (Arrays.backing src)) (Arrays.vlen src)) n)
    else crash
  else writeStruct p (withObjCount src n).

Definition spliceGeneric (o a : positive) (length actualStart actualDeleteCount : Z) (items : list Value) : M unit :=
  let itemCount := Z.of_nat (List.length items) in
  forRange 0 actualDeleteCount (λ k,
    e ← hasPropertyIdx o (k + actualStart);
    if e : bool then v ← getIdx o (k + actualStart); createDataPropertyOrThrow a k (Some (nilSafe v)) else mret ()) ;;
  (if itemCount <? actualDeleteCount then
     forRange actualStart (length - actualDeleteCount) (λ k, moveElement o (k + actualDeleteCount) (k + itemCount)) ;;
     forRangeDown length (length - actualDeleteCount + itemCount) (λ k, deleteIdx o k)
   else if actualDeleteCount <? itemCount then
     forRangeDown (length - actualDeleteCount) actualStart (λ k, moveElement o (k + actualDeleteCount) (k + itemCount))
   else mret ()) ;;
  forEachM 0 items (λ i item, setOwnIdx o (actualStart + i) item).

(** The part splice and toSpliced share: start, number of deleted elements, new length. *)
Definition spliceArgs (length : Z) (args : list Value) : M (Z * Z * Z) :=
  start ← VToInteger (arg args 0);
  let actualStart := relToIdx start length in
  actualDeleteCount ←
    match args with
    | [] => mret 0
    | [_] => mret (length - actualStart)
    | _ => d ← VToInteger (arg args 1); mret (Z.min (Z.max d 0) (length - actualStart))
    end;
  let itemCount := Z.of_nat (List.length (drop 2 args)) in
  let newLength := length - actualDeleteCount + itemCount in
  if maxInt <=? newLength then raise (TypeError "Invalid array length")
  else mret (actualStart, actualDeleteCount, newLength).

Definition arrayproto_splice (o : positive) (args : list Value) : M positive :=
  length ← getLength o;
  r ← spliceArgs length args;
  let '(actualStart, actualDeleteCount, newLength) := r in
  let items := drop 2 args in
  a ← arraySpeciesCreate o actualDeleteCount;
  d ← checkStdArrayObj o;
  match d with
  | Some p =>
      dst ← checkStdArrayObjWithProto a;
      match dst with
      | Some q =>
          src ← readStruct p;
          tl ← sliceFrom (Arrays.avalues src) actualStart;
          values ← makeSlice actualDeleteCount;
          copyTo values 0 tl ;;
          setArrayValues q values
      | None =>
          forRange 0 actualDeleteCount (λ k,
            src ← readStruct p;
            c ← goIndex (Arrays.avalues src) (k + actualStart);
            v ← cellValue c;
            createDataPropertyOrThrow a k v) ;;
          setLength a actualDeleteCount
      end ;;
      spliceValues p length actualStart actualDeleteCount newLength items
  | None => spliceGeneric o a length actualStart actualDeleteCount items
  end ;;
  setLength o newLength ;;
  mret a.
End mutators.

(** ** Methods that read the array *)

Section accessors.
Context `{Env}.

Definition arrayproto_at (o : positive) (args : list Value) : M (option Value) :=
  idx ← VToInteger (arg args 0);
  length ← getLength o;
  let idx := if idx <? 0 then length + idx else idx in
  if (length <=? idx) || (idx <? 0) then mret (Some VUndefined)
  else
    e ← hasPropertyIdx o idx;
    if e : bool then getIdx o idx else mret (Some VUndefined).

(** A comparison with a cell: false on nil (and on a property object). *)
Definition cellTest (f : Value → bool) (c : option slot) : bool := match c with Some (Raw v) => f v | _ => false end.

(** for i, val := range values[n:] *)
Fixpoint cellSearch (f : Value → bool) (i : Z) (vs : cells) : option Z :=
  match vs with [] => None | c :: vs => if cellTest f c then Some i else cellSearch f (i + 1) vs end.

Definition found (r : option Z) : Z := default (-1) r.

Definition arrayproto_indexOf (o : positive) (args : list Value) : M Z :=
  length ← getLength o;
  if length =? 0 then mret (-1)
  else
    n ← VToInteger (arg args 1);
    if length <=? n then mret (-1)
    else
      let n := if n <? 0 then Z.max (length + n) 0 else n in
      let searchElement := arg args 0 in
      d ← checkStdArrayObj o;
      match d with
      | Some p =>
          arr ← readStruct p;
          tl ← sliceFrom (Arrays.avalues arr) n;
          mret (found (cellSearch (ValueStrictEquals selfEqual searchElement) n tl))
      | None =>
          r ← findRange n length (λ idx,
            e ← hasPropertyIdx o idx;
            if e : bool then
              val ← getIdx o idx;
              mret (match val with
                    | Some val => if ValueStrictEquals selfEqual searchElement val then Some idx else None
                    | None => None
                    end)
            else mret None);
          mret (found r)
      end.

Definition positiveZero : Value := VNum (valueInt 0).

Definition arrayproto_includes (o : positive) (args : list Value) : M bool :=
  length ← getLength o;
  if length =? 0 then mret false
  else
    n ← VToInteger (arg args 1);
    if length <=? n then mret false
    else
      let n := if n <? 0 then Z.max (length + n) 0 else n in
      let searchElement := arg args 0 in
      let searchElement := if isNegativeZero searchElement then positiveZero else searchElement in
      let zero : bool := bool_decide (searchElement = positiveZero) in
      d ← checkStdArrayObj o;
      match d with
      | Some p =>
          arr ← readStruct p;
          tl ← sliceFrom (Arrays.avalues arr) n;
          let test := if zero then ValueStrictEquals selfEqual searchElement else SameAs selfEqual searchElement in
          mret (isSome (cellSearch test n tl))
      | None =>
          r ← findRange n length (λ idx,
            val ← getIdx o idx;
            let val := nilSafe val in
            mret (if SameAs selfEqual searchElement val || zero && ValueStrictEquals selfEqual searchElement val
                  then Some () else None));
          mret (isSome r)
      end.

Definition arrayproto_lastIndexOf (o : positive) (args : list Value) : M Z :=
  length ← getLength o;
  if length =? 0 then mret (-1)
  else
    fromIndex ←
      (if (List.length args <? 2)%nat then mret (length - 1)
       else
         i ← VToInteger (arg args 1);
         mret (if 0 <=? i then Z.min i (length - 1) else i + length));
    let searchElement := arg args 0 in
    d ← checkStdArrayObj o;
    match d with
    | Some p =>
        arr ← readStruct p;
        r ← findDown (Z.to_nat (fromIndex + 1)) fromIndex (λ k,
          c ← goIndex (Arrays.avalues arr) k;
          mret (if cellTest (ValueStrictEquals selfEqual searchElement) c then Some k else None));
        mret (found r)
    | None =>
        r ← findDown (Z.to_nat (fromIndex + 1)) fromIndex (λ k,
          e ← hasPropertyIdx o k;
          if e : bool then
            val ← getIdx o k;
            mret (match val with
                  | Some val => if ValueStrictEquals selfEqual searchElement val then Some k else None
                  | None => None
                  end)
          else mret None);
        mret (found r)
    end.

Definition arrayproto_slice (o : positive) (args : list Value) : M positive :=
  length ← getLength o;
  start ← VToInteger (arg args 0);
  let start := relToIdx start length in
  stop ← endArg (arg args 1) length;
  let stop := relToIdx stop length in
  let count := Z.max (stop - start) 0 in
  a ← arraySpeciesCreate o count;
  src ← checkStdArrayObj o;
  dst ← match src with Some _ => checkStdArrayObjWithProto a | None => mret None end;
  match src, dst with
  | Some p, Some q =>
      arr ← readStruct p;
      tl ← sliceFrom (Arrays.avalues arr) start;
      values ← makeSlice count;
      copyTo values 0 tl ;;
      setArrayValues q values
  | _, _ =>
      forRange 0 (stop - start) (λ n,
        p ← getIdx o (start + n);
        match p with Some v => createDataPropertyOrThrow a n (Some v) | None => mret () end)
  end ;;
  mret a.

(** *** New arrays *)

Definition arrayproto_with (o : positive) (args : list Value) : M positive :=
  relativeIndex ← VToInteger (arg args 0);
  let value := arg args 1 in
  length ← getLength o;
  let actualIndex := if 0 <=? relativeIndex then relativeIndex else length + relativeIndex in
  if (length <=? actualIndex) || (actualIndex <? 0) then raise (RangeError "Invalid index")
  else
    d ← checkStdArrayObj o;
    match d with
    | Some p =>
        src ← readStruct p;
        a ← foldUp (Z.to_nat length) 0 [] (λ k a,
          c ← (if k =? actualIndex then mret (raw value) else goIndex (Arrays.avalues src) k);
          mret (a ++ [c]));
        a ← newSlice a 0;
        newArrayValues a
    | None =>
        a ← newArrayLength length;
        forRange 0 length (λ k,
          v ← (if k =? actualIndex then mret value else v ← getIdx o k; mret (nilSafe v));
          createDataPropertyOrThrow a k (Some v)) ;;
        mret a
    end.

Definition arrayproto_toReversed (o : positive) : M positive :=
  length ← getLength o;
  d ← checkStdArrayObj o;
  match d with
  | Some p =>
      src ← readStruct p;
      a ← foldUp (Z.to_nat length) 0 [] (λ k a, c ← goIndex (Arrays.avalues src) (length - k - 1); mret (a ++ [c]));
      a ← newSlice a 0;
      newArrayValues a
  | None =>
      a ← newArrayLength length;
      forRange 0 length (λ k,
        v ← getIdx o (length - k - 1);
        createDataPropertyOrThrow a k (Some (nilSafe v))) ;;
      mret a
  end.

Definition arrayproto_toSpliced (o : positive) (args : list Value) : M positive :=
  length ← getLength o;
  r ← spliceArgs length args;
  let '(actualStart, actualSkipCount, newLength) := r in
  let items := drop 2 args in
  let itemCount := Z.of_nat (List.length items) in
  d ← checkStdArrayObj o;
  match d with
  | Some p =>
      src ← readStruct p;
      let vs := Arrays.avalues src in
      values ←
        (if itemCount =? actualSkipCount then
           values ← makeSlice (Z.of_nat (List.length vs));
           copyTo values 0 vs ;;
           mret values
         else
           values ← makeSlice newLength;
           hd ← sliceTo (Arrays.backing src) actualStart;
           copyTo values 0 hd ;;
           tl ← sliceFrom vs (actualStart + actualSkipCount);
           copyTo values (actualStart + itemCount) tl ;;
           mret values);
      (if 0 <? itemCount then copyTo values actualStart (raw <$> items) else mret ()) ;;
      newArrayValues values
  | None =>
      a ← newArrayLength newLength;
      forRange 0 actualStart (λ i, v ← getIdx o i; createDataPropertyOrThrow a i (Some (nilSafe v))) ;;
      forEachM 0 items (λ i item, createDataPropertyOrThrow a (actualStart + i) (Some item)) ;;
      forRange (actualStart + itemCount) newLength (λ i,
        v ← getIdx o (i - itemCount + actualSkipCount);
        createDataPropertyOrThrow a i (Some (nilSafe v))) ;;
      mret a
  end.

Definition isConcatSpreadable (o : positive) : M bool :=
  s ← getSpreadable o;
  match s with Some VUndefined | None => isArray o | Some v => mret (toBoolean v) end.

Definition arrayproto_concat_append (a : positive) (item : Value) : M unit :=
  aLength ← getLength a;
  spread ← match item with VObject o => s ← isConcatSpreadable o; mret (if s : bool then Some o else None) | _ => mret None end;
  aLength ←
    match spread with
    | Some o =>
        length ← getLength o;
        if maxInt <=? aLength + length then raise (TypeError "Invalid array length")
        else
          forRange 0 length (λ i,
            v ← getIdx o i;
            match v with Some v => createDataPropertyOrThrow a (aLength + i) (Some v) | None => mret () end) ;;
          mret (aLength + length)
    | None => createDataPropertyOrThrow a aLength (Some item) ;; mret (aLength + 1)
    end;
  setLength a aLength.

Definition arrayproto_concat (o : positive) (args : list Value) : M positive :=
  a ← arraySpeciesCreate o 0;
  arrayproto_concat_append a (VObject o) ;;
  forEachM 0 args (λ _ item, arrayproto_concat_append a item) ;;
  mret a.

Definition array_isArray (v : Value) : M bool := match v with VObject o => isArray o | _ => mret false end.

Definition array_ofValues (args : list Value) : M positive :=
  values ← makeSlice (Z.of_nat (List.length args));
  copyTo values 0 (raw <$> args) ;;
  newArrayValues values.

Definition array_of (this : Value) (args : list Value) : M positive :=
  match this with
  | VObject c =>
      if isConstructor c && negb (Pos.eqb c arrayCtor) then
        let l := Z.of_nat (List.length args) in
        arr ← construct c [VNum (intToValue l)];
        forEachM 0 args (λ i v, createDataPropertyOrThrow arr i (Some v)) ;;
        setLength arr l ;;
        mret arr
      else array_ofValues args
  | _ => array_ofValues args
  end.
End accessors.

(** ** Methods with a callback *)

Section callbacks.
Context `{Env}.

(** r.toCallable of the first argument *)
Definition callbackArg (args : list Value) : M positive :=
  match arg args 0 with
  | VObject f => if callable f then mret f else raise (TypeError "not a function")
  | _ => raise (TypeError "not a function")
  end.

Definition idxV (k : Z) : Value := VNum (valueInt k).

(** callbackFn(fc) with the element [val] at [k] *)
Definition callElem (f : positive) (thisArg : Value) (o : positive) (val : Value) (k : Z) : M Value :=
  invoke f thisArg [val; idxV k; VObject o].

Definition arrayproto_every (o : positive) (args : list Value) : M bool :=
  length ← getLength o;
  f ← callbackArg args;
  r ← findRange 0 length (λ k,
    v ← getIdx o k;
    match v with
    | Some val => r ← callElem f (arg args 1) o val k; mret (if toBoolean r then None else Some ())
    | None => mret None
    end);
  mret (negb (isSome r)).

Definition arrayproto_some (o : positive) (args : list Value) : M bool :=
  length ← getLength o;
  f ← callbackArg args;
  r ← findRange 0 length (λ k,
    v ← getIdx o k;
    match v with
    | Some val => r ← callElem f (arg args 1) o val k; mret (if toBoolean r then Some () else None)
    | None => mret None
    end);
  mret (isSome r).

Definition arrayproto_forEach (o : positive) (args : list Value) : M unit :=
  length ← getLength o;
  f ← callbackArg args;
  forRange 0 length (λ k,
    v ← getIdx o k;
    match v with Some val => callElem f (arg args 1) o val k ;; mret () | None => mret () end).

Definition arrayproto_map (o : positive) (args : list Value) : M positive :=
  length ← getLength o;
  f ← callbackArg args;
  a ← arraySpeciesCreate o length;
  stdSrc ← denseStruct o;
  dst ← match stdSrc with Some _ => denseStruct a | None => mret None end;
  match dst with
  | Some q =>
      values ← foldUp (Z.to_nat length) 0 [] (λ k values,
        v ← getIdx o k;
        match v with
        | Some val => r ← callElem f (arg args 1) o val k; mret (values ++ [raw r])
        | None => mret (values ++ [None])
        end);
      values ← newSlice values 0;
      setArrayValues q values
  | None =>
      forRange 0 length (λ k,
        v ← getIdx o k;
        match v with
        | Some val => r ← callElem f (arg args 1) o val k; createDataPropertyOrThrow a k (Some r)
        | None => mret ()
        end)
  end ;;
  mret a.

Definition arrayproto_filter (o : positive) (args : list Value) : M positive :=
  length ← getLength o;
  f ← callbackArg args;
  a ← arraySpeciesCreate o 0;
  stdSrc ← denseStruct o;
  dst ← match stdSrc with Some _ => checkStdArrayObj a | None => mret None end;
  match dst with
  | Some q =>
      values ← foldUp (Z.to_nat length) 0 [] (λ k values,
        v ← getIdx o k;
        match v with
        | Some val => r ← callElem f (arg args 1) o val k; mret (if toBoolean r then values ++ [raw val] else values)
        | None => mret values
        end);
      values ← newSlice values (appendSlack (List.length values));
      setArrayValues q values
  | None =>
      foldUp (Z.to_nat length) 0 0 (λ k to,
        v ← getIdx o k;
        match v with
        | Some val =>
            r ← callElem f (arg args 1) o val k;
            if toBoolean r then createDataPropertyOrThrow a to (Some val) ;; mret (to + 1) else mret to
        | None => mret to
        end) ;;
      mret ()
  end ;;
  mret a.

(** The accumulator and the index the loop of reduce starts at, given the loop
    that finds the first element. *)
Definition reduceStep (f o : positive) (k : Z) (acc : Value) : M Value :=
  v ← getIdx o k;
  match v with Some val => invoke f VUndefined [acc; val; idxV k; VObject o] | None => mret acc end.

Definition elemAtIdx (o : positive) (k : Z) : M (option (Z * Value)) :=
  v ← getIdx o k; mret (match v with Some val => Some (k, val) | None => None end).

Definition arrayproto_reduce (o : positive) (args : list Value) : M Value :=
  length ← getLength o;
  f ← callbackArg args;
  start ← match args !! 1%nat with
          | Some init => mret (0, init)
          | None =>
              r ← findRange 0 length (elemAtIdx o);
              match r with Some (k, val) => mret (k + 1, val) | None => raise (TypeError "No initial value") end
          end;
  foldUp (Z.to_nat (length - start.1)) start.1 start.2 (reduceStep f o).

Definition arrayproto_reduceRight (o : positive) (args : list Value) : M Value :=
  length ← getLength o;
  f ← callbackArg args;
  start ← match args !! 1%nat with
          | Some init => mret (length - 1, init)
          | None =>
              r ← findDown (Z.to_nat length) (length - 1) (elemAtIdx o);
              match r with Some (k, val) => mret (k - 1, val) | None => raise (TypeError "No initial value") end
          end;
  foldDown (Z.to_nat (start.1 + 1)) start.1 start.2 (reduceStep f o).

(** The loop body of the find methods: holes are passed as undefined. *)
Definition findStep (f : positive) (thisArg : Value) (o : positive) (k : Z) : M (option (Z * option Value)) :=
  kValue ← getIdx o k;
  r ← callElem f thisArg o (nilSafe kValue) k;
  mret (if toBoolean r then Some (k, kValue) else None).

Definition foundValue (r : option (Z * option Value)) : option Value := match r with Some kv => kv.2 | None => Some VUndefined end.
Definition foundIndex (r : option (Z * option Value)) : Z := match r with Some kv => kv.1 | None => -1 end.

Definition findForward (o : positive) (args : list Value) : M (option (Z * option Value)) :=
  l ← getLength o; f ← callbackArg args; findRange 0 l (findStep f (arg args 1) o).
Definition findBackward (o : positive) (args : list Value) : M (option (Z * option Value)) :=
  l ← getLength o; f ← callbackArg args; findDown (Z.to_nat l) (l - 1) (findStep f (arg args 1) o).

Definition arrayproto_find (o : positive) (args : list Value) : M (option Value) := r ← findForward o args; mret (foundValue r).
Definition arrayproto_findIndex (o : positive) (args : list Value) : M Z := r ← findForward o args; mret (foundIndex r).
Definition arrayproto_findLast (o : positive) (args : list Value) : M (option Value) := r ← findBackward o args; mret (foundValue r).
Definition arrayproto_findLastIndex (o : positive) (args : list Value) : M Z := r ← findBackward o args; mret (foundIndex r).

(** flattenIntoArray; [fuel] bounds the nesting, beyond which the Go stack
    overflows. *)
Fixpoint flattenIntoArray (fuel : nat) (target source : positive) (sourceLen start depth : Z)
    (mapper : option (positive * Value)) : M Z :=
  match fuel with
  | O => crash
  | S fuel =>
      foldUp (Z.to_nat sourceLen) 0 start (λ sourceIndex targetIndex,
        e ← hasPropertyIdx source sourceIndex;
        if e : bool then
          element ← getIdx source sourceIndex;
          let element := nilSafe element in
          element ← match mapper with
                    | Some (f, thisArg) => callElem f thisArg source element sourceIndex
                    | None => mret element
                    end;
          elementArray ←
            (if 0 <? depth then
               match element with VObject e => b ← isArray e; mret (if b : bool then Some e else None) | _ => mret None end
             else mret None);
          match elementArray with
          | Some e => elementLen ← getLength e; flattenIntoArray fuel target e elementLen targetIndex (depth - 1) None
          | None =>
              if maxInt - 1 <=? targetIndex then raise (TypeError "Invalid array length")
              else createDataPropertyOrThrow target targetIndex (Some element) ;; mret (targetIndex + 1)
          end
        else mret targetIndex)
  end.

Definition arrayproto_flat (fuel : nat) (o : positive) (args : list Value) : M positive :=
  l ← getLength o;
  depthNum ← match arg args 0 with VUndefined => mret 1 | v => VToInteger v end;
  a ← arraySpeciesCreate o 0;
  flattenIntoArray fuel a o l 0 depthNum None ;;
  mret a.

Definition arrayproto_flatMap (fuel : nat) (o : positive) (args : list Value) : M positive :=
  l ← getLength o;
  f ← callbackArg args;
  a ← arraySpeciesCreate o 0;
  flattenIntoArray fuel a o l 0 1 (Some (f, arg args 1)) ;;
  mret a.

(** ** The array iterator *)

Inductive iterationKind := iterationKindKey | iterationKindValue | iterationKindKeyValue.

Record arrayIterObject := ArrayIter { iterObj : option positive; nextIdx : Z; iterKind : iterationKind }.

Definition createArrayIterator (o : positive) (kind : iterationKind) : arrayIterObject := ArrayIter (Some o) 0 kind.

(** nextResult: the iterator afterwards and the value; [None] when it has ended.
    For a typed array the length is computed by the environment, which also
    throws when its buffer is detached. *)
Definition nextResult (ai : arrayIterObject) : M (arrayIterObject * option Value) :=
  match iterObj ai with
  | None => mret (ai, None)
  | Some o =>
      l ← getLength o;
      let index := nextIdx ai in
      if l <=? index then mret (ArrayIter None index (iterKind ai), None)
      else
        let ai := ArrayIter (Some o) (index + 1) (iterKind ai) in
        match iterKind ai with
        | iterationKindKey => mret (ai, Some (idxV index))
        | iterationKindValue => v ← getIdx o index; mret (ai, Some (nilSafe v))
        | iterationKindKeyValue =>
            v ← getIdx o index;
            kv ← newSlice [raw (idxV index); raw (nilSafe v)] 0;
            e ← newArrayValues kv;
            mret (ai, Some (VObject e))
        end
  end.
End callbacks.

End ArrayProto.
