(* ===== verification/ArrayProtoHeap.v ===== *)
(** * Array.prototype: reasoning about arrays in the heap

    A judgement [does m h Q] that a computation returns without throwing or
    crashing, with its rules for loops; and the state predicate [ArrayAt h o L]: the
    object [o] is an array, in either representation, whose elements are the list
    [L] (with [None] for a hole).  The operations of an object are shown to be
    operations on [L], through the refinement of Arrays.v. *)

From S2P Require Import Prelude ArrayIndex Float64 Numbers Values Property Objects Arrays ArrayProto.
Import ArrayIndex Numbers Values Property Objects ArrayProto.
Open Scope Z_scope.

Module ArrayProtoHeap.

(** ** Computations that return *)

Definition does {A} (m : M A) (h : heap) (Q : A → heap → Prop) : Prop :=
  match m h with (Ret a, h') => Q a h' | _ => False end.

Lemma does_ret {A} (a : A) h (Q : A → heap → Prop) : Q a h → does (mret a) h Q.
Proof. done. Qed.

Lemma does_bind {A B} (m : M A) (k : A → M B) h (Q : B → heap → Prop) :
  does m h (λ a h', does (k a) h' Q) → does (m ≫= k) h Q.
Proof. unfold does, mbind, M_bind. by destruct (m h) as [[a|e|] h']. Qed.

Lemma does_mono {A} (m : M A) h (Q Q' : A → heap → Prop) : does m h Q → (∀ a h', Q a h' → Q' a h') → does m h Q'.
Proof. unfold does. destruct (m h) as [[a|e|] h']; naive_solver. Qed.

(** The results of a computation that only reads. *)
Lemma does_eq {A} (m : M A) h a h' (Q : A → heap → Prop) : m h = (Ret a, h') → Q a h' → does m h Q.
Proof. unfold does. by intros ->. Qed.

Lemma does_inv {A} (m : M A) h (Q : A → heap → Prop) : does m h Q → ∃ a h', m h = (Ret a, h') ∧ Q a h'.
Proof. unfold does. destruct (m h) as [[a|e|] h']; naive_solver. Qed.

Lemma does_forUp (n : nat) (k : Z) (body : Z → M unit) h (I : Z → heap → Prop) (Q : unit → heap → Prop) :
  I k h →
  (∀ j h, k ≤ j < k + Z.of_nat n → I j h → does (body j) h (λ _, I (j + 1))) →
  (∀ h, I (k + Z.of_nat n) h → Q () h) →
  does (forUp n k body) h Q.
Proof.
  revert k h. induction n as [|n IH]; intros k h HI Hb HQ.
  - apply does_ret, HQ. by rewrite Z.add_0_r.
  - cbn [forUp]. apply does_bind. eapply does_mono; [apply (Hb k); [lia|done]|]. intros [] h1 H1.
    apply IH; [done| |].
    + intros j h2 Hj. apply Hb. lia.
    + intros h2 H2. apply HQ. replace (k + Z.of_nat (S n)) with (k + 1 + Z.of_nat n) by lia. done.
Qed.

Lemma does_forRange (lo hi : Z) (body : Z → M unit) h (I : Z → heap → Prop) (Q : unit → heap → Prop) :
  lo ≤ hi → I lo h →
  (∀ j h, lo ≤ j < hi → I j h → does (body j) h (λ _, I (j + 1))) →
  (∀ h, I hi h → Q () h) →
  does (forRange lo hi body) h Q.
Proof.
  intros Hle HI Hb HQ. unfold forRange. eapply (does_forUp _ _ _ _ I); [done| |].
  - intros j h1 Hj. apply Hb. lia.
  - intros h1. replace (lo + Z.of_nat (Z.to_nat (hi - lo))) with hi by lia. apply HQ.
Qed.

Lemma forRange_empty (lo hi : Z) (body : Z → M unit) : hi ≤ lo → forRange lo hi body = mret ().
Proof. intros Hle. unfold forRange. by replace (Z.to_nat (hi - lo)) with 0%nat by lia. Qed.

(** [I j]: the indices from [j] on are done. *)
Lemma does_forRangeDown (hi lo : Z) (body : Z → M unit) h (I : Z → heap → Prop) (Q : unit → heap → Prop) :
  lo ≤ hi → I hi h →
  (∀ j h, lo ≤ j < hi → I (j + 1) h → does (body j) h (λ _, I j)) →
  (∀ h, I lo h → Q () h) →
  does (forRangeDown hi lo body) h Q.
Proof.
  intros Hle HI Hb HQ. unfold forRangeDown. remember (Z.to_nat (hi - lo)) as n eqn:Hn. revert hi h Hle HI Hb Hn.
  induction n as [|n IH]; intros hi h Hle HI Hb Hn.
  - apply does_ret, HQ. by replace lo with hi by lia.
  - cbn [forDown]. apply does_bind. eapply does_mono.
    + apply (Hb (hi - 1)); [lia|]. by replace (hi - 1 + 1) with hi by lia.
    + intros [] h1 H1. apply IH; [lia|done| |lia]. intros j h2 Hj. apply Hb. lia.
Qed.

Lemma does_forEachM {A} (i : Z) (xs : list A) (body : Z → A → M unit) h (I : list A → heap → Prop) (Q : unit → heap → Prop) :
  I [] h →
  (∀ pre x h, pre ++ [x] `prefix_of` xs → I pre h → does (body (i + Z.of_nat (length pre)) x) h (λ _, I (pre ++ [x]))) →
  (∀ h, I xs h → Q () h) →
  does (forEachM i xs body) h Q.
Proof.
  intros HI Hb HQ. assert (∀ suf pre h, xs = pre ++ suf → I pre h → does (forEachM (i + Z.of_nat (length pre)) suf body) h Q) as Hgo.
  { intros suf. induction suf as [|x suf IH]; intros pre h1 -> H1; cbn [forEachM].
    - apply does_ret, HQ. by rewrite app_nil_r.
    - apply does_bind. eapply does_mono; [apply (Hb pre x); [|done]|].
      + exists suf. by rewrite <- app_assoc.
      + intros [] h2 H2. assert ((pre ++ x :: suf) = (pre ++ [x]) ++ suf) as Heq by (by rewrite <- app_assoc).
        specialize (IH (pre ++ [x]) h2 Heq H2). rewrite length_app in IH. cbn in IH.
        by replace (i + Z.of_nat (length pre) + 1) with (i + Z.of_nat (length pre + 1)) by lia. }
  specialize (Hgo xs [] h eq_refl HI). by rewrite Z.add_0_r in Hgo.
Qed.

(** ** Lists of elements *)

Definition plainProp (v : Value) : specProp := SData v true true true.
Abbreviation elems := (list (option Value)).

Definition elemsMap (L : elems) : gmap Z specProp := omap (fmap plainProp) (map_seqZ 0 L : gmap Z (option Value)).
Definition specOf (L : elems) : Arrays.specArray := Arrays.MkSpec (elemsMap L) (Z.of_nat (length L)) true true.

(** The element at an index, [None] for a hole or beyond the end. *)
Definition at_ (L : elems) (i : Z) : option Value := if 0 <=? i then mjoin (L !! Z.to_nat i) else None.

Lemma elemsMap_lookup L i : elemsMap L !! i = plainProp <$> at_ L i.
Proof.
  unfold elemsMap, at_. rewrite lookup_omap, lookup_map_seqZ. rewrite Z.sub_0_r.
  destruct (Z.leb_spec 0 i); [rewrite option_guard_True by lia|rewrite option_guard_False by lia; done].
  cbn. by destruct (L !! Z.to_nat i) as [[v|]|].
Qed.

(** Assigning an element, possibly beyond the end. *)
Definition setElem (L : elems) (i : Z) (v : Value) : elems :=
  if i <? Z.of_nat (length L) then <[Z.to_nat i := Some v]> L
  else L ++ replicate (Z.to_nat i - length L) None ++ [Some v].
Definition delElem (L : elems) (i : Z) : elems := <[Z.to_nat i := None]> L.

Lemma setElem_length L i v : 0 ≤ i → Z.of_nat (length (setElem L i v)) = Z.max (Z.of_nat (length L)) (i + 1).
Proof.
  intros Hi. unfold setElem. destruct (Z.ltb_spec i (Z.of_nat (length L))); rewrite ?length_insert, ?length_app, ?length_replicate; cbn; lia.
Qed.

Lemma at_setElem L i v j : 0 ≤ i → at_ (setElem L i v) j = if j =? i then Some v else at_ L j.
Proof.
  intros Hi. unfold setElem, at_. destruct (Z.ltb_spec i (Z.of_nat (length L))) as [Hlt|Hge].
  - destruct (Z.eqb_spec j i) as [->|Hne]; [zcmp; by rewrite list_lookup_insert_eq by lia|].
    destruct (Z.leb_spec 0 j); [|done]. by rewrite list_lookup_insert_ne by lia.
  - destruct (Z.leb_spec 0 j) as [Hj|Hj]; [|by zcmp].
    destruct (decide (Z.to_nat j < length L)%nat); [rewrite lookup_app_l by done; zcmp; done|].
    rewrite lookup_app_r by lia. rewrite (lookup_ge_None_2 L) by lia. cbn.
    destruct (Z.eqb_spec j i) as [->|Hne].
    + rewrite lookup_app_r by (rewrite length_replicate; lia). rewrite length_replicate.
      by replace (Z.to_nat i - length L - (Z.to_nat i - length L))%nat with 0%nat by lia.
    + destruct (decide (j < i)).
      * rewrite lookup_app_l by (rewrite length_replicate; lia). by rewrite lookup_replicate_2 by lia.
      * rewrite lookup_ge_None_2; [done|]. rewrite length_app, length_replicate. cbn. lia.
Qed.

Lemma at_delElem L i j : 0 ≤ i → at_ (delElem L i) j = if j =? i then None else at_ L j.
Proof.
  intros Hi. unfold delElem, at_. destruct (Z.leb_spec 0 j) as [Hj|Hj]; [|by zcmp].
  destruct (Z.eqb_spec j i) as [->|Hne].
  - destruct (decide (Z.to_nat i < length L)%nat); [by rewrite list_lookup_insert_eq|].
    rewrite lookup_ge_None_2; [done|]. rewrite length_insert. lia.
  - by rewrite list_lookup_insert_ne by lia.
Qed.

Lemma at_resize L n j : 0 ≤ n → at_ (resize (Z.to_nat n) None L) j = if j <? n then at_ L j else None.
Proof.
  intros Hn. unfold at_. destruct (Z.leb_spec 0 j) as [Hj|Hj]; [|by zcmp]. destruct (Z.ltb_spec j n) as [Hlt|Hge].
  - destruct (decide (Z.to_nat j < length L)%nat); [by rewrite lookup_resize by lia|].
    rewrite lookup_resize_new by lia. by rewrite lookup_ge_None_2 by lia.
  - by rewrite lookup_resize_old by lia.
Qed.

Lemma elemsMap_ext L (m : gmap Z specProp) : (∀ i, m !! i = plainProp <$> at_ L i) → m = elemsMap L.
Proof. intros Hm. apply map_eq. intros i. by rewrite Hm, elemsMap_lookup. Qed.

Lemma at_ge L i : Z.of_nat (length L) ≤ i → at_ L i = None.
Proof. intros Hi. unfold at_. destruct (0 <=? i); [|done]. by rewrite lookup_ge_None_2 by lia. Qed.

(** Lists with the same length and elements. *)
Lemma elems_ext (L L' : elems) : length L = length L' → (∀ i, 0 ≤ i < Z.of_nat (length L) → at_ L i = at_ L' i) → L = L'.
Proof.
  intros Hl Ha. apply list_eq. intros i. destruct (decide (i < length L)%nat) as [Hi|Hi].
  - specialize (Ha (Z.of_nat i) ltac:(lia)). unfold at_ in Ha. rewrite (proj2 (Z.leb_le 0 _)), Nat2Z.id in Ha by lia.
    destruct (lookup_lt_is_Some_2 L i Hi) as [x Hx]. destruct (lookup_lt_is_Some_2 L' i) as [y Hy]; [lia|].
    rewrite Hx, Hy in *. cbn in Ha. by rewrite Ha.
  - by rewrite !lookup_ge_None_2 by lia.
Qed.

(** *** No operation of an array changes its prototype *)

Definition protoOf (x : Arrays.arrayImpl) : option positive := prototype (Arrays.arrayBase x).

Lemma put_prototype o name v : prototype (_put o name v) = prototype o.
Proof. unfold _put. by destruct (values o !! name). Qed.

Lemma array_setLengthInt_base a l t : Arrays.base (Arrays.array_setLengthInt a l t).1 = Arrays.base a.
Proof. unfold Arrays.array_setLengthInt, Arrays.array_setLengthInt_. by repeat case_match. Qed.
Lemma sparse_setLengthInt_base a l t : Arrays.sbase (Arrays.sparse_setLengthInt a l t).1 = Arrays.sbase a.
Proof. unfold Arrays.sparse_setLengthInt, Arrays.sparse_setLengthInt_. by repeat case_match. Qed.
Lemma array_setLength_base a l t : Arrays.base (Arrays.array_setLength a l t).1 = Arrays.base a.
Proof. unfold Arrays.array_setLength, Arrays.array_setLengthInt_. by repeat case_match. Qed.
Lemma sparse_setLength_base a l t : Arrays.sbase (Arrays.sparse_setLength a l t).1 = Arrays.sbase a.
Proof. unfold Arrays.sparse_setLength, Arrays.sparse_setLengthInt_. by repeat case_match. Qed.

Lemma array_expand_prototype a i :
  match Arrays.array_expand a i with
  | inl a' => prototype (Arrays.base a') = prototype (Arrays.base a)
  | inr s => prototype (Arrays.sbase s) = prototype (Arrays.base a)
  end.
Proof. unfold Arrays.array_expand. repeat case_match; simplify_eq; cbn; rewrite ?put_prototype; done. Qed.

Lemma sparse_expand_prototype a i :
  match Arrays.sparse_expand a i with
  | inl a' => prototype (Arrays.sbase a') = prototype (Arrays.sbase a)
  | inr s => prototype (Arrays.base s) = prototype (Arrays.sbase a)
  end.
Proof. unfold Arrays.sparse_expand. repeat case_match; simplify_eq; cbn; rewrite ?put_prototype; done. Qed.

(** Growing the length first, when the index is beyond it. *)
Lemma array_grow_base a i t :
  Arrays.base (if Arrays.alength a <=? i then Arrays.array_setLengthInt a (uwrap 32 (i + 1)) t else (a, Arrays.Done true)).1
  = Arrays.base a.
Proof. case_match; [apply array_setLengthInt_base|done]. Qed.
Lemma sparse_grow_base a i t :
  Arrays.sbase (if Arrays.slength a <=? i then Arrays.sparse_setLengthInt a (uwrap 32 (i + 1)) t else (a, Arrays.Done true)).1
  = Arrays.sbase a.
Proof. case_match; [apply sparse_setLengthInt_base|done]. Qed.

Lemma arr_setOwnIdx_prototype x i v : protoOf (arr_setOwnIdx x i v).1 = protoOf x.
Proof.
  destruct x as [a|a]; cbn [arr_setOwnIdx]; unfold protoOf.
  - unfold Arrays.array_setOwnIdx. pose proof (array_grow_base a i true) as Hg. destruct (if Arrays.alength a <=? i then _ else _) as [a1 o]. cbn in Hg.
    pose proof (array_expand_prototype a1 i) as He. repeat case_match; simplify_eq; cbn; congruence.
  - unfold Arrays.sparse_setOwnIdx. pose proof (sparse_grow_base a i true) as Hg. destruct (if Arrays.slength a <=? i then _ else _) as [a1 o]. cbn in Hg.
    pose proof (sparse_expand_prototype a1 i) as He. repeat case_match; simplify_eq; cbn; congruence.
Qed.

Section define.
Context (se : positive → positive → bool) (cb : positive → bool).

Definition arr_define (x : Arrays.arrayImpl) (i : Z) (d : PropertyDescriptor) : Arrays.arrayImpl * Arrays.outcome :=
  match x with
  | Arrays.Dense a => Arrays.array_defineIdxProperty se cb a i d true
  | Arrays.Sparse a => Arrays.sparse_defineIdxProperty se cb a i d true
  end.

Lemma arr_define_prototype x i d : protoOf (arr_define x i d).1 = protoOf x.
Proof.
  destruct x as [a|a]; cbn [arr_define]; unfold protoOf.
  - unfold Arrays.array_defineIdxProperty. pose proof (array_grow_base a i true) as Hg. destruct (if Arrays.alength a <=? i then _ else _) as [a1 o]. cbn in Hg.
    pose proof (array_expand_prototype a1 i) as He. repeat case_match; simplify_eq; cbn; congruence.
  - unfold Arrays.sparse_defineIdxProperty. pose proof (sparse_grow_base a i true) as Hg. destruct (if Arrays.slength a <=? i then _ else _) as [a1 o]. cbn in Hg.
    pose proof (sparse_expand_prototype a1 i) as He. repeat case_match; simplify_eq; cbn; congruence.
Qed.
End define.

Definition arr_delete (x : Arrays.arrayImpl) (i : Z) : Arrays.arrayImpl * Arrays.outcome :=
  match x with
  | Arrays.Dense a => Arrays.dense_ (Arrays.array_deleteIdxProp a i true)
  | Arrays.Sparse a => Arrays.sparse_ (Arrays.sparse_deleteIdxProp a i true)
  end.
Lemma arr_delete_prototype x i : protoOf (arr_delete x i).1 = protoOf x.
Proof.
  destruct x as [a|a]; cbn [arr_delete]; unfold protoOf, Arrays.array_deleteIdxProp, Arrays.sparse_deleteIdxProp;
    by repeat case_match.
Qed.

Definition arr_setLength (x : Arrays.arrayImpl) (l : Z) : Arrays.arrayImpl * Arrays.outcome :=
  match x with
  | Arrays.Dense a => Arrays.dense_ (Arrays.array_setLength a l true)
  | Arrays.Sparse a => Arrays.sparse_ (Arrays.sparse_setLength a l true)
  end.
Lemma arr_setLength_prototype x l : protoOf (arr_setLength x l).1 = protoOf x.
Proof. destruct x as [a|a]; unfold protoOf; cbn; [by rewrite array_setLength_base|by rewrite sparse_setLength_base]. Qed.

(** *** The operations on lists of elements *)

Abbreviation Holds x L := (Arrays.Rep x (specOf L)).

Lemma Holds_specEq x sp L :
  Arrays.Rep x sp → (∀ i, Arrays.sElems sp !! i = plainProp <$> at_ L i) → Arrays.sLen sp = Z.of_nat (length L) →
  Arrays.sLenW sp = true → Arrays.sExt sp = true → Holds x L.
Proof. destruct sp as [m l w e]. cbn. intros HR ->%elemsMap_ext -> -> ->. done. Qed.

Lemma Holds_length x L : Holds x L → Arrays.arrayLength x = Z.of_nat (length L).
Proof. intros HR. symmetry. apply (Arrays.rep_len _ _ HR). Qed.

Lemma Holds_max x L : Holds x L → Z.of_nat (length L) ≤ MaxUint32.
Proof. intros HR. rewrite <- (Holds_length _ _ HR). apply Arrays.arrayLength_range, (Arrays.rep_inv _ _ HR). Qed.

(** A stored slot is an enumerable, writable, configurable data property. *)
Lemma Holds_get x L i :
  Holds x L → 0 ≤ i →
  match Arrays.arrayGet x i with
  | Some s => ∃ v, at_ L i = Some v ∧ propGet s = inl v
  | None => at_ L i = None
  end.
Proof.
  intros HR Hi. pose proof (Arrays.rep_inv _ _ HR) as HI. rewrite Arrays.arrayGet_elem by done.
  pose proof (Arrays.rep_elems _ _ HR i) as He. cbn in He. rewrite elemsMap_lookup in He.
  destruct (Arrays.elemAt x i) as [s|] eqn:Es; cbn in He.
  - destruct (at_ L i) as [v|]; [|done]. injection He as He. exists v. split; [done|].
    destruct (Arrays.elemAt_bound x i s HI Es) as [_ Hwf]. pose proof (propAccess_spec s v Hwf) as Hp. rewrite <- He in Hp. apply Hp.
  - by destruct (at_ L i).
Qed.

Lemma arr_setOwnIdx_Holds x L i v :
  Holds x L → 0 ≤ i < MaxUint32 → ∃ x', arr_setOwnIdx x i v = (x', Arrays.Done true) ∧ Holds x' (setElem L i v).
Proof.
  intros HR Hi. destruct (Arrays.set_refines (λ _ _, false) (λ _, true) (λ _, Ok 0) x _ i v true None HR Hi) as (sp' & so & Hs & HR' & Hrep).
  assert (Arrays.arrayStep (λ _ _, false) (λ _, true) (λ _, Ok 0) x (Arrays.OSet i v true None) = arr_setOwnIdx x i v) as Hstep by (by destruct x).
  rewrite Hstep in *. clear Hstep. destruct (arr_setOwnIdx x i v) as [x' o]. cbn [fst snd] in *.
  assert (so = Arrays.SOk ∧ (∀ j, Arrays.sElems sp' !! j = plainProp <$> at_ (setElem L i v) j) ∧
    Arrays.sLen sp' = Z.of_nat (length (setElem L i v)) ∧ Arrays.sLenW sp' = true ∧ Arrays.sExt sp' = true) as (-> & H1 & H2 & H3 & H4).
  { unfold Arrays.specSet, specOf, Arrays.specDefine, validateAndApply in Hs. cbn in Hs. rewrite elemsMap_lookup in Hs.
    rewrite andb_false_r in Hs. rewrite setElem_length by lia.
    destruct (at_ L i) as [w|] eqn:Ew; cbn in Hs; injection Hs as <- <-; cbn; (split; [done|]); (split; [|done]);
      intros j; rewrite at_setElem by lia; (destruct (Z.eqb_spec j i) as [->|Hne];
        [by rewrite lookup_insert_eq|by rewrite lookup_insert_ne, elemsMap_lookup]). }
  exists x'. split; [by rewrite Hrep|]. by apply (Holds_specEq x' sp').
Qed.

Lemma arr_delete_Holds x L i :
  Holds x L → 0 ≤ i < MaxUint32 → ∃ x', arr_delete x i = (x', Arrays.Done true) ∧ Holds x' (delElem L i).
Proof.
  intros HR Hi. destruct (Arrays.delete_refines (λ _ _, false) (λ _, true) (λ _, Ok 0) x _ i true HR Hi) as (sp' & so & Hs & HR' & Hrep).
  assert (Arrays.arrayStep (λ _ _, false) (λ _, true) (λ _, Ok 0) x (Arrays.ODelete i true) = arr_delete x i) as Hstep by (by destruct x).
  rewrite Hstep in *. clear Hstep. destruct (arr_delete x i) as [x' o]. cbn [fst snd] in *.
  assert (so = Arrays.SOk ∧ (∀ j, Arrays.sElems sp' !! j = plainProp <$> at_ (delElem L i) j) ∧
    Arrays.sLen sp' = Z.of_nat (length (delElem L i)) ∧ Arrays.sLenW sp' = true ∧ Arrays.sExt sp' = true) as (-> & H1 & H2 & H3 & H4).
  { unfold Arrays.specDelete, specOf in Hs. cbn in Hs. rewrite elemsMap_lookup in Hs. unfold delElem at 2. rewrite length_insert.
    destruct (at_ L i) as [w|] eqn:Ew; cbn in Hs; injection Hs as <- <-; cbn; (split; [done|]); (split; [|done]);
      intros j; rewrite at_delElem by lia; (destruct (Z.eqb_spec j i) as [->|Hne];
        [by rewrite ?lookup_delete_eq, ?elemsMap_lookup, ?Ew|by rewrite ?lookup_delete_ne, elemsMap_lookup]). }
  exists x'. split; [by rewrite Hrep|]. by apply (Holds_specEq x' sp').
Qed.

Lemma arr_setLength_Holds x L n :
  Holds x L → 0 ≤ n ≤ MaxUint32 → ∃ x', arr_setLength x n = (x', Arrays.Done true) ∧ Holds x' (resize (Z.to_nat n) None L).
Proof.
  intros HR Hn.
  assert (∃ x' l' (ok : bool), Arrays.specShrink (elemsMap L) n l' ok ∧
    arr_setLength x n = (x', if ok then Arrays.Done true else Arrays.reject true "Cannot redefine property: length") ∧
    Arrays.Rep x' (Arrays.MkSpec (Arrays.below (elemsMap L) l') l' true true)) as (x' & l' & ok & Hsh & He & HR').
  { destruct x as [a|a];
      [destruct (@Arrays.setLength_rep Arrays.arrayObject Arrays.arrayLengthRep Arrays.arrayLengthRepLaws a (specOf L) n true HR Hn eq_refl) as (a' & l' & ok & H1 & H2 & H3)
      |destruct (@Arrays.setLength_rep Arrays.sparseArrayObject Arrays.sparseLengthRep Arrays.sparseLengthRepLaws a (specOf L) n true HR Hn eq_refl) as (a' & l' & ok & H1 & H2 & H3)];
      (eexists _, l', ok; split; [exact H1|]; split; [|exact H3]); cbn in *; rewrite H2; done. }
  destruct Hsh as [Hall|k p Hk Hle Hc _].
  - exists x'. split; [done|]. apply (Holds_specEq x' _ _ HR'); cbn; [|rewrite length_resize; lia|done..].
    intros i. rewrite Arrays.below_lookup, at_resize, elemsMap_lookup by lia. by destruct (i <? n).
  - rewrite elemsMap_lookup in Hk. destruct (at_ L k); [|done]. by injection Hk as <-.
Qed.

Lemma arr_define_Holds se cb x L i v :
  (∀ p q, cb p = true → se p q = true → p = q) →
  Holds x L → 0 ≤ i < MaxUint32 →
  ∃ x', arr_define se cb x i (dataDesc (Some v)) = (x', Arrays.Done true) ∧ Holds x' (setElem L i v).
Proof.
  intros Hid HR Hi. assert (Arrays.okOp cb (λ _, Ok 0) x (Arrays.ODefine i (dataDesc (Some v)) true)) as Hok.
  { split; [done|]. split; [by split|]. split; [|done]. intros s _. unfold keepsGetter, keepsWritable. cbn. by rewrite !andb_false_r. }
  destruct (Arrays.define_refines se cb (λ _, Ok 0) Hid x _ i (dataDesc (Some v)) true HR Hok) as (sp' & so & Hs & HR' & Hrep).
  assert (Arrays.arrayStep se cb (λ _, Ok 0) x (Arrays.ODefine i (dataDesc (Some v)) true) = arr_define se cb x i (dataDesc (Some v))) as Hstep by (by destruct x).
  rewrite Hstep in *. clear Hstep Hok. destruct (arr_define se cb x i _) as [x' o]. cbn [fst snd] in *.
  assert (so = Arrays.SOk ∧ (∀ j, Arrays.sElems sp' !! j = plainProp <$> at_ (setElem L i v) j) ∧
    Arrays.sLen sp' = Z.of_nat (length (setElem L i v)) ∧ Arrays.sLenW sp' = true ∧ Arrays.sExt sp' = true) as (-> & H1 & H2 & H3 & H4).
  { unfold specOf, Arrays.specDefine, validateAndApply in Hs. cbn in Hs. rewrite elemsMap_lookup in Hs.
    rewrite andb_false_r in Hs. rewrite setElem_length by lia.
    destruct (at_ L i) as [w|] eqn:Ew; cbn in Hs; injection Hs as <- <-; cbn; (split; [done|]); (split; [|done]);
      intros j; rewrite at_setElem by lia; (destruct (Z.eqb_spec j i) as [->|Hne];
        [by rewrite lookup_insert_eq|by rewrite lookup_insert_ne, elemsMap_lookup]). }
  exists x'. split; [by rewrite Hrep|]. by apply (Holds_specEq x' sp').
Qed.

(** *** The slice of a dense array *)

Definition cellsOf (L : elems) : cells := (λ o : option Value, Raw <$> o) <$> (L : list (option Value)).

Lemma length_cellsOf L : length (cellsOf L) = length L.
Proof. apply length_fmap. Qed.
Lemma cellsOf_app L L' : cellsOf (L ++ L') = cellsOf L ++ cellsOf L'.
Proof. apply fmap_app. Qed.
Lemma cellsOf_None n : cellsOf (replicate n None) = replicate n None.
Proof. unfold cellsOf. by rewrite fmap_replicate. Qed.
Lemma cellsOf_raw vs : cellsOf (Some <$> vs) = raw <$> vs.
Proof. unfold cellsOf. by rewrite <- list_fmap_compose. Qed.
Lemma take_cellsOf n L : take n (cellsOf L) = cellsOf (take n L).
Proof. symmetry. apply fmap_take. Qed.
Lemma drop_cellsOf n L : drop n (cellsOf L) = cellsOf (drop n L).
Proof. symmetry. apply fmap_drop. Qed.

Lemma countP_cellsOf L : Arrays.countP (cellsOf L) = 0.
Proof. induction L as [|[v|] L IH]; [done|..]; (change (0 + Arrays.countP (cellsOf L) = 0); lia). Qed.

Lemma atIdx_cellsOf L i : Arrays.atIdx (cellsOf L) i = Raw <$> at_ L i.
Proof.
  unfold Arrays.atIdx, at_, cellsOf. destruct (0 <=? i); [|done]. rewrite list_lookup_fmap. by destruct (L !! Z.to_nat i) as [[v|]|].
Qed.

Lemma Holds_dense a L :
  Arrays.avalues a = cellsOf L → (Arrays.vlen a ≤ length (Arrays.backing a))%nat →
  Z.of_nat (length (Arrays.backing a)) ≤ MaxInt64 → Forall (λ o, o = None) (drop (Arrays.vlen a) (Arrays.backing a)) →
  Arrays.alength a = Z.of_nat (length L) → Z.of_nat (length L) ≤ MaxUint32 → 0 ≤ Arrays.propValueCount a →
  Arrays.lengthWritable a = true → extensible (Arrays.base a) = true → Holds (Arrays.Dense a) L.
Proof.
  intros Hv Hc Hint Hd Hl Hm Hp Hw He. assert (Arrays.vlen a = length L) as Hn.
  { pose proof (f_equal length Hv) as Hlen. unfold Arrays.avalues in Hlen. rewrite length_take, length_cellsOf in Hlen. lia. }
  split; cbn [Arrays.sElems Arrays.sLen Arrays.sLenW Arrays.sExt specOf Arrays.arrayLength Arrays.arrayLengthWritable Arrays.arrayBase].
  - split; try done; rewrite ?Hv, ?countP_cellsOf; try done; [lia|].
    intros i s. unfold cellsOf. rewrite list_lookup_fmap. destruct (L !! i) as [[v|]|]; cbn; [by intros [= <-]|done..].
  - intros i. cbn [Arrays.elemAt]. rewrite Hv, atIdx_cellsOf, elemsMap_lookup. by destruct (at_ L i).
  - done.
  - done.
  - done.
Qed.

(** What the check for the direct paths gives. *)
Record Std (a : Arrays.arrayObject) (L : elems) : Prop := {
  std_cells : Arrays.avalues a = cellsOf L;
  std_vlen : Arrays.vlen a = length L;
  std_cap : (length L ≤ length (Arrays.backing a))%nat;
  std_int : Z.of_nat (length (Arrays.backing a)) ≤ MaxInt64;
  std_tail : Forall (λ o, o = None) (drop (length L) (Arrays.backing a));
  std_len : Arrays.alength a = Z.of_nat (length L);
  std_max : Z.of_nat (length L) ≤ MaxUint32;
  std_count : Arrays.propValueCount a = 0;
  std_writable : Arrays.lengthWritable a = true;
  std_ext : extensible (Arrays.base a) = true;
}.

Lemma Holds_std a L : Holds (Arrays.Dense a) L → stdCond a = true → Std a L.
Proof.
  intros HR [[Hp Hl]%andb_prop Ho]%andb_prop. apply Z.eqb_eq in Hp, Hl. pose proof (Arrays.rep_inv _ _ HR) as HI.
  pose proof (Holds_max _ _ HR) as Hm. pose proof (Holds_length _ _ HR) as Hlen. cbn in Hlen, HI.
  rewrite (Arrays.u32_vlen a HI) in Hl. pose proof (Arrays.length_avalues a HI) as Hav. destruct HI as [I1 I2 I3 I4 I5 I6].
  assert (Arrays.vlen a = length L) as Hn by lia.
  assert (Arrays.avalues a = cellsOf L) as Hc.
  { apply list_eq. intros i. pose proof (Arrays.rep_elems _ _ HR (Z.of_nat i)) as He. cbn in He.
    rewrite elemsMap_lookup in He. unfold at_, Arrays.atIdx in He. rewrite (proj2 (Z.leb_le 0 (Z.of_nat i))), Nat2Z.id in He by lia.
    unfold cellsOf. rewrite list_lookup_fmap. destruct (decide (i < length L)%nat) as [Hi|Hi].
    - destruct (lookup_lt_is_Some_2 L i Hi) as [x Hx]. destruct (lookup_lt_is_Some_2 (Arrays.avalues a) i) as [c Hc]; [lia|].
      rewrite Hx, Hc in *. cbn in He |- *. f_equal. destruct c as [[v|pr]|].
      + destruct x as [w|]; cbn in *; [|done]. unfold plainProp, abs in He. cbn in He. by injection He as ->.
      + assert (Arrays.isProp (Prop_ pr) = false) as Hpp by (apply (Arrays.countP_zero (Arrays.avalues a) i); [lia|done]). done.
      + by destruct x.
    - rewrite (lookup_ge_None_2 L) by lia. apply lookup_ge_None_2. lia. }
  split; try done; [lia|by rewrite <- Hn|exact (eq_sym (Arrays.rep_lenW _ _ HR))|exact (eq_sym (Arrays.rep_ext _ _ HR))].
Qed.

(** ** The heap *)

(** The struct of the object [o] has its slice in the backing array [q]. *)
Definition ownsArray (h : heap) (o q : positive) : Prop :=
  ∃ p s, selfs h !! o = Some (SDense p) ∧ structs h !! p = Some s ∧ sptr (stValues s) = q.

(** Addresses are below [next] and [nextArr]; no two objects share a struct or a
    backing array. *)
Record WfHeap (h : heap) : Prop := {
  wf_next : ∀ o s, selfs h !! o = Some s → (o < next h)%positive;
  wf_dense : ∀ o p, selfs h !! o = Some (SDense p) → (p < next h)%positive ∧ is_Some (structAt h p);
  wf_inj : ∀ o o' p, selfs h !! o = Some (SDense p) → selfs h !! o' = Some (SDense p) → o = o';
  wf_arr : ∀ o q, ownsArray h o q → (q < nextArr h)%positive;
  wf_alone : ∀ o o' q, ownsArray h o q → ownsArray h o' q → o = o';
}.

(** [h'] differs from [h] in the object [o] at most, which may be new. *)
Record Only (o : positive) (h h' : heap) : Prop := {
  only_self : ∀ o', o' ≠ o → selfs h' !! o' = selfs h !! o';
  only_struct : ∀ o' p, o' ≠ o → selfs h !! o' = Some (SDense p) → structAt h' p = structAt h p;
  only_none : ∀ q, selfs h !! q = None → (q < next h)%positive → selfs h' !! q = None;
  only_next : (next h ≤ next h')%positive;
}.

#[global] Instance Only_preorder o : PreOrder (Only o).
Proof.
  split; [by split|]. intros h1 h2 h3 [A0 A1 A2 A3] [B0 B1 B2 B3]. split.
  - intros o' Ho. by rewrite B0, A0.
  - intros o' p Ho Hp. rewrite (B1 o'), (A1 o') by (done || by rewrite A0). done.
  - intros q Hq Hn. apply B2; [by apply A2|lia].
  - lia.
Qed.

Lemma only_impl o h h' o' : Only o h h' → o' ≠ o → implOf h' o' = implOf h o'.
Proof.
  intros [O1 O2 _ _] Hne. unfold implOf. rewrite O1 by done. destruct (selfs h !! o') as [[p| |]|] eqn:E; try done. by rewrite (O2 o').
Qed.

(** *** Stores *)

Lemma loaded_header a q : loaded (header a q) (Arrays.backing a) = a.
Proof. by destruct a. Qed.

Lemma structAt_inv h p a :
  structAt h p = Some a →
  ∃ s back, structs h !! p = Some s ∧ arrays h !! sptr (stValues s) = Some back ∧ a = loaded s back.
Proof.
  unfold structAt. intros (s & Hs & (back & Hb & [= <-])%bind_Some)%bind_Some. by exists s, back.
Qed.

Lemma structAt_store h p q a : structAt (storeAt h p q a) p = Some a.
Proof.
  unfold structAt, storeAt. cbn. rewrite lookup_insert_eq. cbn. rewrite lookup_insert_eq. cbn. by rewrite loaded_header.
Qed.

(** A store does not change a struct with another backing array. *)
Lemma structAt_store_ne h p q a p' :
  p' ≠ p → (∀ s, structs h !! p' = Some s → sptr (stValues s) ≠ q) → structAt (storeAt h p q a) p' = structAt h p'.
Proof.
  intros Hp Hq. unfold structAt, storeAt. cbn. rewrite lookup_insert_ne by done.
  destruct (structs h !! p') as [s|] eqn:Es; [|done]. cbn. by rewrite lookup_insert_ne by (symmetry; by apply Hq).
Qed.

(** The object [o], with its struct at [p] and its slice in the backing array [q],
    both of no other object, becomes the array [a]. *)
Lemma setDense_heap h o p q a nx :
  WfHeap h → (next h ≤ nx)%positive → (o < nx)%positive → (p < nx)%positive →
  is_Some (selfs h !! o) ∨ (next h ≤ o)%positive →
  (∀ o', selfs h !! o' = Some (SDense p) → o' = o) → (∀ o', ownsArray h o' q → o' = o) →
  let h' := storeAt (Heap (<[o := SDense p]> (selfs h)) (structs h) (arrays h) nx (nextArr h)) p q a in
  WfHeap h' ∧ Only o h h' ∧ structAt h' p = Some a.
Proof.
  intros [W1 W2 W3 W4 W5] Hnx Ho Hp Hor Hpo Hqo. cbn zeta. set (h' := storeAt _ p q a).
  assert (∀ o' p', o' ≠ o → selfs h !! o' = Some (SDense p') → p' ≠ p ∧ structs h' !! p' = structs h !! p' ∧ structAt h' p' = structAt h p') as Hother.
  { intros o' p' Hne Ho'. assert (p' ≠ p) as Hpp by (intros ->; by apply Hne, Hpo). split; [done|]. split.
    - unfold h', storeAt. cbn. by rewrite lookup_insert_ne.
    - unfold h'. rewrite structAt_store_ne; [done|done|]. cbn. intros s Hs Hsq. apply Hne, Hqo. by exists p', s. }
  assert (∀ o' q', ownsArray h' o' q' → o' = o ∧ q' = q ∨ o' ≠ o ∧ ownsArray h o' q') as Howns.
  { intros o' q' (p' & s & H1 & H2 & H3). unfold h' in H1. cbn in H1. apply lookup_insert_Some in H1 as [[<- [= <-]]|[Hne H1]].
    - left. unfold h', storeAt in H2. cbn in H2. rewrite lookup_insert_eq in H2. injection H2 as <-. cbn in H3. done.
    - right. split; [done|]. destruct (Hother o' p') as (_ & He & _); [done..|]. rewrite He in H2. by exists p', s. }
  split; [split|split; [split|]].
  - intros o1 s1. cbn. rewrite lookup_insert_Some. intros [[<- _]|[_ H1]]; [done|]. specialize (W1 _ _ H1). lia.
  - intros o1 p1. cbn [h' storeAt selfs next]. rewrite lookup_insert_Some. intros [[<- [= <-]]|[Hne H1]].
    + split; [done|]. unfold h'. rewrite structAt_store. by eexists.
    + destruct (Hother o1 p1) as (_ & _ & ->); [done..|]. destruct (W2 _ _ H1). split; [lia|done].
  - intros o1 o2 p1. cbn. rewrite !lookup_insert_Some. intros [[<- ?]|[? H1]] [[<- ?]|[? H2]]; simplify_eq; try done;
      [by rewrite (Hpo _ H2)|by rewrite (Hpo _ H1)|by eapply W3].
  - intros o1 q1 [[-> ->]|[_ H1]]%Howns; cbn; [lia|]. specialize (W4 _ _ H1). lia.
  - intros o1 o2 q1 [[-> ->]|[N1 H1]]%Howns [[-> E]|[N2 H2]]%Howns; subst; [done|by rewrite (Hqo _ H2)|by rewrite (Hqo _ H1)|by eapply W5].
  - intros o' Hne. cbn. by rewrite lookup_insert_ne.
  - intros o' p1 Hne Ho'. by destruct (Hother o' p1) as (_ & _ & ?).
  - intros r Hr Hrn. cbn. rewrite lookup_insert_ne; [done|]. intros ->. destruct Hor as [[s Hs]|]; [congruence|lia].
  - done.
  - apply structAt_store.
Qed.

(** The struct of an object, with its slice in a backing array of its own. *)
Lemma storeAt_heap h o p q a :
  WfHeap h → selfs h !! o = Some (SDense p) → (∀ o', ownsArray h o' q → o' = o) →
  let h' := storeAt h p q a in WfHeap h' ∧ Only o h h' ∧ structAt h' p = Some a.
Proof.
  intros HW Ho Hq. pose proof (wf_dense _ HW _ _ Ho) as [Hp _].
  pose proof (setDense_heap h o p q a (next h) HW ltac:(lia) (wf_next _ HW _ _ Ho) Hp ltac:(by left) ltac:(intros o' Ho'; by eapply wf_inj) Hq) as Hs.
  rewrite insert_id in Hs by done. by destruct h.
Qed.

(** A backing array that no object has. *)
Lemma nextArr_free h o : WfHeap h → ¬ ownsArray h o (nextArr h).
Proof. intros HW Ho. pose proof (wf_arr _ HW _ _ Ho). lia. Qed.

Lemma writeStruct_heap h o p a0 a :
  WfHeap h → selfs h !! o = Some (SDense p) → structAt h p = Some a0 →
  ∃ h', writeStruct p a h = (Ret (), h') ∧ WfHeap h' ∧ Only o h h' ∧ selfs h' = selfs h ∧ structAt h' p = Some a.
Proof.
  intros HW Ho (s & back & Hs & _ & _)%structAt_inv. unfold writeStruct. rewrite Hs. eexists. split; [done|].
  destruct (storeAt_heap h o p (sptr (stValues s)) a HW Ho) as (H1 & H2 & H3); [|done].
  intros o' Ho'. eapply wf_alone; [done..|]. by exists p, s.
Qed.

Lemma setSparse_heap h o s a :
  WfHeap h → selfs h !! o = Some s →
  let h' := Heap (<[o := SSparse a]> (selfs h)) (structs h) (arrays h) (next h) (nextArr h) in
  WfHeap h' ∧ Only o h h' ∧ implOf h' o = Some (OArr (Arrays.Sparse a)).
Proof.
  intros [W1 W2 W3 W4 W5] Ho. cbn zeta. set (h' := Heap _ _ _ _ _).
  assert (∀ o' q, ownsArray h' o' q → ownsArray h o' q) as Howns.
  { intros o' q (p & s' & H1 & H2 & H3). cbn in H1. apply lookup_insert_Some in H1 as [[_ ?]|[_ H1]]; [done|]. by exists p, s'. }
  split; [split|split; [split|]]; cbn [h' selfs structs next nextArr]; try done.
  - intros o1 s1. rewrite lookup_insert_Some. intros [[<- _]|[_ ?]]; by eapply W1.
  - intros o1 p1. rewrite lookup_insert_Some. intros [[_ ?]|[_ ?]]; [done|by eapply W2].
  - intros o1 o2 p1. rewrite !lookup_insert_Some. intros [[_ ?]|[_ ?]] [[_ ?]|[_ ?]]; try done. by eapply W3.
  - intros o1 q1 H1%Howns. by eapply W4.
  - intros o1 o2 q1 H1%Howns H2%Howns. by eapply W5.
  - intros o' Hne. by rewrite lookup_insert_ne.
  - intros q Hq _. rewrite lookup_insert_ne; [done|]. intros ->. congruence.
  - unfold implOf. cbn [h' selfs structs]. by rewrite lookup_insert_eq.
Qed.

(** A new struct for the object [o], which exists or is new, with a new backing array. *)
Lemma newDense_heap h o p a :
  WfHeap h → (next h ≤ p)%positive → is_Some (selfs h !! o) ∨ (next h ≤ o ≤ p)%positive →
  let h' := storeAt (Heap (<[o := SDense p]> (selfs h)) (structs h) (arrays h) (Pos.succ p) (nextArr h)) p (nextArr h) a in
  WfHeap h' ∧ Only o h h' ∧ structAt h' p = Some a.
Proof.
  intros HW Hp Ho. apply setDense_heap; [done|lia| |lia| | |].
  - destruct Ho as [[s Hs]|]; [pose proof (wf_next _ HW _ _ Hs)|]; lia.
  - destruct Ho as [?|[? ?]]; [by left|by right].
  - intros o' Ho'. destruct (wf_dense _ HW _ _ Ho'). lia.
  - intros o' Ho'. by destruct (nextArr_free h o').
Qed.

Lemma putImpl_spec h o x x' :
  WfHeap h → implOf h o = Some (OArr x) →
  ∃ h', putImpl o x' h = (Ret (), h') ∧ WfHeap h' ∧ Only o h h' ∧ implOf h' o = Some (OArr x').
Proof.
  intros HW Hx. unfold putImpl. eexists. split; [done|]. unfold implOf in Hx.
  destruct (selfs h !! o) as [s|] eqn:Ho; [|done]. destruct x' as [a'|a']; [|by eapply setSparse_heap].
  assert (∀ h' p, selfs h' !! o = Some (SDense p) → structAt h' p = Some a' → implOf h' o = Some (OArr (Arrays.Dense a'))) as Himpl.
  { intros h' p H1 H2. unfold implOf. by rewrite H1, H2. }
  destruct s as [p|a|b].
  - destruct (structAt h p) as [a0|] eqn:Ha; [|done]. destruct (structAt_inv _ _ _ Ha) as (s & back & Hs & _ & _). rewrite Hs.
    destruct (storeAt_heap h o p (if moved a0 a' then nextArr h else sptr (stValues s)) a' HW Ho) as (H1 & H2 & H3).
    + intros o' Ho'. destruct (moved a0 a'); [by destruct (nextArr_free h o')|]. eapply wf_alone; [done..|]. by exists p, s.
    + split; [done|]. split; [done|]. by eapply Himpl.
  - destruct (newDense_heap h o (next h) a' HW ltac:(lia) ltac:(left; by eexists)) as (H1 & H2 & H3). split; [done|]. split; [done|].
    eapply Himpl; [apply lookup_insert_eq|done].
  - destruct (newDense_heap h o (next h) a' HW ltac:(lia) ltac:(left; by eexists)) as (H1 & H2 & H3). split; [done|]. split; [done|].
    eapply Himpl; [apply lookup_insert_eq|done].
Qed.

(** *** Slices that no object has *)

Record Loose (h : heap) (s : slice) (V T : cells) : Prop := {
  loose_cells : arrays h !! sptr s = Some (V ++ T);
  loose_len : slen s = length V;
  loose_below : (sptr s < nextArr h)%positive;
  loose_free : ∀ o, ¬ ownsArray h o (sptr s);
}.

(** [h'] differs from [h] in the contents of loose slices at most. *)
Record SameObjs (h h' : heap) : Prop := {
  same_selfs : selfs h' = selfs h;
  same_structs : structs h' = structs h;
  same_at : ∀ o p, selfs h !! o = Some (SDense p) → structAt h' p = structAt h p;
  same_next : next h' = next h;
  same_wf : WfHeap h → WfHeap h';
}.

#[global] Instance SameObjs_preorder : PreOrder SameObjs.
Proof.
  split; [by split|]. intros h1 h2 h3 [A0 A1 A2 A3 A4] [B0 B1 B2 B3 B4]. split; [congruence|congruence| |congruence|auto].
  intros o p Ho. rewrite (B2 o), (A2 o); [done..|congruence].
Qed.

Lemma same_only o h h' : SameObjs h h' → Only o h h'.
Proof. intros [S1 S2 S3 S4 S5]. split; rewrite ?S1, ?S4; try done. intros o' p _. apply S3. Qed.

Lemma same_impl h h' o : SameObjs h h' → implOf h' o = implOf h o.
Proof.
  intros [S1 S2 S3 S4 S5]. unfold implOf. rewrite S1. destruct (selfs h !! o) as [[p| |]|] eqn:E; try done. by rewrite (S3 o).
Qed.

(** A store to a backing array that no object has. *)
Lemma store_loose h q V nx :
  (∀ o, ¬ ownsArray h o q) → (nextArr h ≤ nx)%positive →
  SameObjs h (Heap (selfs h) (structs h) (<[q := V]> (arrays h)) (next h) nx).
Proof.
  intros Hq Hnx. set (h' := Heap _ _ _ _ _).
  assert (∀ o p, selfs h !! o = Some (SDense p) → structAt h' p = structAt h p) as Hat.
  { intros o p Ho. unfold structAt. cbn. destruct (structs h !! p) as [s|] eqn:Es; [|done]. cbn.
    rewrite lookup_insert_ne; [done|]. intros ->. by apply (Hq o); exists p, s. }
  split; try done. intros [W1 W2 W3 W4 W5]. split; try done.
  - intros o p Ho. rewrite (Hat o p Ho). by eapply W2.
  - intros o r Ho. specialize (W4 o r Ho). cbn. lia.
Qed.

Lemma does_newSlice h vs slack (Q : slice → heap → Prop) :
  WfHeap h → (∀ s h', SameObjs h h' → Loose h' s vs (replicate slack None) → Q s h') → does (newSlice vs slack) h Q.
Proof.
  intros HW HQ. eapply does_eq; [done|]. apply HQ.
  - apply store_loose; [|lia]. intros o. by apply nextArr_free.
  - split; cbn; [apply lookup_insert_eq|done|lia|]. intros o. by apply (nextArr_free h o).
Qed.

Lemma does_copyTo h s V T k src (Q : unit → heap → Prop) :
  Loose h s V T → 0 ≤ k ≤ Z.of_nat (length V) →
  (∀ h', SameObjs h h' → Loose h' s (goCopyAt V (Z.to_nat k) src) T → Q () h') → does (copyTo s k src) h Q.
Proof.
  intros [L1 L2 Lb L3] Hk HQ. unfold does, copyTo. rewrite L1, L2, (proj2 (Z.leb_le 0 k)), (proj2 (Z.leb_le k _)) by lia. cbn [andb].
  rewrite take_app_length, drop_app_length. apply HQ; [apply store_loose; [done|lia]|]. split; cbn; [apply lookup_insert_eq| |done|done].
  rewrite L2. unfold goCopyAt, goCopy. rewrite !length_app, !length_take, !length_drop. lia.
Qed.

(** A loose slice becomes the slice of the struct of [o]. *)
Lemma setSlice_heap h o p a s V T (f : arrayStruct → arrayStruct) :
  WfHeap h → selfs h !! o = Some (SDense p) → structAt h p = Some a → Loose h s V T → (∀ st, stValues (f st) = s) →
  ∃ st h', updStruct p f h = (Ret (), h') ∧ structs h !! p = Some st ∧ (∃ back, a = loaded st back) ∧
    WfHeap h' ∧ Only o h h' ∧ selfs h' = selfs h ∧ structAt h' p = Some (loaded (f st) (V ++ T)).
Proof.
  intros HW Ho (st & back & Hst & _ & ->)%structAt_inv [L1 L2 Lb L3] Hf. unfold updStruct. rewrite Hst. eexists st, _. split; [done|].
  split; [done|]. split; [by exists back|]. destruct (storeAt_heap h o p (sptr s) (loaded (f st) (V ++ T)) HW Ho) as (H1 & H2 & H3).
  { intros o' Ho'. by destruct (L3 o'). }
  assert (storeAt h p (sptr s) (loaded (f st) (V ++ T)) = Heap (selfs h) (<[p := f st]> (structs h)) (arrays h) (next h) (nextArr h)) as He.
  { unfold storeAt. cbn. rewrite (insert_id (arrays h)) by done. f_equal; [|lia]. f_equal. rewrite <- (Hf st). by destruct (f st) as [? [] ? ? ? ?]. }
  rewrite He in *. done.
Qed.

(** *** Prototypes without index properties *)

Section arrays.
Context `{Env}.

(** An object outside of the heap that has and inherits no index properties. *)
Record EnvBare (q : positive) : Prop := {
  bare_has : ∀ i h, other_has q (KIdx i) h = (Ret false, h);
  bare_get : ∀ i receiver h, other_get q (KIdx i) receiver h = (Ret None, h);
  bare_set : ∀ i v receiver h, other_setForeign q (KIdx i) v receiver h = (Ret None, h);
}.

Definition protoBare (h : heap) (pr : option positive) : Prop :=
  match pr with None => True | Some q => selfs h !! q = None ∧ (q < next h)%positive ∧ EnvBare q end.

(** The array of elements [L]. *)
Definition ArrayAt (h : heap) (o : positive) (L : elems) : Prop :=
  ∃ x, implOf h o = Some (OArr x) ∧ Holds x L ∧ protoBare h (protoOf x).

Lemma protoBare_only o h h' pr : protoBare h pr → Only o h h' → protoBare h' pr.
Proof. intros Hp [_ _ O2 O3]. destruct pr as [q|]; [|done]. destruct Hp as (H1 & H2 & H3). split; [by apply O2|]. split; [lia|done]. Qed.

Lemma ArrayAt_only h h' o o' L : ArrayAt h o L → Only o' h h' → o ≠ o' → ArrayAt h' o L.
Proof.
  intros (x & Hx & HH & Hp) HO Hne. exists x. split; [by rewrite (only_impl _ _ _ _ HO)|]. split; [done|by eapply protoBare_only].
Qed.

(** The state of a method that works on [o] and started in [h0]. *)
Record St (h0 : heap) (o : positive) (L : elems) (h : heap) : Prop := {
  st_wf : WfHeap h;
  st_arr : ArrayAt h o L;
  st_only : Only o h0 h;
}.

Lemma St_init h o L : WfHeap h → ArrayAt h o L → St h o L h.
Proof. by split. Qed.

Lemma does_applyArr h0 h o L L' v x x' (Q : unit → heap → Prop) :
  St h0 o L h → implOf h o = Some (OArr x) → Holds x' L' → protoOf x' = protoOf x →
  (∀ h', St h0 o L' h' → Q () h') →
  does (applyArr o v (x', Arrays.Done true)) h Q.
Proof.
  intros [HW HA HO] Hx HH Hp HQ. destruct (putImpl_spec h o x x' HW Hx) as (h' & He & HW' & HO' & Hx').
  unfold applyArr. apply does_bind. eapply does_eq; [exact He|]. apply does_ret, HQ. split; [done| |by transitivity h].
  exists x'. split; [done|]. split; [done|]. rewrite Hp. destruct HA as (y & Hy & _ & Hpy). rewrite Hx in Hy. simplify_eq.
  by eapply protoBare_only.
Qed.
(** ** The methods of an object, on its list of elements *)

Lemma ownProp_idx x i : 0 ≤ i < MaxUint32 → ownProp (OArr x) (KIdx i) = Arrays.arrayGet x i.
Proof. intros Hi. cbn. by zcmp. Qed.

Lemma lookupObj_none h q : selfs h !! q = None → lookupObj q h = (Ret None, h).
Proof. intros Hq. unfold lookupObj, implOf. by rewrite Hq. Qed.

Lemma does_lookupObj h o x (Q : option obj → heap → Prop) :
  implOf h o = Some (OArr x) → Q (Some (OArr x)) h → does (lookupObj o) h Q.
Proof. intros Hx HQ. eapply does_eq; [unfold lookupObj; by rewrite Hx|done]. Qed.

Lemma does_getIdx h o L i (Q : option Value → heap → Prop) :
  ArrayAt h o L → 0 ≤ i < MaxUint32 → Q (at_ L i) h → does (getIdx o i) h Q.
Proof.
  intros (x & Hx & HH & Hp) Hi HQ. unfold getIdx, getKey. apply does_bind. eapply does_eq; [done|]. cbn [getChain].
  apply does_bind, (does_lookupObj _ _ x); [done|]. rewrite ownProp_idx by done.
  pose proof (Holds_get x L i HH ltac:(lia)) as Hg. destruct (Arrays.arrayGet x i) as [s|].
  - destruct Hg as (v & Hv & Hs). unfold slotGet. rewrite Hs. apply does_bind, does_ret, does_ret. by rewrite <- Hv.
  - cbn [baseOf]. fold (protoOf x). rewrite Hg in HQ. destruct (protoOf x) as [q|]; [|by apply does_ret].
    destruct Hp as (Hq & _ & HB). destruct (size (selfs h)) eqn:Hsz; cbn [getChain]; apply does_bind;
      (eapply does_eq; [by apply lookupObj_none|]); (eapply does_eq; [apply (bare_get q HB)|done]).
Qed.

Lemma does_has h o L i (Q : bool → heap → Prop) :
  ArrayAt h o L → 0 ≤ i < MaxUint32 → Q (isSome (at_ L i)) h → does (hasPropertyIdx o i) h Q.
Proof.
  intros (x & Hx & HH & Hp) Hi HQ. unfold hasPropertyIdx. apply does_bind. eapply does_eq; [done|]. cbn [hasChain].
  apply does_bind, (does_lookupObj _ _ x); [done|]. rewrite ownProp_idx by done.
  pose proof (Holds_get x L i HH ltac:(lia)) as Hg. destruct (Arrays.arrayGet x i) as [s|].
  - destruct Hg as (v & Hv & _). apply does_ret. by rewrite Hv in HQ.
  - cbn [baseOf]. fold (protoOf x). rewrite Hg in HQ. destruct (protoOf x) as [q|]; [|by apply does_ret].
    destruct Hp as (Hq & _ & HB). destruct (size (selfs h)) eqn:Hsz; cbn [hasChain]; apply does_bind;
      (eapply does_eq; [by apply lookupObj_none|]); (eapply does_eq; [apply (bare_has q HB)|done]).
Qed.

Lemma intToValue_small n : 0 ≤ n ≤ MaxUint32 → intToValue n = valueInt n.
Proof. unfold MaxUint32. intros Hn. rewrite intToValue_eq. unfold maxInt. by zcmp. Qed.

Lemma does_getLength h o L (Q : Z → heap → Prop) :
  ArrayAt h o L → Q (Z.of_nat (length L)) h → does (getLength o) h Q.
Proof.
  intros (x & Hx & HH & Hp) HQ. pose proof (Holds_max _ _ HH) as Hm. unfold getLength, getKey. apply does_bind, does_bind.
  eapply does_eq; [done|]. cbn [getChain]. apply does_bind, (does_lookupObj _ _ x); [done|]. cbn [ownProp].
  apply does_bind, does_ret, does_ret. unfold toLengthV, VToInteger. cbn [default].
  rewrite (Holds_length _ _ HH), intToValue_small by lia. apply does_bind, does_ret, does_ret. cbn [ToInteger].
  unfold MaxUint32, maxInt in *. by zcmp.
Qed.

Lemma does_setOwnIdx h0 h o L i v (Q : unit → heap → Prop) :
  St h0 o L h → 0 ≤ i < MaxUint32 → (∀ h', St h0 o (setElem L i v) h' → Q () h') → does (setOwnIdx o i v) h Q.
Proof.
  intros HS Hi HQ. pose proof (st_arr _ _ _ _ HS) as (x & Hx & HH & Hp). unfold setOwnIdx.
  apply does_bind, (does_lookupObj _ _ x); [done|]. rewrite (proj2 (Z.leb_le 0 i)), (proj2 (Z.ltb_lt i MaxUint32)) by lia. cbn [andb].
  destruct (arr_setOwnIdx_Holds x L i v HH Hi) as (x' & He & HH').
  assert (does (applyArr o v (arr_setOwnIdx x i v)) h Q) as Happly.
  { rewrite He. eapply does_applyArr; try done. pose proof (arr_setOwnIdx_prototype x i v) as Hpr. by rewrite He in Hpr. }
  destruct (Arrays.arrayGet x i); [done|]. apply does_bind. eapply does_eq; [done|]. apply does_bind.
  fold (protoOf x). destruct (protoOf x) as [q|]; cbn [setForeign]; [|by apply does_ret].
  destruct Hp as (Hq & _ & HB). destruct (Pos.eqb_spec q o) as [->|_].
  { unfold implOf in Hx. by rewrite Hq in Hx. }
  apply does_bind. eapply does_eq; [by apply lookupObj_none|]. eapply does_eq; [apply (bare_set q HB)|done].
Qed.

Lemma does_deleteIdx h0 h o L i (Q : unit → heap → Prop) :
  St h0 o L h → 0 ≤ i < MaxUint32 → (∀ h', St h0 o (delElem L i) h' → Q () h') → does (deleteIdx o i) h Q.
Proof.
  intros HS Hi HQ. pose proof (st_arr _ _ _ _ HS) as (x & Hx & HH & Hp). unfold deleteIdx.
  apply does_bind, (does_lookupObj _ _ x); [done|]. rewrite (proj2 (Z.leb_le 0 i)), (proj2 (Z.ltb_lt i MaxUint32)) by lia. cbn [andb].
  fold (arr_delete x i). destruct (arr_delete_Holds x L i HH Hi) as (x' & He & HH'). rewrite He.
  eapply does_applyArr; try done. pose proof (arr_delete_prototype x i) as Hpr. by rewrite He in Hpr.
Qed.

Lemma does_setLength h0 h o L n (Q : unit → heap → Prop) :
  St h0 o L h → 0 ≤ n ≤ MaxUint32 → (∀ h', St h0 o (resize (Z.to_nat n) None L) h' → Q () h') → does (setLength o n) h Q.
Proof.
  intros HS Hn HQ. pose proof (st_arr _ _ _ _ HS) as (x & Hx & HH & Hp). unfold setLength.
  apply does_bind, (does_lookupObj _ _ x); [done|]. rewrite intToValue_small by done. unfold toLengthUint32.
  rewrite (proj2 (Z.leb_le 0 n)), (proj2 (Z.leb_le n MaxUint32)) by lia. cbn [andb liftResult]. apply does_bind, does_ret.
  fold (arr_setLength x n). destruct (arr_setLength_Holds x L n HH Hn) as (x' & He & HH'). rewrite He.
  eapply does_applyArr; try done. pose proof (arr_setLength_prototype x n) as Hpr. by rewrite He in Hpr.
Qed.

Hypothesis callable_identity : ∀ p q, callable p = true → selfEqual p q = true → p = q.

Lemma does_createDataProperty h0 h o L i v (Q : unit → heap → Prop) :
  St h0 o L h → 0 ≤ i < MaxUint32 → (∀ h', St h0 o (setElem L i v) h' → Q () h') →
  does (createDataPropertyOrThrow o i (Some v)) h Q.
Proof.
  intros HS Hi HQ. pose proof (st_arr _ _ _ _ HS) as (x & Hx & HH & Hp). unfold createDataPropertyOrThrow.
  apply does_bind, (does_lookupObj _ _ x); [done|]. rewrite (proj2 (Z.leb_le 0 i)), (proj2 (Z.ltb_lt i MaxUint32)) by lia. cbn [andb].
  fold (arr_define selfEqual callable x i (dataDesc (Some v))).
  destruct (arr_define_Holds selfEqual callable x L i v callable_identity HH Hi) as (x' & He & HH'). rewrite He.
  eapply does_applyArr; try done. pose proof (arr_define_prototype selfEqual callable x i (dataDesc (Some v))) as Hpr. by rewrite He in Hpr.
Qed.
(** *** Structs and new arrays *)

Lemma does_readStruct h p a (Q : Arrays.arrayObject → heap → Prop) : structAt h p = Some a → Q a h → does (readStruct p) h Q.
Proof. intros Ha HQ. eapply does_eq; [unfold readStruct; by rewrite Ha|done]. Qed.

Lemma does_checkStd h o L (Q : option positive → heap → Prop) :
  ArrayAt h o L → Q None h →
  (∀ p a, selfs h !! o = Some (SDense p) → structAt h p = Some a → stdCond a = true → Std a L → Q (Some p) h) →
  does (checkStdArrayObj o) h Q.
Proof.
  intros (x & Hx & HH & _) HN HS. unfold checkStdArrayObj, does. unfold implOf in Hx.
  destruct (selfs h !! o) as [[p| |]|] eqn:Ho; try done. destruct (structAt h p) as [a|] eqn:Ha; [|done]. cbn in Hx. simplify_eq.
  destruct (stdCond a) eqn:Hc; [|done]. apply (HS p a); try done. by apply Holds_std.
Qed.

(** With an Array.prototype outside of the heap the second check fails. *)
Lemma does_checkStdWithProto h o L (Q : option positive → heap → Prop) :
  ArrayAt h o L → Q None h →
  (∀ p a, selfs h !! o = Some (SDense p) → structAt h p = Some a → stdCond a = true → Std a L → Q (Some p) h) →
  does (checkStdArrayObjWithProto o) h Q.
Proof.
  intros HA HN HS. unfold checkStdArrayObjWithProto. apply does_bind. eapply does_checkStd; [done|by apply does_ret|].
  intros p a Ho Ha Hc HStd. apply does_bind, (does_readStruct _ _ a); [done|].
  destruct HA as (x & Hx & _ & Hp). assert (x = Arrays.Dense a) as -> by (unfold implOf in Hx; rewrite Ho, Ha in Hx; by injection Hx as <-).
  unfold protoOf in Hp. cbn [Arrays.arrayBase] in Hp. destruct (prototype (Arrays.base a)) as [q|].
  - destruct Hp as (Hq & _). apply does_bind. eapply does_eq; [by apply lookupObj_none|]. by apply does_ret.
  - apply does_ret. by eapply HS.
Qed.

Lemma emptyArray_Holds proto : Holds (Arrays.Dense (emptyArray proto)) [].
Proof. by apply Holds_dense. Qed.

Lemma does_newArray h proto (Q : positive * positive → heap → Prop) :
  WfHeap h → protoBare h (Some proto) →
  (∀ h', St h (next h) [] h' → selfs h' !! next h = Some (SDense (Pos.succ (next h))) →
     structAt h' (Pos.succ (next h)) = Some (emptyArray proto) → (∀ o q, ownsArray h' o q → ownsArray h o q ∨ q = nextArr h) →
     (∀ q, q ≠ nextArr h → arrays h' !! q = arrays h !! q) → (nextArr h < nextArr h')%positive → Q (next h, Pos.succ (next h)) h') →
  does (newArray proto) h Q.
Proof.
  intros HW Hp HQ. destruct (newDense_heap h (next h) (Pos.succ (next h)) (emptyArray proto) HW) as (HW' & HO' & Hs); [lia|right; lia|].
  eapply does_eq; [done|]. apply HQ; [|apply lookup_insert_eq|done| | |cbn; lia].
  - split; [done| |done]. exists (Arrays.Dense (emptyArray proto)). split; [unfold implOf; cbn [selfs storeAt]; by rewrite lookup_insert_eq, Hs|].
    split; [apply emptyArray_Holds|]. by eapply protoBare_only.
  - intros o q (p & s & H1 & H2 & H3). cbn in H1. apply lookup_insert_Some in H1 as [[<- [= <-]]|[Hne H1]].
    + cbn in H2. rewrite lookup_insert_eq in H2. injection H2 as <-. by right.
    + left. cbn in H2. rewrite lookup_insert_ne in H2 by (destruct (wf_dense _ HW _ _ H1); lia). by exists p, s.
  - intros q Hq. cbn. by rewrite lookup_insert_ne.
Qed.

(** The array [a] with other values, in a backing array of its own. *)
Definition withValues (a : Arrays.arrayObject) (V T : cells) : Arrays.arrayObject :=
  withObjCount (withLength (withCells a (V ++ T) (length V)) (uwrap 32 (Z.of_nat (length V)))) (Z.of_nat (length V)).

Lemma withValues_Holds a L L0 slack :
  Holds (Arrays.Dense a) L0 → Z.of_nat (length L) ≤ MaxUint32 → Z.of_nat (length L + slack) ≤ MaxInt64 →
  Holds (Arrays.Dense (withValues a (cellsOf L) (replicate slack None))) L.
Proof.
  intros HR Hm Hs. pose proof (Arrays.rep_inv _ _ HR) as HI. cbn in HI. apply Holds_dense; unfold withValues, Arrays.avalues; cbn.
  - by rewrite take_app_length.
  - rewrite length_app. lia.
  - rewrite length_app, length_replicate, length_cellsOf. lia.
  - rewrite drop_app_length. by apply Forall_replicate.
  - rewrite length_cellsOf. apply uwrap_id. unfold MaxUint32 in Hm. change (2 ^ 32) with 4294967296. lia.
  - done.
  - pose proof (Arrays.id_cnt a HI). pose proof (Arrays.countP_nonneg (Arrays.avalues a)). lia.
  - exact (eq_sym (Arrays.rep_lenW _ _ HR)).
  - exact (eq_sym (Arrays.rep_ext _ _ HR)).
Qed.

(** setArrayValues on the array of [o] with a slice of its own. *)
Lemma does_setArrayValues h0 h o p a s L L0 slack (Q : unit → heap → Prop) :
  St h0 o L0 h → selfs h !! o = Some (SDense p) → structAt h p = Some a → Loose h s (cellsOf L) (replicate slack None) →
  Z.of_nat (length L) ≤ MaxUint32 → Z.of_nat (length L + slack) ≤ MaxInt64 →
  (∀ h', St h0 o L h' → Q () h') → does (setArrayValues p s) h Q.
Proof.
  intros [HW (x & Hx & HH & Hp) HO] Ho Ha HL Hm Hs HQ. unfold implOf in Hx. rewrite Ho, Ha in Hx. injection Hx as <-.
  destruct (setSlice_heap h o p a s (cellsOf L) (replicate slack None)
    (λ st, Struct (stBase st) s (uwrap 32 (Z.of_nat (slen s))) (Z.of_nat (slen s)) (stPropValueCount st) (stLengthWritable st)) HW Ho Ha HL)
    as (st & h' & He & _ & (back & ->) & HW' & HO' & Hself & Hat); [done|].
  eapply does_eq; [exact He|]. apply HQ. split; [done| |by transitivity h].
  assert (loaded (Struct (stBase st) s (uwrap 32 (Z.of_nat (slen s))) (Z.of_nat (slen s)) (stPropValueCount st) (stLengthWritable st))
    (cellsOf L ++ replicate slack None) = withValues (loaded st back) (cellsOf L) (replicate slack None)) as Heq.
  { unfold withValues, loaded. cbn. by rewrite (loose_len _ _ _ _ HL). }
  rewrite Heq in Hat. eexists. split; [unfold implOf; by rewrite Hself, Ho, Hat|]. split; [by apply (withValues_Holds _ _ L0)|].
  by eapply protoBare_only.
Qed.

Lemma does_newArrayWith h proto s L slack (Q : positive → heap → Prop) :
  WfHeap h → protoBare h (Some proto) → Loose h s (cellsOf L) (replicate slack None) →
  Z.of_nat (length L) ≤ MaxUint32 → Z.of_nat (length L + slack) ≤ MaxInt64 →
  (∀ h', St h (next h) L h' → Q (next h) h') → does (newArrayWith proto s) h Q.
Proof.
  intros HW Hp [L1 L2 Lb L3] Hm Hs HQ. unfold newArrayWith. apply does_bind, does_newArray; [done..|]. intros h1 H1 Hself Hat Hown Harr Hnx. cbn [fst snd].
  apply does_bind, (does_setArrayValues h h1 (next h) _ (emptyArray proto) s L [] slack); try done.
  split; [rewrite Harr by lia; done|done|lia|]. intros o [Ho|Hq]%Hown; [by destruct (L3 o)|lia].
Qed.

Lemma St_same h h1 o L h' : SameObjs h h1 → St h1 o L h' → St h o L h'.
Proof. intros HS [H1 H2 H3]. split; [done..|]. transitivity h1; [by apply same_only|done]. Qed.

Lemma protoBare_same h h' pr : protoBare h pr → SameObjs h h' → protoBare h' pr.
Proof. intros Hp HS. by apply (protoBare_only xH h), same_only. Qed.

Lemma does_newArrayValues h h0 s L (Q : positive → heap → Prop) :
  SameObjs h0 h → WfHeap h0 → protoBare h0 (Some arrayProto) → Loose h s (cellsOf L) [] → Z.of_nat (length L) ≤ MaxUint32 →
  (∀ h', St h0 (next h0) L h' → Q (next h0) h') →
  does (newArrayValues s) h Q.
Proof.
  intros HS HW Hp HL Hm HQ. apply (does_newArrayWith _ _ _ L 0); [by apply HS|by eapply protoBare_same|done..| |].
  - unfold MaxUint32, MaxInt64 in *. lia.
  - intros h' H'. rewrite (same_next _ _ HS) in *. apply HQ. by eapply St_same.
Qed.

Lemma does_newArrayLength h n (Q : positive → heap → Prop) :
  WfHeap h → protoBare h (Some arrayProto) → 0 ≤ n ≤ MaxUint32 →
  (∀ h', St h (next h) (replicate (Z.to_nat n) None) h' → Q (next h) h') →
  does (newArrayLength n) h Q.
Proof.
  intros HW Hp Hn HQ. unfold newArrayLength, setArrayLength. apply does_bind, does_newArray; [done..|].
  intros h1 H1 _ _ _ _ _. apply does_bind. eapply (does_setLength h); [done..|]. intros h2 H2. rewrite resize_nil in H2. by apply does_ret, HQ.
Qed.

(** The species of an array is Array, or there is none. *)
Definition StdSpecies (o : positive) : Prop :=
  (∀ h, getConstructor o h = (Ret None, h)) ∨
  (∀ h, getConstructor o h = (Ret (Some (VObject arrayCtor)), h)) ∧
  (∀ h, getSpecies arrayCtor h = (Ret (Some (VObject arrayCtor)), h)) ∧ isConstructor arrayCtor = true.

Lemma does_arraySpeciesCreate h o L n (Q : positive → heap → Prop) :
  WfHeap h → protoBare h (Some arrayProto) → StdSpecies o → ArrayAt h o L → 0 ≤ n ≤ MaxUint32 →
  (∀ h', St h (next h) (replicate (Z.to_nat n) None) h' → Q (next h) h') →
  does (arraySpeciesCreate o n) h Q.
Proof.
  intros HW Hp HSp (x & Hx & _) Hn HQ. unfold arraySpeciesCreate, isArray. apply does_bind, does_bind, (does_lookupObj _ _ x); [done|].
  apply does_ret, does_bind, does_bind. destruct HSp as [HC|(HC & HS & Hk)].
  - eapply does_eq; [apply HC|]. by apply does_ret, does_newArrayLength.
  - eapply does_eq; [apply HC|]. apply does_bind. eapply does_eq; [apply HS|]. apply does_ret. rewrite Hk. unfold constructObj.
    rewrite Pos.eqb_refl, intToValue_small by done. by apply does_newArrayLength.
Qed.
End arrays.

End ArrayProtoHeap.
