(* ===== verification/ArrayProtoSpec.v ===== *)
(** * Array.prototype: the specification

    What the methods do to the list of elements of an array and what they return,
    as functions on lists; and the lemmas that describe lists by their elements,
    with which the loops of the generic paths are followed. *)

From S2P Require Import Prelude ArrayIndex Float64 Numbers Values Property Objects Arrays ArrayProto ArrayProtoHeap.
Import ArrayIndex Numbers Values Property Objects ArrayProto ArrayProtoHeap.
Open Scope Z_scope.

Module ArrayProtoSpec.

(** ** Elements of lists *)

Section elements.
Implicit Types (L : elems) (i : Z).

Lemma at_neg L i : i < 0 → at_ L i = None.
Proof. intros Hi. unfold at_. by zcmp. Qed.

Lemma at_app L1 L2 i : at_ (L1 ++ L2) i = if i <? Z.of_nat (length L1) then at_ L1 i else at_ L2 (i - Z.of_nat (length L1)).
Proof.
  unfold at_. destruct (Z.ltb_spec i (Z.of_nat (length L1))).
  - destruct (Z.leb_spec 0 i); [|done]. by rewrite lookup_app_l by lia.
  - zcmp. rewrite lookup_app_r by lia. do 2 f_equal. lia.
Qed.

Lemma at_take (n : nat) L i : at_ (take n L) i = if i <? Z.of_nat n then at_ L i else None.
Proof.
  unfold at_. destruct (Z.leb_spec 0 i); [|by destruct (i <? _)].
  destruct (Z.ltb_spec i (Z.of_nat n)); [by rewrite lookup_take_lt by lia|by rewrite lookup_take_ge by lia].
Qed.

Lemma at_dropped (n : nat) L i : 0 ≤ i → at_ (drop n L) i = at_ L (i + Z.of_nat n).
Proof. intros Hi. unfold at_. zcmp. rewrite lookup_drop. do 2 f_equal. lia. Qed.

Lemma at_reverse L i : at_ (reverse L) i = at_ L (Z.of_nat (length L) - 1 - i).
Proof.
  unfold at_. destruct (Z.leb_spec 0 i) as [Hi|Hi], (Z.leb_spec 0 (Z.of_nat (length L) - 1 - i)) as [Hj|Hj]; [| | |done].
  - rewrite reverse_lookup by lia. do 2 f_equal. lia.
  - by rewrite lookup_ge_None_2 by (rewrite length_reverse; lia).
  - by rewrite lookup_ge_None_2 by lia.
Qed.

Lemma at_replicate (n : nat) (o : option Value) i : 0 ≤ i < Z.of_nat n → at_ (replicate n o) i = o.
Proof. intros Hi. unfold at_. zcmp. by rewrite lookup_replicate_2 by lia. Qed.

Lemma at_holes (n : nat) i : at_ (replicate n None) i = None.
Proof.
  unfold at_. destruct (0 <=? i); [|done]. destruct (replicate n _ !! _) as [x|] eqn:E; [|done].
  by apply lookup_replicate in E as [-> _].
Qed.

Lemma at_tail L i : 0 ≤ i → at_ (tail L) i = at_ L (i + 1).
Proof.
  intros Hi. unfold at_. zcmp. replace (Z.to_nat (i + 1)) with (S (Z.to_nat i)) by lia. by destruct L.
Qed.

(** The elements a method passes on: holes become undefined. *)
Definition filled L : elems := (λ o, Some (nilSafe o)) <$> L.
Lemma at_filled L i : 0 ≤ i < Z.of_nat (length L) → at_ (filled L) i = Some (nilSafe (at_ L i)).
Proof.
  intros Hi. unfold at_, filled. zcmp. rewrite list_lookup_fmap.
  by destruct (lookup_lt_is_Some_2 L (Z.to_nat i)) as [x ->]; [lia|].
Qed.
Lemma length_filled L : length (filled L) = length L.
Proof. apply length_fmap. Qed.

Lemma length_tail L : length (tail L) = (length L - 1)%nat.
Proof. destruct L; cbn; lia. Qed.
End elements.

(** Comparisons of integers that arithmetic does not decide are cases. *)
Ltac zcase :=
  repeat match goal with
  | |- context [Z.ltb ?a ?b] => destruct (Z.ltb_spec a b)
  | |- context [Z.leb ?a ?b] => destruct (Z.leb_spec a b)
  | |- context [Z.eqb ?a ?b] => destruct (Z.eqb_spec a b)
  end; cbn [andb orb negb].

(** An element of a list that is put together from parts of others. *)
Ltac at_norm :=
  repeat first [rewrite at_app | rewrite at_take | rewrite at_reverse | rewrite at_dropped by lia | rewrite at_holes
    | rewrite at_tail by lia | rewrite length_app | rewrite length_take | rewrite length_drop | rewrite length_reverse
    | rewrite length_replicate | rewrite length_fmap | rewrite length_tail].
Ltac at_case :=
  at_norm; zcase; subst; try lia; at_norm; zcase; subst; try lia; at_norm; zcase; subst; try lia; try done; try (f_equal; lia); try (rewrite at_ge by (at_norm; lia));
  try (rewrite at_neg by lia); try done; try (symmetry; apply at_ge; at_norm; lia); try (symmetry; apply at_neg; lia).

(** ** The methods *)

Inductive method :=
  | Assign (i : Z) (v : Value)          (* a[i] = v *)
  | Push (args : list Value)
  | Pop
  | Shift
  | Unshift (args : list Value)
  | Reverse
  | CopyWithin (args : list Value)
  | Fill (args : list Value)
  | Splice (args : list Value)
  | At (args : list Value)
  | IndexOf (args : list Value)
  | Includes (args : list Value)
  | LastIndexOf (args : list Value)
  | Slice (args : list Value)
  | With (args : list Value)
  | ToReversed
  | ToSpliced (args : list Value).

(** What a method returns: a value, the array itself, or another object. *)
Inductive result_ := RVal (v : Value) | RThis | RObj (a : positive).

Section exec.
Context `{Env}.

Definition numV (z : Z) : Value := VNum (intToValue z).

Definition exec (o : positive) (m : method) : M result_ :=
  match m with
  | Assign i v => setOwnIdx o i v ;; mret (RVal v)
  | Push args => n ← arrayproto_push o args; mret (RVal (numV n))
  | Pop => v ← arrayproto_pop o; mret (RVal (nilSafe v))
  | Shift => v ← arrayproto_shift o; mret (RVal (nilSafe v))
  | Unshift args => n ← arrayproto_unshift o args; mret (RVal (numV n))
  | Reverse => arrayproto_reverse o ;; mret RThis
  | CopyWithin args => arrayproto_copyWithin o args ;; mret RThis
  | Fill args => arrayproto_fill o args ;; mret RThis
  | Splice args => a ← arrayproto_splice o args; mret (RObj a)
  | At args => v ← arrayproto_at o args; mret (RVal (nilSafe v))
  | IndexOf args => n ← arrayproto_indexOf o args; mret (RVal (numV n))
  | Includes args => b ← arrayproto_includes o args; mret (RVal (VBool b))
  | LastIndexOf args => n ← arrayproto_lastIndexOf o args; mret (RVal (numV n))
  | Slice args => a ← arrayproto_slice o args; mret (RObj a)
  | With args => a ← arrayproto_with o args; mret (RObj a)
  | ToReversed => a ← arrayproto_toReversed o; mret (RObj a)
  | ToSpliced args => a ← arrayproto_toSpliced o args; mret (RObj a)
  end.
End exec.

(** ** The specification *)

Inductive specResult := SVal (v : Value) | SThis | SNew (L : elems).

Section spec.
(** ToInteger of the arguments, and the identity of wrapped Go values. *)
Context (conv : Value → Z) (se : positive → positive → bool).

Definition lenZ (L : elems) : Z := Z.of_nat (length L).

Definition copyRange (L : elems) (to from count : Z) : elems :=
  if 0 <? count
  then take (Z.to_nat to) L ++ take (Z.to_nat count) (drop (Z.to_nat from) L) ++ drop (Z.to_nat (to + count)) L
  else L.

Definition fillRange (L : elems) (k final : Z) (v : Value) : elems :=
  if k <? final then take (Z.to_nat k) L ++ replicate (Z.to_nat (final - k)) (Some v) ++ drop (Z.to_nat final) L else L.

Definition spliceList (L : elems) (start count : Z) (items : list Value) : elems :=
  take (Z.to_nat start) L ++ (Some <$> items) ++ drop (Z.to_nat (start + count)) L.

(** An optional end, as an index. *)
Definition endIdx (v : Value) (l : Z) : Z := relToIdx (match v with VUndefined => l | _ => conv v end) l.

Definition startOf (L : elems) (args : list Value) : Z := relToIdx (conv (arg args 0)) (lenZ L).
Definition countOf (L : elems) (args : list Value) : Z :=
  match args with
  | [] => 0
  | [_] => lenZ L - startOf L args
  | _ => Z.min (Z.max (conv (arg args 1)) 0) (lenZ L - startOf L args)
  end.

(** The first and the last index in a range that satisfies a test. *)
Definition firstIn (P : Z → bool) (lo hi : Z) : option Z := List.find P (seqZ lo (hi - lo)).
Definition lastIn (P : Z → bool) (hi : Z) : option Z := List.find P (reverse (seqZ 0 hi)).

Definition strictAt (L : elems) (v : Value) (i : Z) : bool :=
  match at_ L i with Some x => ValueStrictEquals se v x | None => false end.
(** SameValueZero, with a hole as undefined *)
Definition sameAt (L : elems) (v : Value) (i : Z) : bool :=
  let x := nilSafe (at_ L i) in
  let v := if isNegativeZero v then positiveZero else v in
  if bool_decide (v = positiveZero) then ValueStrictEquals se v x else SameAs se v x.

Definition lastFrom (L : elems) (args : list Value) : Z :=
  if (length args <? 2)%nat then lenZ L - 1
  else let i := conv (arg args 1) in if 0 <=? i then Z.min i (lenZ L - 1) else i + lenZ L.

Definition wrapIdx (L : elems) (i : Z) : Z := if 0 <=? i then i else lenZ L + i.

Definition specMethod (L : elems) (m : method) : elems * specResult :=
  match m with
  | Assign i v => (setElem L i v, SVal v)
  | Push args => (L ++ (Some <$> args), SVal (numV (lenZ L + Z.of_nat (length args))))
  | Pop => (take (length L - 1) L, SVal (nilSafe (at_ L (lenZ L - 1))))
  | Shift => (tail L, SVal (nilSafe (at_ L 0)))
  | Unshift args => ((Some <$> args) ++ L, SVal (numV (lenZ L + Z.of_nat (length args))))
  | Reverse => (reverse L, SThis)
  | CopyWithin args =>
      let to := relToIdx (conv (arg args 0)) (lenZ L) in
      let from := relToIdx (conv (arg args 1)) (lenZ L) in
      let final := endIdx (arg args 2) (lenZ L) in
      (copyRange L to from (Z.min (final - from) (lenZ L - to)), SThis)
  | Fill args => (fillRange L (relToIdx (conv (arg args 1)) (lenZ L)) (endIdx (arg args 2) (lenZ L)) (arg args 0), SThis)
  | Splice args =>
      (spliceList L (startOf L args) (countOf L args) (drop 2 args),
       SNew (take (Z.to_nat (countOf L args)) (drop (Z.to_nat (startOf L args)) L)))
  | At args => (L, SVal (nilSafe (at_ L (wrapIdx L (conv (arg args 0))))))
  | IndexOf args =>
      (L, SVal (numV (found (firstIn (strictAt L (arg args 0)) (relToIdx (conv (arg args 1)) (lenZ L)) (lenZ L)))))
  | Includes args =>
      (L, SVal (VBool (isSome (firstIn (sameAt L (arg args 0)) (relToIdx (conv (arg args 1)) (lenZ L)) (lenZ L)))))
  | LastIndexOf args => (L, SVal (numV (found (lastIn (strictAt L (arg args 0)) (lastFrom L args + 1)))))
  | Slice args =>
      let start := startOf L args in
      (L, SNew (take (Z.to_nat (endIdx (arg args 1) (lenZ L) - start)) (drop (Z.to_nat start) L)))
  | With args => (L, SNew (<[Z.to_nat (wrapIdx L (conv (arg args 0))) := Some (arg args 1)]> (filled L)))
  | ToReversed => (L, SNew (reverse (filled L)))
  | ToSpliced args => (L, SNew (spliceList (filled L) (startOf L args) (countOf L args) (drop 2 args)))
  end.

(** The arguments a method converts to integers. *)
Definition converted (m : method) : list Value :=
  match m with
  | CopyWithin args => [arg args 0; arg args 1; arg args 2]
  | Fill args => [arg args 1; arg args 2]
  | Splice args | ToSpliced args | Slice args => [arg args 0; arg args 1]
  | At args | With args => [arg args 0]
  | IndexOf args | Includes args | LastIndexOf args => [arg args 1]
  | _ => []
  end.

(** The result is an array again, and the index of [with] exists. *)
Definition allowed (L : elems) (m : method) : Prop :=
  match m with
  | Assign i _ => 0 ≤ i < MaxUint32
  | Push args | Unshift args => lenZ L + Z.of_nat (length args) ≤ MaxUint32
  | Splice args | ToSpliced args => lenZ L - countOf L args + Z.of_nat (length (drop 2 args)) ≤ MaxUint32
  | With args => 0 ≤ wrapIdx L (conv (arg args 0)) < lenZ L
  | _ => True
  end.

(** The methods whose fast path copies or compares the cells without asking the
    prototype chain: they need the count of the elements to be right. *)
Definition seesHoles (m : method) : bool :=
  match m with Splice _ | Includes _ | With _ | ToReversed | ToSpliced _ => true | _ => false end.
End spec.

End ArrayProtoSpec.
