(* ===== verification/ArrayProtoGeneric.v ===== *)
(** * Array.prototype: the generic paths

    The paths of the methods that go through the object's own methods, on an array
    in either representation and with holes, do to the list of elements what the
    specification says. *)

From S2P Require Import Prelude ArrayIndex Float64 Numbers Values Property Objects Arrays ArrayProto ArrayProtoHeap ArrayProtoSpec.
Import ArrayIndex Numbers Values Property Objects ArrayProto ArrayProtoHeap ArrayProtoSpec.
Open Scope Z_scope.

Module ArrayProtoGeneric.

Section generic.
Context `{Env}.
Hypothesis callable_identity : ∀ p q, callable p = true → selfEqual p q = true → p = q.

(** ** The state of a loop: elements as a function, and bounds of the length *)

Definition StP (h0 : heap) (o : positive) (lo hi : Z) (f : Z → option Value) (h : heap) : Prop :=
  ∃ L, St h0 o L h ∧ lo ≤ lenZ L ≤ hi ∧ ∀ i, 0 ≤ i → at_ L i = f i.

Lemma StP_init h0 o L h : St h0 o L h → StP h0 o (lenZ L) (lenZ L) (at_ L) h.
Proof. intros HS. exists L. split; [done|]. split; [lia|done]. Qed.

Lemma StP_weaken h0 o lo hi lo' hi' f f' h :
  StP h0 o lo hi f h → lo' ≤ lo → hi ≤ hi' → (∀ i, 0 ≤ i → f i = f' i) → StP h0 o lo' hi' f' h.
Proof. intros (L & HS & Hb & Hf) H1 H2 Hff. exists L. split; [done|]. split; [lia|]. intros i Hi. by rewrite Hf, Hff. Qed.

Lemma StP_arr h0 o lo hi f h : StP h0 o lo hi f h → ∃ L, ArrayAt h o L ∧ ∀ i, 0 ≤ i → at_ L i = f i.
Proof. intros (L & HS & _ & Hf). exists L. split; [apply (st_arr _ _ _ _ HS)|done]. Qed.

(** The list that the state describes, when the length is known. *)
Lemma StP_list h0 o S f h :
  StP h0 o (lenZ S) (lenZ S) f h → (∀ i, 0 ≤ i < lenZ S → f i = at_ S i) → St h0 o S h.
Proof.
  intros (L & HS & Hb & Hf) Hff. assert (L = S) as ->; [|done]. unfold lenZ in *. apply elems_ext; [lia|]. intros i Hi.
  rewrite Hf by lia. apply Hff. lia.
Qed.

Lemma stp_setOwnIdx h0 o lo hi f i v h (Q : unit → heap → Prop) :
  StP h0 o lo hi f h → 0 ≤ i < MaxUint32 → i < hi →
  (∀ h', StP h0 o lo hi (λ j, if j =? i then Some v else f j) h' → Q () h') → does (setOwnIdx o i v) h Q.
Proof.
  intros (L & HS & Hb & Hf) Hi Hhi HQ. eapply does_setOwnIdx; [done..|]. intros h' HS'. apply HQ.
  exists (setElem L i v). split; [done|]. unfold lenZ in *. rewrite setElem_length by lia. split; [lia|].
  intros j Hj. rewrite at_setElem by lia. by rewrite Hf.
Qed.

Lemma stp_deleteIdx h0 o lo hi f i h (Q : unit → heap → Prop) :
  StP h0 o lo hi f h → 0 ≤ i < MaxUint32 →
  (∀ h', StP h0 o lo hi (λ j, if j =? i then None else f j) h' → Q () h') → does (deleteIdx o i) h Q.
Proof.
  intros (L & HS & Hb & Hf) Hi HQ. eapply does_deleteIdx; [done..|]. intros h' HS'. apply HQ.
  exists (delElem L i). split; [done|]. unfold lenZ, delElem in *. rewrite length_insert. split; [lia|].
  intros j Hj. fold (delElem L i). rewrite at_delElem by lia. by rewrite Hf.
Qed.

Lemma stp_getIdx h0 o lo hi f i h (Q : option Value → heap → Prop) :
  StP h0 o lo hi f h → 0 ≤ i < MaxUint32 → Q (f i) h → does (getIdx o i) h Q.
Proof. intros (L & HA & Hf)%StP_arr Hi HQ. eapply does_getIdx; [done..|]. by rewrite Hf by lia. Qed.

Lemma stp_has h0 o lo hi f i h (Q : bool → heap → Prop) :
  StP h0 o lo hi f h → 0 ≤ i < MaxUint32 → Q (isSome (f i)) h → does (hasPropertyIdx o i) h Q.
Proof. intros (L & HA & Hf)%StP_arr Hi HQ. eapply does_has; [done..|]. by rewrite Hf by lia. Qed.

(** Assigning the length at the end. *)
Lemma stp_setLength h0 o lo hi f S h (Q : unit → heap → Prop) :
  StP h0 o lo hi f h → lenZ S ≤ MaxUint32 → (∀ i, 0 ≤ i < lenZ S → f i = at_ S i) →
  (∀ h', St h0 o S h' → Q () h') → does (setLength o (lenZ S)) h Q.
Proof.
  intros (L & HS & Hb & Hf) Hm Hff HQ. unfold lenZ in *. eapply does_setLength; [done|lia|]. intros h' HS'. apply HQ.
  assert (resize (Z.to_nat (Z.of_nat (length S))) None L = S) as Heq; [|by rewrite Heq in HS'].
  apply elems_ext; [rewrite length_resize; lia|]. intros i Hi. rewrite length_resize in Hi.
  rewrite at_resize by lia. zcmp. rewrite Hf by lia. apply Hff. lia.
Qed.

(** o[to] = o[from] *)
Lemma stp_move h0 o lo hi f from to h (Q : unit → heap → Prop) :
  StP h0 o lo hi f h → 0 ≤ from < MaxUint32 → 0 ≤ to < MaxUint32 → to < hi →
  (∀ h', StP h0 o lo hi (λ j, if j =? to then f from else f j) h' → Q () h') → does (moveElement o from to) h Q.
Proof.
  intros HS Hfrom Hto Hhi HQ. unfold moveElement. apply does_bind, (stp_has _ _ _ _ _ _ _ _ HS Hfrom).
  destruct (f from) as [v|] eqn:Ef; cbn [isSome].
  - apply does_bind, (stp_getIdx _ _ _ _ _ _ _ _ HS Hfrom). rewrite Ef. by apply (stp_setOwnIdx _ _ _ _ _ _ _ _ _ HS).
  - by apply (stp_deleteIdx _ _ _ _ _ _ _ _ HS).
Qed.

(** ** Methods that change the array *)

Lemma push_spec h o L args :
  WfHeap h → ArrayAt h o L → lenZ L + Z.of_nat (length args) ≤ MaxUint32 →
  does (arrayproto_push o args) h (λ r h', r = lenZ L + Z.of_nat (length args) ∧ St h o (L ++ (Some <$> args)) h').
Proof.
  intros HW HA Hm. pose proof (StP_init _ _ _ _ (St_init _ _ _ HW HA)) as HS. unfold arrayproto_push.
  apply does_bind, (does_getLength _ _ L); [done|]. fold (lenZ L). cbv zeta.
  rewrite (proj2 (Z.leb_gt maxInt _)) by (unfold maxInt, MaxUint32 in *; lia).
  set (S := L ++ (Some <$> args)). assert (lenZ S = lenZ L + Z.of_nat (length args)) as HlS.
  { unfold lenZ, S. rewrite length_app, length_fmap. lia. }
  apply does_bind, (does_forEachM 0 args _ _ (λ pre, StP h o (lenZ L) (lenZ S) (λ i, if i <? lenZ L + Z.of_nat (length pre) then at_ S i else None))).
  - apply (StP_weaken _ _ _ _ _ _ _ _ _ HS); [lia|lia|]. intros i Hi. unfold S, lenZ. cbn. at_case.
  - intros pre x h1 [suf Hpre] H1. assert (length args = length pre + 1 + length suf)%nat as Hlen by (rewrite Hpre, !length_app; cbn; lia).
    eapply (stp_setOwnIdx _ _ _ _ _ _ _ _ _ H1); [unfold lenZ in *; lia|lia|]. intros h2 H2. apply (StP_weaken _ _ _ _ _ _ _ _ _ H2); [lia..|].
    intros i Hi. rewrite length_app. cbn [length]. destruct (Z.eqb_spec i (lenZ L + (0 + Z.of_nat (length pre)))) as [->|Hne]; [|zcase; try lia; done].
    zcmp. unfold S, lenZ, at_. zcmp. rewrite lookup_app_r by lia. rewrite list_lookup_fmap, Hpre.
    rewrite lookup_app_l by (rewrite length_app; cbn; lia). rewrite lookup_app_r by lia.
    replace (Z.to_nat (Z.of_nat (length L) + (0 + Z.of_nat (length pre))) - length L - length pre)%nat with 0%nat by lia. done.
  - intros h1 H1. rewrite <- HlS. apply does_bind. eapply (stp_setLength _ _ _ _ _ S); [exact H1|lia| |].
    + intros i Hi. cbv beta. by zcmp.
    + intros h2 H2. by apply does_ret.
Qed.

Lemma pop_generic_spec h o L :
  WfHeap h → ArrayAt h o L →
  does (arrayproto_pop_generic o) h (λ r h', nilSafe r = nilSafe (at_ L (lenZ L - 1)) ∧ St h o (take (length L - 1) L) h').
Proof.
  intros HW HA. pose proof HA as (x & _ & HH & _). pose proof (Holds_max _ _ HH) as Hm.
  pose proof (StP_init _ _ _ _ (St_init _ _ _ HW HA)) as HS. unfold arrayproto_pop_generic.
  apply does_bind, (does_getLength _ _ L); [done|]. fold (lenZ L). destruct (Z.eqb_spec (lenZ L) 0) as [E|E].
  - destruct L; [|done]. apply does_bind. eapply (stp_setLength _ _ _ _ _ []); [exact HS|done|unfold lenZ; cbn; lia|].
    intros h1 H1. apply does_ret. done.
  - cbv zeta. assert (lenZ L - 1 = lenZ (take (length L - 1) L)) as Hl by (unfold lenZ in *; rewrite length_take; lia).
    apply does_bind, (stp_getIdx _ _ _ _ _ _ _ _ HS); [unfold lenZ in *; lia|]. apply does_bind.
    eapply (stp_deleteIdx _ _ _ _ _ _ _ _ HS); [unfold lenZ in *; lia|]. intros h1 H1. apply does_bind. rewrite Hl at 1.
    eapply (stp_setLength _ _ _ _ _ (take (length L - 1) L)); [exact H1|unfold lenZ in *; lia| |].
    + intros i Hi. unfold lenZ in *. at_case.
    + intros h2 H2. by apply does_ret.
Qed.

Lemma shift_generic_spec h o L :
  WfHeap h → ArrayAt h o L →
  does (shiftGeneric o) h (λ r h', nilSafe r = nilSafe (at_ L 0) ∧ St h o (tail L) h').
Proof.
  intros HW HA. pose proof HA as (x & _ & HH & _). pose proof (Holds_max _ _ HH) as Hm. fold (lenZ L) in Hm.
  pose proof (StP_init _ _ _ _ (St_init _ _ _ HW HA)) as HS. unfold shiftGeneric.
  apply does_bind, (does_getLength _ _ L); [done|]. fold (lenZ L). destruct (Z.eqb_spec (lenZ L) 0) as [E|E].
  - destruct L; [|done]. apply does_bind. eapply (stp_setLength _ _ _ _ _ []); [exact HS|done|unfold lenZ; cbn; lia|].
    intros h1 H1. apply does_ret. done.
  - assert (0 < lenZ L) as Hpos by (unfold lenZ in *; lia).
    assert (lenZ L - 1 = lenZ (tail L)) as Hl by (unfold lenZ in *; rewrite length_tail; lia).
    apply does_bind, (stp_getIdx _ _ _ _ _ _ _ _ HS); [lia|]. apply does_bind.
    eapply (does_forRange _ _ _ _ (λ j, StP h o (lenZ L) (lenZ L) (λ i, if i <? j - 1 then at_ L (i + 1) else at_ L i))).
    + lia.
    + apply (StP_weaken _ _ _ _ _ _ _ _ _ HS); [lia..|]. intros i Hi. by zcmp.
    + intros j h1 Hj H1. apply (stp_move _ _ _ _ _ _ _ _ _ H1); [lia..|]. intros h2 H2. apply (StP_weaken _ _ _ _ _ _ _ _ _ H2); [lia..|].
      intros i Hi. zcase; try lia; try done. f_equal; lia.
    + intros h1 H1. cbv zeta. apply does_bind, (stp_deleteIdx _ _ _ _ _ _ _ _ H1); [lia|]. intros h2 H2. apply does_bind. rewrite Hl at 1.
      eapply (stp_setLength _ _ _ _ _ (tail L)); [exact H2|lia| |].
      * intros i Hi. cbv beta. rewrite at_tail by lia. by zcmp.
      * intros h3 H3. by apply does_ret.
Qed.

Lemma unshift_generic_spec h o L args (Q : unit → heap → Prop) :
  WfHeap h → ArrayAt h o L → lenZ L + Z.of_nat (length args) ≤ MaxUint32 →
  (∀ h', StP h o (lenZ L) (lenZ L + Z.of_nat (length args)) (at_ ((Some <$> args) ++ L)) h' → Q () h') →
  does (unshiftGeneric o (lenZ L) args) h Q.
Proof.
  intros HW HA Hm HQ. pose proof (StP_init _ _ _ _ (St_init _ _ _ HW HA)) as HS. unfold unshiftGeneric.
  set (ac := Z.of_nat (length args)) in *. assert (lenZ L = Z.of_nat (length L)) as HlL by done.
  assert (∀ i, at_ ((Some <$> args) ++ L) i = if i <? ac then at_ (Some <$> args) i else at_ L (i - ac)) as Hat.
  { intros i. rewrite at_app, length_fmap. done. }
  apply does_bind, (does_forRangeDown _ _ _ _ (λ j, StP h o (lenZ L) (lenZ L + ac) (λ i, if i <? j + ac then at_ L i else at_ L (i - ac)))).
  - lia.
  - apply (StP_weaken _ _ _ _ _ _ _ _ _ HS); [lia..|]. intros i Hi. at_case.
  - intros j h1 Hj H1. apply (stp_move _ _ _ _ _ _ _ _ _ H1); [lia..|]. intros h2 H2. apply (StP_weaken _ _ _ _ _ _ _ _ _ H2); [lia..|].
    intros i Hi. zcase; try lia; try done; f_equal; lia.
  - intros h1 H1.
    apply (does_forEachM 0 args _ _ (λ pre, StP h o (lenZ L) (lenZ L + ac)
      (λ i, if (i <? ac) && (Z.of_nat (length pre) <=? i) then at_ L i else at_ ((Some <$> args) ++ L) i))).
    + apply (StP_weaken _ _ _ _ _ _ _ _ _ H1); [lia..|]. intros i Hi. rewrite Hat. cbn [length]. by zcase; try lia.
    + intros pre x h2 [suf Hpre] H2. assert (length args = length pre + 1 + length suf)%nat as Hlen by (rewrite Hpre, !length_app; cbn; lia).
      eapply (stp_setOwnIdx _ _ _ _ _ _ _ _ _ H2); [lia|lia|]. intros h3 H3. apply (StP_weaken _ _ _ _ _ _ _ _ _ H3); [lia..|].
      intros i Hi. rewrite length_app. cbn [length]. destruct (Z.eqb_spec i (0 + Z.of_nat (length pre))) as [->|Hne]; [|by zcase; try lia].
      zcmp. rewrite andb_false_r, Hat. zcmp. unfold at_. zcmp. rewrite list_lookup_fmap, Hpre, lookup_app_l by (rewrite length_app; cbn; lia).
      rewrite lookup_app_r by lia. replace (Z.to_nat (0 + Z.of_nat (length pre)) - length pre)%nat with 0%nat by lia. done.
    + intros h2 H2. apply HQ, (StP_weaken _ _ _ _ _ _ _ _ _ H2); [lia..|]. intros i Hi. by zcase; try lia.
Qed.

Lemma reverse_generic_spec h o L :
  WfHeap h → ArrayAt h o L → does (arrayproto_reverse_generic o 0) h (λ _, St h o (reverse L)).
Proof.
  intros HW HA. pose proof HA as (x & _ & HH & _). pose proof (Holds_max _ _ HH) as Hm. fold (lenZ L) in Hm.
  pose proof (StP_init _ _ _ _ (St_init _ _ _ HW HA)) as HS. unfold arrayproto_reverse_generic.
  apply does_bind, (does_getLength _ _ L); [done|]. fold (lenZ L). cbv zeta. set (n := lenZ L) in *.
  assert (0 ≤ n) by (unfold n, lenZ; lia). assert (2 * (n / 2) ≤ n < 2 * (n / 2) + 2) as Hmid by (pose proof (Z.div_mod n 2); pose proof (Z.mod_pos_bound n 2); lia).
  eapply (does_forRange _ _ _ _ (λ j, StP h o n n (λ i, if (i <? j) || (n - j <=? i) then at_ L (n - 1 - i) else at_ L i))).
  - lia.
  - apply (StP_weaken _ _ _ _ _ _ _ _ _ HS); [lia..|]. intros i Hi. unfold n, lenZ. zcase; try lia; try done. rewrite at_ge by lia. symmetry. apply at_neg. lia.
  - intros j h1 Hj H1. unfold arrayproto_reverse_generic_step.
    set (f := λ i, if (i <? j) || (n - j <=? i) then at_ L (n - 1 - i) else at_ L i) in *.
    assert (f j = at_ L j) as Hlo by (unfold f; zcase; try lia; done).
    assert (f (n - j - 1) = at_ L (n - j - 1)) as Hup by (unfold f; zcase; try lia; done).
    assert (∀ h', StP h o n n (λ i, if i =? j then at_ L (n - j - 1) else if i =? n - j - 1 then at_ L j else f i) h' →
      StP h o n n (λ i, if (i <? j + 1) || (n - (j + 1) <=? i) then at_ L (n - 1 - i) else at_ L i) h') as Hdone.
    { intros h' H'. apply (StP_weaken _ _ _ _ _ _ _ _ _ H'); [lia..|]. intros i Hi. unfold f. zcase; try lia; try done; f_equal; lia. }
    apply does_bind, (stp_has _ _ _ _ _ _ _ _ H1); [lia|]. rewrite Hlo.
    apply does_bind.
    assert (∀ (Q : Value → heap → Prop), Q (nilSafe (at_ L j)) h1 →
      does (if isSome (at_ L j) then v ← getIdx o j; mret (nilSafe v) else mret VUndefined) h1 Q) as Hgl.
    { intros Q HQ. destruct (at_ L j) as [v|] eqn:Ev; cbn [isSome]; [|by apply does_ret].
      apply does_bind, (stp_getIdx _ _ _ _ _ _ _ _ H1); [lia|]. rewrite Hlo, ?Ev. by apply does_ret. }
    assert (∀ (Q : Value → heap → Prop), Q (nilSafe (at_ L (n - j - 1))) h1 →
      does (if isSome (at_ L (n - j - 1)) then v ← getIdx o (n - j - 1); mret (nilSafe v) else mret VUndefined) h1 Q) as Hgu.
    { intros Q HQ. destruct (at_ L (n - j - 1)) as [v|] eqn:Ev; cbn [isSome]; [|by apply does_ret].
      apply does_bind, (stp_getIdx _ _ _ _ _ _ _ _ H1); [lia|]. rewrite Hup, ?Ev. by apply does_ret. }
    apply Hgl. apply does_bind, (stp_has _ _ _ _ _ _ _ _ H1); [lia|]. rewrite Hup. apply does_bind, Hgu. clear Hgl Hgu.
    destruct (at_ L j) as [vl|] eqn:El, (at_ L (n - j - 1)) as [vu|] eqn:Eu; cbn [isSome nilSafe default].
    + apply does_bind, (stp_setOwnIdx _ _ _ _ _ _ _ _ _ H1); [lia..|]. intros h2 H2. apply (stp_setOwnIdx _ _ _ _ _ _ _ _ _ H2); [lia..|].
      intros h3 H3. apply Hdone, (StP_weaken _ _ _ _ _ _ _ _ _ H3); [lia..|]. intros i Hi. zcase; try lia; done.
    + apply does_bind, (stp_deleteIdx _ _ _ _ _ _ _ _ H1); [lia..|]. intros h2 H2. apply (stp_setOwnIdx _ _ _ _ _ _ _ _ _ H2); [lia..|].
      intros h3 H3. apply Hdone, (StP_weaken _ _ _ _ _ _ _ _ _ H3); [lia..|]. intros i Hi. zcase; try lia; done.
    + apply does_bind, (stp_setOwnIdx _ _ _ _ _ _ _ _ _ H1); [lia..|]. intros h2 H2. apply (stp_deleteIdx _ _ _ _ _ _ _ _ H2); [lia..|].
      intros h3 H3. apply Hdone, (StP_weaken _ _ _ _ _ _ _ _ _ H3); [lia..|]. intros i Hi. zcase; try lia; done.
    + apply does_ret, Hdone, (StP_weaken _ _ _ _ _ _ _ _ _ H1); [lia..|]. intros i Hi. zcase; try lia; subst; congruence.
  - intros h1 H1. assert (lenZ (reverse L) = n) as Hlr by (unfold n, lenZ; by rewrite length_reverse).
    apply (StP_list _ _ _ (λ i, if (i <? n / 2) || (n - n / 2 <=? i) then at_ L (n - 1 - i) else at_ L i)); [by rewrite Hlr|].
    intros i Hi. rewrite at_reverse. fold (lenZ L). fold n. zcase; try lia; try done. f_equal; lia.
Qed.

Lemma copyRange_length L to from count :
  0 ≤ to → 0 ≤ from → from + count ≤ lenZ L → to + count ≤ lenZ L → lenZ (copyRange L to from count) = lenZ L.
Proof.
  unfold lenZ, copyRange. intros. destruct (Z.ltb_spec 0 count); [|done]. at_norm. lia.
Qed.

Lemma at_copyRange L to from count i :
  0 ≤ i → 0 ≤ to → 0 ≤ from → from + count ≤ lenZ L → to + count ≤ lenZ L →
  at_ (copyRange L to from count) i = if (to <=? i) && (i <? to + count) then at_ L (from + i - to) else at_ L i.
Proof.
  unfold lenZ, copyRange. intros. destruct (Z.ltb_spec 0 count); [|zcase; try lia; done]. at_case.
Qed.

Lemma copyWithin_generic_spec h o L to from count :
  WfHeap h → ArrayAt h o L → 0 ≤ to → 0 ≤ from → from + count ≤ lenZ L → to + count ≤ lenZ L →
  does (copyWithinGeneric o to from count) h (λ _, St h o (copyRange L to from count)).
Proof.
  intros HW HA Hto Hfrom Hf Ht. pose proof HA as (x & _ & HH & _). pose proof (Holds_max _ _ HH) as Hm. fold (lenZ L) in Hm.
  pose proof (StP_init _ _ _ _ (St_init _ _ _ HW HA)) as HS. unfold copyWithinGeneric.
  pose proof (copyRange_length L to from count Hto Hfrom Hf Ht) as Hlen.
  destruct ((from <? to) && (to <? from + count)) eqn:Edir.
  - apply andb_true_iff in Edir as [E1%Z.ltb_lt E2%Z.ltb_lt].
    eapply (does_forUp _ _ _ _ (λ j, StP h o (lenZ L) (lenZ L)
      (λ i, if (to + count - j <=? i) && (i <? to + count) then at_ L (from + i - to) else at_ L i))).
    + apply (StP_weaken _ _ _ _ _ _ _ _ _ HS); [lia..|]. intros i Hi. zcase; try lia; done.
    + intros j h1 Hj H1. apply (stp_move _ _ _ _ _ _ _ _ _ H1); [lia..|]. intros h2 H2. apply (StP_weaken _ _ _ _ _ _ _ _ _ H2); [lia..|].
      intros i Hi. zcase; try lia; try done; f_equal; lia.
    + intros h1 H1. rewrite <- Hlen in H1. apply (StP_list _ _ _ _ _ H1). intros i Hi. rewrite at_copyRange by lia. zcase; try lia; done.
  - assert (¬ (from < to ∧ to < from + count)) as Hdir.
    { intros [E1%Z.ltb_lt E2%Z.ltb_lt]. by rewrite E1, E2 in Edir. }
    eapply (does_forUp _ _ _ _ (λ j, StP h o (lenZ L) (lenZ L)
      (λ i, if (to <=? i) && (i <? to + j) then at_ L (from + i - to) else at_ L i))).
    + apply (StP_weaken _ _ _ _ _ _ _ _ _ HS); [lia..|]. intros i Hi. zcase; try lia; done.
    + intros j h1 Hj H1. apply (stp_move _ _ _ _ _ _ _ _ _ H1); [lia..|]. intros h2 H2. apply (StP_weaken _ _ _ _ _ _ _ _ _ H2); [lia..|].
      intros i Hi. zcase; try lia; try done; f_equal; lia.
    + intros h1 H1. rewrite <- Hlen in H1. apply (StP_list _ _ _ _ _ H1). intros i Hi. rewrite at_copyRange by lia. zcase; try lia; done.
Qed.

Lemma fillRange_length L k final v : 0 ≤ k ≤ lenZ L → 0 ≤ final ≤ lenZ L → lenZ (fillRange L k final v) = lenZ L.
Proof. unfold lenZ, fillRange. intros. destruct (Z.ltb_spec k final); [|done]. at_norm. lia. Qed.

Lemma at_fillRange L k final v i :
  0 ≤ i → 0 ≤ k ≤ lenZ L → 0 ≤ final ≤ lenZ L →
  at_ (fillRange L k final v) i = if (k <=? i) && (i <? final) then Some v else at_ L i.
Proof.
  unfold lenZ, fillRange. intros. destruct (Z.ltb_spec k final); [|zcase; try lia; done]. at_norm.
  zcase; try lia; at_norm; zcase; try lia; at_norm; try done; try (rewrite at_replicate by lia; done); f_equal; lia.
Qed.

Lemma fill_generic_spec h o L k final v :
  WfHeap h → ArrayAt h o L → 0 ≤ k ≤ lenZ L → 0 ≤ final ≤ lenZ L →
  does (forRange k final (λ k, setOwnIdx o k v)) h (λ _, St h o (fillRange L k final v)).
Proof.
  intros HW HA Hk Hf. pose proof HA as (x & _ & HH & _). pose proof (Holds_max _ _ HH) as Hm. fold (lenZ L) in Hm.
  destruct (decide (final ≤ k)) as [Hle|Hlt].
  { rewrite forRange_empty by done. apply does_ret. unfold fillRange. rewrite (proj2 (Z.ltb_ge k final)) by lia. by apply St_init. }
  pose proof (StP_init _ _ _ _ (St_init _ _ _ HW HA)) as HS.
  eapply (does_forRange _ _ _ _ (λ j, StP h o (lenZ L) (lenZ L) (λ i, if (k <=? i) && (i <? j) then Some v else at_ L i))); [lia| | |].
  - apply (StP_weaken _ _ _ _ _ _ _ _ _ HS); [lia..|]. intros i Hi. zcase; try lia; done.
  - intros j h1 Hj H1. apply (stp_setOwnIdx _ _ _ _ _ _ _ _ _ H1); [lia..|]. intros h2 H2. apply (StP_weaken _ _ _ _ _ _ _ _ _ H2); [lia..|].
    intros i Hi. zcase; try lia; try done.
  - intros h1 H1. rewrite <- (fillRange_length L k final v Hk Hf) in H1. apply (StP_list _ _ _ _ _ H1). intros i Hi.
    rewrite fillRange_length in Hi by done. rewrite at_fillRange by lia. done.
Qed.

(** *** splice *)

(** The loops that fill the new array [a] read [o] and leave it alone. *)
Lemma StP_other h0 o a L lo hi f h : ArrayAt h0 o L → o ≠ a → StP h0 a lo hi f h → ArrayAt h o L.
Proof. intros HA Hne (L' & HS & _). eapply ArrayAt_only; [done|apply (st_only _ _ _ _ HS)|done]. Qed.

(** The elements of an argument list. *)
Lemma at_args (args : list Value) pre x suf : args = (pre ++ [x]) ++ suf → at_ (Some <$> args) (Z.of_nat (length pre)) = Some x.
Proof.
  intros ->. unfold at_. zcmp. rewrite Nat2Z.id, list_lookup_fmap, lookup_app_l by (rewrite length_app; cbn; lia).
  by rewrite lookup_app_r, Nat.sub_diag by lia.
Qed.

Lemma splice_removed h o a L start count (Q : unit → heap → Prop) :
  WfHeap h → ArrayAt h o L → ArrayAt h a (replicate (Z.to_nat count) None) → o ≠ a →
  0 ≤ start → 0 ≤ count → start + count ≤ lenZ L →
  (∀ h', St h a (take (Z.to_nat count) (drop (Z.to_nat start) L)) h' → Q () h') →
  does (forRange 0 count (λ k,
    e ← hasPropertyIdx o (k + start);
    if e : bool then v ← getIdx o (k + start); createDataPropertyOrThrow a k (Some (nilSafe v)) else mret ())) h Q.
Proof.
  intros HW HA Ha Hne Hs Hc Hsc HQ. pose proof HA as (x & _ & HH & _). pose proof (Holds_max _ _ HH) as Hm. fold (lenZ L) in Hm.
  pose proof (StP_init _ _ _ _ (St_init _ _ _ HW Ha)) as HS. assert (lenZ (replicate (Z.to_nat count) None) = count) as Hlr.
  { unfold lenZ. rewrite length_replicate. lia. }
  eapply (does_forRange _ _ _ _ (λ j, StP h a count count (λ i, if i <? j then at_ L (start + i) else None))); [lia| | |].
  - apply (StP_weaken _ _ _ _ _ _ _ _ _ HS); [lia..|]. intros i Hi. rewrite at_holes. by zcmp.
  - intros j h1 Hj H1. pose proof (StP_other _ _ _ _ _ _ _ _ HA Hne H1) as HA1. apply does_bind, (does_has _ _ L); [done|lia|].
    destruct (at_ L (j + start)) as [v|] eqn:Ev; cbn [isSome].
    + apply does_bind, (does_getIdx _ _ L); [done|lia|]. rewrite Ev. cbn [nilSafe default]. destruct H1 as (La & HSa & Hb & Hf).
      eapply (does_createDataProperty callable_identity); [done|lia|]. intros h2 H2. exists (setElem La j v). split; [done|].
      unfold lenZ in *. rewrite setElem_length by lia. split; [lia|]. intros i Hi. rewrite at_setElem by lia. rewrite Hf by done.
      zcase; try lia; subst; try done. rewrite <- Ev. f_equal; lia.
    + apply does_ret. apply (StP_weaken _ _ _ _ _ _ _ _ _ H1); [lia..|]. intros i Hi. zcase; try lia; try done.
      replace (start + i) with (j + start) by lia. done.
  - intros h1 H1. apply HQ, (StP_list _ _ _ (λ i, if i <? count then at_ L (start + i) else None)).
    + assert (lenZ (take (Z.to_nat count) (drop (Z.to_nat start) L)) = count) as ->; [|done]. unfold lenZ in *. at_norm. lia.
    + unfold lenZ in *. intros i Hi. rewrite length_take, length_drop in Hi. at_case.
Qed.

(** Moving the elements behind the removed ones, and deleting those at the end. *)
Definition Moved (h0 : heap) (o : positive) (L : elems) (start count ic hi : Z) (h : heap) : Prop :=
  ∃ g, StP h0 o 0 hi g h ∧
    ∀ i, 0 ≤ i < lenZ L - count + ic → g i = if i <? start then at_ L i else if i <? start + ic then g i else at_ L (i - ic + count).

Lemma splice_moved h o L start count ic (Q : unit → heap → Prop) :
  WfHeap h → ArrayAt h o L → 0 ≤ start → 0 ≤ count → 0 ≤ ic → start + count ≤ lenZ L → lenZ L - count + ic ≤ MaxUint32 →
  (∀ h', Moved h o L start count ic (Z.max (lenZ L) (lenZ L - count + ic)) h' → Q () h') →
  does (if ic <? count then
          forRange start (lenZ L - count) (λ k, moveElement o (k + count) (k + ic)) ;;
          forRangeDown (lenZ L) (lenZ L - count + ic) (λ k, deleteIdx o k)
        else if count <? ic then
          forRangeDown (lenZ L - count) start (λ k, moveElement o (k + count) (k + ic))
        else mret ()) h Q.
Proof.
  intros HW HA Hs Hc Hic Hsc Hmax HQ. pose proof HA as (x & _ & HH & _). pose proof (Holds_max _ _ HH) as Hm. fold (lenZ L) in Hm.
  assert (lenZ L = Z.of_nat (length L)) as HlL by done.
  pose proof (StP_weaken _ _ _ _ 0 (Z.max (lenZ L) (lenZ L - count + ic)) _ _ _ (StP_init _ _ _ _ (St_init _ _ _ HW HA)) ltac:(lia) ltac:(lia) ltac:(done)) as HS.
  set (hi := Z.max (lenZ L) (lenZ L - count + ic)) in *.
  destruct (Z.ltb_spec ic count) as [E1|E1]; [|destruct (Z.ltb_spec count ic) as [E2|E2]].
  - apply does_bind, (does_forRange _ _ _ _ (λ j, StP h o 0 hi (λ i, if (start + ic <=? i) && (i <? j + ic) then at_ L (i - ic + count) else at_ L i))); [lia| | |].
    + apply (StP_weaken _ _ _ _ _ _ _ _ _ HS); [lia..|]. intros i Hi. zcase; try lia; done.
    + intros j h1 Hj H1. apply (stp_move _ _ _ _ _ _ _ _ _ H1); [lia..|]. intros h2 H2. apply (StP_weaken _ _ _ _ _ _ _ _ _ H2); [lia..|].
      intros i Hi. zcase; try lia; try done; f_equal; lia.
    + intros h1 H1. set (f := λ i, if (start + ic <=? i) && _ then _ else _) in H1.
      apply (does_forRangeDown _ _ _ _ (λ j, StP h o 0 hi (λ i, if (j <=? i) && (i <? lenZ L) then None else f i))); [lia| | |].
      * apply (StP_weaken _ _ _ _ _ _ _ _ _ H1); [lia..|]. intros i Hi. zcase; try lia; done.
      * intros j h2 Hj H2. apply (stp_deleteIdx _ _ _ _ _ _ _ _ H2); [lia..|]. intros h3 H3. apply (StP_weaken _ _ _ _ _ _ _ _ _ H3); [lia..|].
        intros i Hi. zcase; try lia; done.
      * intros h2 H2. apply HQ. eexists. split; [exact H2|]. intros i Hi. cbv beta. unfold f. zcase; try lia; done.
  - apply (does_forRangeDown _ _ _ _ (λ j, StP h o 0 hi (λ i, if i <? j + ic then at_ L i else at_ L (i - ic + count)))); [lia| | |].
    + apply (StP_weaken _ _ _ _ _ _ _ _ _ HS); [lia..|]. intros i Hi. at_case.
    + intros j h1 Hj H1. apply (stp_move _ _ _ _ _ _ _ _ _ H1); [lia..|]. intros h2 H2. apply (StP_weaken _ _ _ _ _ _ _ _ _ H2); [lia..|].
      intros i Hi. zcase; try lia; try done; f_equal; lia.
    + intros h1 H1. apply HQ. eexists. split; [exact H1|]. intros i Hi. cbv beta. zcase; try lia; done.
  - apply does_ret, HQ. eexists. split; [exact HS|]. intros i Hi. zcase; try lia; try done. f_equal; lia.
Qed.

Lemma spliceList_length L start count items :
  0 ≤ start → 0 ≤ count → start + count ≤ lenZ L →
  lenZ (spliceList L start count items) = lenZ L - count + Z.of_nat (length items).
Proof. unfold lenZ, spliceList. intros. at_norm. lia. Qed.

Lemma at_spliceList L start count items i :
  0 ≤ start → 0 ≤ count → start + count ≤ lenZ L →
  at_ (spliceList L start count items) i =
    if i <? start then at_ L i
    else if i <? start + Z.of_nat (length items) then at_ (Some <$> items) (i - start)
    else at_ L (i - Z.of_nat (length items) + count).
Proof. unfold lenZ, spliceList. intros. at_case. Qed.

Lemma splice_generic_spec h o a L start count items (Q : unit → heap → Prop) :
  WfHeap h → ArrayAt h o L → ArrayAt h a (replicate (Z.to_nat count) None) → o ≠ a →
  0 ≤ start → 0 ≤ count → start + count ≤ lenZ L → lenZ L - count + Z.of_nat (length items) ≤ MaxUint32 →
  (∀ h1 h2 lo hi g, St h a (take (Z.to_nat count) (drop (Z.to_nat start) L)) h1 → StP h1 o lo hi g h2 →
     (∀ i, 0 ≤ i < lenZ L - count + Z.of_nat (length items) → g i = at_ (spliceList L start count items) i) → Q () h2) →
  does (spliceGeneric o a (lenZ L) start count items) h Q.
Proof.
  intros HW HA Ha Hne Hs Hc Hsc Hmax HQ. unfold spliceGeneric. set (ic := Z.of_nat (length items)) in *.
  apply does_bind, (splice_removed h o a L); [done..|]. intros h1 H1. pose proof (ArrayAt_only _ _ _ _ _ HA (st_only _ _ _ _ H1) Hne) as HA1.
  apply does_bind, splice_moved; [apply (st_wf _ _ _ _ H1)|done|lia|lia|lia|lia|lia|]. intros h2 (g & H2 & Hg).
  set (hi := Z.max (lenZ L) (lenZ L - count + ic)) in *.
  apply (does_forEachM 0 items _ _ (λ pre, StP h1 o 0 hi
    (λ i, if (start <=? i) && (i <? start + Z.of_nat (length pre)) then at_ (Some <$> items) (i - start) else g i))).
  - apply (StP_weaken _ _ _ _ _ _ _ _ _ H2); [lia..|]. intros i Hi. cbn [length]. zcase; try lia; done.
  - intros pre x h3 [suf Hpre] H3. assert (length items = length pre + 1 + length suf)%nat as Hlen by (rewrite Hpre, !length_app; cbn; lia).
    eapply (stp_setOwnIdx _ _ _ _ _ _ _ _ _ H3); [lia|lia|]. intros h4 H4. apply (StP_weaken _ _ _ _ _ _ _ _ _ H4); [lia..|].
    intros i Hi. rewrite length_app. cbn [length]. destruct (Z.eqb_spec i (start + (0 + Z.of_nat (length pre)))) as [->|Hni]; [|zcase; try lia; done].
    zcmp. cbn [andb]. replace (start + (0 + Z.of_nat (length pre)) - start) with (Z.of_nat (length pre)) by lia.
    by rewrite (at_args _ _ _ _ Hpre).
  - intros h3 H3. eapply HQ; [exact H1|exact H3|]. intros i Hi. cbv beta.
    rewrite at_spliceList by lia. fold ic. rewrite (Hg i Hi). zcase; try lia; done.
Qed.

End generic.
End ArrayProtoGeneric.
