(* ===== verification/ArrayProtoFast.v ===== *)
(** * Array.prototype: the direct paths

    The paths that work on the slice of a dense array: copies between slices and
    within one, in place or into a new backing array.  On an array that passes the
    check they leave the same elements as the specification. *)

From S2P Require Import Prelude ArrayIndex Float64 Numbers Values Property Objects Arrays ArrayProto ArrayProtoHeap ArrayProtoSpec ArrayProtoGeneric.
Import ArrayIndex Numbers Values Property Objects ArrayProto ArrayProtoHeap ArrayProtoSpec ArrayProtoGeneric.
Open Scope Z_scope.

Module ArrayProtoFast.

(** ** Copies *)

Lemma goCopyAt_eq {A} (dst : list A) k src :
  (k ≤ length dst)%nat → goCopyAt dst k src = take k dst ++ take (length dst - k) src ++ drop (k + length src) dst.
Proof. intros Hk. unfold goCopyAt, goCopy. by rewrite length_drop, drop_drop. Qed.

Lemma goCopy_full {A} (dst src : list A) : (length dst ≤ length src)%nat → goCopy dst src = take (length dst) src.
Proof. intros Hl. unfold goCopy. by rewrite (drop_ge dst), app_nil_r. Qed.

Lemma swapLoop_lookup n lower (vs : cells) i :
  (2 * (lower + n) ≤ length vs)%nat →
  length (swapLoop n lower vs) = length vs ∧
  swapLoop n lower vs !! i =
    if bool_decide (lower ≤ i < lower + n ∨ length vs - lower - n ≤ i < length vs - lower)%nat
    then vs !! (length vs - 1 - i)%nat else vs !! i.
Proof.
  revert lower vs. induction n as [|n IH]; intros lower vs Hn; cbn [swapLoop].
  { split; [done|]. rewrite bool_decide_eq_false_2 by lia. done. }
  destruct (lookup_lt_is_Some_2 vs lower) as [x Hx]; [lia|].
  destruct (lookup_lt_is_Some_2 vs (length vs - lower - 1)) as [y Hy]; [lia|]. rewrite Hx, Hy.
  set (vs' := <[lower := y]> (<[(length vs - lower - 1)%nat := x]> vs)).
  assert (length vs' = length vs) as Hl by (unfold vs'; by rewrite !length_insert).
  destruct (IH (S lower) vs' ltac:(lia)) as [IH1 IH2]. split; [congruence|]. rewrite IH2, Hl. clear IH1 IH2 IH.
  assert (∀ j, (j < length vs)%nat → vs' !! j = if bool_decide (j = lower ∨ j = length vs - lower - 1)%nat then vs !! (length vs - 1 - j)%nat else vs !! j) as Hv.
  { intros j Hj. unfold vs'. destruct (decide (j = lower)) as [->|H1].
    - rewrite list_lookup_insert_eq by (rewrite length_insert; lia). rewrite bool_decide_eq_true_2 by lia. rewrite <- Hy. f_equal. lia.
    - rewrite list_lookup_insert_ne by done. destruct (decide (j = length vs - lower - 1)%nat) as [->|H2].
      + rewrite list_lookup_insert_eq by lia. rewrite bool_decide_eq_true_2 by lia. rewrite <- Hx. f_equal. lia.
      + rewrite list_lookup_insert_ne by done. by rewrite bool_decide_eq_false_2 by lia. }
  destruct (decide (i < length vs)%nat) as [Hi|Hi].
  - rewrite !Hv by lia. repeat case_bool_decide; try lia; try done; f_equal; lia.
  - rewrite !bool_decide_eq_false_2 by lia. rewrite !lookup_ge_None_2 by lia. done.
Qed.

Lemma swapLoop_reverse (vs : cells) : swapLoop (length vs / 2) 0 vs = reverse vs.
Proof.
  assert (2 * (length vs / 2) ≤ length vs < 2 * (length vs / 2) + 2)%nat as Hd.
  { pose proof (Nat.div_mod (length vs) 2). pose proof (Nat.mod_upper_bound (length vs) 2). lia. }
  apply list_eq. intros i. destruct (swapLoop_lookup (length vs / 2) 0 vs i ltac:(lia)) as [_ ->].
  destruct (decide (i < length vs)%nat) as [Hi|Hi].
  - rewrite reverse_lookup by done. case_bool_decide; f_equal; lia.
  - rewrite bool_decide_eq_false_2 by lia. rewrite !lookup_ge_None_2; [done|rewrite length_reverse; lia|lia].
Qed.

(** ** The array of a struct *)

Section fast.
Context `{Env}.
Hypothesis callable_identity : ∀ p q, callable p = true → selfEqual p q = true → p = q.

(** The struct [p] of the object [o] holds [a], which may be in the middle of an
    update. *)
Record DenseAt (h0 : heap) (o p : positive) (a : Arrays.arrayObject) (h : heap) : Prop := {
  da_wf : WfHeap h;
  da_self : selfs h !! o = Some (SDense p);
  da_struct : structAt h p = Some a;
  da_proto : protoBare h (prototype (Arrays.base a));
  da_only : Only o h0 h;
}.

Lemma St_dense h0 o L h p a : St h0 o L h → selfs h !! o = Some (SDense p) → structAt h p = Some a → DenseAt h0 o p a h.
Proof.
  intros [HW (x & Hx & _ & Hp) HO] Ho Ha. split; try done.
  unfold implOf in Hx. rewrite Ho, Ha in Hx. by injection Hx as <-.
Qed.

Lemma DenseAt_St h0 o p a L h : DenseAt h0 o p a h → Holds (Arrays.Dense a) L → St h0 o L h.
Proof.
  intros [HW Ho Ha Hp HO] HH. split; [done| |done]. exists (Arrays.Dense a). split; [unfold implOf; by rewrite Ho, Ha|by split].
Qed.

Lemma does_write h0 h o p a a' (Q : unit → heap → Prop) :
  DenseAt h0 o p a h → Arrays.base a' = Arrays.base a → (∀ h', DenseAt h0 o p a' h' → Q () h') → does (writeStruct p a') h Q.
Proof.
  intros [HW Ho Ha Hp HO] Hb HQ. destruct (writeStruct_heap h o p a a' HW Ho Ha) as (h' & He & HW' & HO' & Hs & Hat).
  eapply does_eq; [exact He|]. apply HQ. split; [done|by rewrite Hs|done| |by transitivity h]. rewrite Hb. by eapply protoBare_only.
Qed.

(** What happens to loose slices does not change the array. *)
Lemma DenseAt_same h0 o p a h h' : DenseAt h0 o p a h → SameObjs h h' → DenseAt h0 o p a h'.
Proof.
  intros [HW Ho Ha Hp HO] HS. split; [by apply HS|by rewrite (same_selfs _ _ HS)|by rewrite (same_at _ _ HS o)|by eapply protoBare_same|].
  transitivity h; [done|by apply same_only].
Qed.

Lemma ArrayAt_same h h' o L : ArrayAt h o L → SameObjs h h' → ArrayAt h' o L.
Proof. intros (x & Hx & HH & Hp) HS. exists x. split; [by rewrite (same_impl _ _ _ HS)|]. split; [done|by eapply protoBare_same]. Qed.

(** A loose slice becomes that of the array. *)
Lemma does_setValues h0 h o p a s V T (Q : unit → heap → Prop) :
  DenseAt h0 o p a h → Loose h s V T → (∀ h', DenseAt h0 o p (withCells a (V ++ T) (length V)) h' → Q () h') → does (setValues p s) h Q.
Proof.
  intros [HW Ho Ha Hp HO] HL HQ.
  destruct (setSlice_heap h o p a s V T
    (λ st, Struct (stBase st) s (stLength st) (stObjCount st) (stPropValueCount st) (stLengthWritable st)) HW Ho Ha HL)
    as (st & h' & He & _ & (back & ->) & HW' & HO' & Hs & Hat); [done|].
  eapply does_eq; [exact He|]. apply HQ. split; [done|by rewrite Hs| |by eapply protoBare_only|by transitivity h].
  rewrite Hat. unfold withCells, loaded. cbn. by rewrite (loose_len _ _ _ _ HL).
Qed.

Lemma does_read h0 h o p a (Q : Arrays.arrayObject → heap → Prop) : DenseAt h0 o p a h → Q a h → does (readStruct p) h Q.
Proof. intros HD. by apply does_readStruct, (da_struct _ _ _ _ _ HD). Qed.

Lemma Std_Holds a L : Std a L → Holds (Arrays.Dense a) L.
Proof. intros []. apply Holds_dense; try done; rewrite ?std_vlen0; try done. lia. Qed.

Lemma Std_backing a L : Std a L → Arrays.backing a = cellsOf L ++ drop (length L) (Arrays.backing a).
Proof.
  intros HS. rewrite <- (std_cells _ _ HS). unfold Arrays.avalues. rewrite (std_vlen _ _ HS). by rewrite take_drop.
Qed.

(** New contents of the same length, in place. *)
Lemma Std_replace a L L' :
  Std a L → length L' = length L → Std (withCells a (cellsOf L' ++ drop (length L) (Arrays.backing a)) (Arrays.vlen a)) L'.
Proof.
  intros HS Hl. pose proof (Std_backing a L HS) as Hb. destruct HS.
  assert (length (cellsOf L' ++ drop (length L) (Arrays.backing a)) = length (Arrays.backing a)) as Hlen.
  { rewrite length_app, length_drop, length_cellsOf. lia. }
  split; unfold withCells, Arrays.avalues; cbn; rewrite ?Hl, ?Hlen; try done.
  - rewrite std_vlen0, <- Hl. rewrite <- (length_cellsOf L') at 1. apply take_app_length.
  - rewrite <- Hl, <- (length_cellsOf L'), drop_app_length. by rewrite length_cellsOf, Hl.
Qed.

(** Assigning the length after the slice was replaced by one of that length. *)
Lemma setLength_fix a L :
  Arrays.avalues a = cellsOf L → Arrays.vlen a = length L → (length L ≤ length (Arrays.backing a))%nat →
  Z.of_nat (length (Arrays.backing a)) ≤ MaxInt64 → Forall (λ o, o = None) (drop (length L) (Arrays.backing a)) →
  lenZ L ≤ MaxUint32 → Arrays.propValueCount a = 0 → Arrays.lengthWritable a = true → extensible (Arrays.base a) = true →
  ∃ a', Arrays.array_setLength a (lenZ L) true = (a', Arrays.Done true) ∧ Holds (Arrays.Dense a') L ∧ Arrays.base a' = Arrays.base a.
Proof.
  intros Hv Hn Hc Hint Ht Hm Hp Hw He. unfold Arrays.array_setLength, Arrays.array_setLengthInt_. rewrite Hw, Hp. cbn [negb].
  rewrite andb_false_r. cbn iota. rewrite Hn. unfold lenZ in *.
  rewrite (uwrap_id 32 (Z.of_nat (length L))) by (unfold MaxUint32 in Hm; change (2 ^ 32) with 4294967296; lia).
  rewrite (proj2 (Z.leb_le _ _)) by lia. rewrite Nat2Z.id, Nat.sub_diag. cbn [replicate app].
  assert (length (cellsOf L) = length L) as Hlc by apply length_cellsOf.
  destruct (_ && _); eexists; (split; [done|]); (split; [|done]); apply Holds_dense; unfold Arrays.avalues in *; cbn; try done; try lia.
  - rewrite Hv, take_take, Nat.min_id. rewrite <- Hlc at 1. by rewrite take_ge.
  - rewrite Hv, length_take. lia.
  - rewrite Hv, length_take. lia.
  - rewrite drop_ge; [done|]. rewrite length_take. lia.
  - rewrite Hn in Hv. rewrite take_drop. done.
  - rewrite take_drop. lia.
  - rewrite take_drop. lia.
  - by rewrite take_drop.
Qed.

Lemma does_setLength_fix h0 h o p a L (Q : unit → heap → Prop) :
  DenseAt h0 o p a h → Arrays.avalues a = cellsOf L → Arrays.vlen a = length L → (length L ≤ length (Arrays.backing a))%nat →
  Z.of_nat (length (Arrays.backing a)) ≤ MaxInt64 → Forall (λ o, o = None) (drop (length L) (Arrays.backing a)) →
  lenZ L ≤ MaxUint32 → Arrays.propValueCount a = 0 → Arrays.lengthWritable a = true → extensible (Arrays.base a) = true →
  (∀ h', St h0 o L h' → Q () h') → does (setLength o (lenZ L)) h Q.
Proof.
  intros HD Hv Hn Hc Hint Ht Hm Hp Hw He HQ. destruct (setLength_fix a L Hv Hn Hc Hint Ht Hm Hp Hw He) as (a' & Hset & HH & Hb).
  unfold setLength. pose proof HD as [HW Ho Ha Hpr HO].
  apply does_bind, (does_lookupObj _ _ (Arrays.Dense a)); [unfold implOf; by rewrite Ho, Ha|].
  rewrite intToValue_small by (unfold lenZ in *; lia). unfold toLengthUint32.
  rewrite (proj2 (Z.leb_le 0 _)), (proj2 (Z.leb_le _ MaxUint32)) by (unfold lenZ in *; lia). cbn [andb liftResult]. apply does_bind, does_ret.
  rewrite Hset. unfold applyArr, Arrays.dense_. cbn [fst snd]. apply does_bind.
  destruct (putImpl_spec h o (Arrays.Dense a) (Arrays.Dense a') HW) as (h' & Hput & HW' & HO' & Hx'); [unfold implOf; by rewrite Ho, Ha|].
  eapply does_eq; [exact Hput|]. apply does_ret, HQ. split; [done| |by transitivity h]. exists (Arrays.Dense a'). split; [done|]. split; [done|].
  unfold protoOf. cbn [Arrays.arrayBase]. rewrite Hb. by eapply protoBare_only.
Qed.

(** A struct whose backing array is the cells of [L] and nil beyond. *)
Record CellsAt (a : Arrays.arrayObject) (L : elems) (T : cells) : Prop := {
  fr_back : Arrays.backing a = cellsOf L ++ T;
  fr_tail : Forall (λ o, o = None) T;
  fr_vlen : Arrays.vlen a = length L;
  fr_int : Z.of_nat (length (Arrays.backing a)) ≤ MaxInt64;
  fr_max : lenZ L ≤ MaxUint32;
  fr_count : Arrays.propValueCount a = 0;
  fr_writable : Arrays.lengthWritable a = true;
  fr_ext : extensible (Arrays.base a) = true;
}.

Lemma CellsAt_parts a L T :
  CellsAt a L T → Arrays.avalues a = cellsOf L ∧ (length L ≤ length (Arrays.backing a))%nat ∧
    Forall (λ o, o = None) (drop (length L) (Arrays.backing a)).
Proof.
  intros []. unfold Arrays.avalues. rewrite fr_vlen0, fr_back0, <- (length_cellsOf L), take_app_length, drop_app_length.
  split; [done|]. split; [rewrite length_app; lia|done].
Qed.

Lemma CellsAt_Std a L T : CellsAt a L T → Arrays.alength a = lenZ L → Std a L.
Proof. intros HF Hl. destruct (CellsAt_parts _ _ _ HF) as (H1 & H2 & H3). destruct HF. by split. Qed.

Lemma does_setLength_fresh h0 h o p a L T (Q : unit → heap → Prop) :
  DenseAt h0 o p a h → CellsAt a L T → (∀ h', St h0 o L h' → Q () h') → does (setLength o (lenZ L)) h Q.
Proof.
  intros HD HF HQ. destruct (CellsAt_parts _ _ _ HF) as (H1 & H2 & H3). destruct HF. by apply (does_setLength_fix _ _ _ _ _ _ _ HD).
Qed.

End fast.
End ArrayProtoFast.
