(* ===== verification/ArrayProtoMutators.v ===== *)
(** * Array.prototype: the methods that change the array

    Each method, whichever path it takes, does to the list of elements what the
    specification says. *)

From S2P Require Import Prelude ArrayIndex Float64 Numbers Values Property Objects Arrays ArrayProto ArrayProtoHeap ArrayProtoSpec ArrayProtoGeneric ArrayProtoFast.
Import ArrayIndex Numbers Values Property Objects ArrayProto ArrayProtoHeap ArrayProtoSpec ArrayProtoGeneric ArrayProtoFast.
Open Scope Z_scope.

Module ArrayProtoMutators.

Section mutators.
Context `{Env}.
Hypothesis callable_identity : ∀ p q, callable p = true → selfEqual p q = true → p = q.
Context (conv : Value → Z).

(** The conversion of a value gives [conv v] and leaves the heap alone. *)
Definition Converts (v : Value) : Prop := ∀ h, VToInteger v h = (Ret (conv v), h).

Lemma does_ToInteger v h (Q : Z → heap → Prop) : Converts v → Q (conv v) h → does (VToInteger v) h Q.
Proof. intros Hv. apply does_eq, Hv. Qed.

Lemma does_endArg v l h (Q : Z → heap → Prop) :
  Converts v → Q (match v with VUndefined => l | _ => conv v end) h → does (endArg v l) h Q.
Proof. intros Hv HQ. destruct v; cbn [endArg]; try (by apply does_ToInteger). by apply does_ret. Qed.

Lemma ArrayAt_max h o L : ArrayAt h o L → 0 ≤ lenZ L ≤ MaxUint32.
Proof. intros (x & _ & HH & _). pose proof (Holds_max _ _ HH). unfold lenZ. lia. Qed.

(** *** pop and shift *)

(** The last cell cleared and the slice one shorter; the array may hold property
    objects elsewhere. *)
Lemma pop_Holds a L l :
  Holds (Arrays.Dense a) L → lenZ L = l + 1 → 0 ≤ l → Arrays.vlen a = length L →
  Holds (Arrays.Dense (withLength (withCells a (<[Z.to_nat l := None]> (Arrays.backing a)) (Z.to_nat l)) l)) (take (length L - 1) L).
Proof.
  intros HH Hl Hpos Hvl. unfold lenZ in Hl. pose proof (Arrays.rep_inv _ _ HH) as HI. cbn in HI. pose proof HI as [I1 I2 I3 I4 I5 I6].
  set (a' := withLength _ _). assert (Arrays.avalues a' = take (Z.to_nat l) (Arrays.avalues a)) as Hv.
  { unfold Arrays.avalues, a'. cbn. rewrite take_insert_ge, take_take by lia. f_equal. lia. }
  assert (Arrays.Rep (Arrays.Dense a') (Arrays.MkSpec (Arrays.below (elemsMap L) l) l true true)) as HR.
  { apply (Arrays.rep_shrunk (Arrays.Dense a) _ (specOf L)); [done| | |done|exact (eq_sym (Arrays.rep_lenW _ _ HH))|done].
    - split; cbn [a' withLength withCells Arrays.vlen Arrays.backing Arrays.alength Arrays.propValueCount]; rewrite ?length_insert; try lia.
      + rewrite (drop_S _ None) by (apply list_lookup_insert_eq; lia). constructor; [done|].
        rewrite drop_insert_lt by lia. replace (S (Z.to_nat l)) with (Arrays.vlen a) by lia. done.
      + fold a'. rewrite Hv. intros i s [Hs _]%lookup_take_Some. by eapply I5.
      + fold a'. rewrite Hv. rewrite <- (take_drop (Z.to_nat l) (Arrays.avalues a)), Arrays.countP_app in I6.
        pose proof (Arrays.countP_nonneg (drop (Z.to_nat l) (Arrays.avalues a))). lia.
    - intros j. cbn [Arrays.elemAt]. rewrite Hv. apply Arrays.atIdx_take. }
  apply (Holds_specEq _ _ _ HR); cbn; [|rewrite length_take; lia|done..].
  intros i. rewrite Arrays.below_lookup, elemsMap_lookup, at_take. zcase; try lia; done.
Qed.

Lemma pop_spec h o L :
  WfHeap h → ArrayAt h o L →
  does (arrayproto_pop o) h (λ r h', nilSafe r = nilSafe (at_ L (lenZ L - 1)) ∧ St h o (take (length L - 1) L) h').
Proof.
  intros HW HA. pose proof (ArrayAt_max _ _ _ HA) as Hm. unfold arrayproto_pop. apply does_bind. eapply does_eq; [done|].
  pose proof (pop_generic_spec h o L HW HA) as Hgen. pose proof HA as (x & Hx & HH & _).
  destruct (selfs h !! o) as [[p| |]|] eqn:Ho; try done. unfold implOf in Hx. rewrite Ho in Hx.
  destruct (structAt h p) as [a|] eqn:Ha; [|done]. cbn in Hx. injection Hx as <-.
  pose proof (St_dense _ _ _ _ _ _ (St_init _ _ _ HW HA) Ho Ha) as HD. pose proof (Holds_length _ _ HH) as Hl. cbn in Hl. fold (lenZ L) in Hl.
  apply does_bind, (does_read _ _ _ _ _ _ HD). cbv zeta. rewrite Hl.
  assert (Arrays.lengthWritable a = true) as Hw by exact (eq_sym (Arrays.rep_lenW _ _ HH)).
  destruct (Z.ltb_spec 0 (lenZ L)) as [Hpos|Hz].
  - pose proof (Holds_get _ _ (lenZ L - 1) HH ltac:(lia)) as Hg. cbn [Arrays.arrayGet] in Hg.
    destruct (Arrays.array_get a (lenZ L - 1)) as [[v|pr]|] eqn:Eg; [|done..]. destruct Hg as (w & Hw' & [= <-]).
    apply does_bind, (does_write _ _ _ _ _ _ _ HD); [done|]. intros h1 H1. unfold popLength.
    apply does_bind, does_bind, (does_read _ _ _ _ _ _ H1). cbn [Arrays.lengthWritable withCells]. rewrite Hw.
    apply (does_write _ _ _ _ _ _ _ H1); [done|]. intros h2 H2. apply does_ret. split; [by rewrite Hw'|].
    apply (DenseAt_St _ _ _ _ _ _ H2). pose proof (Arrays.rep_inv _ _ HH) as HI. cbn in HI.
    assert (Arrays.vlen a = length L) as Hvl.
    { pose proof (Arrays.id_len a HI). unfold Arrays.array_get in Eg. rewrite (Arrays.u32_vlen a HI) in Eg. unfold lenZ in *.
      destruct (Z.ltb_spec (Z.of_nat (length L) - 1) (Z.of_nat (Arrays.vlen a))); [lia|done]. }
    apply pop_Holds; [done|lia..|done].
  - destruct L; [|cbn in Hz; unfold lenZ in Hz; cbn in Hz; lia]. unfold popLength.
    apply does_bind, does_bind, (does_read _ _ _ _ _ _ HD). rewrite Hw. apply (does_write _ _ _ _ _ _ _ HD); [done|].
    intros h1 H1. apply does_ret. split; [done|]. apply (DenseAt_St _ _ _ _ _ _ H1).
    assert (withLength a (lenZ []) = a) as ->; [|done]. destruct a; cbn in Hl |- *. unfold withLength. cbn. by rewrite Hl.
Qed.
Lemma shift_spec h o L :
  WfHeap h → ArrayAt h o L →
  does (arrayproto_shift o) h (λ r h', nilSafe r = nilSafe (at_ L 0) ∧ St h o (tail L) h').
Proof.
  intros HW HA. pose proof (ArrayAt_max _ _ _ HA) as Hm. unfold arrayproto_shift.
  apply does_bind, (does_checkStdWithProto _ _ L); [done|by apply shift_generic_spec|]. intros p a Ho Ha _ HS.
  pose proof (St_dense _ _ _ _ _ _ (St_init _ _ _ HW HA) Ho Ha) as HD. apply does_bind, (does_read _ _ _ _ _ _ HD).
  pose proof (Std_backing _ _ HS) as Hb. rewrite (std_cells _ _ HS). destruct L as [|x L]; cbn [cellsOf fmap list_fmap].
  - rewrite (std_writable _ _ HS). apply does_bind, does_ret, does_ret. split; [done|by apply St_init].
  - fold (cellsOf L). apply does_bind, (does_write _ _ _ _ _ _ _ HD); [done|]. intros h1 H1.
    assert (St h o L h1) as Hst.
    { apply (DenseAt_St _ _ _ _ _ _ H1), Std_Holds, (CellsAt_Std _ _ (None :: drop (S (length L)) (Arrays.backing a))).
      - rewrite length_cellsOf. unfold lenZ in *. cbn in Hm. destruct HS. split; cbn; try done; [by constructor| |unfold lenZ; lia].
        rewrite length_app, length_cellsOf. cbn. rewrite length_drop. cbn in *. lia.
      - cbn. rewrite (std_len _ _ HS), uwrap_id; unfold lenZ in *; cbn [length] in *; [lia|].
        unfold MaxUint32 in *. change (2 ^ 32) with 4294967296. lia. }
    destruct x as [v|]; cbn [option_fmap option_map cellValue]; by apply does_ret.
Qed.

(** The backing array of unshift, with room for the arguments. *)
Lemma unshift_back a L (args : list Value) :
  Std a L → lenZ L + Z.of_nat (length args) ≤ MaxUint32 →
  let newSize := lenZ L + Z.of_nat (length args) in
  let back :=
    if newSize <=? Z.of_nat (length (Arrays.backing a)) then
      goCopyAt (take (Z.to_nat newSize) (Arrays.backing a)) (Z.to_nat (Z.of_nat (length args))) (take (Z.to_nat (lenZ L)) (Arrays.backing a))
      ++ drop (Z.to_nat newSize) (Arrays.backing a)
    else goCopyAt (make newSize) (Z.to_nat (Z.of_nat (length args))) (Arrays.avalues a) in
  ∃ X T, back = X ++ cellsOf L ++ T ∧ length X = length args ∧ Forall (λ o, o = None) T ∧ Z.of_nat (length back) ≤ MaxInt64.
Proof.
  intros HS Hmax. cbn zeta. pose proof (Std_backing _ _ HS) as Hb. rewrite (std_cells _ _ HS), Nat2Z.id. unfold lenZ in *. rewrite Nat2Z.id.
  destruct HS. assert (length (cellsOf L) = length L) as HlcL by apply length_cellsOf.
  replace (Z.to_nat (Z.of_nat (length L) + Z.of_nat (length args))) with (length args + length L)%nat by lia.
  destruct (Z.leb_spec (Z.of_nat (length L) + Z.of_nat (length args)) (Z.of_nat (length (Arrays.backing a)))) as [Hle|Hgt].
  - assert (take (length L) (Arrays.backing a) = cellsOf L) as -> by (rewrite Hb, <- HlcL; apply take_app_length).
    rewrite goCopyAt_eq by (rewrite length_take; lia). rewrite length_take, take_take.
    rewrite (take_ge (cellsOf L)), (drop_ge (take _ _)), app_nil_r by (rewrite ?length_take; lia). rewrite <- app_assoc.
    eexists _, _. split; [done|]. split; [rewrite length_take; lia|]. split.
    + rewrite Nat.add_comm, <- drop_drop. by apply Forall_drop.
    + rewrite !length_app, length_take, length_drop. lia.
  - unfold make. replace (Z.to_nat (Z.of_nat (length L) + Z.of_nat (length args))) with (length args + length L)%nat by lia.
    rewrite goCopyAt_eq by (rewrite length_replicate; lia). rewrite length_replicate.
    rewrite (take_ge (cellsOf L)), (drop_ge (replicate _ _)) by (rewrite ?length_replicate; lia).
    eexists _, []. split; [done|]. split; [rewrite length_take, length_replicate; lia|]. split; [done|].
    rewrite !length_app, length_take, length_replicate. cbn. unfold MaxUint32, MaxInt64 in *. lia.
Qed.

(** The slice of unshift, in place or in a new backing array. *)
Lemma unshift_room h0 h o p a L (args : list Value) (Q : unit → heap → Prop) :
  DenseAt h0 o p a h → Std a L → lenZ L + Z.of_nat (length args) ≤ MaxUint32 →
  let newSize := lenZ L + Z.of_nat (length args) in
  (∀ h', DenseAt h0 o p (withCells a
     (if newSize <=? Z.of_nat (length (Arrays.backing a)) then
        goCopyAt (take (Z.to_nat newSize) (Arrays.backing a)) (length args) (take (Z.to_nat (lenZ L)) (Arrays.backing a))
        ++ drop (Z.to_nat newSize) (Arrays.backing a)
      else goCopyAt (make newSize) (length args) (Arrays.avalues a)) (Z.to_nat newSize)) h' → Q () h') →
  does (if newSize <=? Z.of_nat (length (Arrays.backing a)) then
          writeStruct p (withCells a
            (goCopyAt (take (Z.to_nat newSize) (Arrays.backing a)) (length args) (take (Z.to_nat (lenZ L)) (Arrays.backing a))
             ++ drop (Z.to_nat newSize) (Arrays.backing a)) (Z.to_nat newSize))
        else
          values ← makeSlice newSize;
          copyTo values (Z.of_nat (length args)) (Arrays.avalues a) ;;
          setValues p values) h Q.
Proof.
  cbv zeta. intros HD HS Hmax. set (ns := lenZ L + Z.of_nat (length args)). destruct (ns <=? _); intros HQ; [by apply (does_write _ _ _ _ _ _ _ HD)|].
  apply does_bind, does_newSlice; [by apply (da_wf _ _ _ _ _ HD)|]. intros s h1 S1 L1.
  assert (length (make ns) = Z.to_nat ns) as Hmk by (unfold make; apply length_replicate).
  apply does_bind, (does_copyTo _ _ _ _ _ _ _ L1); [unfold ns, lenZ in *; lia|]. intros h2 S2 L2. rewrite Nat2Z.id in L2.
  apply (does_setValues h0 _ o p a _ _ _ _ ltac:(eapply DenseAt_same; [by eapply DenseAt_same|done]) L2). intros h3 H3. apply HQ.
  cbn [replicate] in H3. rewrite app_nil_r in H3. replace (Z.to_nat ns) with (length (goCopyAt (make ns) (length args) (Arrays.avalues a))); [done|].
  unfold goCopyAt, goCopy. rewrite !length_app, !length_take, !length_drop, Hmk. unfold ns, lenZ. lia.
Qed.

Lemma unshift_spec h o L args :
  WfHeap h → ArrayAt h o L → lenZ L + Z.of_nat (length args) ≤ MaxUint32 →
  does (arrayproto_unshift o args) h (λ r h', r = lenZ L + Z.of_nat (length args) ∧ St h o ((Some <$> args) ++ L) h').
Proof.
  intros HW HA Hmax. pose proof (ArrayAt_max _ _ _ HA) as Hm. unfold arrayproto_unshift.
  apply does_bind, (does_getLength _ _ L); [done|]. fold (lenZ L). cbv zeta. set (L' := (Some <$> args) ++ L).
  assert (lenZ L' = lenZ L + Z.of_nat (length args)) as HlL by (unfold lenZ, L'; rewrite length_app, length_fmap; lia).
  destruct (Z.ltb_spec 0 (Z.of_nat (length args))) as [Hac|Hac].
  2: { destruct args; [|cbn in Hac; lia]. cbn [length Z.of_nat] in *. rewrite Z.add_0_r. apply does_bind, does_ret, does_bind.
       eapply (stp_setLength _ _ _ _ _ L); [apply StP_init, St_init; done|lia|done|]. intros h1 H1. by apply does_ret. }
  rewrite (proj2 (Z.leb_gt maxInt _)) by (unfold maxInt, MaxUint32 in *; lia). apply does_bind.
  assert (does (unshiftGeneric o (lenZ L) args) h (λ _ h1, does (setLength o (lenZ L + Z.of_nat (length args)) ;; mret (lenZ L + Z.of_nat (length args))) h1
     (λ r h', r = lenZ L + Z.of_nat (length args) ∧ St h o L' h'))) as Hgen.
  { apply unshift_generic_spec; [done..|]. intros h1 H1. apply does_bind. rewrite <- HlL at 1. eapply (stp_setLength _ _ _ _ _ L'); [exact H1|lia|done|].
    intros h2 H2. by apply does_ret. }
  apply does_bind, (does_checkStdWithProto _ _ L); [done|by destruct (_ <? MaxUint32)|]. intros p a Ho Ha _ HS.
  destruct (Z.ltb_spec (lenZ L + Z.of_nat (length args)) MaxUint32); [|done]. clear Hgen.
  pose proof (St_dense _ _ _ _ _ _ (St_init _ _ _ HW HA) Ho Ha) as HD. apply does_bind, (does_read _ _ _ _ _ _ HD).
  destruct (unshift_back a L args HS Hmax) as (X & T & HbT & HX & HT & Hint). cbv zeta in HbT, Hint. rewrite Nat2Z.id in HbT, Hint |- *.
  set (back := if _ <=? _ then _ else _) in HbT, Hint. set (ns := Z.to_nat (lenZ L + Z.of_nat (length args))).
  assert (length (X ++ cellsOf L) = ns) as HlX by (unfold ns, lenZ; rewrite length_app, length_cellsOf; lia).
  apply does_bind, (unshift_room h h o p a L args); [done..|]. fold back ns. intros h1 H1.
  apply does_bind, (does_read _ _ _ _ _ _ H1). cbv zeta. cbn [withCells Arrays.vlen Arrays.backing Arrays.alength].
  assert (goCopy (Arrays.avalues (withCells a back ns)) (raw <$> args) ++ drop ns back = cellsOf L' ++ T) as Hback.
  { unfold Arrays.avalues. cbn. rewrite HbT, app_assoc, <- HlX, take_app_length, drop_app_length. f_equal. unfold goCopy, L'.
    rewrite length_fmap, cellsOf_app, cellsOf_raw, take_ge by (rewrite length_app, length_fmap; lia). f_equal.
    by rewrite <- HX, drop_app_length. }
  rewrite Hback. apply (does_write _ _ _ _ _ _ _ H1); [done|]. intros h2 H2. apply does_bind. rewrite <- HlL at 1.
  apply (does_setLength_fresh _ _ _ _ _ _ T _ H2); [|intros h3 H3; by apply does_ret].
  destruct HS. split; try done; [cbn; unfold ns, lenZ in *; lia| |lia].
  cbn [withObjCount withCells Arrays.backing]. rewrite <- Hback. unfold goCopy, Arrays.avalues. cbn.
  rewrite !length_app, length_take, !length_drop, length_take. rewrite length_fmap. lia.
Qed.
(** *** reverse, copyWithin and fill *)

Lemma cellsOf_reverse L : cellsOf (reverse L) = reverse (cellsOf L).
Proof. unfold cellsOf. apply fmap_reverse. Qed.

Lemma reverse_spec h o L : WfHeap h → ArrayAt h o L → does (arrayproto_reverse o) h (λ _, St h o (reverse L)).
Proof.
  intros HW HA. unfold arrayproto_reverse. apply does_bind, (does_checkStd _ _ L); [done|by apply reverse_generic_spec|].
  intros p a Ho Ha _ HS. pose proof (St_dense _ _ _ _ _ _ (St_init _ _ _ HW HA) Ho Ha) as HD. apply does_bind, (does_read _ _ _ _ _ _ HD).
  cbv zeta. rewrite swapLoop_reverse, (std_cells _ _ HS), <- cellsOf_reverse. apply (does_write _ _ _ _ _ _ _ HD); [done|]. intros h1 H1.
  apply (DenseAt_St _ _ _ _ _ _ H1), Std_Holds. rewrite (std_vlen _ _ HS). rewrite <- (std_vlen _ _ HS) at 2.
  apply (Std_replace a L); [done|apply length_reverse].
Qed.

Lemma copyWithin_back a L to from count :
  Std a L → 0 ≤ to → 0 ≤ from → 0 < count → from + count ≤ lenZ L → to + count ≤ lenZ L →
  goCopyAt (take (Z.to_nat (to + count)) (Arrays.backing a)) (Z.to_nat to)
    (drop (Z.to_nat from) (take (Z.to_nat (from + count)) (Arrays.backing a))) ++ drop (Z.to_nat (to + count)) (Arrays.backing a)
  = cellsOf (copyRange L to from count) ++ drop (length L) (Arrays.backing a).
Proof.
  intros HS Hto Hfrom Hc Hf Ht. pose proof (Std_backing _ _ HS) as Hb. unfold lenZ in *.
  assert (length (cellsOf L) = length L) as HlcL by apply length_cellsOf. set (T := drop (length L) (Arrays.backing a)) in *.
  rewrite Hb, !take_app_le, drop_app_le by lia. unfold copyRange. zcmp.
  rewrite goCopyAt_eq by (rewrite length_take; lia). rewrite take_take, length_take, take_drop_commute, take_take.
  rewrite (drop_ge (take (Z.to_nat (to + count)) _)), app_nil_r by (rewrite length_drop, !length_take; lia).
  rewrite !cellsOf_app, <- take_cellsOf, <- (take_cellsOf (Z.to_nat count)), <- !drop_cellsOf, <- !app_assoc. f_equal; [f_equal; lia|]. f_equal.
  rewrite take_drop_commute. f_equal. f_equal. lia.
Qed.

Lemma copyWithin_spec h o L args :
  WfHeap h → ArrayAt h o L → Converts (arg args 0) → Converts (arg args 1) → Converts (arg args 2) →
  does (arrayproto_copyWithin o args) h (λ _, St h o (specMethod conv selfEqual L (CopyWithin args)).1).
Proof.
  intros HW HA C0 C1 C2. pose proof (ArrayAt_max _ _ _ HA) as Hm. unfold arrayproto_copyWithin.
  apply does_bind, (does_getLength _ _ L); [done|]. fold (lenZ L).
  apply does_bind, does_ToInteger; [done|]. apply does_bind, does_ToInteger; [done|]. apply does_bind, does_endArg; [done|]. cbv zeta.
  fold (endIdx conv (arg args 2) (lenZ L)). cbn [specMethod fst].
  set (to := relToIdx (conv (arg args 0)) (lenZ L)). set (from := relToIdx (conv (arg args 1)) (lenZ L)). set (fin := endIdx conv (arg args 2) (lenZ L)).
  pose proof (relToIdx_range (conv (arg args 0)) (lenZ L) ltac:(lia)) as Hto. fold to in Hto.
  pose proof (relToIdx_range (conv (arg args 1)) (lenZ L) ltac:(lia)) as Hfrom. fold from in Hfrom.
  assert (0 ≤ fin ≤ lenZ L) as Hfin by (apply relToIdx_range; lia). set (count := Z.min (fin - from) (lenZ L - to)).
  assert (from + count ≤ lenZ L ∧ to + count ≤ lenZ L) as [Hcf Hct] by lia. clearbody to from fin count.
  apply does_bind, (does_checkStd _ _ L); [done| |].
  - apply copyWithin_generic_spec; [done|done|lia..].
  - intros p a Ho Ha _ HS. pose proof (St_dense _ _ _ _ _ _ (St_init _ _ _ HW HA) Ho Ha) as HD. apply does_bind, (does_read _ _ _ _ _ _ HD).
    destruct (Z.ltb_spec 0 count) as [Hc|Hc].
    2: { apply does_ret. unfold copyRange. rewrite (proj2 (Z.ltb_ge 0 count)) by lia. by apply St_init. }
    assert (Z.of_nat (length L) ≤ Z.of_nat (length (Arrays.backing a))) as Hcap by (pose proof (std_cap _ _ HS); lia).
    unfold lenZ in *. unfold sliceTo. rewrite !(proj2 (Z.leb_le 0 _)), !(proj2 (Z.leb_le _ (Z.of_nat (length (Arrays.backing a))))) by lia. cbn [andb].
    apply does_bind, does_ret, does_bind, does_ret. fold (lenZ L) in *. rewrite (copyWithin_back a L) by (done || unfold lenZ; lia).
    apply (does_write _ _ _ _ _ _ _ HD); [done|]. intros h1 H1. apply (DenseAt_St _ _ _ _ _ _ H1), Std_Holds, (Std_replace a L); [done|].
    pose proof (copyRange_length L to from count). unfold lenZ in *. lia.
Qed.

Lemma Std_store a L k v :
  Std a L → 0 ≤ k < lenZ L → Std (Arrays.array_store a k (raw v)) (<[Z.to_nat k := Some v]> L).
Proof.
  intros HS Hk. unfold lenZ in Hk. destruct HS. split; unfold Arrays.array_store, Arrays.avalues in *; cbn; rewrite ?length_insert; try done.
  - rewrite take_insert_lt by lia. rewrite std_cells0. unfold cellsOf. by rewrite list_fmap_insert.
  - by rewrite drop_insert_lt by lia.
Qed.

Lemma fill_spec h o L args :
  WfHeap h → ArrayAt h o L → Converts (arg args 1) → Converts (arg args 2) →
  does (arrayproto_fill o args) h (λ _, St h o (specMethod conv selfEqual L (Fill args)).1).
Proof.
  intros HW HA C1 C2. pose proof (ArrayAt_max _ _ _ HA) as Hm. unfold arrayproto_fill.
  apply does_bind, (does_getLength _ _ L); [done|]. fold (lenZ L). apply does_bind, does_ToInteger; [done|]. apply does_bind, does_endArg; [done|]. cbv zeta.
  fold (endIdx conv (arg args 2) (lenZ L)). cbn [specMethod fst].
  set (k := relToIdx (conv (arg args 1)) (lenZ L)). set (fin := endIdx conv (arg args 2) (lenZ L)).
  pose proof (relToIdx_range (conv (arg args 1)) (lenZ L) ltac:(lia)) as Hk. fold k in Hk.
  assert (0 ≤ fin ≤ lenZ L) as Hfin by (apply relToIdx_range; lia). set (v := arg args 0).
  apply does_bind, (does_checkStd _ _ L); [done|by apply fill_generic_spec|]. intros p a Ho Ha _ HS.
  pose proof (St_dense _ _ _ _ _ _ (St_init _ _ _ HW HA) Ho Ha) as HD. destruct (decide (fin ≤ k)) as [Hle|Hlt].
  { rewrite forRange_empty by done. apply does_ret. unfold fillRange. rewrite (proj2 (Z.ltb_ge k fin)) by lia. by apply St_init. }
  eapply (does_forRange _ _ _ _ (λ j h', ∃ a' Lj, DenseAt h o p a' h' ∧ Std a' Lj ∧ lenZ Lj = lenZ L ∧
    ∀ i, 0 ≤ i → at_ Lj i = if (k <=? i) && (i <? j) then Some v else at_ L i)); [lia| | |].
  - exists a, L. split; [done|]. split; [done|]. split; [done|]. intros i Hi. zcase; try lia; done.
  - intros j h1 Hj (a1 & Lj & D1 & S1 & Hl1 & Hf1). apply does_bind, (does_read _ _ _ _ _ _ D1). rewrite (std_vlen _ _ S1). fold (lenZ Lj).
    rewrite (proj2 (Z.ltb_lt _ _)) by lia. apply (does_write _ _ _ _ _ _ _ D1); [done|]. intros h2 D2.
    eexists _, _. split; [exact D2|]. split; [apply Std_store; [done|lia]|]. split; [unfold lenZ in *; by rewrite length_insert|].
    intros i Hi. assert (setElem Lj j v = <[Z.to_nat j := Some v]> Lj) as <-.
    { unfold setElem. fold (lenZ Lj). by rewrite (proj2 (Z.ltb_lt _ _)) by lia. }
    rewrite at_setElem by lia. rewrite Hf1 by done. zcase; try lia; done.
  - intros h1 (a1 & Lj & D1 & S1 & Hl1 & Hf1). assert (Lj = fillRange L k fin v) as <-.
    { pose proof (fillRange_length L k fin v). unfold lenZ in *. apply elems_ext; [lia|]. intros i Hi. rewrite Hf1, at_fillRange by (unfold lenZ; lia). done. }
    apply (DenseAt_St _ _ _ _ _ _ D1), Std_Holds, S1.
Qed.
End mutators.
End ArrayProtoMutators.
