(* ===== verification/ArrayProtoSplice.v ===== *)
(** * Array.prototype: splice

    The method with the most paths: the removed elements go to a new array by
    copying or one by one, the rest moves in place or into a new slice, or element
    by element. *)

From S2P Require Import Prelude ArrayIndex Float64 Numbers Values Property Objects Arrays ArrayProto ArrayProtoHeap ArrayProtoSpec ArrayProtoGeneric ArrayProtoFast ArrayProtoMutators.
Import ArrayIndex Numbers Values Property Objects ArrayProto ArrayProtoHeap ArrayProtoSpec ArrayProtoGeneric ArrayProtoFast ArrayProtoMutators.
Open Scope Z_scope.

Module ArrayProtoSplice.

(** The objects that existed before are as they were, except [o]. *)
Record Keeps (o : positive) (h h' : heap) : Prop := {
  keeps_impl : ∀ o', o' ≠ o → (o' < next h)%positive → implOf h' o' = implOf h o';
  keeps_none : ∀ q, selfs h !! q = None → (q < next h)%positive → selfs h' !! q = None;
  keeps_next : (next h ≤ next h')%positive;
}.

#[global] Instance Keeps_preorder o : PreOrder (Keeps o).
Proof.
  split; [by split|]. intros h1 h2 h3 [A1 A2 A3] [B1 B2 B3]. split.
  - intros o' Ho Hn. rewrite B1, A1 by (done || lia). done.
  - intros q Hq Hn. apply B2; [by apply A2|lia].
  - lia.
Qed.

Lemma Only_Keeps o h h' : Only o h h' → Keeps o h h'.
Proof. intros HO. pose proof HO as [_ _ H1 H2]. split; [|done..]. intros o' Hne _. by apply (only_impl _ _ _ _ HO). Qed.

Lemma Only_new_Keeps o a h h' : Only a h h' → (next h ≤ a)%positive → Keeps o h h'.
Proof.
  intros HO Ha. pose proof HO as [_ _ H1 H2]. split; [|done..]. intros o' _ Hn. apply (only_impl _ _ _ _ HO). lia.
Qed.

Section splice.
Context `{Env}.
Hypothesis callable_identity : ∀ p q, callable p = true → selfEqual p q = true → p = q.
Context (conv : Value → Z).
Abbreviation Converts := (Converts conv).

Lemma ArrayAt_next h o L : WfHeap h → ArrayAt h o L → (o < next h)%positive.
Proof.
  intros HW (x & Hx & _). unfold implOf in Hx. destruct (selfs h !! o) as [s|] eqn:E; [|done]. by eapply wf_next.
Qed.

Lemma startOf_range L args : 0 ≤ startOf conv L args ≤ lenZ L.
Proof. apply relToIdx_range. unfold lenZ. lia. Qed.

Lemma countOf_range L args : 0 ≤ countOf conv L args ∧ startOf conv L args + countOf conv L args ≤ lenZ L.
Proof.
  pose proof (startOf_range L args). unfold countOf. destruct args as [|v [|w args]]; lia.
Qed.

Lemma does_spliceArgs h L args (Q : Z * Z * Z → heap → Prop) :
  Converts (arg args 0) → Converts (arg args 1) →
  lenZ L - countOf conv L args + Z.of_nat (length (drop 2 args)) ≤ MaxUint32 →
  Q (startOf conv L args, countOf conv L args, lenZ L - countOf conv L args + Z.of_nat (length (drop 2 args))) h →
  does (spliceArgs (lenZ L) args) h Q.
Proof.
  intros C0 C1 Hm HQ. unfold spliceArgs. apply does_bind, (does_ToInteger conv); [done|]. cbv zeta. fold (startOf conv L args). apply does_bind.
  assert (∀ Q' : Z → heap → Prop, Q' (countOf conv L args) h →
    does match args with
         | [] => mret 0
         | [_] => mret (lenZ L - startOf conv L args)
         | _ => d ← VToInteger (arg args 1); mret (Z.min (Z.max d 0) (lenZ L - startOf conv L args))
         end h Q') as Hd.
  { intros Q' HQ'. destruct args as [|v [|w args]]; [by apply does_ret..|]. by apply does_bind, (does_ToInteger conv). }
  apply Hd. rewrite (proj2 (Z.leb_gt maxInt _)) by (unfold maxInt, MaxUint32 in *; lia). by apply does_ret.
Qed.

(** *** The slice *)

(** The slice around the place of the items. *)
Record Around (V T : cells) (L : elems) (start count ic : Z) : Prop := {
  ar_len : Z.of_nat (length V) = lenZ L - count + ic;
  ar_head : take (Z.to_nat start) V = cellsOf (take (Z.to_nat start) L);
  ar_tail : drop (Z.to_nat (start + ic)) V = cellsOf (drop (Z.to_nat (start + count)) L);
  ar_nil : Forall (λ o, o = None) T;
  ar_int : Z.of_nat (length V + length T) ≤ MaxInt64;
}.

Lemma Around_items V T L start count items :
  Around V T L start count (Z.of_nat (length items)) → 0 ≤ start → 0 ≤ count → start + count ≤ lenZ L →
  (if 0 <? Z.of_nat (length items) then goCopyAt V (Z.to_nat start) (raw <$> items) else V) = cellsOf (spliceList L start count items).
Proof.
  intros [H1 H2 H3 _ _] Hs Hc Hsc. unfold lenZ, spliceList in *. rewrite !cellsOf_app, cellsOf_raw, <- H2, <- H3.
  destruct (Z.ltb_spec 0 (Z.of_nat (length items))) as [Hp|Hz].
  - rewrite goCopyAt_eq by lia. rewrite length_fmap, (take_ge (raw <$> items)) by (rewrite length_fmap; lia). do 3 f_equal. lia.
  - destruct items; [|cbn in Hz; lia]. cbn. rewrite Z.add_0_r. by rewrite take_drop.
Qed.

Lemma around_shrink a L start count ic :
  Std a L → 0 ≤ start → 0 ≤ ic < count → start + count ≤ lenZ L →
  Around (take (Z.to_nat (lenZ L - count + ic)) (goCopyAt (cellsOf L) (Z.to_nat (start + ic)) (drop (Z.to_nat (start + count)) (cellsOf L))))
    (replicate (length (cellsOf L) - Z.to_nat (lenZ L - count + ic)) None ++ drop (length (cellsOf L)) (Arrays.backing a)) L start count ic.
Proof.
  intros HS Hs Hic Hsc. assert (length (cellsOf L) = length L) as Hl by apply length_cellsOf. unfold lenZ in *.
  rewrite goCopyAt_eq by lia. rewrite (take_ge (drop _ _)) by (rewrite length_drop; lia). rewrite app_assoc, take_app_le, take_ge by (rewrite length_app, length_take, length_drop; lia).
  assert (length (take (Z.to_nat (start + ic)) (cellsOf L)) = Z.to_nat (start + ic)) as Ht by (rewrite length_take; lia).
  destruct HS. split; unfold lenZ.
  - rewrite length_app, length_drop. lia.
  - rewrite take_app_le, take_take, take_cellsOf by lia. do 2 f_equal. lia.
  - rewrite drop_app_length' by done. apply drop_cellsOf.
  - apply Forall_app. split; [by apply Forall_replicate|]. by rewrite Hl.
  - rewrite !length_app, length_replicate, !length_drop. lia.
Qed.

Lemma around_grow_inplace a L start count ic :
  Std a L → 0 ≤ start → 0 ≤ count < ic → start + count ≤ lenZ L → lenZ L - count + ic ≤ Z.of_nat (length (Arrays.backing a)) →
  Around (goCopyAt (take (Z.to_nat (lenZ L - count + ic)) (Arrays.backing a)) (Z.to_nat (start + ic))
            (drop (Z.to_nat (start + count)) (take (Z.to_nat (lenZ L)) (Arrays.backing a))))
    (drop (Z.to_nat (lenZ L - count + ic)) (Arrays.backing a)) L start count ic.
Proof.
  intros HS Hs Hic Hsc Hcap. pose proof (Std_backing _ _ HS) as Hb. assert (length (cellsOf L) = length L) as Hl by apply length_cellsOf. unfold lenZ in *.
  assert (take (Z.to_nat (Z.of_nat (length L))) (Arrays.backing a) = cellsOf L) as -> by (rewrite Nat2Z.id, Hb, <- Hl; apply take_app_length).
  rewrite goCopyAt_eq by (rewrite length_take; lia). rewrite length_take, take_take.
  rewrite (take_ge (drop _ _)), (drop_ge (take _ _)), app_nil_r by (rewrite length_drop, ?length_take; lia).
  assert (length (take (Z.to_nat (start + ic) `min` Z.to_nat (Z.of_nat (length L) - count + ic)) (Arrays.backing a)) = Z.to_nat (start + ic)) as Ht
    by (rewrite length_take; lia).
  destruct HS. split; unfold lenZ.
  - rewrite length_app, length_drop. lia.
  - rewrite take_app_le, take_take by lia. rewrite Hb, take_app_le, take_cellsOf by lia. do 2 f_equal. lia.
  - rewrite drop_app_length' by done. apply drop_cellsOf.
  - replace (Z.to_nat (Z.of_nat (length L) - count + ic)) with (length L + Z.to_nat (ic - count))%nat by lia. rewrite <- drop_drop. by apply Forall_drop.
  - rewrite length_app, !length_drop. lia.
Qed.

Lemma around_copy a L start count ic :
  Std a L → 0 ≤ start → 0 ≤ count → 0 ≤ ic → start + count ≤ lenZ L → lenZ L - count + ic ≤ MaxUint32 →
  Around (goCopyAt (goCopy (make (lenZ L - count + ic)) (take (Z.to_nat start) (Arrays.backing a))) (Z.to_nat (start + ic))
            (drop (Z.to_nat (start + count)) (cellsOf L))) [] L start count ic.
Proof.
  intros HS Hs Hc0 Hic Hsc Hmax. pose proof (Std_backing _ _ HS) as Hb. assert (length (cellsOf L) = length L) as Hl by apply length_cellsOf. unfold lenZ in *.
  assert (take (Z.to_nat start) (Arrays.backing a) = cellsOf (take (Z.to_nat start) L)) as -> by (rewrite Hb, take_app_le, take_cellsOf by lia; done).
  set (hd := cellsOf (take (Z.to_nat start) L)). assert (length hd = Z.to_nat start) as Hh by (unfold hd; rewrite length_cellsOf, length_take; lia).
  unfold goCopy, make. rewrite length_replicate, Hh, (take_ge hd) by lia.
  set (base := hd ++ drop (Z.to_nat start) _). assert (length base = Z.to_nat (Z.of_nat (length L) - count + ic)) as Hbl.
  { unfold base. rewrite length_app, length_drop, length_replicate. lia. }
  rewrite goCopyAt_eq by lia. rewrite (take_ge (drop (Z.to_nat (start + count)) _)), (drop_ge base), app_nil_r by (rewrite length_drop; lia).
  assert (length (take (Z.to_nat (start + ic)) base) = Z.to_nat (start + ic)) as Ht by (rewrite length_take; lia).
  split; unfold lenZ.
  - rewrite length_app, length_drop. lia.
  - rewrite take_app_le, take_take by lia. unfold base. rewrite take_app_le, take_ge by lia. done.
  - rewrite drop_app_length' by done. apply drop_cellsOf.
  - done.
  - rewrite length_app, length_drop. cbn. unfold MaxUint32, MaxInt64 in *. lia.
Qed.

(** The contents after make and two copies. *)
Lemma does_copyAround {A} h0 h o p a L start count ic (k : slice → M A) (Q : A → heap → Prop) :
  DenseAt h0 o p a h → Std a L → 0 ≤ start → 0 ≤ count → 0 ≤ ic → start + count ≤ lenZ L → lenZ L - count + ic ≤ MaxUint32 →
  (∀ s h' V, SameObjs h h' → Loose h' s V [] → Around V [] L start count ic → does (k s) h' Q) →
  does (values ← makeSlice (lenZ L - count + ic);
        hd ← sliceTo (Arrays.backing a) start;
        copyTo values 0 hd ;;
        tl ← sliceFrom (cellsOf L) (start + count);
        copyTo values (start + ic) tl ;;
        k values) h Q.
Proof.
  intros HD HS Hs Hc Hic Hsc Hmax HQ. assert (length (cellsOf L) = length L) as Hl by apply length_cellsOf. pose proof (std_cap _ _ HS).
  apply does_bind, does_newSlice; [by apply (da_wf _ _ _ _ _ HD)|]. intros s h1 S1 L1. unfold sliceTo, sliceFrom. rewrite Hl.
  rewrite (proj2 (Z.leb_le 0 start)), (proj2 (Z.leb_le start _)) by (unfold lenZ in *; lia). cbn [andb].
  apply does_bind, does_ret, does_bind, (does_copyTo _ _ _ _ _ _ _ L1); [lia|]. intros h2 S2 L2.
  change (goCopyAt (make (lenZ L - count + ic)) (Z.to_nat 0) (take (Z.to_nat start) (Arrays.backing a)))
    with (goCopy (make (lenZ L - count + ic)) (take (Z.to_nat start) (Arrays.backing a))) in L2.
  rewrite (proj2 (Z.leb_le 0 (start + count))), (proj2 (Z.leb_le (start + count) _)) by (unfold lenZ in *; lia). cbn [andb].
  apply does_bind, does_ret, does_bind, (does_copyTo _ _ _ _ _ _ _ L2).
  { unfold goCopy, make. rewrite length_app, length_take, length_drop, length_replicate, length_take. unfold lenZ in *. lia. }
  intros h3 S3 L3. eapply HQ; [|exact L3|by apply around_copy].
  transitivity h1; [done|]. by transitivity h2.
Qed.

(** The slice with room for the items. *)
Lemma does_spliceRoom h0 h o p a L start count ic (Q : unit → heap → Prop) :
  DenseAt h0 o p a h → Std a L → 0 ≤ start → 0 ≤ count → 0 ≤ ic → start + count ≤ lenZ L → lenZ L - count + ic ≤ MaxUint32 →
  (∀ h' V T, DenseAt h0 o p (withCells a (V ++ T) (length V)) h' → Around V T L start count ic → Q () h') →
  does (if ic <? count then
          tl ← sliceFrom (cellsOf L) (start + count);
          if (start + ic <=? Z.of_nat (length (cellsOf L))) && (lenZ L - count + ic <=? Z.of_nat (length (cellsOf L))) then
            writeStruct p (withCells a
              (take (Z.to_nat (lenZ L - count + ic)) (goCopyAt (cellsOf L) (Z.to_nat (start + ic)) tl)
               ++ replicate (length (cellsOf L) - Z.to_nat (lenZ L - count + ic)) None ++ drop (length (cellsOf L)) (Arrays.backing a))
              (Z.to_nat (lenZ L - count + ic)))
          else crash
        else if count <? ic then
          if lenZ L - count + ic <=? Z.of_nat (length (Arrays.backing a)) then
            writeStruct p (withCells a
              (goCopyAt (take (Z.to_nat (lenZ L - count + ic)) (Arrays.backing a)) (Z.to_nat (start + ic))
                 (drop (Z.to_nat (start + count)) (take (Z.to_nat (lenZ L)) (Arrays.backing a)))
               ++ drop (Z.to_nat (lenZ L - count + ic)) (Arrays.backing a)) (Z.to_nat (lenZ L - count + ic)))
          else
            values ← makeSlice (lenZ L - count + ic);
            hd ← sliceTo (Arrays.backing a) start;
            copyTo values 0 hd ;;
            tl ← sliceFrom (cellsOf L) (start + count);
            copyTo values (start + ic) tl ;;
            setValues p values
        else mret ()) h Q.
Proof.
  intros HD HS Hs Hc Hic Hsc Hmax HQ. assert (length (cellsOf L) = length L) as Hl by apply length_cellsOf.
  assert (∀ V T, Around V T L start count ic → does (writeStruct p (withCells a (V ++ T) (Z.to_nat (lenZ L - count + ic)))) h Q) as Hw.
  { intros V T HA. apply (does_write _ _ _ _ _ _ _ HD); [done|]. intros h1 H1. apply (HQ h1 V T); [|done].
    replace (length V) with (Z.to_nat (lenZ L - count + ic)) by (pose proof (ar_len _ _ _ _ _ _ HA); lia). done. }
  destruct (Z.ltb_spec ic count) as [E1|E1]; [|destruct (Z.ltb_spec count ic) as [E2|E2]].
  - unfold sliceFrom. rewrite Hl. apply does_bind.
    rewrite (proj2 (Z.leb_le 0 (start + count))), (proj2 (Z.leb_le (start + count) _)) by (unfold lenZ in *; lia). cbn [andb].
    apply does_ret. rewrite !(proj2 (Z.leb_le _ (Z.of_nat (length L)))) by (unfold lenZ in *; lia). cbn [andb]. rewrite <- Hl.
    apply Hw, around_shrink; [done|lia..].
  - destruct (Z.leb_spec (lenZ L - count + ic) (Z.of_nat (length (Arrays.backing a)))) as [E3|E3].
    + apply Hw, around_grow_inplace; [done|lia..].
    + apply (does_copyAround h0 h o p a L start count ic); [done..|]. intros s h' V S' L' HA.
      apply (does_setValues h0 _ o p a _ _ _ _ ltac:(by eapply DenseAt_same) L'). intros h6 H6. by eapply HQ.
  - apply does_ret. assert (ic = count) as -> by lia. pose proof HS as [].
    apply (HQ h (cellsOf L) (drop (length L) (Arrays.backing a))).
    + rewrite <- (Std_backing _ _ HS), Hl, <- (std_vlen _ _ HS). by destruct a.
    + split; [unfold lenZ; lia|apply take_cellsOf|apply drop_cellsOf|done|]. rewrite length_drop. lia.
Qed.

Lemma does_spliceValues h0 h o p a L start count items (Q : unit → heap → Prop) :
  DenseAt h0 o p a h → Std a L → 0 ≤ start → 0 ≤ count → start + count ≤ lenZ L →
  lenZ L - count + Z.of_nat (length items) ≤ MaxUint32 →
  (∀ h' a' T, DenseAt h0 o p a' h' → CellsAt a' (spliceList L start count items) T → Q () h') →
  does (spliceValues p (lenZ L) start count (lenZ L - count + Z.of_nat (length items)) items) h Q.
Proof.
  intros HD HS Hs Hc Hsc Hmax HQ. unfold spliceValues. apply does_bind, (does_read _ _ _ _ _ _ HD). cbv zeta.
  rewrite (std_cells _ _ HS). set (ic := Z.of_nat (length items)) in *.
  apply does_bind, (does_spliceRoom h0 h o p a L start count ic); [done..|lia|done|done|]. intros h1 V T H1 HA.
  apply does_bind, (does_read _ _ _ _ _ _ H1). assert (Arrays.avalues (withCells a (V ++ T) (length V)) = V) as ->.
  { unfold Arrays.avalues. cbn. apply take_app_length. }
  cbn [withCells Arrays.vlen Arrays.backing]. rewrite drop_app_length.
  pose proof (Around_items V T L start count items HA Hs Hc Hsc) as Hi. fold ic in Hi. pose proof (ar_len _ _ _ _ _ _ HA) as Hlv.
  pose proof (spliceList_length L start count items Hs Hc Hsc) as Hsl.
  assert (does (writeStruct p (withObjCount (withCells a (cellsOf (spliceList L start count items) ++ T) (length V)) (Z.of_nat (length V)))) h1 Q) as Hw.
  { apply (does_write _ _ _ _ _ _ _ H1); [done|]. intros h2 H2. apply (HQ h2 _ T H2).
    destruct HA, HS. split; try done; cbn; [unfold lenZ in *; lia| |lia]. rewrite length_app, length_cellsOf. unfold lenZ in *. lia. }
  destruct (Z.ltb_spec 0 ic).
  - rewrite (proj2 (Z.leb_le start _)) by (unfold lenZ in *; lia). by rewrite Hi.
  - rewrite <- Hi in Hw. done.
Qed.
(** *** The method *)

(** An array that passes the check for the direct paths has no holes. *)
Definition Honest (h : heap) (o : positive) (L : elems) : Prop :=
  ∀ p a, selfs h !! o = Some (SDense p) → structAt h p = Some a → stdCond a = true → Forall is_Some L.

Lemma Honest_only h h' o a L : Honest h o L → Only a h h' → o ≠ a → Honest h' o L.
Proof.
  intros HH [O1 O2 _ _] Hne p s Ho Hs. rewrite O1 in Ho by done. rewrite (O2 o) in Hs by done. by apply (HH p s).
Qed.

Lemma at_Some L i : Forall is_Some L → 0 ≤ i < lenZ L → ∃ v, at_ L i = Some v.
Proof.
  intros HF Hi. unfold lenZ, at_ in *. zcmp. destruct (lookup_lt_is_Some_2 L (Z.to_nat i)) as [x Hx]; [lia|].
  rewrite Hx. cbn. destruct (Forall_lookup_1 _ _ _ _ HF Hx) as [v ->]. by exists v.
Qed.

Lemma cells_index L i v : 0 ≤ i → at_ L i = Some v → cellsOf L !! Z.to_nat i = Some (raw v).
Proof.
  intros Hi. unfold at_, cellsOf. zcmp. rewrite list_lookup_fmap. by destruct (L !! Z.to_nat i) as [[w|]|]; cbn; [intros [= ->]|..].
Qed.

(** The removed elements, when the source is read directly and the target is not. *)
Lemma splice_removed_direct h o a p s L start count (Q : unit → heap → Prop) :
  WfHeap h → ArrayAt h a (replicate (Z.to_nat count) None) → o ≠ a → selfs h !! o = Some (SDense p) → structAt h p = Some s →
  Std s L → Forall is_Some L → 0 ≤ start → 0 ≤ count → start + count ≤ lenZ L →
  (∀ h', St h a (take (Z.to_nat count) (drop (Z.to_nat start) L)) h' → Q () h') →
  does (forRange 0 count (λ k,
          src ← readStruct p;
          c ← goIndex (Arrays.avalues src) (k + start);
          v ← cellValue c;
          createDataPropertyOrThrow a k v) ;;
        setLength a count) h Q.
Proof.
  intros HW Ha Hne Ho Hs HS HF Hst Hc Hsc HQ. pose proof (std_max _ _ HS) as Hm. fold (lenZ L) in Hm.
  set (S := take (Z.to_nat count) (drop (Z.to_nat start) L)). assert (lenZ S = count) as HlS by (unfold S, lenZ in *; at_norm; lia).
  apply does_bind, (does_forRange _ _ _ _ (λ j, StP h a count count (λ i, if i <? j then at_ L (start + i) else None))); [lia| | |].
  - apply (StP_weaken _ _ _ _ _ _ _ _ _ (StP_init _ _ _ _ (St_init _ _ _ HW Ha))); [unfold lenZ; rewrite length_replicate; lia..|].
    intros i Hi. rewrite at_holes. by zcmp.
  - intros j h1 Hj (La & HSa & Hb & Hf). pose proof (only_struct _ _ _ (st_only _ _ _ _ HSa) o p Hne Ho) as Hs1.
    apply does_bind, (does_readStruct _ _ s); [congruence|]. rewrite (std_cells _ _ HS). destruct (at_Some L (j + start) HF) as [v Hv]; [lia|].
    unfold goIndex. rewrite (proj2 (Z.leb_le 0 _)), (cells_index _ _ v) by (done || lia). apply does_bind, does_ret, does_bind, does_ret.
    eapply (does_createDataProperty callable_identity); [done|lia|]. intros h2 H2. exists (setElem La j v). split; [done|].
    unfold lenZ in *. rewrite setElem_length by lia. split; [lia|]. intros i Hi. rewrite at_setElem by lia. rewrite Hf by done.
    zcase; try lia; try done. rewrite <- Hv. f_equal; lia.
  - intros h1 H1. rewrite <- HlS. eapply (stp_setLength _ _ _ _ _ S); [exact H1|lia| |done]. intros i Hi.
    rewrite HlS in Hi. subst S. at_case.
Qed.

Lemma splice_spec h o L args :
  WfHeap h → protoBare h (Some arrayProto) → StdSpecies o → ArrayAt h o L → Honest h o L →
  Converts (arg args 0) → Converts (arg args 1) → lenZ L - countOf conv L args + Z.of_nat (length (drop 2 args)) ≤ MaxUint32 →
  does (arrayproto_splice o args) h (λ a h', a = next h ∧ WfHeap h' ∧
    ArrayAt h' a (take (Z.to_nat (countOf conv L args)) (drop (Z.to_nat (startOf conv L args)) L)) ∧
    ArrayAt h' o (spliceList L (startOf conv L args) (countOf conv L args) (drop 2 args)) ∧ Keeps o h h').
Proof.
  intros HW Hp HSp HA HHon C0 C1 Hmax. pose proof (ArrayAt_max _ _ _ HA) as Hm. pose proof (ArrayAt_next _ _ _ HW HA) as Hon.
  unfold arrayproto_splice. apply does_bind, (does_getLength _ _ L); [done|]. fold (lenZ L). apply does_bind, does_spliceArgs; [done..|].
  pose proof (startOf_range L args) as Hst. pose proof (countOf_range L args) as [Hc Hsc]. set (start := startOf conv L args) in *.
  set (count := countOf conv L args) in *. set (items := drop 2 args) in *. clearbody start count items.
  apply does_bind, (does_arraySpeciesCreate _ _ L); [done..|lia|]. intros h1 H1. set (a := next h) in *. assert (o ≠ a) as Hne by lia.
  pose proof (st_only _ _ _ _ H1) as O1. pose proof (ArrayAt_only _ _ _ _ _ HA O1 Hne) as HA1. pose proof (Honest_only _ _ _ _ _ HHon O1 Hne) as HH1.
  pose proof (st_wf _ _ _ _ H1) as W1. pose proof (st_arr _ _ _ _ H1) as Ha1.
  set (L' := spliceList L start count items). assert (lenZ L' = lenZ L - count + Z.of_nat (length items)) as HlL by (apply spliceList_length; lia).
  set (S := take (Z.to_nat count) (drop (Z.to_nat start) L)).
  assert (∀ h2 h3, St h1 a S h2 → St h2 o L' h3 → a = next h ∧ WfHeap h3 ∧ ArrayAt h3 a S ∧ ArrayAt h3 o L' ∧ Keeps o h h3) as Hend.
  { intros h2 h3 H2 H3. split; [done|]. split; [apply (st_wf _ _ _ _ H3)|]. split; [|split; [apply (st_arr _ _ _ _ H3)|]].
    - eapply ArrayAt_only; [apply (st_arr _ _ _ _ H2)|apply (st_only _ _ _ _ H3)|done].
    - transitivity h2; [|apply Only_Keeps, (st_only _ _ _ _ H3)]. apply (Only_new_Keeps o a); [|by unfold a; lia].
      transitivity h1; [done|apply (st_only _ _ _ _ H2)]. }
  apply does_bind, (does_checkStd _ _ L); [done| |].
  - apply does_bind, (splice_generic_spec callable_identity h1 o a L); [done..|lia|lia|lia|lia|]. intros h2 h3 lo hi g H2 H3 Hg. apply does_bind.
    rewrite <- HlL. eapply (stp_setLength _ _ _ _ _ L'); [exact H3|lia| |].
    + intros i Hi. apply Hg. lia.
    + intros h4 H4. apply does_ret. by apply (Hend h2 h4).
  - intros p s Ho Hs Hcond HS. apply does_bind.
    assert (∀ h2, St h1 a S h2 → does (spliceValues p (lenZ L) start count (lenZ L - count + Z.of_nat (length items)) items) h2
      (λ _ h3, does (setLength o (lenZ L - count + Z.of_nat (length items)) ;; mret a) h3 (λ a h', a = next h ∧ WfHeap h' ∧ ArrayAt h' a S ∧ ArrayAt h' o L' ∧ Keeps o h h'))) as Hrest.
    { intros h2 H2. pose proof (st_only _ _ _ _ H2) as O2. pose proof (ArrayAt_only _ _ _ _ _ HA1 O2 Hne) as HA2.
      assert (DenseAt h2 o p s h2) as HD.
      { apply (St_dense _ _ L); [by apply St_init; [apply (st_wf _ _ _ _ H2)|]|by rewrite (only_self _ _ _ O2)|by rewrite (only_struct _ _ _ O2 o)]. }
      apply (does_spliceValues h2 _ o _ s); [done|done|lia..|]. intros h3 s' T H3 HC. apply does_bind. rewrite <- HlL.
      apply (does_setLength_fresh _ _ _ _ _ _ T _ H3 HC). intros h4 H4. apply does_ret. by apply (Hend h2 h4). }
    apply does_bind, (does_checkStdWithProto _ _ _ _ Ha1).
    + apply does_bind, (splice_removed_direct h1 o a p s L); try done; [by apply (HH1 p s)|lia..].
    + intros q da Hq Hda _ HSa. apply does_bind, does_bind, (does_readStruct _ _ s); [done|]. rewrite (std_cells _ _ HS). unfold sliceFrom. rewrite length_cellsOf.
      rewrite (proj2 (Z.leb_le 0 start)), (proj2 (Z.leb_le start _)) by (unfold lenZ in *; lia). cbn [andb]. apply does_bind, does_ret.
      apply does_bind, does_newSlice; [done|]. intros sl h2 S2 L2. apply does_bind, (does_copyTo _ _ _ _ _ _ _ L2); [lia|]. intros h3 S3 L3.
      assert (SameObjs h1 h3) as S13 by (by transitivity h2). pose proof (same_wf _ _ S13 W1) as W3.
      assert (goCopyAt (make count) (Z.to_nat 0) (drop (Z.to_nat start) (cellsOf L)) = cellsOf S) as HlS.
      { change (goCopy (make count) (drop (Z.to_nat start) (cellsOf L)) = cellsOf S).
        rewrite goCopy_full by (unfold make, lenZ in *; rewrite length_replicate, length_drop, length_cellsOf; lia).
        unfold make, S. by rewrite length_replicate, drop_cellsOf, take_cellsOf. }
      rewrite HlS in L3.
      apply (does_setArrayValues h1 h3 a q da sl S (replicate (Z.to_nat count) None) 0); [|by rewrite (same_selfs _ _ S13)|by rewrite (same_at _ _ S13 a)|done| | |done].
      * split; [done|by eapply ArrayAt_same|by apply same_only].
      * unfold S, lenZ in *; at_norm; lia.
      * unfold S, lenZ, MaxUint32, MaxInt64 in *; at_norm; lia.
Qed.
End splice.
End ArrayProtoSplice.
