(* ===== verification/ArrayProtoAccessors.v ===== *)
(** * Array.prototype: the methods that read the array

    Searches, slice, and the methods that return a changed copy. *)

From S2P Require Import Prelude ArrayIndex Float64 Numbers Values Property Objects Arrays ArrayProto ArrayProtoHeap ArrayProtoSpec ArrayProtoGeneric ArrayProtoFast ArrayProtoMutators ArrayProtoSplice.
Import ArrayIndex Numbers Values Property Objects ArrayProto ArrayProtoHeap ArrayProtoSpec ArrayProtoGeneric ArrayProtoFast ArrayProtoMutators
  ArrayProtoSplice.
Open Scope Z_scope.

Module ArrayProtoAccessors.

(** ** Searches *)

Lemma find_ext {A} (P P' : A → bool) l : (∀ x, x ∈ l → P x = P' x) → List.find P l = List.find P' l.
Proof.
  induction l as [|x l IH]; intros Hp; [done|]. cbn. rewrite (Hp x) by set_solver. rewrite IH by set_solver. done.
Qed.

(** A computation that returns [a] and changes nothing. *)
Abbreviation Reads m h a := (m h = (Ret a, h)).

Lemma reads_of_does {A} (m : M A) h a : does m h (λ r h', r = a ∧ h' = h) → Reads m h a.
Proof. intros (r & h' & -> & -> & ->)%does_inv. done. Qed.

Lemma reads_bind {A B} (m : M A) (k : A → M B) h a b : Reads m h a → Reads (k a) h b → Reads (m ≫= k) h b.
Proof. unfold mbind, M_bind. by intros ->. Qed.

Lemma reads_findUp {A} (body : Z → M (option A)) (P : Z → bool) (g : Z → A) n lo h :
  (∀ k, lo ≤ k < lo + Z.of_nat n → Reads (body k) h (if P k then Some (g k) else None)) →
  Reads (findUp n lo body) h (g <$> List.find P (seqZ lo (Z.of_nat n))).
Proof.
  revert lo. induction n as [|n IH]; intros lo Hb; [done|]. cbn [findUp].
  rewrite seqZ_cons by lia. cbn [List.find]. eapply reads_bind; [apply Hb; lia|]. destruct (P lo); [done|].
  replace (Z.pred (Z.of_nat (S n))) with (Z.of_nat n) by lia. apply IH. intros k Hk. apply Hb. lia.
Qed.

Lemma reads_findRange {A} (body : Z → M (option A)) (P : Z → bool) (g : Z → A) lo hi h :
  (∀ k, lo ≤ k < hi → Reads (body k) h (if P k then Some (g k) else None)) →
  Reads (findRange lo hi body) h (g <$> firstIn P lo hi).
Proof.
  intros Hb. unfold findRange, firstIn. destruct (decide (lo ≤ hi)) as [Hle|Hgt].
  - rewrite <- (Z2Nat.id (hi - lo)) at 2 by lia. apply reads_findUp. intros k Hk. apply Hb. lia.
  - replace (Z.to_nat (hi - lo)) with 0%nat by lia. by rewrite seqZ_nil by lia.
Qed.

Lemma reads_findDown {A} (body : Z → M (option A)) (P : Z → bool) (g : Z → A) hi h :
  (∀ k, 0 ≤ k < hi → Reads (body k) h (if P k then Some (g k) else None)) →
  Reads (findDown (Z.to_nat hi) (hi - 1) body) h (g <$> lastIn P hi).
Proof.
  intros Hb. unfold lastIn. destruct (decide (hi ≤ 0)) as [Hle|Hgt].
  { replace (Z.to_nat hi) with 0%nat by lia. by rewrite seqZ_nil by lia. }
  rewrite <- (Z2Nat.id hi) at 2 3 by lia. assert (∀ k, 0 ≤ k < Z.of_nat (Z.to_nat hi) → Reads (body k) h (if P k then Some (g k) else None)) as Hb'.
  { intros k Hk. apply Hb. lia. }
  clear Hb. revert Hb'. generalize (Z.to_nat hi). intros n. induction n as [|n IH]; intros Hb; [done|]. cbn [findDown].
  rewrite seqZ_S, reverse_app, reverse_singleton. cbn [app List.find]. replace (0 + Z.of_nat n) with (Z.of_nat (S n) - 1) by lia.
  eapply reads_bind; [apply Hb; lia|]. destruct (P (Z.of_nat (S n) - 1)); [done|].
  replace (Z.of_nat (S n) - 1 - 1) with (Z.of_nat n - 1) by lia. apply IH. intros k Hk. apply Hb. lia.
Qed.

Definition testAt (f : Value → bool) (L : elems) (i : Z) : bool := match at_ L i with Some v => f v | None => false end.

Lemma cellSearch_find f n L : 0 ≤ n ≤ lenZ L → cellSearch f n (cellsOf (drop (Z.to_nat n) L)) = firstIn (testAt f L) n (lenZ L).
Proof.
  intros Hn. assert (∀ L' i, cellSearch f i (cellsOf L') = List.find (λ k, testAt f L' (k - i)) (seqZ i (lenZ L'))) as Hgo.
  { intros L'. induction L' as [|x L' IH]; intros i; [done|]. cbn [cellsOf fmap list_fmap cellSearch]. fold (cellsOf L').
    unfold lenZ. cbn [length]. rewrite seqZ_cons by lia. cbn [List.find]. replace (Z.pred (Z.of_nat (S (length L')))) with (lenZ L') by (unfold lenZ; lia).
    assert (cellTest f (Raw <$> x) = testAt f (x :: L') (i - i)) as -> by (rewrite Z.sub_diag; by destruct x).
    destruct (testAt f (x :: L') (i - i)); [done|]. rewrite IH. apply find_ext. intros k [Hk _]%elem_of_seqZ. unfold testAt.
    replace (at_ (x :: L') (k - i)) with (at_ L' (k - (i + 1))); [done|]. change L' with (tail (x :: L')) at 1. rewrite at_tail by lia. f_equal. lia. }
  rewrite Hgo. unfold firstIn. assert (lenZ (drop (Z.to_nat n) L) = lenZ L - n) as -> by (unfold lenZ in *; rewrite length_drop; lia).
  apply find_ext. intros k [Hk _]%elem_of_seqZ. unfold testAt. rewrite at_dropped by lia. by replace (k - n + Z.of_nat (Z.to_nat n)) with k by lia.
Qed.

Lemma option_id_fmap {A} (o : option A) : (λ x, x) <$> o = o.
Proof. by destruct o. Qed.

Section accessors.
Context `{Env}.
Hypothesis callable_identity : ∀ p q, callable p = true → selfEqual p q = true → p = q.
Context (conv : Value → Z).
Abbreviation Converts := (Converts conv).

Lemma reads_getIdx h o L i : ArrayAt h o L → 0 ≤ i < MaxUint32 → Reads (getIdx o i) h (at_ L i).
Proof. intros HA Hi. apply reads_of_does. by apply (does_getIdx _ _ L). Qed.
Lemma reads_has h o L i : ArrayAt h o L → 0 ≤ i < MaxUint32 → Reads (hasPropertyIdx o i) h (isSome (at_ L i)).
Proof. intros HA Hi. apply reads_of_does. by apply (does_has _ _ L). Qed.
Lemma reads_getLength h o L : ArrayAt h o L → Reads (getLength o) h (lenZ L).
Proof. intros HA. apply reads_of_does. by apply (does_getLength _ _ L). Qed.

(** The body of the generic loops of indexOf and lastIndexOf. *)
Lemma reads_strictBody h o L v k :
  ArrayAt h o L → 0 ≤ k < MaxUint32 →
  Reads (e ← hasPropertyIdx o k;
         if e : bool then
           val ← getIdx o k;
           mret (match val with Some val => if ValueStrictEquals selfEqual v val then Some k else None | None => None end)
         else mret None) h (if strictAt selfEqual L v k then Some k else None).
Proof.
  intros HA Hk. eapply reads_bind; [by apply (reads_has _ _ L)|]. unfold strictAt. destruct (at_ L k) as [x|] eqn:Ex; cbn [isSome]; [|done].
  eapply reads_bind; [by apply (reads_getIdx _ _ L)|]. rewrite Ex. by destruct (ValueStrictEquals _ _ _).
Qed.

Lemma at_spec h o L args :
  WfHeap h → ArrayAt h o L → Converts (arg args 0) →
  does (arrayproto_at o args) h (λ r h', h' = h ∧ nilSafe r = nilSafe (at_ L (wrapIdx L (conv (arg args 0))))).
Proof.
  intros HW HA C0. pose proof (ArrayAt_max _ _ _ HA) as Hm. unfold arrayproto_at. apply does_bind, (does_ToInteger conv); [done|].
  apply does_bind, (does_getLength _ _ L); [done|]. fold (lenZ L). cbv zeta. unfold wrapIdx. set (n := conv (arg args 0)).
  assert ((if n <? 0 then lenZ L + n else n) = if 0 <=? n then n else lenZ L + n) as -> by (zcase; try lia; done).
  set (i := if 0 <=? n then n else lenZ L + n). destruct ((lenZ L <=? i) || (i <? 0)) eqn:E.
  - apply does_ret. split; [done|]. apply orb_true_iff in E as [E%Z.leb_le|E%Z.ltb_lt]; [by rewrite at_ge|by rewrite at_neg].
  - apply orb_false_iff in E as [E1%Z.leb_gt E2%Z.ltb_ge]. apply does_bind, (does_has _ _ L); [done|lia|].
    destruct (at_ L i) as [v|] eqn:Ev; cbn [isSome]; [|by apply does_ret]. apply (does_getIdx _ _ L); [done|lia|]. by rewrite Ev.
Qed.

(** Where the searches start. *)
Lemma searchStart n l : 0 < l → n < l → (if n <? 0 then Z.max (l + n) 0 else n) = relToIdx n l.
Proof. intros Hl Hn. unfold relToIdx. zcase; lia. Qed.

Lemma firstIn_empty P lo hi : hi ≤ lo → firstIn P lo hi = None.
Proof. intros Hle. unfold firstIn. by rewrite seqZ_nil by lia. Qed.

Lemma array_indexOf_spec h o L args :
  WfHeap h → ArrayAt h o L → Converts (arg args 1) →
  does (arrayproto_indexOf o args) h (λ r h', h' = h ∧
    r = found (firstIn (strictAt selfEqual L (arg args 0)) (relToIdx (conv (arg args 1)) (lenZ L)) (lenZ L))).
Proof.
  intros HW HA C1. pose proof (ArrayAt_max _ _ _ HA) as Hm. unfold arrayproto_indexOf. apply does_bind, (does_getLength _ _ L); [done|]. fold (lenZ L).
  set (n := conv (arg args 1)). pose proof (relToIdx_range n (lenZ L) ltac:(lia)) as Hr.
  destruct (Z.eqb_spec (lenZ L) 0) as [Ez|Ez]; [apply does_ret; split; [done|by rewrite firstIn_empty by lia]|].
  apply does_bind, (does_ToInteger conv); [done|]. fold n. destruct (Z.leb_spec (lenZ L) n) as [En|En].
  { apply does_ret. split; [done|]. rewrite firstIn_empty; [done|]. unfold relToIdx. zcase; lia. }
  rewrite searchStart by lia. set (from := relToIdx n (lenZ L)) in *. apply does_bind, (does_checkStd _ _ L); [done| |].
  - apply does_bind. eapply does_eq.
    + apply (reads_findRange _ (strictAt selfEqual L (arg args 0)) (λ x, x)). intros k Hk. apply reads_strictBody; [done|lia].
    + apply does_ret. by rewrite option_id_fmap.
  - intros p a Ho Ha _ HS. apply does_bind, (does_readStruct _ _ a); [done|]. rewrite (std_cells _ _ HS). unfold sliceFrom. rewrite length_cellsOf. fold (lenZ L).
    rewrite (proj2 (Z.leb_le 0 from)), (proj2 (Z.leb_le from _)) by lia. cbn [andb]. apply does_bind, does_ret, does_ret.
    rewrite drop_cellsOf, cellSearch_find by lia. done.
Qed.

Lemma lastIndexOf_spec h o L args :
  WfHeap h → ArrayAt h o L → Converts (arg args 1) →
  does (arrayproto_lastIndexOf o args) h (λ r h', h' = h ∧ r = found (lastIn (strictAt selfEqual L (arg args 0)) (lastFrom conv L args + 1))).
Proof.
  intros HW HA C1. pose proof (ArrayAt_max _ _ _ HA) as Hm. unfold arrayproto_lastIndexOf. apply does_bind, (does_getLength _ _ L); [done|]. fold (lenZ L).
  assert (lastFrom conv L args < lenZ L ∨ lenZ L = 0 ∧ lastFrom conv L args ≤ -1 ∨ lenZ L = 0 ∧ lastFrom conv L args + 1 ≤ 0) as Hlf.
  { unfold lastFrom. destruct (length args <? 2)%nat; [lia|]. zcase; lia. }
  destruct (Z.eqb_spec (lenZ L) 0) as [Ez|Ez].
  { apply does_ret. split; [done|]. unfold lastIn. rewrite seqZ_nil; [done|]. lia. }
  assert (∀ Q : Z → heap → Prop, Q (lastFrom conv L args) h → does (if (length args <? 2)%nat then mret (lenZ L - 1)
     else i ← VToInteger (arg args 1); mret (if 0 <=? i then Z.min i (lenZ L - 1) else i + lenZ L)) h Q) as Hfrom.
  { intros Q. unfold lastFrom. destruct (length args <? 2)%nat; intros HQ; [by apply does_ret|]. apply does_bind, (does_ToInteger conv); [done|]. by apply does_ret. }
  apply does_bind, Hfrom. clear Hfrom. set (from := lastFrom conv L args) in *. clearbody from.
  assert (∀ body, (∀ k, 0 ≤ k < lenZ L → Reads (body k) h (if strictAt selfEqual L (arg args 0) k then Some k else None)) →
    does (r ← findDown (Z.to_nat (from + 1)) from body; mret (found r)) h (λ r h', h' = h ∧ r = found (lastIn (strictAt selfEqual L (arg args 0)) (from + 1)))) as Hfind.
  { intros body Hb. apply does_bind. replace from with (from + 1 - 1) at 2 by lia. eapply does_eq.
    - apply (reads_findDown _ (strictAt selfEqual L (arg args 0)) (λ x, x)). intros k Hk. apply Hb. lia.
    - apply does_ret. by rewrite option_id_fmap. }
  apply does_bind, (does_checkStd _ _ L); [done| |].
  - apply Hfind. intros k Hk. apply reads_strictBody; [done|lia].
  - intros p a Ho Ha _ HS. apply does_bind, (does_readStruct _ _ a); [done|]. apply Hfind. intros k Hk. rewrite (std_cells _ _ HS). unfold goIndex, cellsOf.
    rewrite (proj2 (Z.leb_le 0 k)), list_lookup_fmap by lia. unfold strictAt, at_. rewrite (proj2 (Z.leb_le 0 k)) by lia.
    destruct (lookup_lt_is_Some_2 L (Z.to_nat k)) as [x Hx]; [unfold lenZ in *; lia|]. rewrite Hx. cbn. by destruct x as [v|].
Qed.

(** The two tests of includes. *)
Lemma includes_test v x :
  (SameAs selfEqual (if isNegativeZero v then positiveZero else v) x
   || bool_decide ((if isNegativeZero v then positiveZero else v) = positiveZero)
      && ValueStrictEquals selfEqual (if isNegativeZero v then positiveZero else v) x)
  = let v := if isNegativeZero v then positiveZero else v in
    if bool_decide (v = positiveZero) then ValueStrictEquals selfEqual v x else SameAs selfEqual v x.
Proof.
  cbv zeta. set (w := if isNegativeZero v then _ else _). case_bool_decide as E; [|by rewrite orb_false_r]. rewrite E. cbn.
  destruct x as [| | |[z|f]| | | |]; try done. apply orb_diag.
Qed.

Lemma includes_spec h o L args :
  WfHeap h → ArrayAt h o L → Honest h o L → Converts (arg args 1) →
  does (arrayproto_includes o args) h (λ r h', h' = h ∧
    r = isSome (firstIn (sameAt selfEqual L (arg args 0)) (relToIdx (conv (arg args 1)) (lenZ L)) (lenZ L))).
Proof.
  intros HW HA HH C1. pose proof (ArrayAt_max _ _ _ HA) as Hm. unfold arrayproto_includes. apply does_bind, (does_getLength _ _ L); [done|]. fold (lenZ L).
  set (n := conv (arg args 1)). pose proof (relToIdx_range n (lenZ L) ltac:(lia)) as Hr.
  destruct (Z.eqb_spec (lenZ L) 0) as [Ez|Ez]; [apply does_ret; split; [done|by rewrite firstIn_empty by lia]|].
  apply does_bind, (does_ToInteger conv); [done|]. fold n. destruct (Z.leb_spec (lenZ L) n) as [En|En].
  { apply does_ret. split; [done|]. rewrite firstIn_empty; [done|]. unfold relToIdx. zcase; lia. }
  rewrite searchStart by lia. set (from := relToIdx n (lenZ L)) in *. cbv zeta. apply does_bind, (does_checkStd _ _ L); [done| |].
  - apply does_bind. eapply does_eq.
    + apply (reads_findRange _ (sameAt selfEqual L (arg args 0)) (λ _, ())). intros k Hk. eapply reads_bind; [apply (reads_getIdx _ _ L); [done|lia]|].
      rewrite includes_test. unfold sameAt. done.
    + apply does_ret. split; [done|]. by destruct (firstIn _ _ _).
  - intros p a Ho Ha Hcond HS. apply does_bind, (does_readStruct _ _ a); [done|]. rewrite (std_cells _ _ HS). unfold sliceFrom. rewrite length_cellsOf. fold (lenZ L).
    rewrite (proj2 (Z.leb_le 0 from)), (proj2 (Z.leb_le from _)) by lia. cbn [andb]. apply does_bind, does_ret, does_ret. split; [done|].
    rewrite drop_cellsOf, cellSearch_find by lia. f_equal. unfold firstIn. apply find_ext. intros k [Hk1 Hk2]%elem_of_seqZ.
    destruct (at_Some L k (HH p a Ho Ha Hcond)) as [x Hx]; [lia|]. unfold testAt, sameAt. rewrite Hx. cbn [nilSafe default].
    by case_bool_decide.
Qed.
(** ** New arrays *)

(** A loop that fills a range of the new array [a]: the element [F j], or none. *)
Lemma does_build h0 a n lo hi (F f0 : Z → option Value) body h (Q : unit → heap → Prop) :
  StP h0 a n n f0 h → 0 ≤ lo ≤ hi → hi ≤ n → n ≤ MaxUint32 →
  (∀ j h1, lo ≤ j < hi → Only a h0 h1 → ∀ Q' : unit → heap → Prop,
     match F j with Some v => does (createDataPropertyOrThrow a j (Some v)) h1 Q' | None => Q' () h1 end → does (body j) h1 Q') →
  (∀ h', StP h0 a n n (λ i, if (lo <=? i) && (i <? hi) then match F i with Some v => Some v | None => f0 i end else f0 i) h' → Q () h') →
  does (forRange lo hi body) h Q.
Proof.
  intros HS Hlo Hhi Hn Hb HQ.
  apply (does_forRange _ _ _ _ (λ j, StP h0 a n n (λ i, if (lo <=? i) && (i <? j) then match F i with Some v => Some v | None => f0 i end else f0 i))); [lia| | |done].
  - apply (StP_weaken _ _ _ _ _ _ _ _ _ HS); [lia..|]. intros i Hi. zcase; try lia; done.
  - intros j h1 Hj H1. assert (Only a h0 h1) as HO by (destruct H1 as (La & HSa & _); apply (st_only _ _ _ _ HSa)).
    apply (Hb j h1 Hj HO). destruct (F j) as [v|] eqn:Ef.
    + destruct H1 as (La & HSa & Hl & Hf). eapply (does_createDataProperty callable_identity); [done|lia|]. intros h2 H2.
      exists (setElem La j v). split; [done|]. unfold lenZ in *. rewrite setElem_length by lia. split; [lia|].
      intros i Hi. rewrite at_setElem by lia. rewrite Hf by done. zcase; try lia; subst; rewrite ?Ef; done.
    + apply (StP_weaken _ _ _ _ _ _ _ _ _ H1); [lia..|]. intros i Hi.
      destruct (decide (i = j)) as [->|Hne]; [rewrite Ef|]; zcase; try lia; done.
Qed.

(** The outcome of a method that returns a new array and leaves the others alone. *)
Definition NewArray (h : heap) (o : positive) (L S : elems) (a : positive) (h' : heap) : Prop :=
  a = next h ∧ WfHeap h' ∧ ArrayAt h' a S ∧ ArrayAt h' o L ∧ Keeps o h h'.

Lemma St_NewArray h o L S h' : ArrayAt h o L → WfHeap h → St h (next h) S h' → NewArray h o L S (next h) h'.
Proof.
  intros HA HW [W A O]. pose proof (ArrayAt_next _ _ _ HW HA). split; [done|]. split; [done|]. split; [done|].
  split; [eapply ArrayAt_only; [done..|lia]|]. eapply Only_new_Keeps; [done|lia].
Qed.

Lemma newArrayValues_spec h1 h o L S s :
  SameObjs h h1 → WfHeap h → protoBare h (Some arrayProto) → ArrayAt h o L → Loose h1 s (cellsOf S) [] → lenZ S ≤ MaxUint32 →
  does (newArrayValues s) h1 (NewArray h o L S).
Proof. intros HS HW Hp HA HL Hm. apply (does_newArrayValues _ h _ S); [done..|]. intros h' H'. by apply St_NewArray. Qed.

(** A new array of the length of [S], filled by loops, has the elements [S]. *)
Lemma StP_NewArray h o L S f h' :
  ArrayAt h o L → WfHeap h → StP h (next h) (lenZ S) (lenZ S) f h' → (∀ i, 0 ≤ i < lenZ S → f i = at_ S i) → NewArray h o L S (next h) h'.
Proof. intros HA HW HS Hf. apply St_NewArray; [done..|]. by eapply StP_list. Qed.

Lemma does_newArrayLength' h n (Q : positive → heap → Prop) :
  WfHeap h → protoBare h (Some arrayProto) → 0 ≤ n ≤ MaxUint32 →
  (∀ h', StP h (next h) n n (λ _, None) h' → Q (next h) h') → does (newArrayLength n) h Q.
Proof.
  intros HW Hp Hn HQ. apply does_newArrayLength; [done..|]. intros h' HS. apply HQ.
  assert (lenZ (replicate (Z.to_nat n) None) = n) as Hl by (unfold lenZ; rewrite length_replicate; lia).
  apply (StP_weaken _ _ _ _ _ _ _ _ _ (StP_init _ _ _ _ HS)); [lia..|]. intros i Hi. apply at_holes.
Qed.

Lemma slice_spec h o L args :
  WfHeap h → protoBare h (Some arrayProto) → StdSpecies o → ArrayAt h o L → Converts (arg args 0) → Converts (arg args 1) →
  does (arrayproto_slice o args) h
    (NewArray h o L (take (Z.to_nat (endIdx conv (arg args 1) (lenZ L) - startOf conv L args)) (drop (Z.to_nat (startOf conv L args)) L))).
Proof.
  intros HW Hp HSp HA C0 C1. pose proof (ArrayAt_max _ _ _ HA) as Hm. pose proof (ArrayAt_next _ _ _ HW HA) as Hon. unfold arrayproto_slice.
  apply does_bind, (does_getLength _ _ L); [done|]. fold (lenZ L). apply does_bind, (does_ToInteger conv); [done|]. apply does_bind, (does_endArg conv); [done|].
  cbv zeta. fold (startOf conv L args). fold (endIdx conv (arg args 1) (lenZ L)). pose proof (startOf_range conv L args) as Hst.
  assert (0 ≤ endIdx conv (arg args 1) (lenZ L) ≤ lenZ L) as Hen by (apply relToIdx_range; lia).
  set (start := startOf conv L args) in *. set (stop := endIdx conv (arg args 1) (lenZ L)) in *. clearbody start stop.
  set (S := take (Z.to_nat (stop - start)) (drop (Z.to_nat start) L)). set (count := Z.max (stop - start) 0).
  assert (lenZ S = count) as HlS by (unfold S, lenZ, count in *; at_norm; lia). assert (0 ≤ count ≤ MaxUint32) as Hcount by lia.
  apply does_bind, (does_arraySpeciesCreate _ _ L); [done..|]. intros h1 H1. pose proof (st_only _ _ _ _ H1) as O1. assert (o ≠ next h) as Hne by lia.
  pose proof (ArrayAt_only _ _ _ _ _ HA O1 Hne) as HA1. set (a := next h) in *.
  assert (does (forRange 0 (stop - start) (λ n, p ← getIdx o (start + n);
    match p with Some v => createDataPropertyOrThrow a n (Some v) | None => mret () end)) h1 (λ _ h', does (mret a) h' (NewArray h o L S))) as Hgen.
  { assert (StP h a count count (λ _, None) h1) as HP.
    { apply (StP_weaken _ _ _ _ _ _ _ _ _ (StP_init _ _ _ _ H1)); [unfold lenZ; rewrite length_replicate; lia..|]. intros i Hi. apply at_holes. }
    destruct (decide (stop ≤ start)) as [Hle|Hlt].
    { rewrite forRange_empty by lia. apply does_ret, does_ret. eapply StP_NewArray; [done..|by rewrite HlS|]. intros i Hi. lia. }
    apply (does_build h a count 0 (stop - start) (λ i, at_ L (start + i)) (λ _, None)); [done|lia..| |].
    - intros j h2 Hj O2 Q' HQ'. apply does_bind, (does_getIdx _ _ L); [exact (ArrayAt_only _ _ _ _ _ HA O2 Hne)|lia|]. destruct (at_ L (start + j)); [done|by apply does_ret].
    - intros h2 H2. apply does_ret. eapply StP_NewArray; [done..|by rewrite HlS|]. intros i Hi. cbv beta. rewrite HlS in Hi. unfold S.
      rewrite at_take, at_dropped by lia. zcase; try lia. replace (i + Z.of_nat (Z.to_nat start)) with (start + i) by lia. by destruct (at_ L (start + i)). }
  apply does_bind, (does_checkStd _ _ L); [done| |].
  - apply does_bind, does_ret, does_bind, Hgen.
  - intros p s Ho Hs Hcond HS. apply does_bind, (does_checkStdWithProto _ _ _ _ (st_arr _ _ _ _ H1)); [by apply does_bind|].
    intros q da Hq Hda _ HSa. apply does_bind, does_bind, (does_readStruct _ _ s); [done|]. rewrite (std_cells _ _ HS). unfold sliceFrom. rewrite length_cellsOf.
    rewrite (proj2 (Z.leb_le 0 start)), (proj2 (Z.leb_le start _)) by (unfold lenZ in *; lia). cbn [andb]. apply does_bind, does_ret.
    pose proof (st_wf _ _ _ _ H1) as W1. apply does_bind, does_newSlice; [done|]. intros sl h2 S2 L2.
    apply does_bind, (does_copyTo _ _ _ _ _ _ _ L2); [lia|]. intros h3 S3 L3. assert (SameObjs h1 h3) as S13 by (by transitivity h2).
    assert (goCopyAt (make count) (Z.to_nat 0) (drop (Z.to_nat start) (cellsOf L)) = cellsOf S) as HcS.
    { change (goCopy (make count) (drop (Z.to_nat start) (cellsOf L)) = cellsOf S). unfold make, goCopy.
      rewrite length_replicate, drop_cellsOf, take_cellsOf, (drop_ge (replicate _ _)), app_nil_r by (rewrite length_replicate, length_cellsOf, length_drop; unfold lenZ, count in *; lia).
      by replace (Z.to_nat count) with (Z.to_nat (stop - start)) by lia. }
    rewrite HcS in L3.
    apply (does_setArrayValues h h3 a q da sl S (replicate (Z.to_nat count) None) 0);
      [|by rewrite (same_selfs _ _ S13)|by rewrite (same_at _ _ S13 a)|done|unfold lenZ in *; lia|unfold lenZ, MaxUint32, MaxInt64 in *; lia|].
    + split; [by apply (same_wf _ _ S13)|by eapply ArrayAt_same; [apply (st_arr _ _ _ _ H1)|]|]. transitivity h1; [done|by apply same_only].
    + intros h4 H4. apply does_ret. by apply St_NewArray.
Qed.

(** Building a list of cells one by one. *)
Lemma reads_foldCells (n : nat) (k : Z) (acc : cells) (S : elems) (get : Z → M (option slot)) h :
  (∀ j, k ≤ j < k + Z.of_nat n → ∃ x, S !! Z.to_nat (j - k) = Some x ∧ Reads (get j) h (Raw <$> x)) → length S = n →
  Reads (foldUp n k acc (λ j a, c ← get j; mret (a ++ [c]))) h (acc ++ cellsOf S).
Proof.
  revert k acc S. induction n as [|n IH]; intros k acc S Hg Hl.
  - destruct S; [|done]. cbn. by rewrite app_nil_r.
  - destruct S as [|x S]; [done|]. cbn [foldUp]. destruct (Hg k ltac:(lia)) as (y & Hy & Hr). rewrite Z.sub_diag in Hy. injection Hy as <-.
    eapply reads_bind; [eapply reads_bind; [exact Hr|done]|]. assert (acc ++ cellsOf (x :: S) = (acc ++ [Raw <$> x]) ++ cellsOf S) as ->.
    { by rewrite <- app_assoc. }
    apply IH; [|by injection Hl]. intros j Hj. destruct (Hg j ltac:(lia)) as (y & Hy & Hr'). exists y. split; [|done].
    by replace (Z.to_nat (j - k)) with (Datatypes.S (Z.to_nat (j - (k + 1)))) in Hy by lia.
Qed.

Lemma filled_id L : Forall is_Some L → filled L = L.
Proof. unfold filled. induction 1 as [|x L [v ->] _ IH]; [done|]. cbn. by rewrite IH. Qed.

Lemma goIndex_cells L k h : 0 ≤ k < lenZ L → Reads (goIndex (cellsOf L) k) h (Raw <$> at_ L k).
Proof.
  intros Hk. unfold goIndex, cellsOf, at_, lenZ in *. rewrite (proj2 (Z.leb_le 0 k)), list_lookup_fmap by lia.
  destruct (lookup_lt_is_Some_2 L (Z.to_nat k)) as [x ->]; [lia|]. by destruct x.
Qed.

Lemma lookup_at L i : (i < length L)%nat → L !! i = Some (at_ L (Z.of_nat i)).
Proof. intros Hi. unfold at_. zcmp. rewrite Nat2Z.id. by destruct (lookup_lt_is_Some_2 L i Hi) as [x ->]. Qed.

Lemma toReversed_spec h o L :
  WfHeap h → protoBare h (Some arrayProto) → ArrayAt h o L → Honest h o L →
  does (arrayproto_toReversed o) h (NewArray h o L (reverse (filled L))).
Proof.
  intros HW Hp HA HH. pose proof (ArrayAt_max _ _ _ HA) as Hm. pose proof (ArrayAt_next _ _ _ HW HA) as Hon. unfold arrayproto_toReversed.
  apply does_bind, (does_getLength _ _ L); [done|]. fold (lenZ L). assert (lenZ (reverse (filled L)) = lenZ L) as Hl.
  { unfold lenZ. by rewrite length_reverse, length_filled. }
  apply does_bind, (does_checkStd _ _ L); [done| |].
  - apply does_bind, does_newArrayLength'; [done..|]. intros h1 H1. apply does_bind.
    apply (does_build h (next h) (lenZ L) 0 (lenZ L) (λ i, Some (nilSafe (at_ L (lenZ L - i - 1)))) (λ _, None)); [done|lia..| |].
    + intros j h2 Hj O2 Q' HQ'. apply does_bind, (does_getIdx _ _ L); [eapply ArrayAt_only; [done..|lia]|lia|]. done.
    + intros h2 H2. apply does_ret. eapply StP_NewArray; [done..|by rewrite Hl|]. intros i Hi. cbv beta. rewrite Hl in Hi.
      rewrite at_reverse, length_filled, at_filled by (unfold lenZ in *; lia). fold (lenZ L). zcase; try lia. do 3 f_equal. lia.
  - intros p s Ho Hs Hcond HS. apply does_bind, (does_readStruct _ _ s); [done|]. rewrite (std_cells _ _ HS). apply does_bind. eapply does_eq.
    + apply (reads_foldCells _ 0 [] (reverse L)); [|unfold lenZ; rewrite length_reverse; lia]. intros j Hj.
      rewrite lookup_at by (unfold lenZ in *; rewrite length_reverse; lia). eexists. split; [done|]. rewrite at_reverse. fold (lenZ L).
      replace (lenZ L - 1 - Z.of_nat (Z.to_nat (j - 0))) with (lenZ L - j - 1) by lia. apply goIndex_cells. unfold lenZ in *. lia.
    + cbn [app]. rewrite (filled_id L (HH p s Ho Hs Hcond)). apply does_bind, does_newSlice; [done|]. intros sl h1 S1 L1. apply (newArrayValues_spec h1); try done. unfold lenZ in *. rewrite length_reverse. lia.
Qed.

Lemma with_spec h o L args :
  WfHeap h → protoBare h (Some arrayProto) → ArrayAt h o L → Honest h o L → Converts (arg args 0) →
  0 ≤ wrapIdx L (conv (arg args 0)) < lenZ L →
  does (arrayproto_with o args) h (NewArray h o L (<[Z.to_nat (wrapIdx L (conv (arg args 0))) := Some (arg args 1)]> (filled L))).
Proof.
  intros HW Hp HA HH C0 Hidx. pose proof (ArrayAt_max _ _ _ HA) as Hm. pose proof (ArrayAt_next _ _ _ HW HA) as Hon. unfold arrayproto_with.
  apply does_bind, (does_ToInteger conv); [done|]. apply does_bind, (does_getLength _ _ L); [done|]. fold (lenZ L). cbv zeta.
  fold (wrapIdx L (conv (arg args 0))). set (k := wrapIdx L (conv (arg args 0))) in *. set (v := arg args 1).
  rewrite (proj2 (Z.leb_gt (lenZ L) k)), (proj2 (Z.ltb_ge k 0)) by lia. cbn [orb].
  set (S := <[Z.to_nat k := Some v]> (filled L)). assert (lenZ S = lenZ L) as Hl by (unfold S, lenZ; by rewrite length_insert, length_filled).
  assert (S = setElem (filled L) k v) as HSe by (unfold setElem; rewrite length_filled; fold (lenZ L); by rewrite (proj2 (Z.ltb_lt k _)) by lia).
  assert (∀ i, 0 ≤ i < lenZ L → at_ S i = Some (if i =? k then v else nilSafe (at_ L i))) as HS_.
  { intros i Hi. rewrite HSe, at_setElem, at_filled by (unfold lenZ in *; lia). by destruct (i =? k). }
  apply does_bind, (does_checkStd _ _ L); [done| |].
  - apply does_bind, does_newArrayLength'; [done..|]. intros h1 H1. apply does_bind.
    apply (does_build h (next h) (lenZ L) 0 (lenZ L) (λ i, Some (if i =? k then v else nilSafe (at_ L i))) (λ _, None)); [done|lia..| |].
    + intros j h2 Hj O2 Q' HQ'. apply does_bind. destruct (j =? k); [by apply does_ret|].
      apply does_bind, (does_getIdx _ _ L); [eapply ArrayAt_only; [done..|lia]|lia|]. by apply does_ret.
    + intros h2 H2. apply does_ret. eapply StP_NewArray; [done..|by rewrite Hl|]. intros i Hi. cbv beta. rewrite Hl in Hi. rewrite HS_ by lia. zcase; try lia; done.
  - intros p s Ho Hs Hcond HS. apply does_bind, (does_readStruct _ _ s); [done|]. rewrite (std_cells _ _ HS). apply does_bind. eapply does_eq.
    + apply (reads_foldCells _ 0 [] S (λ j, if j =? k then mret (raw v) else goIndex (cellsOf L) j)); [|unfold lenZ in *; lia]. intros j Hj.
      rewrite lookup_at by (unfold lenZ in *; lia). eexists. split; [done|]. replace (Z.of_nat (Z.to_nat (j - 0))) with j by lia. rewrite HS_ by lia.
      destruct (at_Some L j (HH p s Ho Hs Hcond)) as [x Hx]; [lia|]. destruct (j =? k); [done|]. rewrite goIndex_cells by lia. by rewrite Hx.
    + cbn [app]. apply does_bind, does_newSlice; [done|]. intros sl h1 S1 L1. apply (newArrayValues_spec h1); try done. lia.
Qed.
(** The items of toSpliced. *)
Lemma does_buildItems h0 a n start (items : list Value) (f0 : Z → option Value) h (Q : unit → heap → Prop) :
  StP h0 a n n f0 h → 0 ≤ start → start + Z.of_nat (length items) ≤ n → n ≤ MaxUint32 →
  (∀ h', StP h0 a n n (λ i, if (start <=? i) && (i <? start + Z.of_nat (length items)) then at_ (Some <$> items) (i - start) else f0 i) h' → Q () h') →
  does (forEachM 0 items (λ i item, createDataPropertyOrThrow a (start + i) (Some item))) h Q.
Proof.
  intros HS Hst Hn Hmax HQ.
  apply (does_forEachM 0 items _ _ (λ pre, StP h0 a n n
    (λ i, if (start <=? i) && (i <? start + Z.of_nat (length pre)) then at_ (Some <$> items) (i - start) else f0 i))); [| |done].
  - apply (StP_weaken _ _ _ _ _ _ _ _ _ HS); [lia..|]. intros i Hi. cbn [length]. zcase; try lia; done.
  - intros pre x h1 [suf Hpre] (La & HSa & Hl & Hf). assert (length items = length pre + 1 + length suf)%nat as Hlen by (rewrite Hpre, !length_app; cbn; lia).
    eapply (does_createDataProperty callable_identity); [done|lia|]. intros h2 H2. eexists. split; [done|]. unfold lenZ in *. rewrite setElem_length by lia.
    split; [lia|]. intros i Hi. rewrite at_setElem by lia. rewrite Hf by done. rewrite length_app. cbn [length].
    destruct (Z.eqb_spec i (start + (0 + Z.of_nat (length pre)))) as [->|Hni]; [|zcase; try lia; done].
    zcmp. cbn [andb]. replace (start + (0 + Z.of_nat (length pre)) - start) with (Z.of_nat (length pre)) by lia. by rewrite (at_args _ _ _ _ Hpre).
Qed.

Lemma toSpliced_spec h o L args :
  WfHeap h → protoBare h (Some arrayProto) → ArrayAt h o L → Honest h o L → Converts (arg args 0) → Converts (arg args 1) →
  lenZ L - countOf conv L args + Z.of_nat (length (drop 2 args)) ≤ MaxUint32 →
  does (arrayproto_toSpliced o args) h (NewArray h o L (spliceList (filled L) (startOf conv L args) (countOf conv L args) (drop 2 args))).
Proof.
  intros HW Hp HA HH C0 C1 Hmax. pose proof (ArrayAt_max _ _ _ HA) as Hm. pose proof (ArrayAt_next _ _ _ HW HA) as Hon. unfold arrayproto_toSpliced.
  apply does_bind, (does_getLength _ _ L); [done|]. fold (lenZ L). apply does_bind, (does_spliceArgs conv); [done..|].
  pose proof (startOf_range conv L args) as Hst. pose proof (countOf_range conv L args) as [Hc Hsc]. set (start := startOf conv L args) in *.
  set (count := countOf conv L args) in *. set (items := drop 2 args) in *. clearbody start count items. cbv zeta.
  set (S := spliceList (filled L) start count items). assert (lenZ (filled L) = lenZ L) as Hlf by (unfold lenZ; by rewrite length_filled).
  assert (lenZ S = lenZ L - count + Z.of_nat (length items)) as HlS by (unfold S; rewrite spliceList_length by lia; lia).
  apply does_bind, (does_checkStd _ _ L); [done| |].
  - rewrite <- HlS. apply does_bind, does_newArrayLength'; [done|done|unfold lenZ in *; lia|]. intros h1 H1. apply does_bind.
    apply (does_build h (next h) (lenZ S) 0 start (λ i, Some (nilSafe (at_ L i))) (λ _, None)); [done|lia..| |].
    { intros j h2 Hj O2 Q' HQ'. apply does_bind, (does_getIdx _ _ L); [eapply ArrayAt_only; [done..|lia]|lia|]. done. }
    intros h2 H2. apply does_bind, (does_buildItems _ _ _ start items _ _ _ H2); [lia..|]. intros h3 H3. apply does_bind.
    apply (does_build h (next h) (lenZ S) (start + Z.of_nat (length items)) (lenZ S)
      (λ i, Some (nilSafe (at_ L (i - Z.of_nat (length items) + count)))) _ _ _ _ H3); [lia..| |].
    { intros j h4 Hj O4 Q' HQ'. apply does_bind, (does_getIdx _ _ L); [eapply ArrayAt_only; [done..|lia]|lia|]. done. }
    intros h4 H4. apply does_ret. eapply StP_NewArray; [done..|exact H4|]. intros i Hi. cbv beta. rewrite HlS in *. unfold S. rewrite at_spliceList by lia.
    zcase; try lia; try done; rewrite at_filled by (unfold lenZ in *; lia); done.
  - intros p s Ho Hs Hcond HStd. apply does_bind, (does_readStruct _ _ s); [done|]. rewrite (std_cells _ _ HStd).
    pose proof (filled_id L (HH p s Ho Hs Hcond)) as Hfill. assert (length (cellsOf L) = length L) as HlcL by apply length_cellsOf.
    pose proof (St_dense _ _ _ _ _ _ (St_init _ _ _ HW HA) Ho Hs) as HD.
    assert (∀ sl h1 V, SameObjs h h1 → Loose h1 sl V [] → Around V [] L start count (Z.of_nat (length items)) →
      does ((if 0 <? Z.of_nat (length items) then copyTo sl start (raw <$> items) else mret ()) ;; newArrayValues sl) h1 (NewArray h o L S)) as Hrest.
    { intros sl h1 V S1 L1 HV. pose proof (Around_items V [] L start count items HV ltac:(lia) Hc Hsc) as Hi. pose proof (ar_len _ _ _ _ _ _ HV) as Hlv.
      assert (cellsOf (spliceList L start count items) = cellsOf S) as HcS by (unfold S; by rewrite Hfill). rewrite HcS in Hi. apply does_bind.
      destruct (0 <? Z.of_nat (length items)).
      - apply (does_copyTo _ _ _ _ _ _ _ L1); [lia|]. intros h2 S2 L2. rewrite Hi in L2. apply (newArrayValues_spec h2); try done; [by transitivity h1|lia].
      - apply does_ret. rewrite Hi in L1. apply (newArrayValues_spec h1); try done. lia. }
    apply does_bind. destruct (Z.eqb_spec (Z.of_nat (length items)) count) as [E|E].
    + apply does_bind, does_newSlice; [done|]. intros sl h1 S1 L1. apply does_bind, (does_copyTo _ _ _ _ _ _ _ L1); [lia|]. intros h2 S2 L2.
      apply does_ret, (Hrest _ _ _ ltac:(by transitivity h1) L2). rewrite E.
      change (Around (goCopy (make (Z.of_nat (length (cellsOf L)))) (cellsOf L)) [] L start count count).
      rewrite goCopy_full, take_ge by (unfold make; rewrite length_replicate; lia).
      split; [unfold lenZ; lia|apply take_cellsOf|apply drop_cellsOf|done|]. cbn. pose proof (std_max _ _ HStd). unfold MaxUint32, MaxInt64 in *. lia.
    + apply (does_copyAround h h o p s L start count (Z.of_nat (length items))); [done|done|lia..|]. intros sl h1 V S1 L1 HV. by apply does_ret, (Hrest _ _ V).
Qed.
End accessors.
End ArrayProtoAccessors.
