(* ===== verification/ArrayProtoMethods.v ===== *)
(** * Array.prototype: programs of method calls

    Each method does to the elements of its array what the specification says
    and leaves all other objects alone; a program of calls on arrays without
    holes, on the arrays the calls create too, runs as the specification runs on
    lists. *)

From S2P Require Import Prelude ArrayIndex Float64 Numbers Values Property Objects Arrays ArrayProto ArrayProtoHeap ArrayProtoSpec ArrayProtoGeneric ArrayProtoFast ArrayProtoMutators ArrayProtoSplice ArrayProtoAccessors.
Import ArrayIndex Numbers Values Property Objects ArrayProto ArrayProtoHeap ArrayProtoSpec ArrayProtoGeneric ArrayProtoFast
  ArrayProtoMutators ArrayProtoSplice ArrayProtoAccessors.
Open Scope Z_scope.

Module ArrayProtoMethods.

(** ** Programs *)

(** A call of a method of the k-th array; an array the call returns is the next
    one.  The outcome of a call: a value, or the number of an array. *)
Inductive returned := OutVal (v : Value) | OutArr (k : nat).

Section run.
Context `{Env}.

Fixpoint run (refs : list positive) (calls : list (nat * method)) : M (list positive * list returned) :=
  match calls with
  | [] => mret (refs, [])
  | (k, m) :: calls =>
      match refs !! k with
      | None => crash
      | Some o =>
          r ← exec o m;
          let '(refs', out) := match r with
                               | RVal v => (refs, OutVal v)
                               | RThis => (refs, OutArr k)
                               | RObj a => (refs ++ [a], OutArr (length refs))
                               end in
          rest ← run refs' calls;
          mret (rest.1, out :: rest.2)
      end
  end.
End run.

Section specRun.
Context (conv : Value → Z) (se : positive → positive → bool).

(** One call on lists: the lists after it, and the outcome. *)
Definition specCall (Ls : list elems) (k : nat) (L : elems) (m : method) : list elems * returned :=
  let '(L', r) := specMethod conv se L m in
  match r with
  | SVal v => (<[k := L']> Ls, OutVal v)
  | SThis => (<[k := L']> Ls, OutArr k)
  | SNew L2 => (<[k := L']> Ls ++ [L2], OutArr (length Ls))
  end.

Fixpoint specRun (Ls : list elems) (calls : list (nat * method)) : list elems * list returned :=
  match calls with
  | [] => (Ls, [])
  | (k, m) :: calls =>
      match Ls !! k with
      | None => (Ls, [])
      | Some L => let '(Ls', out) := specCall Ls k L m in
                  let rest := specRun Ls' calls in (rest.1, out :: rest.2)
      end
  end.

(** No assignment leaves a hole. *)
Definition noHole (L : elems) (m : method) : Prop := match m with Assign i _ => i ≤ lenZ L | _ => True end.

(** Every call is on an array that exists and meets the bounds of its method. *)
Fixpoint runAllowed (Ls : list elems) (calls : list (nat * method)) : Prop :=
  match calls with
  | [] => True
  | (k, m) :: calls =>
      match Ls !! k with
      | None => False
      | Some L => allowed conv L m ∧ noHole L m ∧ runAllowed (specCall Ls k L m).1 calls
      end
  end.

(** The elements of an array without holes are defined. *)
Definition Full (L : elems) : Prop := Forall is_Some L.

Lemma Full_items (items : list Value) : Full (Some <$> items).
Proof. apply Forall_fmap, Forall_true. by eexists. Qed.

Lemma Full_filled L : Full (filled L).
Proof. apply Forall_fmap, Forall_true. by eexists. Qed.

Lemma Full_splice L start count items : Full L → Full (spliceList L start count items).
Proof. intros HL. apply Forall_app. split; [by apply Forall_take|]. apply Forall_app. split; [apply Full_items|by apply Forall_drop]. Qed.

Lemma Full_setElem L i v : Full L → 0 ≤ i ≤ lenZ L → Full (setElem L i v).
Proof.
  intros HL Hi. unfold setElem, lenZ in *. destruct (Z.ltb_spec i (Z.of_nat (length L))) as [Hlt|Hge].
  - by apply Forall_insert; [|eexists].
  - replace (Z.to_nat i - length L)%nat with 0%nat by lia. apply Forall_app. split; [done|]. apply Forall_singleton. by eexists.
Qed.

Lemma Full_copyRange L to from count : Full L → Full (copyRange L to from count).
Proof.
  intros HL. unfold copyRange. destruct (0 <? count); [|done]. apply Forall_app. split; [by apply Forall_take|].
  apply Forall_app. split; [by apply Forall_take, Forall_drop|by apply Forall_drop].
Qed.

Lemma Full_fillRange L k final v : Full L → Full (fillRange L k final v).
Proof.
  intros HL. unfold fillRange. destruct (k <? final); [|done]. apply Forall_app. split; [by apply Forall_take|].
  apply Forall_app. split; [apply Forall_replicate; by eexists|by apply Forall_drop].
Qed.

Definition newOf (r : specResult) : elems := match r with SNew L => L | _ => [] end.

(** A method leaves no hole and returns none. *)
Lemma Full_method L m :
  Full L → allowed conv L m → noHole L m → Full (specMethod conv se L m).1 ∧ Full (newOf (specMethod conv se L m).2).
Proof.
  intros HL Hal Hno. destruct m; cbn [specMethod fst snd newOf allowed noHole] in *; cbv zeta; (split; [|try by constructor]);
    try done; try (by apply Full_splice).
  - apply Full_setElem; [done|lia].
  - apply Forall_app. split; [done|apply Full_items].
  - by apply Forall_take.
  - by apply Forall_tail.
  - apply Forall_app. split; [apply Full_items|done].
  - by apply Forall_reverse.
  - by apply Full_copyRange.
  - by apply Full_fillRange.
  - by apply Forall_take, Forall_drop.
  - by apply Forall_take, Forall_drop.
  - apply Forall_insert; [apply Full_filled|by eexists].
  - apply Forall_reverse, Full_filled.
  - apply Full_splice, Full_filled.
Qed.
End specRun.

(** ** One call *)

Section refinement.
Context `{Env}.
Hypothesis callable_identity : ∀ p q, callable p = true → selfEqual p q = true → p = q.
Context (conv : Value → Z).
Abbreviation Converts := (Converts conv).

(** The result of a method is the one the specification gives; a new array is an
    object that did not exist. *)
Definition Matches (h : heap) (sr : specResult) (r : result_) (h' : heap) : Prop :=
  match sr, r with
  | SVal v, RVal w => w = v
  | SThis, RThis => True
  | SNew L, RObj a => a = next h ∧ ArrayAt h' a L
  | _, _ => False
  end.

Definition Called (h : heap) (o : positive) (L : elems) (m : method) (r : result_) (h' : heap) : Prop :=
  let '(L', sr) := specMethod conv selfEqual L m in
  WfHeap h' ∧ ArrayAt h' o L' ∧ Keeps o h h' ∧ Matches h sr r h'.

Lemma St_Called h o L h' (P : Prop) : St h o L h' → P → WfHeap h' ∧ ArrayAt h' o L ∧ Keeps o h h' ∧ P.
Proof. intros [HW HA HO] HP. split_and!; [done..|by apply Only_Keeps|done]. Qed.

Lemma same_Called h o L h' (P : Prop) : WfHeap h → ArrayAt h o L → h' = h → P → WfHeap h' ∧ ArrayAt h' o L ∧ Keeps o h h' ∧ P.
Proof. intros HW HA -> HP. by split_and!. Qed.

Lemma New_Called h o L L2 a h' : NewArray h o L L2 a h' → WfHeap h' ∧ ArrayAt h' o L ∧ Keeps o h h' ∧ a = next h ∧ ArrayAt h' a L2.
Proof. intros (H1 & H2 & H3 & H4 & H5). by split_and!. Qed.

Lemma does_then {A B} (m : M A) (f : A → B) h (P : A → heap → Prop) (Q : B → heap → Prop) :
  does m h P → (∀ a h', P a h' → Q (f a) h') → does (x ← m; mret (f x)) h Q.
Proof. intros Hm HPQ. apply does_bind. eapply does_mono; [exact Hm|]. intros a h' HP. by apply does_ret, HPQ. Qed.

Lemma exec_spec h o L m :
  WfHeap h → protoBare h (Some arrayProto) → StdSpecies o → ArrayAt h o L → (seesHoles m = true → Honest h o L) →
  Forall Converts (converted m) → allowed conv L m → does (exec o m) h (Called h o L m).
Proof.
  intros HW Hp HSp HA HH HC Hal. unfold Called.
  destruct m; cbn [exec specMethod seesHoles converted allowed] in *; decompose_Forall_hyps; try specialize (HH eq_refl).
  - apply does_bind. eapply does_setOwnIdx; [by apply St_init|done|]. intros h' HS. apply does_ret. by apply St_Called.
  - eapply does_then; [by apply push_spec|]. intros n h' [-> HS]. by apply St_Called.
  - eapply does_then; [by apply pop_spec|]. intros r h' [Hr HS]. by apply St_Called.
  - eapply does_then; [by apply shift_spec|]. intros r h' [Hr HS]. by apply St_Called.
  - eapply does_then; [by apply unshift_spec|]. intros n h' [-> HS]. by apply St_Called.
  - eapply does_then; [by apply reverse_spec|]. intros [] h' HS. by apply St_Called.
  - eapply does_then; [by apply (copyWithin_spec conv)|]. intros [] h' HS. by apply St_Called.
  - eapply does_then; [by apply (fill_spec conv)|]. intros [] h' HS. by apply St_Called.
  - eapply does_then; [by apply (splice_spec callable_identity conv)|]. intros a h' (-> & HW' & Ha & Ho & HK). by split_and!.
  - eapply does_then; [by apply (at_spec conv)|]. intros r h' [-> Hr]. by apply same_Called.
  - eapply does_then; [by apply (array_indexOf_spec conv)|]. intros n h' [-> ->]. by apply same_Called.
  - eapply does_then; [by apply (includes_spec conv)|]. intros b h' [-> ->]. by apply same_Called.
  - eapply does_then; [by apply (lastIndexOf_spec conv)|]. intros n h' [-> ->]. by apply same_Called.
  - eapply does_then; [by apply (slice_spec callable_identity conv)|]. intros a h'. apply New_Called.
  - eapply does_then; [by apply (with_spec callable_identity conv)|]. intros a h'. apply New_Called.
  - eapply does_then; [by apply (toReversed_spec callable_identity)|]. intros a h'. apply New_Called.
  - eapply does_then; [by apply (toSpliced_spec callable_identity conv)|]. intros a h'. apply New_Called.
Qed.

(** ** Programs *)

Lemma ArrayAt_Keeps h h' o o' L : WfHeap h → ArrayAt h o' L → Keeps o h h' → o' ≠ o → ArrayAt h' o' L.
Proof.
  intros HW HA [K1 K2 K3] Hne. pose proof (ArrayAt_next _ _ _ HW HA) as Hn. destruct HA as (x & Hx & HH & Hp). exists x.
  split; [by rewrite K1|]. split; [done|]. destruct (protoOf x) as [q|]; [|done]. destruct Hp as (P1 & P2 & P3).
  split; [by apply K2|]. split; [lia|done].
Qed.

(** The arrays of a program: different objects with the given elements. *)
Record Arrays_ (h : heap) (refs : list positive) (Ls : list elems) : Prop := {
  arrs_wf : WfHeap h;
  arrs_proto : protoBare h (Some arrayProto);
  arrs_nodup : NoDup refs;
  arrs_at : Forall2 (ArrayAt h) refs Ls;
  arrs_full : Forall Full Ls;
}.

Lemma Honest_full h o L : Full L → Honest h o L.
Proof. by intros HL p a _ _ _. Qed.

(** An update of one array, and the arrays of a heap that has changed in it only. *)
Lemma Forall2_Keeps h h' o k L' refs Ls :
  WfHeap h → NoDup refs → refs !! k = Some o → Keeps o h h' → ArrayAt h' o L' →
  Forall2 (ArrayAt h) refs Ls → Forall2 (ArrayAt h') refs (<[k := L']> Ls).
Proof.
  intros HW HN Hk HK HA HF. apply Forall2_lookup. intros i. pose proof (proj1 (Forall2_lookup _ _ _) HF i) as Hi.
  destruct (decide (i = k)) as [->|Hne].
  - rewrite Hk in *. inversion Hi; subst. rewrite list_lookup_insert_eq by (by eapply lookup_lt_Some). by constructor.
  - rewrite list_lookup_insert_ne by done. destruct (refs !! i) as [o'|] eqn:Ei; inversion Hi; subst; constructor.
    apply (ArrayAt_Keeps h h' o); [done..|]. intros ->. by apply Hne, (NoDup_lookup refs i k o).
Qed.

(** One call keeps the correspondence. *)
Lemma Arrays_call h refs Ls k o L m r h' :
  Arrays_ h refs Ls → refs !! k = Some o → Ls !! k = Some L → allowed conv L m → noHole L m → Called h o L m r h' →
  ∃ refs' out, (match r with
                | RVal v => (refs, OutVal v)
                | RThis => (refs, OutArr k)
                | RObj a => (refs ++ [a], OutArr (length refs))
                end) = (refs', out) ∧
    Arrays_ h' refs' (specCall conv selfEqual Ls k L m).1 ∧ out = (specCall conv selfEqual Ls k L m).2.
Proof.
  intros [HW Hp HN HA HF] Hk HL Hal Hno HC. unfold Called, specCall in *.
  pose proof (Full_method conv selfEqual L m (proj1 (Forall_lookup _ _) HF k L HL) Hal Hno) as [HF1 HF2].
  destruct (specMethod conv selfEqual L m) as [L' sr]. destruct HC as (HW' & HA' & HK & HM). cbn [fst snd] in *.
  assert (Arrays_ h' refs (<[k := L']> Ls)) as HR.
  { split; [done| |done| |by apply Forall_insert].
    - destruct HK as [_ K2 K3], Hp as (P1 & P2 & P3). split; [by apply K2|]. split; [lia|done].
    - by apply (Forall2_Keeps h h' o). }
  destruct sr as [v| |L2], r as [w| |a]; try done; cbn [Matches newOf fst snd] in *; [subst; by eauto..|].
  destruct HM as [-> HA2]. eexists _, _. split; [done|]. destruct HR as [_ R2 R3 R4 R5]. split; [split; try done|].
  - apply NoDup_app. split; [done|]. split; [|apply NoDup_singleton]. intros x Hx ->%list_elem_of_singleton.
    apply list_elem_of_lookup in Hx as [i Hi]. destruct (Forall2_lookup_l _ _ _ _ _ HA Hi) as (? & _ & HAi).
    pose proof (ArrayAt_next _ _ _ HW HAi). lia.
  - by apply Forall2_app; [|constructor].
  - by apply Forall_app; split; [|constructor].
  - f_equal. by eapply Forall2_length.
Qed.

Hypothesis std_species : ∀ o, StdSpecies o.

Lemma run_spec calls : ∀ h refs Ls,
  Arrays_ h refs Ls → Forall (λ c, Forall Converts (converted c.2)) calls → runAllowed conv selfEqual Ls calls →
  does (run refs calls) h (λ r h', Arrays_ h' r.1 (specRun conv selfEqual Ls calls).1 ∧ r.2 = (specRun conv selfEqual Ls calls).2).
Proof.
  induction calls as [|[k m] calls IH]; intros h refs Ls HR HC Hal; [by apply does_ret|].
  cbn [run specRun runAllowed] in *. apply Forall_cons in HC as [HC HCs]. destruct (Ls !! k) as [L|] eqn:HL; [|done].
  destruct Hal as (Hal & Hno & Hals). pose proof HR as [HW Hp HN HA HF].
  destruct (Forall2_lookup_r _ _ _ _ _ HA HL) as (o & Ho & HAo). rewrite Ho.
  apply does_bind. eapply does_mono.
  { apply (exec_spec h o L m); try done. intros _. apply Honest_full. by eapply Forall_lookup_1. }
  intros r h' Hr. destruct (Arrays_call h refs Ls k o L m r h' HR Ho HL Hal Hno Hr) as (refs' & out & -> & HR' & ->).
  apply does_bind. destruct (specCall conv selfEqual Ls k L m) as [Ls' out]. cbn [fst snd] in *.
  eapply does_mono; [by apply IH|]. intros [refs2 outs] h2 [HR2 Ho2]. apply does_ret. cbn in *. by rewrite Ho2.
Qed.

(** C11: a call of push, pop, shift, unshift, reverse, copyWithin, fill, splice, at,
    indexOf, includes, lastIndexOf, slice, with, toReversed or toSpliced, or an
    assignment to an element, on a dense or sparse array returns and has the result
    and the effect on the list of elements, holes included, that ECMAScript gives the
    method, whichever of its paths it takes; no other object changes, also not through
    a shared backing array, and a new array is an object that did not exist.
    Conditions: the elements are enumerable, writable and configurable data
    properties, the array is extensible with a writable length and its prototypes
    have no elements; the constructor of the array is Array; the conversions of the
    arguments have no effect; the length stays below 2^32, and the index of [with] is
    in range ([allowed]); for a method of [seesHoles] the count of elements that
    lets it take its direct path is right ([Honest]).  The deviations without these
    conditions are [stale_length_panics], [pop_miscounts], [map_miscounts] and
    [direct_paths_ignore_attributes]. *)
Theorem array_method_refines h o L m :
  WfHeap h → protoBare h (Some arrayProto) → ArrayAt h o L → (seesHoles m = true → Honest h o L) →
  Forall Converts (converted m) → allowed conv L m → does (exec o m) h (Called h o L m).
Proof. intros HW Hp HA HH HC Hal. by apply exec_spec. Qed.

(** C10: a program of such calls on arrays without holes, where later calls may
    use the arrays earlier calls have created, runs to its end, returns what the
    same program on immutable lists returns, and leaves the arrays with the
    elements of the lists; no two arrays share a struct or a backing array, so that
    no call on one changes another.  The conditions are those of a single call: plain
    extensible arrays with a writable length, conversions of arguments without
    effects, Array as the constructor, lengths below 2^32 and no call that makes a
    hole ([runAllowed]). *)
Theorem array_programs_refine calls h refs Ls :
  Arrays_ h refs Ls → Forall (λ c, Forall Converts (converted c.2)) calls → runAllowed conv selfEqual Ls calls →
  does (run refs calls) h (λ r h', WfHeap h' ∧ Forall2 (ArrayAt h') r.1 (specRun conv selfEqual Ls calls).1 ∧
    r.2 = (specRun conv selfEqual Ls calls).2).
Proof.
  intros HR HC Hal. eapply does_mono; [by apply run_spec|]. intros r h' [[HW _ _ HA _] Ho]. done.
Qed.
End refinement.
End ArrayProtoMethods.
