(* ===== verification/ArrayProtoCallbacks.v ===== *)
(** * Array.prototype: the methods with a callback

    For a callback that is a function of its arguments, every, some, forEach, map,
    filter, reduce, reduceRight and the find methods compute the functions on
    lists they are named after, holes excepted; without an initial value,
    reduce of an array without elements throws. *)

From S2P Require Import Prelude ArrayIndex Float64 Numbers Values Property Objects Arrays ArrayProto ArrayProtoHeap ArrayProtoSpec ArrayProtoGeneric ArrayProtoFast ArrayProtoMutators ArrayProtoSplice ArrayProtoAccessors ArrayProtoMethods.
Import ArrayIndex Numbers Values Property Objects ArrayProto ArrayProtoHeap ArrayProtoSpec ArrayProtoGeneric ArrayProtoFast
  ArrayProtoMutators ArrayProtoSplice ArrayProtoAccessors ArrayProtoMethods.
Open Scope Z_scope.

Module ArrayProtoCallbacks.

(** ** Calls *)

(** The arguments after the callback: thisArg, or the initial value. *)
Inductive cmethod :=
  | Every (rest : list Value)
  | Some_ (rest : list Value)
  | ForEach (rest : list Value)
  | Map (rest : list Value)
  | Filter (rest : list Value)
  | Reduce (rest : list Value)
  | ReduceRight (rest : list Value)
  | Find (rest : list Value)
  | FindIndex (rest : list Value)
  | FindLast (rest : list Value)
  | FindLastIndex (rest : list Value).

Section exec.
Context `{Env}.

Definition execCallback (o f : positive) (m : cmethod) : M result_ :=
  let args rest := VObject f :: rest in
  match m with
  | Every rest => b ← arrayproto_every o (args rest); mret (RVal (VBool b))
  | Some_ rest => b ← arrayproto_some o (args rest); mret (RVal (VBool b))
  | ForEach rest => arrayproto_forEach o (args rest) ;; mret (RVal VUndefined)
  | Map rest => a ← arrayproto_map o (args rest); mret (RObj a)
  | Filter rest => a ← arrayproto_filter o (args rest); mret (RObj a)
  | Reduce rest => v ← arrayproto_reduce o (args rest); mret (RVal v)
  | ReduceRight rest => v ← arrayproto_reduceRight o (args rest); mret (RVal v)
  | Find rest => v ← arrayproto_find o (args rest); mret (RVal (nilSafe v))
  | FindIndex rest => n ← arrayproto_findIndex o (args rest); mret (RVal (numV n))
  | FindLast rest => v ← arrayproto_findLast o (args rest); mret (RVal (nilSafe v))
  | FindLastIndex rest => n ← arrayproto_findLastIndex o (args rest); mret (RVal (numV n))
  end.
End exec.

(** ** The specification *)

(** The elements of a range that exist, with their indices. *)
Definition entry (L : elems) (i : Z) : option (Z * Value) := pair i <$> at_ L i.
Definition entriesIn (L : elems) (lo hi : Z) : list (Z * Value) := omap (entry L) (seqZ lo (hi - lo)).
Definition entries (L : elems) : list (Z * Value) := entriesIn L 0 (lenZ L).

Section spec.
(** The truth of values, the callback, and the array it gets. *)
Context (truth : Value → bool) (g : Value → list Value → Value) (o : positive).

Definition apply_ (this : Value) (e : Z * Value) : Value := g this [e.2; idxV e.1; VObject o].
Definition passes (this : Value) (e : Z * Value) : bool := truth (apply_ this e).
Definition combine_ (acc : Value) (e : Z * Value) : Value := g VUndefined [acc; e.2; idxV e.1; VObject o].
(** The find methods pass a hole as undefined. *)
Definition passesAt (this : Value) (L : elems) (i : Z) : bool := passes this (i, nilSafe (at_ L i)).

Definition reduceList (rest : list Value) (es : list (Z * Value)) : option Value :=
  match rest, es with
  | init :: _, es => Some (fold_left combine_ es init)
  | [], e :: es => Some (fold_left combine_ es e.2)
  | [], [] => None
  end.

Definition valueAt (L : elems) (i : option Z) : Value := match i with Some i => nilSafe (at_ L i) | None => VUndefined end.

(** [None] is a TypeError. *)
Definition specCallback (L : elems) (m : cmethod) : option specResult :=
  match m with
  | Every rest => Some (SVal (VBool (forallb (passes (arg rest 0)) (entries L))))
  | Some_ rest => Some (SVal (VBool (existsb (passes (arg rest 0)) (entries L))))
  | ForEach _ => Some (SVal VUndefined)
  | Map rest => Some (SNew (imap (λ i x, (λ v, apply_ (arg rest 0) (Z.of_nat i, v)) <$> x) L))
  | Filter rest => Some (SNew ((λ e, Some e.2) <$> List.filter (passes (arg rest 0)) (entries L)))
  | Reduce rest => SVal <$> reduceList rest (entries L)
  | ReduceRight rest => SVal <$> reduceList rest (reverse (entries L))
  | Find rest => Some (SVal (valueAt L (firstIn (passesAt (arg rest 0) L) 0 (lenZ L))))
  | FindIndex rest => Some (SVal (numV (found (firstIn (passesAt (arg rest 0) L) 0 (lenZ L)))))
  | FindLast rest => Some (SVal (valueAt L (lastIn (passesAt (arg rest 0) L) (lenZ L))))
  | FindLastIndex rest => Some (SVal (numV (found (lastIn (passesAt (arg rest 0) L) (lenZ L)))))
  end.
End spec.

(** ** Loops that change nothing *)

Lemma fold_omap {A B C} (F : A → option B) (s : C → B → C) (l : list A) (acc : C) :
  fold_left (λ c a, match F a with Some b => s c b | None => c end) l acc = fold_left s (omap F l) acc.
Proof. revert acc. induction l as [|a l IH]; intros acc; [done|]. cbn. destruct (F a); cbn; by rewrite IH. Qed.

Lemma omap_reverse' {A B} (F : A → option B) (l : list A) : omap F (reverse l) = reverse (omap F l).
Proof.
  induction l as [|a l IH]; [done|]. rewrite reverse_cons, omap_app, IH. unfold omap at 2 3. cbn [list_omap].
  destruct (F a); [by rewrite reverse_cons|by rewrite app_nil_r].
Qed.

Lemma existsb_omap {A B} (F : A → option B) (P : B → bool) (l : list A) :
  existsb (λ a, match F a with Some b => P b | None => false end) l = existsb P (omap F l).
Proof. induction l as [|a l IH]; [done|]. cbn. destruct (F a); cbn; by rewrite IH. Qed.

Lemma find_existsb {A} (P : A → bool) (l : list A) : isSome (List.find P l) = existsb P l.
Proof. induction l as [|a l IH]; [done|]. cbn. by destruct (P a). Qed.

Lemma forallb_existsb {A} (P : A → bool) (l : list A) : forallb P l = negb (existsb (λ a, negb (P a)) l).
Proof. induction l as [|a l IH]; [done|]. cbn. rewrite IH. by destruct (P a). Qed.

Lemma fold_left_snoc {A B} (c : A → B) (l : list A) (acc : list B) :
  fold_left (λ r a, r ++ [c a]) l acc = acc ++ (c <$> l).
Proof. revert acc. induction l as [|a l IH]; intros acc; cbn; [by rewrite app_nil_r|]. rewrite IH. by rewrite <- app_assoc. Qed.

Lemma bind_eq {A B} (m : M A) (k : A → M B) h h' a : m h = (Ret a, h') → (m ≫= k) h = k a h'.
Proof. unfold mbind, M_bind. by intros ->. Qed.
Lemma bind_raise {A B} (m : M A) (k : A → M B) h h' e : m h = (Raise e, h') → (m ≫= k) h = (Raise e, h').
Proof. unfold mbind, M_bind. by intros ->. Qed.

Lemma reads_foldUp {A} (n : nat) (k : Z) (acc : A) (body : Z → A → M A) (step : A → Z → A) h :
  (∀ j a, k ≤ j < k + Z.of_nat n → Reads (body j a) h (step a j)) →
  Reads (foldUp n k acc body) h (fold_left step (seqZ k (Z.of_nat n)) acc).
Proof.
  revert k acc. induction n as [|n IH]; intros k acc Hb; [done|]. cbn [foldUp].
  rewrite seqZ_cons by lia. cbn [fold_left]. eapply reads_bind; [apply Hb; lia|].
  replace (Z.pred (Z.of_nat (S n))) with (Z.of_nat n) by lia. apply IH. intros j a Hj. apply Hb. lia.
Qed.

Lemma reads_foldDown {A} (n : nat) (acc : A) (body : Z → A → M A) (step : A → Z → A) h :
  (∀ j a, 0 ≤ j < Z.of_nat n → Reads (body j a) h (step a j)) →
  Reads (foldDown n (Z.of_nat n - 1) acc body) h (fold_left step (reverse (seqZ 0 (Z.of_nat n))) acc).
Proof.
  revert acc. induction n as [|n IH]; intros acc Hb; [done|]. cbn [foldDown].
  rewrite seqZ_S, reverse_app, reverse_singleton. cbn [app fold_left]. replace (0 + Z.of_nat n) with (Z.of_nat (S n) - 1) by lia.
  eapply reads_bind; [apply Hb; lia|]. replace (Z.of_nat (S n) - 1 - 1) with (Z.of_nat n - 1) by lia.
  apply IH. intros j a Hj. apply Hb. lia.
Qed.

(** The same for the loop of every, some and forEach. *)
Lemma reads_forUp (n : nat) (k : Z) (body : Z → M unit) h :
  (∀ j, k ≤ j < k + Z.of_nat n → Reads (body j) h ()) → Reads (forUp n k body) h ().
Proof.
  revert k. induction n as [|n IH]; intros k Hb; [done|]. cbn [forUp]. eapply reads_bind; [apply Hb; lia|].
  apply IH. intros j Hj. apply Hb. lia.
Qed.

(** ** Entries *)

Lemma entry_some L i v : at_ L i = Some v → entry L i = Some (i, v).
Proof. unfold entry. by intros ->. Qed.
Lemma entry_none L i : at_ L i = None → entry L i = None.
Proof. unfold entry. by intros ->. Qed.

Lemma entriesIn_first L lo hi k :
  firstIn (λ i, isSome (at_ L i)) lo hi = Some k → ∃ v, at_ L k = Some v ∧ lo ≤ k < hi ∧ entriesIn L lo hi = (k, v) :: entriesIn L (k + 1) hi.
Proof.
  unfold firstIn, entriesIn. destruct (decide (lo ≤ hi)) as [Hle|Hgt]; [|by rewrite seqZ_nil by lia].
  remember (Z.to_nat (hi - lo)) as n eqn:Hn. revert lo Hn Hle. induction n as [|n IH]; intros lo Hn Hle Hf.
  - by rewrite seqZ_nil in Hf by lia.
  - rewrite seqZ_cons in Hf |- * by lia. cbn [List.find omap list_omap] in *. unfold entry at 1. destruct (at_ L lo) as [v|] eqn:Hv; cbn [isSome] in Hf.
    + injection Hf as <-. exists v. split; [done|]. split; [lia|]. cbn. do 3 f_equal; lia.
    + replace (Z.pred (hi - lo)) with (hi - (lo + 1)) in * by lia. replace (Z.succ lo) with (lo + 1) in * by lia.
      destruct (IH (lo + 1) ltac:(lia) ltac:(lia) Hf) as (w & H1 & H2 & H3). exists w. split; [done|]. split; [lia|]. exact H3.
Qed.

Lemma entriesIn_none L lo hi : firstIn (λ i, isSome (at_ L i)) lo hi = None → entriesIn L lo hi = [].
Proof.
  unfold firstIn, entriesIn. induction (seqZ lo (hi - lo)) as [|i l IH]; [done|]. cbn. unfold entry at 1.
  destruct (at_ L i); cbn; [done|]. exact IH.
Qed.

Lemma entriesIn_last L hi k :
  0 ≤ hi → lastIn (λ i, isSome (at_ L i)) hi = Some k → ∃ v, at_ L k = Some v ∧ 0 ≤ k < hi ∧ entriesIn L 0 hi = entriesIn L 0 k ++ [(k, v)].
Proof.
  unfold lastIn, entriesIn. rewrite !Z.sub_0_r. intros Hh. rewrite <- (Z2Nat.id hi) by lia. induction (Z.to_nat hi) as [|n IH]; [done|]. clear Hh.
  rewrite seqZ_S, reverse_app, reverse_singleton. cbn [app List.find]. rewrite Z.add_0_l. destruct (at_ L (Z.of_nat n)) as [v|] eqn:Hv; cbn [isSome]; intros Hf.
  - injection Hf as <-. exists v. split; [done|]. split; [lia|]. rewrite omap_app. cbn. by rewrite (entry_some _ _ _ Hv).
  - destruct (IH Hf) as (w & H1 & H2 & H3). exists w. split; [done|]. split; [lia|]. rewrite omap_app, H3. cbn. rewrite (entry_none _ _ Hv). by rewrite app_nil_r.
Qed.

Lemma entriesIn_last_none L hi : lastIn (λ i, isSome (at_ L i)) hi = None → entriesIn L 0 hi = [].
Proof.
  unfold lastIn, entriesIn. rewrite Z.sub_0_r. intros Hf. pose proof (find_existsb (λ i, isSome (at_ L i)) (reverse (seqZ 0 hi))) as He.
  rewrite Hf in He. clear Hf. cbn in He. symmetry in He. rewrite <- not_true_iff_false, existsb_exists in He.
  induction (seqZ 0 hi) as [|i l IH]; [done|]. cbn. destruct (at_ L i) eqn:Hi; [rewrite (entry_some _ _ _ Hi)|rewrite (entry_none _ _ Hi)].
  - destruct He. exists i. split; [|by rewrite Hi]. apply list_elem_of_In. set_solver.
  - apply IH. intros (x & Hx & Hp). apply He. exists x. split; [|done]. apply list_elem_of_In in Hx. apply list_elem_of_In. set_solver.
Qed.

(** ** The methods *)

Section callbacks.
Context `{Env}.
Hypothesis callable_identity : ∀ p q, callable p = true → selfEqual p q = true → p = q.
(** The callback. *)
Context (f : positive) (g : Value → list Value → Value).
Hypothesis callable_f : callable f = true.
Hypothesis invoke_f : ∀ this args h, invoke f this args h = (Ret (g this args), h).
(** The capacity of a Go slice is an int. *)
Hypothesis slack_int : ∀ n, Z.of_nat n ≤ MaxUint32 → Z.of_nat (n + appendSlack n) ≤ MaxInt64.

Lemma reads_callback rest h : Reads (callbackArg (VObject f :: rest)) h f.
Proof. unfold callbackArg. cbn. by rewrite callable_f. Qed.

Lemma reads_callElem this o v k h : Reads (callElem f this o v k) h (apply_ g o this (k, v)).
Proof. apply invoke_f. Qed.

Lemma reads_reduceStep h o L k acc :
  ArrayAt h o L → 0 ≤ k < MaxUint32 →
  Reads (reduceStep f o k acc) h (match entry L k with Some e => combine_ g o acc e | None => acc end).
Proof.
  intros HA Hk. unfold reduceStep, entry. eapply reads_bind; [by apply (reads_getIdx _ _ L)|]. destruct (at_ L k); [apply invoke_f|done].
Qed.

Lemma reads_elemAtIdx h o L k :
  ArrayAt h o L → 0 ≤ k < MaxUint32 → Reads (elemAtIdx o k) h (if isSome (at_ L k) then Some (k, nilSafe (at_ L k)) else None).
Proof. intros HA Hk. unfold elemAtIdx. eapply reads_bind; [by apply (reads_getIdx _ _ L)|]. by destruct (at_ L k). Qed.

(** every and some: the loop stops at the first element on which [stop] holds. *)
Lemma reads_search h L (stop : Z * Value → bool) (body : Z → M (option unit)) :
  (∀ k, 0 ≤ k < lenZ L → Reads (body k) h (match entry L k with Some e => if stop e then Some () else None | None => None end)) →
  ∃ r, Reads (findRange 0 (lenZ L) body) h r ∧ isSome r = existsb stop (entries L).
Proof.
  intros Hb. eexists. split.
  - apply (reads_findRange _ (λ k, match entry L k with Some e => stop e | None => false end) (λ _, ())).
    intros k Hk. rewrite (Hb k Hk). by destruct (entry L k).
  - unfold entries, entriesIn. rewrite <- existsb_omap, <- find_existsb. unfold firstIn. by destruct (List.find _ _).
Qed.

Lemma every_spec h o L rest :
  ArrayAt h o L → Reads (arrayproto_every o (VObject f :: rest)) h (forallb (passes toBoolean g o (arg rest 0)) (entries L)).
Proof.
  intros HA. pose proof (ArrayAt_max _ _ _ HA) as Hm. unfold arrayproto_every. eapply reads_bind; [by apply (reads_getLength _ _ L)|].
  eapply reads_bind; [apply reads_callback|].
  edestruct (reads_search h L (λ e, negb (passes toBoolean g o (arg rest 0) e))) as (r & Hr & He); [|eapply reads_bind; [exact Hr|]].
  - intros k Hk. unfold entry. eapply reads_bind; [apply (reads_getIdx _ _ L); [done|lia]|]. destruct (at_ L k) as [v|]; [|done]. cbn [fmap option_fmap option_map].
    eapply reads_bind; [apply reads_callElem|]. unfold passes. change (arg (VObject f :: rest) 1) with (arg rest 0). by destruct (toBoolean _).
  - by rewrite He, forallb_existsb.
Qed.

Lemma some_spec h o L rest :
  ArrayAt h o L → Reads (arrayproto_some o (VObject f :: rest)) h (existsb (passes toBoolean g o (arg rest 0)) (entries L)).
Proof.
  intros HA. pose proof (ArrayAt_max _ _ _ HA) as Hm. unfold arrayproto_some. eapply reads_bind; [by apply (reads_getLength _ _ L)|].
  eapply reads_bind; [apply reads_callback|].
  edestruct (reads_search h L (passes toBoolean g o (arg rest 0))) as (r & Hr & He); [|eapply reads_bind; [exact Hr|by rewrite He]].
  intros k Hk. unfold entry. eapply reads_bind; [apply (reads_getIdx _ _ L); [done|lia]|]. destruct (at_ L k) as [v|]; [|done]. cbn [fmap option_fmap option_map].
  eapply reads_bind; [apply reads_callElem|]. unfold passes. change (arg (VObject f :: rest) 1) with (arg rest 0). by destruct (toBoolean _).
Qed.

Lemma forEach_spec h o L rest : ArrayAt h o L → Reads (arrayproto_forEach o (VObject f :: rest)) h ().
Proof.
  intros HA. pose proof (ArrayAt_max _ _ _ HA) as Hm. unfold arrayproto_forEach. eapply reads_bind; [by apply (reads_getLength _ _ L)|].
  eapply reads_bind; [apply reads_callback|]. apply reads_forUp. intros k Hk.
  eapply reads_bind; [apply (reads_getIdx _ _ L); [done|lia]|]. destruct (at_ L k); [|done]. eapply reads_bind; [apply reads_callElem|done].
Qed.

(** *** reduce *)

Lemma reads_reduceFrom h o L lo init :
  ArrayAt h o L → 0 ≤ lo → Reads (foldUp (Z.to_nat (lenZ L - lo)) lo init (reduceStep f o)) h (fold_left (combine_ g o) (entriesIn L lo (lenZ L)) init).
Proof.
  intros HA Hlo. pose proof (ArrayAt_max _ _ _ HA) as Hm. unfold entriesIn. rewrite <- fold_omap.
  destruct (decide (lo ≤ lenZ L)) as [Hle|Hgt].
  - rewrite <- (Z2Nat.id (lenZ L - lo)) at 2 by lia. apply reads_foldUp. intros j a Hj. apply reads_reduceStep; [done|lia].
  - replace (Z.to_nat (lenZ L - lo)) with 0%nat by lia. by rewrite seqZ_nil by lia.
Qed.

Lemma reduce_spec h o L rest :
  ArrayAt h o L →
  arrayproto_reduce o (VObject f :: rest) h =
    match reduceList g o rest (entries L) with Some v => (Ret v, h) | None => (Raise (Native (TypeError "No initial value")), h) end.
Proof.
  intros HA. pose proof (ArrayAt_max _ _ _ HA) as Hm. unfold arrayproto_reduce. rewrite (bind_eq _ _ _ _ _ (reads_getLength _ _ L HA)), (bind_eq _ _ _ _ _ (reads_callback rest h)). cbn [lookup list_lookup]. destruct rest as [|init rest]; cbn [lookup list_lookup reduceList].
  - assert (∀ k, 0 ≤ k < lenZ L → Reads (elemAtIdx o k) h (if isSome (at_ L k) then Some (k, nilSafe (at_ L k)) else None)) as He
      by (intros k Hk; apply (reads_elemAtIdx _ _ L); [done|lia]).
    pose proof (reads_findRange _ _ (λ i, (i, nilSafe (at_ L i))) 0 (lenZ L) h He) as Hf. unfold entries. destruct (firstIn (λ i, isSome (at_ L i)) 0 (lenZ L)) as [k|] eqn:Ef; cbn [fmap option_fmap option_map].
    + destruct (entriesIn_first _ _ _ _ Ef) as (v & Hv & Hk & ->). erewrite bind_eq by (by eapply reads_bind; [exact Hf|]).
      cbn [fst snd]. rewrite Hv. apply reads_reduceFrom; [done|lia].
    + rewrite (entriesIn_none _ _ _ Ef). eapply bind_raise. by rewrite (bind_eq _ _ _ _ _ Hf).
  - cbn [list_lookup]. erewrite (bind_eq (mret _)) by done. cbn [fst snd]. by apply reads_reduceFrom.
Qed.

Lemma reads_reduceTo h o L hi init :
  ArrayAt h o L → 0 ≤ hi ≤ lenZ L →
  Reads (foldDown (Z.to_nat (hi - 1 + 1)) (hi - 1) init (reduceStep f o)) h (fold_left (combine_ g o) (reverse (entriesIn L 0 hi)) init).
Proof.
  intros HA Hhi. pose proof (ArrayAt_max _ _ _ HA) as Hm. unfold entriesIn. rewrite Z.sub_0_r.
  rewrite <- omap_reverse', <- fold_omap. replace (hi - 1 + 1) with hi by lia. rewrite <- (Z2Nat.id hi) at 2 3 by lia. apply reads_foldDown.
  intros j a Hj. apply reads_reduceStep; [done|lia].
Qed.

Lemma reduceRight_spec h o L rest :
  ArrayAt h o L →
  arrayproto_reduceRight o (VObject f :: rest) h =
    match reduceList g o rest (reverse (entries L)) with Some v => (Ret v, h) | None => (Raise (Native (TypeError "No initial value")), h) end.
Proof.
  intros HA. pose proof (ArrayAt_max _ _ _ HA) as Hm. unfold arrayproto_reduceRight. rewrite (bind_eq _ _ _ _ _ (reads_getLength _ _ L HA)), (bind_eq _ _ _ _ _ (reads_callback rest h)). cbn [lookup list_lookup]. destruct rest as [|init rest]; cbn [lookup list_lookup reduceList].
  - assert (∀ k, 0 ≤ k < lenZ L → Reads (elemAtIdx o k) h (if isSome (at_ L k) then Some (k, nilSafe (at_ L k)) else None)) as He
      by (intros k Hk; apply (reads_elemAtIdx _ _ L); [done|lia]).
    pose proof (reads_findDown _ _ (λ i, (i, nilSafe (at_ L i))) (lenZ L) h He) as Hf. unfold entries. destruct (lastIn (λ i, isSome (at_ L i)) (lenZ L)) as [k|] eqn:Ef; cbn [fmap option_fmap option_map].
    + destruct (entriesIn_last L (lenZ L) k ltac:(lia) Ef) as (v & Hv & Hk & ->). rewrite reverse_snoc. erewrite bind_eq by (by eapply reads_bind; [exact Hf|]).
      cbn [fst snd]. rewrite Hv. apply reads_reduceTo; [done|lia].
    + rewrite (entriesIn_last_none _ _ Ef). eapply bind_raise. by rewrite (bind_eq _ _ _ _ _ Hf).
  - cbn [list_lookup]. erewrite (bind_eq (mret _)) by done. cbn [fst snd]. apply reads_reduceTo; [done|lia].
Qed.

(** *** find *)

Lemma reads_findStep h o L this k :
  ArrayAt h o L → 0 ≤ k < lenZ L →
  Reads (findStep f this o k) h (if passesAt toBoolean g o this L k then Some (k, at_ L k) else None).
Proof.
  intros HA Hk. pose proof (ArrayAt_max _ _ _ HA) as Hm. unfold findStep, passesAt, passes. eapply reads_bind; [apply (reads_getIdx _ _ L); [done|lia]|].
  eapply reads_bind; [apply reads_callElem|]. by destruct (toBoolean _).
Qed.

Lemma reads_findForward h o L rest :
  ArrayAt h o L →
  Reads (findForward o (VObject f :: rest)) h ((λ i, (i, at_ L i)) <$> firstIn (passesAt toBoolean g o (arg rest 0) L) 0 (lenZ L)).
Proof.
  intros HA. unfold findForward. eapply reads_bind; [by apply (reads_getLength _ _ L)|]. eapply reads_bind; [apply reads_callback|].
  apply reads_findRange. intros k Hk. by apply reads_findStep.
Qed.

Lemma reads_findBackward h o L rest :
  ArrayAt h o L →
  Reads (findBackward o (VObject f :: rest)) h ((λ i, (i, at_ L i)) <$> lastIn (passesAt toBoolean g o (arg rest 0) L) (lenZ L)).
Proof.
  intros HA. unfold findBackward. eapply reads_bind; [by apply (reads_getLength _ _ L)|]. eapply reads_bind; [apply reads_callback|].
  apply reads_findDown. intros k Hk. by apply reads_findStep.
Qed.

Lemma foundValue_at L i : nilSafe (foundValue ((λ i, (i, at_ L i)) <$> i)) = valueAt L i.
Proof. by destruct i. Qed.
Lemma foundIndex_at L i : foundIndex ((λ i, (i, at_ L i)) <$> i) = found i.
Proof. by destruct i. Qed.

(** *** map *)

Lemma length_imap_map L (F : nat → option Value → option Value) : lenZ (imap F L) = lenZ L.
Proof. unfold lenZ. by rewrite length_imap. Qed.

Lemma at_imap L (F : nat → option Value → option Value) i : 0 ≤ i < lenZ L → at_ (imap F L) i = F (Z.to_nat i) (at_ L i).
Proof.
  unfold lenZ. intros Hi. unfold at_. zcmp. rewrite list_lookup_imap. by destruct (lookup_lt_is_Some_2 L (Z.to_nat i)) as [x ->]; [lia|].
Qed.

Definition mapCell (this : Value) (o : positive) (L : elems) (k : Z) : option slot := (λ v, Raw (apply_ g o this (k, v))) <$> at_ L k.

Lemma mapCell_cells this o L : mapCell this o L <$> seqZ 0 (lenZ L) = cellsOf (imap (λ i x, (λ v, apply_ g o this (Z.of_nat i, v)) <$> x) L).
Proof.
  apply list_eq. intros i. unfold cellsOf. rewrite !list_lookup_fmap, list_lookup_imap. unfold lenZ.
  destruct (decide (i < length L)%nat) as [Hi|Hi].
  - rewrite lookup_seqZ_lt by lia. rewrite (lookup_at L i Hi). cbn. unfold mapCell. rewrite Z.add_0_l. by destruct (at_ L (Z.of_nat i)).
  - rewrite lookup_seqZ_ge, (lookup_ge_None_2 L) by lia. done.
Qed.

Lemma does_denseStruct h o (Q : option positive → heap → Prop) :
  Q None h → (∀ p, selfs h !! o = Some (SDense p) → Q (Some p) h) → does (denseStruct o) h Q.
Proof. intros HN HS. unfold denseStruct, does. destruct (selfs h !! o) as [[p| |]|]; try done. by apply HS. Qed.

(** The values the loop has collected become those of the array [a]. *)
Lemma does_newValues h0 h a q da R L0 slack (Q : unit → heap → Prop) :
  St h0 a L0 h → selfs h !! a = Some (SDense q) → structAt h q = Some da → Z.of_nat (length R) ≤ MaxUint32 → Z.of_nat (length R + slack) ≤ MaxInt64 →
  (∀ h', St h0 a R h' → Q () h') →
  does (values ← newSlice (cellsOf R) slack; setArrayValues q values) h Q.
Proof.
  intros [HW HA HO] Hq Hda Hm Hs HQ. apply does_bind, does_newSlice; [done|]. intros sl h1 S1 L1.
  apply (does_setArrayValues h0 h1 a q da sl R L0 slack); [|by rewrite (same_selfs _ _ S1)|by rewrite (same_at _ _ S1 a)|done..].
  split; [by apply (same_wf _ _ S1)|by eapply ArrayAt_same|]. transitivity h; [done|by apply same_only].
Qed.

Lemma map_spec h o L rest :
  WfHeap h → protoBare h (Some arrayProto) → StdSpecies o → ArrayAt h o L →
  does (arrayproto_map o (VObject f :: rest)) h (NewArray h o L (imap (λ i x, (λ v, apply_ g o (arg rest 0) (Z.of_nat i, v)) <$> x) L)).
Proof.
  intros HW Hp HSp HA. pose proof (ArrayAt_max _ _ _ HA) as Hm. pose proof (ArrayAt_next _ _ _ HW HA) as Hon. unfold arrayproto_map.
  set (R := imap _ L). apply does_bind, (does_getLength _ _ L); [done|]. fold (lenZ L). apply does_bind. eapply does_eq; [apply reads_callback|].
  apply does_bind, (does_arraySpeciesCreate _ _ L); [done..|]. intros h1 H1. pose proof (st_only _ _ _ _ H1) as O1. assert (o ≠ next h) as Hne by lia.
  set (a := next h) in *. assert (lenZ R = lenZ L) as HlR by apply length_imap_map.
  assert (∀ h2, Only a h h2 → ArrayAt h2 o L) as HAo by (intros h2 O2; exact (ArrayAt_only _ _ _ _ _ HA O2 Hne)).
  match goal with |- does (_ ← _; _) _ ?Q => set (Q0 := Q) end.
  assert (does (forRange 0 (lenZ L) (λ k, v ← getIdx o k;
     match v with Some val => r ← callElem f (arg (VObject f :: rest) 1) o val k; createDataPropertyOrThrow a k (Some r) | None => mret () end)) h1
     (λ _ h', does (mret a) h' Q0)) as Hgen.
  { assert (StP h a (lenZ L) (lenZ L) (λ _, None) h1) as HP.
    { apply (StP_weaken _ _ _ _ _ _ _ _ _ (StP_init _ _ _ _ H1)); [unfold lenZ; rewrite length_replicate; lia..|]. intros i Hi. apply at_holes. }
    apply (does_build callable_identity h a (lenZ L) 0 (lenZ L) (λ k, (λ v, apply_ g o (arg rest 0) (k, v)) <$> at_ L k) (λ _, None)); [done|lia..| |].
    - intros j h2 Hj O2 Q' HQ'. apply does_bind, (does_getIdx _ _ L); [by apply HAo|lia|]. destruct (at_ L j) as [v|]; [|by apply does_ret].
      apply does_bind. eapply does_eq; [apply reads_callElem|]. exact HQ'.
    - intros h2 H2. apply does_ret. eapply StP_NewArray; [done..|by rewrite HlR|]. intros i Hi. rewrite HlR in Hi. cbv beta. unfold R. rewrite at_imap by done.
      zcmp. cbn [andb]. rewrite Z2Nat.id by lia. by destruct (at_ L i). }
  apply does_bind, does_denseStruct; [apply does_bind, does_ret, does_bind, Hgen|]. intros p Ho. apply does_bind, does_denseStruct; [by apply does_bind|].
  intros q Hq. apply does_bind, does_bind. eapply does_eq.
  { apply (reads_foldUp _ _ _ _ (λ vs k, vs ++ [mapCell (arg rest 0) o L k])). intros j vs Hj.
    eapply reads_bind; [apply (reads_getIdx _ _ L); [by apply HAo|lia]|]. unfold mapCell. destruct (at_ L j) as [v|]; [|done].
    eapply reads_bind; [apply reads_callElem|done]. }
  rewrite fold_left_snoc, Z2Nat.id, mapCell_cells by lia. cbn [app]. fold R.
  pose proof (st_arr _ _ _ _ H1) as (x & Hx & _). unfold implOf in Hx. rewrite Hq in Hx. destruct (structAt h1 q) as [da|] eqn:Hda; [|done].
  apply (does_newValues h h1 a q da R (replicate (Z.to_nat (lenZ L)) None) 0); [done..|unfold lenZ in *; lia|unfold lenZ, MaxUint32, MaxInt64 in *; lia|].
  intros h2 H2. by apply does_ret, St_NewArray.
Qed.

(** *** filter *)

Definition kept (P : Z * Value → bool) (L : elems) (k : Z) : elems := (λ e, Some e.2) <$> List.filter P (entriesIn L 0 k).

Lemma kept_next P L k :
  0 ≤ k → kept P L (k + 1) = kept P L k ++ match entry L k with Some e => if P e then [Some e.2] else [] | None => [] end.
Proof.
  intros Hk. unfold kept, entriesIn. rewrite !Z.sub_0_r. rewrite <- (Z2Nat.id k) at 1 by lia.
  replace (Z.of_nat (Z.to_nat k) + 1) with (Z.of_nat (S (Z.to_nat k))) by lia. rewrite seqZ_S, omap_app, List.filter_app, fmap_app, Z.add_0_l, Z2Nat.id by lia.
  f_equal. cbn. destruct (entry L k) as [e|]; [|done]. cbn. by destruct (P e).
Qed.

Lemma kept_length P L k : 0 ≤ k → lenZ (kept P L k) ≤ k.
Proof.
  intros Hk. rewrite <- (Z2Nat.id k) by lia. induction (Z.to_nat k) as [|n IH]; [done|].
  replace (Z.of_nat (S n)) with (Z.of_nat n + 1) by lia. rewrite kept_next by lia. unfold lenZ in *. rewrite length_app.
  destruct (entry L (Z.of_nat n)) as [e|]; [destruct (P e)|]; cbn; lia.
Qed.

Lemma setElem_end L v : setElem L (lenZ L) v = L ++ [Some v].
Proof. unfold setElem, lenZ. rewrite Z.ltb_irrefl, Nat2Z.id, Nat.sub_diag. done. Qed.

Lemma does_foldUp {A} (n : nat) (k : Z) (s : A) (body : Z → A → M A) h (I : Z → A → heap → Prop) (Q : A → heap → Prop) :
  I k s h → (∀ j s h, k ≤ j < k + Z.of_nat n → I j s h → does (body j s) h (I (j + 1))) →
  (∀ s h, I (k + Z.of_nat n) s h → Q s h) → does (foldUp n k s body) h Q.
Proof.
  revert k s h. induction n as [|n IH]; intros k s h HI Hb HQ; cbn [foldUp].
  - apply does_ret, HQ. by rewrite Z.add_0_r.
  - apply does_bind. eapply does_mono; [apply Hb; [lia|done]|]. intros s' h' HI'. apply IH; [done|intros j s2 h2 Hj; apply Hb; lia|].
    intros s2 h2 H2. apply HQ. by replace (k + Z.of_nat (S n)) with (k + 1 + Z.of_nat n) by lia.
Qed.

Lemma filter_spec h o L rest :
  WfHeap h → protoBare h (Some arrayProto) → StdSpecies o → ArrayAt h o L →
  does (arrayproto_filter o (VObject f :: rest)) h (NewArray h o L (kept (passes toBoolean g o (arg rest 0)) L (lenZ L))).
Proof.
  intros HW Hp HSp HA. pose proof (ArrayAt_max _ _ _ HA) as Hm. pose proof (ArrayAt_next _ _ _ HW HA) as Hon. unfold arrayproto_filter.
  set (P := passes _ _ _ _). apply does_bind, (does_getLength _ _ L); [done|]. fold (lenZ L). apply does_bind. eapply does_eq; [apply reads_callback|].
  apply does_bind, (does_arraySpeciesCreate _ _ L); [done..|lia|]. cbn [Z.to_nat replicate]. intros h1 H1. pose proof (st_only _ _ _ _ H1) as O1.
  assert (o ≠ next h) as Hne by lia. set (a := next h) in *. change (arg (VObject f :: rest) 1) with (arg rest 0).
  assert (∀ h2, Only a h h2 → ArrayAt h2 o L) as HAo by (intros h2 O2; exact (ArrayAt_only _ _ _ _ _ HA O2 Hne)).
  pose proof (kept_length P L (lenZ L) ltac:(lia)) as Hkl.
  match goal with |- does (_ ← _; _) _ ?Q => set (Q0 := Q) end.
  assert (does (foldUp (Z.to_nat (lenZ L)) 0 0 (λ k to, v ← getIdx o k;
     match v with
     | Some val => r ← callElem f (arg rest 0) o val k;
         if toBoolean r then createDataPropertyOrThrow a to (Some val) ;; mret (to + 1) else mret to
     | None => mret to end) ;; mret ()) h1 (λ _ h', does (mret a) h' Q0)) as Hgen.
  { apply does_bind, (does_foldUp _ _ _ _ _ (λ k to h2, to = lenZ (kept P L k) ∧ St h a (kept P L k) h2)).
    - done.
    - intros j to h2 Hj [-> HS]. pose proof (kept_length P L j ltac:(lia)) as Hkj. apply does_bind, (does_getIdx _ _ L); [apply HAo, (st_only _ _ _ _ HS)|lia|].
      unfold lenZ. rewrite kept_next by lia. rewrite length_app. fold (lenZ (kept P L j)). unfold entry. destruct (at_ L j) as [v|]; cbn [fmap option_fmap option_map].
      + apply does_bind. eapply does_eq; [apply reads_callElem|]. fold (passes toBoolean g o (arg rest 0) (j, v)). fold P. destruct (P (j, v)) eqn:EP.
        * apply does_bind. eapply (does_createDataProperty callable_identity); [done|unfold lenZ in *; lia|]. intros h3 H3. apply does_ret. split; [unfold lenZ; cbn; lia|].
          by rewrite setElem_end in H3.
        * apply does_ret. rewrite app_nil_r. split; [unfold lenZ; cbn; lia|done].
      + apply does_ret. rewrite app_nil_r. split; [unfold lenZ; cbn; lia|done].
    - intros to h2 [_ HS]. apply does_ret, does_ret, St_NewArray; [done..|]. by rewrite Z2Nat.id in HS by lia. }
  apply does_bind, does_denseStruct; [apply does_bind, does_ret, does_bind, Hgen|]. intros p Ho.
  apply does_bind, (does_checkStd _ _ _ _ (st_arr _ _ _ _ H1)); [by apply does_bind|].
  intros q da Hq Hda _ HSa. apply does_bind, does_bind. eapply does_eq.
  { apply (reads_foldUp _ _ _ _ (λ vs k, match entry L k with Some e => if P e then vs ++ [raw e.2] else vs | None => vs end)). intros j vs Hj.
    eapply reads_bind; [apply (reads_getIdx _ _ L); [by apply HAo|lia]|]. unfold entry. destruct (at_ L j) as [v|]; [|done].
    eapply reads_bind; [apply reads_callElem|]. cbn [fmap option_fmap option_map]. unfold P, passes. by destruct (toBoolean _). }
  rewrite Z2Nat.id by lia.
  assert (fold_left (λ vs k, match entry L k with Some e => if P e then vs ++ [raw e.2] else vs | None => vs end) (seqZ 0 (lenZ L)) []
          = cellsOf (kept P L (lenZ L))) as ->.
  { rewrite (fold_omap (entry L) (λ vs e, if P e then vs ++ [raw e.2] else vs)). unfold kept, entriesIn. rewrite Z.sub_0_r.
    assert (∀ es acc, fold_left (λ vs e, if P e then vs ++ [raw e.2] else vs) es acc = acc ++ cellsOf ((λ e, Some e.2) <$> List.filter P es)) as Hgo.
    { intros es. induction es as [|e es IH]; intros acc; cbn; [by rewrite app_nil_r|]. destruct (P e); rewrite IH; [|done]. by rewrite <- app_assoc. }
    by rewrite Hgo. }
  rewrite length_cellsOf. apply (does_newValues h h1 a q da (kept P L (lenZ L)) [] (appendSlack (length (kept P L (lenZ L))))); [done..|unfold lenZ in *; lia|apply slack_int; unfold lenZ in *; lia|].
  intros h2 H2. by apply does_ret, St_NewArray.
Qed.

(** ** The refinement *)

(** What a call does: the specification's result, and no change to an object that
    existed, or its TypeError. *)
Definition CallbackDone (h : heap) (o : positive) (L : elems) (m : cmethod) : Prop :=
  match specCallback toBoolean g o L m with
  | Some sr => does (execCallback o f m) h (λ r h', WfHeap h' ∧ ArrayAt h' o L ∧ Keeps o h h' ∧ Matches h sr r h')
  | None => ∃ msg, execCallback o f m h = (Raise (Native (TypeError msg)), h)
  end.

Lemma reads_value {A} (m : M A) (k : A → Value) h o L v w :
  WfHeap h → ArrayAt h o L → Reads m h v → k v = w →
  does (x ← m; mret (RVal (k x))) h (λ r h', WfHeap h' ∧ ArrayAt h' o L ∧ Keeps o h h' ∧ Matches h (SVal w) r h').
Proof. intros HW HA Hr <-. apply does_bind. eapply does_eq; [exact Hr|]. apply does_ret. by apply same_Called. Qed.

(** C18: with a callback that is a function of its arguments, every, some, forEach,
    map, filter, reduce, reduceRight, find, findIndex, findLast and findLastIndex
    return what the functions on lists return for the elements that exist (the
    find methods pass holes as undefined, map keeps them), in dense and sparse
    arrays alike; reduce and reduceRight of no elements without an initial value
    throw a TypeError, and no existing object changes. *)
Theorem array_callbacks_refine h o L m :
  WfHeap h → protoBare h (Some arrayProto) → StdSpecies o → ArrayAt h o L → CallbackDone h o L m.
Proof.
  intros HW Hp HSp HA. unfold CallbackDone. destruct m; cbn [specCallback execCallback].
  - eapply (reads_value _ VBool); [done..|by apply (every_spec h o L)|done].
  - eapply (reads_value _ VBool); [done..|by apply (some_spec h o L)|done].
  - eapply (reads_value _ (λ _, VUndefined)); [done..|by apply (forEach_spec h o L)|done].
  - eapply does_then; [by apply map_spec|]. intros a h'. apply New_Called.
  - eapply does_then; [by apply filter_spec|]. intros a h'. apply New_Called.
  - pose proof (reduce_spec h o L rest HA) as Hr. destruct (reduceList g o rest (entries L)) as [v|]; cbn [fmap option_fmap option_map].
    + by eapply (reads_value _ (λ v, v)).
    + eexists. by eapply bind_raise.
  - pose proof (reduceRight_spec h o L rest HA) as Hr. destruct (reduceList g o rest (reverse (entries L))) as [v|]; cbn [fmap option_fmap option_map].
    + by eapply (reads_value _ (λ v, v)).
    + eexists. by eapply bind_raise.
  - eapply (reads_value _ nilSafe); [done..|eapply reads_bind; [by apply (reads_findForward h o L)|done]|apply foundValue_at].
  - eapply (reads_value _ numV); [done..|eapply reads_bind; [by apply (reads_findForward h o L)|done]|by rewrite foundIndex_at].
  - eapply (reads_value _ nilSafe); [done..|eapply reads_bind; [by apply (reads_findBackward h o L)|done]|apply foundValue_at].
  - eapply (reads_value _ numV); [done..|eapply reads_bind; [by apply (reads_findBackward h o L)|done]|by rewrite foundIndex_at].
Qed.
End callbacks.
End ArrayProtoCallbacks.
