(* ===== verification/ArrayProtoSamples.v ===== *)
(** * Array.prototype: programs that run, and deviations

    A concrete environment, the theorems applied to programs in it, and calls on
    which the code departs from ECMAScript. *)

From S2P Require Import Prelude ArrayIndex Float64 Numbers Values Property Objects Arrays ArrayProto ArrayProtoHeap ArrayProtoSpec ArrayProtoGeneric ArrayProtoFast ArrayProtoMutators ArrayProtoSplice ArrayProtoAccessors ArrayProtoMethods ArrayProtoCallbacks.
Import ArrayIndex Numbers Values Property Objects ArrayProto ArrayProtoHeap ArrayProtoSpec ArrayProtoGeneric ArrayProtoFast
  ArrayProtoMutators ArrayProtoSplice ArrayProtoAccessors ArrayProtoMethods ArrayProtoCallbacks.
Open Scope Z_scope.

Module ArrayProtoSamples.

(** ** The environment *)

(** The objects 1 and 2 are Array.prototype and Array, 50 is the function
    (v, i) => v > i, and the conversion of objects is given. *)
Definition greater (this : Value) (args : list Value) : Value :=
  match args with VNum (valueInt a) :: VNum (valueInt b) :: _ => VBool (b <? a) | _ => VBool false end.

Definition envWith (conv : Value → M Z) : Env := {|
  selfEqual := Pos.eqb;
  callable f := Pos.eqb f 50;
  convInteger := conv;
  toBoolean v := match v with VUndefined | VNull => false | VBool b => b | _ => true end;
  invoke f this args := mret (greater this args);
  other_has q k := mret false;
  other_get q k r := mret None;
  other_setForeign q k v r := mret None;
  other_set q k v := mret ();
  other_delete q k := mret ();
  other_define q k v := mret ();
  other_isArray q := mret false;
  getConstructor o := mret (Some (VObject 2%positive));
  getSpecies o := mret (Some (VObject 2%positive));
  getSpreadable o := mret None;
  isConstructor c := Pos.eqb c 2;
  construct c args := crash;
  appendSlack n := n;
  arrayCtor := 2%positive;
  arrayProto := 1%positive;
|}.

Definition convOf (v : Value) : Z := match v with VNum n => ToInteger n | _ => 0 end.
Definition num (z : Z) : Value := VNum (valueInt z).
Definition start : heap := Heap ∅ ∅ ∅ 100 1.

Section witnesses.
#[local] Instance env : Env := envWith (λ _, mret 0).

Definition array (L : elems) : heap := ((s ← newSlice (cellsOf L) 0; newArrayValues s) start).2.

Lemma start_wf : WfHeap start.
Proof.
  assert (∀ o q, ¬ ownsArray start o q) as Hno by (intros o q (p & s & Ho & _); cbn in Ho; by rewrite lookup_empty in Ho).
  split; try (cbn; intros *; by rewrite lookup_empty).
  - intros o q Ho. by destruct (Hno o q).
  - intros o o' q Ho. by destruct (Hno o q).
Qed.
Lemma start_proto : protoBare start (Some arrayProto).
Proof. by split; [|split; [|split]]. Qed.
Lemma env_identity p q : callable p = true → selfEqual p q = true → p = q.
Proof. intros _. apply Pos.eqb_eq. Qed.
Lemma env_species o : StdSpecies o.
Proof. right. by split. Qed.
Lemma env_converts v : Converts convOf v.
Proof. intros h. by destruct v. Qed.

Lemma array_St L : lenZ L ≤ MaxUint32 → St start 100 L (array L).
Proof.
  intros HL. assert (does (s ← newSlice (cellsOf L) 0; newArrayValues s) start (λ o h, o = 100%positive ∧ St start 100 L h)) as Hd.
  { apply does_bind, does_newSlice; [apply start_wf|]. intros s h1 S1 L1. apply (does_newArrayValues h1 start s L); [done|apply start_wf|apply start_proto|done..]. }
  apply does_inv in Hd as (o & h & Heq & -> & HS). unfold array. by rewrite Heq.
Qed.

Lemma array_proto L : lenZ L ≤ MaxUint32 → protoBare (array L) (Some arrayProto).
Proof. intros HL. eapply protoBare_only; [apply start_proto|apply (st_only _ _ _ _ (array_St L HL))]. Qed.

(** [1, , 3].slice(-2) and the array's program below *)
Lemma array_method_refines_witness :
  does (exec 100 (Slice [num (-2)])) (array [Some (num 1); None; Some (num 3)])
    (Called convOf (array [Some (num 1); None; Some (num 3)]) 100 [Some (num 1); None; Some (num 3)] (Slice [num (-2)]))
  ∧ specMethod convOf Pos.eqb [Some (num 1); None; Some (num 3)] (Slice [num (-2)])
    = ([Some (num 1); None; Some (num 3)], SNew [None; Some (num 3)]).
Proof.
  split; [|by vm_compute].
  assert (St start 100 [Some (num 1); None; Some (num 3)] (array [Some (num 1); None; Some (num 3)])) as HS by by apply array_St.
  apply (array_method_refines env_identity convOf env_species); [apply HS|by apply array_proto|apply HS|done| |done].
  apply Forall_forall. intros v _. apply env_converts.
Defined.

Definition program : list (nat * method) :=
  [(0, Push [num 4; num 5]); (0, Splice [num 1; num 2; num 8]); (1, Reverse); (0, Unshift [num 0]); (0, Pop); (1, Assign 2 (num 7));
   (0, Slice [num (-2)]); (2, Fill [num 6; num 1]); (1, ToSpliced [num 0; num 1]); (0, CopyWithin [num 0; num 2]);
   (0, IndexOf [num 8]); (1, Includes [num 7]); (3, Shift)]%nat.

Lemma array_programs_refine_witness :
  does (run [100%positive] program) (array [Some (num 1); Some (num 2); Some (num 3)])
    (λ r h', WfHeap h' ∧ Forall2 (ArrayAt h') r.1 [[Some (num 8); Some (num 4); Some (num 8); Some (num 4)]; [Some (num 3); Some (num 2); Some (num 7)];
                                       [Some (num 8); Some (num 6)]; [Some (num 7)]] ∧
             r.2 = [OutVal (num 5); OutArr 1; OutArr 1; OutVal (num 5); OutVal (num 5); OutVal (num 7); OutArr 2; OutArr 2; OutArr 3;
                    OutArr 0; OutVal (num 0); OutVal (VBool true); OutVal (num 2)]).
Proof.
  assert (St start 100 [Some (num 1); Some (num 2); Some (num 3)] (array [Some (num 1); Some (num 2); Some (num 3)])) as HS by by apply array_St.
  apply (array_programs_refine env_identity convOf env_species program _ _ [[Some (num 1); Some (num 2); Some (num 3)]]).
  - split; [apply HS|by apply array_proto|apply NoDup_singleton|constructor; [apply HS|constructor]|].
    repeat constructor; by eexists.
  - apply Forall_forall. intros c _. apply Forall_forall. intros v _. apply env_converts.
  - vm_compute. intuition discriminate.
Defined.

Lemma array_callbacks_refine_witness :
  does (execCallback 100 50 (Filter [])) (array [Some (num 1); None; Some (num 3); Some (num 2)])
    (λ r h', WfHeap h' ∧ ArrayAt h' 100 [Some (num 1); None; Some (num 3); Some (num 2)] ∧
             Keeps 100 (array [Some (num 1); None; Some (num 3); Some (num 2)]) h' ∧
             Matches (array [Some (num 1); None; Some (num 3); Some (num 2)]) (SNew [Some (num 1); Some (num 3)]) r h').
Proof.
  assert (St start 100 [Some (num 1); None; Some (num 3); Some (num 2)] (array [Some (num 1); None; Some (num 3); Some (num 2)])) as HS by by apply array_St.
  refine (array_callbacks_refine env_identity 50 greater _ _ _ (array [Some (num 1); None; Some (num 3); Some (num 2)]) 100
    [Some (num 1); None; Some (num 3); Some (num 2)] (Filter []) _ _ _ _); try done.
  - intros n Hn. cbn. unfold MaxUint32, MaxInt64 in *. lia.
  - apply HS.
  - apply env_species.
  - apply HS.
Defined.
End witnesses.

(** ** Deviations *)

Section deviations.

Definition outcomeOf {A} (m : M A) : outcome A := (m start).1.

(** The elements of an array. *)
Definition contents `{Env} (o : positive) : M elems :=
  n ← getLength o; foldUp (Z.to_nat n) 0 [] (λ k l, v ← getIdx o k; mret (l ++ [v])).

Definition newArray_ `{Env} (zs : list Z) : M positive := s ← newSlice (raw ∘ num <$> zs) 0; newArrayValues s.

(** A slice that two arrays share: a store to one is seen in the other.  No method
    of the model creates such arrays. *)
Lemma shared_slice :
  outcomeOf (s ← newSlice (raw ∘ num <$> [1; 2]) 0; a ← @newArrayValues (envWith (λ _, mret 0)) s; b ← @newArrayValues (envWith (λ _, mret 0)) s;
             @setOwnIdx (envWith (λ _, mret 0)) a 0 (num 7) ;; @contents (envWith (λ _, mret 0)) b) = Ret [Some (num 7); Some (num 2)].
Proof. by vm_compute. Qed.

(** An argument whose valueOf empties the array and returns 1. *)
Definition emptying : Value := VObject 60.
#[local] Instance env2 : Env := envWith (λ _, @arrayproto_splice (envWith (λ _, mret 0)) 100 [num 0] ;; mret 1).

(** indexOf, includes, lastIndexOf, fill, splice and toSpliced slice the values with
    an index checked against the length before the conversion: a Go panic. *)
Lemma stale_length_panics :
  outcomeOf (o ← newArray_ [1; 2; 3]; arrayproto_indexOf o [num 3; emptying]) = Crash ∧
  outcomeOf (o ← newArray_ [1; 2; 3]; arrayproto_includes o [num 3; emptying]) = Crash ∧
  outcomeOf (o ← newArray_ [1; 2; 3]; arrayproto_lastIndexOf o [num 3; emptying]) = Crash ∧
  outcomeOf (o ← newArray_ [1; 2; 3]; arrayproto_fill o [num 0; emptying]) = Crash ∧
  outcomeOf (o ← newArray_ [1; 2; 3]; arrayproto_splice o [emptying; num 1]) = Crash ∧
  outcomeOf (o ← newArray_ [1; 2; 3]; arrayproto_toSpliced o [emptying; num 1]) = Crash.
Proof. by vm_compute. Qed.

(** pop does not count the element it removes: after a.pop(); delete a[0] the array
    passes for one without holes, includes(undefined) is false, and toReversed
    returns an array with a hole. *)
Lemma pop_miscounts :
  outcomeOf (o ← newArray_ [1; 2; 3]; arrayproto_pop o ;; deleteIdx o 0 ;; arrayproto_includes o [VUndefined]) = Ret false ∧
  outcomeOf (o ← newArray_ [1; 2; 3]; arrayproto_pop o ;; deleteIdx o 0 ;; a ← arrayproto_toReversed o; contents a) = Ret [Some (num 2); None].
Proof. by vm_compute. Qed.

(** map counts the holes it copies. *)
Lemma map_miscounts :
  outcomeOf (o ← newArray_ [1; 2; 3]; deleteIdx o 1 ;; a ← arrayproto_map o [VObject 50];
             b ← arrayproto_includes o [VUndefined]; c ← arrayproto_includes a [VUndefined]; mret (b, c)) = Ret (true, false).
Proof. by vm_compute. Qed.

(** Object.setPrototypeOf(a, null) and Object.preventExtensions(a) or a length that
    is not writable. *)
Definition bareArray (ext writable : bool) (o : positive) : M unit :=
  d ← denseStruct o;
  match d with
  | None => crash
  | Some p =>
      a ← readStruct p;
      let b := Arrays.base a in
      writeStruct p (Arrays.MkArray (MkObject None ext (values b) (propNames b) (lastSortedPropLen b) (idxPropCount b))
                       (Arrays.backing a) (Arrays.vlen a) (Arrays.alength a) (Arrays.objCount a) (Arrays.propValueCount a) writable)
  end.

(** The direct paths of shift and unshift, which only an array without a prototype
    takes, ignore that the length is read-only and that the array is not
    extensible; ECMAScript has a TypeError. *)
Lemma direct_paths_ignore_attributes :
  outcomeOf (o ← newArray_ [1; 2]; bareArray true false o ;; arrayproto_shift o ;; contents o) = Ret [Some (num 2)] ∧
  outcomeOf (o ← newArray_ [1; 2]; bareArray false true o ;; arrayproto_unshift o [num 0] ;; contents o) = Ret [Some (num 0); Some (num 1); Some (num 2)].
Proof. by vm_compute. Qed.
End deviations.
End ArrayProtoSamples.
