(* ===== verification/Parser.v ===== *)
(** * The parser: expressions and statements

    Model of parser/expression.go and parser/statement.go on the sequence of
    tokens the lexer produces, for scripts without functions, classes, templates,
    regular expressions and destructuring: the precedence of the operators with
    the restrictions on mixing them, member access, calls and optional chains,
    array and object literals, assignment, and the statements with automatic
    semicolon insertion.

    A token carries whether a line terminator comes before it, inside or outside
    of a comment; the flags insertSemicolon and implicitSemicolon are computed from
    it as scan does.  The parser reports an error and goes on to find more; the
    model ends with the first one ([Err]).  Syntax that is not modelled is
    [Unmodelled].  Positions are left out; a number literal keeps its text. *)

From S2P Require Import Prelude.
From stdpp Require Import strings.
Open Scope Z_scope.

Module Parser.

(** ** Tokens *)

Inductive Token :=
  | ILLEGAL | EOF | COMMENT | STRING | NUMBER
  | PLUS | MINUS | MULTIPLY | EXPONENT | SLASH | REMAINDER
  | AND | OR | EXCLUSIVE_OR | SHIFT_LEFT | SHIFT_RIGHT | UNSIGNED_SHIFT_RIGHT
  | ADD_ASSIGN | SUBTRACT_ASSIGN | MULTIPLY_ASSIGN | EXPONENT_ASSIGN | QUOTIENT_ASSIGN | REMAINDER_ASSIGN
  | AND_ASSIGN | OR_ASSIGN | EXCLUSIVE_OR_ASSIGN | SHIFT_LEFT_ASSIGN | SHIFT_RIGHT_ASSIGN | UNSIGNED_SHIFT_RIGHT_ASSIGN
  | LOGICAL_AND | LOGICAL_OR | COALESCE | INCREMENT | DECREMENT
  | LOGICAL_AND_ASSIGN | LOGICAL_OR_ASSIGN | COALESCE_ASSIGN
  | EQUAL | STRICT_EQUAL | LESS | GREATER | ASSIGN | NOT
  | BITWISE_NOT
  | NOT_EQUAL | STRICT_NOT_EQUAL | LESS_OR_EQUAL | GREATER_OR_EQUAL
  | LEFT_PARENTHESIS | LEFT_BRACKET | LEFT_BRACE | COMMA | PERIOD
  | RIGHT_PARENTHESIS | RIGHT_BRACKET | RIGHT_BRACE | SEMICOLON | COLON | QUESTION_MARK | QUESTION_DOT | ARROW | ELLIPSIS | BACKTICK
  | PRIVATE_IDENTIFIER
  | IDENTIFIER | KEYWORD | BOOLEAN | NULL
  | IF | IN | OF | DO
  | VAR | FOR | NEW | TRY
  | THIS | ELSE | CASE | VOID | WITH
  | CONST | WHILE | BREAK | CATCH | THROW | CLASS | SUPER
  | RETURN | TYPEOF | DELETE | SWITCH
  | DEFAULT | FINALLY | EXTENDS
  | FUNCTION | CONTINUE | DEBUGGER
  | INSTANCEOF
  | EXPORT | IMPORT
  | ESCAPED_RESERVED_WORD
  | LET | STATIC | ASYNC | AWAIT | YIELD.

(** The constants are numbered in this order; [IsId] and [IsUnreservedWord] compare them. *)
Definition tokNum (t : Token) : nat :=
  match t with
  | ILLEGAL => 1 | EOF => 2 | COMMENT => 3 | STRING => 4 | NUMBER => 5 | PLUS => 6 | MINUS => 7 | MULTIPLY => 8
  | EXPONENT => 9 | SLASH => 10 | REMAINDER => 11 | AND => 12 | OR => 13 | EXCLUSIVE_OR => 14 | SHIFT_LEFT => 15
  | SHIFT_RIGHT => 16 | UNSIGNED_SHIFT_RIGHT => 17 | ADD_ASSIGN => 18 | SUBTRACT_ASSIGN => 19 | MULTIPLY_ASSIGN => 20
  | EXPONENT_ASSIGN => 21 | QUOTIENT_ASSIGN => 22 | REMAINDER_ASSIGN => 23 | AND_ASSIGN => 24 | OR_ASSIGN => 25
  | EXCLUSIVE_OR_ASSIGN => 26 | SHIFT_LEFT_ASSIGN => 27 | SHIFT_RIGHT_ASSIGN => 28
  | UNSIGNED_SHIFT_RIGHT_ASSIGN => 29 | LOGICAL_AND => 30 | LOGICAL_OR => 31 | COALESCE => 32 | INCREMENT => 33
  | DECREMENT => 34 | LOGICAL_AND_ASSIGN => 35 | LOGICAL_OR_ASSIGN => 36 | COALESCE_ASSIGN => 37 | EQUAL => 38
  | STRICT_EQUAL => 39 | LESS => 40 | GREATER => 41 | ASSIGN => 42 | NOT => 43 | BITWISE_NOT => 44 | NOT_EQUAL => 45
  | STRICT_NOT_EQUAL => 46 | LESS_OR_EQUAL => 47 | GREATER_OR_EQUAL => 48 | LEFT_PARENTHESIS => 49
  | LEFT_BRACKET => 50 | LEFT_BRACE => 51 | COMMA => 52 | PERIOD => 53 | RIGHT_PARENTHESIS => 54
  | RIGHT_BRACKET => 55 | RIGHT_BRACE => 56 | SEMICOLON => 57 | COLON => 58 | QUESTION_MARK => 59
  | QUESTION_DOT => 60 | ARROW => 61 | ELLIPSIS => 62 | BACKTICK => 63 | PRIVATE_IDENTIFIER => 64 | IDENTIFIER => 65
  | KEYWORD => 66 | BOOLEAN => 67 | NULL => 68 | IF => 69 | IN => 70 | OF => 71 | DO => 72 | VAR => 73 | FOR => 74
  | NEW => 75 | TRY => 76 | THIS => 77 | ELSE => 78 | CASE => 79 | VOID => 80 | WITH => 81 | CONST => 82
  | WHILE => 83 | BREAK => 84 | CATCH => 85 | THROW => 86 | CLASS => 87 | SUPER => 88 | RETURN => 89 | TYPEOF => 90
  | DELETE => 91 | SWITCH => 92 | DEFAULT => 93 | FINALLY => 94 | EXTENDS => 95 | FUNCTION => 96 | CONTINUE => 97
  | DEBUGGER => 98 | INSTANCEOF => 99 | EXPORT => 100 | IMPORT => 101 | ESCAPED_RESERVED_WORD => 102 | LET => 103
  | STATIC => 104 | ASYNC => 105 | AWAIT => 106 | YIELD => 107
  end.

Definition tokens : list Token :=
  [ILLEGAL; EOF; COMMENT; STRING; NUMBER; PLUS; MINUS; MULTIPLY;
   EXPONENT; SLASH; REMAINDER; AND; OR; EXCLUSIVE_OR; SHIFT_LEFT; SHIFT_RIGHT;
   UNSIGNED_SHIFT_RIGHT; ADD_ASSIGN; SUBTRACT_ASSIGN; MULTIPLY_ASSIGN; EXPONENT_ASSIGN; QUOTIENT_ASSIGN; REMAINDER_ASSIGN; AND_ASSIGN;
   OR_ASSIGN; EXCLUSIVE_OR_ASSIGN; SHIFT_LEFT_ASSIGN; SHIFT_RIGHT_ASSIGN; UNSIGNED_SHIFT_RIGHT_ASSIGN; LOGICAL_AND; LOGICAL_OR; COALESCE;
   INCREMENT; DECREMENT; LOGICAL_AND_ASSIGN; LOGICAL_OR_ASSIGN; COALESCE_ASSIGN; EQUAL; STRICT_EQUAL; LESS;
   GREATER; ASSIGN; NOT; BITWISE_NOT; NOT_EQUAL; STRICT_NOT_EQUAL; LESS_OR_EQUAL; GREATER_OR_EQUAL;
   LEFT_PARENTHESIS; LEFT_BRACKET; LEFT_BRACE; COMMA; PERIOD; RIGHT_PARENTHESIS; RIGHT_BRACKET; RIGHT_BRACE;
   SEMICOLON; COLON; QUESTION_MARK; QUESTION_DOT; ARROW; ELLIPSIS; BACKTICK; PRIVATE_IDENTIFIER;
   IDENTIFIER; KEYWORD; BOOLEAN; NULL; IF; IN; OF; DO;
   VAR; FOR; NEW; TRY; THIS; ELSE; CASE; VOID;
   WITH; CONST; WHILE; BREAK; CATCH; THROW; CLASS; SUPER;
   RETURN; TYPEOF; DELETE; SWITCH; DEFAULT; FINALLY; EXTENDS; FUNCTION;
   CONTINUE; DEBUGGER; INSTANCEOF; EXPORT; IMPORT; ESCAPED_RESERVED_WORD; LET; STATIC;
   ASYNC; AWAIT; YIELD].

Lemma tokens_num t : tokens !! (tokNum t - 1)%nat = Some t.
Proof. by destruct t. Qed.

#[global] Instance Token_eq_dec : EqDecision Token.
Proof.
  intros a b. destruct (decide (tokNum a = tokNum b)) as [E|E]; [left|right; congruence].
  pose proof (tokens_num a) as Ha. rewrite E, tokens_num in Ha. congruence.
Defined.

Definition IsId (t : Token) : bool := (tokNum IDENTIFIER <=? tokNum t)%nat.
Definition IsUnreservedWord (t : Token) : bool := (tokNum ESCAPED_RESERVED_WORD <? tokNum t)%nat.
Definition teq (a b : Token) : bool := Nat.eqb (tokNum a) (tokNum b).
Definition isOneOf (t : Token) (l : list Token) : bool := existsb (teq t) l.

(** A token with its text; [newline]: a line terminator outside of comments comes
    between the token before and this one; [commentNewline]: one inside of a
    multi-line comment. *)
Record tok := Tok {
  tk : Token;
  literal : string;
  parsedLiteral : string;
  newline : bool;
  commentNewline : bool;
}.

Definition eofTok : tok := Tok EOF "" "" false false.

(** ** Syntax trees *)

#[local] Set Warnings "-register-all".

Inductive expr :=
  | Identifier (name : string)
  | NullLiteral
  | BooleanLiteral (value : bool)
  | StringLiteral (value : string)
  | NumberLiteral (text : string)
  | ThisExpression
  | ArrayLiteral (value : list (option expr))
  | SpreadElement (e : expr)
  | ObjectLiteral (value : list property)
  | DotExpression (left : expr) (name : string)
  | BracketExpression (left member : expr)
  | CallExpression (callee : expr) (arguments : list expr)
  | NewExpression (callee : expr) (arguments : list expr)
  | Optional (e : expr)
  | OptionalChain (e : expr)
  | UnaryExpression (operator : Token) (operand : expr) (postfix : bool)
  | BinaryExpression (operator : Token) (left right : expr)
  | ConditionalExpression (test consequent alternate : expr)
  | AssignExpression (operator : Token) (left right : expr) (parenthesizedLeft : bool)
  | SequenceExpression (sequence : list expr)
with property :=
  | PropertyKeyed (key value : expr) (computed : bool)
  | PropertyShort (name : string) (initializer : option expr)
  | PropertySpread (e : expr).

Record binding := Binding { target : string; initializer : option expr }.

Inductive stmt :=
  | EmptyStatement
  | BlockStatement (list : list stmt)
  | ExpressionStatement (e : expr)
  | IfStatement (test : expr) (consequent : stmt) (alternate : option stmt)
  | DoWhileStatement (body : stmt) (test : expr)
  | WhileStatement (test : expr) (body : stmt)
  | ForStatement (initializer : option forInit) (test update : option expr) (body : stmt)
  | ForInStatement (into : forInto) (source : expr) (body : stmt)
  | ForOfStatement (into : forInto) (source : expr) (body : stmt)
  | BranchStatement (token : Token) (label : option string)
  | LabelledStatement (label : string) (s : stmt)
  | ThrowStatement (argument : expr)
  | DebuggerStatement
  | WithStatement (object : expr) (body : stmt)
  | TryStatement (body : list stmt) (catch : option (option string * list stmt)) (finally : option (list stmt))
  | SwitchStatement (discriminant : expr) (default : Z) (body : list (option expr * list stmt))
  | VariableStatement (list : list binding)
  | LexicalDeclaration (token : Token) (list : list binding)
with forInit :=
  | ForLoopInitializerExpression (e : expr)
  | ForLoopInitializerVarDeclList (list : list binding)
  | ForLoopInitializerLexicalDecl (token : Token) (list : list binding)
with forInto :=
  | ForIntoVar (b : binding)
  | ForDeclaration (isConst : bool) (target : string)
  | ForIntoExpression (e : expr).

(** ** State and outcomes *)

Record scope := Scope {
  allowIn : bool;
  allowLet : bool;
  inIteration : bool;
  inSwitch : bool;
  labels : list string;
}.

(** The current token and those after it. *)
Record pstate := St {
  cur : tok;
  rest : list tok;
  insertSemicolon : bool;
  implicitSemicolon : bool;
  scope_ : scope;
  depth : nat;
}.

Inductive res (A : Type) := Ok (a : A) (s : pstate) | Err (msg : string) | NoFuel | Unmodelled.
Arguments Ok {A} _ _.
Arguments Err {A} _.
Arguments NoFuel {A}.
Arguments Unmodelled {A}.

Definition P (A : Type) : Type := pstate → res A.
#[global] Instance P_ret : MRet P := λ A a s, Ok a s.
#[global] Instance P_bind : MBind P := λ A B k m s,
  match m s with Ok a s' => k a s' | Err e => Err e | NoFuel => NoFuel | Unmodelled => Unmodelled end.

Definition get : P pstate := λ s, Ok s s.
Definition put (s : pstate) : P unit := λ _, Ok () s.
Definition error {A} (msg : string) : P A := λ _, Err msg.
Definition unmodelled {A} : P A := λ _, Unmodelled.

Definition token : P Token := λ s, Ok (tk (cur s)) s.
Definition curTok : P tok := λ s, Ok (cur s) s.
Definition implicit : P bool := λ s, Ok (implicitSemicolon s) s.
Definition modifyScope (f : scope → scope) : P unit :=
  λ s, Ok () (St (cur s) (rest s) (insertSemicolon s) (implicitSemicolon s) (f (scope_ s)) (depth s)).
Definition setInsert (b : bool) : P unit :=
  λ s, Ok () (St (cur s) (rest s) b (implicitSemicolon s) (scope_ s) (depth s)).
Definition setImplicit (b : bool) : P unit :=
  λ s, Ok () (St (cur s) (rest s) (insertSemicolon s) b (scope_ s) (depth s)).
Definition setToken (t : Token) : P unit :=
  λ s, let c := cur s in
       Ok () (St (Tok t (literal c) (parsedLiteral c) (newline c) (commentNewline c)) (rest s) (insertSemicolon s) (implicitSemicolon s)
                (scope_ s) (depth s)).

Definition withAllowIn (b : bool) (c : scope) : scope := Scope b (allowLet c) (inIteration c) (inSwitch c) (labels c).
Definition withAllowLet (b : bool) (c : scope) : scope := Scope (allowIn c) b (inIteration c) (inSwitch c) (labels c).
Definition withIteration (b : bool) (c : scope) : scope := Scope (allowIn c) (allowLet c) b (inSwitch c) (labels c).
Definition withSwitch (b : bool) (c : scope) : scope := Scope (allowIn c) (allowLet c) (inIteration c) b (labels c).
Definition withLabels (l : list string) (c : scope) : scope := Scope (allowIn c) (allowLet c) (inIteration c) (inSwitch c) l.

(** *** The scanner *)

(** insertSemicolon after a token: whether a line end after it may end a
    statement.  Of the keywords most leave the flag as it was. *)
Definition insertAfter (t : Token) (before : bool) : bool :=
  if isOneOf t [IDENTIFIER; BOOLEAN; NULL; THIS; BREAK; THROW; YIELD; RETURN; CONTINUE; DEBUGGER; NUMBER; STRING; ESCAPED_RESERVED_WORD;
                RIGHT_PARENTHESIS; RIGHT_BRACKET; RIGHT_BRACE; INCREMENT; DECREMENT; SLASH; QUOTIENT_ASSIGN; PRIVATE_IDENTIFIER]
  then true
  else if IsId t then before else false.

(** next: line ends before the token make an implicit semicolon if one may be
    inserted, those inside of a comment always; so does the end of the input.
    (After an implicit semicolon scan returns ILLEGAL for an arrow, here it stays
    ARROW; the parser of the model takes neither.) *)
Definition next : P unit := λ s,
  let '(t, r) := match rest s with t :: r => (t, r) | [] => (eofTok, []) end in
  let ins := insertSemicolon s in
  let imp := (ins && newline t) || commentNewline t in
  let ins' := ins && negb (newline t) && negb (commentNewline t) in
  Ok () (St t r (insertAfter (tk t) ins') (imp || (teq (tk t) EOF && ins')) (scope_ s) (depth s)).

Definition peek : P Token := λ s, Ok (match rest s with t :: _ => tk t | [] => EOF end) s.

Definition maxNestingDepth : nat := Z.to_nat 10000.

(** enterNesting and the deferred leaveNesting around a body *)
Definition nesting {A} (body : P A) : P A := λ s,
  if Nat.ltb maxNestingDepth (S (depth s)) then Err "Maximum nesting depth exceeded"
  else match body (St (cur s) (rest s) (insertSemicolon s) (implicitSemicolon s) (scope_ s) (S (depth s))) with
       | Ok a s' => Ok a (St (cur s') (rest s') (insertSemicolon s') (implicitSemicolon s') (scope_ s') (depth s))
       | r => r
       end.

Definition unexpected {A} : P A := error "Unexpected token".

Definition expect (t : Token) : P unit := c ← token; if teq c t then next else unexpected.

Definition optionalSemicolon : P unit :=
  c ← token;
  if teq c SEMICOLON then next
  else
    i ← implicit;
    if i : bool then setImplicit false
    else if teq c EOF || teq c RIGHT_BRACE then mret () else expect SEMICOLON.

Definition semicolon : P unit :=
  c ← token;
  if teq c RIGHT_PARENTHESIS || teq c RIGHT_BRACE then mret ()
  else i ← implicit; if i : bool then setImplicit false else expect SEMICOLON.

(** A script is not inside of an async function or a generator. *)
Definition isBindingId (t : Token) : bool := teq t IDENTIFIER || IsUnreservedWord t.

Definition tokenToBindingId : P unit := c ← token; if isBindingId c then setToken IDENTIFIER else mret ().

Definition parseIdentifier : P string := c ← curTok; next ;; mret (parsedLiteral c).

(** ** Calls

    The functions of the parser call each other; [call] names the calls, with the
    local variables of a loop as arguments, and [parse] ties the knot. *)

(** The left-associative binary operators that have a function each. *)
Inductive binaryLevel := Multiplicative | Additive | Shift | Equality | BitwiseAnd | BitwiseExclusiveOr | BitwiseOr | LogicalAnd.

Inductive call : Type → Type :=
  | CExpression : call expr
  | CSequenceLoop (sequence : list expr) : call expr
  | CAssignment : call expr
  | CConditional : call expr
  | CLogicalOr : call expr
  | COrLoop (left : expr) : call expr
  | CCoalesceLoop (left : expr) : call expr
  | CBinary (l : binaryLevel) : call expr
  | CBinaryLoop (l : binaryLevel) (left : expr) : call expr
  | CRelational : call expr
  | CRelationalLoop (allowIn : bool) (left : expr) : call expr
  | CExponentiation : call expr
  | CExponentLoop (left : expr) : call expr
  | CUnary : call expr
  | CUpdate : call expr
  | CLeftHandSideAllowCall : call expr
  | CCallLoop (left : expr) (optionalChain : bool) : call expr
  | CLeftHandSide : call expr
  | CMemberLoop (left : expr) : call expr
  | CNew : call expr
  | CPrimary : call expr
  | CParenthesised : call expr
  | CParenthesisLoop (l : list expr) : call (list expr)
  | CArguments (l : list expr) : call (list expr)
  | CArrayLiteral (value : list (option expr)) : call (list (option expr))
  | CObjectLiteral (value : list property) : call (list property)
  | CObjectProperty : call property
  | CStatement : call stmt
  | CStatementList (l : list stmt) : call (list stmt)
  | CSourceElements (body : list stmt) : call (list stmt)
  | CSwitchLoop (index default : Z) (body : list (option expr * list stmt)) : call (Z * list (option expr * list stmt))
  | CCaseLoop (consequent : list stmt) : call (list stmt)
  | CVariables (l : list binding) : call (list binding).

Section bodies.
Context (rec : ∀ A, call A → P A).
Arguments rec {A} _.

(** *** Literals, member access and calls *)

(** parseArgumentList after the opening parenthesis *)
Definition argumentLoop (l : list expr) : P (list expr) :=
  c ← token;
  if teq c RIGHT_PARENTHESIS then mret l
  else
    item ← (if teq c ELLIPSIS then next ;; e ← rec CAssignment; mret (SpreadElement e) else rec CAssignment);
    c ← token;
    if teq c COMMA then next ;; rec (CArguments (l ++ [item])) else mret (l ++ [item]).

Definition parseArgumentList : P (list expr) :=
  expect LEFT_PARENTHESIS ;; l ← rec (CArguments []); expect RIGHT_PARENTHESIS ;; mret l.

Definition parseCallExpression (left : expr) : P expr := l ← parseArgumentList; mret (CallExpression left l).

Definition parseDotMember (left : expr) : P expr :=
  next ;;
  c ← curTok;
  if teq (tk c) PRIVATE_IDENTIFIER then unmodelled
  else if negb (IsId (tk c)) then unexpected
  else setInsert true ;; next ;; mret (DotExpression left (parsedLiteral c)).

Definition parseBracketMember (left : expr) : P expr :=
  expect LEFT_BRACKET ;;
  member ← rec CExpression;
  expect RIGHT_BRACKET ;;
  mret (BracketExpression left member).

(** The forms that only the parameters of an arrow function have, a rest, a comma
    at the end and the empty list, are not modelled. *)
Definition parenthesisLoop (l : list expr) : P (list expr) :=
  c ← token;
  if teq c ELLIPSIS then unmodelled
  else
    e ← rec CAssignment;
    c ← token;
    if negb (teq c COMMA) then mret (l ++ [e])
    else
      next ;;
      c ← token;
      if teq c RIGHT_PARENTHESIS then unmodelled else rec (CParenthesisLoop (l ++ [e])).

Definition parseParenthesisedExpression : P expr :=
  expect LEFT_PARENTHESIS ;;
  c ← token;
  if teq c RIGHT_PARENTHESIS then unmodelled
  else
    l ← rec (CParenthesisLoop []);
    expect RIGHT_PARENTHESIS ;;
    mret (match l with [e] => e | _ => SequenceExpression l end).

Definition arrayLoop (value : list (option expr)) : P (list (option expr)) :=
  c ← token;
  if teq c RIGHT_BRACKET || teq c EOF then mret value
  else if teq c COMMA then next ;; rec (CArrayLiteral (value ++ [None]))
  else
    e ← (if teq c ELLIPSIS then next ;; e ← rec CAssignment; mret (SpreadElement e) else rec CAssignment);
    c ← token;
    (if teq c RIGHT_BRACKET then mret () else expect COMMA) ;;
    rec (CArrayLiteral (value ++ [Some e])).

Definition parseArrayLiteral : P expr :=
  expect LEFT_BRACKET ;; value ← rec (CArrayLiteral []); expect RIGHT_BRACKET ;; mret (ArrayLiteral value).

(** The key and its token; the token of a computed key is ILLEGAL. *)
Definition parseObjectPropertyKey : P (tok * expr * Token) :=
  c ← curTok;
  if teq (tk c) LEFT_BRACKET then
    next ;; e ← rec CAssignment; expect RIGHT_BRACKET ;; mret (Tok ILLEGAL "" "" false false, e, ILLEGAL)
  else
    next ;;
    if isOneOf (tk c) [IDENTIFIER; STRING; KEYWORD; ESCAPED_RESERVED_WORD; EXPORT; IMPORT] then mret (c, StringLiteral (parsedLiteral c), tk c)
    else if teq (tk c) NUMBER then mret (c, NumberLiteral (literal c), tk c)
    else if teq (tk c) PRIVATE_IDENTIFIER then unmodelled
    else if IsId (tk c) then mret (c, StringLiteral (literal c), tk c)
    else unexpected.

(** Methods and accessors are not modelled. *)
Definition parseObjectProperty : P property :=
  c ← token;
  if teq c ELLIPSIS then next ;; e ← rec CAssignment; mret (PropertySpread e)
  else if teq c MULTIPLY then unmodelled
  else
    key ← parseObjectPropertyKey;
    let '(k, value, tkn) := key in
    c ← token;
    let computed := teq tkn ILLEGAL in
    let keyed := expect COLON ;; v ← rec CAssignment; mret (PropertyKeyed value v computed) in
    if teq c LEFT_PARENTHESIS then unmodelled
    else if teq c COMMA || teq c RIGHT_BRACE || teq c ASSIGN then
      if isBindingId tkn then
        init ← (if teq c ASSIGN then next ;; e ← rec CAssignment; mret (Some e) else mret None);
        mret (PropertyShort (parsedLiteral k) init)
      else unexpected
    else if (bool_decide (literal k = "get"%string) || bool_decide (literal k = "set"%string) || teq tkn ASYNC) && negb (teq c COLON)
    then unmodelled
    else keyed.

Definition objectLoop (value : list property) : P (list property) :=
  c ← token;
  if teq c RIGHT_BRACE || teq c EOF then mret value
  else
    p ← rec CObjectProperty;
    c ← token;
    if teq c RIGHT_BRACE then mret (value ++ [p])
    else expect COMMA ;; rec (CObjectLiteral (value ++ [p])).

Definition parseObjectLiteral : P expr :=
  expect LEFT_BRACE ;; value ← rec (CObjectLiteral []); expect RIGHT_BRACE ;; mret (ObjectLiteral value).

Definition parsePrimaryExpression : P expr :=
  c ← curTok;
  match tk c with
  | IDENTIFIER => next ;; mret (Identifier (parsedLiteral c))
  | NULL => next ;; mret NullLiteral
  | BOOLEAN =>
      next ;;
      if decide (parsedLiteral c = "true"%string) then mret (BooleanLiteral true)
      else if decide (parsedLiteral c = "false"%string) then mret (BooleanLiteral false)
      else error "Illegal boolean literal"
  | STRING => next ;; mret (StringLiteral (parsedLiteral c))
  | NUMBER => next ;; mret (NumberLiteral (literal c))
  | LEFT_BRACE => parseObjectLiteral
  | LEFT_BRACKET => parseArrayLiteral
  | LEFT_PARENTHESIS => parseParenthesisedExpression
  | THIS => next ;; mret ThisExpression
  | SLASH | QUOTIENT_ASSIGN | BACKTICK | SUPER | ASYNC | FUNCTION | CLASS => unmodelled
  | t => if isBindingId t then next ;; mret (Identifier (parsedLiteral c)) else unexpected
  end.

Definition parseNewExpression : P expr :=
  nesting (
    expect NEW ;;
    c ← token;
    if teq c PERIOD then unmodelled
    else
      callee ← rec CLeftHandSide;
      c ← token;
      if teq c LEFT_PARENTHESIS then l ← parseArgumentList; mret (NewExpression callee l)
      else mret (NewExpression callee [])).

(** The start of a left-hand side: new, or a primary expression. *)
Definition leftHandSideStart : P expr :=
  c ← token;
  if teq c NEW then rec CNew else if teq c IMPORT then unmodelled else rec CPrimary.

Definition memberLoop (left : expr) : P expr :=
  c ← token;
  match c with
  | PERIOD => left ← parseDotMember left; rec (CMemberLoop left)
  | LEFT_BRACKET => left ← parseBracketMember left; rec (CMemberLoop left)
  | BACKTICK => unmodelled
  | _ => mret left
  end.

Definition parseLeftHandSideExpression : P expr := left ← leftHandSideStart; rec (CMemberLoop left).

Definition callLoop (left : expr) (optionalChain : bool) : P expr :=
  c ← token;
  match c with
  | PERIOD => left ← parseDotMember left; rec (CCallLoop left optionalChain)
  | LEFT_BRACKET => left ← parseBracketMember left; rec (CCallLoop left optionalChain)
  | LEFT_PARENTHESIS => left ← parseCallExpression left; rec (CCallLoop left optionalChain)
  | BACKTICK => unmodelled
  | QUESTION_DOT =>
      p ← peek;
      if isOneOf p [LEFT_BRACKET; LEFT_PARENTHESIS; BACKTICK] then next ;; rec (CCallLoop (Optional left) true)
      else left ← parseDotMember (Optional left); rec (CCallLoop left true)
  | _ => mret (if optionalChain then OptionalChain left else left)
  end.

Definition parseLeftHandSideExpressionAllowCall : P expr :=
  s ← get;
  let allow := allowIn (scope_ s) in
  modifyScope (withAllowIn true) ;;
  left ← leftHandSideStart;
  left ← rec (CCallLoop left false);
  modifyScope (withAllowIn allow) ;;
  mret left.

(** *** Operators *)

(** The expressions ++ and -- apply to. *)
Definition isReference (e : expr) : bool :=
  match e with Identifier _ | DotExpression _ _ | BracketExpression _ _ => true | _ => false end.

Definition parseUpdateExpression : P expr :=
  c ← token;
  if teq c INCREMENT || teq c DECREMENT then
    next ;;
    operand ← rec CUnary;
    if isReference operand then mret (UnaryExpression c operand false) else error "Invalid left-hand side in assignment"
  else
    operand ← rec CLeftHandSideAllowCall;
    c ← token;
    if teq c INCREMENT || teq c DECREMENT then
      i ← implicit;
      if i : bool then mret operand
      else
        next ;;
        if isReference operand then mret (UnaryExpression c operand true) else error "Invalid left-hand side in assignment"
    else mret operand.

Definition unaryOps : list Token := [PLUS; MINUS; NOT; BITWISE_NOT; DELETE; VOID; TYPEOF].

Definition parseUnaryExpression : P expr :=
  nesting (
    c ← token;
    if isOneOf c unaryOps then next ;; e ← rec CUnary; mret (UnaryExpression c e false)
    else rec CUpdate).

Definition isUnaryOperator (e : expr) : bool :=
  match e with UnaryExpression op _ _ => negb (teq op INCREMENT || teq op DECREMENT) | _ => false end.

Definition exponentLoop (left : expr) : P expr :=
  next ;;
  right ← rec CExponentiation;
  let left := BinaryExpression EXPONENT left right in
  c ← token;
  if teq c EXPONENT then rec (CExponentLoop left) else mret left.

Definition parseExponentiationExpression : P expr :=
  c ← token;
  let parenthesis := teq c LEFT_PARENTHESIS in
  left ← rec CUnary;
  c ← token;
  if teq c EXPONENT then
    nesting (if negb parenthesis && isUnaryOperator left then error "Unary operator used immediately before exponentiation expression"
             else rec (CExponentLoop left))
  else mret left.

Definition operators (l : binaryLevel) : list Token :=
  match l with
  | Multiplicative => [MULTIPLY; SLASH; REMAINDER]
  | Additive => [PLUS; MINUS]
  | Shift => [SHIFT_LEFT; SHIFT_RIGHT; UNSIGNED_SHIFT_RIGHT]
  | Equality => [EQUAL; NOT_EQUAL; STRICT_EQUAL; STRICT_NOT_EQUAL]
  | BitwiseAnd => [AND]
  | BitwiseExclusiveOr => [EXCLUSIVE_OR]
  | BitwiseOr => [OR]
  | LogicalAnd => [LOGICAL_AND]
  end.

Definition operand (l : binaryLevel) : call expr :=
  match l with
  | Multiplicative => CExponentiation
  | Additive => CBinary Multiplicative
  | Shift => CBinary Additive
  | Equality => CRelational
  | BitwiseAnd => CBinary Equality
  | BitwiseExclusiveOr => CBinary BitwiseAnd
  | BitwiseOr => CBinary BitwiseExclusiveOr
  | LogicalAnd => CBinary BitwiseOr
  end.

Definition binaryLoop (l : binaryLevel) (left : expr) : P expr :=
  c ← token;
  if isOneOf c (operators l) then next ;; right ← rec (operand l); rec (CBinaryLoop l (BinaryExpression c left right))
  else mret left.

Definition binaryExpression (l : binaryLevel) : P expr := left ← rec (operand l); rec (CBinaryLoop l left).
Definition parseMultiplicativeExpression : P expr := binaryExpression Multiplicative.
Definition parseAdditiveExpression : P expr := binaryExpression Additive.
Definition parseShiftExpression : P expr := binaryExpression Shift.
Definition parseEqualityExpression : P expr := binaryExpression Equality.
Definition parseBitwiseAndExpression : P expr := binaryExpression BitwiseAnd.
Definition parseBitwiseExclusiveOrExpression : P expr := binaryExpression BitwiseExclusiveOr.
Definition parseBitwiseOrExpression : P expr := binaryExpression BitwiseOr.
Definition parseLogicalAndExpression : P expr := binaryExpression LogicalAnd.

Definition parseBinary (l : binaryLevel) : P expr :=
  match l with
  | Multiplicative => parseMultiplicativeExpression
  | Additive => parseAdditiveExpression
  | Shift => parseShiftExpression
  | Equality => parseEqualityExpression
  | BitwiseAnd => parseBitwiseAndExpression
  | BitwiseExclusiveOr => parseBitwiseExclusiveOrExpression
  | BitwiseOr => parseBitwiseOrExpression
  | LogicalAnd => parseLogicalAndExpression
  end.

Definition relationalOps : list Token := [LESS; LESS_OR_EQUAL; GREATER; GREATER_OR_EQUAL; INSTANCEOF].

Definition relationalLoop (allow : bool) (left : expr) : P expr :=
  c ← token;
  if isOneOf c relationalOps || (teq c IN && allow) then
    next ;; right ← rec (CBinary Shift); rec (CRelationalLoop allow (BinaryExpression c left right))
  else mret left.

Definition parseRelationalExpression : P expr :=
  s ← get;
  let allow := allowIn (scope_ s) in
  if allow && teq (tk (cur s)) PRIVATE_IDENTIFIER then unmodelled
  else
    left ← rec (CBinary Shift);
    modifyScope (withAllowIn true) ;;
    e ← rec (CRelationalLoop allow left);
    modifyScope (withAllowIn allow) ;;
    mret e.

Definition isLogicalAndExpr (e : expr) : bool :=
  match e with BinaryExpression op _ _ => teq op LOGICAL_AND | _ => false end.

Definition mixed {A} : P A := error "Logical expressions and coalesce expressions cannot be mixed. Wrap either by parentheses".

Definition orLoop (left : expr) : P expr :=
  c ← token;
  match c with
  | LOGICAL_OR => next ;; right ← rec (CBinary LogicalAnd); rec (COrLoop (BinaryExpression LOGICAL_OR left right))
  | COALESCE => mixed
  | _ => mret left
  end.

Definition coalesceLoop (left : expr) : P expr :=
  c ← token;
  match c with
  | COALESCE =>
      next ;;
      c ← token;
      let parenthesis := teq c LEFT_PARENTHESIS in
      right ← rec (CBinary LogicalAnd);
      if negb parenthesis && isLogicalAndExpr right then mixed
      else rec (CCoalesceLoop (BinaryExpression COALESCE left right))
  | LOGICAL_OR => mixed
  | _ => mret left
  end.

Definition parseLogicalOrExpression : P expr :=
  c ← token;
  let parenthesis := teq c LEFT_PARENTHESIS in
  left ← rec (CBinary LogicalAnd);
  c ← token;
  if teq c LOGICAL_OR || (negb parenthesis && isLogicalAndExpr left) then rec (COrLoop left) else rec (CCoalesceLoop left).

Definition parseConditionalExpression : P expr :=
  left ← rec CLogicalOr;
  c ← token;
  if teq c QUESTION_MARK then
    next ;;
    s ← get;
    let allow := allowIn (scope_ s) in
    modifyScope (withAllowIn true) ;;
    consequent ← rec CAssignment;
    modifyScope (withAllowIn allow) ;;
    expect COLON ;;
    alternate ← rec CAssignment;
    mret (ConditionalExpression left consequent alternate)
  else mret left.

(** The operator of a compound assignment. *)
Definition assignOperator (t : Token) : option Token :=
  match t with
  | ASSIGN => Some ASSIGN
  | ADD_ASSIGN => Some PLUS
  | SUBTRACT_ASSIGN => Some MINUS
  | MULTIPLY_ASSIGN => Some MULTIPLY
  | EXPONENT_ASSIGN => Some EXPONENT
  | QUOTIENT_ASSIGN => Some SLASH
  | REMAINDER_ASSIGN => Some REMAINDER
  | AND_ASSIGN => Some AND
  | OR_ASSIGN => Some OR
  | EXCLUSIVE_OR_ASSIGN => Some EXCLUSIVE_OR
  | SHIFT_LEFT_ASSIGN => Some SHIFT_LEFT
  | SHIFT_RIGHT_ASSIGN => Some SHIFT_RIGHT
  | UNSIGNED_SHIFT_RIGHT_ASSIGN => Some UNSIGNED_SHIFT_RIGHT
  | LOGICAL_AND_ASSIGN => Some LOGICAL_AND
  | LOGICAL_OR_ASSIGN => Some LOGICAL_OR
  | COALESCE_ASSIGN => Some COALESCE
  | _ => None
  end.

Definition parseAssignmentExpression : P expr :=
  nesting (
    c ← token;
    let parenthesis := teq c LEFT_PARENTHESIS in
    if teq c ASYNC then unmodelled
    else
      (if parenthesis then mret () else tokenToBindingId) ;;
      left ← rec CConditional;
      c ← token;
      if teq c ARROW then unmodelled
      else
        match assignOperator c with
        | None => mret left
        | Some operator =>
            next ;;
            match left with
            | Identifier _ => right ← rec CAssignment; mret (AssignExpression operator left right parenthesis)
            | DotExpression _ _ | BracketExpression _ _ => right ← rec CAssignment; mret (AssignExpression operator left right false)
            | ArrayLiteral _ | ObjectLiteral _ =>
                if negb parenthesis && teq operator ASSIGN then unmodelled else error "Invalid left-hand side in assignment"
            | _ => error "Invalid left-hand side in assignment"
            end
        end).

Definition sequenceLoop (sequence : list expr) : P expr :=
  c ← token;
  if teq c COMMA then next ;; e ← rec CAssignment; rec (CSequenceLoop (sequence ++ [e])) else mret (SequenceExpression sequence).

Definition parseExpression : P expr :=
  left ← rec CAssignment;
  c ← token;
  if teq c COMMA then rec (CSequenceLoop [left]) else mret left.

(** *** Statements *)

Definition parseBlockStatement : P (list stmt) :=
  expect LEFT_BRACE ;; l ← rec (CStatementList []); expect RIGHT_BRACE ;; mret l.

Definition parseEmptyStatement : P stmt := expect SEMICOLON ;; mret EmptyStatement.

(** parseStatementList: to the closing brace or the end *)
Definition statementListLoop (l : list stmt) : P (list stmt) :=
  c ← token;
  if teq c RIGHT_BRACE || teq c EOF then mret l
  else modifyScope (withAllowLet true) ;; s ← rec CStatement; rec (CStatementList (l ++ [s])).

(** A body after an if, a loop or a label. *)
Definition parseBody : P stmt := modifyScope (withAllowLet false) ;; rec CStatement.

(** The deferred reset of a flag of the scope. *)
Definition withFlag {A} (set : bool → scope → scope) (getFlag : scope → bool) (body : P A) : P A :=
  s ← get;
  let old := getFlag (scope_ s) in
  modifyScope (set true) ;; a ← body; modifyScope (set old) ;; mret a.

Definition parseIterationStatement : P stmt := withFlag withIteration inIteration parseBody.

Definition parseIfStatement : P stmt :=
  expect IF ;;
  expect LEFT_PARENTHESIS ;;
  test ← rec CExpression;
  expect RIGHT_PARENTHESIS ;;
  c ← token;
  consequent ← (if teq c LEFT_BRACE then l ← parseBlockStatement; mret (BlockStatement l) else parseBody);
  c ← token;
  if teq c ELSE then next ;; alternate ← parseBody; mret (IfStatement test consequent (Some alternate))
  else mret (IfStatement test consequent None).

Definition parseDoWhileStatement : P stmt :=
  withFlag withIteration inIteration (
    expect DO ;;
    c ← token;
    body ← (if teq c LEFT_BRACE then l ← parseBlockStatement; mret (BlockStatement l) else parseBody);
    expect WHILE ;;
    expect LEFT_PARENTHESIS ;;
    test ← rec CExpression;
    expect RIGHT_PARENTHESIS ;;
    c ← token;
    (if teq c SEMICOLON then next else mret ()) ;;
    mret (DoWhileStatement body test)).

Definition parseWhileStatement : P stmt :=
  expect WHILE ;;
  expect LEFT_PARENTHESIS ;;
  test ← rec CExpression;
  expect RIGHT_PARENTHESIS ;;
  body ← parseIterationStatement;
  mret (WhileStatement test body).

(** parseBindingTarget for an identifier *)
Definition parseBindingTarget : P string :=
  tokenToBindingId ;;
  c ← token;
  if teq c IDENTIFIER then parseIdentifier
  else if teq c LEFT_BRACKET || teq c LEFT_BRACE then unmodelled
  else unexpected.

Definition parseVariableDeclaration : P binding :=
  t ← parseBindingTarget;
  c ← token;
  if teq c ASSIGN then next ;; e ← rec CAssignment; mret (Binding t (Some e)) else mret (Binding t None).

(** parseVariableDeclarationList *)
Definition variablesLoop (l : list binding) : P (list binding) :=
  b ← parseVariableDeclaration;
  c ← token;
  if teq c COMMA then next ;; rec (CVariables (l ++ [b])) else mret (l ++ [b]).

Definition parseVariableStatement : P stmt :=
  expect VAR ;; l ← rec (CVariables []); semicolon ;; mret (VariableStatement l).

Definition parseLexicalDeclaration (t : Token) : P stmt :=
  expect t ;;
  s ← get;
  if negb (allowLet (scope_ s)) then error "Lexical declaration cannot appear in a single-statement context"
  else l ← rec (CVariables []); semicolon ;; mret (LexicalDeclaration t l).

(** parseFor, after the first semicolon *)
Definition parseFor (init : option forInit) : P stmt :=
  c ← token;
  test ← (if teq c SEMICOLON then mret None else e ← rec CExpression; mret (Some e));
  expect SEMICOLON ;;
  c ← token;
  update ← (if teq c RIGHT_PARENTHESIS then mret None else e ← rec CExpression; mret (Some e));
  expect RIGHT_PARENTHESIS ;;
  body ← parseIterationStatement;
  mret (ForStatement init test update body).

Definition parseForIn (into : forInto) : P stmt :=
  source ← rec CExpression; expect RIGHT_PARENTHESIS ;; body ← parseIterationStatement; mret (ForInStatement into source body).

Definition parseForOf (into : forInto) : P stmt :=
  source ← rec CAssignment; expect RIGHT_PARENTHESIS ;; body ← parseIterationStatement; mret (ForOfStatement into source body).

(** What comes after the first part of the head: in, of, or a semicolon. *)
Inductive forKind := KFor | KIn | KOf.

Definition forKeyword : P forKind :=
  c ← curTok;
  if teq (tk c) IN then next ;; mret KIn
  else if teq (tk c) IDENTIFIER && bool_decide (literal c = "of"%string) then next ;; mret KOf
  else mret KFor.

Definition parseForOrForInStatement : P stmt :=
  expect FOR ;;
  expect LEFT_PARENTHESIS ;;
  c ← token;
  if teq c SEMICOLON then next ;; parseFor None
  else
    s ← get;
    let allow := allowIn (scope_ s) in
    modifyScope (withAllowIn false) ;;
    p ← peek;
    let t := if teq c LET && negb (isOneOf p [IDENTIFIER; LEFT_BRACKET; LEFT_BRACE]) then IDENTIFIER else c in
    if isOneOf t [VAR; LET; CONST] then
      next ;;
      l ← rec (CVariables []);
      k ← match l with [_] => forKeyword | _ => mret KFor end;
      modifyScope (withAllowIn allow) ;;
      match k, l with
      | KFor, _ =>
          expect SEMICOLON ;;
          parseFor (Some (if teq t VAR then ForLoopInitializerVarDeclList l else ForLoopInitializerLexicalDecl t l))
      | k, b :: _ =>
          let into := if teq t VAR then ForIntoVar b else ForDeclaration (teq t CONST) (target b) in
          match initializer b, k with
          | Some _, KOf => error "for-in loop variable declaration may not have an initializer"
          | Some _, _ => if teq t VAR then parseForIn into else error "for-in loop variable declaration may not have an initializer"
          | None, KOf => parseForOf into
          | None, _ => parseForIn into
          end
      | _, [] => unmodelled
      end
    else
      e ← rec CExpression;
      k ← forKeyword;
      match k with
      | KFor =>
          modifyScope (withAllowIn allow) ;;
          expect SEMICOLON ;;
          parseFor (Some (ForLoopInitializerExpression e))
      | k =>
          match e with
          | Identifier _ | DotExpression _ _ | BracketExpression _ _ =>
              modifyScope (withAllowIn allow) ;;
              match k with KOf => parseForOf (ForIntoExpression e) | _ => parseForIn (ForIntoExpression e) end
          | ArrayLiteral _ | ObjectLiteral _ => unmodelled
          | _ => error "Invalid left-hand side in for-in or for-of"
          end
      end.

Definition hasLabel (name : string) (c : scope) : bool := bool_decide (name ∈ labels c).

Definition parseBranch (t : Token) (allowed : scope → bool) (illegal : string) : P stmt :=
  expect t ;;
  i ← implicit;
  c ← token;
  semi ← (if teq c SEMICOLON then next ;; mret true else mret i);
  c ← token;
  if semi || teq c RIGHT_BRACE then
    setImplicit false ;;
    s ← get;
    if allowed (scope_ s) then mret (BranchStatement t None) else error illegal
  else
    tokenToBindingId ;;
    c ← token;
    if teq c IDENTIFIER then
      name ← parseIdentifier;
      s ← get;
      if negb (hasLabel name (scope_ s)) then error "Undefined label"
      else if teq t CONTINUE && negb (inIteration (scope_ s)) then error illegal
      else semicolon ;; mret (BranchStatement t (Some name))
    else unexpected.

Definition parseBreakStatement : P stmt := parseBranch BREAK (λ c, inIteration c || inSwitch c) "Illegal break statement".
Definition parseContinueStatement : P stmt := parseBranch CONTINUE inIteration "Illegal continue statement".

Definition parseThrowStatement : P stmt :=
  expect THROW ;;
  i ← implicit;
  if i : bool then error "Illegal newline after throw"
  else e ← rec CExpression; semicolon ;; mret (ThrowStatement e).

Definition parseDebuggerStatement : P stmt := expect DEBUGGER ;; semicolon ;; mret DebuggerStatement.

Definition parseWithStatement : P stmt :=
  expect WITH ;;
  expect LEFT_PARENTHESIS ;;
  e ← rec CExpression;
  expect RIGHT_PARENTHESIS ;;
  body ← parseBody;
  mret (WithStatement e body).

Definition parseTryStatement : P stmt :=
  expect TRY ;;
  body ← parseBlockStatement;
  c ← token;
  catch ← (if teq c CATCH then
             next ;;
             c ← token;
             p ← (if teq c LEFT_PARENTHESIS then
                    next ;; t ← parseBindingTarget; expect RIGHT_PARENTHESIS ;; mret (Some t)
                  else mret None);
             l ← parseBlockStatement;
             mret (Some (p, l))
           else mret None);
  c ← token;
  finally ← (if teq c FINALLY then next ;; l ← parseBlockStatement; mret (Some l) else mret None);
  match catch, finally with
  | None, None => error "Missing catch or finally after try"
  | _, _ => mret (TryStatement body catch finally)
  end.

Definition caseLoop (l : list stmt) : P (list stmt) :=
  c ← token;
  if isOneOf c [EOF; RIGHT_BRACE; CASE; DEFAULT] then mret l
  else modifyScope (withAllowLet true) ;; s ← rec CStatement; rec (CCaseLoop (l ++ [s])).

Definition parseCaseStatement : P (option expr * list stmt) :=
  c ← token;
  test ← (if teq c DEFAULT then next ;; mret None else expect CASE ;; e ← rec CExpression; mret (Some e));
  expect COLON ;;
  l ← rec (CCaseLoop []);
  mret (test, l).

Definition switchLoop (index default : Z) (body : list (option expr * list stmt)) : P (Z * list (option expr * list stmt)) :=
  c ← token;
  if teq c EOF then mret (default, body)
  else if teq c RIGHT_BRACE then next ;; mret (default, body)
  else
    clause ← parseCaseStatement;
    match clause.1 with
    | None =>
        if negb (default =? -1) then error "Already saw a default in switch"
        else rec (CSwitchLoop (index + 1) index (body ++ [clause]))
    | Some _ => rec (CSwitchLoop (index + 1) default (body ++ [clause]))
    end.

Definition parseSwitchStatement : P stmt :=
  expect SWITCH ;;
  expect LEFT_PARENTHESIS ;;
  e ← rec CExpression;
  expect RIGHT_PARENTHESIS ;;
  expect LEFT_BRACE ;;
  withFlag withSwitch inSwitch (r ← rec (CSwitchLoop 0 (-1) []); mret (SwitchStatement e r.1 r.2)).

(** The end of parseStatement: a labelled or an expression statement *)
Definition parseExpressionStatement : P stmt :=
  e ← rec CExpression;
  c ← token;
  match e with
  | Identifier label =>
      if teq c COLON then
        next ;;
        s ← get;
        if hasLabel label (scope_ s) then error "Label already exists"
        else
          let old := labels (scope_ s) in
          modifyScope (withLabels (old ++ [label])) ;;
          modifyScope (withAllowLet false) ;;
          body ← rec CStatement;
          modifyScope (withLabels old) ;;
          mret (LabelledStatement label body)
      else optionalSemicolon ;; mret (ExpressionStatement e)
  | _ => optionalSemicolon ;; mret (ExpressionStatement e)
  end.

Definition parseStatement : P stmt :=
  nesting (
    c ← token;
    match c with
    | EOF => unexpected
    | SEMICOLON => parseEmptyStatement
    | LEFT_BRACE => l ← parseBlockStatement; mret (BlockStatement l)
    | IF => parseIfStatement
    | DO => parseDoWhileStatement
    | WHILE => parseWhileStatement
    | FOR => parseForOrForInStatement
    | BREAK => parseBreakStatement
    | CONTINUE => parseContinueStatement
    | DEBUGGER => parseDebuggerStatement
    | WITH => parseWithStatement
    | VAR => parseVariableStatement
    | LET =>
        p ← peek;
        s ← get;
        if teq p LEFT_BRACKET || (allowLet (scope_ s) && (IsId p || teq p LEFT_BRACE)) then parseLexicalDeclaration LET
        else setInsert true ;; parseExpressionStatement
    | CONST => parseLexicalDeclaration CONST
    | ASYNC | FUNCTION | CLASS => unmodelled
    | SWITCH => parseSwitchStatement
    | RETURN => error "Illegal return statement"
    | THROW => parseThrowStatement
    | TRY => parseTryStatement
    | EXPORT => error "export not supported in script"
    | IMPORT => p ← peek; if teq p LEFT_PARENTHESIS then unmodelled else error "import not supported in script"
    | _ => parseExpressionStatement
    end).

(** parseSourceElements *)
Definition sourceElementsLoop (body : list stmt) : P (list stmt) :=
  c ← token;
  if teq c EOF then mret body
  else modifyScope (withAllowLet true) ;; s ← rec CStatement; rec (CSourceElements (body ++ [s])).

Definition body {A} (c : call A) : P A :=
  match c in call A return P A with
  | CExpression => parseExpression
  | CSequenceLoop l => sequenceLoop l
  | CAssignment => parseAssignmentExpression
  | CConditional => parseConditionalExpression
  | CLogicalOr => parseLogicalOrExpression
  | COrLoop e => orLoop e
  | CCoalesceLoop e => coalesceLoop e
  | CBinary l => parseBinary l
  | CBinaryLoop l e => binaryLoop l e
  | CRelational => parseRelationalExpression
  | CRelationalLoop allow e => relationalLoop allow e
  | CExponentiation => parseExponentiationExpression
  | CExponentLoop e => exponentLoop e
  | CUnary => parseUnaryExpression
  | CUpdate => parseUpdateExpression
  | CLeftHandSideAllowCall => parseLeftHandSideExpressionAllowCall
  | CCallLoop e opt => callLoop e opt
  | CLeftHandSide => parseLeftHandSideExpression
  | CMemberLoop e => memberLoop e
  | CNew => parseNewExpression
  | CPrimary => parsePrimaryExpression
  | CParenthesised => parseParenthesisedExpression
  | CParenthesisLoop l => parenthesisLoop l
  | CArguments l => argumentLoop l
  | CArrayLiteral l => arrayLoop l
  | CObjectLiteral l => objectLoop l
  | CObjectProperty => parseObjectProperty
  | CStatement => parseStatement
  | CStatementList l => statementListLoop l
  | CSourceElements l => sourceElementsLoop l
  | CSwitchLoop i d l => switchLoop i d l
  | CCaseLoop l => caseLoop l
  | CVariables l => variablesLoop l
  end.
End bodies.

(** ** The parser *)

Fixpoint parse (fuel : nat) {A} (c : call A) : P A :=
  match fuel with O => λ _, NoFuel | S fuel => body (@parse fuel) c end.

Definition initialScope : scope := Scope true false false false [].
(** The state after the first token has been scanned. *)
Definition initial (toks : list tok) : res unit := next (St eofTok toks false false initialScope 0).

(** parseProgram: the statements of a script *)
Definition parseProgram (fuel : nat) (toks : list tok) : res (list stmt) :=
  match initial toks with Ok _ s => parse fuel (CSourceElements []) s | Err e => Err e | NoFuel => NoFuel | Unmodelled => Unmodelled end.
End Parser.
