(* ===== verification/ParserGrammar.v ===== *)
(** * The grammar of expressions and statements

    The productions of ECMAScript for the syntax the parser is modelled for, with
    the syntax tree of each: left-recursive, with the categories of the standard.
    A derivation carries a bound on the nesting that the parser counts, and the
    parameter In. *)

From S2P Require Import Prelude Parser.
From stdpp Require Import strings.
Import Parser.
Open Scope Z_scope.

Module ParserGrammar.

(** ** Expressions *)

Inductive cat :=
  | Expression | Assignment | Conditional | ShortCircuit | LogicalOr | CoalesceExpr
  | Binary (l : binaryLevel) | Relational | Exponentiation | Unary | Update
  | LeftHandSide | Chain (k : chain) | NewExpr | Primary
(** The expressions that grow to the right: without a call, with one, and with an
    optional link. *)
with chain := Member | Call | OptionalExpr.

Definition operandCat (l : binaryLevel) : cat :=
  match l with
  | Multiplicative => Exponentiation
  | Additive => Binary Multiplicative
  | Shift => Binary Additive
  | Equality => Relational
  | BitwiseAnd => Binary Equality
  | BitwiseExclusiveOr => Binary BitwiseAnd
  | BitwiseOr => Binary BitwiseExclusiveOr
  | LogicalAnd => Binary BitwiseOr
  end.

Definition afterCall (k : chain) : chain := match k with Member => Call | k => k end.

(** A line end before the token, or the end of the input: a statement may end. *)
Definition ends (t : tok) : bool := newline t || commentNewline t || teq (tk t) EOF.

Definition startsWithParen (ts : list tok) : bool := match ts with t :: _ => teq (tk t) LEFT_PARENTHESIS | [] => false end.
Definition isIdentifier (e : expr) : bool := match e with Identifier _ => true | _ => false end.

(** A token that is a name of a property. *)
Definition propertyName (t : tok) : bool := IsId (tk t).

(** The key of a property in a literal, one token. *)
Definition keyOf (t : tok) : option expr :=
  if isOneOf (tk t) [IDENTIFIER; STRING; KEYWORD; ESCAPED_RESERVED_WORD; EXPORT; IMPORT] then Some (StringLiteral (parsedLiteral t))
  else if teq (tk t) NUMBER then Some (NumberLiteral (literal t))
  else if IsId (tk t) then Some (StringLiteral (literal t))
  else None.

(** Literals and identifiers. *)
Definition atom (t : tok) : option expr :=
  match tk t with
  | IDENTIFIER => Some (Identifier (parsedLiteral t))
  | NULL => Some NullLiteral
  | BOOLEAN => if decide (parsedLiteral t = "true"%string) then Some (BooleanLiteral true)
               else if decide (parsedLiteral t = "false"%string) then Some (BooleanLiteral false) else None
  | STRING => Some (StringLiteral (parsedLiteral t))
  | NUMBER => Some (NumberLiteral (literal t))
  | THIS => Some ThisExpression
  | _ => None
  end.

Definition sequenceOf (es : list expr) : expr := match es with [e] => e | es => SequenceExpression es end.

(** [derives d i c ts e]: the tokens [ts] are a [c] with the tree [e]. *)
Inductive derives : nat → bool → cat → list tok → expr → Prop :=
  | D_expression d i ts es : sequence d i ts es → derives d i Expression ts (sequenceOf es)
  | D_conditional d i ts e : derives d i Conditional ts e → derives (S d) i Assignment ts e
  | D_assign d i ts1 e1 op o ts2 e2 :
      derives d i LeftHandSide ts1 e1 → isReference e1 = true → assignOperator (tk op) = Some o → derives (S d) i Assignment ts2 e2 →
      derives (S (S d)) i Assignment (ts1 ++ op :: ts2) (AssignExpression o e1 e2 (isIdentifier e1 && startsWithParen ts1))
  | D_shortCircuit d i ts e : derives d i ShortCircuit ts e → derives d i Conditional ts e
  | D_question d i ts1 e1 q ts2 e2 c ts3 e3 :
      derives d i ShortCircuit ts1 e1 → tk q = QUESTION_MARK → derives d true Assignment ts2 e2 → tk c = COLON → derives d i Assignment ts3 e3 →
      derives d i Conditional (ts1 ++ q :: ts2 ++ c :: ts3) (ConditionalExpression e1 e2 e3)
  | D_or d i ts e : derives d i LogicalOr ts e → derives d i ShortCircuit ts e
  | D_coalesce d i ts e : derives d i CoalesceExpr ts e → derives d i ShortCircuit ts e
  | D_or_and d i ts e : derives d i (Binary LogicalAnd) ts e → derives d i LogicalOr ts e
  | D_or_op d i ts1 e1 op ts2 e2 :
      derives d i LogicalOr ts1 e1 → tk op = LOGICAL_OR → derives d i (Binary LogicalAnd) ts2 e2 →
      derives d i LogicalOr (ts1 ++ op :: ts2) (BinaryExpression LOGICAL_OR e1 e2)
  | D_coalesce_first d i ts1 e1 op ts2 e2 :
      derives d i (Binary BitwiseOr) ts1 e1 → tk op = COALESCE → derives d i (Binary BitwiseOr) ts2 e2 →
      derives d i CoalesceExpr (ts1 ++ op :: ts2) (BinaryExpression COALESCE e1 e2)
  | D_coalesce_op d i ts1 e1 op ts2 e2 :
      derives d i CoalesceExpr ts1 e1 → tk op = COALESCE → derives d i (Binary BitwiseOr) ts2 e2 →
      derives d i CoalesceExpr (ts1 ++ op :: ts2) (BinaryExpression COALESCE e1 e2)
  | D_operand d i l ts e : derives d i (operandCat l) ts e → derives d i (Binary l) ts e
  | D_binary d i l ts1 e1 op ts2 e2 :
      derives d i (Binary l) ts1 e1 → isOneOf (tk op) (operators l) = true → derives d i (operandCat l) ts2 e2 →
      derives d i (Binary l) (ts1 ++ op :: ts2) (BinaryExpression (tk op) e1 e2)
  | D_shift d i ts e : derives d i (Binary Shift) ts e → derives d i Relational ts e
  | D_relational d i ts1 e1 op ts2 e2 :
      derives d i Relational ts1 e1 → isOneOf (tk op) relationalOps || (teq (tk op) IN && i) = true → derives d true (Binary Shift) ts2 e2 →
      derives d i Relational (ts1 ++ op :: ts2) (BinaryExpression (tk op) e1 e2)
  | D_unary d i ts e : derives d i Unary ts e → derives d i Exponentiation ts e
  | D_exponent d i ts1 e1 op ts2 e2 :
      derives d i Update ts1 e1 → tk op = EXPONENT → derives d i Exponentiation ts2 e2 →
      derives (S d) i Exponentiation (ts1 ++ op :: ts2) (BinaryExpression EXPONENT e1 e2)
  | D_update d i ts e : derives d i Update ts e → derives (S d) i Unary ts e
  | D_unary_op d i op ts e :
      isOneOf (tk op) unaryOps = true → derives d i Unary ts e → derives (S d) i Unary (op :: ts) (UnaryExpression (tk op) e false)
  | D_lhs d i ts e : derives d i LeftHandSide ts e → derives d i Update ts e
  | D_prefix d i op ts e :
      tk op = INCREMENT ∨ tk op = DECREMENT → derives d i Unary ts e → isReference e = true →
      derives d i Update (op :: ts) (UnaryExpression (tk op) e false)
  | D_postfix d i ts e op :
      derives d i LeftHandSide ts e → isReference e = true → tk op = INCREMENT ∨ tk op = DECREMENT → ends op = false →
      derives d i Update (ts ++ [op]) (UnaryExpression (tk op) e true)
  | D_new_expression d i ts e : derives d true NewExpr ts e → derives d i LeftHandSide ts e
  | D_call_expression d i ts e : derives d true (Chain Call) ts e → derives d i LeftHandSide ts e
  | D_optional d i ts e : derives d true (Chain OptionalExpr) ts e → derives d i LeftHandSide ts (OptionalChain e)
  | D_member d i ts e : derives d i (Chain Member) ts e → derives d i NewExpr ts e
  | D_new d i t ts e : tk t = NEW → derives d i NewExpr ts e → derives (S d) i NewExpr (t :: ts) (NewExpression e [])
  | D_primary d i ts e : derives d i Primary ts e → derives d i (Chain Member) ts e
  | D_new_call d i t ts1 e ts2 es :
      tk t = NEW → derives d i (Chain Member) ts1 e → arguments d ts2 es →
      derives (S d) i (Chain Member) (t :: ts1 ++ ts2) (NewExpression e es)
  | D_dot d i k ts e p n :
      derives d i (Chain k) ts e → tk p = PERIOD → propertyName n = true →
      derives d i (Chain k) (ts ++ [p; n]) (DotExpression e (parsedLiteral n))
  | D_bracket d i k ts1 e1 l ts2 e2 r :
      derives d i (Chain k) ts1 e1 → tk l = LEFT_BRACKET → derives d true Expression ts2 e2 → tk r = RIGHT_BRACKET →
      derives d i (Chain k) (ts1 ++ l :: ts2 ++ [r]) (BracketExpression e1 e2)
  | D_call d i k ts1 e ts2 es :
      derives d i (Chain k) ts1 e → arguments d ts2 es → derives d i (Chain (afterCall k)) (ts1 ++ ts2) (CallExpression e es)
  | D_optional_dot d i k ts e p n :
      derives d i (Chain k) ts e → tk p = QUESTION_DOT → propertyName n = true →
      derives d i (Chain OptionalExpr) (ts ++ [p; n]) (DotExpression (Optional e) (parsedLiteral n))
  | D_optional_bracket d i k ts1 e1 p l ts2 e2 r :
      derives d i (Chain k) ts1 e1 → tk p = QUESTION_DOT → tk l = LEFT_BRACKET → derives d true Expression ts2 e2 → tk r = RIGHT_BRACKET →
      derives d i (Chain OptionalExpr) (ts1 ++ p :: l :: ts2 ++ [r]) (BracketExpression (Optional e1) e2)
  | D_optional_call d i k ts1 e p ts2 es :
      derives d i (Chain k) ts1 e → tk p = QUESTION_DOT → arguments d ts2 es →
      derives d i (Chain OptionalExpr) (ts1 ++ p :: ts2) (CallExpression (Optional e) es)
  | D_atom d i t e : atom t = Some e → derives d i Primary [t] e
  | D_parenthesised d i l ts es r :
      tk l = LEFT_PARENTHESIS → sequence d true ts es → tk r = RIGHT_PARENTHESIS → derives d i Primary (l :: ts ++ [r]) (sequenceOf es)
  | D_array d i l ts es r :
      tk l = LEFT_BRACKET → elements d ts es → tk r = RIGHT_BRACKET → derives d i Primary (l :: ts ++ [r]) (ArrayLiteral es)
  | D_object d i l ts ps r :
      tk l = LEFT_BRACE → properties d ts ps → tk r = RIGHT_BRACE → derives d i Primary (l :: ts ++ [r]) (ObjectLiteral ps)
(** Expressions separated by commas. *)
with sequence : nat → bool → list tok → list expr → Prop :=
  | D_one d i ts e : derives d i Assignment ts e → sequence d i ts [e]
  | D_more d i ts e c ts' es :
      derives d i Assignment ts e → tk c = COMMA → sequence d i ts' es → sequence d i (ts ++ c :: ts') (e :: es)
(** An argument, or an element of an array: an expression or a spread. *)
with item : nat → list tok → expr → Prop :=
  | D_item d ts e : derives d true Assignment ts e → item d ts e
  | D_spread d t ts e : tk t = ELLIPSIS → derives d true Assignment ts e → item d (t :: ts) (SpreadElement e)
with arguments : nat → list tok → list expr → Prop :=
  | D_arguments d l ts es r : tk l = LEFT_PARENTHESIS → items d ts es → tk r = RIGHT_PARENTHESIS → arguments d (l :: ts ++ [r]) es
(** The arguments; a comma may follow the last one. *)
with items : nat → list tok → list expr → Prop :=
  | D_no_items d : items d [] []
  | D_last_item d ts e : item d ts e → items d ts [e]
  | D_items d ts e c ts' es : item d ts e → tk c = COMMA → items d ts' es → items d (ts ++ c :: ts') (e :: es)
(** The elements of an array, [None] for a hole. *)
with elements : nat → list tok → list (option expr) → Prop :=
  | D_no_elements d : elements d [] []
  | D_hole d c ts es : tk c = COMMA → elements d ts es → elements d (c :: ts) (None :: es)
  | D_last_element d ts e : item d ts e → elements d ts [Some e]
  | D_elements d ts e c ts' es : item d ts e → tk c = COMMA → elements d ts' es → elements d (ts ++ c :: ts') (Some e :: es)
with property_ : nat → list tok → property → Prop :=
  | D_keyed d k key c ts e :
      keyOf k = Some key → tk c = COLON → derives d true Assignment ts e → property_ d (k :: c :: ts) (PropertyKeyed key e false)
  | D_computed d l ts1 e1 r c ts2 e2 :
      tk l = LEFT_BRACKET → derives d true Assignment ts1 e1 → tk r = RIGHT_BRACKET → tk c = COLON → derives d true Assignment ts2 e2 →
      property_ d (l :: ts1 ++ r :: c :: ts2) (PropertyKeyed e1 e2 true)
  | D_short d t : tk t = IDENTIFIER → property_ d [t] (PropertyShort (parsedLiteral t) None)
  | D_property_spread d t ts e : tk t = ELLIPSIS → derives d true Assignment ts e → property_ d (t :: ts) (PropertySpread e)
with properties : nat → list tok → list property → Prop :=
  | D_no_properties d : properties d [] []
  | D_last_property d ts p : property_ d ts p → properties d ts [p]
  | D_properties d ts p c ts' ps :
      property_ d ts p → tk c = COMMA → properties d ts' ps → properties d (ts ++ c :: ts') (p :: ps).

Scheme derives_mind := Minimality for derives Sort Prop
  with sequence_mind := Minimality for sequence Sort Prop
  with item_mind := Minimality for item Sort Prop
  with arguments_mind := Minimality for arguments Sort Prop
  with items_mind := Minimality for items Sort Prop
  with elements_mind := Minimality for elements Sort Prop
  with property_mind := Minimality for property_ Sort Prop
  with properties_mind := Minimality for properties Sort Prop.
Combined Scheme grammar_mind from derives_mind, sequence_mind, item_mind, arguments_mind, items_mind, elements_mind, property_mind, properties_mind.

(** What the token after an expression of a category must not be: the parser goes
    on with tokens of the rank of the category or below. *)
Definition tokRank (i : bool) (t : tok) : nat :=
  match tk t with
  | PERIOD | LEFT_BRACKET | BACKTICK => 1
  | LEFT_PARENTHESIS | QUESTION_DOT => 2
  | INCREMENT | DECREMENT => if ends t then 99 else 3
  | EXPONENT => 5
  | MULTIPLY | SLASH | REMAINDER => 6
  | PLUS | MINUS => 7
  | SHIFT_LEFT | SHIFT_RIGHT | UNSIGNED_SHIFT_RIGHT => 8
  | LESS | LESS_OR_EQUAL | GREATER | GREATER_OR_EQUAL | INSTANCEOF => 9
  | IN => if i then 9 else 99
  | EQUAL | NOT_EQUAL | STRICT_EQUAL | STRICT_NOT_EQUAL => 10
  | AND => 11
  | EXCLUSIVE_OR => 12
  | OR => 13
  | LOGICAL_AND => 14
  | LOGICAL_OR | COALESCE => 15
  | QUESTION_MARK => 16
  | ARROW => 17
  | COMMA => 18
  | t => match assignOperator t with Some _ => 17 | None => 99 end
  end%nat.

Definition levelRank (l : binaryLevel) : nat :=
  match l with
  | Multiplicative => 6 | Additive => 7 | Shift => 8 | Equality => 10
  | BitwiseAnd => 11 | BitwiseExclusiveOr => 12 | BitwiseOr => 13 | LogicalAnd => 14
  end.

Definition rank (c : cat) : nat :=
  match c with
  | Primary => 0
  | Chain Member => 1
  | Chain _ | NewExpr | LeftHandSide => 2
  | Update => 3
  | Unary => 4
  | Exponentiation => 5
  | Binary l => levelRank l
  | Relational => 9
  | LogicalOr | CoalesceExpr | ShortCircuit => 15
  | Conditional => 16
  | Assignment => 17
  | Expression => 18
  end.

(** ** Statements

    What surrounds a statement: the labels in scope, whether it is in a loop and in
    a switch, and whether a declaration may stand there. *)

Record context := Context_ { labels_ : list string; loop : bool; switch : bool; declares : bool }.

Definition inLoop (c : context) : context := Context_ (labels_ c) true (switch c) false.
Definition inSwitch_ (c : context) : context := Context_ (labels_ c) (loop c) true true.
Definition inList (c : context) : context := Context_ (labels_ c) (loop c) (switch c) true.
Definition single (c : context) : context := Context_ (labels_ c) (loop c) (switch c) false.
Definition withLabel (x : string) (c : context) : context := Context_ (labels_ c ++ [x]) (loop c) (switch c) false.

Definition firstOf (ts : list tok) (n : tok) : tok := match ts with t :: _ => t | [] => n end.

(** The end of a statement before the token [n]: a semicolon, or an inserted one.
    Where [strict], the semicolon is on the line of the token before it. *)
Inductive terminated (strict : bool) : list tok → tok → Prop :=
  | T_semicolon t n : tk t = SEMICOLON → (strict = true → ends t = false) → terminated strict [t] n
  | T_inserted n : ends n = true ∨ tk n = RIGHT_BRACE → tk n ≠ SEMICOLON → terminated strict [] n.

(** The token does not continue an expression, or a list of declarations. *)
Definition stops (i : bool) (t : tok) : bool := (18 <? tokRank i t)%nat.
Definition stopsBindings (i : bool) (l : list binding) (t : tok) : bool :=
  match last l with Some (Binding _ (Some _)) => stops i t | _ => negb (isOneOf (tk t) [ASSIGN; COMMA]) end.

(** Declarations separated by commas. *)
Inductive bindings : nat → bool → list tok → list binding → Prop :=
  | B_last d i ts b : binding_ d i ts b → bindings d i ts [b]
  | B_more d i ts b c ts' bs : binding_ d i ts b → tk c = COMMA → bindings d i ts' bs → bindings d i (ts ++ c :: ts') (b :: bs)
with binding_ : nat → bool → list tok → binding → Prop :=
  | B_name d i t : tk t = IDENTIFIER → binding_ d i [t] (Binding (parsedLiteral t) None)
  | B_init d i t a ts e :
      tk t = IDENTIFIER → tk a = ASSIGN → derives d i Assignment ts e → binding_ d i (t :: a :: ts) (Binding (parsedLiteral t) (Some e)).

(** The parts of the head of a for loop. *)
Inductive optionalExpr : nat → list tok → option expr → Prop :=
  | O_none d : optionalExpr d [] None
  | O_some d ts e : derives d true Expression ts e → optionalExpr d ts (Some e).

Inductive initializer_ : nat → list tok → forInit → Prop :=
  | I_expression d ts e : derives d false Expression ts e → initializer_ d ts (ForLoopInitializerExpression e)
  | I_var d t ts l : tk t = VAR → bindings d false ts l → initializer_ d (t :: ts) (ForLoopInitializerVarDeclList l)
  | I_lexical d t ts l : tk t = LET ∨ tk t = CONST → bindings d false ts l →
      initializer_ d (t :: ts) (ForLoopInitializerLexicalDecl (tk t) l).

(** What the loop assigns to, of for-in and for-of. *)
Inductive target_ : nat → list tok → forInto → Prop :=
  | R_var d t x : tk t = VAR → tk x = IDENTIFIER → target_ d [t; x] (ForIntoVar (Binding (parsedLiteral x) None))
  | R_lexical d t x : tk t = LET ∨ tk t = CONST → tk x = IDENTIFIER → target_ d [t; x] (ForDeclaration (teq (tk t) CONST) (parsedLiteral x))
  | R_expression d ts e : derives d false LeftHandSide ts e → isReference e = true → target_ (S (S d)) ts (ForIntoExpression e).

(** [statement d c ts n s]: before the token [n], the tokens [ts] are the statement [s]. *)
Inductive statement : nat → context → list tok → tok → stmt → Prop :=
  | S_empty d c t n : tk t = SEMICOLON → statement (S d) c [t] n EmptyStatement
  | S_block d c ts n l : block d c ts l → statement (S d) c ts n (BlockStatement l)
  | S_expression d c ts e tm n :
      derives d true Expression ts e → tk (firstOf ts n) ≠ LEFT_BRACE → terminated false tm n → stops true (firstOf tm n) = true → tk (firstOf tm n) ≠ COLON →
      statement (S d) c (ts ++ tm) n (ExpressionStatement e)
  | S_if d c t l ts e r ts1 s1 n :
      tk t = IF → tk l = LEFT_PARENTHESIS → derives d true Expression ts e → tk r = RIGHT_PARENTHESIS → statement d (single c) ts1 n s1 → tk n ≠ ELSE →
      statement (S d) c (t :: l :: ts ++ r :: ts1) n (IfStatement e s1 None)
  | S_if_else d c t l ts e r ts1 s1 el ts2 s2 n :
      tk t = IF → tk l = LEFT_PARENTHESIS → derives d true Expression ts e → tk r = RIGHT_PARENTHESIS → statement d (single c) ts1 el s1 →
      tk el = ELSE → statement d (single c) ts2 n s2 →
      statement (S d) c (t :: l :: ts ++ r :: ts1 ++ el :: ts2) n (IfStatement e s1 (Some s2))
  | S_do d c t ts1 s1 w l ts e r tm n :
      tk t = DO → statement d (inLoop c) ts1 w s1 → tk w = WHILE → tk l = LEFT_PARENTHESIS → derives d true Expression ts e → tk r = RIGHT_PARENTHESIS →
      (tm = [] ∧ tk n ≠ SEMICOLON ∨ ∃ u, tm = [u] ∧ tk u = SEMICOLON) →
      statement (S d) c (t :: ts1 ++ w :: l :: ts ++ r :: tm) n (DoWhileStatement s1 e)
  | S_while d c t l ts e r ts1 s1 n :
      tk t = WHILE → tk l = LEFT_PARENTHESIS → derives d true Expression ts e → tk r = RIGHT_PARENTHESIS → statement d (inLoop c) ts1 n s1 →
      statement (S d) c (t :: l :: ts ++ r :: ts1) n (WhileStatement e s1)
  | S_for d c t l ti i s1 tt test s2 tu update r ts1 st n :
      tk t = FOR → tk l = LEFT_PARENTHESIS → (ti = [] ∧ i = None ∨ ∃ x, initializer_ d ti x ∧ i = Some x) → tk s1 = SEMICOLON →
      optionalExpr d tt test → tk s2 = SEMICOLON → optionalExpr d tu update → tk r = RIGHT_PARENTHESIS → statement d (inLoop c) ts1 n st →
      statement (S d) c (t :: l :: ti ++ s1 :: tt ++ s2 :: tu ++ r :: ts1) n (ForStatement i test update st)
  | S_for_in d c t l ti into k ts e r ts1 st n :
      tk t = FOR → tk l = LEFT_PARENTHESIS → target_ d ti into → tk k = IN → derives d true Expression ts e → tk r = RIGHT_PARENTHESIS →
      statement d (inLoop c) ts1 n st →
      statement (S d) c (t :: l :: ti ++ k :: ts ++ r :: ts1) n (ForInStatement into e st)
  | S_for_of d c t l ti into k ts e r ts1 st n :
      tk t = FOR → tk l = LEFT_PARENTHESIS → target_ d ti into → tk k = IDENTIFIER → literal k = "of"%string → derives d true Assignment ts e →
      tk r = RIGHT_PARENTHESIS → statement d (inLoop c) ts1 n st →
      statement (S d) c (t :: l :: ti ++ k :: ts ++ r :: ts1) n (ForOfStatement into e st)
  | S_break d c t tm n :
      tk t = BREAK → loop c || switch c = true → terminated false tm n → statement (S d) c (t :: tm) n (BranchStatement BREAK None)
  | S_continue d c t tm n : tk t = CONTINUE → loop c = true → terminated false tm n → statement (S d) c (t :: tm) n (BranchStatement CONTINUE None)
  | S_break_label d c t x tm n :
      tk t = BREAK → tk x = IDENTIFIER → ends x = false → parsedLiteral x ∈ labels_ c → terminated true tm n →
      statement (S d) c (t :: x :: tm) n (BranchStatement BREAK (Some (parsedLiteral x)))
  | S_continue_label d c t x tm n :
      tk t = CONTINUE → tk x = IDENTIFIER → ends x = false → parsedLiteral x ∈ labels_ c → loop c = true → terminated true tm n →
      statement (S d) c (t :: x :: tm) n (BranchStatement CONTINUE (Some (parsedLiteral x)))
  | S_label d c x k ts s n :
      tk x = IDENTIFIER → tk k = COLON → parsedLiteral x ∉ labels_ c → statement (S (S d)) (withLabel (parsedLiteral x) c) ts n s →
      statement (S (S (S d))) c (x :: k :: ts) n (LabelledStatement (parsedLiteral x) s)
  | S_throw d c t ts e tm n :
      tk t = THROW → ends (firstOf ts n) = false → derives d true Expression ts e → terminated true tm n → stops true (firstOf tm n) = true →
      statement (S d) c (t :: ts ++ tm) n (ThrowStatement e)
  | S_debugger d c t tm n : tk t = DEBUGGER → terminated true tm n → statement (S d) c (t :: tm) n DebuggerStatement
  | S_with d c t l ts e r ts1 s1 n :
      tk t = WITH → tk l = LEFT_PARENTHESIS → derives d true Expression ts e → tk r = RIGHT_PARENTHESIS → statement d (single c) ts1 n s1 →
      statement (S d) c (t :: l :: ts ++ r :: ts1) n (WithStatement e s1)
  | S_try d c t ts b ts1 ca ts2 fi n :
      tk t = TRY → block d c ts b → handler d c ts1 (firstOf ts2 n) ca → finalizer d c ts2 n fi → ca ≠ None ∨ fi ≠ None →
      statement (S d) c (t :: ts ++ ts1 ++ ts2) n (TryStatement b ca fi)
  | S_switch d c t l ts e r lb ts1 def cs n :
      tk t = SWITCH → tk l = LEFT_PARENTHESIS → derives d true Expression ts e → tk r = RIGHT_PARENTHESIS → tk lb = LEFT_BRACE →
      clauses d (inSwitch_ c) 0 (-1) ts1 def cs →
      statement (S d) c (t :: l :: ts ++ r :: lb :: ts1) n (SwitchStatement e def cs)
  | S_var d c t ts l tm n : tk t = VAR → bindings d true ts l → terminated true tm n → stopsBindings true l (firstOf tm n) = true →
      statement (S d) c (t :: ts ++ tm) n (VariableStatement l)
  | S_lexical d c t ts l tm n :
      tk t = LET ∨ tk t = CONST → declares c = true → bindings d true ts l → terminated true tm n → stopsBindings true l (firstOf tm n) = true →
      statement (S d) c (t :: ts ++ tm) n (LexicalDeclaration (tk t) l)
with block : nat → context → list tok → list stmt → Prop :=
  | S_braces d c lb ts l rb : tk lb = LEFT_BRACE → statements d (inList c) ts rb l → tk rb = RIGHT_BRACE → block d c (lb :: ts ++ [rb]) l
with statements : nat → context → list tok → tok → list stmt → Prop :=
  | S_nil d c n : statements d c [] n []
  | S_cons d c ts s ts' n l : statement d c ts (firstOf ts' n) s → statements d c ts' n l → statements d c (ts ++ ts') n (s :: l)
(** catch and finally, where they are. *)
with handler : nat → context → list tok → tok → option (option string * list stmt) → Prop :=
  | S_no_catch d c n : tk n ≠ CATCH → handler d c [] n None
  | S_catch d c t ts l n : tk t = CATCH → block d c ts l → handler d c (t :: ts) n (Some (None, l))
  | S_catch_name d c t lp x rp ts l n :
      tk t = CATCH → tk lp = LEFT_PARENTHESIS → tk x = IDENTIFIER → tk rp = RIGHT_PARENTHESIS → block d c ts l →
      handler d c (t :: lp :: x :: rp :: ts) n (Some (Some (parsedLiteral x), l))
with finalizer : nat → context → list tok → tok → option (list stmt) → Prop :=
  | S_no_finally d c n : tk n ≠ FINALLY → finalizer d c [] n None
  | S_finally d c t ts l n : tk t = FINALLY → block d c ts l → finalizer d c (t :: ts) n (Some l)
(** The clauses of a switch with the closing brace, from the clause [index], where
    [def] is the default clause so far; -1 for none. *)
with clauses : nat → context → Z → Z → list tok → Z → list (option expr * list stmt) → Prop :=
  | S_end d c index def rb : tk rb = RIGHT_BRACE → clauses d c index def [rb] def []
  | S_case d c index def t ts e k ts1 l ts2 def' cs :
      tk t = CASE → derives d true Expression ts e → tk k = COLON → statements d c ts1 (firstOf ts2 eofTok) l →
      clauses d c (index + 1) def ts2 def' cs →
      clauses d c index def (t :: ts ++ k :: ts1 ++ ts2) def' ((Some e, l) :: cs)
  | S_default d c index t k ts1 l ts2 def' cs :
      tk t = DEFAULT → tk k = COLON → statements d c ts1 (firstOf ts2 eofTok) l → clauses d c (index + 1) index ts2 def' cs →
      clauses d c index (-1) (t :: k :: ts1 ++ ts2) def' ((None, l) :: cs).

Scheme statement_mind := Minimality for statement Sort Prop
  with block_mind := Minimality for block Sort Prop
  with statements_mind := Minimality for statements Sort Prop
  with handler_mind := Minimality for handler Sort Prop
  with finalizer_mind := Minimality for finalizer Sort Prop
  with clauses_mind := Minimality for clauses Sort Prop.
Combined Scheme statement_grammar_mind from statement_mind, block_mind, statements_mind, handler_mind, finalizer_mind, clauses_mind.
End ParserGrammar.
