(* ===== verification/ParserCorrect.v ===== *)
(** * The parser accepts the expressions of the grammar

    For every derivation of the grammar the parser returns the tree of the
    derivation and stops after its tokens, provided that the next token does not
    continue the expression.  The proof follows the derivation; a left-recursive
    category corresponds to a loop of the parser, so that its statement is about
    the loop that goes on with the expression parsed so far. *)

From S2P Require Import Prelude Parser ParserGrammar.
From stdpp Require Import strings.
Import Parser ParserGrammar.
Open Scope Z_scope.

Module ParserCorrect.

(** ** Running with enough fuel *)

(** An open computation: the recursive calls are a parameter. *)
Definition open (A : Type) : Type := (∀ B, call B → P B) → P A.

Definition runs {A} (F : open A) (s : pstate) (r : res A) : Prop := ∃ n, ∀ m, (n ≤ m)%nat → F (@parse m) s = r.

Lemma runs_eq {A} (F : open A) s r : (∀ rec, F rec s = r) → runs F s r.
Proof. intros H. exists 0%nat. intros m _. apply H. Qed.

Lemma runs_ret {A} (a : A) s : runs (λ _, mret a) s (Ok a s).
Proof. by apply runs_eq. Qed.

Lemma runs_bind {A B} (F : open A) (K : A → open B) s a s' r :
  runs F s (Ok a s') → runs (K a) s' r → runs (λ rec, F rec ≫= λ a, K a rec) s r.
Proof.
  intros [n Hn] [m Hm]. exists (n `max` m)%nat. intros k Hk. unfold mbind, P_bind. rewrite Hn by lia. apply Hm. lia.
Qed.

(** A step that makes no recursive call. *)
Lemma runs_step {A B} (f : P A) (K : A → open B) s a s' r :
  f s = Ok a s' → runs (K a) s' r → runs (λ rec, f ≫= λ a, K a rec) s r.
Proof. intros Hf HK. apply (runs_bind (λ _, f) K s a s'); [by apply runs_eq|done]. Qed.

Lemma runs_call {A} (c : call A) s r : runs (λ rec, body rec c) s r → runs (λ rec, rec A c) s r.
Proof. intros [n Hn]. exists (S n). intros [|m] Hm; [lia|]. apply Hn. lia. Qed.

Lemma runs_nesting {A} (F : open A) s a s' :
  (S (depth s) ≤ maxNestingDepth)%nat →
  runs F (St (cur s) (rest s) (insertSemicolon s) (implicitSemicolon s) (scope_ s) (S (depth s))) (Ok a s') →
  runs (λ rec, nesting (F rec)) s (Ok a (St (cur s') (rest s') (insertSemicolon s') (implicitSemicolon s') (scope_ s') (depth s))).
Proof.
  intros Hd [n Hn]. exists n. intros m Hm. unfold nesting. rewrite (proj2 (Nat.ltb_ge _ _)) by lia. by rewrite Hn.
Qed.

(** ** States *)

Definition toksOf (s : pstate) : list tok := cur s :: rest s.

(** The tokens after which insertSemicolon is set. *)
Definition ending (t : Token) : bool := insertAfter t false.

Record Start (s : pstate) (ts : list tok) : Prop := {
  start_toks : toksOf s = ts;
  start_ins : ending (tk (cur s)) = true → insertSemicolon s = true;
}.

(** The state at the tokens [r] after a token that may end a statement. *)
Definition after (s : pstate) (r : list tok) : pstate :=
  match r with
  | [] => s
  | t :: r => St t r (insertAfter (tk t) (negb (newline t) && negb (commentNewline t))) (ends t) (scope_ s) (depth s)
  end.

Lemma insertAfter_true t b : ending t = true → insertAfter t b = true.
Proof. unfold ending, insertAfter. destruct (isOneOf t _); [done|]. by destruct (IsId t). Qed.

Lemma after_start s r : r ≠ [] → Start (after s r) r.
Proof. destruct r as [|t r]; [done|]. intros _. split; [done|]. apply insertAfter_true. Qed.

Lemma after_after s r r' : r' ≠ [] → after (after s r) r' = after s r'.
Proof. by destruct r as [|t r], r' as [|t' r']. Qed.

Lemma after_scope s r : scope_ (after s r) = scope_ s.
Proof. by destruct r. Qed.
Lemma after_depth s r : depth (after s r) = depth s.
Proof. by destruct r. Qed.

(** next *)
Definition nextSt (s : pstate) : pstate := match next s with Ok _ s' => s' | _ => s end.
Lemma next_eq s : next s = Ok () (nextSt s).
Proof. unfold nextSt, next. by destruct (rest s). Qed.

Lemma nextSt_start s t u ts : Start s (t :: u :: ts) → Start (nextSt s) (u :: ts).
Proof.
  intros [Ht _]. unfold toksOf in Ht. injection Ht as Hc Hr. unfold nextSt, next. rewrite Hr. split; [done|]. cbn. apply insertAfter_true.
Qed.
Lemma nextSt_scope s : scope_ (nextSt s) = scope_ s.
Proof. unfold nextSt, next. by destruct (rest s). Qed.
Lemma nextSt_depth s : depth (nextSt s) = depth s.
Proof. unfold nextSt, next. by destruct (rest s). Qed.

Lemma nextSt_after s t u ts : toksOf s = t :: u :: ts → insertSemicolon s = true → nextSt s = after s (u :: ts).
Proof.
  intros Ht Hi. unfold toksOf in Ht. injection Ht as Hc Hr. unfold nextSt, next. rewrite Hr, Hi. cbn. unfold ends. f_equal.
  by destruct (newline u), (commentNewline u), (teq (tk u) EOF).
Qed.

Lemma nextSt_ending s t u ts : Start s (t :: u :: ts) → ending (tk t) = true → nextSt s = after s (u :: ts).
Proof.
  intros [Ht Hi] He. eapply nextSt_after; [exact Ht|]. apply Hi. unfold toksOf in Ht. by injection Ht as -> _.
Qed.

Lemma Start_cur s t ts : Start s (t :: ts) → cur s = t.
Proof. intros [Ht _]. unfold toksOf in Ht. by injection Ht. Qed.
Lemma Start_rest s t ts : Start s (t :: ts) → rest s = ts.
Proof. intros [Ht _]. unfold toksOf in Ht. by injection Ht. Qed.

Lemma token_eq s t ts : Start s (t :: ts) → token s = Ok (tk t) s.
Proof. intros Hs. unfold token. by rewrite (Start_cur _ _ _ Hs). Qed.
Lemma curTok_eq s t ts : Start s (t :: ts) → curTok s = Ok t s.
Proof. intros Hs. unfold curTok. by rewrite (Start_cur _ _ _ Hs). Qed.

Lemma teq_refl t : teq t t = true.
Proof. apply Nat.eqb_refl. Qed.
Lemma teq_eq a b : teq a b = true ↔ a = b.
Proof.
  unfold teq. rewrite Nat.eqb_eq. split; [|by intros ->]. intros E. pose proof (tokens_num a) as Ha. rewrite E, tokens_num in Ha. congruence.
Qed.
Lemma teq_ne a b : a ≠ b → teq a b = false.
Proof. intros H. apply not_true_iff_false. by rewrite teq_eq. Qed.

Lemma expect_eq s t u ts k : Start s (t :: u :: ts) → tk t = k → expect k s = Ok () (nextSt s).
Proof.
  intros Hs Hk. unfold expect, mbind, P_bind. rewrite (token_eq _ _ _ Hs), Hk, teq_refl. apply next_eq.
Qed.

(** ** The statements *)

Record Pre (d : nat) (i : bool) (s : pstate) (ts r : list tok) : Prop := {
  pre_start : Start s (ts ++ r);
  pre_rest : r ≠ [];
  pre_depth : (depth s + d ≤ maxNestingDepth)%nat;
  pre_in : allowIn (scope_ s) = i;
}.

Definition headRank (i : bool) (r : list tok) : nat := match r with t :: _ => tokRank i t | [] => 0 end.
Definition headIs (r : list tok) (k : Token) : Prop := match r with t :: _ => tk t = k | [] => False end.

(** The computation returns the tree and stops before [r], a token above the rank. *)
Definition Parses (F : open expr) (d : nat) (i : bool) (ts : list tok) (e : expr) (rk : nat) : Prop :=
  ∀ s r, Pre d i s ts r → (rk < headRank i r)%nat → runs F s (Ok e (after s r)).

(** It goes on as the loop does after the tree. *)
Definition Loops (F : open expr) (L : expr → open expr) (d : nat) (i : bool) (ts : list tok) (e : expr) (rk : nat) : Prop :=
  ∀ s r R, Pre d i s ts r → (rk ≤ headRank i r)%nat → runs (L e) (after s r) R → runs F s R.

Definition callOf {A} (c : call A) : open A := λ rec, rec A c.

(** The two loops that follow the start of a left-hand side. *)
Inductive suffixLoop := MemberLoop | CallLoop (optional : bool).
Definition suffix (k : suffixLoop) (e : expr) : open expr :=
  match k with MemberLoop => callOf (CMemberLoop e) | CallLoop o => callOf (CCallLoop e o) end.
Definition startThen (k : suffixLoop) : open expr := λ rec, e ← leftHandSideStart rec; suffix k e rec.

Definition setIn (b : bool) (s : pstate) : pstate :=
  St (cur s) (rest s) (insertSemicolon s) (implicitSemicolon s) (withAllowIn b (scope_ s)) (depth s).

Definition Good (d : nat) (i : bool) (c : cat) (ts : list tok) (e : expr) : Prop :=
  match c with
  | Expression => Parses (callOf CExpression) d i ts e 18
  | Assignment => Parses (callOf CAssignment) d i ts e 17
  | Conditional => Parses (callOf CConditional) d i ts e 17
  | ShortCircuit => Parses (callOf CLogicalOr) d i ts e 15
  | LogicalOr =>
      Parses (callOf CLogicalOr) d i ts e 15 ∧
      ∀ s r R, Pre d i s ts r → headIs r LOGICAL_OR → runs (callOf (COrLoop e)) (after s r) R → runs (callOf CLogicalOr) s R
  | CoalesceExpr =>
      ∀ s r R, Pre d i s ts r → headIs r COALESCE ∨ (15 < headRank i r)%nat → runs (callOf (CCoalesceLoop e)) (after s r) R →
               runs (callOf CLogicalOr) s R
  | Binary l => Loops (callOf (CBinary l)) (λ e, callOf (CBinaryLoop l e)) d i ts e (levelRank l)
  | Relational =>
      ∀ s r e' s', Pre d i s ts r → (9 ≤ headRank i r)%nat →
        runs (callOf (CRelationalLoop i e)) (setIn true (after s r)) (Ok e' s') → runs (callOf CRelational) s (Ok e' (setIn i s'))
  | Exponentiation => Parses (callOf CExponentiation) d i ts e 5
  | Unary => Parses (callOf CUnary) d i ts e 4
  | Update => Parses (callOf CUpdate) d i ts e 3
  | LeftHandSide => Parses (callOf CLeftHandSideAllowCall) d i ts e 2
  | NewExpr => i = true → ∀ k, k ≠ CallLoop true → Parses (startThen k) d true ts e 2
  | Chain Member => i = true → ∀ k, Loops (startThen k) (suffix k) d true ts e 0
  | Chain Call => i = true → Loops (startThen (CallLoop false)) (suffix (CallLoop false)) d true ts e 0
  | Chain OptionalExpr => i = true → Loops (startThen (CallLoop false)) (suffix (CallLoop true)) d true ts e 0
  | Primary => i = true → Parses (callOf CPrimary) d true ts e 0
  end.

(** ** The first token of an expression *)

Definition starter (t : Token) : bool :=
  isOneOf t ([IDENTIFIER; NULL; BOOLEAN; STRING; NUMBER; THIS; LEFT_PARENTHESIS; LEFT_BRACKET; LEFT_BRACE; NEW; INCREMENT; DECREMENT] ++ unaryOps).

Definition Starts (ts : list tok) : Prop := ∃ t ts', ts = t :: ts' ∧ starter (tk t) = true.

Lemma Starts_app ts ts' : Starts ts → Starts (ts ++ ts').
Proof. intros (t & u & -> & H). by exists t, (u ++ ts'). Qed.

Lemma Starts_cons t ts k : tk t = k → starter k = true → Starts (t :: ts).
Proof. intros <- H. by exists t, ts. Qed.

Lemma isOneOf_In t l : isOneOf t l = true ↔ t ∈ l.
Proof.
  unfold isOneOf. rewrite existsb_exists. split.
  - intros (x & Hx & ->%teq_eq). by apply list_elem_of_In.
  - intros Ht. exists t. split; [by apply list_elem_of_In|apply teq_refl].
Qed.

Lemma unaryOps_starter t : isOneOf t unaryOps = true → starter t = true.
Proof. intros Ht%isOneOf_In. apply isOneOf_In. set_solver. Qed.

Lemma atom_starter t e : atom t = Some e → starter (tk t) = true ∧ ending (tk t) = true.
Proof. unfold atom. by destruct (tk t). Qed.

Lemma derives_starts d i c ts e : derives d i c ts e → Starts ts
with sequence_starts d i ts es : sequence d i ts es → Starts ts.
Proof.
  - destruct 1; try (by eapply derives_starts); try (by eapply Starts_app, derives_starts); try (by eapply sequence_starts);
      try (by eapply Starts_cons).
    + eexists _, _. split; [done|]. by apply unaryOps_starter.
    + eexists _, _. split; [done|]. destruct H as [-> | ->]; done.
    + eexists _, _. split; [done|]. by eapply atom_starter.
  - destruct 1; [by eapply derives_starts|by eapply Starts_app, derives_starts].
Qed.

Lemma startsWithParen_app ts ts' : Starts ts → startsWithParen (ts ++ ts') = startsWithParen ts.
Proof. by intros (t & u & -> & _). Qed.

(** An && expression, or a prefix operator, where the grammar has tighter
    categories only, is in parentheses. *)
Lemma derives_paren d i c ts e :
  derives d i c ts e →
  ((rank c ≤ 13)%nat → isLogicalAndExpr e = true → startsWithParen ts = true) ∧
  ((rank c ≤ 3)%nat → isUnaryOperator e = true → startsWithParen ts = true).
Proof.
  induction 1; cbn [rank levelRank isLogicalAndExpr isUnaryOperator] in *; (split; intros Hr He); try done; try lia;
    try (apply (proj1 IHderives); [first [lia|destruct l; cbn in *; lia]|done]);
    try (apply (proj2 IHderives); [first [lia|destruct l; cbn in *; lia]|done]).
  - apply teq_eq in He. rewrite He in H0. destruct l; cbn in *; try done; lia.
  - apply teq_eq in He. rewrite He in H0. by destruct i.
  - by destruct H as [E|E]; rewrite E in He.
  - by destruct H1 as [E|E]; rewrite E in He.
  - unfold atom in H. repeat (case_match; try done); by injection H as <-.
  - unfold atom in H. repeat (case_match; try done); by injection H as <-.
  - cbn. by rewrite H, teq_refl.
  - cbn. by rewrite H, teq_refl.
Qed.

(** ** Moving through the tokens *)

Lemma Pre_app d i s ts1 t ts2 r : Pre d i s (ts1 ++ t :: ts2) r → Pre d i s ts1 (t :: ts2 ++ r).
Proof. intros [H1 H2 H3 H4]. split; [by rewrite <- app_assoc in H1|done..]. Qed.

Lemma Pre_next d i s t ts r : Pre d i s (t :: ts) r → Pre d i (nextSt s) ts r.
Proof.
  intros [H1 H2 H3 H4]. split; [|done|by rewrite nextSt_depth|by rewrite nextSt_scope].
  destruct (ts ++ r) as [|u v] eqn:E; [by apply app_nil in E as [_ ->]|]. cbn in H1. rewrite E in H1. by eapply nextSt_start.
Qed.

Lemma Pre_after d i s ts t ts' r : Pre d i s ts (t :: ts' ++ r) → r ≠ [] → Pre d i (after s (t :: ts' ++ r)) (t :: ts') r.
Proof. intros [H1 H2 H3 H4] Hr. split; [by apply after_start|done|by rewrite after_depth|by rewrite after_scope]. Qed.

Lemma after_same s s' r : scope_ s = scope_ s' → depth s = depth s' → r ≠ [] → after s r = after s' r.
Proof. destruct r as [|t r]; [done|]. cbn. by intros -> ->. Qed.

Lemma after_nextSt s r : r ≠ [] → after (nextSt s) r = after s r.
Proof. apply after_same; [apply nextSt_scope|apply nextSt_depth]. Qed.

Lemma Pre_token d i s t ts r : Pre d i s (t :: ts) r → token s = Ok (tk t) s.
Proof. intros [H _ _ _]. by eapply token_eq. Qed.

Lemma after_token s t r : token (after s (t :: r)) = Ok (tk t) (after s (t :: r)).
Proof. done. Qed.

(** A recursive call first, and a step of the state first. *)
Ltac rcall := apply runs_call; cbn [body].
Ltac rnext := eapply runs_step; [apply next_eq|].
Ltac rtok := eapply runs_step; [first [eapply Pre_token; eassumption | eapply token_eq; eassumption | apply after_token]|].

(** ** Binary operators *)

Lemma operators_rank i l t : isOneOf (tk t) (operators l) = true → tokRank i t = levelRank l.
Proof. intros Ht%isOneOf_In. unfold tokRank. destruct l; cbn in Ht; set_unfold; by repeat (destruct Ht as [-> | Ht]; [done|]). Qed.

Lemma operand_rank l : (rank (operandCat l) < levelRank l)%nat.
Proof. destruct l; cbn; lia. Qed.

Lemma binaryLoop_stop l e i s r : Start s r → r ≠ [] → (levelRank l < headRank i r)%nat → runs (callOf (CBinaryLoop l e)) s (Ok e s).
Proof.
  intros Hs Hr Hk. destruct r as [|t r]; [done|]. rcall. unfold binaryLoop. rtok.
  destruct (isOneOf (tk t) (operators l)) eqn:E; [|apply runs_ret]. cbn in Hk. rewrite (operators_rank i l t E) in Hk. lia.
Qed.

Lemma relational_rank t i : isOneOf (tk t) relationalOps || (teq (tk t) IN && i) = true → tokRank i t = 9%nat.
Proof.
  intros [Ht%isOneOf_In|[Ht%teq_eq ->]%andb_prop]%orb_true_iff; unfold tokRank; [|by rewrite Ht].
  set_unfold. by repeat (destruct Ht as [-> | Ht]; [done|]).
Qed.

Lemma relationalLoop_stop e i s r : Start s r → r ≠ [] → (9 < headRank i r)%nat → runs (callOf (CRelationalLoop i e)) s (Ok e s).
Proof.
  intros Hs Hr Hk. destruct r as [|t r]; [done|]. rcall. unfold relationalLoop. rtok.
  destruct (isOneOf (tk t) relationalOps || (teq (tk t) IN && i)) eqn:E; [|apply runs_ret]. cbn in Hk. rewrite (relational_rank t i E) in Hk. lia.
Qed.

Lemma setIn_same s : setIn (allowIn (scope_ s)) s = s.
Proof. by destruct s as [? ? ? ? [] ?]. Qed.
Lemma setIn_setIn a b s : setIn a (setIn b s) = setIn a s.
Proof. done. Qed.
Lemma setIn_after b s r : r ≠ [] → after (setIn b s) r = setIn b (after s r).
Proof. by destruct r. Qed.

Lemma Good_binary_parses d i l ts e : Good d i (Binary l) ts e → Parses (callOf (CBinary l)) d i ts e (levelRank l).
Proof.
  intros HG s r Hp Hk. apply (HG s r); [done|lia|]. pose proof (pre_rest _ _ _ _ _ Hp).
  eapply binaryLoop_stop; [by apply after_start|done..].
Qed.

Lemma Good_relational_parses d i ts e : Good d i Relational ts e → Parses (callOf CRelational) d i ts e 9.
Proof.
  intros HG s r Hp Hk. pose proof (pre_rest _ _ _ _ _ Hp) as Hr. pose proof (pre_in _ _ _ _ _ Hp) as Hi.
  assert (after s r = setIn i (setIn true (after s r))) as ->.
  { rewrite setIn_setIn, <- Hi. rewrite <- (after_scope s r). by rewrite setIn_same. }
  apply (HG s r); [done|lia|]. rewrite <- setIn_after by done.
  eapply relationalLoop_stop; [by apply after_start|done..].
Qed.

Lemma Good_operand_parses d i l ts e : Good d i (operandCat l) ts e → Parses (callOf (operand l)) d i ts e (rank (operandCat l)).
Proof. destruct l; cbn [operandCat operand rank]; try apply Good_binary_parses; [done|apply Good_relational_parses]. Qed.

Lemma Good_operand d i l ts e : Good d i (operandCat l) ts e → Good d i (Binary l) ts e.
Proof.
  intros HG%Good_operand_parses s r R Hp Hk HL. rcall.
  assert (∀ rec, parseBinary rec l = binaryExpression rec l) as Hb by by destruct l.
  assert (runs (λ rec, binaryExpression rec l) s R) as Hrun; [|destruct Hrun as [n Hn]; exists n; intros m Hm; rewrite Hb; by apply Hn].
  unfold binaryExpression. eapply (runs_bind (callOf (operand l))); [apply HG; [done|]|exact HL]. pose proof (operand_rank l). lia.
Qed.

Lemma Good_binary d i l ts1 e1 op ts2 e2 :
  Good d i (Binary l) ts1 e1 → isOneOf (tk op) (operators l) = true → Good d i (operandCat l) ts2 e2 →
  Good d i (Binary l) (ts1 ++ op :: ts2) (BinaryExpression (tk op) e1 e2).
Proof.
  intros H1 Hop H2%Good_operand_parses s r R Hp Hk HL. pose proof (pre_rest _ _ _ _ _ Hp) as Hr. apply Pre_app in Hp.
  apply (H1 s _ _ Hp); [cbn; by rewrite (operators_rank i l op Hop)|]. apply Pre_after in Hp; [|done].
  rcall. unfold binaryLoop. rtok. rewrite Hop. rnext. apply Pre_next in Hp.
  eapply (runs_bind (callOf (operand l))); [apply H2; [done|]; pose proof (operand_rank l); lia|].
  by rewrite after_nextSt, after_after.
Qed.

Lemma modifyScope_in b s : modifyScope (withAllowIn b) s = Ok () (setIn b s).
Proof. done. Qed.

Lemma starter_not s ts k : Start s ts → Starts ts → starter k = false → teq (tk (cur s)) k = false.
Proof.
  intros Hs (t & u & -> & Ht) Hk. rewrite (Start_cur _ _ _ Hs). apply teq_ne. intros E. by rewrite E, Hk in Ht.
Qed.

Lemma Good_shift d i ts e : Starts ts → Good d i (Binary Shift) ts e → Good d i Relational ts e.
Proof.
  intros Hst HG%Good_binary_parses s r e' s' Hp Hk HL. pose proof (pre_in _ _ _ _ _ Hp) as Hi. pose proof (pre_start _ _ _ _ _ Hp) as Hs.
  rcall. unfold parseRelationalExpression. eapply runs_step; [done|]. rewrite Hi.
  rewrite (starter_not s (ts ++ r) PRIVATE_IDENTIFIER Hs) by (done || by apply Starts_app). rewrite andb_false_r.
  eapply (runs_bind (callOf (CBinary Shift))); [apply HG; [done|cbn; lia]|]. eapply runs_step; [apply modifyScope_in|].
  eapply (runs_bind (callOf (CRelationalLoop i e))); [exact HL|]. eapply runs_step; [apply modifyScope_in|]. apply runs_ret.
Qed.

Lemma Pre_in d i b s ts r : Pre d i s ts r → Pre d b (setIn b s) ts r.
Proof. intros [[H1 H1'] H2 H3 H4]. by split. Qed.

Lemma Good_relational d i ts1 e1 op ts2 e2 :
  Good d i Relational ts1 e1 → isOneOf (tk op) relationalOps || (teq (tk op) IN && i) = true → Good d true (Binary Shift) ts2 e2 →
  Good d i Relational (ts1 ++ op :: ts2) (BinaryExpression (tk op) e1 e2).
Proof.
  intros H1 Hop H2%Good_binary_parses s r e' s' Hp Hk HL. pose proof (pre_rest _ _ _ _ _ Hp) as Hr. apply Pre_app in Hp.
  apply (H1 s _ _ _ Hp); [cbn; by rewrite (relational_rank op i Hop)|]. apply Pre_after in Hp; [|done]. apply (Pre_in _ _ true) in Hp.
  rcall. unfold relationalLoop. rtok. rewrite Hop. rnext. apply Pre_next in Hp.
  eapply (runs_bind (callOf (CBinary Shift))).
  - apply H2; [done|]. destruct r as [|t r]; [done|]. cbn in *. unfold tokRank in *. destruct i; [lia|]. destruct (tk t); cbn in *; lia.
  - rewrite after_nextSt, setIn_after, after_after by done. exact HL.
Qed.

(** ** || and ?? *)

Lemma orLoop_stop e i s r : Start s r → r ≠ [] → (15 < headRank i r)%nat → runs (callOf (COrLoop e)) s (Ok e s).
Proof.
  intros Hs Hr Hk. destruct r as [|t r]; [done|]. rcall. unfold orLoop. rtok. cbn in Hk. unfold tokRank in Hk.
  destruct (tk t); try apply runs_ret; lia.
Qed.

Lemma coalesceLoop_stop e i s r : Start s r → r ≠ [] → (15 < headRank i r)%nat → runs (callOf (CCoalesceLoop e)) s (Ok e s).
Proof.
  intros Hs Hr Hk. destruct r as [|t r]; [done|]. rcall. unfold coalesceLoop. rtok. cbn in Hk. unfold tokRank in Hk.
  destruct (tk t); try apply runs_ret; lia.
Qed.

Lemma Pre_first d i s ts r : Starts ts → Pre d i s ts r → teq (tk (cur s)) LEFT_PARENTHESIS = startsWithParen ts ∧ token s = Ok (tk (cur s)) s.
Proof. intros (t & u & -> & _) [Hs _ _ _]. cbn in Hs. split; [|done]. by rewrite (Start_cur _ _ _ Hs). Qed.

Lemma headIs_cons r k : headIs r k → ∃ t r', r = t :: r' ∧ tk t = k.
Proof. destruct r as [|t r]; [done|]. intros H. by exists t, r. Qed.

Lemma Good_or_and d i ts e : Starts ts → Good d i (Binary LogicalAnd) ts e → Good d i LogicalOr ts e.
Proof.
  intros Hst HG%Good_binary_parses. split.
  - intros s r Hp Hk. pose proof (pre_rest _ _ _ _ _ Hp) as Hr. destruct (Pre_first _ _ _ _ _ Hst Hp) as [Hf Ht].
    rcall. unfold parseLogicalOrExpression. eapply runs_step; [exact Ht|]. eapply (runs_bind (callOf (CBinary LogicalAnd))); [apply HG; [done|cbn; lia]|].
    destruct r as [|t r]; [done|]. rtok. destruct (_ || _).
    + by eapply orLoop_stop; [apply after_start|..].
    + by eapply coalesceLoop_stop; [apply after_start|..].
  - intros s r R Hp (t & r' & -> & Hor)%headIs_cons HL. destruct (Pre_first _ _ _ _ _ Hst Hp) as [Hf Ht].
    rcall. unfold parseLogicalOrExpression. eapply runs_step; [exact Ht|].
    eapply (runs_bind (callOf (CBinary LogicalAnd))); [apply HG; [done|cbn; unfold tokRank; rewrite Hor; lia]|]. rtok. rewrite Hor. exact HL.
Qed.

(** One more operand in the loop of ||. *)
Lemma orLoop_step d i s e1 op ts2 e2 r R :
  Good d i (Binary LogicalAnd) ts2 e2 → tk op = LOGICAL_OR → Pre d i s (op :: ts2) r → (14 < headRank i r)%nat →
  runs (callOf (COrLoop (BinaryExpression LOGICAL_OR e1 e2))) (after s r) R → runs (callOf (COrLoop e1)) s R.
Proof.
  intros H2%Good_binary_parses Hop Hp Hk HL. rcall. unfold orLoop. rtok. rewrite Hop. rnext. pose proof (pre_rest _ _ _ _ _ Hp). apply Pre_next in Hp.
  eapply (runs_bind (callOf (CBinary LogicalAnd))); [by apply H2|]. by rewrite after_nextSt.
Qed.

Lemma Good_or_op d i ts1 e1 op ts2 e2 :
  Good d i LogicalOr ts1 e1 → tk op = LOGICAL_OR → Good d i (Binary LogicalAnd) ts2 e2 →
  Good d i LogicalOr (ts1 ++ op :: ts2) (BinaryExpression LOGICAL_OR e1 e2).
Proof.
  intros [_ H1] Hop H2. split.
  - intros s r Hp Hk. pose proof (pre_rest _ _ _ _ _ Hp) as Hr. apply Pre_app in Hp. apply (H1 s _ _ Hp); [done|]. apply Pre_after in Hp; [|done].
    eapply orLoop_step; [done..|lia|]. rewrite after_after by done. by eapply orLoop_stop; [apply after_start|..].
  - intros s r R Hp Hh HL. pose proof (pre_rest _ _ _ _ _ Hp) as Hr. apply Pre_app in Hp. apply (H1 s _ _ Hp); [done|]. apply Pre_after in Hp; [|done].
    eapply orLoop_step; [done..| |by rewrite after_after]. destruct r as [|t r]; [done|]. cbn in *. unfold tokRank. rewrite Hh. lia.
Qed.

Lemma coalesceLoop_step d i s e1 op ts2 e2 r R :
  derives d i (Binary BitwiseOr) ts2 e2 → Good d i (Binary BitwiseOr) ts2 e2 → tk op = COALESCE → Pre d i s (op :: ts2) r → (14 < headRank i r)%nat →
  runs (callOf (CCoalesceLoop (BinaryExpression COALESCE e1 e2))) (after s r) R → runs (callOf (CCoalesceLoop e1)) s R.
Proof.
  intros HD H2%(Good_operand _ _ LogicalAnd)%Good_binary_parses Hop Hp Hk HL. pose proof (pre_rest _ _ _ _ _ Hp) as Hr.
  rcall. unfold coalesceLoop. rtok. rewrite Hop. rnext. apply Pre_next in Hp. destruct (Pre_first _ _ _ _ _ (derives_starts _ _ _ _ _ HD) Hp) as [Hf Ht].
  eapply runs_step; [exact Ht|]. eapply (runs_bind (callOf (CBinary LogicalAnd))); [by apply H2|]. rewrite Hf.
  assert (negb (startsWithParen ts2) && isLogicalAndExpr e2 = false) as ->; [|by rewrite after_nextSt].
  destruct (isLogicalAndExpr e2) eqn:E; [|apply andb_false_r]. rewrite (proj1 (derives_paren _ _ _ _ _ HD)); [done|cbn; lia|done].
Qed.

Lemma Good_coalesce_first d i ts1 e1 op ts2 e2 :
  derives d i (Binary BitwiseOr) ts1 e1 → derives d i (Binary BitwiseOr) ts2 e2 →
  Good d i (Binary BitwiseOr) ts1 e1 → tk op = COALESCE → Good d i (Binary BitwiseOr) ts2 e2 →
  Good d i CoalesceExpr (ts1 ++ op :: ts2) (BinaryExpression COALESCE e1 e2).
Proof.
  intros D1 D2 H1%(Good_operand _ _ LogicalAnd)%Good_binary_parses Hop H2 s r R Hp Hh HL. pose proof (pre_rest _ _ _ _ _ Hp) as Hr. apply Pre_app in Hp.
  destruct (Pre_first _ _ _ _ _ (derives_starts _ _ _ _ _ D1) Hp) as [Hf Ht].
  rcall. unfold parseLogicalOrExpression. eapply runs_step; [exact Ht|].
  eapply (runs_bind (callOf (CBinary LogicalAnd))); [apply H1; [done|cbn; unfold tokRank; rewrite Hop; lia]|]. rtok. rewrite Hop, Hf.
  assert (negb (startsWithParen ts1) && isLogicalAndExpr e1 = false) as ->.
  { destruct (isLogicalAndExpr e1) eqn:E; [|apply andb_false_r]. rewrite (proj1 (derives_paren _ _ _ _ _ D1)); [done|cbn; lia|done]. }
  cbn [orb]. apply Pre_after in Hp; [|done]. eapply coalesceLoop_step; [done..| |by rewrite after_after].
  destruct r as [|t r]; [done|]. cbn in *. unfold tokRank in *. destruct Hh as [-> |]; lia.
Qed.

Lemma Good_coalesce_op d i ts1 e1 op ts2 e2 :
  derives d i (Binary BitwiseOr) ts2 e2 → Good d i CoalesceExpr ts1 e1 → tk op = COALESCE → Good d i (Binary BitwiseOr) ts2 e2 →
  Good d i CoalesceExpr (ts1 ++ op :: ts2) (BinaryExpression COALESCE e1 e2).
Proof.
  intros D2 H1 Hop H2 s r R Hp Hh HL. pose proof (pre_rest _ _ _ _ _ Hp) as Hr. apply Pre_app in Hp.
  apply (H1 s _ _ Hp); [by left|]. apply Pre_after in Hp; [|done]. eapply coalesceLoop_step; [done..| |by rewrite after_after].
  destruct r as [|t r]; [done|]. cbn in *. unfold tokRank in *. destruct Hh as [-> |]; lia.
Qed.

Lemma Good_coalesce d i ts e : Good d i CoalesceExpr ts e → Good d i ShortCircuit ts e.
Proof.
  intros HG s r Hp Hk. pose proof (pre_rest _ _ _ _ _ Hp) as Hr. apply (HG s r _ Hp); [by right|].
  by eapply coalesceLoop_stop; [apply after_start|..].
Qed.

(** ** Conditional and assignment *)

(** The first token after a parse that stopped at a rank is not of a lower one. *)
Lemma head_teq i r k n : (n < headRank i r)%nat → (∀ t, tk t = k → tokRank i t ≤ n)%nat → match r with t :: _ => teq (tk t) k | [] => false end = false.
Proof.
  intros Hk Ht. destruct r as [|t r]; [done|]. apply teq_ne. intros E. cbn in Hk. specialize (Ht t E). lia.
Qed.

Lemma Good_conditional_parses d i ts e : Good d i ShortCircuit ts e → Parses (callOf CConditional) d i ts e 16.
Proof.
  intros HG s r Hp Hk. pose proof (pre_rest _ _ _ _ _ Hp) as Hr. rcall. unfold parseConditionalExpression.
  eapply (runs_bind (callOf CLogicalOr)); [apply HG; [done|lia]|]. pose proof (head_teq i r QUESTION_MARK 16 Hk) as Hq.
  destruct r as [|t r]; [done|]. rtok. rewrite Hq; [apply runs_ret|]. intros u E. unfold tokRank. rewrite E. lia.
Qed.

Lemma Parses_mono F d i ts e n m : (n ≤ m)%nat → Parses F d i ts e n → Parses F d i ts e m.
Proof. intros Hn HF s r Hp Hk. apply HF; [done|lia]. Qed.

Lemma Good_shortCircuit d i ts e : Good d i ShortCircuit ts e → Good d i Conditional ts e.
Proof. intros HG%Good_conditional_parses. eapply Parses_mono; [|done]. lia. Qed.

Lemma expect_step {B} (K : unit → open B) d i s t ts r k R :
  Pre d i s (t :: ts) r → tk t = k → runs (K ()) (nextSt s) R → runs (λ rec, expect k ≫= λ a, K a rec) s R.
Proof.
  intros [Hs Hr _ _] Hk HK. eapply runs_step; [|exact HK]. cbn in Hs. destruct (ts ++ r) as [|u v] eqn:E; [by apply app_nil in E as [_ ->]|].
  by eapply expect_eq.
Qed.

Lemma colon_rank i c : tk c = COLON → tokRank i c = 99%nat.
Proof. unfold tokRank. by intros ->. Qed.

Lemma Good_question d i ts1 e1 q ts2 e2 c ts3 e3 :
  Good d i ShortCircuit ts1 e1 → tk q = QUESTION_MARK → Good d true Assignment ts2 e2 → tk c = COLON → Good d i Assignment ts3 e3 →
  Good d i Conditional (ts1 ++ q :: ts2 ++ c :: ts3) (ConditionalExpression e1 e2 e3).
Proof.
  intros H1 Hq H2 Hc H3 s r Hp Hk. pose proof (pre_rest _ _ _ _ _ Hp) as Hr. pose proof (pre_in _ _ _ _ _ Hp) as Hi. apply Pre_app in Hp.
  rcall. unfold parseConditionalExpression. eapply (runs_bind (callOf CLogicalOr)); [apply H1; [done|cbn; unfold tokRank; rewrite Hq; lia]|].
  apply Pre_after in Hp; [|done]. rtok. rewrite Hq. cbn [teq tokNum Nat.eqb]. rnext. apply Pre_next, Pre_app in Hp. eapply runs_step; [done|].
  eapply runs_step; [apply modifyScope_in|]. eapply (runs_bind (callOf CAssignment)).
  { apply H2; [by apply (Pre_in _ i true)|]. cbn. rewrite (colon_rank _ _ Hc). lia. }
  eapply runs_step; [apply modifyScope_in|]. rewrite setIn_after by done. rewrite setIn_setIn, nextSt_scope, after_scope, Hi.
  assert (setIn i (after (nextSt (after s (q :: (ts2 ++ c :: ts3) ++ r))) (c :: ts3 ++ r)) = after s (c :: ts3 ++ r)) as ->.
  { rewrite after_nextSt, after_after by done. rewrite <- Hi, <- (after_scope s (c :: ts3 ++ r)). apply setIn_same. }
  assert (Pre d i (after s (c :: ts3 ++ r)) (c :: ts3) r) as Hp2.
  { split; [by apply after_start|done| |by rewrite after_scope]. rewrite after_depth. pose proof (pre_depth _ _ _ _ _ Hp) as Hd.
    by rewrite nextSt_depth, after_depth in Hd. }
  eapply expect_step; [exact Hp2|done|]. apply Pre_next in Hp2. eapply (runs_bind (callOf CAssignment)); [by apply H3|].
  rewrite after_nextSt, after_after by done. apply runs_ret.
Qed.

Lemma tokenToBindingId_starter s ts : Start s ts → Starts ts → tokenToBindingId s = Ok () s.
Proof.
  intros Hs (t & u & -> & Ht). unfold tokenToBindingId, mbind, P_bind. rewrite (token_eq _ _ _ Hs).
  destruct (isBindingId (tk t)) eqn:E; [|done]. assert (tk t = IDENTIFIER) as Hi by (destruct (tk t); done).
  unfold setToken. rewrite (Start_cur _ _ _ Hs). rewrite <- Hi. destruct s as [c ? ? ? ? ?]. cbn. pose proof (Start_cur _ _ _ Hs) as Hc. cbn in Hc. subst c.
  by destruct t.
Qed.

(** The first steps of parseAssignmentExpression. *)
Definition assignRest (parenthesis : bool) : open expr := λ rec,
  left ← rec _ CConditional;
  c ← token;
  if teq c ARROW then unmodelled
  else
    match assignOperator c with
    | None => mret left
    | Some operator =>
        next ;;
        match left with
        | Identifier _ => right ← rec _ CAssignment; mret (AssignExpression operator left right parenthesis)
        | DotExpression _ _ | BracketExpression _ _ => right ← rec _ CAssignment; mret (AssignExpression operator left right false)
        | ArrayLiteral _ | ObjectLiteral _ =>
            if negb parenthesis && teq operator ASSIGN then unmodelled else error "Invalid left-hand side in assignment"
        | _ => error "Invalid left-hand side in assignment"
        end
    end.

Definition deeper (s : pstate) : pstate := St (cur s) (rest s) (insertSemicolon s) (implicitSemicolon s) (scope_ s) (S (depth s)).

Lemma Pre_deeper d i s ts r : Pre (S d) i s ts r → Pre d i (deeper s) ts r.
Proof. intros [[H1 H1'] H2 H3 H4]. split; [by split|done| |done]. cbn. lia. Qed.

(** A function that counts as a level of nesting. *)
Lemma runs_deeper {A} (F : open A) d i s ts r a :
  Pre (S d) i s ts r → runs F (deeper s) (Ok a (after (deeper s) r)) → runs (λ rec, nesting (F rec)) s (Ok a (after s r)).
Proof.
  intros Hp HF. pose proof (pre_rest _ _ _ _ _ Hp). pose proof (pre_depth _ _ _ _ _ Hp).
  replace (after s r) with
    (let s' := after (deeper s) r in St (cur s') (rest s') (insertSemicolon s') (implicitSemicolon s') (scope_ s') (depth s)) by by destruct r.
  apply runs_nesting; [lia|done].
Qed.

Lemma assign_start d i s ts r e :
  Starts ts → Pre (S d) i s ts r →
  runs (assignRest (startsWithParen ts)) (deeper s) (Ok e (after (deeper s) r)) → runs (callOf CAssignment) s (Ok e (after s r)).
Proof.
  intros Hst Hp HR. rcall. unfold parseAssignmentExpression. eapply runs_deeper; [exact Hp|]. apply Pre_deeper in Hp.
  pose proof (pre_start _ _ _ _ _ Hp) as Hs. destruct (Pre_first _ _ _ _ _ Hst Hp) as [Hf Ht]. eapply runs_step; [exact Ht|].
  rewrite (starter_not _ _ ASYNC Hs) by (done || by apply Starts_app). rewrite Hf. eapply runs_step; [|exact HR].
  destruct (startsWithParen ts); [done|]. eapply tokenToBindingId_starter; [exact Hs|by apply Starts_app].
Qed.

Lemma Good_conditional d i ts e : Starts ts → Good d i Conditional ts e → Good (S d) i Assignment ts e.
Proof.
  intros Hst HG s r Hp Hk. eapply assign_start; [done..|]. apply Pre_deeper in Hp. pose proof (pre_rest _ _ _ _ _ Hp) as Hr. unfold assignRest.
  eapply (runs_bind (callOf CConditional)); [by apply HG|]. destruct r as [|t r]; [done|]. rtok. cbn in Hk.
  assert (teq (tk t) ARROW = false ∧ assignOperator (tk t) = None) as [-> ->]; [|apply runs_ret].
  unfold tokRank in Hk. by destruct (tk t); cbn in *; try lia.
Qed.

Lemma Good_or d i ts e : Good d i LogicalOr ts e → Good d i ShortCircuit ts e.
Proof. by intros [H _]. Qed.

(** ** Unary operators, ++, -- and ** *)

(** The first token of the categories that do not start with an operator. *)
Definition first (ts : list tok) : Token := match ts with t :: _ => tk t | [] => EOF end.

Lemma first_app ts ts' : Starts ts → first (ts ++ ts') = first ts.
Proof. by intros (t & u & -> & _). Qed.

Lemma derives_first d i c ts e :
  derives d i c ts e →
  ((rank c ≤ 3)%nat → isOneOf (first ts) unaryOps = false) ∧
  ((rank c ≤ 2)%nat → isOneOf (first ts) [INCREMENT; DECREMENT] = false).
Proof.
  induction 1; cbn [rank] in *; (split; intros Hr); try (destruct l; cbn in Hr); try (destruct k; cbn in *); try lia;
    repeat match goal with HD : derives _ _ _ ?ts _ |- context [first (?ts ++ _)] => rewrite (first_app ts) by by eapply derives_starts end;
    try (apply (proj1 IHderives); lia); try (apply (proj2 IHderives); lia); try (apply (proj1 IHderives1); lia); try (apply (proj2 IHderives1); lia);
    cbn [first]; try (by rewrite H).
  - by destruct H as [-> | ->].
  - unfold atom in H. by destruct (tk t).
  - unfold atom in H. by destruct (tk t).
Qed.

Lemma Pre_first_token d i s ts r : Starts ts → Pre d i s ts r → token s = Ok (first ts) s.
Proof. intros (t & u & -> & _) Hp. by eapply Pre_token. Qed.

Lemma incdec t : isOneOf t [INCREMENT; DECREMENT] = teq t INCREMENT || teq t DECREMENT.
Proof. unfold isOneOf. cbn. by rewrite orb_false_r. Qed.

Lemma Good_lhs d i ts e : derives d i LeftHandSide ts e → Good d i LeftHandSide ts e → Good d i Update ts e.
Proof.
  intros HD HG s r Hp Hk. pose proof (derives_starts _ _ _ _ _ HD) as Hst. pose proof (pre_rest _ _ _ _ _ Hp) as Hr.
  rcall. unfold parseUpdateExpression. eapply runs_step; [by eapply Pre_first_token|].
  rewrite <- incdec, (proj2 (derives_first _ _ _ _ _ HD)) by (cbn; lia).
  eapply (runs_bind (callOf CLeftHandSideAllowCall)); [apply HG; [done|lia]|]. destruct r as [|t r]; [done|]. rtok.
  destruct (teq (tk t) INCREMENT || teq (tk t) DECREMENT) eqn:E; [|apply runs_ret]. eapply runs_step; [done|].
  cbn in Hk. unfold tokRank in Hk. apply orb_true_iff in E as [E%teq_eq|E%teq_eq]; rewrite E in Hk; cbn; (destruct (ends t); [apply runs_ret|lia]).
Qed.

Lemma Good_prefix d i op ts e :
  tk op = INCREMENT ∨ tk op = DECREMENT → Good d i Unary ts e → isReference e = true → Good d i Update (op :: ts) (UnaryExpression (tk op) e false).
Proof.
  intros Hop HG He s r Hp Hk. pose proof (pre_rest _ _ _ _ _ Hp) as Hr. rcall. unfold parseUpdateExpression. rtok.
  replace (teq (tk op) INCREMENT || teq (tk op) DECREMENT) with true by by destruct Hop as [-> | ->]. rnext. apply Pre_next in Hp.
  eapply (runs_bind (callOf CUnary)); [apply HG; [done|]|].
  - destruct r as [|t r]; [done|]. cbn in *. unfold tokRank in *. destruct (tk t), i, (ends t); cbn in *; lia.
  - rewrite He, after_nextSt by done. apply runs_ret.
Qed.

Lemma Good_postfix d i ts e op :
  derives d i LeftHandSide ts e → Good d i LeftHandSide ts e → isReference e = true → tk op = INCREMENT ∨ tk op = DECREMENT → ends op = false →
  Good d i Update (ts ++ [op]) (UnaryExpression (tk op) e true).
Proof.
  intros HD HG He Hop Hn s r Hp Hk. pose proof (derives_starts _ _ _ _ _ HD) as Hst. pose proof (pre_rest _ _ _ _ _ Hp) as Hr. apply Pre_app in Hp.
  rcall. unfold parseUpdateExpression. eapply runs_step; [by eapply Pre_first_token|].
  rewrite <- incdec, (proj2 (derives_first _ _ _ _ _ HD)) by (cbn; lia).
  eapply (runs_bind (callOf CLeftHandSideAllowCall)).
  { apply HG; [done|]. cbn. unfold tokRank. destruct Hop as [-> | ->]; rewrite Hn; lia. }
  apply Pre_after in Hp; [|done]. rtok. replace (teq (tk op) INCREMENT || teq (tk op) DECREMENT) with true by by destruct Hop as [-> | ->].
  eapply (runs_step implicit _ _ false (after s (op :: r))); [unfold implicit; cbn; by rewrite Hn|]. rnext. rewrite He.
  assert (nextSt (after s (op :: r)) = after s r) as <-; [|apply runs_ret]. destruct r as [|t r]; [done|].
  erewrite nextSt_ending; [by apply after_after|apply (pre_start _ _ _ _ _ Hp)|]. by destruct Hop as [-> | ->].
Qed.

Lemma Good_update d i ts e : derives d i Update ts e → Good d i Update ts e → Good (S d) i Unary ts e.
Proof.
  intros HD HG s r Hp Hk. rcall. unfold parseUnaryExpression. eapply runs_deeper; [exact Hp|]. apply Pre_deeper in Hp.
  eapply runs_step; [eapply Pre_first_token; [by eapply derives_starts|done]|]. rewrite (proj1 (derives_first _ _ _ _ _ HD)) by (cbn; lia).
  apply HG; [done|lia].
Qed.

Lemma Good_unary_op d i op ts e :
  isOneOf (tk op) unaryOps = true → Good d i Unary ts e → Good (S d) i Unary (op :: ts) (UnaryExpression (tk op) e false).
Proof.
  intros Hop HG s r Hp Hk. pose proof (pre_rest _ _ _ _ _ Hp) as Hr. rcall. unfold parseUnaryExpression. eapply runs_deeper; [exact Hp|].
  apply Pre_deeper in Hp. rtok. rewrite Hop. rnext. apply Pre_next in Hp. eapply (runs_bind (callOf CUnary)); [by apply HG|].
  rewrite after_nextSt by done. apply runs_ret.
Qed.

Lemma Good_unary d i ts e : Starts ts → Good d i Unary ts e → Good d i Exponentiation ts e.
Proof.
  intros Hst HG s r Hp Hk. pose proof (pre_rest _ _ _ _ _ Hp) as Hr. rcall. unfold parseExponentiationExpression.
  eapply runs_step; [by eapply Pre_first_token|]. eapply (runs_bind (callOf CUnary)); [apply HG; [done|lia]|].
  pose proof (head_teq i r EXPONENT 5 Hk) as Hq. destruct r as [|t r]; [done|]. rtok. rewrite Hq; [apply runs_ret|].
  intros u E. unfold tokRank. rewrite E. lia.
Qed.

Lemma Good_exponent d i ts1 e1 op ts2 e2 :
  derives d i Update ts1 e1 → Good d i Update ts1 e1 → tk op = EXPONENT → Good d i Exponentiation ts2 e2 →
  Good (S d) i Exponentiation (ts1 ++ op :: ts2) (BinaryExpression EXPONENT e1 e2).
Proof.
  intros HD H1 Hop H2 s r Hp Hk. pose proof (pre_rest _ _ _ _ _ Hp) as Hr. pose proof (derives_starts _ _ _ _ _ HD) as Hst. apply Pre_app in Hp.
  rcall. unfold parseExponentiationExpression. eapply runs_step; [by eapply Pre_first_token|].
  eapply (runs_bind (callOf CUnary)); [apply (Good_update _ _ _ _ HD H1); [done|cbn; unfold tokRank; rewrite Hop; lia]|].
  apply Pre_after in Hp; [|done]. rtok. rewrite Hop. cbn [teq tokNum Nat.eqb].
  rewrite <- (after_after s (op :: ts2 ++ r) r) by done. eapply runs_deeper; [exact Hp|].
  assert (negb (teq (first ts1) LEFT_PARENTHESIS) && isUnaryOperator e1 = false) as ->.
  { destruct (isUnaryOperator e1) eqn:E; [|apply andb_false_r]. pose proof (proj2 (derives_paren _ _ _ _ _ HD)) as Hpar.
    specialize (Hpar ltac:(cbn; lia) E). destruct ts1 as [|t1 ts1]; [done|]. cbn in *. by rewrite Hpar. }
  rcall. unfold exponentLoop. rnext. apply Pre_deeper, Pre_next in Hp.
  eapply (runs_bind (callOf CExponentiation)); [by apply H2|]. rewrite after_nextSt by done.
  pose proof (head_teq i r EXPONENT 5 Hk) as Hq. destruct r as [|t r]; [done|]. rtok. rewrite Hq; [apply runs_ret|].
  intros u E. unfold tokRank. rewrite E. lia.
Qed.

(** A left-hand side is an operand of every operator. *)
Lemma Good_lhs_shortCircuit d i ts e : derives d i LeftHandSide ts e → Good d i LeftHandSide ts e → Good (S d) i ShortCircuit ts e.
Proof.
  intros HD HG. pose proof (derives_starts _ _ _ _ _ HD) as Hst. apply Good_or, Good_or_and; [done|].
  apply Good_operand, (Good_operand _ _ BitwiseOr), (Good_operand _ _ BitwiseExclusiveOr), (Good_operand _ _ BitwiseAnd), (Good_operand _ _ Equality).
  apply Good_shift; [done|]. apply Good_operand, (Good_operand _ _ Additive), (Good_operand _ _ Multiplicative), Good_unary; [done|].
  apply Good_update; [by apply D_lhs|by apply Good_lhs].
Qed.

Lemma assignOperator_rank i t o : assignOperator (tk t) = Some o → tokRank i t = 17%nat ∧ teq (tk t) ARROW = false.
Proof. unfold tokRank. by destruct (tk t). Qed.

Lemma Good_assign d i ts1 e1 op o ts2 e2 :
  derives d i LeftHandSide ts1 e1 → Good d i LeftHandSide ts1 e1 → isReference e1 = true → assignOperator (tk op) = Some o →
  Good (S d) i Assignment ts2 e2 →
  Good (S (S d)) i Assignment (ts1 ++ op :: ts2) (AssignExpression o e1 e2 (isIdentifier e1 && startsWithParen ts1)).
Proof.
  intros HD H1 He Hop H2 s r Hp Hk. pose proof (pre_rest _ _ _ _ _ Hp) as Hr. pose proof (derives_starts _ _ _ _ _ HD) as Hst.
  eapply assign_start; [by apply Starts_app|done|]. rewrite startsWithParen_app by done. apply Pre_deeper, Pre_app in Hp. unfold assignRest.
  destruct (assignOperator_rank i op o Hop) as [Hrank Harrow].
  eapply (runs_bind (callOf CConditional)).
  { eapply Good_conditional_parses; [by apply Good_lhs_shortCircuit|done|]. cbn. rewrite Hrank. lia. }
  apply Pre_after in Hp; [|done]. rtok. rewrite Harrow, Hop. rnext. apply Pre_next in Hp. specialize (H2 _ _ Hp Hk).
  rewrite after_nextSt, after_after in H2 by done.
  destruct e1; try done; (eapply (runs_bind (callOf CAssignment)); [exact H2|apply runs_ret]).
Qed.
End ParserCorrect.
