(* ===== verification/ParserExpressions.v ===== *)
(** * Left-hand sides, literals, and every expression of the grammar

    Member access, calls, new and optional chains; literals with their lists of
    elements, properties and arguments; then the induction on derivations: the
    parser returns the tree of every derivation. *)

From S2P Require Import Prelude Parser ParserGrammar ParserCorrect.
From stdpp Require Import strings.
Import Parser ParserGrammar ParserCorrect.
Open Scope Z_scope.

Module ParserExpressions.

Lemma snoc_app {A} (acc : list A) x l : acc ++ x :: l = (acc ++ [x]) ++ l.
Proof. by rewrite <- app_assoc. Qed.

(** ** Sequences *)

Record GoodSequence (d : nat) (i : bool) (ts : list tok) (es : list expr) : Prop := {
  seq_loop s acc c r :
    Pre d i s (c :: ts) r → tk c = COMMA → (18 < headRank i r)%nat →
    runs (callOf (CSequenceLoop acc)) s (Ok (SequenceExpression (acc ++ es)) (after s r));
  seq_expression : Parses (callOf CExpression) d i ts (sequenceOf es) 18;
  seq_parenthesis s acc r :
    i = true → Pre d i s ts r → headIs r RIGHT_PARENTHESIS → runs (callOf (CParenthesisLoop acc)) s (Ok (acc ++ es) (after s r));
  seq_nonempty : es ≠ [];
}.

Lemma closing_rank r k i : headIs r k → isOneOf k [RIGHT_PARENTHESIS; RIGHT_BRACKET; RIGHT_BRACE; COLON; SEMICOLON] = true → headRank i r = 99%nat.
Proof.
  intros (t & r' & -> & Ht)%headIs_cons Hk%isOneOf_In. cbn. unfold tokRank. rewrite Ht. set_unfold. by repeat (destruct Hk as [-> | Hk]; [done|]).
Qed.

Lemma comma_rank c i : tk c = COMMA → tokRank i c = 18%nat.
Proof. unfold tokRank. by intros ->. Qed.

Lemma starts_token s ts d i r k : Starts ts → Pre d i s ts r → starter k = false → teq (tk (cur s)) k = false.
Proof. intros Hst [Hs _ _ _] Hk. eapply starter_not; [exact Hs|by apply Starts_app|done]. Qed.

Lemma head_not_comma i t r : (18 < headRank i (t :: r))%nat → teq (tk t) COMMA = false.
Proof. intros Hk. apply teq_ne. intros E. cbn in Hk. unfold tokRank in Hk. rewrite E in Hk. lia. Qed.

Lemma Good_one d i ts e : Starts ts → Good d i Assignment ts e → GoodSequence d i ts [e].
Proof.
  intros Hst HG. split; [| | |done].
  - intros s acc c r Hp Hc Hk. pose proof (pre_rest _ _ _ _ _ Hp) as Hr. rcall. unfold sequenceLoop. rtok. rewrite Hc. cbn [teq tokNum Nat.eqb]. rnext.
    apply Pre_next in Hp. eapply (runs_bind (callOf CAssignment)); [apply HG; [done|lia]|]. rewrite after_nextSt by done.
    destruct r as [|t r]; [done|]. rcall. unfold sequenceLoop. rtok. rewrite (head_not_comma i t r Hk). apply runs_ret.
  - intros s r Hp Hk. pose proof (pre_rest _ _ _ _ _ Hp) as Hr. rcall. unfold parseExpression.
    eapply (runs_bind (callOf CAssignment)); [apply HG; [done|lia]|]. destruct r as [|t r]; [done|]. rtok.
    rewrite (head_not_comma i t r Hk). apply runs_ret.
  - intros s acc r -> Hp Hh. pose proof (pre_rest _ _ _ _ _ Hp) as Hr. rcall. unfold parenthesisLoop. eapply runs_step; [done|].
    rewrite (starts_token _ _ _ _ _ ELLIPSIS Hst Hp) by done.
    eapply (runs_bind (callOf CAssignment)); [apply HG; [done|by rewrite (closing_rank r _ true Hh); [lia|]]|].
    apply headIs_cons in Hh as (t & r' & -> & Ht). rtok. rewrite Ht. apply runs_ret.
Qed.

Lemma sequenceOf_cons e es : es ≠ [] → sequenceOf (e :: es) = SequenceExpression (e :: es).
Proof. by destruct es. Qed.

Lemma Good_more d i ts e c ts' es :
  Starts ts → Starts ts' → Good d i Assignment ts e → tk c = COMMA → GoodSequence d i ts' es → GoodSequence d i (ts ++ c :: ts') (e :: es).
Proof.
  intros Hst Hst' HG Hc HS. pose proof (comma_rank c i Hc) as Hrk. pose proof (seq_nonempty _ _ _ _ HS) as Hne. split; [| | |done].
  - intros s acc c' r Hp Hc' Hk. pose proof (pre_rest _ _ _ _ _ Hp) as Hr. rcall. unfold sequenceLoop. rtok. rewrite Hc'. cbn [teq tokNum Nat.eqb]. rnext.
    apply Pre_next, Pre_app in Hp. eapply (runs_bind (callOf CAssignment)); [apply HG; [done|cbn; lia]|]. apply Pre_after in Hp; [|done].
    rewrite after_nextSt in Hp |- * by done. rewrite (snoc_app acc e es), <- (after_after s (c :: ts' ++ r) r) by done.
    by eapply (seq_loop _ _ _ _ HS).
  - intros s r Hp Hk. pose proof (pre_rest _ _ _ _ _ Hp) as Hr. apply Pre_app in Hp. rcall. unfold parseExpression.
    eapply (runs_bind (callOf CAssignment)); [apply HG; [done|cbn; lia]|]. apply Pre_after in Hp; [|done]. rtok. rewrite Hc. cbn [teq tokNum Nat.eqb].
    rewrite (sequenceOf_cons e es Hne), <- (after_after s (c :: ts' ++ r) r) by done. by apply (seq_loop _ _ _ _ HS _ [e] c).
  - intros s acc r -> Hp Hh. pose proof (pre_rest _ _ _ _ _ Hp) as Hr. apply Pre_app in Hp. rcall. unfold parenthesisLoop. eapply runs_step; [done|].
    rewrite (starts_token _ _ _ _ _ ELLIPSIS Hst Hp) by done.
    eapply (runs_bind (callOf CAssignment)); [apply HG; [done|cbn; lia]|]. apply Pre_after in Hp; [|done]. rtok. rewrite Hc. cbn [teq tokNum Nat.eqb negb]. rnext.
    apply Pre_next in Hp. eapply runs_step; [done|]. rewrite (starts_token _ _ _ _ _ RIGHT_PARENTHESIS Hst' Hp) by done.
    rewrite (snoc_app acc e es), <- (after_after s (c :: ts' ++ r) r), <- (after_nextSt (after s (c :: ts' ++ r)) r) by done.
    by apply (seq_parenthesis _ _ _ _ HS).
Qed.

(** ** Arguments *)

(** A list that ends before [r]: the state is at [r], the scope and the depth are
    those of before.  An empty list leaves the state as it is. *)
Definition ListEnds {A} (F : open A) (s : pstate) (r : list tok) (a : A) : Prop :=
  ∃ s', runs F s (Ok a s') ∧ Start s' r ∧ scope_ s' = scope_ s ∧ depth s' = depth s.

Lemma ListEnds_here {A} (F : open A) s r a : runs F s (Ok a s) → Start s r → ListEnds F s r a.
Proof. intros. by exists s. Qed.

Lemma ListEnds_after {A} (F : open A) s r a : r ≠ [] → runs F s (Ok a (after s r)) → ListEnds F s r a.
Proof. intros Hr HF. exists (after s r). repeat split; [done|by apply after_start|apply after_start; done|apply after_scope|apply after_depth]. Qed.

(** More of the list first. *)
Lemma ListEnds_more {A} (F G : open A) s s1 r a :
  (∀ R, runs G s1 R → runs F s R) → scope_ s1 = scope_ s → depth s1 = depth s → ListEnds G s1 r a → ListEnds F s r a.
Proof. intros HFG Hsc Hd (s' & HG & Hs & H1 & H2). exists s'. split; [by apply HFG|]. repeat split; [apply Hs|apply Hs|congruence..]. Qed.

Definition itemAt (c : Token) : open expr := λ rec,
  if teq c ELLIPSIS then next ;; e ← rec _ CAssignment; mret (SpreadElement e) else rec _ CAssignment.

(** The tokens before an item: what the loops test for comes first. *)
Definition itemStart (ts : list tok) : Prop := ts ≠ [] ∧ isOneOf (first ts) [RIGHT_PARENTHESIS; RIGHT_BRACKET; EOF; COMMA] = false.

Record GoodItem (d : nat) (ts : list tok) (e : expr) : Prop := {
  item_start : itemStart ts;
  item_parses s r : Pre d true s ts r → (17 < headRank true r)%nat → runs (itemAt (first ts)) s (Ok e (after s r));
}.

Lemma itemStart_not ts k : itemStart ts → k ∈ [RIGHT_PARENTHESIS; RIGHT_BRACKET; EOF; COMMA] → teq (first ts) k = false.
Proof.
  intros [_ H] Hk. apply teq_ne. intros <-. apply isOneOf_In in Hk. congruence.
Qed.

Lemma Pre_nonempty_token d i s ts r : ts ≠ [] → Pre d i s ts r → token s = Ok (first ts) s.
Proof. intros Hne Hp. destruct ts; [done|]. by eapply Pre_token. Qed.

Lemma Starts_first ts : Starts ts → ts ≠ [] ∧ starter (first ts) = true.
Proof. by intros (t & u & -> & H). Qed.

Lemma starter_teq ts k : Starts ts → starter k = false → teq (first ts) k = false.
Proof. intros [_ H]%Starts_first Hk. apply teq_ne. congruence. Qed.

Lemma Good_item d ts e : Starts ts → Good d true Assignment ts e → GoodItem d ts e.
Proof.
  intros Hst HG. split.
  - split; [by apply Starts_first|]. unfold isOneOf. cbn [existsb]. by rewrite !(starter_teq ts).
  - intros s r Hp Hk. unfold itemAt. rewrite (starter_teq ts) by done. by apply HG.
Qed.

Lemma Good_spread d t ts e : tk t = ELLIPSIS → Good d true Assignment ts e → GoodItem d (t :: ts) (SpreadElement e).
Proof.
  intros Ht HG. split; [by split; [|cbn; rewrite Ht]|]. intros s r Hp Hk. pose proof (pre_rest _ _ _ _ _ Hp) as Hr. unfold itemAt. cbn [first].
  rewrite Ht, teq_refl. rnext. apply Pre_next in Hp. eapply (runs_bind (callOf CAssignment)); [by apply HG|].
  rewrite after_nextSt by done. apply runs_ret.
Qed.

Definition GoodItems (d : nat) (ts : list tok) (es : list expr) : Prop :=
  ∀ s acc r, Pre d true s ts r → headIs r RIGHT_PARENTHESIS → ListEnds (callOf (CArguments acc)) s r (acc ++ es).

Lemma Good_no_items d : GoodItems d [] [].
Proof.
  intros s acc r Hp (t & r' & -> & Ht)%headIs_cons. rewrite app_nil_r. apply ListEnds_here; [|apply (pre_start _ _ _ _ _ Hp)].
  rcall. unfold argumentLoop. eapply runs_step; [eapply token_eq, (pre_start _ _ _ _ _ Hp)|]. rewrite Ht. apply runs_ret.
Qed.

(** The next token is a comma or the end of the list. *)
Lemma item_step {B} (K : expr → open B) d s ts e r R :
  GoodItem d ts e → Pre d true s ts r → (17 < headRank true r)%nat → runs (K e) (after s r) R →
  runs (λ rec, itemAt (first ts) rec ≫= λ e, K e rec) s R.
Proof. intros HG Hp Hk HK. eapply runs_bind; [by apply (item_parses _ _ _ HG)|done]. Qed.

Lemma Good_last_item d ts e : GoodItem d ts e → GoodItems d ts [e].
Proof.
  intros HG s acc r Hp Hh. pose proof (pre_rest _ _ _ _ _ Hp) as Hr. apply ListEnds_after; [done|]. rcall. unfold argumentLoop.
  eapply runs_step; [eapply Pre_nonempty_token; [apply HG|done]|]. rewrite (itemStart_not ts) by (apply HG || set_solver).
  eapply item_step; [done..|by rewrite (closing_rank r _ true Hh); [lia|]|]. apply headIs_cons in Hh as (t & r' & -> & Ht). rtok. rewrite Ht. apply runs_ret.
Qed.

Lemma Good_items d ts e c ts' es : GoodItem d ts e → tk c = COMMA → GoodItems d ts' es → GoodItems d (ts ++ c :: ts') (e :: es).
Proof.
  intros HG Hc HI s acc r Hp Hh. pose proof (pre_rest _ _ _ _ _ Hp) as Hr. apply Pre_app in Hp.
  eapply (ListEnds_more _ (callOf (CArguments (acc ++ [e])))); [| | |rewrite (snoc_app acc e es); apply HI; [|done]].
  - intros R HR. rcall. unfold argumentLoop. eapply runs_step; [eapply Pre_nonempty_token; [apply HG|done]|].
    rewrite (itemStart_not ts) by (apply HG || set_solver). eapply item_step; [done..|cbn; rewrite (comma_rank c _ Hc); lia|]. rtok. rewrite Hc.
    cbn [teq tokNum Nat.eqb]. rnext. exact HR.
  - by rewrite nextSt_scope, after_scope.
  - by rewrite nextSt_depth, after_depth.
  - by eapply Pre_next, Pre_after.
Qed.

(** The closing token of a list. *)
Lemma close_list {A B} (F : open A) (K : A → open B) s r k t r' a b :
  ListEnds F s r a → r = t :: r' → r' ≠ [] → tk t = k → ending k = true → (∀ s1 rec, K a rec s1 = Ok b s1) →
  runs (λ rec, F rec ≫= λ a, expect k ≫= λ _, K a rec) s (Ok b (after s r')).
Proof.
  intros (s' & HF & Hs & H1 & H2) -> Hr' Ht He HK. eapply runs_bind; [exact HF|]. destruct r' as [|u r']; [done|].
  eapply runs_step; [by eapply expect_eq|]. rewrite (nextSt_ending s' t u r' Hs) by by rewrite Ht. rewrite (after_same s' s) by done. by apply runs_eq.
Qed.

Definition argumentList : open (list expr) := λ rec, parseArgumentList rec.

Record GoodArguments (d : nat) (ts : list tok) (es : list expr) : Prop := {
  arguments_parse s r : Pre d true s ts r → runs argumentList s (Ok es (after s r));
  arguments_first : first ts = LEFT_PARENTHESIS;
}.

Lemma Pre_opening d i s l ts c r : Pre d i s (l :: ts ++ [c]) r → Pre d i (nextSt s) ts (c :: r).
Proof. intros Hp. apply Pre_next, Pre_app in Hp. exact Hp. Qed.

Lemma Good_arguments d l ts es c :
  tk l = LEFT_PARENTHESIS → GoodItems d ts es → tk c = RIGHT_PARENTHESIS → GoodArguments d (l :: ts ++ [c]) es.
Proof.
  intros Hl HI Hc. split; [|done]. intros s r Hp. pose proof (pre_rest _ _ _ _ _ Hp) as Hr. unfold argumentList, parseArgumentList.
  eapply expect_step; [done..|]. apply Pre_opening in Hp. rewrite <- after_nextSt by done.
  eapply (close_list (callOf (CArguments [])) (λ l _, mret l)); [by apply (HI _ [] (c :: r))|done..].
Qed.

(** ** Array literals *)

Definition GoodElements (d : nat) (ts : list tok) (es : list (option expr)) : Prop :=
  ∀ s acc r, Pre d true s ts r → headIs r RIGHT_BRACKET → ListEnds (callOf (CArrayLiteral acc)) s r (acc ++ es).

Lemma Good_no_elements d : GoodElements d [] [].
Proof.
  intros s acc r Hp (t & r' & -> & Ht)%headIs_cons. rewrite app_nil_r. apply ListEnds_here; [|apply (pre_start _ _ _ _ _ Hp)].
  rcall. unfold arrayLoop. eapply runs_step; [eapply token_eq, (pre_start _ _ _ _ _ Hp)|]. rewrite Ht. apply runs_ret.
Qed.

Lemma Good_hole d c ts es : tk c = COMMA → GoodElements d ts es → GoodElements d (c :: ts) (None :: es).
Proof.
  intros Hc HI s acc r Hp Hh. eapply (ListEnds_more _ (callOf (CArrayLiteral (acc ++ [None])))); [| | |rewrite (snoc_app acc None es); apply HI; [|done]].
  - intros R HR. rcall. unfold arrayLoop. rtok. rewrite Hc. cbn [teq tokNum Nat.eqb orb]. rnext. exact HR.
  - apply nextSt_scope.
  - apply nextSt_depth.
  - by eapply Pre_next.
Qed.

(** An element, then what follows it. *)
Lemma arrayLoop_item d s acc ts e r R :
  GoodItem d ts e → Pre d true s ts r → (17 < headRank true r)%nat →
  runs (λ rec, c ← token; (if teq c RIGHT_BRACKET then mret () else expect COMMA) ;; rec _ (CArrayLiteral (acc ++ [Some e]))) (after s r) R →
  runs (callOf (CArrayLiteral acc)) s R.
Proof.
  intros HG Hp Hk HR. rcall. unfold arrayLoop. eapply runs_step; [eapply Pre_nonempty_token; [apply HG|done]|].
  rewrite !(itemStart_not ts) by (apply HG || set_solver). cbn [orb]. by eapply item_step.
Qed.

Lemma Good_last_element d ts e : GoodItem d ts e → GoodElements d ts [Some e].
Proof.
  intros HG s acc r Hp Hh. pose proof (pre_rest _ _ _ _ _ Hp) as Hr. apply ListEnds_after; [done|].
  eapply arrayLoop_item; [done..|by rewrite (closing_rank r _ true Hh); [lia|]|]. apply headIs_cons in Hh as (t & r' & -> & Ht). rtok. rewrite Ht.
  cbn [teq tokNum Nat.eqb]. eapply runs_step; [done|]. rcall. unfold arrayLoop. rtok. rewrite Ht. apply runs_ret.
Qed.

Lemma Good_elements d ts e c ts' es : GoodItem d ts e → tk c = COMMA → GoodElements d ts' es → GoodElements d (ts ++ c :: ts') (Some e :: es).
Proof.
  intros HG Hc HI s acc r Hp Hh. pose proof (pre_rest _ _ _ _ _ Hp) as Hr. apply Pre_app in Hp.
  eapply (ListEnds_more _ (callOf (CArrayLiteral (acc ++ [Some e])))); [| | |rewrite (snoc_app acc (Some e) es); apply HI; [|done]].
  - intros R HR. eapply arrayLoop_item; [done..|cbn; rewrite (comma_rank c _ Hc); lia|]. apply Pre_after in Hp; [|done]. rtok. rewrite Hc.
    cbn [teq tokNum Nat.eqb]. eapply expect_step; [exact Hp|done|exact HR].
  - by rewrite nextSt_scope, after_scope.
  - by rewrite nextSt_depth, after_depth.
  - by eapply Pre_next, Pre_after.
Qed.

(** ** Object literals *)

Record GoodProperty (d : nat) (ts : list tok) (p : property) : Prop := {
  property_first : ts ≠ [] ∧ isOneOf (first ts) [RIGHT_BRACE; EOF] = false;
  property_parses s r : Pre d true s ts r → headIs r COMMA ∨ headIs r RIGHT_BRACE → runs (callOf CObjectProperty) s (Ok p (after s r));
}.

Lemma property_rank r : headIs r COMMA ∨ headIs r RIGHT_BRACE → (17 < headRank true r)%nat.
Proof. intros [(t & r' & -> & Ht)%headIs_cons|(t & r' & -> & Ht)%headIs_cons]; cbn; unfold tokRank; rewrite Ht; cbn; lia. Qed.

Lemma Good_property_spread d t ts e : tk t = ELLIPSIS → Good d true Assignment ts e → GoodProperty d (t :: ts) (PropertySpread e).
Proof.
  intros Ht HG. split; [by split; [|cbn; rewrite Ht]|]. intros s r Hp Hk%property_rank. pose proof (pre_rest _ _ _ _ _ Hp) as Hr.
  rcall. unfold parseObjectProperty. rtok. rewrite Ht. cbn [teq tokNum Nat.eqb]. rnext. apply Pre_next in Hp.
  eapply (runs_bind (callOf CAssignment)); [by apply HG|]. rewrite after_nextSt by done. apply runs_ret.
Qed.

Lemma Pre_curTok d i s t ts r : Pre d i s (t :: ts) r → curTok s = Ok t s.
Proof. intros [H _ _ _]. by eapply curTok_eq. Qed.

Lemma Good_short d t : tk t = IDENTIFIER → GoodProperty d [t] (PropertyShort (parsedLiteral t) None).
Proof.
  intros Ht. split; [by split; [|cbn; rewrite Ht]|]. intros s r Hp Hk. pose proof (pre_rest _ _ _ _ _ Hp) as Hr.
  rcall. unfold parseObjectProperty, parseObjectPropertyKey. rtok. rewrite Ht. cbn [teq tokNum Nat.eqb].
  eapply (runs_bind (λ rec, _)); [eapply runs_step; [by eapply Pre_curTok|]; rewrite Ht; cbn [teq tokNum Nat.eqb isOneOf existsb orb]; rnext; apply runs_ret|].
  cbn [fst snd]. destruct r as [|u r]; [done|]. rewrite (nextSt_ending s t u r) by (apply (pre_start _ _ _ _ _ Hp) || by rewrite Ht). rtok.
  destruct Hk as [Hk|Hk]; cbn in Hk; rewrite Hk; cbn; (eapply runs_step; [done|apply runs_ret]).
Qed.

Definition keyToken (t : Token) : bool := isOneOf t [IDENTIFIER; STRING; NUMBER; KEYWORD; ESCAPED_RESERVED_WORD; EXPORT; IMPORT] || IsId t.

Lemma keyOf_token t key : keyOf t = Some key → keyToken (tk t) = true.
Proof. unfold keyOf. by destruct (tk t). Qed.

Lemma keyToken_not t k : keyToken t = true → keyToken k = false → teq t k = false.
Proof. intros Ht Hk. apply teq_ne. congruence. Qed.

(** A key that is one token. *)
Lemma key_step {B} (K : tok * expr * Token → open B) d i s k ts r key R :
  keyOf k = Some key → Pre d i s (k :: ts) r → runs (K (k, key, tk k)) (nextSt s) R → runs (λ rec, parseObjectPropertyKey rec ≫= λ x, K x rec) s R.
Proof.
  intros Hk Hp HK. pose proof (keyOf_token _ _ Hk) as Hkt. eapply (runs_bind (λ rec, parseObjectPropertyKey rec)); [|exact HK]. unfold parseObjectPropertyKey.
  eapply runs_step; [by eapply Pre_curTok|]. rewrite (keyToken_not _ LEFT_BRACKET) by done. rnext. unfold keyOf in Hk.
  rewrite (keyToken_not _ PRIVATE_IDENTIFIER) by done. repeat case_match; try done; injection Hk as <-; apply runs_ret.
Qed.

Lemma colon_step {A} (F : open A) d i s c ts r R :
  Pre d i s (c :: ts) r → tk c = COLON → runs F (nextSt s) R → runs (λ rec, expect COLON ;; F rec) s R.
Proof. intros Hp Hc HF. by eapply expect_step. Qed.

Lemma Good_keyed d k key c ts e :
  keyOf k = Some key → tk c = COLON → Good d true Assignment ts e → GoodProperty d (k :: c :: ts) (PropertyKeyed key e false).
Proof.
  intros Hk Hc HG. pose proof (keyOf_token _ _ Hk) as Hkt. split.
  { split; [done|]. cbn [first]. unfold isOneOf. cbn [existsb]. by rewrite !(keyToken_not (tk k)). }
  intros s r Hp Hr'%property_rank. pose proof (pre_rest _ _ _ _ _ Hp) as Hr. rcall. unfold parseObjectProperty. rtok.
  rewrite !(keyToken_not (tk k)) by done. eapply key_step; [done..|]. cbn [fst snd]. apply Pre_next in Hp. rtok. rewrite Hc.
  cbn [teq tokNum Nat.eqb orb negb]. rewrite andb_false_r. eapply colon_step; [done..|]. apply Pre_next in Hp.
  eapply (runs_bind (callOf CAssignment)); [by apply HG|]. rewrite !after_nextSt by done. rewrite (keyToken_not (tk k) ILLEGAL) by done. apply runs_ret.
Qed.

Lemma Good_computed d l ts1 e1 rb c ts2 e2 :
  tk l = LEFT_BRACKET → Good d true Assignment ts1 e1 → tk rb = RIGHT_BRACKET → tk c = COLON → Good d true Assignment ts2 e2 →
  GoodProperty d (l :: ts1 ++ rb :: c :: ts2) (PropertyKeyed e1 e2 true).
Proof.
  intros Hl H1 Hrb Hc H2. split; [by split; [|cbn; rewrite Hl]|]. intros s r Hp Hr'%property_rank. pose proof (pre_rest _ _ _ _ _ Hp) as Hr.
  rcall. unfold parseObjectProperty. rtok. rewrite Hl. cbn [teq tokNum Nat.eqb].
  eapply (runs_bind (λ rec, parseObjectPropertyKey rec) _ _ (Tok ILLEGAL "" "" false false, e1, ILLEGAL) (nextSt (after s (rb :: c :: ts2 ++ r)))).
  - unfold parseObjectPropertyKey. eapply runs_step; [by eapply Pre_curTok|]. rewrite Hl. cbn [teq tokNum Nat.eqb]. rnext. apply Pre_next, Pre_app in Hp.
    eapply (runs_bind (callOf CAssignment)); [apply H1; [done|cbn; unfold tokRank; rewrite Hrb; cbn; lia]|]. apply Pre_after in Hp; [|done].
    rewrite after_nextSt in Hp |- * by done. eapply expect_step; [exact Hp|done|]. apply runs_ret.
  - apply Pre_next, Pre_app in Hp. apply Pre_after in Hp; [|done]. rewrite after_nextSt in Hp by done. apply Pre_next in Hp. cbn [fst snd]. rtok. rewrite Hc.
    cbn [teq tokNum Nat.eqb orb negb]. rewrite andb_false_r. eapply colon_step; [done..|]. apply Pre_next in Hp.
    eapply (runs_bind (callOf CAssignment)); [by apply H2|]. rewrite !after_nextSt, after_after by done. apply runs_ret.
Qed.

Definition GoodProperties (d : nat) (ts : list tok) (ps : list property) : Prop :=
  ∀ s acc r, Pre d true s ts r → headIs r RIGHT_BRACE → ListEnds (callOf (CObjectLiteral acc)) s r (acc ++ ps).

Lemma Good_no_properties d : GoodProperties d [] [].
Proof.
  intros s acc r Hp (t & r' & -> & Ht)%headIs_cons. rewrite app_nil_r. apply ListEnds_here; [|apply (pre_start _ _ _ _ _ Hp)].
  rcall. unfold objectLoop. eapply runs_step; [eapply token_eq, (pre_start _ _ _ _ _ Hp)|]. rewrite Ht. apply runs_ret.
Qed.

(** A property, then what follows it. *)
Lemma objectLoop_item d s acc ts p r R :
  GoodProperty d ts p → Pre d true s ts r → headIs r COMMA ∨ headIs r RIGHT_BRACE →
  runs (λ rec, c ← token; if teq c RIGHT_BRACE then mret (acc ++ [p]) else expect COMMA ;; rec _ (CObjectLiteral (acc ++ [p]))) (after s r) R →
  runs (callOf (CObjectLiteral acc)) s R.
Proof.
  intros [[Hne Hf] HG] Hp Hk HR. rcall. unfold objectLoop. unfold isOneOf in Hf. cbn [existsb] in Hf.
  eapply runs_step; [by eapply Pre_nonempty_token|]. rewrite orb_false_r in Hf. rewrite Hf.
  eapply (runs_bind (callOf CObjectProperty)); [by apply HG|]. exact HR.
Qed.

Lemma Good_last_property d ts p : GoodProperty d ts p → GoodProperties d ts [p].
Proof.
  intros HG s acc r Hp Hh. pose proof (pre_rest _ _ _ _ _ Hp) as Hr. apply ListEnds_after; [done|].
  eapply objectLoop_item; [done..|by right|]. apply headIs_cons in Hh as (t & r' & -> & Ht). rtok. rewrite Ht. apply runs_ret.
Qed.

Lemma Good_properties d ts p c ts' ps : GoodProperty d ts p → tk c = COMMA → GoodProperties d ts' ps → GoodProperties d (ts ++ c :: ts') (p :: ps).
Proof.
  intros HG Hc HI s acc r Hp Hh. pose proof (pre_rest _ _ _ _ _ Hp) as Hr. apply Pre_app in Hp.
  eapply (ListEnds_more _ (callOf (CObjectLiteral (acc ++ [p])))); [| | |rewrite (snoc_app acc p ps); apply HI; [|done]].
  - intros R HR. eapply objectLoop_item; [done..|by left|]. apply Pre_after in Hp; [|done]. rtok. rewrite Hc.
    cbn [teq tokNum Nat.eqb]. eapply expect_step; [exact Hp|done|exact HR].
  - by rewrite nextSt_scope, after_scope.
  - by rewrite nextSt_depth, after_depth.
  - by eapply Pre_next, Pre_after.
Qed.

(** ** Primary expressions *)

Lemma Good_atom d i t e : atom t = Some e → Good d i Primary [t] e.
Proof.
  intros Ha _ s r Hp _. pose proof (pre_rest _ _ _ _ _ Hp) as Hr. destruct (atom_starter t e Ha) as [_ He]. rcall. unfold parsePrimaryExpression.
  eapply runs_step; [by eapply Pre_curTok|]. destruct r as [|u r]; [done|].
  rewrite <- (nextSt_ending s t u r (pre_start _ _ _ _ _ Hp) He). unfold atom in Ha.
  destruct (tk t); try done; repeat case_decide; try done; injection Ha as <-; rnext; apply runs_ret.
Qed.

Lemma Good_parenthesised d i l ts es c :
  tk l = LEFT_PARENTHESIS → Starts ts → GoodSequence d true ts es → tk c = RIGHT_PARENTHESIS → Good d i Primary (l :: ts ++ [c]) (sequenceOf es).
Proof.
  intros Hl Hst HS Hc _ s r Hp _. pose proof (pre_rest _ _ _ _ _ Hp) as Hr. rcall. unfold parsePrimaryExpression.
  eapply runs_step; [by eapply Pre_curTok|]. rewrite Hl. unfold parseParenthesisedExpression. eapply expect_step; [done..|].
  apply Pre_opening in Hp. eapply runs_step; [done|]. rewrite (starts_token _ _ _ _ _ RIGHT_PARENTHESIS Hst Hp) by done. rewrite <- after_nextSt by done.
  eapply (close_list (callOf (CParenthesisLoop [])) (λ l _, mret (match l with [e] => e | _ => SequenceExpression l end))); [|done..].
  apply ListEnds_after; [done|]. by apply (seq_parenthesis _ _ _ _ HS _ []).
Qed.

Lemma Good_array d i l ts es c :
  tk l = LEFT_BRACKET → GoodElements d ts es → tk c = RIGHT_BRACKET → Good d i Primary (l :: ts ++ [c]) (ArrayLiteral es).
Proof.
  intros Hl HI Hc _ s r Hp _. pose proof (pre_rest _ _ _ _ _ Hp) as Hr. rcall. unfold parsePrimaryExpression.
  eapply runs_step; [by eapply Pre_curTok|]. rewrite Hl. unfold parseArrayLiteral. eapply expect_step; [done..|].
  apply Pre_opening in Hp. rewrite <- after_nextSt by done.
  eapply (close_list (callOf (CArrayLiteral [])) (λ l _, mret (ArrayLiteral l))); [by apply (HI _ [] (c :: r))|done..].
Qed.

Lemma Good_object d i l ts ps c :
  tk l = LEFT_BRACE → GoodProperties d ts ps → tk c = RIGHT_BRACE → Good d i Primary (l :: ts ++ [c]) (ObjectLiteral ps).
Proof.
  intros Hl HI Hc _ s r Hp _. pose proof (pre_rest _ _ _ _ _ Hp) as Hr. rcall. unfold parsePrimaryExpression.
  eapply runs_step; [by eapply Pre_curTok|]. rewrite Hl. unfold parseObjectLiteral. eapply expect_step; [done..|].
  apply Pre_opening in Hp. rewrite <- after_nextSt by done.
  eapply (close_list (callOf (CObjectLiteral [])) (λ l _, mret (ObjectLiteral l))); [by apply (HI _ [] (c :: r))|done..].
Qed.

(** ** Member access, calls and optional chains *)

(** The loops a chain is parsed by: where it starts and where it goes on. *)
Definition links (k : chain) (a b : suffixLoop) : Prop :=
  match k with
  | Member => a = b
  | Call => a = CallLoop false ∧ b = CallLoop false
  | OptionalExpr => a = CallLoop false ∧ b = CallLoop true
  end.

Lemma Good_chain d k ts e :
  Good d true (Chain k) ts e ↔ ∀ a b, links k a b → Loops (startThen a) (suffix b) d true ts e 0.
Proof.
  destruct k; cbn; (split; [intros H a b|intros H]).
  - intros ->. by apply H.
  - intros _ a. by apply H.
  - intros [-> ->]. by apply H.
  - intros _. by apply H.
  - intros [-> ->]. by apply H.
  - intros _. by apply H.
Qed.

Definition dotMember (e : expr) : open expr := λ _, parseDotMember e.
Definition bracketMember (e : expr) : open expr := λ rec, parseBracketMember rec e.

Lemma Good_primary d i ts e : Starts ts → derives d i Primary ts e → Good d i Primary ts e → Good d i (Chain Member) ts e.
Proof.
  intros Hst HD HG Hi k s r R Hp Hk HL. unfold startThen. eapply (runs_bind (λ rec, leftHandSideStart rec)); [|exact HL]. unfold leftHandSideStart.
  eapply runs_step; [by eapply Pre_first_token|]. assert (teq (first ts) NEW = false ∧ teq (first ts) IMPORT = false) as [-> ->].
  { split; [|by apply starter_teq]. inversion HD; subst; cbn [first]; try (by rewrite H).
    unfold atom in H. by destruct (tk t). }
  apply (HG Hi); [done|]. destruct r as [|t r]; [by destruct (pre_rest _ _ _ _ _ Hp)|]. cbn. unfold tokRank. destruct (tk t), (ends t); cbn; lia.
Qed.

(** parseDotMember *)
Lemma dotMember_runs d i s e p n r :
  Pre d i s [p; n] r → propertyName n = true → runs (dotMember e) s (Ok (DotExpression e (parsedLiteral n)) (after s r)).
Proof.
  intros Hp Hn. pose proof (pre_rest _ _ _ _ _ Hp) as Hr. unfold dotMember, parseDotMember. rnext. apply Pre_next in Hp.
  eapply runs_step; [by eapply Pre_curTok|]. unfold propertyName in Hn. rewrite Hn. cbn [negb].
  assert (teq (tk n) PRIVATE_IDENTIFIER = false) as -> by by apply teq_ne; intros E; rewrite E in Hn.
  eapply runs_step; [done|]. rnext.
  assert (nextSt (St (cur (nextSt s)) (rest (nextSt s)) true (implicitSemicolon (nextSt s)) (scope_ (nextSt s)) (depth (nextSt s))) = after s r) as ->;
    [|apply runs_ret].
  destruct r as [|u r]; [done|]. pose proof (start_toks _ _ (pre_start _ _ _ _ _ Hp)) as Ht. rewrite (nextSt_after _ n u r) by done.
  apply after_same; [apply nextSt_scope|apply nextSt_depth|done].
Qed.

Lemma bracketMember_runs d i s e l ts2 e2 c r :
  tk l = LEFT_BRACKET → Good d true Expression ts2 e2 → tk c = RIGHT_BRACKET → i = true → Pre d i s (l :: ts2 ++ [c]) r →
  runs (bracketMember e) s (Ok (BracketExpression e e2) (after s r)).
Proof.
  intros Hl HG Hc -> Hp. pose proof (pre_rest _ _ _ _ _ Hp) as Hr. unfold bracketMember, parseBracketMember. eapply expect_step; [done..|].
  apply Pre_opening in Hp. rewrite <- after_nextSt by done.
  eapply (close_list (callOf CExpression) (λ m _, mret (BracketExpression e m))); [|done..]. apply ListEnds_after; [done|]. apply HG; [done|].
  by rewrite (closing_rank (c :: r) RIGHT_BRACKET); [lia|..].
Qed.

Lemma Pre_chain d i s ts1 ts2 r : Pre d i s (ts1 ++ ts2) r → ts2 ≠ [] → Pre d i s ts1 (ts2 ++ r) ∧ Pre d i (after s (ts2 ++ r)) ts2 r.
Proof.
  intros Hp Hne. destruct ts2 as [|t ts2]; [done|]. pose proof (pre_rest _ _ _ _ _ Hp) as Hr. apply Pre_app in Hp. split; [done|]. by eapply Pre_after.
Qed.

(** One more link: the loop goes through it. *)
Lemma Good_link d k k' ts1 e1 ts2 e2 :
  (∀ a b, links k' a b → ∃ b', links k a b' ∧
     ∀ s r R, Pre d true s ts2 r → runs (suffix b e2) (after s r) R → runs (suffix b' e1) s R) →
  ts2 ≠ [] → Good d true (Chain k) ts1 e1 → Good d true (Chain k') (ts1 ++ ts2) e2.
Proof.
  intros Hlink Hne HG. apply Good_chain. intros a b Hab. destruct (Hlink a b Hab) as (b' & Hab' & Hstep). rewrite Good_chain in HG. specialize (HG _ _ Hab').
  intros s r R Hp Hk HL. pose proof (pre_rest _ _ _ _ _ Hp) as Hr. apply Pre_chain in Hp as [Hp1 Hp2]; [|done]. apply (HG s (ts2 ++ r) R Hp1); [lia|].
  eapply Hstep; [exact Hp2|]. by rewrite after_after.
Qed.

Lemma Good_dot d k ts e p n :
  Good d true (Chain k) ts e → tk p = PERIOD → propertyName n = true → Good d true (Chain k) (ts ++ [p; n]) (DotExpression e (parsedLiteral n)).
Proof.
  intros HG Hp Hn. eapply Good_link; [|done|exact HG]. intros a b Hab. exists b. split; [done|]. intros s r R Hpre HL.
  destruct b; cbn [suffix] in *; rcall; [unfold memberLoop|unfold callLoop]; rtok; rewrite Hp;
    (eapply (runs_bind (dotMember e)); [by eapply dotMember_runs|exact HL]).
Qed.

Lemma Good_bracket d k ts1 e1 l ts2 e2 c :
  Good d true (Chain k) ts1 e1 → tk l = LEFT_BRACKET → Good d true Expression ts2 e2 → tk c = RIGHT_BRACKET →
  Good d true (Chain k) (ts1 ++ l :: ts2 ++ [c]) (BracketExpression e1 e2).
Proof.
  intros HG Hl H2 Hc. eapply Good_link; [|done|exact HG]. intros a b Hab. exists b. split; [done|]. intros s r R Hpre HL.
  destruct b; cbn [suffix] in *; rcall; [unfold memberLoop|unfold callLoop]; rtok; rewrite Hl;
    (eapply (runs_bind (bracketMember e1)); [by eapply bracketMember_runs|exact HL]).
Qed.

(** The loop of calls at an opening parenthesis. *)
Lemma callLoop_arguments d s o e ts es r R :
  GoodArguments d ts es → Pre d true s ts r → runs (suffix (CallLoop o) (CallExpression e es)) (after s r) R → runs (suffix (CallLoop o) e) s R.
Proof.
  intros [HA Hf] Hp HL. cbn [suffix] in *. rcall. unfold callLoop. destruct ts as [|t ts]; [done|]. rtok. cbn in Hf. rewrite Hf.
  eapply (runs_bind (λ rec, parseCallExpression rec e)); [|exact HL]. unfold parseCallExpression. eapply (runs_bind argumentList); [by apply HA|]. apply runs_ret.
Qed.

Lemma Good_call d k ts1 e ts2 es :
  Good d true (Chain k) ts1 e → GoodArguments d ts2 es → Good d true (Chain (afterCall k)) (ts1 ++ ts2) (CallExpression e es).
Proof.
  intros HG HA. eapply Good_link; [|destruct HA as [_ Hf]; by destruct ts2|exact HG]. intros a b Hab. exists b.
  assert (links k a b ∧ ∃ o, b = CallLoop o) as [Hl [o ->]] by (destruct k, Hab as [-> ->]; naive_solver).
  split; [done|]. intros s r R Hp HL. by eapply callLoop_arguments.
Qed.

Lemma links_optional k a b : links OptionalExpr a b → ∃ o, links k a (CallLoop o) ∧ b = CallLoop true.
Proof. intros [-> ->]. destruct k; [by exists false|by exists false|by exists true]. Qed.

Lemma Good_optional_dot d k ts e p n :
  Good d true (Chain k) ts e → tk p = QUESTION_DOT → propertyName n = true →
  Good d true (Chain OptionalExpr) (ts ++ [p; n]) (DotExpression (Optional e) (parsedLiteral n)).
Proof.
  intros HG Hp Hn. eapply Good_link; [|done|exact HG]. intros a b (o & Hl & ->)%(links_optional k). exists (CallLoop o). split; [done|].
  intros s r R Hpre HL. cbn [suffix] in *. rcall. unfold callLoop. rtok. rewrite Hp.
  eapply (runs_step peek _ _ (tk n)); [unfold peek; by rewrite (Start_rest _ _ _ (pre_start _ _ _ _ _ Hpre))|].
  assert (isOneOf (tk n) [LEFT_BRACKET; LEFT_PARENTHESIS; BACKTICK] = false) as -> by (unfold propertyName in Hn; by destruct (tk n)).
  eapply (runs_bind (dotMember (Optional e))); [by eapply dotMember_runs|exact HL].
Qed.

(** ?. before a bracket or a parenthesis: the loop goes on after it. *)
Lemma callLoop_optional d s o e p ts r R :
  tk p = QUESTION_DOT → ts ≠ [] → isOneOf (first ts) [LEFT_BRACKET; LEFT_PARENTHESIS; BACKTICK] = true → Pre d true s (p :: ts) r →
  runs (suffix (CallLoop true) (Optional e)) (nextSt s) R → runs (suffix (CallLoop o) e) s R.
Proof.
  intros Hp Hne Hf Hpre HL. cbn [suffix] in *. rcall. unfold callLoop. rtok. rewrite Hp.
  eapply (runs_step peek _ _ (first ts)); [unfold peek; rewrite (Start_rest _ _ _ (pre_start _ _ _ _ _ Hpre)); by destruct ts|]. rewrite Hf. rnext. exact HL.
Qed.

Lemma Good_optional_bracket d k ts1 e1 p l ts2 e2 c :
  Good d true (Chain k) ts1 e1 → tk p = QUESTION_DOT → tk l = LEFT_BRACKET → Good d true Expression ts2 e2 → tk c = RIGHT_BRACKET →
  Good d true (Chain OptionalExpr) (ts1 ++ p :: l :: ts2 ++ [c]) (BracketExpression (Optional e1) e2).
Proof.
  intros HG Hp Hl H2 Hc. eapply Good_link; [|done|exact HG]. intros a b (o & Hlk & ->)%(links_optional k). exists (CallLoop o). split; [done|].
  intros s r R Hpre HL. apply (callLoop_optional d s o e1 p (l :: ts2 ++ [c]) r); [done..|cbn; by rewrite Hl|exact Hpre|]. pose proof (pre_rest _ _ _ _ _ Hpre) as Hr. apply Pre_next in Hpre.
  cbn [suffix] in *. rcall. unfold callLoop. rtok. rewrite Hl.
  eapply (runs_bind (bracketMember (Optional e1))); [by eapply bracketMember_runs|by rewrite after_nextSt].
Qed.

Lemma Good_optional_call d k ts1 e p ts2 es :
  Good d true (Chain k) ts1 e → tk p = QUESTION_DOT → GoodArguments d ts2 es →
  Good d true (Chain OptionalExpr) (ts1 ++ p :: ts2) (CallExpression (Optional e) es).
Proof.
  intros HG Hp HA. pose proof (arguments_first _ _ _ HA) as Hf. eapply Good_link; [|done|exact HG]. intros a b (o & Hlk & ->)%(links_optional k).
  exists (CallLoop o). split; [done|]. intros s r R Hpre HL. pose proof (pre_rest _ _ _ _ _ Hpre) as Hr.
  apply (callLoop_optional d s o e p ts2 r); [done|by destruct ts2|by rewrite Hf|done|]. apply Pre_next in Hpre. eapply callLoop_arguments; [done..|by rewrite after_nextSt].
Qed.

(** ** new *)

Lemma suffix_stop k e i s r : k ≠ CallLoop true → Start s r → r ≠ [] → (2 < headRank i r)%nat → runs (suffix k e) s (Ok e s).
Proof.
  intros Hk Hs Hr Hrk. destruct r as [|t r]; [done|]. cbn in Hrk. unfold tokRank in Hrk.
  destruct k as [|[]]; [|done|]; cbn [suffix]; rcall; [unfold memberLoop|unfold callLoop]; rtok; destruct (tk t); try apply runs_ret; lia.
Qed.

(** The loop of members stops at a parenthesis. *)
Lemma memberLoop_parenthesis s e t r : tk t = LEFT_PARENTHESIS → Start s (t :: r) → runs (suffix MemberLoop e) s (Ok e s).
Proof. intros Ht Hs. cbn [suffix]. rcall. unfold memberLoop. rtok. rewrite Ht. apply runs_ret. Qed.

Lemma optional_stop e i s r : Start s r → r ≠ [] → (2 < headRank i r)%nat → runs (suffix (CallLoop true) e) s (Ok (OptionalChain e) s).
Proof.
  intros Hs Hr Hrk. destruct r as [|t r]; [done|]. cbn in Hrk. unfold tokRank in Hrk. cbn [suffix]. rcall. unfold callLoop. rtok.
  destruct (tk t); try apply runs_ret; lia.
Qed.

Lemma Good_member d ts e : Good d true (Chain Member) ts e → Good d true NewExpr ts e.
Proof.
  intros HG Hi k Hne s r Hp Hk. pose proof (pre_rest _ _ _ _ _ Hp) as Hr. apply (HG Hi k s r); [done|lia|].
  by eapply suffix_stop; [|apply after_start|..].
Qed.

(** A left-hand side that starts with new. *)
Lemma start_new d i s t ts r k e R :
  tk t = NEW → Pre d i s (t :: ts) r → runs (callOf CNew) s (Ok e (after s r)) → runs (suffix k e) (after s r) R → runs (startThen k) s R.
Proof.
  intros Ht Hp HN HL. unfold startThen. eapply (runs_bind (λ rec, leftHandSideStart rec)); [|exact HL]. unfold leftHandSideStart. rtok. by rewrite Ht.
Qed.

(** The start of parseNewExpression, up to the callee. *)
Lemma new_callee d s t ts r e :
  Starts ts → tk t = NEW → Pre (S d) true s (t :: ts) r →
  runs (λ rec, callee ← rec _ CLeftHandSide; c ← token;
               if teq c LEFT_PARENTHESIS then l ← parseArgumentList rec; mret (NewExpression callee l) else mret (NewExpression callee []))
       (nextSt (deeper s)) (Ok e (after (deeper s) r)) →
  runs (callOf CNew) s (Ok e (after s r)).
Proof.
  intros Hst Ht Hp HR. rcall. unfold parseNewExpression. eapply runs_deeper; [exact Hp|]. apply Pre_deeper in Hp.
  eapply expect_step; [done..|]. apply Pre_next in Hp. eapply runs_step; [done|]. by rewrite (starts_token _ _ _ _ _ PERIOD Hst Hp).
Qed.

Lemma Good_new d t ts e : tk t = NEW → Starts ts → Good d true NewExpr ts e → Good (S d) true NewExpr (t :: ts) (NewExpression e []).
Proof.
  intros Ht Hst HG Hi k Hne s r Hp Hk. pose proof (pre_rest _ _ _ _ _ Hp) as Hr.
  eapply start_new; [done..| |by eapply suffix_stop; [|apply after_start|..]]. eapply new_callee; [done..|].
  apply Pre_deeper, Pre_next in Hp. rewrite <- (after_nextSt (deeper s)) by done. eapply (runs_bind (callOf CLeftHandSide)).
  - rcall. by apply (HG Hi MemberLoop).
  - pose proof (head_teq true r LEFT_PARENTHESIS 2 Hk) as Hq. destruct r as [|u r]; [done|]. rtok. rewrite Hq; [apply runs_ret|].
    intros v E. unfold tokRank. rewrite E. lia.
Qed.

Lemma Good_new_call d t ts1 e ts2 es :
  tk t = NEW → Starts ts1 → Good d true (Chain Member) ts1 e → GoodArguments d ts2 es →
  Good (S d) true (Chain Member) (t :: ts1 ++ ts2) (NewExpression e es).
Proof.
  intros Ht Hst HG [HA Hf] Hi k s r R Hp Hk HL. pose proof (pre_rest _ _ _ _ _ Hp) as Hr. destruct ts2 as [|l ts2]; [done|]. cbn in Hf.
  eapply start_new; [done..| |done]. eapply new_callee; [by apply Starts_app|done..|].
  apply Pre_deeper, Pre_next, Pre_chain in Hp as [Hp1 Hp2]; [|done]. rewrite <- (after_nextSt (deeper s)) by done.
  eapply (runs_bind (callOf CLeftHandSide)).
  - rcall. apply (HG Hi MemberLoop _ _ _ Hp1); [lia|]. eapply memberLoop_parenthesis; [exact Hf|by apply after_start].
  - rtok. rewrite Hf, teq_refl. eapply (runs_bind argumentList); [by apply HA|]. rewrite after_after by done. apply runs_ret.
Qed.

(** ** Left-hand sides *)

Lemma lhs_runs s e s' :
  runs (startThen (CallLoop false)) (setIn true s) (Ok e s') → runs (callOf CLeftHandSideAllowCall) s (Ok e (setIn (allowIn (scope_ s)) s')).
Proof.
  intros [n Hn]. rcall. exists n. intros m Hm. specialize (Hn m Hm). unfold parseLeftHandSideExpressionAllowCall.
  unfold startThen, suffix, callOf, mbind, P_bind, get in *. rewrite modifyScope_in.
  destruct (leftHandSideStart _ _); try done. by rewrite Hn.
Qed.

Lemma Good_left d i ts e e' :
  (∀ s r, Pre d true s ts r → (2 < headRank true r)%nat → runs (startThen (CallLoop false)) s (Ok e' (after s r))) →
  e' = e → Good d i LeftHandSide ts e.
Proof.
  intros HG -> s r Hp Hk. pose proof (pre_rest _ _ _ _ _ Hp) as Hr. pose proof (pre_in _ _ _ _ _ Hp) as Hi.
  replace (after s r) with (setIn (allowIn (scope_ s)) (after (setIn true s) r)).
  - apply lhs_runs, HG; [by eapply Pre_in|]. destruct r as [|t r]; [done|]. cbn in *. unfold tokRank in *. destruct (tk t), i; cbn in *; lia.
  - rewrite setIn_after, setIn_setIn, <- (after_scope s r) by done. apply setIn_same.
Qed.

Lemma Good_new_expression d i ts e : Good d true NewExpr ts e → Good d i LeftHandSide ts e.
Proof. intros HG. eapply Good_left; [|done]. by apply HG. Qed.

Lemma Good_call_expression d i ts e : Good d true (Chain Call) ts e → Good d i LeftHandSide ts e.
Proof.
  intros HG. eapply Good_left; [|done]. intros s r Hp Hk. pose proof (pre_rest _ _ _ _ _ Hp) as Hr. apply (HG eq_refl s r); [done|lia|].
  by eapply suffix_stop; [|apply after_start|..].
Qed.

Lemma Good_optional d i ts e : Good d true (Chain OptionalExpr) ts e → Good d i LeftHandSide ts (OptionalChain e).
Proof.
  intros HG. eapply Good_left; [|done]. intros s r Hp Hk. pose proof (pre_rest _ _ _ _ _ Hp) as Hr. apply (HG eq_refl s r); [done|lia|].
  by eapply optional_stop; [apply after_start|..].
Qed.

(** ** Every derivation *)

Create HintDb parser.
#[export] Hint Resolve derives_starts sequence_starts : parser.

Theorem grammar_good :
  (∀ d i c ts e, derives d i c ts e → Good d i c ts e) ∧
  (∀ d i ts es, sequence d i ts es → GoodSequence d i ts es) ∧
  (∀ d ts e, item d ts e → GoodItem d ts e) ∧
  (∀ d ts es, arguments d ts es → GoodArguments d ts es) ∧
  (∀ d ts es, items d ts es → GoodItems d ts es) ∧
  (∀ d ts es, elements d ts es → GoodElements d ts es) ∧
  (∀ d ts p, property_ d ts p → GoodProperty d ts p) ∧
  (∀ d ts ps, properties d ts ps → GoodProperties d ts ps).
Proof.
  apply grammar_mind; intros.
  - by apply seq_expression.
  - apply Good_conditional; eauto with parser.
  - apply Good_assign; eauto with parser.
  - by apply Good_shortCircuit.
  - by apply Good_question.
  - by apply Good_or.
  - by apply Good_coalesce.
  - apply Good_or_and; eauto with parser.
  - by apply Good_or_op.
  - by apply Good_coalesce_first.
  - by apply Good_coalesce_op.
  - by apply Good_operand.
  - by apply Good_binary.
  - apply Good_shift; eauto with parser.
  - by apply Good_relational.
  - apply Good_unary; eauto with parser.
  - by apply Good_exponent.
  - by apply Good_update.
  - by apply Good_unary_op.
  - by apply Good_lhs.
  - by apply Good_prefix.
  - by apply Good_postfix.
  - by apply Good_new_expression.
  - by apply Good_call_expression.
  - by apply Good_optional.
  - destruct i; [by apply Good_member|done].
  - destruct i; [apply Good_new; eauto with parser|done].
  - apply Good_primary; eauto with parser.
  - destruct i; [apply Good_new_call; eauto with parser|done].
  - destruct i; [by apply Good_dot|by destruct k].
  - destruct i; [by apply Good_bracket|by destruct k].
  - destruct i; [by apply Good_call|by destruct k].
  - destruct i; [by eapply Good_optional_dot|done].
  - destruct i; [by eapply Good_optional_bracket|done].
  - destruct i; [by eapply Good_optional_call|done].
  - by apply Good_atom.
  - apply Good_parenthesised; eauto with parser.
  - by apply Good_array.
  - by apply Good_object.
  - apply Good_one; eauto with parser.
  - apply Good_more; eauto with parser.
  - apply Good_item; eauto with parser.
  - by apply Good_spread.
  - by apply Good_arguments.
  - apply Good_no_items.
  - by apply Good_last_item.
  - by apply Good_items.
  - apply Good_no_elements.
  - by apply Good_hole.
  - by apply Good_last_element.
  - by apply Good_elements.
  - by apply Good_keyed.
  - by apply Good_computed.
  - by apply Good_short.
  - by apply Good_property_spread.
  - apply Good_no_properties.
  - by apply Good_last_property.
  - by apply Good_properties.
Qed.

Lemma derives_good d i c ts e : derives d i c ts e → Good d i c ts e.
Proof. apply grammar_good. Qed.
End ParserExpressions.
