(* ===== verification/ParserStatements.v ===== *)
(** * Statements and scripts

    For every derivation of a statement the parser returns its tree and stops
    before the next token; so a script is parsed to the statements of its
    derivation.  An inserted semicolon leaves the flags of the state changed, so
    the statements keep the state only up to them. *)

From S2P Require Import Prelude Parser ParserGrammar ParserCorrect ParserExpressions.
From stdpp Require Import strings.
Import Parser ParserGrammar ParserCorrect ParserExpressions.
Open Scope Z_scope.

Module ParserStatements.

(** ** What a statement keeps *)

(** The scope but for allowLet, and the depth. *)
Definition keeps (s s' : pstate) : Prop := withAllowLet false (scope_ s) = withAllowLet false (scope_ s') ∧ depth s = depth s'.

#[global] Instance keeps_equiv : Equivalence keeps.
Proof.
  split; [done|intros s s' [H1 H2]; by split|]. intros s1 s2 s3 [H1 H2] [H3 H4]. split; congruence.
Qed.

(** The computation returns [a] at the tokens [r]. *)
Definition Done {A} (F : open A) (s : pstate) (r : list tok) (a : A) : Prop :=
  ∃ s', runs F s (Ok a s') ∧ Start s' r ∧ keeps s s'.

Lemma Done_ret {A} (a : A) s r : Start s r → Done (λ _, mret a) s r a.
Proof. intros Hs. exists s. by split; [apply runs_ret|]. Qed.

Lemma Done_bind {A B} (F : open A) (K : A → open B) s r1 r2 a b :
  Done F s r1 a → (∀ s1, Start s1 r1 → keeps s s1 → Done (K a) s1 r2 b) → Done (λ rec, F rec ≫= λ a, K a rec) s r2 b.
Proof.
  intros (s1 & HF & Hs1 & Hk1) HK. destruct (HK s1 Hs1 Hk1) as (s2 & HF2 & Hs2 & Hk2). exists s2.
  split; [by eapply runs_bind|]. split; [done|]. by etrans.
Qed.

Lemma Done_run {A B} (F : open A) (K : A → open B) s s1 r a b :
  runs F s (Ok a s1) → keeps s s1 → Done (K a) s1 r b → Done (λ rec, F rec ≫= λ a, K a rec) s r b.
Proof. intros Hf Hk (s2 & HF2 & Hs2 & Hk2). exists s2. split; [by eapply runs_bind|]. split; [done|]. by etrans. Qed.

Lemma Done_step {A B} (f : P A) (K : A → open B) s s1 r a b :
  f s = Ok a s1 → keeps s s1 → Done (K a) s1 r b → Done (λ rec, f ≫= λ a, K a rec) s r b.
Proof. intros Hf Hk (s2 & HF2 & Hs2 & Hk2). exists s2. split; [by eapply runs_step|]. split; [done|]. by etrans. Qed.

Lemma Done_same {A B} (f : P A) (K : A → open B) s r a b : f s = Ok a s → Done (K a) s r b → Done (λ rec, f ≫= λ a, K a rec) s r b.
Proof. intros Hf. by eapply Done_step. Qed.

Lemma Done_call {A} (c : call A) s r a : Done (λ rec, body rec c) s r a → Done (callOf c) s r a.
Proof. intros (s' & HF & H). exists s'. split; [by apply runs_call|done]. Qed.

Lemma Done_ext {A} (F G : open A) s r a : (∀ rec, F rec = G rec) → Done F s r a → Done G s r a.
Proof. intros E (s' & [n Hn] & H). exists s'. split; [|done]. exists n. intros m Hm. rewrite <- E. by apply Hn. Qed.

Lemma Done_after {A} (F : open A) s r a : r ≠ [] → runs F s (Ok a (after s r)) → Done F s r a.
Proof.
  intros Hr HF. exists (after s r). split; [done|]. split; [by apply after_start|]. split; [by rewrite after_scope|by rewrite after_depth].
Qed.

Lemma nextSt_keeps s : keeps s (nextSt s).
Proof. split; [by rewrite nextSt_scope|by rewrite nextSt_depth]. Qed.

Lemma after_keeps s r : keeps s (after s r).
Proof. split; [by rewrite after_scope|by rewrite after_depth]. Qed.

Lemma Start_next s t ts : Start s (t :: ts) → ts ≠ [] → Start (nextSt s) ts.
Proof. destruct ts as [|u ts]; [done|]. intros Hs _. by eapply nextSt_start. Qed.

Lemma Done_next {B} (K : unit → open B) s t ts r b :
  Start s (t :: ts) → ts ≠ [] → (∀ s1, Start s1 ts → keeps s s1 → Done (K ()) s1 r b) → Done (λ rec, next ≫= λ a, K a rec) s r b.
Proof. intros Hs Hne HK. eapply Done_step; [apply next_eq|apply nextSt_keeps|]. apply HK; [by eapply Start_next|apply nextSt_keeps]. Qed.

Lemma Done_expect {B} (K : unit → open B) s t ts r k b :
  Start s (t :: ts) → tk t = k → ts ≠ [] → (∀ s1, Start s1 ts → keeps s s1 → Done (K ()) s1 r b) → Done (λ rec, expect k ≫= λ a, K a rec) s r b.
Proof.
  intros Hs Hk Hne HK. destruct ts as [|u ts]; [done|]. eapply Done_step; [by eapply expect_eq|apply nextSt_keeps|].
  apply HK; [by eapply Start_next|apply nextSt_keeps].
Qed.

Lemma Done_token {B} (K : Token → open B) s t ts r b : Start s (t :: ts) → Done (K (tk t)) s r b → Done (λ rec, token ≫= λ a, K a rec) s r b.
Proof. intros Hs. eapply Done_same. by eapply token_eq. Qed.

(** A function that counts as a level of nesting. *)
Lemma Done_nesting {A} (F : open A) s r a :
  (S (depth s) ≤ maxNestingDepth)%nat → Done F (deeper s) r a → Done (λ rec, nesting (F rec)) s r a.
Proof.
  intros Hd (s' & HF & [Ht Hi] & [Hk _]). eexists. split; [by apply runs_nesting|]. by split.
Qed.

(** ** The surroundings *)

Record Ctx (d : nat) (c : context) (s : pstate) : Prop := {
  ctx_depth : (depth s + d ≤ maxNestingDepth)%nat;
  ctx_in : allowIn (scope_ s) = true;
  ctx_labels : labels (scope_ s) = labels_ c;
  ctx_loop : inIteration (scope_ s) = loop c;
  ctx_switch : inSwitch (scope_ s) = switch c;
}.

Lemma keeps_fields s s' : keeps s s' →
  allowIn (scope_ s) = allowIn (scope_ s') ∧ labels (scope_ s) = labels (scope_ s') ∧ inIteration (scope_ s) = inIteration (scope_ s') ∧
  inSwitch (scope_ s) = inSwitch (scope_ s') ∧ depth s = depth s'.
Proof. intros [H1 H2]. unfold withAllowLet in H1. by injection H1. Qed.

Lemma Ctx_keeps d c s s' : Ctx d c s → keeps s s' → Ctx d c s'.
Proof. intros [H1 H2 H3 H4 H5] (E1 & E2 & E3 & E4 & E5)%keeps_fields. split; congruence. Qed.

Lemma Ctx_deeper d c s : Ctx (S d) c s → Ctx d c (deeper s).
Proof. intros [H1 H2 H3 H4 H5]. split; try done. cbn. lia. Qed.

Lemma Ctx_le d d' c s : Ctx d c s → (d' ≤ d)%nat → Ctx d' c s.
Proof. intros [H1 H2 H3 H4 H5] Hd. split; try done. lia. Qed.

Lemma Ctx_single d c s : Ctx d c s → Ctx d (single c) s.
Proof. by intros [H1 H2 H3 H4 H5]. Qed.
Lemma Ctx_list d c s : Ctx d c s → Ctx d (inList c) s.
Proof. by intros [H1 H2 H3 H4 H5]. Qed.

Lemma Pre_ctx d c s ts r : Ctx d c s → Start s (ts ++ r) → r ≠ [] → Pre d true s ts r.
Proof. intros [H1 H2 H3 H4 H5] Hs Hr. by split. Qed.

Definition headTok (r : list tok) : tok := firstOf r eofTok.

Lemma stops_rank i r : r ≠ [] → stops i (headTok r) = true ↔ (18 < headRank i r)%nat.
Proof. destruct r as [|t r]; [done|]. intros _. apply Nat.ltb_lt. Qed.

(** Expressions between tokens. *)
Lemma Done_expression d i ts e s r :
  derives d i Expression ts e → Pre d i s ts r → stops i (headTok r) = true → Done (callOf CExpression) s r e.
Proof.
  intros HD Hp Hk. pose proof (pre_rest _ _ _ _ _ Hp) as Hr. apply Done_after; [done|]. apply (derives_good _ _ _ _ _ HD); [done|].
  by apply stops_rank.
Qed.

Lemma Done_assignment d i ts e s r :
  derives d i Assignment ts e → Pre d i s ts r → (17 < headRank i r)%nat → Done (callOf CAssignment) s r e.
Proof.
  intros HD Hp Hk. pose proof (pre_rest _ _ _ _ _ Hp) as Hr. apply Done_after; [done|]. by apply (derives_good _ _ _ _ _ HD).
Qed.

Lemma closing_stops t i k : tk t = k → isOneOf k [RIGHT_PARENTHESIS; RIGHT_BRACKET; RIGHT_BRACE; COLON; SEMICOLON] = true → stops i t = true.
Proof. intros Ht Hk. pose proof (closing_rank [t] k i Ht Hk) as E. cbn in E. unfold stops. by rewrite E. Qed.

(** ( expression ) *)
Lemma Done_test {B} (K : expr → open B) d c s l ts e rp ts1 r b :
  Ctx d c s → Start s (l :: ts ++ rp :: ts1) → tk l = LEFT_PARENTHESIS → derives d true Expression ts e → tk rp = RIGHT_PARENTHESIS → ts1 ≠ [] →
  (∀ s1, Start s1 ts1 → keeps s s1 → Done (K e) s1 r b) →
  Done (λ rec, expect LEFT_PARENTHESIS ≫= λ _, rec _ CExpression ≫= λ e, expect RIGHT_PARENTHESIS ≫= λ _, K e rec) s r b.
Proof.
  intros Hc Hs Hl HD Hrp Hne HK. eapply Done_expect; [done..|by destruct ts|]. intros s1 Hs1 Hk1.
  eapply (Done_bind (callOf CExpression)).
  { eapply Done_expression; [done|eapply Pre_ctx; [by eapply Ctx_keeps|done..]|]. by eapply closing_stops. }
  intros s2 Hs2 Hk2. eapply Done_expect; [done..|]. intros s3 Hs3 Hk3. apply HK; [done|]. by do 2 (etrans; [done|]).
Qed.

(** ** The end of a statement *)

Lemma setImplicit_keeps s b : keeps s (St (cur s) (rest s) (insertSemicolon s) b (scope_ s) (depth s)).
Proof. done. Qed.

Lemma setImplicit_start s b r : Start s r → Start (St (cur s) (rest s) (insertSemicolon s) b (scope_ s) (depth s)) r.
Proof. by intros [H1 H2]. Qed.

(** After a token that ends an expression, where the statement ends. *)
Lemma Done_optionalSemicolon s tm r :
  terminated false tm (headTok r) → r ≠ [] → Done (λ _, optionalSemicolon) (after s (tm ++ r)) r ().
Proof.
  intros HT Hr. inversion HT as [t n Ht _ E1 E2|n Hn Hsemi E1 E2]; subst; cbn [app].
  - pose proof (after_start s (t :: r) ltac:(done)) as Hs. unfold optionalSemicolon. eapply Done_token; [exact Hs|]. rewrite Ht, teq_refl.
    exists (nextSt (after s (t :: r))). split; [apply runs_eq; intros; apply next_eq|]. split; [by eapply Start_next|apply nextSt_keeps].
  - pose proof (after_start s r Hr) as Hs. destruct r as [|u r]; [done|]. cbn [headTok firstOf] in *. unfold optionalSemicolon.
    eapply Done_token; [exact Hs|]. rewrite (teq_ne (tk u) SEMICOLON) by done. eapply (Done_same implicit _ _ _ (ends u)); [done|].
    destruct (ends u) eqn:Eu.
    + exists (St u r (insertAfter (tk u) (negb (newline u) && negb (commentNewline u))) false (scope_ s) (depth s)).
      split; [by apply runs_eq|]. split; [by apply (setImplicit_start _ false) in Hs|done].
    + destruct Hn as [Hn|Hn]; [done|]. rewrite Hn, orb_true_r. by apply Done_ret.
Qed.

Lemma Done_semicolon s tm r :
  terminated true tm (headTok r) → r ≠ [] → Done (λ _, semicolon) (after s (tm ++ r)) r ().
Proof.
  intros HT Hr. inversion HT as [t n Ht Hl E1 E2|n Hn Hsemi E1 E2]; subst; cbn [app].
  - pose proof (after_start s (t :: r) ltac:(done)) as Hs. unfold semicolon. eapply Done_token; [exact Hs|]. rewrite Ht. cbn [teq tokNum Nat.eqb orb].
    eapply (Done_same implicit _ _ _ false); [unfold implicit; cbn; by rewrite Hl|].
    exists (nextSt (after s (t :: r))). split; [|split; [by eapply Start_next|apply nextSt_keeps]].
    apply runs_eq. intros. destruct r; [done|]. by eapply expect_eq.
  - pose proof (after_start s r Hr) as Hs. destruct r as [|u r]; [done|]. cbn [headTok firstOf] in *. unfold semicolon.
    eapply Done_token; [exact Hs|]. destruct (teq (tk u) RIGHT_PARENTHESIS || teq (tk u) RIGHT_BRACE) eqn:E; [by apply Done_ret|].
    eapply (Done_same implicit _ _ _ true).
    { unfold implicit. cbn. destruct Hn as [Hn|Hn]; [by rewrite Hn|]. by rewrite Hn in E. }
    exists (St u r (insertAfter (tk u) (negb (newline u) && negb (commentNewline u))) false (scope_ s) (depth s)).
    split; [by apply runs_eq|]. split; [by apply (setImplicit_start _ false) in Hs|done].
Qed.

(** ** Statements in their contexts *)

Definition noStatement : list Token := [EOF; RIGHT_BRACE; CASE; DEFAULT].

Definition blockStatement : open stmt := λ rec, l ← parseBlockStatement rec; mret (BlockStatement l).

Record GoodStatement (d : nat) (c : context) (ts : list tok) (n : tok) (st : stmt) : Prop := {
  stmt_first : ts ≠ [] ∧ isOneOf (first ts) noStatement = false;
  stmt_done s r :
    Ctx d c s → (declares c = true → allowLet (scope_ s) = true) → Start s (ts ++ r) → r ≠ [] → headTok r = n → Done (callOf CStatement) s r st;
  stmt_block s r :
    Ctx d c s → first ts = LEFT_BRACE → Start s (ts ++ r) → r ≠ [] → headTok r = n → Done blockStatement s r st;
}.

Record GoodBlock (d : nat) (c : context) (ts : list tok) (l : list stmt) : Prop := {
  block_first : first ts = LEFT_BRACE;
  block_done s r : Ctx d c s → Start s (ts ++ r) → r ≠ [] → Done (λ rec, parseBlockStatement rec) s r l;
}.

(** A loop over the statements of a list, up to a token of [stop]. *)
Record isListLoop (L : list stmt → call (list stmt)) (stop : Token → bool) : Prop := {
  loop_body rec l :
    body rec (L l) = (c ← token; if stop c then mret l
                                 else modifyScope (withAllowLet true) ;; s ← rec _ CStatement; rec _ (L (l ++ [s])));
  loop_stop t : stop t = true → isOneOf t noStatement = true;
}.

Lemma isListLoop_block : isListLoop CStatementList (λ c, teq c RIGHT_BRACE || teq c EOF).
Proof. split; [done|]. intros t. by destruct t. Qed.
Lemma isListLoop_case : isListLoop CCaseLoop (λ c, isOneOf c [EOF; RIGHT_BRACE; CASE; DEFAULT]).
Proof. by split. Qed.
Lemma isListLoop_program : isListLoop CSourceElements (λ c, teq c EOF).
Proof. split; [done|]. intros t. by destruct t. Qed.

Definition GoodStatements (d : nat) (c : context) (ts : list tok) (n : tok) (l : list stmt) : Prop :=
  ∀ L stop s acc r, isListLoop L stop → Ctx d c s → Start s (ts ++ r) → r ≠ [] → headTok r = n → stop (tk n) = true →
    Done (callOf (L acc)) s r (acc ++ l).

Lemma Start_deeper s r : Start s r → Start (deeper s) r.
Proof. by intros [H1 H2]. Qed.

Lemma Start_first s ts r : ts ≠ [] → Start s (ts ++ r) → token s = Ok (first ts) s.
Proof. destruct ts as [|t ts]; [done|]. intros _ Hs. by eapply token_eq. Qed.

Lemma Done_first {B} (K : Token → open B) s ts r' r b :
  ts ≠ [] → Start s (ts ++ r') → Done (K (first ts)) s r b → Done (λ rec, token ≫= λ a, K a rec) s r b.
Proof. intros Hne Hs. eapply Done_same. by eapply Start_first. Qed.

Definition setLet (b : bool) (s : pstate) : pstate :=
  St (cur s) (rest s) (insertSemicolon s) (implicitSemicolon s) (withAllowLet b (scope_ s)) (depth s).

Lemma setLet_keeps b s : keeps s (setLet b s).
Proof. done. Qed.
Lemma setLet_start b s r : Start s r → Start (setLet b s) r.
Proof. by intros [H1 H2]. Qed.

Lemma Done_setLet {B} (K : unit → open B) b s r x :
  Done (K ()) (setLet b s) r x → Done (λ rec, modifyScope (withAllowLet b) ≫= λ a, K a rec) s r x.
Proof. intros HK. by eapply Done_step; [| |exact HK]. Qed.

(** *** Lists of statements *)

Lemma Good_nil d c n : GoodStatements d c [] n [].
Proof.
  intros L stop s acc r [HL _] Hc Hs Hr Hn Hst. rewrite app_nil_r. apply Done_call. destruct r as [|t r]; [done|]. cbn in Hs, Hn. subst n.
  eapply (Done_ext _ _); [intros rec; symmetry; apply HL|]. eapply Done_token; [done|]. rewrite Hst. by apply Done_ret.
Qed.

Lemma headTok_app ts r : headTok (ts ++ r) = firstOf ts (headTok r).
Proof. by destruct ts. Qed.

Lemma Good_cons d c ts st ts' n l :
  declares c = true → GoodStatement d c ts (firstOf ts' n) st → GoodStatements d c ts' n l → GoodStatements d c (ts ++ ts') n (st :: l).
Proof.
  intros Hd [[Hne Hf] HS _] HL L stop s acc r HLoop Hc Hs Hr Hn Hst. rewrite <- app_assoc in Hs. apply Done_call.
  eapply (Done_ext _ _); [intros rec; symmetry; apply HLoop|]. eapply Done_first; [exact Hne|exact Hs|].
  destruct (stop (first ts)) eqn:E; [by rewrite (loop_stop _ _ HLoop _ E) in Hf|]. eapply Done_setLet. eapply (Done_bind (callOf CStatement)).
  - apply HS; [by eapply Ctx_keeps; [|apply setLet_keeps]|done|by apply setLet_start| |].
    + by intros [_ ->]%app_nil.
    + by rewrite headTok_app, Hn.
  - intros s1 Hs1 Hk1. rewrite (snoc_app acc st l). eapply HL; [done| |done..]. eapply Ctx_keeps; [done|]. etrans; [apply (setLet_keeps true)|done].
Qed.

Lemma Good_braces d c lb ts l rb :
  tk lb = LEFT_BRACE → GoodStatements d (inList c) ts rb l → tk rb = RIGHT_BRACE → GoodBlock d c (lb :: ts ++ [rb]) l.
Proof.
  intros Hl HL Hrb. split; [done|]. intros s r Hc Hs Hr. unfold parseBlockStatement. cbn in Hs. rewrite <- app_assoc in Hs. cbn in Hs.
  eapply Done_expect; [done..|by destruct ts|]. intros s1 Hs1 Hk1. eapply (Done_bind (callOf (CStatementList []))).
  { eapply (HL _ _ _ [] (rb :: r) isListLoop_block); [apply Ctx_list; by eapply Ctx_keeps|done..|cbn; by rewrite Hrb]. }
  intros s2 Hs2 Hk2. eapply Done_expect; [done..|]. intros s3 Hs3 Hk3. by apply Done_ret.
Qed.

(** A statement that starts with the token [t]. *)
Lemma Good_start d c t ts n st :
  isOneOf (tk t) (LEFT_BRACE :: noStatement) = false →
  (∀ s r, Ctx d c s → (declares c = true → allowLet (scope_ s) = true) → Start s (t :: ts ++ r) → r ≠ [] → headTok r = n →
          ∃ F, (∀ rec, parseStatement rec = nesting (token ≫= λ k, F k rec)) ∧ Done (F (tk t)) s r st) →
  GoodStatement (S d) c (t :: ts) n st.
Proof.
  intros Hf HF. cbn [isOneOf existsb] in Hf. apply orb_false_iff in Hf as [Hb Hf]. split; [done| |].
  - intros s r Hc Hlet Hs Hr Hn. apply Done_call. cbn [body]. pose proof (ctx_depth _ _ _ Hc) as Hd. apply Ctx_deeper in Hc. apply Start_deeper in Hs.
    destruct (HF (deeper s) r Hc Hlet Hs Hr Hn) as (F & HE & HD). eapply Done_ext; [intros rec; symmetry; apply HE|].
    apply Done_nesting; [lia|]. by eapply Done_token.
  - cbn [first]. intros s r _ E. by rewrite E in Hb.
Qed.

(** Starts the proof of a rule: the branch of parseStatement for the first token. *)
Ltac rstmt Ht :=
  apply Good_start; [by rewrite Ht|]; intros s r Hc Hlet Hs Hr Hn; eexists; split; [intros rec; reflexivity|]; rewrite Ht.

Lemma Good_empty d c t n : tk t = SEMICOLON → GoodStatement (S d) c [t] n EmptyStatement.
Proof. intros Ht. rstmt Ht. unfold parseEmptyStatement. eapply Done_expect; [done..|]. intros s1 Hs1 Hk1. by apply Done_ret. Qed.

Lemma Done_blockStatement d c ts l s r : GoodBlock d c ts l → Ctx d c s → Start s (ts ++ r) → r ≠ [] → Done blockStatement s r (BlockStatement l).
Proof. intros HB Hc Hs Hr. eapply (Done_bind (λ rec, parseBlockStatement rec)); [by apply HB|]. intros s1 Hs1 _. by apply Done_ret. Qed.

Lemma Good_block d c ts n l : GoodBlock d c ts l → GoodStatement (S d) c ts n (BlockStatement l).
Proof.
  intros HB. pose proof (block_first _ _ _ _ HB) as Hf. assert (ts ≠ []) as Hne by by destruct ts. split.
  - split; [done|]. by rewrite Hf.
  - intros s r Hc Hlet Hs Hr Hn. apply Done_call. cbn [body]. unfold parseStatement. apply Done_nesting; [pose proof (ctx_depth _ _ _ Hc); lia|].
    apply Start_deeper in Hs. eapply Done_first; [exact Hne|exact Hs|]. rewrite Hf. eapply Done_blockStatement; [done|by apply Ctx_deeper|done..].
  - intros s r Hc _ Hs Hr Hn. eapply Done_blockStatement; [done| |done..]. eapply Ctx_le; [done|lia].
Qed.

(** *** Bodies *)

Lemma Done_body d c ts st s r :
  declares c = false → GoodStatement d c ts (headTok r) st → Ctx d c s → Start s (ts ++ r) → r ≠ [] → Done (λ rec, parseBody rec) s r st.
Proof.
  intros Hd HS Hc Hs Hr. unfold parseBody. apply Done_setLet. apply (stmt_done _ _ _ _ _ HS); [|by rewrite Hd|by apply setLet_start|done..].
  eapply Ctx_keeps; [done|apply setLet_keeps].
Qed.

(** The body of an if or a do: a block without a level of nesting, or a statement. *)
Definition openBody (k : Token) : open stmt := λ rec,
  if teq k LEFT_BRACE then l ← parseBlockStatement rec; mret (BlockStatement l) else parseBody rec.

Lemma Done_openBody d c ts st s r :
  declares c = false → GoodStatement d c ts (headTok r) st → Ctx d c s → Start s (ts ++ r) → r ≠ [] → Done (openBody (first ts)) s r st.
Proof.
  intros Hd HS Hc Hs Hr. unfold openBody. destruct (teq (first ts) LEFT_BRACE) eqn:E; [|by eapply Done_body].
  apply teq_eq in E. by eapply (stmt_block _ _ _ _ _ HS).
Qed.

Definition setLoop (b : bool) (s : pstate) : pstate :=
  St (cur s) (rest s) (insertSemicolon s) (implicitSemicolon s) (withIteration b (scope_ s)) (depth s).

Lemma Done_loop {A} (F : open A) s r a : Done F (setLoop true s) r a → Done (λ rec, withFlag withIteration inIteration (F rec)) s r a.
Proof.
  intros (s' & HF & [Ht Hi] & Hk). exists (setLoop (inIteration (scope_ s)) s'). split.
  - unfold withFlag. eapply runs_step; [done|]. eapply runs_step; [done|]. eapply runs_bind; [exact HF|]. eapply runs_step; [done|]. apply runs_ret.
  - split; [by split|]. destruct Hk as [Hk Hd]. split; [|done]. cbn in *. unfold withAllowLet, withIteration in *. cbn in *. injection Hk; intros; f_equal; congruence.
Qed.

Lemma Ctx_loop d c s : Ctx d c s → Ctx d (inLoop c) (setLoop true s).
Proof. intros [H1 H2 H3 H4 H5]. by split. Qed.

Lemma Done_iteration d c ts st s r :
  GoodStatement d (inLoop c) ts (headTok r) st → Ctx d c s → Start s (ts ++ r) → r ≠ [] → Done (λ rec, parseIterationStatement rec) s r st.
Proof.
  intros HS Hc [H1 H2] Hr. unfold parseIterationStatement. apply Done_loop. eapply Done_body; [|done|by apply Ctx_loop|by split|done]. done.
Qed.

(** *** Expression statements and labels *)

Ltac norm H := cbn [app] in H; repeat (rewrite <- app_assoc in H; cbn [app] in H).

Lemma expression_run d c ts e s r :
  derives d true Expression ts e → Ctx d c s → Start s (ts ++ r) → r ≠ [] → stops true (headTok r) = true →
  runs (callOf CExpression) s (Ok e (after s r)).
Proof.
  intros HD Hc Hs Hr Hk. apply (derives_good _ _ _ _ _ HD); [by eapply Pre_ctx|]. by apply stops_rank.
Qed.

Lemma Done_finish {A} (f : P unit) (a : A) s r : Done (λ _, f) s r () → Done (λ _, f ≫= λ _, mret a) s r a.
Proof. intros HD. eapply (Done_bind (λ _, f)); [exact HD|]. intros s1 Hs1 _. by apply Done_ret. Qed.

Lemma Good_expression d c ts e tm n :
  derives d true Expression ts e → tk (firstOf ts n) ≠ LEFT_BRACE → terminated false tm n → stops true (firstOf tm n) = true → tk (firstOf tm n) ≠ COLON →
  GoodStatement (S d) c (ts ++ tm) n (ExpressionStatement e).
Proof.
  intros HD Hb HT Hstop Hcol. destruct (derives_starts _ _ _ _ _ HD) as (t & ts' & -> & Ht). cbn [firstOf app] in *. apply Good_start.
  { rewrite <- not_true_iff_false, isOneOf_In. intros Hin. set_unfold. by destruct Hin as [E|[E|[E|[E|[E|[]]]]]]; rewrite E in Ht. }
  intros s r Hc _ Hs Hr Hn. norm Hs. eexists. split; [intros rec; reflexivity|].
  apply (Done_ext (λ rec, parseExpressionStatement rec)); [intros rec; by destruct (tk t)|]. unfold parseExpressionStatement.
  assert (tm ++ r ≠ []) as Hne by by intros [_ ->]%app_nil. rewrite <- Hn in HT. rewrite <- Hn, <- headTok_app in Hstop, Hcol.
  eapply (Done_run (callOf CExpression)); [by eapply expression_run|apply after_keeps|].
  destruct (tm ++ r) as [|u v] eqn:E; [done|]. eapply Done_token; [by apply after_start|]. rewrite <- E.
  assert (Done (λ _, optionalSemicolon ;; mret (ExpressionStatement e)) (after s (tm ++ r)) r (ExpressionStatement e)) as HF.
  { by apply Done_finish, Done_optionalSemicolon. }
  cbn in Hcol. destruct e; try exact HF. by rewrite teq_ne.
Qed.

Lemma identifier_derives d i x : tk x = IDENTIFIER → derives (S (S d)) i Expression [x] (Identifier (parsedLiteral x)).
Proof.
  intros Hx. change (Identifier (parsedLiteral x)) with (sequenceOf [Identifier (parsedLiteral x)]). apply D_expression, D_one, D_conditional.
  apply D_shortCircuit, D_or, D_or_and, D_operand, (D_operand _ _ BitwiseOr), (D_operand _ _ BitwiseExclusiveOr), (D_operand _ _ BitwiseAnd).
  apply (D_operand _ _ Equality), D_shift, D_operand, (D_operand _ _ Additive), (D_operand _ _ Multiplicative), D_unary, D_update, D_lhs.
  apply D_new_expression, D_member, D_primary, D_atom.
  unfold atom. by rewrite Hx.
Qed.

Definition setLabels (l : list string) (s : pstate) : pstate :=
  St (cur s) (rest s) (insertSemicolon s) (implicitSemicolon s) (withLabels l (scope_ s)) (depth s).

Lemma Good_label d c x k ts st n :
  tk x = IDENTIFIER → tk k = COLON → parsedLiteral x ∉ labels_ c → GoodStatement (S (S d)) (withLabel (parsedLiteral x) c) ts n st →
  GoodStatement (S (S (S d))) c (x :: k :: ts) n (LabelledStatement (parsedLiteral x) st).
Proof.
  intros Hx Hk Hl HG. rstmt Hx. norm Hs. unfold parseExpressionStatement.
  assert (ts ++ r ≠ []) as Hne by by intros [_ ->]%app_nil.
  eapply (Done_bind (callOf CExpression)).
  { eapply Done_expression; [by apply identifier_derives|by eapply (Pre_ctx _ _ _ [x] (k :: ts ++ r))|]. by eapply closing_stops. }
  intros s1 Hs1 Hk1. eapply Done_token; [done|]. rewrite Hk. cbn [teq tokNum Nat.eqb]. eapply Done_next; [done..|]. intros s2 Hs2 Hk2.
  eapply Done_same; [done|]. pose proof (Ctx_keeps _ _ _ _ (Ctx_keeps _ _ _ _ Hc Hk1) Hk2) as Hc2.
  assert (hasLabel (parsedLiteral x) (scope_ s2) = false) as ->.
  { unfold hasLabel. rewrite (ctx_labels _ _ _ Hc2). by apply bool_decide_eq_false. }
  destruct (stmt_done _ _ _ _ _ HG (setLet false (setLabels (labels (scope_ s2) ++ [parsedLiteral x]) s2)) r) as (s3 & HF & [Ht3 Hi3] & Hk3).
  { destruct Hc2 as [H1 H2 H3 H4 H5]. split; try done. cbn. by rewrite H3. }
  { done. } { destruct Hs2 as [H1 H2]. by split. } { done. } { done. }
  exists (setLabels (labels (scope_ s2)) s3). split.
  - eapply runs_step; [done|]. eapply runs_step; [done|]. eapply (runs_bind (callOf CStatement)); [exact HF|]. eapply runs_step; [done|]. apply runs_ret.
  - split; [by split|]. destruct Hk3 as [Hk3 Hd3]. split; [|done]. cbn in *. unfold withAllowLet, withLabels in *. cbn in *.
    injection Hk3. intros. f_equal; congruence.
Qed.

(** *** if, with and the loops *)

Lemma app_nonempty {A} (l r : list A) : r ≠ [] → l ++ r ≠ [].
Proof. by intros Hr [_ ->]%app_nil. Qed.
#[local] Hint Resolve app_nonempty : parser.

Lemma Good_nonempty d c ts n st : GoodStatement d c ts n st → ts ≠ [].
Proof. by intros [[H _] _ _]. Qed.

(** The state after several steps keeps the context. *)
Ltac keep := first [eassumption | eapply Ctx_keeps; [|eassumption]; keep].
Ltac kctx := first [keep | apply Ctx_single; keep | apply Ctx_list; keep].

Lemma Good_if d c t l ts e rp ts1 s1 n :
  tk t = IF → tk l = LEFT_PARENTHESIS → derives d true Expression ts e → tk rp = RIGHT_PARENTHESIS → GoodStatement d (single c) ts1 n s1 → tk n ≠ ELSE →
  GoodStatement (S d) c (t :: l :: ts ++ rp :: ts1) n (IfStatement e s1 None).
Proof.
  intros Ht Hl HD Hrp HG Hn'. rstmt Ht. norm Hs. unfold parseIfStatement. pose proof (Good_nonempty _ _ _ _ _ HG) as Hne.
  eapply Done_expect; [done..|]. intros s2 Hs2 Hk2. eapply Done_test; [kctx|done..|by apply app_nonempty|]. intros s3 Hs3 Hk3.
  eapply Done_first; [exact Hne|exact Hs3|]. eapply (Done_bind (openBody (first ts1))).
  { apply (Done_openBody d (single c) ts1 s1 s3 r); [done|by rewrite Hn|kctx|done..]. }
  intros s4 Hs4 Hk4. destruct r as [|u r]; [done|]. eapply Done_token; [done|]. cbn in Hn. subst n. rewrite teq_ne by done. by apply Done_ret.
Qed.

Lemma Good_if_else d c t l ts e rp ts1 s1 el ts2 s2 n :
  tk t = IF → tk l = LEFT_PARENTHESIS → derives d true Expression ts e → tk rp = RIGHT_PARENTHESIS → GoodStatement d (single c) ts1 el s1 →
  tk el = ELSE → GoodStatement d (single c) ts2 n s2 →
  GoodStatement (S d) c (t :: l :: ts ++ rp :: ts1 ++ el :: ts2) n (IfStatement e s1 (Some s2)).
Proof.
  intros Ht Hl HD Hrp HG1 Hel HG2. rstmt Ht. norm Hs. unfold parseIfStatement. pose proof (Good_nonempty _ _ _ _ _ HG1) as Hne.
  eapply Done_expect; [done..|]. intros s3 Hs3 Hk3. eapply Done_test; [kctx|done..|by apply app_nonempty|]. intros s4 Hs4 Hk4.
  eapply Done_first; [exact Hne|exact Hs4|]. eapply (Done_bind (openBody (first ts1))).
  { apply (Done_openBody d (single c) ts1 s1 s4 (el :: ts2 ++ r)); [done|done|kctx|done..]. }
  intros s5 Hs5 Hk5. eapply Done_token; [done|]. rewrite Hel, teq_refl. eapply Done_next; [done|by apply app_nonempty|]. intros s6 Hs6 Hk6.
  eapply (Done_bind (λ rec, parseBody rec)); [apply (Done_body d (single c) ts2 s2 s6 r); [done|by rewrite Hn|kctx|done..]|]. intros s7 Hs7 Hk7. by apply Done_ret.
Qed.

Lemma Good_with d c t l ts e rp ts1 s1 n :
  tk t = WITH → tk l = LEFT_PARENTHESIS → derives d true Expression ts e → tk rp = RIGHT_PARENTHESIS → GoodStatement d (single c) ts1 n s1 →
  GoodStatement (S d) c (t :: l :: ts ++ rp :: ts1) n (WithStatement e s1).
Proof.
  intros Ht Hl HD Hrp HG. rstmt Ht. norm Hs. unfold parseWithStatement.
  eapply Done_expect; [done..|]. intros s2 Hs2 Hk2. eapply Done_test; [kctx|done..|by apply app_nonempty|]. intros s3 Hs3 Hk3.
  eapply (Done_bind (λ rec, parseBody rec)); [apply (Done_body d (single c) ts1 s1 s3 r); [done|by rewrite Hn|kctx|done..]|]. intros s4 Hs4 Hk4. by apply Done_ret.
Qed.

Lemma Good_while d c t l ts e rp ts1 s1 n :
  tk t = WHILE → tk l = LEFT_PARENTHESIS → derives d true Expression ts e → tk rp = RIGHT_PARENTHESIS → GoodStatement d (inLoop c) ts1 n s1 →
  GoodStatement (S d) c (t :: l :: ts ++ rp :: ts1) n (WhileStatement e s1).
Proof.
  intros Ht Hl HD Hrp HG. rstmt Ht. norm Hs. unfold parseWhileStatement.
  eapply Done_expect; [done..|]. intros s2 Hs2 Hk2. eapply Done_test; [kctx|done..|by apply app_nonempty|]. intros s3 Hs3 Hk3.
  eapply (Done_bind (λ rec, parseIterationStatement rec)); [apply (Done_iteration d c ts1 s1 s3 r); [by rewrite Hn|kctx|done..]|]. intros s4 Hs4 Hk4. by apply Done_ret.
Qed.

Lemma Good_do d c t ts1 s1 w l ts e rp tm n :
  tk t = DO → GoodStatement d (inLoop c) ts1 w s1 → tk w = WHILE → tk l = LEFT_PARENTHESIS → derives d true Expression ts e → tk rp = RIGHT_PARENTHESIS →
  (tm = [] ∧ tk n ≠ SEMICOLON ∨ ∃ u, tm = [u] ∧ tk u = SEMICOLON) →
  GoodStatement (S d) c (t :: ts1 ++ w :: l :: ts ++ rp :: tm) n (DoWhileStatement s1 e).
Proof.
  intros Ht HG Hw Hl HD Hrp Htm. rstmt Ht. norm Hs. unfold parseDoWhileStatement. apply Done_loop. apply Ctx_loop in Hc.
  assert (Start (setLoop true s) (t :: ts1 ++ w :: l :: ts ++ rp :: tm ++ r)) as Hs' by by destruct Hs. pose proof (Good_nonempty _ _ _ _ _ HG) as Hne.
  eapply Done_expect; [done..|by apply app_nonempty|]. intros s2 Hs2 Hk2. eapply Done_first; [exact Hne|exact Hs2|]. eapply (Done_bind (openBody (first ts1))).
  { apply (Done_openBody d (inLoop c) ts1 s1 s2 (w :: l :: ts ++ rp :: tm ++ r)); [done|done|keep|done..]. }
  intros s3 Hs3 Hk3. eapply Done_expect; [done..|]. intros s4 Hs4 Hk4. eapply Done_test; [keep|done..|by apply app_nonempty|]. intros s5 Hs5 Hk5.
  destruct Htm as [[-> Hsemi]|(u & -> & Hu)]; cbn [app] in *.
  - destruct r as [|v r]; [done|]. eapply Done_token; [done|]. cbn in Hn. subst n. rewrite teq_ne by done. eapply Done_same; [done|]. by apply Done_ret.
  - eapply Done_token; [done|]. rewrite Hu, teq_refl. eapply Done_next; [done..|]. intros s6 Hs6 Hk6. by apply Done_ret.
Qed.

(** *** Declarations *)

Definition variableDeclaration : open binding := λ rec, parseVariableDeclaration rec.

(** An identifier that is bound. *)
Lemma bindingTarget_runs d i s t r : Pre d i s [t] r → tk t = IDENTIFIER → runs (λ _, parseBindingTarget) s (Ok (parsedLiteral t) (after s r)).
Proof.
  intros Hp Ht. pose proof (pre_rest _ _ _ _ _ Hp) as Hr. pose proof (pre_start _ _ _ _ _ Hp) as Hs. unfold parseBindingTarget.
  eapply runs_step; [eapply tokenToBindingId_starter; [exact Hs|by eapply Starts_cons]|]. rtok. rewrite Ht, teq_refl. unfold parseIdentifier.
  eapply runs_step; [by eapply Pre_curTok|]. rnext. destruct r as [|u r]; [done|].
  rewrite (nextSt_ending s t u r) by (exact Hs || by rewrite Ht). apply runs_ret.
Qed.

Definition declarationEnds (i : bool) (b : binding) (r : list tok) : Prop :=
  match initializer b with Some _ => (17 < headRank i r)%nat | None => teq (tk (headTok r)) ASSIGN = false end.

Lemma Good_binding d i ts b s r : binding_ d i ts b → Pre d i s ts r → declarationEnds i b r → runs variableDeclaration s (Ok b (after s r)).
Proof.
  intros HB Hp Hend. pose proof (pre_rest _ _ _ _ _ Hp) as Hr. unfold variableDeclaration, parseVariableDeclaration.
  destruct HB as [d i t Ht|d i t a ts e Ht Ha HD]; cbn in Hend.
  - eapply (runs_bind (λ _, parseBindingTarget)); [by eapply bindingTarget_runs|]. destruct r as [|u r]; [done|]. rtok. cbn in Hend. rewrite Hend. apply runs_ret.
  - assert (Pre d i s [t] (a :: ts ++ r)) as Hp1 by (apply (Pre_app _ _ _ [t] a ts r); exact Hp).
    eapply (runs_bind (λ _, parseBindingTarget)); [by eapply bindingTarget_runs|]. apply Pre_after in Hp1; [|done]. rtok. rewrite Ha, teq_refl. rnext.
    apply Pre_next in Hp1. eapply (runs_bind (callOf CAssignment)); [by apply (derives_good _ _ _ _ _ HD)|].
    rewrite after_nextSt, after_after by done. apply runs_ret.
Qed.

Definition GoodBindings (d : nat) (i : bool) (ts : list tok) (l : list binding) : Prop :=
  ∀ s acc r, Pre d i s ts r → stopsBindings i l (headTok r) = true → runs (callOf (CVariables acc)) s (Ok (acc ++ l) (after s r)).

Lemma bindings_nonempty d i ts l : bindings d i ts l → l ≠ [].
Proof. by destruct 1. Qed.

Lemma bindings_starts d i ts l : bindings d i ts l → first ts = IDENTIFIER.
Proof. destruct 1 as [d i ts b HB|d i ts b c ts' bs HB]; by destruct HB. Qed.

Lemma Good_bindings d i ts l : bindings d i ts l → GoodBindings d i ts l.
Proof.
  induction 1 as [d i ts b HB|d i ts b c ts' bs HB Hc HBs IH]; intros s acc r Hp Hend; pose proof (pre_rest _ _ _ _ _ Hp) as Hr.
  - rcall. unfold variablesLoop. unfold stopsBindings in Hend. cbn in Hend.
    assert (declarationEnds i b r ∧ teq (tk (headTok r)) COMMA = false) as [HE Hcomma].
    { unfold declarationEnds. destruct b as [x [e|]]; cbn.
      - apply stops_rank in Hend; [|done]. split; [lia|]. destruct r as [|t r]; [done|]. cbn. by eapply head_not_comma.
      - apply negb_true_iff in Hend. cbn in Hend. rewrite !orb_false_iff in Hend. naive_solver. }
    eapply (runs_bind variableDeclaration); [by eapply Good_binding|]. destruct r as [|t r]; [done|]. rtok. cbn in Hcomma. rewrite Hcomma. apply runs_ret.
  - apply Pre_app in Hp. rcall. unfold variablesLoop. eapply (runs_bind variableDeclaration).
    { eapply Good_binding; [done..|]. unfold declarationEnds. cbn. rewrite (comma_rank c i Hc), Hc. destruct (initializer b); [lia|done]. }
    apply Pre_after in Hp; [|done]. rtok. rewrite Hc, teq_refl. rnext. apply Pre_next in Hp. rewrite (snoc_app acc b bs).
    rewrite <- (after_after s (c :: ts' ++ r) r), <- (after_nextSt (after s (c :: ts' ++ r)) r) by done. apply IH; [done|].
    unfold stopsBindings in *. by destruct bs; [by apply bindings_nonempty in HBs|].
Qed.

(** The statements that end with a semicolon, explicit or inserted. *)
Lemma Done_declarations (mk : list binding → stmt) d c ts l s tm r :
  bindings d true ts l → Ctx d c s → Start s (ts ++ tm ++ r) → r ≠ [] → terminated true tm (headTok r) → stopsBindings true l (headTok (tm ++ r)) = true →
  Done (λ rec, l ← rec _ (CVariables []); semicolon ;; mret (mk l)) s r (mk l).
Proof.
  intros HB Hc Hs Hr HT Hend. assert (tm ++ r ≠ []) as Hne by by apply app_nonempty.
  eapply (Done_run (callOf (CVariables []))); [by apply (Good_bindings _ _ _ _ HB); [eapply Pre_ctx|]|apply after_keeps|].
  by apply Done_finish, Done_semicolon.
Qed.

Lemma Good_var d c t ts l tm n :
  tk t = VAR → bindings d true ts l → terminated true tm n → stopsBindings true l (firstOf tm n) = true →
  GoodStatement (S d) c (t :: ts ++ tm) n (VariableStatement l).
Proof.
  intros Ht HB HT Hend. rstmt Ht. norm Hs. subst n. rewrite <- headTok_app in Hend. unfold parseVariableStatement.
  eapply Done_expect; [done..|by apply app_nonempty, app_nonempty|]. intros s1 Hs1 Hk1. by eapply Done_declarations; [|keep|..].
Qed.

Lemma Done_lexical d c t ts l tm s r :
  tk t = LET ∨ tk t = CONST → allowLet (scope_ s) = true → bindings d true ts l → Ctx d c s → Start s (t :: ts ++ tm ++ r) → r ≠ [] →
  terminated true tm (headTok r) → stopsBindings true l (headTok (tm ++ r)) = true →
  Done (λ rec, parseLexicalDeclaration rec (tk t)) s r (LexicalDeclaration (tk t) l).
Proof.
  intros Ht Hlet HB Hc Hs Hr HT Hend. unfold parseLexicalDeclaration.
  assert (ts ++ tm ++ r ≠ []) as Hne by by apply app_nonempty, app_nonempty. destruct (ts ++ tm ++ r) as [|u v] eqn:E; [done|].
  eapply Done_step; [by eapply expect_eq|apply nextSt_keeps|]. eapply Done_same; [done|]. rewrite nextSt_scope, Hlet. cbn [negb].
  eapply Done_declarations; [done|eapply Ctx_keeps; [done|apply nextSt_keeps]|rewrite E; by eapply Start_next|done..].
Qed.

Lemma Good_lexical d c t ts l tm n :
  tk t = LET ∨ tk t = CONST → declares c = true → bindings d true ts l → terminated true tm n → stopsBindings true l (firstOf tm n) = true →
  GoodStatement (S d) c (t :: ts ++ tm) n (LexicalDeclaration (tk t) l).
Proof.
  intros Ht Hd HB HT Hend. apply Good_start; [by destruct Ht as [-> | ->]|]. intros s r Hc Hlet Hs Hr Hn. norm Hs. subst n.
  rewrite <- headTok_app in Hend. specialize (Hlet Hd). pose proof (bindings_starts _ _ _ _ HB) as Hf.
  assert (Done (λ rec, parseLexicalDeclaration rec (tk t)) s r (LexicalDeclaration (tk t) l)) as HL by by eapply Done_lexical.
  eexists. split; [intros rec; reflexivity|]. destruct Ht as [Ht|Ht]; rewrite Ht in HL |- *; [|exact HL].
  eapply (Done_same peek _ _ _ IDENTIFIER); [unfold peek; rewrite (Start_rest _ _ _ Hs); destruct ts as [|u ts]; [done|]; cbn in Hf |- *; by rewrite Hf|].
  eapply Done_same; [done|]. rewrite Hlet. exact HL.
Qed.

(** *** throw, debugger, break and continue *)

(** A keyword after which a line end may end the statement. *)
Lemma Done_keyword {B} (K : unit → open B) s t ts k r b :
  Start s (t :: ts) → tk t = k → ending k = true → ts ≠ [] → Done (K ()) (after s ts) r b → Done (λ rec, expect k ≫= λ a, K a rec) s r b.
Proof.
  intros Hs Ht He Hne HK. destruct ts as [|u ts]; [done|]. eapply Done_step; [by eapply expect_eq| |].
  - apply nextSt_keeps.
  - by rewrite (nextSt_ending s t u ts Hs) by by rewrite Ht.
Qed.

Lemma Good_throw d c t ts e tm n :
  tk t = THROW → ends (firstOf ts n) = false → derives d true Expression ts e → terminated true tm n → stops true (firstOf tm n) = true →
  GoodStatement (S d) c (t :: ts ++ tm) n (ThrowStatement e).
Proof.
  intros Ht Hl HD HT Hend. rstmt Ht. norm Hs. subst n. rewrite <- headTok_app in Hend. destruct (derives_starts _ _ _ _ _ HD) as (u & ts' & -> & Hu).
  assert (tm ++ r ≠ []) as Hne by by apply app_nonempty. unfold parseThrowStatement. eapply Done_keyword; [done..|].
  eapply (Done_same implicit _ _ _ false); [unfold implicit; cbn in Hl |- *; by rewrite Hl|].
  eapply (Done_run (callOf CExpression)).
  { eapply expression_run; [done|eapply Ctx_keeps; [done|apply after_keeps]|by apply after_start|done..]. }
  { apply after_keeps. }
  by apply Done_finish, Done_semicolon.
Qed.

Lemma Good_debugger d c t tm n : tk t = DEBUGGER → terminated true tm n → GoodStatement (S d) c (t :: tm) n DebuggerStatement.
Proof.
  intros Ht HT. rstmt Ht. subst n. unfold parseDebuggerStatement. eapply Done_keyword; [done..|by apply app_nonempty|].
  by apply Done_finish, Done_semicolon.
Qed.

Lemma branch_runs k allowed illegal s t tm r :
  tk t = k → ending k = true → Start s (t :: tm ++ r) → r ≠ [] → terminated false tm (headTok r) → allowed (scope_ s) = true →
  Done (λ _, parseBranch k allowed illegal) s r (BranchStatement k None).
Proof.
  intros Ht He Hs Hr HT Ha. unfold parseBranch. eapply Done_keyword; [done..|by apply app_nonempty|].
  inversion HT as [u n Hu _ E1 E2|n Hn Hsemi E1 E2]; subst tm n; cbn [app] in *.
  - pose proof (after_start s (u :: r) ltac:(done)) as Hs1. eapply Done_same; [done|]. eapply Done_token; [exact Hs1|]. rewrite Hu, teq_refl.
    eapply (Done_run (λ _, _)); [eapply runs_step; [apply next_eq|]; apply runs_ret|apply nextSt_keeps|].
    eapply Done_same; [done|]. cbn [orb]. eapply Done_step; [done|apply setImplicit_keeps|]. eapply Done_same; [done|].
    assert (allowed (scope_ (nextSt (after s (u :: r)))) = true) as Ha' by by rewrite nextSt_scope, after_scope.
    cbn [scope_]. rewrite Ha'. apply Done_ret, setImplicit_start. by eapply Start_next.
  - destruct r as [|u r]; [done|]. cbn [headTok firstOf] in *. pose proof (after_start s (u :: r) ltac:(done)) as Hs1.
    eapply (Done_same implicit _ _ _ (ends u)); [done|]. eapply Done_token; [exact Hs1|]. rewrite (teq_ne (tk u) SEMICOLON) by done.
    eapply Done_same; [done|]. eapply Done_token; [exact Hs1|].
    assert (ends u || teq (tk u) RIGHT_BRACE = true) as ->.
    { destruct Hn as [-> | ->]; [done|]. apply orb_true_r. }
    eapply Done_step; [done|apply setImplicit_keeps|]. eapply Done_same; [done|].
    assert (allowed (scope_ (after s (u :: r))) = true) as Ha' by by rewrite after_scope. cbn [scope_] in *. rewrite Ha'.
    by apply Done_ret, setImplicit_start.
Qed.

Lemma Good_break d c t tm n :
  tk t = BREAK → loop c || switch c = true → terminated false tm n → GoodStatement (S d) c (t :: tm) n (BranchStatement BREAK None).
Proof.
  intros Ht Hl HT. rstmt Ht. subst n. unfold parseBreakStatement. eapply branch_runs; [done..|]. by rewrite (ctx_loop _ _ _ Hc), (ctx_switch _ _ _ Hc).
Qed.

Lemma Good_continue d c t tm n :
  tk t = CONTINUE → loop c = true → terminated false tm n → GoodStatement (S d) c (t :: tm) n (BranchStatement CONTINUE None).
Proof.
  intros Ht Hl HT. rstmt Ht. subst n. unfold parseContinueStatement. eapply branch_runs; [done..|]. by rewrite (ctx_loop _ _ _ Hc).
Qed.

Lemma branch_label_runs k allowed illegal s t x tm r :
  tk t = k → ending k = true → tk x = IDENTIFIER → ends x = false → Start s (t :: x :: tm ++ r) → r ≠ [] → terminated true tm (headTok r) →
  parsedLiteral x ∈ labels (scope_ s) → (k = CONTINUE → inIteration (scope_ s) = true) →
  Done (λ _, parseBranch k allowed illegal) s r (BranchStatement k (Some (parsedLiteral x))).
Proof.
  intros Ht He Hx Hl Hs Hr HT Hlab Hit. assert (tm ++ r ≠ []) as Hne by by apply app_nonempty.
  unfold parseBranch. eapply Done_keyword; [done..|]. pose proof (after_start s (x :: tm ++ r) ltac:(done)) as Hs1.
  eapply (Done_same implicit _ _ _ false); [unfold implicit; cbn; by rewrite Hl|]. eapply Done_token; [exact Hs1|]. rewrite Hx. cbn [teq tokNum Nat.eqb].
  eapply Done_same; [done|]. eapply Done_token; [exact Hs1|]. rewrite Hx. cbn [teq tokNum Nat.eqb orb].
  eapply Done_same; [eapply tokenToBindingId_starter; [exact Hs1|by eapply Starts_cons]|]. eapply Done_token; [exact Hs1|]. rewrite Hx, teq_refl.
  eapply (Done_run (λ _, parseIdentifier) _ _ (after s (tm ++ r)) _ (parsedLiteral x)).
  { unfold parseIdentifier. eapply runs_step; [by eapply curTok_eq|]. rnext. destruct (tm ++ r) as [|u v]; [done|].
    rewrite (nextSt_ending _ x u v Hs1) by by rewrite Hx. apply runs_ret. }
  { split; by rewrite ?after_scope, ?after_depth. }
  eapply Done_same; [done|]. rewrite !after_scope. unfold hasLabel. rewrite (bool_decide_eq_true_2 _ Hlab). cbn [negb].
  assert (teq k CONTINUE && negb (inIteration (scope_ s)) = false) as ->.
  { destruct (teq k CONTINUE) eqn:E; [|done]. apply teq_eq in E. by rewrite Hit. }
  by apply Done_finish, Done_semicolon.
Qed.

Lemma Good_break_label d c t x tm n :
  tk t = BREAK → tk x = IDENTIFIER → ends x = false → parsedLiteral x ∈ labels_ c → terminated true tm n →
  GoodStatement (S d) c (t :: x :: tm) n (BranchStatement BREAK (Some (parsedLiteral x))).
Proof.
  intros Ht Hx Hl Hlab HT. rstmt Ht. subst n. unfold parseBreakStatement. by eapply branch_label_runs; [..|rewrite (ctx_labels _ _ _ Hc)|].
Qed.

Lemma Good_continue_label d c t x tm n :
  tk t = CONTINUE → tk x = IDENTIFIER → ends x = false → parsedLiteral x ∈ labels_ c → loop c = true → terminated true tm n →
  GoodStatement (S d) c (t :: x :: tm) n (BranchStatement CONTINUE (Some (parsedLiteral x))).
Proof.
  intros Ht Hx Hl Hlab Hit HT. rstmt Ht. subst n. unfold parseContinueStatement.
  by eapply branch_label_runs; [..|rewrite (ctx_labels _ _ _ Hc)|rewrite (ctx_loop _ _ _ Hc)].
Qed.

(** *** try *)

Definition catchClause (k : Token) : open (option (option string * list stmt)) := λ rec,
  if teq k CATCH then
    next ;;
    c ← token;
    p ← (if teq c LEFT_PARENTHESIS then next ;; t ← parseBindingTarget; expect RIGHT_PARENTHESIS ;; mret (Some t) else mret None);
    l ← parseBlockStatement rec;
    mret (Some (p, l))
  else mret None.

Definition finallyClause (k : Token) : open (option (list stmt)) := λ rec,
  if teq k FINALLY then next ;; l ← parseBlockStatement rec; mret (Some l) else mret None.

Definition GoodHandler (d : nat) (c : context) (ts : list tok) (n : tok) (ca : option (option string * list stmt)) : Prop :=
  ∀ s r, Ctx d c s → Start s (ts ++ r) → r ≠ [] → headTok r = n → Done (catchClause (tk (headTok (ts ++ r)))) s r ca.
Definition GoodFinalizer (d : nat) (c : context) (ts : list tok) (n : tok) (fi : option (list stmt)) : Prop :=
  ∀ s r, Ctx d c s → Start s (ts ++ r) → r ≠ [] → headTok r = n → Done (finallyClause (tk (headTok (ts ++ r)))) s r fi.

Lemma Done_parsedBlock {B} (mk : list stmt → B) d c ts l s r :
  GoodBlock d c ts l → Ctx d c s → Start s (ts ++ r) → r ≠ [] → Done (λ rec, parseBlockStatement rec ≫= λ l, mret (mk l)) s r (mk l).
Proof. intros HB Hc Hs Hr. eapply (Done_bind (λ rec, parseBlockStatement rec)); [by apply HB|]. intros s1 Hs1 _. by apply Done_ret. Qed.

Lemma block_nonempty d c ts l : GoodBlock d c ts l → ts ≠ [].
Proof. intros [H _]. by destruct ts. Qed.

Lemma Good_no_catch d c n : tk n ≠ CATCH → GoodHandler d c [] n None.
Proof. intros Hn s r Hc Hs Hr <-. unfold catchClause. cbn [app]. rewrite teq_ne by done. by apply Done_ret. Qed.

Lemma Good_catch d c t ts l n : tk t = CATCH → GoodBlock d c ts l → GoodHandler d c (t :: ts) n (Some (None, l)).
Proof.
  intros Ht HB s r Hc Hs Hr Hn. unfold catchClause. cbn in Hs |- *. rewrite Ht. cbn [teq tokNum Nat.eqb]. eapply Done_next; [done|by apply app_nonempty|].
  intros s1 Hs1 Hk1. eapply Done_first; [by eapply block_nonempty|exact Hs1|]. rewrite (block_first _ _ _ _ HB). cbn [teq tokNum Nat.eqb].
  eapply Done_same; [done|]. by eapply (Done_parsedBlock (λ l, Some (None, l))); [|keep|..].
Qed.

Lemma Good_catch_name d c t lp x rp ts l n :
  tk t = CATCH → tk lp = LEFT_PARENTHESIS → tk x = IDENTIFIER → tk rp = RIGHT_PARENTHESIS → GoodBlock d c ts l →
  GoodHandler d c (t :: lp :: x :: rp :: ts) n (Some (Some (parsedLiteral x), l)).
Proof.
  intros Ht Hlp Hx Hrp HB s r Hc Hs Hr Hn. unfold catchClause. cbn in Hs |- *. rewrite Ht. cbn [teq tokNum Nat.eqb]. eapply Done_next; [done..|].
  intros s1 Hs1 Hk1. eapply Done_token; [done|]. rewrite Hlp. cbn [teq tokNum Nat.eqb].
  eapply (Done_bind (λ _, next ;; t ← parseBindingTarget; expect RIGHT_PARENTHESIS ;; mret (Some t)) _ _ (ts ++ r) _ (Some (parsedLiteral x))).
  - eapply Done_next; [done..|]. intros s2 Hs2 Hk2. eapply (Done_bind (λ _, parseBindingTarget)).
    { apply Done_after; [|eapply bindingTarget_runs; [|done]]; [|eapply (Pre_ctx d c _ [x] (rp :: ts ++ r)); [keep|done..]]. done. }
    intros s3 Hs3 Hk3. eapply Done_expect; [done..|by apply app_nonempty|]. intros s4 Hs4 Hk4. by apply Done_ret.
  - intros s2 Hs2 Hk2. by eapply (Done_parsedBlock (λ l, Some (Some (parsedLiteral x), l))); [|keep|..].
Qed.

Lemma Good_no_finally d c n : tk n ≠ FINALLY → GoodFinalizer d c [] n None.
Proof. intros Hn s r Hc Hs Hr <-. unfold finallyClause. cbn [app]. rewrite teq_ne by done. by apply Done_ret. Qed.

Lemma Good_finally d c t ts l n : tk t = FINALLY → GoodBlock d c ts l → GoodFinalizer d c (t :: ts) n (Some l).
Proof.
  intros Ht HB s r Hc Hs Hr Hn. unfold finallyClause. cbn in Hs |- *. rewrite Ht. cbn [teq tokNum Nat.eqb]. eapply Done_next; [done|by apply app_nonempty|].
  intros s1 Hs1 Hk1. by eapply (Done_parsedBlock Some); [|keep|..].
Qed.

Lemma Done_head {B} (K : Token → open B) s ts r b :
  ts ≠ [] → Start s ts → Done (K (tk (headTok ts))) s r b → Done (λ rec, token ≫= λ a, K a rec) s r b.
Proof. destruct ts as [|t ts]; [done|]. intros _. apply Done_token. Qed.

Lemma Good_try d c t ts b ts1 ca ts2 fi n :
  tk t = TRY → GoodBlock d c ts b → GoodHandler d c ts1 (firstOf ts2 n) ca → GoodFinalizer d c ts2 n fi → ca ≠ None ∨ fi ≠ None →
  GoodStatement (S d) c (t :: ts ++ ts1 ++ ts2) n (TryStatement b ca fi).
Proof.
  intros Ht HB H1 H2 Hne. rstmt Ht. norm Hs. subst n. unfold parseTryStatement.
  eapply Done_expect; [done..|by do 3 apply app_nonempty|]. intros s1 Hs1 Hk1. eapply (Done_bind (λ rec, parseBlockStatement rec)).
  { eapply (block_done _ _ _ _ HB); [keep|done|by do 2 apply app_nonempty]. }
  intros s2 Hs2 Hk2. eapply Done_head; [by do 2 apply app_nonempty|done|]. eapply (Done_bind (catchClause _)).
  { eapply (H1 s2 (ts2 ++ r)); [keep|done|by apply app_nonempty|by rewrite headTok_app]. }
  intros s3 Hs3 Hk3. eapply Done_head; [by apply app_nonempty|done|]. eapply (Done_bind (finallyClause _)); [by eapply (H2 s3 r); [keep|..]|].
  intros s4 Hs4 Hk4. destruct ca as [[x l]|], fi as [f|]; try by apply Done_ret. by destruct Hne.
Qed.

(** *** switch *)

Definition setSwitch (b : bool) (s : pstate) : pstate :=
  St (cur s) (rest s) (insertSemicolon s) (implicitSemicolon s) (withSwitch b (scope_ s)) (depth s).

Lemma Done_switch {A} (F : open A) s r a : Done F (setSwitch true s) r a → Done (λ rec, withFlag withSwitch inSwitch (F rec)) s r a.
Proof.
  intros (s' & HF & [Ht Hi] & Hk). exists (setSwitch (inSwitch (scope_ s)) s'). split.
  - unfold withFlag. eapply runs_step; [done|]. eapply runs_step; [done|]. eapply runs_bind; [exact HF|]. eapply runs_step; [done|]. apply runs_ret.
  - split; [by split|]. destruct Hk as [Hk Hd]. split; [|done]. cbn in *. unfold withAllowLet, withSwitch in *. cbn in *.
    injection Hk; intros; f_equal; congruence.
Qed.

Definition GoodClauses (d : nat) (c : context) (index def : Z) (ts : list tok) (def' : Z) (cs : list (option expr * list stmt)) : Prop :=
  ts ≠ [] ∧ isOneOf (first ts) [RIGHT_BRACE; CASE; DEFAULT] = true ∧
  ∀ s acc r, Ctx d c s → Start s (ts ++ r) → r ≠ [] → Done (callOf (CSwitchLoop index def acc)) s r (def', acc ++ cs).

Lemma Good_end d c index def rb : tk rb = RIGHT_BRACE → GoodClauses d c index def [rb] def [].
Proof.
  intros Hrb. split; [done|]. split; [cbn; by rewrite Hrb|]. intros s acc r Hc Hs Hr. rewrite app_nil_r. apply Done_call. cbn [body]. unfold switchLoop.
  eapply Done_token; [exact Hs|]. rewrite Hrb. cbn [teq tokNum Nat.eqb]. eapply Done_next; [done..|]. intros s1 Hs1 _. by apply Done_ret.
Qed.

(** The statements of a clause end before the next one. *)
Lemma Done_clause_body d c ts1 l ts2 s r index def def' cs :
  GoodStatements d c ts1 (firstOf ts2 eofTok) l → GoodClauses d c index def ts2 def' cs → Ctx d c s → Start s (ts1 ++ ts2 ++ r) → r ≠ [] →
  Done (callOf (CCaseLoop [])) s (ts2 ++ r) l.
Proof.
  intros HL (Hne & Hf & _) Hc Hs Hr. eapply (HL _ _ _ [] (ts2 ++ r) isListLoop_case); [done..|by apply app_nonempty|by destruct ts2|].
  destruct ts2 as [|u ts2]; [done|]. cbn [firstOf first] in *. apply isOneOf_In in Hf. apply isOneOf_In. set_solver.
Qed.

Definition caseStatement : open (option expr * list stmt) := λ rec, parseCaseStatement rec.

Lemma Good_case d c index def t ts e k ts1 l ts2 def' cs :
  tk t = CASE → derives d true Expression ts e → tk k = COLON → GoodStatements d c ts1 (firstOf ts2 eofTok) l →
  GoodClauses d c (index + 1) def ts2 def' cs →
  GoodClauses d c index def (t :: ts ++ k :: ts1 ++ ts2) def' ((Some e, l) :: cs).
Proof.
  intros Ht HD Hk HL HC. split; [done|]. split; [cbn; by rewrite Ht|]. intros s acc r Hc Hs Hr. norm Hs. apply Done_call. cbn [body]. unfold switchLoop.
  eapply Done_token; [exact Hs|]. rewrite Ht. cbn [teq tokNum Nat.eqb]. eapply (Done_bind caseStatement _ _ (ts2 ++ r) _ (Some e, l)).
  - unfold caseStatement, parseCaseStatement. eapply Done_token; [exact Hs|]. rewrite Ht. cbn [teq tokNum Nat.eqb].
    eapply (Done_bind (λ rec, expect CASE ;; e ← rec _ CExpression; mret (Some e)) _ _ (k :: ts1 ++ ts2 ++ r) _ (Some e)).
    + eapply Done_expect; [done..|by apply app_nonempty|]. intros s1 Hs1 Hk1. eapply (Done_bind (callOf CExpression)).
      { eapply Done_expression; [done|eapply Pre_ctx; [keep|done..]|by eapply closing_stops]. }
      intros s2 Hs2 Hk2. by apply Done_ret.
    + intros s1 Hs1 Hk1. eapply Done_expect; [done..|by do 2 apply app_nonempty|]. intros s2 Hs2 Hk2.
      eapply (Done_bind (callOf (CCaseLoop []))); [by eapply Done_clause_body; [..|keep| |]|]. intros s3 Hs3 Hk3. by apply Done_ret.
  - intros s1 Hs1 Hk1. cbn [fst]. rewrite (snoc_app acc (Some e, l) cs). destruct HC as (_ & _ & HC). apply HC; [keep|done..].
Qed.

Lemma Good_default d c index t k ts1 l ts2 def' cs :
  tk t = DEFAULT → tk k = COLON → GoodStatements d c ts1 (firstOf ts2 eofTok) l → GoodClauses d c (index + 1) index ts2 def' cs →
  GoodClauses d c index (-1) (t :: k :: ts1 ++ ts2) def' ((None, l) :: cs).
Proof.
  intros Ht Hk HL HC. split; [done|]. split; [cbn; by rewrite Ht|]. intros s acc r Hc Hs Hr. norm Hs. apply Done_call. cbn [body]. unfold switchLoop.
  eapply Done_token; [exact Hs|]. rewrite Ht. cbn [teq tokNum Nat.eqb]. eapply (Done_bind caseStatement _ _ (ts2 ++ r) _ (None, l)).
  - unfold caseStatement, parseCaseStatement. eapply Done_token; [exact Hs|]. rewrite Ht. cbn [teq tokNum Nat.eqb].
    eapply (Done_bind (λ _, next ;; mret None) _ _ (k :: ts1 ++ ts2 ++ r) _ None).
    + eapply Done_next; [done..|]. intros s1 Hs1 Hk1. by apply Done_ret.
    + intros s1 Hs1 Hk1. eapply Done_expect; [done..|by do 2 apply app_nonempty|]. intros s2 Hs2 Hk2.
      eapply (Done_bind (callOf (CCaseLoop []))); [by eapply Done_clause_body; [..|keep| |]|]. intros s3 Hs3 Hk3. by apply Done_ret.
  - intros s1 Hs1 Hk1. cbn [fst]. rewrite (snoc_app acc (None, l) cs). destruct HC as (_ & _ & HC). apply HC; [keep|done..].
Qed.

Lemma Good_switch d c t l ts e rp lb ts1 def cs n :
  tk t = SWITCH → tk l = LEFT_PARENTHESIS → derives d true Expression ts e → tk rp = RIGHT_PARENTHESIS → tk lb = LEFT_BRACE →
  GoodClauses d (inSwitch_ c) 0 (-1) ts1 def cs →
  GoodStatement (S d) c (t :: l :: ts ++ rp :: lb :: ts1) n (SwitchStatement e def cs).
Proof.
  intros Ht Hl HD Hrp Hlb (Hne & _ & HC). rstmt Ht. norm Hs. unfold parseSwitchStatement. eapply Done_expect; [done..|]. intros s1 Hs1 Hk1.
  eapply Done_test; [keep|done..|]. intros s2 Hs2 Hk2. eapply Done_expect; [done..|by apply app_nonempty|]. intros s3 Hs3 Hk3.
  apply Done_switch. eapply (Done_bind (callOf (CSwitchLoop 0 (-1) []))).
  { apply (HC (setSwitch true s3) [] r); [|by destruct Hs3|done]. assert (Ctx d c s3) as [G1 G2 G3 G4 G5] by keep. by split. }
  intros s4 Hs4 Hk4. by apply Done_ret.
Qed.

(** *** for

    The first part of the head is parsed without in as an operator; the scope is
    that of before, [s0], when the flag has been set back. *)

Definition DoneFrom {A} (s0 : pstate) (F : open A) (s : pstate) (r : list tok) (a : A) : Prop :=
  ∃ s', runs F s (Ok a s') ∧ Start s' r ∧ keeps s0 s'.

Lemma DoneFrom_bind {A B} s0 (F : open A) (K : A → open B) s r1 r2 a b :
  Done F s r1 a → (∀ s1, Start s1 r1 → keeps s s1 → DoneFrom s0 (K a) s1 r2 b) → DoneFrom s0 (λ rec, F rec ≫= λ a, K a rec) s r2 b.
Proof.
  intros (s1 & HF & Hs1 & Hk1) HK. destruct (HK s1 Hs1 Hk1) as (s2 & HF2 & Hs2 & Hk2). exists s2. by split; [eapply runs_bind|].
Qed.

Lemma DoneFrom_step {A B} s0 (f : P A) (K : A → open B) s s1 r a b :
  f s = Ok a s1 → DoneFrom s0 (K a) s1 r b → DoneFrom s0 (λ rec, f ≫= λ a, K a rec) s r b.
Proof. intros Hf (s2 & HF2 & Hs2 & Hk2). exists s2. by split; [eapply runs_step|]. Qed.

Lemma Done_from {A B} (f : P A) (K : A → open B) s s1 r a b :
  f s = Ok a s1 → DoneFrom s (K a) s1 r b → Done (λ rec, f ≫= λ a, K a rec) s r b.
Proof. intros Hf HK. by apply (DoneFrom_step s f K s s1 r a b Hf HK). Qed.

Lemma setIn_start b s r : Start s r → Start (setIn b s) r.
Proof. by intros [H1 H2]. Qed.

(** The flag is set back. *)
Lemma DoneFrom_in {B} (K : unit → open B) s0 s r b :
  keeps (setIn false s0) s → allowIn (scope_ s0) = true → Done (K ()) (setIn true s) r b →
  DoneFrom s0 (λ rec, modifyScope (withAllowIn true) ≫= λ a, K a rec) s r b.
Proof.
  intros [Hk Hd] Hi (s' & HF & Hs & Hk'). exists s'. split; [by eapply runs_step; [apply modifyScope_in|]|]. split; [done|].
  etrans; [|exact Hk']. split; [|done]. cbn in *. unfold withAllowLet, withAllowIn in *. cbn in *. injection Hk; intros; f_equal; congruence.
Qed.

Lemma Pre_noIn d c s ts r : Ctx d c s → Start s (ts ++ r) → r ≠ [] → Pre d false (setIn false s) ts r.
Proof. intros [H1 H2 H3 H4 H5] [Ht Hi] Hr. by split. Qed.

Lemma Ctx_in d c s0 s : Ctx d c s0 → keeps (setIn false s0) s → Ctx d c (setIn true s).
Proof.
  intros [H1 H2 H3 H4 H5] (E1 & E2 & E3 & E4 & E5)%keeps_fields. cbn in *. split; cbn; congruence.
Qed.

(** An optional expression before a token that closes it. *)
Lemma Done_optional {B} (K : option expr → open B) d c s ts e t r' r b k :
  optionalExpr d ts e → Ctx d c s → Start s (ts ++ t :: r') → tk t = k → isOneOf k [SEMICOLON; RIGHT_PARENTHESIS] = true →
  (∀ s1, Start s1 (t :: r') → keeps s s1 → Done (K e) s1 r b) →
  Done (λ rec, token ≫= λ x, (if teq x k then mret None else e ← rec _ CExpression; mret (Some e)) ≫= λ e, K e rec) s r b.
Proof.
  intros HO Hc Hs Ht Hk HK. destruct HO as [d|d ts e HD].
  - eapply Done_token; [exact Hs|]. rewrite Ht, teq_refl. eapply Done_same; [done|]. by apply HK.
  - pose proof (derives_starts _ _ _ _ _ HD) as Hst. destruct (Starts_first _ Hst) as [Hne _]. eapply Done_first; [exact Hne|exact Hs|].
    assert (k = SEMICOLON ∨ k = RIGHT_PARENTHESIS) as Hk' by (apply isOneOf_In in Hk; set_solver).
    rewrite (starter_teq ts k Hst) by by destruct Hk' as [-> | ->].
    eapply (Done_bind (λ rec, e ← rec _ CExpression; mret (Some e)) _ _ (t :: r') _ (Some e)); [|done].
    eapply (Done_bind (callOf CExpression)); [|intros s1 Hs1 _; by apply Done_ret].
    eapply Done_expression; [done|by eapply Pre_ctx|]. eapply closing_stops; [done|]. by destruct Hk' as [-> | ->].
Qed.

Definition forRest (init : option forInit) : open stmt := λ rec, parseFor rec init.

Lemma Done_parseFor d c init s tt test s2 tu update rp ts1 st r :
  optionalExpr d tt test → tk s2 = SEMICOLON → optionalExpr d tu update → tk rp = RIGHT_PARENTHESIS → GoodStatement d (inLoop c) ts1 (headTok r) st →
  Ctx d c s → Start s (tt ++ s2 :: tu ++ rp :: ts1 ++ r) → r ≠ [] → Done (forRest init) s r (ForStatement init test update st).
Proof.
  intros H1 Hs2 H2 Hrp HG Hc Hs Hr. unfold forRest, parseFor. eapply Done_optional; [exact H1|done..|]. intros s3 Hs3 Hk3.
  eapply Done_expect; [done..|by apply app_nonempty|]. intros s4 Hs4 Hk4. eapply Done_optional; [exact H2|keep|done..|]. intros s5 Hs5 Hk5.
  eapply Done_expect; [done..|by apply app_nonempty|]. intros s6 Hs6 Hk6. eapply (Done_bind (λ rec, parseIterationStatement rec)).
  { apply (Done_iteration d c ts1 st s6 r); [done|keep|done..]. }
  intros s7 Hs7 Hk7. by apply Done_ret.
Qed.

Lemma Done_forIn d c into s ts e rp ts1 st r :
  derives d true Expression ts e → tk rp = RIGHT_PARENTHESIS → GoodStatement d (inLoop c) ts1 (headTok r) st →
  Ctx d c s → Start s (ts ++ rp :: ts1 ++ r) → r ≠ [] → Done (λ rec, parseForIn rec into) s r (ForInStatement into e st).
Proof.
  intros HD Hrp HG Hc Hs Hr. unfold parseForIn. eapply (Done_bind (callOf CExpression)).
  { eapply Done_expression; [done|by eapply Pre_ctx|by eapply closing_stops]. }
  intros s1 Hs1 Hk1. eapply Done_expect; [done..|by apply app_nonempty|]. intros s2 Hs2 Hk2. eapply (Done_bind (λ rec, parseIterationStatement rec)).
  { apply (Done_iteration d c ts1 st s2 r); [done|keep|done..]. }
  intros s3 Hs3 Hk3. by apply Done_ret.
Qed.

Lemma Done_forOf d c into s ts e rp ts1 st r :
  derives d true Assignment ts e → tk rp = RIGHT_PARENTHESIS → GoodStatement d (inLoop c) ts1 (headTok r) st →
  Ctx d c s → Start s (ts ++ rp :: ts1 ++ r) → r ≠ [] → Done (λ rec, parseForOf rec into) s r (ForOfStatement into e st).
Proof.
  intros HD Hrp HG Hc Hs Hr. unfold parseForOf. eapply (Done_bind (callOf CAssignment)).
  { eapply (Done_assignment _ _ _ _ _ (rp :: ts1 ++ r)); [done|by eapply Pre_ctx|]. by rewrite (closing_rank _ RIGHT_PARENTHESIS); [lia|..]. }
  intros s1 Hs1 Hk1. eapply Done_expect; [done..|by apply app_nonempty|]. intros s2 Hs2 Hk2. eapply (Done_bind (λ rec, parseIterationStatement rec)).
  { apply (Done_iteration d c ts1 st s2 r); [done|keep|done..]. }
  intros s3 Hs3 Hk3. by apply Done_ret.
Qed.

(** What follows the first part. *)
Inductive afterInit : forKind → tok → Prop :=
  | A_semicolon t : tk t = SEMICOLON → afterInit KFor t
  | A_in t : tk t = IN → afterInit KIn t
  | A_of t : tk t = IDENTIFIER → literal t = "of"%string → afterInit KOf t.

Definition restAfter (k : forKind) (t : tok) (r : list tok) : list tok := match k with KFor => t :: r | _ => r end.

Lemma Done_forKeyword k t s r : afterInit k t → Start s (t :: r) → r ≠ [] → Done (λ _, forKeyword) s (restAfter k t r) k.
Proof.
  intros HA Hs Hr. unfold forKeyword. eapply Done_same; [by eapply curTok_eq|]. destruct HA as [t Ht|t Ht|t Ht Hl]; rewrite Ht; cbn [teq tokNum Nat.eqb andb].
  - by apply Done_ret.
  - eapply Done_next; [done..|]. intros s1 Hs1 _. by apply Done_ret.
  - rewrite (bool_decide_eq_true_2 _ Hl). eapply Done_next; [done..|]. intros s1 Hs1 _. by apply Done_ret.
Qed.

Lemma afterInit_stops k t : afterInit k t → stops false t = true ∧ isOneOf (tk t) [ASSIGN; COMMA] = false.
Proof. unfold stops, tokRank. by destruct 1 as [t Ht|t Ht|t Ht _]; rewrite Ht. Qed.

(** The head after the opening parenthesis, in parts. *)
Definition forBinding (t : Token) (k : forKind) (l : list binding) : open stmt := λ rec,
  match k, l with
  | KFor, _ =>
      expect SEMICOLON ;; parseFor rec (Some (if teq t VAR then ForLoopInitializerVarDeclList l else ForLoopInitializerLexicalDecl t l))
  | k, b :: _ =>
      let into := if teq t VAR then ForIntoVar b else ForDeclaration (teq t CONST) (target b) in
      match initializer b, k with
      | Some _, KOf => error "for-in loop variable declaration may not have an initializer"
      | Some _, _ => if teq t VAR then parseForIn rec into else error "for-in loop variable declaration may not have an initializer"
      | None, KOf => parseForOf rec into
      | None, _ => parseForIn rec into
      end
  | _, [] => unmodelled
  end.

Definition forReference (k : forKind) (e : expr) : open stmt := λ rec,
  match k with
  | KFor => expect SEMICOLON ;; parseFor rec (Some (ForLoopInitializerExpression e))
  | KOf => parseForOf rec (ForIntoExpression e)
  | KIn => parseForIn rec (ForIntoExpression e)
  end.

(** The two keywords of the head come first. *)
Lemma Good_for_intro d c t l ts n st :
  tk t = FOR → tk l = LEFT_PARENTHESIS →
  (∀ s r, Ctx d c s → Start s (ts ++ r) → r ≠ [] → headTok r = n →
     ∃ F, (∀ rec, parseForOrForInStatement rec = (expect FOR ;; expect LEFT_PARENTHESIS ;; k ← token; F k rec)) ∧
          Done (λ rec, k ← token; F k rec) s r st) →
  GoodStatement (S d) c (t :: l :: ts) n st.
Proof.
  intros Ht Hl HF. apply Good_start; [by rewrite Ht|]. intros s r Hc Hlet Hs Hr Hn. eexists. split; [intros rec; reflexivity|]. rewrite Ht.
  cbn [app] in Hs. pose proof (app_nonempty ts r Hr) as Hne.
  assert (Ctx d c (nextSt (nextSt s))) as Hc2 by (eapply Ctx_keeps; [done|]; etrans; apply nextSt_keeps).
  assert (Start (nextSt (nextSt s)) (ts ++ r)) as Hs2 by (eapply Start_next; [by eapply Start_next|done]).
  destruct (HF _ r Hc2 Hs2 Hr Hn) as (F & HE & HD). eapply Done_ext; [intros rec; symmetry; apply HE|].
  destruct (ts ++ r) as [|u v] eqn:E; [done|].
  eapply Done_step; [by eapply expect_eq|apply nextSt_keeps|]. eapply Done_step; [eapply expect_eq; [by eapply Start_next|done]|apply nextSt_keeps|exact HD].
Qed.

Lemma forBindings_run d ts l k u s r :
  bindings d false ts l → afterInit k u → Pre d false s ts (u :: r) → runs (callOf (CVariables [])) s (Ok l (after s (u :: r))).
Proof.
  intros HB HA Hp. destruct (afterInit_stops k u HA) as [H1 H2]. apply (Good_bindings _ _ _ _ HB s []); [done|].
  unfold stopsBindings. cbn [headTok firstOf]. rewrite H1, H2. by destruct (last l) as [[? []]|].
Qed.

Lemma Done_bind_choice k u (l : list binding) s r :
  afterInit k u → (k ≠ KFor → ∃ b, l = [b]) → Start s (u :: r) → r ≠ [] →
  Done (λ _, match l with [_] => forKeyword | _ => mret KFor end) s (restAfter k u r) k.
Proof.
  intros HA Hl Hs Hr. destruct l as [|b [|b' l]]; [|by apply Done_forKeyword|].
  all: destruct k; [by apply Done_ret|by destruct Hl|by destruct Hl].
Qed.

(** A head that declares names. *)
Lemma Done_for_bindings d c s t ts l k u r' r b :
  isOneOf (tk t) [VAR; LET; CONST] = true → bindings d false ts l → afterInit k u → (k ≠ KFor → ∃ b, l = [b]) →
  Ctx d c s → Start s (t :: ts ++ u :: r') → r' ≠ [] →
  (∀ s1, Ctx d c s1 → Start s1 (restAfter k u r') → Done (forBinding (tk t) k l) s1 r b) →
  ∃ F, (∀ rec, parseForOrForInStatement rec = (expect FOR ;; expect LEFT_PARENTHESIS ;; k ← token; F k rec)) ∧ Done (λ rec, k ← token; F k rec) s r b.
Proof.
  intros Ht HB HA Hl Hc Hs Hr' HK. eexists. split; [intros rec; reflexivity|]. eapply Done_token; [exact Hs|]. pose proof (bindings_starts _ _ _ _ HB) as Hf.
  assert (teq (tk t) SEMICOLON = false) as -> by by apply teq_ne; intros E; rewrite E in Ht.
  eapply Done_same; [done|]. rewrite (ctx_in _ _ _ Hc). eapply Done_from; [apply modifyScope_in|].
  eapply (DoneFrom_step _ peek _ _ _ _ IDENTIFIER).
  { unfold peek. cbn [setIn rest]. rewrite (Start_rest _ _ _ Hs). destruct ts as [|x ts]; [by apply bindings_starts in HB|]. cbn in Hf |- *. by rewrite Hf. }
  cbn [isOneOf existsb teq tokNum Nat.eqb negb orb]. rewrite andb_false_r. unfold isOneOf in Ht. cbn [existsb] in Ht. rewrite Ht.
  eapply DoneFrom_step; [apply next_eq|]. assert (Pre d false (nextSt (setIn false s)) ts (u :: r')) as Hp.
  { apply (Pre_next _ _ _ t), Pre_noIn with c; done. }
  eapply (DoneFrom_bind _ (callOf (CVariables []))); [by apply Done_after; [|by eapply forBindings_run]|]. intros s1 Hs1 Hk1.
  eapply (DoneFrom_bind _ (λ _, match l with [_] => forKeyword | _ => mret KFor end)); [by eapply Done_bind_choice|]. intros s2 Hs2 Hk2.
  assert (keeps (setIn false s) s2) as Hk by (etrans; [apply nextSt_keeps|]; by etrans).
  eapply DoneFrom_in; [done|apply (ctx_in _ _ _ Hc)|]. apply HK; [by eapply Ctx_in|by apply setIn_start].
Qed.

(** A head that starts with an expression. *)
Lemma Done_for_expression d c s ts e k u r' r b :
  Starts ts → Parses (callOf CExpression) d false ts e 18 → afterInit k u → (k ≠ KFor → isReference e = true) →
  Ctx d c s → Start s (ts ++ u :: r') → r' ≠ [] →
  (∀ s1, Ctx d c s1 → Start s1 (restAfter k u r') → Done (forReference k e) s1 r b) →
  ∃ F, (∀ rec, parseForOrForInStatement rec = (expect FOR ;; expect LEFT_PARENTHESIS ;; k ← token; F k rec)) ∧ Done (λ rec, k ← token; F k rec) s r b.
Proof.
  intros Hst HP HA He Hc Hs Hr' HK. eexists. split; [intros rec; reflexivity|]. destruct (Starts_first _ Hst) as [Hne _].
  eapply Done_first; [exact Hne|exact Hs|]. rewrite (starter_teq ts SEMICOLON) by done.
  eapply Done_same; [done|]. rewrite (ctx_in _ _ _ Hc). eapply Done_from; [apply modifyScope_in|]. eapply DoneFrom_step; [done|].
  unfold isOneOf. cbn [existsb]. rewrite (starter_teq ts LET) by done. cbn [andb]. rewrite !(starter_teq ts) by done. cbn [orb].
  eapply (DoneFrom_bind _ (callOf CExpression)).
  { apply Done_after; [|apply HP; [by eapply Pre_noIn|]]; [done|]. apply stops_rank; [done|]. cbn [headTok firstOf]. by apply (afterInit_stops k). }
  intros s1 Hs1 Hk1. eapply (DoneFrom_bind _ (λ _, forKeyword)); [by eapply Done_forKeyword|]. intros s2 Hs2 Hk2.
  assert (keeps (setIn false s) s2) as Hk by by etrans.
  assert (Done (forReference k e) (setIn true s2) r b) as HD by (apply HK; [by eapply Ctx_in|by apply setIn_start]).
  pose proof (ctx_in _ _ _ Hc) as Hin. unfold forReference in HD.
  destruct k; [by eapply DoneFrom_in|..]; specialize (He ltac:(done)); destruct e; try done; by eapply DoneFrom_in.
Qed.

Lemma forFor_runs d c init (mk : open stmt) s s1 tt test s2 tu update rp ts1 st r :
  (∀ rec, mk rec = (expect SEMICOLON ;; parseFor rec init)) → tk s1 = SEMICOLON →
  optionalExpr d tt test → tk s2 = SEMICOLON → optionalExpr d tu update → tk rp = RIGHT_PARENTHESIS → GoodStatement d (inLoop c) ts1 (headTok r) st →
  Ctx d c s → Start s (s1 :: tt ++ s2 :: tu ++ rp :: ts1 ++ r) → r ≠ [] → Done mk s r (ForStatement init test update st).
Proof.
  intros Hmk Hs1 H1 Hs2 H2 Hrp HG Hc Hs Hr. eapply Done_ext; [intros rec; symmetry; apply Hmk|].
  eapply Done_expect; [exact Hs|done|by apply app_nonempty|]. intros s3 Hs3 Hk3. eapply (Done_parseFor d c); [exact H1|done|exact H2|done|done|keep|done|done].
Qed.

Lemma Good_for d c t l ti i s1 tt test s2 tu update rp ts1 st n :
  tk t = FOR → tk l = LEFT_PARENTHESIS → (ti = [] ∧ i = None ∨ ∃ x, initializer_ d ti x ∧ i = Some x) → tk s1 = SEMICOLON →
  optionalExpr d tt test → tk s2 = SEMICOLON → optionalExpr d tu update → tk rp = RIGHT_PARENTHESIS → GoodStatement d (inLoop c) ts1 n st →
  GoodStatement (S d) c (t :: l :: ti ++ s1 :: tt ++ s2 :: tu ++ rp :: ts1) n (ForStatement i test update st).
Proof.
  intros Ht Hl HI Hs1 H1 Hs2 H2 Hrp HG. apply Good_for_intro; [done..|]. intros s r Hc Hs Hr <-. norm Hs.
  assert (tt ++ s2 :: tu ++ rp :: ts1 ++ r ≠ []) as Hne by by apply app_nonempty.
  destruct HI as [[-> ->]|(x & HI & ->)].
  - eexists. split; [intros rec; reflexivity|]. eapply Done_token; [exact Hs|]. rewrite Hs1. cbn [teq tokNum Nat.eqb]. eapply Done_next; [exact Hs|done|].
    intros s3 Hs3 Hk3. eapply (Done_parseFor d c); [exact H1|done|exact H2|done|done|keep|done|done].
  - destruct HI as [d ti e HD|d t0 ti lb Ht0 HB|d t0 ti lb Ht0 HB]; norm Hs.
    + eapply (Done_for_expression d c s ti e KFor s1); [by eapply derives_starts|apply (derives_good _ _ _ _ _ HD)|by constructor|done..|].
      intros s3 Hc3 Hs3. by eapply (forFor_runs d c _ _ s3 s1 tt test s2 tu update rp ts1 st r).
    + eapply (Done_for_bindings d c s t0 ti lb KFor s1); [by rewrite Ht0|done|by constructor|done..|].
      intros s3 Hc3 Hs3. by eapply (forFor_runs d c _ _ s3 s1 tt test s2 tu update rp ts1 st r); [intros rec; cbn; by rewrite Ht0|..].
    + eapply (Done_for_bindings d c s t0 ti lb KFor s1); [by destruct Ht0 as [-> | ->]|done|by constructor|done..|].
      intros s3 Hc3 Hs3. by eapply (forFor_runs d c _ _ s3 s1 tt test s2 tu update rp ts1 st r); [intros rec; cbn; by destruct Ht0 as [-> | ->]|..].
Qed.

Lemma lhs_expression d i ts e : derives d i LeftHandSide ts e → Parses (callOf CExpression) (S (S d)) i ts e 18.
Proof.
  intros HD. pose proof (derives_starts _ _ _ _ _ HD) as Hst.
  apply (seq_expression _ _ _ [e]), Good_one, Good_conditional, Good_shortCircuit, Good_lhs_shortCircuit; try done. by apply derives_good.
Qed.

(** The parts of a for-in and a for-of that differ. *)
Definition forEach (k : forKind) (into : forInto) : open stmt := λ rec, match k with KOf => parseForOf rec into | _ => parseForIn rec into end.

Lemma Good_for_each d c t l ti into k u ts n st :
  tk t = FOR → tk l = LEFT_PARENTHESIS → target_ d ti into → k ≠ KFor → afterInit k u → ts ≠ [] →
  (∀ s r, Ctx d c s → Start s (ts ++ r) → r ≠ [] → headTok r = n → Done (forEach k into) s r st) →
  GoodStatement (S d) c (t :: l :: ti ++ u :: ts) n st.
Proof.
  intros Ht Hl HT Hk HA Hne HF. apply Good_for_intro; [done..|]. intros s r Hc Hs Hr Hn. norm Hs.
  assert (ts ++ r ≠ []) as Hne' by by apply app_nonempty. assert (restAfter k u (ts ++ r) = ts ++ r) as HR by by destruct k.
  destruct HT as [d t0 x Ht0 Hx|d t0 x Ht0 Hx|d ti e HD He]; norm Hs.
  - eapply (Done_for_bindings d c s t0 [x] _ k u (ts ++ r)); [by rewrite Ht0|apply B_last, B_name; exact Hx|done|naive_solver|done..|].
    rewrite HR. intros s1 Hc1 Hs1. specialize (HF s1 r Hc1 Hs1 Hr Hn). by destruct k; [done| |]; cbn; rewrite Ht0.
  - eapply (Done_for_bindings d c s t0 [x] _ k u (ts ++ r)); [by destruct Ht0 as [-> | ->]|apply B_last, B_name; exact Hx|done|naive_solver|done..|].
    rewrite HR. intros s1 Hc1 Hs1. specialize (HF s1 r Hc1 Hs1 Hr Hn).
    by destruct k; [done| |]; cbn; destruct Ht0 as [E|E]; rewrite E in HF |- *.
  - eapply (Done_for_expression _ c s ti e k u (ts ++ r)); [by eapply derives_starts|by apply lhs_expression|done..|].
    rewrite HR. intros s1 Hc1 Hs1. specialize (HF s1 r Hc1 Hs1 Hr Hn). by destruct k.
Qed.

Lemma Good_for_in d c t l ti into k ts e rp ts1 st n :
  tk t = FOR → tk l = LEFT_PARENTHESIS → target_ d ti into → tk k = IN → derives d true Expression ts e → tk rp = RIGHT_PARENTHESIS →
  GoodStatement d (inLoop c) ts1 n st → GoodStatement (S d) c (t :: l :: ti ++ k :: ts ++ rp :: ts1) n (ForInStatement into e st).
Proof.
  intros Ht Hl HT Hk HD Hrp HG. eapply (Good_for_each _ _ _ _ _ _ KIn); [done..|by constructor|by apply app_nonempty|].
  intros s r Hc Hs Hr <-. norm Hs. by eapply Done_forIn.
Qed.

Lemma Good_for_of d c t l ti into k ts e rp ts1 st n :
  tk t = FOR → tk l = LEFT_PARENTHESIS → target_ d ti into → tk k = IDENTIFIER → literal k = "of"%string → derives d true Assignment ts e →
  tk rp = RIGHT_PARENTHESIS → GoodStatement d (inLoop c) ts1 n st →
  GoodStatement (S d) c (t :: l :: ti ++ k :: ts ++ rp :: ts1) n (ForOfStatement into e st).
Proof.
  intros Ht Hl HT Hk Hof HD Hrp HG. eapply (Good_for_each _ _ _ _ _ _ KOf); [done..|by constructor|by apply app_nonempty|].
  intros s r Hc Hs Hr <-. norm Hs. by eapply Done_forOf.
Qed.

(** ** Every derivation *)

Theorem statement_grammar_good :
  (∀ d c ts n st, statement d c ts n st → GoodStatement d c ts n st) ∧
  (∀ d c ts l, block d c ts l → GoodBlock d c ts l) ∧
  (∀ d c ts n l, statements d c ts n l → declares c = true → GoodStatements d c ts n l) ∧
  (∀ d c ts n ca, handler d c ts n ca → GoodHandler d c ts n ca) ∧
  (∀ d c ts n fi, finalizer d c ts n fi → GoodFinalizer d c ts n fi) ∧
  (∀ d c i def ts def' cs, clauses d c i def ts def' cs → declares c = true → GoodClauses d c i def ts def' cs).
Proof.
  apply statement_grammar_mind; intros.
  - by apply Good_empty.
  - by apply Good_block.
  - by apply Good_expression.
  - by apply Good_if.
  - by apply Good_if_else.
  - by apply Good_do.
  - by apply Good_while.
  - by apply Good_for.
  - by apply Good_for_in.
  - by apply Good_for_of.
  - by apply Good_break.
  - by apply Good_continue.
  - by apply Good_break_label.
  - by apply Good_continue_label.
  - by apply Good_label.
  - by apply Good_throw.
  - by apply Good_debugger.
  - by apply Good_with.
  - by eapply Good_try.
  - apply Good_switch; eauto.
  - by apply Good_var.
  - by apply Good_lexical.
  - apply Good_braces; eauto.
  - apply Good_nil.
  - apply Good_cons; eauto.
  - by apply Good_no_catch.
  - by apply Good_catch.
  - by apply Good_catch_name.
  - by apply Good_no_finally.
  - by apply Good_finally.
  - by apply Good_end.
  - apply Good_case; eauto.
  - apply Good_default; eauto.
Qed.

Lemma statements_good d c ts n l : statements d c ts n l → declares c = true → GoodStatements d c ts n l.
Proof. apply statement_grammar_good. Qed.

(** ** Scripts *)

Definition scriptContext : context := Context_ [] false false true.

Lemma initial_state toks : toks ≠ [] → ∃ s, initial toks = Ok () s ∧ Start s toks ∧ scope_ s = initialScope ∧ depth s = 0%nat.
Proof.
  intros Hne. unfold initial. set (s0 := St eofTok toks false false initialScope 0). exists (nextSt s0). rewrite next_eq. split; [done|].
  split; [|by rewrite nextSt_scope, nextSt_depth]. destruct toks as [|t ts]; [done|]. by apply (nextSt_start s0 eofTok).
Qed.

Lemma script_runs d ts eof l :
  statements d scriptContext ts eof l → tk eof = EOF → (d ≤ maxNestingDepth)%nat →
  ∃ fuel, ∀ fuel', (fuel ≤ fuel')%nat → ∃ s, parseProgram fuel' (ts ++ [eof]) = Ok l s ∧ cur s = eof ∧ rest s = [].
Proof.
  intros HS Heof Hd. destruct (initial_state (ts ++ [eof])) as (s & Hi & Hs & Hsc & Hdp); [by apply app_nonempty|].
  destruct (statements_good _ _ _ _ _ HS eq_refl CSourceElements _ s [] [eof] isListLoop_program) as (s' & [n Hn] & Hs' & _); try done.
  - split; rewrite ?Hsc, ?Hdp; try done.
  - by rewrite Heof.
  - exists n. intros m Hm. exists s'. unfold parseProgram. rewrite Hi. split; [by apply Hn|]. split; [by eapply Start_cur|by eapply Start_rest].
Qed.
End ParserStatements.
