(* ===== verification/ParserTermination.v ===== *)
(** * The parser terminates

    Every call consumes a token or goes to a call of a lower rank, so that fuel
    linear in the number of tokens is enough: with it the parser returns a tree or
    an error, and more fuel does not change the result. *)

From S2P Require Import Prelude Parser ParserGrammar ParserCorrect ParserExpressions ParserStatements.
From stdpp Require Import strings.
Import Parser ParserGrammar ParserCorrect ParserExpressions ParserStatements.
Open Scope Z_scope.

Module ParserTermination.

(** ** The measure *)

Definition atEnd (s : pstate) : bool := teq (tk (cur s)) EOF.

(** The tokens left to read. *)
Definition size (s : pstate) : nat := (length (rest s) + if atEnd s then 0 else 1)%nat.

Definition binaryRank (l : binaryLevel) : nat :=
  match l with
  | LogicalAnd => 25 | BitwiseOr => 24 | BitwiseExclusiveOr => 23 | BitwiseAnd => 22 | Equality => 21
  | Shift => 19 | Additive => 18 | Multiplicative => 17
  end.

(** A call that is made before a token is consumed has a lower rank. *)
Definition callRank {A} (c : call A) : nat :=
  match c with
  | CSourceElements _ | CStatementList _ | CCaseLoop _ => 40
  | CStatement => 35
  | CExpression => 30
  | CObjectLiteral _ => 32
  | CParenthesisLoop _ | CArguments _ | CArrayLiteral _ | CObjectProperty => 30
  | CAssignment => 28
  | CConditional => 27
  | CLogicalOr => 26
  | CBinary l => binaryRank l
  | CRelational => 20
  | CExponentLoop _ => 17
  | CExponentiation => 16
  | CUnary => 15
  | CUpdate => 14
  | CLeftHandSideAllowCall | CLeftHandSide => 13
  | _ => 0
  end%nat.

Definition levels : nat := 64.
Definition need {A} (c : call A) (s : pstate) : nat := (levels * size s + callRank c)%nat.

(** The calls that read at least one token. *)
Definition consumes {A} (c : call A) : nat :=
  match c with
  | CSequenceLoop _ | COrLoop _ | CCoalesceLoop _ | CBinaryLoop _ _ | CRelationalLoop _ _ | CExponentLoop _ | CCallLoop _ _ | CMemberLoop _
  | CArguments _ | CArrayLiteral _ | CObjectLiteral _ | CStatementList _ | CSourceElements _ | CSwitchLoop _ _ _ | CCaseLoop _ => 0
  | _ => 1
  end%nat.

(** ** Two runs that agree *)

(** [f] and [g] give the same result, not for want of fuel, and [Q] holds of it. *)
Definition agree {A} (f g : P A) (s : pstate) (Q : A → pstate → Prop) : Prop :=
  f s = g s ∧ match f s with Ok a s' => Q a s' | NoFuel => False | _ => True end.

Lemma agree_bind {A B} (f g : P A) (k k' : A → P B) s Q :
  agree f g s (λ a s', agree (k a) (k' a) s' Q) → agree (f ≫= k) (g ≫= k') s Q.
Proof. unfold agree, mbind, P_bind. intros [<- H]. by destruct (f s). Qed.

Lemma agree_ret {A} (a : A) s (Q : A → pstate → Prop) : Q a s → agree (mret a) (mret a) s Q.
Proof. by split. Qed.

Lemma agree_error {A} msg s (Q : A → pstate → Prop) : agree (error msg) (error msg) s Q.
Proof. by split. Qed.

Lemma agree_unmodelled {A} s (Q : A → pstate → Prop) : agree unmodelled unmodelled s Q.
Proof. by split. Qed.

Lemma agree_token s Q : Q (tk (cur s)) s → agree token token s Q.
Proof. by split. Qed.
Lemma agree_curTok s Q : Q (cur s) s → agree curTok curTok s Q.
Proof. by split. Qed.
Lemma agree_implicit s Q : (∀ b, Q b s) → agree implicit implicit s Q.
Proof. intros HQ. split; [done|]. apply HQ. Qed.
Lemma agree_get s Q : Q s s → agree get get s Q.
Proof. by split. Qed.
Lemma agree_peek s Q : (∀ t, Q t s) → agree peek peek s Q.
Proof. intros HQ. split; [done|]. apply HQ. Qed.

(** The state at the same tokens. *)
Definition same (s s' : pstate) : Prop := cur s = cur s' ∧ rest s = rest s'.

Lemma same_size s s' : same s s' → size s' = size s ∧ tk (cur s') = tk (cur s).
Proof. intros [E1 E2]. unfold size, atEnd. by rewrite E1, E2. Qed.

Lemma agree_modifyScope f s Q : (∀ s', same s s' → Q () s') → agree (modifyScope f) (modifyScope f) s Q.
Proof. intros HQ. split; [done|]. by apply HQ. Qed.
Lemma agree_setInsert b s Q : (∀ s', same s s' → Q () s') → agree (setInsert b) (setInsert b) s Q.
Proof. intros HQ. split; [done|]. by apply HQ. Qed.
Lemma agree_setImplicit b s Q : (∀ s', same s s' → Q () s') → agree (setImplicit b) (setImplicit b) s Q.
Proof. intros HQ. split; [done|]. by apply HQ. Qed.

Lemma next_size s : (size (nextSt s) ≤ size s ∧ (tk (cur s) ≠ EOF → size (nextSt s) < size s))%nat.
Proof.
  unfold nextSt, next. destruct (rest s) as [|t r] eqn:E; unfold size, atEnd; cbn; rewrite E; cbn [length].
  - split; [lia|]. intros H. rewrite (teq_ne _ _ H). lia.
  - destruct (teq (tk t) EOF), (teq (tk (cur s)) EOF) eqn:Ec; split; try lia; intros H; by apply teq_eq in Ec.
Qed.

Lemma agree_next s Q :
  (∀ s', (size s' ≤ size s)%nat → (tk (cur s) ≠ EOF → size s' < size s)%nat → Q () s') → agree next next s Q.
Proof. intros HQ. split; [done|]. rewrite next_eq. destruct (next_size s). by apply HQ. Qed.

Lemma agree_expect t s Q : t ≠ EOF → (∀ s', (size s' < size s)%nat → Q () s') → agree (expect t) (expect t) s Q.
Proof.
  intros Ht HQ. unfold expect. apply agree_bind, agree_token. destruct (teq (tk (cur s)) t) eqn:E; [|apply agree_error].
  apply agree_next. intros s' _ Hs. apply HQ, Hs. apply teq_eq in E. congruence.
Qed.

Lemma agree_nesting {A} (f g : P A) s Q :
  (∀ s0, same s s0 → agree f g s0 (λ a s', ∀ s'', same s' s'' → Q a s'')) → agree (nesting f) (nesting g) s Q.
Proof.
  intros HF. unfold agree, nesting. destruct (_ <? _)%nat; [done|]. destruct (HF (deeper s)) as [E H]; [done|]. unfold deeper in *. rewrite <- E.
  split; [done|]. destruct (f _); try done. by apply H.
Qed.

Lemma agree_tokenToBindingId s Q :
  (∀ s', size s' = size s → Q () s') → agree tokenToBindingId tokenToBindingId s Q.
Proof.
  intros HQ. unfold tokenToBindingId. apply agree_bind, agree_token. destruct (isBindingId (tk (cur s))) eqn:E; [|by apply agree_ret, HQ].
  split; [done|]. cbn. apply HQ. unfold size, atEnd. cbn. by destruct (tk (cur s)).
Qed.

Lemma agree_mono {A} (f g : P A) s (Q Q' : A → pstate → Prop) : agree f g s Q → (∀ a s', Q a s' → Q' a s') → agree f g s Q'.
Proof. intros [E H] HQ. split; [done|]. destruct (f s); try done. by apply HQ. Qed.

(** The token is not the end of the input, from the tests before. *)
Ltac noteof :=
  repeat match goal with E : tk (cur _) = tk (cur _) |- _ => rewrite E in *; clear E end;
  let H := fresh "Heof" in intros H;
  repeat match goal with E : context [tk (cur _)] |- _ => tryif constr_eq E H then fail else (rewrite H in E; cbn in E) end;
  first [discriminate | congruence].

Lemma agree_next_strict s Q : tk (cur s) ≠ EOF → (∀ s', (size s' < size s)%nat → Q () s') → agree next next s Q.
Proof. intros Hs HQ. apply agree_next. intros s' _ H. by apply HQ, H. Qed.

Section bodies.
Context (rec1 rec2 : ∀ A, call A → P A) (m : nat).
Hypothesis IH : ∀ A (c : call A) s, (need c s < m)%nat → agree (rec1 A c) (rec2 A c) s (λ _ s', (size s' + consumes c ≤ size s)%nat).

Lemma agree_rec {A} (c : call A) s (Q : A → pstate → Prop) :
  (need c s < m)%nat → (∀ a s', (size s' + consumes c ≤ size s)%nat → Q a s') → agree (rec1 A c) (rec2 A c) s Q.
Proof. intros Hn HQ. by eapply agree_mono; [apply IH|]. Qed.

(** One step of a run. *)
Ltac bound := unfold need, levels in *; cbn [callRank consumes binaryRank] in *;
  first [lia | match goal with H : tk (cur _) ≠ EOF → _ |- _ => specialize (H ltac:(noteof)); lia end].
Ltac samed := let s' := fresh "s" in let H := fresh "H" in intros s' H; apply same_size in H as [? ?].
Ltac step :=
  lazymatch goal with
  | |- agree (_ ≫= _) _ _ _ => apply agree_bind
  | |- agree (mret _) _ _ _ => apply agree_ret
  | |- agree (error _) _ _ _ => apply agree_error
  | |- agree unexpected _ _ _ => apply agree_error
  | |- agree mixed _ _ _ => apply agree_error
  | |- agree unmodelled _ _ _ => apply agree_unmodelled
  | |- agree token _ _ _ => apply agree_token
  | |- agree curTok _ _ _ => apply agree_curTok
  | |- agree implicit _ _ _ => apply agree_implicit; intros ?
  | |- agree get _ _ _ => apply agree_get
  | |- agree peek _ _ _ => apply agree_peek; intros ?
  | |- agree (modifyScope _) _ _ _ => apply agree_modifyScope; samed
  | |- agree (setInsert _) _ _ _ => apply agree_setInsert; samed
  | |- agree (setImplicit _) _ _ _ => apply agree_setImplicit; samed
  | |- agree tokenToBindingId _ _ _ => apply agree_tokenToBindingId; intros ? ?
  | |- agree next _ _ _ => first [apply agree_next_strict; [noteof|intros ? ?] | apply agree_next; intros ? ? ?]
  | |- agree (expect _) _ _ _ => apply agree_expect; [first [done|noteof]|intros ? ?]
  | |- agree (nesting _) _ _ _ => apply agree_nesting; samed
  | |- agree (rec1 _ _) _ _ _ => apply agree_rec; [bound|intros ? ? ?]
  | |- agree (if ?b then _ else _) _ _ _ => let E := fresh "E" in destruct b eqn:E
  | |- agree (match ?x with _ => _ end) _ _ _ => let E := fresh "E" in destruct x eqn:E
  | |- agree (let '(_, _) := ?x in _) _ _ _ => destruct x
  | |- ∀ s'', same _ s'' → _ => samed
  | |- (_ ≤ _)%nat => bound
  | |- (_ < _)%nat => bound
  end.
Ltac walk := repeat step.

(** Every body, given that the calls of a smaller need agree. *)
Definition BodyOk {A} (c : call A) : Prop :=
  ∀ s, (need c s ≤ m)%nat → agree (body rec1 c) (body rec2 c) s (λ _ s', (size s' + consumes c ≤ size s)%nat).

Lemma body_sequence l : BodyOk (CSequenceLoop l).
Proof. intros s Hm. cbn [body]. unfold sequenceLoop. walk. Qed.

Lemma body_expression : BodyOk CExpression.
Proof. intros s Hm. cbn [body]. unfold parseExpression. walk. Qed.

Lemma body_assignment : BodyOk CAssignment.
Proof. intros s Hm. cbn [body]. unfold parseAssignmentExpression. walk. Qed.

Lemma body_conditional : BodyOk CConditional.
Proof. intros s Hm. cbn [body]. unfold parseConditionalExpression. walk. Qed.

Lemma body_logicalOr : BodyOk CLogicalOr.
Proof. intros s Hm. cbn [body]. unfold parseLogicalOrExpression. walk. Qed.

Lemma body_orLoop e : BodyOk (COrLoop e).
Proof. intros s Hm. cbn [body]. unfold orLoop. walk. Qed.

Lemma body_coalesceLoop e : BodyOk (CCoalesceLoop e).
Proof. intros s Hm. cbn [body]. unfold coalesceLoop. walk. Qed.

Lemma body_binary l : BodyOk (CBinary l).
Proof.
  intros s Hm. cbn [body].
  assert (∀ rec, parseBinary rec l = binaryExpression rec l) as Hb by by destruct l. rewrite !Hb. unfold binaryExpression.
  destruct l; cbn [operand]; walk.
Qed.

Lemma body_binaryLoop l e : BodyOk (CBinaryLoop l e).
Proof. intros s Hm. cbn [body]. unfold binaryLoop. destruct l; cbn [operand operators]; walk. Qed.

Lemma body_relational : BodyOk CRelational.
Proof. intros s Hm. cbn [body]. unfold parseRelationalExpression. walk. Qed.

Lemma body_relationalLoop allow e : BodyOk (CRelationalLoop allow e).
Proof. intros s Hm. cbn [body]. unfold relationalLoop. walk. Qed.

Lemma body_exponentiation : BodyOk CExponentiation.
Proof. intros s Hm. cbn [body]. unfold parseExponentiationExpression. walk. Qed.

Lemma body_exponentLoop e : BodyOk (CExponentLoop e).
Proof. intros s Hm. cbn [body]. unfold exponentLoop. walk. Qed.

Lemma body_unary : BodyOk CUnary.
Proof. intros s Hm. cbn [body]. unfold parseUnaryExpression. walk. Qed.

Lemma body_update : BodyOk CUpdate.
Proof. intros s Hm. cbn [body]. unfold parseUpdateExpression. walk. Qed.

Lemma body_lhs : BodyOk CLeftHandSide.
Proof. intros s Hm. cbn [body]. unfold parseLeftHandSideExpression, leftHandSideStart. walk. Qed.

Lemma body_lhsCall : BodyOk CLeftHandSideAllowCall.
Proof. intros s Hm. cbn [body]. unfold parseLeftHandSideExpressionAllowCall, leftHandSideStart. walk. Qed.

Lemma body_memberLoop e : BodyOk (CMemberLoop e).
Proof. intros s Hm. cbn [body]. unfold memberLoop, parseDotMember, parseBracketMember. walk. Qed.

Lemma body_callLoop e o : BodyOk (CCallLoop e o).
Proof. intros s Hm. cbn [body]. unfold callLoop, parseDotMember, parseBracketMember, parseCallExpression, parseArgumentList. walk. Qed.

Lemma body_new : BodyOk CNew.
Proof. intros s Hm. cbn [body]. unfold parseNewExpression, parseArgumentList. walk. Qed.

Lemma body_primary : BodyOk CPrimary.
Proof.
  intros s Hm. cbn [body]. unfold parsePrimaryExpression, parseObjectLiteral, parseArrayLiteral, parseParenthesisedExpression. walk.
Qed.

Lemma body_parenthesised : BodyOk CParenthesised.
Proof. intros s Hm. cbn [body]. unfold parseParenthesisedExpression. walk. Qed.

Lemma body_parenthesisLoop l : BodyOk (CParenthesisLoop l).
Proof. intros s Hm. cbn [body]. unfold parenthesisLoop. walk. Qed.

Lemma body_arguments l : BodyOk (CArguments l).
Proof. intros s Hm. cbn [body]. unfold argumentLoop. walk. Qed.

Lemma body_array l : BodyOk (CArrayLiteral l).
Proof. intros s Hm. cbn [body]. unfold arrayLoop. walk. Qed.

Lemma body_object l : BodyOk (CObjectLiteral l).
Proof. intros s Hm. cbn [body]. unfold objectLoop. walk. Qed.

Lemma body_property : BodyOk CObjectProperty.
Proof. intros s Hm. cbn [body]. unfold parseObjectProperty, parseObjectPropertyKey. walk. Qed.

(** *** Statements *)

Lemma agree_semicolon s Q : (∀ s', (size s' ≤ size s)%nat → Q () s') → agree semicolon semicolon s Q.
Proof. intros HQ. unfold semicolon. walk; apply HQ; lia. Qed.

Lemma agree_optionalSemicolon s Q : (∀ s', (size s' ≤ size s)%nat → Q () s') → agree optionalSemicolon optionalSemicolon s Q.
Proof. intros HQ. unfold optionalSemicolon. walk; apply HQ; lia. Qed.

Lemma agree_bindingTarget s Q : (∀ x s', (size s' < size s)%nat → Q x s') → agree parseBindingTarget parseBindingTarget s Q.
Proof. intros HQ. unfold parseBindingTarget, parseIdentifier. walk. apply HQ. lia. Qed.

Lemma agree_forKeyword s Q : (∀ k s', (size s' ≤ size s)%nat → Q k s') → agree forKeyword forKeyword s Q.
Proof. intros HQ. unfold forKeyword. walk; apply HQ; lia. Qed.

Lemma agree_block s Q :
  (levels * size s ≤ m)%nat → (∀ l s', (size s' < size s)%nat → Q l s') → agree (parseBlockStatement rec1) (parseBlockStatement rec2) s Q.
Proof. intros Hm HQ. unfold parseBlockStatement. walk. apply HQ. lia. Qed.

(** A body, after some token of the statement has been read. *)
Lemma agree_body s Q :
  (levels * size s + 35 < m)%nat → (∀ st s', (size s' < size s)%nat → Q st s') → agree (parseBody rec1) (parseBody rec2) s Q.
Proof. intros Hm HQ. unfold parseBody. walk. apply HQ. bound. Qed.

Lemma agree_withFlag {A} set get_ (f g : P A) s (Q : A → pstate → Prop) :
  (∀ s0, same s s0 → agree f g s0 (λ a s', ∀ s'', same s' s'' → Q a s'')) → agree (withFlag set get_ f) (withFlag set get_ g) s Q.
Proof.
  intros HF. unfold withFlag. apply agree_bind, agree_get, agree_bind, agree_modifyScope. intros s0 H0. apply agree_bind. eapply agree_mono; [by apply HF|].
  cbn. intros a s1 H1. apply agree_bind, agree_modifyScope. intros s2 H2. by apply agree_ret, H1.
Qed.

Lemma agree_iteration s Q :
  (levels * size s + 35 < m)%nat → (∀ st s', (size s' < size s)%nat → Q st s') → agree (parseIterationStatement rec1) (parseIterationStatement rec2) s Q.
Proof.
  intros Hm HQ. apply agree_withFlag. samed. apply agree_body; [by lia|]. intros st s' H1. samed. apply HQ. lia.
Qed.

Lemma agree_for init s Q :
  (levels * size s + 40 < m)%nat → (∀ st s', (size s' < size s)%nat → Q st s') → agree (parseFor rec1 init) (parseFor rec2 init) s Q.
Proof. intros Hm HQ. unfold parseFor. walk; (apply agree_iteration; [bound|intros ? ? ?]; walk; apply HQ; bound). Qed.

Lemma agree_forIn into s Q :
  (levels * size s + 40 < m)%nat → (∀ st s', (size s' < size s)%nat → Q st s') → agree (parseForIn rec1 into) (parseForIn rec2 into) s Q.
Proof. intros Hm HQ. unfold parseForIn. walk. apply agree_iteration; [bound|intros ? ? ?]. walk. apply HQ. bound. Qed.

Lemma agree_forOf into s Q :
  (levels * size s + 40 < m)%nat → (∀ st s', (size s' < size s)%nat → Q st s') → agree (parseForOf rec1 into) (parseForOf rec2 into) s Q.
Proof. intros Hm HQ. unfold parseForOf. walk. apply agree_iteration; [bound|intros ? ? ?]. walk. apply HQ. bound. Qed.

(** The steps of statements. *)
Ltac sstep :=
  lazymatch goal with
  | |- agree semicolon _ _ _ => apply agree_semicolon; intros ? ?
  | |- agree optionalSemicolon _ _ _ => apply agree_optionalSemicolon; intros ? ?
  | |- agree parseBindingTarget _ _ _ => apply agree_bindingTarget; intros ? ? ?
  | |- agree forKeyword _ _ _ => apply agree_forKeyword; intros ? ? ?
  | |- agree (parseBlockStatement _) _ _ _ => apply agree_block; [bound|intros ? ? ?]
  | |- agree (parseBody _) _ _ _ => apply agree_body; [bound|intros ? ? ?]
  | |- agree (parseIterationStatement _) _ _ _ => apply agree_iteration; [bound|intros ? ? ?]
  | |- agree (parseFor _ _) _ _ _ => apply agree_for; [bound|intros ? ? ?]
  | |- agree (parseForIn _ _) _ _ _ => apply agree_forIn; [bound|intros ? ? ?]
  | |- agree (parseForOf _ _) _ _ _ => apply agree_forOf; [bound|intros ? ? ?]
  | |- agree (withFlag _ _ _) _ _ _ => apply agree_withFlag; samed
  | _ => step
  end.
Ltac swalk := repeat sstep.

(** What parseStatement calls, each reading a token at least. *)
Definition StatementOk (F : (∀ A, call A → P A) → P stmt) : Prop :=
  ∀ s, (levels * size s + 31 ≤ m)%nat → agree (F rec1) (F rec2) s (λ _ s', (size s' < size s)%nat).

Lemma if_terminates : StatementOk (λ rec, parseIfStatement rec).
Proof. intros s Hm. unfold parseIfStatement. swalk. Qed.
Lemma do_terminates : StatementOk (λ rec, parseDoWhileStatement rec).
Proof. intros s Hm. unfold parseDoWhileStatement. swalk. Qed.
Lemma while_terminates : StatementOk (λ rec, parseWhileStatement rec).
Proof. intros s Hm. unfold parseWhileStatement. swalk. Qed.
Lemma with_terminates : StatementOk (λ rec, parseWithStatement rec).
Proof. intros s Hm. unfold parseWithStatement. swalk. Qed.
Lemma throw_terminates : StatementOk (λ rec, parseThrowStatement rec).
Proof. intros s Hm. unfold parseThrowStatement. swalk. Qed.
Lemma variable_terminates : StatementOk (λ rec, parseVariableStatement rec).
Proof. intros s Hm. unfold parseVariableStatement. swalk. Qed.
Lemma lexical_terminates t : t ≠ EOF → StatementOk (λ rec, parseLexicalDeclaration rec t).
Proof. intros Ht s Hm. unfold parseLexicalDeclaration. swalk. Qed.
Lemma try_terminates : StatementOk (λ rec, parseTryStatement rec).
Proof. intros s Hm. unfold parseTryStatement. swalk. Qed.
Lemma switch_terminates : StatementOk (λ rec, parseSwitchStatement rec).
Proof. intros s Hm. unfold parseSwitchStatement. swalk. Qed.
Lemma expression_terminates : StatementOk (λ rec, parseExpressionStatement rec).
Proof. intros s Hm. unfold parseExpressionStatement. swalk. Qed.
Lemma branch_terminates t allowed illegal : t ≠ EOF → StatementOk (λ _, parseBranch t allowed illegal).
Proof. intros Ht s Hm. unfold parseBranch, parseIdentifier. swalk. Qed.
Lemma for_terminates : StatementOk (λ rec, parseForOrForInStatement rec).
Proof. intros s Hm. unfold parseForOrForInStatement. swalk. Qed.

Lemma statementOk_use F s (Q : stmt → pstate → Prop) :
  StatementOk F → (levels * size s + 31 ≤ m)%nat → (∀ st s', (size s' < size s)%nat → Q st s') → agree (F rec1) (F rec2) s Q.
Proof. intros HF Hm HQ. eapply agree_mono; [by apply HF|done]. Qed.

Ltac branch :=
  lazymatch goal with
  | |- agree (parseIfStatement _) _ _ _ => apply (statementOk_use _ _ _ if_terminates)
  | |- agree (parseDoWhileStatement _) _ _ _ => apply (statementOk_use _ _ _ do_terminates)
  | |- agree (parseWhileStatement _) _ _ _ => apply (statementOk_use _ _ _ while_terminates)
  | |- agree (parseForOrForInStatement _) _ _ _ => apply (statementOk_use _ _ _ for_terminates)
  | |- agree (parseWithStatement _) _ _ _ => apply (statementOk_use _ _ _ with_terminates)
  | |- agree (parseThrowStatement _) _ _ _ => apply (statementOk_use _ _ _ throw_terminates)
  | |- agree (parseVariableStatement _) _ _ _ => apply (statementOk_use _ _ _ variable_terminates)
  | |- agree (parseLexicalDeclaration _ ?t) _ _ _ => apply (statementOk_use _ _ _ (lexical_terminates t ltac:(done)))
  | |- agree (parseTryStatement _) _ _ _ => apply (statementOk_use _ _ _ try_terminates)
  | |- agree (parseSwitchStatement _) _ _ _ => apply (statementOk_use _ _ _ switch_terminates)
  | |- agree (parseExpressionStatement _) _ _ _ => apply (statementOk_use _ _ _ expression_terminates)
  | |- agree parseBreakStatement _ _ _ => apply (statementOk_use _ _ _ (branch_terminates BREAK _ _ ltac:(done)))
  | |- agree parseContinueStatement _ _ _ => apply (statementOk_use _ _ _ (branch_terminates CONTINUE _ _ ltac:(done)))
  end; [bound|intros ? ? ?].

Lemma body_statement : BodyOk CStatement.
Proof.
  intros s Hm. cbn [body]. unfold parseStatement, parseEmptyStatement, parseDebuggerStatement.
  repeat first [branch | sstep].
Qed.

Lemma body_statementList l : BodyOk (CStatementList l).
Proof. intros s Hm. cbn [body]. unfold statementListLoop. walk. Qed.

Lemma body_sourceElements l : BodyOk (CSourceElements l).
Proof. intros s Hm. cbn [body]. unfold sourceElementsLoop. walk. Qed.

Lemma body_caseLoop l : BodyOk (CCaseLoop l).
Proof. intros s Hm. cbn [body]. unfold caseLoop. walk. Qed.

Lemma body_switchLoop i d l : BodyOk (CSwitchLoop i d l).
Proof. intros s Hm. cbn [body]. unfold switchLoop, parseCaseStatement. walk. Qed.

Lemma body_variables l : BodyOk (CVariables l).
Proof. intros s Hm. cbn [body]. unfold variablesLoop, parseVariableDeclaration. swalk. Qed.

Lemma body_ok {A} (c : call A) : BodyOk c.
Proof.
  destruct c;
    [apply body_expression|apply body_sequence|apply body_assignment|apply body_conditional|apply body_logicalOr|apply body_orLoop
    |apply body_coalesceLoop|apply body_binary|apply body_binaryLoop|apply body_relational|apply body_relationalLoop|apply body_exponentiation
    |apply body_exponentLoop|apply body_unary|apply body_update|apply body_lhsCall|apply body_callLoop|apply body_lhs|apply body_memberLoop|apply body_new
    |apply body_primary|apply body_parenthesised|apply body_parenthesisLoop|apply body_arguments|apply body_array|apply body_object|apply body_property
    |apply body_statement|apply body_statementList|apply body_sourceElements|apply body_switchLoop|apply body_caseLoop|apply body_variables].
Qed.
End bodies.

(** ** Fuel *)

Lemma parse_agrees n : ∀ f g A (c : call A) s, (need c s < n)%nat → (n ≤ f)%nat → (n ≤ g)%nat →
  agree (parse f c) (parse g c) s (λ _ s', (size s' + consumes c ≤ size s)%nat).
Proof.
  induction n as [|n IH]; intros f g A c s Hn Hf Hg; [lia|]. destruct f as [|f], g as [|g]; try lia. cbn [parse].
  apply (body_ok (@parse f) (@parse g) n); [|lia]. intros B c' s' Hn'. apply IH; lia.
Qed.

(** Enough fuel for these tokens. *)
Definition fuelFor (toks : list tok) : nat := (levels * (length toks + 1))%nat.

Lemma initial_size toks s : initial toks = Ok () s → (size s ≤ length toks)%nat.
Proof.
  unfold initial. rewrite next_eq. intros [= <-]. destruct (next_size (St eofTok toks false false initialScope 0)) as [H _].
  assert (size (St eofTok toks false false initialScope 0) = length toks) by (unfold size; cbn; lia). lia.
Qed.

Lemma parseProgram_agrees toks f g :
  (fuelFor toks ≤ f)%nat → (fuelFor toks ≤ g)%nat → parseProgram f toks = parseProgram g toks ∧ parseProgram f toks ≠ NoFuel.
Proof.
  intros Hf Hg. unfold parseProgram. set (s := nextSt (St eofTok toks false false initialScope 0)).
  assert (initial toks = Ok () s) as E by apply next_eq. rewrite E. pose proof (initial_size toks s E) as Hs.
  destruct (parse_agrees (fuelFor toks) f g _ (CSourceElements []) s) as [H1 H2]; [|done..|].
  - unfold need, fuelFor, levels. cbn [callRank]. lia.
  - split; [done|]. by destruct (parse f _ s).
Qed.

(** The parser of the model, which ends at the first error where the code records it
    and goes on, terminates on every list of tokens: fuel linear in their number is
    enough, and more fuel gives the same. *)
Theorem parseProgram_terminates toks :
  parseProgram (fuelFor toks) toks ≠ NoFuel ∧ ∀ fuel, (fuelFor toks ≤ fuel)%nat → parseProgram fuel toks = parseProgram (fuelFor toks) toks.
Proof.
  split.
  - by apply (parseProgram_agrees toks (fuelFor toks) (fuelFor toks)).
  - intros fuel Hf. by apply parseProgram_agrees.
Qed.

Lemma script_parses d ts eof l :
  statements d scriptContext ts eof l → tk eof = EOF → (d ≤ maxNestingDepth)%nat →
  ∃ s, parseProgram (fuelFor (ts ++ [eof])) (ts ++ [eof]) = Ok l s ∧ cur s = eof ∧ rest s = [].
Proof.
  intros HS He Hd. destruct (script_runs d ts eof l HS He Hd) as [n Hn].
  destruct (Hn (n `max` fuelFor (ts ++ [eof]))%nat) as (s & E & H); [lia|]. exists s. split; [|done].
  rewrite <- E. apply parseProgram_agrees; lia.
Qed.


(** The grammar, with the insertion of semicolons, gives a script one tree. *)
Theorem grammar_unambiguous d d' ts eof l l' :
  statements d scriptContext ts eof l → statements d' scriptContext ts eof l' → tk eof = EOF → (d ≤ maxNestingDepth)%nat → (d' ≤ maxNestingDepth)%nat →
  l = l'.
Proof.
  intros H1 H2 He Hd Hd'. destruct (script_runs _ _ _ _ H1 He Hd) as [n Hn], (script_runs _ _ _ _ H2 He Hd') as [m Hm].
  destruct (Hn (n + m)%nat ltac:(lia)) as (s & E & _), (Hm (n + m)%nat ltac:(lia)) as (s' & E' & _). congruence.
Qed.
End ParserTermination.
