(* ===== verification/ParserSamples.v ===== *)
(** * Scripts through the parser

    A script with its derivation, as the concrete input of the theorems on the
    parser, and scripts on which the parser departs from ECMAScript. *)

From S2P Require Import Prelude Parser ParserGrammar ParserCorrect ParserExpressions ParserStatements ParserTermination.
From stdpp Require Import strings.
Import Parser ParserGrammar ParserStatements ParserTermination.
Open Scope Z_scope.

Module ParserSamples.

Definition T (k : Token) (x : string) : tok := Tok k x x false false.
(** A token at the start of a line. *)
Definition N (k : Token) (x : string) : tok := Tok k x x true false.
Definition V (x : string) : tok := T IDENTIFIER x.
Definition eof : tok := N EOF "".

(** ** Derivations of the operands *)

Lemma lhs_unary d i ts e : derives d i LeftHandSide ts e → derives (S d) i Exponentiation ts e.
Proof. intros H. by apply D_unary, D_update, D_lhs. Qed.
Lemma exponentiation_relational d i ts e : derives d i Exponentiation ts e → derives d i Relational ts e.
Proof. intros H. by apply D_shift, D_operand, (D_operand _ _ Additive), (D_operand _ _ Multiplicative). Qed.
Lemma relational_bitwiseOr d i ts e : derives d i Relational ts e → derives d i (Binary BitwiseOr) ts e.
Proof. intros H. by apply D_operand, (D_operand _ _ BitwiseExclusiveOr), (D_operand _ _ BitwiseAnd), (D_operand _ _ Equality). Qed.
Lemma bitwiseOr_assignment d i ts e : derives d i (Binary BitwiseOr) ts e → derives (S d) i Assignment ts e.
Proof. intros H. by apply D_conditional, D_shortCircuit, D_or, D_or_and, D_operand. Qed.
Lemma primary_lhs d i ts e : derives d true Primary ts e → derives d i LeftHandSide ts e.
Proof. intros H. by apply D_new_expression, D_member, D_primary. Qed.
Lemma lhs_assignment d i ts e : derives d i LeftHandSide ts e → derives (S (S d)) i Assignment ts e.
Proof. intros H. by apply bitwiseOr_assignment, relational_bitwiseOr, exponentiation_relational, lhs_unary. Qed.
Lemma assignment_expression d i ts e : derives d i Assignment ts e → derives d i Expression ts e.
Proof. intros H. by apply (D_expression _ _ _ [e]), D_one. Qed.
Lemma name_lhs d i x : derives d i LeftHandSide [V x] (Identifier x).
Proof. by apply primary_lhs, D_atom. Qed.

(** ** A script

[[
L: for (var i = 0; i in o; i++) {
  x = y - z - 1 ** 2 ** 3
  if (i) break L; else o?.p(i, ...x)
}
]] *)
Definition assigned : list tok :=
  [N IDENTIFIER "x"; T ASSIGN "="; V "y"; T MINUS "-"; V "z"; T MINUS "-"; T NUMBER "1"; T EXPONENT "**"; T NUMBER "2"; T EXPONENT "**"; T NUMBER "3"].
Definition called : list tok :=
  [V "o"; T QUESTION_DOT "?."; V "p"; T LEFT_PARENTHESIS "("; V "i"; T COMMA ","; T ELLIPSIS "..."; V "x"; T RIGHT_PARENTHESIS ")"].
Definition choice : list tok :=
  [N IF "if"; T LEFT_PARENTHESIS "("; V "i"; T RIGHT_PARENTHESIS ")"; T BREAK "break"; V "L"; T SEMICOLON ";"; T ELSE "else"] ++ called.
Definition script : list tok :=
  [V "L"; T COLON ":"; T FOR "for"; T LEFT_PARENTHESIS "("; T VAR "var"; V "i"; T ASSIGN "="; T NUMBER "0"; T SEMICOLON ";"; V "i"; T IN "in"; V "o";
   T SEMICOLON ";"; V "i"; T INCREMENT "++"; T RIGHT_PARENTHESIS ")"; T LEFT_BRACE "{"] ++ assigned ++ choice ++ [N RIGHT_BRACE "}"].

Definition number (x : string) : expr := NumberLiteral x.
Definition assignedTree : expr :=
  AssignExpression ASSIGN (Identifier "x")
    (BinaryExpression MINUS (BinaryExpression MINUS (Identifier "y") (Identifier "z"))
       (BinaryExpression EXPONENT (number "1") (BinaryExpression EXPONENT (number "2") (number "3")))) false.
Definition calledTree : expr :=
  OptionalChain (CallExpression (DotExpression (Optional (Identifier "o")) "p") [Identifier "i"; SpreadElement (Identifier "x")]).
Definition tree : list stmt :=
  [LabelledStatement "L"
     (ForStatement (Some (ForLoopInitializerVarDeclList [Binding "i" (Some (number "0"))]))
        (Some (BinaryExpression IN (Identifier "i") (Identifier "o"))) (Some (UnaryExpression INCREMENT (Identifier "i") true))
        (BlockStatement
           [ExpressionStatement assignedTree;
            IfStatement (Identifier "i") (BranchStatement BREAK (Some "L"%string)) (Some (ExpressionStatement calledTree))]))].

Lemma number_lhs d i x : derives d i LeftHandSide [T NUMBER x] (number x).
Proof. by apply primary_lhs, D_atom. Qed.

Lemma assigned_derives d : derives (S (S (S (S (S d))))) true Expression assigned assignedTree.
Proof.
  apply assignment_expression. apply (D_assign _ _ [N IDENTIFIER "x"] (Identifier "x") (T ASSIGN "=") ASSIGN (drop 2 assigned)); try done.
  { by apply primary_lhs, D_atom. }
  apply bitwiseOr_assignment, relational_bitwiseOr, D_shift, D_operand.
  apply (D_binary _ _ Additive [V "y"; T MINUS "-"; V "z"] _ (T MINUS "-") (drop 6 assigned)); [|done|].
  - apply (D_binary _ _ Additive [V "y"] _ (T MINUS "-") [V "z"]); [|done|].
    + apply D_operand, (D_operand _ _ Multiplicative), lhs_unary, name_lhs.
    + apply D_operand, lhs_unary, name_lhs.
  - apply D_operand, (D_exponent _ _ [T NUMBER "1"] _ (T EXPONENT "**") (drop 8 assigned)); [|done|].
    + apply D_lhs, number_lhs.
    + apply (D_exponent _ _ [T NUMBER "2"] _ (T EXPONENT "**") [T NUMBER "3"]); [|done|]; [apply D_lhs, number_lhs|].
      apply lhs_unary, number_lhs.
Qed.

Lemma called_derives d : derives (S (S (S (S d)))) true Expression called calledTree.
Proof.
  apply assignment_expression, lhs_assignment, D_optional.
  apply (D_call _ _ OptionalExpr [V "o"; T QUESTION_DOT "?."; V "p"] _ (drop 3 called)).
  - apply (D_optional_dot _ _ Member [V "o"] _ (T QUESTION_DOT "?.") (V "p")); [|done|done]. by apply D_primary, D_atom.
  - apply (D_arguments _ (T LEFT_PARENTHESIS "(") [V "i"; T COMMA ","; T ELLIPSIS "..."; V "x"]); [done| |done].
    apply (D_items _ [V "i"] _ (T COMMA ",") [T ELLIPSIS "..."; V "x"]); [by apply D_item, lhs_assignment, name_lhs|done|].
    apply D_last_item, D_spread; [done|]. apply lhs_assignment, name_lhs.
Qed.

Definition inBlock : context := Context_ ["L"%string] true false true.

Lemma choice_derives d : statement (S (S (S (S (S (S d)))))) inBlock choice (N RIGHT_BRACE "}")
  (IfStatement (Identifier "i") (BranchStatement BREAK (Some "L"%string)) (Some (ExpressionStatement calledTree))).
Proof.
  apply (S_if_else _ _ (N IF "if") (T LEFT_PARENTHESIS "(") [V "i"] _ (T RIGHT_PARENTHESIS ")") [T BREAK "break"; V "L"; T SEMICOLON ";"] _ (T ELSE "else") called);
    try done.
  - apply assignment_expression, lhs_assignment, name_lhs.
  - apply (S_break_label _ _ (T BREAK "break") (V "L") [T SEMICOLON ";"]); try done; [by left|by apply T_semicolon].
  - apply (S_expression _ _ called calledTree []); try done; [apply called_derives|]. apply T_inserted; [by left|done].
Qed.

Lemma script_derives : statements 9 scriptContext script eof tree.
Proof.
  rewrite <- (app_nil_r script). apply S_cons; [|apply S_nil]. apply S_label; [done..| |]; [by intros ?%elem_of_nil|].
  apply (S_for _ _ (T FOR "for") (T LEFT_PARENTHESIS "(") [T VAR "var"; V "i"; T ASSIGN "="; T NUMBER "0"] _ (T SEMICOLON ";") [V "i"; T IN "in"; V "o"] _
           (T SEMICOLON ";") [V "i"; T INCREMENT "++"] _ (T RIGHT_PARENTHESIS ")")); try done.
  - right. eexists. split; [|done]. apply I_var; [done|]. apply B_last, (B_init _ _ (V "i") (T ASSIGN "=")); [done..|]. apply lhs_assignment, number_lhs.
  - apply O_some, assignment_expression, bitwiseOr_assignment, relational_bitwiseOr.
    apply (D_relational _ _ [V "i"] _ (T IN "in") [V "o"]); [|done|].
    + apply exponentiation_relational, lhs_unary, name_lhs.
    + apply D_operand, (D_operand _ _ Additive), (D_operand _ _ Multiplicative), lhs_unary, name_lhs.
  - apply O_some, assignment_expression, bitwiseOr_assignment, relational_bitwiseOr, exponentiation_relational, D_unary, D_update.
    apply (D_postfix _ _ [V "i"] _ (T INCREMENT "++")); try done; [apply name_lhs|by left].
  - apply S_block, (S_braces _ _ (T LEFT_BRACE "{") (assigned ++ choice)); [done| |done].
    apply S_cons; [|rewrite <- (app_nil_r choice); apply S_cons; [apply choice_derives|apply S_nil]].
    rewrite <- (app_nil_r assigned). apply S_expression; try done; [apply assigned_derives|]. apply T_inserted; [by left|done].
Qed.


Lemma parseProgram_terminates_witness :
  parseProgram (fuelFor script) script ≠ NoFuel ∧ parseProgram (fuelFor script + 1) script = parseProgram (fuelFor script) script.
Proof. split; [apply (parseProgram_terminates script)|]. apply (proj2 (parseProgram_terminates script)). lia. Defined.

(** ** Departures from ECMAScript *)

Definition parsed (toks : list tok) : option (list stmt) :=
  match parseProgram (fuelFor (toks ++ [eof])) (toks ++ [eof]) with Ok l _ => Some l | _ => None end.
Definition rejected (toks : list tok) : bool :=
  match parseProgram (fuelFor (toks ++ [eof])) (toks ++ [eof]) with Err _ => true | _ => false end.

Definition paren (ts : list tok) : list tok := T LEFT_PARENTHESIS "(" :: ts ++ [T RIGHT_PARENTHESIS ")"].

(** [(a) && b ?? c] and [a ?? (b) && c] mix the operators: only the first token of
    the operand is looked at for the parenthesis that allows it. *)
Theorem coalesce_mixed :
  parsed (paren [V "a"] ++ [T LOGICAL_AND "&&"; V "b"; T COALESCE "??"; V "c"]) =
    Some [ExpressionStatement (BinaryExpression COALESCE (BinaryExpression LOGICAL_AND (Identifier "a") (Identifier "b")) (Identifier "c"))] ∧
  parsed ([V "a"; T COALESCE "??"] ++ paren [V "b"] ++ [T LOGICAL_AND "&&"; V "c"]) =
    Some [ExpressionStatement (BinaryExpression COALESCE (Identifier "a") (BinaryExpression LOGICAL_AND (Identifier "b") (Identifier "c")))] ∧
  rejected [V "a"; T LOGICAL_AND "&&"; V "b"; T COALESCE "??"; V "c"] = true.
Proof. by vm_compute. Qed.

(** [new a?.b()], which ECMAScript rejects, is the optional call of a method of
    [new a]. *)
Theorem new_optional_chain :
  parsed [T NEW "new"; V "a"; T QUESTION_DOT "?."; V "b"; T LEFT_PARENTHESIS "("; T RIGHT_PARENTHESIS ")"] =
  Some [ExpressionStatement (OptionalChain (CallExpression (DotExpression (Optional (NewExpression (Identifier "a") [])) "b") []))].
Proof. by vm_compute. Qed.

(** No semicolon is inserted at a line end after the identifier static. *)
Theorem static_no_semicolon :
  rejected [V "x"; T ASSIGN "="; T STATIC "static"; N IDENTIFIER "y"] = true ∧
  parsed [V "x"; T ASSIGN "="; V "a"; N IDENTIFIER "y"] =
    Some [ExpressionStatement (AssignExpression ASSIGN (Identifier "x") (Identifier "a") false); ExpressionStatement (Identifier "y")].
Proof. by vm_compute. Qed.

(** A semicolon on the line after throw is a statement of its own, so that the
    else that follows is rejected; after an expression statement it is not. *)
Theorem throw_semicolon :
  rejected ([T IF "if"] ++ paren [V "a"] ++ [T THROW "throw"; V "b"; N SEMICOLON ";"; T ELSE "else"; V "c"]) = true ∧
  parsed ([T IF "if"] ++ paren [V "a"] ++ [V "b"; N SEMICOLON ";"; T ELSE "else"; V "c"]) =
    Some [IfStatement (Identifier "a") (ExpressionStatement (Identifier "b")) (Some (ExpressionStatement (Identifier "c")))].
Proof. by vm_compute. Qed.

(** The closing brace of a switch may be missing at the end of the script. *)
Theorem switch_unclosed :
  parsed ([T SWITCH "switch"] ++ paren [V "a"] ++ [T LEFT_BRACE "{"; T CASE "case"; V "b"; T COLON ":"; V "c"; T SEMICOLON ";"]) =
    Some [SwitchStatement (Identifier "a") (-1) [(Some (Identifier "b"), [ExpressionStatement (Identifier "c")])]] ∧
  rejected [T LEFT_BRACE "{"; V "c"; T SEMICOLON ";"] = true.
Proof. by vm_compute. Qed.
End ParserSamples.
