(* ===== verification/Frontend.v ===== *)
(** * From tokens to the machine

    RunScript: the tokens of a script are parsed, the tree is compiled, and the
    machine runs the code.  The compiler dispatches on the nodes of the tree
    (compileStatement, compileExpression); [compileTree] is that dispatch for the
    nodes that the model of the compiler covers.  The theorem composes those of
    the parser, the compiler and the machine: a script of the grammar runs to the
    state and completion that the reference semantics gives its tree. *)

From S2P Require Import Prelude Vm Compiler Semantics ExprCorrect ScriptCorrect Scripts Parser ParserGrammar ParserStatements ParserTermination.
From stdpp Require Import strings.
Import Vm Compiler Semantics ExprCorrect ScriptCorrect Scripts.
Open Scope Z_scope.

Module Frontend.

(** ** The operators of the tokens *)

Definition unaryOf (t : Parser.Token) : option unaryToken :=
  match t with
  | Parser.NOT => Some TNot
  | Parser.BITWISE_NOT => Some TBitwiseNot
  | Parser.TYPEOF => Some TTypeof
  | Parser.MINUS => Some TMinus
  | Parser.PLUS => Some TPlus
  | Parser.VOID => Some TVoid
  | _ => None
  end.

Definition updateOf (t : Parser.Token) : option unaryOp :=
  match t with Parser.INCREMENT => Some OInc | Parser.DECREMENT => Some ODec | _ => None end.

Definition binaryOf (t : Parser.Token) : option binaryOp :=
  match t with
  | Parser.LESS => Some OLt
  | Parser.GREATER => Some OGt
  | Parser.LESS_OR_EQUAL => Some OLte
  | Parser.GREATER_OR_EQUAL => Some OGte
  | Parser.EQUAL => Some OEq
  | Parser.NOT_EQUAL => Some ONeq
  | Parser.STRICT_EQUAL => Some OStrictEq
  | Parser.STRICT_NOT_EQUAL => Some OStrictNeq
  | Parser.PLUS => Some OAdd
  | Parser.MINUS => Some OSub
  | Parser.MULTIPLY => Some OMul
  | Parser.EXPONENT => Some OExp
  | Parser.SLASH => Some ODiv
  | Parser.REMAINDER => Some OMod
  | Parser.AND => Some OAnd
  | Parser.OR => Some OOr
  | Parser.EXCLUSIVE_OR => Some OXor
  | Parser.INSTANCEOF => Some OInstanceof
  | Parser.IN => Some OIn
  | Parser.SHIFT_LEFT => Some OSal
  | Parser.SHIFT_RIGHT => Some OSar
  | Parser.UNSIGNED_SHIFT_RIGHT => Some OShr
  | _ => None
  end.

Definition logicalOf (t : Parser.Token) : option logicalOp :=
  match t with Parser.LOGICAL_OR => Some LOr | Parser.LOGICAL_AND => Some LAnd | Parser.COALESCE => Some LCoalesce | _ => None end.

Section frontend.
Context {rt : Runtime} {g0 : G} {laws : RuntimeLaws g0}.
(** The values of literals, from their text: the lexer computes those of numbers. *)
Context (numberValue stringValue : string → Value).

(** ** The dispatch on the nodes *)

Fixpoint compileExpression (e : Parser.expr) : option expr :=
  match e with
  | Parser.NumberLiteral x => Some (ELiteral (numberValue x))
  | Parser.StringLiteral x => Some (ELiteral (stringValue x))
  | Parser.BooleanLiteral b => Some (ELiteral (if b then valueTrue else valueFalse))
  | Parser.NullLiteral => Some (ELiteral _null)
  | Parser.Identifier x => Some (EIdentifier x)
  | Parser.UnaryExpression op a post =>
      match updateOf op, a with
      | Some o, Parser.Identifier x => Some (EUpdate o post x)
      | Some _, _ => None
      | None, _ => o ← unaryOf op; a ← compileExpression a; Some (EUnary o a)
      end
  | Parser.BinaryExpression op a b =>
      a ← compileExpression a;
      b ← compileExpression b;
      match logicalOf op with
      | Some o => Some (ELogical o a b)
      | None => o ← binaryOf op; Some (EBinary o a b)
      end
  | Parser.ConditionalExpression t a b =>
      t ← compileExpression t; a ← compileExpression a; b ← compileExpression b; Some (EConditional t a b)
  | Parser.SequenceExpression l =>
      ESequence <$> (fix list l := match l with [] => Some [] | e :: l => e ← compileExpression e; l ← list l; Some (e :: l) end) l
  | Parser.AssignExpression op (Parser.Identifier x) r _ =>
      r ← compileExpression r;
      match op with
      | Parser.ASSIGN => Some (EAssign x r)
      | _ => match logicalOf op with Some o => Some (EAssignLogical o x r) | None => o ← binaryOf op; Some (EAssignOp o x r) end
      end
  | _ => None
  end.

Definition compileOptional (o : option Parser.expr) : option (option expr) :=
  match o with None => Some None | Some e => Some <$> compileExpression e end.

Fixpoint compileStatement (s : Parser.stmt) : option stmt :=
  let list := fix list l := match l with [] => Some [] | s :: l => s ← compileStatement s; l ← list l; Some (s :: l) end in
  match s with
  | Parser.EmptyStatement => Some SEmpty
  | Parser.BlockStatement l => SBlock <$> list l
  | Parser.ExpressionStatement e => SExpression <$> compileExpression e
  | Parser.IfStatement t a b =>
      t ← compileExpression t;
      a ← compileStatement a;
      b ← match b with None => Some None | Some b => Some <$> compileStatement b end;
      Some (SIf t a b)
  | Parser.DoWhileStatement b t => b ← compileStatement b; t ← compileExpression t; Some (SDoWhile b t)
  | Parser.WhileStatement t b => t ← compileExpression t; b ← compileStatement b; Some (SWhile t b)
  | Parser.ForStatement i t u b =>
      i ← match i with None => Some None | Some (Parser.ForLoopInitializerExpression e) => Some <$> compileExpression e | _ => None end;
      t ← compileOptional t;
      u ← compileOptional u;
      b ← compileStatement b;
      Some (SFor i t u b)
  | Parser.BranchStatement t l => Some (SBranch (Parser.teq t Parser.BREAK) l)
  | Parser.LabelledStatement l s => SLabelled l <$> compileStatement s
  | Parser.ThrowStatement e => SThrow <$> compileExpression e
  | Parser.TryStatement b c f =>
      b ← list b;
      c ← match c with None => Some None | Some (None, l) => Some <$> list l | Some (Some _, _) => None end;
      f ← match f with None => Some None | Some l => Some <$> list l end;
      Some (STry b c f)
  | Parser.SwitchStatement e _ cs =>
      e ← compileExpression e;
      cs ← (fix clauses cs := match cs with
                              | [] => Some []
                              | (t, l) :: cs => t ← compileOptional t; l ← list l; cs ← clauses cs; Some ((t, l) :: cs)
                              end) cs;
      Some (SSwitch e cs)
  | _ => None
  end.

Fixpoint compileTree (l : list Parser.stmt) : option (list stmt) :=
  match l with [] => Some [] | s :: l => s ← compileStatement s; l ← compileTree l; Some (s :: l) end.

(** A script that starts with a string may be in strict mode; not covered. *)
Definition hasPrologue (l : list Parser.stmt) : bool :=
  match l with Parser.ExpressionStatement (Parser.StringLiteral _) :: _ => true | _ => false end.

(** ** RunScript *)

(** Parse and compile the tokens of a script. *)
Definition compileScript (toks : list Parser.tok) : option code :=
  match Parser.parseProgram (ParserTermination.fuelFor toks) toks with
  | Parser.Ok l _ => if hasPrologue l then None else l ← compileTree l; compile false g0 l
  | _ => None
  end.

(** Run it for [n] rounds of the machine. *)
Definition RunScript (n : nat) (toks : list Parser.tok) (result : Value) (g : G) : option outcome :=
  p ← compileScript toks; runTry n p (MkVm 0 [] [] [] result g).

(** A script of the grammar whose tree the compiler covers runs to the state and the
    completion, normal or an exception, that the reference semantics gives the tree
    of its derivation. *)
Lemma RunScript_correct d ts eof l cl P fuel g c v g' rs :
  ParserGrammar.statements d ParserStatements.scriptContext ts eof l → Parser.tk eof = Parser.EOF → (d ≤ Parser.maxNestingDepth)%nat →
  hasPrologue l = false → compileTree l = Some cl → okScript false cl → compile false g0 cl = Some P →
  pristine g → execScript false fuel cl g = Some ((c, v), g') →
  ∃ n o, Prescribed c g' o ∧ ∀ n', (n ≤ n')%nat → RunScript n' (ts ++ [eof]) rs g = Some o.
Proof.
  intros HD He Hd Hp Ht Hok Hc Hg Hx. destruct (ParserTermination.script_parses d ts eof l HD He Hd) as (s & Hs & _).
  destruct (compiled_script_runs false cl P fuel g c v g' rs Hok Hc Hg Hx) as (n & o & _ & Ho & Hn). exists n, o. split; [done|].
  intros n' Hn'. unfold RunScript, compileScript. rewrite Hs, Hp, Ht. cbn [mbind option_bind]. rewrite Hc. cbn [mbind option_bind]. by apply Hn.
Qed.
End frontend.

End Frontend.
