(* ===== verification/Lexer.v ===== *)
(** * The lexer

    Model of parser/lexer.go on the text as a list of code points, without
    templates and regular expressions, which the parser asks for: white space and
    comments, punctuators, identifiers with escapes and keywords, numeric literals,
    string literals with their values, and the flags insertSemicolon and
    implicitSemicolon.  The text is valid UTF-8; a position in it is what is left
    of the text.  The current character is the first of the rest, -1 at the end.

    The tables of package unicode are the class [UnicodeTables]. *)

From S2P Require Import Prelude Utf Strings Parser.
From stdpp Require Import strings.
Import Utf.
Open Scope Z_scope.

Module Lexer.

(** The code point of an ASCII character. *)
Definition ch (s : string) : Z := match s with String a _ => Z.of_nat (Ascii.nat_of_ascii a) | EmptyString => -1 end.
Arguments ch : simpl never.
Coercion ch : string >-> Z.
#[local] Open Scope string_scope.
#[local] Open Scope Z_scope.

(** unicode.Is with the ranges of identifiers, and unicode.IsSpace; [idContinue] is
    the merge of Mn, Mc, Nd, Pc and Other_ID_Continue. *)
Class UnicodeTables := {
  unicodeRangeIdNeg : Z → bool;
  unicodeRangeIdStartPos : Z → bool;
  idContinue : Z → bool;
  IsSpace : Z → bool;
}.

(** The line separators have the property Pattern_White_Space. *)
Class UnicodeLaws (U : UnicodeTables) : Prop := {
  lineSeparator_neg : unicodeRangeIdNeg 0x2028 = true;
  paragraphSeparator_neg : unicodeRangeIdNeg 0x2029 = true;
}.

Definition chr (s : list Z) : Z := match s with c :: _ => c | [] => -1 end.
Definition read (s : list Z) : list Z := tail s.
Definition peekChr (s : list Z) : Z := chr (read s).

(** self.str[offset:self.chrOffset] *)
Definition slice (from to : list Z) : list Z := take (length from - length to) from.

Definition between (a c b : Z) : bool := (a <=? c) && (c <=? b).

Definition isDecimalDigit (c : Z) : bool := between "0" c "9".

Definition digitValue (c : Z) : Z :=
  if between "0" c "9" then c - "0"
  else if between "a" c "f" then c - "a" + 10
  else if between "A" c "F" then c - "A" + 10
  else 16.

Definition isDigit (c base : Z) : bool := digitValue c <? base.

Definition hex2decimal (c : Z) : option Z :=
  if between "0" c "9" then Some (c - "0")
  else if between "a" c "f" then Some (c - "a" + 10)
  else if between "A" c "F" then Some (c - "A" + 10)
  else None.

Definition LF : Z := 10.
Definition CR : Z := 13.
Definition LS : Z := 0x2028.
Definition PS : Z := 0x2029.

Definition isLineTerminator (c : Z) : bool := (c =? LF) || (c =? CR) || (c =? LS) || (c =? PS).

Section lexer.
Context {U : UnicodeTables}.

Definition unicodeRangeIdContPos (r : Z) : bool := unicodeRangeIdStartPos r || idContinue r.

Definition isIdStartUnicode (r : Z) : bool := unicodeRangeIdStartPos r && negb (unicodeRangeIdNeg r).

Definition isIdPartUnicode (r : Z) : bool := unicodeRangeIdContPos r && negb (unicodeRangeIdNeg r) || (r =? 0x200C) || (r =? 0x200D).

Definition isIdentifierStart (c : Z) : bool :=
  (c =? "$") || (c =? "_") || (c =? "\") || between "a" c "z" || between "A" c "Z" || (RuneSelf <=? c) && isIdStartUnicode c.

Definition isIdentifierPart (c : Z) : bool :=
  (c =? "$") || (c =? "_") || (c =? "\") || between "a" c "z" || between "A" c "Z" || between "0" c "9" || (RuneSelf <=? c) && isIdPartUnicode c.

(** ** Operators of several characters *)

Definition switch2 (s : list Z) (t0 t1 : Parser.Token) : Parser.Token * list Z := if chr s =? "=" then (t1, read s) else (t0, s).

Definition switch3 (s : list Z) (t0 t1 : Parser.Token) (c2 : Z) (t2 : Parser.Token) : Parser.Token * list Z :=
  if chr s =? "=" then (t1, read s) else if chr s =? c2 then (t2, read s) else (t0, s).

Definition switch4 (s : list Z) (t0 t1 : Parser.Token) (c2 : Z) (t2 t3 : Parser.Token) : Parser.Token * list Z :=
  if chr s =? "=" then (t1, read s)
  else if chr s =? c2 then
    let s := read s in
    if chr s =? "=" then (t3, read s) else (t2, s)
  else (t0, s).

Definition switch6 (s : list Z) (t0 t1 : Parser.Token) (c2 : Z) (t2 t3 : Parser.Token) (c3 : Z) (t4 t5 : Parser.Token) : Parser.Token * list Z :=
  if chr s =? "=" then (t1, read s)
  else if chr s =? c2 then
    let s := read s in
    if chr s =? "=" then (t3, read s)
    else if chr s =? c3 then
      let s := read s in
      if chr s =? "=" then (t5, read s) else (t4, s)
    else (t2, s)
  else (t0, s).

(** ** White space and comments *)

Definition isSpaceChr (c : Z) : bool :=
  (c =? " ") || (c =? 9) || (c =? 12) || (c =? 11) || (c =? 0xA0) || (c =? 0xFEFF) || (RuneSelf <=? c) && negb (isLineTerminator c) && IsSpace c.

(** skipWhiteSpace: to a line end if a semicolon may be inserted; of CR LF the
    second character is left. *)
Fixpoint skipWhiteSpace (insert : bool) (s : list Z) : list Z :=
  match s with
  | [] => []
  | c :: s' =>
      if isLineTerminator c then
        if insert then (if (c =? CR) && (chr s' =? LF) then s' else s) else skipWhiteSpace insert s'
      else if isSpaceChr c then skipWhiteSpace insert s'
      else s
  end.

Fixpoint skipWhiteSpaceCheckLineTerminator (s : list Z) : bool * list Z :=
  match s with
  | [] => (false, [])
  | c :: s' =>
      if isLineTerminator c then (true, if (c =? CR) && (chr s' =? LF) then s' else s)
      else if isSpaceChr c then skipWhiteSpaceCheckLineTerminator s'
      else (false, s)
  end.

(** To the line end or the end of the text; at least one character is read. *)
Fixpoint toLineEnd (s : list Z) : list Z :=
  match s with [] => [] | c :: s' => if isLineTerminator c then s else toLineEnd s' end.
Definition skipSingleLineComment (s : list Z) : list Z := match s with [] => [] | _ :: s' => toLineEnd s' end.

(** The comment from its star on: whether it has a line end, and None if it does
    not end. *)
Fixpoint commentEnd (s : list Z) : option (list Z) :=
  match s with
  | [] => None
  | c :: s' => if (c =? "*") && (chr s' =? "/") then Some (read s') else commentEnd s'
  end.
Fixpoint commentLine (s : list Z) : bool * option (list Z) :=
  match s with
  | [] => (false, None)
  | c :: s' =>
      if isLineTerminator c then (true, commentEnd s)
      else if (c =? "*") && (chr s' =? "/") then (false, Some (read s'))
      else commentLine s'
  end.
Definition skipMultiLineComment (s : list Z) : bool * option (list Z) := commentLine (read s).

(** ** Numbers *)

Inductive NumberLiteralKind := NumberLiteralPlain | NumberLiteralLegacyOctal | NumberLiteralNonOctalDecimal.

(** The rest, and whether a separator is misplaced. *)
Fixpoint scanMantissa (base : Z) (allowSeparator : bool) (s : list Z) : list Z * bool :=
  match s with
  | [] => ([], false)
  | c :: s' =>
      if isDigit c base || allowSeparator && (c =? "_") then
        let '(r, bad) := scanMantissa base allowSeparator s' in
        (r, bad || (c =? "_") && negb (isDigit (chr s') base))
      else (s, false)
  end.

Record number := Number { num_tok : Parser.Token; num_rest : list Z; num_kind : NumberLiteralKind; num_bad : bool }.

Definition numberEnd (s : list Z) (kind : NumberLiteralKind) (bad : bool) : number :=
  if (chr s =? "n") || (chr s =? "N") then Number Parser.NUMBER (read s) kind bad
  else if isIdentifierStart (chr s) || isDecimalDigit (chr s) then Number Parser.ILLEGAL s kind bad
  else Number Parser.NUMBER s kind bad.

Definition numberExponent (s : list Z) (kind : NumberLiteralKind) (bad : bool) : number :=
  if (chr s =? "e") || (chr s =? "E") then
    let s := read s in
    let s := if (chr s =? "-") || (chr s =? "+") then read s else s in
    if isDecimalDigit (chr s) then let '(s, b) := scanMantissa 10 true (read s) in numberEnd s kind (bad || b)
    else Number Parser.ILLEGAL s kind bad
  else numberEnd s kind bad.

Definition numberFraction (s : list Z) (kind : NumberLiteralKind) (bad : bool) : number :=
  if chr s =? "." then let '(s, b) := scanMantissa 10 true (read s) in numberExponent s kind (bad || b) else numberExponent s kind bad.

Definition scanNumericLiteral (decimalPoint : bool) (s : list Z) : number :=
  if decimalPoint then let '(s, b) := scanMantissa 10 true s in numberExponent s NumberLiteralPlain b
  else if chr s =? "0" then
    let s1 := read s in
    let c := chr s1 in
    let base := if (c =? "x") || (c =? "X") then 16 else if (c =? "o") || (c =? "O") then 8 else if (c =? "b") || (c =? "B") then 2 else 0 in
    if 0 <? base then
      let s2 := read s1 in
      if negb (isDigit (chr s2) base) then Number Parser.ILLEGAL s2 NumberLiteralPlain false
      else let '(s3, b) := scanMantissa base true s2 in numberEnd s3 NumberLiteralPlain b
    else if (c =? ".") || (c =? "e") || (c =? "E") then numberFraction s1 NumberLiteralPlain false
    else
      let '(s2, b) := scanMantissa 8 false s1 in
      if negb (isDecimalDigit (chr s2)) then
        numberEnd s2 (if Nat.ltb (length s2) (length s1) then NumberLiteralLegacyOctal else NumberLiteralPlain) b
      else let '(s3, b) := scanMantissa 10 false s2 in numberFraction s3 NumberLiteralNonOctalDecimal b
  else let '(s1, b) := scanMantissa 10 true s in numberFraction s1 NumberLiteralPlain b.

(** ** Escapes and string literals *)

(** The digits of an escape that has at most [n] of them. *)
Fixpoint escapeDigits (n : nat) (quote base value : Z) (s : list Z) : Z * list Z :=
  match n with
  | O => (value, s)
  | S n =>
      if (chr s =? quote) || (chr s <? 0) || (base <=? digitValue (chr s)) then (value, s)
      else escapeDigits n quote base (value * base + digitValue (chr s)) (read s)
  end.

(** The digits between braces. *)
Fixpoint escapeBraces (quote value : Z) (s : list Z) : Z * list Z :=
  match s with
  | [] => (value, [])
  | c :: s' =>
      if (c =? quote) || (MaxRune <? value) then (value, s)
      else if c =? "}" then (value, s')
      else if 16 <=? digitValue c then (value, s)
      else escapeBraces quote (value * 16 + digitValue c) s'
  end.

(** The units of a character, and whether it is not ASCII. *)
Definition unitCount (c : Z) : nat * bool := if RuneSelf <=? c then (if 0xFFFF <? c then (2%nat, true) else (1%nat, true)) else (1%nat, false).

Definition memChr (c : Z) (l : list string) : bool := existsb (λ x : string, c =? x) l.

(** After the backslash: the number of units of the value, whether one is not
    ASCII, and the rest. *)
Definition scanEscape (quote : Z) (s : list Z) : nat * bool * list Z :=
  let c := chr s in
  let digits (r : Z * list Z) := (unitCount r.1, r.2) in
  if between "0" c "3" then digits (escapeDigits 3 quote 8 0 s)
  else if between "4" c "7" then digits (escapeDigits 2 quote 8 0 s)
  else if memChr c ["a"; "b"; "f"; "n"; "r"; "t"; "v"; "\"; "'"] || (c =? 34) then ((1%nat, false), read s)
  else if c =? CR then (if chr (read s) =? LF then ((2%nat, false), read (read s)) else ((1%nat, false), read s))
  else if c =? LF then ((1%nat, false), read s)
  else if (c =? LS) || (c =? PS) then ((1%nat, true), read s)
  else if c =? "x" then digits (escapeDigits 2 quote 16 0 (read s))
  else if c =? "u" then
    if chr (read s) =? "{" then digits (escapeBraces quote 0 (read (read s))) else digits (escapeDigits 4 quote 16 0 (read s))
  else (unitCount c, read s).

Definition scanNewline (s : list Z) : list Z :=
  if (chr s =? LS) || (chr s =? PS) then read s
  else if chr s =? CR then (if chr (read s) =? LF then read (read s) else read s)
  else read s.

(** unistring.String: ASCII bytes, or the mark and UTF-16 units. *)
Definition uni : Type := list Z + list Z.

Inductive outcome := Parsed (v : uni) | BadLiteral | Panic.

(** The value of [n] hexadecimal digits. *)
Fixpoint hexDigits (n : nat) (value : Z) (s : list Z) : option (Z * list Z) :=
  match n, s with
  | O, _ => Some (value, s)
  | S n, c :: s' => d ← hex2decimal c; hexDigits n (Z.lor (Z.shiftl value 4) d) s'
  | S _, [] => None
  end.

(** Those up to a closing brace, at least one unless [more]; the value stays in range. *)
Fixpoint hexBraces (more : bool) (value : Z) (s : list Z) : option (Z * list Z) :=
  match s with
  | [] => None
  | c :: s' =>
      if c =? "}" then (if more then Some (value, s') else None)
      else d ← hex2decimal c;
           let value := Z.lor (Z.shiftl value 4) d in
           if MaxRune <? value then None else hexBraces true value s'
  end.

Fixpoint octalDigits (n : nat) (value : Z) (s : list Z) : Z * list Z :=
  match n, s with
  | S n, c :: s' => if between "0" c "7" then octalDigits n (Z.lor (Z.shiftl value 3) (c - "0")) s' else (value, s)
  | _, _ => (value, s)
  end.

(** An escape, after the backslash: the character, or nothing for a line
    continuation. *)
Inductive escaped := EscChr (value : Z) (rest : list Z) | EscNone (rest : list Z) | EscBad | EscPanic.

Definition parseOctal (strict : bool) (c : Z) (str : list Z) : escaped :=
  if strict then EscBad
  else let '(v, r) := octalDigits (if "4" <=? c then 1 else 2) (c - "0") str in EscChr v r.

Definition parseEscape (strict : bool) (str : list Z) : escaped :=
  match str with
  | [] => EscPanic
  | c :: str =>
      if RuneSelf <=? c then (if (c =? LS) || (c =? PS) then EscNone str else EscChr c str)
      else if c =? "b" then EscChr 8 str
      else if c =? "f" then EscChr 12 str
      else if c =? "n" then EscChr 10 str
      else if c =? "r" then EscChr 13 str
      else if c =? "t" then EscChr 9 str
      else if c =? "v" then EscChr 11 str
      else if c =? "x" then match hexDigits 2 0 str with Some (v, r) => EscChr v r | None => EscBad end
      else if c =? "u" then
        match (if negb (chr str =? "{") then hexDigits 4 0 str else hexBraces false 0 (read str)) with
        | Some (v, r) => if MaxRune <? v then EscPanic else EscChr v r
        | None => EscBad
        end
      else if c =? "0" then (if between "0" (chr str) "7" then parseOctal strict c str else EscChr 0 str)
      else if between "1" c "7" then parseOctal strict c str
      else if c =? CR then EscNone (if chr str =? LF then read str else str)
      else if c =? LF then EscNone str
      else EscChr c str
  end.

Fixpoint parseLoop (fuel : nat) (unicode strict : bool) (str sb chars : list Z) : option (list Z * list Z) + bool :=
  match fuel, str with
  | _, [] => inl (Some (sb, chars))
  | O, _ => inr false
  | S fuel, c :: str' =>
      if RuneSelf <=? c then parseLoop fuel unicode strict str' sb (chars ++ runeUnits c)
      else if negb (c =? "\") then
        if unicode then parseLoop fuel unicode strict str' sb (chars ++ [c]) else parseLoop fuel unicode strict str' (sb ++ [c]) chars
      else
        match parseEscape strict str' with
        | EscPanic => inr true
        | EscBad => inl None
        | EscNone r => parseLoop fuel unicode strict r sb chars
        | EscChr v r =>
            if unicode then parseLoop fuel unicode strict r sb (chars ++ runeUnits v)
            else if RuneSelf <=? v then inl None
            else parseLoop fuel unicode strict r (sb ++ [v]) chars
        end
  end.

(** The number of units was counted by the scanner; a different one is a panic. *)
Definition parseStringLiteral (literal : list Z) (length : nat) (unicode strict : bool) : outcome :=
  match parseLoop (List.length literal) unicode strict literal [] (if unicode then [BOM] else []) with
  | inl None => BadLiteral
  | inl (Some (sb, chars)) =>
      if unicode then (if Nat.eqb (List.length chars) (length + 1) then Parsed (inr chars) else Panic)
      else if Nat.eqb (List.length sb) length then Parsed (inl sb) else Panic
  | inr _ => Panic
  end.

(** How the loop of scanString ends: at the closing quote, or at a line end
    ([quote] is the variable of that name: inside of the class of a regular
    expression it is -1). *)
Inductive stringEnd := Closed (rest : list Z) (length : nat) (isUnicode sloppy : bool) | Open (quote : Z) (rest : list Z).

Fixpoint scanStringLoop (fuel : nat) (quote : Z) (s : list Z) (length : nat) (isUnicode sloppy : bool) : option stringEnd :=
  match fuel with
  | O => None
  | S fuel =>
      let c := chr s in
      if c =? quote then Some (Closed (read s) length isUnicode sloppy)
      else if (c =? LF) || (c =? CR) || (c <? 0) || (quote =? "/") && ((c =? LS) || (c =? PS)) then Some (Open quote (scanNewline s))
      else
        let s := read s in
        if c =? "\" then
          if isLineTerminator (chr s) || (chr s <? 0) then
            if quote =? "/" then Some (Open quote (scanNewline s)) else scanStringLoop fuel quote (scanNewline s) length isUnicode sloppy
          else
            let digit := isDecimalDigit (chr s) && (negb (chr s =? "0") || isDecimalDigit (peekChr s)) in
            let '(l, u, s) := scanEscape quote s in
            scanStringLoop fuel quote s (length + l) (isUnicode || u) (sloppy || digit)
        else
          let quote := if (c =? "[") && (quote =? "/") then -1 else if (c =? "]") && (quote =? -1) then ch "/" else quote in
          let '(l, u) := unitCount c in
          scanStringLoop fuel quote s (length + l) (isUnicode || u) sloppy
  end.

(** [string_error]: whether an error was reported; [string_err]: whether one was returned. *)
Record stringScan := StringScan {
  string_literal : list Z;
  string_parsed : outcome;
  string_sloppy : bool;
  string_err : bool;
  string_error : bool;
  string_rest : list Z;
}.

(** From after the opening quote. *)
Definition scanString (quote : Z) (parse : bool) (s : list Z) : option stringScan :=
  e ← scanStringLoop (S (length s)) quote s 0 false false;
  match e with
  | Open q rest => Some (StringScan [] BadLiteral false true (q =? "/") rest)
  | Closed rest n u sloppy =>
      let literal := quote :: slice s rest in
      let parsed := if parse then parseStringLiteral (removelast (tail literal)) n u false else Parsed (inl []) in
      Some (StringScan literal parsed sloppy (match parsed with BadLiteral => true | _ => false end) false rest)
  end.

(** The pattern of a regular expression, as bytes. *)
Definition regExpPattern (r : stringScan) : list Z :=
  if string_err r then [] else let b := utf8Encode (string_literal r) in take (length b - 2) (drop 1 b).

(** ** Templates *)

Fixpoint normaliseCRLF (s : list Z) : list Z :=
  match s with
  | [] => []
  | c :: s' =>
      if c =? CR then LF :: (match s' with d :: s'' => if d =? LF then normaliseCRLF s'' else normaliseCRLF s' | [] => [] end)
      else c :: normaliseCRLF s'
  end.

(** The characters up to the closing backtick or a substitution. *)
Record templateEnd := TemplateEnd {
  template_end : list Z;
  template_rest : list Z;
  template_finished : bool;
  template_length : Z;
  template_unicode : bool;
  template_CR : bool;
  template_89 : bool;
}.

Inductive templateLoop := TemplateClosed (e : templateEnd) | TemplateOpen.

Fixpoint scanTemplateLoop (fuel : nat) (s : list Z) (length : Z) (isUnicode hasCR bad : bool) : option templateLoop :=
  match fuel with
  | O => None
  | S fuel =>
      match s with
      | [] => Some TemplateOpen
      | c :: s' =>
          if c =? "`" then Some (TemplateClosed (TemplateEnd s s' true length isUnicode hasCR bad))
          else if c =? "\" then
            if isLineTerminator (chr s') || (chr s' <? 0) then
              scanTemplateLoop fuel (scanNewline s') length isUnicode (hasCR || (chr s' =? CR)) bad
            else
              let '(l, u, s'') := scanEscape "`" s' in
              scanTemplateLoop fuel s'' (length + Z.of_nat l) (isUnicode || u) hasCR (bad || (chr s' =? "8") || (chr s' =? "9"))
          else if (c =? "$") && (chr s' =? "{") then Some (TemplateClosed (TemplateEnd s (read s') false length isUnicode hasCR bad))
          else
            let '(l, u) := unitCount c in
            scanTemplateLoop fuel s' (length + Z.of_nat l - (if (c =? CR) && (chr s' =? LF) then 1 else 0)) (isUnicode || u) (hasCR || (c =? CR)) bad
      end
  end.

(** The literal, its value, and whether this was the last part; [None] if the
    template is not terminated. *)
Definition parseTemplateCharacters (s : list Z) : option (option (list Z * outcome * bool * list Z)) :=
  e ← scanTemplateLoop (S (length s)) s 0 false false false;
  match e with
  | TemplateOpen => Some None
  | TemplateClosed e =>
      let literal := slice s (template_end e) in
      let literal := if template_CR e then normaliseCRLF literal else literal in
      let parsed := if template_89 e then BadLiteral else parseStringLiteral literal (Z.to_nat (template_length e)) (template_unicode e) true in
      Some (Some (literal, parsed, template_finished e, template_rest e))
  end.

(** ** Identifiers and keywords *)

(** A Go string of these bytes. *)
Fixpoint goString (l : list Z) : string :=
  match l with [] => EmptyString | b :: l => String (Ascii.ascii_of_nat (Z.to_nat b)) (goString l) end.

(** The digits of \u{...}; the current character is the brace or the last digit.  On failure the rest. *)
Fixpoint identifierBraces (value : Z) (s : list Z) : list Z + (Z * list Z) :=
  if MaxRune <? value then inr (value, s)
  else
    match s with
    | [] => inl []
    | _ :: s1 =>
        if chr s1 =? "}" then inr (value, s1)
        else match hex2decimal (chr s1 mod 256) with
             | None => inl s1
             | Some d => identifierBraces (if value =? -1 then d else Z.lor (Z.shiftl value 4) d) s1
             end
    end.

Fixpoint identifierDigits (n : nat) (value : Z) (s : list Z) : list Z + (Z * list Z) :=
  match n with
  | O => inr (value, s)
  | S n =>
      match hex2decimal (chr (read s) mod 256) with
      | None => inl (read s)
      | Some d => identifierDigits n (Z.lor (Z.shiftl value 4) d) (read s)
      end
  end.

(** An escape from its backslash on; the rest starts at its last character. *)
Definition identifierEscape (first : bool) (s : list Z) : list Z + (Z * list Z) :=
  let s := read s in
  if negb (chr s =? "u") then inl s
  else
    match
      (if peekChr s =? "{" then
         match identifierBraces (-1) (read s) with
         | inr (v, s) => if v =? -1 then inl s else inr (v, s)
         | inl s => inl s
         end
       else identifierDigits 4 0 s)
    with
    | inl s => inl s
    | inr (v, s) =>
        if v =? "\" then inl s
        else if first then (if negb (isIdentifierStart v) then inl s else inr (v, s))
        else if negb (isIdentifierPart v) then inl s else inr (v, s)
    end.

Record identifierEnd := IdentifierEnd { identifier_rest : list Z; identifier_length : nat; identifier_escape : bool; identifier_unicode : bool }.

Fixpoint scanIdentifierLoop (fuel : nat) (first : bool) (s : list Z) (length : nat) (hasEscape isUnicode : bool) : option (list Z + identifierEnd) :=
  match fuel with
  | O => None
  | S fuel =>
      if isIdentifierPart (chr s) then
        match (if chr s =? "\" then identifierEscape first s else inr (chr s, s)) with
        | inl r => Some (inl r)
        | inr (v, r) =>
            let '(l, u) := unitCount v in
            scanIdentifierLoop fuel false (read r) (length + l) (hasEscape || (chr s =? "\")) (isUnicode || u)
        end
      else Some (inr (IdentifierEnd s length hasEscape isUnicode))
  end.

(** The literal, its value and whether it has an escape; the rest. *)
Record identifierScan := IdentifierScan {
  ident_literal : list Z;
  ident_parsed : outcome;
  ident_escape : bool;
  ident_rest : list Z;
}.

Definition scanIdentifier (s : list Z) : option identifierScan :=
  r ← scanIdentifierLoop (S (length s)) true s 0 false false;
  match r with
  | inl rest => Some (IdentifierScan [] BadLiteral false rest)
  | inr e =>
      let literal := slice s (identifier_rest e) in
      let parsed :=
        if identifier_escape e || identifier_unicode e then parseStringLiteral literal (identifier_length e) (identifier_unicode e) false
        else Parsed (inl literal) in
      Some (IdentifierScan literal parsed (identifier_escape e) (identifier_rest e))
  end.

Record keyword := Keyword { kw_token : Parser.Token; futureKeyword : bool; kw_strict : bool }.

Definition keywordTable : list (string * keyword) :=
  [("if", Keyword Parser.IF false false); ("in", Keyword Parser.IN false false);
   ("do", Keyword Parser.DO false false); ("var", Keyword Parser.VAR false false);
   ("for", Keyword Parser.FOR false false); ("new", Keyword Parser.NEW false false);
   ("try", Keyword Parser.TRY false false); ("this", Keyword Parser.THIS false false);
   ("else", Keyword Parser.ELSE false false); ("case", Keyword Parser.CASE false false);
   ("void", Keyword Parser.VOID false false); ("with", Keyword Parser.WITH false false);
   ("async", Keyword Parser.ASYNC false false); ("while", Keyword Parser.WHILE false false);
   ("break", Keyword Parser.BREAK false false); ("catch", Keyword Parser.CATCH false false);
   ("throw", Keyword Parser.THROW false false); ("return", Keyword Parser.RETURN false false);
   ("typeof", Keyword Parser.TYPEOF false false); ("delete", Keyword Parser.DELETE false false);
   ("switch", Keyword Parser.SWITCH false false); ("default", Keyword Parser.DEFAULT false false);
   ("finally", Keyword Parser.FINALLY false false); ("function", Keyword Parser.FUNCTION false false);
   ("continue", Keyword Parser.CONTINUE false false); ("debugger", Keyword Parser.DEBUGGER false false);
   ("instanceof", Keyword Parser.INSTANCEOF false false); ("const", Keyword Parser.CONST false false);
   ("class", Keyword Parser.CLASS false false); ("enum", Keyword Parser.KEYWORD true false);
   ("import", Keyword Parser.IMPORT false false); ("extends", Keyword Parser.EXTENDS false false);
   ("export", Keyword Parser.EXPORT false false); ("super", Keyword Parser.SUPER false false);
   ("let", Keyword Parser.LET false true); ("static", Keyword Parser.STATIC false true);
   ("await", Keyword Parser.AWAIT false false); ("yield", Keyword Parser.YIELD false false);
   ("false", Keyword Parser.BOOLEAN false false); ("true", Keyword Parser.BOOLEAN false false);
   ("null", Keyword Parser.NULL false false)].

(** The table is a map: the keys differ. *)
Definition IsKeyword (literal : string) : option (Parser.Token * bool) :=
  match List.find (λ e : string * keyword, String.eqb (fst e) literal) keywordTable with
  | Some (_, k) => Some (if futureKeyword k then (Parser.KEYWORD, kw_strict k) else (kw_token k, false))
  | None => None
  end.

(** ** Tokens *)

(** What scan returns, and the state after it: the rest of the text, the flags,
    and whether an error was reported. *)
Record scanned := Scanned {
  s_tok : Parser.Token;
  s_literal : list Z;
  s_parsed : uni;
  s_sloppy : bool;
  s_kind : NumberLiteralKind;
  s_rest : list Z;
  s_insert : bool;
  s_implicit : bool;
  s_error : bool;
}.

Inductive scanResult := Scan (r : scanned) | ScanPanic.

Section scan.
Context (module littleEndian : bool).

(** The bytes of a unistring.String. *)
Definition uniBytes (v : uni) : list Z := match v with inl a => a | inr u => Strings.FromUtf16 littleEndian u end.

(** A token without a value. *)
Definition plain (t : Parser.Token) (rest : list Z) (insert implicit error : bool) : scanned :=
  Scanned t [] (inl []) false NumberLiteralPlain rest insert implicit error.

(** The token of an identifier; the flags are those before it. *)
Definition scanWord (s : list Z) (ins imp err : bool) : option scanResult :=
  w ← scanIdentifier s;
  match ident_parsed w with
  | Panic => Some ScanPanic
  | BadLiteral => Some (Scan (plain Parser.ILLEGAL (ident_rest w) false imp err))
  | Parsed v =>
      let token t rest ins := Some (Scan (Scanned t (ident_literal w) v false NumberLiteralPlain rest ins imp err)) in
      let identifier := token Parser.IDENTIFIER (ident_rest w) true in
      if Nat.ltb 1 (length (uniBytes v)) then
        let k := IsKeyword (goString (uniBytes v)) in
        if ident_escape w then
          match k with
          | None => identifier
          | Some (t, _) => if Parser.isBindingId t then identifier else token Parser.ESCAPED_RESERVED_WORD (ident_rest w) true
          end
        else
          match k with
          | None => identifier
          | Some (t, strict) =>
              if Parser.teq t Parser.KEYWORD then (if strict : bool then identifier else token Parser.KEYWORD (ident_rest w) ins)
              else if Parser.isOneOf t [Parser.BOOLEAN; Parser.NULL; Parser.THIS; Parser.BREAK; Parser.THROW; Parser.YIELD; Parser.RETURN;
                                        Parser.CONTINUE; Parser.DEBUGGER]
              then token t (ident_rest w) true
              else if Parser.teq t Parser.ASYNC then
                let '(lineEnd, rest) := skipWhiteSpaceCheckLineTerminator (ident_rest w) in
                if lineEnd then token Parser.IDENTIFIER rest true else token t rest ins
              else token t (ident_rest w) ins
          end
      else identifier
  end.

(** A number from [from] on; [s] is after the decimal point if the number starts with one. *)
Definition scanNumber (decimalPoint : bool) (from s : list Z) (imp err : bool) : option scanResult :=
  let n := scanNumericLiteral decimalPoint s in
  Some (Scan (Scanned (num_tok n) (slice from (num_rest n)) (inl []) false (num_kind n) (num_rest n) true imp (err || num_bad n))).

(** A string after its opening quote. *)
Definition scanStr (quote : Z) (s : list Z) (imp err : bool) : option scanResult :=
  r ← scanString quote true s;
  match string_parsed r with
  | Panic => Some ScanPanic
  | BadLiteral => Some (Scan (Scanned Parser.ILLEGAL (string_literal r) (inl []) (string_sloppy r) NumberLiteralPlain (string_rest r) true imp (err || string_error r)))
  | Parsed v => Some (Scan (Scanned Parser.STRING (string_literal r) v (string_sloppy r) NumberLiteralPlain (string_rest r) true imp (err || string_error r)))
  end.

(** The punctuators of one character, and whether a semicolon may follow. *)
Definition single (c : Z) : option (Parser.Token * bool) :=
  if c =? ":" then Some (Parser.COLON, false)
  else if c =? "," then Some (Parser.COMMA, false)
  else if c =? ";" then Some (Parser.SEMICOLON, false)
  else if c =? "(" then Some (Parser.LEFT_PARENTHESIS, false)
  else if c =? ")" then Some (Parser.RIGHT_PARENTHESIS, true)
  else if c =? "[" then Some (Parser.LEFT_BRACKET, false)
  else if c =? "]" then Some (Parser.RIGHT_BRACKET, true)
  else if c =? "{" then Some (Parser.LEFT_BRACE, false)
  else if c =? "}" then Some (Parser.RIGHT_BRACE, true)
  else if c =? "~" then Some (Parser.BITWISE_NOT, false)
  else if c =? "`" then Some (Parser.BACKTICK, false)
  else None.

(** The operators, from after the first character [c] of the token.  An arrow is
    illegal after an implicit semicolon. *)
Definition operator (c : Z) (s : list Z) (imp : bool) : option (Parser.Token * list Z) :=
  if c =? "+" then Some (switch3 s Parser.PLUS Parser.ADD_ASSIGN "+" Parser.INCREMENT)
  else if c =? "-" then Some (switch3 s Parser.MINUS Parser.SUBTRACT_ASSIGN "-" Parser.DECREMENT)
  else if c =? "*" then
    Some (if chr s =? "*" then switch2 (read s) Parser.EXPONENT Parser.EXPONENT_ASSIGN else switch2 s Parser.MULTIPLY Parser.MULTIPLY_ASSIGN)
  else if c =? "/" then Some (switch2 s Parser.SLASH Parser.QUOTIENT_ASSIGN)
  else if c =? "%" then Some (switch2 s Parser.REMAINDER Parser.REMAINDER_ASSIGN)
  else if c =? "^" then Some (switch2 s Parser.EXCLUSIVE_OR Parser.EXCLUSIVE_OR_ASSIGN)
  else if c =? "<" then Some (switch4 s Parser.LESS Parser.LESS_OR_EQUAL "<" Parser.SHIFT_LEFT Parser.SHIFT_LEFT_ASSIGN)
  else if c =? ">" then
    Some (switch6 s Parser.GREATER Parser.GREATER_OR_EQUAL ">" Parser.SHIFT_RIGHT Parser.SHIFT_RIGHT_ASSIGN ">"
            Parser.UNSIGNED_SHIFT_RIGHT Parser.UNSIGNED_SHIFT_RIGHT_ASSIGN)
  else if c =? "=" then
    Some (if chr s =? ">" then (if imp then Parser.ILLEGAL else Parser.ARROW, read s)
          else let '(t, s) := switch2 s Parser.ASSIGN Parser.EQUAL in
               if Parser.teq t Parser.EQUAL && (chr s =? "=") then (Parser.STRICT_EQUAL, read s) else (t, s))
  else if c =? "!" then
    Some (let '(t, s) := switch2 s Parser.NOT Parser.NOT_EQUAL in
          if Parser.teq t Parser.NOT_EQUAL && (chr s =? "=") then (Parser.STRICT_NOT_EQUAL, read s) else (t, s))
  else if c =? "&" then Some (switch4 s Parser.AND Parser.AND_ASSIGN "&" Parser.LOGICAL_AND Parser.LOGICAL_AND_ASSIGN)
  else if c =? "|" then Some (switch4 s Parser.OR Parser.OR_ASSIGN "|" Parser.LOGICAL_OR Parser.LOGICAL_OR_ASSIGN)
  else if c =? "?" then
    Some (if (chr s =? ".") && negb (isDecimalDigit (peekChr s)) then (Parser.QUESTION_DOT, read s)
          else if chr s =? "?" then (if chr (read s) =? "=" then (Parser.COALESCE_ASSIGN, read (read s)) else (Parser.COALESCE, read s))
          else (Parser.QUESTION_MARK, s))
  else None.

Definition operatorInsert (t : Parser.Token) : bool :=
  Parser.isOneOf t [Parser.INCREMENT; Parser.DECREMENT; Parser.SLASH; Parser.QUOTIENT_ASSIGN].

(** The cases of the switch that start over: line ends and comments.  What is left,
    whether there is a line end, and whether an error was reported.  [text] is
    self.str, [start] is where the scan started. *)
Definition blankAt (text start : list Z) (c : Z) (s : list Z) : option (list Z * bool * bool) :=
  if isIdentifierStart c then None
  else if isLineTerminator c then Some (s, true, false)
  else if (c =? "-") && negb module && (chr s =? "-") && (peekChr s =? ">") &&
          (Nat.eqb (length start) (length text) || existsb isLineTerminator (slice start s))
  then Some (skipSingleLineComment s, false, false)
  else if (c =? "/") && (chr s =? "/") then Some (skipSingleLineComment s, false, false)
  else if (c =? "/") && (chr s =? "*") then
    let '(lineEnd, r) := skipMultiLineComment s in
    Some (default [] r, lineEnd, match r with Some _ => false | None => true end)
  else if (c =? "<") && negb module && (chr s =? "!") && (chr (read s) =? "-") && (chr (read (read s)) =? "-")
  then Some (skipSingleLineComment s, false, false)
  else if (c =? "#") && Nat.eqb (length text) (S (length s)) && (chr s =? "!") then Some (skipSingleLineComment s, false, false)
  else None.

(** The cases that return a token. *)
Definition scanToken (s : list Z) (ins imp err : bool) : option scanResult :=
  match s with
  | [] => Some (Scan (plain Parser.EOF [] false (imp || ins) err))
  | c :: s' =>
      if isIdentifierStart c then scanWord s ins imp err
      else if between "0" c "9" then scanNumber false s s imp err
      else if c =? "." then
        if digitValue (chr s') <? 10 then scanNumber true s s' imp err
        else if chr s' =? "." then
          let s'' := read s' in
          Some (Scan (if chr s'' =? "." then plain Parser.ELLIPSIS (read s'') false imp err else plain Parser.ILLEGAL s'' false imp err))
        else Some (Scan (plain Parser.PERIOD s' false imp err))
      else if (c =? 34) || (c =? "'") then scanStr c s' imp err
      else if c =? "#" then
        w ← scanIdentifier s';
        match ident_parsed w with
        | Panic => Some ScanPanic
        | BadLiteral => Some (Scan (plain Parser.ILLEGAL (ident_rest w) false imp err))
        | Parsed v =>
            match ident_literal w with
            | [] => Some (Scan (plain Parser.ILLEGAL (ident_rest w) false imp err))
            | _ => Some (Scan (Scanned Parser.PRIVATE_IDENTIFIER (ident_literal w) v false NumberLiteralPlain (ident_rest w) true imp err))
            end
        end
      else
        match single c with
        | Some (t, i) => Some (Scan (plain t s' i imp err))
        | None =>
            match operator c s' imp with
            | Some (t, r) => Some (Scan (plain t r (operatorInsert t) imp err))
            | None => Some (Scan (plain Parser.ILLEGAL s' false imp true))
            end
        end
  end.

(** The state at the start of a token. *)
Record blanks := Blanks { b_rest : list Z; b_insert : bool; b_implicit : bool; b_error : bool }.

Fixpoint skipBlanks (fuel : nat) (text start s : list Z) (ins imp err : bool) : option blanks :=
  match fuel with
  | O => None
  | S fuel =>
      let s := skipWhiteSpace ins s in
      match s with
      | [] => Some (Blanks [] ins imp err)
      | c :: s' =>
          match blankAt text start c s' with
          | Some (r, lineEnd, bad) => skipBlanks fuel text start r (ins && negb lineEnd) (imp || lineEnd) (err || bad)
          | None => Some (Blanks s ins imp err)
          end
      end
  end.

(** scan, with the text, what is left of it, and the flag insertSemicolon. *)
Definition scan (text s : list Z) (ins : bool) : option scanResult :=
  b ← skipBlanks (S (length s)) text s s ins false false;
  scanToken (b_rest b) (b_insert b) (b_implicit b) (b_error b).
End scan.
End lexer.
End Lexer.
