(* ===== verification/LexerStrings.v ===== *)
(** * The values of string literals

    The grammar of string literals of ECMAScript (12.9.4 with the legacy octal
    escapes) and their values in UTF-16 units, as relations.  The scanner finds
    the closing quote and counts the units; parseStringLiteral builds the value and
    panics if the counts differ.  The two agree: a literal is accepted if and only
    if it is in the grammar, with its value, and nothing panics. *)

From S2P Require Import Prelude Utf Strings Base64 Lexer.
From stdpp Require Import strings.
Import Utf Base64 Lexer.
Open Scope Z_scope.

Module LexerStrings.
#[local] Open Scope string_scope.
#[local] Open Scope list_scope.
#[local] Open Scope Z_scope.

(** ** The grammar *)

Definition isOctal (c : Z) : bool := between "0" c "7".
Definition isHex (c : Z) : bool := digitValue c <? 16.
Definition hexValue (ds : list Z) : Z := foldl (λ v d, 16 * v + digitValue d) 0 ds.
Definition octValue (ds : list Z) : Z := foldl (λ v d, 8 * v + digitValue d) 0 ds.

(** The characters after a backslash that stand for another one. *)
Definition singleEscape (c : Z) : option Z :=
  if c =? "b" then Some 8 else if c =? "t" then Some 9 else if c =? "n" then Some 10 else if c =? "v" then Some 11
  else if c =? "f" then Some 12 else if c =? "r" then Some 13 else None.

(** An escape: the text after the backslash, the character after it, the value,
    and whether strict mode forbids it. *)
Inductive Escape : list Z → Z → list Z → bool → Prop :=
  | E_single c v f : singleEscape c = Some v → Escape [c] f [v] false
  | E_self c f : 0 ≤ c ≤ MaxRune → singleEscape c = None → isDecimalDigit c = false → isLineTerminator c = false → c ≠ "x" → c ≠ "u" →
      Escape [c] f (runeUnits c) false
  | E_89 (c f : Z) : c = "8" ∨ c = "9" → Escape [c] f [c] true
  | E_octal1 a f : isOctal a = true → isOctal f = false → Escape [a] f [octValue [a]] (negb (a =? "0") || isDecimalDigit f)
  | E_octal2 a b f : between "0" a "3" = true → isOctal b = true → isOctal f = false → Escape [a; b] f [octValue [a; b]] true
  | E_octal2' a b f : between "4" a "7" = true → isOctal b = true → Escape [a; b] f [octValue [a; b]] true
  | E_octal3 a b c f : between "0" a "3" = true → isOctal b = true → isOctal c = true → Escape [a; b; c] f [octValue [a; b; c]] true
  | E_hex a b f : isHex a = true → isHex b = true → Escape [ch "x"; a; b] f [hexValue [a; b]] false
  | E_u4 a b c d f : isHex a = true → isHex b = true → isHex c = true → isHex d = true →
      Escape [ch "u"; a; b; c; d] f [hexValue [a; b; c; d]] false
  | E_braces ds f : ds ≠ [] → Forall (λ d, isHex d = true) ds → hexValue ds ≤ MaxRune →
      Escape (ch "u" :: ch "{" :: ds ++ [ch "}"]) f (runeUnits (hexValue ds)) false
  | E_CR f : f ≠ LF → Escape [CR] f [] false
  | E_CRLF f : Escape [CR; LF] f [] false
  | E_line (c f : Z) : c = LF ∨ c = LS ∨ c = PS → Escape [c] f [] false.

(** The characters between the quotes, and their value. *)
Inductive StringChars (q : Z) : list Z → list Z → bool → Prop :=
  | SC_nil : StringChars q [] [] false
  | SC_char c t v b : 0 ≤ c ≤ MaxRune → c ≠ q → c ≠ "\" → c ≠ LF → c ≠ CR → StringChars q t v b → StringChars q (c :: t) (runeUnits c ++ v) b
  | SC_escape e t v w b b' : Escape e (chr t) v b → StringChars q t w b' → StringChars q (ch "\" :: e ++ t) (v ++ w) (b || b').

(** ** Digits *)

(** Characters as numbers. *)
Ltac chz :=
  repeat match goal with
  | |- context [ch ?s] => let v := eval vm_compute in (ch s) in change (ch s) with v
  | H : context [ch ?s] |- _ => let v := eval vm_compute in (ch s) in change (ch s) with v in H
  end;
  unfold LF, CR, LS, PS, RuneSelf, MaxRune in *.

(** Decides the conditional of the goal that comes first. *)
Ltac test :=
  match goal with
  | |- context [if ?b then _ else _] => first [replace b with true by (symmetry; lia) | replace b with false by (symmetry; lia)]; cbv iota beta
  end.

Lemma digitValue_cases c : (48 ≤ c ≤ 57 ∧ digitValue c = c - 48) ∨ (97 ≤ c ≤ 102 ∧ digitValue c = c - 87) ∨ (65 ≤ c ≤ 70 ∧ digitValue c = c - 55) ∨
  (¬ 48 ≤ c ≤ 57 ∧ ¬ 97 ≤ c ≤ 102 ∧ ¬ 65 ≤ c ≤ 70 ∧ digitValue c = 16).
Proof. unfold digitValue, between. chz. repeat case_match; lia. Qed.

Lemma hex2decimal_spec c : hex2decimal c = if isHex c then Some (digitValue c) else None.
Proof. unfold hex2decimal, isHex, digitValue, between. chz. repeat case_match; try lia; f_equal; lia. Qed.

Lemma isOctal_digit c : isOctal c = true → digitValue c = c - 48 ∧ 48 ≤ c ≤ 55.
Proof. unfold isOctal, between. chz. pose proof (digitValue_cases c). lia. Qed.

Lemma isOctal_value c : isOctal c = (digitValue c <? 8).
Proof. unfold isOctal, between. chz. pose proof (digitValue_cases c). lia. Qed.

Lemma shift_digit k v d : 0 ≤ k → 0 ≤ v → 0 ≤ d < 2 ^ k → Z.lor (Z.shiftl v k) d = 2 ^ k * v + d.
Proof. intros. rewrite Z.shiftl_mul_pow2 by done. rewrite lor_shift by done. lia. Qed.

Definition hexFrom (v : Z) (ds : list Z) : Z := foldl (λ v d, 16 * v + digitValue d) v ds.

Lemma isHex_digit c : isHex c = true → 0 ≤ digitValue c < 16.
Proof. unfold isHex. pose proof (digitValue_cases c). lia. Qed.

Lemma hexFrom_le ds : ∀ v, 0 ≤ v → Forall (λ d, isHex d = true) ds → v ≤ hexFrom v ds.
Proof.
  induction ds as [|d ds IH]; intros v Hv HF; cbn; [lia|]. apply Forall_cons in HF as [Hd HF]. apply isHex_digit in Hd.
  specialize (IH (16 * v + digitValue d) ltac:(lia) HF). unfold hexFrom in IH. lia.
Qed.

Lemma hexDigits_spec n : ∀ v s x r, 0 ≤ v →
  hexDigits n v s = Some (x, r) ↔ ∃ ds, length ds = n ∧ Forall (λ d, isHex d = true) ds ∧ s = ds ++ r ∧ x = hexFrom v ds.
Proof.
  induction n as [|n IH]; intros v s x r Hv; cbn.
  { split; [intros [= <- <-]; by exists []|]. intros (ds & Hl & _ & -> & ->). by destruct ds. }
  destruct s as [|c s]; [split; [done|]; by intros ([|] & ? & _ & ? & _)|].
  rewrite hex2decimal_spec. destruct (isHex c) eqn:E; cbn.
  - pose proof (isHex_digit _ E). rewrite shift_digit by lia. change (2 ^ 4) with 16. rewrite IH by lia. split.
    + intros (ds & <- & HF & -> & ->). exists (c :: ds). repeat split; by constructor.
    + intros ([|d ds] & Hl & HF & Hs & ->); [done|]. apply Forall_cons in HF as [_ HF]. injection Hs as -> ->. injection Hl as <-. by exists ds.
  - split; [done|]. intros ([|d ds] & Hl & HF & Hs & ->); [done|]. apply Forall_cons in HF as [? _]. injection Hs as -> ->. congruence.
Qed.

Lemma hexBraces_spec s : ∀ more v x r, 0 ≤ v ≤ MaxRune →
  hexBraces more v s = Some (x, r) ↔
  ∃ ds, (more = false → ds ≠ []) ∧ Forall (λ d, isHex d = true) ds ∧ s = ds ++ ch "}" :: r ∧ x = hexFrom v ds ∧ x ≤ MaxRune.
Proof.
  induction s as [|c s IH]; intros more v x r Hv; cbn [hexBraces].
  { split; [done|]. intros (ds & _ & _ & ? & _). by destruct ds. }
  destruct (Z.eqb_spec c "}") as [->|Hc].
  - split.
    + destruct more; [|done]. intros [= <- <-]. exists []. repeat split; [done|constructor|lia].
    + intros ([|d ds] & Hm & HF & Hs & -> & Hx); [injection Hs as ->; destruct more; [done|]; by destruct (Hm eq_refl)|].
      injection Hs as <- ->. apply Forall_cons in HF as [HF _]. vm_compute in HF. done.
  - assert (∀ r, c :: s = ch "}" :: r → False) as Hcc by (intros ? Hs; apply Hc; congruence).
    rewrite hex2decimal_spec. destruct (isHex c) eqn:E; cbn [mbind option_bind].
    + pose proof (isHex_digit _ E). rewrite shift_digit by lia. change (2 ^ 4) with 16.
      assert (∀ ds, hexFrom v (c :: ds) = hexFrom (16 * v + digitValue c) ds) as Hcons by done.
      destruct (Z.ltb_spec MaxRune (16 * v + digitValue c)) as [Hlt|Hle].
      * split; [done|]. intros ([|d ds] & Hm & HF & Hs & -> & Hx); [by destruct (Hcc _ Hs)|]. injection Hs as <- ->.
        apply Forall_cons in HF as [_ HF]. pose proof (hexFrom_le ds (16 * v + digitValue c) ltac:(lia) HF). rewrite Hcons in Hx. lia.
      * rewrite IH by lia. split.
        -- intros (ds & _ & HF & -> & -> & Hx). exists (c :: ds). split; [done|split; [by constructor|done]].
        -- intros ([|d ds] & Hm & HF & Hs & -> & Hx); [by destruct (Hcc _ Hs)|]. injection Hs as <- ->.
           apply Forall_cons in HF as [_ HF]. by exists ds.
    + split; [done|]. intros ([|d ds] & Hm & HF & Hs & -> & Hx); [by destruct (Hcc _ Hs)|]. injection Hs as <- ->.
      apply Forall_cons in HF as [? _]. congruence.
Qed.

(** ** Escapes *)

(** What [parseEscape] says of an escape. *)
Definition sound (s : list Z) (r : escaped) : Prop :=
  match r with
  | EscChr v r => ∃ e b, s = e ++ r ∧ Escape e (chr r) (runeUnits v) b ∧ 0 ≤ v ≤ MaxRune
  | EscNone r => ∃ e, s = e ++ r ∧ Escape e (chr r) [] false
  | EscBad => True
  | EscPanic => s = []
  end.

Lemma sound_one c r v b : 0 ≤ v ≤ 0xFFFF → Escape [c] (chr r) [v] b → sound (c :: r) (EscChr v r).
Proof. intros Hv He. exists [c], b. rewrite runeUnits_bmp by lia. unfold MaxRune. repeat split; [done|lia..]. Qed.

Lemma octal_sound c r : isOctal c = true → (c = "0" → isOctal (chr r) = true) → sound (c :: r) (parseOctal false c r).
Proof.
  intros Hc H0. pose proof (isOctal_digit _ Hc) as [Hd Hr]. unfold parseOctal.
  assert (∀ e v b, c :: r = e ++ b → 0 ≤ v ≤ 0xFFFF → Escape e (chr b) [v] true → sound (c :: r) (EscChr v b)) as Hone.
  { intros e v b -> Hv He. exists e, true. rewrite runeUnits_bmp by lia. unfold MaxRune. repeat split; [done|lia..]. }
  assert (∀ a r, isOctal a = true → chr (a :: r) = a) as Hchr by done.
  assert (isOctal (chr r) = false → sound (c :: r) (EscChr (c - 48) r)) as H1.
  { intros Hf. apply (Hone [c]); [done|lia|]. replace (c - 48) with (octValue [c]) by (unfold octValue; cbn; lia).
    replace true with (negb (c =? "0") || isDecimalDigit (chr r)); [by apply E_octal1|].
    destruct (Z.eqb_spec c "0") as [->|Hne]; [|done]. by rewrite H0 in Hf. }
  assert (∀ x, 0 ≤ x < 8 → ∀ v, 0 ≤ v → Z.lor (Z.shiftl v 3) x = 8 * v + x) as Hs by (intros; rewrite shift_digit; lia).
  destruct (Z.leb_spec "4" c) as [H4|H4]; cbn [octalDigits].
  - destruct r as [|a r]; [by apply H1|]. fold (isOctal a). destruct (isOctal a) eqn:Ha; [|by apply H1].
    pose proof (isOctal_digit _ Ha) as [Hda Hra]. apply (Hone [c; a]); [done|chz; rewrite Hs; lia|].
    replace (Z.lor _ _) with (octValue [c; a]) by (unfold octValue; cbn; rewrite Hs; chz; lia).
    apply E_octal2'; [|done]. unfold between. chz. lia.
  - assert (between "0" c "3" = true) by (unfold between; chz; lia).
    destruct r as [|a r]; [by apply H1|]. fold (isOctal a). destruct (isOctal a) eqn:Ha; [|by apply H1].
    pose proof (isOctal_digit _ Ha) as [Hda Hra].
    assert (isOctal (chr r) = false → sound (c :: a :: r) (EscChr (Z.lor (Z.shiftl (c - "0") 3) (a - "0")) r)) as H2.
    { intros Hf. apply (Hone [c; a]); [done|chz; rewrite Hs; lia|].
      replace (Z.lor _ _) with (octValue [c; a]) by (unfold octValue; cbn; rewrite Hs; chz; lia). by apply E_octal2. }
    destruct r as [|b r]; [by apply H2|]. fold (isOctal b). destruct (isOctal b) eqn:Hb; [|by apply H2].
    pose proof (isOctal_digit _ Hb) as [Hdb Hrb]. apply (Hone [c; a; b]); [done|chz; rewrite !Hs; rewrite ?Hs; lia|].
    replace (Z.lor _ _) with (octValue [c; a; b]) by (unfold octValue; cbn; rewrite !Hs; rewrite ?Hs; chz; lia). by apply E_octal3.
Qed.

Lemma hexValue_small ds n : Forall (λ d, isHex d = true) ds → length ds = n → 0 ≤ hexFrom 0 ds < 16 ^ Z.of_nat n.
Proof.
  intros HF <-. assert (∀ ds v, Forall (λ d, isHex d = true) ds → 0 ≤ v → 0 ≤ hexFrom v ds < (v + 1) * 16 ^ Z.of_nat (length ds)) as H.
  { clear. induction ds as [|d ds IH]; intros v HF Hv; [cbn; lia|]. apply Forall_cons in HF as [Hd HF]. apply isHex_digit in Hd.
    destruct (IH (16 * v + digitValue d) HF ltac:(lia)) as [H1 H2]. cbn [length]. rewrite Nat2Z.inj_succ, Z.pow_succ_r by lia.
    assert (0 < 16 ^ Z.of_nat (length ds)) by lia. unfold hexFrom in *. cbn. nia. }
  specialize (H ds 0 HF). lia.
Qed.

Lemma parseEscape_sound s : Forall (λ c, 0 ≤ c ≤ MaxRune) s → sound s (parseEscape false s).
Proof.
  intros HF. destruct s as [|c s]; [done|]. apply Forall_cons in HF as [Hc HF]. unfold parseEscape.
  assert (singleEscape c = None → isDecimalDigit c = false → isLineTerminator c = false → c ≠ "x" → c ≠ "u" → sound (c :: s) (EscChr c s)) as Hself.
  { intros. exists [c], false. split_and!; [done|by apply E_self|lia..]. }
  destruct (Z.leb_spec RuneSelf c) as [Hhi|Hlo].
  { destruct ((c =? LS) || (c =? PS)) eqn:E.
    - exists [c]. split; [done|]. apply E_line. lia.
    - apply Hself; unfold singleEscape, isDecimalDigit, isLineTerminator, between; chz; repeat case_match; (done || lia). }
  repeat match goal with |- sound _ (if ?c =? ch ?x then EscChr ?v _ else _) =>
    destruct (Z.eqb_spec c x) as [->|?]; [apply (sound_one _ _ v false); [lia|by apply E_single]|]
  end.
  destruct (Z.eqb_spec c "x") as [->|?].
  { destruct (hexDigits 2 0 s) as [[v r]|] eqn:E; [|done]. apply hexDigits_spec in E as (ds & Hl & HD & -> & ->); [|lia].
    pose proof (hexValue_small ds 2 HD Hl). destruct ds as [|a [|b [|? ?]]]; try done.
    rewrite !Forall_cons in HD. destruct HD as (Ha & Hb & _). exists [ch "x"; a; b], false. rewrite runeUnits_bmp by lia.
    split_and!; [done|by apply (E_hex a b)|unfold MaxRune in *; lia..]. }
  destruct (Z.eqb_spec c "u") as [->|?].
  { destruct (Z.eqb_spec (chr s) "{") as [Hs|Hs]; cbn [negb].
    - destruct s as [|c s]; [done|]. cbn in Hs. subst c. cbn [read tail].
      destruct (hexBraces false 0 s) as [[v r]|] eqn:E; [|done]. apply hexBraces_spec in E as (ds & Hne & HD & -> & -> & Hm); [|unfold MaxRune; lia].
      specialize (Hne eq_refl). pose proof (hexFrom_le ds 0 ltac:(lia) HD). rewrite (proj2 (Z.ltb_ge _ _)) by lia.
      exists (ch "u" :: ch "{" :: ds ++ [ch "}"]), false. split_and!; [cbn; by rewrite <- app_assoc|by apply (E_braces ds)|lia..].
    - destruct (hexDigits 4 0 s) as [[v r]|] eqn:E; [|done]. apply hexDigits_spec in E as (ds & Hl & HD & -> & ->); [|lia].
      pose proof (hexValue_small ds 4 HD Hl). rewrite (proj2 (Z.ltb_ge _ _)) by (unfold MaxRune; lia).
      destruct ds as [|a [|b [|c [|d [|? ?]]]]]; try done. rewrite !Forall_cons in HD. destruct HD as (Ha & Hb & Hc' & Hd & _).
      exists [ch "u"; a; b; c; d], false. rewrite runeUnits_bmp by lia. split_and!; [done|by apply (E_u4 a b c d)|unfold MaxRune in *; lia..]. }
  fold (isOctal (chr s)). destruct (Z.eqb_spec c "0") as [->|?].
  { destruct (isOctal (chr s)) eqn:Eo; [by apply octal_sound|]. eapply sound_one; [lia|]. by apply (E_octal1 "0"). }
  destruct (between "1" c "7") eqn:E17; [apply octal_sound; [unfold isOctal, between in *; chz; lia|done]|].
  destruct (Z.eqb_spec c CR) as [->|?].
  { destruct (Z.eqb_spec (chr s) LF) as [Hs|Hs].
    - destruct s as [|d s]; [done|]. cbn in Hs. subst d. exists [CR; LF]. split; [done|apply E_CRLF].
    - exists [CR]. split; [done|by apply E_CR]. }
  destruct (Z.eqb_spec c LF) as [->|?]; [exists [LF]; split; [done|apply E_line; by left]|].
  destruct (isDecimalDigit c) eqn:Ed.
  - assert (c = "8" ∨ c = "9") by (unfold isDecimalDigit, between in *; chz; lia). apply (sound_one _ _ _ true); [unfold RuneSelf in *; lia|by apply E_89].
  - apply Hself; try done; unfold singleEscape, isLineTerminator; chz; repeat case_match; (done || lia).
Qed.

(** The character after an escape may also be the closing quote. *)
Lemma Escape_follow e v b f f' : isDecimalDigit f = false → isDecimalDigit f' = false → f' ≠ LF → Escape e f v b → Escape e f' v b.
Proof.
  intros Hf Hf' Hlf. assert (isOctal f' = false) as Ho by (unfold isDecimalDigit, isOctal, between in *; chz; lia).
  assert (isDecimalDigit f' = isDecimalDigit f) as E by congruence.
  inversion 1; subst; try (by constructor). rewrite <- E. by apply E_octal1.
Qed.

Definition high (v : list Z) : bool := existsb (λ c, RuneSelf <=? c) v.

Lemma runeUnits_count c : 0 ≤ c ≤ MaxRune → unitCount c = (length (runeUnits c), high (runeUnits c)).
Proof.
  intros Hc. unfold unitCount, runeUnits, high. chz.
  destruct (Z.leb_spec 128 c); destruct (Z.ltb_spec 65535 c); try lia;
    [rewrite (proj2 (Z.leb_gt _ _)) by lia|rewrite (proj2 (Z.leb_le _ _)) by lia..]; cbn; try (zcmp; done).
  unfold utf16EncodeRune, MaxRune. rewrite !(proj2 (Z.leb_le _ _)) by lia. cbn. rewrite (proj2 (Z.leb_le _ _)); [done|].
  pose proof (Z.div_pos (c - 65536) 1024 ltac:(lia) ltac:(lia)). lia.
Qed.

Definition isQuote (q : Z) : bool := (q =? 34) || (q =? "'") || (q =? "`").

Lemma escapeDigits_spec base q ds : ∀ n v r, isQuote q = true → base = 8 ∨ base = 16 →
  Forall (λ d, digitValue d < base) ds → (length ds ≤ n)%nat → (length ds = n ∨ base ≤ digitValue (chr r)) →
  escapeDigits n q base v (ds ++ r) = (foldl (λ v d, base * v + digitValue d) v ds, r).
Proof.
  intros n v r Hq Hb. revert n v. induction ds as [|d ds IH]; intros n v HF Hl Hr; cbn [app foldl].
  - destruct n as [|n]; [done|]. cbn [length] in Hr. destruct Hr as [?|Hr]; [lia|]. cbn [escapeDigits].
    rewrite (proj2 (Z.leb_le _ _) Hr). by rewrite orb_true_r.
  - destruct n as [|n]; [cbn in Hl; lia|]. apply Forall_cons in HF as [Hd HF]. cbn [escapeDigits chr read tail].
    replace ((d =? q) || (d <? 0) || (base <=? digitValue d)) with false.
    2: { pose proof (digitValue_cases d). unfold isQuote in Hq. chz. lia. }
    rewrite IH; [|done|cbn in Hl; lia|cbn in Hr; lia]. do 2 f_equal. lia.
Qed.

Lemma escapeBraces_spec q ds : ∀ v r, isQuote q = true → 0 ≤ v → Forall (λ d, isHex d = true) ds → hexFrom v ds ≤ MaxRune →
  escapeBraces q v (ds ++ ch "}" :: r) = (hexFrom v ds, r).
Proof.
  intros v r Hq. revert v. induction ds as [|d ds IH]; intros v Hv HF Hm; cbn [app escapeBraces].
  - cbn in Hm. replace ((ch "}" =? q) || (MaxRune <? v)) with false by (unfold isQuote in Hq; chz; lia). done.
  - pose proof (hexFrom_le (d :: ds) v Hv HF). apply Forall_cons in HF as [Hd HF]. pose proof (isHex_digit _ Hd). pose proof (digitValue_cases d).
    replace ((d =? q) || (MaxRune <? v)) with false by (unfold isQuote in Hq; chz; lia).
    replace (d =? ch "}") with false by (chz; lia). rewrite (proj2 (Z.leb_gt _ _)) by lia.
    rewrite IH; [by replace (v * 16 + digitValue d) with (16 * v + digitValue d) by lia|lia|done|].
    replace (v * 16 + digitValue d) with (16 * v + digitValue d) by lia. done.
Qed.

Ltac preds := unfold singleEscape, isDecimalDigit, isLineTerminator, isOctal, isHex, between, memChr in *; cbn [existsb] in *; chz.

Lemma count_unit v : 0 ≤ v ≤ 0xFFFF → unitCount v = (length [v], high [v]).
Proof. intros. rewrite runeUnits_count by (unfold MaxRune; lia). by rewrite runeUnits_bmp by lia. Qed.

(** A character that stands for itself. *)
Lemma scanEscape_self q c r : 0 ≤ c → singleEscape c = None → isOctal c = false → isLineTerminator c = false → c ≠ "x" → c ≠ "u" →
  scanEscape q (c :: r) = (unitCount c, r).
Proof.
  intros. unfold scanEscape. cbn [chr read tail]. unfold unitCount.
  preds. repeat case_match; try lia; done.
Qed.

Lemma scanEscape_x q s : scanEscape q (ch "x" :: s) = let r := escapeDigits 2 q 16 0 s in (unitCount r.1, r.2).
Proof. done. Qed.

Lemma scanEscape_u q s : scanEscape q (ch "u" :: s) =
  let r := if chr s =? "{" then escapeBraces q 0 (read s) else escapeDigits 4 q 16 0 s in (unitCount r.1, r.2).
Proof. unfold scanEscape. cbn [chr read tail]. by destruct (chr s =? "{"). Qed.

(** The octal digits of an escape. *)
Lemma scanOctal_spec q (a : Z) ds r : isQuote q = true → Forall (λ d, isOctal d = true) (a :: ds) →
  (length ds ≤ if (a <=? "3")%Z then 2 else 1)%nat → (length ds = (if (a <=? "3")%Z then 2 else 1)%nat ∨ isOctal (chr r) = false) →
  scanEscape q (a :: ds ++ r) = (length [octValue (a :: ds)], high [octValue (a :: ds)], r).
Proof.
  intros Hq HF Hl Hr. assert (Forall (λ d, digitValue d < 8) (a :: ds)) as HF8.
  { eapply Forall_impl; [exact HF|]. intros d Hd. cbn in Hd. rewrite isOctal_value in Hd. lia. }
  pose proof (Forall_inv HF) as Ha. apply isOctal_digit in Ha as [Hda Ha]. rewrite isOctal_value in Hr.
  assert (0 ≤ octValue (a :: ds) ≤ 0xFFFF).
  { apply Forall_inv_tail in HF. unfold octValue. destruct ds as [|b [|c [|? ?]]]; cbn in *; try (case_match; lia).
    all: repeat match goal with H : Forall _ (_ :: _) |- _ => apply Forall_cons in H as [[? ?]%isOctal_digit H] end; lia. }
  unfold scanEscape. cbn [chr]. destruct (Z.leb_spec a "3") as [H3|H3].
  - replace (between "0" a "3") with true by (preds; lia).
    change (a :: ds ++ r) with ((a :: ds) ++ r). rewrite escapeDigits_spec; [|by try left..|by cbn; lia|cbn; lia].
    cbn [fst snd]. by rewrite count_unit.
  - replace (between "0" a "3") with false by (preds; lia). replace (between "4" a "7") with true by (preds; lia).
    change (a :: ds ++ r) with ((a :: ds) ++ r). rewrite escapeDigits_spec; [|by try left..|by cbn; lia|cbn; lia].
    cbn [fst snd]. by rewrite count_unit.
Qed.

Lemma scanEscape_spec q e r v b : isQuote q = true → Escape e (chr r) v b → v ≠ [] → scanEscape q (e ++ r) = (length v, high v, r).
Proof.
  intros Hq He Hv. inversion He; subst; try done.
  - cbn [app]. unfold scanEscape. cbn [chr]. assert (0 ≤ v0 ≤ 0xFFFF) by (unfold singleEscape in *; repeat case_match; simplify_eq; lia).
    rewrite <- count_unit by done. assert (unitCount v0 = (1%nat, false)) as ->
      by (unfold singleEscape in *; repeat case_match; simplify_eq; done).
    replace (between "0" c "3") with false by (preds; repeat case_match; (done || lia)).
    replace (between "4" c "7") with false by (preds; repeat case_match; (done || lia)).
    match goal with |- context [if ?b then _ else _] => replace b with true; [done|] end.
    preds; repeat case_match; (done || lia).
  - cbn [app]. rewrite <- runeUnits_count by done. apply scanEscape_self; try done; preds; lia.
  - cbn [app]. rewrite <- count_unit by (chz; lia). apply scanEscape_self; (destruct H as [->| ->]; done).
  - apply (scanOctal_spec q a []); [done|by constructor|cbn; lia|by right].
  - apply (scanOctal_spec q a [b0]); [done| | |by right]; [constructor; [preds; lia|by constructor]|cbn; case_match; lia].
  - apply (scanOctal_spec q a [b0]); [done| | |]; [constructor; [preds; lia|by constructor]|cbn; case_match; lia|].
    replace (a <=? "3") with false by (preds; lia). by left.
  - apply (scanOctal_spec q a [b0; c]); [done| | |]; [constructor; [preds; lia|by repeat constructor]|..];
      replace (a <=? "3") with true by (preds; lia); cbn; [lia|by left].
  - pose proof (hexValue_small [a; b0] 2 ltac:(by repeat constructor) eq_refl). rewrite <- count_unit by (unfold hexValue, hexFrom in *; lia).
    cbn [app]. rewrite scanEscape_x. change (a :: b0 :: r) with ([a; b0] ++ r).
    rewrite escapeDigits_spec; [done|done|by right|repeat constructor; preds; lia|done|by left].
  - pose proof (hexValue_small [a; b0; c; d] 4 ltac:(by repeat constructor) eq_refl). rewrite <- count_unit by (unfold hexValue, hexFrom in *; lia).
    cbn [app]. rewrite scanEscape_u. cbn [chr]. replace (a =? "{") with false by (pose proof (digitValue_cases a); preds; lia).
    change (a :: b0 :: c :: d :: r) with ([a; b0; c; d] ++ r).
    rewrite escapeDigits_spec; [done|done|by right|repeat constructor; preds; lia|done|by left].
  - pose proof (hexFrom_le ds 0 ltac:(lia) H0). rewrite <- runeUnits_count by (unfold hexValue, hexFrom in *; lia).
    cbn [app]. rewrite scanEscape_u, <- app_assoc. cbn [app chr read tail]. rewrite Z.eqb_refl.
    by rewrite escapeBraces_spec.
Qed.

(** The result of [parseEscape] for a value. *)
Definition escapeResult (v : list Z) (r : list Z) (o : escaped) : Prop :=
  (v = [] ∧ o = EscNone r) ∨ ∃ x, v = runeUnits x ∧ 0 ≤ x ≤ MaxRune ∧ o = EscChr x r.

Lemma escapeResult_unit x r : 0 ≤ x ≤ 0xFFFF → escapeResult [x] r (EscChr x r).
Proof. intros. right. exists x. rewrite runeUnits_bmp by lia. unfold MaxRune. repeat split; lia. Qed.

Lemma octalDigits_spec ds : ∀ n v r, 0 ≤ v → Forall (λ d, isOctal d = true) ds → (length ds ≤ n)%nat → length ds = n ∨ isOctal (chr r) = false →
  octalDigits n v (ds ++ r) = (foldl (λ v d, 8 * v + digitValue d) v ds, r).
Proof.
  induction ds as [|d ds IH]; intros n v r Hv HF Hl Hr; cbn [app foldl].
  - destruct n as [|n]; [done|]. destruct Hr as [Hr|Hr]; [done|]. cbn. destruct r as [|c r]; [done|]. unfold isOctal in Hr. cbn in Hr. by rewrite Hr.
  - destruct n as [|n]; [cbn in Hl; lia|]. apply Forall_cons in HF as [Hd HF]. cbn [octalDigits]. fold (isOctal d). rewrite Hd.
    pose proof (isOctal_digit _ Hd) as [Hdd Hdr]. rewrite shift_digit by (chz; lia). change (2 ^ 3) with 8.
    rewrite IH; [do 2 f_equal; chz; lia|chz; lia|done|cbn in Hl; lia|destruct Hr as [Hr|Hr]; [left; cbn in Hr; lia|by right]].
Qed.

Lemma parseOctal_complete (a : Z) ds r : Forall (λ d, isOctal d = true) (a :: ds) →
  (length ds ≤ if ("4" <=? a)%Z then 1 else 2)%nat → (length ds = (if ("4" <=? a)%Z then 1 else 2)%nat ∨ isOctal (chr r) = false) →
  a = "0" ∧ ds = [] ∧ isOctal (chr r) = false ∨ parseEscape false (a :: ds ++ r) = EscChr (octValue (a :: ds)) r.
Proof.
  intros HF Hl Hr. pose proof (Forall_inv HF) as Ha. apply isOctal_digit in Ha as [Hda Ha]. apply Forall_inv_tail in HF.
  assert (parseOctal false a (ds ++ r) = EscChr (octValue (a :: ds)) r) as HP.
  { unfold parseOctal. rewrite octalDigits_spec; [|chz; lia|done..].
    unfold octValue. cbn [foldl]. replace (a - "0") with (8 * 0 + digitValue a) by (chz; lia). done. }
  assert (a = "0" → isOctal (chr (ds ++ r)) = false → a = "0" ∧ ds = [] ∧ isOctal (chr r) = false) as Hz.
  { intros -> Ho. destruct ds as [|d ds]; [done|]. apply Forall_inv in HF. cbn in Ho. congruence. }
  unfold parseEscape. fold (isOctal (chr (ds ++ r))). rewrite HP.
  repeat match goal with |- context [if ?b then _ else _] => replace b with false by (symmetry; chz; lia) end.
  destruct (Z.eqb_spec a "0") as [E|E].
  - destruct (isOctal (chr (ds ++ r))) eqn:Eo; [by right|]. left. by apply Hz.
  - replace (between "1" a "7") with true by (preds; lia). by right.
Qed.

Lemma octal_result (a : Z) ds r : Forall (λ d, isOctal d = true) (a :: ds) →
  (length ds ≤ if ("4" <=? a)%Z then 1 else 2)%nat → (length ds = (if ("4" <=? a)%Z then 1 else 2)%nat ∨ isOctal (chr r) = false) →
  escapeResult [octValue (a :: ds)] r (parseEscape false (a :: ds ++ r)).
Proof.
  intros HF Hl Hr. assert (0 ≤ octValue (a :: ds) ≤ 0xFFFF).
  { unfold octValue. apply Forall_cons in HF as [[Hda Ha]%isOctal_digit HF]. destruct ds as [|b [|c [|? ?]]]; cbn in *; try (case_match; lia).
    all: repeat match goal with H : Forall _ (_ :: _) |- _ => apply Forall_cons in H as [[? ?]%isOctal_digit H] end; lia. }
  destruct (parseOctal_complete a ds r HF Hl Hr) as [(-> & -> & Ho)|E]; [|rewrite E; by apply escapeResult_unit].
  replace (parseEscape false _) with (EscChr 0 r); [by apply escapeResult_unit|]. cbn [app]. unfold parseEscape. fold (isOctal (chr r)). by rewrite Ho.
Qed.

Lemma parseEscape_u strict s : parseEscape strict (ch "u" :: s) =
  match (if negb (chr s =? "{") then hexDigits 4 0 s else hexBraces false 0 (read s)) with
  | Some (v, r) => if MaxRune <? v then EscPanic else EscChr v r
  | None => EscBad
  end.
Proof. done. Qed.

Lemma parseEscape_complete e r v b : Escape e (chr r) v b → escapeResult v r (parseEscape false (e ++ r)).
Proof.
  inversion 1; subst.
  - replace (parseEscape false _) with (EscChr v0 r); [apply escapeResult_unit; unfold singleEscape in *; repeat case_match; simplify_eq; lia|].
    cbn [app]. unfold parseEscape, singleEscape in *. chz. repeat case_match; simplify_eq; try done; lia.
  - right. exists c. split_and!; [done|lia..|]. cbn [app]. unfold parseEscape.
    preds. repeat case_match; try lia; done.
  - destruct H0 as [-> | ->]; by apply escapeResult_unit.
  - apply (octal_result a []); [by constructor|cbn; lia|by right].
  - apply (octal_result a [b0]); [constructor; [preds; lia|by constructor]|cbn; case_match; lia|by right].
  - apply (octal_result a [b0]); [constructor; [preds; lia|by constructor]|cbn; case_match; lia|].
    replace ("4" <=? a) with true by (preds; lia). by left.
  - apply (octal_result a [b0; c]); [constructor; [preds; lia|by repeat constructor]|..];
      replace ("4" <=? a) with false by (preds; lia); cbn; [lia|by left].
  - pose proof (hexValue_small [a; b0] 2 ltac:(by repeat constructor) eq_refl).
    replace (parseEscape false _) with (EscChr (hexValue [a; b0]) r); [apply escapeResult_unit; unfold hexValue, hexFrom in *; lia|].
    unfold parseEscape. cbn [app]. replace (hexDigits 2 0 (a :: b0 :: r)) with (Some (hexValue [a; b0], r)); [done|].
    symmetry. apply hexDigits_spec; [lia|]. exists [a; b0]. by repeat constructor.
  - pose proof (hexValue_small [a; b0; c; d] 4 ltac:(by repeat constructor) eq_refl).
    replace (parseEscape false _) with (EscChr (hexValue [a; b0; c; d]) r); [apply escapeResult_unit; unfold hexValue, hexFrom in *; lia|].
    cbn [app]. rewrite parseEscape_u. cbn [chr]. replace (a =? "{") with false by (pose proof (digitValue_cases a); preds; lia). cbn [negb].
    replace (hexDigits 4 0 (a :: b0 :: c :: d :: r)) with (Some (hexValue [a; b0; c; d], r)).
    + rewrite (proj2 (Z.ltb_ge _ _)); [done|]. unfold MaxRune, hexValue, hexFrom in *. lia.
    + symmetry. apply hexDigits_spec; [lia|]. exists [a; b0; c; d]. by repeat constructor.
  - pose proof (hexFrom_le ds 0 ltac:(lia) H1). right. exists (hexValue ds). split_and!; [done|done|done|].
    cbn [app]. rewrite parseEscape_u. cbn [app chr read tail]. rewrite <- app_assoc, Z.eqb_refl. cbn [app negb].
    replace (hexBraces false 0 _) with (Some (hexValue ds, r)); [cbv iota beta; by rewrite (proj2 (Z.ltb_ge _ _))|].
    symmetry. apply hexBraces_spec; [unfold MaxRune; lia|]. by exists ds.
  - left. split; [done|]. cbn [app]. unfold parseEscape. by rewrite (proj2 (Z.eqb_neq _ _) H0).
  - by left.
  - left. split; [done|]. by destruct H0 as [-> | [-> | ->]].
Qed.

(** A line continuation, and the other escapes. *)
Lemma scanNewline_spec e r b : Escape e (chr r) [] b → isLineTerminator (chr (e ++ r)) = true ∧ scanNewline (e ++ r) = r ∧ b = false.
Proof.
  inversion 1; subst.
  - match goal with H : runeUnits _ = [] |- _ => pose proof (runeUnits_pos c); rewrite H in *; cbn in *; lia end.
  - match goal with H : runeUnits _ = [] |- _ => pose proof (runeUnits_pos (hexValue ds)); rewrite H in *; cbn in *; lia end.
  - split_and!; [done| |done]. unfold scanNewline. cbn. by rewrite (proj2 (Z.eqb_neq _ _) H0).
  - done.
  - by destruct H0 as [-> | [-> | ->]].
Qed.

Definition legacyDigit (s : list Z) : bool := isDecimalDigit (chr s) && (negb (chr s =? "0") || isDecimalDigit (peekChr s)).

Lemma escape_start e r v b : Escape e (chr r) v b → v ≠ [] →
  isLineTerminator (chr (e ++ r)) || (chr (e ++ r) <? 0) = false ∧ legacyDigit (e ++ r) = b.
Proof.
  inversion 1; subst; intros Hv; unfold legacyDigit, peekChr; cbn [app chr read tail]; try done.
  - preds. repeat case_match; (done || lia).
  - preds. lia.
  - preds. lia.
  - preds. lia.
  - preds. lia.
  - preds. lia.
  - preds. lia.
Qed.

(** ** The value *)

(** A body with an escape that is not in the grammar, after a prefix that is. *)
Inductive Bad : list Z → Prop :=
  | Bad_here s : parseEscape false s = EscBad → Bad (ch "\" :: s)
  | Bad_char (c : Z) t : c ≠ "\" → Bad t → Bad (c :: t)
  | Bad_escape e t v b : Escape e (chr t) v b → Bad t → Bad (ch "\" :: e ++ t).

Lemma high_app a b : high (a ++ b) = high a || high b.
Proof. apply existsb_app. Qed.

Lemma high_rune x : 0 ≤ x ≤ MaxRune → high (runeUnits x) = (RuneSelf <=? x).
Proof. intros Hx. pose proof (runeUnits_count x Hx) as E. unfold unitCount in E. destruct (RuneSelf <=? x); [case_match|]; congruence. Qed.

Lemma low_rune x : x < RuneSelf → runeUnits x = [x].
Proof. intros. apply runeUnits_bmp. unfold RuneSelf in *. lia. Qed.

Lemma escape_length e (t : list Z) fuel : (length (ch "\" :: e ++ t) ≤ S fuel)%nat → (length t ≤ fuel)%nat.
Proof. cbn. rewrite length_app. lia. Qed.

Lemma parseLoop_chars q body v b : StringChars q body v b → ∀ fuel sb chars, (length body ≤ fuel)%nat →
  parseLoop fuel true false body sb chars = inl (Some (sb, chars ++ v)) ∧
  (high v = false → parseLoop fuel false false body sb chars = inl (Some (sb ++ v, chars))).
Proof.
  induction 1 as [|c t v b Hc _ Hb _ _ _ IH|e t v w b b' He _ IH]; intros fuel sb chars Hl.
  - rewrite !app_nil_r. by destruct fuel.
  - destruct fuel as [|fuel]; [cbn in Hl; lia|]. cbn in Hl. apply le_S_n in Hl. cbn [parseLoop].
    rewrite high_app, high_rune, app_assoc by done. rewrite (proj2 (Z.eqb_neq _ _) Hb). cbn [negb].
    destruct (Z.leb_spec RuneSelf c); [split; [apply IH|]; done|]. rewrite low_rune by done.
    split; [by apply IH|]. cbn [orb]. intros Hv. cbn [app]. replace (sb ++ c :: v) with ((sb ++ [c]) ++ v) by (by rewrite <- app_assoc). by apply IH.
  - destruct fuel as [|fuel]; [cbn in Hl; lia|]. apply escape_length in Hl. cbn [parseLoop].
    change (RuneSelf <=? "\") with false. rewrite Z.eqb_refl. cbv iota. cbn [negb]. rewrite high_app.
    destruct (parseEscape_complete e t v b He) as [[-> ->]|(x & -> & Hx & ->)]; [by apply IH|]. rewrite high_rune, app_assoc by done.
    split; [by apply IH|]. destruct (Z.leb_spec RuneSelf x); [done|]. cbn [orb]. intros Hv. rewrite low_rune by done.
    rewrite app_assoc. by apply IH.
Qed.

Lemma parseLoop_bad body : Bad body → ∀ fuel unicode sb chars, (length body ≤ fuel)%nat → parseLoop fuel unicode false body sb chars = inl None.
Proof.
  induction 1 as [s Hs|c t Hc _ IH|e t v b He _ IH]; intros fuel unicode sb chars Hl; (destruct fuel as [|fuel]; [cbn in Hl; lia|]); cbn [parseLoop].
  - change (RuneSelf <=? "\") with false. rewrite Z.eqb_refl. cbv iota. cbn [negb]. by rewrite Hs.
  - cbn in Hl. rewrite (proj2 (Z.eqb_neq _ _) Hc). cbn [negb]. rewrite !IH by lia. by destruct (RuneSelf <=? c), unicode.
  - apply escape_length in Hl. change (RuneSelf <=? "\") with false. rewrite Z.eqb_refl. cbv iota. cbn [negb].
    destruct (parseEscape_complete e t v b He) as [[-> ->]|(x & -> & Hx & ->)]; [by apply IH|]. rewrite !IH by done.
    by destruct unicode, (RuneSelf <=? x).
Qed.

(** The string of these units. *)
Definition uniOf (v : list Z) : uni := if high v then inr (BOM :: v) else inl v.

Lemma parse_good q body v b : StringChars q body v b → parseStringLiteral body (length v) (high v) false = Parsed (uniOf v).
Proof.
  intros HS. unfold parseStringLiteral, uniOf. destruct (parseLoop_chars q body v b HS (length body) [] (if high v then [BOM] else []) (le_n _)) as [H1 H2].
  destruct (high v); [rewrite H1|rewrite H2 by done]; cbn; [rewrite Nat.add_1_r|]; by rewrite Nat.eqb_refl.
Qed.

Lemma parse_bad body n u : Bad body → parseStringLiteral body n u false = BadLiteral.
Proof. intros HB. unfold parseStringLiteral. by rewrite parseLoop_bad. Qed.

(** ** The scanner *)

Lemma suffix_read (s : list Z) : read s `suffix_of` s.
Proof. destruct s as [|c s]; [done|]. by apply suffix_cons_r. Qed.

Lemma escapeDigits_suffix n q base : ∀ v s, (escapeDigits n q base v s).2 `suffix_of` s.
Proof.
  induction n as [|n IH]; intros v s; cbn; [done|]. case_match; [done|]. etrans; [apply IH|apply suffix_read].
Qed.

Lemma escapeBraces_suffix q s : ∀ v, (escapeBraces q v s).2 `suffix_of` s.
Proof.
  induction s as [|c s IH]; intros v; cbn; [done|]. repeat case_match; try done; cbn; [by apply suffix_cons_r|].
  etrans; [apply IH|by apply suffix_cons_r].
Qed.

(** Something is read. *)
Lemma scanEscape_suffix q c s : isQuote q = true → (scanEscape q (c :: s)).2 `suffix_of` s.
Proof.
  intros Hq. unfold scanEscape. cbn [chr read tail].
  assert (∀ n v, (0 < n)%nat → isOctal c = true → (escapeDigits n q 8 v (c :: s)).2 `suffix_of` s) as HO.
  { intros [|n] v Hn Ho; [lia|]. cbn [escapeDigits chr]. apply isOctal_digit in Ho as [Hd Ho].
    replace ((c =? q) || (c <? 0) || (8 <=? digitValue c)) with false by (unfold isQuote in Hq; chz; lia). apply escapeDigits_suffix. }
  repeat case_match; cbn [snd]; try done; try (by apply suffix_read);
    try (apply HO; [lia|preds; lia]); try apply escapeDigits_suffix. etrans; [apply escapeBraces_suffix|apply suffix_read].
Qed.

Lemma newline_escape s : isLineTerminator (chr s) = true → ∃ e, s = e ++ scanNewline s ∧ Escape e (chr (scanNewline s)) [] false.
Proof.
  destruct s as [|c s]; [done|]. unfold scanNewline. cbn [chr read tail]. intros Hl.
  destruct ((c =? LS) || (c =? PS)) eqn:E1; [exists [c]; split; [done|apply E_line; lia]|].
  destruct (Z.eqb_spec c CR) as [->|Hc]; [|exists [c]; split; [done|apply E_line; preds; lia]].
  destruct (Z.eqb_spec (chr s) LF) as [Es|Es]; [|exists [CR]; split; [done|by apply E_CR]].
  destruct s as [|d s]; [done|]. cbn in Es. subst d. exists [CR; LF]. split; [done|apply E_CRLF].
Qed.

Lemma scanNewline_length s : (length (scanNewline s) ≤ length s)%nat.
Proof. unfold scanNewline, read. repeat case_match; destruct s as [|? [|? ?]]; cbn; lia. Qed.

Lemma scanNewline_suffix s : scanNewline s `suffix_of` s.
Proof. unfold scanNewline. repeat case_match; try apply suffix_read. etrans; apply suffix_read. Qed.

Section scanner.
Context (q : Z) (Hq : q = 34 ∨ q = "'").

Lemma quote_isQuote : isQuote q = true.
Proof using Hq. unfold isQuote. chz. lia. Qed.

Lemma quote_follow : isDecimalDigit q = false ∧ q ≠ LF.
Proof using Hq. preds. lia. Qed.

(** The character after an escape at the end of the body is the quote. *)
Lemma Escape_quote e t rest v b : Escape e (chr t) v b ↔ Escape e (chr (t ++ q :: rest)) v b.
Proof using Hq. destruct quote_follow. destruct t as [|c t]; [|done]. cbn. split; by apply Escape_follow. Qed.

Lemma scanLoop_chars body v b : StringChars q body v b → ∀ fuel rest n u sl, (length body < fuel)%nat →
  scanStringLoop fuel q (body ++ q :: rest) n u sl = Some (Closed rest (n + length v) (u || high v) (sl || b)).
Proof using Hq.
  induction 1 as [|c t v b Hc Hcq Hb Hlf Hcr _ IH|e t v w b b' He _ IH]; intros fuel rest n u sl Hl; (destruct fuel as [|fuel]; [cbn in Hl; lia|]);
    cbn [scanStringLoop app chr read tail].
  - rewrite Z.eqb_refl. by rewrite Nat.add_0_r, !orb_false_r.
  - cbn in Hl. rewrite (proj2 (Z.eqb_neq _ _) Hcq), (proj2 (Z.eqb_neq _ _) Hb).
    replace (q =? "/") with false by (chz; lia). replace (q =? -1) with false by (chz; lia). rewrite !andb_false_r, orb_false_r.
    replace ((c =? LF) || (c =? CR) || (c <? 0)) with false by lia.
    rewrite runeUnits_count, IH by (done || lia). by rewrite length_app, high_app, Nat.add_assoc, orb_assoc.
  - cbn [length] in Hl. rewrite length_app in Hl.
    replace (ch "\" =? q) with false by (chz; lia). replace (q =? "/") with false by (chz; lia). rewrite !andb_false_l, orb_false_r.
    change ((ch "\" =? LF) || (ch "\" =? CR) || (ch "\" <? 0)) with false. cbv iota. rewrite Z.eqb_refl, <- app_assoc.
    apply (Escape_quote e t rest) in He. destruct (decide (v = [])) as [->|Hv].
    + destruct (scanNewline_spec _ _ _ He) as (-> & -> & ->). cbn [orb]. by rewrite IH by lia.
    + destruct (escape_start _ _ _ _ He Hv) as [-> Hd]. unfold legacyDigit in Hd. rewrite Hd.
      rewrite (scanEscape_spec q _ _ _ _ quote_isQuote He Hv), IH by lia. by rewrite length_app, high_app, Nat.add_assoc, !orb_assoc.
Qed.

(** The loop ends: the text is shorter after each round. *)
Lemma scanLoop_total fuel : ∀ s n u sl, (length s < fuel)%nat → is_Some (scanStringLoop fuel q s n u sl).
Proof using Hq.
  induction fuel as [|fuel IH]; intros s n u sl Hl; [lia|]. cbn [scanStringLoop].
  replace (q =? "/") with false by (chz; lia). replace (q =? -1) with false by (chz; lia). rewrite !andb_false_r. cbn [andb]. rewrite orb_false_r.
  case_match; [done|]. case_match; [done|]. destruct s as [|c s]; [done|]. cbn [read tail]. cbn in Hl. case_match; [case_match|].
  - apply IH. pose proof (scanNewline_length s). lia.
  - destruct (scanEscape q s) as [[l u'] s'] eqn:E. apply IH. destruct s as [|d s]; [done|].
    pose proof (scanEscape_suffix q d s quote_isQuote) as Hs. rewrite E in Hs. apply suffix_length in Hs. cbn in *. lia.
  - destruct (unitCount _). apply IH. lia.
Qed.

(** A body the scanner passed over: in the grammar, with the counts of the
    scanner, or with a bad escape. *)
Definition Passed (body : list Z) (n : nat) (u sl : bool) (N : nat) (U SL : bool) : Prop :=
  (∃ v b, StringChars q body v b ∧ N = (n + length v)%nat ∧ U = u || high v ∧ SL = sl || b) ∨ Bad body.

Lemma Passed_escape e t v b n u sl N U SL : Escape e (chr t) v b → Passed t (n + length v) (u || high v) (sl || b) N U SL →
  Passed (ch "\" :: e ++ t) n u sl N U SL.
Proof using Hq.
  intros He [(w & b' & HS & -> & -> & ->)|HB]; [left|right; by eapply Bad_escape].
  exists (v ++ w), (b || b'). split; [by apply SC_escape|]. by rewrite length_app, high_app, Nat.add_assoc, !orb_assoc.
Qed.

(** An escape the scanner passed over. *)
Lemma scanEscape_passed c s t rest l u' n u sl N U SL : Forall (λ c, 0 ≤ c ≤ MaxRune) (c :: s) →
  isLineTerminator c = false → scanEscape q (c :: s) = (l, u', t ++ q :: rest) →
  Passed t (n + l) (u || u') (sl || legacyDigit (c :: s)) N U SL → ∃ body, c :: s = body ++ q :: rest ∧ Passed (ch "\" :: body) n u sl N U SL.
Proof using Hq.
  intros HF Hlt E HP. destruct (scanEscape_suffix q c s quote_isQuote) as [w Hw]. rewrite E in Hw. cbn [snd] in Hw.
  exists (c :: w ++ t). split; [cbn; by rewrite <- app_assoc, <- Hw|].
  assert (Forall (λ c, 0 ≤ c ≤ MaxRune) (c :: w ++ t)) as HF'.
  { rewrite Hw in HF. rewrite app_assoc, app_comm_cons in HF. apply Forall_app in HF as [HF _]. done. }
  pose proof (parseEscape_sound _ HF') as HS. destruct (parseEscape false (c :: w ++ t)) as [v r|r| |] eqn:EP; [| |right; by apply Bad_here|done].
  - destruct HS as (e & b & Hs & He & Hv). assert (runeUnits v ≠ []) as Hne by (intros H0; pose proof (runeUnits_pos v); rewrite H0 in *; cbn in *; lia).
    pose proof (proj1 (Escape_quote e r rest _ _) He) as He'. pose proof (scanEscape_spec q _ _ _ _ quote_isQuote He' Hne) as E'.
    destruct (escape_start _ _ _ _ He' Hne) as [_ Hd].
    assert (e ++ r ++ q :: rest = c :: s) as Hes by (rewrite app_assoc, <- Hs, Hw; cbn; by rewrite <- app_assoc).
    rewrite Hes in E', Hd. rewrite E' in E. injection E as <- <- Ht. apply app_inv_tail in Ht as ->. rewrite Hs, Hd in *. by apply (Passed_escape e t (runeUnits v) b).
  - destruct HS as (e & Hs & He). apply (Escape_quote e r rest) in He. destruct (scanNewline_spec _ _ _ He) as (Hl & _).
    replace (chr (e ++ r ++ q :: rest)) with c in Hl; [congruence|]. by rewrite app_assoc, <- Hs.
Qed.

Lemma scanLoop_sound fuel : ∀ s n u sl rest N U SL, Forall (λ c, 0 ≤ c ≤ MaxRune) s →
  scanStringLoop fuel q s n u sl = Some (Closed rest N U SL) → ∃ body, s = body ++ q :: rest ∧ Passed body n u sl N U SL.
Proof using Hq.
  induction fuel as [|fuel IH]; intros s n u sl rest N U SL HF; [done|]. cbn [scanStringLoop].
  replace (q =? "/") with false by (chz; lia). replace (q =? -1) with false by (chz; lia). rewrite !andb_false_r. cbn [andb]. rewrite orb_false_r.
  destruct s as [|c s]; [cbn [chr]; destruct (Z.eqb_spec (-1) q); [chz; lia|done]|]. cbn [chr read tail].
  destruct (Z.eqb_spec c q) as [->|Hcq].
  { intros [= <- <- <- <-]. exists []. split; [done|left]. exists [], false. rewrite Nat.add_0_r, !orb_false_r. split; [constructor|done]. }
  destruct ((c =? LF) || (c =? CR) || (c <? 0)) eqn:El; [done|]. apply Forall_cons in HF as [Hc HF].
  destruct (Z.eqb_spec c "\") as [->|Hcb].
  - destruct (isLineTerminator (chr s) || (chr s <? 0)) eqn:En.
    + intros H. destruct (isLineTerminator (chr s)) eqn:Elt.
      * destruct (newline_escape s Elt) as (e & Hs & He). rewrite Hs in HF. apply Forall_app in HF as [_ HF].
        destruct (IH _ _ _ _ _ _ _ _ HF H) as (body & Hb & HP). rewrite Hs, Hb. exists (ch "\" :: e ++ body). split; [cbn; by rewrite <- app_assoc|].
        rewrite Hb in He. apply Escape_quote in He. eapply Passed_escape; [exact He|]. cbn. by rewrite Nat.add_0_r, !orb_false_r.
      * destruct s as [|d s]; [|apply Forall_inv in HF; cbn in En; lia]. destruct fuel; [done|]. cbn in H.
        destruct Hq as [Hq34|Hq39]; rewrite ?Hq34, ?Hq39 in H; done.
    + destruct (scanEscape q s) as [[l u'] s'] eqn:E. intros H. destruct s as [|d s]; [done|].
      pose proof (scanEscape_suffix q d s quote_isQuote) as [w Hw]. rewrite E in Hw. cbn [snd] in Hw.
      assert (Forall (λ c, 0 ≤ c ≤ MaxRune) s') as HF'.
      { apply Forall_inv_tail in HF. rewrite Hw in HF. by apply Forall_app in HF as [_ HF]. }
      destruct (IH _ _ _ _ _ _ _ _ HF' H) as (t & -> & HP). apply orb_false_iff in En as [En _].
      destruct (scanEscape_passed d s t rest l u' n u sl N U SL HF En E HP) as (body & -> & HB). exists (ch "\" :: body). done.
  - rewrite runeUnits_count by done. intros H. destruct (IH _ _ _ _ _ _ _ _ HF H) as (body & -> & HP). exists (c :: body). split; [done|].
    destruct HP as [(v & b & HS & -> & -> & ->)|HB]; [left|right; by apply Bad_char]. exists (runeUnits c ++ v), b.
    split; [apply SC_char; (done || lia)|]. by rewrite length_app, high_app, Nat.add_assoc, !orb_assoc.
Qed.

Lemma slice_app (a b : list Z) : slice (a ++ b) b = a.
Proof. unfold slice. rewrite length_app, Nat.add_sub. by rewrite take_app_length. Qed.

Lemma scanString_closed body rest n u sl : scanStringLoop (S (length (body ++ q :: rest))) q (body ++ q :: rest) 0 false false = Some (Closed rest n u sl) →
  scanString q true (body ++ q :: rest) =
    Some (let p := parseStringLiteral body n u false in
          StringScan (q :: body ++ [q]) p sl (match p with BadLiteral => true | _ => false end) false rest).
Proof using Type.
  intros E. unfold scanString. rewrite E. cbn [mbind option_bind].
  assert (slice (body ++ q :: rest) rest = body ++ [q]) as -> by (by rewrite cons_middle, app_assoc, slice_app).
  cbn [tail]. by rewrite removelast_last.
Qed.

(** The two outcomes for a text. *)
Lemma scanString_cases s : Forall (λ c, 0 ≤ c ≤ MaxRune) s →
  (∃ body v b rest, s = body ++ q :: rest ∧ StringChars q body v b ∧
     scanString q true s = Some (StringScan (q :: body ++ [q]) (Parsed (uniOf v)) b false false rest)) ∨
  (∃ r, scanString q true s = Some r ∧ string_parsed r = BadLiteral ∧ string_err r = true).
Proof using Hq.
  intros HF. destruct (scanLoop_total (S (length s)) s 0 false false ltac:(lia)) as [e E]. destruct e as [rest n u sl|q' rest].
  2: { right. eexists. unfold scanString. rewrite E. by cbn. }
  destruct (scanLoop_sound _ _ _ _ _ _ _ _ _ HF E) as (body & -> & [(v & b & HS & -> & -> & ->)|HB]); rewrite (scanString_closed _ _ _ _ _ E).
  - left. exists body, v, b, rest. rewrite (parse_good q body v b HS : parseStringLiteral body (0 + length v) (false || high v) false = _). done.
  - right. eexists. rewrite parse_bad by done. done.
Qed.

Lemma scanString_complete body v b rest : StringChars q body v b →
  scanString q true (body ++ q :: rest) = Some (StringScan (q :: body ++ [q]) (Parsed (uniOf v)) b false false rest).
Proof using Hq.
  intros HS. pose proof (scanLoop_chars body v b HS (S (length (body ++ q :: rest))) rest 0 false false) as E.
  rewrite (scanString_closed _ _ _ _ _ (E ltac:(rewrite length_app; lia))).
  by rewrite (parse_good q body v b HS : parseStringLiteral body (0 + length v) (false || high v) false = _).
Qed.
End scanner.

Lemma uniOf_inj v w : uniOf v = uniOf w → v = w.
Proof. unfold uniOf. destruct (high v), (high w); congruence. Qed.

Lemma scalar_range s : Forall isScalar s → Forall (λ c, 0 ≤ c ≤ MaxRune) s.
Proof. intros HF. eapply Forall_impl; [exact HF|]. by intros ? [? _]. Qed.

(** C14: the string literals that the lexer accepts are those of the grammar of
    ECMAScript, each with its value in UTF-16 units, its closing quote and whether
    strict mode forbids it; on no text does parseStringLiteral panic because its
    count of the units differs from the scanner's. *)
Theorem scanString_correct (q : Z) (s : list Z) : q = 34 ∨ q = "'" → Forall isScalar s →
  ∃ r, scanString q true s = Some r ∧ string_parsed r ≠ Panic ∧
    ∀ v b rest, (∃ body, s = body ++ q :: rest ∧ StringChars q body v b) ↔
                string_parsed r = Parsed (uniOf v) ∧ string_sloppy r = b ∧ string_rest r = rest.
Proof.
  intros Hq HF%scalar_range. destruct (scanString_cases q Hq s HF) as [(body & v & b & rest & -> & HS & E)|(r & E & HB & _)].
  - eexists. split; [exact E|]. split; [done|]. intros v' b' rest'. split.
    + intros (body' & Hb & HS'). rewrite Hb, (scanString_complete q Hq _ _ _ _ HS') in E. cbn. split_and!; congruence.
    + cbn. intros (Hv & <- & <-). injection Hv as Hv. apply uniOf_inj in Hv as <-. by exists body.
  - exists r. split; [done|]. split; [congruence|]. intros v b rest. split; [|intros (? & _); congruence].
    intros (body & -> & HS). rewrite (scanString_complete q Hq _ _ _ _ HS) in E. by simplify_eq.
Qed.

(** ["a\x41\u{1F600}\101"; ...]: the value has a surrogate pair. *)
Definition sampleBody : list Z := [97; 92; 120; 52; 49; 92; 117; 123; 49; 70; 54; 48; 48; 125; 92; 49; 48; 49].
Definition sampleValue : list Z := [97; 65; 0xD83D; 0xDE00; 65].

Lemma scanString_correct_witness : ∃ r, scanString 34 true (sampleBody ++ [34; 59]) = Some r ∧ string_parsed r = Parsed (inr (BOM :: sampleValue)) ∧
  string_sloppy r = true ∧ string_rest r = [59].
Proof.
  destruct (scanString_correct 34 (sampleBody ++ [34; 59])) as (r & Hr & _ & Hi); [by left|apply (bool_decide_unpack _); vm_compute; exact I|].
  exists r. split; [exact Hr|]. apply (Hi sampleValue true [59]). exists sampleBody. split; [reflexivity|].
  apply (SC_char _ 97); [vm_compute; split; discriminate|done..|].
  apply (SC_escape _ [120; 52; 49] _ [65] _ false true); [by apply (E_hex 52 49)|].
  apply (SC_escape _ [117; 123; 49; 70; 54; 48; 48; 125] _ [0xD83D; 0xDE00] _ false true).
  - apply (E_braces [49; 70; 54; 48; 48]); [done|by repeat constructor|vm_compute; discriminate].
  - apply (SC_escape _ [49; 48; 49] [] [65] [] true false); [by apply (E_octal3 49 48 49)|constructor].
Defined.

(** ** Regular expressions

    The scanner of strings finds the end of a regular expression too, with -1 for
    the quote inside of a class, which is the character at the end of the text:
    an open class ends the literal there, and at a line end no error is
    reported.  The patterns are [a] and the empty one. *)
Theorem regexp_unclosed_class :
  (∃ r, scanString "/" false [97; 91] = Some r ∧ string_err r = false ∧ string_error r = false ∧ regExpPattern r = [97]) ∧
  (∃ r, scanString "/" false [97; 91; LF] = Some r ∧ string_err r = true ∧ string_error r = false ∧ regExpPattern r = []).
Proof. split; (eexists; split; [vm_compute; reflexivity|split_and!; reflexivity]). Qed.
End LexerStrings.
