(* ===== verification/LexerWords.v ===== *)
(** * Identifiers

    The names of ECMAScript with their escapes, and scanIdentifier: it accepts the
    names of the grammar with their value, and parseStringLiteral does not panic
    on what it passes over.  In the digits of an escape the scanner takes a
    character for the low byte of its code; parseStringLiteral then rejects the
    literal. *)

From S2P Require Import Prelude Utf Strings Base64 Lexer LexerStrings.
From stdpp Require Import strings.
Import Utf Base64 Lexer LexerStrings.
Open Scope Z_scope.

Module LexerWords.
#[local] Open Scope string_scope.
#[local] Open Scope list_scope.
#[local] Open Scope Z_scope.

(** ** Escapes in names *)

Inductive NameEscape : list Z → Z → Prop :=
  | NE_u4 a b c d : isHex a = true → isHex b = true → isHex c = true → isHex d = true → NameEscape [ch "u"; a; b; c; d] (hexValue [a; b; c; d])
  | NE_braces ds : ds ≠ [] → Forall (λ d, isHex d = true) ds → hexValue ds ≤ MaxRune → NameEscape (ch "u" :: ch "{" :: ds ++ [ch "}"]) (hexValue ds).

Lemma NameEscape_Escape e v f : NameEscape e v → Escape e f (runeUnits v) false ∧ 0 ≤ v ≤ MaxRune.
Proof.
  destruct 1 as [a b c d Ha Hb Hc Hd|ds Hne HF Hm].
  - pose proof (hexValue_small [a; b; c; d] 4 ltac:(by repeat constructor) eq_refl) as Hv. change (hexFrom 0) with hexValue in Hv.
    rewrite runeUnits_bmp by lia. split; [by apply E_u4|]. unfold MaxRune. lia.
  - pose proof (hexFrom_le ds 0 ltac:(lia) HF) as Hv. change (hexFrom 0) with hexValue in Hv. split; [by apply E_braces|done].
Qed.

Lemma digit_byte c d : hex2decimal (c mod 256) = Some d → 0 ≤ d < 16 ∧ c ≠ -1 ∧ (isHex c = true → d = digitValue c).
Proof.
  rewrite hex2decimal_spec. destruct (isHex (c mod 256)) eqn:E; [|done]. intros [= <-]. pose proof (isHex_digit _ E). split_and!; [lia..|by intros ->|].
  intros Hc. assert (c mod 256 = c) as ->; [|done]. apply Z.mod_small. pose proof (digitValue_cases c). unfold isHex in Hc. lia.
Qed.

Lemma hex_byte c : isHex c = true → hex2decimal (c mod 256) = Some (digitValue c).
Proof.
  intros Hc. rewrite hex2decimal_spec.
  assert (c mod 256 = c) as -> by (apply Z.mod_small; pose proof (digitValue_cases c); unfold isHex in Hc; lia). by rewrite Hc.
Qed.

Lemma cons_read s : chr s ≠ -1 → s = chr s :: read s.
Proof. by destruct s. Qed.

Lemma identifierDigits_sound n : ∀ v s v' r, 0 ≤ v → identifierDigits n v s = inr (v', r) →
  ∃ ds, length ds = n ∧ read s = ds ++ read r ∧ (Forall (λ d, isHex d = true) ds → v' = hexFrom v ds).
Proof.
  induction n as [|n IH]; intros v s v' r Hv; cbn [identifierDigits]; [intros [= <- <-]; by exists []|].
  destruct (hex2decimal _) as [d|] eqn:E; [|done]. apply digit_byte in E as (Hd & Hc & Hv'). intros H.
  rewrite shift_digit in H by lia. change (2 ^ 4) with 16 in H. apply IH in H as (ds & <- & Hs & Hval); [|lia].
  exists (chr (read s) :: ds). split; [done|]. rewrite (cons_read _ Hc), Hs. split; [done|]. intros [Hx HF]%Forall_cons.
  rewrite (Hval HF). unfold hexFrom. cbn. by rewrite (Hv' Hx).
Qed.

Lemma identifierDigits_complete ds : ∀ v c t, 0 ≤ v → Forall (λ d, isHex d = true) ds →
  ∃ d, identifierDigits (length ds) v (c :: ds ++ t) = inr (hexFrom v ds, d :: t).
Proof.
  induction ds as [|d ds IH]; intros v c t Hv HF; [by exists c|]. apply Forall_cons in HF as [Hd HF].
  cbn [length app identifierDigits read tail chr]. rewrite hex_byte by done. pose proof (isHex_digit _ Hd).
  rewrite shift_digit by lia. change (2 ^ 4) with 16. apply IH; [lia|done].
Qed.

(** The value before the first digit is -1. *)
Definition startValue (v : Z) : Z := if v =? -1 then 0 else v.

Lemma startValue_step v d : -1 ≤ v → 0 ≤ d < 16 → (if v =? -1 then d else Z.lor (Z.shiftl v 4) d) = 16 * startValue v + d.
Proof. intros. unfold startValue. destruct (Z.eqb_spec v (-1)); [lia|]. rewrite shift_digit; lia. Qed.

Lemma startValue_ge v : -1 ≤ v → 0 ≤ startValue v ∧ v ≤ startValue v.
Proof. unfold startValue. destruct (Z.eqb_spec v (-1)); lia. Qed.

Lemma startValue_id v : 0 ≤ v → startValue v = v.
Proof. unfold startValue. destruct (Z.eqb_spec v (-1)); lia. Qed.

Lemma identifierBraces_cons v c s : identifierBraces v (c :: s) =
  if MaxRune <? v then inr (v, c :: s)
  else if chr s =? "}" then inr (v, s)
  else match hex2decimal (chr s mod 256) with
       | None => inl s
       | Some d => identifierBraces (if v =? -1 then d else Z.lor (Z.shiftl v 4) d) s
       end.
Proof. done. Qed.

Lemma identifierBraces_sound s : ∀ v v' r, -1 ≤ v → identifierBraces v s = inr (v', r) →
  ∃ ds, (read s = ds ++ read r ∧ MaxRune < v' ∨ read s = ds ++ ch "}" :: read r ∧ v' ≤ MaxRune) ∧ -1 ≤ v' ∧ (ch "}" ∉ ds) ∧ (ds = [] → v' = v) ∧
        (ds ≠ [] → 0 ≤ v') ∧ (ds ≠ [] → Forall (λ d, isHex d = true) ds → v' = hexFrom (startValue v) ds).
Proof.
  assert (ch "}" ∉ @nil Z) as Hnone by set_solver.
  induction s as [|c s IH]; intros v v' r Hv; cbn [identifierBraces].
  { destruct (Z.ltb_spec MaxRune v); [|done]. intros [= <- <-]. exists []. naive_solver. }
  destruct (Z.ltb_spec MaxRune v) as [Hm|Hm]; [intros [= <- <-]; exists []; naive_solver|].
  destruct (Z.eqb_spec (chr s) "}") as [Es|Es].
  { intros [= <- <-]. exists []. destruct s as [|d s]; [done|]. cbn in Es. subst d. naive_solver. }
  destruct (hex2decimal _) as [d|] eqn:E; [|done]. apply digit_byte in E as (Hd & Hc & Hv'). rewrite startValue_step by lia. intros H.
  pose proof (startValue_ge v Hv).
  apply IH in H as (ds & Hs & Hlo & Hno & Hnil & Hpos & Hval); [|lia]. cbn [read tail]. rewrite (cons_read _ Hc).
  exists (chr s :: ds). split_and!; [|done|by apply not_elem_of_cons|done|intros _|intros _ [Hx HF]%Forall_cons].
  - destruct Hs as [[-> ?]|[-> ?]]; [left|right]; done.
  - destruct (decide (ds = [])) as [->|]; [rewrite Hnil by done; lia|by apply Hpos].
  - rewrite (Hv' Hx) in *. unfold hexFrom at 1. cbn [foldl]. destruct (decide (ds = [])) as [->|Hne]; [by rewrite Hnil|].
    rewrite (Hval Hne HF). unfold startValue at 1. by replace (16 * startValue v + digitValue (chr s) =? -1) with false by lia.
Qed.

Lemma identifierBraces_complete ds : ∀ v c t, -1 ≤ v → Forall (λ d, isHex d = true) ds → hexFrom (startValue v) ds ≤ MaxRune →
  identifierBraces v (c :: ds ++ ch "}" :: t) = inr (match ds with [] => v | _ => hexFrom (startValue v) ds end, ch "}" :: t).
Proof.
  induction ds as [|d ds IH]; intros v c t Hv HF Hm; cbn [app]; rewrite identifierBraces_cons; cbn [chr]; pose proof (startValue_ge v Hv).
  - cbn in Hm. rewrite (proj2 (Z.ltb_ge _ _)) by lia. by rewrite Z.eqb_refl.
  - pose proof (hexFrom_le (d :: ds) _ ltac:(apply H) HF) as Hle. apply Forall_cons in HF as [Hd HF].
    pose proof (isHex_digit _ Hd). pose proof (digitValue_cases d). rewrite (proj2 (Z.ltb_ge _ _)) by lia.
    replace (d =? "}") with false by (chz; lia). rewrite hex_byte, startValue_step by (done || lia).
    unfold hexFrom in *. cbn [foldl] in *. rewrite IH; [|lia|done|by rewrite startValue_id by lia].
    rewrite (startValue_id (16 * startValue v + digitValue d)) by lia. by destruct ds.
Qed.

Lemma parseEscape_bad4 ds t : length ds = 4%nat → ¬ Forall (λ d, isHex d = true) ds → chr (ds ++ t) ≠ "{" → parseEscape false (ch "u" :: ds ++ t) = EscBad.
Proof.
  intros Hl HF Hc. rewrite parseEscape_u, (proj2 (Z.eqb_neq _ _) Hc). cbn [negb].
  destruct (hexDigits 4 0 (ds ++ t)) as [[v r]|] eqn:E; [|done]. apply hexDigits_spec in E as (ds' & Hl' & HF' & Hs & _); [|lia].
  apply app_inj_1 in Hs as [-> _]; [done|congruence].
Qed.

Lemma parseEscape_badBraces ds t : ch "}" ∉ ds → (Forall (λ d, isHex d = true) ds → MaxRune < hexValue ds) →
  parseEscape false (ch "u" :: ch "{" :: ds ++ t) = EscBad.
Proof.
  intros Hn Hm. rewrite parseEscape_u. cbn [chr read tail]. rewrite Z.eqb_refl. cbn [negb].
  destruct (hexBraces false 0 (ds ++ t)) as [[v r]|] eqn:E; [|done]. exfalso.
  apply hexBraces_spec in E as (ds' & Hne & HF' & Hs & -> & Hx); [|unfold MaxRune; lia]. symmetry in Hs.
  apply app_cons_split in Hs as [(a & -> & ->)|(b' & -> & ->)]; [set_solver|].
  apply Forall_app in HF' as [HF HF']. specialize (Hm HF). unfold hexFrom in Hx. rewrite foldl_app in Hx.
  pose proof (hexFrom_le b' (hexValue ds) ltac:(unfold MaxRune in *; lia) HF'). unfold hexFrom, hexValue in *. lia.
Qed.

Section names.
Context {U : UnicodeTables}.

(** The characters of a name; a character that is not escaped is not checked to
    start one. *)
Definition nameChar (first : bool) (c : Z) : bool := if first then isIdentifierStart c else isIdentifierPart c.

Inductive NameChars : bool → list Z → list Z → bool → Prop :=
  | NC_nil f : NameChars f [] [] false
  | NC_char f (c : Z) t v b : c ≠ "\" → isIdentifierPart c = true → NameChars false t v b → NameChars f (c :: t) (c :: v) b
  | NC_escape f e (x : Z) t v b : NameEscape e x → x ≠ "\" → nameChar f x = true → NameChars false t v b →
      NameChars f (ch "\" :: e ++ t) (x :: v) true.

Lemma part_plain c : isIdentifierPart c = true → 0 ≤ c ∧ c ≠ 34 ∧ c ≠ LF ∧ c ≠ CR.
Proof. unfold isIdentifierPart, between. chz. lia. Qed.

Lemma name_string f body v b : Forall (λ c, 0 ≤ c ≤ MaxRune) body → NameChars f body v b → StringChars 34 body (runesUnits v) false.
Proof.
  intros HF. induction 1 as [f|f c t v b Hc Hp _ IH|f e x t v b He Hx _ _ IH]; [constructor| |].
  - apply Forall_cons in HF as [Hr HF]. destruct (part_plain c Hp) as (_ & ? & ? & ?). unfold runesUnits in *. cbn. by apply SC_char; auto.
  - apply Forall_cons in HF as [_ [_ HF]%Forall_app]. destruct (NameEscape_Escape e x (chr t) He) as [HE _].
    unfold runesUnits in *. cbn. apply (SC_escape 34 e t _ _ false false); auto.
Qed.

(** An escape the scanner passed over: the value of the grammar, or
    parseStringLiteral rejects it. *)
Lemma identifierEscape_sound f s v r : identifierEscape f (ch "\" :: s) = inr (v, r) →
  ∃ e, s = e ++ read r ∧ v ≠ "\" ∧ nameChar f v = true ∧ (NameEscape e v ∨ ∀ t, parseEscape false (e ++ t) = EscBad).
Proof.
  unfold identifierEscape. cbn [read tail]. destruct (Z.eqb_spec (chr s) "u") as [Es|]; [cbn [negb]|done]. destruct s as [|c s]; [done|].
  cbn in Es. subst c. unfold peekChr. cbn [read tail].
  intros H. assert (∃ v' r', (if chr s =? "{" then match identifierBraces (-1) s with inr (v, s) => if v =? -1 then inl s else inr (v, s) | inl s => inl s end
    else identifierDigits 4 0 (ch "u" :: s)) = inr (v', r')) as (v' & r' & E).
  { destruct (if chr s =? "{" then _ else _) as [?|[v' r']]; [done|by exists v', r']. }
  rewrite E in H. destruct (Z.eqb_spec v' "\") as [|Hv]; [done|].
  assert (nameChar f v' = true ∧ v' = v ∧ r' = r) as (Hn & -> & ->).
  { unfold nameChar. destruct f; [destruct (isIdentifierStart v')|destruct (isIdentifierPart v')]; simplify_eq/=; done. }
  clear H. destruct (Z.eqb_spec (chr s) "{") as [Ec|Ec].
  - destruct (identifierBraces (-1) s) as [|[w q]] eqn:EB; [done|]. destruct (Z.eqb_spec w (-1)) as [|Hw]; [done|]. simplify_eq.
    destruct s as [|c s]; [done|]. cbn in Ec. subst c. apply identifierBraces_sound in EB as (ds & Hs & _ & Hno & Hnil & _ & Hval); [|lia].
    cbn [read tail] in Hs. assert (ds ≠ []) as Hne by (intros ->; by destruct Hw; apply Hnil). specialize (Hval Hne).
    change (hexFrom (startValue (-1))) with hexValue in Hval. destruct Hs as [[-> Hm]|[-> Hm]].
    + exists (ch "u" :: ch "{" :: ds). split_and!; try done. right. intros t. apply parseEscape_badBraces; [done|]. intros HF. by rewrite <- Hval.
    + exists (ch "u" :: ch "{" :: ds ++ [ch "}"]). split_and!; try done; [cbn; by rewrite <- app_assoc|].
      destruct (decide (Forall (λ d, isHex d = true) ds)) as [HF|HF]; [left; rewrite (Hval HF) in *; by constructor|right].
      intros t. cbn [app]. rewrite <- app_assoc. by apply parseEscape_badBraces.
  - apply identifierDigits_sound in E as (ds & Hl & Hs & Hval); [|lia]. cbn [read tail] in Hs. subst s. exists (ch "u" :: ds). split_and!; try done.
    destruct (decide (Forall (λ d, isHex d = true) ds)) as [HF|HF]; [left|right].
    + rewrite (Hval HF). destruct ds as [|a [|b [|c [|d [|? ?]]]]]; try done. rewrite !Forall_cons in HF. apply NE_u4; naive_solver.
    + intros t. cbn [app]. apply parseEscape_bad4; try done. by destruct ds.
Qed.

Lemma identifierEscape_complete f e x t : NameEscape e x → x ≠ "\" → nameChar f x = true → ∃ d, identifierEscape f (ch "\" :: e ++ t) = inr (x, d :: t).
Proof.
  intros He Hx Hn.
  assert (∀ s d, (if chr s =? "{" then match identifierBraces (-1) s with inr (v, s) => if v =? -1 then inl s else inr (v, s) | inl s => inl s end
    else identifierDigits 4 0 (ch "u" :: s)) = inr (x, d :: t) → ∃ d, identifierEscape f (ch "\" :: ch "u" :: s) = inr (x, d :: t)) as Hi.
  { intros s d E. exists d. unfold identifierEscape, peekChr. cbn [read tail chr]. rewrite Z.eqb_refl. cbn [negb]. rewrite E.
    rewrite (proj2 (Z.eqb_neq _ _) Hx). unfold nameChar in Hn. destruct f; by rewrite Hn. }
  destruct He as [a b c d Ha Hb Hc Hd|ds Hne HF Hm].
  - destruct (identifierDigits_complete [a; b; c; d] 0 (ch "u") t ltac:(lia) ltac:(by repeat constructor)) as [z Hz]. apply (Hi _ z).
    cbn [app chr]. replace (a =? "{") with false by (pose proof (digitValue_cases a); preds; lia). exact Hz.
  - cbn [app]. rewrite <- app_assoc. cbn [app]. apply (Hi _ (ch "}")). cbn [chr]. rewrite Z.eqb_refl.
    rewrite identifierBraces_complete by (done || lia). change (hexFrom (startValue (-1))) with hexValue.
    pose proof (hexFrom_le ds 0 ltac:(lia) HF) as Hge. change (hexFrom 0) with hexValue in Hge. destruct ds as [|d ds]; [done|].
    by rewrite (proj2 (Z.eqb_neq _ _)) by lia.
Qed.

Lemma NameEscape_cons e x : NameEscape e x → (1 ≤ length e)%nat.
Proof. destruct 1; cbn; lia. Qed.

Lemma identifierLoop_complete f body v b : NameChars f body v b → ∀ fuel rest n he u, (length body < fuel)%nat → isIdentifierPart (chr rest) = false →
  Forall (λ c, 0 ≤ c ≤ MaxRune) body →
  scanIdentifierLoop fuel f (body ++ rest) n he u =
    Some (inr (IdentifierEnd rest (n + length (runesUnits v)) (he || b) (u || high (runesUnits v)))).
Proof.
  induction 1 as [f|f c t v b Hc Hp _ IH|f e x t v b He Hx Hn _ IH]; intros fuel rest n he u Hl Hr HF; (destruct fuel as [|fuel]; [cbn in Hl; lia|]);
    cbn [scanIdentifierLoop app].
  - rewrite Hr. cbn. by rewrite Nat.add_0_r, !orb_false_r.
  - apply Forall_cons in HF as [Hcr HF]. cbn [chr]. rewrite Hp, (proj2 (Z.eqb_neq _ _) Hc), orb_false_r. cbv iota beta. cbn [read tail].
    rewrite runeUnits_count by done. cbn in Hl. rewrite IH by (done || lia). unfold runesUnits. cbn. by rewrite length_app, high_app, Nat.add_assoc, orb_assoc.
  - cbn [chr]. change (isIdentifierPart "\") with true. rewrite Z.eqb_refl, <- app_assoc. cbv iota.
    destruct (identifierEscape_complete f e x (t ++ rest) He Hx Hn) as [d ->]. destruct (NameEscape_Escape e x 0 He) as [_ Hxr].
    rewrite runeUnits_count by done. cbn [length] in Hl. rewrite length_app in Hl. apply Forall_cons in HF as [_ [_ HF]%Forall_app].
    cbn [read tail]. rewrite IH by (done || lia). unfold runesUnits. cbn. rewrite length_app, high_app, Nat.add_assoc, orb_assoc.
    by rewrite orb_true_r.
Qed.

(** What the loop passes over. *)
Definition NamePassed (f : bool) (body : list Z) (n : nat) (he u : bool) (e : identifierEnd) : Prop :=
  (∃ v b, NameChars f body v b ∧ identifier_length e = (n + length (runesUnits v))%nat ∧ identifier_escape e = he || b ∧
          identifier_unicode e = u || high (runesUnits v)) ∨
  Bad body ∧ identifier_escape e = true.

Lemma identifierLoop_escape fuel : ∀ f s n u e, scanIdentifierLoop fuel f s n true u = Some (inr e) → identifier_escape e = true.
Proof.
  induction fuel as [|fuel IH]; intros f s n u e; [done|]. cbn [scanIdentifierLoop]. destruct (isIdentifierPart (chr s)); [|by intros [= <-]].
  case_match; [done|]. destruct p as [v r]. destruct (unitCount v). cbn [orb]. apply IH.
Qed.

Lemma identifierLoop_sound fuel : ∀ f s n he u e, Forall (λ c, 0 ≤ c ≤ MaxRune) s → scanIdentifierLoop fuel f s n he u = Some (inr e) →
  ∃ body, s = body ++ identifier_rest e ∧ isIdentifierPart (chr (identifier_rest e)) = false ∧ NamePassed f body n he u e.
Proof.
  induction fuel as [|fuel IH]; intros f s n he u e HF; [done|]. cbn [scanIdentifierLoop]. destruct (isIdentifierPart (chr s)) eqn:Ep.
  2: { intros [= <-]. exists []. split_and!; [done|done|]. left. exists [], false. cbn. rewrite Nat.add_0_r, !orb_false_r. split; [constructor|done]. }
  destruct s as [|c s]; [done|]. cbn [chr] in *. destruct (Z.eqb_spec c "\") as [->|Hc].
  - destruct (identifierEscape f _) as [|[v r]] eqn:E; [done|]. apply identifierEscape_sound in E as (w & -> & Hv & Hn & Hw).
    destruct (unitCount v) as [l u'] eqn:Eu. intros H. rewrite orb_true_r in H. pose proof (identifierLoop_escape _ _ _ _ _ _ H) as Hesc.
    assert (Forall (λ c, 0 ≤ c ≤ MaxRune) (read r)) as HF' by (apply Forall_cons in HF as [_ HF]; by apply Forall_app in HF as [_ HF]).
    destruct (IH _ _ _ _ _ _ HF' H) as (body & Hb & Hr & HP). exists (ch "\" :: w ++ body). rewrite Hb. split; [cbn; by rewrite <- app_assoc|]. split; [done|].
    destruct Hw as [Hw|Hw]; [|right; split; [apply Bad_here, Hw|done]]. destruct (NameEscape_Escape w v (chr body) Hw) as [He Hvr].
    rewrite runeUnits_count in Eu by done. injection Eu as <- <-. unfold NamePassed. destruct HP as [(v' & b & HN & -> & _ & ->)|[HB _]].
    + left. exists (v :: v'), true. unfold runesUnits. cbn. rewrite length_app, high_app, Nat.add_assoc, orb_assoc, orb_true_r. split; [|done].
      by eapply NC_escape.
    + right. split; [|done]. by eapply Bad_escape.
  - apply Forall_cons in HF as [Hcr HF]. rewrite runeUnits_count by done. cbn [read tail]. rewrite orb_false_r. intros H.
    destruct (IH _ _ _ _ _ _ HF H) as (body & -> & Hr & HP). exists (c :: body). split_and!; [done|done|].
    unfold NamePassed. destruct HP as [(v' & b & HN & -> & -> & ->)|[HB ?]]; [left|right; split; [by apply Bad_char|done]].
    exists (c :: v'), b. unfold runesUnits. cbn. rewrite length_app, high_app, Nat.add_assoc, orb_assoc. split; [by apply NC_char|done].
Qed.

(** The loop ends: each round reads a character. *)
Lemma identifierBraces_suffix s : ∀ v v' r, identifierBraces v s = inr (v', r) → r `suffix_of` s.
Proof.
  induction s as [|c s IH]; intros v v' r; cbn [identifierBraces]; [case_match; [by intros [= <- <-]|done]|].
  case_match; [by intros [= <- <-]|]. case_match; [intros [= <- <-]; by apply suffix_cons_r|]. case_match; [|done].
  intros ?%IH. by apply suffix_cons_r.
Qed.

Lemma identifierDigits_suffix n : ∀ v s v' r, identifierDigits n v s = inr (v', r) → r `suffix_of` s.
Proof.
  induction n as [|n IH]; intros v s v' r; cbn [identifierDigits]; [by intros [= <- <-]|]. case_match; [|done].
  intros ?%IH. etrans; [done|apply suffix_read].
Qed.

Lemma identifierEscape_suffix f c s v r : identifierEscape f (c :: s) = inr (v, r) → r `suffix_of` s.
Proof.
  unfold identifierEscape. cbn [read tail]. case_match; [done|]. intros Hr.
  destruct (if peekChr s =? "{" then _ else _) as [|[v' r']] eqn:E; [done|]. assert (r' = r) as -> by (repeat case_match; simplify_eq; done). clear Hr.
  destruct (peekChr s =? "{").
  - destruct (identifierBraces (-1) (read s)) as [|[v0 r0]] eqn:EB; [done|]. case_match; simplify_eq. apply identifierBraces_suffix in EB.
    etrans; [done|apply suffix_read].
  - by eapply identifierDigits_suffix.
Qed.

Lemma identifierLoop_total fuel : ∀ f s n he u, (length s < fuel)%nat → is_Some (scanIdentifierLoop fuel f s n he u).
Proof.
  induction fuel as [|fuel IH]; intros f s n he u Hl; [lia|]. cbn [scanIdentifierLoop]. destruct (isIdentifierPart (chr s)) eqn:Ep; [|done].
  destruct s as [|c s]; [done|]. cbn in Hl. cbn [chr]. destruct (c =? "\").
  - destruct (identifierEscape f (c :: s)) as [|[v r]] eqn:E; [done|]. destruct (unitCount v). apply IH.
    apply identifierEscape_suffix, suffix_length in E. pose proof (suffix_length _ _ (suffix_read r)). lia.
  - destruct (unitCount c). cbn [read tail]. apply IH. lia.
Qed.

(** A name that is ASCII and has no escape is its own value. *)
Lemma plain_name f body v : NameChars f body v false → v = body.
Proof.
  intros HN. remember false as b eqn:Eb in HN at 1. revert Eb. induction HN as [| |]; intros; [done| |done]. by rewrite IHHN.
Qed.

Lemma identifier_parsed body v b : Forall (λ c, 0 ≤ c ≤ MaxRune) body → NameChars true body v b →
  (if b || high (runesUnits v) then parseStringLiteral body (length (runesUnits v)) (high (runesUnits v)) false else Parsed (inl body)) =
  Parsed (uniOf (runesUnits v)).
Proof.
  intros HF HN. rewrite (parse_good 34 body (runesUnits v) false) by (by eapply name_string).
  destruct b; [done|]. cbn [orb]. destruct (high (runesUnits v)) eqn:Eh; [done|]. unfold uniOf. rewrite Eh.
  rewrite (plain_name _ _ _ HN) in *. f_equal. f_equal. revert Eh HF. clear. unfold runesUnits. induction body as [|c body IH]; [done|]. cbn.
  rewrite high_app. intros [H1 H2]%orb_false_iff [Hc HF]%Forall_cons. rewrite high_rune in H1 by done. rewrite low_rune by lia. cbn. by rewrite <- IH.
Qed.

(** The outcomes for a text. *)
Lemma scanIdentifier_cases s : Forall (λ c, 0 ≤ c ≤ MaxRune) s →
  (∃ body v b rest, s = body ++ rest ∧ NameChars true body v b ∧ isIdentifierPart (chr rest) = false ∧
     scanIdentifier s = Some (IdentifierScan body (Parsed (uniOf (runesUnits v))) b rest)) ∨
  (∃ w, scanIdentifier s = Some w ∧ ident_parsed w = BadLiteral).
Proof.
  intros HF. unfold scanIdentifier. destruct (identifierLoop_total (S (length s)) true s 0 false false ltac:(lia)) as [[rest|e] E]; rewrite E; cbn [mbind option_bind].
  { right. by eexists. }
  destruct (identifierLoop_sound _ _ _ _ _ _ _ HF E) as (body & Hs & Hr & HP).
  assert (slice s (identifier_rest e) = body) as Hsl by (rewrite Hs at 1; apply slice_app). rewrite Hsl.
  destruct HP as [(v & b & HN & Hl & He & Hu)|[HB He]].
  - left. exists body, v, b, (identifier_rest e). split_and!; [done..|]. rewrite Hl, He, Hu. cbn [orb Nat.add].
    rewrite identifier_parsed; [done| |done]. rewrite Hs in HF. by apply Forall_app in HF as [HF _].
  - right. rewrite He. cbn [orb]. rewrite parse_bad by done. by eexists.
Qed.

Lemma scanIdentifier_complete body v b rest : Forall (λ c, 0 ≤ c ≤ MaxRune) body → NameChars true body v b → isIdentifierPart (chr rest) = false →
  scanIdentifier (body ++ rest) = Some (IdentifierScan body (Parsed (uniOf (runesUnits v))) b rest).
Proof.
  intros HF HN Hr. unfold scanIdentifier. rewrite (identifierLoop_complete _ _ _ _ HN) by (rewrite ?length_app; done || lia).
  cbn [mbind option_bind identifier_rest identifier_length identifier_escape identifier_unicode orb Nat.add]. by rewrite slice_app, identifier_parsed.
Qed.
End names.
End LexerWords.
