(* ===== verification/LexerBlanks.v ===== *)
(** * White space and comments

    The text between two tokens, as a relation: white space, line ends and the
    comments of ECMAScript with those of Annex B.  The scanner skips it whatever
    the flags are, and the flags follow from where the line ends are. *)

From S2P Require Import Prelude Utf Strings Lexer LexerStrings.
From stdpp Require Import strings.
Import Utf Lexer LexerStrings.
Open Scope Z_scope.

Module LexerBlanks.
#[local] Open Scope string_scope.
#[local] Open Scope list_scope.
#[local] Open Scope Z_scope.

Definition lineFree (b : list Z) : Prop := Forall (λ c, isLineTerminator c = false) b.
Definition atLineEnd (s : list Z) : Prop := s = [] ∨ isLineTerminator (chr s) = true.
Definition hasLineEnd (b : list Z) : bool := existsb isLineTerminator b.

Section blanks.
Context {U : UnicodeTables} {laws : UnicodeLaws U} (module : bool) (text start : list Z).

(** From [s] to [s1] there are only blanks, with a line end outside of comments
    ([nl]) or inside of one ([cn]). *)
Inductive Gap : list Z → list Z → bool → bool → Prop :=
  | G_end s : Gap s s false false
  | G_space c s s1 nl cn : isSpaceChr c = true → Gap s s1 nl cn → Gap (c :: s) s1 nl cn
  | G_line c s s1 nl cn : isLineTerminator c = true → Gap s s1 nl cn → Gap (c :: s) s1 true cn
  | G_single b s s1 nl cn : lineFree b → atLineEnd s → Gap s s1 nl cn → Gap (ch "/" :: ch "/" :: b ++ s) s1 nl cn
  | G_multi b s s1 nl cn : (∀ b1 b2, b ++ [ch "*"] ≠ b1 ++ ch "*" :: ch "/" :: b2) → Gap s s1 nl cn →
      Gap (ch "/" :: ch "*" :: b ++ ch "*" :: ch "/" :: s) s1 nl (hasLineEnd b || cn)
  | G_open b s s1 nl cn : module = false → lineFree b → atLineEnd s → Gap s s1 nl cn →
      Gap (ch "<" :: ch "!" :: ch "-" :: ch "-" :: b ++ s) s1 nl cn
  | G_close b s s1 nl cn : module = false → lineFree b → atLineEnd s →
      (length start = length text ∨ hasLineEnd (slice start (ch "-" :: ch ">" :: b ++ s)) = true) →
      Gap s s1 nl cn → Gap (ch "-" :: ch "-" :: ch ">" :: b ++ s) s1 nl cn
  | G_shebang b s s1 nl cn : lineFree b → atLineEnd s → length text = length (ch "#" :: ch "!" :: b ++ s) →
      Gap s s1 nl cn → Gap (ch "#" :: ch "!" :: b ++ s) s1 nl cn.

(** ** Comments *)

Lemma toLineEnd_spec s : ∃ b, s = b ++ toLineEnd s ∧ lineFree b ∧ atLineEnd (toLineEnd s).
Proof.
  induction s as [|c s (b & Hs & Hb & He)]; [exists []; split_and!; [done|constructor|by left]|]. cbn.
  destruct (isLineTerminator c) eqn:E; [exists []; split_and!; [done|constructor|by right]|].
  exists (c :: b). split_and!; [cbn; by f_equal|by constructor|done].
Qed.

Lemma star_alone b1 b2 : [] ++ [ch "*"] ≠ b1 ++ ch "*" :: ch "/" :: b2.
Proof. intros Hx%(f_equal length). rewrite !length_app in Hx. cbn in Hx. lia. Qed.

Lemma star_cons c s b r b1 b2 : (c =? "*") && (chr s =? "/") = false → s = b ++ ch "*" :: r → (∀ b1 b2, b ++ [ch "*"] ≠ b1 ++ ch "*" :: ch "/" :: b2) →
  (c :: b) ++ [ch "*"] ≠ b1 ++ ch "*" :: ch "/" :: b2.
Proof.
  intros E -> Hn Hx. destruct b1 as [|d b1]; cbn in Hx; injection Hx as -> Hx; [|by apply Hn in Hx].
  rewrite Z.eqb_refl in E. destruct b as [|d b]; cbn in Hx; injection Hx as Hd _; [by vm_compute in Hd|]. subst d. by vm_compute in E.
Qed.

Lemma commentEnd_spec s r : commentEnd s = Some r → ∃ b, s = b ++ ch "*" :: ch "/" :: r ∧ ∀ b1 b2, b ++ [ch "*"] ≠ b1 ++ ch "*" :: ch "/" :: b2.
Proof.
  induction s as [|c s IH]; [done|]. cbn [commentEnd].
  destruct ((c =? "*") && (chr s =? "/")) eqn:E.
  - apply andb_true_iff in E as [->%Z.eqb_eq Ec%Z.eqb_eq]. destruct s as [|d s]; [done|]. cbn in Ec. subst d. intros [= <-].
    exists []. split; [done|]. apply star_alone.
  - intros H. destruct (IH H) as (b & Hs & Hb). exists (c :: b). split; [by rewrite Hs|]. intros b1 b2. by eapply star_cons.
Qed.

Lemma commentLine_spec s : ∀ le r, commentLine s = (le, Some r) →
  ∃ b, s = b ++ ch "*" :: ch "/" :: r ∧ le = hasLineEnd b ∧ ∀ b1 b2, b ++ [ch "*"] ≠ b1 ++ ch "*" :: ch "/" :: b2.
Proof.
  induction s as [|c s IH]; intros le r; [done|]. cbn [commentLine]. destruct (isLineTerminator c) eqn:El.
  - intros [= <- H]. destruct (commentEnd_spec (c :: s) _ H) as (b & Hb & Hn). exists b. split_and!; [done| |done].
    destruct b as [|d b]; cbn in Hb; [injection Hb as -> _; by vm_compute in El|]. injection Hb as -> _. cbn. by rewrite El.
  - destruct ((c =? "*") && (chr s =? "/")) eqn:E.
    + intros [= <- <-]. destruct (commentEnd_spec (c :: s) (read s)) as (b & Hb & Hn); [cbn; by rewrite E|].
      apply andb_true_iff in E as [->%Z.eqb_eq Ec%Z.eqb_eq]. destruct s as [|d s]; [done|]. cbn in Ec. subst d.
      exists []. split_and!; [done..|]. apply star_alone.
    + intros H. destruct (IH _ _ H) as (b & Hb & -> & Hn). exists (c :: b). split_and!; [by rewrite Hb|cbn; by rewrite El|].
      intros b1 b2. by eapply star_cons.
Qed.

(** A comment of a line, from its second character on. *)
Lemma single_spec c s : ∃ b, s = b ++ skipSingleLineComment (c :: s) ∧ lineFree b ∧ atLineEnd (skipSingleLineComment (c :: s)).
Proof. apply toLineEnd_spec. Qed.

Lemma chr_cons s c : chr s = c → 0 ≤ c → s = c :: read s.
Proof. destruct s as [|d s]; cbn; [lia|]. by intros ->. Qed.

(** After the first characters of a comment the rest of it follows. *)
Lemma single_after d s b r : s = b ++ r → lineFree b → isLineTerminator d = false → chr s = d → 0 ≤ d → atLineEnd r →
  ∃ b', b = d :: b' ∧ lineFree b'.
Proof.
  intros -> Hb Hd Hc H0 Hr. destruct b as [|e b]; cbn in Hc.
  - destruct Hr as [->|Hr]; cbn in *; [lia|congruence].
  - subst. exists b. by apply Forall_cons in Hb as [_ Hb].
Qed.

Lemma blankAt_gap c s r le s1 nl cn : blankAt module text start c s = Some (r, le, false) → isLineTerminator c = false → Gap r s1 nl cn →
  Gap (c :: s) s1 nl (le || cn).
Proof.
  unfold blankAt. intros H El HG. rewrite El in H. destruct (isIdentifierStart c); [done|].
  repeat match type of H with context [if ?b then _ else _] => destruct b eqn:? end; simplify_eq;
    repeat match goal with
    | H : _ && _ = true |- _ => apply andb_true_iff in H as [? ?]
    | H : negb _ = true |- _ => apply negb_true_iff in H
    | H : (_ =? _) = true |- _ => apply Z.eqb_eq in H
    | H : Nat.eqb _ _ = true |- _ => apply Nat.eqb_eq in H
    end; subst c; try (destruct s as [|d s]; [done|]; cbn [chr read tail peekChr] in *; subst d; destruct (single_spec (ch "/") s) as (b & Hb & HF & He);
      cbn [skipSingleLineComment] in *).
  - revert HG Hb He. generalize (toLineEnd s). intros r HG -> He. destruct (single_after (ch ">") (b ++ r) b r) as (b' & -> & Hb'); try done.
    apply G_close; try done. apply orb_true_iff in H0 as [H0%Nat.eqb_eq|H0]; [by left|by right].
  - rewrite Hb. by apply G_single.
  - unfold skipMultiLineComment in H. cbn [read tail] in H. destruct (commentLine s) as [le' [r'|]] eqn:E; [|done]. simplify_eq.
    destruct (commentLine_spec _ _ _ E) as (b' & -> & -> & Hn). by apply G_multi.
  - revert HG Hb He. generalize (toLineEnd s). intros r HG -> He. destruct (single_after (ch "-") (b ++ r) b r) as (b' & -> & Hb'); try done.
    destruct (single_after (ch "-") (b' ++ r) b' r) as (b'' & -> & Hb''); try done. by apply G_open.
  - revert HG Hb He. generalize (toLineEnd s). intros r HG -> He. by apply G_shebang.
Qed.

Lemma toLineEnd_suffix s : toLineEnd s `suffix_of` s.
Proof. destruct (toLineEnd_spec s) as (b & Hb & _). by exists b. Qed.

Lemma commentEnd_suffix s r : commentEnd s = Some r → r `suffix_of` s.
Proof. intros (b & -> & _)%commentEnd_spec. exists (b ++ [ch "*"; ch "/"]). by rewrite <- app_assoc. Qed.

Lemma commentLine_suffix s r le : commentLine s = (le, Some r) → r `suffix_of` s.
Proof. intros (b & -> & _)%commentLine_spec. exists (b ++ [ch "*"; ch "/"]). by rewrite <- app_assoc. Qed.

Lemma single_suffix s : skipSingleLineComment s `suffix_of` s.
Proof. destruct s as [|c s]; [done|]. apply suffix_cons_r, toLineEnd_suffix. Qed.

Lemma blankAt_suffix c s r le bad : blankAt module text start c s = Some (r, le, bad) → r `suffix_of` s.
Proof.
  unfold blankAt. intros H. repeat match type of H with context [if ?b then _ else _] => destruct b end; simplify_eq; try done; try apply single_suffix.
  unfold skipMultiLineComment in H. destruct (commentLine (read s)) as [le' [r'|]] eqn:E; simplify_eq; [|apply suffix_nil].
  cbn. etrans; [by eapply commentLine_suffix|apply suffix_read].
Qed.

(** ** White space *)

(** Up to a line end. *)
Lemma skip_true_gap s s1 nl cn : Gap (skipWhiteSpace true s) s1 nl cn → (isLineTerminator (chr (skipWhiteSpace true s)) = true → nl = true) → Gap s s1 nl cn.
Proof.
  induction s as [|c s IH]; [done|]. cbn [skipWhiteSpace]. destruct (isLineTerminator c) eqn:El.
  - destruct ((c =? CR) && (chr s =? LF)) eqn:E; [|done]. intros HG Hn. apply andb_true_iff in E as [_ E%Z.eqb_eq]. rewrite Hn; [|by rewrite E].
    by eapply G_line.
  - destruct (isSpaceChr c) eqn:Es; [|done]. intros HG Hn. apply G_space; [done|]. by apply IH.
Qed.

Lemma skip_true_suffix s : skipWhiteSpace true s `suffix_of` s.
Proof.
  induction s as [|c s IH]; [done|]. cbn [skipWhiteSpace]. repeat case_match; try done; by apply suffix_cons_r.
Qed.

(** Past a line end the two agree. *)
Lemma skip_line s c s' : skipWhiteSpace true s = c :: s' → isLineTerminator c = true → skipWhiteSpace false s = skipWhiteSpace false s'.
Proof.
  induction s as [|d s IH]; [done|]. cbn [skipWhiteSpace]. destruct (isLineTerminator d) eqn:El.
  - destruct ((d =? CR) && (chr s =? LF)) eqn:E; [|by intros [= -> ->]]. intros -> Hc. cbn [skipWhiteSpace]. by rewrite Hc.
  - destruct (isSpaceChr d); [done|]. intros [= -> ->] ?. congruence.
Qed.

Lemma skip_same s : isLineTerminator (chr (skipWhiteSpace true s)) = false → skipWhiteSpace false s = skipWhiteSpace true s.
Proof.
  induction s as [|c s IH]; [done|]. cbn [skipWhiteSpace]. destruct (isLineTerminator c) eqn:El.
  - destruct ((c =? CR) && (chr s =? LF)) eqn:E; cbn; [|congruence]. apply andb_true_iff in E as [_ ->%Z.eqb_eq]. done.
  - destruct (isSpaceChr c); [done|]. done.
Qed.

Lemma line_not_start c : isLineTerminator c = true → isIdentifierStart c = false.
Proof.
  intros Hc. unfold isIdentifierStart, isIdStartUnicode, between. assert (c = 10 ∨ c = 13 ∨ c = 0x2028 ∨ c = 0x2029) as Hc' by (preds; lia).
  destruct Hc' as [-> | [-> | [-> | ->]]]; [done..| |]; rewrite ?lineSeparator_neg, ?paragraphSeparator_neg; by rewrite !andb_false_r.
Qed.

(** ** The loop *)

Definition flagsAfter (s1 : list Z) (nl cn e ins imp err : bool) : blanks :=
  Blanks s1 (ins && negb nl && negb cn) (imp || ins && nl || cn) (err || e).

Lemma skipBlanks_spec : ∀ s, ∃ s1 nl cn e, s1 `suffix_of` s ∧ (e = false → Gap s s1 nl cn) ∧
  ∀ fuel ins imp err, (length s < fuel)%nat → skipBlanks module fuel text start s ins imp err = Some (flagsAfter s1 nl cn e ins imp err).
Proof.
  intros s. induction s as [s IH] using (induction_ltof1 _ length). unfold ltof in IH.
  pose proof (skip_true_suffix s) as Hsuf. destruct (isLineTerminator (chr (skipWhiteSpace true s))) eqn:El.
  - destruct (skipWhiteSpace true s) as [|c s'] eqn:Es; [done|]. cbn in El. pose proof (suffix_length _ _ Hsuf) as Hlen. cbn in Hlen.
    destruct (IH s' ltac:(lia)) as (s1 & nl & cn & e & Hs1 & HG & HB). exists s1, true, cn, e. split_and!.
    + etrans; [exact Hs1|]. etrans; [|exact Hsuf]. by apply suffix_cons_r.
    + intros He. apply skip_true_gap; rewrite Es; [|done]. eapply G_line; [done|by apply HG].
    + intros [|fuel] ins imp err Hf; [lia|]. destruct ins.
      * cbn [skipBlanks]. rewrite Es. unfold blankAt. rewrite line_not_start, El by done. rewrite HB by lia.
        unfold flagsAfter. by destruct imp, err.
      * specialize (HB (S fuel) false imp err ltac:(lia)). cbn [skipBlanks] in HB |- *. rewrite (skip_line s c s' Es El). exact HB.
  - pose proof (skip_same s El) as Hsame. assert (∀ ins : bool, skipWhiteSpace ins s = skipWhiteSpace true s) as Hws by (by intros []).
    pose proof (suffix_length _ _ Hsuf) as Hlen.
    destruct (skipWhiteSpace true s) as [|c s'] eqn:Es.
    { exists [], false, false, false. split_and!; [apply suffix_nil|intros _; apply skip_true_gap; rewrite Es; [constructor|done]|].
      intros [|fuel] ins imp err Hf; [lia|]. cbn [skipBlanks]. rewrite Hws. unfold flagsAfter. cbn. by rewrite !andb_true_r, andb_false_r, !orb_false_r. }
    cbn in El, Hlen. destruct (blankAt module text start c s') as [[[r le] bad]|] eqn:Eb.
    + pose proof (blankAt_suffix _ _ _ _ _ Eb) as Hr. pose proof (suffix_length _ _ Hr).
      destruct (IH r ltac:(lia)) as (s1 & nl & cn & e & Hs1 & HG & HB). exists s1, nl, (le || cn), (bad || e). split_and!.
      * etrans; [exact Hs1|]. etrans; [exact Hr|]. etrans; [|exact Hsuf]. by apply suffix_cons_r.
      * intros [-> He]%orb_false_iff. apply skip_true_gap; rewrite Es; [|cbn; congruence]. eapply blankAt_gap; [done..|by apply HG].
      * intros [|fuel] ins imp err Hf; [lia|]. cbn [skipBlanks]. rewrite Hws, Eb, HB by lia. unfold flagsAfter.
        by destruct ins, imp, err, nl, cn, le, bad, e.
    + exists (c :: s'), false, false, false. split_and!; [done|intros _; apply skip_true_gap; rewrite Es; [constructor|cbn; congruence]|].
      intros [|fuel] ins imp err Hf; [lia|]. cbn [skipBlanks]. rewrite Hws, Eb. unfold flagsAfter. by rewrite !andb_true_r, andb_false_r, !orb_false_r.
Qed.

(** ** The relation determines what is skipped *)

Definition noBlank (s : list Z) : bool :=
  match s with [] => true | c :: s' => negb (isLineTerminator c) && negb (isSpaceChr c) && match blankAt module text start c s' with None => true | _ => false end end.

Lemma toLineEnd_app b s : lineFree b → atLineEnd s → toLineEnd (b ++ s) = s.
Proof.
  intros HF Hs. induction HF as [|c b Hc _ IH]; cbn.
  - destruct Hs as [->|Hs]; [done|]. destruct s as [|c s]; [done|]. cbn in *. by rewrite Hs.
  - by rewrite Hc.
Qed.

Lemma commentEnd_app b s : (∀ b1 b2, b ++ [ch "*"] ≠ b1 ++ ch "*" :: ch "/" :: b2) → commentEnd (b ++ ch "*" :: ch "/" :: s) = Some s.
Proof.
  induction b as [|c b IH]; intros Hn; [done|]. cbn [app commentEnd].
  destruct ((c =? "*") && (chr (b ++ ch "*" :: ch "/" :: s) =? "/")) eqn:E; [|apply IH; intros b1 b2 Hx; apply (Hn (c :: b1) b2); by rewrite <- app_comm_cons, Hx].
  apply andb_true_iff in E as [->%Z.eqb_eq E%Z.eqb_eq]. destruct b as [|d b]; [by vm_compute in E|]. cbn in E. subst d. by destruct (Hn [] (b ++ [ch "*"])).
Qed.

Lemma commentLine_app b s : (∀ b1 b2, b ++ [ch "*"] ≠ b1 ++ ch "*" :: ch "/" :: b2) → commentLine (b ++ ch "*" :: ch "/" :: s) = (hasLineEnd b, Some s).
Proof.
  induction b as [|c b IH]; intros Hn; [done|]. pose proof (commentEnd_app _ s Hn) as He. cbn [app commentLine hasLineEnd existsb].
  destruct (isLineTerminator c) eqn:El; [cbn [orb]; f_equal; exact He|].
  destruct ((c =? "*") && (chr (b ++ ch "*" :: ch "/" :: s) =? "/")) eqn:E.
  - apply andb_true_iff in E as [->%Z.eqb_eq E%Z.eqb_eq]. destruct b as [|d b]; [by vm_compute in E|]. cbn in E. subst d. by destruct (Hn [] (b ++ [ch "*"])).
  - cbn [orb]. apply IH. intros b1 b2 Hx. apply (Hn (c :: b1) b2). by rewrite <- app_comm_cons, Hx.
Qed.

Lemma space_not_line c : isSpaceChr c = true → isLineTerminator c = false.
Proof. unfold isSpaceChr. preds. lia. Qed.

(** A character that starts no white space. *)
Lemma skip_stop (ins : bool) c s : isLineTerminator c = false → isSpaceChr c = false → skipWhiteSpace ins (c :: s) = c :: s.
Proof. intros Hl Hs. cbn. by rewrite Hl, Hs. Qed.

Lemma gap_line c s s1 nl cn : isLineTerminator c = true → noBlank s1 = true → Gap (c :: s) s1 nl cn → nl = true.
Proof.
  intros Hc Hn HG. inversion HG; subst; try done; try (by vm_compute in Hc).
  - cbn in Hn. by rewrite Hc in Hn.
  - match goal with H : isSpaceChr _ = true |- _ => apply space_not_line in H end. congruence.
Qed.

(** One step over a comment. *)
Lemma skipBlanks_step fuel c s r le ins imp err : isLineTerminator c = false → isSpaceChr c = false → blankAt module text start c s = Some (r, le, false) →
  skipBlanks module (S fuel) text start (c :: s) ins imp err = skipBlanks module fuel text start r (ins && negb le) (imp || le) err.
Proof. intros Hl Hs Hb. cbn [skipBlanks]. rewrite skip_stop, Hb by done. by rewrite orb_false_r. Qed.

Lemma skipBlanks_gap s s1 nl cn : Gap s s1 nl cn → noBlank s1 = true → ∀ fuel ins imp err, (length s < fuel)%nat →
  skipBlanks module fuel text start s ins imp err = Some (flagsAfter s1 nl cn false ins imp err).
Proof.
  intros HG Hn. assert (∀ fuel c s r (ins imp err nl cn : bool), isLineTerminator c = false → isSpaceChr c = false → blankAt module text start c s = Some (r, false, false) →
    skipBlanks module fuel text start r ins imp err = Some (flagsAfter s1 nl cn false ins imp err) →
    skipBlanks module (S fuel) text start (c :: s) ins imp err = Some (flagsAfter s1 nl cn false ins imp err)) as Hstep.
  { intros fuel c s0 r ins imp err nl0 cn0 Hl Hs Hb H. rewrite (skipBlanks_step fuel c s0 r false) by done. by rewrite andb_true_r, orb_false_r. }
  induction HG as [s|c s s1 nl cn Hc HG IH|c s s1 nl cn Hc HG IH|b s s1 nl cn Hb Hs HG IH|b s s1 nl cn Hb HG IH|b s s1 nl cn Hm Hb Hs HG IH
    |b s s1 nl cn Hm Hb Hs Hst HG IH|b s s1 nl cn Hb Hs Ht HG IH]; intros [|fuel] ins imp err Hf; try (cbn in Hf; lia).
  - destruct s as [|c s]; cbn [skipBlanks].
    + unfold flagsAfter. cbn. by rewrite !andb_true_r, andb_false_r, !orb_false_r.
    + cbn in Hn. apply andb_true_iff in Hn as [[Hl%negb_true_iff Hs%negb_true_iff]%andb_true_iff Hb]. rewrite skip_stop by done.
      destruct (blankAt _ _ _ _ _); [done|]. unfold flagsAfter. by rewrite !andb_true_r, andb_false_r, !orb_false_r.
  - cbn in Hf. rewrite <- (IH Hn Hstep (S fuel)) by lia. cbn [skipBlanks skipWhiteSpace]. by rewrite (space_not_line c Hc), Hc.
  - cbn in Hf. destruct ins; cbn [skipBlanks skipWhiteSpace]; rewrite Hc.
    + destruct ((c =? CR) && (chr s =? LF)) eqn:E.
      * apply andb_true_iff in E as [_ E%Z.eqb_eq]. destruct s as [|d s]; [done|]. cbn in E. subst d.
        assert (nl = true) as -> by (by apply (gap_line LF s s1 nl cn)).
        rewrite <- (IH Hn Hstep (S fuel)) by lia. done.
      * unfold blankAt. rewrite line_not_start, Hc by done. rewrite IH by (done || lia). unfold flagsAfter. by destruct imp, err.
    + specialize (IH Hn Hstep (S fuel) false imp err ltac:(lia)). exact IH.
  - eapply Hstep; [done|done| |apply IH; [done..|cbn in Hf; rewrite length_app in Hf; lia]]. unfold blankAt. cbn [chr read tail].
    rewrite !Z.eqb_refl. cbn [skipSingleLineComment]. by rewrite toLineEnd_app.
  - rewrite (skipBlanks_step fuel _ _ s (hasLineEnd b)); [|done|done|].
    + rewrite IH; [|done..|cbn in Hf; rewrite length_app in Hf; cbn in Hf; lia]. unfold flagsAfter. by destruct ins, imp, err, nl, cn, (hasLineEnd b).
    + unfold blankAt. cbn [chr read tail]. change (ch "*" =? ch "/") with false. rewrite !Z.eqb_refl. unfold skipMultiLineComment. cbn [read tail].
      by rewrite commentLine_app.
  - eapply Hstep; [done|done| |apply IH; [done..|cbn in Hf; rewrite length_app in Hf; lia]]. unfold blankAt. cbn [chr read tail]. rewrite Hm.
    assert (toLineEnd (ch "-" :: ch "-" :: b ++ s) = s) as Hl by (apply (toLineEnd_app (ch "-" :: ch "-" :: b)); [by repeat constructor|done]).
    cbn [skipSingleLineComment]. by rewrite Hl.
  - eapply Hstep; [done|done| |apply IH; [done..|cbn in Hf; rewrite length_app in Hf; lia]]. unfold blankAt, peekChr. cbn [chr read tail]. rewrite Hm.
    fold (hasLineEnd (slice start (ch "-" :: ch ">" :: b ++ s))).
    assert (Nat.eqb (length start) (length text) || hasLineEnd (slice start (ch "-" :: ch ">" :: b ++ s)) = true) as ->.
    { destruct Hst as [->| ->]; [by rewrite Nat.eqb_refl|by rewrite orb_true_r]. }
    assert (toLineEnd (ch ">" :: b ++ s) = s) as Hl by (apply (toLineEnd_app (ch ">" :: b)); [by constructor|done]).
    cbn [skipSingleLineComment]. by rewrite Hl.
  - eapply Hstep; [done|done| |apply IH; [done..|cbn in Hf; rewrite length_app in Hf; lia]]. unfold blankAt. cbn [chr read tail].
    rewrite Ht. cbn [length]. rewrite !Nat.eqb_refl. cbn [skipSingleLineComment]. by rewrite toLineEnd_app.
Qed.
End blanks.
End LexerBlanks.
