(* ===== verification/LexerScan.v ===== *)
(** * Tokens

    scan returns a token on every text: nothing panics, and it reads something
    unless the text is at its end.  Which token it is and what it leaves of the
    text does not depend on the flags, except that an arrow after a line end is
    illegal; so the tokens of a text are a sequence, and the parser's [next] on
    that sequence does what scan does on the text. *)

From S2P Require Import Prelude Utf Strings Parser Lexer LexerStrings LexerWords LexerBlanks.
From stdpp Require Import strings.
Import Utf Lexer LexerStrings LexerWords LexerBlanks.
Open Scope Z_scope.

Module LexerScan.
#[local] Open Scope string_scope.
#[local] Open Scope list_scope.
#[local] Open Scope Z_scope.

Section scan.
Context {U : UnicodeTables} {laws : UnicodeLaws U} (module littleEndian : bool).

(** ** What is left of the text *)

Lemma scanMantissa_suffix base sep s : (scanMantissa base sep s).1 `suffix_of` s.
Proof.
  induction s as [|c s IH]; [done|]. cbn. case_match; [|done]. destruct (scanMantissa base sep s) as [r b]. by apply suffix_cons_r.
Qed.

Lemma numberEnd_suffix s k b : num_rest (numberEnd s k b) `suffix_of` s.
Proof. unfold numberEnd. repeat case_match; cbn; try done. apply suffix_read. Qed.

Lemma numberExponent_suffix s k b : num_rest (numberExponent s k b) `suffix_of` s.
Proof.
  unfold numberExponent. case_match; [|apply numberEnd_suffix].
  assert ((if (chr (read s) =? "-") || (chr (read s) =? "+") then read (read s) else read s) `suffix_of` s) as Hs.
  { case_match; [etrans; apply suffix_read|apply suffix_read]. }
  revert Hs. generalize (if (chr (read s) =? "-") || (chr (read s) =? "+") then read (read s) else read s). intros t Hs.
  case_match; [|done]. pose proof (scanMantissa_suffix 10 true (read t)) as Hm. destruct (scanMantissa 10 true (read t)) as [r b'].
  etrans; [apply numberEnd_suffix|]. etrans; [exact Hm|]. etrans; [apply suffix_read|done].
Qed.

Lemma numberFraction_suffix s k b : num_rest (numberFraction s k b) `suffix_of` s.
Proof.
  unfold numberFraction. case_match; [|apply numberExponent_suffix]. pose proof (scanMantissa_suffix 10 true (read s)) as Hm.
  destruct (scanMantissa 10 true (read s)) as [r b']. etrans; [apply numberExponent_suffix|]. etrans; [exact Hm|apply suffix_read].
Qed.

Lemma scanNumeric_point s : num_rest (scanNumericLiteral true s) `suffix_of` s.
Proof.
  cbn. pose proof (scanMantissa_suffix 10 true s) as Hm. destruct (scanMantissa 10 true s) as [r b]. etrans; [apply numberExponent_suffix|done].
Qed.

(** A digit is read. *)
Lemma mantissa_digit base sep c s : isDigit c base = true → (scanMantissa base sep (c :: s)).1 `suffix_of` s.
Proof. intros Hc. cbn. rewrite Hc. pose proof (scanMantissa_suffix base sep s). by destruct (scanMantissa base sep s). Qed.

Lemma scanNumeric_digit c s : isDecimalDigit c = true → num_rest (scanNumericLiteral false (c :: s)) `suffix_of` s.
Proof.
  intros Hc. unfold scanNumericLiteral. cbn [chr read tail]. destruct (c =? "0") eqn:E0.
  - match goal with |- context [if 0 <? ?b then _ else _] => generalize b; intros base end. destruct (0 <? base).
    + destruct (negb (isDigit (chr (read s)) base)); [cbn; apply suffix_read|].
      pose proof (scanMantissa_suffix base true (read s)) as Hm. destruct (scanMantissa base true (read s)) as [r b'].
      etrans; [apply numberEnd_suffix|]. etrans; [exact Hm|apply suffix_read].
    + case_match; [apply numberFraction_suffix|]. pose proof (scanMantissa_suffix 8 false s) as Hm. destruct (scanMantissa 8 false s) as [r b'].
      case_match; [etrans; [apply numberEnd_suffix|done]|]. pose proof (scanMantissa_suffix 10 false r) as Hm'. destruct (scanMantissa 10 false r) as [r' b''].
      etrans; [apply numberFraction_suffix|]. etrans; [exact Hm'|exact Hm].
  - assert (isDigit c 10 = true) as Hd by (unfold isDigit; pose proof (digitValue_cases c); preds; lia).
    pose proof (mantissa_digit 10 true c s Hd) as Hm. destruct (scanMantissa 10 true (c :: s)) as [r b]. etrans; [apply numberFraction_suffix|exact Hm].
Qed.

(** *** Words *)

Lemma identifierBraces_fail s : ∀ v r, identifierBraces v s = inl r → r `suffix_of` s.
Proof.
  induction s as [|c s IH]; intros v r; cbn [identifierBraces]; [case_match; [done|by intros [= <-]]|].
  case_match; [done|]. case_match; [done|]. case_match; [|intros [= <-]; by apply suffix_cons_r]. intros ?%IH. by apply suffix_cons_r.
Qed.

Lemma identifierDigits_fail n : ∀ v s r, identifierDigits n v s = inl r → r `suffix_of` s.
Proof.
  induction n as [|n IH]; intros v s r; cbn [identifierDigits]; [done|]. case_match; [|intros [= <-]; apply suffix_read].
  intros ?%IH. etrans; [done|apply suffix_read].
Qed.

Lemma identifierEscape_fail f c s r : identifierEscape f (c :: s) = inl r → r `suffix_of` s.
Proof.
  unfold identifierEscape. cbn [read tail]. case_match; [by intros [= <-]|]. intros Hr.
  assert (∀ v r', (if peekChr s =? "{" then match identifierBraces (-1) (read s) with inr (v, s) => if v =? -1 then inl s else inr (v, s) | inl s => inl s end
    else identifierDigits 4 0 s) = inr (v, r') → r' `suffix_of` s) as Hok.
  { intros v r'. destruct (peekChr s =? "{"); [|apply identifierDigits_suffix].
    destruct (identifierBraces (-1) (read s)) as [|[v0 r0]] eqn:EB; [done|]. destruct (v0 =? -1); [done|]. intros [= <- <-]. apply identifierBraces_suffix in EB.
    etrans; [done|apply suffix_read]. }
  destruct (if peekChr s =? "{" then _ else _) as [r0|[v' r']] eqn:E.
  - injection Hr as ->. destruct (peekChr s =? "{"); [|by eapply identifierDigits_fail].
    destruct (identifierBraces (-1) (read s)) as [r1|[v0 r0]] eqn:EB; [injection E as ->; apply identifierBraces_fail in EB|case_match; simplify_eq; apply identifierBraces_suffix in EB];
      (etrans; [done|apply suffix_read]).
  - specialize (Hok _ _ eq_refl). assert (r' = r) as ->; [|done]. repeat case_match; simplify_eq; done.
Qed.

Lemma identifierLoop_suffix fuel : ∀ f s n he u x, scanIdentifierLoop fuel f s n he u = Some x →
  (match x with inl r => r | inr e => identifier_rest e end) `suffix_of` s ∧
  (isIdentifierPart (chr s) = true → (match x with inl r => r | inr e => identifier_rest e end) `suffix_of` read s).
Proof.
  induction fuel as [|fuel IH]; intros f s n he u x; [done|]. cbn [scanIdentifierLoop]. destruct (isIdentifierPart (chr s)) eqn:Ep.
  2: { intros [= <-]. cbn. by split. }
  destruct s as [|c s]; [done|]. cbn [chr read tail]. intros H.
  assert ((match x with inl r => r | inr e => identifier_rest e end) `suffix_of` s) as Hs; [|split; [by apply suffix_cons_r|done]].
  destruct (c =? "\").
  - destruct (identifierEscape f (c :: s)) as [r|[v r]] eqn:E; [injection H as <-; by eapply identifierEscape_fail|]. apply identifierEscape_suffix in E.
    destruct (unitCount v). apply IH in H as [H _]. etrans; [exact H|]. etrans; [apply suffix_read|done].
  - destruct (unitCount c). apply IH in H as [H _]. exact H.
Qed.

Lemma scanIdentifier_suffix s w : scanIdentifier s = Some w → ident_rest w `suffix_of` s ∧ (isIdentifierPart (chr s) = true → ident_rest w `suffix_of` read s).
Proof.
  unfold scanIdentifier. intros H. apply bind_Some in H as (x & Hx & H). apply identifierLoop_suffix in Hx as [H1 H2]. destruct x; simplify_eq; by split.
Qed.

Lemma start_part c : isIdentifierStart c = true → isIdentifierPart c = true.
Proof.
  unfold isIdentifierStart, isIdentifierPart, isIdStartUnicode, isIdPartUnicode, unicodeRangeIdContPos.
  destruct (unicodeRangeIdStartPos c), (unicodeRangeIdNeg c), (idContinue c); cbn; unfold between; chz; lia.
Qed.

Lemma checkLine_suffix s : (skipWhiteSpaceCheckLineTerminator s).2 `suffix_of` s.
Proof.
  induction s as [|c s IH]; [done|]. cbn. case_match; [cbn; case_match; [by apply suffix_cons_r|done]|]. case_match; [|done]. by apply suffix_cons_r.
Qed.

(** ** One token *)

Definition arrow (t : Parser.Token) (imp : bool) : Parser.Token := if Parser.teq t Parser.ARROW && imp then Parser.ILLEGAL else t.

(** What of a token does not depend on the flags; [t_insert] is the flag after it,
    from the one before. *)
Record token := MkToken {
  t_tok : Parser.Token;
  t_lit : list Z;
  t_parsed : uni;
  t_sloppy : bool;
  t_kind : NumberLiteralKind;
  t_rest : list Z;
  t_insert : bool → bool;
  t_err : bool;
}.

Definition tokenResult (t : token) (ins imp err : bool) : scanned :=
  Scanned (arrow (t_tok t) imp) (t_lit t) (t_parsed t) (t_sloppy t) (t_kind t) (t_rest t) (t_insert t ins)
          (imp || Parser.teq (t_tok t) Parser.EOF && ins) (err || t_err t).

(** The state after it is what the parser's [next] computes. *)
Definition flagsOk (tk : Parser.Token) (f : bool → bool) : Prop := tk = Parser.ILLEGAL ∨ ∀ ins, f ins = Parser.insertAfter tk ins.

Definition goodToken (s : list Z) (t : token) : Prop :=
  t_rest t `suffix_of` s ∧ t_tok t ≠ Parser.EOF ∧ flagsOk (t_tok t) (t_insert t).

Definition keywordOk (t : Parser.Token) : bool :=
  negb (Parser.isOneOf t [Parser.EOF; Parser.ARROW; Parser.ILLEGAL]) &&
  Bool.eqb (Parser.insertAfter t true) true &&
  Bool.eqb (Parser.insertAfter t false)
    (Parser.isOneOf t [Parser.BOOLEAN; Parser.NULL; Parser.THIS; Parser.BREAK; Parser.THROW; Parser.YIELD; Parser.RETURN; Parser.CONTINUE; Parser.DEBUGGER]).

Lemma keyword_ok x t b : IsKeyword x = Some (t, b) → keywordOk t = true.
Proof.
  unfold IsKeyword. destruct (List.find _ keywordTable) as [[k kw]|] eqn:E; [|done]. apply List.find_some in E as [Hin _].
  assert (forallb (λ e : string * keyword, keywordOk (kw_token (snd e)) && keywordOk Parser.KEYWORD) keywordTable = true) as HF by (vm_compute; reflexivity).
  rewrite List.forallb_forall in HF. specialize (HF _ Hin). cbn [snd] in HF. apply andb_true_iff in HF as [H1 H2].
  destruct (futureKeyword kw); intros [= <- <-]; done.
Qed.

Lemma keyword_flags t : keywordOk t = true → t ≠ Parser.EOF ∧ (∀ imp, arrow t imp = t) ∧
  (∀ ins, Parser.insertAfter t ins =
    if Parser.isOneOf t [Parser.BOOLEAN; Parser.NULL; Parser.THIS; Parser.BREAK; Parser.THROW; Parser.YIELD; Parser.RETURN; Parser.CONTINUE; Parser.DEBUGGER]
    then true else ins).
Proof. intros H. destruct t; try (by vm_compute in H); (split; [done|split; [done|by intros []]]). Qed.

Lemma scanWord_shape c s : isIdentifierStart c = true → Forall (λ c, 0 ≤ c ≤ MaxRune) (c :: s) →
  ∃ t, goodToken s t ∧ ∀ ins imp err, scanWord littleEndian (c :: s) ins imp err = Some (Scan (tokenResult t ins imp err)).
Proof.
  intros Hc HF. unfold scanWord. assert (∃ w, scanIdentifier (c :: s) = Some w ∧ ident_parsed w ≠ Panic) as (w & Ew & Hp).
  { destruct (scanIdentifier_cases _ HF) as [(? & ? & ? & ? & _ & _ & _ & E)|(w & E & Hw)]; eexists; (split; [exact E|]); [done|congruence]. }
  rewrite Ew. cbn [mbind option_bind]. destruct (scanIdentifier_suffix _ _ Ew) as [_ Hs]. specialize (Hs (start_part c Hc)). cbn [read tail] in Hs.
  assert (∀ tk lit v (f : bool → bool) rest, rest `suffix_of` s → tk ≠ Parser.EOF → (∀ imp, arrow tk imp = tk) → flagsOk tk f →
    ∃ t, goodToken s t ∧ ∀ ins imp err, Some (Scan (Scanned tk lit v false NumberLiteralPlain rest (f ins) imp err)) = Some (Scan (tokenResult t ins imp err))) as Hmk.
  { intros tk lit v f rest Hr He Ha Hf. exists (MkToken tk lit v false NumberLiteralPlain rest f false). split; [done|]. intros ins imp err.
    unfold tokenResult. cbn. rewrite Ha, orb_false_r. replace (Parser.teq tk Parser.EOF) with false; [by rewrite orb_false_r|]. by destruct tk. }
  destruct (ident_parsed w) as [v| |]; [|apply (Hmk Parser.ILLEGAL [] (inl []) (λ _, false)); try done; by left|done].
  assert (∃ t, goodToken s t ∧ ∀ ins imp err, Some (Scan (Scanned Parser.IDENTIFIER (ident_literal w) v false NumberLiteralPlain (ident_rest w) true imp err)) =
    Some (Scan (tokenResult t ins imp err))) as Hid by (apply (Hmk Parser.IDENTIFIER _ _ (λ _, true)); try done; by right).
  destruct (1 <? length (uniBytes littleEndian v))%nat; [|exact Hid].
  destruct (IsKeyword (goString (uniBytes littleEndian v))) as [[t b]|] eqn:Ek; [|destruct (ident_escape w); exact Hid].
  destruct (keyword_flags t (keyword_ok _ _ _ Ek)) as (He & Ha & Hi).
  destruct (ident_escape w).
  { destruct (Parser.isBindingId t); [exact Hid|]. apply (Hmk Parser.ESCAPED_RESERVED_WORD _ _ (λ _, true)); try done. by right. }
  destruct (Parser.teq t Parser.KEYWORD) eqn:Etk.
  { destruct b; [exact Hid|]. apply (Hmk Parser.KEYWORD _ _ (λ ins, ins)); try done. by right. }
  set (l := [Parser.BOOLEAN; Parser.NULL; Parser.THIS; Parser.BREAK; Parser.THROW; Parser.YIELD; Parser.RETURN; Parser.CONTINUE; Parser.DEBUGGER]) in *.
  destruct (Parser.isOneOf t l).
  { apply (Hmk t _ _ (λ _, true)); try done. by right. }
  destruct (Parser.teq t Parser.ASYNC).
  - pose proof (checkLine_suffix (ident_rest w)) as Hl. destruct (skipWhiteSpaceCheckLineTerminator (ident_rest w)) as [le rest]. cbn in Hl.
    assert (rest `suffix_of` s) by (by etrans). destruct le; [apply (Hmk Parser.IDENTIFIER _ _ (λ _, true)); try done; by right|].
    apply (Hmk t _ _ (λ ins, ins)); try done. by right.
  - apply (Hmk t _ _ (λ ins, ins)); try done. by right.
Qed.

Lemma num_tokens s b : num_tok (scanNumericLiteral b s) = Parser.NUMBER ∨ num_tok (scanNumericLiteral b s) = Parser.ILLEGAL.
Proof.
  assert (∀ s k b, num_tok (numberEnd s k b) = Parser.NUMBER ∨ num_tok (numberEnd s k b) = Parser.ILLEGAL) as He.
  { intros. unfold numberEnd. repeat case_match; cbn; by (left + right). }
  assert (∀ s k b, num_tok (numberExponent s k b) = Parser.NUMBER ∨ num_tok (numberExponent s k b) = Parser.ILLEGAL) as Hx.
  { intros. unfold numberExponent. case_match; [|apply He]. case_match; [|by right]. destruct (scanMantissa _ _ _). apply He. }
  assert (∀ s k b, num_tok (numberFraction s k b) = Parser.NUMBER ∨ num_tok (numberFraction s k b) = Parser.ILLEGAL) as Hf.
  { intros. unfold numberFraction. case_match; [|apply Hx]. destruct (scanMantissa _ _ _). apply Hx. }
  unfold scanNumericLiteral. destruct b; [destruct (scanMantissa _ _ _); apply Hx|]. destruct (chr s =? "0"); [|destruct (scanMantissa _ _ _); apply Hf].
  match goal with |- context [if 0 <? ?b then _ else _] => generalize b; intros base end. destruct (0 <? base).
  - destruct (negb _); [by right|]. destruct (scanMantissa _ _ _). apply He.
  - case_match; [apply Hf|]. destruct (scanMantissa 8 false (read s)) as [r b']. destruct (negb _); [apply He|]. destruct (scanMantissa _ _ _). apply Hf.
Qed.

Lemma scanNumber_shape s from dp u : num_rest (scanNumericLiteral dp u) `suffix_of` s →
  ∃ t, goodToken s t ∧ ∀ ins imp err, scanNumber dp from u imp err = Some (Scan (tokenResult t ins imp err)).
Proof.
  intros Hs. set (n := scanNumericLiteral dp u) in *. exists (MkToken (num_tok n) (slice from (num_rest n)) (inl []) false (num_kind n) (num_rest n) (λ _, true) (num_bad n)).
  destruct (num_tokens u dp) as [E|E]; (split; [split_and!; [done|cbn; fold n in E; by rewrite E|unfold flagsOk; cbn; fold n in E; rewrite E; by (left + right)]|]);
    intros; unfold scanNumber, tokenResult; cbn; fold n; fold n in E; rewrite E; cbn; by rewrite orb_false_r.
Qed.

Lemma scanStringLoop_suffix q fuel : q = 34 ∨ q = "'" → ∀ s n u sl e, scanStringLoop fuel q s n u sl = Some e →
  (match e with Closed r _ _ _ => r | Open _ r => r end) `suffix_of` s.
Proof.
  intros Hq. induction fuel as [|fuel IH]; intros s n u sl e; [done|]. cbn [scanStringLoop].
  replace (q =? "/") with false by (chz; lia). replace (q =? -1) with false by (chz; lia). rewrite !andb_false_r. cbn [andb]. rewrite orb_false_r.
  case_match; [intros [= <-]; apply suffix_read|]. case_match; [intros [= <-]; apply scanNewline_suffix|].
  destruct s as [|c s]; [done|]. cbn [read tail]. intros H'. apply suffix_cons_r. case_match; [case_match|].
  - apply IH in H'. etrans; [exact H'|apply scanNewline_suffix].
  - destruct (scanEscape q s) as [[l u'] r] eqn:E. apply IH in H'. etrans; [exact H'|]. destruct s as [|d s]; [done|].
    pose proof (scanEscape_suffix q d s (quote_isQuote q Hq)) as Hx. rewrite E in Hx. by apply suffix_cons_r.
  - destruct (unitCount _). by apply IH in H'.
Qed.

Lemma scanStr_shape q s : q = 34 ∨ q = "'" → Forall (λ c, 0 ≤ c ≤ MaxRune) s →
  ∃ t, goodToken s t ∧ ∀ ins imp err, scanStr q s imp err = Some (Scan (tokenResult t ins imp err)).
Proof.
  intros Hq HF. unfold scanStr. assert (∃ r, scanString q true s = Some r ∧ string_parsed r ≠ Panic ∧ string_rest r `suffix_of` s) as (r & -> & Hp & Hs).
  { assert (∃ r, scanString q true s = Some r ∧ string_parsed r ≠ Panic) as (r & E & Hp).
    { destruct (scanString_cases q Hq s HF) as [(? & ? & ? & ? & _ & _ & E)|(r & E & Hb & _)]; eexists; (split; [exact E|]); [done|congruence]. }
    exists r. split_and!; [done..|]. unfold scanString in E. apply bind_Some in E as (e & He & E). apply (scanStringLoop_suffix q _ Hq) in He. by destruct e; simplify_eq. }
  cbn [mbind option_bind]. destruct (string_parsed r) as [v| |]; [| |done].
  - exists (MkToken Parser.STRING (string_literal r) v (string_sloppy r) NumberLiteralPlain (string_rest r) (λ _, true) (string_error r)).
    split; [split_and!; [done..|by right]|]. intros. unfold tokenResult. cbn. by rewrite orb_false_r.
  - exists (MkToken Parser.ILLEGAL (string_literal r) (inl []) (string_sloppy r) NumberLiteralPlain (string_rest r) (λ _, true) (string_error r)).
    split; [split_and!; [done..|by left]|]. intros. unfold tokenResult. cbn. by rewrite orb_false_r.
Qed.

Lemma plain_shape s tk rest i b : rest `suffix_of` s → tk ≠ Parser.EOF → (tk = Parser.ILLEGAL ∨ ∀ ins, i = Parser.insertAfter tk ins) → tk ≠ Parser.ARROW →
  ∃ t, goodToken s t ∧ ∀ ins imp err, Some (Scan (plain tk rest i imp (err || b))) = Some (Scan (tokenResult t ins imp err)).
Proof.
  intros Hs He Hi Ha. exists (MkToken tk [] (inl []) false NumberLiteralPlain rest (λ _, i) b). split; [done|]. intros ins imp err.
  unfold tokenResult, plain, arrow. cbn. replace (Parser.teq tk Parser.EOF) with false by (by destruct tk).
  replace (Parser.teq tk Parser.ARROW) with false by (by destruct tk). cbn. by rewrite orb_false_r.
Qed.

(** The token of an operator: only an arrow depends on the flag. *)
Lemma operator_shape c s : match operator c s false with
  | Some (t, r) => r `suffix_of` s ∧ t ≠ Parser.EOF ∧ (∀ imp, operator c s imp = Some (arrow t imp, r)) ∧
      (∀ imp, operatorInsert (arrow t imp) = operatorInsert t) ∧ ∀ ins, operatorInsert t = Parser.insertAfter t ins
  | None => ∀ imp, operator c s imp = None
  end.
Proof.
  pose proof (suffix_read s) as H1. assert (read (read s) `suffix_of` s) as H2 by (etrans; [apply suffix_read|done]).
  assert (read (read (read s)) `suffix_of` s) as H3 by (etrans; [apply suffix_read|done]).
  unfold operator, switch2, switch3, switch4, switch6.
  repeat (match goal with |- context [if ?b then _ else _] => destruct b end; cbn [Parser.teq]); cbn; try done;
    (split_and!; try done; by intros []).
Qed.

Lemma single_shape c t i : single c = Some (t, i) → t ≠ Parser.EOF ∧ t ≠ Parser.ARROW ∧ ∀ ins, i = Parser.insertAfter t ins.
Proof. unfold single. repeat case_match; intros [= <- <-]; done. Qed.

Lemma scanToken_shape c s : Forall (λ c, 0 ≤ c ≤ MaxRune) (c :: s) →
  ∃ t, goodToken s t ∧ ∀ ins imp err, scanToken littleEndian (c :: s) ins imp err = Some (Scan (tokenResult t ins imp err)).
Proof.
  intros HF. pose proof (Forall_inv_tail HF) as HF'. unfold scanToken.
  assert (∀ err, err = err || false) as Hor by (intros; by rewrite orb_false_r).
  assert (∀ tk rest i, rest `suffix_of` s → tk ≠ Parser.EOF → (tk = Parser.ILLEGAL ∨ ∀ ins, i = Parser.insertAfter tk ins) → tk ≠ Parser.ARROW →
    ∃ t, goodToken s t ∧ ∀ ins imp err, Some (Scan (plain tk rest i imp err)) = Some (Scan (tokenResult t ins imp err))) as Hplain.
  { intros tk rest i Hr He Hi Ha. destruct (plain_shape s tk rest i false Hr He Hi Ha) as (t & Ht & E). exists t. split; [done|]. intros. by rewrite <- E, orb_false_r. }
  pose proof (suffix_read s) as H1. assert (read (read s) `suffix_of` s) as H2 by (etrans; [apply suffix_read|done]).
  destruct (isIdentifierStart c) eqn:Ei; [by apply scanWord_shape|].
  destruct (between "0" c "9") eqn:Ed; [by apply scanNumber_shape, scanNumeric_digit|].
  destruct (c =? "."); [destruct (digitValue (chr s) <? 10); [by apply scanNumber_shape, scanNumeric_point|]|].
  { destruct (chr s =? "."); [|apply Hplain; try done; by right]. destruct (chr (read s) =? "."); apply Hplain; try done; by (left + right). }
  destruct ((c =? 34) || (c =? "'")) eqn:Eq; [apply scanStr_shape; [chz; lia|done]|].
  destruct (c =? "#").
  { assert (∃ w, scanIdentifier s = Some w ∧ ident_parsed w ≠ Panic) as (w & Ew & Hp).
    { destruct (scanIdentifier_cases _ HF') as [(? & ? & ? & ? & _ & _ & _ & E)|(w & E & Hw)]; eexists; (split; [exact E|]); [done|congruence]. }
    rewrite Ew. cbn [mbind option_bind]. destruct (scanIdentifier_suffix _ _ Ew) as [Hs _].
    destruct (ident_parsed w) as [v| |]; [|apply Hplain; try done; by left|done]. destruct (ident_literal w) as [|d l]; [apply Hplain; try done; by left|].
    exists (MkToken Parser.PRIVATE_IDENTIFIER (d :: l) v false NumberLiteralPlain (ident_rest w) (λ _, true) false).
    split; [split_and!; [done..|by right]|]. intros. unfold tokenResult. cbn. by rewrite !orb_false_r. }
  destruct (single c) as [[tk i]|] eqn:Es; [destruct (single_shape _ _ _ Es) as (? & ? & ?); apply Hplain; try done; by right|].
  pose proof (operator_shape c s) as Ho. destruct (operator c s false) as [[tk r]|] eqn:Eo.
  - destruct Ho as (Hr & He & Ho & Hi & Hj). exists (MkToken tk [] (inl []) false NumberLiteralPlain r (λ _, operatorInsert tk) false).
    split; [split_and!; [done..|by right]|]. intros ins imp err. rewrite Ho. unfold tokenResult, plain. cbn [t_tok t_lit t_parsed t_sloppy t_kind t_rest t_insert t_err].
    rewrite Hi, orb_false_r. replace (Parser.teq tk Parser.EOF) with false by (by destruct tk). by rewrite orb_false_r.
  - destruct (plain_shape s Parser.ILLEGAL s false true) as (t & Ht & E); try done; [by left|]. exists t. split; [done|].
    intros. rewrite Ho, <- E. by rewrite orb_true_r.
Qed.

(** ** scan *)

Definition eofToken : token := MkToken Parser.EOF [] (inl []) false NumberLiteralPlain [] (λ _, false) false.

(** The token after the blanks, whatever the flag before it. *)
Lemma scan_step_shape text s : Forall (λ c, 0 ≤ c ≤ MaxRune) s → ∃ t s1 nl cn e,
  (e = false → Gap module text s s s1 nl cn) ∧ s1 `suffix_of` s ∧
  match s1 with [] => t = eofToken | _ :: s2 => goodToken s2 t end ∧
  ∀ ins, scan module littleEndian text s ins = Some (Scan (tokenResult t (ins && negb nl && negb cn) (ins && nl || cn) e)).
Proof.
  intros HF. destruct (skipBlanks_spec module text s s) as (s1 & nl & cn & e & Hs & HG & HB).
  assert (∀ ins, scan module littleEndian text s ins = scanToken littleEndian s1 (ins && negb nl && negb cn) (ins && nl || cn) e) as Hscan.
  { intros ins. unfold scan. rewrite HB by lia. done. }
  destruct s1 as [|c s2].
  - exists eofToken, [], nl, cn, e. split_and!; try done. intros ins. rewrite Hscan. unfold tokenResult. cbn. by rewrite orb_false_r.
  - destruct (scanToken_shape c s2) as (t & Ht & E). { destruct Hs as [k ->]. by apply Forall_app in HF as [_ HF]. }
    exists t, (c :: s2), nl, cn, e. split_and!; try done. intros ins. by rewrite Hscan, E.
Qed.

(** ** The tokens of a text *)

Inductive lexed := Lexed (ts : list Parser.tok) | LexError | LexPanic | LexFuel.

(** The token of a scan, with the flags of the scans after a token that allows a
    semicolon and after one that does not. *)
Definition tokOf (r0 r1 : scanned) : Parser.tok :=
  Parser.Tok (s_tok r0) (goString (utf8Encode (s_literal r0))) (goString (uniBytes littleEndian (s_parsed r0))) (s_implicit r1) (s_implicit r0).

Fixpoint lexLoop (fuel : nat) (text s : list Z) : lexed :=
  match fuel with
  | O => LexFuel
  | S fuel =>
      match scan module littleEndian text s false, scan module littleEndian text s true with
      | Some (Scan r0), Some (Scan r1) =>
          if s_error r0 || Parser.teq (s_tok r0) Parser.ILLEGAL then LexError
          else if Parser.teq (s_tok r0) Parser.EOF then Lexed [tokOf r0 r1]
          else match lexLoop fuel text (s_rest r0) with Lexed ts => Lexed (tokOf r0 r1 :: ts) | e => e end
      | None, _ | _, None => LexFuel
      | _, _ => LexPanic
      end
  end.

Definition lexFrom (text s : list Z) : lexed := lexLoop (S (length s)) text s.
Definition lex (text : list Z) : lexed := lexFrom text text.

Lemma teq_true a b : Parser.teq a b = true → a = b.
Proof. unfold Parser.teq. intros E%Nat.eqb_eq. pose proof (Parser.tokens_num a) as Ha. rewrite E, Parser.tokens_num in Ha. congruence. Qed.

(** Enough fuel is as good as more, and there is no panic. *)
Lemma lexLoop_fuel text fuel : ∀ s, Forall (λ c, 0 ≤ c ≤ MaxRune) s → (length s < fuel)%nat →
  lexLoop fuel text s = lexFrom text s ∧ (lexFrom text s = LexError ∨ ∃ ts, lexFrom text s = Lexed ts).
Proof.
  induction fuel as [fuel IH] using lt_wf_ind. intros s HF Hl. destruct fuel as [|fuel]; [lia|]. unfold lexFrom. cbn [lexLoop].
  destruct (scan_step_shape text s HF) as (t & s1 & nl & cn & e & HG & Hs & Ht & Hscan). rewrite !Hscan.
  set (r0 := tokenResult t _ _ e). set (r1 := tokenResult t _ _ e).
  destruct (s_error r0 || Parser.teq (s_tok r0) Parser.ILLEGAL); [split; [done|by left]|].
  destruct (Parser.teq (s_tok r0) Parser.EOF) eqn:Ee; [split; [done|right; by eexists]|].
  assert (s_rest r0 = t_rest t) as -> by done. destruct s1 as [|c s2].
  { subst t. cbn in Ee. done. }
  destruct Ht as (Hr & _ & _). pose proof (suffix_length _ _ Hs) as Hls. cbn in Hls. pose proof (suffix_length _ _ Hr) as Hlr.
  assert (Forall (λ c, 0 ≤ c ≤ MaxRune) (t_rest t)) as HFr.
  { destruct Hs as [k ->]. apply Forall_app in HF as [_ HF]. apply Forall_inv_tail in HF. destruct Hr as [k' ->]. by apply Forall_app in HF as [_ HF]. }
  destruct (IH fuel ltac:(lia) (t_rest t) HFr ltac:(lia)) as [E1 E2]. rewrite E1.
  assert (lexLoop (length s) text (t_rest t) = lexFrom text (t_rest t)) as ->.
  { destruct (decide (length s = fuel)) as [->|]; [done|]. apply (IH (length s)); [lia|done|lia]. }
  split; [done|]. destruct E2 as [->|[ts ->]]; [by left|right; by eexists].
Qed.
End scan.

(** C25: every text has its tokens or a lexical error, after finitely many steps:
    the lexer reads something for each token but the last, and no string literal or
    name makes parseStringLiteral panic. *)
Theorem lexer_total {U : UnicodeTables} {laws : UnicodeLaws U} (module littleEndian : bool) (text : list Z) :
  Forall isScalar text → lex module littleEndian text = LexError ∨ ∃ ts, lex module littleEndian text = Lexed ts.
Proof. intros HF%scalar_range. apply (lexLoop_fuel module littleEndian text (S (length text)) text HF). lia. Qed.

(** C7: the parser's [next] on the tokens of a text does what scan does on the text:
    the same token, the same flags insertSemicolon and implicitSemicolon, whatever
    they were before, and the tokens of what scan leaves are those that are left.
    An arrow after a line end that ends a statement is illegal. *)
Theorem next_refines_scan {U : UnicodeTables} {laws : UnicodeLaws U} (module littleEndian : bool) (text s : list Z) t ts :
  Forall isScalar s → lexFrom module littleEndian text s = Lexed (t :: ts) → ∀ ins c imp sc d, ∃ r,
    scan module littleEndian text s ins = Some (Scan r) ∧ s_error r = false ∧
    s_tok r = (if Parser.teq (Parser.tk t) Parser.ARROW && s_implicit r then Parser.ILLEGAL else Parser.tk t) ∧
    Parser.literal t = goString (utf8Encode (s_literal r)) ∧ Parser.parsedLiteral t = goString (uniBytes littleEndian (s_parsed r)) ∧
    Parser.next (Parser.St c (t :: ts) ins imp sc d) = Parser.Ok () (Parser.St t ts (s_insert r) (s_implicit r) sc d) ∧
    if Parser.teq (Parser.tk t) Parser.EOF then ts = [] else lexFrom module littleEndian text (s_rest r) = Lexed ts.
Proof.
  intros HF%scalar_range HL ins c imp sc d. unfold lexFrom in HL. cbn [lexLoop] in HL.
  destruct (scan_step_shape module littleEndian text s HF) as (k & s1 & nl & cn & e & _ & Hs & Hk & Hscan). rewrite !Hscan in HL.
  rewrite !andb_false_l, !orb_false_l, !andb_true_l in HL. set (r0 := tokenResult k false cn e) in *. set (r1 := tokenResult k _ _ e) in HL.
  destruct (s_error r0 || Parser.teq (s_tok r0) Parser.ILLEGAL) eqn:Ebad; [done|]. apply orb_false_iff in Ebad as [Herr Hill].
  assert (s_tok r0 = t_tok k) as Htok.
  { unfold r0, tokenResult, arrow in *. cbn [s_tok] in *. by destruct (Parser.teq (t_tok k) Parser.ARROW && cn). }
  assert (t = tokOf littleEndian r0 r1) as Hteq by (destruct (Parser.teq (s_tok r0) Parser.EOF); [|destruct (lexLoop _ _ _ _ _)]; congruence).
  assert (Parser.tk t = t_tok k) as Htk by (rewrite Hteq; exact Htok).
  exists (tokenResult k (ins && negb nl && negb cn) (ins && nl || cn) e). split; [apply Hscan|]. split; [exact Herr|].
  assert (s_implicit r1 = (nl || cn) || Parser.teq (t_tok k) Parser.EOF && (negb nl && negb cn)) as Hi1 by done.
  assert (s_implicit r0 = cn) as Hi0 by (cbn; by rewrite andb_false_r, orb_false_r).
  assert (Parser.teq (t_tok k) Parser.ARROW = true → Parser.teq (t_tok k) Parser.EOF = false) as Hae by (by destruct (t_tok k)).
  split_and!.
  - rewrite Htk. cbn [s_tok s_implicit tokenResult]. unfold arrow. destruct (Parser.teq (t_tok k) Parser.ARROW); [|done].
    rewrite Hae by done. by rewrite !andb_false_l, orb_false_r.
  - by rewrite Hteq.
  - by rewrite Hteq.
  - unfold Parser.next. cbn [Parser.rest Parser.insertSemicolon Parser.scope_ Parser.depth]. rewrite Htk.
    assert (Parser.newline t = s_implicit r1 ∧ Parser.commentNewline t = s_implicit r0) as [-> ->] by (by rewrite Hteq). rewrite Hi1, Hi0.
    cbn [s_insert s_implicit tokenResult].
    assert (∀ b, t_insert k b = Parser.insertAfter (t_tok k) b) as Hf.
    { destruct s1 as [|c1 s2]; [subst k; by intros []|]. destruct Hk as (_ & _ & [Hk|Hk]); [|done]. rewrite Htok, Hk in Hill. done. }
    rewrite Hf. destruct (Parser.teq (t_tok k) Parser.EOF) eqn:Ee; [|by destruct ins, nl, cn].
    apply teq_true in Ee. rewrite Ee. by destruct ins, nl, cn.
  - rewrite Htk. rewrite Htok in HL. destruct (Parser.teq (t_tok k) Parser.EOF) eqn:Ee; [congruence|].
    assert (lexLoop module littleEndian (length s) text (s_rest r0) = Lexed ts) as HL' by (destruct (lexLoop _ _ _ _ _); congruence).
    rewrite <- HL'. symmetry. change (s_rest (tokenResult _ _ _ _)) with (t_rest k). change (s_rest r0) with (t_rest k).
    destruct s1 as [|c1 s2]; [subst k; done|]. destruct Hk as (Hr & _ & _). pose proof (suffix_length _ _ Hs) as Hls. cbn in Hls.
    pose proof (suffix_length _ _ Hr) as Hlr. apply lexLoop_fuel; [|lia].
    destruct Hs as [w ->]. apply Forall_app in HF as [_ HF]. apply Forall_inv_tail in HF. destruct Hr as [w' ->]. by apply Forall_app in HF as [_ HF].
Qed.
End LexerScan.
