(* ===== verification/LexerSource.v ===== *)
(** * Texts of the lexer

    Texts as blanks and lexemes in turn, each lexeme followed by a character that
    does not continue it, with the character classes and the keywords of the lexer:
    it finds the tokens of every such text.  [LexerGrammar] has the grammar without
    the functions of the lexer.  Templates, regular expressions, arrows, private
    names, the word async, separators and BigInts are left out. *)

From S2P Require Import Prelude Utf Strings Parser Lexer LexerStrings LexerWords LexerBlanks LexerScan.
From stdpp Require Import strings.
Import Utf Lexer LexerStrings LexerWords LexerBlanks LexerScan.
Open Scope Z_scope.

Module LexerSource.
#[local] Open Scope string_scope.
#[local] Open Scope list_scope.
#[local] Open Scope Z_scope.

(** The characters of an ASCII text. *)
Fixpoint chars (s : string) : list Z := match s with EmptyString => [] | String a s => Z.of_nat (Ascii.nat_of_ascii a) :: chars s end.

(** ** Punctuators *)

(** The spellings, their tokens, and the characters that may not follow. *)
Definition punctuators : list (string * Parser.Token * list string) :=
  [(":", Parser.COLON, []); (",", Parser.COMMA, []); (";", Parser.SEMICOLON, []); ("(", Parser.LEFT_PARENTHESIS, []); (")", Parser.RIGHT_PARENTHESIS, []);
   ("[", Parser.LEFT_BRACKET, []); ("]", Parser.RIGHT_BRACKET, []); ("{", Parser.LEFT_BRACE, []); ("}", Parser.RIGHT_BRACE, []); ("~", Parser.BITWISE_NOT, []);
   ("...", Parser.ELLIPSIS, []);
   ("+", Parser.PLUS, ["="; "+"]); ("+=", Parser.ADD_ASSIGN, []); ("++", Parser.INCREMENT, []);
   ("-", Parser.MINUS, ["="; "-"]); ("-=", Parser.SUBTRACT_ASSIGN, []); ("--", Parser.DECREMENT, []);
   ("*", Parser.MULTIPLY, ["="; "*"]); ("*=", Parser.MULTIPLY_ASSIGN, []); ("**", Parser.EXPONENT, ["="]); ("**=", Parser.EXPONENT_ASSIGN, []);
   ("/", Parser.SLASH, ["="]); ("/=", Parser.QUOTIENT_ASSIGN, []); ("%", Parser.REMAINDER, ["="]); ("%=", Parser.REMAINDER_ASSIGN, []);
   ("^", Parser.EXCLUSIVE_OR, ["="]); ("^=", Parser.EXCLUSIVE_OR_ASSIGN, []);
   ("<", Parser.LESS, ["="; "<"]); ("<=", Parser.LESS_OR_EQUAL, []); ("<<", Parser.SHIFT_LEFT, ["="]); ("<<=", Parser.SHIFT_LEFT_ASSIGN, []);
   (">", Parser.GREATER, ["="; ">"]); (">=", Parser.GREATER_OR_EQUAL, []); (">>", Parser.SHIFT_RIGHT, ["="; ">"]); (">>=", Parser.SHIFT_RIGHT_ASSIGN, []);
   (">>>", Parser.UNSIGNED_SHIFT_RIGHT, ["="]); (">>>=", Parser.UNSIGNED_SHIFT_RIGHT_ASSIGN, []);
   ("=", Parser.ASSIGN, ["="; ">"]); ("==", Parser.EQUAL, ["="]); ("===", Parser.STRICT_EQUAL, []);
   ("!", Parser.NOT, ["="]); ("!=", Parser.NOT_EQUAL, ["="]); ("!==", Parser.STRICT_NOT_EQUAL, []);
   ("&", Parser.AND, ["="; "&"]); ("&=", Parser.AND_ASSIGN, []); ("&&", Parser.LOGICAL_AND, ["="]); ("&&=", Parser.LOGICAL_AND_ASSIGN, []);
   ("|", Parser.OR, ["="; "|"]); ("|=", Parser.OR_ASSIGN, []); ("||", Parser.LOGICAL_OR, ["="]); ("||=", Parser.LOGICAL_OR_ASSIGN, []);
   ("?", Parser.QUESTION_MARK, ["?"; "."]); ("??", Parser.COALESCE, ["="]); ("??=", Parser.COALESCE_ASSIGN, []);
   ("?.", Parser.QUESTION_DOT, ["0"; "1"; "2"; "3"; "4"; "5"; "6"; "7"; "8"; "9"]);
   (".", Parser.PERIOD, ["."; "0"; "1"; "2"; "3"; "4"; "5"; "6"; "7"; "8"; "9"])].

Section source.
Context {U : UnicodeTables} {laws : UnicodeLaws U} (module littleEndian : bool).

Lemma not_digit c : memChr c ["0"; "1"; "2"; "3"; "4"; "5"; "6"; "7"; "8"; "9"] = false → isDecimalDigit c = false ∧ (digitValue c <? 10) = false.
Proof. pose proof (digitValue_cases c). preds. lia. Qed.

Lemma scanToken_punctuator sp t stops rest ins imp err : (sp, t, stops) ∈ punctuators → memChr (chr rest) stops = false →
  scanToken littleEndian (chars sp ++ rest) ins imp err = Some (Scan (plain t rest (Parser.insertAfter t ins) imp err)).
Proof.
  intros Hin Hst. unfold punctuators in Hin.
  repeat (apply elem_of_cons in Hin as [Hin|Hin];
    [injection Hin as -> -> ->; cbn [chars app]; unfold memChr in Hst; cbn [existsb] in Hst;
     rewrite ?orb_false_iff in Hst; destruct_and? Hst; try done|]);
  try (by apply elem_of_nil in Hin).
  all: repeat match goal with |- context [Z.of_nat (Ascii.nat_of_ascii ?a)] => let v := eval vm_compute in (Z.of_nat (Ascii.nat_of_ascii a)) in change (Z.of_nat (Ascii.nat_of_ascii a)) with v end.
  all: unfold scanToken, operator, switch2, switch3, switch4, switch6, single, isIdentifierStart, between, read, peekChr; chz; cbn -[chr isDecimalDigit digitValue].
  all: repeat match goal with H : (chr ?r =? _) = false |- _ => rewrite H end; try done.
  all: repeat match goal with |- context [chr (?c :: ?r)] => change (chr (c :: r)) with c end; cbn -[chr isDecimalDigit digitValue].
  all: repeat match goal with H : (chr ?r =? _) = false |- _ => rewrite H end; try done.
  all: destruct (not_digit (chr rest)) as [Hd Hv]; [unfold memChr; cbn [existsb]; chz; lia|]; by rewrite ?Hd, ?Hv.
Qed.

(** ** Words *)

(** The token of a name with this value; async is left out. *)
Definition wordToken (v : uni) (escape : bool) : option Parser.Token :=
  match IsKeyword (goString (uniBytes littleEndian v)) with
  | None => Some Parser.IDENTIFIER
  | Some (t, _) =>
      if escape then Some (if Parser.isBindingId t then Parser.IDENTIFIER else Parser.ESCAPED_RESERVED_WORD)
      else if Parser.teq t Parser.ASYNC then None else Some t
  end.

Lemma keyword_long x t b : IsKeyword x = Some (t, b) → (1 < String.length x)%nat ∧ (b = true → t ≠ Parser.KEYWORD).
Proof.
  unfold IsKeyword. destruct (List.find _ keywordTable) as [[k kw]|] eqn:E; [|done]. apply List.find_some in E as [Hin Hk].
  apply String.eqb_eq in Hk. cbn in Hk. subst k.
  assert (forallb (λ e : string * keyword, Nat.ltb 1 (String.length (fst e)) && negb (futureKeyword (snd e) && kw_strict (snd e))) keywordTable = true) as HF
    by (vm_compute; reflexivity).
  rewrite List.forallb_forall in HF. specialize (HF _ Hin). cbn [fst snd] in HF. apply andb_true_iff in HF as [H1%Nat.ltb_lt H2].
  intros Heq. split; [done|]. intros ->. destruct (futureKeyword kw); simplify_eq. by destruct (kw_strict kw).
Qed.

Lemma goString_length l : String.length (goString l) = length l.
Proof. induction l; cbn; congruence. Qed.

Lemma scanWord_complete c body v b t rest ins imp err : isIdentifierStart c = true → Forall (λ c, 0 ≤ c ≤ MaxRune) (c :: body) →
  NameChars true (c :: body) v b → isIdentifierPart (chr rest) = false → wordToken (uniOf (runesUnits v)) b = Some t →
  scanToken littleEndian ((c :: body) ++ rest) ins imp err =
    Some (Scan (Scanned t (c :: body) (uniOf (runesUnits v)) false NumberLiteralPlain rest (Parser.insertAfter t ins) imp err)).
Proof.
  intros Hc HF HN Hr Hw. unfold scanToken. cbn [app]. rewrite Hc. unfold scanWord. change (c :: body ++ rest) with ((c :: body) ++ rest).
  rewrite (scanIdentifier_complete _ _ _ _ HF HN Hr). cbn [mbind option_bind ident_parsed ident_literal ident_escape ident_rest].
  unfold wordToken in Hw. set (w := uniBytes littleEndian (uniOf (runesUnits v))) in *.
  destruct (IsKeyword (goString w)) as [[k s]|] eqn:Ek; [|destruct (1 <? length w)%nat, b; by simplify_eq].
  destruct (keyword_long _ _ _ Ek) as [Hlen Hs]. rewrite goString_length in Hlen. rewrite (proj2 (Nat.ltb_lt _ _) Hlen).
  destruct (keyword_flags k (keyword_ok _ _ _ Ek)) as (_ & _ & Hi).
  destruct b; [destruct (Parser.isBindingId k); by simplify_eq|]. destruct (Parser.teq k Parser.ASYNC) eqn:Ea; [done|]. simplify_eq.
  destruct (Parser.teq t Parser.KEYWORD) eqn:Etk; [apply teq_true in Etk; subst t; destruct s; [by destruct (Hs eq_refl)|done]|].
  rewrite Hi. by destruct (Parser.isOneOf t _).
Qed.

(** ** Strings *)

Lemma scanStr_complete q body v b rest ins imp err : q = 34 ∨ q = "'" → StringChars q body v b →
  scanToken littleEndian ((q :: body ++ [q]) ++ rest) ins imp err =
    Some (Scan (Scanned Parser.STRING (q :: body ++ [q]) (uniOf v) b NumberLiteralPlain rest (Parser.insertAfter Parser.STRING ins) imp err)).
Proof.
  intros Hq HS. unfold scanToken. cbn [app]. assert (isIdentifierStart q = false) as -> by (unfold isIdentifierStart, between; chz; lia).
  replace (between "0" q "9") with false by (preds; lia). replace (q =? ".") with false by (chz; lia). replace ((q =? 34) || (q =? "'")) with true by (chz; lia).
  unfold scanStr. rewrite <- app_assoc. cbn [app]. rewrite (scanString_complete q Hq _ _ _ _ HS). cbn. by rewrite orb_false_r.
Qed.

(** ** Numbers *)

Definition digits (ds : list Z) : Prop := Forall (λ d, isDecimalDigit d = true) ds.

(** A decimal integer without a leading zero. *)
Inductive Integer : list Z → Prop :=
  | I_zero : Integer [ch "0"]
  | I_digits d ds : between "1" d "9" = true → digits ds → Integer (d :: ds).

Inductive Exponent : list Z → Prop :=
  | X_none : Exponent []
  | X_exponent (e : Z) sign d ds : e = "e" ∨ e = "E" → sign = [] ∨ sign = [ch "+"] ∨ sign = [ch "-"] → isDecimalDigit d = true → digits ds →
      Exponent (e :: sign ++ d :: ds).

(** The literal, and whether a point may follow. *)
Inductive Numeral : list Z → bool → Prop :=
  | N_integer n x : Integer n → Exponent x → Numeral (n ++ x) (match x with [] => false | _ => true end)
  | N_fraction n ds x : Integer n → digits ds → Exponent x → Numeral (n ++ ch "." :: ds ++ x) true
  | N_point d ds x : isDecimalDigit d = true → digits ds → Exponent x → Numeral (ch "." :: d :: ds ++ x) true
  | N_radix (c : Z) base d ds : (c = "x" ∨ c = "X") ∧ base = 16 ∨ (c = "o" ∨ c = "O") ∧ base = 8 ∨ (c = "b" ∨ c = "B") ∧ base = 2 →
      Forall (λ d, isDigit d base = true) (d :: ds) → Numeral (ch "0" :: c :: d :: ds) true.

(** The character after a number. *)
Definition numberStop (point : bool) (c : Z) : Prop := isIdentifierStart c = false ∧ isDecimalDigit c = false ∧ (point = false → c ≠ ".").

Lemma mantissa_complete base sep ds rest : base ≤ 16 → Forall (λ d, isDigit d base = true) ds → isDigit (chr rest) base = false → chr rest ≠ "_" →
  scanMantissa base sep (ds ++ rest) = (rest, false).
Proof.
  intros Hb HF Hr Hu. induction HF as [|d ds Hd _ IH]; cbn [app].
  - destruct rest as [|c rest]; [done|]. cbn in Hr, Hu |- *. by rewrite Hr, (proj2 (Z.eqb_neq _ _) Hu), andb_false_r.
  - cbn. rewrite Hd. cbn [orb]. rewrite IH. replace (d =? "_") with false; [done|]. unfold isDigit in Hd. pose proof (digitValue_cases d). chz. lia.
Qed.

Lemma stop_plain point c : numberStop point c → c ≠ "_" ∧ (∀ base, base ≤ 16 → isDigit c base = false) ∧ (c =? "n") || (c =? "N") = false ∧ (c =? "e") || (c =? "E") = false.
Proof.
  intros (Hs & Hd & _). unfold isIdentifierStart, between in Hs. preds. pose proof (digitValue_cases c). split_and!; try lia. intros. unfold isDigit. lia.
Qed.

Lemma decimal_digit d : isDecimalDigit d = true → isDigit d 10 = true.
Proof. unfold isDigit. pose proof (digitValue_cases d). preds. lia. Qed.

Lemma decimal_digits ds : digits ds → Forall (λ d, isDigit d 10 = true) ds.
Proof. intros HF. eapply Forall_impl; [exact HF|]. apply decimal_digit. Qed.

Section stop.
Context (point : bool) (rest : list Z) (Hstop : numberStop point (chr rest)).

Lemma numberEnd_complete k b : numberEnd rest k b = Number Parser.NUMBER rest k b.
Proof using Hstop.
  destruct (stop_plain _ _ Hstop) as (_ & _ & Hn & _). destruct Hstop as (Hs & Hd & _). unfold numberEnd. by rewrite Hn, Hs, Hd.
Qed.

Lemma mantissa_stop base sep ds : base ≤ 16 → Forall (λ d, isDigit d base = true) ds → scanMantissa base sep (ds ++ rest) = (rest, false).
Proof using Hstop. intros. destruct (stop_plain _ _ Hstop) as (Hu & Hd & _). apply mantissa_complete; auto. Qed.

Lemma numberExponent_complete x k b : Exponent x → numberExponent (x ++ rest) k b = Number Parser.NUMBER rest k b.
Proof using Hstop.
  destruct 1 as [|e sign d ds He Hsign Hd HF]; unfold numberExponent; cbn [app].
  - destruct (stop_plain _ _ Hstop) as (_ & _ & _ & ->). apply numberEnd_complete.
  - cbn [chr read tail]. replace ((e =? "e") || (e =? "E")) with true by (chz; lia). rewrite <- app_assoc. cbn [app].
    assert ((let s := sign ++ d :: ds ++ rest in if (chr s =? "-") || (chr s =? "+") then read s else s) = d :: ds ++ rest) as Hskip.
    { destruct Hsign as [-> | [-> | ->]]; [|done..]. cbn [app chr]. by replace ((d =? "-") || (d =? "+")) with false by (preds; lia). }
    cbv zeta in Hskip. rewrite Hskip. cbn [chr read tail]. rewrite Hd, mantissa_stop by (by try apply decimal_digits). rewrite orb_false_r. apply numberEnd_complete.
Qed.

(** The integer part is read up to what follows. *)
Lemma integer_complete n s : Integer n → isDecimalDigit (chr s) = false → chr s ≠ "_" → isIdentifierStart (chr s) = false ∨ (chr s = "e" ∨ chr s = "E") →
  scanNumericLiteral false (n ++ s) = numberFraction s NumberLiteralPlain false ∨
  (scanNumericLiteral false (n ++ s) = numberEnd s NumberLiteralPlain false ∧ chr s ≠ "." ∧ chr s ≠ "e" ∧ chr s ≠ "E").
Proof.
  intros Hn Hd Hu Hs. assert (isDigit (chr s) 10 = false ∧ isDigit (chr s) 8 = false) as [H10 H8]
    by (unfold isDigit; pose proof (digitValue_cases (chr s)); preds; lia).
  destruct Hn as [|d ds Hd1 HF]; unfold scanNumericLiteral; cbn [app chr read tail].
  - rewrite Z.eqb_refl. unfold isIdentifierStart, between in Hs.
    replace ((chr s =? "x") || (chr s =? "X")) with false by (chz; lia). replace ((chr s =? "o") || (chr s =? "O")) with false by (chz; lia).
    replace ((chr s =? "b") || (chr s =? "B")) with false by (chz; lia). change (0 <? 0) with false. cbv iota.
    destruct ((chr s =? ".") || (chr s =? "e") || (chr s =? "E")) eqn:E; [by left|right].
    pose proof (mantissa_complete 8 false [] s ltac:(lia) ltac:(constructor) H8 Hu) as Hm. cbn [app] in Hm. rewrite Hm.
    rewrite Hd. cbn [negb]. rewrite Nat.ltb_irrefl. split; [done|]. lia.
  - replace (d =? "0") with false by (preds; lia). left.
    pose proof (mantissa_complete 10 true (d :: ds) s ltac:(lia)) as Hm. cbn [app] in Hm. rewrite Hm; [done| |done|done].
    constructor; [apply decimal_digit; preds; lia|by apply decimal_digits].
Qed.

(** The digits of a fraction are read up to the exponent. *)
Lemma mantissa_then_exponent ds x : digits ds → Exponent x → scanMantissa 10 true (ds ++ x ++ rest) = (x ++ rest, false).
Proof using Hstop.
  intros HF Hx. destruct (stop_plain _ _ Hstop) as (Hu & Hdig & _). apply mantissa_complete; [lia|by apply decimal_digits| |];
    (destruct Hx as [|e sign d ds' He _ _ _]; [auto; by apply Hdig|]); cbn [app chr]; [|chz; lia]. unfold isDigit. pose proof (digitValue_cases e). chz. lia.
Qed.

Lemma numeral_complete sp : Numeral sp point → ∃ c s, sp ++ rest = c :: s ∧
  (isDecimalDigit c = true ∧ scanNumericLiteral false (c :: s) = Number Parser.NUMBER rest NumberLiteralPlain false ∨
   c = "." ∧ (digitValue (chr s) <? 10) = true ∧ scanNumericLiteral true s = Number Parser.NUMBER rest NumberLiteralPlain false).
Proof using Hstop.
  destruct (stop_plain _ _ Hstop) as (Hu & Hdig & _ & He). pose proof Hstop as (Hs & Hd & Hp).
  assert (∀ n, Integer n → ∃ c m, n = c :: m ∧ isDecimalDigit c = true) as Hint.
  { intros n [|d ds Hd1 _]; do 2 eexists; (split; [done|]); [done|]. preds. lia. }
  inversion 1 as [n x Hn Hx Hsp Hpt|n ds x Hn HF Hx Hsp Hpt|d ds x Hd1 HF Hx Hsp Hpt|c base d ds Hb HF Hsp Hpt]; subst sp.
  - destruct (Hint n Hn) as (c & m & -> & Hc). exists c, (m ++ x ++ rest). split; [by rewrite <- app_assoc|left]. split; [done|].
    change (c :: m ++ x ++ rest) with ((c :: m) ++ x ++ rest).
    assert (numberExponent (x ++ rest) NumberLiteralPlain false = Number Parser.NUMBER rest NumberLiteralPlain false) as Hex by (by apply numberExponent_complete).
    destruct Hx as [|e sign d ds Hee Hsign Hd1 HF].
    + change ([] ++ rest) with rest in *. specialize (Hp (eq_sym Hpt)). destruct (integer_complete (c :: m) rest Hn Hd Hu (or_introl Hs)) as [-> | (-> & _)].
      * unfold numberFraction. by rewrite (proj2 (Z.eqb_neq _ _) Hp).
      * by apply numberEnd_complete.
    + destruct (integer_complete (c :: m) ((e :: sign ++ d :: ds) ++ rest) Hn) as [-> | (_ & _ & H1 & H2)]; cbn [app chr] in *; try (preds; lia).
      unfold numberFraction. cbn [chr]. by replace (e =? ".") with false by (chz; lia).
  - destruct (Hint n Hn) as (c & m & -> & Hc). exists c, (m ++ ch "." :: ds ++ x ++ rest). split; [by rewrite <- !app_assoc; cbn [app]; rewrite <- app_assoc|left]. split; [done|].
    change (c :: m ++ ch "." :: ds ++ x ++ rest) with ((c :: m) ++ ch "." :: ds ++ x ++ rest).
    destruct (integer_complete (c :: m) (ch "." :: ds ++ x ++ rest) Hn) as [-> | (_ & Hdot & _)]; [done|done|by left| |done].
    unfold numberFraction. cbn [chr read tail]. rewrite Z.eqb_refl, mantissa_then_exponent by done. by apply numberExponent_complete.
  - exists (ch "."), (d :: ds ++ x ++ rest). split; [cbn; by rewrite <- app_assoc|right]. split; [done|]. split; [by apply decimal_digit|].
    unfold scanNumericLiteral. change (d :: ds ++ x ++ rest) with ((d :: ds) ++ x ++ rest). rewrite mantissa_then_exponent; [by apply numberExponent_complete|by constructor|done].
  - exists (ch "0"), (c :: (d :: ds) ++ rest). split; [done|left]. split; [done|]. unfold scanNumericLiteral. cbn [chr read tail]. rewrite Z.eqb_refl.
    assert ((if (c =? "x") || (c =? "X") then 16 else if (c =? "o") || (c =? "O") then 8 else if (c =? "b") || (c =? "B") then 2 else 0) = base ∧ 2 ≤ base ≤ 16) as [-> Hbase].
    { chz. repeat case_match; lia. }
    rewrite (proj2 (Z.ltb_lt 0 base)) by lia. cbn [app chr]. pose proof (Forall_inv HF) as Hd1. cbn beta in Hd1. rewrite Hd1. cbn [negb].
    change (d :: ds ++ rest) with ((d :: ds) ++ rest). rewrite mantissa_stop by (done || lia). by apply numberEnd_complete.
Qed.
End stop.

Lemma scanNumber_complete sp point rest ins imp err : Numeral sp point → numberStop point (chr rest) →
  scanToken littleEndian (sp ++ rest) ins imp err =
    Some (Scan (Scanned Parser.NUMBER sp (inl []) false NumberLiteralPlain rest (Parser.insertAfter Parser.NUMBER ins) imp err)).
Proof.
  intros HN Hstop. destruct (numeral_complete point rest Hstop sp HN) as (c & s & Hs & Hc). pose proof (slice_app sp rest) as Hsl. rewrite Hs in Hsl |- *.
  unfold scanToken, scanNumber. assert (isIdentifierStart c = false) as -> by (unfold isIdentifierStart, between; preds; lia).
  destruct Hc as [[Hc E]|(-> & Hd & E)].
  - change (between "0" c "9") with (isDecimalDigit c). rewrite Hc, E. cbn [num_tok num_rest num_kind num_bad]. by rewrite orb_false_r, Hsl.
  - change (between "0" (ch ".") "9") with false. rewrite Z.eqb_refl, Hd, E. cbv iota. cbn [num_tok num_rest num_kind num_bad]. by rewrite orb_false_r, Hsl.
Qed.

(** ** Lexemes *)

(** The spelling, what follows it, the token, and its text and value. *)
Inductive Lexeme : list Z → list Z → Parser.Token → list Z → uni → Prop :=
  | L_punctuator sp t stops rest : (sp, t, stops) ∈ punctuators → memChr (chr rest) stops = false → Lexeme (chars sp) rest t [] (inl [])
  | L_word c body v b t rest : isIdentifierStart c = true → NameChars true (c :: body) v b → isIdentifierPart (chr rest) = false →
      wordToken (uniOf (runesUnits v)) b = Some t → Lexeme (c :: body) rest t (c :: body) (uniOf (runesUnits v))
  | L_string q body v b rest : q = 34 ∨ q = "'" → StringChars q body v b → Lexeme (q :: body ++ [q]) rest Parser.STRING (q :: body ++ [q]) (uniOf v)
  | L_number sp point rest : Numeral sp point → numberStop point (chr rest) → Lexeme sp rest Parser.NUMBER sp (inl []).

Lemma lexeme_scan sp rest t lit v : Forall (λ c, 0 ≤ c ≤ MaxRune) sp → Lexeme sp rest t lit v → ∃ sl, ∀ ins imp err,
  scanToken littleEndian (sp ++ rest) ins imp err = Some (Scan (Scanned t lit v sl NumberLiteralPlain rest (Parser.insertAfter t ins) imp err)).
Proof.
  intros HF HL. destruct HL as [sp t stops rest Hin Hst|c body v b t rest Hc HN Hr Hw|q body v b rest Hq HS|sp point rest HN Hst].
  - exists false. intros. by eapply scanToken_punctuator.
  - exists false. intros. by eapply scanWord_complete.
  - exists b. intros. by apply scanStr_complete.
  - exists false. intros. by eapply scanNumber_complete.
Qed.

Lemma punctuator_token sp t stops : (sp, t, stops) ∈ punctuators → Parser.isOneOf t [Parser.ILLEGAL; Parser.EOF; Parser.ARROW] = false ∧ chars sp ≠ [].
Proof.
  intros Hin. assert (Forall (λ e : string * Parser.Token * list string, Parser.isOneOf (snd (fst e)) [Parser.ILLEGAL; Parser.EOF; Parser.ARROW] = false ∧ chars (fst (fst e)) ≠ []) punctuators) as HF
    by (repeat constructor; done).
  rewrite Forall_forall in HF. exact (HF _ Hin).
Qed.

Lemma lexeme_token sp rest t lit v : Lexeme sp rest t lit v → Parser.isOneOf t [Parser.ILLEGAL; Parser.EOF; Parser.ARROW] = false ∧ sp ≠ [].
Proof.
  destruct 1 as [sp t stops rest Hin Hst|c body v b t rest Hc HN Hr Hw|q body v b rest Hq HS|sp point rest HN Hst]; [by eapply punctuator_token| |done|].
  - split; [|done]. unfold wordToken in Hw. destruct (IsKeyword _) as [[k s]|] eqn:Ek; [|by simplify_eq].
    destruct b; [destruct (Parser.isBindingId k); by simplify_eq|]. destruct (Parser.teq k Parser.ASYNC); [done|]. simplify_eq.
    pose proof (keyword_ok _ _ _ Ek) as Hk. destruct t; done.
  - split; [done|]. destruct HN as [n x Hn _| | |]; [destruct Hn; done| |done..]. by destruct n.
Qed.

(** ** Texts *)

(** The tokens from [s] on; the end of the text counts as a line end. *)
Inductive Source (text : list Z) : list Z → list Parser.tok → Prop :=
  | Src_end s nl cn : Gap module text s s [] nl cn → Source text s [Parser.Tok Parser.EOF "" "" true cn]
  | Src_cons s sp rest nl cn t lit v ts : Gap module text s s (sp ++ rest) nl cn → noBlank module text s (sp ++ rest) = true → Lexeme sp rest t lit v →
      Source text rest ts →
      Source text s (Parser.Tok t (goString (utf8Encode lit)) (goString (uniBytes littleEndian v)) (nl || cn) cn :: ts).

Lemma Gap_suffix text start s s1 nl cn : Gap module text start s s1 nl cn → s1 `suffix_of` s.
Proof.
  assert (∀ (b s s1 : list Z), s1 `suffix_of` s → s1 `suffix_of` b ++ s) as Happ by (intros b s0 s2 [k ->]; exists (b ++ k); by rewrite app_assoc).
  induction 1; try done; repeat apply suffix_cons_r; try done; apply Happ; [done|by repeat apply suffix_cons_r|done..].
Qed.

Lemma scan_gap text s s1 nl cn ins : Gap module text s s s1 nl cn → noBlank module text s s1 = true →
  scan module littleEndian text s ins = scanToken littleEndian s1 (ins && negb nl && negb cn) (ins && nl || cn) false.
Proof. intros HG Hn. unfold scan. by rewrite (skipBlanks_gap _ _ _ _ _ _ _ HG Hn) by lia. Qed.

Lemma lexFrom_source text s ts : Source text s ts → Forall (λ c, 0 ≤ c ≤ MaxRune) s → lexFrom module littleEndian text s = Lexed ts.
Proof.
  induction 1 as [s nl cn HG|s sp rest nl cn t lit v ts HG Hn HL HS IH]; intros HF; unfold lexFrom; cbn [lexLoop].
  - rewrite !(scan_gap text s [] nl cn) by done. cbn. rewrite orb_false_r. by destruct nl, cn.
  - rewrite !(scan_gap text s (sp ++ rest) nl cn) by done. destruct (lexeme_token _ _ _ _ _ HL) as [Ht Hne]. pose proof (Gap_suffix _ _ _ _ _ _ HG) as Hs.
    assert (Forall (λ c, 0 ≤ c ≤ MaxRune) (sp ++ rest)) as HF' by (destruct Hs as [k ->]; by apply Forall_app in HF as [_ HF]).
    apply Forall_app in HF' as [HFs HFr]. destruct (lexeme_scan sp rest t lit v HFs HL) as [sl Hsc]. rewrite !Hsc. cbn [s_error s_tok s_rest].
    replace (Parser.teq t Parser.ILLEGAL) with false by (by destruct t). replace (Parser.teq t Parser.EOF) with false by (by destruct t). cbn [orb].
    apply suffix_length in Hs. rewrite length_app in Hs. assert (length sp ≠ 0%nat) by (by destruct sp).
    destruct (lexLoop_fuel module littleEndian text (length s) rest HFr ltac:(lia)) as [-> _]. rewrite IH by done. done.
Qed.
End source.
End LexerSource.
