(* ===== verification/LexerGrammar.v ===== *)
(** * The lexical grammar of ECMAScript

    The grammar of chapter 12 of ECMA-262, written without the functions of the
    lexer: the reserved words, white space, line terminators, identifiers, numeric
    literals and punctuators as lists and ranges of code points, over the
    properties of the Unicode database.  The lexer finds the tokens of every text
    that the grammar builds.

    The tables of package unicode, parameters of the lexer, are related to the
    properties by [UnicodeFaithful].  Left out of the grammar: templates and regular
    expressions (which the parser asks for), the arrow, private names, the word
    async, numeric separators, legacy octal numbers and BigInts. *)

From S2P Require Import Prelude Utf Strings Parser Lexer LexerStrings LexerWords LexerBlanks LexerScan LexerSource.
From stdpp Require Import strings.
Import Utf Lexer LexerStrings LexerWords LexerBlanks LexerScan LexerSource.
Open Scope Z_scope.

Module LexerGrammar.
#[local] Open Scope string_scope.
#[local] Open Scope list_scope.
#[local] Open Scope Z_scope.

(** ** Characters *)

(** Properties of the Unicode database, for the code points above ASCII. *)
Class UnicodeData := {
  ID_Start : Z → bool;
  ID_Continue : Z → bool;
  Space_Separator : Z → bool;   (* the category Zs *)
}.

(** The definitions of ID_Start and ID_Continue in UAX 31, and what unicode.IsSpace
    documents: the categories Z and the property Pattern_White_Space.  The line and
    paragraph separators are the categories Zl and Zp, U+0085 is a control
    character. *)
Class UnicodeFaithful (U : UnicodeTables) (D : UnicodeData) : Prop := {
  idStart_tables c : 0x80 ≤ c → unicodeRangeIdStartPos c && negb (unicodeRangeIdNeg c) = ID_Start c;
  idContinue_tables c : 0x80 ≤ c → (unicodeRangeIdStartPos c || idContinue c) && negb (unicodeRangeIdNeg c) = ID_Continue c;
  isSpace_table c : 0x80 ≤ c → IsSpace c = Space_Separator c || existsb (Z.eqb c) [0x85; 0x2028; 0x2029];
  separators c : Space_Separator c = true → c ≠ 0x2028 ∧ c ≠ 0x2029;
  nextLine_control : ID_Start 0x85 = false;
}.

Definition oneOf (l : list Z) (c : Z) : bool := existsb (Z.eqb c) l.
Definition range (lo hi c : Z) : bool := (lo <=? c) && (c <=? hi).

Definition lineTerminator (c : Z) : bool := oneOf [0x0A; 0x0D; 0x2028; 0x2029] c.
Definition letter (c : Z) : bool := range 0x41 0x5A c || range 0x61 0x7A c.
Definition decimalDigit (c : Z) : bool := range 0x30 0x39 c.

(** The value of a digit is its place in the row of digits. *)
Fixpoint placeIn (c : Z) (l : list Z) : option Z :=
  match l with [] => None | d :: l => if c =? d then Some 0 else Z.succ <$> placeIn c l end.
Definition digitOf (c : Z) : option Z :=
  match placeIn c (chars "0123456789abcdef") with Some v => Some v | None => placeIn c (chars "0123456789ABCDEF") end.
Definition Digit (base c : Z) : Prop := ∃ v, digitOf c = Some v ∧ v < base.
Definition radixValue (base : Z) (ds : list Z) : Z := foldl (λ v d, base * v + default 0 (digitOf d)) 0 ds.

(** ** Reserved words *)

(** The reserved words and, last, the words that are reserved in places; with the
    token of each. *)
Definition reservedWords : list (string * Parser.Token) :=
  [("await", Parser.AWAIT); ("break", Parser.BREAK); ("case", Parser.CASE); ("catch", Parser.CATCH); ("class", Parser.CLASS);
   ("const", Parser.CONST); ("continue", Parser.CONTINUE); ("debugger", Parser.DEBUGGER); ("default", Parser.DEFAULT);
   ("delete", Parser.DELETE); ("do", Parser.DO); ("else", Parser.ELSE); ("enum", Parser.KEYWORD); ("export", Parser.EXPORT);
   ("extends", Parser.EXTENDS); ("false", Parser.BOOLEAN); ("finally", Parser.FINALLY); ("for", Parser.FOR);
   ("function", Parser.FUNCTION); ("if", Parser.IF); ("import", Parser.IMPORT); ("in", Parser.IN);
   ("instanceof", Parser.INSTANCEOF); ("new", Parser.NEW); ("null", Parser.NULL); ("return", Parser.RETURN);
   ("super", Parser.SUPER); ("switch", Parser.SWITCH); ("this", Parser.THIS); ("throw", Parser.THROW); ("true", Parser.BOOLEAN);
   ("try", Parser.TRY); ("typeof", Parser.TYPEOF); ("var", Parser.VAR); ("void", Parser.VOID); ("while", Parser.WHILE);
   ("with", Parser.WITH); ("yield", Parser.YIELD);
   ("async", Parser.ASYNC); ("let", Parser.LET); ("static", Parser.STATIC)].

(** The words of the list that can also be identifiers. *)
Definition identifierWords : list string := ["await"; "yield"; "async"; "let"; "static"].

Definition reservedToken (x : string) : option Parser.Token := snd <$> List.find (λ e, String.eqb (fst e) x) reservedWords.

(** The token of a name by its text: a reserved word with an escape is not a
    keyword. *)
Definition nameToken (v : list Z) (escape : bool) : option Parser.Token :=
  if forallb (λ c, c <? 0x80) v then
    let x := goString v in
    match reservedToken x with
    | None => Some Parser.IDENTIFIER
    | Some t =>
        if escape then Some (if existsb (String.eqb x) identifierWords then Parser.IDENTIFIER else Parser.ESCAPED_RESERVED_WORD)
        else if String.eqb x "async" then None else Some t
    end
  else Some Parser.IDENTIFIER.

(** ** The grammar *)

Section grammar.
Context {D : UnicodeData} (module littleEndian : bool).

Definition whiteSpace (c : Z) : bool := oneOf [0x09; 0x0B; 0x0C; 0x20; 0xA0; 0xFEFF] c || (0x80 <=? c) && Space_Separator c.
Definition identifierStart (c : Z) : bool := oneOf (chars "$_") c || letter c || (0x80 <=? c) && ID_Start c.
Definition identifierPart (c : Z) : bool :=
  oneOf (chars "$_") c || letter c || decimalDigit c || (0x80 <=? c) && ID_Continue c || oneOf [0x200C; 0x200D] c.

Definition noLine (b : list Z) : Prop := Forall (λ c, lineTerminator c = false) b.
Definition lineEnds (s : list Z) : Prop := s = [] ∨ lineTerminator (chr s) = true.

(** From [s] to [s1] there are only white space, line ends and comments, those of
    Annex B included, with a line end outside of comments ([nl]) or inside of one
    ([cn]).  [text] is the whole text, [start] the end of the token before. *)
Inductive Blank (text start : list Z) : list Z → list Z → bool → bool → Prop :=
  | B_end s : Blank text start s s false false
  | B_space c s s1 nl cn : whiteSpace c = true → Blank text start s s1 nl cn → Blank text start (c :: s) s1 nl cn
  | B_line c s s1 nl cn : lineTerminator c = true → Blank text start s s1 nl cn → Blank text start (c :: s) s1 true cn
  | B_single b s s1 nl cn : noLine b → lineEnds s → Blank text start s s1 nl cn → Blank text start (chars "//" ++ b ++ s) s1 nl cn
  | B_multi b s s1 nl cn : (∀ b1 b2, b ++ chars "*" ≠ b1 ++ chars "*/" ++ b2) → Blank text start s s1 nl cn →
      Blank text start (chars "/*" ++ b ++ chars "*/" ++ s) s1 nl (existsb lineTerminator b || cn)
  | B_open b s s1 nl cn : module = false → noLine b → lineEnds s → Blank text start s s1 nl cn →
      Blank text start (chars "<!--" ++ b ++ s) s1 nl cn
  | B_close b s s1 nl cn : module = false → noLine b → lineEnds s →
      (length start = length text ∨ existsb lineTerminator (slice start (chars "->" ++ b ++ s)) = true) →
      Blank text start s s1 nl cn → Blank text start (chars "-->" ++ b ++ s) s1 nl cn
  | B_shebang b s s1 nl cn : noLine b → lineEnds s → length text = length (chars "#!" ++ b ++ s) →
      Blank text start s s1 nl cn → Blank text start (chars "#!" ++ b ++ s) s1 nl cn.

Definition startsWith (p : string) (s : list Z) : bool := bool_decide (take (String.length p) s = chars p).

(** A text that starts with a blank, so that no token starts there. *)
Definition startsBlank (text start s : list Z) : bool :=
  lineTerminator (chr s) || whiteSpace (chr s) || startsWith "//" s || startsWith "/*" s ||
  negb module && startsWith "<!--" s ||
  negb module && startsWith "-->" s && (Nat.eqb (length start) (length text) || existsb lineTerminator (slice start (read s))) ||
  Nat.eqb (length text) (length s) && startsWith "#!" s.

(** The text of an escape after the backslash, and the code point. *)
Inductive UnicodeEscape : list Z → Z → Prop :=
  | UE_four a b c d : Forall (Digit 16) [a; b; c; d] → UnicodeEscape (chars "u" ++ [a; b; c; d]) (radixValue 16 [a; b; c; d])
  | UE_braces ds : ds ≠ [] → Forall (Digit 16) ds → radixValue 16 ds ≤ 0x10FFFF →
      UnicodeEscape (chars "u{" ++ ds ++ chars "}") (radixValue 16 ds).

(** The characters of a name, from its first one on or later; its value, and
    whether it has an escape. *)
Inductive NameText : bool → list Z → list Z → bool → Prop :=
  | NT_nil : NameText false [] [] false
  | NT_char (f : bool) c t v b : (if f then identifierStart c else identifierPart c) = true → NameText false t v b → NameText f (c :: t) (c :: v) b
  | NT_escape (f : bool) e x t v b : UnicodeEscape e x → (if f then identifierStart x else identifierPart x) = true → NameText false t v b →
      NameText f (chars "\" ++ e ++ t) (x :: v) true.

Inductive IntegerText : list Z → Prop :=
  | IT_zero : IntegerText (chars "0")
  | IT_digits d ds : range 0x31 0x39 d = true → Forall (λ d, decimalDigit d = true) ds → IntegerText (d :: ds).

Inductive ExponentText : list Z → Prop :=
  | ET_none : ExponentText []
  | ET_exponent e sign ds : e ∈ ["e"; "E"] → sign ∈ [""; "+"; "-"] → ds ≠ [] → Forall (λ d, decimalDigit d = true) ds →
      ExponentText (chars e ++ chars sign ++ ds).

(** The literal, and whether a point may follow it. *)
Inductive NumberText : list Z → bool → Prop :=
  | NX_integer n x : IntegerText n → ExponentText x → NumberText (n ++ x) (match x with [] => false | _ => true end)
  | NX_fraction n ds x : IntegerText n → Forall (λ d, decimalDigit d = true) ds → ExponentText x → NumberText (n ++ chars "." ++ ds ++ x) true
  | NX_point ds x : ds ≠ [] → Forall (λ d, decimalDigit d = true) ds → ExponentText x → NumberText (chars "." ++ ds ++ x) true
  | NX_radix p base ds : (p, base) ∈ [("0x", 16); ("0X", 16); ("0o", 8); ("0O", 8); ("0b", 2); ("0B", 2)] → ds ≠ [] → Forall (Digit base) ds →
      NumberText (chars p ++ ds) true.

(** A token: its spelling, what follows it, and its kind, text and value.  The
    character after it does not continue it. *)
Inductive Token : list Z → list Z → Parser.Token → list Z → uni → Prop :=
  | T_punctuator sp t stops rest : (sp, t, stops) ∈ punctuators → memChr (chr rest) stops = false → Token (chars sp) rest t [] (inl [])
  | T_name sp v b t rest : NameText true sp v b → identifierPart (chr rest) = false → chr rest ≠ "\" → nameToken v b = Some t →
      Token sp rest t sp (uniOf (runesUnits v))
  | T_string q body v b rest : oneOf (34 :: chars "'") q = true → StringChars q body v b →
      Token (q :: body ++ [q]) rest Parser.STRING (q :: body ++ [q]) (uniOf v)
  | T_number sp point rest : NumberText sp point → identifierStart (chr rest) = false → chr rest ≠ "\" → decimalDigit (chr rest) = false →
      (point = false → chr rest ≠ ".") → Token sp rest Parser.NUMBER sp (inl []).

(** The tokens from [s] on; the end of the text counts as a line end. *)
Inductive Text (text : list Z) : list Z → list Parser.tok → Prop :=
  | Text_end s nl cn : Blank text s s [] nl cn → Text text s [Parser.Tok Parser.EOF "" "" true cn]
  | Text_token s sp rest nl cn t lit v ts : Blank text s s (sp ++ rest) nl cn → startsBlank text s (sp ++ rest) = false → Token sp rest t lit v →
      Text text rest ts →
      Text text s (Parser.Tok t (goString (utf8Encode lit)) (goString (uniBytes littleEndian v)) (nl || cn) cn :: ts).
End grammar.
(** ** The functions of the lexer on characters *)

Section characters.
Context {U : UnicodeTables} {D : UnicodeData} {faithful : UnicodeFaithful U D}.

Lemma isLineTerminator_spec c : isLineTerminator c = lineTerminator c.
Proof. unfold isLineTerminator, lineTerminator, oneOf. cbn [existsb]. by rewrite orb_false_r, !orb_assoc. Qed.

Lemma isDecimalDigit_spec c : isDecimalDigit c = decimalDigit c.
Proof. done. Qed.

Lemma digitOf_spec c : digitOf c = if digitValue c <? 16 then Some (digitValue c) else None.
Proof.
  unfold digitOf. change (chars "0123456789abcdef") with [48; 49; 50; 51; 52; 53; 54; 55; 56; 57; 97; 98; 99; 100; 101; 102].
  change (chars "0123456789ABCDEF") with [48; 49; 50; 51; 52; 53; 54; 55; 56; 57; 65; 66; 67; 68; 69; 70].
  pose proof (digitValue_cases c) as Hc. cbn [placeIn].
  repeat match goal with |- context [c =? ?d] => destruct (Z.eqb_spec c d); [subst c; vm_compute; reflexivity|] end.
  cbn. by rewrite (proj2 (Z.ltb_ge _ _)) by lia.
Qed.

Lemma Digit_spec base c : base ≤ 16 → Digit base c ↔ isDigit c base = true.
Proof.
  intros Hb. unfold Digit, isDigit. rewrite digitOf_spec, Z.ltb_lt. destruct (Z.ltb_spec (digitValue c) 16); [naive_solver|].
  split; [by intros (? & ? & _)|lia].
Qed.

Lemma Digits_spec base ds : base ≤ 16 → Forall (Digit base) ds ↔ Forall (λ d, isDigit d base = true) ds.
Proof. intros Hb. apply Forall_iff. intros c. by apply Digit_spec. Qed.

Lemma radixValue_hex ds : Forall (Digit 16) ds → radixValue 16 ds = hexValue ds.
Proof.
  unfold radixValue, hexValue. generalize 0 at 2 3. induction ds as [|d ds IH]; intros v HF; [done|]. apply Forall_cons in HF as [Hd HF].
  cbn [foldl]. rewrite IH by done. f_equal. apply Digit_spec in Hd; [|lia]. unfold isDigit in Hd. by rewrite digitOf_spec, Hd.
Qed.

Lemma isSpaceChr_spec c : isSpaceChr c = whiteSpace c || (c =? 0x85).
Proof.
  unfold isSpaceChr, whiteSpace, oneOf. cbn [existsb]. unfold RuneSelf. rewrite isLineTerminator_spec.
  unfold lineTerminator, oneOf. cbn [existsb].
  destruct (Z.leb_spec 0x80 c) as [Hc|Hc]; [rewrite (isSpace_table c Hc); cbn [existsb]|]; chz; cbn [andb].
  - destruct (Space_Separator c) eqn:E; [destruct (separators c E)|]; lia.
  - lia.
Qed.

Lemma isIdentifierStart_spec c : isIdentifierStart c = identifierStart c || (c =? "\").
Proof.
  unfold isIdentifierStart, identifierStart, isIdStartUnicode, letter, oneOf, range, between. change (chars "$_") with [36; 95]. cbn [existsb]. unfold RuneSelf.
  destruct (Z.leb_spec 0x80 c) as [Hc|Hc]; [rewrite (idStart_tables c Hc)|]; chz; cbn [andb].
  - generalize (ID_Start c). intros b. destruct b; lia.
  - lia.
Qed.

Lemma isIdentifierPart_spec c : isIdentifierPart c = identifierPart c || (c =? "\").
Proof.
  unfold isIdentifierPart, identifierPart, isIdPartUnicode, unicodeRangeIdContPos, letter, decimalDigit, oneOf, range, between.
  change (chars "$_") with [36; 95]. cbn [existsb]. unfold RuneSelf.
  destruct (Z.leb_spec 0x80 c) as [Hc|Hc]; [rewrite (idContinue_tables c Hc)|]; chz; cbn [andb].
  - generalize (ID_Continue c). intros b. destruct b; lia.
  - lia.
Qed.
End characters.

(** ** The table of keywords *)

(** The table of the lexer is the list of reserved words. *)
Lemma IsKeyword_spec x : IsKeyword x = (λ t, (t, false)) <$> reservedToken x.
Proof.
  unfold reservedToken. destruct (List.find (λ e, String.eqb (fst e) x) reservedWords) as [[k t]|] eqn:E.
  - apply List.find_some in E as [Hin Hx]. apply String.eqb_eq in Hx. cbn in Hx. subst x.
    assert (Forall (λ e : string * Parser.Token, IsKeyword (fst e) = Some (snd e, false)) reservedWords) as HF
      by (repeat constructor; vm_compute; reflexivity).
    rewrite Forall_forall in HF. apply list_elem_of_In in Hin. exact (HF _ Hin).
  - unfold IsKeyword. destruct (List.find (λ e, String.eqb (fst e) x) keywordTable) as [[k kw]|] eqn:E2; [|done].
    apply List.find_some in E2 as [Hin Hx]. apply String.eqb_eq in Hx. cbn in Hx. subst x.
    assert (Forall (λ e : string * keyword, List.find (λ r, String.eqb (fst r) (fst e)) reservedWords ≠ None) keywordTable) as HF
      by (repeat constructor; by vm_compute).
    rewrite Forall_forall in HF. apply list_elem_of_In in Hin. specialize (HF _ Hin). cbn in HF, E. by rewrite E in HF.
Qed.

(** The words that can be identifiers are those whose tokens the parser takes for
    one. *)
Lemma identifierWords_spec x t : reservedToken x = Some t → Parser.isBindingId t = existsb (String.eqb x) identifierWords ∧
  Parser.teq t Parser.ASYNC = String.eqb x "async".
Proof.
  unfold reservedToken. destruct (List.find (λ e, String.eqb (fst e) x) reservedWords) as [[k t']|] eqn:E; [|done]. intros [= <-].
  apply List.find_some in E as [Hin Hx]. apply String.eqb_eq in Hx. cbn in Hx. subst x.
  assert (Forall (λ e : string * Parser.Token, Parser.isBindingId (snd e) = existsb (String.eqb (fst e)) identifierWords ∧
    Parser.teq (snd e) Parser.ASYNC = String.eqb (fst e) "async") reservedWords) as HF by (repeat constructor; vm_compute; reflexivity).
  rewrite Forall_forall in HF. apply list_elem_of_In in Hin. exact (HF _ Hin).
Qed.

Lemma ascii_units v : Forall (λ c, 0 ≤ c ≤ MaxRune) v → forallb (λ c, c <? 0x80) v = true → uniOf (runesUnits v) = inl v.
Proof.
  intros HF Hv. assert (runesUnits v = v ∧ high v = false) as [-> Hh]; [|unfold uniOf; by rewrite Hh].
  induction v as [|c v IH]; [done|]. cbn in Hv. apply andb_true_iff in Hv as [Hc%Z.ltb_lt Hv]. apply Forall_cons in HF as [Hr HF].
  destruct (IH HF Hv) as [E H]. unfold runesUnits in *. cbn. rewrite E, runeUnits_bmp by lia. split; [done|]. unfold high in *. cbn. rewrite H.
  unfold RuneSelf. by rewrite (proj2 (Z.leb_gt _ _)) by lia.
Qed.

Lemma unicode_units v : Forall (λ c, 0 ≤ c ≤ MaxRune) v → forallb (λ c, c <? 0x80) v = false → uniOf (runesUnits v) = inr (BOM :: runesUnits v).
Proof.
  intros HF Hv. assert (high (runesUnits v) = true) as Hh; [|unfold uniOf; by rewrite Hh].
  induction v as [|c v IH]; [done|]. apply Forall_cons in HF as [Hr HF]. unfold runesUnits in *. cbn. rewrite high_app.
  cbn in Hv. apply andb_false_iff in Hv as [Hc%Z.ltb_ge|Hv]; [|by rewrite IH, orb_true_r].
  rewrite high_rune by done. unfold RuneSelf. by rewrite (proj2 (Z.leb_le _ _)) by lia.
Qed.

(** The bytes of a name that is not ASCII start with the BOM: it is no keyword. *)
Lemma unicode_no_keyword le u : IsKeyword (goString (uniBytes le (inr (BOM :: u)))) = None.
Proof.
  unfold IsKeyword. destruct (List.find _ keywordTable) as [[k kw]|] eqn:E; [|done]. apply List.find_some in E as [Hin Hk].
  apply String.eqb_eq in Hk. cbn in Hk. exfalso.
  assert (Forall (λ e : string * keyword, match fst e with String a _ => (Ascii.nat_of_ascii a <? 128)%nat = true | EmptyString => False end) keywordTable) as HF
    by (repeat constructor; by vm_compute).
  rewrite Forall_forall in HF. apply list_elem_of_In in Hin. specialize (HF _ Hin). cbn in HF. subst k. destruct le; by vm_compute in HF.
Qed.

Lemma wordToken_spec le v b : Forall (λ c, 0 ≤ c ≤ MaxRune) v → wordToken le (uniOf (runesUnits v)) b = nameToken v b.
Proof.
  intros HF. unfold wordToken, nameToken. destruct (forallb (λ c, c <? 0x80) v) eqn:Hv.
  - rewrite ascii_units by done. cbn [uniBytes]. rewrite IsKeyword_spec. destruct (reservedToken (goString v)) as [t|] eqn:E; [|done].
    cbn [fmap option_fmap option_map]. destruct (identifierWords_spec _ _ E) as [-> ->]. done.
  - by rewrite unicode_units, unicode_no_keyword by done.
Qed.

(** ** Texts of the grammar are texts of the lexer *)

Section texts.
Context {U : UnicodeTables} {laws : UnicodeLaws U} {D : UnicodeData} {faithful : UnicodeFaithful U D} (module littleEndian : bool).

Lemma noLine_free b : noLine b → lineFree b.
Proof. intros HF. eapply Forall_impl; [exact HF|]. intros c. by rewrite isLineTerminator_spec. Qed.

Lemma lineEnds_at s : lineEnds s → atLineEnd s.
Proof. intros [->|Hs]; [by left|right]. by rewrite isLineTerminator_spec. Qed.

Lemma hasLineEnd_spec b : hasLineEnd b = existsb lineTerminator b.
Proof. unfold hasLineEnd. induction b as [|c b IH]; [done|]. cbn. by rewrite IH, isLineTerminator_spec. Qed.

Lemma Blank_gap text start s s1 nl cn : Blank module text start s s1 nl cn → Gap module text start s s1 nl cn.
Proof.
  induction 1 as [s|c s s1 nl cn Hc HB IH|c s s1 nl cn Hc HB IH|b s s1 nl cn Hb Hs HB IH|b s s1 nl cn Hb HB IH|b s s1 nl cn Hm Hb Hs HB IH
    |b s s1 nl cn Hm Hb Hs Hst HB IH|b s s1 nl cn Hb Hs Ht HB IH].
  - constructor.
  - apply G_space; [by rewrite isSpaceChr_spec, Hc|done].
  - eapply G_line; [by rewrite isLineTerminator_spec|done].
  - apply (G_single _ _ _ b s); [by apply noLine_free|by apply lineEnds_at|done].
  - rewrite <- hasLineEnd_spec. apply (G_multi _ _ _ b s); [exact Hb|done].
  - apply (G_open _ _ _ b s); [done|by apply noLine_free|by apply lineEnds_at|done].
  - apply (G_close _ _ _ b s); [done|by apply noLine_free|by apply lineEnds_at| |done]. rewrite hasLineEnd_spec. exact Hst.
  - apply (G_shebang _ _ _ b s); [by apply noLine_free|by apply lineEnds_at|exact Ht|done].
Qed.

Lemma UnicodeEscape_name e x : UnicodeEscape e x → NameEscape e x.
Proof.
  destruct 1 as [a b c d HF|ds Hne HF Hm].
  - rewrite radixValue_hex by done. apply Digits_spec in HF; [|lia]. rewrite !Forall_cons in HF. destruct HF as (Ha & Hb & Hc & Hd & _).
    by apply NE_u4.
  - rewrite radixValue_hex in * by done. apply NE_braces; [done|by apply Digits_spec in HF|done].
Qed.

Lemma start_no_backslash c : identifierStart c = true → c ≠ "\".
Proof. intros Hc ->. by vm_compute in Hc. Qed.
Lemma part_no_backslash c : identifierPart c = true → c ≠ "\".
Proof. intros Hc ->. by vm_compute in Hc. Qed.

Lemma NameText_chars f sp v b : NameText f sp v b →
  NameChars f sp v b ∧ (f = true → ∃ c body, sp = c :: body ∧ isIdentifierStart c = true).
Proof using faithful.
  induction 1 as [|f c t v b Hc _ [IH _]|f e x t v b He Hx _ [IH _]].
  - split; [constructor|done].
  - assert (c ≠ "\" ∧ isIdentifierPart c = true) as [Hb Hp].
    { destruct f; [|split; [by apply part_no_backslash|by rewrite isIdentifierPart_spec, Hc]].
      split; [by apply start_no_backslash|]. apply start_part. by rewrite isIdentifierStart_spec, Hc. }
    split; [by apply NC_char|]. intros ->. exists c, t. split; [done|]. by rewrite isIdentifierStart_spec, Hc.
  - split; [|intros _; by exists (ch "\"), (e ++ t)].
    apply (NC_escape f e x t v b); [by apply UnicodeEscape_name|destruct f; [by apply start_no_backslash|by apply part_no_backslash]| |done].
    unfold nameChar. destruct f; [by rewrite isIdentifierStart_spec, Hx|by rewrite isIdentifierPart_spec, Hx].
Qed.

(** The value of a name is a text of code points. *)
Lemma NameText_range f sp v b : NameText f sp v b → Forall (λ c, 0 ≤ c ≤ MaxRune) sp → Forall (λ c, 0 ≤ c ≤ MaxRune) v.
Proof using faithful.
  induction 1 as [|f c t v b Hc _ IH|f e x t v b He Hx _ IH]; intros HF; [done| |].
  - apply Forall_cons in HF as [Hr HF]. constructor; [done|by apply IH].
  - apply Forall_cons in HF as [_ [_ HF]%Forall_app]. constructor; [|by apply IH]. by eapply (NameEscape_Escape e x 0), UnicodeEscape_name.
Qed.

Lemma Integer_spec n : IntegerText n → Integer n.
Proof. destruct 1 as [|d ds Hd HF]; [apply I_zero|by apply I_digits]. Qed.

Lemma Exponent_spec x : ExponentText x → Exponent x.
Proof.
  destruct 1 as [|e sign ds He Hs Hne HF]; [apply X_none|]. destruct ds as [|d ds]; [done|]. apply Forall_cons in HF as [Hd HF].
  assert (∃ z : Z, chars e = [z] ∧ (z = "e" ∨ z = "E")) as (z & -> & Hz) by (set_unfold in He; destruct He as [-> | [-> | []]]; eexists; split; eauto).
  assert (chars sign = [] ∨ chars sign = [ch "+"] ∨ chars sign = [ch "-"]) as Hsign
    by (set_unfold in Hs; destruct Hs as [-> | [-> | [-> | []]]]; auto).
  by apply X_exponent.
Qed.

Lemma Number_spec sp point : NumberText sp point → Numeral sp point.
Proof.
  destruct 1 as [n x Hn Hx|n ds x Hn HF Hx|ds x Hne HF Hx|p base ds Hp Hne HF].
  - apply (N_integer n x); [by apply Integer_spec|by apply Exponent_spec].
  - apply (N_fraction n ds x); [by apply Integer_spec|done|by apply Exponent_spec].
  - destruct ds as [|d ds]; [done|]. apply Forall_cons in HF as [Hd HF]. apply (N_point d ds x); [done..|by apply Exponent_spec].
  - destruct ds as [|d ds]; [done|]. 
    assert (∃ c : Z, chars p = [ch "0"; c] ∧ base ≤ 16 ∧ ((c = "x" ∨ c = "X") ∧ base = 16 ∨ (c = "o" ∨ c = "O") ∧ base = 8 ∨ (c = "b" ∨ c = "B") ∧ base = 2)) as (c & -> & Hb & Hc).
    { set_unfold in Hp. repeat (destruct Hp as [[= -> ->]|Hp]; [eexists; split; [reflexivity|]; split; [lia|]; tauto|]). done. }
    cbn [app]. apply (N_radix c base); [done|by apply Digits_spec].
Qed.

Lemma Token_lexeme sp rest t lit v : Forall (λ c, 0 ≤ c ≤ MaxRune) sp → Token sp rest t lit v → Lexeme littleEndian sp rest t lit v.
Proof using faithful.
  intros HF HT. destruct HT as [sp t stops rest Hin Hst|sp v b t rest HN Hr Hb Ht|q body v b rest Hq HS|sp point rest HN Hs Hb Hd Hp].
  - by eapply L_punctuator.
  - pose proof (NameText_range _ _ _ _ HN HF) as Hv. destruct (NameText_chars _ _ _ _ HN) as [HC (c & body & -> & Hc)%(λ H, H eq_refl)].
    apply (L_word _ c body v b); [done|done| |by rewrite wordToken_spec].
    rewrite isIdentifierPart_spec, Hr. by apply Z.eqb_neq.
  - apply (L_string _ q body v b); [|done]. unfold oneOf in Hq. change (chars "'") with [39] in Hq. cbn [existsb] in Hq. chz. lia.
  - apply (L_number _ sp point); [by apply Number_spec|]. split; [|done]. rewrite isIdentifierStart_spec, Hs. by apply Z.eqb_neq.
Qed.

(** A token starts with none of the characters that the lexer takes for white space
    and the grammar does not. *)
Lemma Token_first sp rest t lit v : Token sp rest t lit v → sp ≠ [] ∧ chr sp ≠ 0x85.
Proof using faithful.
  destruct 1 as [sp t stops rest Hin Hst|sp v b t rest HN Hr Hb Ht|q body v b rest Hq HS|sp point rest HN Hs Hb Hd Hp].
  - assert (Forall (λ e : string * Parser.Token * list string, chars (fst (fst e)) ≠ [] ∧ chr (chars (fst (fst e))) ≠ 0x85) punctuators) as HF
      by (repeat constructor; done).
    rewrite Forall_forall in HF. exact (HF _ Hin).
  - inversion HN as [|? c t' v' b' Hc _|? e x t' v' b' He Hx _]; subst; [|done]. split; [done|]. intros Hx. cbn in Hx. subst c.
    cbv iota in Hc. unfold identifierStart in Hc. rewrite nextLine_control in Hc. by vm_compute in Hc.
  - split; [done|]. cbn. intros ->. by vm_compute in Hq.
  - assert (∀ n s, IntegerText n → n ++ s ≠ [] ∧ chr (n ++ s) ≠ 0x85) as Hint.
    { intros n s [|d ds Hd' _]; (split; [done|]); cbn; [done|]. unfold range in Hd'. lia. }
    destruct HN as [n x Hn _|n ds x Hn _ _|ds x _ _ _|p base ds Hp' _ _]; [by apply Hint..|done|].
    set_unfold in Hp'. repeat (destruct Hp' as [[= -> ->]|Hp']; [done|]). done.
Qed.

Lemma startsWith_true p s t : s = chars p ++ t → startsWith p s = true.
Proof.
  intros ->. apply bool_decide_eq_true_2. rewrite take_app_le; [apply take_ge|]; clear; induction p; cbn; lia.
Qed.

Lemma chr_eq s c : 0 ≤ c → (chr s =? c) = true → ∃ t, s = c :: t.
Proof. intros Hc E%Z.eqb_eq. destruct s as [|d s]; cbn in E; [lia|]. subst. by exists s. Qed.

Lemma noBlank_spec text start s : s ≠ [] → chr s ≠ 0x85 → startsBlank module text start s = false → noBlank module text start s = true.
Proof using faithful.
  intros Hne Hnel. destruct s as [|c s]; [done|]. unfold startsBlank, noBlank. cbn [chr read tail] in *. rewrite !orb_false_iff.
  intros ((((((Hl & Hw) & H1) & H2) & H3) & H4) & H5).
  rewrite isLineTerminator_spec, isSpaceChr_spec, Hl, Hw, (proj2 (Z.eqb_neq c 0x85) Hnel). cbn [negb orb andb].
  unfold blankAt. destruct (isIdentifierStart c); [done|]. rewrite isLineTerminator_spec, Hl.
  assert (∀ b, existsb isLineTerminator b = existsb lineTerminator b) as -> by (intros b; apply hasLineEnd_spec).
  repeat match goal with |- match (if ?b then _ else _) with Some _ => _ | None => _ end = _ => destruct b eqn:?; [exfalso|] end; [| | | | |done];
    repeat match goal with
    | H : _ && _ = true |- _ => apply andb_true_iff in H as [? ?]
    | H : (c =? _) = true |- _ => apply Z.eqb_eq in H; subst c
    | H : (chr ?s =? ?d) = true |- _ => is_var s; apply chr_eq in H as [? ->]; [|done]; cbn [read tail peekChr] in *
    | H : (peekChr _ =? _) = true |- _ => unfold peekChr in H; cbn [read tail] in H
    end.
  - rewrite (startsWith_true "-->" (ch "-" :: ch "-" :: ch ">" :: x0) x0 eq_refl), H8, H0 in H4. done.
  - by rewrite (startsWith_true "//" (ch "/" :: ch "/" :: x) x eq_refl) in H1.
  - by rewrite (startsWith_true "/*" (ch "/" :: ch "*" :: x) x eq_refl) in H2.
  - rewrite (startsWith_true "<!--" (ch "<" :: ch "!" :: ch "-" :: ch "-" :: x) x eq_refl), H8 in H3. done.
  - rewrite (startsWith_true "#!" (ch "#" :: ch "!" :: x) x eq_refl) in H5. cbn [length] in *. by rewrite H6 in H5.
Qed.

Lemma Text_source text s ts : Forall (λ c, 0 ≤ c ≤ MaxRune) s → Text module littleEndian text s ts → Source module littleEndian text s ts.
Proof using faithful.
  intros HF HT. induction HT as [s nl cn HB|s sp rest nl cn t lit v ts HB Hn HT _ IH].
  - eapply Src_end. by apply Blank_gap.
  - apply Blank_gap in HB. destruct (Gap_suffix _ _ _ _ _ _ _ HB) as [k ->]. apply Forall_app in HF as [_ HF]. apply Forall_app in HF as [HFs HFr].
    destruct (Token_first _ _ _ _ _ HT) as [Hne Hnel]. eapply Src_cons; [exact HB| |by apply Token_lexeme|by apply IH].
    apply noBlank_spec; [by destruct sp|by destruct sp|done].
Qed.
End texts.

(** C6: every text of Unicode scalar values that the lexical grammar of ECMAScript
    builds from white space, line ends, comments, punctuators, names and reserved
    words with their escapes, string literals and decimal, hexadecimal, octal and
    binary numbers is lexed into the tokens of these, each with its text and value
    and with the line ends before it.  The grammar has none of templates, regular
    expressions, arrows, private names, the word async, numeric separators, legacy
    octal numbers and BigInts; the tables of package unicode are those of the
    Unicode properties ([UnicodeFaithful]). *)
Theorem lex_complete {U : UnicodeTables} {laws : UnicodeLaws U} {D : UnicodeData} {faithful : UnicodeFaithful U D} (module littleEndian : bool)
    (text : list Z) (ts : list Parser.tok) :
  Forall isScalar text → Text module littleEndian text text ts → lex module littleEndian text = Lexed ts.
Proof. intros HF%scalar_range HS. apply lexFrom_source; [by apply Text_source|done]. Qed.
End LexerGrammar.
