(* ===== verification/LexerSamples.v ===== *)
(** * Scanned texts

    Tables for texts whose names are ASCII, the witnesses of the theorems about the
    lexer, and texts on which it deviates from ECMAScript. *)

From S2P Require Import Prelude Utf Strings Parser Lexer LexerStrings LexerWords LexerBlanks LexerScan LexerSource LexerGrammar.
From stdpp Require Import strings.
Import Utf Lexer LexerStrings LexerWords LexerBlanks LexerScan LexerSource LexerGrammar.
Open Scope Z_scope.

Module LexerSamples.
#[local] Open Scope string_scope.
#[local] Open Scope list_scope.
#[local] Open Scope Z_scope.

(** No letters above ASCII; the white space of unicode.IsSpace. *)
Definition asciiTables : UnicodeTables := {|
  unicodeRangeIdNeg c := (c =? 0x2028) || (c =? 0x2029);
  unicodeRangeIdStartPos _ := false;
  idContinue _ := false;
  IsSpace c := existsb (Z.eqb c) [0x85; 0xA0; 0x1680; 0x2028; 0x2029; 0x202F; 0x205F; 0x3000] || between 0x2000 c 0x200A;
|}.

Definition asciiLaws : UnicodeLaws asciiTables.
Proof. by split. Defined.

Definition asciiData : UnicodeData := {|
  ID_Start _ := false;
  ID_Continue _ := false;
  Space_Separator c := existsb (Z.eqb c) [0xA0; 0x1680; 0x202F; 0x205F; 0x3000] || between 0x2000 c 0x200A;
|}.

Definition asciiFaithful : UnicodeFaithful asciiTables asciiData.
Proof. split; try done; cbn; unfold between; intros c Hc; lia. Defined.

(** [x /* LF */ ++ LF y]: the comment has a line end. *)
Definition sampleText : list Z := chars "x /*" ++ [LF] ++ chars "*/ ++" ++ [LF] ++ chars "y".

Definition sampleTokens : list Parser.tok :=
  [Parser.Tok Parser.IDENTIFIER "x" "x" false false; Parser.Tok Parser.INCREMENT "" "" true true;
   Parser.Tok Parser.IDENTIFIER "y" "y" true false; Parser.Tok Parser.EOF "" "" true false].

Lemma sampleText_scalar : Forall isScalar sampleText.
Proof. apply (bool_decide_unpack _). vm_compute. exact I. Defined.

Lemma lexer_total_witness : lex (U := asciiTables) false true sampleText = Lexed sampleTokens ∧
  (lex (U := asciiTables) false true sampleText = LexError ∨ ∃ ts, lex (U := asciiTables) false true sampleText = Lexed ts).
Proof. split; [vm_compute; reflexivity|]. apply (lexer_total (laws := asciiLaws)), sampleText_scalar. Defined.

(** After [x] a semicolon may be inserted: the comment makes it implicit, and [++]
    starts a statement. *)
Lemma next_refines_scan_witness : ∃ r, scan (U := asciiTables) false true sampleText (drop 1 sampleText) true = Some (Scan r) ∧
  s_tok r = Parser.INCREMENT ∧ s_implicit r = true.
Proof.
  destruct (next_refines_scan (laws := asciiLaws) false true sampleText (drop 1 sampleText) (Parser.Tok Parser.INCREMENT "" "" true true)
              (drop 2 sampleTokens)) with (ins := true) (c := Parser.eofTok) (imp := false) (sc := Parser.Scope true true false false []) (d := 0%nat)
    as (r & Hr & _ & Ht & _ & _ & Hn & _).
  - apply (bool_decide_unpack _). vm_compute. exact I.
  - vm_compute. reflexivity.
  - exists r. split; [exact Hr|]. split; [exact Ht|]. unfold Parser.next in Hn. cbn in Hn. by injection Hn.
Defined.

(** ** A text of the lexical grammar

[[
i = 0
while (i < 3) i++
throw i // done
]] *)

Definition script : list Z := chars "i = 0" ++ [LF] ++ chars "while (i < 3) i++" ++ [LF] ++ chars "throw i // done".

Definition punctuator (t : Parser.Token) : Parser.tok := Parser.Tok t "" "" false false.
Definition word (t : Parser.Token) (x : string) (nl : bool) : Parser.tok := Parser.Tok t x x nl false.
Definition numeral (x : string) : Parser.tok := Parser.Tok Parser.NUMBER x "" false false.

Definition scriptTokens : list Parser.tok :=
  [word Parser.IDENTIFIER "i" false; punctuator Parser.ASSIGN; numeral "0"] ++
  [word Parser.WHILE "while" true; punctuator Parser.LEFT_PARENTHESIS; word Parser.IDENTIFIER "i" false; punctuator Parser.LESS; numeral "3";
   punctuator Parser.RIGHT_PARENTHESIS; word Parser.IDENTIFIER "i" false; punctuator Parser.INCREMENT] ++
  [word Parser.THROW "throw" true; word Parser.IDENTIFIER "i" false].

(** The first [n] characters after the blanks are the token. *)
Lemma text_step (D : UnicodeData) module le text s s1 n nl cn t lit v ts x y nl' cn' :
  Blank module text s s s1 nl cn → startsBlank module text s s1 = false →
  LexerGrammar.Token (take n s1) (drop n s1) t lit v → Text module le text (drop n s1) ts →
  goString (utf8Encode lit) = x → goString (uniBytes le v) = y → nl || cn = nl' → cn = cn' → Text module le text s (Parser.Tok t x y nl' cn' :: ts).
Proof.
  intros HG Hn HL HS <- <- <- <-. rewrite <- (take_drop n s1) in HG, Hn. by eapply Text_token.
Qed.

Ltac blank := repeat first [apply B_space; [vm_compute; reflexivity|] | eapply B_line; [vm_compute; reflexivity|]]; apply B_end.

Ltac token n solve := eapply (text_step _ _ _ _ _ _ n); [blank|vm_compute; reflexivity|solve| |vm_compute; reflexivity..]; cbn [drop].
Ltac textPunctuator p := eapply (T_punctuator p); [unfold punctuators; repeat first [apply list_elem_of_here | apply list_elem_of_further]|vm_compute; reflexivity].
Ltac textName := eapply T_name; [repeat (apply NT_char; [vm_compute; reflexivity|]); apply NT_nil|vm_compute; reflexivity|by vm_compute|vm_compute; reflexivity].
Ltac textNumber := eapply T_number; [eapply (NX_integer [_] []); [first [apply IT_zero|apply IT_digits; [reflexivity|constructor]]|apply ET_none]
  |vm_compute; reflexivity|by vm_compute|vm_compute; reflexivity|by vm_compute].

Lemma script_text : Text (D := asciiData) false true script script (scriptTokens ++ [Parser.Tok Parser.EOF "" "" true false]).
Proof.
  token 1%nat textName. token 1%nat ltac:(textPunctuator "="). token 1%nat textNumber. token 5%nat textName. token 1%nat ltac:(textPunctuator "(").
  token 1%nat textName. token 1%nat ltac:(textPunctuator "<"). token 1%nat textNumber. token 1%nat ltac:(textPunctuator ")").
  token 1%nat textName. token 2%nat ltac:(textPunctuator "++"). token 5%nat textName. token 1%nat textName.
  eapply Text_end. apply B_space; [reflexivity|]. apply (B_single _ _ _ (chars " done") []); [by repeat constructor|by left|]. apply B_end.
Qed.

Lemma lex_complete_witness : lex (U := asciiTables) false true script = Lexed (scriptTokens ++ [Parser.Tok Parser.EOF "" "" true false]).
Proof.
  apply (lex_complete (laws := asciiLaws) (faithful := asciiFaithful)); [apply (bool_decide_unpack _); vm_compute; exact I|exact script_text].
Defined.

(** ** Deviations *)

(** U+0085 is white space here and in unicode.IsSpace, and not in ECMAScript: the
    text is two names. *)
Theorem nel_is_space : ∃ a b e, lex (U := asciiTables) false true [97; 0x85; 98] = Lexed [a; b; e] ∧
  Parser.parsedLiteral a = "a" ∧ Parser.parsedLiteral b = "b".
Proof. do 3 eexists. vm_compute. split_and!; reflexivity. Qed.

(** A private name may start with a digit. *)
Theorem private_digit : ∃ r, scan (U := asciiTables) false true (chars "#1") (chars "#1") false = Some (Scan r) ∧
  s_tok r = Parser.PRIVATE_IDENTIFIER ∧ s_error r = false.
Proof. eexists. vm_compute. split_and!; reflexivity. Qed.

(** In a template the escape \0 may be followed by the digit 8. *)
Theorem template_zero_eight : ∃ l r, parseTemplateCharacters (chars "\08`") = Some (Some (l, Parsed (inl [0; 56]), true, r)).
Proof. do 2 eexists. vm_compute. reflexivity. Qed.
End LexerSamples.
