(* ===== verification/LexerNumbers.v ===== *)
(** * The values of number literals

    parseNumber of parser/lexer.go: an integer that fits 64 bits comes from strconv,
    a larger one in a base that is a power of two is accumulated in 64 bits with the
    rest of the digits as an exponent and a sticky flag, and rounded once.  The
    value is the float nearest to the literal, ties to even.  strconv.ParseFloat, for
    decimal literals, is a parameter. *)

From S2P Require Import Prelude Float64 Numbers FloatBits Base64 Lexer LexerStrings.
From stdpp Require Import strings.
Import Float64 Numbers FloatBits Base64 Lexer LexerStrings.
Open Scope Z_scope.

Module LexerNumbers.
#[local] Open Scope string_scope.
#[local] Open Scope list_scope.
#[local] Open Scope Z_scope.

(** ** Definitions *)

(** bits.Len64 *)
Definition Len64 (x : Z) : Z := if x =? 0 then 0 else Z.log2 x + 1.

Definition roundToFloat64 (mant exp : Z) (sticky : bool) : float64 :=
  if mant =? 0 then zeroF false
  else
    let n := Len64 mant in
    if n <=? 53 then Ldexp (ofZ mant) exp
    else
      let shift := n - 53 in
      let m := Z.shiftr mant shift in
      let rem := Z.land mant (uwrap 64 (Z.shiftl 1 shift - 1)) in
      let half := uwrap 64 (Z.shiftl 1 (shift - 1)) in
      let m := if (half <? rem) || (rem =? half) && (sticky || (Z.land m 1 =? 1)) then uwrap 64 (m + 1) else m in
      Ldexp (ofZ m) (exp + shift).

Fixpoint skipZeros (digits : list Z) : list Z :=
  match digits with c :: ds => if (c =? "0") || (c =? "_") then skipZeros ds else digits | [] => [] end.

Fixpoint pow2Loop (bitsPerDigit mant exp : Z) (sticky : bool) (bitsUsed : Z) (digits : list Z) : Z * Z * bool :=
  match digits with
  | [] => (mant, exp, sticky)
  | c :: ds =>
      if c =? "_" then pow2Loop bitsPerDigit mant exp sticky bitsUsed ds
      else
        let d := digitValue c in
        if bitsUsed + bitsPerDigit <=? 64 then
          pow2Loop bitsPerDigit (uwrap 64 (Z.lor (Z.shiftl mant bitsPerDigit) d)) exp sticky (bitsUsed + bitsPerDigit) ds
        else pow2Loop bitsPerDigit mant (exp + bitsPerDigit) (sticky || negb (d =? 0)) bitsUsed ds
  end.

Definition parsePow2Radix (digits : list Z) (bitsPerDigit : Z) : float64 :=
  let '(mant, exp, sticky) := pow2Loop bitsPerDigit 0 0 false 0 (skipZeros digits) in roundToFloat64 mant exp sticky.

(** The value of digits with separators. *)
Definition isSep (c : Z) : bool := c =? "_".
Definition digitsOnly (ds : list Z) : list Z := List.filter (λ c, negb (isSep c)) ds.
Definition valueFrom (base v : Z) (ds : list Z) : Z := foldl (λ v d, base * v + digitValue d) v (digitsOnly ds).
Definition value (base : Z) (ds : list Z) : Z := valueFrom base 0 ds.

(** *** strconv *)

(** What precedes: a digit or the base prefix, an underscore, or something else. *)
Inductive saw := SawDigit | SawUnderscore | SawOther.

Fixpoint underscoreLoop (hex : bool) (last : saw) (s : list Z) : bool :=
  match s with
  | [] => match last with SawUnderscore => false | _ => true end
  | c :: s =>
      if isDecimalDigit c || hex && isDigit c 16 then underscoreLoop hex SawDigit s
      else if c =? "_" then match last with SawDigit => underscoreLoop hex SawUnderscore s | _ => false end
      else match last with SawUnderscore => false | _ => underscoreLoop hex SawOther s end
  end.

(** The base and the digits of an integer, for base 0. *)
Definition isEither (c a b : Z) : bool := (c =? a) || (c =? b).
Definition basePrefix (s : list Z) : Z * list Z :=
  match s with
  | c :: t =>
      if c =? "0" then
        if Nat.leb 3 (length s) && isEither (chr t) "b" "B" then (2, read t)
        else if Nat.leb 3 (length s) && isEither (chr t) "o" "O" then (8, read t)
        else if Nat.leb 3 (length s) && isEither (chr t) "x" "X" then (16, read t)
        else (8, t)
      else (10, s)
  | [] => (10, [])
  end.

Definition underscoreOK (s : list Z) : bool :=
  match s with
  | z :: c :: t =>
      if (z =? "0") && (isEither c "b" "B" || isEither c "o" "O" || isEither c "x" "X") then underscoreLoop (isEither c "x" "X") SawDigit t
      else underscoreLoop false SawOther s
  | _ => underscoreLoop false SawOther s
  end.

(** ParseInt and ParseUint in base 0 of an unsigned literal: its value, or a syntax
    error; the caller compares it with the range. *)
Definition goInteger (s : list Z) : option Z :=
  match s with
  | [] => None
  | _ =>
      let '(base, ds) := basePrefix s in
      if forallb (λ c, isSep c || isDigit c base) ds && (negb (existsb isSep ds) || underscoreOK s) then Some (value base ds) else None
  end.

Definition MaxUint64 : Z := 2 ^ 64 - 1.

Inductive numberValue := IntValue (i : Z) | FloatValue (f : float64) | BadNumber.

Section parse.
(** strconv.ParseFloat: None for a syntax error; out of range an infinity or zero. *)
Context (ParseFloat : list Z → option float64).

Definition parseNumber (literal : list Z) (kind : NumberLiteralKind) : numberValue :=
  let i := goInteger literal in
  let range := match i with Some _ => true | None => false end in
  if match i with Some v => v <=? MaxInt64 | None => false end then IntValue (default 0 i)
  else if match i with Some v => v <=? MaxUint64 | None => false end then FloatValue (ofZ (default 0 i))
  else
    let '(literal, base) :=
      match kind with
      | NumberLiteralLegacyOctal => (literal, 8)
      | NumberLiteralPlain =>
          if Nat.ltb 2 (length literal) && (chr literal =? "0") then
            let c := peekChr literal in
            if isEither c "x" "X" then (drop 2 literal, 16)
            else if isEither c "b" "B" then (drop 2 literal, 2)
            else if isEither c "o" "O" then (drop 2 literal, 8)
            else (literal, 10)
          else (literal, 10)
      | NumberLiteralNonOctalDecimal => (literal, 10)
      end in
    if base =? 10 then match ParseFloat literal with Some f => FloatValue f | None => BadNumber end
    else if range then FloatValue (parsePow2Radix literal (if base =? 16 then 4 else if base =? 8 then 3 else 1))
    else BadNumber.
End parse.

(** ** The value of digits *)

Definition digitsOf (base : Z) (ds : list Z) : Prop := Forall (λ c, isSep c = true ∨ 0 ≤ digitValue c < base) ds.

Lemma valueFrom_cons base v c ds : valueFrom base v (c :: ds) = if isSep c then valueFrom base v ds else valueFrom base (base * v + digitValue c) ds.
Proof. unfold valueFrom, digitsOnly. cbn. by destruct (isSep c). Qed.

Lemma skipZeros_value base ds : 0 < base → value base (skipZeros ds) = value base ds.
Proof.
  intros Hb. unfold value. induction ds as [|c ds IH]; [done|]. cbn [skipZeros]. destruct ((c =? "0") || (c =? "_")) eqn:E; [|done].
  rewrite IH, valueFrom_cons. unfold isSep. destruct (Z.eqb_spec c "_"); [done|]. assert (c = "0") as -> by (chz; lia).
  by replace (base * 0 + digitValue "0") with 0 by (change (digitValue "0") with 0; lia).
Qed.

Lemma skipZeros_digits base ds : digitsOf base ds → digitsOf base (skipZeros ds).
Proof. unfold digitsOf. induction 1 as [|c ds Hc HF IH]; [constructor|]. cbn. case_match; [done|by constructor]. Qed.

(** The first digit is not zero. *)
Lemma skipZeros_first ds : match skipZeros ds with c :: _ => c ≠ "0" ∧ isSep c = false | [] => True end.
Proof. induction ds as [|c ds IH]; [done|]. cbn [skipZeros]. unfold isSep in *. destruct ((c =? "0") || (c =? "_")) eqn:E; [done|]. lia. Qed.

(** ** Rounding *)

(** The float of an integer above 53 bits: round the mantissa, then scale. *)
Lemma roundF_scaled V E : 0 < V → E = Z.log2 V - 52 → 0 ≤ E → roundF false V 0 = roundF false (rne V (2 ^ E)) E.
Proof.
  intros HV -> HE. set (E := Z.log2 V - 52) in *. pose proof (round_mantissa V 0 E HV) as HR. cbn zeta in HR.
  destruct HR as [Hq Hn]; [unfold minExp; lia|].
  assert ((if E <=? 0 then V * 2 ^ (0 - E) else rne V (2 ^ (E - 0))) = rne V (2 ^ E)) as Hrw.
  { destruct (Z.leb_spec E 0) as [H0|H0]; [|by rewrite Z.sub_0_r]. assert (E = 0) as -> by lia. cbn. rewrite Z.mul_1_r.
    rewrite <- (Z.mul_1_r V) at 2. by rewrite rne_mult. }
  rewrite Hrw in Hq, Hn. set (q := rne V (2 ^ E)) in *.
  assert (2 ^ 52 ≤ q) as Hlo by (destruct Hn as [?|Hn]; [done|unfold minExp in Hn; lia]).
  unfold roundF at 1. rewrite (proj2 (Z.eqb_neq V 0)) by lia. replace (Z.max (0 + Z.log2 V - 52) minExp) with E by (unfold minExp; lia).
  rewrite Hrw. unfold roundF. rewrite (proj2 (Z.eqb_neq q 0)) by lia. destruct (Z.eqb_spec q (2 ^ 53)) as [->|Hne].
  - change (Z.log2 (2 ^ 53)) with 53. replace (Z.max (E + 53 - 52) minExp) with (E + 1) by (unfold minExp; lia).
    rewrite (proj2 (Z.leb_gt (E + 1) E)) by lia. replace (E + 1 - E) with 1 by lia. change (rne (2 ^ 53) (2 ^ 1)) with (2 ^ 52). done.
  - assert (Z.log2 q = 52) as Hl by (apply Z.log2_unique; lia). rewrite Hl. replace (Z.max (E + 52 - 52) minExp) with E by (unfold minExp; lia).
    rewrite Z.leb_refl, Z.sub_diag, Z.mul_1_r. by rewrite (proj2 (Z.eqb_neq q (2 ^ 53)) Hne).
Qed.

Lemma Ldexp_ofZ n k : 0 < n ≤ 2 ^ 53 → Ldexp (ofZ n) k = roundF false n k.
Proof.
  intros Hn. destruct (ofZ_small n ltac:(lia)) as (m & e & E & _). rewrite (proj2 (Z.ltb_ge n 0)) in E by lia. rewrite E. cbn.
  by rewrite (roundF_ofZ n m e k E) by (unfold maxInt; lia).
Qed.

(** The bits below the mantissa decide with the digits that were dropped. *)
Lemma rne_sticky mant exp low shift : 0 ≤ mant → 0 ≤ exp → 0 < shift → 0 ≤ low < 2 ^ exp →
  rne (mant * 2 ^ exp + low) (2 ^ (exp + shift)) =
    let m := mant / 2 ^ shift in
    let rem := mant mod 2 ^ shift in
    let half := 2 ^ (shift - 1) in
    if (half <? rem) || (rem =? half) && (negb (low =? 0) || negb (Z.even m)) then m + 1 else m.
Proof.
  intros Hm He Hs Hl. cbn zeta. set (m := mant / 2 ^ shift). set (rem := mant mod 2 ^ shift). set (half := 2 ^ (shift - 1)).
  assert (0 < 2 ^ exp) by (apply Z.pow_pos_nonneg; lia). assert (2 ^ shift = 2 * half) as Hh.
  { unfold half. rewrite <- Z.pow_succ_r by lia. f_equal. lia. }
  assert (0 < half) by (apply Z.pow_pos_nonneg; lia). pose proof (Z.div_mod mant (2 ^ shift) ltac:(lia)) as Hdm. fold m rem in Hdm.
  pose proof (Z.mod_pos_bound mant (2 ^ shift) ltac:(lia)) as Hrem. fold rem in Hrem.
  assert (2 ^ (exp + shift) = 2 ^ exp * (2 * half)) as Hp by (rewrite pow2_split by lia; by rewrite Hh).
  assert ((mant * 2 ^ exp + low) / 2 ^ (exp + shift) = m ∧ (mant * 2 ^ exp + low) mod 2 ^ (exp + shift) = rem * 2 ^ exp + low) as [Hd Hmod].
  { assert (0 ≤ rem * 2 ^ exp + low < 2 ^ (exp + shift)) as Hr by (rewrite Hp; nia).
    split; [symmetry; apply (Z.div_unique_pos _ _ _ _ Hr)|symmetry; apply (Z.mod_unique_pos _ _ m _ Hr)]; rewrite Hp, Hdm, Hh; ring. }
  unfold rne. rewrite Hd, Hmod, Hp. destruct (Z.ltb_spec half rem) as [H1|H1]; cbn [orb].
  { rewrite (proj2 (Z.compare_gt_iff _ _)); [done|]. nia. }
  destruct (Z.eqb_spec rem half) as [->|H2]; cbn [andb].
  - destruct (Z.eqb_spec low 0) as [->|H3]; cbn [negb orb].
    + rewrite (proj2 (Z.compare_eq_iff _ _)) by nia. by destruct (Z.even m).
    + rewrite (proj2 (Z.compare_gt_iff _ _)); [done|]. nia.
  - rewrite (proj2 (Z.compare_lt_iff _ _)); [done|]. nia.
Qed.

Lemma odd_land m : (Z.land m 1 =? 1) = negb (Z.even m).
Proof. rewrite land_1_mod, Z.negb_even, Zmod_odd. by destruct (Z.odd m). Qed.

Lemma roundToFloat64_spec mant exp low : 0 ≤ mant < 2 ^ 64 → 0 ≤ exp → 0 ≤ low < 2 ^ exp → exp = 0 ∨ 53 < Len64 mant →
  roundToFloat64 mant exp (negb (low =? 0)) = ofZ (mant * 2 ^ exp + low).
Proof.
  intros Hm He Hl Hn. unfold roundToFloat64. destruct (Z.eqb_spec mant 0) as [->|Hnz].
  { destruct Hn as [->|Hn]; [|unfold Len64 in Hn; cbn in Hn; lia]. assert (low = 0) as -> by (cbn in Hl; lia). done. }
  unfold Len64 in *. rewrite (proj2 (Z.eqb_neq mant 0) Hnz) in *. set (l := Z.log2 mant) in *.
  pose proof (log2_bounds mant ltac:(lia)) as [Hlo Hhi]. fold l in Hlo, Hhi.
  assert (0 < 2 ^ exp) by (apply Z.pow_pos_nonneg; lia). assert (0 ≤ l < 64) as Hl64 by (split; [apply Z.log2_nonneg|apply Z.log2_lt_pow2; lia]).
  assert (∀ V, 0 ≤ V → ofZ V = roundF false V 0) as HofZ by (intros V HV; unfold ofZ; rewrite (proj2 (Z.ltb_ge V 0)), Z.abs_eq by lia; done).
  destruct (Z.leb_spec (l + 1) 53) as [H53|H53].
  { destruct Hn as [->|Hn]; [|lia]. assert (low = 0) as -> by (cbn in Hl; lia). rewrite Z.mul_1_r, Z.add_0_r. rewrite Ldexp_ofZ; [by rewrite HofZ by lia|].
    assert (2 ^ l ≤ 2 ^ 52) by (apply Z.pow_le_mono_r; lia). change (2 ^ 53) with (2 * 2 ^ 52). lia. }
  set (shift := l + 1 - 53). assert (1 ≤ shift ≤ 11) as Hsh by (unfold shift; lia).
  assert (0 < 2 ^ shift ≤ 2 ^ 11 ∧ 0 < 2 ^ (shift - 1) ≤ 2 ^ 10) as [Hps Hph].
  { split; (split; [apply Z.pow_pos_nonneg; lia|apply Z.pow_le_mono_r; lia]). }
  rewrite !Z.shiftl_1_l, Z.shiftr_div_pow2 by lia. rewrite !uwrap_id by lia.
  replace (2 ^ shift - 1) with (Z.ones shift) by (rewrite Z.ones_equiv; lia). rewrite Z.land_ones by lia. rewrite odd_land.
  assert (2 ^ l = 2 ^ 52 * 2 ^ shift) as Hp2 by (rewrite <- pow2_split by lia; f_equal; unfold shift; lia).
  assert (2 ^ 52 ≤ mant / 2 ^ shift < 2 * 2 ^ 52) as Hmr by (split; [apply Z.div_le_lower_bound; lia|apply Z.div_lt_upper_bound; lia]).
  assert (Z.log2 (mant * 2 ^ exp + low) = l + exp) as Hlog.
  { apply Z.log2_unique; [lia|]. rewrite Z.pow_succ_r, pow2_split by lia. nia. }
  rewrite (HofZ (mant * 2 ^ exp + low)) by nia. rewrite (roundF_scaled _ (exp + shift)); [|nia|unfold shift; lia|lia].
  rewrite (rne_sticky mant exp low shift) by lia. cbn zeta. rewrite (uwrap_id 64 (mant / 2 ^ shift + 1)) by lia.
  apply Ldexp_ofZ. change (2 ^ 53) with (2 * 2 ^ 52). case_match; lia.
Qed.

(** ** The accumulator *)

(** After the digits read so far: the value is the mantissa, scaled, and what was
    dropped; digits are dropped only once the mantissa is full. *)
Record pow2Inv (b V mant exp low bitsUsed : Z) : Prop := {
  inv_value : V = mant * 2 ^ exp + low;
  inv_mant : 0 ≤ mant < 2 ^ bitsUsed;
  inv_first : 0 < bitsUsed → 2 ^ (bitsUsed - b) ≤ mant;
  inv_low : 0 ≤ low < 2 ^ exp;
  inv_used : 0 ≤ bitsUsed ≤ 64;
  inv_exp : 0 ≤ exp;
  inv_full : exp = 0 ∨ 64 < bitsUsed + b;
  inv_step : bitsUsed = 0 ∨ b ≤ bitsUsed;
}.

Lemma pow2Loop_spec b ds : 1 ≤ b ≤ 4 → digitsOf (2 ^ b) ds → ∀ V mant exp low used, pow2Inv b V mant exp low used →
  (used = 0 → match ds with c :: _ => isSep c = false ∧ digitValue c ≠ 0 | [] => True end) →
  ∃ mant' exp' low' used', pow2Loop b mant exp (negb (low =? 0)) used ds = (mant', exp', negb (low' =? 0)) ∧ pow2Inv b (valueFrom (2 ^ b) V ds) mant' exp' low' used'.
Proof.
  intros Hb. assert (0 < 2 ^ b) as Hpb by (apply Z.pow_pos_nonneg; lia).
  induction ds as [|c ds IH]; intros HF V mant exp low used HI Hfirst; [by exists mant, exp, low, used|].
  apply Forall_cons in HF as [Hc HF]. rewrite valueFrom_cons. cbn [pow2Loop]. fold (isSep c). destruct (isSep c) eqn:Es.
  { apply IH; [done|done|]. intros ->. by destruct (Hfirst eq_refl). }
  destruct Hc as [|Hd]; [done|]. destruct HI as [HV Hm Hf Hl Hu He Hfull Hst]. set (d := digitValue c) in *.
  destruct (Z.leb_spec (used + b) 64) as [Hfit|Hfit].
  - assert (exp = 0) as -> by lia. assert (low = 0) as -> by (cbn in Hl; lia).
    rewrite shift_digit by lia. assert (2 ^ (used + b) = 2 ^ b * 2 ^ used) as Hp by (rewrite pow2_split; lia).
    assert (2 ^ (used + b) ≤ 2 ^ 64) by (apply Z.pow_le_mono_r; lia).
    assert (0 ≤ 2 ^ b * mant + d < 2 ^ (used + b)) as Hr by nia. rewrite uwrap_id by lia.
    apply IH; [done| |intros; lia]. split; try lia; try done.
    + intros _. replace (used + b - b) with used by lia. destruct (Z.eq_dec used 0) as [->|Hne].
      * destruct (Hfirst eq_refl) as [_ Hd0]. change (2 ^ 0) with 1. fold d in Hd0. nia.
      * assert (2 ^ used = 2 ^ b * 2 ^ (used - b)) as -> by (rewrite <- pow2_split by lia; f_equal; lia). specialize (Hf ltac:(lia)). nia.
  - assert (negb (low =? 0) || negb (d =? 0) = negb (2 ^ b * low + d =? 0)) as ->.
    { destruct (Z.eqb_spec low 0), (Z.eqb_spec d 0), (Z.eqb_spec (2 ^ b * low + d) 0); cbn; try done; nia. }
    assert (2 ^ (exp + b) = 2 ^ b * 2 ^ exp) as Hp by (rewrite pow2_split; lia).
    apply IH; [done| |intros; lia]. split; try lia; try done; rewrite ?HV, Hp; nia.
Qed.

(** A literal in base 2, 8 or 16 is read as the float nearest to its exact value, ties
    to even, however many digits it has. *)
Lemma parsePow2Radix_rounds (ds : list Z) (b : Z) : b = 1 ∨ b = 3 ∨ b = 4 → digitsOf (2 ^ b) ds → parsePow2Radix ds b = ofZ (value (2 ^ b) ds).
Proof.
  intros Hb HF. unfold parsePow2Radix. rewrite <- skipZeros_value by (destruct Hb as [-> | [-> | ->]]; done). pose proof (skipZeros_first ds) as H1.
  pose proof (skipZeros_digits _ _ HF) as HF'. set (z := skipZeros ds) in *.
  destruct (pow2Loop_spec b z ltac:(lia) HF' 0 0 0 0 0) as (m & e & low & used & E & HI).
  { split; cbn; lia. }
  { intros _. destruct z as [|c z]; [done|]. destruct H1 as [Hz Hs]. split; [done|]. pose proof (digitValue_cases c). chz. lia. }
  change (negb (0 =? 0)) with false in E. rewrite E. fold (value (2 ^ b) z) in HI. destruct HI as [-> Hm Hf Hl Hu He Hfull Hst].
  apply roundToFloat64_spec; [split; [lia|]|done|done|].
  - assert (2 ^ used ≤ 2 ^ 64) by (apply Z.pow_le_mono_r; lia). lia.
  - destruct Hfull as [->|Hfull]; [by left|right]. specialize (Hf ltac:(lia)). unfold Len64. assert (2 ^ 56 ≤ 2 ^ (used - b)) by (apply Z.pow_le_mono_r; lia).
    rewrite (proj2 (Z.eqb_neq m 0)) by lia. assert (56 ≤ Z.log2 m) by (apply Z.log2_le_pow2; lia). lia.
Qed.

(** ** Literals *)

(** Digits with separators between them. *)
Inductive Separated (base : Z) : list Z → Prop :=
  | Sep_one d : isDigit d base = true → Separated base [d]
  | Sep_digit d ds : isDigit d base = true → Separated base ds → Separated base (d :: ds)
  | Sep_underscore d ds : isDigit d base = true → Separated base ds → Separated base (d :: ch "_" :: ds).

(** A literal of the scanner in base 2, 8 or 16, and its digits. *)
Inductive RadixLiteral : list Z → NumberLiteralKind → Z → list Z → Prop :=
  | RL_prefix (c : Z) base ds : (c = "x" ∨ c = "X") ∧ base = 16 ∨ (c = "o" ∨ c = "O") ∧ base = 8 ∨ (c = "b" ∨ c = "B") ∧ base = 2 →
      Separated base ds → RadixLiteral (ch "0" :: c :: ds) NumberLiteralPlain base ds
  | RL_legacy ds : ds ≠ [] → Forall (λ d, isDigit d 8 = true) ds → RadixLiteral (ch "0" :: ds) NumberLiteralLegacyOctal 8 ds.

Lemma Separated_digits base ds : Separated base ds → base ≤ 16 → digitsOf base ds ∧ forallb (λ c, isSep c || isDigit c base) ds = true ∧ ds ≠ [].
Proof.
  assert (∀ d, isDigit d base = true → 0 ≤ digitValue d < base) as Hdig by (intros d Hd; unfold isDigit in Hd; pose proof (digitValue_cases d); lia).
  intros HS Hb. induction HS as [d Hd|d ds Hd _ (IH1 & IH2 & _)|d ds Hd _ (IH1 & IH2 & _)]; cbn; rewrite Hd, ?IH2, orb_true_r;
    (split; [constructor; [right; auto|]|done]); [constructor|done|constructor; [by left|done]].
Qed.

Lemma Separated_underscore base ds hex : Separated base ds → base = 16 ∧ hex = true ∨ base = 8 ∨ base = 2 → underscoreLoop hex SawDigit ds = true.
Proof.
  intros HS Hb. assert (∀ d, isDigit d base = true → isDecimalDigit d || hex && isDigit d 16 = true) as Hd.
  { intros d Hd. unfold isDigit in *. pose proof (digitValue_cases d). preds. destruct Hb as [[-> ->]|[-> | ->]]; lia. }
  induction HS as [d H1|d ds H1 _ IH|d ds H1 HS IH]; cbn [underscoreLoop]; rewrite (Hd d H1); try done.
  replace (isDecimalDigit "_" || hex && isDigit "_" 16) with false by (by destruct hex). rewrite Z.eqb_refl.
  destruct HS as [e H2|e ds H2 _|e ds H2 _]; cbn [underscoreLoop] in *; by rewrite (Hd e H2) in *.
Qed.

Lemma radix_integer literal kind base ds : RadixLiteral literal kind base ds → goInteger literal = Some (value base ds).
Proof.
  destruct 1 as [c base ds Hc HS|ds Hne HF].
  - destruct (Separated_digits base ds HS ltac:(lia)) as (_ & HB & Hne).
    assert (basePrefix (ch "0" :: c :: ds) = (base, ds) ∧ underscoreOK (ch "0" :: c :: ds) = true) as [Hp Hu].
    { assert (Nat.leb 3 (length (ch "0" :: c :: ds)) = true) as H3 by (destruct ds; done). unfold basePrefix. rewrite Z.eqb_refl, H3. cbn [chr read tail andb].
      unfold underscoreOK, isEither. rewrite Z.eqb_refl. cbn [andb].
      destruct Hc as [[[-> | ->] ->]|[[[-> | ->] ->]|[[-> | ->] ->]]]; (split; [reflexivity|]); apply (Separated_underscore _ _ _ HS); auto. }
    unfold goInteger. rewrite Hp, HB, Hu. by rewrite orb_true_r.
  - assert (∀ d, isDigit d 8 = true → 48 ≤ d ≤ 55) as Hd by (intros d Hd; unfold isDigit in Hd; pose proof (digitValue_cases d); lia).
    assert (forallb (λ c, isSep c || isDigit c 8) ds = true ∧ existsb isSep ds = false) as [HB Hs].
    { clear Hne. induction HF as [|d ds H1 _ [IH1 IH2]]; [done|]. cbn. rewrite H1, IH1, IH2, orb_true_r. split; [done|]. specialize (Hd d H1). unfold isSep. chz. lia. }
    assert (basePrefix (ch "0" :: ds) = (8, ds)) as Hp.
    { unfold basePrefix. rewrite Z.eqb_refl. destruct ds as [|d ds]; [done|]. apply Forall_inv in HF. specialize (Hd d HF). cbn [chr]. unfold isEither. chz.
      repeat (case_match; try lia); done. }
    unfold goInteger. rewrite Hp, HB, Hs. done.
Qed.

(** C26: a literal in base 2, 8 or 16 with any number of digits and separators has the
    integer of its digits for its value if that fits a 64-bit integer, and the float
    nearest to it, ties to even, otherwise. *)
Theorem parseNumber_radix (ParseFloat : list Z → option float64) literal kind base ds : RadixLiteral literal kind base ds →
  parseNumber ParseFloat literal kind = if value base ds <=? MaxInt64 then IntValue (value base ds) else FloatValue (ofZ (value base ds)).
Proof.
  intros HL. pose proof (radix_integer _ _ _ _ HL) as Hi. unfold parseNumber. rewrite Hi. cbn [default].
  destruct (value base ds <=? MaxInt64); [done|]. destruct (value base ds <=? MaxUint64); [done|].
  destruct HL as [c base ds Hc HS|ds Hne HF].
  - destruct (Separated_digits base ds HS ltac:(lia)) as (HD & _ & Hn). assert (Nat.ltb 2 (length (ch "0" :: c :: ds)) = true) as H2 by (destruct ds; done).
    rewrite H2. cbn [chr peekChr read tail drop]. unfold peekChr. cbn [chr read tail drop]. rewrite Z.eqb_refl. cbn [andb]. unfold isEither.
    destruct Hc as [[[-> | ->] ->]|[[[-> | ->] ->]|[[-> | ->] ->]]]; cbn -[parsePow2Radix ofZ value]; f_equal;
      (apply (parsePow2Radix_rounds ds 4) || apply (parsePow2Radix_rounds ds 3) || apply (parsePow2Radix_rounds ds 1)); (lia || done).
  - cbn -[parsePow2Radix ofZ value]. f_equal. rewrite (parsePow2Radix_rounds _ 3); [|lia|].
    + done.
    + constructor; [by right|]. eapply Forall_impl; [exact HF|]. intros d Hd. right. unfold isDigit in Hd. pose proof (digitValue_cases d). lia.
Qed.

(** 0x10000000_000000801: above the middle of two floats. *)
Definition largeDigits : list Z := [49; 48; 48; 48; 48; 48; 48; 48; 95; 48; 48; 48; 48; 48; 48; 56; 48; 49].

Lemma parseNumber_radix_witness : parseNumber (λ _, None) (48 :: 120 :: largeDigits) NumberLiteralPlain = FloatValue (Fin false (2 ^ 52 + 1) 12).
Proof.
  rewrite (parseNumber_radix (λ _, None) _ _ 16 largeDigits); [vm_compute; reflexivity|]. apply RL_prefix; [by left; split; [left|]|].
  repeat first [apply Sep_one; reflexivity | apply Sep_underscore; [reflexivity|] | apply Sep_digit; [reflexivity|]].
Defined.
End LexerNumbers.
