(* ===== verification/RunString.v ===== *)
(** * From text to the machine

    RunString: the text of a script is lexed, and its tokens are run by RunScript.
    The theorem composes those of the lexer, the parser, the compiler and the
    machine. *)

From S2P Require Import Prelude Utf Vm Compiler Semantics ExprCorrect ScriptCorrect Scripts Parser ParserGrammar ParserStatements ParserTermination ParserSamples Frontend Lexer LexerStrings LexerWords LexerBlanks LexerScan LexerSource LexerGrammar LexerSamples.
From stdpp Require Import strings.
Import Vm Compiler Semantics ExprCorrect ScriptCorrect Scripts.
Open Scope Z_scope.

Module RunString.

Section run.
Context {rt : Runtime} {g0 : G} {laws : RuntimeLaws g0} {U : Lexer.UnicodeTables} {unicode : Lexer.UnicodeLaws U}.
Context {D : LexerGrammar.UnicodeData} {faithful : LexerGrammar.UnicodeFaithful U D}.
Context (numberValue stringValue : string → Value) (littleEndian : bool).

(** Run a text for [n] rounds of the machine; a lexical error is an error of the parser. *)
Definition RunString (n : nat) (text : list Z) (result : Value) (g : G) : option outcome :=
  match LexerScan.lex false littleEndian text with
  | LexerScan.Lexed toks => Frontend.RunScript (g0 := g0) numberValue stringValue n toks result g
  | _ => None
  end.

(** C3: a text that the lexical grammar builds from the tokens of a script of the
    grammar runs, through the lexer, the parser, the compiler and the machine, to
    the state and the completion, normal or an exception, that the reference
    semantics gives its tree.  Conditions: the nesting is within the limit, there is
    no directive prologue, the compiler model has the constructs of the tree
    ([compileTree]) and compiles it, the script is covered ([okScript]), the
    reference semantics completes from a state with untouched error constructors
    ([pristine]); the operators have [RuntimeLaws], and the Unicode tables are those
    of the Unicode properties. *)
Theorem RunString_correct text d ts eof l cl P fuel g c v g' rs :
  Forall Utf.isScalar text → LexerGrammar.Text false littleEndian text text (ts ++ [eof]) →
  ParserGrammar.statements d ParserStatements.scriptContext ts eof l → Parser.tk eof = Parser.EOF → (d ≤ Parser.maxNestingDepth)%nat →
  Frontend.hasPrologue l = false → Frontend.compileTree numberValue stringValue l = Some cl → okScript false cl → compile false g0 cl = Some P →
  pristine g → execScript false fuel cl g = Some ((c, v), g') →
  ∃ n o, Prescribed c g' o ∧ ∀ n', (n ≤ n')%nat → RunString n' text rs g = Some o.
Proof.
  intros HF%LexerStrings.scalar_range HS HD He Hd Hp Ht Hok Hc Hg Hx.
  destruct (Frontend.RunScript_correct numberValue stringValue d ts eof l cl P fuel g c v g' rs HD He Hd Hp Ht Hok Hc Hg Hx) as (n & o & Ho & Hn).
  exists n, o. split; [done|]. intros n' Hn'. unfold RunString, LexerScan.lex. rewrite (LexerSource.lexFrom_source _ _ _ _ _ (LexerGrammar.Text_source _ _ _ _ _ HF HS) HF). by apply Hn.
Qed.
End run.

(** ** The script of [LexerSamples] *)

Import Parser ParserGrammar ParserSamples LexerSamples.

Definition scriptTree : list Parser.stmt :=
  [ExpressionStatement (AssignExpression ASSIGN (Identifier "i") (number "0") false);
   WhileStatement (BinaryExpression LESS (Identifier "i") (number "3")) (ExpressionStatement (UnaryExpression INCREMENT (Identifier "i") true));
   ThrowStatement (Identifier "i")].

Lemma numeral_lhs d i x : derives d i LeftHandSide [numeral x] (number x).
Proof. by apply primary_lhs, D_atom. Qed.

Lemma run_script_derives : statements 8 ParserStatements.scriptContext scriptTokens eof scriptTree.
Proof.
  apply S_cons; [|apply S_cons; [|rewrite <- (app_nil_r [word THROW "throw" true; word IDENTIFIER "i" false]); apply S_cons; [|apply S_nil]]].
  - apply (S_expression _ _ [V "i"; punctuator ASSIGN; numeral "0"] _ []); try done; [|apply T_inserted; [by left|done]].
    apply assignment_expression, (D_assign _ _ [V "i"] (Identifier "i") (punctuator ASSIGN) ASSIGN [numeral "0"]); try done; [apply name_lhs|].
    apply lhs_assignment, numeral_lhs.
  - apply (S_while _ _ (word WHILE "while" true) (punctuator LEFT_PARENTHESIS) [V "i"; punctuator LESS; numeral "3"] _ (punctuator RIGHT_PARENTHESIS)); try done.
    + apply assignment_expression, bitwiseOr_assignment, relational_bitwiseOr.
      apply (D_relational _ _ [V "i"] _ (punctuator LESS) [numeral "3"]); [|done|].
      * apply exponentiation_relational, lhs_unary, name_lhs.
      * apply D_operand, (D_operand _ _ Additive), (D_operand _ _ Multiplicative), lhs_unary, numeral_lhs.
    + apply (S_expression _ _ [V "i"; punctuator INCREMENT] _ []); try done; [|apply T_inserted; [by left|done]].
      apply assignment_expression, bitwiseOr_assignment, relational_bitwiseOr, exponentiation_relational, D_unary, D_update.
      apply (D_postfix _ _ [V "i"] _ (punctuator INCREMENT)); try done; [apply name_lhs|by left].
  - apply (S_throw _ _ (word THROW "throw" true) [V "i"] _ []); try done; [|apply T_inserted; [by left|done]].
    apply assignment_expression, lhs_assignment, name_lhs.
Qed.

Definition toyNumber (x : string) : Toy.value := if String.eqb x "0" then Toy.TInt 0 else Toy.TInt 3.

(** The statements the compiler gets. *)
Definition scriptCompiled : list Toy.tstmt := default [] (Frontend.compileTree (rt := Toy.toy) toyNumber Toy.TStr scriptTree).

Lemma RunString_correct_witness : ∃ g n o,
  Toy.get "i" g = Some (Toy.TInt 3) ∧
  RunString (rt := Toy.toy) (g0 := Toy.g0) (U := asciiTables) toyNumber Toy.TStr true n script Toy.TUndef Toy.g0 = Some o ∧
  Prescribed (rt := Toy.toy) (Thrown (rt := Toy.toy) (Toy.TInt 3)) g o.
Proof.
  destruct (Toy.isSome_true (compile (rt := Toy.toy) false Toy.g0 scriptCompiled)) as [c Hc]; [vm_compute; reflexivity|].
  destruct (RunString_correct (laws := Toy.toyLaws) (unicode := asciiLaws) (faithful := asciiFaithful) toyNumber Toy.TStr true script 8 scriptTokens eof scriptTree scriptCompiled c 30 Toy.g0
              (Thrown (rt := Toy.toy) (Toy.TInt 3)) (Some (Toy.TInt 2)) (Toy.put "i" (Toy.TInt 3) Toy.g0) Toy.TUndef) as (n & o & Ho & Hn);
    [apply (bool_decide_unpack _); vm_compute; exact I|exact script_text|exact run_script_derives
    |reflexivity|apply Nat.leb_le; vm_compute; reflexivity|reflexivity|reflexivity| |exact Hc|exact Toy.pristine_g0T|vm_compute; reflexivity|].
  { split; [vm_compute; reflexivity|]. cbn. Toy.solve_okX. }
  exists (Toy.put "i" (Toy.TInt 3) Toy.g0), n, o. split; [reflexivity|]. split; [by apply Hn|exact Ho].
Defined.
End RunString.
